(* ===== verification/_CoqProject ===== *)
-Q . S2P
Prelude.v
Utf8.v
Strconv.v
Utree.v
Uweb.v
Urest.v
TomlChars.v
TomlScan.v
TomlDecode.v
TomlTime.v
TomlAst.v
TomlParser.v
TomlMarshal.v
TomlRoundtrip.v
TomlComplete.v
TomlDocument.v
TomlTracker.v
TomlUnmarshal.v
TomlInverse.v
TomlTargets.v
Umap.v
Mlock.v
PgReader.v
PgAppend.v
PgScan.v
PgWire.v
PgFormat.v
PgQuery.v
PgPool.v
PgSticky.v
PgSession.v
PgTx.v
Uboot.v
UbootEvents.v
