(* ===== verification/Prelude.v ===== *)
(** * A verification development for the [uw] toolkit

    [uw] is a toolkit of Go packages: a route tree and a web framework on top of it,
    maps and caches for goroutines, a package that starts the units of a program, a
    TOML library and a client for PostgreSQL. The packages that carry the logic are
    modelled here as Rocq functions and step functions, one file for each part, and
    the theorems that make the parts correct are proved of these definitions.

    ** The parts and their files

    - [Prelude]: the results of Go code (a value, an error, a panic, or fuel used up),
      slices that know their place in an array, sums over lists. [Utf8] and [Strconv]:
      what the code uses of the packages [unicode/utf8], [strconv] and [fmt].
    - [Utree] ([src/utree/tree.go]): the trie of routes with parameters and
      wildcards. Nodes are mutated in place and handed out, so they live in an arena.
    - [Uweb] ([src/uweb]): groups, middleware, the request context with its buffered
      writer, [Next], [End], [Close], panics and recovery, [ServeHTTP]. It registers
      its routes in the tree of [Utree]. Handlers are programs over the methods of the
      context.
    - [Urest] ([src/urest]): REST services, trees of groups whose methods become routes
      that [Uweb] can serve. Slices share arrays, so the arrays live in a heap.
    - [TomlChars], [TomlScan], [TomlDecode], [TomlTime], [TomlAst], [TomlParser]
      ([src/utoml/internal/characters], [src/utoml/unstable], [src/utoml/decode.go],
      [localtime.go]): the reader of TOML documents, from the test of a character to
      the tree of an expression, which lives in one array with relative links.
    - [TomlMarshal] ([src/utoml/marshaler.go]): the encoder. [TomlTracker]
      ([src/utoml/internal/tracker]): the keys a document has used. [TomlUnmarshal]
      and [TomlTargets] ([src/utoml/unmarshaler.go]): the decoder into generic values,
      and of scalars into typed variables.
    - [TomlRoundtrip], [TomlComplete], [TomlDocument], [TomlInverse]: encoder, parser,
      tracker and decoder composed.
    - [Umap] ([src/umap]): the interface [Mapper] as a class with laws, its two maps,
      the cache, the loading cache and the loading sessions, proved against the
      interface. [Mlock] ([src/umap/mlock.go]): locks by key, run by a scheduler.
    - [PgReader] ([src/upg/internal/pool/reader*.go]): the interface of readers as a
      class with laws, the reader of a slice and the buffered reader with its limit.
      [PgAppend] ([src/upg/types/append*.go] and others): values as SQL text.
      [PgScan] ([src/upg/types/scan.go], [array_parser.go], [hstore_parser.go] and
      others): columns as values, from any reader that keeps the laws. [PgWire]
      ([src/upg/messages.go], [write_buffer.go], [result.go]): messages written and
      answers read on a buffered reader. [PgFormat] ([src/upg/orm/format.go]):
      placeholders, filled with the text of [PgAppend]. [PgQuery] ([src/upg/orm/orm.go],
      [select.go], [insert.go], [update.go], [delete.go], [model_struct.go]): the query
      builder, whose commands write their parts with any formatter; the one of
      [PgFormat] is the one that fills in values. [PgPool]
      ([src/upg/internal/pool/pool.go]): the pool of connections, run by a scheduler.
      [PgSticky] ([pool_sticky.go], [pool_single.go]): the pools that keep one
      connection of a pool, which they know by the interface [Pooler]; the pool of
      [PgPool] is an instance of it. [PgSession] ([base.go], [tx.go], [stmt.go],
      [error.go]): attempts, loans of connections and transactions over a sticky pool,
      as one goroutine sees them. [PgTx] ([tx.go], [stmt.go]): a transaction that
      goroutines share, run by a scheduler over the steps of [PgSticky].
    - [Uboot] ([src/uboot/boot.go], [uint.go], [context.go]): starting units, run by a
      scheduler. [UbootEvents] ([event.go], [storage.go]): events, their queue, and
      the values that units leave for each other.

    ** How code is modelled

    Bytes and integers are [Z] with the wrap-around of their width where it matters;
    strings are lists of bytes. Functions keep the names of the source. Code that may
    fail returns [go], an option or a sum. Code that keeps the state of a reader when
    it fails has type [io]. Where the code shares objects (nodes of the tree, entries
    of the tracker, connections, arrays of slices) the model has the store and its indices. Code that
    goroutines run together is split at the points where they can see each other (a
    mutex, a channel, an atomic variable, a call of the environment): a step function
    runs one goroutine to its next point, and theorems hold for every interleaving.
    Code outside of the repository's own sources is an argument, mostly a class with
    the documented laws ([GoFloat], [GoStd], [GoParse], [Source], [Model], the hash
    map of [Umap]); concrete instances witness that the laws can hold.

    ** Fuel

    Loops that are not structural take a bound. The scanner and the parser take the
    length of the slice, and [parse_document_spec] shows that this is enough for every
    document. The encoder takes the depth of the value ([Encode_returns]). The readers
    of [PgReader] compute their bounds from the buffer and the limit, and
    [BufReader_refines] shows that no read runs out. The loops of [PgScan] and
    [PgWire] need more turns than the column has bytes or the answer has messages;
    the theorems state it. The formatter takes the length of the query, which is
    enough because every turn reads a byte; its other bound is the depth of parts in
    parts, one for conditions with values ([where_reads_back]). [Next] of [Urest] takes the length of the
    chain ([ServeHTTP_returns]).

    ** What the theorems show

    - Routes: which requests a registered route answers, and that nothing else is
      answered ([Set_Get_matching], [Get_sound], [Delete_Get]); the chain of handlers
      that serves it ([AddRoute_served]), that it ends ([Next_terminates]) and leaves
      nothing behind in the pooled context ([ServeHTTP_context_isolated]); the routes
      of a service are those its tree describes, with all that they hold as long as no
      two appends share the room of an array ([NewRest_routes]), and serving them ends ([ServeHTTP_returns]).
    - TOML: the fast path of the character test is the slow one, every document is
      parsed to the end ([parse_document_spec]), the tracker refines a finite map
      ([tracker_refines_map]), encoding ends and does not depend on the order of maps
      ([Encode_returns], [Encode_map_order]), and decoding gives back what was encoded
      ([Unmarshal_Marshal]). Scalars that are stored fit the type of the variable
      ([scalar_typed], [integer_bounds]).
    - Maps: the cache refines a map with expiry times, beside its collector, but for a
      value set in the middle of a deletion ([Cache_refines]); locks exclude
      each other and waiting goroutines are served ([mlock_exclusion],
      [mlock_progress]).
    - PostgreSQL: a buffered reader is the stream of its bytes ([BufReader_refines]);
      values and placeholders become single constants that no byte can leave
      ([Append_literal], [FormatQuery_literals]), nor the parentheses of its condition
      ([where_reads_back]); no DELETE is written without conditions ([where_required]),
      and errors of the builder are kept ([errors_kept]); what is written is read back
      ([arrays_read], [hstore_read], [scalars_read]); the connection stays in step with
      the server whatever fails ([query_answers_in_step], [rows_in_step]); a
      connection has one owner, and the accounts of the pool are exact
      ([pool_exclusive], [pool_accounts], [pool_progress], [sticky_pool]); a loan is
      given back once ([withConn_gives_back]); a transaction stays on its connection,
      for one goroutine that may be cancelled and for many ([tx_one_connection],
      [tx_goroutines]).
    - Units: the order of the start, and that it can always be completed
      ([boot_order], [boot_completes]); which handlers an event reaches
      ([Publish_spec]), and that queued events are taken in order, each by one worker
      ([queue_in_order]).
    - Some theorems state what the code does where that is not what it means to do:
      [local_date_loses_key], [Defx_Mmap_blocks], [Object_routes]. Examples show the
      others, among them [prepare_leaves_transaction], [groups_share_path],
      [event_left_waiting], [bad_conn_handed_out], [first_not_lost], [time_left_out],
      [collector_loses_value], [query_after_commit] and [panic_puts_back].

    ** Not modelled

    - [src/ulog], [src/ureq], [src/utils]: printing to files, HTTP requests through the
      standard library, wrappers of it.
    - In [src/urest]: the fields of requests and responses, which are found and set by
      reflection on struct tags, and the default request and response functions.
    - In [src/uweb]: the static files, cookies and the parsing of bodies, which call
      the standard library.
    - In [src/utoml]: the text of errors with its excerpt of the document
      ([errors.go]), the strict mode ([strict.go]), and decoding into structs, pointers
      and arrays, which is driven by reflection.
    - In [src/upg]: startup, TLS and authentication, which drive library code;
      listeners, which compose the parts above over a live connection; what COPY reads
      and writes; the models of rows other than structs, and the choice of a
      model by reflection ([src/upg/orm/model*.go]); the cache of scanners by type.
    - [src/pkg]: vendored code, and the tables of [src/pkg/x]. Of [src/pkg/hex] the
      portable functions are modelled with [PgAppend] and [PgScan]. *)

From Stdlib Require Export ZifyBool.
From stdpp Require Import base numbers list gmap strings.

#[local] Open Scope Z_scope.

(** ** Results of Go code *)

(** What running a piece of Go code can give: a value, an error value of
    type [E] returned to the caller, a run-time panic (an index out of range,
    a nil dereference, an explicit [panic]), or nothing because the bound on
    the number of loop iterations was used up. *)
Inductive go (E A : Type) : Type :=
| Ret (a : A)
| Fail (e : E)
| Panic
| OutOfFuel.
Arguments Ret {E A} a.
Arguments Fail {E A} e.
Arguments Panic {E A}.
Arguments OutOfFuel {E A}.

Definition go_bind {E A B} (m : go E A) (k : A -> go E B) : go E B :=
  match m with
  | Ret a => k a
  | Fail e => Fail e
  | Panic => Panic
  | OutOfFuel => OutOfFuel
  end.

#[export] Instance go_mret {E} : MRet (go E) := fun A a => Ret a.
#[export] Instance go_mbind {E} : MBind (go E) := fun A B k m => go_bind m k.

(** [returned m]: the code ran to its end, with a value or with an error. *)
Definition returned {E A} (m : go E A) : Prop :=
  match m with Ret _ | Fail _ => True | _ => False end.

(** ** Bytes, strings, slices *)

Abbreviation byte := Z (only parsing).
Abbreviation bytes := (list Z) (only parsing).

Definition byte_ok (c : Z) : Prop := 0 <= c < 256.

Fixpoint bs (s : string) : list Z :=
  match s with
  | EmptyString => []
  | String a s' => Z.of_N (Ascii.N_of_ascii a) :: bs s'
  end.

(** A decision procedure for [byte_ok], for concrete strings. *)
Lemma bytes_ok l : forallb (fun c => (0 <=? c) && (c <? 256)) l = true -> Forall byte_ok l.
Proof.
  rewrite forallb_forall, Forall_forall. intros H c Hc. unfold byte_ok.
  specialize (H c). apply list_elem_of_In in Hc. specialize (H Hc). lia.
Qed.

#[global] Opaque bs.

(** [b[i]] *)
Definition at_ {E} (b : list Z) (i : nat) : go E Z :=
  match b !! i with Some c => Ret c | None => Panic end.

(** ** Specifications of Go code *)

(** [spec m Q R]: [m] runs to its end; a value it returns satisfies [Q], an
    error it returns satisfies [R]. In particular [m] does not panic and does
    not use up its bound. *)
Definition spec {E A} (m : go E A) (Q : A -> Prop) (R : E -> Prop) : Prop :=
  match m with Ret a => Q a | Fail e => R e | Panic | OutOfFuel => False end.

Lemma spec_bind {E A B} (m : go E A) (k : A -> go E B) P Q R :
  spec m P R -> (forall a, P a -> spec (k a) Q R) -> spec (m ≫= k) Q R.
Proof. destruct m; simpl; auto. Qed.

Lemma spec_ret {E A} (a : A) (Q : A -> Prop) (R : E -> Prop) : Q a -> spec (mret a) Q R.
Proof. done. Qed.

Lemma spec_mono {E A} (m : go E A) (Q Q' : A -> Prop) (R R' : E -> Prop) :
  spec m Q R -> (forall a, Q a -> Q' a) -> (forall e, R e -> R' e) -> spec m Q' R'.
Proof. destruct m; simpl; auto. Qed.

Lemma spec_and {E A} (m : go E A) (Q Q' : A -> Prop) (R : E -> Prop) :
  spec m Q R -> spec m Q' R -> spec m (fun a => Q a /\ Q' a) R.
Proof. destruct m; simpl; auto. Qed.

Lemma spec_returned {E A} (m : go E A) Q R : spec m Q R -> returned m.
Proof. by destruct m. Qed.

Lemma spec_inv {E A} (m : go E A) Q R :
  spec m Q R -> (exists a, m = Ret a /\ Q a) \/ (exists e, m = Fail e /\ R e).
Proof. destruct m; simpl; intros H; [left|right|done|done]; eauto. Qed.

Lemma spec_at {E} (b : list Z) (i : nat) (Q : Z -> Prop) (R : E -> Prop) :
  (i < length b)%nat -> (forall c, b !! i = Some c -> Q c) -> spec (at_ b i) Q R.
Proof.
  intros Hi HQ. unfold at_. destruct (lookup_lt_is_Some_2 b i Hi) as [c Hc].
  rewrite Hc. by apply HQ.
Qed.

(** ** Slices *)

(** A slice of a document: the offset of its first byte in the document, and
    its bytes. The slices of one document alias: [off] tells where a slice
    starts, which [danger.SubsliceOffset] recovers from the addresses. *)
Record slice := Sl { off : nat; dat : list Z }.
Abbreviation slen s := (length (dat s)).

(** The nil slice, returned beside an error. *)
Definition nil_slice : slice := Sl 0 [].

(** The whole document. *)
Definition doc (b : list Z) : slice := Sl 0 b.

(** [s[i]], [s[i:]], [s[:j]], [s[i:j]]. Go allows [j] up to the capacity of
    the slice; here a [j] past the length panics, so that the absence of
    panics also shows that no slice is extended past its length. *)
Definition s_at {E} (s : slice) (i : nat) : go E Z := at_ (dat s) i.

Definition s_from {E} (s : slice) (i : nat) : go E slice :=
  if (i <=? slen s)%nat then Ret (Sl (off s + i) (drop i (dat s))) else Panic.

Definition s_to {E} (s : slice) (j : nat) : go E slice :=
  if (j <=? slen s)%nat then Ret (Sl (off s) (take j (dat s))) else Panic.

Definition s_sub {E} (s : slice) (i j : nat) : go E slice :=
  if (i <=? j)%nat && (j <=? slen s)%nat
  then Ret (Sl (off s + i) (take (j - i) (drop i (dat s)))) else Panic.

(** [s[i-1:j]] *)
Definition s_sub_pred {E} (s : slice) (i j : nat) : go E slice :=
  match i with O => Panic | S k => s_sub s k j end.

(** [sub s t]: the bytes of [s] are those of [t] at the place of [s]. *)
Definition sub (s t : slice) : Prop :=
  exists pre post, dat t = pre ++ dat s ++ post /\ off s = (off t + length pre)%nat.

#[export] Instance sub_preorder : PreOrder sub.
Proof.
  split.
  - intros s. exists [], []. rewrite app_nil_r. split; [done|simpl; lia].
  - intros s t u (p1 & q1 & E1 & O1) (p2 & q2 & E2 & O2).
    exists (p2 ++ p1), (q1 ++ q2). rewrite E2, E1, O1, O2, length_app.
    split; [by rewrite <- !app_assoc|lia].
Qed.

Lemma sub_from s i : (i <= slen s)%nat -> sub (Sl (off s + i) (drop i (dat s))) s.
Proof.
  intros Hi. exists (take i (dat s)), []. simpl. rewrite app_nil_r, take_drop, length_take.
  split; [done|]. lia.
Qed.

Lemma sub_to s j : sub (Sl (off s) (take j (dat s))) s.
Proof. exists [], (drop j (dat s)). simpl. rewrite take_drop. split; [done|lia]. Qed.

Lemma sub_sub s i n : (i <= slen s)%nat -> sub (Sl (off s + i) (take n (drop i (dat s)))) s.
Proof.
  intros Hi. etransitivity; [|by apply (sub_from s i)].
  apply (sub_to (Sl (off s + i) (drop i (dat s)))).
Qed.

Lemma sub_len s t : sub s t -> (off t <= off s /\ off s + slen s <= off t + slen t)%nat.
Proof. intros (p & q & E & O). rewrite E, !length_app. lia. Qed.

(** A slice is determined by its place. *)
Lemma sub_dat s t : sub s t -> dat s = take (slen s) (drop (off s - off t) (dat t)).
Proof.
  intros (p & q & E & O). rewrite E, O.
  replace (off t + length p - off t)%nat with (length p) by lia.
  by rewrite drop_app_length, take_app_length.
Qed.

Lemma spec_s_at {E} s i (Q : Z -> Prop) (R : E -> Prop) :
  (i < slen s)%nat -> (forall c, dat s !! i = Some c -> Q c) -> spec (s_at s i) Q R.
Proof. apply spec_at. Qed.

Lemma spec_s_from {E} s i (Q : slice -> Prop) (R : E -> Prop) :
  (i <= slen s)%nat -> Q (Sl (off s + i) (drop i (dat s))) -> spec (s_from s i) Q R.
Proof. intros Hi HQ. unfold s_from. by rewrite (proj2 (Nat.leb_le _ _)). Qed.

Lemma spec_s_to {E} s i (Q : slice -> Prop) (R : E -> Prop) :
  (i <= slen s)%nat -> Q (Sl (off s) (take i (dat s))) -> spec (s_to s i) Q R.
Proof. intros Hi HQ. unfold s_to. by rewrite (proj2 (Nat.leb_le _ _)). Qed.

Lemma spec_s_sub {E} s i j (Q : slice -> Prop) (R : E -> Prop) :
  (i <= j <= slen s)%nat -> Q (Sl (off s + i) (take (j - i) (drop i (dat s)))) ->
  spec (s_sub s i j) Q R.
Proof.
  intros Hi HQ. unfold s_sub. by rewrite (proj2 (Nat.leb_le _ _)), (proj2 (Nat.leb_le _ _)) by lia.
Qed.

Create HintDb slices.
#[export] Hint Resolve sub_from sub_to sub_sub : slices.
#[export] Hint Extern 1 (sub _ _) => reflexivity : slices.
#[export] Hint Extern 3 (_ <= _)%nat => simpl in *; lia : slices.
#[export] Hint Extern 3 (_ < _)%nat => simpl in *; lia : slices.

Lemma spec_at_bind {E B} s i (k : Z -> go E B) Q R :
  (i < slen s)%nat -> (forall c, dat s !! i = Some c -> spec (k c) Q R) ->
  spec (s_at s i ≫= k) Q R.
Proof. intros Hi Hk. apply (spec_bind _ _ (fun c => dat s !! i = Some c)); [|done].
  by apply spec_s_at. Qed.

Lemma spec_from_bind {E B} s i (k : slice -> go E B) Q R :
  (i <= slen s)%nat -> spec (k (Sl (off s + i) (drop i (dat s)))) Q R ->
  spec (s_from s i ≫= k) Q R.
Proof. intros Hi Hk. unfold s_from. by rewrite (proj2 (Nat.leb_le _ _)). Qed.

Lemma spec_to_bind {E B} s i (k : slice -> go E B) Q R :
  (i <= slen s)%nat -> spec (k (Sl (off s) (take i (dat s)))) Q R ->
  spec (s_to s i ≫= k) Q R.
Proof. intros Hi Hk. unfold s_to. by rewrite (proj2 (Nat.leb_le _ _)). Qed.

Lemma spec_sub_bind {E B} s i j (k : slice -> go E B) Q R :
  (i <= j <= slen s)%nat -> spec (k (Sl (off s + i) (take (j - i) (drop i (dat s))))) Q R ->
  spec (s_sub s i j ≫= k) Q R.
Proof.
  intros Hi Hk. unfold s_sub. by rewrite (proj2 (Nat.leb_le _ _)), (proj2 (Nat.leb_le _ _)) by lia.
Qed.

Lemma spec_sub_pred_bind {E B} s i j (k : slice -> go E B) Q R :
  (0 < i /\ i - 1 <= j <= slen s)%nat ->
  spec (k (Sl (off s + (i - 1)) (take (j - (i - 1)) (drop (i - 1) (dat s))))) Q R ->
  spec (s_sub_pred s i j ≫= k) Q R.
Proof.
  intros [H0 Hi] Hk. destruct i as [|i]; [lia|]. cbn [s_sub_pred].
  replace (S i - 1)%nat with i in * by lia. by apply spec_sub_bind.
Qed.

(** One step of a proof that a piece of code meets its specification: run the
    first operation of a sequence, leaving its bounds to [lia], or split a
    conditional. *)
Ltac go_lia := first [lia | simpl in *; rewrite ?length_take, ?length_drop in *; lia].

Ltac go_step :=
  lazymatch goal with
  | |- spec (s_at _ _ ≫= _) _ _ => apply spec_at_bind; [try go_lia|intros ?c ?Hc]
  | |- spec (s_from _ _ ≫= _) _ _ => apply spec_from_bind; [try go_lia|]
  | |- spec (s_to _ _ ≫= _) _ _ => apply spec_to_bind; [try go_lia|]
  | |- spec (s_sub _ _ _ ≫= _) _ _ => apply spec_sub_bind; [try go_lia|]
  | |- spec (s_sub_pred _ _ _ ≫= _) _ _ => apply spec_sub_pred_bind; [try go_lia|]
  | |- spec (if ?c then _ else _) _ _ => destruct c eqn:?
  | |- spec (mret _) _ _ => apply spec_ret; cbv beta match
  | |- spec (Ret _) _ _ => apply spec_ret; cbv beta match
  end.

Ltac go_run := repeat go_step.

(** ** Sums over lists *)

Lemma total_insert {A} (f : A -> nat) l i x y : l !! i = Some x -> (sum_list_with f (<[i := y]> l) + f x = sum_list_with f l + f y)%nat.
Proof.
  revert i. induction l as [|z l IH]; intros i Hi; [done|]. destruct i as [|i].
  - injection Hi as ->. change (<[0%nat := y]> (x :: l)) with (y :: l). simpl. lia.
  - change (<[S i := y]> (z :: l)) with (z :: <[i := y]> l). specialize (IH i Hi). simpl. lia.
Qed.
Lemma total_replicate {A} (f : A -> nat) k x : sum_list_with f (replicate k x) = (k * f x)%nat.
Proof. induction k as [|k IH]; simpl; [done|]. by rewrite IH. Qed.
Lemma total_ge {A} (f : A -> nat) l i x : l !! i = Some x -> (f x <= sum_list_with f l)%nat.
Proof. intros Hi. pose proof (total_insert f l i x x Hi) as E. apply list_elem_of_lookup_2, sum_list_with_in with (f := f) in Hi. lia. Qed.
(** A sum of smaller terms, one of them smaller by a known amount. *)
Lemma total_gap {A} (f g : A -> nat) l i x : (forall y, f y <= g y)%nat -> l !! i = Some x ->
  (sum_list_with f l + (g x - f x) <= sum_list_with g l)%nat.
Proof.
  intros Hle. revert i. induction l as [|z l IH]; intros i Hi; [done|].
  assert (Hl : (sum_list_with f l <= sum_list_with g l)%nat) by (clear -Hle; induction l as [|y l IHl]; simpl; [done|specialize (Hle y); lia]).
  destruct i as [|i]; simpl in *; [injection Hi as ->; specialize (Hle x); lia|].
  specialize (IH i Hi). specialize (Hle z). lia.
Qed.
Lemma total_ext {A} (f g : A -> nat) l : Forall (fun x => f x = g x) l -> sum_list_with f l = sum_list_with g l.
Proof. induction 1 as [|x l Hx _ IH]; simpl; congruence. Qed.
