(* ===== verification/Utf8.v ===== *)
(** * UTF-8 as Go has it

    Characters and their encoding ([utf8.EncodeRune]), the decoding of the next
    rune ([utf8.DecodeRuneInString]) and the loop [for _, c := range s] over the
    runes of a string, in which every byte that starts no character is the
    replacement character U+FFFD. *)
From stdpp Require Import base numbers list.
From S2P Require Import Prelude.
#[local] Open Scope Z_scope.

Module Utf8.

(** ** Characters *)

(** Unicode scalar values, and their encoding. *)
Definition scalar (cp : Z) : Prop := 0 <= cp < 55296 \/ 57344 <= cp <= 1114111.

Definition utf8_encode (cp : Z) : list Z :=
  if cp <? 128 then [cp]
  else if cp <? 2048 then [192 + cp / 64; 128 + cp mod 64]
  else if cp <? 65536 then [224 + cp / 4096; 128 + cp / 64 mod 64; 128 + cp mod 64]
  else [240 + cp / 262144; 128 + cp / 4096 mod 64; 128 + cp / 64 mod 64; 128 + cp mod 64].

(** The text of a sequence of characters. *)
Definition text (cps : list Z) : list Z := concat (utf8_encode <$> cps).

(** ** Runes of a string *)

(** [utf8.DecodeRuneInString] on a string that is not empty: the next rune and
    its size; a byte that does not start a character is U+FFFD. *)
Definition cont (lo hi : Z) (c : option Z) : option Z :=
  match c with
  | Some c => if (lo <=? c) && (c <=? hi) then Some (Z.land c 63) else None
  | None => None
  end.

Definition DecodeRune (c : Z) (l : list Z) : Z * nat :=
  let bad := (65533, 1%nat) in
  if c <? 128 then (c, 1%nat)
  else if (194 <=? c) && (c <=? 223) then
    match cont 128 191 (l !! 0%nat) with
    | Some c1 => (Z.land c 31 * 64 + c1, 2%nat)
    | None => bad
    end
  else if (224 <=? c) && (c <=? 239) then
    match cont (if c =? 224 then 160 else 128) (if c =? 237 then 159 else 191) (l !! 0%nat),
          cont 128 191 (l !! 1%nat) with
    | Some c1, Some c2 => (Z.land c 15 * 4096 + c1 * 64 + c2, 3%nat)
    | _, _ => bad
    end
  else if (240 <=? c) && (c <=? 244) then
    match cont (if c =? 240 then 144 else 128) (if c =? 244 then 143 else 191) (l !! 0%nat),
          cont 128 191 (l !! 1%nat), cont 128 191 (l !! 2%nat) with
    | Some c1, Some c2, Some c3 => (Z.land c 7 * 262144 + c1 * 4096 + c2 * 64 + c3, 4%nat)
    | _, _, _ => bad
    end
  else bad.

(** [for _, c := range s]: the runes of a string. *)
Fixpoint runes_fuel (fuel : nat) (s : list Z) : list Z :=
  match fuel, s with
  | S fuel', c :: l => let '(r, n) := DecodeRune c l in r :: runes_fuel fuel' (drop n s)
  | _, _ => []
  end.
Definition runes (s : list Z) : list Z := runes_fuel (length s) s.

(** ** Encoded characters *)

Lemma utf8_encode_nonempty cp : (0 < length (utf8_encode cp))%nat.
Proof. unfold utf8_encode. repeat case_match; simpl; lia. Qed.

Lemma utf8_encode_ascii cp : cp < 128 -> utf8_encode cp = [cp].
Proof. intros H. unfold utf8_encode. by rewrite (proj2 (Z.ltb_lt _ _)). Qed.

Lemma utf8_encode_byte_ok cp : scalar cp -> Forall byte_ok (utf8_encode cp).
Proof.
  intros Hs. unfold scalar in Hs. unfold utf8_encode, byte_ok.
  destruct (Z.ltb_spec cp 128); [repeat constructor; lia|].
  destruct (Z.ltb_spec cp 2048), (Z.ltb_spec cp 65536); repeat constructor; try lia;
    Z.to_euclidean_division_equations; lia.
Qed.

Lemma text_bytes cps : Forall scalar cps -> Forall byte_ok (text cps).
Proof.
  induction 1 as [|cp cps Hcp _ IH]; [constructor|]. unfold text. cbn [fmap list_fmap concat].
  apply Forall_app. split; [by apply utf8_encode_byte_ok|done].
Qed.

(** ** Decoding *)

Lemma cont_bounds lo hi x y : 128 <= lo -> hi <= 191 -> cont lo hi x = Some y -> lo - 128 <= y <= hi - 128.
Proof.
  intros Hlo Hhi. destruct x as [x|]; [|done]. unfold cont. case_match eqn:Hx; [|done]. intros [= <-].
  change 63 with (Z.ones 6). rewrite Z.land_ones by lia. change (2 ^ 6) with 64.
  rewrite <- (Z.mod_unique_pos x 64 2 (x - 128)); lia.
Qed.

Lemma cont_some lo hi c : 128 <= lo -> hi <= 191 -> lo <= c <= hi -> cont lo hi (Some c) = Some (c - 128).
Proof.
  intros Hlo Hhi Hc. unfold cont. rewrite (proj2 (Z.leb_le lo c)), (proj2 (Z.leb_le c hi)) by lia. simpl.
  f_equal. change 63 with (Z.ones 6). rewrite Z.land_ones by lia. change (2 ^ 6) with 64.
  rewrite <- (Z.mod_unique_pos c 64 2 (c - 128)); lia.
Qed.

(** The low bits of a lead byte. *)
Lemma land_low k m a : 0 <= k -> 0 <= a < 2 ^ k -> Z.land (m * 2 ^ k + a) (Z.ones k) = a.
Proof.
  intros Hk Ha. rewrite Z.land_ones by done. rewrite Z.add_comm, Z.mod_add by lia. by apply Z.mod_small.
Qed.

Lemma land31 c : 192 <= c < 224 -> Z.land c 31 = c - 192.
Proof. intros. rewrite <- (land_low 5 6 (c - 192)) by lia. f_equal. lia. Qed.
Lemma land15 c : 224 <= c < 240 -> Z.land c 15 = c - 224.
Proof. intros. rewrite <- (land_low 4 14 (c - 224)) by lia. f_equal. lia. Qed.
Lemma land7 c : 240 <= c < 248 -> Z.land c 7 = c - 240.
Proof. intros. rewrite <- (land_low 3 30 (c - 240)) by lia. f_equal. lia. Qed.

(** The runes of a string that are all ASCII are its bytes. *)
Lemma DecodeRune_ascii c l r n : byte_ok c -> DecodeRune c l = (r, n) -> r < 128 -> r = c /\ n = 1%nat /\ c < 128.
Proof.
  intros Hc. unfold DecodeRune, byte_ok in *.
  destruct (Z.ltb_spec c 128); [by intros [= <- <-]|].
  assert (Hbad : (65533, 1%nat) = (r, n) -> r < 128 -> r = c /\ n = 1%nat /\ c < 128) by (intros [= <- <-]; lia).
  destruct ((194 <=? c) && (c <=? 223)) eqn:E2; [|destruct ((224 <=? c) && (c <=? 239)) eqn:E3;
    [|destruct ((240 <=? c) && (c <=? 244)) eqn:E4; [|done]]].
  - destruct (cont 128 191 (l !! 0%nat)) as [c1|] eqn:H1; [|done]. apply cont_bounds in H1; [|lia..].
    rewrite land31 by lia. intros [= <- <-]; lia.
  - destruct (cont _ _ (l !! 0%nat)) as [c1|] eqn:H1; [|done].
    destruct (cont _ _ (l !! 1%nat)) as [c2|] eqn:H2; [|done].
    apply cont_bounds in H1; [|destruct (c =? 224); lia|destruct (c =? 237); lia]. apply cont_bounds in H2; [|lia..].
    rewrite land15 by lia. intros [= <- <-]; destruct (Z.eqb_spec c 224); lia.
  - destruct (cont _ _ (l !! 0%nat)) as [c1|] eqn:H1; [|done].
    destruct (cont _ _ (l !! 1%nat)) as [c2|] eqn:H2; [|done].
    destruct (cont _ _ (l !! 2%nat)) as [c3|] eqn:H3; [|done].
    apply cont_bounds in H1; [|destruct (c =? 240); lia|destruct (c =? 244); lia].
    apply cont_bounds in H2; [|lia..]. apply cont_bounds in H3; [|lia..].
    rewrite land7 by lia. intros [= <- <-]; destruct (Z.eqb_spec c 240); lia.
Qed.

Lemma runes_fuel_ascii k fuel : Forall byte_ok k -> (length k <= fuel)%nat ->
  Forall (fun r => r < 128) (runes_fuel fuel k) -> runes_fuel fuel k = k.
Proof.
  revert k. induction fuel as [|fuel IH]; intros [|c l] Hk Hf Hr; simpl in *; try done; try lia.
  apply Forall_cons in Hk as [Hc Hl]. destruct (DecodeRune c l) as [r n] eqn:E.
  apply Forall_cons in Hr as [Hr Hrs]. destruct (DecodeRune_ascii _ _ _ _ Hc E Hr) as (-> & -> & _).
  cbn [drop] in Hrs |- *. rewrite drop_0 in Hrs |- *. f_equal. apply IH; [done|lia|done].
Qed.

(** What is decoded from bytes is a character, whatever the bytes are. *)
Lemma DecodeRune_scalar c l : byte_ok c -> scalar (DecodeRune c l).1.
Proof.
  intros Hc. unfold DecodeRune, byte_ok in *. assert (Hbad : scalar 65533) by (unfold scalar; lia).
  destruct (Z.ltb_spec c 128); [unfold scalar; simpl; lia|].
  destruct ((194 <=? c) && (c <=? 223)) eqn:E2; [|destruct ((224 <=? c) && (c <=? 239)) eqn:E3;
    [|destruct ((240 <=? c) && (c <=? 244)) eqn:E4; [|done]]].
  - destruct (cont 128 191 (l !! 0%nat)) as [c1|] eqn:H1; [|done]. apply cont_bounds in H1; [|lia..].
    rewrite land31 by lia. unfold scalar; simpl. lia.
  - destruct (cont _ _ (l !! 0%nat)) as [c1|] eqn:H1; [|done].
    destruct (cont _ _ (l !! 1%nat)) as [c2|] eqn:H2; [|done].
    apply cont_bounds in H1; [|destruct (c =? 224); lia|destruct (c =? 237); lia]. apply cont_bounds in H2; [|lia..].
    rewrite land15 by lia. unfold scalar; simpl. destruct (Z.eqb_spec c 224), (Z.eqb_spec c 237); lia.
  - destruct (cont _ _ (l !! 0%nat)) as [c1|] eqn:H1; [|done].
    destruct (cont _ _ (l !! 1%nat)) as [c2|] eqn:H2; [|done].
    destruct (cont _ _ (l !! 2%nat)) as [c3|] eqn:H3; [|done].
    apply cont_bounds in H1; [|destruct (c =? 240); lia|destruct (c =? 244); lia].
    apply cont_bounds in H2; [|lia..]. apply cont_bounds in H3; [|lia..].
    rewrite land7 by lia. unfold scalar; simpl. destruct (Z.eqb_spec c 240), (Z.eqb_spec c 244); lia.
Qed.

#[local] Arguments cont : simpl never.

(** An encoded character is decoded to itself. *)
Lemma DecodeRune_encode cp rest c l : scalar cp -> utf8_encode cp ++ rest = c :: l ->
  DecodeRune c l = (cp, length (utf8_encode cp)).
Proof.
  intros Hs E. unfold scalar in Hs. unfold utf8_encode in *. unfold DecodeRune.
  destruct (Z.ltb_spec cp 128); [injection E as -> ->; by rewrite (proj2 (Z.ltb_lt _ _))|].
  destruct (Z.ltb_spec cp 2048); [|destruct (Z.ltb_spec cp 65536)]; injection E as Hc Hl; subst l; cbn [lookup list_lookup app length].
  - assert (Hb : 194 <= c <= 223) by (subst; Z.to_euclidean_division_equations; lia).
    rewrite (proj2 (Z.ltb_ge c 128)), (proj2 (Z.leb_le 194 c)), (proj2 (Z.leb_le c 223)) by lia. simpl.
    rewrite cont_some, land31 by (try (Z.to_euclidean_division_equations; lia); lia).
    f_equal. subst. Z.to_euclidean_division_equations; lia.
  - assert (Hb : 224 <= c <= 239) by (subst; Z.to_euclidean_division_equations; lia).
    rewrite (proj2 (Z.ltb_ge c 128)), (proj2 (Z.leb_gt c 223)), (proj2 (Z.leb_le 224 c)), (proj2 (Z.leb_le c 239)) by lia.
    rewrite andb_false_r. simpl.
    rewrite cont_some;
      [|destruct (Z.eqb_spec c 224); lia|destruct (Z.eqb_spec c 237); lia
       |destruct (Z.eqb_spec c 224), (Z.eqb_spec c 237); Z.to_euclidean_division_equations; lia].
    rewrite cont_some, land15 by (try (Z.to_euclidean_division_equations; lia); lia).
    f_equal. subst. Z.to_euclidean_division_equations; lia.
  - assert (Hb : 240 <= c <= 244) by (subst; Z.to_euclidean_division_equations; lia).
    rewrite (proj2 (Z.ltb_ge c 128)), (proj2 (Z.leb_gt c 223)), (proj2 (Z.leb_gt c 239)),
      (proj2 (Z.leb_le 240 c)), (proj2 (Z.leb_le c 244)) by lia.
    rewrite !andb_false_r. simpl.
    rewrite cont_some;
      [|destruct (Z.eqb_spec c 240); lia|destruct (Z.eqb_spec c 244); lia
       |destruct (Z.eqb_spec c 240), (Z.eqb_spec c 244); Z.to_euclidean_division_equations; lia].
    rewrite !cont_some, land7 by (try (Z.to_euclidean_division_equations; lia); lia).
    f_equal. subst. Z.to_euclidean_division_equations; lia.
Qed.

Lemma DecodeRune_size c l : (1 <= (DecodeRune c l).2)%nat.
Proof. unfold DecodeRune. repeat case_match; simpl; lia. Qed.

Lemma runes_fuel_scalar fuel s : Forall byte_ok s -> Forall scalar (runes_fuel fuel s).
Proof.
  revert s. induction fuel as [|fuel IH]; intros [|c l] Hs; simpl; try constructor.
  destruct (DecodeRune c l) as [r n] eqn:E. constructor.
  - change r with (r, n).1. rewrite <- E. apply DecodeRune_scalar. by apply Forall_cons in Hs as [? _].
  - apply IH. by apply Forall_drop.
Qed.
Lemma runes_scalar s : Forall byte_ok s -> Forall scalar (runes s).
Proof. apply runes_fuel_scalar. Qed.

(** Without a condition on the bytes: ASCII or a character. *)
Definition rune_ok (r : Z) : Prop := r < 128 \/ scalar r.

Lemma DecodeRune_ok c l : rune_ok (DecodeRune c l).1.
Proof.
  destruct (decide (c < 128)) as [Hc|Hc].
  - left. unfold DecodeRune. rewrite (proj2 (Z.ltb_lt _ _)) by done. done.
  - right. destruct (decide (c < 256)) as [Hb|Hb]; [apply DecodeRune_scalar; unfold byte_ok; lia|].
    unfold DecodeRune. rewrite (proj2 (Z.ltb_ge c 128)), (proj2 (Z.leb_gt c 223)), (proj2 (Z.leb_gt c 239)), (proj2 (Z.leb_gt c 244)) by lia.
    rewrite !andb_false_r. unfold scalar. simpl. lia.
Qed.

Lemma runes_ok s : Forall rune_ok (runes s).
Proof.
  unfold runes. generalize (length s) as fuel. intros fuel. revert s.
  induction fuel as [|fuel IH]; intros [|c l]; simpl; try constructor.
  destruct (DecodeRune c l) as [r n] eqn:E. constructor; [|apply IH].
  change r with (r, n).1. rewrite <- E. apply DecodeRune_ok.
Qed.

Lemma text_cons cp cps : text (cp :: cps) = utf8_encode cp ++ text cps.
Proof. done. Qed.
Lemma text_app a b : text (a ++ b) = text a ++ text b.
Proof. unfold text. by rewrite fmap_app, concat_app. Qed.

(** The runes of a text are its characters: ranging over UTF-8 loses nothing. *)
Lemma runes_fuel_text fuel cps : Forall scalar cps -> (length (text cps) <= fuel)%nat ->
  runes_fuel fuel (text cps) = cps.
Proof.
  revert fuel. induction cps as [|cp cps IH]; intros fuel Hs Hf; [by destruct fuel|].
  apply Forall_cons in Hs as [Hcp Hs]. rewrite text_cons in *. rewrite length_app in Hf.
  pose proof (utf8_encode_nonempty cp). destruct fuel as [|fuel]; [lia|].
  destruct (utf8_encode cp ++ text cps) as [|c l] eqn:E.
  { apply (f_equal length) in E. rewrite length_app in E. simpl in E. lia. }
  cbn [runes_fuel]. rewrite (DecodeRune_encode _ _ _ _ Hcp E), <- E, drop_app_length. f_equal. apply IH; [done|lia].
Qed.
Lemma runes_text cps : Forall scalar cps -> runes (text cps) = cps.
Proof. intros. by apply runes_fuel_text. Qed.

(** Induction on the pieces that ranging over a string reads. *)
Lemma runes_cons c l : runes (c :: l) = (DecodeRune c l).1 :: runes (drop (DecodeRune c l).2 (c :: l)).
Proof.
  assert (Hf : forall f s, (length s <= f)%nat -> runes_fuel f s = runes s).
  { intros f. induction f as [f IH] using lt_wf_ind. intros [|x s] Hl; [by destruct f|].
    destruct f as [|f]; [simpl in Hl; lia|]. unfold runes. cbn [runes_fuel length].
    destruct (DecodeRune x s) as [r n] eqn:E. f_equal.
    pose proof (DecodeRune_size x s) as Hn. rewrite E in Hn. simpl in Hn.
    assert (Hd : (length (drop n (x :: s)) <= length s)%nat) by (rewrite length_drop; simpl; lia).
    simpl in Hl. rewrite (IH f), (IH (length s)); [done|lia..]. }
  unfold runes at 1. cbn [runes_fuel length]. destruct (DecodeRune c l) as [r n] eqn:E. cbn [fst snd]. f_equal.
  apply Hf. pose proof (DecodeRune_size c l) as Hn. rewrite E in Hn. simpl in Hn. rewrite length_drop. simpl. lia.
Qed.

End Utf8.
