(* ===== verification/Strconv.v ===== *)
(** * Integers as text: what the code uses of Go's [strconv] and [fmt]

    [strconv.ParseInt] at 64 bits, [strconv.FormatInt], and [fmt]'s [%d] and
    [%0Nd] verbs, with the lemmas that printing and reading are inverse. *)
From stdpp Require Import base numbers list gmap strings.
From S2P Require Import Prelude.
#[local] Open Scope Z_scope.

Module Strconv.

Definition int64_min : Z := - 2 ^ 63.
Definition int64_max : Z := 2 ^ 63 - 1.
Definition int64_ok (z : Z) : Prop := int64_min <= z <= int64_max.

(** ** Reading *)

(** The value of a digit: [0-9], then letters of either case. *)
Definition digit_val (c : Z) : option Z :=
  if (48 <=? c) && (c <=? 57) then Some (c - 48)
  else
    let l := Z.lor c 32 in
    if (97 <=? l) && (l <=? 122) then Some (l - 97 + 10) else None.

(** The digits of a number, most significant first; [None] is a syntax error. *)
Fixpoint parse_digits (base acc : Z) (s : list Z) : option Z :=
  match s with
  | [] => Some acc
  | c :: s' =>
      match digit_val c with
      | Some d => if d <? base then parse_digits base (acc * base + d) s' else None
      | None => None
      end
  end.

(** [strconv.ParseInt(s, base, 64)] for a base other than 0; [None] is a syntax
    or a range error. *)
Definition ParseInt (s : list Z) (base : Z) : option Z :=
  match s with
  | [] => None
  | c :: s' =>
      let neg := c =? 45 in
      let body := if (c =? 43) || (c =? 45) then s' else s in
      match body with
      | [] => None
      | _ =>
          match parse_digits base 0 body with
          | Some un =>
              if negb neg then if un <=? int64_max then Some un else None
              else if - un <? int64_min then None else Some (- un)
          | None => None
          end
      end
  end.

#[global] Arguments ParseInt : simpl never.

(** ** Printing *)

Definition digit_char (d : Z) : Z := if d <? 10 then 48 + d else 97 + (d - 10).

Fixpoint format_digits (fuel : nat) (base z : Z) (acc : list Z) : list Z :=
  match fuel with
  | O => acc
  | S fuel' =>
      if z <? base then digit_char z :: acc
      else format_digits fuel' base (z / base) (digit_char (z mod base) :: acc)
  end.

(** [strconv.FormatUint(z, base)]; the fuel bounds the number of digits. *)
Definition FormatUint (z base : Z) : list Z :=
  format_digits (S (Z.to_nat (Z.log2 z))) base z [].

Definition FormatInt (z base : Z) : list Z :=
  if z <? 0 then 45 :: FormatUint (- z) base else FormatUint z base.

Definition Itoa (z : Z) : list Z := FormatInt z 10.

(** [%0Nd]: padded with zeros to [width] characters, the sign included. *)
Definition fmt_0d (width : nat) (z : Z) : list Z :=
  let sign := if z <? 0 then [45] else [] in
  let ds := FormatUint (Z.abs z) 10 in
  sign ++ replicate (width - length sign - length ds) 48 ++ ds.

(** ** Reading what was printed *)

Lemma digit_val_char base d : 2 <= base <= 36 -> 0 <= d < base -> digit_val (digit_char d) = Some d.
Proof.
  intros Hb Hd. unfold digit_val, digit_char. destruct (Z.ltb_spec d 10) as [Hlt|Hge].
  - rewrite (proj2 (Z.leb_le _ _)), (proj2 (Z.leb_le _ _)) by lia. simpl. f_equal. lia.
  - assert (H : forallb (fun i => let l := Z.lor (97 + (Z.of_nat i)) 32 in
      (l =? 97 + Z.of_nat i)) (seq 0 26) = true) by reflexivity.
    rewrite forallb_forall in H. specialize (H (Z.to_nat (d - 10))).
    rewrite in_seq in H. specialize (H ltac:(lia)). rewrite Z2Nat.id in H by lia.
    destruct (Z.leb_spec (97 + (d - 10)) 57); [lia|]. rewrite andb_false_r.
    apply Z.eqb_eq in H. rewrite H.
    rewrite (proj2 (Z.leb_le _ _)), (proj2 (Z.leb_le _ _)) by lia. simpl. f_equal. lia.
Qed.

(** How many digits the fuel must cover. *)
Lemma log2_div z base : 2 <= base -> base <= z -> (Z.to_nat (Z.log2 (z / base)) < Z.to_nat (Z.log2 z))%nat.
Proof.
  intros Hb Hz. assert (1 <= z / base) by (apply Z.div_le_lower_bound; lia).
  assert (Hlt : Z.log2 (z / base) < Z.log2 z).
  { apply Z.log2_lt_pow2; [lia|]. apply Z.div_lt_upper_bound; [lia|].
    pose proof (Z.log2_spec z ltac:(lia)) as [_ Hs]. rewrite Z.pow_succ_r in Hs by apply Z.log2_nonneg.
    pose proof (Z.pow_nonneg 2 (Z.log2 z) ltac:(lia)). nia. }
  pose proof (Z.log2_nonneg (z / base)). lia.
Qed.

Lemma parse_format_digits fuel base z acc a :
  2 <= base <= 36 -> 0 <= z -> (Z.to_nat (Z.log2 z) < fuel)%nat ->
  exists k, parse_digits base a (format_digits fuel base z acc) = parse_digits base (a * base ^ Z.of_nat k + z) acc
    /\ (0 < k)%nat.
Proof.
  intros Hb. revert z acc a. induction fuel as [|fuel IH]; intros z acc a Hz Hf; [lia|]. simpl.
  destruct (Z.ltb_spec z base) as [Hlt|Hge].
  - exists 1%nat. simpl. rewrite (digit_val_char base) by lia.
    rewrite (proj2 (Z.ltb_lt _ _)) by lia. split; [f_equal; lia|lia].
  - destruct (IH (z / base) (digit_char (z mod base) :: acc) a) as (k & E & Hk).
    { apply Z.div_pos; lia. }
    { pose proof (log2_div z base). lia. }
    exists (S k). rewrite E. simpl.
    pose proof (Z.mod_pos_bound z base). rewrite (digit_val_char base) by lia.
    rewrite (proj2 (Z.ltb_lt _ _)) by lia. split; [|lia]. f_equal.
    rewrite Nat2Z.inj_succ, Z.pow_succ_r by lia.
    rewrite (Z.div_mod z base) at 3 by lia. lia.
Qed.

Lemma parse_FormatUint base z :
  2 <= base <= 36 -> 0 <= z -> parse_digits base 0 (FormatUint z base) = Some z.
Proof.
  intros Hb Hz. unfold FormatUint.
  destruct (parse_format_digits (S (Z.to_nat (Z.log2 z))) base z [] 0 Hb Hz ltac:(lia)) as (k & E & _).
  rewrite E. done.
Qed.

(** The characters that are printed. *)
Lemma format_digits_forall (P : Z -> Prop) fuel base z acc :
  2 <= base -> 0 <= z -> (forall d, 0 <= d < base -> P (digit_char d)) ->
  Forall P acc -> Forall P (format_digits fuel base z acc).
Proof.
  intros Hb Hz HP. revert z acc Hz. induction fuel as [|fuel IH]; intros z acc Hz Ha; [done|]. simpl.
  destruct (Z.ltb_spec z base).
  - constructor; [|done]. apply HP. lia.
  - apply IH; [apply Z.div_pos; lia|]. constructor; [|done]. apply HP, Z.mod_pos_bound. lia.
Qed.

Lemma FormatUint_forall (P : Z -> Prop) base z :
  2 <= base -> 0 <= z -> (forall d, 0 <= d < base -> P (digit_char d)) -> Forall P (FormatUint z base).
Proof. intros. by apply format_digits_forall. Qed.

Lemma FormatUint_digits z : 0 <= z -> Forall (fun c => 48 <= c <= 57) (FormatUint z 10).
Proof.
  intros Hz. apply FormatUint_forall; [lia|done|]. intros d Hd. unfold digit_char.
  destruct (Z.ltb_spec d 10); lia.
Qed.

(** The first digit: not zero, unless the number is a single zero. *)
Lemma format_digits_head fuel base z acc :
  2 <= base -> 0 < z -> (Z.to_nat (Z.log2 z) < fuel)%nat ->
  exists d l, format_digits fuel base z acc = digit_char d :: l ++ acc /\ 0 < d < base.
Proof.
  intros Hb. revert z acc. induction fuel as [|fuel IH]; intros z acc Hz Hf; [lia|]. simpl.
  destruct (Z.ltb_spec z base).
  - exists z, []. split; [done|lia].
  - destruct (IH (z / base) (digit_char (z mod base) :: acc)) as (d & l & E & Hd).
    + apply Z.div_str_pos. lia.
    + pose proof (log2_div z base). lia.
    + exists d, (l ++ [digit_char (z mod base)]). rewrite E. split; [|done].
      by rewrite <- app_assoc.
Qed.

Lemma FormatUint_head z base :
  2 <= base -> 0 < z -> exists d l, FormatUint z base = digit_char d :: l /\ 0 < d < base.
Proof.
  intros Hb Hz. destruct (format_digits_head (S (Z.to_nat (Z.log2 z))) base z [] Hb Hz)
    as (d & l & E & Hd); [lia|]. rewrite app_nil_r in E. eauto.
Qed.

Lemma FormatUint_nonempty z base : 2 <= base -> 0 <= z -> FormatUint z base <> [].
Proof.
  intros Hb Hz. destruct (decide (z = 0)) as [->|].
  - unfold FormatUint. simpl. by rewrite (proj2 (Z.ltb_lt _ _)) by lia.
  - destruct (FormatUint_head z base) as (d & l & -> & _); [lia..|done].
Qed.

(** The number of digits printed. *)
Lemma format_digits_length fuel base z acc n :
  2 <= base -> 0 <= z < base ^ Z.of_nat n -> (0 < n)%nat ->
  (length (format_digits fuel base z acc) <= n + length acc)%nat.
Proof.
  intros Hb. revert z acc n. induction fuel as [|fuel IH]; intros z acc n Hz Hn; [simpl; lia|]. simpl.
  destruct (Z.ltb_spec z base); [simpl; lia|].
  destruct n as [|[|n]]; [lia| |].
  - rewrite Z.pow_1_r in Hz. lia.
  - rewrite Nat2Z.inj_succ, Z.pow_succ_r in Hz by lia.
    specialize (IH (z / base) (digit_char (z mod base) :: acc) (S n)). simpl in IH.
    etransitivity; [apply IH|lia]; [|lia]. split; [apply Z.div_pos; lia|].
    apply Z.div_lt_upper_bound; lia.
Qed.

Lemma FormatUint_length base z n :
  2 <= base -> 0 <= z < base ^ Z.of_nat n -> (0 < n)%nat -> (length (FormatUint z base) <= n)%nat.
Proof.
  intros Hb Hz Hn. pose proof (format_digits_length (S (Z.to_nat (Z.log2 z))) base z [] n Hb Hz Hn) as H.
  change (length (@nil Z)) with 0%nat in H. unfold FormatUint. lia.
Qed.

Lemma parse_digits_zeros base k s : 2 <= base -> parse_digits base 0 (replicate k 48 ++ s) = parse_digits base 0 s.
Proof. intros Hb. induction k as [|k IH]; [done|]. simpl. rewrite (proj2 (Z.ltb_lt _ _)) by lia. apply IH. Qed.

(** A number below [10^n] printed with [%0nd]: [n] digits, with its value. *)
Lemma fmt_0d_spec n z :
  (0 < n)%nat -> 0 <= z < 10 ^ Z.of_nat n ->
  length (fmt_0d n z) = n /\ Forall (fun c => 48 <= c <= 57) (fmt_0d n z) /\
  parse_digits 10 0 (fmt_0d n z) = Some z.
Proof.
  intros Hn Hz. unfold fmt_0d. rewrite (proj2 (Z.ltb_ge _ _)) by lia. simpl.
  rewrite Nat.sub_0_r, Z.abs_eq by lia.
  pose proof (FormatUint_length 10 z n ltac:(lia) Hz Hn). split_and!.
  - rewrite length_app, length_replicate. lia.
  - apply Forall_app. split; [apply Forall_replicate; lia|]. apply FormatUint_digits. lia.
  - rewrite parse_digits_zeros by lia. apply parse_FormatUint; lia.
Qed.

(** [strconv.ParseInt] reads what [strconv.FormatInt] prints. *)
Lemma ParseInt_body base c s :
  c <> 43 -> c <> 45 -> ParseInt (c :: s) base =
  match parse_digits base 0 (c :: s) with
  | Some un => if un <=? int64_max then Some un else None
  | None => None
  end.
Proof.
  intros H1 H2. unfold ParseInt. destruct (Z.eqb_spec c 43), (Z.eqb_spec c 45); lia || done.
Qed.

Lemma digit_char_not_sign d : 0 <= d < 36 -> digit_char d <> 43 /\ digit_char d <> 45 /\ digit_char d <> 95.
Proof. intros Hd. unfold digit_char. destruct (Z.ltb_spec d 10); lia. Qed.

Lemma FormatUint_cons z base : 2 <= base <= 36 -> 0 <= z -> exists c s,
  FormatUint z base = c :: s /\ c <> 43 /\ c <> 45.
Proof.
  intros Hb Hz. pose proof (FormatUint_nonempty z base ltac:(lia) Hz) as Hn.
  assert (HF : Forall (fun c => c <> 43 /\ c <> 45) (FormatUint z base)).
  { apply FormatUint_forall; [lia|done|]. intros d Hd. pose proof (digit_char_not_sign d). lia. }
  destruct (FormatUint z base) as [|c s]; [done|]. apply Forall_cons in HF as [? _]. eauto.
Qed.

Lemma ParseInt_FormatUint base z :
  2 <= base <= 36 -> 0 <= z <= int64_max -> ParseInt (FormatUint z base) base = Some z.
Proof.
  intros Hb Hz. destruct (FormatUint_cons z base) as (c & s & E & H1 & H2); [lia..|].
  rewrite E, ParseInt_body, <- E, parse_FormatUint by lia.
  by rewrite (proj2 (Z.leb_le _ _)) by lia.
Qed.

Lemma ParseInt_FormatInt base z :
  2 <= base <= 36 -> int64_ok z -> ParseInt (FormatInt z base) base = Some z.
Proof.
  intros Hb [H1 H2]. unfold FormatInt. destruct (Z.ltb_spec z 0).
  - destruct (FormatUint_cons (- z) base) as (c & s & E & _); [lia..|].
    unfold ParseInt. simpl. rewrite E, <- E, parse_FormatUint by lia.
    rewrite (proj2 (Z.ltb_ge _ _)) by lia. f_equal. lia.
  - apply ParseInt_FormatUint; [done|lia].
Qed.

End Strconv.
