(* ===== verification/Utree.v ===== *)
(** * The route tree ([src/utree/tree.go])

    A [Tree[T]] is a byte trie whose nodes are heap objects: [Set] grows it in
    place and [Move] hands out a pointer into it, so the nodes live in an
    arena and a tree is a position in the arena.  A route is a byte string in
    which [:name] stands for one path segment and [*name] for the rest. *)
From stdpp Require Import base numbers list gmap strings.
From S2P Require Import Prelude.
#[local] Open Scope Z_scope.

Module Utree.

Abbreviation asterisk := 42.
Abbreviation colon := 58.
Abbreviation slash := 47.

Section tree.
Context {T : Type} (zero : T).

(** ** Data *)

Abbreviation loc := nat.

(** [Tree[T]]: the array of 256 child pointers is the finite map from the
    bytes whose pointer is not nil. *)
Record node := Node {
  children : gmap Z loc;
  value : T;
  vpath : option (list Z)
}.

Abbreviation arena := (list node).

Definition newnode : node := Node ∅ zero None.

(** [&Tree[T]{}], and [New]. *)
Definition New (h : arena) : arena * loc := (h ++ [newnode], length h).

(** [t.children[c]] *)
Definition child (h : arena) (t : loc) (c : Z) : option loc :=
  n ← h !! t; children n !! c.

(** ** Operations *)

Fixpoint to_slash (s : list Z) : nat :=
  match s with
  | [] => 0
  | c :: s' => if (c =? slash)%Z then 0 else S (to_slash s')
  end.

(** [slashReader]: the index of the next slash from [i] on, or the end. *)
Definition slashReader (a : list Z) (i : nat) : nat :=
  (i + to_slash (drop i a))%nat.

(** One turn of [Set]: allocate the child if it is nil, and go to it. *)
Definition set_step (h : arena) (t : loc) (c : Z) : arena * loc :=
  match child h t c with
  | Some t' => (h, t')
  | None =>
      let '(h', t') := New h in
      (alter (fun n => Node (<[c:=t']> (children n)) (value n) (vpath n)) t h', t')
  end.

Fixpoint set_loop (fuel : nat) (h : arena) (t : loc) (a : list Z) (i : nat)
  : arena * loc :=
  match fuel with
  | O => (h, t)
  | S fuel' =>
      match a !! i with
      | None => (h, t)
      | Some c =>
          let '(h', t') := set_step h t c in
          if c =? colon then set_loop fuel' h' t' a (S (slashReader a i))
          else if c =? asterisk then (h', t')
          else set_loop fuel' h' t' a (S i)
      end
  end.

(** The empty route is recorded as an empty slice; [toByte] makes it empty or nil
    as the pointer inside the string is. *)
Definition Set_ (h : arena) (t : loc) (route : list Z) (v : T) : arena :=
  let '(h', t') := set_loop (S (length route)) h t route 0 in
  alter (fun n => Node (children n) v (Some route)) t' h'.

Fixpoint get_loop (fuel : nat) (h : arena) (t : loc) (a : list Z) (i : nat)
  : option loc :=
  match fuel with
  | O => None
  | S fuel' =>
      match a !! i with
      | None => Some t
      | Some c =>
          match child h t asterisk with
          | Some t' => Some t'
          | None =>
              match child h t colon with
              | Some t' => get_loop fuel' h t' a (S (slashReader a i))
              | None =>
                  match child h t c with
                  | None => None
                  | Some t' => get_loop fuel' h t' a (S i)
                  end
              end
          end
      end
  end.

Definition get (h : arena) (t : loc) (route : list Z) : option loc :=
  get_loop (S (length route)) h t route 0.

Definition node_value (h : arena) (t : loc) : T * option (list Z) :=
  match h !! t with
  | Some n => (value n, vpath n)
  | None => (zero, None)
  end.

Definition Get (h : arena) (t : loc) (route : list Z) : T * option (list Z) :=
  match get h t route with
  | Some t' => node_value h t'
  | None => (zero, None)
  end.

Definition Delete (h : arena) (t : loc) (route : list Z) : arena :=
  match get h t route with
  | Some t' => alter (fun n => Node (children n) zero None) t' h
  | None => h
  end.

Definition Move (h : arena) (t : loc) (route : list Z) : option loc :=
  get h t route.

Record DumpValue := Dumped { Path : list Z; Value : T }.

(** The loop of [Dump] over the 256 bytes, with the recursive call [rec]. *)
Definition dump_children (h : arena) (rec : loc -> list DumpValue) (t : loc)
  : list DumpValue :=
  flat_map (fun i =>
    match child h t (Z.of_nat i) with
    | None => []
    | Some t' =>
        match h !! t' with
        | Some n => match vpath n with
                    | Some p => [Dumped p (value n)]
                    | None => []
                    end
        | None => []
        end ++ rec t'
    end) (seq 0 256).

Fixpoint dump (fuel : nat) (h : arena) (t : loc) : list DumpValue :=
  match fuel with
  | O => []
  | S fuel' => dump_children h (dump fuel' h) t
  end.

(** A node's children are allocated after it, so a walk down from [t] visits
    fewer than [length h] nodes. *)
Definition Dump (h : arena) (t : loc) : list DumpValue := dump (length h) h t.

(** ** Routes as paths in the trie *)

(** The bytes that label the trie path of a route: a parameter is its colon
    alone, an asterisk ends the route.  [skip] is set while the name of a
    parameter is passed over. *)
Fixpoint route_path (skip : bool) (s : list Z) : list Z :=
  match s with
  | [] => []
  | c :: s' =>
      if skip then route_path (negb (c =? slash)) s'
      else c :: (if c =? asterisk then [] else route_path (c =? colon) s')
  end.

Definition rest_after_segment (s : list Z) : list Z := drop (S (to_slash s)) s.

(** Whether the request [s] fits the trie path [ks]. *)
Fixpoint route_matches (ks s : list Z) : bool :=
  match ks with
  | [] => match s with [] => true | _ :: _ => false end
  | k :: ks' =>
      match s with
      | [] => false
      | c :: s' =>
          if k =? asterisk then match ks' with [] => true | _ :: _ => false end
          else if k =? colon then route_matches ks' (rest_after_segment s)
          else (c =? k) && route_matches ks' s'
      end
  end.

(** No node of the tree on the path [ks] has a wildcard child that [get]
    prefers to the next byte of the path. *)
Fixpoint unshadowed (h : arena) (t : loc) (ks : list Z) : bool :=
  match ks with
  | [] => true
  | k :: ks' =>
      ((k =? asterisk) || bool_decide (child h t asterisk = None)) &&
      ((k =? asterisk) || (k =? colon) || bool_decide (child h t colon = None)) &&
      match child h t k with
      | Some t' => unshadowed h t' ks'
      | None => true
      end
  end.

(** The node at the end of a trie path. *)
Fixpoint follow (h : arena) (t : loc) (ks : list Z) : option loc :=
  match ks with
  | [] => Some t
  | k :: ks' => match child h t k with
                | Some t' => follow h t' ks'
                | None => None
                end
  end.

(** Well-formed arenas: every edge leads to a younger node of the arena, and
    a node has at most one incoming edge. *)
Record arena_wf (h : arena) : Prop := {
  wf_edge : forall t c t', child h t c = Some t' -> (t < t' < length h)%nat;
  wf_parent : forall t1 c1 t2 c2 t', child h t1 c1 = Some t' ->
    child h t2 c2 = Some t' -> t1 = t2 /\ c1 = c2
}.

(** [h'] has the nodes of [h] with their values, and the edges of [h]. *)
Record arena_le (h h' : arena) : Prop := {
  le_len : (length h <= length h')%nat;
  le_edge : forall t c t', child h t c = Some t' -> child h' t c = Some t';
  le_val : forall t, (t < length h)%nat -> node_value h' t = node_value h t
}.

(** The loop of [Set], by the labels of the trie path. *)
Fixpoint insert_path (h : arena) (t : loc) (ks : list Z) : arena * loc :=
  match ks with
  | [] => (h, t)
  | k :: ks' => let '(h', t') := set_step h t k in insert_path h' t' ks'
  end.

(** The loop of [get], by the bytes of the request. *)
Fixpoint walk (h : arena) (t : loc) (skip : bool) (s : list Z) : option loc :=
  match s with
  | [] => Some t
  | c :: s' =>
      if skip then walk h t (negb (c =? slash)) s'
      else match child h t asterisk with
           | Some t' => Some t'
           | None =>
               match child h t colon with
               | Some t' => walk h t' (negb (c =? slash)) s'
               | None => match child h t c with
                         | None => None
                         | Some t' => walk h t' false s'
                         end
               end
           end
  end.

(** ** The loops follow the trie path *)

Lemma route_path_skip s :
  route_path true s = route_path false (rest_after_segment s).
Proof.
  unfold rest_after_segment. induction s as [|c s IH]; simpl; [done|].
  destruct (c =? slash); simpl; [by rewrite drop_0|done].
Qed.

Lemma walk_skip h t s : walk h t true s = walk h t false (rest_after_segment s).
Proof.
  unfold rest_after_segment. induction s as [|c s IH]; simpl; [done|].
  destruct (c =? slash); simpl; [by rewrite drop_0|done].
Qed.

Lemma drop_slashReader a i :
  drop (S (slashReader a i)) a = rest_after_segment (drop i a).
Proof.
  unfold slashReader, rest_after_segment. rewrite drop_drop.
  f_equal. lia.
Qed.

Lemma set_loop_insert fuel h t a i :
  (length a - i < fuel)%nat ->
  set_loop fuel h t a i = insert_path h t (route_path false (drop i a)).
Proof.
  revert h t i. induction fuel as [|fuel IH]; intros h t i Hf; simpl.
  { lia. }
  destruct (a !! i) as [c|] eqn:Hi.
  2:{ apply lookup_ge_None in Hi. by rewrite drop_ge by lia. }
  pose proof (lookup_lt_Some _ _ _ Hi).
  rewrite (drop_S _ _ _ Hi); simpl.
  destruct (set_step h t c) as [h' t'].
  destruct (c =? colon) eqn:Ec.
  - apply Z.eqb_eq in Ec as ->. simpl.
    rewrite IH by (unfold slashReader; lia). rewrite drop_slashReader, route_path_skip.
    rewrite (drop_S _ _ _ Hi). by unfold rest_after_segment; simpl.
  - destruct (c =? asterisk); simpl; [done|]. apply IH. lia.
Qed.

Lemma get_loop_walk fuel h t a i :
  (length a - i < fuel)%nat ->
  get_loop fuel h t a i = walk h t false (drop i a).
Proof.
  revert t i. induction fuel as [|fuel IH]; intros t i Hf; simpl.
  { lia. }
  destruct (a !! i) as [c|] eqn:Hi.
  2:{ apply lookup_ge_None in Hi. by rewrite drop_ge by lia. }
  pose proof (lookup_lt_Some _ _ _ Hi).
  rewrite (drop_S _ _ _ Hi); simpl.
  destruct (child h t asterisk) as [t'|]; [done|].
  destruct (child h t colon) as [t'|].
  - rewrite IH by (unfold slashReader; lia). rewrite drop_slashReader.
    rewrite (drop_S _ _ _ Hi). unfold rest_after_segment; simpl.
    destruct (c =? slash); simpl; [by rewrite drop_0|].
    by rewrite walk_skip.
  - destruct (child h t c); [|done]. apply IH. lia.
Qed.

Lemma get_walk h t route : get h t route = walk h t false route.
Proof. unfold get. rewrite get_loop_walk by lia. by rewrite drop_0. Qed.

Lemma Set_insert h t route v :
  Set_ h t route v =
  let '(h', t') := insert_path h t (route_path false route) in
  alter (fun n => Node (children n) v (Some route)) t' h'.
Proof. unfold Set_. rewrite set_loop_insert by lia. by rewrite drop_0. Qed.

(** ** Edges and values under the updates *)

Lemma child_lt h t c t' : child h t c = Some t' -> (t < length h)%nat.
Proof.
  unfold child. destruct (h !! t) as [n|] eqn:E; [|done].
  intros _. by eapply lookup_lt_Some.
Qed.

Lemma child_alter_value (f : node -> node) h t0 t c :
  (forall n, children (f n) = children n) ->
  child (alter f t0 h) t c = child h t c.
Proof.
  intros Hf. unfold child. destruct (decide (t = t0)) as [->|Hne].
  - rewrite list_lookup_alter_eq. destruct (h !! t0); simpl; [by rewrite Hf|done].
  - by rewrite list_lookup_alter_ne by done.
Qed.

Lemma set_step_cases h t c :
  (t < length h)%nat ->
  exists h' t', set_step h t c = (h', t') /\
    ((child h t c = Some t' /\ h' = h) \/
     (child h t c = None /\ t' = length h /\ length h' = S (length h) /\
      child h' t c = Some t' /\
      (forall u k, (u, k) <> (t, c) -> child h' u k = child h u k) /\
      (forall u, (u < length h)%nat -> node_value h' u = node_value h u) /\
      h' !! t' = Some newnode)).
Proof.
  intros Ht. unfold set_step. destruct (child h t c) as [t'|] eqn:Hc.
  { exists h, t'. auto. }
  unfold New. eexists _, (length h). split; [reflexivity|]. right.
  destruct (lookup_lt_is_Some_2 h t Ht) as [n Hn].
  assert (Hn' : (h ++ [newnode]) !! t = Some n) by by rewrite lookup_app_l.
  split_and!; try done.
  - rewrite length_alter, length_app. simpl. lia.
  - unfold child. rewrite list_lookup_alter_eq, Hn'. simpl.
    apply lookup_insert_eq.
  - intros u k Hne. unfold child. destruct (decide (u = t)) as [->|Hu].
    + rewrite list_lookup_alter_eq, Hn', Hn. simpl.
      apply lookup_insert_ne. congruence.
    + rewrite list_lookup_alter_ne by done.
      destruct (decide (u < length h)%nat).
      * by rewrite lookup_app_l.
      * rewrite (lookup_ge_None_2 h u) by lia. simpl.
        destruct (decide (u = length h)) as [->|].
        -- rewrite lookup_app_r, Nat.sub_diag by lia. simpl.
           apply lookup_empty.
        -- rewrite lookup_ge_None_2; [done|]. rewrite length_app. simpl. lia.
  - intros u Hu. unfold node_value. destruct (decide (u = t)) as [->|].
    + rewrite list_lookup_alter_eq, Hn', Hn. done.
    + rewrite list_lookup_alter_ne by done. by rewrite lookup_app_l.
  - rewrite list_lookup_alter_ne by lia. by rewrite lookup_app_r, Nat.sub_diag by lia.
Qed.

Lemma arena_le_refl h : arena_le h h.
Proof. by constructor. Qed.

Lemma arena_le_trans h1 h2 h3 : arena_le h1 h2 -> arena_le h2 h3 -> arena_le h1 h3.
Proof.
  intros [L1 E1 V1] [L2 E2 V2]. constructor; [lia|by eauto|].
  intros t Ht. rewrite V2 by lia. by apply V1.
Qed.

Lemma set_step_spec h t c h' t' :
  arena_wf h -> (t < length h)%nat -> set_step h t c = (h', t') ->
  arena_wf h' /\ arena_le h h' /\ child h' t c = Some t' /\ (t < t' < length h')%nat /\
  (forall u k, (u, k) <> (t, c) -> child h' u k = child h u k) /\
  (child h t c = None -> forall k, child h' t' k = None).
Proof.
  intros Hwf Ht Hs.
  destruct (set_step_cases h t c Ht) as (h1 & t1 & E & [[Hc ->]|H]);
    rewrite E in Hs; injection Hs as -> ->.
  { pose proof (wf_edge _ Hwf _ _ _ Hc).
    split_and!; try done; try lia; try apply arena_le_refl; congruence. }
  destruct H as (Hn & -> & Hlen & Hc & Hother & Hval & _).
  assert (Hnew : forall k, child h (length h) k = None).
  { intros k. unfold child. by rewrite lookup_ge_None_2 by lia. }
  split_and!; try done; try lia; [constructor|constructor|].
  - intros u k u' Hu. destruct (decide ((u, k) = (t, c))) as [[= -> ->]|Hne].
    + rewrite Hc in Hu. injection Hu as <-. lia.
    + rewrite Hother in Hu by done. apply (wf_edge _ Hwf) in Hu. lia.
  - intros u1 k1 u2 k2 u' H1 H2.
    destruct (decide ((u1, k1) = (t, c))) as [[= -> ->]|N1],
      (decide ((u2, k2) = (t, c))) as [[= -> ->]|N2]; try done.
    + rewrite Hc in H1. injection H1 as <-. rewrite Hother in H2 by done.
      apply (wf_edge _ Hwf) in H2. lia.
    + rewrite Hc in H2. injection H2 as <-. rewrite Hother in H1 by done.
      apply (wf_edge _ Hwf) in H1. lia.
    + rewrite Hother in H1, H2 by done. by eapply wf_parent.
  - lia.
  - intros u k u' Hu. rewrite Hother; [done|]. congruence.
  - intros u Hu. by apply Hval.
  - intros _ k. rewrite Hother; [by apply Hnew|]. intros [= ? ->]. lia.
Qed.

Lemma insert_path_spec ks h t h' t' :
  arena_wf h -> (t < length h)%nat -> insert_path h t ks = (h', t') ->
  arena_wf h' /\ arena_le h h' /\ follow h' t ks = Some t' /\ (t <= t' < length h')%nat /\
  (forall u k, (u < t)%nat -> child h' u k = child h u k) /\
  (forall u k u', child h' u k = Some u' -> child h u k = None ->
     k ∈ ks /\ (length h <= u')%nat) /\
  (forall u, (length h <= u)%nat -> node_value h' u = (zero, None)).
Proof.
  revert h t. induction ks as [|k ks IH]; intros h t Hwf Ht; simpl.
  { intros [= -> ->]. split_and!; try done; try apply arena_le_refl; try congruence.
    intros u Hu. unfold node_value. by rewrite lookup_ge_None_2. }
  destruct (set_step h t k) as [h1 t1] eqn:E. intros Hi.
  destruct (set_step_spec _ _ _ _ _ Hwf Ht E) as (W1 & L1 & C1 & T1 & O1 & _).
  destruct (IH _ _ W1 (proj2 T1) Hi) as (W2 & L2 & F2 & T2 & O2 & N2 & V2).
  pose proof (le_len _ _ L1).
  split_and!; try done; try lia.
  - by eapply arena_le_trans.
  - by rewrite (le_edge _ _ L2 _ _ _ C1).
  - intros u c Hu. rewrite O2 by lia. apply O1. intros [= -> ->]. lia.
  - intros u c u' Hu Hn. destruct (decide ((u, c) = (t, k))) as [[= -> ->]|Hne].
    + split; [by left|]. rewrite (le_edge _ _ L2 _ _ _ C1) in Hu. injection Hu as <-.
      destruct (set_step_cases h t k Ht) as (? & ? & E' & [[? ?]|(_ & -> & _)]);
        rewrite E' in E; [congruence|injection E as ? <-; lia].
    + destruct (N2 u c u' Hu) as [Hin Hge]; [by rewrite O1|].
      split; [by right|lia].
  - intros u Hu. destruct (decide (length h1 <= u)%nat) as [|Hlt]; [by apply V2|].
    rewrite (le_val _ _ L2) by lia.
    destruct (set_step_cases h t k Ht) as (? & ? & E' & [[_ Hh]|(_ & -> & Hl & _ & _ & _ & Hnew)]);
      rewrite E' in E; injection E as <- <-; [subst; lia|].
    replace u with (length h) by lia. unfold node_value. by rewrite Hnew.
Qed.

(** ** Lookups in the grown tree *)

Lemma unshadowed_leaf h t ks : (forall k, child h t k = None) -> unshadowed h t ks = true.
Proof. destruct ks; simpl; [done|]. intros H. rewrite !H. simpl. by rewrite !orb_true_r. Qed.

Lemma unshadowed_insert ks h t h' t' :
  arena_wf h -> (t < length h)%nat -> insert_path h t ks = (h', t') ->
  unshadowed h t ks = true -> unshadowed h' t ks = true.
Proof.
  revert h t. induction ks as [|k ks IH]; intros h t Hwf Ht; simpl; [done|].
  destruct (set_step h t k) as [h1 t1] eqn:E. intros Hi.
  destruct (set_step_spec _ _ _ _ _ Hwf Ht E) as (W1 & L1 & C1 & T1 & O1 & Hleaf).
  destruct (insert_path_spec _ _ _ _ _ W1 (proj2 T1) Hi) as (W2 & L2 & _ & _ & O2 & _ & _).
  assert (Hk : forall c, c <> k -> child h' t c = child h t c).
  { intros c Hne. rewrite O2 by lia. apply O1. congruence. }
  rewrite !andb_true_iff, !orb_true_iff, !bool_decide_eq_true, !Z.eqb_eq.
  intros [[Ha Hb] Hc]. rewrite (le_edge _ _ L2 _ _ _ C1). split_and!.
  - destruct (decide (k = asterisk)); [by left|right]. rewrite Hk by congruence. tauto.
  - destruct (decide (k = asterisk)), (decide (k = colon)); auto.
    right. rewrite Hk by congruence. tauto.
  - apply (IH _ _ W1 (proj2 T1) Hi). destruct (child h t k) as [t2|] eqn:Hck.
    + unfold set_step in E. rewrite Hck in E. by injection E as -> ->.
    + apply unshadowed_leaf. auto.
Qed.

Lemma walk_unshadowed ks h t t' s :
  unshadowed h t ks = true -> follow h t ks = Some t' ->
  route_matches ks s = true -> walk h t false s = Some t'.
Proof.
  revert t s. induction ks as [|k ks IH]; intros t s; simpl.
  { intros _ [= ->]. by destruct s. }
  rewrite !andb_true_iff, !orb_true_iff, !bool_decide_eq_true, !Z.eqb_eq.
  intros [[Ha Hb] Hc]. destruct (child h t k) as [t1|] eqn:Hk; [|done].
  intros Hf. destruct s as [|c s]; [done|]. simpl.
  destruct (Z.eqb_spec k asterisk) as [->|Hna].
  { destruct ks; [|done]. intros _. rewrite Hk. by simpl in Hf. }
  destruct Ha as [Ha|Ha]; [done|]. rewrite Ha.
  destruct (Z.eqb_spec k colon) as [->|Hnc].
  { intros Hm. rewrite Hk. rewrite <- (IH t1 _ Hc Hf Hm).
    unfold rest_after_segment; simpl.
    destruct (c =? slash); simpl; [by rewrite drop_0|].
    by rewrite walk_skip. }
  destruct Hb as [[Hb|Hb]|Hb]; [done..|]. rewrite Hb.
  rewrite andb_true_iff, Z.eqb_eq. intros [-> Hm]. rewrite Hk. by apply IH.
Qed.

Lemma walk_follow s h t w :
  walk h t false s = Some w ->
  exists ks, follow h t ks = Some w /\ route_matches ks s = true /\ unshadowed h t ks = true.
Proof.
  remember (length s) as n eqn:Hn. revert s t Hn.
  induction (lt_wf n) as [n _ IH]; intros s t ->. destruct s as [|c s]; simpl.
  { intros [= ->]. by exists []. }
  destruct (child h t asterisk) as [t1|] eqn:Ha.
  { intros [= ->]. exists [asterisk]. simpl. by rewrite Ha. }
  destruct (child h t colon) as [t1|] eqn:Hc.
  - intros Hw.
    assert (walk h t1 false (rest_after_segment (c :: s)) = Some w) as Hw'.
    { rewrite <- Hw. unfold rest_after_segment; simpl.
      destruct (c =? slash); simpl; [by rewrite drop_0|]. by rewrite walk_skip. }
    destruct (IH (length (rest_after_segment (c :: s)))) with (s := rest_after_segment (c :: s)) (t := t1)
      as (ks & Hf & Hm & Hu); [|done|done|].
    { unfold rest_after_segment. rewrite length_drop. simpl. lia. }
    exists (colon :: ks). cbn [follow route_matches unshadowed]. by rewrite Hc, Ha.
  - destruct (child h t c) as [t1|] eqn:Hk; [|done]. intros Hw.
    destruct (IH (length s)) with (s := s) (t := t1) as (ks & Hf & Hm & Hu);
      [simpl; lia|done|done|].
    exists (c :: ks). simpl. rewrite Hk, Ha, Hc, Z.eqb_refl. simpl.
    rewrite !orb_true_r. split_and!; try done.
    destruct (Z.eqb_spec c asterisk) as [->|]; [congruence|].
    destruct (Z.eqb_spec c colon) as [->|]; [congruence|]. done.
Qed.

Lemma follow_snoc ks h t k w :
  follow h t (ks ++ [k]) = Some w ->
  exists u, follow h t ks = Some u /\ child h u k = Some w.
Proof.
  revert t. induction ks as [|k0 ks IH]; intros t; simpl.
  - intros H. exists t. split; [done|]. by destruct (child h t k).
  - destruct (child h t k0); [apply IH|done].
Qed.

Lemma follow_le ks h t w :
  arena_wf h -> follow h t ks = Some w -> (t + length ks <= w)%nat.
Proof.
  intros Hwf. revert t. induction ks as [|k ks IH]; intros t; simpl.
  - intros [= ->]. lia.
  - destruct (child h t k) as [u|] eqn:E; [|done]. intros H%IH.
    apply (wf_edge _ Hwf) in E. lia.
Qed.

Lemma follow_lt ks h t w :
  arena_wf h -> (t < length h)%nat -> follow h t ks = Some w -> (w < length h)%nat.
Proof.
  intros Hwf. revert t. induction ks as [|k ks IH]; intros t Ht; simpl.
  - by intros [= ->].
  - destruct (child h t k) as [u|] eqn:E; [|done]. apply IH.
    apply (wf_edge _ Hwf) in E. lia.
Qed.

Lemma follow_inj ks1 ks2 h t w :
  arena_wf h -> follow h t ks1 = Some w -> follow h t ks2 = Some w -> ks1 = ks2.
Proof.
  intros Hwf. revert ks2 w.
  induction ks1 as [|k1 ks1 IH] using rev_ind; intros ks2 w H1 H2.
  - apply (follow_le _ _ _ _ Hwf) in H2. injection H1 as ->. destruct ks2; [done|].
    simpl in H2. lia.
  - destruct ks2 as [|k2 ks2 _] using rev_ind.
    { apply (follow_le _ _ _ _ Hwf) in H1. injection H2 as ->.
      rewrite length_app in H1. simpl in H1. lia. }
    destruct (follow_snoc _ _ _ _ _ H1) as (u1 & F1 & C1).
    destruct (follow_snoc _ _ _ _ _ H2) as (u2 & F2 & C2).
    destruct (wf_parent _ Hwf _ _ _ _ _ C1 C2) as [-> ->].
    by rewrite (IH _ _ F1 F2).
Qed.

Lemma child_alter_values (f : node -> node) h t0 :
  (forall n, children (f n) = children n) ->
  forall t c, child (alter f t0 h) t c = child h t c.
Proof. intros Hf t c. by apply child_alter_value. Qed.

Lemma walk_ext h h' t skip s :
  (forall u c, child h' u c = child h u c) -> walk h' t skip s = walk h t skip s.
Proof.
  intros Hc. revert t skip. induction s as [|c s IH]; intros t skip; simpl; [done|].
  rewrite !Hc. destruct skip; [by rewrite IH|]. repeat case_match; auto.
Qed.

Lemma follow_ext h h' t ks :
  (forall u c, child h' u c = child h u c) -> follow h' t ks = follow h t ks.
Proof.
  intros Hc. revert t. induction ks as [|k ks IH]; intros t; simpl; [done|].
  rewrite Hc. case_match; auto.
Qed.

Lemma arena_wf_ext h h' :
  length h' = length h -> (forall u c, child h' u c = child h u c) ->
  arena_wf h -> arena_wf h'.
Proof.
  intros Hl Hc [E P]. constructor.
  - intros t c t'. rewrite Hc, Hl. apply E.
  - intros t1 c1 t2 c2 t'. rewrite !Hc. apply P.
Qed.

Lemma node_value_alter (f : node -> node) h t0 t :
  node_value (alter f t0 h) t =
  if decide (t = t0) then
    match h !! t0 with Some n => (value (f n), vpath (f n)) | None => (zero, None) end
  else node_value h t.
Proof.
  unfold node_value. case_decide as E; [subst; rewrite list_lookup_alter_eq|].
  - by destruct (h !! t0).
  - by rewrite list_lookup_alter_ne.
Qed.

(** What [Set] does to the arena: it grows by the missing nodes of the route's
    path, and the node at the end of the path gets the value. *)
Lemma Set_spec h t route v :
  arena_wf h -> (t < length h)%nat ->
  let h' := Set_ h t route v in
  exists h1 t1, insert_path h t (route_path false route) = (h1, t1) /\
    arena_wf h' /\ (length h <= length h')%nat /\
    (forall u c, child h' u c = child h1 u c) /\
    follow h' t (route_path false route) = Some t1 /\
    (forall u, node_value h' u = if decide (u = t1) then (v, Some route)
               else node_value h1 u).
Proof.
  intros Hwf Ht h'. subst h'. rewrite Set_insert.
  destruct (insert_path h t (route_path false route)) as [h1 t1] eqn:E.
  destruct (insert_path_spec _ _ _ _ _ Hwf Ht E) as (W & L & F & T1 & _ & _ & _).
  exists h1, t1. split; [done|].
  set (f := fun n => Node (children n) v (Some route)).
  assert (Hc : forall u c, child (alter f t1 h1) u c = child h1 u c)
    by by apply child_alter_values.
  split_and!.
  - eapply arena_wf_ext; [|done|done]. apply length_alter.
  - rewrite length_alter. apply (le_len _ _ L).
  - done.
  - by rewrite (follow_ext _ _ _ _ Hc).
  - intros u. rewrite node_value_alter. case_decide; [|done].
    destruct (lookup_lt_is_Some_2 h1 t1) as [n ->]; [lia|done].
Qed.

(** ** Theorems *)

Lemma get_iff h t s w :
  get h t s = Some w <->
  exists ks, follow h t ks = Some w /\ route_matches ks s = true /\
             unshadowed h t ks = true.
Proof.
  rewrite get_walk. split.
  - apply walk_follow.
  - intros (ks & Hf & Hm & Hu). by eapply walk_unshadowed.
Qed.

(** [get] finds the node at the end of the one path of the trie that fits
    the request and that no wildcard sibling overrides, and nothing when there
    is no such path. *)
Theorem get_unique_path h t s :
  arena_wf h ->
  match get h t s with
  | Some w => exists! ks, follow h t ks = Some w /\ route_matches ks s = true /\
                          unshadowed h t ks = true
  | None => forall ks, follow h t ks <> None -> route_matches ks s = true ->
                       unshadowed h t ks = false
  end.
Proof.
  intros W. destruct (get h t s) as [w|] eqn:E.
  - apply get_iff in E as (ks & F & Hm & Hu). exists ks. split; [done|].
    intros ks' (F' & _). by eapply follow_inj.
  - intros ks F Hm. destruct (follow h t ks) as [w|] eqn:F'; [|done].
    apply not_true_is_false. intros Hu.
    rewrite (proj2 (get_iff h t s w)) in E; [done|eauto].
Qed.

Lemma unshadowed_ext h h' t ks :
  (forall u c, child h' u c = child h u c) -> unshadowed h' t ks = unshadowed h t ks.
Proof.
  intros Hc. revert t. induction ks as [|k ks IH]; intros t; simpl; [done|].
  rewrite !Hc. f_equal. case_match; auto.
Qed.

Lemma unshadowed_le h h' t ks :
  arena_le h h' -> unshadowed h' t ks = true -> unshadowed h t ks = true.
Proof.
  intros L. revert t. induction ks as [|k ks IH]; intros t; simpl; [done|].
  assert (Hnone : forall c, child h' t c = None -> child h t c = None).
  { intros c Hc. destruct (child h t c) eqn:E; [|done].
    apply (le_edge _ _ L) in E. congruence. }
  rewrite !andb_true_iff, !orb_true_iff, !bool_decide_eq_true.
  intros [[Ha Hb] Hc]. split_and!.
  - destruct Ha; auto.
  - destruct Hb as [[?|?]|?]; auto.
  - destruct (child h t k) eqn:E; [|done].
    apply (le_edge _ _ L) in E. rewrite E in Hc. auto.
Qed.

Lemma get_Set_iff h t route v s :
  arena_wf h -> (t < length h)%nat ->
  get (Set_ h t route v) t s = follow (Set_ h t route v) t (route_path false route) <->
  route_matches (route_path false route) s = true /\
  unshadowed h t (route_path false route) = true.
Proof.
  intros Hwf Ht.
  destruct (Set_spec h t route v Hwf Ht) as (h1 & t1 & E & W & _ & Hc & F & V).
  destruct (insert_path_spec _ _ _ _ _ Hwf Ht E) as (_ & L & _).
  rewrite F, get_iff. split.
  - intros (ks & F' & Hm & Hu). rewrite (follow_inj _ _ _ _ _ W F F').
    split; [done|]. apply (unshadowed_le _ _ _ _ L). by rewrite <- (unshadowed_ext _ _ _ _ Hc).
  - intros [Hm Hu]. eexists. split; [exact F|]. split; [done|].
    rewrite (unshadowed_ext _ _ _ _ Hc). by apply (unshadowed_insert _ _ _ _ _ Hwf Ht E).
Qed.

Lemma Set_get_found h t route v s :
  arena_wf h -> (t < length h)%nat ->
  unshadowed h t (route_path false route) = true ->
  route_matches (route_path false route) s = true ->
  Get (Set_ h t route v) t s = (v, Some route).
Proof.
  intros Hwf Ht Hu Hm.
  destruct (Set_spec h t route v Hwf Ht) as (h1 & t1 & E & W & _ & Hc & F & V).
  unfold Get. rewrite (proj2 (get_Set_iff h t route v s Hwf Ht)) by done.
  rewrite F, V. by rewrite decide_True.
Qed.

(** C1: after a route is registered, exactly the requests that fit it and that
    no wildcard on its path takes over reach it, and they get its value and its
    pattern. *)
Theorem Set_Get_matching h t route v s :
  arena_wf h -> (t < length h)%nat ->
  (get (Set_ h t route v) t s = follow (Set_ h t route v) t (route_path false route) <->
   route_matches (route_path false route) s && unshadowed h t (route_path false route) = true) /\
  (route_matches (route_path false route) s && unshadowed h t (route_path false route) = true ->
   Get (Set_ h t route v) t s = (v, Some route)).
Proof.
  intros Hwf Ht. rewrite andb_true_iff. split; [by apply get_Set_iff|].
  intros [Hm Hu]. by apply Set_get_found.
Qed.

(** ** Routes without wildcards *)

Definition static (s : list Z) : bool :=
  forallb (fun c => negb (c =? colon) && negb (c =? asterisk)) s.

Lemma route_path_static s : static s = true -> route_path false s = s.
Proof.
  induction s as [|c s IH]; simpl; [done|].
  rewrite !andb_true_iff, !negb_true_iff. intros [[-> ->] Hs]. by rewrite IH.
Qed.

Lemma route_matches_static ks s :
  static ks = true -> route_matches ks s = true <-> s = ks.
Proof.
  revert s. induction ks as [|k ks IH]; intros s; simpl; [by destruct s|].
  rewrite !andb_true_iff, !negb_true_iff. intros [[-> ->] Hs].
  destruct s as [|c s]; [done|]. rewrite andb_true_iff, Z.eqb_eq, IH by done.
  split; [by intros [-> ->]|by intros [= -> ->]].
Qed.

Lemma static_no_wildcard s c : static s = true -> c ∈ s -> c <> colon /\ c <> asterisk.
Proof.
  unfold static. rewrite forallb_forall. intros H Hc%list_elem_of_In%H.
  rewrite andb_true_iff, !negb_true_iff, !Z.eqb_neq in Hc. tauto.
Qed.

(** Growing a tree by literal edges keeps every lookup that succeeded, and a
    lookup that failed can only reach one of the new nodes. *)
Lemma walk_grow h h' t skip s :
  arena_wf h -> arena_wf h' -> arena_le h h' -> (t < length h)%nat ->
  (forall u k u', child h' u k = Some u' -> child h u k = None ->
     k <> colon /\ k <> asterisk /\ (length h <= u')%nat) ->
  (exists w, walk h t skip s = Some w /\ walk h' t skip s = Some w /\ (w < length h)%nat) \/
  (walk h t skip s = None /\ forall w, walk h' t skip s = Some w -> (length h <= w)%nat).
Proof.
  intros W W' L Ht Hnew. revert t skip Ht.
  induction s as [|c s IH]; intros t skip Ht; simpl; [eauto|].
  destruct skip; [by apply IH|].
  assert (Hwild : forall k, k = colon \/ k = asterisk -> child h' t k = child h t k).
  { intros k Hk. destruct (child h t k) eqn:E; [by apply (le_edge _ _ L)|].
    destruct (child h' t k) eqn:E'; [|done]. destruct (Hnew _ _ _ E' E). tauto. }
  rewrite !Hwild by auto.
  destruct (child h t asterisk) as [u|] eqn:Ea.
  { left. exists u. apply (wf_edge _ W) in Ea. split_and!; try done. lia. }
  destruct (child h t colon) as [u|] eqn:Ec.
  { apply IH. apply (wf_edge _ W) in Ec. lia. }
  destruct (child h t c) as [u|] eqn:E.
  { rewrite (le_edge _ _ L _ _ _ E). apply IH. apply (wf_edge _ W) in E. lia. }
  right. split; [done|]. intros w Hw.
  destruct (child h' t c) as [u|] eqn:E'; [|done].
  destruct (Hnew _ _ _ E' E) as (_ & _ & Hu).
  apply walk_follow in Hw as (ks & F & _). apply (follow_le _ _ _ _ W') in F. lia.
Qed.

(** registering a route without wildcards sets its own lookup, unless a
    wildcard takes it over, and no other lookup. *)
Theorem Set_static_Get h t route v s :
  arena_wf h -> (t < length h)%nat -> static route = true ->
  Get (Set_ h t route v) t s =
  if bool_decide (s = route) && unshadowed h t route then (v, Some route) else Get h t s.
Proof.
  intros Hwf Ht Hst.
  destruct (Set_spec h t route v Hwf Ht) as (h1 & t1 & E & W & _ & Hc & F & V).
  pose proof (get_Set_iff h t route v s Hwf Ht) as Hiff.
  rewrite F, route_path_static in * by done. rewrite route_matches_static in Hiff by done.
  destruct (insert_path_spec _ _ _ _ _ Hwf Ht E) as (W1 & L & _ & _ & _ & N & Z0).
  destruct (walk_grow h h1 t false s Hwf W1 L Ht) as [(w & Hw & Hw1 & Hlt)|[Hw Hw1]].
  { intros u k u' Hu Hn. destruct (N _ _ _ Hu Hn) as [Hin ?].
    destruct (static_no_wildcard _ _ Hst Hin). auto. }
  - rewrite get_walk, (walk_ext _ _ _ _ _ Hc), Hw1 in Hiff.
    unfold Get. rewrite !get_walk, (walk_ext _ _ _ _ _ Hc), Hw1, Hw, V.
    rewrite (le_val _ _ L) by done.
    destruct (unshadowed h t route), (bool_decide_reflect (s = route)); simpl;
      case_decide; try done; naive_solver.
  - rewrite get_walk, (walk_ext _ _ _ _ _ Hc) in Hiff.
    unfold Get. rewrite !get_walk, (walk_ext _ _ _ _ _ Hc), Hw.
    destruct (walk h1 t false s) as [w|] eqn:Es.
    + rewrite V, Z0 by auto.
      destruct (unshadowed h t route), (bool_decide_reflect (s = route)); simpl;
      case_decide; try done; naive_solver.
    + destruct (unshadowed h t route), (bool_decide_reflect (s = route)); simpl;
        try done; naive_solver.
Qed.

(** ** Deletion *)

(** C38: [Delete] empties the node its request resolves to, and every other
    request keeps its answer. *)
Theorem Delete_Get h t s s' :
  Get (Delete h t s) t s' =
  if decide (get h t s' = get h t s) then (zero, None) else Get h t s'.
Proof.
  unfold Delete. destruct (get h t s) as [w|] eqn:E.
  - set (f := fun n => Node (children n) zero None).
    unfold Get. rewrite !get_walk, (walk_ext h), <- get_walk
      by by apply child_alter_values.
    destruct (get h t s') as [w'|].
    + rewrite node_value_alter. repeat case_decide; try congruence.
      by destruct (h !! w).
    + by case_decide.
  - unfold Get. case_decide as E'; [by rewrite E'|done].
Qed.

(** ** Trees built from an empty one *)

Inductive reachable : arena -> Prop :=
| reach_new : reachable (fst (New []))
| reach_set h route v : reachable h -> reachable (Set_ h 0 route v)
| reach_delete h s : reachable h -> reachable (Delete h 0 s).

(** Every stored route is stored at the end of its own trie path. *)
Definition routes_at_path (h : arena) : Prop :=
  forall w v p, node_value h w = (v, Some p) ->
  follow h 0%nat (route_path false p) = Some w.

Lemma Set_routes_at_path h route v :
  arena_wf h -> (0 < length h)%nat -> routes_at_path h ->
  routes_at_path (Set_ h 0 route v).
Proof.
  intros Hwf H0 Hr w v' p.
  destruct (Set_spec h 0 route v Hwf H0) as (h1 & t1 & E & W & _ & Hc & F & V).
  destruct (insert_path_spec _ _ _ _ _ Hwf H0 E) as (_ & L & _ & _ & _ & _ & Z0).
  rewrite V. case_decide as Hw; [by intros [= <- <-]; subst|].
  destruct (decide (w < length h)%nat); [|by rewrite Z0 by lia].
  rewrite (le_val _ _ L) by done. intros Hf%Hr. rewrite (follow_ext _ _ _ _ Hc).
  revert Hf. generalize 0%nat, (route_path false p).
  intros t ks. revert t. induction ks as [|k ks IH]; intros t; simpl; [done|].
  destruct (child h t k) eqn:Ek; [|done]. rewrite (le_edge _ _ L _ _ _ Ek). apply IH.
Qed.

Lemma reachable_wf h :
  reachable h -> arena_wf h /\ (0 < length h)%nat /\ routes_at_path h.
Proof.
  induction 1 as [|h route v _ (W & L & R)|h s _ (W & L & R)].
  - assert (E : forall t c, child (fst (New [])) t c = None).
    { intros [|t] c; unfold child; simpl; [apply lookup_empty|done]. }
    split_and!; [constructor| |].
    + intros t c t'. by rewrite E.
    + intros t1 c1 t2 c2 t'. by rewrite E.
    + simpl. lia.
    + intros [|w] v p; by cbn.
  - destruct (Set_spec h 0 route v W L) as (? & ? & _ & W' & L' & _).
    split_and!; [done|lia|by apply Set_routes_at_path].
  - unfold Delete. destruct (get h 0 s) as [w|]; [|done].
    set (f := fun n => Node (children n) zero None).
    assert (Hc : forall u c, child (alter f w h) u c = child h u c)
      by by apply child_alter_values.
    split_and!; [|by rewrite length_alter|].
    + eapply arena_wf_ext; [apply length_alter|done|done].
    + intros u v p. rewrite node_value_alter, (follow_ext _ _ _ _ Hc).
      case_decide; [by destruct (h !! w)|]. apply R.
Qed.

(** C17: in a tree built by [Set] and [Delete], what [Get] returns is a registered route, and the request fits it. *)
Theorem Get_sound h s v p :
  reachable h -> Get h 0 s = (v, Some p) ->
  route_matches (route_path false p) s = true /\
  unshadowed h 0 (route_path false p) = true.
Proof.
  intros Hr. destruct (reachable_wf _ Hr) as (W & L & R).
  unfold Get. destruct (get h 0 s) as [w|] eqn:E; [|done]. intros Hv%R.
  apply get_iff in E as (ks & F & Hm & Hu). by rewrite (follow_inj _ _ _ _ _ W Hv F).
Qed.

(** ** Listing the routes *)

Lemma elem_of_dump fuel h t x :
  x ∈ dump fuel h t <->
  exists ks w, (0 < length ks <= fuel)%nat /\ Forall byte_ok ks /\
    follow h t ks = Some w /\ node_value h w = (Value x, Some (Path x)).
Proof.
  revert t. induction fuel as [|fuel IH]; intros t.
  { simpl. split; [set_solver|]. intros (ks & w & ? & _). lia. }
  cbn [dump]. unfold dump_children. rewrite list_elem_of_In, in_flat_map. split.
  - intros (i & Hi%in_seq & Hx). destruct (child h t (Z.of_nat i)) as [u|] eqn:E; [|done].
    apply in_app_or in Hx as [Hx|Hx].
    + exists [Z.of_nat i], u. simpl. rewrite E. split_and!; try done; try lia.
      * repeat constructor; lia.
      * unfold node_value. destruct (h !! u) as [n|]; [|done].
        destruct (vpath n) as [p|]; [|done]. destruct Hx as [<-|[]]. done.
    + apply list_elem_of_In, IH in Hx as (ks & w & Hl & Hb & F & Hv).
      exists (Z.of_nat i :: ks), w. simpl. rewrite E. split_and!; try done; try lia.
      constructor; [unfold byte_ok; lia|done].
  - intros ([|k ks] & w & Hl & Hb & F & Hv); [simpl in Hl; lia|].
    apply Forall_cons in Hb as [Hk Hb]. unfold byte_ok in Hk.
    exists (Z.to_nat k). split; [apply in_seq; lia|].
    rewrite Z2Nat.id by lia. simpl in F. destruct (child h t k) as [u|]; [|done].
    apply in_or_app. destruct ks as [|k' ks].
    + left. injection F as <-. unfold node_value in Hv.
      destruct (h !! u) as [n|]; [|done]. injection Hv as Hv Hp. rewrite Hp, Hv.
      left. by destruct x.
    + right. apply list_elem_of_In, IH. exists (k' :: ks), w. simpl in *.
      split_and!; try done; lia.
Qed.

(** [Dump] lists exactly the routes stored below the node. *)
Theorem Dump_spec h t x :
  arena_wf h -> (t < length h)%nat ->
  x ∈ Dump h t <->
  exists ks w, ks <> [] /\ Forall byte_ok ks /\
    follow h t ks = Some w /\ node_value h w = (Value x, Some (Path x)).
Proof.
  intros W Ht. unfold Dump. rewrite elem_of_dump. split.
  - intros (ks & w & Hl & H). exists ks, w. split; [|done]. intros ->. simpl in Hl. lia.
  - intros (ks & w & Hn & Hb & F & Hv). exists ks, w. split_and!; try done.
    + destruct ks; [done|]. simpl. lia.
    + pose proof (follow_le _ _ _ _ W F). pose proof (follow_lt _ _ _ _ W Ht F). lia.
Qed.

End tree.
(** ** The theorems at concrete trees *)

Definition demo : list node :=
  Set_ 0 (Set_ 0 (fst (New 0 [])) 0 (bs "GET@/api/:id/show") 1) 0 (bs "GET@/static/*path") 2.

Lemma demo_reachable : reachable 0 demo.
Proof. repeat constructor. Qed.

Lemma demo_wf : arena_wf demo /\ (0 < length demo)%nat.
Proof. destruct (reachable_wf 0 demo demo_reachable) as (? & ? & _). done. Qed.

Lemma get_unique_path_witness :
  exists! ks, follow demo 0 ks = get demo 0 (bs "GET@/api/42/show") /\
    route_matches ks (bs "GET@/api/42/show") = true /\ unshadowed demo 0 ks = true.
Proof. exact (get_unique_path demo 0 (bs "GET@/api/42/show") (proj1 demo_wf)). Defined.

Lemma Set_Get_matching_witness :
  Get 0 (Set_ 0 demo 0 (bs "GET@/api/:id/edit") 3) 0 (bs "GET@/api/7/edit") =
  (3, Some (bs "GET@/api/:id/edit")).
Proof.
  exact (proj2 (Set_Get_matching 0 demo 0 (bs "GET@/api/:id/edit") 3 (bs "GET@/api/7/edit")
    (proj1 demo_wf) (proj2 demo_wf)) eq_refl).
Defined.

Lemma Set_static_Get_witness :
  Get 0 (Set_ 0 demo 0 (bs "GET@/about") 4) 0 (bs "GET@/about") = (4, Some (bs "GET@/about")).
Proof.
  exact (Set_static_Get 0 demo 0 (bs "GET@/about") 4 (bs "GET@/about")
    (proj1 demo_wf) (proj2 demo_wf) eq_refl).
Defined.

Lemma Get_sound_witness :
  route_matches (route_path false (bs "GET@/static/*path")) (bs "GET@/static/a/b") = true /\
  unshadowed demo 0 (route_path false (bs "GET@/static/*path")) = true.
Proof.
  exact (Get_sound 0 demo (bs "GET@/static/a/b") 2 (bs "GET@/static/*path") demo_reachable eq_refl).
Defined.

Lemma Dump_spec_witness :
  Dumped (bs "GET@/static/*path") 2 ∈ Dump demo 0 <->
  exists ks w, ks <> [] /\ Forall byte_ok ks /\ follow demo 0 ks = Some w /\
    node_value 0 demo w = (2, Some (bs "GET@/static/*path")).
Proof.
  exact (Dump_spec 0 demo 0 (Dumped (bs "GET@/static/*path") 2) (proj1 demo_wf) (proj2 demo_wf)).
Defined.

End Utree.
