(* ===== verification/Uweb.v ===== *)
(** * The web framework ([src/uweb])

    Groups of routes with their middleware ([group.go]), the request context
    with its buffered writer ([context.go]) and the entry point of the server
    ([tux.go]), on top of the route tree.

    A [HandlerFunc] is user code that sees a [*Context].  It is a program over
    the exported methods: it can transform the exported state, call [Next],
    leave through [End], [Close] or [ResponseWriter], panic, and run a part of
    itself under [recover]. *)
From stdpp Require Import base numbers list gmap strings.
From S2P Require Import Prelude Utree.
#[local] Open Scope Z_scope.

Module Uweb.

(** ** Strings and paths of the Go library *)

Definition split_step (sep c : Z) (acc : list (list Z)) : list (list Z) :=
  if c =? sep then [] :: acc
  else match acc with
       | [] => [[c]]
       | w :: acc' => (c :: w) :: acc'
       end.

(** [strings.Split] with a one-byte separator. *)
Definition split (sep : Z) (s : list Z) : list (list Z) :=
  foldr (split_step sep) [[]] s.

(** [strings.Join] *)
Fixpoint join (sep : list Z) (l : list (list Z)) : list Z :=
  match l with
  | [] => []
  | [w] => w
  | w :: l' => w ++ sep ++ join sep l'
  end.

(** [strings.ToUpper] on ASCII. *)
Definition upper (c : Z) : Z := if (97 <=? c) && (c <=? 122) then c - 32 else c.
Definition lower (c : Z) : Z := if (65 <=? c) && (c <=? 90) then c + 32 else c.
Definition ToUpper (s : list Z) : list Z := upper <$> s.

(** [strings.TrimSpace] on ASCII. *)
Definition is_space (c : Z) : bool := (c =? 32) || ((9 <=? c) && (c <=? 13)).
Fixpoint trim_left (s : list Z) : list Z :=
  match s with
  | [] => []
  | c :: s' => if is_space c then trim_left s' else s
  end.
Definition TrimSpace (s : list Z) : list Z := reverse (trim_left (reverse (trim_left s))).

(** [path.Clean]: the elements are scanned from the left; [stack] holds the
    ones kept, the last one first. *)
Definition clean_step (rooted : bool) (stack : list (list Z)) (w : list Z) : list (list Z) :=
  if bool_decide (w = []) || bool_decide (w = bs ".") then stack
  else if bool_decide (w = bs "..") then
    match stack with
    | top :: stack' => if bool_decide (top = bs "..") then w :: stack else stack'
    | [] => if rooted then [] else [w]
    end
  else w :: stack.

Definition path_clean (p : list Z) : list Z :=
  let rooted := match p with c :: _ => c =? 47 | [] => false end in
  let kept := reverse (fold_left (clean_step rooted) (split 47 p) []) in
  let out := join (bs "/") kept in
  if rooted then 47 :: out else if bool_decide (out = []) then bs "." else out.

(** [path.Join] *)
Definition path_join (l : list (list Z)) : list Z :=
  let l' := filter (fun w => w <> []) l in
  if bool_decide (l' = []) then [] else path_clean (join (bs "/") l').

(** [textproto.CanonicalMIMEHeaderKey]: the first letter and each letter after
    a hyphen in upper case, the others in lower case, unless some byte is not a
    token byte. *)
Definition token_char (c : Z) : bool :=
  ((48 <=? c) && (c <=? 57)) || ((65 <=? c) && (c <=? 90)) || ((97 <=? c) && (c <=? 122)) ||
  bool_decide (c ∈ bs "!#$%&'*+-.^_`|~").

Fixpoint canonical (up : bool) (s : list Z) : list Z :=
  match s with
  | [] => []
  | c :: s' => (if up then upper c else lower c) :: canonical (c =? 45) s'
  end.

Definition Normalize (header : list Z) : list Z :=
  if forallb token_char header then canonical true header else header.

(** ** The context *)

Abbreviation EndIndex := (-10).
Abbreviation OutlineEndIndex := (-20).
Abbreviation CloseIndex := (-30).
Abbreviation defaultStatusCode := 200.

Section uweb.
Context {V : Type}.   (* the values of the context store *)

Record Request := Req_ { Method : list Z; URLPath : list Z }.

(** The server's [http.ResponseWriter]: its header map, the status line once
    written, and the bytes sent. *)
Record Response := Resp {
  r_header : gmap (list Z) (list Z);
  r_status : option Z;
  r_body : list Z
}.

(** [HandlerWriter]; [header] is nil or the header map of the server's writer,
    which it shares. *)
Record HandlerWriter := HW { status : Z; header : bool; body : list Z }.

(** The part of [Context] that handlers reach. *)
Record Pub := Pub_ {
  req : option Request;
  writer : option Response;
  Writer : HandlerWriter;
  ctxStore : option (gmap (list Z) V);
  vpath : option (list Z);
  parmas : option (gmap (list Z) (list Z))
}.

Inductive panicval :=
| ErrAbortHandler
| RuntimeError
| Thrown (v : list Z).

(** Handler code. *)
Inductive prog :=
| Return
| Panics (v : panicval)
| Act (f : Pub -> option Pub) (k : Pub -> prog)
| CallNext (k : prog)
| CallEnd
| CallClose
| CallResponseWriter (f : Response -> Response)
| Recovering (p : prog) (k : option panicval -> prog).

Abbreviation HandlerFunc := prog.
Abbreviation HandlerList := (list prog).

Record Context := Ctx {
  pub : Pub;
  index : Z;
  handlerList : HandlerList
}.

Definition set_pub (q : Pub) (c : Context) : Context := Ctx q (index c) (handlerList c).
Definition set_index (i : Z) (c : Context) : Context := Ctx (pub c) i (handlerList c).

(** *** The buffered writer *)

Definition newWriterBufferContext : HandlerWriter := HW 200 false [].

Definition writer_reset (w : HandlerWriter) : HandlerWriter := HW defaultStatusCode false [].

Definition set_Writer (w : HandlerWriter) (p : Pub) : Pub :=
  Pub_ (req p) (writer p) w (ctxStore p) (vpath p) (parmas p).
Definition set_writer (r : option Response) (p : Pub) : Pub :=
  Pub_ (req p) r (Writer p) (ctxStore p) (vpath p) (parmas p).

(** [w.Write], [w.WriteString] *)
Definition Write (b : list Z) (p : Pub) : Pub :=
  set_Writer (HW (status (Writer p)) (header (Writer p)) (body (Writer p) ++ b)) p.

(** [w.WriteHeader] *)
Definition WriteHeader (code : Z) (p : Pub) : Pub :=
  set_Writer (HW code (header (Writer p)) (body (Writer p))) p.

(** [w.Header().Set(k, v)]: an assignment in a nil map panics. *)
Definition header_set (k v : list Z) (p : Pub) : option Pub :=
  match header (Writer p), writer p with
  | true, Some r =>
      Some (set_writer (Some (Resp (<[Normalize k := v]> (r_header r)) (r_status r) (r_body r))) p)
  | _, _ => None
  end.

(** [w.Header().Get(k)] *)
Definition header_get (k : list Z) (p : Pub) : list Z :=
  match header (Writer p), writer p with
  | true, Some r => default [] (r_header r !! Normalize k)
  | _, _ => []
  end.

(** *** Contexts *)

Definition newContext : Context :=
  Ctx (Pub_ None None newWriterBufferContext None None None) 0 [].

Definition reset (c : Context) : Context :=
  Ctx (Pub_ None None (writer_reset (Writer (pub c))) None None None) 0 [].

Definition use (w : Response) (r : Request) (c : Context) : Context :=
  let q := pub c in
  let w' := HW (status (Writer q)) true (body (Writer q)) in
  set_pub (Pub_ (Some r) (Some w) w' (ctxStore q) (vpath q) (parmas q)) c.

Definition set_ctxStore (m : option (gmap (list Z) V)) (p : Pub) : Pub :=
  Pub_ (req p) (writer p) (Writer p) m (vpath p) (parmas p).

(** [Context.Set], [Get], [Delete] *)
Definition Set_ (key : list Z) (v : V) (p : Pub) : Pub :=
  set_ctxStore (Some (<[key := v]> (default ∅ (ctxStore p)))) p.

Definition Get (key : list Z) (p : Pub) : option V := ctxStore p ≫= fun m => m !! key.

Definition Delete (key : list Z) (p : Pub) : Pub :=
  match ctxStore p with
  | None => p
  | Some m => set_ctxStore (Some (delete key m)) p
  end.

(** The loop of [Param] over the segments of the route and of the path. *)
Fixpoint param_loop (vp path : list (list Z)) (m : gmap (list Z) (list Z))
  : gmap (list Z) (list Z) :=
  match vp, path with
  | v :: vp', w :: path' =>
      match v with
      | [] => param_loop vp' path' m
      | c :: name =>
          if c =? 58 then param_loop vp' path' (<[name := w]> m)
          else if c =? 42 then <[name := join (bs "/") path]> m
          else param_loop vp' path' m
      end
  | _, _ => m
  end.

Definition build_params (vp : option (list Z)) (path : list Z) : gmap (list Z) (list Z) :=
  param_loop (split 47 (default [] vp)) (split 47 path) ∅.

(** [Context.Param]; it dereferences [c.Req] when the parameters are not yet
    computed. *)
Definition Param (key : list Z) (p : Pub) : option (list Z * Pub) :=
  match parmas p with
  | Some m => Some (default [] (m !! key), p)
  | None =>
      match req p with
      | None => None
      | Some r =>
          let m := build_params (vpath p) (URLPath r) in
          Some (default [] (m !! key),
                Pub_ (req p) (writer p) (Writer p) (ctxStore p) (vpath p) (Some m))
      end
  end.

Definition Status (code : list Z) (p : Pub) : Z * Pub :=
  let p' := match code with c :: _ => WriteHeader c p | [] => p end in
  (status (Writer p'), p').

(** [w.WriteJSON], with the text of the encoder. *)
Definition WriteJSON (text : list Z) (p : Pub) : option Pub :=
  p' ← header_set (bs "Content-Type") (bs "application/json; charset=utf-8") p;
  Some (Write text p').

Definition SetHeader (k v : list Z) (p : Pub) : option Pub := header_set k v p.

(** The common body of [String], [Html] and [Data]. *)
Definition write_typed (ctype : list Z) (code : Z) (b : list Z) (p : Pub) : option Pub :=
  let p1 := (Status [code] p).2 in
  p2 ← (if bool_decide (header_get (bs "Content-Type") p1 = [])
        then SetHeader (bs "Content-Type") ctype p1 else Some p1);
  Some (Write b p2).

Definition String_ (code : Z) (format : list Z) : Pub -> option Pub :=
  write_typed (bs "text/plain; charset=utf-8") code format.
Definition Html (code : Z) (html : list Z) : Pub -> option Pub :=
  write_typed (bs "text/html; charset=utf-8") code html.
Definition Data (code : Z) (data : list Z) : Pub -> option Pub :=
  write_typed (bs "application/octet-stream") code data.

(** [http.Error]: the message goes out as a line of plain text. *)
Definition http_Error (msg : list Z) (code : Z) (p : Pub) : option Pub :=
  p1 ← header_set (bs "Content-Type") (bs "text/plain; charset=utf-8") p;
  p2 ← header_set (bs "X-Content-Type-Options") (bs "nosniff") p1;
  Some (Write (msg ++ [10]) (WriteHeader code p2)).

(** [JSON] and [XML]: the encoder of the Go library gives the text to write or
    the message of its error. *)
Definition write_encoded (ctype : list Z) (code : Z) (enc : list Z + list Z) (p : Pub)
  : option Pub :=
  p1 ← SetHeader (bs "Content-Type") ctype p;
  let p2 := (Status [code] p1).2 in
  match enc with
  | inl text => Some (Write text p2)
  | inr msg => http_Error msg 500 p2
  end.

Definition JSON (code : Z) (enc : list Z + list Z) : Pub -> option Pub :=
  write_encoded (bs "application/json; charset=utf-8") code enc.
Definition XML (code : Z) (enc : list Z + list Z) : Pub -> option Pub :=
  write_encoded (bs "application/xml; charset=utf-8") code enc.

(** [Context.Clean]: the writer forgets its status and body; the header map is
    the server's again, with what it holds. *)
Definition Clean (c : Context) : Context :=
  let q := pub c in
  let w := writer_reset (Writer q) in
  set_pub (set_Writer (HW (status w) (bool_decide (writer q <> None)) (body w)) q) c.

(** ** Running the handlers *)

Inductive outcome :=
| Normal
| Panicked (v : panicval)
| NoFuel.

(** [Context.end] *)
Definition end_ (i : Z) (c : Context) : Context * outcome :=
  (set_index i c, Panicked ErrAbortHandler).

Fixpoint run (next : Context -> Context * outcome) (p : prog) (c : Context)
  : Context * outcome :=
  match p with
  | Return => (c, Normal)
  | Panics v => (c, Panicked v)
  | Act f k =>
      match f (pub c) with
      | None => (c, Panicked RuntimeError)
      | Some q => run next (k q) (set_pub q c)
      end
  | CallNext k =>
      match next c with
      | (c', Normal) => run next k c'
      | r => r
      end
  | CallEnd => end_ EndIndex c
  | CallClose => end_ CloseIndex c
  | CallResponseWriter f =>
      end_ OutlineEndIndex (set_pub (set_writer (f <$> writer (pub c)) (pub c)) c)
  | Recovering p k =>
      match run next p c with
      | (c', Normal) => run next (k None) c'
      | (c', Panicked v) => run next (k (Some v)) c'
      | r => r
      end
  end.

(** [Context.Next].  Each turn moves [index] past the handler it runs, so the
    number of handlers bounds the depth. *)
Fixpoint Next (fuel : nat) (c : Context) : Context * outcome :=
  match fuel with
  | O => (c, NoFuel)
  | S fuel' =>
      if (-1 <? index c) && (index c <? Z.of_nat (length (handlerList c))) then
        match handlerList c !! Z.to_nat (index c) with
        | None => (c, Panicked RuntimeError)
        | Some h =>
            match run (Next fuel') h (set_index (index c + 1) c) with
            | (c', Normal) => Next fuel' c'
            | (c', Panicked v) => if -1 <? index c' then (c', Panicked v) else Next fuel' c'
            | r => r
            end
        end
      else (c, Normal)
  end.

(** ** Groups and the server *)

Record Group := Grp { prefix : list Z; middleware : list HandlerFunc }.

(** A group with its chain of parents, the group itself first. *)
Abbreviation group_chain := (list Group).

(** [Uweb]: the route tree; the root group is the last of every chain. *)
Record Uweb_ := UW { arena : list (@Utree.node HandlerList); root : Group }.

Definition New : Uweb_ := UW (fst (Utree.New [] [])) (Grp (bs "/") []).

Definition NewGroup (g : group_chain) (pfx : list Z) : group_chain :=
  Grp (path_join [default [] (prefix <$> head g); pfx]) [] :: g.

Definition generateHandlerList (g : group_chain) (handler : list HandlerFunc)
  : list HandlerFunc :=
  concat (middleware <$> g) ++ handler.

Definition Use (m : list HandlerFunc) (g : Group) : Group :=
  Grp (prefix g) (middleware g ++ m).

Definition route_key (g : group_chain) (method part : list Z) : list Z :=
  ToUpper method ++ bs "@" ++ path_join [default [] (prefix <$> head g); part].

(** [Group.Method] *)
Definition AddRoute (u : Uweb_) (g : group_chain) (method part : list Z) (h : HandlerFunc)
  : Uweb_ :=
  UW (Utree.Set_ [] (arena u) 0 (route_key g method part) (generateHandlerList g [h])) (root u).

(** [Group.Split], [Group.Any] *)
Definition Split (u : Uweb_) (g : group_chain) (methods part : list Z) (h : HandlerFunc) : Uweb_ :=
  fold_left (fun u m => AddRoute u g (TrimSpace m) part h) (split 44 methods) u.

Definition Any (u : Uweb_) (g : group_chain) (part : list Z) (h : HandlerFunc) : Uweb_ :=
  Split u g (bs "GET,POST,PUT,DELETE,PATCH,HEAD,OPTIONS") part h.

(** [Group.Get], [Post], [Put], [Delete], [Patch], [Head], [Options] *)
Definition AddGet (u : Uweb_) (g : group_chain) : list Z -> HandlerFunc -> Uweb_ := AddRoute u g (bs "GET").
Definition AddPost (u : Uweb_) (g : group_chain) : list Z -> HandlerFunc -> Uweb_ := AddRoute u g (bs "POST").
Definition AddPut (u : Uweb_) (g : group_chain) : list Z -> HandlerFunc -> Uweb_ := AddRoute u g (bs "PUT").
Definition AddDelete (u : Uweb_) (g : group_chain) : list Z -> HandlerFunc -> Uweb_ := AddRoute u g (bs "DELETE").
Definition AddPatch (u : Uweb_) (g : group_chain) : list Z -> HandlerFunc -> Uweb_ := AddRoute u g (bs "PATCH").
Definition AddHead (u : Uweb_) (g : group_chain) : list Z -> HandlerFunc -> Uweb_ := AddRoute u g (bs "HEAD").
Definition AddOptions (u : Uweb_) (g : group_chain) : list Z -> HandlerFunc -> Uweb_ := AddRoute u g (bs "OPTIONS").

(** A method of the value given to [Object], as reflection shows it: its name
    and, when it has the type [func( *Context)], its code. *)
Record ObjMethod := ObjM { om_name : list Z; om_func : option HandlerFunc }.

Definition is_middleware (methodName : list Z) : bool :=
  bool_decide (take 10 methodName = bs "MIDDLEWARE").

(** One turn of the loop of [Object] on the group [r] it creates. *)
Definition object_step (s : Uweb_ * group_chain) (m : ObjMethod) : Uweb_ * group_chain :=
  let '(u, g) := s in
  let methodName := ToUpper (om_name m) in
  if is_middleware methodName then
    match om_func m, g with
    | Some h, r :: parents => (u, Use [h] r :: parents)
    | _, _ => (u, g)
    end
  else
    match om_func m with
    | Some h => (AddRoute u g methodName (bs "/") h, g)
    | None => (u, g)
    end.

(** [Group.Object]; [methods] is the method set in the order of reflection,
    which is the order of the names. *)
Definition Object_ (u : Uweb_) (g : group_chain) (part : list Z) (methods : list ObjMethod) : Uweb_ :=
  (fold_left object_step methods (u, NewGroup g part)).1.

(** [Uweb.DumpRoute] *)
Definition DumpRoute (u : Uweb_) : list (@Utree.DumpValue HandlerList) := Utree.Dump (arena u) 0.

Definition defaultNotFound : HandlerFunc :=
  Act (fun p => match req p with
                | None => None
                | Some r => http_Error (bs "404 NOT FOUND:" ++ URLPath r) 404 p
                end) (fun _ => Return).

Section serve.
Context (show : panicval -> list Z).   (* the text of a panic value under the verb %v *)
(** The client: [Some n] when writing these bytes to it fails after [n] of them. *)
Context (refuses : list Z -> option nat).

Definition lookup_handlers (u : Uweb_) (c : Context) : Context :=
  let q := pub c in
  let key := match req q with
             | Some r => Method r ++ bs "@" ++ URLPath r
             | None => []
             end in
  let '(hl, vp) := Utree.Get [] (arena u) 0 key in
  let hl' := match hl with [] => middleware (root u) ++ [defaultNotFound] | _ :: _ => hl end in
  Ctx (Pub_ (req q) (writer q) (Writer q) (ctxStore q) vp (parmas q)) (index c) hl'.

(** [Uweb.Handle]; the deferred function recovers from any panic. *)
Definition Handle (u : Uweb_) (c : Context) : Context * outcome :=
  let c1 := lookup_handlers u c in
  match Next (S (length (handlerList c1))) c1 with
  | (c2, Panicked v) =>
      if -1 <? index c2 then
        let c3 := Clean c2 in
        match http_Error (bs "Internal Server Error, Recover: " ++ show v) 500 (pub c3) with
        | Some q => (set_pub q c3, Normal)
        | None => (c3, Panicked RuntimeError)
        end
      else (c2, Normal)
  | r => r
  end.

Inductive served :=
| Sent (r : Response)         (* the response as the handlers and the server wrote it *)
| Broken (r : Response)       (* a panic with the error of a write to the client, which got this *)
| Aborted                     (* [http.ErrAbortHandler]: the connection is closed *)
| Crashed.

(** [w.WriteHeader]: the status line, unless one was written already. *)
Definition send_status (code : Z) (w : Response) : Response :=
  Resp (r_header w) (Some (default code (r_status w))) (r_body w).

(** [io.Copy(w, body)], which panics with the error it returns: a buffer writes
    all it has in one call, and makes none when it is empty. *)
Definition copy_body (w : Response) (b : list Z) : served :=
  match b, refuses b with
  | _ :: _, Some n => Broken (Resp (r_header w) (r_status w) (r_body w ++ take n b))
  | _, _ => Sent (Resp (r_header w) (r_status w) (r_body w ++ b))
  end.

(** The end of [ServeHTTP]. *)
Definition flush (hw : HandlerWriter) (w : Response) : served :=
  copy_body (send_status (status hw) w) (body hw).

(** [Uweb.ServeHTTP]; the context comes from the pool and goes back reset. *)
Definition ServeHTTP (u : Uweb_) (c : Context) (w : Response) (r : Request)
  : served * Context :=
  match Handle u (use w r c) with
  | (c', Normal) =>
      (if index c' <? EndIndex then
         if index c' <=? CloseIndex then Aborted
         else match writer (pub c') with Some w' => Sent w' | None => Crashed end
       else match writer (pub c') with
            | Some w' => flush (Writer (pub c')) w'
            | None => Crashed
            end, reset c')
  | (c', _) => (Crashed, reset c')
  end.
End serve.

(** ** Termination of [Next] *)

(** The handlers that [Next] has still to run. *)
Definition remaining (c : Context) : nat :=
  if index c <? 0 then 0 else Z.to_nat (Z.of_nat (length (handlerList c)) - index c).

Definition next_ok (next : Context -> Context * outcome) (bound : nat) : Prop :=
  forall c, (remaining c < bound)%nat ->
  handlerList (next c).1 = handlerList c /\ (remaining (next c).1 <= remaining c)%nat /\
  (next c).2 <> NoFuel.

Lemma run_ok next bound p c :
  next_ok next bound -> (remaining c < bound)%nat ->
  handlerList (run next p c).1 = handlerList c /\
  (remaining (run next p c).1 <= remaining c)%nat /\ (run next p c).2 <> NoFuel.
Proof.
  intros Hn. revert c. induction p as [|v|f k IH|k IH| | |f|p IHp k IHk]; intros c Hc; simpl;
    try (split_and!; done || unfold remaining; simpl; lia).
  - destruct (f (pub c)) as [q|]; [|by split_and!].
    by apply (IH q (set_pub q c)).
  - destruct (Hn c Hc) as (H1 & H2 & H3). destruct (next c) as [c' r]; simpl in *.
    destruct r; [|by split_and!|done].
    destruct (IH c') as (I1 & I2 & I3); [lia|]. split_and!; [congruence|lia|done].
  - destruct (IHp c Hc) as (H1 & H2 & H3). destruct (run next p c) as [c' r]; simpl in *.
    destruct r as [|v|]; [|..|done].
    + destruct (IHk None c') as (I1 & I2 & I3); [lia|]. split_and!; [congruence|lia|done].
    + destruct (IHk (Some v) c') as (I1 & I2 & I3); [lia|]. split_and!; [congruence|lia|done].
Qed.

Lemma Next_ok fuel : next_ok (Next fuel) fuel.
Proof.
  induction fuel as [|fuel IH]; intros c Hc; [lia|]. simpl.
  destruct (-1 <? index c) eqn:E1; [|by simpl].
  destruct (index c <? Z.of_nat (length (handlerList c))) eqn:E2; [|by simpl]. simpl.
  destruct (handlerList c !! Z.to_nat (index c)) as [h|]; [|by simpl].
  assert (Hr : S (remaining (set_index (index c + 1) c)) = remaining c).
  { unfold remaining; simpl.
    destruct (Z.ltb_spec (index c + 1) 0), (Z.ltb_spec (index c) 0); lia. }
  destruct (run_ok (Next fuel) fuel h (set_index (index c + 1) c) IH) as (H1 & H2 & H3); [lia|].
  destruct (run (Next fuel) h (set_index (index c + 1) c)) as [c' r]; simpl in *.
  assert (IH' : handlerList (Next fuel c').1 = handlerList c /\
    (remaining (Next fuel c').1 <= remaining c)%nat /\ (Next fuel c').2 <> NoFuel).
  { destruct (IH c') as (I1 & I2 & I3); [lia|]. split_and!; [congruence|lia|done]. }
  destruct r as [|v|]; [done| |done].
  destruct (-1 <? index c'); [|done]. simpl. split_and!; [congruence|lia|done].
Qed.

(** C35: [Next] terminates: whatever the handlers do, with one unit of fuel per
    handler to run it does not run out. *)
Theorem Next_terminates c :
  (Next (S (length (handlerList c))) c).2 <> NoFuel.
Proof.
  apply (Next_ok (S (length (handlerList c))) c). unfold remaining.
  destruct (Z.ltb_spec (index c) 0); lia.
Qed.

(** ** Straight-line handlers: the chain they form *)

(** How a handler without [Next] and without [recover] ends. *)
Inductive leave := Fell | Threw (v : panicval) | Left_ (i : Z).

Fixpoint straight (p : prog) : Prop :=
  match p with
  | Act _ k => forall q, straight (k q)
  | CallNext _ | Recovering _ _ => False
  | _ => True
  end.

Fixpoint eval (p : prog) (q : Pub) : Pub * leave :=
  match p with
  | Return => (q, Fell)
  | Panics v => (q, Threw v)
  | Act f k => match f q with
               | None => (q, Threw RuntimeError)
               | Some q' => eval (k q') q'
               end
  | CallEnd => (q, Left_ EndIndex)
  | CallClose => (q, Left_ CloseIndex)
  | CallResponseWriter f => (set_writer (f <$> writer q) q, Left_ OutlineEndIndex)
  | CallNext _ | Recovering _ _ => (q, Fell)
  end.

(** The handlers one after the other, until one does not fall through. *)
Fixpoint chain (hs : list prog) (q : Pub) : Pub * leave :=
  match hs with
  | [] => (q, Fell)
  | h :: hs' => match eval h q with
                | (q', Fell) => chain hs' q'
                | r => r
                end
  end.

Definition leave_result (c : Context) (r : Pub * leave) (i : Z) : Context * outcome :=
  match r with
  | (q, Fell) => (set_pub q (set_index i c), Normal)
  | (q, Threw v) => (set_pub q (set_index i c), Panicked v)
  | (q, Left_ j) => (set_pub q (set_index j c), Panicked ErrAbortHandler)
  end.

Lemma run_straight next p c :
  straight p -> run next p c = leave_result c (eval p (pub c)) (index c).
Proof.
  revert c. induction p as [|v|f k IH|k IH| | |f|p IHp k IHk]; intros c Hs;
    try (by destruct c); simpl.
  - destruct (f (pub c)) as [q|]; [|by destruct c].
    rewrite IH by apply Hs. by destruct c.
Qed.

Lemma eval_left p q q' i : eval p q = (q', Left_ i) -> i <= EndIndex.
Proof.
  revert q. induction p as [|v|f k IH|k IH| | |f|p IHp k IHk]; intros q; simpl;
    try (by intros [= <- <-]); try (by intros [= <- <-]; lia); try done.
  destruct (f q); [apply IH|done].
Qed.

(** What [Next] leaves behind when it runs the handlers [hs] of a list. *)
Definition next_result (all : HandlerList) (r : Pub * leave) (out : Context * outcome) : Prop :=
  match r with
  | (q, Fell) => out = (Ctx q (Z.of_nat (length all)) all, Normal)
  | (q, Threw v) => exists i, 0 < i /\ out = (Ctx q i all, Panicked v)
  | (q, Left_ j) => j < 0 /\ out = (Ctx q j all, Normal)
  end.

Lemma Next_chain fuel hs0 hs q :
  Forall straight hs -> (length hs < fuel)%nat ->
  next_result (hs0 ++ hs) (chain hs q)
    (Next fuel (Ctx q (Z.of_nat (length hs0)) (hs0 ++ hs))).
Proof.
  revert fuel hs0 q. induction hs as [|h hs IH]; intros fuel hs0 q Hs Hf;
    (destruct fuel as [|fuel]; [lia|]); simpl; rewrite length_app; simpl.
  { destruct (Z.ltb_spec (Z.of_nat (length hs0)) (Z.of_nat (length hs0 + 0))); [lia|].
    rewrite andb_false_r. repeat f_equal. lia. }
  apply Forall_cons in Hs as [Hh Hs]. simpl in Hf.
  rewrite (proj2 (Z.ltb_lt _ _)) by lia. rewrite (proj2 (Z.ltb_lt _ _)) by lia. simpl.
  rewrite Nat2Z.id, list_lookup_middle by done.
  rewrite run_straight by done. simpl.
  destruct (eval h q) as [q' [|v|i]] eqn:E; simpl.
  - specialize (IH fuel (hs0 ++ [h]) q' Hs).
    rewrite length_app, Nat2Z.inj_add, <- app_assoc in IH. simpl in IH.
    apply IH. lia.
  - rewrite (proj2 (Z.ltb_lt _ _)) by lia. exists (Z.of_nat (length hs0) + 1).
    split; [lia|done].
  - apply eval_left in E. rewrite (proj2 (Z.ltb_ge _ _)) by lia. split; [lia|].
    destruct fuel; [lia|]. simpl. by rewrite (proj2 (Z.ltb_ge _ _)) by lia.
Qed.

(** ** The response to a request *)

Lemma Normalize_content_type : Normalize (bs "Content-Type") = bs "Content-Type".
Proof. by vm_compute. Qed.

Lemma Normalize_nosniff :
  Normalize (bs "X-Content-Type-Options") = bs "X-Content-Type-Options".
Proof. by vm_compute. Qed.

Section responses.
Context (show : panicval -> list Z) (refuses : list Z -> option nat).

(** The answer to a panic: the buffered body is dropped, the headers set so
    far stay. *)
Definition panic_response (v : panicval) (w : Response) : served :=
  copy_body refuses (Resp (<[bs "X-Content-Type-Options" := bs "nosniff"]>
          (<[bs "Content-Type" := bs "text/plain; charset=utf-8"]> (r_header w)))
       (Some (default 500 (r_status w))) (r_body w))
       (bs "Internal Server Error, Recover: " ++ show v ++ [10]).

Lemma copy_body_accepted w b : (forall b, refuses b = None) ->
  copy_body refuses w b = Sent (Resp (r_header w) (r_status w) (r_body w ++ b)).
Proof. intros Hc. unfold copy_body. destruct b; [done|]. by rewrite Hc. Qed.

Definition respond (r : Pub * leave) : served :=
  let '(q, l) := r in
  match writer q, l with
  | None, Left_ i => if i <=? CloseIndex then Aborted else Crashed
  | None, _ => Crashed
  | Some w, Fell => flush refuses (Writer q) w
  | Some w, Threw v => panic_response v w
  | Some w, Left_ i =>
      if i =? EndIndex then flush refuses (Writer q) w
      else if i =? OutlineEndIndex then Sent w else Aborted
  end.

Lemma eval_left_cases p q q' i :
  eval p q = (q', Left_ i) -> i = EndIndex \/ i = OutlineEndIndex \/ i = CloseIndex.
Proof.
  revert q. induction p as [|v|f k IH|k IH| | |f|p IHp k IHk]; intros q; simpl;
    try (by intros [= <- <-]); try (by intros [= <- <-]; auto); try done.
  destruct (f q); [apply IH|done].
Qed.

Lemma chain_left_cases hs q q' i :
  chain hs q = (q', Left_ i) -> i = EndIndex \/ i = OutlineEndIndex \/ i = CloseIndex.
Proof.
  revert q. induction hs as [|h hs IH]; intros q; simpl; [done|].
  destruct (eval h q) as [q1 [|v|j]] eqn:E; [apply IH|done|].
  intros [= <- <-]. by eapply eval_left_cases.
Qed.

Lemma ServeHTTP_respond u c w r :
  index c = 0 ->
  Forall straight (handlerList (lookup_handlers u (use w r c))) ->
  (ServeHTTP show refuses u c w r).1 =
  respond (chain (handlerList (lookup_handlers u (use w r c)))
                 (pub (lookup_handlers u (use w r c)))).
Proof.
  intros Hi Hs. unfold ServeHTTP, Handle.
  set (c1 := lookup_handlers u (use w r c)) in *.
  assert (E : c1 = Ctx (pub c1) (Z.of_nat (length (@nil prog))) ([] ++ handlerList c1)).
  { subst c1. unfold lookup_handlers, use. simpl.
    destruct (Utree.Get _ _ _ _) as [hl vp]. simpl. by rewrite Hi. }
  pose proof (Next_chain (S (length (handlerList c1))) [] (handlerList c1) (pub c1) Hs) as H.
  rewrite <- E in H. specialize (H ltac:(lia)).
  destruct (chain (handlerList c1) (pub c1)) as [q [|v|i]] eqn:Ec; simpl in H |- *.
  - rewrite H. simpl. rewrite (proj2 (Z.ltb_ge _ _)) by lia. by destruct (writer q).
  - destruct H as (i & Hpos & ->). simpl. rewrite (proj2 (Z.ltb_lt _ _)) by lia.
    unfold http_Error, header_set. simpl.
    destruct (writer q) as [w'|] eqn:Ew; simpl; [|done].
    rewrite (proj2 (Z.ltb_ge _ _)) by lia. simpl. unfold flush, panic_response. simpl.
    rewrite Normalize_content_type, Normalize_nosniff. by rewrite <- !app_assoc.
  - destruct H as (_ & ->). apply chain_left_cases in Ec as [-> | [-> | ->]]; simpl;
      by destruct (writer q).
Qed.

(** C32: no request sees the state of an earlier one: a context that served a
    request is a new context. *)
Theorem ServeHTTP_context_isolated u c w r : (ServeHTTP show refuses u c w r).2 = newContext.
Proof. unfold ServeHTTP. by destruct (Handle show u (use w r c)) as [? []]. Qed.

End responses.

(** ** From a registered route to its handlers *)

Lemma AddRoute_dispatch u g method part h c w r :
  Utree.arena_wf (arena u) -> (0 < length (arena u))%nat ->
  Utree.unshadowed (arena u) 0 (Utree.route_path false (route_key g method part)) = true ->
  Utree.route_matches (Utree.route_path false (route_key g method part))
    (Method r ++ bs "@" ++ URLPath r) = true ->
  lookup_handlers (AddRoute u g method part h) (use w r c) =
  Ctx (Pub_ (Some r) (Some w) (HW (status (Writer (pub c))) true (body (Writer (pub c))))
            (ctxStore (pub c)) (Some (route_key g method part)) (parmas (pub c)))
      (index c) (concat (middleware <$> g) ++ [h]).
Proof.
  intros Hwf H0 Hu Hm. unfold lookup_handlers, AddRoute. simpl.
  rewrite (Utree.Set_get_found [] _ _ _ _ _ Hwf H0 Hu Hm).
  unfold generateHandlerList. by destruct (concat (middleware <$> g)).
Qed.


(** a request that no route of a server without root middleware answers
    gets the 404 page. *)
Theorem ServeHTTP_not_found show refuses u c w r :
  index c = 0 -> middleware (root u) = [] ->
  (Utree.Get [] (arena u) 0 (Method r ++ bs "@" ++ URLPath r)).1 = [] ->
  r_status w = None -> body (Writer (pub c)) = [] -> (forall b, refuses b = None) ->
  exists hdr,
  (ServeHTTP show refuses u c w r).1 =
  Sent (Resp hdr (Some 404) (r_body w ++ bs "404 NOT FOUND:" ++ URLPath r ++ [10])).
Proof.
  intros Hi Hm Hg Hst Hb Hc.
  assert (E : handlerList (lookup_handlers u (use w r c)) = [defaultNotFound]).
  { unfold lookup_handlers. simpl. destruct (Utree.Get _ _ _ _) as [hl vp]. simpl in *.
    subst hl. by rewrite Hm. }
  rewrite ServeHTTP_respond; rewrite ?E; [|done|by repeat constructor].
  unfold lookup_handlers. simpl.
  destruct (Utree.Get _ _ _ _) as [hl vp]. simpl. unfold flush.
  rewrite copy_body_accepted by done. simpl. rewrite Hst, Hb. simpl. eexists. by rewrite <- app_assoc.
Qed.

(** ** Path parameters *)

Lemma split_cons sep c s : split sep (c :: s) = split_step sep c (split sep s).
Proof. done. Qed.

Lemma split_cons_ne sep c s :
  c <> sep -> exists w l, split sep s = w :: l /\ split sep (c :: s) = (c :: w) :: l.
Proof.
  intros Hne. rewrite split_cons. unfold split_step.
  rewrite (proj2 (Z.eqb_neq _ _)) by done.
  destruct (split sep s) as [|w l] eqn:E; [|eauto].
  destruct s as [|c' s]; [done|]. rewrite split_cons in E. unfold split_step in E.
  repeat case_match; done.
Qed.

Lemma split_app sep w s :
  Forall (fun c => c <> sep) w ->
  split sep (w ++ sep :: s) = w :: split sep s.
Proof.
  induction 1 as [|c w Hc _ IH]; cbn [app].
  - rewrite split_cons. unfold split_step. by rewrite Z.eqb_refl.
  - destruct (split_cons_ne sep c (w ++ sep :: s) Hc) as (w' & l & E & ->).
    rewrite IH in E. by injection E as <- <-.
Qed.

Lemma split_word sep w : Forall (fun c => c <> sep) w -> split sep w = [w].
Proof.
  induction 1 as [|c w Hc _ IH]; [done|].
  destruct (split_cons_ne sep c w Hc) as (w' & l & E & ->). rewrite IH in E.
  by injection E as <- <-.
Qed.

Lemma split_join sep l :
  l <> [] -> Forall (Forall (fun c => c <> sep)) l -> split sep (join [sep] l) = l.
Proof.
  intros Hn Hl. induction Hl as [|w l Hw Hl IH]; [done|]. destruct l as [|w' l].
  - simpl. by apply split_word.
  - change (join [sep] (w :: w' :: l)) with (w ++ sep :: join [sep] (w' :: l)).
    rewrite split_app by done. by rewrite IH.
Qed.

Lemma param_loop_absent vp path m name :
  Forall (fun v => v <> 58 :: name /\ v <> 42 :: name) vp ->
  param_loop vp path m !! name = m !! name.
Proof.
  revert path m. induction vp as [|v vp IH]; intros path m Hv; [done|].
  apply Forall_cons in Hv as [[H1 H2] Hv]. destruct path as [|w path]; [done|].
  destruct v as [|c n]; cbn [param_loop]; [by apply IH|].
  destruct (Z.eqb_spec c 58) as [->|]; [|destruct (Z.eqb_spec c 42) as [->|]; [|by apply IH]].
  - rewrite IH by done. apply lookup_insert_ne. congruence.
  - apply lookup_insert_ne. congruence.
Qed.

Lemma param_loop_colon vp1 vp2 path1 path2 w m name :
  length vp1 = length path1 ->
  Forall (fun v => head v <> Some 42) vp1 ->
  Forall (fun v => v <> 58 :: name /\ v <> 42 :: name) vp2 ->
  param_loop (vp1 ++ (58 :: name) :: vp2) (path1 ++ w :: path2) m !! name = Some w.
Proof.
  revert path1 m. induction vp1 as [|v vp1 IH]; intros [|w1 path1] m Hl H1 H2; try done.
  - cbn -[join]. rewrite param_loop_absent by done. apply lookup_insert_eq.
  - apply Forall_cons in H1 as [Hh H1]. injection Hl as Hl.
    destruct v as [|c n]; cbn [param_loop app]; [by apply IH|].
    destruct (Z.eqb_spec c 58); [by apply IH|].
    destruct (Z.eqb_spec c 42) as [->|]; [done|]. by apply IH.
Qed.

(** on a route with the segments [vs1/:name/vs2], [Param] gives for [name]
    the segment of the request path at its place, and leaves the parameters it
    computed in the context. *)
Theorem Param_segment vs1 vs2 ws1 w ws2 name p r :
  parmas p = None -> req p = Some r ->
  vpath p = Some (join [47] (vs1 ++ (58 :: name) :: vs2)) ->
  URLPath r = join [47] (ws1 ++ w :: ws2) ->
  Forall (Forall (fun c => c <> 47)) (vs1 ++ (58 :: name) :: vs2) ->
  Forall (Forall (fun c => c <> 47)) (ws1 ++ w :: ws2) ->
  length vs1 = length ws1 ->
  Forall (fun v => head v <> Some 42) vs1 ->
  Forall (fun v => v <> 58 :: name /\ v <> 42 :: name) vs2 ->
  exists p', Param name p = Some (w, p') /\ Param name p' = Some (w, p').
Proof.
  intros Hp Hr Hv Hu Hvs Hws Hl H1 H2.
  assert (E : build_params (vpath p) (URLPath r) !! name = Some w).
  { unfold build_params. rewrite Hv, Hu. simpl.
    rewrite split_join by (done || by destruct vs1).
    rewrite split_join by (done || by destruct ws1).
    by apply param_loop_colon. }
  unfold Param at 1. rewrite Hp, Hr, E. eexists. split; [done|].
  unfold Param. simpl. by rewrite E.
Qed.

(** ** Objects *)

(** The middleware methods among [ms], in order. *)
Definition middlewares (ms : list ObjMethod) : list HandlerFunc :=
  omap (fun m => if is_middleware (ToUpper (om_name m)) then om_func m else None) ms.

(** The routes of an object: each handler method, after the middleware methods
    that come before it. *)
Fixpoint object_routes (g : group_chain) (before ms : list ObjMethod)
  : list (list Z * HandlerList) :=
  match ms with
  | [] => []
  | m :: ms' =>
      match om_func m with
      | Some h =>
          if is_middleware (ToUpper (om_name m)) then []
          else [(route_key g (ToUpper (om_name m)) (bs "/"),
                 middlewares before ++ concat (middleware <$> tail g) ++ [h])]
      | None => []
      end ++ object_routes g (before ++ [m]) ms'
  end.

Definition set_routes (u : Uweb_) (l : list (list Z * HandlerList)) : Uweb_ :=
  fold_left (fun u kv => UW (Utree.Set_ [] (arena u) 0 kv.1 kv.2) (root u)) l u.

Lemma object_loop u pfx mws parents before ms :
  mws = middlewares before ->
  (fold_left object_step ms (u, Grp pfx mws :: parents)).1 =
  set_routes u (object_routes (Grp pfx [] :: parents) before ms).
Proof.
  revert u mws before. induction ms as [|m ms IH]; intros u mws before Hm; [done|].
  cbn [fold_left object_routes]. unfold object_step at 2.
  assert (Hb : middlewares (before ++ [m]) = mws ++ middlewares [m]).
  { subst. unfold middlewares. by rewrite omap_app. }
  destruct (is_middleware (ToUpper (om_name m))) eqn:Em, (om_func m) as [h|] eqn:Ef;
    try (apply IH; rewrite Hb; unfold middlewares; simpl; rewrite Em, ?Ef; by rewrite ?app_nil_r).
  rewrite (IH _ _ (before ++ [m])).
  - unfold set_routes. rewrite fold_left_app. simpl. unfold AddRoute, generateHandlerList. simpl.
    by rewrite Hm, <- app_assoc.
  - rewrite Hb. unfold middlewares. simpl. rewrite Em. by rewrite app_nil_r.
Qed.

(** [Object] registers the handler methods of a value in the order of
    reflection, and each gets only the middleware methods that precede it in
    that order: a method whose name sorts before the middleware's runs without
    it. *)
Theorem Object_routes u g part ms :
  Object_ u g part ms = set_routes u (object_routes (NewGroup g part) [] ms).
Proof. unfold Object_, NewGroup. by apply object_loop. Qed.

End uweb.
(** ** The theorems at concrete servers *)

Definition hello : @prog Z := Act (String_ 200 (bs "hello")) (fun _ => Return).
Definition api : list (@Group Z) := NewGroup [root New] (bs "api").
Definition get_req (path : list Z) : Request := Req_ (bs "GET") path.
Definition no_response : Response := Resp ∅ None [].

Lemma New_wf : Utree.arena_wf (arena (@New Z)) /\ (0 < length (arena (@New Z)))%nat.
Proof.
  destruct (Utree.reachable_wf (@nil (@prog Z)) _ (Utree.reach_new (@nil (@prog Z)))) as (? & ? & _). done.
Qed.


Lemma ServeHTTP_not_found_witness :
  exists hdr, (ServeHTTP (fun _ => []) (fun _ => None) (@New Z) newContext no_response (get_req (bs "/x"))).1 =
  Sent (Resp hdr (Some 404) ([] ++ bs "404 NOT FOUND:" ++ bs "/x" ++ [10])).
Proof.
  exact (ServeHTTP_not_found (fun _ => []) (fun _ => None) (@New Z) newContext no_response (get_req (bs "/x"))
    eq_refl eq_refl eq_refl eq_refl eq_refl (fun _ => eq_refl)).
Defined.

Lemma Param_segment_witness :
  let p := @Pub_ Z (Some (get_req (bs "/api/7"))) (Some no_response) (HW 200 true []) None
             (Some (bs "GET@/api/:id")) None in
  exists p', Param (bs "id") p = Some (bs "7", p') /\ Param (bs "id") p' = Some (bs "7", p').
Proof.
  cbv zeta.
  refine (Param_segment [bs "GET@"; bs "api"] [] [[]; bs "api"] (bs "7") [] (bs "id") _
    (get_req (bs "/api/7")) _ _ _ _ _ _ _ _ _); try reflexivity;
    vm_compute; repeat constructor; discriminate.
Defined.

End Uweb.
