(* ===== verification/Urest.v ===== *)
(** * REST services ([src/urest])

    A service is a tree of groups, whose methods become routes with a path, tags and a
    chain of handlers, collected in slices on the way down. Appending to a slice writes
    into its array when there is room, and slices share arrays: the slices are modelled
    with their arrays in a heap. The routes then serve requests by running their chain
    with a context. *)
From stdpp Require Import base numbers list gmap strings.
From S2P Require Import Prelude Uweb.
#[local] Open Scope Z_scope.

Module Urest.

(** ** Slices *)

Section Slices.
Context {A : Type}.

(** The arrays, each with its capacity; a slice starts at the start of its array. *)
Abbreviation heap := (list (list A)).
Record slice := Sl { arr : option nat; len : nat }.
Definition nil_slice : slice := Sl None 0.

Definition array (h : heap) (s : slice) : list A := default [] (i ← arr s; h !! i).
Definition elems (h : heap) (s : slice) : list A := take (len s) (array h s).
Definition new_slice (h : heap) (xs : list A) : heap * slice := (h ++ [xs], Sl (Some (length h)) (length xs)).

(** [append]: in place when the elements fit, else to a new array, of the capacity that
    [grow] chooses. *)
Definition append (grow : nat -> nat -> nat) (zero : A) (h : heap) (s : slice) (xs : list A) : heap * slice :=
  let n := (len s + length xs)%nat in
  let old := array h s in
  if (n <=? length old)%nat then
    (match arr s with Some i => <[i := take (len s) old ++ xs ++ drop n old]> h | None => h end, Sl (arr s) n)
  else
    (h ++ [take (len s) old ++ xs ++ replicate (grow (length old) n - n) zero], Sl (Some (length h)) n).

(** [s[len(s)-1] = x] *)
Definition set_last (h : heap) (s : slice) (x : A) : heap :=
  match arr s with Some i => alter (fun a => <[(len s - 1)%nat := x]> a) i h | None => h end.
End Slices.

(** *** Slices and the arrays they share *)

Section Holds.
Context {A : Type} (grow : nat -> nat -> nat) (zero : A).

(** [append] of one element that is then replaced is [append] of the other one. *)
Lemma append_set_last h s x y h' s' : (forall i, arr s = Some i -> (i < length h)%nat) -> (len s <= length (array h s))%nat ->
  append grow zero h s [x] = (h', s') -> append grow zero h s [y] = (set_last h' s' y, s').
Proof.
  intros Hi Hl E. unfold append in *. cbn [length] in *. destruct (Nat.leb_spec (len s + 1) (length (array h s))) as [Hle|Hgt]; injection E as <- <-.
  - unfold set_last, array in *. cbn [arr len]. destruct (arr s) as [i|]; [|done]. f_equal.
    rewrite !(list_insert_alter h), list_alter_alter_eq. apply list_alter_ext; [|done]. intros a _. cbn [mbind option_bind compose] in *. symmetry.
    rewrite insert_app_r_alt, length_take by (rewrite length_take; lia). replace (len s + 1 - 1 - _)%nat with 0%nat by lia. done.
  - unfold set_last. cbn [arr len]. f_equal. rewrite alter_app_r_alt, Nat.sub_diag by done. cbn. do 2 f_equal.
    rewrite insert_app_r_alt, length_take by (rewrite length_take; lia). replace (len s + 1 - 1 - _)%nat with 0%nat by lia. done.
Qed.

(** Whatever is overwritten, a slice keeps its length. *)
Definition sized (h : list (list A)) (s : slice) (n : nat) : Prop :=
  len s = n /\ (forall i, arr s = Some i -> (i < length h)%nat) /\ (len s <= length (array h s))%nat.
Definition resized (h h' : list (list A)) : Prop :=
  forall i a, h !! i = Some a -> exists a', h' !! i = Some a' /\ length a' = length a.

Lemma resized_refl h : resized h h.
Proof. intros i a Hi. by exists a. Qed.
Lemma resized_trans h1 h2 h3 : resized h1 h2 -> resized h2 h3 -> resized h1 h3.
Proof. intros G1 G2 i a Hi. destruct (G1 i a Hi) as (a1 & H1 & E1). destruct (G2 i a1 H1) as (a2 & H2 & E2). exists a2. split; [done|congruence]. Qed.
Lemma resized_app h l : resized h (h ++ l).
Proof. intros i a Hi. exists a. split; [by apply lookup_app_l_Some|done]. Qed.
Lemma sized_resized h h' s n : resized h h' -> sized h s n -> sized h' s n.
Proof.
  intros G (H1 & H2 & H3). unfold sized, array in *. destruct (arr s) as [i|]; cbn [mbind option_bind] in *; [|by split_and!].
  destruct (lookup_lt_is_Some_2 h i (H2 i eq_refl)) as [a Ha]. destruct (G i a Ha) as (a' & Ha' & E). rewrite Ha in H3. rewrite Ha'. cbn in *.
  split_and!; [done|intros ? [= <-]; by eapply lookup_lt_Some|lia].
Qed.
Lemma sized_nil h : sized h nil_slice 0.
Proof. by split_and!. Qed.
Lemma sized_new h xs h' s : new_slice h xs = (h', s) -> sized h' s (length xs) /\ resized h h'.
Proof.
  intros [= <- <-]. split; [|apply resized_app]. unfold sized, array. cbn. rewrite list_lookup_middle by done. cbn.
  rewrite length_app. cbn. split_and!; try done. intros i [= <-]. lia.
Qed.
Lemma append_sized h s n ys h' s' : sized h s n -> append grow zero h s ys = (h', s') -> sized h' s' (n + length ys) /\ resized h h'.
Proof.
  intros (H1 & H2 & H3) E. unfold append in E. destruct (Nat.leb_spec (len s + length ys) (length (array h s))) as [Hle|Hgt]; injection E as <- <-.
  - unfold sized, array in *. cbn [arr len]. destruct (arr s) as [i|]; cbn [mbind option_bind] in *; [|split; [by split_and!; [lia| |]|apply resized_refl]].
    specialize (H2 i eq_refl). destruct (lookup_lt_is_Some_2 h i H2) as [a Ha]. rewrite Ha in *. cbn [from_option id] in *.
    rewrite list_lookup_insert_eq by done. cbn. rewrite !length_app, length_take, length_drop, length_insert. split.
    + split_and!; [lia|by intros ? [= <-]|lia].
    + intros j c Hj. destruct (decide (i = j)) as [<-|Hne]; [|exists c; by rewrite list_lookup_insert_ne].
      rewrite Ha in Hj. injection Hj as <-. eexists. rewrite list_lookup_insert_eq by done. split; [done|]. rewrite !length_app, length_take, length_drop. lia.
  - split; [|apply resized_app]. unfold sized, array in *. cbn [arr len mbind option_bind]. rewrite list_lookup_middle by done. cbn.
    rewrite !length_app, length_take, length_replicate. cbn. split_and!; [lia|intros i [= <-]; lia|lia].
Qed.

(** *** What a slice holds *)

(** Each array with the length up to which some slice of it is in use. *)
Abbreviation shared := (list (list A * nat)).
Definition valid (g : shared) : Prop := Forall (fun x => (snd x <= length (fst x))%nat) g.
Definition holds (g : shared) (s : slice) (xs : list A) : Prop :=
  len s = length xs /\ match arr s with None => xs = [] | Some i => exists a n, g !! i = Some (a, n) /\ (len s <= n)%nat /\ take (len s) a = xs end.
(** Nothing in use is overwritten. *)
Definition grows (g g' : shared) : Prop :=
  forall i a n, g !! i = Some (a, n) -> exists a' n', g' !! i = Some (a', n') /\ length a' = length a /\ (n <= n')%nat /\ take n a' = take n a.
(** The arrays outside of [P] are as they were. *)
Definition only (P : nat -> Prop) (g g' : shared) : Prop := forall i x, g !! i = Some x -> ~ P i -> g' !! i = Some x.

Lemma grows_refl g : grows g g.
Proof. intros i a n Hi. by exists a, n. Qed.
Lemma grows_trans g1 g2 g3 : grows g1 g2 -> grows g2 g3 -> grows g1 g3.
Proof.
  intros G1 G2 i a n Hi. destruct (G1 i a n Hi) as (a1 & n1 & H1 & L1 & N1 & T1). destruct (G2 i a1 n1 H1) as (a2 & n2 & H2 & L2 & N2 & T2).
  exists a2, n2. split_and!; [done|congruence|lia|]. rewrite <- T1. apply (f_equal (take n)) in T2. rewrite !take_take, Nat.min_l in T2 by lia. done.
Qed.
Lemma grows_app g l : grows g (g ++ l).
Proof. intros i a n Hi. exists a, n. split_and!; try done. by apply lookup_app_l_Some. Qed.
Lemma only_refl P g : only P g g.
Proof. by intros i x. Qed.
Lemma holds_grows g g' s xs : grows g g' -> holds g s xs -> holds g' s xs.
Proof.
  intros G [H1 H2]. split; [done|]. destruct (arr s) as [i|]; [|done]. destruct H2 as (a & n & Hi & Hn & Ht).
  destruct (G i a n Hi) as (a' & n' & H' & L & N & T). exists a', n'. split_and!; [done|lia|]. rewrite <- Ht.
  apply (f_equal (take (len s))) in T. by rewrite !take_take, Nat.min_l in T by lia.
Qed.
Lemma holds_nil g : holds g nil_slice [].
Proof. by split. Qed.
Lemma holds_elems g s xs : holds g s xs -> elems g.*1 s = xs.
Proof.
  intros [H1 H2]. unfold elems, array. destruct (arr s) as [i|]; cbn [mbind option_bind].
  - destruct H2 as (a & n & Hi & Hn & Ht). rewrite list_lookup_fmap, Hi. cbn. done.
  - subst xs. cbn. apply take_nil.
Qed.
Lemma holds_sized g s xs : valid g -> holds g s xs -> sized g.*1 s (length xs).
Proof.
  intros V [H1 H2]. unfold sized, array. destruct (arr s) as [i|]; cbn [mbind option_bind].
  - destruct H2 as (a & n & Hi & Hn & Ht). pose proof (proj1 (Forall_lookup _ _) V i _ Hi) as Hv. cbn in Hv.
    rewrite list_lookup_fmap, Hi, length_fmap. cbn. split_and!; [done|intros ? [= <-]; by eapply lookup_lt_Some|lia].
  - subst xs. cbn in *. by split_and!; [|done|lia].
Qed.

(** *** Room *)

(** A slice as its owner knows it: its size, the capacity of its array, and whether the
    array may be in use beyond the slice. *)
Record room := Rm { size : nat; cap : nat; spent : bool }.
Definition has_room (g : shared) (s : slice) (r : room) : Prop :=
  size r = len s /\ match arr s with None => cap r = 0%nat | Some i => exists a n, g !! i = Some (a, n) /\ cap r = length a /\ (spent r = false -> n = len s) end.

(** [n] more elements: refused when they would overwrite elements in use. *)
Definition extend (r : room) (n : nat) : option room :=
  if (n =? 0)%nat then Some r
  else if (size r + n <=? cap r)%nat then if spent r then None else Some (Rm (size r + n) (cap r) false)
  else Some (Rm (size r + n) (Nat.max (grow (cap r) (size r + n)) (size r + n)) false).
(** What is left of [r], when the longer slice was given away and is [r'] now. *)
Definition left_of (r : room) (n : nat) (r' : room) : room :=
  if (n =? 0)%nat then r' else if (size r + n <=? cap r)%nat then Rm (size r) (cap r) true else r.

(** The slice [s1] of [g1] was made from [s] in [g]: when it is given back, after changes
    of its array and of those in [Q] only, the owner of [s] knows what it has. *)
Definition lends (Q : nat -> Prop) (g : shared) (s : slice) (r : room) (n : nat) (g1 : shared) (s1 : slice) : Prop :=
  forall g2, grows g1 g2 -> only (fun i => arr s1 = Some i \/ Q i) g1 g2 ->
  only (fun i => arr s = Some i \/ Q i) g g2 /\ forall r1, has_room g2 s1 r1 -> has_room g2 s (left_of r n r1).
Definition came (g : shared) (s s1 : slice) : Prop := arr s1 = arr s \/ exists i, arr s1 = Some i /\ (length g <= i)%nat.

Lemma has_room_only P g g' s r : only P g g' -> (forall i, arr s = Some i -> ~ P i) -> has_room g s r -> has_room g' s r.
Proof. intros O HP [H1 H2]. split; [done|]. destruct (arr s) as [i|]; [|done]. destruct H2 as (a & n & Hi & H2). exists a, n. split; [|done]. by apply O; [|apply HP]. Qed.

(** The result of an [append], in an array that may be shared. *)
Definition appended (g : shared) (s : slice) (r : room) (zs : list A) (n : nat) (h' : list (list A)) (s' : slice) (r' : room) : Prop :=
  exists g', h' = g'.*1 /\ valid g' /\ holds g' s' zs /\ has_room g' s' r' /\ grows g g' /\
    only (fun i => arr s = Some i) g g' /\ came g s s' /\ forall Q : nat -> Prop, (forall i, arr s = Some i -> ~ Q i) -> lends Q g s r n g' s'.

Lemma has_room_cap g s r : has_room g s r -> cap r = length (array g.*1 s).
Proof. intros [_ R]. unfold array. destruct (arr s) as [i|]; cbn [mbind option_bind]; [|done]. destruct R as (a & n & Hi & -> & _). by rewrite list_lookup_fmap, Hi. Qed.

(** Nothing to append. *)
Lemma appended_same g s xs r : valid g -> holds g s xs -> has_room g s r -> appended g s r xs 0 g.*1 s r.
Proof.
  intros V Hh Hr. exists g. do 4 (split; [done|]). split; [apply grows_refl|]. split; [apply only_refl|]. split; [by left|]. intros Q HQ g2 G O. by split.
Qed.
(** In place, behind all that is in use. *)
Lemma appended_in_place g s xs i ys cp : valid g -> holds g s xs -> arr s = Some i -> has_room g s (Rm (len s) cp false) -> ys <> [] -> (len s + length ys <= cp)%nat ->
  appended g s (Rm (len s) cp false) (xs ++ ys) (length ys)
    (<[i := take (len s) (array g.*1 s) ++ ys ++ drop (len s + length ys) (array g.*1 s)]> g.*1) (Sl (Some i) (len s + length ys)) (Rm (len s + length ys) cp false).
Proof.
  intros V [H1 H2] Ei Hr H0 Hfit. pose proof (has_room_cap _ _ _ Hr) as Hcap. destruct Hr as [_ R2]. rewrite Ei in *.
  destruct R2 as (a & n & Hi & Hca & Hn). specialize (Hn eq_refl). subst n. destruct H2 as (a0 & n0 & Hi0 & _ & Ht). rewrite Hi in Hi0. injection Hi0 as <- <-.
  cbn [cap] in Hca, Hcap. pose proof (lookup_lt_Some _ _ _ Hi) as Hil. assert (array g.*1 s = a) as -> by (unfold array; rewrite Ei; cbn; by rewrite list_lookup_fmap, Hi).
  set (b := take (len s) a ++ ys ++ drop (len s + length ys) a). assert (Lb : length b = length a) by (unfold b; rewrite !length_app, length_take, length_drop; lia).
  assert (Tb : take (len s) b = take (len s) a) by (unfold b; rewrite take_app_length'; [done|rewrite length_take; lia]).
  exists (<[i := (b, (len s + length ys)%nat)]> g). split; [by rewrite list_fmap_insert|]. split; [apply Forall_insert; [done|]; cbn; lia|]. split.
  { split; [rewrite length_app; cbn; lia|]. cbn [arr len]. exists b, (len s + length ys)%nat. rewrite list_lookup_insert_eq by done. split; [done|]. split; [done|].
    unfold b. rewrite app_assoc, take_app_length'; [by rewrite Ht|]. rewrite length_app, length_take. lia. }
  split; [split; [done|]; cbn [arr]; exists b, (len s + length ys)%nat; rewrite list_lookup_insert_eq by done; cbn; split_and!; [done|lia|done]|]. split.
  { intros j c m Hj. destruct (decide (i = j)) as [<-|Hne]; [|exists c, m; by rewrite list_lookup_insert_ne].
    rewrite Hi in Hj. injection Hj as <- <-. exists b, (len s + length ys)%nat. rewrite list_lookup_insert_eq by done. split_and!; [done|done|lia|done]. }
  split; [intros j x Hj Hne; rewrite list_lookup_insert_ne; [done|congruence]|]. split; [by left|].
  intros Q HQ g2 G O. unfold left_of. cbn [size cap arr] in *. destruct (Nat.eqb_spec (length ys) 0) as [?%nil_length_inv|_]; [done|].
  rewrite (proj2 (Nat.leb_le _ _) Hfit). split.
  - intros j x Hj Hne. rewrite Ei in Hne. apply O; [|done]. rewrite list_lookup_insert_ne; [done|]. intros ->. apply Hne. by left.
  - intros _ _. split; [done|]. rewrite Ei. destruct (G i b (len s + length ys)%nat) as (b' & n' & Hb' & L' & _); [by apply list_lookup_insert_eq|].
    exists b', n'. split_and!; [done|cbn; congruence|done].
Qed.
(** In a new array. *)
Lemma appended_moved g s xs ys r : valid g -> holds g s xs -> has_room g s r -> (cap r < len s + length ys)%nat -> ys <> [] ->
  appended g s r (xs ++ ys) (length ys)
    (g.*1 ++ [take (len s) (array g.*1 s) ++ ys ++ replicate (grow (cap r) (len s + length ys) - (len s + length ys)) zero])
    (Sl (Some (length g)) (len s + length ys)) (Rm (len s + length ys) (Nat.max (grow (cap r) (len s + length ys)) (len s + length ys)) false).
Proof.
  intros V Hh Hr Hgt H0. pose proof (holds_sized _ _ _ V Hh) as (_ & _ & Hle). pose proof Hh as [H1 _]. pose proof Hr as [R1 _].
  set (b := take (len s) (array g.*1 s) ++ ys ++ replicate _ zero).
  assert (Lb : length b = Nat.max (grow (cap r) (len s + length ys)) (len s + length ys)) by (unfold b; rewrite !length_app, length_take, length_replicate; lia).
  pose proof (holds_elems _ _ _ Hh) as He. unfold elems in He.
  exists (g ++ [(b, (len s + length ys)%nat)]). split; [by rewrite fmap_app|]. split; [apply Forall_app; split; [done|]; apply Forall_singleton; cbn; lia|]. split.
  { split; [rewrite length_app; cbn; lia|]. cbn [arr len]. exists b, (len s + length ys)%nat. rewrite list_lookup_middle by done. split_and!; try done.
    unfold b. rewrite app_assoc, take_app_length'; [by rewrite He|]. rewrite length_app, length_take. lia. }
  split; [split; [done|]; cbn [arr]; exists b, (len s + length ys)%nat; rewrite list_lookup_middle by done; by cbn|].
  split; [apply grows_app|]. split; [intros j x Hj _; by apply lookup_app_l_Some|]. split; [right; by eexists|].
  intros Q HQ g2 G O. unfold left_of. destruct (Nat.eqb_spec (length ys) 0) as [?%nil_length_inv|_]; [done|].
  rewrite R1, (proj2 (Nat.leb_gt _ _) Hgt). cbn [arr] in O. assert (Hold : only (fun i => Q i) g g2).
  { intros j x Hj Hne. apply O; [by apply lookup_app_l_Some|]. intros [[= <-]|?]; [|done]. apply lookup_lt_Some in Hj. lia. }
  split; [|intros _ _; by eapply has_room_only]. intros j x Hj Hne. apply Hold; tauto.
Qed.

Lemma append_owned g s xs r ys r' h' s' : valid g -> holds g s xs -> has_room g s r -> extend r (length ys) = Some r' ->
  append grow zero g.*1 s ys = (h', s') -> appended g s r (xs ++ ys) (length ys) h' s' r'.
Proof.
  intros V Hh Hr Hx E. pose proof (holds_sized _ _ _ V Hh) as (_ & Hlt & Hle). pose proof Hr as [R1 _]. pose proof (has_room_cap _ _ _ Hr) as Hcap.
  unfold append in E. unfold extend in Hx. rewrite <- Hcap in *. rewrite R1 in Hx. destruct (Nat.eqb_spec (length ys) 0) as [H0%nil_length_inv|H0].
  - subst ys. injection Hx as <-. cbn [length] in E. rewrite Nat.add_0_r, (proj2 (Nat.leb_le _ _) Hle) in E. rewrite app_nil_r.
    assert (s' = s /\ h' = g.*1) as [-> ->]; [|by apply appended_same]. injection E as <- <-. split; [by destruct s|]. destruct (arr s) as [i|] eqn:Ei; [|done].
    cbn. rewrite take_drop. unfold array. rewrite Ei. cbn. destruct (lookup_lt_is_Some_2 _ i (Hlt i eq_refl)) as [a Ha]. rewrite Ha. cbn. by apply list_insert_id.
  - assert (Hne : ys <> []) by (by intros ->). destruct (Nat.leb_spec (len s + length ys) (cap r)) as [Hfit|Hgt].
    + destruct r as [sz cp sp]. cbn [size cap spent] in *. destruct sp; [done|]. injection Hx as <-. injection E as <- <-. subst sz.
      destruct (arr s) as [i|] eqn:Ei; [by apply appended_in_place|]. unfold array in Hcap. rewrite Ei in Hcap. cbn in Hcap. lia.
    + injection Hx as <-. injection E as <- <-. rewrite length_fmap. by apply appended_moved.
Qed.

Lemma lends_trans Q g s r g1 s1 r1 n g2 s2 : lends Q g s r 1 g1 s1 -> grows g1 g2 -> lends Q g1 s1 r1 n g2 s2 -> lends Q g s r 1 g2 s2.
Proof.
  intros L1 G L2 g3 G3 O3. destruct (L2 g3 G3 O3) as [O2 R2]. destruct (L1 g3 (grows_trans _ _ _ G G3) O2) as [O1 R1].
  split; [done|]. intros r' Hr'. exact (R1 _ (R2 _ Hr')).
Qed.
End Holds.

(** ** Services *)

Abbreviation str := (list Z).

(** Functions are known by a number; [None] is nil. *)
Record config := Cfg { request : option Z; response : option Z; field : option Z; recover_ : option Z }.

(** The fields that [reflectField] finds for the request, when it is a struct, and for the
    response, or its error. *)
Record Methodot := Mt {
  summary : str; detail : str; custom : config; handler : Z;
  request_fields : option (Z + list Z); response_fields : Z + list Z
}.

(** A group with its structs; the exported methods of a struct, by what they return.
    [SErr] is a value that is neither a struct nor a pointer. *)
Inductive Groupot := Grp (prefix tags : list str) (gcustom : config) (ss : structs)
with structs :=
| SNil
| SErr (ss : structs)
| SCons (ms : members) (ss : structs)
with members :=
| MNil
| MMiddleware (id : Z) (ms : members)
| MGroup (g : Groupot) (ms : members)
| MMethod (name : str) (m : Methodot) (ms : members)
| MOther (ms : members).

Scheme members_mut := Induction for members Sort Prop
with structs_mut := Induction for structs Sort Prop
with Groupot_mut := Induction for Groupot Sort Prop.
Combined Scheme service_mutind from members_mut, structs_mut, Groupot_mut.

(** A handler: of a middleware, of a method with the functions it got ([None] is the
    default one), the empty function, or the zero value. *)
Inductive Handler := HMiddleware (id : Z) | HMethod (request response recover_ : option Z) (h : Z) | HEmpty | HZero.

Record HandlerField := HF { Request : list Z; Response : list Z }.
Record Restot := Rt {
  method : str; path : slice; tags : slice; rsummary : str; rdetail : str; handlerField : HandlerField; handlerList : slice
}.
(** A route with what its slices hold. *)
Record route := Route {
  r_method : str; r_path : list str; r_tags : list str; r_summary : str; r_detail : str; r_field : HandlerField; r_chain : list Handler
}.

Inductive error := ErrValueNotStructOrPointer | EMethod (method : str) (e : Z).

Section Service.
Context (growS growH : nat -> nat -> nat).         (* capacities of string and of handler slices *)
Context (apply_field : Z -> list Z -> list Z).     (* a [FieldFn] by its number *)

Definition or_else (a b : option Z) : option Z := match a with Some _ => a | None => b end.

(** [Methodot.Invoke]: the handler and the fields, or an error. *)
Definition Methodot_Invoke (c : config) (m : Methodot) (hf : HandlerField) : (Z + Handler) * HandlerField :=
  let req := or_else (request (custom m)) (request c) in
  let resp := or_else (response (custom m)) (response c) in
  let fld := or_else (field (custom m)) (field c) in
  let rec := or_else (recover_ (custom m)) (recover_ c) in
  match request_fields m with
  | Some (inl e) => (inl e, hf)
  | rf =>
      let hf := match rf with Some (inr l) => HF (Request hf ++ l) (Response hf) | _ => hf end in
      match response_fields m with
      | inl e => (inl e, hf)
      | inr l =>
          let l := match fld with Some f => apply_field f l | None => l end in
          (inr (HMethod req resp rec (handler m)), HF (Request hf) (Response hf ++ l))
      end
  end.

(** The arrays, and the routes so far. *)
Record state := St { strings_ : list (list str); handlers_ : list (list Handler); restotList : list Restot }.

(** The first pass: the middlewares are appended to the chain. *)
Fixpoint add_middlewares (ms : members) (hl : slice) (st : state) : slice * state :=
  match ms with
  | MNil => (hl, st)
  | MMiddleware id ms' =>
      let '(hs, hl') := append growH HZero (handlers_ st) hl [HMiddleware id] in
      add_middlewares ms' hl' (St (strings_ st) hs (restotList st))
  | MGroup _ ms' | MMethod _ _ ms' | MOther ms' => add_middlewares ms' hl st
  end.

(** A method: the chain with an empty function at the end, which is then replaced. *)
Definition add_method (name : str) (m : Methodot) (prefix tags : slice) (c : config) (hl : slice) (st : state) : state * option error :=
  let '(hs, hl') := append growH HZero (handlers_ st) hl [HEmpty] in
  match Methodot_Invoke c m (HF [] []) with
  | (inl e, _) => (St (strings_ st) (set_last hs hl' HZero) (restotList st), Some (EMethod (Uweb.ToUpper name) e))
  | (inr h, hf) =>
      (St (strings_ st) (set_last hs hl' h)
          (restotList st ++ [Rt (Uweb.ToUpper name) prefix tags (summary m) (detail m) hf hl']), None)
  end.

(** [Groupot.Invoke], with its loops over the structs and over the methods of a struct. *)
Fixpoint Invoke (g : Groupot) (prefix tags : slice) (c : config) (hl : slice) (st : state) : state * option error :=
  match g with
  | Grp gp gt gc ss =>
      let '(sh, prefix) := append growS [] (strings_ st) prefix gp in
      let '(sh, tags) := append growS [] sh tags gt in
      let c := Cfg (or_else (request gc) (request c)) (or_else (response gc) (response c))
                   (or_else (field gc) (field c)) (or_else (recover_ gc) (recover_ c)) in
      invoke_structs ss prefix tags c hl (St sh (handlers_ st) (restotList st))
  end
with invoke_structs (ss : structs) (prefix tags : slice) (c : config) (hl : slice) (st : state) : state * option error :=
  match ss with
  | SNil => (st, None)
  | SErr _ => (st, Some ErrValueNotStructOrPointer)
  | SCons ms ss' =>
      let '(hl, st) := add_middlewares ms hl st in
      match invoke_members ms prefix tags c hl st with
      | (st, Some e) => (st, Some e)
      | (st, None) => invoke_structs ss' prefix tags c hl st
      end
  end
with invoke_members (ms : members) (prefix tags : slice) (c : config) (hl : slice) (st : state) : state * option error :=
  match ms with
  | MNil => (st, None)
  | MMiddleware _ ms' | MOther ms' => invoke_members ms' prefix tags c hl st
  | MGroup g ms' =>
      match Invoke g prefix tags c hl st with
      | (st, Some e) => (st, Some e)
      | (st, None) => invoke_members ms' prefix tags c hl st
      end
  | MMethod name m ms' =>
      match add_method name m prefix tags c hl st with
      | (st, Some e) => (st, Some e)
      | (st, None) => invoke_members ms' prefix tags c hl st
      end
  end.

(** [Rest.Rest]: the groups of the structs, each from the path "/". *)
Fixpoint rest_members (ms : members) (st : state) : state * option error :=
  match ms with
  | MNil => (st, None)
  | MGroup g ms' =>
      let '(sh, root) := new_slice (strings_ st) [[47]] in
      match Invoke g root nil_slice (Cfg None None None None) nil_slice (St sh (handlers_ st) (restotList st)) with
      | (st, Some e) => (st, Some e)
      | (st, None) => rest_members ms' st
      end
  | MMiddleware _ ms' | MMethod _ _ ms' | MOther ms' => rest_members ms' st
  end.
Fixpoint Rest (ss : structs) (st : state) : state * option error :=
  match ss with
  | SNil => (st, None)
  | SErr _ => (st, Some ErrValueNotStructOrPointer)
  | SCons ms ss' => match rest_members ms st with (st, Some e) => (st, Some e) | (st, None) => Rest ss' st end
  end.
Definition NewRest (ss : structs) : state * option error := Rest ss (St [] [] []).

(** The routes as their methods show them, [Path] before [path.Join]. *)
Definition read (st : state) (r : Restot) : route :=
  Route (method r) (elems (strings_ st) (path r)) (elems (strings_ st) (tags r)) (rsummary r) (rdetail r) (handlerField r)
        (elems (handlers_ st) (handlerList r)).
Definition routes (st : state) : list route := read st <$> restotList st.

(** ** The routes that a service describes *)

(** With lists in place of slices: each route has the prefixes and tags of its groups, the
    middlewares before it in them, and its own handler. [cs] are the custom functions of
    the groups around, the innermost first, and the nearest one that is given counts. *)
Fixpoint middlewares (ms : members) : list Handler :=
  match ms with
  | MNil => []
  | MMiddleware id ms' => HMiddleware id :: middlewares ms'
  | MGroup _ ms' | MMethod _ _ ms' | MOther ms' => middlewares ms'
  end.
Definition nearest (f : config -> option Z) (cs : list config) : option Z := head (omap f cs).
Definition method_spec (name : str) (m : Methodot) (prefix tags : list str) (cs : list config) (hl : list Handler) : list route * option error :=
  let cs := custom m :: cs in
  match request_fields m, response_fields m with
  | Some (inl e), _ | _, inl e => ([], Some (EMethod (Uweb.ToUpper name) e))
  | req, inr resp =>
      ([Route (Uweb.ToUpper name) prefix tags (summary m) (detail m)
          (HF (match req with Some (inr l) => l | _ => [] end) (match nearest field cs with Some f => apply_field f resp | None => resp end))
          (hl ++ [HMethod (nearest request cs) (nearest response cs) (nearest recover_ cs) (handler m)])], None)
  end.
(** One after the other, up to the first error. *)
Definition andthen (a b : list route * option error) : list route * option error :=
  match a with (l, Some e) => (l, Some e) | (l, None) => (l ++ fst b, snd b) end.
Fixpoint group_spec (g : Groupot) (prefix tags : list str) (cs : list config) (hl : list Handler) : list route * option error :=
  match g with Grp gp gt gc ss => structs_spec ss (prefix ++ gp) (tags ++ gt) (gc :: cs) hl end
with structs_spec (ss : structs) (prefix tags : list str) (cs : list config) (hl : list Handler) : list route * option error :=
  match ss with
  | SNil => ([], None)
  | SErr _ => ([], Some ErrValueNotStructOrPointer)
  | SCons ms ss' =>
      andthen (members_spec ms prefix tags cs (hl ++ middlewares ms)) (structs_spec ss' prefix tags cs (hl ++ middlewares ms))
  end
with members_spec (ms : members) (prefix tags : list str) (cs : list config) (hl : list Handler) : list route * option error :=
  match ms with
  | MNil => ([], None)
  | MMiddleware _ ms' | MOther ms' => members_spec ms' prefix tags cs hl
  | MGroup g ms' => andthen (group_spec g prefix tags cs hl) (members_spec ms' prefix tags cs hl)
  | MMethod name m ms' => andthen (method_spec name m prefix tags cs hl) (members_spec ms' prefix tags cs hl)
  end.
Fixpoint rest_members_spec (ms : members) : list route * option error :=
  match ms with
  | MNil => ([], None)
  | MGroup g ms' => andthen (group_spec g [[47]] [] [] []) (rest_members_spec ms')
  | MMiddleware _ ms' | MMethod _ _ ms' | MOther ms' => rest_members_spec ms'
  end.
Fixpoint rest_spec (ss : structs) : list route * option error :=
  match ss with
  | SNil => ([], None)
  | SErr _ => ([], Some ErrValueNotStructOrPointer)
  | SCons ms ss' => andthen (rest_members_spec ms) (rest_spec ss')
  end.

(** The functions that come down to a method. *)
Definition inherited (cs : list config) : config := Cfg (nearest request cs) (nearest response cs) (nearest field cs) (nearest recover_ cs).
Lemma nearest_cons f c cs : nearest f (c :: cs) = or_else (f c) (nearest f cs).
Proof. unfold nearest, or_else. cbn. by destruct (f c). Qed.
Lemma inherited_cons c cs :
  inherited (c :: cs) = Cfg (or_else (request c) (request (inherited cs))) (or_else (response c) (response (inherited cs)))
                            (or_else (field c) (field (inherited cs))) (or_else (recover_ c) (recover_ (inherited cs))).
Proof. unfold inherited. by rewrite !nearest_cons. Qed.
(** [Methodot.Invoke] gives the fields and the handler of the method. *)
Lemma method_spec_Invoke name m ps ts cs hs : method_spec name m ps ts cs hs =
  match Methodot_Invoke (inherited cs) m (HF [] []) with
  | (inl e, _) => ([], Some (EMethod (Uweb.ToUpper name) e))
  | (inr h, hf) => ([Route (Uweb.ToUpper name) ps ts (summary m) (detail m) hf (hs ++ [h])], None)
  end.
Proof.
  unfold method_spec, Methodot_Invoke. rewrite !nearest_cons. destruct (request_fields m) as [[e|l]|]; [done| |]; by destruct (response_fields m) as [e|l'].
Qed.

(** *** Which appends are safe *)

(** The room of the path, the tags and the chain. A service fits when no append overwrites
    an element that another slice uses: as long as an array has room, only one slice that
    ends there may be appended to. *)
Abbreviation rooms := (room * room * room)%type.
Fixpoint extend_each (r : room) (k : nat) : option room :=
  match k with O => Some r | S k' => r1 ← extend growH r 1; extend_each r1 k' end.
Fixpoint group_fits (g : Groupot) (rs : rooms) : option rooms :=
  match g with
  | Grp gp gt gc ss =>
      let '(p, t, h) := rs in
      p1 ← extend growS p (length gp); t1 ← extend growS t (length gt);
      x ← structs_fits ss (p1, t1, h);
      let '(p2, t2, h2) := x in Some (left_of p (length gp) p2, left_of t (length gt) t2, h2)
  end
with structs_fits (ss : structs) (rs : rooms) : option rooms :=
  match ss with
  | SNil | SErr _ => Some rs
  | SCons ms ss' =>
      let '(p, t, h) := rs in
      h1 ← extend_each h (length (middlewares ms));
      x ← members_fits ms (p, t, h1);
      y ← structs_fits ss' x;
      let '(p2, t2, h2) := y in Some (p2, t2, left_of h (Nat.min 1 (length (middlewares ms))) h2)
  end
with members_fits (ms : members) (rs : rooms) : option rooms :=
  match ms with
  | MNil => Some rs
  | MMiddleware _ ms' | MOther ms' => members_fits ms' rs
  | MGroup g ms' => x ← group_fits g rs; members_fits ms' x
  | MMethod _ _ ms' =>
      let '(p, t, h) := rs in
      h1 ← extend growH h 1;
      members_fits ms' (p, t, left_of h 1 h1)
  end.
Definition root_rooms : rooms := (Rm 1 1 false, Rm 0 0 false, Rm 0 0 false).
Fixpoint rest_members_fits (ms : members) : bool :=
  match ms with
  | MNil => true
  | MGroup g ms' => bool_decide (is_Some (group_fits g root_rooms)) && rest_members_fits ms'
  | MMiddleware _ ms' | MMethod _ _ ms' | MOther ms' => rest_members_fits ms'
  end.
Fixpoint rest_fits (ss : structs) : bool :=
  match ss with SNil | SErr _ => true | SCons ms ss' => rest_members_fits ms && rest_fits ss' end.

(** *** The lengths *)

Definition state_resized (st st' : state) : Prop := resized (strings_ st) (strings_ st') /\ resized (handlers_ st) (handlers_ st').
(** The route [r] is [v] but for the contents of its slices. *)
Definition sizes (st : state) (r : Restot) (v : route) : Prop :=
  method r = r_method v /\ rsummary r = r_summary v /\ rdetail r = r_detail v /\ handlerField r = r_field v /\
  sized (strings_ st) (path r) (length (r_path v)) /\ sized (strings_ st) (tags r) (length (r_tags v)) /\
  sized (handlers_ st) (handlerList r) (length (r_chain v)).
(** From [st] to [st'] the routes of [spec] were added. *)
Definition added (st st' : state) (e : option error) (spec : list route * option error) : Prop :=
  state_resized st st' /\ e = snd spec /\ exists new, restotList st' = restotList st ++ new /\ Forall2 (sizes st') new (fst spec).

Lemma state_resized_refl st : state_resized st st.
Proof. split; apply resized_refl. Qed.
Lemma state_resized_trans st1 st2 st3 : state_resized st1 st2 -> state_resized st2 st3 -> state_resized st1 st3.
Proof. intros [? ?] [? ?]. split; by eapply resized_trans. Qed.
Lemma sizes_resized st st' r v : state_resized st st' -> sizes st r v -> sizes st' r v.
Proof. intros [? ?] (? & ? & ? & ? & ? & ? & ?). do 4 (split; [done|]). split; [|split]; by eapply sized_resized. Qed.

Lemma added_nil st e : added st st e ([], e).
Proof. split; [apply state_resized_refl|]. split; [done|]. exists []. by rewrite app_nil_r. Qed.
(** The steps before the routes do not matter, as long as they leave the routes. *)
Lemma added_before st0 st st' e spec : state_resized st0 st -> restotList st = restotList st0 -> added st st' e spec -> added st0 st' e spec.
Proof. intros G R (G' & E & new & Hn & Hf). split; [by eapply state_resized_trans|]. split; [done|]. exists new. by rewrite <- R. Qed.
Lemma added_then st st1 st2 e1 e2 a b : added st st1 e1 a ->
  (e1 = None -> added st1 st2 e2 b) -> (forall e, e1 = Some e -> st2 = st1 /\ e2 = Some e) ->
  added st st2 e2 (andthen a b).
Proof.
  intros (G & -> & new & Hn & Hf) Hnone Hsome. destruct a as [l [e|]]; cbn [fst snd andthen] in *.
  - destruct (Hsome e eq_refl) as [-> ->]. split; [done|]. split; [done|]. by exists new.
  - destruct (Hnone eq_refl) as (G2 & -> & new2 & Hn2 & Hf2). split; [by eapply state_resized_trans|]. split; [done|].
    exists (new ++ new2). rewrite Hn2, Hn, app_assoc. split; [done|]. cbn. apply Forall2_app; [|done].
    eapply Forall2_impl; [exact Hf|]. intros r v. by apply sizes_resized.
Qed.

Lemma add_middlewares_sized ms hl n st hl' st' : sized (handlers_ st) hl n -> add_middlewares ms hl st = (hl', st') ->
  sized (handlers_ st') hl' (n + length (middlewares ms)) /\ state_resized st st' /\ restotList st' = restotList st.
Proof.
  revert hl n st. induction ms as [|id ms IH|g ms IH|name m ms IH|ms IH]; intros hl n st Hh E; cbn [add_middlewares middlewares length] in *; [| |by eauto..].
  - injection E as <- <-. rewrite Nat.add_0_r. split; [done|]. split; [apply state_resized_refl|done].
  - destruct (append _ _ _ _ _) as [h1 hl1] eqn:Ea. destruct (append_sized _ _ _ _ _ _ _ _ Hh Ea) as [H1 G1].
    destruct (IH _ _ (St (strings_ st) h1 (restotList st)) H1 E) as (H2 & G2 & R2). rewrite <- Nat.add_assoc in H2. split; [done|]. split; [|done].
    eapply state_resized_trans; [|exact G2]. split; [apply resized_refl|done].
Qed.

Lemma add_method_added name m prefix tgs cs hl st st' e ps ts hs :
  sized (strings_ st) prefix (length ps) -> sized (strings_ st) tgs (length ts) -> sized (handlers_ st) hl (length hs) ->
  add_method name m prefix tgs (inherited cs) hl st = (st', e) -> added st st' e (method_spec name m ps ts cs hs).
Proof.
  intros Hp Ht Hh E. rewrite method_spec_Invoke. unfold add_method in *. destruct (append _ _ _ _ _) as [h1 hl1] eqn:Ea.
  pose proof Hh as (_ & Hi & Hle). pose proof (fun y => append_sized _ _ _ _ _ _ _ _ Hh (append_set_last _ _ _ _ _ y _ _ Hi Hle Ea)) as Hl.
  destruct (Methodot_Invoke (inherited cs) m (HF [] [])) as [[err|h] hf]; injection E as <- <-.
  - destruct (Hl HZero) as [_ G]. split; [split; [apply resized_refl|done]|]. split; [done|]. exists []. by rewrite app_nil_r.
  - destruct (Hl h) as [H1 G]. split; [split; [apply resized_refl|done]|]. split; [done|]. eexists [_]. split; [done|].
    apply Forall2_cons. split; [|done]. do 4 (split; [done|]). split; [done|]. split; [done|]. cbn. by rewrite length_app.
Qed.

Lemma service_added :
  (forall ms pfx tgs cs hl st st' e ps ts hs,
     sized (strings_ st) pfx (length ps) -> sized (strings_ st) tgs (length ts) -> sized (handlers_ st) hl (length hs) ->
     invoke_members ms pfx tgs (inherited cs) hl st = (st', e) -> added st st' e (members_spec ms ps ts cs hs)) /\
  (forall ss pfx tgs cs hl st st' e ps ts hs,
     sized (strings_ st) pfx (length ps) -> sized (strings_ st) tgs (length ts) -> sized (handlers_ st) hl (length hs) ->
     invoke_structs ss pfx tgs (inherited cs) hl st = (st', e) -> added st st' e (structs_spec ss ps ts cs hs)) /\
  (forall g pfx tgs cs hl st st' e ps ts hs,
     sized (strings_ st) pfx (length ps) -> sized (strings_ st) tgs (length ts) -> sized (handlers_ st) hl (length hs) ->
     Invoke g pfx tgs (inherited cs) hl st = (st', e) -> added st st' e (group_spec g ps ts cs hs)).
Proof.
  apply service_mutind.
  - intros * _ _ _ E. injection E as <- <-. apply added_nil.
  - intros id ms IH. exact IH.
  - intros g IHg ms IH * Hp Ht Hh E. cbn [invoke_members members_spec] in *. destruct (Invoke g pfx tgs _ hl st) as [st1 e1] eqn:E1.
    pose proof (IHg _ _ _ _ _ _ _ _ _ _ Hp Ht Hh E1) as A1. pose proof A1 as [[G1 G2] _].
    eapply (added_then _ st1); [exact A1|intros ->; eapply IH; [..|exact E]; by eapply sized_resized|intros ? ->; by simplify_eq].
  - intros name m ms IH * Hp Ht Hh E. cbn [invoke_members members_spec] in *. destruct (add_method name m pfx tgs _ hl st) as [st1 e1] eqn:E1.
    pose proof (add_method_added _ _ _ _ _ _ _ _ _ _ _ _ Hp Ht Hh E1) as A1. pose proof A1 as [[G1 G2] _].
    eapply (added_then _ st1); [exact A1|intros ->; eapply IH; [..|exact E]; by eapply sized_resized|intros ? ->; by simplify_eq].
  - intros ms IH. exact IH.
  - intros * _ _ _ E. injection E as <- <-. apply added_nil.
  - intros ss _ * _ _ _ E. injection E as <- <-. apply added_nil.
  - intros ms IHm ss IH * Hp Ht Hh E. cbn [invoke_structs structs_spec] in *. destruct (add_middlewares ms hl st) as [hl1 st1] eqn:Em.
    destruct (add_middlewares_sized _ _ _ _ _ _ Hh Em) as (J1 & [G1 G2] & R1). rewrite <- length_app in J1.
    eapply added_before; [split; [exact G1|exact G2]|done|]. destruct (invoke_members ms pfx tgs _ hl1 st1) as [st2 e2] eqn:E2.
    assert (Hp1 := sized_resized _ _ _ _ G1 Hp). assert (Ht1 := sized_resized _ _ _ _ G1 Ht).
    pose proof (IHm _ _ _ _ _ _ _ _ _ _ Hp1 Ht1 J1 E2) as A2. pose proof A2 as [[G3 G4] _].
    eapply (added_then _ st2); [exact A2|intros ->; eapply IH; [..|exact E]; by eapply sized_resized|intros ? ->; by simplify_eq].
  - intros gp gt gc ss IH * Hp Ht Hh E. cbn [Invoke group_spec] in *. destruct (append growS [] (strings_ st) pfx gp) as [sh1 p1] eqn:E1.
    destruct (append growS [] sh1 tgs gt) as [sh2 t2] eqn:E2. destruct (append_sized _ _ _ _ _ _ _ _ Hp E1) as [J5 G1].
    destruct (append_sized _ _ _ _ _ _ _ _ (sized_resized _ _ _ _ G1 Ht) E2) as [J6 G2]. rewrite <- length_app in J5, J6.
    eapply (added_before _ (St sh2 (handlers_ st) (restotList st))); [split; [by eapply resized_trans|apply resized_refl]|done|].
    rewrite <- inherited_cons in E. eapply IH; [..|exact E]; try done. by eapply sized_resized.
Qed.

Lemma rest_members_added ms st st' e : rest_members ms st = (st', e) -> added st st' e (rest_members_spec ms).
Proof.
  revert st. induction ms as [|id ms IH|g ms IH|name m ms IH|ms IH]; intros st E; cbn [rest_members rest_members_spec] in *; [|by eauto| |by eauto..].
  - simplify_eq. apply added_nil.
  - destruct (new_slice (strings_ st) [[47]]) as [sh root] eqn:En. destruct (sized_new _ _ _ _ En) as [Hr Gr].
    set (st0 := St sh (handlers_ st) (restotList st)) in *.
    apply (added_before _ st0); [split; [done|apply resized_refl]|done|].
    destruct (Invoke g root nil_slice _ nil_slice st0) as [st1 e1] eqn:E1.
    assert (A1 : added st0 st1 e1 (group_spec g [[47]] [] [] [])).
    { eapply (proj2 (proj2 service_added)); [exact Hr|apply sized_nil|apply sized_nil|exact E1]. }
    eapply added_then; [exact A1|intros ->; by apply IH|intros ? ->; by simplify_eq].
Qed.
Lemma rest_added ss st st' e : Rest ss st = (st', e) -> added st st' e (rest_spec ss).
Proof.
  revert st. induction ss as [|ss IH|ms ss IH]; intros st E; cbn [Rest rest_spec] in *; [simplify_eq; apply added_nil..|].
  destruct (rest_members ms st) as [st1 e1] eqn:E1. eapply added_then; [by apply rest_members_added|intros ->; by apply IH|intros ? ->; by simplify_eq].
Qed.

(** What cannot go wrong: everything but the contents of the slices. *)
Definition alike (r v : route) : Prop :=
  r_method r = r_method v /\ r_summary r = r_summary v /\ r_detail r = r_detail v /\ r_field r = r_field v /\
  length (r_path r) = length (r_path v) /\ length (r_tags r) = length (r_tags v) /\ length (r_chain r) = length (r_chain v).
Lemma sized_elems {A} (h : list (list A)) s n : sized h s n -> length (elems h s) = n.
Proof. intros (H1 & _ & H3). unfold elems. rewrite length_take. lia. Qed.

(** *** The contents *)

Record ghost := Gh { gstr : list (list str * nat); ghan : list (list Handler * nat) }.
Definition agrees (st : state) (g : ghost) : Prop :=
  strings_ st = (gstr g).*1 /\ handlers_ st = (ghan g).*1 /\ valid (gstr g) /\ valid (ghan g).
Definition none (i : nat) : Prop := False.
Definition uses (s : slice) (i : nat) : Prop := arr s = Some i.

Section Slices3.
Context (p t hl : slice).

Definition lists (g : ghost) (ps ts : list str) (hs : list Handler) : Prop := holds (gstr g) p ps /\ holds (gstr g) t ts /\ holds (ghan g) hl hs.
Definition roomy (g : ghost) (rs : rooms) : Prop := has_room (gstr g) p (rs.1.1) /\ has_room (gstr g) t (rs.1.2) /\ has_room (ghan g) hl (rs.2).
Definition moved (g g' : ghost) : Prop :=
  grows (gstr g) (gstr g') /\ grows (ghan g) (ghan g') /\
  only (fun i => uses p i \/ uses t i) (gstr g) (gstr g') /\ only (fun i => uses hl i \/ none i) (ghan g) (ghan g').
(** The route [r] shows [v]. *)
Definition shows (g : ghost) (r : Restot) (v : route) : Prop :=
  method r = r_method v /\ rsummary r = r_summary v /\ rdetail r = r_detail v /\ handlerField r = r_field v /\
  holds (gstr g) (path r) (r_path v) /\ holds (gstr g) (tags r) (r_tags v) /\ holds (ghan g) (handlerList r) (r_chain v).
Definition wrote (st : state) (g : ghost) (st' : state) (e : option error) (spec : list route * option error) (rs : rooms) : Prop :=
  exists g', agrees st' g' /\ moved g g' /\ e = snd spec /\ (e = None -> roomy g' rs) /\
    exists new, restotList st' = restotList st ++ new /\ Forall2 (shows g') new (fst spec).

Lemma moved_refl g : moved g g.
Proof. split; [apply grows_refl|]. split; [apply grows_refl|]. split; apply only_refl. Qed.
Lemma moved_trans g1 g2 g3 : moved g1 g2 -> moved g2 g3 -> moved g1 g3.
Proof.
  intros (A1 & A2 & A3 & A4) (B1 & B2 & B3 & B4). split; [by eapply grows_trans|]. split; [by eapply grows_trans|]. split; intros i x Hi Hn; auto.
Qed.
Lemma shows_moved g g' r v : grows (gstr g) (gstr g') -> grows (ghan g) (ghan g') -> shows g r v -> shows g' r v.
Proof. intros ? ? (? & ? & ? & ? & ? & ? & ?). do 4 (split; [done|]). split; [|split]; by eapply holds_grows. Qed.
Lemma lists_moved g g' ps ts hs : moved g g' -> lists g ps ts hs -> lists g' ps ts hs.
Proof. intros (? & ? & _) (? & ? & ?). split; [|split]; by eapply holds_grows. Qed.

Lemma wrote_nil st g e rs : agrees st g -> roomy g rs -> wrote st g st e ([], e) rs.
Proof. intros Ha Hr. exists g. split; [done|]. split; [apply moved_refl|]. split; [done|]. split; [done|]. exists []. by rewrite app_nil_r. Qed.
Lemma wrote_then st g st1 st2 e1 e2 a b rs1 rs2 : wrote st g st1 e1 a rs1 ->
  (e1 = None -> forall g1, agrees st1 g1 -> moved g g1 -> roomy g1 rs1 -> wrote st1 g1 st2 e2 b rs2) -> (forall e, e1 = Some e -> st2 = st1 /\ e2 = Some e) ->
  wrote st g st2 e2 (andthen a b) rs2.
Proof.
  intros (g1 & Ha & Hm & -> & Hr & new & Hn & Hf) Hnone Hsome. destruct a as [l [e|]]; cbn [fst snd andthen] in *.
  - destruct (Hsome e eq_refl) as [-> ->]. exists g1. split; [done|]. split; [done|]. split; [done|]. split; [done|]. by exists new.
  - destruct (Hnone eq_refl g1 Ha Hm (Hr eq_refl)) as (g2 & Ha2 & Hm2 & -> & Hr2 & new2 & Hn2 & Hf2). exists g2. split; [done|].
    split; [by eapply moved_trans|]. split; [done|]. split; [done|]. exists (new ++ new2). rewrite Hn2, Hn, app_assoc. split; [done|].
    apply Forall2_app; [|done]. destruct Hm2 as (G1 & G2 & _). eapply Forall2_impl; [exact Hf|]. intros r v. by apply shows_moved.
Qed.
End Slices3.

(** The slices of a caller, when those made from them are given back. *)
Lemma wrote_chain p t hl hl1 st g st1 g1 st' e spec p2 t2 h n h2 :
  gstr g1 = gstr g -> grows (ghan g) (ghan g1) -> lends none (ghan g) hl h n (ghan g1) hl1 -> restotList st1 = restotList st ->
  wrote p t hl1 st1 g1 st' e spec (p2, t2, h2) -> wrote p t hl st g st' e spec (p2, t2, left_of h n h2).
Proof.
  intros Es Gh L R (g2 & Ha & (G1 & G2 & O1 & O2) & He & Hr & new & Hn & Hf). destruct (L _ G2 O2) as [O HL]. rewrite Es in *.
  exists g2. split; [done|]. split; [split; [done|]; split; [by eapply grows_trans|by split]|]. split; [done|]. split.
  - intros E. destruct (Hr E) as (R1 & R2 & R3). split; [done|]. split; [done|]. by apply HL.
  - exists new. by rewrite <- R.
Qed.

Lemma came_apart {A} (g : list (list A * nat)) s s1 t xs : came g s s1 -> (forall i, uses s i -> ~ uses t i) -> holds g t xs -> forall i, uses s1 i -> ~ uses t i.
Proof.
  intros [E|(j & E & Hj)] Hs [_ Ht] i Hi Hti; unfold uses in *; [by apply (Hs i); rewrite <- ?E|]. rewrite Hti in Ht. destruct Ht as (a & n & Hl & _).
  apply lookup_lt_Some in Hl. assert (j = i) by congruence. lia.
Qed.

Lemma wrote_group p t hl p1 t1 st g gs1 gs2 st' e spec pr np p2 tr nt t2 h2 :
  (forall i, uses p i -> ~ uses t i) -> (forall i, uses t i -> ~ uses p1 i) -> grows (gstr g) gs1 -> grows gs1 gs2 ->
  lends (uses t) (gstr g) p pr np gs1 p1 -> lends (uses p1) gs1 t tr nt gs2 t1 ->
  wrote p1 t1 hl (St gs2.*1 (handlers_ st) (restotList st)) (Gh gs2 (ghan g)) st' e spec (p2, t2, h2) ->
  wrote p t hl st g st' e spec (left_of pr np p2, left_of tr nt t2, h2).
Proof.
  intros Hpt Htp G1 G2 L1 L2 (g' & Ha & (G3 & G4 & O3 & O4) & He & Hr & new & Hn & Hf). cbn [gstr ghan] in *.
  destruct (L2 _ G3) as [O2 R2]; [intros i x Hi Hno; apply O3; [done|]; unfold uses in *; tauto|].
  destruct (L1 _ (grows_trans _ _ _ G2 G3)) as [O1 R1]; [intros i x Hi Hno; apply O2; [done|]; unfold uses in *; tauto|].
  exists g'. split; [done|]. split.
  { split; [eapply grows_trans; [exact G1|by eapply grows_trans]|]. split; [done|]. split; [|done]. intros i x Hi Hno. by apply O1. }
  split; [done|]. split; [|by exists new]. intros E. destruct (Hr E) as (S1 & S2 & S3). split; [|split]; cbn [fst snd] in *; auto.
Qed.

Lemma add_middlewares_owned ms hl hs st g h h1 hl' st' : agrees st g -> holds (ghan g) hl hs -> has_room (ghan g) hl h ->
  extend_each h (length (middlewares ms)) = Some h1 -> add_middlewares ms hl st = (hl', st') ->
  exists gh, agrees st' (Gh (gstr g) gh) /\ holds gh hl' (hs ++ middlewares ms) /\ has_room gh hl' h1 /\ grows (ghan g) gh /\
    lends none (ghan g) hl h (Nat.min 1 (length (middlewares ms))) gh hl' /\ restotList st' = restotList st.
Proof.
  revert hl hs st g h. induction ms as [|id ms IH|gg ms IH|nm mt ms IH|ms IH]; intros hl hs st g h Ha Hh Hr Hx E; cbn [add_middlewares middlewares length extend_each] in *; [| |exact (IH hl hs st g h Ha Hh Hr Hx E)..].
  - simplify_eq. exists (ghan g). destruct g. rewrite app_nil_r. do 3 (split; [done|]). split; [apply grows_refl|]. split; [|done]. by intros g2 G O.
  - destruct (extend growH h 1) as [r1|] eqn:Ex; [|done]. cbn [mbind option_bind] in Hx. destruct (append _ _ _ _ _) as [h0 hl0] eqn:Ea.
    destruct Ha as (A1 & A2 & A3 & A4). rewrite A2 in Ea.
    destruct (append_owned growH HZero (ghan g) hl hs h [HMiddleware id] r1 h0 hl0 A4 Hh Hr Ex Ea) as (g1 & -> & V1 & H1 & R1 & G1 & _ & _ & L1).
    destruct (IH hl0 (hs ++ [HMiddleware id]) (St (strings_ st) g1.*1 (restotList st)) (Gh (gstr g) g1) r1) as (gh & Hag & Hho & Hhr & Gg & Ll & Rl); [by split_and!|done|done|done|done|].
    exists gh. rewrite <- app_assoc in Hho. split; [done|]. split; [done|]. split; [done|]. split; [by eapply grows_trans|]. split; [|done].
    eapply lends_trans; [apply L1; by intros i _ []|done|exact Ll].
Qed.

Lemma add_method_wrote name m p t cs hl st g st' e ps ts hs pr tr h h1 :
  agrees st g -> lists p t hl g ps ts hs -> roomy p t hl g (pr, tr, h) -> extend growH h 1 = Some h1 ->
  add_method name m p t (inherited cs) hl st = (st', e) -> wrote p t hl st g st' e (method_spec name m ps ts cs hs) (pr, tr, left_of h 1 h1).
Proof.
  intros (A1 & A2 & A3 & A4) (Hp & Ht & Hh) (Rp & Rt_ & Rh) Hx E. cbn [fst snd] in *. rewrite method_spec_Invoke. unfold add_method in E. rewrite A2 in E.
  destruct (append _ _ _ _ _) as [h0 hl0] eqn:Ea. destruct (holds_sized _ _ _ A4 Hh) as (_ & Hi & Hle).
  assert (Hl : forall y, exists gh, set_last h0 hl0 y = gh.*1 /\ valid gh /\ holds gh hl0 (hs ++ [y]) /\ moved p t hl g (Gh (gstr g) gh) /\ has_room gh hl (left_of h 1 h1)).
  { intros y. destruct (append_owned growH HZero (ghan g) hl hs h [y] h1 _ _ A4 Hh Rh Hx (append_set_last _ _ _ _ _ y _ _ Hi Hle Ea)) as (gh & Eg & V & Ho & Ro & G & O & _ & L).
    exists gh. split; [done|]. split; [done|]. split; [done|]. split; [|by apply (L none (fun _ _ x => x) gh (grows_refl _) (only_refl _ _))].
    split; [apply grows_refl|]. split; [done|]. split; [apply only_refl|]. intros i x Hx' Hn. apply O; [done|]. unfold uses in Hn. tauto. }
  destruct (Methodot_Invoke (inherited cs) m (HF [] [])) as [[err|y] hf]; injection E as <- <-.
  - destruct (Hl HZero) as (gh & Eg & V & Ho & Hm & Hr). exists (Gh (gstr g) gh). split; [by split_and!|]. split; [done|]. split; [done|]. split; [done|].
    exists []. by rewrite app_nil_r.
  - destruct (Hl y) as (gh & Eg & V & Ho & Hm & Hr). exists (Gh (gstr g) gh). split; [by split_and!|]. split; [done|]. split; [done|]. split; [done|].
    eexists [_]. split; [done|]. apply Forall2_cons. split; [|done]. by do 4 (split; [done|]).
Qed.

Lemma service_wrote :
  (forall ms p t cs hl st g st' e ps ts hs rs rs',
     agrees st g -> lists p t hl g ps ts hs -> roomy p t hl g rs -> (forall i, uses p i -> ~ uses t i) -> members_fits ms rs = Some rs' ->
     invoke_members ms p t (inherited cs) hl st = (st', e) -> wrote p t hl st g st' e (members_spec ms ps ts cs hs) rs') /\
  (forall ss p t cs hl st g st' e ps ts hs rs rs',
     agrees st g -> lists p t hl g ps ts hs -> roomy p t hl g rs -> (forall i, uses p i -> ~ uses t i) -> structs_fits ss rs = Some rs' ->
     invoke_structs ss p t (inherited cs) hl st = (st', e) -> wrote p t hl st g st' e (structs_spec ss ps ts cs hs) rs') /\
  (forall gr p t cs hl st g st' e ps ts hs rs rs',
     agrees st g -> lists p t hl g ps ts hs -> roomy p t hl g rs -> (forall i, uses p i -> ~ uses t i) -> group_fits gr rs = Some rs' ->
     Invoke gr p t (inherited cs) hl st = (st', e) -> wrote p t hl st g st' e (group_spec gr ps ts cs hs) rs').
Proof.
  apply service_mutind.
  - intros * Ha _ Hr _ Hf E. cbn in *. simplify_eq. by apply wrote_nil.
  - intros id ms IH. exact IH.
  - intros gr IHg ms IH * Ha Hl Hr Hpt Hf E. cbn [invoke_members members_spec members_fits] in *. destruct (group_fits gr rs) as [rs1|] eqn:Ef; [|done].
    destruct (Invoke gr p t _ hl st) as [st1 e1] eqn:E1. pose proof (IHg _ _ _ _ _ _ _ _ _ _ _ _ _ Ha Hl Hr Hpt Ef E1) as A1.
    eapply wrote_then; [exact A1| |intros ? ->; by simplify_eq]. intros -> g1 Ha1 Hm1 Hr1. eapply IH; try done. by eapply lists_moved.
  - intros name m ms IH * Ha Hl Hr Hpt Hf E. cbn [invoke_members members_spec members_fits] in *. destruct rs as [[pr tr] h].
    destruct (extend growH h 1) as [h1|] eqn:Ef; [|done]. destruct (add_method name m p t _ hl st) as [st1 e1] eqn:E1.
    eapply wrote_then; [by eapply add_method_wrote| |intros ? ->; by simplify_eq]. intros -> g1 Ha1 Hm1 Hr1. eapply IH; try done. by eapply lists_moved.
  - intros ms IH. exact IH.
  - intros * Ha _ Hr _ Hf E. cbn in *. simplify_eq. by apply wrote_nil.
  - intros ss _ * Ha _ Hr _ Hf E. cbn in *. simplify_eq. by apply wrote_nil.
  - intros ms IHm ss IH * Ha Hl Hr Hpt Hf E. cbn [invoke_structs structs_spec structs_fits] in *. destruct rs as [[pr tr] h].
    destruct (extend_each h _) as [h1|] eqn:Ex; [|done]. cbn [mbind option_bind] in Hf. destruct (members_fits ms (pr, tr, h1)) as [rs1|] eqn:Fm; [|done].
    cbn [mbind option_bind] in Hf. destruct (structs_fits ss rs1) as [[[p2 t2] h2]|] eqn:Fs; [|done]. injection Hf as <-.
    destruct (add_middlewares ms hl st) as [hl1 st1] eqn:Em. destruct Hl as (Lp & Lt & Lh). destruct Hr as (Rp & Rt_ & Rh).
    destruct (add_middlewares_owned _ _ _ _ _ _ _ _ _ Ha Lh Rh Ex Em) as (gh & Ha1 & Hh1 & Hr1 & Gh1 & L & R).
    eapply (wrote_chain _ _ _ hl1 _ _ st1 (Gh (gstr g) gh)); [done|done|exact L|exact R|].
    destruct (invoke_members ms p t _ hl1 st1) as [st2 e2] eqn:E2.
    assert (Hl1 : lists p t hl1 (Gh (gstr g) gh) ps ts (hs ++ middlewares ms)) by (split; [done|]; by split).
    assert (Hr1' : roomy p t hl1 (Gh (gstr g) gh) (pr, tr, h1)) by (split; [done|]; by split).
    eapply (wrote_then _ _ _ _ _ st2); [by eapply (IHm _ _ _ _ _ _ _ _ _ _ _ _ _ Ha1 Hl1 Hr1')| |intros ? ->; by simplify_eq].
    intros -> g2 Ha2 Hm2 Hr2. eapply IH; try done. by eapply lists_moved.
  - intros gp gt gc ss IH * Ha Hl Hr Hpt Hf E. cbn [Invoke group_spec group_fits] in *. destruct rs as [[pr tr] h]. destruct Hl as (Lp & Lt & Lh). destruct Hr as (Rp & Rt_ & Rh).
    destruct (extend growS pr _) as [pr1|] eqn:Xp; [|done]. cbn [mbind option_bind] in Hf. destruct (extend growS tr _) as [tr1|] eqn:Xt; [|done]. cbn [mbind option_bind] in Hf.
    destruct (structs_fits ss _) as [[[p2 t2] h2]|] eqn:Fs; [|done]. injection Hf as <-. pose proof Ha as (A1 & A2 & A3 & A4). rewrite A1 in E.
    destruct (append growS [] _ p gp) as [sh1 p1] eqn:E1.
    destruct (append_owned _ _ _ _ _ _ _ _ _ _ A3 Lp Rp Xp E1) as (gs1 & -> & V1 & Hp1 & Rp1 & G1 & O1 & C1 & L1).
    destruct (append growS [] gs1.*1 t gt) as [sh2 t1] eqn:E2.
    assert (Rt1 : has_room gs1 t tr) by (eapply has_room_only; [exact O1|intros i Hi Hi'; by apply (Hpt i)|done]).
    destruct (append_owned _ _ _ _ _ _ _ _ _ _ V1 (holds_grows _ _ _ _ G1 Lt) Rt1 Xt E2) as (gs2 & -> & V2 & Ht1 & Rt2 & G2 & O2 & C2 & L2).
    assert (Hp1t : forall i, uses p1 i -> ~ uses t i) by (by eapply came_apart).
    assert (Hp1t1 : forall i, uses p1 i -> ~ uses t1 i).
    { intros i Hi Hi'. revert Hi. eapply (came_apart gs1 t t1 p1); [exact C2| |exact Hp1|exact Hi']. intros j Hj Hj'. by apply (Hp1t j). }
    eapply (wrote_group p t hl p1 t1 st g gs1 gs2); [done|intros i Hi Hi'; by apply (Hp1t i)|done|done|apply L1; exact Hpt|apply L2; intros i Hi Hi'; by apply (Hp1t i)|].
    rewrite <- inherited_cons in E. rewrite A2 in E |- *. eapply IH; [..|exact Fs|exact E]; [by split_and!| | |exact Hp1t1].
    + split; [|split]; [by eapply holds_grows|done|done].
    + split; [|split]; [|done|done]. eapply has_room_only; [exact O2| |exact Rp1]. intros i Hi Hi'. by apply (Hp1t i).
Qed.

(** The arrays of the services that were registered before stay. *)
Definition kept (st : state) (g : ghost) (st' : state) (spec : list route * option error) : Prop :=
  exists g', agrees st' g' /\ grows (gstr g) (gstr g') /\ grows (ghan g) (ghan g') /\
    exists new, restotList st' = restotList st ++ new /\ Forall2 (shows g') new (fst spec).
Lemma kept_nil st g e : agrees st g -> kept st g st ([], e).
Proof. intros Ha. exists g. split; [done|]. split; [apply grows_refl|]. split; [apply grows_refl|]. exists []. by rewrite app_nil_r. Qed.
Lemma kept_then st g st1 st2 (e1 : option error) a b : kept st g st1 a -> e1 = snd a ->
  (e1 = None -> forall g1, agrees st1 g1 -> kept st1 g1 st2 b) -> (forall e, e1 = Some e -> st2 = st1) -> kept st g st2 (andthen a b).
Proof.
  intros (g1 & Ha & G1 & G2 & new & Hn & Hf) -> Hnone Hsome. destruct a as [l [e|]]; cbn [fst snd andthen] in *.
  - rewrite (Hsome e eq_refl). exists g1. split; [done|]. split; [done|]. split; [done|]. by exists new.
  - destruct (Hnone eq_refl g1 Ha) as (g2 & Ha2 & G3 & G4 & new2 & Hn2 & Hf2). exists g2. split; [done|].
    split; [by eapply grows_trans|]. split; [by eapply grows_trans|]. exists (new ++ new2). rewrite Hn2, Hn, app_assoc. split; [done|].
    apply Forall2_app; [|done]. eapply Forall2_impl; [exact Hf|]. intros r v. by apply shows_moved.
Qed.

Lemma rest_members_kept ms st g st' e : agrees st g -> rest_members_fits ms = true -> rest_members ms st = (st', e) -> kept st g st' (rest_members_spec ms).
Proof.
  revert st g. induction ms as [|id ms IH|gr ms IH|name m ms IH|ms IH]; intros st g Ha Hf E; cbn [rest_members rest_members_spec rest_members_fits] in *; [|by eauto| |by eauto..].
  - simplify_eq. by apply kept_nil.
  - apply andb_true_iff in Hf as [[rs Hg]%bool_decide_eq_true Hf]. destruct Ha as (A1 & A2 & A3 & A4). cbn [new_slice] in E.
    set (st0 := St (strings_ st ++ [[[47]]]) (handlers_ st) (restotList st)) in *. set (g0 := Gh (gstr g ++ [([[47]], 1%nat)]) (ghan g)).
    destruct (Invoke gr _ nil_slice _ nil_slice st0) as [st1 e1] eqn:E1.
    assert (Ha0 : agrees st0 g0) by (split; [cbn; by rewrite fmap_app, A1|]; split; [done|]; split; [|done]; apply Forall_app; split; [done|by apply Forall_singleton]).
    assert (Hroot : gstr g0 !! length (strings_ st) = Some ([[47]], 1%nat)) by (cbn; rewrite A1, length_fmap; by apply list_lookup_middle).
    destruct (proj2 (proj2 service_wrote) gr (Sl (Some (length (strings_ st))) 1) nil_slice [] nil_slice st0 g0 st1 e1 [[47]] [] [] root_rooms rs) as (g1 & Ha1 & (G1 & G2 & _) & He & _ & new & Hn & Hs);
      [done| | |by intros i _|done|done|].
    { split; [split; [done|]; by exists [[47]], 1%nat|]. split; apply holds_nil. }
    { split; [split; [done|]; by exists [[47]], 1%nat|]. by split. }
    eapply (kept_then _ _ st1 _ e1); [|exact He|intros -> g2 Ha2; by eapply IH|intros ? ->; by simplify_eq].
    exists g1. split; [done|]. split; [eapply grows_trans; [apply grows_app|exact G1]|]. split; [done|]. by exists new.
Qed.
Lemma rest_kept ss st g st' e : agrees st g -> rest_fits ss = true -> Rest ss st = (st', e) -> kept st g st' (rest_spec ss).
Proof.
  revert st g. induction ss as [|ss IH|ms ss IH]; intros st g Ha Hf E; cbn [Rest rest_spec rest_fits] in *; [simplify_eq; by apply kept_nil..|].
  apply andb_true_iff in Hf as [Hm Hf]. destruct (rest_members ms st) as [st1 e1] eqn:E1. pose proof (rest_members_added _ _ _ _ E1) as (_ & He & _).
  eapply kept_then; [by eapply rest_members_kept|exact He|intros -> g1 Ha1; by eapply IH|intros ? ->; by simplify_eq].
Qed.

(** C25: The service registers one route for every method in the tree of its groups, in
    the order of the tree and up to the first error, with its upper-case method, its
    summary and detail, the fields of its request and its response, and as many path
    elements, tags and handlers as its groups and middlewares give it. They are the right
    ones (the prefixes and tags of the groups around, all middlewares before it, and at the
    end its handler with the nearest custom request, response and recover function) in a
    service that fits: no append, with the capacities that [growS] and [growH] give to the
    arrays, goes to a slice whose array has room that another slice already uses. Where the
    service does not fit, routes overwrite each other ([methods_share_handler]). *)
Theorem NewRest_routes (ss : structs) :
  let '(st, e) := NewRest ss in
  e = snd (rest_spec ss) /\ Forall2 alike (routes st) (fst (rest_spec ss)) /\ (rest_fits ss = true -> routes st = fst (rest_spec ss)).
Proof.
  unfold NewRest. destruct (Rest ss (St [] [] [])) as [st e] eqn:E. pose proof (rest_added _ _ _ _ E) as (_ & -> & new & Hn & Hf). cbn in Hn.
  split; [done|]. unfold routes. rewrite Hn. split.
  - apply Forall2_fmap_l. eapply Forall2_impl; [exact Hf|]. intros r v (E1 & E2 & E3 & E4 & Hp & Ht & Hh). do 4 (split; [done|]).
    split; [|split]; by apply sized_elems.
  - intros X. assert (A0 : agrees (St [] [] []) (Gh [] [])) by (do 2 (split; [done|]); split; apply Forall_nil_2).
    destruct (rest_kept ss _ _ _ _ A0 X E) as (g & (A1 & A2 & _) & _ & _ & new' & Hn' & Hs).
    cbn in Hn'. rewrite Hn in Hn'. subst new'. clear -Hs A1 A2. induction Hs as [|r v rs vs (E1 & E2 & E3 & E4 & Hp & Ht & Hh) _ IH]; [done|]. cbn. f_equal; [|exact IH].
    unfold read. rewrite A1, A2. destruct v. cbn in *. f_equal; try done; by apply holds_elems.
Qed.

End Service.
(** ** Groups, documents and binding *)

Definition no_config : config := Cfg None None None None.
Definition Group (prefix : str) (ss : structs) : Groupot := Grp (Uweb.split 47 prefix) [] no_config ss.
Definition with_config (f : config -> config) (g : Groupot) : Groupot := match g with Grp p t c ss => Grp p t (f c) ss end.
Definition Group_Request (fn : option Z) : Groupot -> Groupot := with_config (fun c => Cfg fn (response c) (field c) (recover_ c)).
Definition Group_Response (fn : option Z) (rfn : list (option Z)) : Groupot -> Groupot :=
  with_config (fun c => Cfg (request c) fn (match rfn with f :: _ => f | [] => field c end) (recover_ c)).
Definition Group_Recover (fn : option Z) : Groupot -> Groupot := with_config (fun c => Cfg (request c) (response c) (field c) fn).
Definition Group_Tags (ts : list str) (g : Groupot) : Groupot := match g with Grp p t c ss => Grp p (t ++ ts) c ss end.

Definition Path (r : route) : str := Uweb.path_join (r_path r).
(** [GenerateDocs]: method, path, summary, detail, tags, fields. *)
Definition GenerateDocs (rs : list route) : list (str * str * str * str * str * HandlerField) :=
  (fun r => (r_method r, Path r, r_summary r, r_detail r, Uweb.join [45] (r_tags r), r_field r)) <$> rs.
(** What [BindUweb] registers: the routes, each with what serves it. *)
Definition BindUweb (rs : list route) : list (str * str * list Handler) := (fun r => (r_method r, Path r, r_chain r)) <$> rs.

(** ** Services in Go *)

(** The capacity that Go's runtime gives to a slice of small elements that grows, rounded
    up to a size class (in bytes). *)
Definition size_classes : list nat := [8; 16; 24; 32; 48; 64; 80; 96; 112; 128; 144; 160; 176; 192; 208; 224; 240; 256]%nat.
Definition go_grow (size cap need : nat) : nat :=
  let want := if (2 * cap <? need)%nat then need else (2 * cap)%nat in
  let bytes := (want * size)%nat in
  (default bytes (head (filter (fun c => bytes <= c)%nat size_classes)) / size)%nat.
Definition go_NewRest : structs -> state * option error := NewRest (go_grow 16) (go_grow 8) (fun _ l => l).

Definition plain (h : Z) : Methodot := Mt [] [] (Cfg None None None None) h None (inr []).

(** Two groups, the second with two middlewares, a method with a request of its own and a
    group inside. *)
Definition demo_rest : structs :=
  SCons (MGroup (Grp [bs "a"] [] (Cfg (Some 5) None None None) (SCons (MMiddleware 1 (MMethod (bs "Get") (plain 10) MNil)) SNil))
        (MGroup (Grp [bs "b"] [bs "t"] no_config
           (SCons (MMiddleware 2 (MMiddleware 3
              (MMethod (bs "Get") (Mt [] [] (Cfg (Some 6) None None None) 20 (Some (inr [1; 2])) (inr [3])) (MMethod (bs "Put") (plain 21)
              (MGroup (Grp [bs "c"] [] (Cfg None None None (Some 7)) (SCons (MMethod (bs "Get") (plain 22) MNil) SNil)) MNil))))) SNil)) MNil)) SNil.
Lemma NewRest_routes_witness :
  let st := fst (go_NewRest demo_rest) in
  (fun r => (r_path r, r_field r, r_chain r)) <$> routes st =
  [([bs "/"; bs "a"], HF [] [], [HMiddleware 1; HMethod (Some 5) None None 10]);
   ([bs "/"; bs "b"], HF [1; 2] [3], [HMiddleware 2; HMiddleware 3; HMethod (Some 6) None None 20]);
   ([bs "/"; bs "b"], HF [] [], [HMiddleware 2; HMiddleware 3; HMethod None None None 21]);
   ([bs "/"; bs "b"; bs "c"], HF [] [], [HMiddleware 2; HMiddleware 3; HMethod None None (Some 7) 22])].
Proof.
  pose proof (NewRest_routes (go_grow 16) (go_grow 8) (fun _ l => l) demo_rest) as H. unfold go_NewRest.
  destruct (NewRest (go_grow 16) (go_grow 8) (fun _ l => l) demo_rest) as [st e] eqn:E.
  destruct H as (_ & _ & H). cbn [fst]. rewrite H by (vm_compute; reflexivity). vm_compute. reflexivity.
Defined.

(** With three middlewares the chain has room for one more handler, in an array that the
    methods share: both routes get the handler of the last method. *)
Example methods_share_handler :
  BindUweb (routes (fst (go_NewRest
    (SCons (MGroup (Group (bs "/x")
       (SCons (MMiddleware 1 (MMiddleware 2 (MMiddleware 3 (MMethod (bs "Get") (plain 10) (MMethod (bs "Post") (plain 20) MNil))))) SNil)) MNil) SNil)))) =
  [(bs "GET", bs "/x", [HMiddleware 1; HMiddleware 2; HMiddleware 3; HMethod None None None 20]);
   (bs "POST", bs "/x", [HMiddleware 1; HMiddleware 2; HMiddleware 3; HMethod None None None 20])].
Proof. vm_compute. reflexivity. Qed.

(** Two groups in a group: the prefix of the second one replaces that of the first. *)
Example groups_share_path :
  let leaf name h := Group (bs name) (SCons (MMethod (bs "Get") (plain h) MNil) SNil) in
  BindUweb (routes (fst (go_NewRest
    (SCons (MGroup (Group (bs "/api") (SCons (MGroup (Group (bs "/v1")
       (SCons (MGroup (leaf "posts" 10) (MGroup (leaf "users" 20) MNil)) SNil)) MNil) SNil)) MNil) SNil)))) =
  [(bs "GET", bs "/api/v1/users", [HMethod None None None 10]); (bs "GET", bs "/api/v1/users", [HMethod None None None 20])].
Proof. vm_compute. reflexivity. Qed.

(** ** Requests *)

(** What a handler does with its context, up to a result. [PStore] is a call of [Set] or
    [Delete], [PGet] one of [Get], [PIndex] one of [Index]. *)
Inductive store_op := SSet (key : str) (v : Z) | SDelete (key : str).
Inductive prog {R : Type} :=
| Ret (r : R)
| PWrite (b : str) (k : prog)
| PHeader (code : Z) (k : prog)
| PStore (o : store_op) (k : prog)
| PGet (key : str) (k : option Z -> prog)
| PIndex (k : nat -> Z -> prog)
| PNext (k : prog)
| PEnd
| PClose
| PPanic (v : Z).
Arguments prog : clear implicits.

Fixpoint bind {R T} (p : prog R) (f : R -> prog T) : prog T :=
  match p with
  | Ret r => f r
  | PWrite b k => PWrite b (bind k f)
  | PHeader c k => PHeader c (bind k f)
  | PStore o k => PStore o (bind k f)
  | PGet key k => PGet key (fun v => bind (k v) f)
  | PIndex k => PIndex (fun n i => bind (k n i) f)
  | PNext k => PNext (bind k f)
  | PEnd => PEnd
  | PClose => PClose
  | PPanic v => PPanic v
  end.

(** The function that [Methodot.Invoke] returns: [req] is the error of the request
    function, and after an error the work goes on if the recover function returns. *)
Definition method_handler (req : option Z) (rec : Z -> prog unit) (h : prog (Z * option Z)) (resp : Z -> prog unit) : prog unit :=
  let failed e := match e with Some e => rec e | None => Ret tt end in
  bind (failed req) (fun _ => bind h (fun r => bind (failed (snd r)) (fun _ => resp (fst r)))).

Definition DefaultRecover (text : Z -> str) (e : Z) : prog unit :=
  PHeader 500 (PWrite (bs "Internal Server Error: " ++ text e) PEnd).

(** [http.ResponseWriter]: the first status counts, and a write without one sends 200. *)
Record writer := Wr { code : option Z; body : str }.
Definition WriteHeader (c : Z) (w : writer) : writer := Wr (match code w with Some c' => Some c' | None => Some c end) (body w).
Definition Write (b : str) (w : writer) : writer := Wr (Some (default 200 (code w))) (body w ++ b).

Record Context_ := Ctx { index : Z; ctxStore : option (gmap str Z); Writer : writer }.
Definition fresh (w : writer) : Context_ := Ctx (-1) None w.
Definition set_index (i : Z) (c : Context_) : Context_ := Ctx i (ctxStore c) (Writer c).
Definition set_writer (w : writer) (c : Context_) : Context_ := Ctx (index c) (ctxStore c) w.
Definition store (o : store_op) (c : Context_) : Context_ :=
  Ctx (index c)
    (match o, ctxStore c with
     | SSet key v, m => Some (<[key := v]> (default ∅ m))
     | SDelete key, Some m => Some (delete key m)
     | SDelete _, None => None
     end) (Writer c).
Definition load (key : str) (c : Context_) : option Z := m ← ctxStore c; m !! key.

(** [panic(nil)] is an error of its own since Go 1.21, the version of the module. *)
Inductive panicval := PanicNilError | PUser (v : Z).
Inductive outcome := Fell | Panicked (v : panicval) | NoFuel.

Section Serve.
Context (hs : list (prog unit)).      (* [c.m.handlerList] *)

(** The loop of [Next], with [run] for a handler; [fuel] is for the rounds. *)
Fixpoint next_loop (run : prog unit -> Context_ -> outcome * Context_) (fuel : nat) (c : Context_) : outcome * Context_ :=
  match fuel with
  | O => (NoFuel, c)
  | S fuel' =>
      if (-1 <? index c) && (index c <? Z.of_nat (length hs)) then
        match run (default PEnd (hs !! Z.to_nat (index c))) c with
        | (Fell, c') => next_loop run fuel' (set_index (index c' + 1) c')
        | r => r
        end
      else (Fell, c)
  end.

(** A handler; [fuel] is for calls of [Next] inside each other. *)
Fixpoint exec (fuel : nat) : prog unit -> Context_ -> outcome * Context_ :=
  fix ex (p : prog unit) (c : Context_) : outcome * Context_ :=
    match p with
    | Ret _ => (Fell, c)
    | PWrite b k => ex k (set_writer (Write b (Writer c)) c)
    | PHeader n k => ex k (set_writer (WriteHeader n (Writer c)) c)
    | PStore o k => ex k (store o c)
    | PGet key k => ex (k (load key c)) c
    | PIndex k => ex (k (length hs) (index c)) c
    | PNext k =>
        match fuel with
        | O => (NoFuel, c)
        | S f => match next_loop (exec f) (S (length hs)) (set_index (index c + 1) c) with (Fell, c') => ex k c' | r => r end
        end
    | PEnd => (Panicked PanicNilError, set_index (-10) c)
    | PClose => (Panicked PanicNilError, set_index (-100) c)
    | PPanic v => (Panicked (PUser v), c)
    end.

(** [Next] of the context that [ServeHTTP] has got. *)
Definition Next (w : writer) : outcome * Context_ :=
  next_loop (exec (S (length hs))) (S (length hs)) (set_index (index (fresh w) + 1) (fresh w)).

Context (show : panicval -> str).    (* the text of a panic value under the verb %v *)

(** [ServeHTTP] with its deferred function: the answer, and whether it panics again. *)
Definition error_page (v : panicval) (w : writer) : writer := Write (bs "InternalServerError: " ++ show v) (WriteHeader 500 w).
Definition ServeHTTP (w : writer) : option (writer * bool) :=
  match Next w with
  | (NoFuel, _) => None
  | (Panicked v, c) => Some (error_page v (Writer c), false)
  | (Fell, c) => Some (Writer c, index c =? -100)
  end.

(** The fuel is enough: a handler that [Next] calls comes later in the chain. *)
Definition calm (r : outcome * Context_) (i : Z) : Prop :=
  match r with (NoFuel, _) => False | (Fell, c') => i <= index c' | (Panicked _, _) => True end.

Lemma next_loop_calm run n c : 0 <= index c -> (1 <= n)%nat -> Z.of_nat (length hs) - index c < Z.of_nat n ->
  (forall p c', index c <= index c' < Z.of_nat (length hs) -> calm (run p c') (index c')) -> calm (next_loop run n c) (index c).
Proof.
  revert c. induction n as [|n IH]; intros c Hi H1 Hn Hrun; [lia|]. cbn [next_loop].
  destruct (Z.ltb_spec (-1) (index c)); [|lia]. destruct (Z.ltb_spec (index c) (Z.of_nat (length hs))) as [Hlt|]; cbn [andb]; [|cbn; lia].
  specialize (Hrun (default PEnd (hs !! Z.to_nat (index c))) c ltac:(lia)) as Hc.
  destruct (run _ c) as [[|v|] c'] eqn:E; cbn [calm] in Hc |- *; try done.
  specialize (IH (set_index (index c' + 1) c')). cbn [index set_index] in IH.
  assert (Hnext : calm (next_loop run n (set_index (index c' + 1) c')) (index c' + 1)).
  { apply IH; [lia|lia|lia|]. intros p c2 Hc2. apply Hrun. lia. }
  destruct (next_loop run n _) as [[|v|] c2]; cbn [calm] in *; try done. lia.
Qed.

Lemma exec_calm fuel : forall p c, 0 <= index c -> (1 <= fuel)%nat -> Z.of_nat (length hs) - index c < Z.of_nat fuel ->
  calm (exec fuel p c) (index c).
Proof.
  induction fuel as [|f IHf]; intros p c Hi H1 Hf; [lia|]. revert c Hi Hf.
  induction p as [r|b k IH|n k IH|o k IH|key k IH|k IH|k IH| | |v]; intros c Hi Hf;
    first [exact (Z.le_refl _) | exact I | exact (IH c Hi Hf) | exact (IH _ c Hi Hf) | exact (IH _ _ c Hi Hf) | idtac].
  - exact (IH (set_writer _ c) Hi Hf).
  - exact (IH (set_writer _ c) Hi Hf).
  - exact (IH (store o c) Hi Hf).
  - change (calm (match next_loop (exec f) (S (length hs)) (set_index (index c + 1) c) with (Fell, c') => exec (S f) k c' | r => r end) (index c)).
    assert (Hn : calm (next_loop (exec f) (S (length hs)) (set_index (index c + 1) c)) (index c + 1)).
    { apply (next_loop_calm (exec f) _ (set_index (index c + 1) c)); cbn [index set_index]; [lia|lia|lia|]. intros q c' Hc'. apply IHf; lia. }
    destruct (next_loop _ _ _) as [[|v|] c']; cbn [calm] in Hn |- *; try done.
    specialize (IH c' ltac:(lia) ltac:(lia)). destruct (exec (S f) k c') as [[|v|] c2]; cbn [calm] in *; try done. lia.
Qed.

(** Whatever the handlers of a route do, ServeHTTP returns and never panics: a
    chain that falls through leaves the answer as the handlers wrote it, and a panic,
    which since Go 1.21 includes End and Close, adds the error page to what was
    written, with status 500 unless one was sent before. *)
Theorem ServeHTTP_returns (w : writer) : exists r c,
  Next w = (r, c) /\ r <> NoFuel /\
  ServeHTTP w = Some (match r with
                      | Panicked v => Wr (Some (default 500 (code (Writer c)))) (body (Writer c) ++ bs "InternalServerError: " ++ show v)
                      | _ => Writer c
                      end, false).
Proof.
  unfold ServeHTTP. assert (Hc : calm (Next w) 0).
  { unfold Next. apply (next_loop_calm _ _ (set_index 0 (fresh w))); cbn [index set_index fresh]; [lia|lia|lia|]. intros p c' Hc'. apply exec_calm; lia. }
  destruct (Next w) as [[|v|] c]; cbn [calm] in Hc; [| |done]; eexists _, c; (split; [done|]); (split; [done|]).
  - by rewrite (proj2 (Z.eqb_neq (index c) (-100))) by lia.
  - unfold error_page, Write, WriteHeader. cbn. by destruct (code (Writer c)).
Qed.

End Serve.

(** A middleware around a method, as the code of a service reads. *)
Definition panic_text (v : panicval) : str :=
  match v with PanicNilError => bs "panic called with nil argument (use GODEBUG=panicnil=1 to disable)" | PUser _ => bs "user" end.
Definition around : prog unit := PHeader 200 (PWrite (bs "[") (PNext (PWrite (bs "]") (Ret tt)))).
Example serve_around :
  ServeHTTP [around; method_handler None (DefaultRecover (fun _ => [])) (Ret (7, None)) (fun _ => PWrite (bs "ok") (Ret tt))] panic_text (Wr None []) =
  Some (Wr (Some 200) (bs "[ok]"), false).
Proof. vm_compute. reflexivity. Qed.

(** [End], which [DefaultRecover] calls after its page, makes [ServeHTTP] add a second one. *)
Example end_adds_page :
  ServeHTTP [method_handler (Some 1) (DefaultRecover (fun _ => bs "bad request")) (Ret (7, None)) (fun _ => Ret tt)] panic_text (Wr None []) =
  Some (Wr (Some 500) (bs "Internal Server Error: bad request" ++
    bs "InternalServerError: panic called with nil argument (use GODEBUG=panicnil=1 to disable)"), false).
Proof. vm_compute. reflexivity. Qed.

(** A recover function that returns: the method runs on the request that was refused. *)
Example recover_goes_on :
  ServeHTTP [method_handler (Some 1) (fun _ => PHeader 400 (PWrite (bs "no;") (Ret tt))) (PWrite (bs "called;") (Ret (7, None))) (fun _ => PWrite (bs "ok") (Ret tt))]
    panic_text (Wr None []) = Some (Wr (Some 400) (bs "no;called;ok"), false).
Proof. vm_compute. reflexivity. Qed.

End Urest.
