(* ===== verification/TomlChars.v ===== *)
(** * Character classes of TOML documents ([src/utoml/internal/characters])

    The validity test of the next character of a byte string, and the scan of
    a whole string with its fast path for eight ASCII bytes at a time. *)
From stdpp Require Import base numbers list gmap strings.
From S2P Require Import Prelude Utf8.
#[local] Open Scope Z_scope.

Module TomlChars.
Export Utf8.

(** ** Tables *)

(** [invalidAsciiTable]: the control bytes other than tab, LF and CR. *)
Definition InvalidAscii (b : Z) : bool :=
  ((0 <=? b) && (b <=? 8)) || (b =? 11) || (b =? 12) ||
  ((14 <=? b) && (b <=? 31)) || (b =? 127).

Abbreviation RuneSelf := 128.
Abbreviation locb := 128.
Abbreviation hicb := 191.
Abbreviation xx := 241.
Abbreviation as_ := 240.
Abbreviation s1 := 2.
Abbreviation s2 := 19.
Abbreviation s3 := 3.
Abbreviation s4 := 35.
Abbreviation s5 := 52.
Abbreviation s6 := 4.
Abbreviation s7 := 68.

(** [first]: one row of the source table per line. *)
Definition first_table : list Z :=
  replicate 128 as_ ++
  replicate 64 xx ++
  [xx; xx] ++ replicate 14 s1 ++
  replicate 16 s1 ++
  [s2] ++ replicate 12 s3 ++ [s4; s3; s3] ++
  [s5; s6; s6; s6; s7] ++ replicate 11 xx.

Definition first (c : Z) : Z := default 0 (first_table !! Z.to_nat c).

(** [acceptRanges], an array of 16 pairs. *)
Definition acceptRanges (i : Z) : Z * Z :=
  if i =? 0 then (locb, hicb)
  else if i =? 1 then (160, hicb)
  else if i =? 2 then (locb, 159)
  else if i =? 3 then (144, hicb)
  else if i =? 4 then (locb, 143)
  else (0, 0).

(** ** One character *)

(** [Utf8ValidNext]: the size of the next character, 0 when it is not valid. *)
Definition Utf8ValidNext {E} (p : list Z) : go E nat :=
  c ← at_ p 0;
  if c <? RuneSelf then mret (if InvalidAscii c then 0 else 1)%nat
  else
    let x := first c in
    if x =? xx then mret 0%nat
    else
      let size := Z.to_nat (Z.land x 7) in
      if (length p <? size)%nat then mret 0%nat
      else
        let '(lo, hi) := acceptRanges (Z.shiftr x 4) in
        c1 ← at_ p 1;
        if (c1 <? lo) || (hi <? c1) then mret 0%nat
        else if (size =? 2)%nat then mret size
        else
          c2 ← at_ p 2;
          if (c2 <? locb) || (hicb <? c2) then mret 0%nat
          else if (size =? 3)%nat then mret size
          else
            c3 ← at_ p 3;
            if (c3 <? locb) || (hicb <? c3) then mret 0%nat
            else mret size.

(** ** A whole string *)

Record utf8Err := U8Err { Index : nat; Size : nat }.
Definition Zero (u : utf8Err) : bool := (Size u =? 0)%nat.
Definition no_err : utf8Err := U8Err 0 0.

(** Four bytes as a little-endian [uint32]. *)
Definition load32 (p : list Z) (i : nat) : Z :=
  let b k := default 0 (p !! (i + k)%nat) in
  Z.lor (Z.lor (Z.lor (b 0%nat) (Z.shiftl (b 1%nat) 8)) (Z.shiftl (b 2%nat) 16))
        (Z.shiftl (b 3%nat) 24).

Fixpoint first_invalid (p : list Z) (i : nat) : option nat :=
  match p with
  | [] => None
  | b :: p' => if InvalidAscii b then Some i else first_invalid p' (S i)
  end.

(** The loop over eight bytes at a time: an error, or what is left with its
    offset. *)
Fixpoint ascii_loop (fuel : nat) (p : list Z) (offset : nat) : utf8Err + (list Z * nat) :=
  match fuel with
  | O => inr (p, offset)
  | S fuel' =>
      if (8 <=? length p)%nat then
        if negb (Z.land (Z.lor (load32 p 0) (load32 p 4)) 2155905152 =? 0) then inr (p, offset)
        else match first_invalid (take 8 p) 0 with
             | Some i => inl (U8Err (offset + i) 1)
             | None => ascii_loop fuel' (drop 8 p) (offset + 8)
             end
      else inr (p, offset)
  end.

(** The loop over the characters of the rest. *)
Fixpoint rune_loop {E} (fuel : nat) (p : list Z) (offset i : nat) : go E utf8Err :=
  match fuel with
  | O => OutOfFuel
  | S fuel' =>
      let n := length p in
      if (i <? n)%nat then
        pi ← at_ p i;
        if pi <? RuneSelf then
          if InvalidAscii pi then mret (U8Err (offset + i) 1)
          else rune_loop fuel' p offset (S i)
        else
          let x := first pi in
          if x =? xx then mret (U8Err (offset + i) 1)
          else
            let size := Z.to_nat (Z.land x 7) in
            if (n <? i + size)%nat then mret (U8Err (offset + i) (n - i))
            else
              let '(lo, hi) := acceptRanges (Z.shiftr x 4) in
              c1 ← at_ p (i + 1);
              if (c1 <? lo) || (hi <? c1) then mret (U8Err (offset + i) 2)
              else if (size =? 2)%nat then rune_loop fuel' p offset (i + size)
              else
                c2 ← at_ p (i + 2);
                if (c2 <? locb) || (hicb <? c2) then mret (U8Err (offset + i) 3)
                else if (size =? 3)%nat then rune_loop fuel' p offset (i + size)
                else
                  c3 ← at_ p (i + 3);
                  if (c3 <? locb) || (hicb <? c3) then mret (U8Err (offset + i) 4)
                  else rune_loop fuel' p offset (i + size)
      else mret no_err
  end.

Definition Utf8TomlValidAlreadyEscaped {E} (p : list Z) : go E utf8Err :=
  match ascii_loop (length p) p 0 with
  | inl err => mret err
  | inr (p', offset) => rune_loop (S (length p')) p' offset 0
  end.

(** ** UTF-8 *)

(** The characters that TOML allows in strings and comments, and newlines: the
    Unicode scalar values without the control characters other than tab, line
    feed and carriage return.  Written from the TOML specification, not from
    the table of the code. *)
Definition toml_char (cp : Z) : Prop :=
  scalar cp /\ (cp = 9 \/ cp = 10 \/ cp = 13 \/ 32 <= cp /\ cp <> 127).

(** The table of the code decides it. *)
Lemma toml_char_table cp : toml_char cp <-> scalar cp /\ InvalidAscii cp = false.
Proof. unfold toml_char, InvalidAscii, scalar. lia. Qed.

(** A byte string made of allowed characters. *)
Definition toml_text (p : list Z) : Prop :=
  exists cps, Forall toml_char cps /\ p = concat (utf8_encode <$> cps).

Lemma byte_cases (P : Z -> bool) :
  forallb (fun i => P (Z.of_nat i)) (seq 0 256) = true -> forall c, byte_ok c -> P c = true.
Proof.
  rewrite forallb_forall. intros H c Hc. unfold byte_ok in Hc.
  specialize (H (Z.to_nat c)). rewrite Z2Nat.id in H by lia. apply H, in_seq. lia.
Qed.

(** The lead bytes by class. *)
Definition lead_class (c : Z) : Z :=
  if c <? 194 then xx else if c <? 224 then s1 else if c =? 224 then s2
  else if c =? 237 then s4 else if c <? 240 then s3 else if c =? 240 then s5
  else if c <? 244 then s6 else if c =? 244 then s7 else xx.

Lemma first_class c : byte_ok c -> RuneSelf <= c -> first c = lead_class c.
Proof.
  intros Hb Hc.
  assert (H : (c <? 128) || (first c =? lead_class c) = true).
  { revert c Hb Hc. intros c Hb _. revert c Hb. by apply byte_cases. }
  apply orb_true_iff in H as [H|H]; [lia|]. by apply Z.eqb_eq.
Qed.


(** ** The test against the table of well-formed byte sequences *)

Definition between (lo c hi : Z) : bool := (lo <=? c) && (c <=? hi).

(** The size of the next allowed character by the table of well-formed UTF-8
    byte sequences of the Unicode standard; 0 when there is none. *)
Definition next_size (p : list Z) : nat :=
  match p with
  | [] => 0
  | c :: q =>
      if between 0 c 127 then if InvalidAscii c then 0 else 1
      else if between 194 c 223 then
        match q with
        | c1 :: _ => if between 128 c1 191 then 2 else 0
        | _ => 0
        end
      else if between 224 c 239 then
        match q with
        | c1 :: c2 :: _ =>
            if between (if c =? 224 then 160 else 128)%Z c1 (if c =? 237 then 159 else 191)%Z &&
               between 128 c2 191 then 3 else 0
        | _ => 0
        end
      else if between 240 c 244 then
        match q with
        | c1 :: c2 :: c3 :: _ =>
            if between (if c =? 240 then 144 else 128)%Z c1 (if c =? 244 then 143 else 191)%Z &&
               between 128 c2 191 && between 128 c3 191 then 4 else 0
        | _ => 0
        end
      else 0
  end%nat.

(** Split every comparison in the goal, and drop the impossible branches. *)
Ltac split_cmp :=
  unfold between in *;
  repeat (match goal with
  | |- context [?a =? ?b] => is_var a; destruct (Z.eqb_spec a b)
  | |- context [?a <? ?b] => is_var a; destruct (Z.ltb_spec a b)
  | |- context [?a <? ?b] => is_var b; destruct (Z.ltb_spec a b)
  | |- context [?a <=? ?b] => destruct (Z.leb_spec a b)
  end; simpl; try lia; try done).

Lemma Utf8ValidNext_next_size {E} p :
  Forall byte_ok p -> p <> [] -> @Utf8ValidNext E p = Ret (next_size p).
Proof.
  intros Hb. destruct p as [|c q]; [done|]. intros _.
  apply Forall_cons in Hb as [Hc Hq]. unfold byte_ok in *.
  unfold Utf8ValidNext, next_size. simpl.
  destruct (Z.ltb_spec c 128).
  { unfold between. rewrite (proj2 (Z.leb_le _ _)), (proj2 (Z.leb_le _ _)) by lia. by destruct (InvalidAscii c). }
  rewrite first_class by (unfold byte_ok; lia).
  destruct q as [|c1 [|c2 [|c3 q]]]; unfold lead_class; split_cmp.
Qed.

(** The allowed characters are what the test accepts. *)
Lemma next_size_encode cp rest :
  toml_char cp -> next_size (utf8_encode cp ++ rest) = length (utf8_encode cp).
Proof.
  rewrite toml_char_table. intros [Hs Hi]. unfold scalar in Hs. unfold utf8_encode, next_size.
  destruct (Z.ltb_spec cp 128); simpl.
  { rewrite Hi. by split_cmp. }
  destruct (Z.ltb_spec cp 2048); simpl; [|destruct (Z.ltb_spec cp 65536); simpl].
  - remember (192 + cp / 64) as b0 eqn:E0. remember (128 + cp mod 64) as b1 eqn:E1.
    assert (194 <= b0 <= 223 /\ 128 <= b1 <= 191)
      by (subst; Z.to_euclidean_division_equations; lia).
    clear E0 E1. split_cmp.
  - remember (224 + cp / 4096) as b0 eqn:E0. remember (128 + cp / 64 mod 64) as b1 eqn:E1.
    remember (128 + cp mod 64) as b2 eqn:E2.
    assert (224 <= b0 <= 239 /\ 128 <= b1 <= 191 /\ 128 <= b2 <= 191 /\
            (b0 = 224 -> 160 <= b1) /\ (b0 = 237 -> b1 <= 159))
      by (subst; Z.to_euclidean_division_equations; lia).
    clear E0 E1 E2. split_cmp.
  - remember (240 + cp / 262144) as b0 eqn:E0. remember (128 + cp / 4096 mod 64) as b1 eqn:E1.
    remember (128 + cp / 64 mod 64) as b2 eqn:E2. remember (128 + cp mod 64) as b3 eqn:E3.
    assert (240 <= b0 <= 244 /\ 128 <= b1 <= 191 /\ 128 <= b2 <= 191 /\ 128 <= b3 <= 191 /\
            (b0 = 240 -> 144 <= b1) /\ (b0 = 244 -> b1 <= 143))
      by (subst; Z.to_euclidean_division_equations; lia).
    clear E0 E1 E2 E3. split_cmp.
Qed.

Lemma InvalidAscii_high c : 128 <= c -> InvalidAscii c = false.
Proof. intros. unfold InvalidAscii. split_cmp. Qed.

(** The numbers in the range of each length, from the bytes that encode them. *)
Lemma encode2 c c1 :
  194 <= c <= 223 -> 128 <= c1 <= 191 ->
  let cp := (c - 192) * 64 + (c1 - 128) in toml_char cp /\ utf8_encode cp = [c; c1].
Proof.
  intros Hc H1 cp. assert (128 <= cp < 2048) by (subst cp; lia).
  split; [unfold toml_char, scalar; lia|].
  unfold utf8_encode. destruct (Z.ltb_spec cp 128); [lia|].
  destruct (Z.ltb_spec cp 2048); [|lia]. subst cp.
  repeat f_equal; Z.to_euclidean_division_equations; lia.
Qed.

Lemma encode3 c c1 c2 :
  224 <= c <= 239 -> 128 <= c1 <= 191 -> 128 <= c2 <= 191 ->
  (c = 224 -> 160 <= c1) -> (c = 237 -> c1 <= 159) ->
  let cp := (c - 224) * 4096 + (c1 - 128) * 64 + (c2 - 128) in
  toml_char cp /\ utf8_encode cp = [c; c1; c2].
Proof.
  intros Hc H1 H2 L U cp.
  assert (2048 <= cp < 65536) by (subst cp; lia).
  assert (cp < 55296 \/ 57344 <= cp) by (subst cp; lia).
  split; [unfold toml_char, scalar; lia|].
  unfold utf8_encode. destruct (Z.ltb_spec cp 128); [lia|].
  destruct (Z.ltb_spec cp 2048); [lia|]. destruct (Z.ltb_spec cp 65536); [|lia]. subst cp.
  repeat f_equal; Z.to_euclidean_division_equations; lia.
Qed.

Lemma encode4 c c1 c2 c3 :
  240 <= c <= 244 -> 128 <= c1 <= 191 -> 128 <= c2 <= 191 -> 128 <= c3 <= 191 ->
  (c = 240 -> 144 <= c1) -> (c = 244 -> c1 <= 143) ->
  let cp := (c - 240) * 262144 + (c1 - 128) * 4096 + (c2 - 128) * 64 + (c3 - 128) in
  toml_char cp /\ utf8_encode cp = [c; c1; c2; c3].
Proof.
  intros Hc H1 H2 H3 L U cp.
  assert (65536 <= cp <= 1114111) by (subst cp; lia).
  split; [unfold toml_char, scalar; lia|].
  unfold utf8_encode. destruct (Z.ltb_spec cp 128); [lia|].
  destruct (Z.ltb_spec cp 2048); [lia|]. destruct (Z.ltb_spec cp 65536); [lia|]. subst cp.
  repeat f_equal; Z.to_euclidean_division_equations; lia.
Qed.

Lemma between_true lo c hi : between lo c hi = true <-> lo <= c <= hi.
Proof. unfold between. rewrite andb_true_iff, !Z.leb_le. done. Qed.

Lemma next_size_decode p :
  (0 < next_size p)%nat ->
  exists cp rest, toml_char cp /\ p = utf8_encode cp ++ rest.
Proof.
  destruct p as [|c q]; simpl; [lia|].
  destruct (between 0 c 127) eqn:E0.
  { destruct (InvalidAscii c) eqn:Ei; [lia|]. intros _. apply between_true in E0.
    exists c, q. rewrite toml_char_table. unfold scalar, utf8_encode.
    destruct (Z.ltb_spec c 128); [split_and!; [lia|done|done]|lia]. }
  destruct (between 194 c 223) eqn:E1; [|destruct (between 224 c 239) eqn:E2;
    [|destruct (between 240 c 244) eqn:E3; [|lia]]].
  - destruct q as [|c1 q]; [lia|]. destruct (between 128 c1 191) eqn:H1; [|lia]. intros _.
    rewrite between_true in *. destruct (encode2 c c1) as [Hok He]; [lia..|].
    eexists _, q. split; [exact Hok|]. by rewrite He.
  - destruct q as [|c1 [|c2 q]]; [lia..|].
    destruct (between _ c1 _) eqn:H1, (between 128 c2 191) eqn:H2; simpl; try lia. intros _.
    rewrite between_true in *. destruct (encode3 c c1 c2) as [Hok He]; try lia.
    1-3: destruct (Z.eqb_spec c 224), (Z.eqb_spec c 237); lia.
    eexists _, q. split; [exact Hok|]. by rewrite He.
  - destruct q as [|c1 [|c2 [|c3 q]]]; [lia..|].
    destruct (between _ c1 _) eqn:H1, (between 128 c2 191) eqn:H2,
      (between 128 c3 191) eqn:H3; simpl; try lia. intros _.
    rewrite between_true in *. destruct (encode4 c c1 c2 c3) as [Hok He]; try lia.
    1-3: destruct (Z.eqb_spec c 240), (Z.eqb_spec c 244); lia.
    eexists _, q. split; [exact Hok|]. by rewrite He.
Qed.

(** ** Texts *)

Lemma toml_text_nil : toml_text [].
Proof. exists []. done. Qed.

(** Reading one allowed character off a text leaves a text. *)
Lemma toml_text_drop p :
  (0 < next_size p)%nat -> toml_text p <-> toml_text (drop (next_size p) p).
Proof.
  intros Hn. split.
  - intros (cps & Hc & ->). destruct Hc as [|cp cps Hcp Hc].
    { simpl in Hn. lia. }
    exists cps. split; [done|]. rewrite fmap_cons. simpl.
    rewrite next_size_encode by done. by rewrite drop_app_length.
  - intros (cps & Hc & He). destruct (next_size_decode p Hn) as (cp & rest & Hcp & ->).
    rewrite next_size_encode, drop_app_length in He by done.
    exists (cp :: cps). split; [by constructor|]. simpl. by rewrite He.
Qed.

Lemma toml_text_stuck p : next_size p = 0%nat -> toml_text p -> p = [].
Proof.
  intros Hn (cps & Hc & ->). destruct Hc as [|cp cps Hcp Hc]; [done|].
  rewrite fmap_cons in Hn. simpl in Hn. rewrite next_size_encode in Hn by done.
  pose proof (utf8_encode_nonempty cp). lia.
Qed.

Lemma next_size_le p : (next_size p <= length p)%nat.
Proof.
  destruct (decide (0 < next_size p)%nat) as [H|]; [|lia].
  destruct (next_size_decode p H) as (cp & rest & Hcp & ->).
  rewrite next_size_encode, length_app by done. lia.
Qed.

Lemma at_drop {E} p i k : @at_ E p (i + k) = at_ (drop i p) k.
Proof. unfold at_. by rewrite lookup_drop. Qed.

Lemma lead_size c :
  byte_ok c -> 128 <= c -> first c <> xx -> (2 <= Z.to_nat (Z.land (first c) 7) <= 4)%nat.
Proof.
  intros Hb Hc Hx. rewrite first_class in * by done. revert Hx. unfold lead_class.
  repeat case_match; intros; (done || (vm_compute; split; repeat constructor)).
Qed.

(** One turn of the loop over the characters. *)
Lemma rune_loop_step {E} fuel p offset i :
  Forall byte_ok p -> (i < length p)%nat ->
  (next_size (drop i p) = 0%nat /\
   exists k, (1 <= k <= length p - i)%nat /\
   @rune_loop E (S fuel) p offset i = Ret (U8Err (offset + i) k)) \/
  ((0 < next_size (drop i p))%nat /\
   @rune_loop E (S fuel) p offset i = rune_loop fuel p offset (i + next_size (drop i p))).
Proof.
  intros Hb Hi.
  assert (Hl0 : (0 < length (drop i p))%nat) by (rewrite length_drop; lia).
  pose proof (@Utf8ValidNext_next_size E (drop i p)) as H.
  specialize (H (Forall_drop _ _ _ Hb)).
  destruct (drop i p) as [|c q] eqn:Eq; [simpl in Hl0; lia|]. specialize (H ltac:(done)).
  assert (Hc : byte_ok c).
  { apply (Forall_drop _ i) in Hb. rewrite Eq in Hb. by apply Forall_cons in Hb as [? _]. }
  rewrite <- Eq in H |- *. revert H. cbn [rune_loop].
  assert (Hlen : length p = (i + length (drop i p))%nat) by (rewrite length_drop; lia).
  rewrite (proj2 (Nat.ltb_lt _ _)) by done.
  assert (E0 : @at_ E p i = at_ (drop i p) 0) by (rewrite <- at_drop; f_equal; lia).
  rewrite E0. unfold Utf8ValidNext.
  assert (Hsz : forall m, (length p <? i + m)%nat = (length (drop i p) <? m)%nat).
  { intros k. destruct (Nat.ltb_spec (length (drop i p)) k), (Nat.ltb_spec (length p) (i + k));
      lia || done. }
  clear E0.
  replace (@at_ E (drop i p) 0) with (@Ret E Z c) by (by rewrite Eq). cbv [mbind go_mbind go_bind].
  rewrite !at_drop, Hsz. clear Hsz.
  destruct (Z.ltb_spec c 128).
  { destruct (InvalidAscii c); intros [= <-].
    - left. split; [done|]. exists 1%nat. split; [lia|done].
    - right. split; [lia|]. f_equal. lia. }
  destruct (Z.eqb_spec (first c) xx) as [|Hx].
  { intros [= <-]. left. split; [done|]. exists 1%nat. split; [lia|done]. }
  pose proof (lead_size c Hc ltac:(lia) Hx) as Hs.
  destruct (Nat.ltb_spec (length (drop i p)) (Z.to_nat (Z.land (first c) 7))) as [|Hle].
  { intros [= <-]. left. split; [done|]. eexists. split; [|done]. lia. }
  destruct (acceptRanges _) as [lo hi].
  unfold at_. destruct (lookup_lt_is_Some_2 (drop i p) 1) as [c1 ->]; [lia|]. simpl.
  destruct ((c1 <? lo) || (hi <? c1)).
  { intros [= <-]. left. split; [done|]. eexists. split; [|done]. lia. }
  destruct (Nat.eqb_spec (Z.to_nat (Z.land (first c) 7)) 2).
  { intros [= <-]. right. split; [lia|done]. }
  destruct (lookup_lt_is_Some_2 (drop i p) 2) as [c2 ->]; [lia|]. simpl.
  destruct ((c2 <? 128) || (191 <? c2)).
  { intros [= <-]. left. split; [done|]. eexists. split; [|done]. lia. }
  destruct (Nat.eqb_spec (Z.to_nat (Z.land (first c) 7)) 3).
  { intros [= <-]. right. split; [lia|done]. }
  destruct (lookup_lt_is_Some_2 (drop i p) 3) as [c3 ->]; [lia|]. simpl.
  destruct ((c3 <? 128) || (191 <? c3)); intros [= <-].
  - left. split; [done|]. eexists. split; [|done]. lia.
  - right. split; [lia|done].
Qed.

(** What a scan of [p] reports: nothing when [p] is a text, otherwise a
    non-empty range of [p]. *)
Definition scan_result (p : list Z) (e : utf8Err) : Prop :=
  (Size e = 0%nat /\ toml_text p) \/
  ((0 < Size e)%nat /\ (Index e + Size e <= length p)%nat /\ ~ toml_text p /\
   toml_text (take (Index e) p) /\ next_size (drop (Index e) p) = 0%nat).

Lemma toml_text_app p q : toml_text p -> toml_text q -> toml_text (p ++ q).
Proof.
  intros (c1 & H1 & ->) (c2 & H2 & ->). exists (c1 ++ c2).
  by rewrite fmap_app, concat_app, Forall_app.
Qed.

Lemma toml_text_app_inv p q : toml_text p -> toml_text (p ++ q) -> toml_text q.
Proof.
  intros (c1 & H1 & ->). induction H1 as [|cp c1 Hcp Hc IH]; [done|].
  intros Ht. apply IH. rewrite fmap_cons in Ht. simpl in Ht. rewrite <- app_assoc in Ht.
  apply toml_text_drop in Ht.
  - by rewrite next_size_encode, drop_app_length in Ht.
  - rewrite next_size_encode by done. apply utf8_encode_nonempty.
Qed.

Lemma toml_text_next q : (0 < next_size q)%nat -> toml_text (take (next_size q) q).
Proof.
  intros Hn. destruct (next_size_decode q Hn) as (cp & rest & Hcp & ->).
  rewrite next_size_encode, take_app_length by done. exists [cp]. simpl.
  by rewrite app_nil_r, Forall_singleton.
Qed.

(** An error at a place where the text before it is fine and no character
    follows. *)
Lemma scan_stop p i k :
  toml_text (take i p) -> next_size (drop i p) = 0%nat -> (1 <= k <= length p - i)%nat ->
  (i < length p)%nat -> scan_result p (U8Err i k).
Proof.
  intros Hpre Hn Hk Hi. right. simpl. split_and!; [lia..| |done|done].
  intros Ht. rewrite <- (take_drop i p) in Ht. apply toml_text_app_inv in Ht; [|done].
  apply toml_text_stuck in Ht; [|done]. apply (f_equal length) in Ht.
  rewrite length_drop in Ht. simpl in Ht. lia.
Qed.

Lemma rune_loop_spec {E} pre p fuel i :
  Forall byte_ok p -> toml_text pre -> (i <= length p)%nat -> (length p < fuel + i)%nat ->
  toml_text (take i p) ->
  exists e, @rune_loop E fuel p (length pre) i = Ret e /\ scan_result (pre ++ p) e.
Proof.
  intros Hb Hpre. revert i. induction fuel as [|fuel IH]; intros i Hi Hf Ht; [lia|].
  destruct (decide (i < length p)%nat) as [Hlt|].
  - destruct (@rune_loop_step E fuel p (length pre) i Hb Hlt)
      as [(Hn & k & Hk & ->)|[Hn ->]].
    + eexists. split; [done|]. apply scan_stop.
      * rewrite take_app_ge by lia. replace (length pre + i - length pre)%nat with i by lia.
        by apply toml_text_app.
      * rewrite drop_app_ge by lia. by replace (length pre + i - length pre)%nat with i by lia.
      * rewrite length_app. lia.
      * rewrite length_app. lia.
    + pose proof (next_size_le (drop i p)) as Hle. rewrite length_drop in Hle.
      apply IH; [lia..|].
      replace (i + next_size (drop i p))%nat with (next_size (drop i p) + i)%nat by lia.
      rewrite (Nat.add_comm _ i), <- take_take_drop. apply toml_text_app; [done|].
      by apply toml_text_next.
  - eexists. cbn [rune_loop]. rewrite (proj2 (Nat.ltb_ge _ _)) by lia. split; [done|].
    left. split; [done|]. rewrite take_ge in Ht by lia. by apply toml_text_app.
Qed.

(** ** The fast path *)

Lemma high_bit c : byte_ok c -> Z.land c 128 = 0 <-> c < 128.
Proof.
  intros Hc. assert (H : Bool.eqb (Z.land c 128 =? 0) (c <? 128) = true).
  { revert c Hc. by apply byte_cases. }
  apply Bool.eqb_prop in H. rewrite <- Z.eqb_eq, H. apply Z.ltb_lt.
Qed.

(** Masking the high bits of four bytes at once. *)
Lemma load32_mask p i :
  Forall byte_ok p -> (i + 4 <= length p)%nat ->
  Z.land (load32 p i) 2155905152 = 0 <-> Forall (fun c => c < 128) (take 4 (drop i p)).
Proof.
  intros Hb Hl. apply (Forall_drop _ i) in Hb.
  assert (Hq : (4 <= length (drop i p))%nat) by (rewrite length_drop; lia).
  unfold load32. rewrite <- !lookup_drop.
  destruct (drop i p) as [|b0 [|b1 [|b2 [|b3 q]]]]; simpl in Hq; [lia..|]. simpl.
  rewrite !Forall_cons in Hb. destruct Hb as (H0 & H1 & H2 & H3 & _).
  rewrite !Z.land_lor_distr_l, !Z.lor_eq_0_iff.
  assert (Hs : forall c n, 0 <= n -> Z.testbit 2155905152 (n + 7) = true ->
            (forall k, 0 <= k < 7 -> Z.testbit 2155905152 (n + k) = false) -> byte_ok c ->
            Z.land (Z.shiftl c n) 2155905152 = Z.shiftl (Z.land c 128) n).
  { intros c n Hn H7 Hk Hc. apply Z.bits_inj'. intros m Hm.
    rewrite Z.land_spec, !Z.shiftl_spec, Z.land_spec by done.
    destruct (decide (m < n)). { by rewrite (Z.testbit_neg_r _ (m - n)) by lia. }
    destruct (decide (8 <= m - n)).
    { rewrite (Z.bits_above_log2 c (m - n)); [done|unfold byte_ok in Hc; lia|].
      unfold byte_ok in Hc. destruct (decide (c = 0)) as [->|]; [simpl; lia|].
      apply Z.log2_lt_pow2; [lia|]. assert (2 ^ 8 <= 2 ^ (m - n)) by (apply Z.pow_le_mono_r; lia). lia. }
    change 128 with (2 ^ 7). destruct (decide (m - n = 7)) as [E7|].
    - replace m with (n + 7) by lia. rewrite H7. replace (n + 7 - n) with 7 by lia. done.
    - rewrite Z.pow2_bits_false by lia. replace m with (n + (m - n)) at 2 by lia.
      rewrite (Hk (m - n)) by lia. done. }
  assert (Hm : forall n, n = 8 \/ n = 16 \/ n = 24 \/ n = 0 -> Z.testbit 2155905152 (n + 7) = true /\
            (forall k, 0 <= k < 7 -> Z.testbit 2155905152 (n + k) = false)).
  { intros n [->|[->|[->| ->]]]; (split; [done|]; intros k Hk;
      assert (k = 0 \/ k = 1 \/ k = 2 \/ k = 3 \/ k = 4 \/ k = 5 \/ k = 6) as Hc by lia;
      destruct_or! Hc; subst k; done). }
  rewrite <- (Z.shiftl_0_r b0) at 1.
  rewrite !Hs; try done; try (apply Hm; lia); try lia.
  rewrite !Z.shiftl_eq_0_iff, !high_bit by (done || lia).
  rewrite !Forall_cons, Forall_nil. tauto.
Qed.

Lemma mask8 p :
  Forall byte_ok p -> (8 <= length p)%nat ->
  Z.land (Z.lor (load32 p 0) (load32 p 4)) 2155905152 = 0 <->
  Forall (fun c => c < 128) (take 8 p).
Proof.
  intros Hb Hl. rewrite Z.land_lor_distr_l, Z.lor_eq_0_iff, !load32_mask by (done || lia).
  rewrite <- Forall_app, drop_0. by rewrite take_take_drop.
Qed.

Lemma ascii_text l :
  Forall byte_ok l -> Forall (fun c => c < 128) l -> Forall (fun c => InvalidAscii c = false) l ->
  toml_text l.
Proof.
  intros Hb Ha Hi. exists l. unfold byte_ok in Hb. split.
  - apply Forall_forall. intros c Hc. rewrite Forall_forall in Hb, Ha, Hi.
    apply toml_char_table. split; [|by apply Hi]. left. specialize (Hb c Hc). specialize (Ha c Hc). simpl in *. lia.
  - induction l as [|c l IH]; [done|]. rewrite !Forall_cons in *. rewrite fmap_cons. simpl.
    unfold utf8_encode at 1. rewrite (proj2 (Z.ltb_lt c 128)) by tauto. simpl.
    f_equal. apply IH; tauto.
Qed.

Lemma first_invalid_None l n :
  first_invalid l n = None -> Forall (fun c => InvalidAscii c = false) l.
Proof.
  revert n. induction l as [|c l IH]; intros n H; [done|]. simpl in H.
  destruct (InvalidAscii c) eqn:Ei; [done|]. constructor; [done|]. by eapply IH.
Qed.

Lemma first_invalid_Some l n i :
  first_invalid l n = Some i ->
  exists k, i = (n + k)%nat /\ Forall (fun c => InvalidAscii c = false) (take k l) /\
            exists c, l !! k = Some c /\ InvalidAscii c = true.
Proof.
  revert n. induction l as [|c l IH]; intros n H; [done|]. simpl in H.
  destruct (InvalidAscii c) eqn:Ei.
  - injection H as <-. exists 0%nat. split_and!; [lia|done|]. eauto.
  - apply IH in H as (k & -> & Hf & Hc). exists (S k). split_and!; [lia| |done].
    by constructor.
Qed.

Lemma next_size_invalid q c : q !! 0%nat = Some c -> InvalidAscii c = true -> next_size q = 0%nat.
Proof.
  destruct q as [|c' q]; [done|]. intros [= ->] Hi. unfold next_size. rewrite Hi.
  destruct (decide (128 <= c)) as [Hc|Hc]; [by rewrite InvalidAscii_high in Hi|].
  assert (0 <= c). { revert Hi. unfold InvalidAscii. split_cmp. }
  unfold between. by rewrite (proj2 (Z.leb_le 0 c)), (proj2 (Z.leb_le c 127)) by lia.
Qed.

(** The loop over eight bytes reports an error of the whole string, or skips
    a text. *)
Lemma ascii_loop_spec fuel pre p :
  Forall byte_ok p -> toml_text pre ->
  match ascii_loop fuel p (length pre) with
  | inl e => scan_result (pre ++ p) e
  | inr (p', offset) =>
      exists pre', toml_text pre' /\ length pre' = offset /\ pre ++ p = pre' ++ p'
  end.
Proof.
  revert pre p. induction fuel as [|fuel IH]; intros pre p Hb Hpre; cbn [ascii_loop]; [by eauto|].
  destruct (Nat.leb_spec 8 (length p)) as [Hl|]; [|by eauto].
  destruct (Z.eqb_spec (Z.land (Z.lor (load32 p 0) (load32 p 4)) 2155905152) 0) as [Hm|];
    cbn [negb]; [|by eauto].
  apply mask8 in Hm; [|done..].
  assert (Hb8 : Forall byte_ok (take 8 p)) by by apply Forall_take.
  destruct (first_invalid (take 8 p) 0) as [i|] eqn:Ef.
  - apply first_invalid_Some in Ef as (k & -> & Hf & c & Hc & Hi). simpl.
    assert (Hk : (k < 8)%nat). { apply lookup_lt_Some in Hc. rewrite length_take in Hc. lia. }
    rewrite take_take, Nat.min_l in Hf by lia. rewrite lookup_take_lt in Hc by done.
    assert (E1 : (length pre + k - length pre)%nat = k) by lia.
    apply scan_stop; rewrite ?length_app; [| |lia..].
    + rewrite take_app_ge, E1 by lia. apply toml_text_app; [done|].
      apply ascii_text; [by apply Forall_take| |done].
      apply (Forall_take _ k) in Hm. rewrite take_take, Nat.min_l in Hm by lia. done.
    + rewrite drop_app_ge, E1 by lia. eapply next_size_invalid; [|done].
      rewrite lookup_drop. by rewrite Nat.add_0_r.
  - apply first_invalid_None in Ef.
    assert (Ht : toml_text (pre ++ take 8 p)) by (apply toml_text_app; [done|by apply ascii_text]).
    specialize (IH (pre ++ take 8 p) (drop 8 p)). rewrite length_app, length_take in IH.
    rewrite Nat.min_l in IH by lia. rewrite <- app_assoc, take_drop in IH.
    apply IH; [by apply Forall_drop|done].
Qed.

Lemma Utf8TomlValid_scan {E} p :
  Forall byte_ok p -> exists e, @Utf8TomlValidAlreadyEscaped E p = Ret e /\ scan_result p e.
Proof.
  intros Hb. unfold Utf8TomlValidAlreadyEscaped.
  pose proof (ascii_loop_spec (length p) [] p Hb toml_text_nil) as Ha. simpl in Ha.
  destruct (ascii_loop (length p) p 0) as [e|[p' offset]]; [by eexists; split|].
  destruct Ha as (pre & Hpre & <- & ->). apply Forall_app in Hb as [_ Hb].
  apply rune_loop_spec; try done; [lia..|]. by apply toml_text_nil.
Qed.

(** ** Claims *)

(** on a non-empty byte string [Utf8ValidNext] does not panic; it returns
    the length of the UTF-8 encoding of the character the string starts with
    when that character is a Unicode scalar value TOML allows, and 0 when the
    string does not start with the encoding of such a character. *)
Theorem Utf8ValidNext_spec {E} (p : list Z) :
  Forall byte_ok p -> p <> [] ->
  exists n, @Utf8ValidNext E p = Ret n /\ (n <= length p)%nat /\
    ((0 < n)%nat -> exists cp, toml_char cp /\ take n p = utf8_encode cp) /\
    (forall cp rest, toml_char cp -> p = utf8_encode cp ++ rest ->
       n = length (utf8_encode cp) /\ (0 < n)%nat).
Proof.
  intros Hb Hp. exists (next_size p). split_and!.
  - by apply Utf8ValidNext_next_size.
  - apply next_size_le.
  - intros Hn. destruct (next_size_decode p Hn) as (cp & rest & Hcp & ->).
    exists cp. rewrite next_size_encode, take_app_length by done. done.
  - intros cp rest Hcp ->. rewrite next_size_encode by done.
    split; [done|apply utf8_encode_nonempty].
Qed.

Lemma Utf8ValidNext_spec_witness :
  exists n, @Utf8ValidNext unit [228; 184; 173; 33] = Ret n /\ n = 3%nat.
Proof.
  destruct (@Utf8ValidNext_spec unit [228; 184; 173; 33]) as (n & H & _).
  - repeat constructor; unfold byte_ok; lia.
  - done.
  - exists n. split; [done|]. vm_compute in H. by injection H.
Defined.

(** C39: the scan with the eight-byte fast path is the specification: for every
    byte string [Utf8TomlValidAlreadyEscaped] terminates without a panic; the
    error is zero exactly when the string is a sequence of UTF-8 encoded
    characters that TOML allows in a multi-line string (every scalar value but
    the control characters other than tab, line feed and carriage return), and
    otherwise it designates a non-empty range inside the string, preceded by
    allowed characters only, at which no allowed character starts.  The comment
    of the function counts line feed and carriage return among the invalid
    characters; the table it uses, and this theorem, do not. *)
Theorem Utf8TomlValidAlreadyEscaped_spec {E} (p : list Z) :
  Forall byte_ok p ->
  exists e, @Utf8TomlValidAlreadyEscaped E p = Ret e /\
    (Zero e = true <-> toml_text p) /\
    (Zero e = false ->
       (Index e + Size e <= length p)%nat /\ toml_text (take (Index e) p) /\
       forall cp rest, toml_char cp -> drop (Index e) p <> utf8_encode cp ++ rest).
Proof.
  intros Hb. unfold Zero. pose proof (@Utf8TomlValid_scan E p Hb) as H.
  destruct H as (e & He & Hs). exists e. split; [exact He|].
  rewrite Nat.eqb_eq, Nat.eqb_neq.
  destruct Hs as [[H0 Ht]|(H0 & Hl & Hn & Ht & Hd)].
  - split; [done|]. lia.
  - split; [split; [lia|done]|]. intros _. split_and!; [done..|].
    intros cp rest Hcp Heq. rewrite Heq, next_size_encode in Hd by done.
    pose proof (utf8_encode_nonempty cp). lia.
Qed.

Lemma Utf8TomlValidAlreadyEscaped_spec_witness :
  exists e, @Utf8TomlValidAlreadyEscaped unit [97; 98; 99; 100; 101; 102; 103; 104; 1] = Ret e /\
    Zero e = false /\ Index e = 8%nat.
Proof.
  destruct (@Utf8TomlValidAlreadyEscaped_spec unit [97; 98; 99; 100; 101; 102; 103; 104; 1])
    as (e & H & _).
  - repeat constructor; unfold byte_ok; lia.
  - exists e. split; [done|]. vm_compute in H. by injection H as <-.
Defined.
End TomlChars.
