(* ===== verification/TomlScan.v ===== *)
(** * The scanner of TOML documents ([src/utoml/unstable/scanner.go])

    The functions that cut one token off the front of a slice of the document,
    and the errors they report. Each loop runs on a fuel that its caller sets to
    the length of the slice, which bounds the number of its turns. *)
From stdpp Require Import base numbers list gmap strings.
From S2P Require Import Prelude TomlChars.
#[local] Open Scope Z_scope.

Module TomlScan.
Import TomlChars.

(** ** Errors *)

(** [ParserError]. The message is kept as the format with its arguments; the
    text of a wrapped error ([%w]) is not part of the model. *)
Record ParserError := PErr {
  Highlight : slice;
  Message : string * list Z;
  EKey : list (list Z)
}.

Definition NewParserError (highlight : slice) (format : string) (args : list Z) : ParserError :=
  PErr highlight (format, args) [].

(** Return an error. *)
Definition fail {A} (highlight : slice) (format : string) (args : list Z) : go ParserError A :=
  Fail (NewParserError highlight format args).

Definition dq : string := String (Ascii.ascii_of_nat 34) EmptyString.
Definition dq3 : string := (dq +:+ dq +:+ dq)%string.

(** ** Prefix tests *)

Definition scanFollows (b : slice) (pattern : string) : bool :=
  let n := length (bs pattern) in
  (n <=? slen b)%nat && bool_decide (take n (dat b) = bs pattern).

Definition scanFollowsMultilineBasicStringDelimiter (b : slice) : bool := scanFollows b dq3.
Definition scanFollowsMultilineLiteralStringDelimiter (b : slice) : bool := scanFollows b "'''".
Definition scanFollowsTrue (b : slice) : bool := scanFollows b "true".
Definition scanFollowsFalse (b : slice) : bool := scanFollows b "false".
Definition scanFollowsInf (b : slice) : bool := scanFollows b "inf".
Definition scanFollowsNan (b : slice) : bool := scanFollows b "nan".

(** ** Unquoted keys, white space *)

(** [A-Z a-z 0-9 - _] *)
Definition isUnquotedKeyChar (r : Z) : bool :=
  ((65 <=? r) && (r <=? 90)) || ((97 <=? r) && (r <=? 122)) ||
  ((48 <=? r) && (r <=? 57)) || (r =? 45) || (r =? 95).

(** A loop [for i := 0; i < len(b); i++] that returns [b[:i], b[i:]] at the
    first byte that is not in a class, and [b, b[len(b):]] at the end. *)
Fixpoint scan_class (ok : Z -> bool) (fuel : nat) (b : slice) (i : nat)
    : go ParserError (slice * slice) :=
  match fuel with
  | O => OutOfFuel
  | S fuel' =>
      if (i <? slen b)%nat then
        c ← s_at b i;
        if negb (ok c) then
          t ← s_to b i; r ← s_from b i; mret (t, r)
        else scan_class ok fuel' b (i + 1)
      else r ← s_from b (slen b); mret (b, r)
  end.

Definition scanUnquotedKey (b : slice) : go ParserError (slice * slice) :=
  scan_class isUnquotedKeyChar (S (slen b)) b 0.

Definition isWhitespace (c : Z) : bool := (c =? 32) || (c =? 9).

Definition scanWhitespace (b : slice) : go ParserError (slice * slice) :=
  scan_class isWhitespace (S (slen b)) b 0.

(** ** Literal strings *)

Fixpoint scanLiteralString_loop (fuel : nat) (b : slice) (i : nat)
    : go ParserError (slice * slice) :=
  match fuel with
  | O => OutOfFuel
  | S fuel' =>
      if (i <? slen b)%nat then
        c ← s_at b i;
        if c =? 39 then
          t ← s_to b (i + 1); r ← s_from b (i + 1); mret (t, r)
        else if (c =? 10) || (c =? 13) then
          h ← s_sub b i (i + 1); fail h "literal strings cannot have new lines" []
        else
          q ← s_from b i;
          size ← Utf8ValidNext (dat q);
          if (size =? 0)%nat then h ← s_sub b i (i + 1); fail h "invalid character" []
          else scanLiteralString_loop fuel' b (i + size)
      else h ← s_from b (slen b); fail h "unterminated literal string" []
  end.

Definition scanLiteralString (b : slice) : go ParserError (slice * slice) :=
  scanLiteralString_loop (S (slen b)) b 1.

(** The end of a multi-line string: [i] is the index of the byte after three
    quotes [q]; up to two more belong to the string. *)
Definition scan_ml_end (q : Z) (format : string) (b : slice) (i : nat)
    : go ParserError (slice * slice) :=
  let more i := if (slen b <=? i)%nat then mret false else c ← s_at b i; mret (c =? q) in
  m1 ← more i;
  if negb m1 then t ← s_to b i; r ← s_from b i; mret (t, r)
  else
    m2 ← more (i + 1)%nat;
    if negb m2 then t ← s_to b (i + 1); r ← s_from b (i + 1); mret (t, r)
    else
      m3 ← more (i + 2)%nat;
      if (m3 : bool) then h ← s_sub b (i + 2 - 3) (i + 2 + 1); fail h format []
      else t ← s_to b (i + 2); r ← s_from b (i + 2); mret (t, r).

Fixpoint scanMultilineLiteralString_loop (fuel : nat) (b : slice) (i : nat)
    : go ParserError (slice * slice) :=
  match fuel with
  | O => OutOfFuel
  | S fuel' =>
      let next :=
        q ← s_from b i;
        size ← Utf8ValidNext (dat q);
        if (size =? 0)%nat then h ← s_sub b i (i + 1); fail h "invalid character" []
        else scanMultilineLiteralString_loop fuel' b (i + size) in
      if (i <? slen b)%nat then
        c ← s_at b i;
        if c =? 39 then
          q ← s_from b i;
          if scanFollowsMultilineLiteralStringDelimiter q then
            scan_ml_end 39 "''' not allowed in multiline literal string" b (i + 3)
          else next
        else if c =? 13 then
          if (slen b <? i + 2)%nat then
            h ← s_from b (slen b); fail h "need a \n after \r" []
          else
            c1 ← s_at b (i + 1);
            if negb (c1 =? 10) then
              h ← s_sub b i (i + 2); fail h "need a \n after \r" []
            else scanMultilineLiteralString_loop fuel' b (i + 2)
        else next
      else h ← s_from b (slen b); fail h "multiline literal string not terminated by '''" []
  end.

Definition scanMultilineLiteralString (b : slice) : go ParserError (slice * slice) :=
  scanMultilineLiteralString_loop (S (slen b)) b 3.

(** ** New lines and comments *)

Definition scanWindowsNewline (b : slice) : go ParserError (slice * slice) :=
  if (slen b <? 2)%nat then fail b "windows new line expected" []
  else
    c1 ← s_at b 1;
    if negb (c1 =? 10) then fail b "windows new line should be \r\n" []
    else t ← s_to b 2; r ← s_from b 2; mret (t, r).

Fixpoint scanComment_loop (fuel : nat) (b : slice) (i : nat)
    : go ParserError (slice * slice) :=
  match fuel with
  | O => OutOfFuel
  | S fuel' =>
      if (i <? slen b)%nat then
        c ← s_at b i;
        if c =? 10 then t ← s_to b i; r ← s_from b i; mret (t, r)
        else if c =? 13 then
          lf ← (if (i + 1 <? slen b)%nat then c1 ← s_at b (i + 1); mret (c1 =? 10) else mret false);
          if (lf : bool) then t ← s_to b (i + 1); r ← s_from b (i + 1); mret (t, r)
          else h ← s_sub b i (i + 1); fail h "invalid character in comment" []
        else
          q ← s_from b i;
          size ← Utf8ValidNext (dat q);
          if (size =? 0)%nat then
            h ← s_sub b i (i + 1); fail h "invalid character in comment" []
          else scanComment_loop fuel' b (i + size)
      else r ← s_from b (slen b); mret (b, r)
  end.

Definition scanComment (b : slice) : go ParserError (slice * slice) :=
  scanComment_loop (S (slen b)) b 1.

(** ** Basic strings *)

Fixpoint scanBasicString_loop (fuel : nat) (b : slice) (escaped : bool) (i : nat)
    : go ParserError (slice * bool * slice) :=
  match fuel with
  | O => OutOfFuel
  | S fuel' =>
      if (i <? slen b)%nat then
        c ← s_at b i;
        if c =? 34 then
          t ← s_to b (i + 1); r ← s_from b (i + 1); mret (t, escaped, r)
        else if (c =? 10) || (c =? 13) then
          h ← s_sub b i (i + 1); fail h "basic strings cannot have new lines" []
        else if c =? 92 then
          if (slen b <? i + 2)%nat then
            h ← s_sub b i (i + 1); fail h "need a character after \" []
          else scanBasicString_loop fuel' b true (i + 2)
        else scanBasicString_loop fuel' b escaped (i + 1)
      else h ← s_from b (slen b); fail h ("basic string not terminated by " +:+ dq) []
  end.

Definition scanBasicString (b : slice) : go ParserError (slice * bool * slice) :=
  scanBasicString_loop (S (slen b)) b false 1.

Fixpoint scanMultilineBasicString_loop (fuel : nat) (b : slice) (escaped : bool) (i : nat)
    : go ParserError (slice * bool * slice) :=
  match fuel with
  | O => OutOfFuel
  | S fuel' =>
      if (i <? slen b)%nat then
        c ← s_at b i;
        if c =? 34 then
          q ← s_from b i;
          if scanFollowsMultilineBasicStringDelimiter q then
            tr ← scan_ml_end 34 (dq3 +:+ " not allowed in multiline basic string") b (i + 3);
            let '(t, r) := (tr : slice * slice) in mret (t, escaped, r)
          else scanMultilineBasicString_loop fuel' b escaped (i + 1)
        else if c =? 92 then
          if (slen b <? i + 2)%nat then
            h ← s_from b (slen b); fail h "need a character after \" []
          else scanMultilineBasicString_loop fuel' b true (i + 2)
        else if c =? 13 then
          if (slen b <? i + 2)%nat then
            h ← s_from b (slen b); fail h "need a \n after \r" []
          else
            c1 ← s_at b (i + 1);
            if negb (c1 =? 10) then
              h ← s_sub b i (i + 2); fail h "need a \n after \r" []
            else scanMultilineBasicString_loop fuel' b escaped (i + 2)
        else scanMultilineBasicString_loop fuel' b escaped (i + 1)
      else h ← s_from b (slen b);
        fail h ("multiline basic string not terminated by " +:+ dq3) []
  end.

Definition scanMultilineBasicString (b : slice) : go ParserError (slice * bool * slice) :=
  scanMultilineBasicString_loop (S (slen b)) b false 3.

(** ** Cutting a token off a slice *)

(** [t] is a front part of [b] and [r] is the rest. *)
Definition cut (b t r : slice) : Prop :=
  dat b = dat t ++ dat r /\ off t = off b /\ off r = (off b + slen t)%nat.

Lemma cut_at b i :
  (i <= slen b)%nat ->
  cut b (Sl (off b) (take i (dat b))) (Sl (off b + i) (drop i (dat b))).
Proof. intros Hi. unfold cut. simpl. rewrite take_drop, length_take. split_and!; [done..|lia]. Qed.

Lemma cut_all b : cut b b (Sl (off b + slen b) (drop (slen b) (dat b))).
Proof. unfold cut. simpl. rewrite drop_all, app_nil_r. done. Qed.

Lemma cut_sub b t r : cut b t r -> sub t b /\ sub r b.
Proof.
  intros (E & Ot & Or). split.
  - exists [], (dat r). rewrite E. simpl. split; [done|lia].
  - exists (dat t), []. rewrite E, app_nil_r. done.
Qed.

Lemma cut_len b t r : cut b t r -> slen b = (slen t + slen r)%nat.
Proof. intros (-> & _). apply length_app. Qed.

(** Errors point into the slice that was scanned. *)
Definition points_into (b : slice) (e : ParserError) : Prop := sub (Highlight e) b.

#[export] Hint Resolve cut_at cut_all : slices.
#[export] Hint Unfold points_into : slices.

Lemma spec_utf8_bind {B} (b : list Z) (k : nat -> go ParserError B) Q R :
  Forall byte_ok b -> (0 < length b)%nat ->
  ((next_size b <= length b)%nat -> spec (k (next_size b)) Q R) ->
  spec (Utf8ValidNext b ≫= k) Q R.
Proof.
  intros Hb Hl Hk. rewrite Utf8ValidNext_next_size; [|done|by destruct b; simpl in Hl; [lia|]].
  apply Hk, next_size_le.
Qed.

Lemma spec_fail {A} h format args b (Q : A -> Prop) :
  sub h b -> spec (fail h format args) Q (points_into b).
Proof. done. Qed.

Lemma spec_fail_R {A} h format args (Q : A -> Prop) R :
  R (NewParserError h format args) -> spec (fail h format args) Q R.
Proof. done. Qed.

Lemma points_into_new h format args b : sub h b -> points_into b (NewParserError h format args).
Proof. done. Qed.
#[export] Hint Resolve points_into_new : slices.

Lemma spec_follows_bytes b pattern :
  scanFollows b pattern = true -> take (length (bs pattern)) (dat b) = bs pattern /\
  (length (bs pattern) <= slen b)%nat.
Proof.
  unfold scanFollows. rewrite andb_true_iff, bool_decide_eq_true. intros [H1 H2].
  split; [done|lia].
Qed.

Ltac scan_step :=
  lazymatch goal with
  | |- spec (Utf8ValidNext _ ≫= _) _ _ =>
      apply spec_utf8_bind; [by apply Forall_drop|go_lia|intros ?]
  | |- spec (fail _ _ _) _ _ =>
      apply spec_fail_R; cbv beta; eauto with slices
  | _ => go_step
  end.

(** ** Every scan returns, and cuts a token *)

Lemma scan_class_safe ok fuel b i :
  (i <= slen b)%nat -> (slen b < fuel + i)%nat -> Forall (fun c => ok c = true) (take i (dat b)) ->
  spec (scan_class ok fuel b i)
    (fun '(t, r) => cut b t r /\ Forall (fun c => ok c = true) (dat t) /\
       forall c, head (dat r) = Some c -> ok c = false) (points_into b).
Proof.
  revert i. induction fuel as [|fuel IH]; intros i Hi Hf Hp; [lia|]. simpl.
  repeat scan_step.
  - split_and!; [by apply cut_at|done|]. simpl. intros c0. rewrite (drop_S _ _ _ Hc).
    intros [= <-]. by apply negb_true_iff.
  - apply IH; [lia..|]. rewrite <- take_take_drop, Forall_app. split; [done|].
    rewrite (drop_S _ _ _ Hc). simpl. constructor; [|done]. by apply negb_false_iff.
  - split_and!; [apply cut_all| |by simpl; rewrite drop_all]. by rewrite take_ge in Hp by lia.
Qed.

(** The part of a slice between two places. *)
Definition part (b : slice) (i j : nat) : list Z := take (j - i) (drop i (dat b)).

Lemma part_nil b i : part b i i = [].
Proof. unfold part. by rewrite Nat.sub_diag. Qed.

Lemma part_app b i j k :
  (i <= j)%nat -> (j <= k)%nat -> part b i k = part b i j ++ part b j k.
Proof.
  intros H1 H2. unfold part.
  replace (k - i)%nat with ((j - i) + (k - j))%nat by lia.
  rewrite <- take_take_drop, drop_drop. by replace (i + (j - i))%nat with j by lia.
Qed.

Lemma part_S b i c : dat b !! i = Some c -> part b i (i + 1) = [c].
Proof.
  intros Hc. unfold part. replace (i + 1 - i)%nat with 1%nat by lia.
  by rewrite (drop_S _ _ _ Hc).
Qed.

Lemma part_take b i j : (i <= j)%nat -> take j (dat b) = take i (dat b) ++ part b i j.
Proof.
  intros H. unfold part. rewrite take_take_drop. f_equal. lia.
Qed.

Lemma part_next b i :
  part b i (i + next_size (drop i (dat b))) = take (next_size (drop i (dat b))) (drop i (dat b)).
Proof. unfold part. f_equal. lia. Qed.

(** The bytes of one character: a single ASCII byte, or bytes from 128 on. *)
Lemma utf8_encode_bytes cp :
  scalar cp -> utf8_encode cp = [cp] /\ 0 <= cp < 128 \/ Forall (fun c => 128 <= c) (utf8_encode cp).
Proof.
  intros Hs. unfold scalar in Hs. unfold utf8_encode.
  destruct (Z.ltb_spec cp 128); [left; split; [done|lia]|right].
  destruct (Z.ltb_spec cp 2048), (Z.ltb_spec cp 65536); repeat constructor; try lia;
    Z.to_euclidean_division_equations; lia.
Qed.

Lemma next_bytes q c (P : Z -> Prop) :
  (0 < next_size q)%nat -> head q = Some c -> P c -> (forall d, 128 <= d -> P d) ->
  Forall P (take (next_size q) q).
Proof.
  intros Hn Hq Hc HP. destruct (next_size_decode q Hn) as (cp & rest & Hcp & ->).
  rewrite next_size_encode, take_app_length by done.
  destruct (utf8_encode_bytes cp) as [[E _]|E]; [by destruct Hcp| |].
  - rewrite E in *. simpl in Hq. injection Hq as ->. by constructor.
  - by eapply Forall_impl.
Qed.

(** The contents of a literal string: allowed characters, no apostrophe and no
    new line. *)
Definition literal_body (body : list Z) : Prop :=
  toml_text body /\ Forall (fun c => c <> 39 /\ c <> 10 /\ c <> 13) body.

Lemma literal_body_next body q c :
  literal_body body -> (0 < next_size q)%nat -> head q = Some c ->
  c <> 39 -> c <> 10 -> c <> 13 -> literal_body (body ++ take (next_size q) q).
Proof.
  intros [Ht Hf] Hn Hq H1 H2 H3. split.
  - apply toml_text_app; [done|]. by apply toml_text_next.
  - apply Forall_app. split; [done|]. eapply next_bytes; [done|done|done|lia].
Qed.

Lemma scanLiteralString_safe fuel b i :
  Forall byte_ok (dat b) -> (1 <= i <= slen b)%nat -> (slen b < fuel + i)%nat ->
  literal_body (part b 1 i) ->
  spec (scanLiteralString_loop fuel b i)
    (fun '(t, r) => cut b t r /\
       exists body, literal_body body /\ dat t = take 1 (dat b) ++ body ++ [39]) (points_into b).
Proof.
  intros Hb. revert i. induction fuel as [|fuel IH]; intros i Hi Hf Hbody; [lia|]. simpl.
  repeat scan_step.
  - split; [apply cut_at; lia|]. exists (part b 1 i). split; [done|]. simpl.
    rewrite (part_take b 1) by lia. rewrite (part_app b 1 i) by lia.
    rewrite (part_S b i c Hc). repeat f_equal. lia.
  - apply IH; [go_lia..|]. rewrite (part_app b 1 i), part_next by lia.
    apply literal_body_next with c; [done|simpl in *; lia| |lia..].
    by rewrite (drop_S _ _ _ Hc).
Qed.

Lemma toml_text_ascii l : Forall (fun c => 0 <= c < 128 /\ InvalidAscii c = false) l -> toml_text l.
Proof.
  intros H. apply ascii_text; eapply Forall_impl; try done; simpl; unfold byte_ok; tauto || lia.
Qed.

Lemma lookup_part b i j c : (j <= i)%nat -> dat b !! i = Some c -> part b j (i + 1) = part b j i ++ [c].
Proof. intros H Hc. rewrite (part_app b j i) by lia. by rewrite (part_S b i c). Qed.

(** What follows three quotes at the end of a multi-line string. *)
Lemma scan_ml_end_safe q format b i :
  (3 <= i <= slen b)%nat ->
  spec (scan_ml_end q format b i)
    (fun '(t, r) => cut b t r /\ exists k, (k <= 2)%nat /\ dat t = take i (dat b) ++ replicate k q)
    (points_into b).
Proof.
  intros Hi. unfold scan_ml_end.
  assert (Hm : forall j, spec (E:=ParserError)
    (if (slen b <=? j)%nat then mret false else c ← s_at b j; mret (c =? q))
    (fun m => m = true -> dat b !! j = Some q) (points_into b)).
  { intros j. repeat scan_step; [done|]. intros ->%Z.eqb_eq. done. }
  eapply spec_bind; [apply Hm|]. intros m1 H1. simpl. repeat scan_step.
  { split; [apply cut_at; lia|]. exists 0%nat. simpl. rewrite app_nil_r. split; [lia|done]. }
  eapply spec_bind; [apply Hm|]. intros m2 H2. destruct m1; [|done]. specialize (H1 eq_refl).
  pose proof (lookup_lt_Some _ _ _ H1).
  destruct m2; simpl negb; cbv iota.
  2:{ repeat scan_step. split; [apply cut_at; lia|]. exists 1%nat. split; [lia|]. simpl.
      by rewrite (part_take b i), (part_S b i q) by (done || lia). }
  specialize (H2 eq_refl). pose proof (lookup_lt_Some _ _ _ H2).
  eapply spec_bind; [apply Hm|]. intros m3 H3. destruct m3; repeat scan_step.
  { specialize (H3 eq_refl). apply lookup_lt_Some in H3. lia. }
  split; [apply cut_at; lia|]. exists 2%nat. split; [lia|]. simpl.
  rewrite (part_take b i), (part_app b i (i + 1)) by lia. rewrite (part_S b i q) by done.
  replace (i + 2)%nat with (i + 1 + 1)%nat by lia. by rewrite (part_S b (i + 1) q).
Qed.

Lemma follows_part b i p :
  scanFollows (Sl (off b + i) (drop i (dat b))) p = true ->
  part b i (i + length (bs p)) = bs p /\ (i + length (bs p) <= slen b \/ bs p = [])%nat.
Proof.
  intros [H1 H2]%spec_follows_bytes. simpl in *. rewrite length_drop in H2. unfold part.
  replace (i + length (bs p) - i)%nat with (length (bs p)) by lia.
  split; [done|]. destruct (bs p); [by right|left; simpl in *; lia].
Qed.

(** The token of a multi-line string, at the closing quotes. *)
Lemma ml_token b i k q :
  (3 <= i)%nat -> part b i (i + 3) = [q; q; q] ->
  take (i + 3) (dat b) ++ replicate k q = take 3 (dat b) ++ (part b 3 i ++ replicate k q) ++ [q; q; q].
Proof.
  intros Hi Hq. rewrite (part_take b 3), (part_app b 3 i), Hq by lia.
  rewrite <- !app_assoc. do 2 f_equal.
  change [q; q; q] with (replicate 3 q). rewrite <- !replicate_add. f_equal. lia.
Qed.

Lemma toml_text_replicate k c : 0 <= c < 128 -> InvalidAscii c = false -> toml_text (replicate k c).
Proof. intros H1 H2. apply toml_text_ascii. by apply Forall_replicate. Qed.

Lemma toml_text_step b i j :
  (j <= i)%nat -> toml_text (part b j i) -> (0 < next_size (drop i (dat b)))%nat ->
  toml_text (part b j (i + next_size (drop i (dat b)))).
Proof.
  intros Hj Ht Hn. rewrite (part_app b j i), part_next by lia.
  apply toml_text_app; [done|]. by apply toml_text_next.
Qed.

Lemma toml_text_crlf b i j :
  (j <= i)%nat -> toml_text (part b j i) -> dat b !! i = Some 13 -> dat b !! (i + 1)%nat = Some 10 ->
  toml_text (part b j (i + 2)).
Proof.
  intros Hj Ht H1 H2. replace (i + 2)%nat with (i + 1 + 1)%nat by lia.
  rewrite (lookup_part b (i + 1) j 10), (lookup_part b i j 13) by (done || lia).
  rewrite <- app_assoc. apply toml_text_app; [done|]. apply toml_text_ascii.
  repeat constructor; lia.
Qed.

Definition quotes_end (q : Z) (b t : slice) : Prop :=
  exists body, toml_text body /\ dat t = take 3 (dat b) ++ body ++ [q; q; q].

Lemma scanMultilineLiteralString_safe fuel b i :
  Forall byte_ok (dat b) -> (3 <= i <= slen b)%nat -> (slen b < fuel + i)%nat ->
  toml_text (part b 3 i) ->
  spec (scanMultilineLiteralString_loop fuel b i)
    (fun '(t, r) => cut b t r /\ quotes_end 39 b t) (points_into b).
Proof.
  intros Hb. revert i. induction fuel as [|fuel IH]; intros i Hi Hf Ht; [lia|]. simpl.
  repeat scan_step;
    try (apply IH; [go_lia..|apply toml_text_step; simpl in *; [lia|done|lia]]).
  - apply follows_part in Heqb2 as [Hp Hl]. change (length (bs "'''")) with 3%nat in *.
    change (bs "'''") with [39; 39; 39] in *.
    eapply spec_mono; [apply scan_ml_end_safe; destruct Hl; [lia|done]| |done].
    intros [t r] [Hcut (k & Hk & E)]. split; [done|].
    exists (part b 3 i ++ replicate k 39). split.
    + apply toml_text_app; [done|]. apply toml_text_replicate; [lia|done].
    + rewrite E. apply ml_token; [lia|done].
  - apply IH; [lia..|]. apply toml_text_crlf; [lia|done| |].
    + rewrite Hc. f_equal. lia.
    + rewrite Hc0. f_equal. lia.
Qed.

(** A comment: allowed characters without a line feed; a carriage return only at
    its end, before a line feed. What follows is a line feed or nothing. *)
Definition comment_body (body : list Z) : Prop :=
  toml_text body /\ Forall (fun c => c <> 10) body.

Lemma comment_body_next body q c :
  comment_body body -> (0 < next_size q)%nat -> head q = Some c -> c <> 10 ->
  comment_body (body ++ take (next_size q) q).
Proof.
  intros [Ht Hf] Hn Hq H1. split.
  - apply toml_text_app; [done|]. by apply toml_text_next.
  - apply Forall_app. split; [done|]. eapply next_bytes; [done|done|done|lia].
Qed.

Lemma scanComment_safe fuel b i :
  Forall byte_ok (dat b) -> (1 <= i <= slen b)%nat -> (slen b < fuel + i)%nat ->
  comment_body (part b 1 i) ->
  spec (scanComment_loop fuel b i)
    (fun '(t, r) => cut b t r /\ (dat r = [] \/ head (dat r) = Some 10) /\
       exists body, comment_body body /\ dat t = take 1 (dat b) ++ body) (points_into b).
Proof.
  intros Hb. revert i. induction fuel as [|fuel IH]; intros i Hi Hf Hbody; [lia|]. simpl.
  repeat scan_step.
  - split_and!; [apply cut_at; lia| |].
    + right. simpl. rewrite (drop_S _ _ _ Hc). simpl. f_equal. lia.
    + exists (part b 1 i). split; [done|]. simpl. apply part_take. lia.
  - eapply (spec_bind _ _ (fun lf => lf = true -> dat b !! (i + 1)%nat = Some 10)).
    { repeat scan_step; [|done]. intros ->%Z.eqb_eq. done. }
    intros lf Hlf. repeat scan_step. specialize (Hlf eq_refl).
    pose proof (lookup_lt_Some _ _ _ Hlf). split_and!; [apply cut_at; lia| |].
    + right. simpl. by rewrite (drop_S _ _ _ Hlf).
    + exists (part b 1 (i + 1)). split; [|simpl; apply part_take; lia].
      rewrite (lookup_part b i 1 13); [|lia|by rewrite Hc; f_equal; lia].
      destruct Hbody as [Ht Hl]. split.
      * apply toml_text_app; [done|]. apply toml_text_ascii. repeat constructor; lia.
      * apply Forall_app. split; [done|]. by constructor.
  - apply IH; [go_lia..|]. rewrite (part_app b 1 i), part_next by lia.
    apply comment_body_next with c; [done|simpl in *; lia| |lia].
    by rewrite (drop_S _ _ _ Hc).
  - split_and!; [apply cut_all|left; simpl; apply drop_all|]. exists (part b 1 i).
    split; [done|]. rewrite <- (part_take b 1 i) by lia. by rewrite take_ge by lia.
Qed.

(** The contents of a basic string as the scanner sees them: bytes other than
    the quote, the backslash and new lines, and pairs of a backslash and a byte;
    the flag tells whether there is such a pair. *)
Inductive basic_units : list Z -> bool -> Prop :=
| bu_nil : basic_units [] false
| bu_plain body e c :
    basic_units body e -> c <> 34 -> c <> 92 -> c <> 10 -> c <> 13 -> basic_units (c :: body) e
| bu_escape body e c : basic_units body e -> basic_units (92 :: c :: body) true.

Lemma basic_units_app l1 e1 l2 e2 :
  basic_units l1 e1 -> basic_units l2 e2 -> basic_units (l1 ++ l2) (e1 || e2).
Proof.
  intros H1 H2. induction H1; simpl; [done|by constructor|by econstructor].
Qed.

Lemma lookup_part2 b i j c d :
  (j <= i)%nat -> dat b !! i = Some c -> dat b !! (i + 1)%nat = Some d ->
  part b j (i + 2) = part b j i ++ [c; d].
Proof.
  intros Hj Hc Hd. replace (i + 2)%nat with (i + 1 + 1)%nat by lia.
  rewrite (lookup_part b (i + 1) j d), (lookup_part b i j c) by (done || lia).
  by rewrite <- app_assoc.
Qed.

Lemma scanBasicString_safe fuel b e i :
  (1 <= i <= slen b)%nat -> (slen b < fuel + i)%nat -> basic_units (part b 1 i) e ->
  spec (scanBasicString_loop fuel b e i)
    (fun '(t, e', r) => cut b t r /\
       exists body, basic_units body e' /\ dat t = take 1 (dat b) ++ body ++ [34]) (points_into b).
Proof.
  revert e i. induction fuel as [|fuel IH]; intros e i Hi Hf Hbody; [lia|]. simpl.
  repeat scan_step.
  - split; [apply cut_at; lia|]. exists (part b 1 i). split; [done|]. simpl.
    rewrite (part_take b 1) by lia. rewrite (lookup_part b i 1 34); [done|lia|].
    rewrite Hc. f_equal. lia.
  - destruct (lookup_lt_is_Some_2 (dat b) (i + 1)) as [d Hd]; [lia|].
    apply IH; [lia..|]. rewrite (lookup_part2 b i 1 92 d); [|lia| |done].
    + replace true with (e || true) by apply orb_true_r.
      apply basic_units_app; [done|]. apply (bu_escape [] false), bu_nil.
    + rewrite Hc. f_equal. lia.
  - apply IH; [lia..|]. rewrite (lookup_part b i 1 c) by (done || lia).
    replace e with (e || false) by apply orb_false_r.
    apply basic_units_app; [done|]. repeat constructor; lia.
Qed.

(** The contents of a multi-line basic string as the scanner sees them. *)
Definition ml_basic_end (b t : slice) : Prop :=
  exists body, dat t = take 3 (dat b) ++ body ++ [34; 34; 34].

Lemma scanMultilineBasicString_safe fuel b e i :
  (3 <= i <= slen b)%nat -> (slen b < fuel + i)%nat ->
  spec (scanMultilineBasicString_loop fuel b e i)
    (fun '(t, e', r) => cut b t r /\ ml_basic_end b t) (points_into b).
Proof.
  revert e i. induction fuel as [|fuel IH]; intros e i Hi Hf; [lia|]. simpl.
  repeat scan_step; try (apply IH; lia).
  apply follows_part in Heqb2 as [Hp Hl]. change (length (bs dq3)) with 3%nat in *.
  change (bs dq3) with [34; 34; 34] in *.
  eapply spec_bind; [apply scan_ml_end_safe; destruct Hl; [lia|done]|].
  intros [t r] [Hcut (k & Hk & E)]. repeat scan_step. split; [done|].
  exists (part b 3 i ++ replicate k 34). rewrite E. apply ml_token; [lia|done].
Qed.

(** ** Every token is found *)

Lemma lookup_of_drop {A} (l q : list A) i c : drop i l = c :: q -> l !! i = Some c.
Proof. intros H. rewrite <- (Nat.add_0_r i), <- lookup_drop, H. done. Qed.

Lemma drop_len {A} (l q : list A) i : (i <= length l)%nat -> drop i l = q -> length l = (i + length q)%nat.
Proof. intros Hi <-. rewrite length_drop. lia. Qed.

Lemma drop_step {A} (l p q : list A) i : drop i l = p ++ q -> drop (i + length p) l = q.
Proof. intros H. by rewrite <- drop_drop, H, drop_app_length. Qed.

Lemma s_to_eq {E} s j : (j <= slen s)%nat -> @s_to E s j = Ret (Sl (off s) (take j (dat s))).
Proof. intros H. unfold s_to. by rewrite (proj2 (Nat.leb_le _ _)). Qed.

Lemma s_from_eq {E} s j : (j <= slen s)%nat -> @s_from E s j = Ret (Sl (off s + j) (drop j (dat s))).
Proof. intros H. unfold s_from. by rewrite (proj2 (Nat.leb_le _ _)). Qed.

Lemma s_sub_eq {E} s i j :
  (i <= j <= slen s)%nat -> @s_sub E s i j = Ret (Sl (off s + i) (take (j - i) (drop i (dat s)))).
Proof.
  intros H. unfold s_sub. by rewrite (proj2 (Nat.leb_le _ _)), (proj2 (Nat.leb_le _ _)) by lia.
Qed.

Lemma s_at_eq {E} s i c : dat s !! i = Some c -> @s_at E s i = Ret c.
Proof. intros H. unfold s_at, at_. by rewrite H. Qed.

(** The two pieces that a scan returns when it stops at [j]. *)
Definition split_at (b : slice) (j : nat) : slice * slice :=
  (Sl (off b) (take j (dat b)), Sl (off b + j) (drop j (dat b))).

Lemma encode_head cp : toml_char cp -> exists c q, utf8_encode cp = c :: q /\ (c = cp /\ q = [] \/ 128 <= c).
Proof.
  intros [Hs _]. destruct (utf8_encode_bytes cp Hs) as [[E _]|E]; [eauto 10|].
  pose proof (utf8_encode_nonempty cp). destruct (utf8_encode cp) as [|c q]; simpl in *; [lia|].
  apply Forall_cons in E as [? _]. eauto 10.
Qed.

Lemma scanLiteralString_find fuel b i cps rest :
  Forall byte_ok (dat b) -> (i <= slen b)%nat ->
  Forall toml_char cps -> Forall (fun c => c <> 39 /\ c <> 10 /\ c <> 13) (concat (utf8_encode <$> cps)) ->
  drop i (dat b) = concat (utf8_encode <$> cps) ++ 39 :: rest ->
  (length (concat (utf8_encode <$> cps)) < fuel)%nat ->
  scanLiteralString_loop fuel b i =
    Ret (split_at b (i + length (concat (utf8_encode <$> cps)) + 1)).
Proof.
  intros Hb Hi Hc. revert fuel i Hi. induction Hc as [|cp cps Hcp Hc IH]; intros fuel i Hi Hf Hd Hl;
    (destruct fuel as [|fuel]; [lia|]); cbn [scanLiteralString_loop].
  - simpl in *. pose proof (drop_len _ _ _ Hi Hd) as Hlen. simpl in Hlen.
    rewrite (proj2 (Nat.ltb_lt _ _)) by lia.
    rewrite (s_at_eq _ _ 39) by (by eapply lookup_of_drop). simpl.
    rewrite s_to_eq, s_from_eq by lia. simpl. unfold split_at. by rewrite Nat.add_0_r.
  - rewrite fmap_cons in *. simpl in *. rewrite <- app_assoc in Hd. rewrite length_app in *.
    pose proof (drop_len _ _ _ Hi Hd) as Hlen. rewrite !length_app in Hlen. simpl in Hlen.
    rewrite (proj2 (Nat.ltb_lt _ _)) by lia.
    destruct (encode_head cp Hcp) as (c & q & E & Hcase).
    pose proof Hd as Hd'. rewrite E in Hd'. simpl in Hd'.
    rewrite (s_at_eq _ _ c) by (by eapply lookup_of_drop). simpl.
    assert (Hne : c <> 39 /\ c <> 10 /\ c <> 13).
    { rewrite E in Hf. simpl in Hf. apply Forall_cons in Hf as [? _]. done. }
    destruct (Z.eqb_spec c 39); [lia|]. destruct (Z.eqb_spec c 10); [lia|].
    destruct (Z.eqb_spec c 13); [lia|]. simpl. rewrite s_from_eq by lia. simpl.
    rewrite Utf8ValidNext_next_size; [|by apply Forall_drop|by rewrite Hd'].
    rewrite Hd, next_size_encode by done. simpl. pose proof (utf8_encode_nonempty cp).
    destruct (Nat.eqb_spec (length (utf8_encode cp)) 0); [lia|].
    rewrite IH; [f_equal; f_equal; lia|lia| |by apply drop_step in Hd|lia].
    apply Forall_app in Hf. tauto.
Qed.

Lemma scanBasicString_find fuel b i body e0 e rest :
  (i <= slen b)%nat -> basic_units body e -> drop i (dat b) = body ++ 34 :: rest ->
  (length body < fuel)%nat ->
  scanBasicString_loop fuel b e0 i =
    Ret (let '(t, r) := split_at b (i + length body + 1) in (t, e0 || e, r)).
Proof.
  intros Hi Hu. revert fuel e0 i Hi. induction Hu as [|body e c Hu IH H1 H2 H3 H4|body e c Hu IH];
    intros fuel e0 i Hi Hd Hl; (destruct fuel as [|fuel]; [simpl in Hl; lia|]);
    cbn [scanBasicString_loop];
    pose proof (drop_len _ _ _ Hi Hd) as Hlen; rewrite !length_app in Hlen; simpl in Hlen, Hd, Hl;
    rewrite (proj2 (Nat.ltb_lt _ _)) by lia; rewrite (s_at_eq _ _ _ (lookup_of_drop _ _ _ _ Hd));
    simpl.
  - rewrite s_to_eq, s_from_eq by lia. simpl. by rewrite orb_false_r, Nat.add_0_r.
  - destruct (Z.eqb_spec c 34), (Z.eqb_spec c 10), (Z.eqb_spec c 13), (Z.eqb_spec c 92); try lia.
    simpl. rewrite IH; [|lia|by apply (drop_step _ [c]) in Hd|lia].
    f_equal. by replace (i + 1 + length body + 1)%nat with (i + S (length body) + 1)%nat by lia.
  - rewrite (proj2 (Nat.ltb_ge _ _)) by lia.
    rewrite IH; [|lia|by apply (drop_step _ [92; c]) in Hd|lia].
    rewrite orb_true_r. simpl.
    by replace (i + 2 + length body + 1)%nat with (i + S (S (length body)) + 1)%nat by lia.
Qed.

(** ** Claims *)

Lemma spec_strengthen {E A} (m : go E A) Q (R R' : E -> Prop) :
  spec m Q R -> (forall e, m = Fail e -> R' e) -> spec m Q (fun e => R e /\ R' e).
Proof. destruct m; simpl; auto. Qed.

Lemma head_take1 b c : head (dat b) = Some c -> (1 <= slen b)%nat /\ take 1 (dat b) = [c].
Proof. destruct (dat b) as [|c' l]; [done|]. intros [= ->]. simpl. split; [lia|done]. Qed.

Lemma literal_body_nil : literal_body [].
Proof. split; [apply toml_text_nil|done]. Qed.

(** on a slice that starts with an apostrophe [scanLiteralString] always
    returns. It succeeds exactly when a literal string is there: the token it
    cuts off is an apostrophe, allowed characters without apostrophe or new line,
    and an apostrophe. When it fails no such string is a prefix of the slice, and
    the error points into the slice. *)
Theorem scanLiteralString_spec (b : slice) :
  Forall byte_ok (dat b) -> head (dat b) = Some 39 ->
  spec (scanLiteralString b)
    (fun '(t, r) => cut b t r /\ exists body, literal_body body /\ dat t = 39 :: body ++ [39])
    (fun e => points_into b e /\
       forall body rest, literal_body body -> dat b <> 39 :: body ++ 39 :: rest).
Proof.
  intros Hb [Hl H1]%head_take1. apply spec_strengthen.
  - pose proof (scanLiteralString_safe (S (slen b)) b 1 Hb) as H. rewrite H1 in H.
    apply H; [lia..|]. rewrite part_nil. apply literal_body_nil.
  - intros e He body rest [(cps & Hc & ->) Hf] E. unfold scanLiteralString in He.
    erewrite scanLiteralString_find in He; [done|done|lia|done|done| |].
    + rewrite E. simpl. rewrite drop_0. reflexivity.
    + rewrite E. simpl. rewrite length_app. simpl. lia.
Qed.

Lemma scanLiteralString_spec_witness :
  exists t r, scanLiteralString (doc (bs "'a\b' # c")) = Ret (t, r) /\
    cut (doc (bs "'a\b' # c")) t r /\ dat t = bs "'a\b'".
Proof.
  pose proof (scanLiteralString_spec (doc (bs "'a\b' # c"))) as H.
  destruct (scanLiteralString (doc (bs "'a\b' # c"))) as [[t r]|?| |] eqn:E;
    vm_compute in E; try discriminate E.
  injection E as <- <-. exists (Sl 0 (bs "'a\b'")), (Sl 5 (bs " # c")).
  split; [reflexivity|]. split; [|reflexivity].
  apply H; [|reflexivity]. apply bytes_ok. reflexivity.
Defined.

(** on a slice that starts with a quote [scanBasicString] always returns.
    It succeeds exactly when a quoted string is there: the token it cuts off is a
    quote, bytes that are no quote, backslash or new line and pairs of a backslash
    and a byte, and a quote; the flag tells whether there is such a pair. When it
    fails no such string is a prefix of the slice, and the error points into the
    slice. *)
Theorem scanBasicString_spec (b : slice) :
  head (dat b) = Some 34 ->
  spec (scanBasicString b)
    (fun '(t, escaped, r) => cut b t r /\
       exists body, basic_units body escaped /\ dat t = 34 :: body ++ [34])
    (fun e => points_into b e /\
       forall body escaped rest, basic_units body escaped -> dat b <> 34 :: body ++ 34 :: rest).
Proof.
  intros [Hl H1]%head_take1. apply spec_strengthen.
  - pose proof (scanBasicString_safe (S (slen b)) b false 1) as H. rewrite H1 in H.
    apply H; [lia..|]. rewrite part_nil. constructor.
  - intros e He body esc rest Hu E. unfold scanBasicString in He.
    erewrite scanBasicString_find in He; [done|lia|done| |].
    + rewrite E. simpl. rewrite drop_0. reflexivity.
    + rewrite E. simpl. rewrite length_app. simpl. lia.
Qed.

Lemma scanBasicString_spec_witness :
  exists t r, scanBasicString (doc [34; 97; 92; 34; 34; 10]) = Ret (t, true, r) /\
    cut (doc [34; 97; 92; 34; 34; 10]) t r.
Proof.
  pose proof (scanBasicString_spec (doc [34; 97; 92; 34; 34; 10]) eq_refl) as H.
  destruct (scanBasicString (doc [34; 97; 92; 34; 34; 10])) as [[[t e] r]|?| |] eqn:E;
    vm_compute in E; try discriminate E.
  injection E as <- <- <-. simpl in H. destruct H as [H _]. by eexists _, _.
Defined.
End TomlScan.
