(* ===== verification/TomlDecode.v ===== *)
(** * Numbers of TOML documents ([src/utoml/decode.go])

    Integers in four bases with underscores, and floats. A token is a slice of
    the document; the bytes left after the underscores are removed are a fresh
    list. [strconv.ParseFloat] is an argument of [parseFloat]. *)
From stdpp Require Import base numbers list gmap strings.
From S2P Require Import Prelude Strconv TomlChars TomlScan.
#[local] Open Scope Z_scope.

Module TomlDecode.
Import Strconv TomlScan.

Definition isDigit (r : Z) : bool := (48 <=? r) && (r <=? 57).
Definition isSign (b : Z) : bool := (b =? 43) || (b =? 45).

(** ** Underscores *)

(** The loop of the fast path: the index of the first underscore, or the
    length. *)
Fixpoint first_underscore (b : list Z) (i : nat) : nat :=
  match b with
  | [] => i
  | c :: b' => if c =? 95 then i else first_underscore b' (S i)
  end.

Fixpoint underscores_int_loop (fuel : nat) (b : slice) (before : bool) (cleaned : list Z) (i : nat)
    : go ParserError (list Z) :=
  match fuel with
  | O => OutOfFuel
  | S fuel' =>
      if (i <? slen b)%nat then
        c ← s_at b i;
        if c =? 95 then
          if negb before then
            h ← s_sub_pred b i (i + 1);
            fail h "number must have at least one digit between underscores" []
          else underscores_int_loop fuel' b false cleaned (i + 1)
        else underscores_int_loop fuel' b true (cleaned ++ [c]) (i + 1)
      else mret cleaned
  end.

Definition checkAndRemoveUnderscoresIntegers (b : slice) : go ParserError (list Z) :=
  c0 ← s_at b 0;
  let start := if (c0 =? 43) || (c0 =? 45) then 1%nat else 0%nat in
  if (slen b =? start)%nat then mret (dat b)
  else
    cs ← s_at b start;
    if cs =? 95 then
      h ← s_sub b start (start + 1); fail h "number cannot start with underscore" []
    else
      cl ← s_at b (slen b - 1);
      if cl =? 95 then
        h ← s_from b (slen b - 1); fail h "number cannot end with underscore" []
      else
        let i := first_underscore (dat b) 0 in
        if (i =? slen b)%nat then mret (dat b)
        else underscores_int_loop (S (slen b)) b false (take i (dat b)) (i + 1).

Fixpoint underscores_float_loop (fuel : nat) (b : slice) (before : bool) (cleaned : list Z) (i : nat)
    : go ParserError (list Z) :=
  match fuel with
  | O => OutOfFuel
  | S fuel' =>
      if (i <? slen b)%nat then
        c ← s_at b i;
        (* [i < len(b)-1 && p(b[i+1])] *)
        let next (p : Z -> bool) :=
          if (i <? slen b - 1)%nat then d ← s_at b (i + 1); mret (p d) else mret false in
        if c =? 95 then
          if negb before then
            h ← s_sub_pred b i (i + 1);
            fail h "number must have at least one digit between underscores" []
          else
            e ← next (fun d => (d =? 101) || (d =? 69));
            if (e : bool) then
              h ← s_sub b (i + 1) (i + 2); fail h "cannot have underscore before exponent" []
            else underscores_float_loop fuel' b false cleaned (i + 1)
        else if (c =? 43) || (c =? 45) then
          underscores_float_loop fuel' b false (cleaned ++ [c]) (i + 1)
        else if (c =? 101) || (c =? 69) then
          u ← next (fun d => d =? 95);
          if (u : bool) then
            h ← s_sub b (i + 1) (i + 2); fail h "cannot have underscore after exponent" []
          else underscores_float_loop fuel' b before (cleaned ++ [c]) (i + 1)
        else if c =? 46 then
          u ← next (fun d => d =? 95);
          if (u : bool) then
            h ← s_sub b (i + 1) (i + 2); fail h "cannot have underscore after decimal point" []
          else
            p ← (if (0 <? i)%nat then d ← s_at b (i - 1); mret (d =? 95) else mret false);
            if (p : bool) then
              h ← s_sub_pred b i i; fail h "cannot have underscore before decimal point" []
            else underscores_float_loop fuel' b before (cleaned ++ [c]) (i + 1)
        else underscores_float_loop fuel' b true (cleaned ++ [c]) (i + 1)
      else mret cleaned
  end.

Definition checkAndRemoveUnderscoresFloats (b : slice) : go ParserError (list Z) :=
  c0 ← s_at b 0;
  if c0 =? 95 then
    h ← s_sub b 0 1; fail h "number cannot start with underscore" []
  else
    cl ← s_at b (slen b - 1);
    if cl =? 95 then
      h ← s_from b (slen b - 1); fail h "number cannot end with underscore" []
    else
      let i := first_underscore (dat b) 0 in
      if (i =? slen b)%nat then mret (dat b)
      else underscores_float_loop (S (slen b)) b false [] 0.

(** ** Integers *)

Definition parseIntHex (b : slice) : go ParserError Z :=
  q ← s_from b 2;
  cleaned ← checkAndRemoveUnderscoresIntegers q;
  match ParseInt cleaned 16 with
  | None => fail b "couldn't parse hexadecimal number: %w" []
  | Some i => mret i
  end.

Definition parseIntOct (b : slice) : go ParserError Z :=
  q ← s_from b 2;
  cleaned ← checkAndRemoveUnderscoresIntegers q;
  match ParseInt cleaned 8 with
  | None => fail b "couldn't parse octal number: %w" []
  | Some i => mret i
  end.

Definition parseIntBin (b : slice) : go ParserError Z :=
  q ← s_from b 2;
  cleaned ← checkAndRemoveUnderscoresIntegers q;
  match ParseInt cleaned 2 with
  | None => fail b "couldn't parse binary number: %w" []
  | Some i => mret i
  end.

Definition parseIntDec (b : slice) : go ParserError Z :=
  cleaned ← checkAndRemoveUnderscoresIntegers b;
  c0 ← at_ cleaned 0;
  let startIdx := if isSign c0 then 1%nat else 0%nat in
  z ← (if (startIdx + 1 <? length cleaned)%nat then c ← at_ cleaned startIdx; mret (c =? 48)
       else mret false);
  if (z : bool) then fail b "leading zero not allowed on decimal number" []
  else match ParseInt cleaned 10 with
       | None => fail b "couldn't parse decimal number: %w" []
       | Some i => mret i
       end.

Definition parseInteger (b : slice) : go ParserError Z :=
  z ← (if (2 <? slen b)%nat then c ← s_at b 0; mret (c =? 48) else mret false);
  if (z : bool) then
    c ← s_at b 1;
    if c =? 120 then parseIntHex b
    else if c =? 98 then parseIntBin b
    else if c =? 111 then parseIntOct b
    else Panic
  else parseIntDec b.

(** ** Floats *)

Section Float.
(** [float64], [math.NaN()] and [strconv.ParseFloat(s, 64)]. *)
Context {float64 : Type} (NaN : float64) (ParseFloat : list Z -> option float64).

Fixpoint float_dots (fuel : nat) (b : slice) (cleaned : list Z) (dotAlreadySeen : bool) (i : nat)
    : go ParserError unit :=
  match fuel with
  | O => OutOfFuel
  | S fuel' =>
      if (i <? length cleaned)%nat then
        c ← at_ cleaned i;
        if c =? 46 then
          if dotAlreadySeen then
            h ← s_sub b i (i + 1); fail h "float can have at most one decimal point" []
          else
            d ← (match i with O => Panic | S j => at_ cleaned j end);
            if negb (isDigit d) then
              h ← s_sub_pred b i (i + 1);
              fail h "float decimal point must be preceded by a digit" []
            else
              e ← at_ cleaned (i + 1);
              if negb (isDigit e) then
                h ← s_sub b i (i + 2);
                fail h "float decimal point must be followed by a digit" []
              else float_dots fuel' b cleaned true (i + 1)
        else float_dots fuel' b cleaned dotAlreadySeen (i + 1)
      else mret tt
  end.

Definition parseFloat (b : slice) : go ParserError float64 :=
  if bool_decide (dat b = bs "+nan") || bool_decide (dat b = bs "-nan") then mret NaN
  else
    cleaned ← checkAndRemoveUnderscoresFloats b;
    c0 ← at_ cleaned 0;
    if c0 =? 46 then fail b "float cannot start with a dot" []
    else
      cl ← at_ cleaned (length cleaned - 1);
      if cl =? 46 then fail b "float cannot end with a dot" []
      else
        _ ← float_dots (S (length cleaned)) b cleaned false 0;
        let start := if (c0 =? 43) || (c0 =? 45) then 1%nat else 0%nat in
        cs ← at_ cleaned start;
        lead ← (if (cs =? 48) && (start + 1 <? length cleaned)%nat
                then d ← at_ cleaned (start + 1); mret (isDigit d) else mret false);
        if (lead : bool) then fail b "float integer part cannot have leading zeroes" []
        else match ParseFloat cleaned with
             | None => fail b "unable to parse float: %w" []
             | Some f => mret f
             end.
End Float.

(** ** Underscores are removed, and only where they may be *)

(** No two underscores in a row. *)
Definition no_double (l : list Z) : Prop :=
  forall k, l !! k = Some 95 -> l !! S k <> Some 95.

(** The text of an integer, after an optional sign, neither starts nor ends
    with an underscore and has no two in a row. *)
Definition sign_len (l : list Z) : nat :=
  match l with c :: _ => if isSign c then 1%nat else 0%nat | [] => 0%nat end.

Definition well_placed (l : list Z) : Prop :=
  l !! sign_len l <> Some 95 /\ last l <> Some 95 /\ no_double l.

Definition remove_underscores (l : list Z) : list Z := filter (fun c => c <> 95) l.

Lemma remove_app l1 l2 :
  remove_underscores (l1 ++ l2) = remove_underscores l1 ++ remove_underscores l2.
Proof. apply filter_app. Qed.

Lemma remove_none l : Forall (fun c => c <> 95) l -> remove_underscores l = l.
Proof.
  unfold remove_underscores. induction 1 as [|c l Hc Hl IH]; [done|].
  rewrite filter_cons, decide_True by done. by rewrite IH.
Qed.

Lemma remove_snoc b i c :
  dat b !! i = Some c ->
  remove_underscores (take (i + 1) (dat b)) =
  remove_underscores (take i (dat b)) ++ (if c =? 95 then [] else [c]).
Proof.
  intros Hc. rewrite Nat.add_1_r, (take_S_r _ _ _ Hc), remove_app. f_equal.
  unfold remove_underscores. rewrite filter_cons, filter_nil.
  destruct (Z.eqb_spec c 95); by case_decide.
Qed.

Lemma first_underscore_spec l k :
  exists n, first_underscore l k = (k + n)%nat /\ (n <= length l)%nat /\
    Forall (fun c => c <> 95) (take n l) /\ ((n < length l)%nat -> l !! n = Some 95).
Proof.
  revert k. induction l as [|c l IH]; intros k; simpl.
  - exists 0%nat. split_and!; [lia|lia|done|simpl; lia].
  - destruct (Z.eqb_spec c 95) as [->|Hc].
    + exists 0%nat. split_and!; [lia|lia|done|done].
    + destruct (IH (S k)) as (n & -> & Hn & Hf & Hl). exists (S n). split_and!; [lia|lia| |].
      * by constructor.
      * intros. apply Hl. lia.
Qed.

Lemma underscores_int_loop_spec fuel b before cleaned i :
  (1 <= i <= slen b)%nat -> (slen b < fuel + i)%nat ->
  before = negb (bool_decide (dat b !! (i - 1)%nat = Some 95)) ->
  (forall k, (S k < i)%nat -> dat b !! k = Some 95 -> dat b !! S k <> Some 95) ->
  cleaned = remove_underscores (take i (dat b)) ->
  spec (underscores_int_loop fuel b before cleaned i)
    (fun l => l = remove_underscores (dat b) /\ no_double (dat b))
    (fun e => points_into b e /\ ~ no_double (dat b)).
Proof.
  revert before cleaned i. induction fuel as [|fuel IH]; intros before cleaned i Hi Hf Hb Hd Hc;
    [lia|]. cbn [underscores_int_loop].
  assert (Hprev : before = true -> dat b !! (i - 1)%nat <> Some 95).
  { rewrite Hb. intros H E. by rewrite E in H. }
  assert (HS : forall k, dat b !! i <> Some 95 \/ before = true -> (S k < i + 1)%nat ->
    dat b !! k = Some 95 -> dat b !! S k <> Some 95).
  { intros k Hor Hk H1. destruct (decide (S k < i)%nat); [by apply Hd|].
    replace (S k) with i by lia. destruct Hor as [|Hor]; [done|].
    exfalso. apply (Hprev Hor). by replace (i - 1)%nat with k by lia. }
  repeat scan_step.
  - split; [eauto with slices|]. intros Hn.
    apply (Hn (i - 1)%nat).
    + destruct (decide (dat b !! (i - 1)%nat = Some 95)); [done|].
      rewrite Hb, bool_decide_eq_false_2 in Heqb2 by done. done.
    + replace (S (i - 1)) with i by lia. rewrite Hc0. f_equal. lia.
  - apply IH; [lia..| | |].
    + replace (i + 1 - 1)%nat with i by lia. rewrite Hc0, bool_decide_eq_true_2; [done|].
      f_equal. lia.
    + intros k. apply HS. right. by apply negb_false_iff.
    + rewrite (remove_snoc b i c) by done. by rewrite Heqb1, app_nil_r.
  - apply IH; [lia..| | |].
    + replace (i + 1 - 1)%nat with i by lia. rewrite Hc0, bool_decide_eq_false_2; [done|].
      intros [= ->]. done.
    + intros k. apply HS. left. rewrite Hc0. intros [= ->]. done.
    + rewrite (remove_snoc b i c) by done. by rewrite Heqb1, Hc.
  - assert (i = slen b) as -> by lia. split; [by rewrite Hc, take_ge|].
    intros k Hk Hk2. apply lookup_lt_Some in Hk2 as Hlt. by apply (Hd k).
Qed.

Lemma no_double_none l : Forall (fun c => c <> 95) l -> no_double l.
Proof. intros H k Hk. by apply (Forall_lookup_1 _ _ _ _ H) in Hk. Qed.

Lemma no_us_lookup l k : Forall (fun c => c <> 95) l -> l !! k <> Some 95.
Proof. intros H Hk. by apply (Forall_lookup_1 _ _ _ _ H) in Hk. Qed.

Lemma well_placed_none l : Forall (fun c => c <> 95) l -> well_placed l.
Proof.
  intros H. split_and!; [by apply no_us_lookup| |by apply no_double_none].
  rewrite last_lookup. by apply no_us_lookup.
Qed.

Lemma last_at b c : dat b !! (slen b - 1)%nat = Some c -> last (dat b) = Some c.
Proof. intros H. rewrite last_lookup. by replace (pred (slen b)) with (slen b - 1)%nat by lia. Qed.

Lemma sign_len_at b c0 :
  dat b !! 0%nat = Some c0 -> (if (c0 =? 43) || (c0 =? 45) then 1%nat else 0%nat) = sign_len (dat b).
Proof. destruct (dat b) as [|c l]; [done|]. intros [= ->]. done. Qed.

Lemma underscores_int_spec b :
  (0 < slen b)%nat ->
  spec (checkAndRemoveUnderscoresIntegers b)
    (fun l => l = remove_underscores (dat b) /\ well_placed (dat b))
    (fun e => points_into b e /\ ~ well_placed (dat b)).
Proof.
  intros Hl. unfold checkAndRemoveUnderscoresIntegers.
  apply spec_at_bind; [lia|]. intros c0 Hc0. cbv zeta. rewrite (sign_len_at b c0 Hc0).
  assert (Hs : (sign_len (dat b) <= 1)%nat).
  { destruct (dat b); simpl; [lia|]. destruct (isSign _); lia. }
  destruct (Nat.eqb_spec (slen b) (sign_len (dat b))) as [E|E].
  { repeat scan_step. assert (Hn : Forall (fun c => c <> 95) (dat b)).
    { destruct (dat b) as [|c [|c' l]]; simpl in *; try lia.
      destruct (isSign c) eqn:Es; [|lia]. repeat constructor. unfold isSign in Es. lia. }
    split; [by rewrite remove_none|by apply well_placed_none]. }
  repeat scan_step.
  - split; [eauto with slices|]. intros (Hw & _). apply Hw. rewrite Hc. f_equal. lia.
  - split; [eauto with slices|]. intros (_ & Hw & _). apply Hw. rewrite (last_at b _ Hc1). f_equal. lia.
  - destruct (first_underscore_spec (dat b) 0) as (n & En & Hn & Hf & _). rewrite En in Heqb2.
    rewrite take_ge in Hf by lia.
    split; [by rewrite remove_none|by apply well_placed_none].
  - destruct (first_underscore_spec (dat b) 0) as (n & En & Hn & Hf & Hlk). rewrite En in *.
    cbn [Nat.add] in *. assert (Hlt : (n < slen b)%nat) by lia. specialize (Hlk Hlt).
    eapply spec_mono; [apply underscores_int_loop_spec; try lia| |].
    + replace (n + 1 - 1)%nat with n by lia. by rewrite Hlk.
    + intros k Hk Hk1. assert (k < n)%nat by lia. exfalso.
      rewrite <- (lookup_take_lt (dat b) n k) in Hk1 by done. by apply no_us_lookup in Hk1.
    + by rewrite (remove_snoc b n 95), app_nil_r, remove_none.
    + intros l [-> Hd]. split; [done|]. split_and!; [|rewrite (last_at b _ Hc1)|done].
      * rewrite Hc. intros [= ->]. done.
      * intros [= ->]. done.
    + intros e [Hp Hd]. split; [done|]. by intros (_ & _ & ?).
Qed.

(** ** Integers *)

Lemma underscores_int_eq b :
  (0 < slen b)%nat -> well_placed (dat b) ->
  checkAndRemoveUnderscoresIntegers b = Ret (remove_underscores (dat b)).
Proof.
  intros Hl Hw. pose proof (underscores_int_spec b Hl) as H.
  destruct (checkAndRemoveUnderscoresIntegers b) as [l|e| |]; simpl in H; [|tauto|done|done].
  f_equal. tauto.
Qed.

(** A well placed text keeps its first character, after a sign too. *)
Lemma remove_head l c : l !! sign_len l <> Some 95 -> head (remove_underscores l) = Some c -> head l = Some c.
Proof.
  destruct l as [|d l]; [done|]. unfold remove_underscores. rewrite filter_cons. intros Hw.
  case_decide as Hd; [done|]. simpl in Hw. assert (d = 95) as -> by lia. done.
Qed.

Lemma remove_cons c l l' : c <> 95 -> l !! sign_len l <> Some 95 -> remove_underscores l = c :: l' ->
  exists l1, l = c :: l1 /\ remove_underscores l1 = l'.
Proof.
  intros Hc Hw E. destruct l as [|d l]; [done|].
  assert (Hd : head (d :: l) = Some c) by (apply remove_head; [done|by rewrite E]).
  injection Hd as ->. unfold remove_underscores in E. rewrite filter_cons, decide_True in E by done.
  injection E as E. by exists l.
Qed.

Lemma remove_nil_last l : last l <> Some 95 -> remove_underscores l = [] -> l = [].
Proof.
  destruct l as [|c l _] using rev_ind; [done|]. rewrite last_snoc, remove_app. intros Hl H.
  apply app_eq_nil in H as [_ H]. unfold remove_underscores in H.
  rewrite filter_cons, decide_True, filter_nil in H; [done|]. by intros ->.
Qed.

Lemma ParseInt_range s base z : 2 <= base -> ParseInt s base = Some z -> int64_ok z.
Proof.
  intros Hb. unfold ParseInt, int64_ok.
  assert (Hp : forall s' a u, 0 <= a -> parse_digits base a s' = Some u -> 0 <= u).
  { induction s' as [|c s' IH]; intros a u Ha; simpl; [by intros [= <-]|].
    unfold digit_val. repeat case_match; try done; simplify_eq; apply IH; nia. }
  assert (int64_min <= 0 <= int64_max) by (unfold int64_min, int64_max; lia).
  repeat case_match; try done; simplify_eq; intros [= <-].
  all: match goal with H : parse_digits _ _ _ = Some _ |- _ => apply Hp in H; lia end.
Qed.

(** What a token must be for [parseInteger] not to panic. *)
Definition int_token (l : list Z) : Prop :=
  l <> [] /\ ((2 < length l)%nat -> l !! 0%nat = Some 48 ->
    l !! 1%nat = Some 120 \/ l !! 1%nat = Some 98 \/ l !! 1%nat = Some 111).

Lemma based_safe b base f :
  (2 < slen b)%nat -> 2 <= base ->
  spec (q ← s_from b 2; cleaned ← checkAndRemoveUnderscoresIntegers q;
        match ParseInt cleaned base with
        | None => fail b f []
        | Some i => mret i
        end) int64_ok (points_into b).
Proof.
  intros Hl Hb. repeat scan_step. eapply spec_bind.
  { eapply spec_mono; [apply underscores_int_spec; go_lia|intros a Ha; exact Ha|].
    intros e [He _]. unfold points_into in *. etransitivity; [exact He|]. apply sub_from. lia. }
  intros l [-> _]. destruct (ParseInt _ base) as [z|] eqn:Ep; repeat scan_step.
  by eapply ParseInt_range.
Qed.

Lemma parseInteger_safe b :
  int_token (dat b) -> spec (parseInteger b) int64_ok (points_into b).
Proof.
  intros [Hne Ht]. assert (Hl : (0 < slen b)%nat) by (destruct (dat b); simpl; [done|lia]).
  unfold parseInteger.
  eapply (spec_bind _ _ (fun z => z = true -> (2 < slen b)%nat /\ dat b !! 0%nat = Some 48)).
  { repeat scan_step; [|done]. intros ->%Z.eqb_eq. split; [lia|done]. }
  intros z Hz. destruct z.
  - destruct (Hz eq_refl) as [H2 H0]. specialize (Ht H2 H0). repeat scan_step.
    1-3: apply based_safe; lia.
    exfalso. rewrite Hc in Ht. destruct Ht as [[= ->]|[[= ->]|[= ->]]]; done.
  - unfold parseIntDec. eapply spec_bind.
    { eapply spec_mono; [by apply underscores_int_spec|intros a Ha; exact Ha|by intros e [? _]]. }
    intros l [-> Hw]. eapply (spec_bind _ _ (fun c => remove_underscores (dat b) !! 0%nat = Some c)).
    { apply spec_at; [|done]. destruct (remove_underscores (dat b)) eqn:E; [|simpl; lia].
      destruct Hw as (_ & Hw & _). by apply remove_nil_last in E. }
    intros c0 Hc0. cbv zeta.
    eapply (spec_bind _ _ (fun _ => True)).
    { repeat scan_step; [|done]. eapply spec_bind; [by apply spec_at; [lia|intros ? H; exact H]|].
      intros c1 _. by repeat scan_step. }
    intros z _. repeat scan_step. destruct (ParseInt _ 10) as [i|] eqn:Ep; repeat scan_step.
    eapply (ParseInt_range _ 10); [lia|done].
Qed.

Lemma FormatInt_cases z :
  (z = 0 /\ FormatInt z 10 = [48]) \/
  (0 < z /\ exists c l, FormatInt z 10 = c :: l /\ 49 <= c <= 57) \/
  (z < 0 /\ exists c l, FormatInt z 10 = 45 :: c :: l /\ 49 <= c <= 57).
Proof.
  unfold FormatInt. destruct (Z.ltb_spec z 0).
  - right. right. split; [done|]. destruct (FormatUint_head (- z) 10) as (d & l & -> & Hd); [lia..|].
    eexists _, l. split; [done|]. unfold digit_char. rewrite (proj2 (Z.ltb_lt d 10)) by lia. lia.
  - destruct (decide (z = 0)) as [->|]; [by left|]. right. left. split; [lia|].
    destruct (FormatUint_head z 10) as (d & l & -> & Hd); [lia..|].
    eexists _, l. split; [done|]. unfold digit_char. rewrite (proj2 (Z.ltb_lt d 10)) by lia. lia.
Qed.

Lemma last_cons_cases {A} (c : A) l x : last (c :: l) <> Some x -> l <> [] -> last l <> Some x.
Proof. intros H Hl. rewrite last_cons in H. by destruct (last l) eqn:E; [|apply last_None in E]. Qed.

(** A decimal text does not start like a number in another base. *)
Lemma dec_prefix l z :
  well_placed l -> remove_underscores l = FormatInt z 10 ->
  l <> [] /\ ((2 < length l)%nat -> l !! 0%nat <> Some 48).
Proof.
  intros (Hw1 & Hw2 & _) E.
  assert (Hne : l <> []).
  { intros ->. destruct (FormatInt_cases z) as [[_ H]|[(_ & c & l & H & _)|(_ & c & l & H & _)]];
      by rewrite H in E. }
  split; [done|]. intros Hlen H0.
  destruct (FormatInt_cases z) as [[_ H]|[(_ & c & l' & H & Hc)|(_ & c & l' & H & Hc)]];
    rewrite H in E; apply remove_cons in E as (l1 & -> & E); try done; try lia;
    try (injection H0; lia).
  destruct l1 as [|x l1]; [simpl in Hlen; lia|].
  apply remove_nil_last in E; [done|]. by apply (last_cons_cases 48).
Qed.

Lemma parseIntDec_roundtrip o l z :
  int64_ok z -> well_placed l -> remove_underscores l = FormatInt z 10 ->
  parseInteger (Sl o l) = Ret z.
Proof.
  intros Hz Hw E. destruct (dec_prefix l z Hw E) as [Hne H48].
  assert (Hd : parseInteger (Sl o l) = parseIntDec (Sl o l)).
  { unfold parseInteger, s_at, at_. simpl. destruct (Nat.ltb_spec 2 (length l)) as [H2|]; [|done].
    specialize (H48 H2). destruct l as [|c l]; [done|]. simpl in *.
    destruct (Z.eqb_spec c 48) as [->|]; done. }
  rewrite Hd. unfold parseIntDec.
  rewrite underscores_int_eq; [|destruct l; simpl; [done|lia]|done]. simpl. rewrite E.
  assert (Hp : ParseInt (FormatInt z 10) 10 = Some z) by (apply ParseInt_FormatInt; [lia|done]).
  destruct (FormatInt_cases z) as [[Hz0 H]|[(_ & c & l' & H & Hc)|(_ & c & l' & H & Hc)]];
    rewrite H in Hp |- *; unfold at_; simpl.
  - by rewrite Hz0.
  - assert (Hs : isSign c = false) by (unfold isSign; lia). rewrite Hs. simpl.
    destruct (Nat.ltb_spec 1 (S (length l'))); simpl; [|by rewrite Hp].
    destruct (Z.eqb_spec c 48); [lia|]. by rewrite Hp.
  - destruct (Nat.ltb_spec 2 (S (S (length l')))); simpl; [|by rewrite Hp].
    destruct (Z.eqb_spec c 48); [lia|]. by rewrite Hp.
Qed.

Lemma based_roundtrip o p base l z :
  (p, base) ∈ [(120, 16); (98, 2); (111, 8)] -> 0 <= z <= int64_max ->
  well_placed l -> remove_underscores l = FormatUint z base ->
  parseInteger (Sl o (48 :: p :: l)) = Ret z.
Proof.
  intros Hp Hz Hw E.
  assert (Hb : 2 <= base <= 36) by (set_solver by lia).
  assert (Hne : l <> []).
  { intros ->. symmetry in E. by apply FormatUint_nonempty in E; [|lia..]. }
  unfold parseInteger, s_at, at_. simpl. destruct l as [|c l]; [done|]. simpl.
  assert (Hq : checkAndRemoveUnderscoresIntegers (Sl (o + 2) (c :: l)) = Ret (FormatUint z base)).
  { rewrite underscores_int_eq; [cbn [dat]; by rewrite E|simpl; lia|done]. }
  assert (Hi : ParseInt (FormatUint z base) base = Some z) by (by apply ParseInt_FormatUint).
  rewrite !elem_of_cons in Hp.
  destruct Hp as [[= -> ->]|[[= -> ->]|[[= -> ->]|[]%not_elem_of_nil]]]; simpl;
    [unfold parseIntHex|unfold parseIntBin|unfold parseIntOct];
    rewrite s_from_eq by (simpl; lia); simpl; rewrite Hq; simpl; by rewrite Hi.
Qed.

(** ** Floats *)

Section FloatSpec.
Context {float64 : Type} (NaN : float64) (ParseFloat : list Z -> option float64).

Lemma spec_at_list {B} l i (k : Z -> go ParserError B) Q R :
  (i < length l)%nat -> (forall c, l !! i = Some c -> spec (k c) Q R) -> spec (at_ l i ≫= k) Q R.
Proof. intros Hi Hk. apply (spec_bind _ _ (fun c => l !! i = Some c)); [|done]. by apply spec_at. Qed.

Lemma underscores_float_loop_spec fuel b before cleaned i :
  (0 < i)%nat \/ dat b !! 0%nat <> Some 95 ->
  (i <= slen b)%nat -> (slen b < fuel + i)%nat ->
  cleaned = remove_underscores (take i (dat b)) ->
  spec (underscores_float_loop fuel b before cleaned i)
    (fun l => l = remove_underscores (dat b)) (points_into b).
Proof.
  intros H0. revert before cleaned i H0. induction fuel as [|fuel IH];
    intros before cleaned i H0 Hi Hf Hcl; [lia|].
  cbn [underscores_float_loop].
  assert (Hnext : forall p (k : bool -> go ParserError (list Z)) Q R,
    (forall x, (x = true -> (i + 1 < slen b)%nat) -> spec (k x) Q R) ->
    spec ((if (i <? slen b - 1)%nat then d ← s_at b (i + 1); mret (p d) else mret false) ≫= k) Q R).
  { intros p k Q R Hk. apply (spec_bind _ _ (fun x => x = true -> (i + 1 < slen b)%nat));
      [|done]. repeat scan_step; [lia|done]. }
  assert (Hrec : forall bf c, (i < slen b)%nat -> dat b !! i = Some c ->
    spec (underscores_float_loop fuel b bf (if c =? 95 then cleaned else cleaned ++ [c]) (i + 1))
      (fun l => l = remove_underscores (dat b)) (points_into b)).
  { intros bf c Hlt Hc. apply IH; [lia..|]. rewrite (remove_snoc b i c), Hcl by done.
    destruct (c =? 95); [by rewrite app_nil_r|done]. }
  apply spec_mono with (Q := fun l => l = remove_underscores (dat b)) (R := points_into b); [|done..].
  go_step; [|repeat scan_step; by rewrite Hcl, take_ge by lia].
  apply spec_at_bind; [lia|]. intros c Hc. specialize (fun bf => Hrec bf c ltac:(lia) Hc).
  go_step.
  { go_step. { repeat scan_step. destruct H0 as [|H0]; [lia|]. destruct i; [|lia].
      rewrite Hc in H0. by apply Z.eqb_eq in Heqb1 as ->. }
    apply Hnext. intros x Hx. destruct x; repeat scan_step.
    apply Hrec. }
  go_step; [apply Hrec|]. go_step.
  { apply Hnext. intros x Hx. destruct x; repeat scan_step. apply Hrec. }
  go_step; [|apply Hrec].
  apply Hnext. intros x Hx. destruct x; repeat scan_step.
  apply (spec_bind _ _ (fun x => x = true -> (0 < i)%nat)).
  { repeat scan_step; [lia|done]. }
  intros y Hy. destruct y; repeat scan_step. apply Hrec.
Qed.

Lemma underscores_float_spec b :
  (0 < slen b)%nat ->
  spec (checkAndRemoveUnderscoresFloats b)
    (fun l => l = remove_underscores (dat b) /\ head (dat b) <> Some 95 /\ last (dat b) <> Some 95)
    (points_into b).
Proof.
  intros Hl. unfold checkAndRemoveUnderscoresFloats. repeat scan_step.
  - destruct (first_underscore_spec (dat b) 0) as (n & En & Hn & Hf & _). rewrite En in Heqb2.
    rewrite take_ge in Hf by lia. rewrite remove_none by done. rewrite (last_at b _ Hc0).
    rewrite head_lookup, Hc. split_and!; [done| |]; intros [= ->]; done.
  - eapply spec_mono; [apply underscores_float_loop_spec; try lia; [|done]| |done].
    + right. rewrite Hc. intros [= ->]. done.
    + intros l ->. rewrite (last_at b _ Hc0), head_lookup, Hc. split_and!; [done| |]; intros [= ->]; done.
Qed.

Lemma float_dots_spec fuel b cleaned seen i :
  (length cleaned <= slen b)%nat -> (i <= length cleaned)%nat -> (length cleaned < fuel + i)%nat ->
  cleaned !! 0%nat <> Some 46 -> last cleaned <> Some 46 ->
  spec (float_dots fuel b cleaned seen i) (fun _ => True) (points_into b).
Proof.
  intros Hl Hi Hf H0 Hlast. revert seen i Hi Hf. induction fuel as [|fuel IH]; intros seen i Hi Hf; [lia|].
  cbn [float_dots]. go_step; [|done]. apply spec_at_list; [lia|]. intros c Hc.
  go_step; [|apply IH; lia]. apply Z.eqb_eq in Heqb1 as ->.
  assert (i <> 0%nat) by (intros ->; done).
  assert (Hi2 : (i + 1 < length cleaned)%nat).
  { destruct (decide (i + 1 = length cleaned)%nat); [|lia]. exfalso. apply Hlast.
    rewrite last_lookup. by replace (pred (length cleaned)) with i by lia. }
  go_step; [repeat scan_step|]. destruct i as [|j]; [lia|].
  apply spec_at_list; [lia|]. intros d Hd. go_step; [repeat scan_step|].
  apply spec_at_list; [lia|]. intros e He. go_step; [repeat scan_step|]. apply IH; lia.
Qed.

Lemma filter_length (P : Z -> Prop) {HP : forall x, Decision (P x)} (l : list Z) :
  (length (filter P l) <= length l)%nat.
Proof. apply length_filter. Qed.

(** What a token must be for [parseFloat] not to panic: not empty, and not a
    sign alone. *)
Definition float_token (l : list Z) : Prop := l <> [] /\ l <> [43] /\ l <> [45].

Lemma remove_single l c : head l <> Some 95 -> last l <> Some 95 -> l <> [] ->
  remove_underscores l = [c] -> l = [c].
Proof.
  intros Hh Hl Hne E. destruct l as [|d l]; [done|]. simpl in Hh.
  unfold remove_underscores in E. rewrite filter_cons, decide_True in E by congruence.
  injection E as -> E. destruct l as [|x l]; [done|].
  apply remove_nil_last in E; [done|]. by apply (last_cons_cases c).
Qed.

Lemma parseFloat_safe b :
  float_token (dat b) ->
  spec (parseFloat NaN ParseFloat b)
    (fun f => f = NaN /\ (dat b = bs "+nan" \/ dat b = bs "-nan") \/
       ParseFloat (remove_underscores (dat b)) = Some f) (points_into b).
Proof.
  intros (Hne & Hp & Hm). assert (Hl : (0 < slen b)%nat) by (destruct (dat b); simpl; [done|lia]).
  unfold parseFloat. go_step.
  { repeat scan_step. left. split; [done|].
    apply orb_true_iff in Heqb0 as [H|H]; apply bool_decide_eq_true in H; eauto. }
  eapply spec_bind; [by apply underscores_float_spec|]. intros l (-> & Hh & Hlast).
  set (l := remove_underscores (dat b)).
  assert (Hll : (0 < length l)%nat).
  { destruct l eqn:E; [|simpl; lia]. by apply remove_nil_last in E. }
  apply spec_at_list; [done|]. intros c0 Hc0. go_step; [repeat scan_step|].
  apply spec_at_list; [lia|]. intros cl Hcl. go_step; [repeat scan_step|].
  eapply spec_bind.
  { apply float_dots_spec; [apply filter_length|lia..| |].
    - rewrite Hc0. intros [= ->]. done.
    - rewrite last_lookup. replace (pred (length l)) with (length l - 1)%nat by lia.
      rewrite Hcl. intros [= ->]. done. }
  intros _ _. apply spec_at_list.
  { destruct ((c0 =? 43) || (c0 =? 45)) eqn:Es; [|lia].
    destruct l as [|c [|c' l']] eqn:E; simpl in *; [lia| |lia].
    apply remove_single in E; [|done..]. injection Hc0 as ->.
    apply orb_true_iff in Es as [Es%Z.eqb_eq|Es%Z.eqb_eq]; subst c0; by rewrite E in *. }
  intros cs Hcs. apply (spec_bind _ _ (fun _ => True)).
  { go_step; [|by repeat scan_step]. apply spec_at_list; [lia|]. intros. by repeat scan_step. }
  intros lead _. go_step; [repeat scan_step|].
  destruct (ParseFloat l) as [f|] eqn:E; repeat scan_step. by right.
Qed.
End FloatSpec.

(** ** Claims *)

(** on a non-empty token [checkAndRemoveUnderscoresIntegers] always
    returns: the bytes of the token without its underscores when, after an
    optional sign, the token neither starts nor ends with an underscore and has
    no two in a row; otherwise an error that points into the token. *)
Theorem checkAndRemoveUnderscoresIntegers_spec (b : slice) :
  (0 < slen b)%nat ->
  spec (checkAndRemoveUnderscoresIntegers b)
    (fun l => l = remove_underscores (dat b) /\ well_placed (dat b))
    (fun e => points_into b e /\ ~ well_placed (dat b)).
Proof. apply underscores_int_spec. Qed.

Lemma checkAndRemoveUnderscoresIntegers_spec_witness :
  exists l, checkAndRemoveUnderscoresIntegers (doc (bs "-1_000")) = Ret l /\ l = bs "-1000" /\
    well_placed (bs "-1_000").
Proof.
  pose proof (checkAndRemoveUnderscoresIntegers_spec (doc (bs "-1_000"))) as H.
  destruct (checkAndRemoveUnderscoresIntegers (doc (bs "-1_000"))) as [l|?| |] eqn:E;
    vm_compute in E; try discriminate E.
  injection E as <-. exists (bs "-1000"). split; [reflexivity|]. split; [reflexivity|].
  apply H. vm_compute. repeat constructor.
Defined.

(** [parseInteger] reads every [int64] back: from its decimal digits, and
    when it is not negative from its hexadecimal, octal or binary digits after
    [0x], [0o] or [0b], with underscores anywhere between the digits. *)
Theorem parseInteger_roundtrip (o : nat) (l : list Z) (z : Z) :
  int64_ok z -> well_placed l ->
  (remove_underscores l = FormatInt z 10 -> parseInteger (Sl o l) = Ret z) /\
  (0 <= z -> forall p base, (p, base) ∈ [(120, 16); (98, 2); (111, 8)] ->
     remove_underscores l = FormatUint z base -> parseInteger (Sl o (48 :: p :: l)) = Ret z).
Proof.
  intros Hz Hw. split.
  - intros. by apply parseIntDec_roundtrip.
  - intros H0 p base Hp E. eapply based_roundtrip; try done. destruct Hz. lia.
Qed.

Lemma parseInteger_roundtrip_witness :
  parseInteger (Sl 3 (bs "1_0")) = Ret 10 /\ parseInteger (Sl 3 (bs "0x1_0")) = Ret 16.
Proof.
  assert (Hw : well_placed (bs "1_0")).
  { split_and!; [by vm_compute|by vm_compute|]. intros [|[|[|k]]] H; vm_compute in H |- *; done. }
  split.
  - apply (parseInteger_roundtrip 3 (bs "1_0") 10); [|exact Hw|reflexivity].
    unfold int64_ok, int64_min, int64_max. lia.
  - apply (parseInteger_roundtrip 3 (bs "1_0") 16) with (base := 16).
    + unfold int64_ok, int64_min, int64_max. lia.
    + exact Hw.
    + lia.
    + apply elem_of_cons. left. reflexivity.
    + reflexivity.
Defined.
End TomlDecode.
