(* ===== verification/TomlTime.v ===== *)
(** * Dates and times of TOML documents ([src/utoml/decode.go], [localtime.go])

    Reading local dates, local times and date-times from a token, and the
    methods of the local types. Methods that change their receiver return the
    new receiver beside their result. *)
From stdpp Require Import base numbers list gmap strings.
From S2P Require Import Prelude Strconv TomlChars TomlScan TomlDecode.
#[local] Open Scope Z_scope.

Module TomlTime.
Import Strconv TomlScan TomlDecode.

(** ** Types *)

Record LocalDate := LDate { Year : Z; Month : Z; Day : Z }.
Record LocalTime := LTime { Hour : Z; Minute : Z; Second : Z; Nanosecond : Z; Precision : Z }.
Record LocalDateTime := LDateTime { ldt_date : LocalDate; ldt_time : LocalTime }.

(** A [time.Time] as [time.Date] is asked for it: the calendar fields, and the
    zone as seconds east of UTC. *)
Record Time := GoTime { t_date : LocalDate; t_hour : Z; t_min : Z; t_sec : Z; t_nsec : Z; t_zone : Z }.

(** ** The calendar *)

Definition daysBefore : list Z :=
  [0; 31; 31 + 28; 31 + 28 + 31; 31 + 28 + 31 + 30; 31 + 28 + 31 + 30 + 31;
   31 + 28 + 31 + 30 + 31 + 30; 31 + 28 + 31 + 30 + 31 + 30 + 31;
   31 + 28 + 31 + 30 + 31 + 30 + 31 + 31; 31 + 28 + 31 + 30 + 31 + 30 + 31 + 31 + 30;
   31 + 28 + 31 + 30 + 31 + 30 + 31 + 31 + 30 + 31;
   31 + 28 + 31 + 30 + 31 + 30 + 31 + 31 + 30 + 31 + 30;
   31 + 28 + 31 + 30 + 31 + 30 + 31 + 31 + 30 + 31 + 30 + 31].

Definition isLeap (year : Z) : bool :=
  (Z.rem year 4 =? 0) && (negb (Z.rem year 100 =? 0) || (Z.rem year 400 =? 0)).

(** An index into the table, which panics outside it. *)
Definition days_at {E} (i : Z) : go E Z :=
  if i <? 0 then Panic else at_ daysBefore (Z.to_nat i).

Definition daysIn {E} (m year : Z) : go E Z :=
  if (m =? 2) && isLeap year then mret 29
  else a ← days_at m; b ← days_at (m - 1); mret (a - b).

Definition isValidDate {E} (year month day : Z) : go E bool :=
  if (0 <? month) && (month <? 13) && (0 <? day)
  then n ← daysIn month year; mret (day <=? n) else mret false.

(** ** Reading *)

Fixpoint decimal_loop (fuel : nat) (b : slice) (v : Z) (i : nat) : go ParserError Z :=
  match fuel with
  | O => OutOfFuel
  | S fuel' =>
      if (i <? slen b)%nat then
        c ← s_at b i;
        if (c <? 48) || (57 <? c) then
          h ← s_sub b i (i + 1); fail h "expected digit (0-9)" []
        else decimal_loop fuel' b (v * 10 + (c - 48)) (i + 1)
      else mret v
  end.

Definition parseDecimalDigits (b : slice) : go ParserError Z :=
  decimal_loop (S (slen b)) b 0 0.

Definition parseLocalDate (b : slice) : go ParserError LocalDate :=
  bad ← (if negb (slen b =? 10)%nat then mret true
         else c4 ← s_at b 4;
              if negb (c4 =? 45) then mret true
              else c7 ← s_at b 7; mret (negb (c7 =? 45)));
  if (bad : bool) then fail b "dates are expected to have the format YYYY-MM-DD" []
  else
    ys ← s_sub b 0 4; year ← parseDecimalDigits ys;
    let year := if (year <? 1970) || (9999 <? year) then 1970 else year in
    ms ← s_sub b 5 7; month ← parseDecimalDigits ms;
    let month := if (month <? 1) || (12 <? month) then 1 else month in
    ds ← s_sub b 8 10; day ← parseDecimalDigits ds;
    day ← (if day <? 1 then mret 1
           else n ← daysIn month year; mret (if n <? day then 1 else day));
    ok ← isValidDate year month day;
    if (ok : bool) then mret (LDate year month day)
    else fail b "impossible date" [].

Definition nspow : list Z :=
  [0; 100000000; 10000000; 1000000; 100000; 10000; 1000; 100; 10; 1].

(** The loop over the digits of a fraction; [None] when the first byte is not a
    digit. *)
Fixpoint frac_loop (l : list Z) (i : nat) (frac precision : Z) (digits : nat)
    : option (Z * Z * nat) :=
  match l with
  | [] => Some (frac, precision, digits)
  | c :: l' =>
      if negb (isDigit c) then
        if (i =? 0)%nat then None else Some (frac, precision, digits)
      else if (9 <=? i)%nat then frac_loop l' (S i) frac precision (S digits)
      else frac_loop l' (S i) (frac * 10 + (c - 48)) (precision + 1) (S digits)
  end.

Definition parseLocalTime (b : slice) : go ParserError (LocalTime * slice) :=
  if (slen b <? 8)%nat then
    fail b "times are expected to have the format HH:MM:SS[.NNNNNN]" []
  else
    hs ← s_sub b 0 2; hour ← parseDecimalDigits hs;
    if 23 <? hour then h ← s_sub b 0 2; fail h "hour cannot be greater 23" []
    else
      c2 ← s_at b 2;
      if negb (c2 =? 58) then
        h ← s_sub b 2 3; fail h "expecting colon between hours and minutes" []
      else
        ms ← s_sub b 3 5; minute ← parseDecimalDigits ms;
        if 59 <? minute then h ← s_sub b 3 5; fail h "minutes cannot be greater 59" []
        else
          c5 ← s_at b 5;
          if negb (c5 =? 58) then
            h ← s_sub b 5 6; fail h "expecting colon between minutes and seconds" []
          else
            ss ← s_sub b 6 8; second ← parseDecimalDigits ss;
            if 60 <? second then h ← s_sub b 6 8; fail h "seconds cannot be greater 60" []
            else
              q ← s_from b 8;
              dot ← (if (1 <=? slen q)%nat then c ← s_at q 0; mret (c =? 46) else mret false);
              if (dot : bool) then
                f ← s_from q 1;
                match frac_loop (dat f) 0 0 0 0 with
                | None =>
                    h ← s_sub q 0 1; fail h "need at least one digit after fraction point" []
                | Some (frac, precision, digits) =>
                    if precision =? 0 then
                      h ← s_to q 1; fail h "nanoseconds need at least one digit" []
                    else
                      pow ← at_ nspow (Z.to_nat precision);
                      r ← s_from q (1 + digits);
                      mret (LTime hour minute second (frac * pow) precision, r)
                end
              else mret (LTime hour minute second 0 0, q).

Definition parseLocalDateTime (b : slice) : go ParserError (LocalDateTime * slice) :=
  if (slen b <? 11)%nat then
    fail b "local datetimes are expected to have the format YYYY-MM-DDTHH:MM:SS[.NNNNNNNNN]" []
  else
    db ← s_to b 10; date ← parseLocalDate db;
    sep ← s_at b 10;
    if negb (sep =? 84) && negb (sep =? 32) && negb (sep =? 116) then
      h ← s_sub b 10 11; fail h "datetime separator is expected to be T or a space" []
    else
      tb ← s_from b 11; tr ← parseLocalTime tb;
      let '(t, rest) := (tr : LocalTime * slice) in
      mret (LDateTime date t, rest).

Definition parseDateTime (b : slice) : go ParserError Time :=
  dtr ← parseLocalDateTime b;
  let '(dt, b) := (dtr : LocalDateTime * slice) in
  if (slen b =? 0)%nat then Panic
  else
    c0 ← s_at b 0;
    zr ← (if (c0 =? 90) || (c0 =? 122) then r ← s_from b 1; mret (0, r)
          else if negb (slen b =? 6)%nat then fail b "invalid date-time timezone" []
          else
            if negb (c0 =? 45) && negb (c0 =? 43) then
              h ← s_to b 1; fail h "invalid timezone offset character" []
            else
              let direction := if c0 =? 45 then -1 else 1 in
              c3 ← s_at b 3;
              if negb (c3 =? 58) then h ← s_sub b 3 4; fail h "expected a : separator" []
              else
                hs ← s_sub b 1 3; hours ← parseDecimalDigits hs;
                if 23 <? hours then h ← s_to b 1; fail h "invalid timezone offset hours" []
                else
                  ms ← s_sub b 4 6; minutes ← parseDecimalDigits ms;
                  if 59 <? minutes then h ← s_to b 1; fail h "invalid timezone offset minutes" []
                  else
                    r ← s_from b 6;
                    mret (direction * (hours * 3600 + minutes * 60), r));
    let '(zone, b) := (zr : Z * slice) in
    if (0 <? slen b)%nat then fail b "extra bytes at the end of the timezone" []
    else mret (GoTime (ldt_date dt) (Hour (ldt_time dt)) (Minute (ldt_time dt))
                 (Second (ldt_time dt)) (Nanosecond (ldt_time dt)) zone).

(** ** Methods of the local types *)

(** The receiver of [IsZero] may be nil. *)
Definition LocalDate_IsZero (d : option LocalDate) : bool :=
  match d with
  | None => true
  | Some d => (Year d <=? 1970) && (Month d <=? 1) && (Day d <=? 1)
  end.

(** [String] repairs its receiver before it prints it. *)
Definition LocalDate_String {E} (d : LocalDate) : go E (list Z * LocalDate) :=
  let year := if Year d <? 1970 then 1970 else Year d in
  let month := if (Month d <? 1) || (12 <? Month d) then 1 else Month d in
  day ← (if Day d <? 1 then mret 1
         else n ← daysIn month year; mret (if n <? Day d then 1 else Day d));
  mret (fmt_0d 4 year ++ [45] ++ fmt_0d 2 month ++ [45] ++ fmt_0d 2 day, LDate year month day).

Definition LocalDate_MarshalText {E} (d : LocalDate) : go E (list Z * LocalDate) :=
  if LocalDate_IsZero (Some d) then mret ([], d) else LocalDate_String d.

Definition LocalDate_UnmarshalText (d : LocalDate) (b : slice) : go ParserError LocalDate :=
  if (slen b <? 1)%nat then mret d else parseLocalDate b.

Definition LocalTime_IsZero (d : option LocalTime) : bool :=
  match d with
  | None => true
  | Some d => (Hour d =? 0) || (Minute d =? 0) || (Second d =? 0)
  end.

(** [strings.Trim(s, "0")] *)
Fixpoint trim_left (l : list Z) : list Z :=
  match l with
  | c :: l' => if c =? 48 then trim_left l' else l
  | [] => []
  end.
Definition trim_zeros (l : list Z) : list Z := reverse (trim_left (reverse (trim_left l))).

Definition LocalTime_String {E} (d : LocalTime) : go E (list Z) :=
  let s := fmt_0d 2 (Hour d) ++ [58] ++ fmt_0d 2 (Minute d) ++ [58] ++ fmt_0d 2 (Second d) in
  let f := 46 :: fmt_0d 9 (Nanosecond d) in
  if 0 <? Precision d then
    if Z.of_nat (length f) <? Precision d + 1 then Panic
    else mret (s ++ take (Z.to_nat (Precision d + 1)) f)
  else if 0 <? Nanosecond d then mret (s ++ trim_zeros f)
  else mret s.

Definition LocalTime_MarshalText {E} (d : LocalTime) : go E (list Z) :=
  if LocalTime_IsZero (Some d) then mret [] else LocalTime_String d.

Definition LocalTime_UnmarshalText (d : LocalTime) (b : slice) : go ParserError LocalTime :=
  if (slen b <? 1)%nat then mret d
  else
    tr ← parseLocalTime b;
    let '(res, rest) := (tr : LocalTime * slice) in
    if negb (slen rest =? 0)%nat then fail rest "extra characters" [] else mret res.

Definition LocalDateTime_IsZero (d : option LocalDateTime) : bool :=
  match d with
  | None => true
  | Some d => LocalDate_IsZero (Some (ldt_date d)) || LocalTime_IsZero (Some (ldt_time d))
  end.

Definition LocalDateTime_String {E} (d : LocalDateTime) : go E (list Z * LocalDateTime) :=
  if LocalDateTime_IsZero (Some d) then mret ([], d)
  else
    r ← LocalDate_String (ldt_date d);
    let '(s, d') := (r : list Z * LocalDate) in
    t ← LocalTime_String (ldt_time d);
    mret (s ++ [84] ++ t, LDateTime d' (ldt_time d)).

Definition LocalDateTime_MarshalText {E} (d : LocalDateTime) : go E (list Z * LocalDateTime) :=
  LocalDateTime_String d.

Definition LocalDateTime_UnmarshalText (d : LocalDateTime) (data : slice)
    : go ParserError LocalDateTime :=
  if (slen data <? 1)%nat then mret d
  else
    r ← parseLocalDateTime data;
    let '(res, rest) := (r : LocalDateTime * slice) in
    if negb (slen rest =? 0)%nat then fail rest "extra characters" [] else mret res.

(** [AsTime], in a zone given by its offset. *)
Definition LocalDate_AsTime (d : LocalDate) (zone : Z) : Time := GoTime d 0 0 0 0 zone.
Definition LocalDateTime_AsTime (d : LocalDateTime) (zone : Z) : Time :=
  GoTime (ldt_date d) (Hour (ldt_time d)) (Minute (ldt_time d)) (Second (ldt_time d))
    (Nanosecond (ldt_time d)) zone.

(** ** Decimal digits *)

Definition digit (c : Z) : Prop := 48 <= c <= 57.

(** The number that digits denote. *)
Definition num_from (v : Z) (l : list Z) : Z := foldl (fun v c => v * 10 + (c - 48)) v l.
Definition num (l : list Z) : Z := num_from 0 l.

Lemma num_from_parse l v : Forall digit l -> parse_digits 10 v l = Some (num_from v l).
Proof.
  intros H. revert v. induction H as [|c l Hc Hl IH]; intros v; [done|]. simpl.
  unfold digit in Hc. unfold digit_val.
  rewrite (proj2 (Z.leb_le _ _)), (proj2 (Z.leb_le _ _)) by lia. simpl.
  rewrite (proj2 (Z.ltb_lt _ _)) by lia. apply IH.
Qed.

Lemma num_from_bound l v :
  Forall digit l -> 0 <= v ->
  0 <= num_from v l < (v + 1) * 10 ^ Z.of_nat (length l).
Proof.
  intros H. revert v. induction H as [|c l Hc Hl IH]; intros v Hv.
  - simpl. lia.
  - cbn [num_from foldl]. specialize (IH (v * 10 + (c - 48))). unfold digit in Hc.
    cbn [length]. rewrite Nat2Z.inj_succ, Z.pow_succ_r by lia. unfold num_from in *.
    assert (0 < 10 ^ Z.of_nat (length l)) by (apply Z.pow_pos_nonneg; lia). nia.
Qed.

Lemma num_bound l : Forall digit l -> 0 <= num l < 10 ^ Z.of_nat (length l).
Proof. intros H. pose proof (num_from_bound l 0 H). unfold num. lia. Qed.

Lemma fmt_0d_num n z :
  (0 < n)%nat -> 0 <= z < 10 ^ Z.of_nat n ->
  length (fmt_0d n z) = n /\ Forall digit (fmt_0d n z) /\ num (fmt_0d n z) = z.
Proof.
  intros Hn Hz. destruct (fmt_0d_spec n z Hn Hz) as (H1 & H2 & H3).
  split_and!; [done|done|]. rewrite num_from_parse in H3 by done. by injection H3.
Qed.

Lemma decimal_loop_spec fuel b v i :
  (i <= slen b)%nat -> (slen b < fuel + i)%nat -> Forall digit (take i (dat b)) ->
  v = num (take i (dat b)) ->
  spec (decimal_loop fuel b v i) (fun n => Forall digit (dat b) /\ n = num (dat b))
    (fun e => points_into b e /\ ~ Forall digit (dat b)).
Proof.
  revert v i. induction fuel as [|fuel IH]; intros v i Hi Hf Hd Hv; [lia|]. cbn [decimal_loop].
  repeat scan_step.
  - split; [eauto with slices|]. intros Ha. apply (Forall_lookup_1 _ _ _ _ Ha) in Hc.
    unfold digit in Hc. lia.
  - apply IH; [lia..| |].
    + rewrite Nat.add_1_r, (take_S_r _ _ _ Hc). apply Forall_app. split; [done|].
      constructor; [unfold digit; lia|done].
    + rewrite Nat.add_1_r, (take_S_r _ _ _ Hc), Hv. unfold num, num_from.
      by rewrite foldl_app.
  - rewrite take_ge in * by lia. done.
Qed.

Lemma parseDecimalDigits_spec b :
  spec (parseDecimalDigits b) (fun n => Forall digit (dat b) /\ n = num (dat b))
    (fun e => points_into b e /\ ~ Forall digit (dat b)).
Proof. apply decimal_loop_spec; [lia..|done|done]. Qed.

(** Reading the digits of a part of a token. *)
Lemma spec_digits_bind {B} b i j (k : Z -> go ParserError B) Q R :
  (i <= j <= slen b)%nat ->
  (Forall digit (part b i j) -> spec (k (num (part b i j))) Q R) ->
  (forall e, points_into b e -> ~ Forall digit (part b i j) -> R e) ->
  spec (s_sub b i j ≫= fun s => parseDecimalDigits s ≫= k) Q R.
Proof.
  intros Hi Hk HR. apply spec_sub_bind; [done|]. eapply spec_bind.
  - eapply spec_mono; [apply parseDecimalDigits_spec|intros a Ha; exact Ha|].
    intros e [He Hn]. apply HR; [|done]. unfold points_into in *.
    etransitivity; [exact He|]. apply sub_sub. lia.
  - intros a [Ha ->]. by apply Hk.
Qed.

(** ** The calendar *)

Definition leap (y : Z) : Prop := y mod 4 = 0 /\ (y mod 100 <> 0 \/ y mod 400 = 0).
#[export] Instance leap_dec y : Decision (leap y).
Proof. unfold leap. apply _. Defined.

(** The number of days of a month. *)
Definition days_in (m y : Z) : Z :=
  if m =? 2 then if decide (leap y) then 29 else 28
  else if (m =? 4) || (m =? 6) || (m =? 9) || (m =? 11) then 30 else 31.

Lemma isLeap_leap y : isLeap y = bool_decide (leap y).
Proof.
  unfold isLeap. apply eq_true_iff_eq. rewrite bool_decide_eq_true.
  rewrite andb_true_iff, orb_true_iff, negb_true_iff, !Z.eqb_eq, Z.eqb_neq.
  rewrite !Z.rem_divide by lia. unfold leap. by rewrite !Z.mod_divide by lia.
Qed.

Lemma daysIn_eq {E} m y : 1 <= m <= 12 -> @daysIn E m y = Ret (days_in m y).
Proof.
  intros Hm. unfold daysIn, days_in. rewrite isLeap_leap.
  destruct (Z.eqb_spec m 2) as [->|]; simpl.
  - case_bool_decide; by case_decide.
  - assert (m = 1 \/ m = 3 \/ m = 4 \/ m = 5 \/ m = 6 \/ m = 7 \/ m = 8 \/ m = 9 \/ m = 10 \/
      m = 11 \/ m = 12) as Hc by lia. destruct_or! Hc; subst m; done.
Qed.

Lemma days_in_pos m y : 28 <= days_in m y <= 31.
Proof. unfold days_in. repeat case_match; lia. Qed.

Definition valid_date (d : LocalDate) : Prop :=
  1970 <= Year d <= 9999 /\ 1 <= Month d <= 12 /\ 1 <= Day d <= days_in (Month d) (Year d).

(** What the code makes of three numbers: the numbers that are out of range are
    replaced. *)
Definition repair_date (y m d : Z) : LocalDate :=
  let y' := if decide (1970 <= y <= 9999) then y else 1970 in
  let m' := if decide (1 <= m <= 12) then m else 1 in
  let d' := if decide (1 <= d <= days_in m' y') then d else 1 in
  LDate y' m' d'.

Lemma repair_date_valid y m d : valid_date (repair_date y m d).
Proof.
  unfold valid_date, repair_date. simpl. repeat case_decide; simpl; try lia;
    match goal with |- context [days_in ?m ?y] => pose proof (days_in_pos m y); lia end.
Qed.

Lemma repair_date_id d : valid_date d -> repair_date (Year d) (Month d) (Day d) = d.
Proof.
  intros (H1 & H2 & H3). unfold repair_date. rewrite !decide_True by lia. by destruct d.
Qed.

(** ** Dates *)

Definition date_text (l : list Z) : Prop :=
  exists y m d, l = y ++ [45] ++ m ++ [45] ++ d /\ length y = 4%nat /\ length m = 2%nat /\
    length d = 2%nat /\ Forall digit y /\ Forall digit m /\ Forall digit d.

Lemma list_at4_7 (l : list Z) :
  length l = 10%nat -> l !! 4%nat = Some 45 -> l !! 7%nat = Some 45 ->
  l = take 4 l ++ [45] ++ take 2 (drop 5 l) ++ [45] ++ take 2 (drop 8 l).
Proof.
  intros Hl H4 H7. do 10 (destruct l as [|? l]; [done|]). destruct l; [|done].
  simpl in *. by simplify_eq.
Qed.

Lemma date_text_iff l :
  date_text l <-> length l = 10%nat /\ l !! 4%nat = Some 45 /\ l !! 7%nat = Some 45 /\
    Forall digit (take 4 l) /\ Forall digit (take 2 (drop 5 l)) /\ Forall digit (take 2 (drop 8 l)).
Proof.
  split.
  - intros (y & m & d & -> & Hy & Hm & Hd & Fy & Fm & Fd).
    destruct y as [|y1 [|y2 [|y3 [|y4 [|]]]]], m as [|m1 [|m2 [|]]], d as [|d1 [|d2 [|]]]; done.
  - intros (Hl & H4 & H7 & F1 & F2 & F3). eexists _, _, _.
    split_and!; [by apply list_at4_7|..|exact F1|exact F2|exact F3]; rewrite ?length_take, ?length_drop; lia.
Qed.

Lemma parseLocalDate_body b :
  spec (parseLocalDate b)
    (fun d => date_text (dat b) /\ d = repair_date (num (take 4 (dat b)))
       (num (take 2 (drop 5 (dat b)))) (num (take 2 (drop 8 (dat b)))))
    (fun e => points_into b e /\ ~ date_text (dat b)).
Proof.
  unfold parseLocalDate. apply (spec_bind _ _ (fun bad =>
    bad = negb (bool_decide (length (dat b) = 10%nat /\ dat b !! 4%nat = Some 45 /\ dat b !! 7%nat = Some 45)))).
  { repeat scan_step.
    - rewrite bool_decide_eq_false_2 by lia. done.
    - rewrite Hc, bool_decide_eq_false_2; [done|]. intros (_ & [= ->] & _). done.
    - rewrite Hc, Hc0. destruct (Z.eqb_spec c0 45) as [->|].
      + rewrite bool_decide_eq_true_2; [done|]. split_and!; [lia|f_equal; lia|done].
      + rewrite bool_decide_eq_false_2; [done|]. intros (_ & _ & [= ->]). done. }
  intros bad ->. case_bool_decide as Hfmt; simpl negb; cbv iota.
  2:{ repeat scan_step. split; [eauto with slices|]. rewrite date_text_iff. tauto. }
  destruct Hfmt as (Hl & H4 & H7).
  apply spec_digits_bind; [lia| |intros e He Hn; split; [done|rewrite date_text_iff; tauto]].
  intros Fy. apply spec_digits_bind; [lia| |intros e He Hn; split; [done|rewrite date_text_iff; tauto]].
  intros Fm. apply spec_digits_bind; [lia| |intros e He Hn; split; [done|rewrite date_text_iff; tauto]].
  intros Fd. change (part b 0 4) with (take 4 (dat b)) in *.
  change (part b 5 7) with (take 2 (drop 5 (dat b))) in *.
  change (part b 8 10) with (take 2 (drop 8 (dat b))) in *.
  set (y := num (take 4 (dat b))). set (m := num (take 2 (drop 5 (dat b)))).
  set (d := num (take 2 (drop 8 (dat b)))).
  assert (Ey : (if (y <? 1970) || (9999 <? y) then 1970 else y) =
    Year (repair_date y m d)).
  { unfold repair_date. simpl. destruct (Z.ltb_spec y 1970), (Z.ltb_spec 9999 y); simpl; case_decide; lia. }
  assert (Em : (if (m <? 1) || (12 <? m) then 1 else m) = Month (repair_date y m d)).
  { unfold repair_date. simpl. destruct (Z.ltb_spec m 1), (Z.ltb_spec 12 m); simpl; case_decide; lia. }
  rewrite Ey, Em. destruct (repair_date_valid y m d) as (Vy & Vm & Vd).
  rewrite daysIn_eq by done. unfold isValidDate.
  assert (Ed : (if d <? 1 then mret 1 else n ← Ret (days_in (Month (repair_date y m d)) (Year (repair_date y m d)));
     mret (if n <? d then 1 else d)) = @Ret ParserError _ (Day (repair_date y m d))).
  { unfold repair_date. simpl. destruct (Z.ltb_spec d 1); simpl.
    - rewrite decide_False by lia. done.
    - destruct (Z.ltb_spec (days_in (if decide (1 <= m <= 12) then m else 1) (if decide (1970 <= y <= 9999) then y else 1970)) d);
        [rewrite decide_False by lia|rewrite decide_True by lia]; done. }
  rewrite Ed. clear Ey Em Ed. generalize dependent (repair_date y m d). intros r Vy Vm Vd. simpl.
  replace ((0 <? Month r) && (Month r <? 13) && (0 <? Day r)) with true by lia.
  rewrite daysIn_eq by done. simpl. rewrite (proj2 (Z.leb_le _ _)) by lia. simpl.
  split; [|by destruct r]. apply date_text_iff. done.
Qed.

Lemma LocalDate_String_valid {E} d :
  valid_date d -> exists s, @LocalDate_String E d = Ret (s, d) /\ date_text s /\
    num (take 4 s) = Year d /\ num (take 2 (drop 5 s)) = Month d /\ num (take 2 (drop 8 s)) = Day d.
Proof.
  intros (Hy & Hm & Hd). unfold LocalDate_String.
  pose proof (days_in_pos (Month d) (Year d)).
  rewrite (proj2 (Z.ltb_ge (Year d) 1970)), (proj2 (Z.ltb_ge (Month d) 1)),
    (proj2 (Z.ltb_ge 12 (Month d))), (proj2 (Z.ltb_ge (Day d) 1)) by lia.
  simpl. rewrite daysIn_eq by done. simpl. rewrite (proj2 (Z.ltb_ge _ (Day d))) by lia.
  destruct (fmt_0d_num 4 (Year d)) as (Ly & Fy & Ny); [lia..|].
  destruct (fmt_0d_num 2 (Month d)) as (Lm & Fm & Nm); [lia..|].
  destruct (fmt_0d_num 2 (Day d)) as (Ld & Fd & Nd); [lia..|].
  destruct d as [y m d]. simpl in *. eexists. split; [done|].
  revert Ly Lm Ld Ny Nm Nd Fy Fm Fd. generalize (fmt_0d 4 y), (fmt_0d 2 m), (fmt_0d 2 d).
  intros ys ms ds Ly Lm Ld. destruct ys as [|y1 [|y2 [|y3 [|y4 [|]]]]], ms as [|m1 [|m2 [|]]],
    ds as [|d1 [|d2 [|]]]; try done. simpl. intros Ny Nm Nd Fy Fm Fd.
  split_and!; [|done..]. by exists [y1; y2; y3; y4], [m1; m2], [d1; d2].
Qed.

(** ** Times *)

Fixpoint digit_prefix (l : list Z) : list Z :=
  match l with
  | c :: l' => if isDigit c then c :: digit_prefix l' else []
  | [] => []
  end.

Lemma digit_prefix_spec l :
  exists r, l = digit_prefix l ++ r /\ Forall digit (digit_prefix l) /\
    forall c, head r = Some c -> ~ digit c.
Proof.
  induction l as [|c l (r & E & F & H)]; [by exists []|]. simpl. unfold isDigit.
  destruct ((48 <=? c) && (c <=? 57)) eqn:Ec.
  - exists r. simpl. rewrite <- E. split_and!; [done| |done]. constructor; [unfold digit; lia|done].
  - exists (c :: l). split_and!; [done|done|]. intros c' [= <-]. unfold digit. lia.
Qed.

Lemma digit_prefix_unique l r :
  Forall digit l -> (forall c, head r = Some c -> ~ digit c) -> digit_prefix (l ++ r) = l.
Proof.
  intros Hl Hr. induction Hl as [|c l Hc Hl IH]; simpl.
  - destruct r as [|c r]; [done|]. simpl. specialize (Hr c eq_refl). unfold isDigit, digit in *.
    by replace ((48 <=? c) && (c <=? 57)) with false by lia.
  - unfold isDigit, digit in *. replace ((48 <=? c) && (c <=? 57)) with true by lia. by rewrite IH.
Qed.

Lemma frac_loop_spec l i frac precision digits :
  (i = 0%nat -> l = [] \/ exists c, head l = Some c /\ digit c) ->
  frac_loop l i frac precision digits =
    Some (num_from frac (take (9 - i) (digit_prefix l)),
          precision + Z.of_nat (length (take (9 - i) (digit_prefix l))),
          (digits + length (digit_prefix l))%nat).
Proof.
  revert i frac precision digits. induction l as [|c l IH]; intros i frac precision digits Hi.
  - simpl. rewrite take_nil. simpl. by rewrite Z.add_0_r, Nat.add_0_r.
  - cbn [frac_loop digit_prefix]. destruct (isDigit c) eqn:Ec; cbn [negb].
    + destruct (Nat.leb_spec 9 i).
      * rewrite IH by lia. replace (9 - S i)%nat with 0%nat by lia. replace (9 - i)%nat with 0%nat by lia.
        simpl. do 2 f_equal. lia.
      * rewrite IH by lia. replace (9 - i)%nat with (S (9 - S i)) by lia. cbn [take length].
        rewrite Nat2Z.inj_succ. apply f_equal. rewrite !Nat.add_succ_r, Z.add_succ_r, <- Z.add_succ_l. done.
    + destruct (Nat.eqb_spec i 0) as [->|].
      * exfalso. destruct (Hi eq_refl) as [|(c' & [= <-] & Hd)]; [done|].
        unfold isDigit, digit in *. lia.
      * rewrite take_nil. simpl. by rewrite Z.add_0_r, Nat.add_0_r.
Qed.

Lemma frac_loop_None l c :
  head l = Some c -> ~ digit c -> frac_loop l 0 0 0 0 = None.
Proof.
  destruct l as [|c' l]; [done|]. intros [= ->] Hd. simpl.
  unfold isDigit, digit in *. by replace ((48 <=? c) && (c <=? 57)) with false by lia.
Qed.

(** The fraction of a second: what the digits after the point denote. *)
Definition frac_time (h m s : Z) (ds : list Z) : LocalTime :=
  let ds9 := take 9 ds in
  LTime h m s (num ds9 * 10 ^ (9 - Z.of_nat (length ds9))) (Z.of_nat (length ds9)).

(** [time_parse l t r]: [l] starts with the time [t], and [r] is left. *)
Inductive time_parse (l : list Z) : LocalTime -> list Z -> Prop :=
| tp_whole h m s r :
    l = h ++ [58] ++ m ++ [58] ++ s ++ r ->
    length h = 2%nat -> length m = 2%nat -> length s = 2%nat ->
    Forall digit h -> Forall digit m -> Forall digit s ->
    num h <= 23 -> num m <= 59 -> num s <= 60 ->
    head r <> Some 46 -> time_parse l (LTime (num h) (num m) (num s) 0 0) r
| tp_frac h m s ds r :
    l = h ++ [58] ++ m ++ [58] ++ s ++ 46 :: ds ++ r ->
    length h = 2%nat -> length m = 2%nat -> length s = 2%nat ->
    Forall digit h -> Forall digit m -> Forall digit s ->
    num h <= 23 -> num m <= 59 -> num s <= 60 ->
    Forall digit ds -> ds <> [] -> (forall c, head r = Some c -> ~ digit c) ->
    time_parse l (frac_time (num h) (num m) (num s) ds) r.

(** The part of a time before the fraction. *)
Definition clock_text (l : list Z) : Prop :=
  (8 <= length l)%nat /\ l !! 2%nat = Some 58 /\ l !! 5%nat = Some 58 /\
  Forall digit (take 2 l) /\ Forall digit (take 2 (drop 3 l)) /\ Forall digit (take 2 (drop 6 l)) /\
  num (take 2 l) <= 23 /\ num (take 2 (drop 3 l)) <= 59 /\ num (take 2 (drop 6 l)) <= 60.

Lemma clock_split (l : list Z) :
  (8 <= length l)%nat -> l !! 2%nat = Some 58 -> l !! 5%nat = Some 58 ->
  l = take 2 l ++ [58] ++ take 2 (drop 3 l) ++ [58] ++ take 2 (drop 6 l) ++ drop 8 l.
Proof.
  intros Hl H4 H7. do 8 (destruct l as [|? l]; [simpl in Hl; lia|]). simpl in *. by simplify_eq.
Qed.

Lemma clock_app h m s r :
  length h = 2%nat -> length m = 2%nat -> length s = 2%nat ->
  let l := h ++ [58] ++ m ++ [58] ++ s ++ r in
  take 2 l = h /\ take 2 (drop 3 l) = m /\ take 2 (drop 6 l) = s /\ drop 8 l = r /\
  l !! 2%nat = Some 58 /\ l !! 5%nat = Some 58 /\ (8 <= length l)%nat.
Proof.
  intros Hh Hm Hs. destruct h as [|h1 [|h2 [|]]], m as [|m1 [|m2 [|]]], s as [|s1 [|s2 [|]]]; try done.
  simpl. split_and!; try done. lia.
Qed.

(** A time is a clock text, and a fraction that is complete. *)
Lemma time_parse_clock l t r :
  time_parse l t r -> clock_text l /\
  (drop 8 l = r /\ head r <> Some 46 /\
     t = LTime (num (take 2 l)) (num (take 2 (drop 3 l))) (num (take 2 (drop 6 l))) 0 0 \/
   exists ds, drop 8 l = 46 :: ds ++ r /\ Forall digit ds /\ ds <> [] /\
     (forall c, head r = Some c -> ~ digit c) /\
     t = frac_time (num (take 2 l)) (num (take 2 (drop 3 l))) (num (take 2 (drop 6 l))) ds).
Proof.
  intros [h m s r' -> Lh Lm Ls Fh Fm Fs Bh Bm Bs Hr|h m s ds r' -> Lh Lm Ls Fh Fm Fs Bh Bm Bs Fd Nd Hr].
  - destruct (clock_app h m s r' Lh Lm Ls) as (E1 & E2 & E3 & E4 & E5 & E6 & E7).
    unfold clock_text. rewrite E1, E2, E3, E4. split; [done|]. by left.
  - destruct (clock_app h m s (46 :: ds ++ r') Lh Lm Ls) as (E1 & E2 & E3 & E4 & E5 & E6 & E7).
    unfold clock_text. rewrite E1, E2, E3, E4. split; [done|]. right. by exists ds.
Qed.

Lemma time_parse_intro l :
  clock_text l ->
  (head (drop 8 l) <> Some 46 ->
     time_parse l (LTime (num (take 2 l)) (num (take 2 (drop 3 l))) (num (take 2 (drop 6 l))) 0 0) (drop 8 l)) /\
  (forall ds r, drop 8 l = 46 :: ds ++ r -> Forall digit ds -> ds <> [] ->
     (forall c, head r = Some c -> ~ digit c) ->
     time_parse l (frac_time (num (take 2 l)) (num (take 2 (drop 3 l))) (num (take 2 (drop 6 l))) ds) r).
Proof.
  intros (Hl & H2 & H5 & F1 & F2 & F3 & B1 & B2 & B3). pose proof (clock_split l Hl H2 H5) as E.
  split.
  - intros Hh. econstructor; [exact E|..|exact Hh]; try done; rewrite length_take, ?length_drop; lia.
  - intros ds r Ed Fd Nd Hr. rewrite Ed in E.
    econstructor; [exact E|..]; try done; rewrite length_take, ?length_drop; lia.
Qed.

Lemma nspow_at {E} p : (1 <= p <= 9)%nat -> @at_ E nspow p = Ret (10 ^ (9 - Z.of_nat p)).
Proof.
  intros Hp. assert (p = 1 \/ p = 2 \/ p = 3 \/ p = 4 \/ p = 5 \/ p = 6 \/ p = 7 \/ p = 8 \/ p = 9)%nat
    as Hc by lia. destruct_or! Hc; subst p; done.
Qed.

(** The errors of a reader whose input has no reading. *)
Definition no_reading (b : slice) (e : ParserError) : Prop :=
  points_into b e /\ forall t r, ~ time_parse (dat b) t r.

Lemma not_clock b e : points_into b e -> ~ clock_text (dat b) -> no_reading b e.
Proof. intros He Hn. split; [done|]. intros t r [H _]%time_parse_clock. done. Qed.

(** The fraction, after a clock text. *)
Lemma parse_frac_spec b q h m s :
  clock_text (dat b) -> sub q b -> dat q = drop 8 (dat b) -> head (dat q) = Some 46 ->
  h = num (take 2 (dat b)) -> m = num (take 2 (drop 3 (dat b))) -> s = num (take 2 (drop 6 (dat b))) ->
  spec (f ← s_from q 1;
    match frac_loop (dat f) 0 0 0 0 with
    | None => h ← s_sub q 0 1; fail h "need at least one digit after fraction point" []
    | Some (frac, precision, digits) =>
        if precision =? 0 then h ← s_to q 1; fail h "nanoseconds need at least one digit" []
        else
          pow ← at_ nspow (Z.to_nat precision);
          r ← s_from q (1 + digits);
          mret (LTime h m s (frac * pow) precision, r)
    end)
    (fun '(t, r) => time_parse (dat b) t (dat r) /\ sub r b) (no_reading b).
Proof.
  intros Hclk Hsub Eq Hdot -> -> ->. destruct (time_parse_intro _ Hclk) as [_ Hfrac].
  destruct (dat q) as [|c0 f] eqn:Edq; [done|]. injection Hdot as ->.
  assert (Hlq : slen q = S (length f)) by (by rewrite Edq).
  apply spec_from_bind; [lia|]. rewrite Edq. cbn [dat drop]. rewrite drop_0.
  assert (Herr : (forall c, head f = Some c -> ~ digit c) -> forall t r, ~ time_parse (dat b) t r).
  { intros Hh t r [_ [(E1 & E2 & _)|(ds & E1 & Fd & Nd & _)]]%time_parse_clock.
    - rewrite <- E1, <- Eq in E2. done.
    - rewrite <- Eq in E1. injection E1 as ->. destruct Fd as [|d ds Hd Fd]; [done|].
      by apply (Hh d). }
  assert (Hin : forall h, sub h q -> sub h b) by (intros x Hx; by transitivity q).
  destruct (digit_prefix_spec f) as (r & Er & Fr & Hr).
  destruct f as [|c f].
  - simpl. repeat scan_step. split; [|by apply Herr]. apply points_into_new, Hin. eauto with slices.
  - destruct (isDigit c) eqn:Ec.
    + assert (Hdc : digit c) by (unfold isDigit, digit in *; lia).
      rewrite frac_loop_spec by eauto. rewrite Nat.sub_0_r.
      set (ds := digit_prefix (c :: f)) in *.
      assert (Nds : ds <> []) by (unfold ds; simpl; by rewrite Ec).
      assert (Hl9 : (1 <= length (take 9 ds) <= 9)%nat).
      { rewrite length_take. assert (length ds <> 0%nat) by (intros H0%nil_length_inv; done). lia. }
      clearbody ds. rewrite Z.add_0_l. go_step; [lia|]. rewrite Nat2Z.id, nspow_at by done. cbn [mbind go_mbind go_bind].
      assert (Hlen : slen q = S (length ds + length r)).
      { rewrite Hlq. f_equal. rewrite <- length_app. by apply f_equal. }
      apply spec_from_bind; [lia|].
      go_step. split.
      * cbn [dat]. rewrite Edq. assert (Hd : drop (length ds) (c :: f) = r).
        { rewrite Er. apply drop_app_length. }
        change (drop (1 + (0 + length ds)) (46 :: c :: f)) with (drop (length ds) (c :: f)).
        rewrite Hd. apply (Hfrac ds r); try done. rewrite <- Eq. by apply f_equal.
      * apply Hin. eapply sub_from. lia.
    + assert (Hdc : ~ digit c) by (unfold isDigit, digit in *; lia).
      rewrite (frac_loop_None (c :: f) c) by done. repeat scan_step. split.
      * apply points_into_new, Hin. eauto with slices.
      * apply Herr. by intros c' [= <-].
Qed.

Lemma parseLocalTime_body b :
  spec (parseLocalTime b)
    (fun '(t, r) => time_parse (dat b) t (dat r) /\ sub r b) (no_reading b).
Proof.
  unfold parseLocalTime. go_step.
  { repeat scan_step. apply not_clock; [eauto with slices|]. intros (? & _). lia. }
  assert (E1 : part b 0 2 = take 2 (dat b)) by done.
  assert (E2 : part b 3 5 = take 2 (drop 3 (dat b))) by done.
  assert (E3 : part b 6 8 = take 2 (drop 6 (dat b))) by done.
  apply spec_digits_bind; [lia| |intros; apply not_clock; [done|unfold clock_text; tauto]].
  rewrite E1. intros F1. go_step.
  { repeat scan_step. apply not_clock; [eauto with slices|unfold clock_text; lia]. }
  apply spec_at_bind; [lia|]. intros c2 Hc2. go_step.
  { repeat scan_step. apply not_clock; [eauto with slices|]. unfold clock_text. rewrite Hc2.
    intros (_ & [= ->] & _). done. }
  apply spec_digits_bind; [lia| |intros; apply not_clock; [done|unfold clock_text; tauto]].
  rewrite E2. intros F2. go_step.
  { repeat scan_step. apply not_clock; [eauto with slices|unfold clock_text; lia]. }
  apply spec_at_bind; [lia|]. intros c5 Hc5. go_step.
  { repeat scan_step. apply not_clock; [eauto with slices|]. unfold clock_text. rewrite Hc5.
    intros (_ & _ & [= ->] & _). done. }
  apply spec_digits_bind; [lia| |intros; apply not_clock; [done|unfold clock_text; tauto]].
  rewrite E3. intros F3. go_step.
  { repeat scan_step. apply not_clock; [eauto with slices|unfold clock_text; lia]. }
  assert (Hclk : clock_text (dat b)).
  { unfold clock_text. rewrite Hc2, Hc5. split_and!; try done; try lia; f_equal; lia. }
  apply spec_from_bind; [lia|]. set (q := Sl (off b + 8) (drop 8 (dat b))).
  assert (Hq : sub q b) by (apply sub_from; lia).
  apply (spec_bind _ _ (fun dot => dot = bool_decide (head (dat q) = Some 46))).
  { repeat scan_step.
    - destruct (dat q) as [|c' l] eqn:Eq; [done|]. injection Hc as ->. simpl.
      destruct (Z.eqb_spec c 46) as [->|]; [done|]. rewrite bool_decide_eq_false_2; [done|congruence].
    - destruct (dat q) eqn:Eq; [done|]. simpl in *. lia. }
  intros dot ->. case_bool_decide as Hdot.
  - by apply parse_frac_spec.
  - go_step. split; [|done]. by apply time_parse_intro.
Qed.

(** ** Printing times *)

Lemma num_from_app v l1 l2 : num_from v (l1 ++ l2) = num_from (num_from v l1) l2.
Proof. unfold num_from. apply foldl_app. Qed.

Lemma num_from_shift v l : num_from v l = v * 10 ^ Z.of_nat (length l) + num l.
Proof.
  revert v. induction l as [|c l IH]; intros v.
  - simpl. unfold num. simpl. lia.
  - unfold num. cbn [num_from foldl]. fold (num_from (v * 10 + (c - 48)) l).
    fold (num_from (0 * 10 + (c - 48)) l). rewrite (IH (v * 10 + (c - 48))), (IH (0 * 10 + (c - 48))).
    cbn [length]. rewrite Nat2Z.inj_succ, Z.pow_succ_r by lia. lia.
Qed.

Lemma num_app l1 l2 : num (l1 ++ l2) = num l1 * 10 ^ Z.of_nat (length l2) + num l2.
Proof. unfold num at 1. rewrite num_from_app. apply num_from_shift. Qed.

Definition valid_time (t : LocalTime) : Prop :=
  0 <= Hour t <= 23 /\ 0 <= Minute t <= 59 /\ 0 <= Second t <= 60 /\
  0 <= Nanosecond t < 10 ^ 9 /\ 0 <= Precision t <= 9 /\
  (0 < Precision t -> (10 ^ (9 - Precision t) | Nanosecond t)).

(** The same time with another number of digits to display. *)
Definition set_precision (t : LocalTime) (p : Z) : LocalTime :=
  LTime (Hour t) (Minute t) (Second t) (Nanosecond t) p.

Lemma trim_left_spec l : exists k, l = replicate k 48 ++ trim_left l.
Proof.
  induction l as [|c l (k & E)]; [by exists 0%nat|]. simpl.
  destruct (Z.eqb_spec c 48) as [->|]; [|by exists 0%nat]. exists (S k). simpl. by rewrite <- E.
Qed.

Lemma trim_zeros_frac l :
  exists ds k, trim_zeros (46 :: l) = 46 :: ds /\ l = ds ++ replicate k 48.
Proof.
  unfold trim_zeros. simpl. rewrite reverse_cons.
  destruct (trim_left_spec (reverse l ++ [46])) as (k & E).
  apply (f_equal reverse) in E. rewrite !reverse_app, reverse_involutive, reverse_replicate in E.
  simpl in E.
  destruct (reverse (trim_left (reverse l ++ [46]))) as [|c ds] eqn:Et.
  - simpl in E. destruct k; simpl in E; done.
  - simpl in E. injection E as <- E. by exists ds, k.
Qed.

Lemma num_zeros k : num (replicate k 48) = 0.
Proof. induction k as [|k IH]; [done|]. unfold num in *. simpl. apply IH. Qed.

(** The fraction that is printed denotes the nanoseconds. *)
Lemma frac_print ds rest ns :
  length (ds ++ rest) = 9%nat -> num (ds ++ rest) = ns -> num rest = 0 ->
  num (take 9 ds) * 10 ^ (9 - Z.of_nat (length (take 9 ds))) = ns.
Proof.
  intros Hl Hn H0. rewrite length_app in Hl. rewrite take_ge by lia. rewrite num_app, H0 in Hn.
  replace (9 - Z.of_nat (length ds)) with (Z.of_nat (length rest)) by lia. lia.
Qed.

(** The digits past the precision are zeros. *)
Lemma precision_zeros ns p :
  0 <= ns < 10 ^ 9 -> 0 <= p <= 9 -> (10 ^ (9 - p) | ns) ->
  num (drop (Z.to_nat p) (fmt_0d 9 ns)) = 0.
Proof.
  intros Hn Hp [k Hk]. destruct (fmt_0d_num 9 ns) as (Ln & Fn & Nn); [lia|done|].
  set (P := Z.to_nat p). rewrite <- (take_drop P (fmt_0d 9 ns)), num_app, length_drop, Ln in Nn.
  pose proof (num_bound _ (Forall_drop _ P _ Fn)) as Hb. rewrite length_drop, Ln in Hb.
  replace (Z.of_nat (9 - P)) with (9 - p) in * by (unfold P; lia).
  remember (num (take P _)) as a. remember (num (drop P _)) as r.
  assert (0 < 10 ^ (9 - p)) by (apply Z.pow_pos_nonneg; lia).
  assert (k = a) by nia. nia.
Qed.

Definition clock_print (t : LocalTime) : list Z :=
  fmt_0d 2 (Hour t) ++ [58] ++ fmt_0d 2 (Minute t) ++ [58] ++ fmt_0d 2 (Second t).

(** A clock text with some of the digits of the fraction. *)
Lemma print_frac t ds zs rest :
  valid_time t -> (forall c, head rest = Some c -> ~ digit c) ->
  fmt_0d 9 (Nanosecond t) = ds ++ zs -> num zs = 0 -> ds <> [] ->
  time_parse ((clock_print t ++ 46 :: ds) ++ rest) (set_precision t (Z.of_nat (length ds))) rest.
Proof.
  intros (Hh & Hm & Hs & Hn & _) Hrest E0 N0 Nd.
  destruct (fmt_0d_num 2 (Hour t)) as (Lh & Fh & Nh); [lia..|].
  destruct (fmt_0d_num 2 (Minute t)) as (Lm & Fm & Nm); [lia..|].
  destruct (fmt_0d_num 2 (Second t)) as (Ls & Fs & Ns); [lia..|].
  destruct (fmt_0d_num 9 (Nanosecond t)) as (Ln & Fn & Nn); [lia|done|].
  rewrite E0 in Ln, Fn, Nn.
  assert (Et : set_precision t (Z.of_nat (length ds)) =
    frac_time (num (fmt_0d 2 (Hour t))) (num (fmt_0d 2 (Minute t))) (num (fmt_0d 2 (Second t))) ds).
  { unfold frac_time, set_precision. rewrite (frac_print ds zs _ Ln Nn N0), Nh, Nm, Ns.
    rewrite length_app in Ln. by rewrite take_ge by lia. }
  rewrite Et. apply Forall_app in Fn as [Fd _].
  eapply (tp_frac _ (fmt_0d 2 (Hour t)) (fmt_0d 2 (Minute t)) (fmt_0d 2 (Second t)) ds rest);
    try done; try lia.
  unfold clock_print. by rewrite <- !app_assoc.
Qed.

Lemma print_whole t rest :
  valid_time t -> Nanosecond t = 0 -> head rest <> Some 46 ->
  time_parse (clock_print t ++ rest) (set_precision t 0) rest.
Proof.
  intros (Hh & Hm & Hs & _) Hz Hrest.
  destruct (fmt_0d_num 2 (Hour t)) as (Lh & Fh & Nh); [lia..|].
  destruct (fmt_0d_num 2 (Minute t)) as (Lm & Fm & Nm); [lia..|].
  destruct (fmt_0d_num 2 (Second t)) as (Ls & Fs & Ns); [lia..|].
  assert (Et : set_precision t 0 = LTime (num (fmt_0d 2 (Hour t))) (num (fmt_0d 2 (Minute t)))
    (num (fmt_0d 2 (Second t))) 0 0) by (unfold set_precision; rewrite Nh, Nm, Ns, Hz; done).
  rewrite Et.
  eapply (tp_whole _ (fmt_0d 2 (Hour t)) (fmt_0d 2 (Minute t)) (fmt_0d 2 (Second t)) rest);
    try done; try lia.
  unfold clock_print. by rewrite <- !app_assoc.
Qed.

Lemma LocalTime_String_parse {E} t rest :
  valid_time t -> (forall c, head rest = Some c -> ~ digit c /\ c <> 46) ->
  exists s p, @LocalTime_String E t = Ret s /\ time_parse (s ++ rest) (set_precision t p) rest /\
    (0 < Precision t -> p = Precision t) /\ (Precision t = 0 -> Nanosecond t = 0 -> p = 0).
Proof.
  intros Hv Hrest. pose proof Hv as (Hh & Hm & Hs & Hn & Hp & Hdiv).
  assert (Hr1 : forall c, head rest = Some c -> ~ digit c) by (intros c Hc; by apply Hrest).
  unfold LocalTime_String. fold (clock_print t).
  destruct (fmt_0d_num 9 (Nanosecond t)) as (Ln & Fn & Nn); [lia|done|].
  destruct (Z.ltb_spec 0 (Precision t)) as [Hpos|].
  - cbn [length]. rewrite Ln. rewrite (proj2 (Z.ltb_ge _ _)) by lia.
    replace (Z.to_nat (Precision t + 1)) with (S (Z.to_nat (Precision t))) by lia. cbn [take].
    set (ds := take (Z.to_nat (Precision t)) (fmt_0d 9 (Nanosecond t))).
    assert (HlP : Z.of_nat (length ds) = Precision t).
    { unfold ds. rewrite length_take, Ln. lia. }
    eexists _, (Precision t). split; [reflexivity|]. split; [|done]. rewrite <- HlP.
    apply print_frac with (drop (Z.to_nat (Precision t)) (fmt_0d 9 (Nanosecond t)));
      [done|done|by unfold ds; rewrite take_drop| |].
    + apply precision_zeros; [lia..|auto].
    + intros Hnil. rewrite Hnil in HlP. simpl in HlP. lia.
  - destruct (Z.ltb_spec 0 (Nanosecond t)) as [Hns|].
    + destruct (trim_zeros_frac (fmt_0d 9 (Nanosecond t))) as (ds & k & Et & E0). rewrite Et.
      eexists _, (Z.of_nat (length ds)). split; [reflexivity|]. split; [|split; lia].
      apply print_frac with (replicate k 48); [done|done|done|apply num_zeros|]. intros ->.
      rewrite E0 in Nn. simpl in Nn. rewrite num_zeros in Nn. lia.
    + eexists _, 0. split; [reflexivity|]. split; [|split; lia].
      apply print_whole; [done|lia|]. intros Hc. by apply Hrest in Hc as [_ ?].
Qed.

(** One text has one reading. *)
Lemma time_parse_unique l t r t' r' :
  time_parse l t r -> time_parse l t' r' -> t = t' /\ r = r'.
Proof.
  intros [_ H]%time_parse_clock [_ H']%time_parse_clock.
  destruct H as [(E & Hr & ->)|(ds & E & Fd & Nd & Hr & ->)],
    H' as [(E' & Hr' & ->)|(ds' & E' & Fd' & Nd' & Hr' & ->)].
  - by rewrite <- E, <- E'.
  - rewrite <- E, E' in Hr. done.
  - rewrite <- E', E in Hr'. done.
  - rewrite E in E'. injection E' as E'.
    assert (ds = ds') as <-.
    { rewrite <- (digit_prefix_unique ds r), <- (digit_prefix_unique ds' r') by done. by rewrite E'. }
    by apply app_inv_head in E' as ->.
Qed.

Lemma parseLocalTime_eq b t r :
  time_parse (dat b) t r -> exists s, parseLocalTime b = Ret (t, s) /\ dat s = r.
Proof.
  intros H. pose proof (parseLocalTime_body b) as Hs.
  destruct (parseLocalTime b) as [[t' s]|e| |]; simpl in Hs; [|by destruct Hs as [_ Hn]; apply Hn in H|done|done].
  destruct Hs as [H' _]. destruct (time_parse_unique _ _ _ _ _ H H') as [-> ->]. by exists s.
Qed.

Lemma parseLocalDate_eq b d :
  date_text (dat b) -> num (take 4 (dat b)) = Year d -> num (take 2 (drop 5 (dat b))) = Month d ->
  num (take 2 (drop 8 (dat b))) = Day d -> valid_date d -> parseLocalDate b = Ret d.
Proof.
  intros Ht Hy Hm Hd Hv. pose proof (parseLocalDate_body b) as Hs.
  destruct (parseLocalDate b) as [d'|e| |]; simpl in Hs; [|tauto|done|done].
  destruct Hs as [_ ->]. by rewrite Hy, Hm, Hd, repair_date_id.
Qed.

(** ** Date-times *)

(** What a date and time may be made of, by place. *)
Definition dt_char (k : nat) (c : Z) : Prop :=
  c <> 43 /\ c <> 90 /\ c <> 122 /\ ((8 <= k)%nat -> c <> 45).

Lemma digit_dt_char k c : digit c -> dt_char k c.
Proof. unfold digit, dt_char. lia. Qed.

Lemma time_parse_chars l t r k c :
  time_parse l t r -> r = [] -> l !! k = Some c -> digit c \/ c = 58 \/ c = 46.
Proof.
  intros H -> Hk.
  assert (Hall : Forall (fun c => digit c \/ c = 58 \/ c = 46) l).
  { assert (Hd : forall x, Forall digit x -> Forall (fun c => digit c \/ c = 58 \/ c = 46) x).
    { intros x Hx. eapply Forall_impl; [done|]. by left. }
    inversion H; subst; rewrite ?app_nil_r in *; rewrite ?Forall_app, ?Forall_cons, ?Forall_app;
      split_and!; auto. }
  by apply (Forall_lookup_1 _ _ _ _ Hall) in Hk.
Qed.

Lemma date_text_chars l k c : date_text l -> l !! k = Some c -> dt_char k c.
Proof.
  intros (y & m & d & -> & Ly & Lm & Ld & Fy & Fm & Fd) Hk.
  destruct y as [|y1 [|y2 [|y3 [|y4 [|]]]]], m as [|m1 [|m2 [|]]], d as [|d1 [|d2 [|]]]; try done.
  rewrite !Forall_cons in *. unfold digit, dt_char in *.
  do 10 (destruct k as [|k]; [simpl in Hk; simplify_eq; lia|]). simpl in Hk. done.
Qed.

Lemma parseLocalDateTime_safe b :
  spec (parseLocalDateTime b)
    (fun '(dt, r) => sub r b /\ valid_date (ldt_date dt) /\
       (dat r = [] -> forall k c, dat b !! k = Some c -> dt_char k c)) (points_into b).
Proof.
  unfold parseLocalDateTime. repeat scan_step. eapply spec_bind.
  { eapply spec_mono; [apply parseLocalDate_body|intros d Hd; exact Hd|].
    intros e [He _]. unfold points_into in *. etransitivity; [exact He|]. apply sub_to. }
  intros d [Ht ->]. cbn [dat] in *. apply spec_at_bind; [lia|]. intros sep Hsep.
  repeat scan_step. eapply spec_bind.
  { eapply spec_mono; [apply parseLocalTime_body|intros d Hd; exact Hd|].
    intros e [He _]. unfold points_into in *. etransitivity; [exact He|]. apply sub_from. lia. }
  intros [t r] [Hp Hr]. repeat scan_step. split_and!.
  - etransitivity; [exact Hr|]. apply sub_from. lia.
  - apply repair_date_valid.
  - intros Hnil k c Hk. rewrite Hnil in Hp. cbn [dat] in Hp.
    destruct (decide (k < 10)%nat).
    { apply (date_text_chars _ k c Ht). by rewrite lookup_take_lt. }
    destruct (decide (k = 10)%nat) as [->|].
    { rewrite Hsep in Hk. injection Hk as <-. unfold dt_char. lia. }
    apply (time_parse_chars _ _ _ (k - 11) c) in Hp; [|done|].
    + unfold digit, dt_char in *. lia.
    + rewrite lookup_drop. by replace (11 + (k - 11))%nat with k by lia.
Qed.

(** What a token must be for [parseDateTime] not to panic: it has a zone. *)
Definition dt_token (l : list Z) : Prop := exists k c, l !! k = Some c /\ ~ dt_char k c.

Lemma parseDateTime_safe b :
  dt_token (dat b) ->
  spec (parseDateTime b) (fun t => valid_date (t_date t)) (points_into b).
Proof.
  intros (k & c & Hk & Hc). unfold parseDateTime. eapply spec_bind; [apply parseLocalDateTime_safe|].
  intros [dt r] (Hr & Hv & Hnil).
  assert (Hin : forall h f args, sub h r -> points_into b (NewParserError h f args)).
  { intros h f args H. unfold points_into. simpl. by transitivity r. }
  assert (Hl : (0 < slen r)%nat).
  { destruct (dat r) eqn:E; [|simpl; lia]. exfalso. apply Hc, (Hnil eq_refl k c Hk). }
  go_step; [lia|]. apply spec_at_bind; [done|]. intros c0 Hc0.
  apply (spec_bind _ _ (fun '(_, r') => sub r' b)).
  { repeat lazymatch goal with
    | |- spec (s_sub _ _ _ ≫= fun s => parseDecimalDigits s ≫= _) _ _ =>
        apply spec_digits_bind; [lia|intros ?|intros e He _; unfold points_into in *; by transitivity r]
    | |- spec (fail _ _ _) _ _ => apply spec_fail_R, Hin; solve [eauto with slices]
    | _ => go_step
    end.
    - etransitivity; [by apply (sub_from r 1)|done].
    - etransitivity; [apply (sub_from r 6); lia|done]. }
  intros [zone r'] Hr'. by repeat scan_step.
Qed.

(** ** Claims *)

(** [parseLocalDate] always returns. It accepts exactly the texts
    [DDDD-DD-DD]; the date it returns always exists in the calendar, with a year
    from 1970 to 9999, and is the written date when that exists: a year, a month
    or a day out of range is replaced (by 1970, 1 and 1), never refused. *)
Theorem parseLocalDate_spec (b : slice) :
  spec (parseLocalDate b)
    (fun d => date_text (dat b) /\ valid_date d /\
       d = repair_date (num (take 4 (dat b))) (num (take 2 (drop 5 (dat b))))
             (num (take 2 (drop 8 (dat b)))))
    (fun e => points_into b e /\ ~ date_text (dat b)).
Proof.
  eapply spec_mono; [apply parseLocalDate_body| |done].
  intros d [Ht ->]. split_and!; [done|apply repair_date_valid|done].
Qed.

(** [parseLocalTime] always returns. It succeeds exactly on the texts that
    start with [HH:MM:SS] in range, followed by no point or by a point and
    digits; it returns the time, the fraction cut to nine digits, and what
    follows; its errors point into the text. *)
Theorem parseLocalTime_spec (b : slice) :
  spec (parseLocalTime b)
    (fun '(t, r) => time_parse (dat b) t (dat r) /\ sub r b)
    (fun e => points_into b e /\ forall t r, ~ time_parse (dat b) t r).
Proof. apply parseLocalTime_body. Qed.

(** a local date-time with a date after 1970-01-01 that exists and a time
    whose hour, minute and second are all different from zero comes back from
    [UnmarshalText] of what [MarshalText] wrote, and [MarshalText] does not
    change it; only the number of digits to display is filled in when it was not
    set. *)
Theorem LocalDateTime_roundtrip (d d0 : LocalDateTime) (o : nat) :
  valid_date (ldt_date d) -> valid_time (ldt_time d) ->
  LocalDateTime_IsZero (Some d) = false ->
  exists s p, @LocalDateTime_MarshalText ParserError d = Ret (s, d) /\
    LocalDateTime_UnmarshalText d0 (Sl o s) =
      Ret (LDateTime (ldt_date d) (set_precision (ldt_time d) p)) /\
    (0 < Precision (ldt_time d) -> p = Precision (ldt_time d)).
Proof.
  intros Hd Ht Hz. unfold LocalDateTime_MarshalText, LocalDateTime_String. rewrite Hz.
  destruct (@LocalDate_String_valid ParserError _ Hd) as (s & Es & Hs & Hy & Hm & Hdd).
  destruct (@LocalTime_String_parse ParserError _ [] Ht ltac:(done)) as (s' & p & Es' & Hp & Hpp & _).
  rewrite Es. simpl. rewrite Es'. simpl. exists (s ++ 84 :: s'), p.
  split; [by destruct d|]. split; [|done]. unfold LocalDateTime_UnmarshalText, parseLocalDateTime.
  assert (Hl : length s = 10%nat).
  { destruct Hs as (y & m & dd & -> & Ly & Lm & Ld & _). rewrite !length_app. simpl. lia. }
  cbn [dat]. rewrite length_app. simpl length. rewrite Hl.
  rewrite (proj2 (Nat.ltb_ge _ 1)), (proj2 (Nat.ltb_ge _ 11)) by lia.
  rewrite s_to_eq by (cbn [dat]; rewrite length_app; simpl; lia). cbn [mbind go_mbind go_bind dat off].
  rewrite <- Hl at 1. rewrite take_app_length. rewrite (parseLocalDate_eq _ (ldt_date d)) by done.
  cbn [mbind go_mbind go_bind]. rewrite (s_at_eq _ _ 84).
  2:{ cbn [dat]. rewrite lookup_app_r by lia. by rewrite Hl. }
  cbn [mbind go_mbind go_bind]. rewrite s_from_eq by (cbn [dat]; rewrite length_app; simpl; lia).
  cbn [mbind go_mbind go_bind dat off]. simpl.
  replace 11%nat with (S (length s)) by lia. rewrite drop_app_ge by lia.
  replace (S (length s) - length s)%nat with 1%nat by lia. simpl. rewrite drop_0.
  rewrite app_nil_r in Hp.
  destruct (parseLocalTime_eq (Sl (o + S (length s)) s') _ _ Hp) as (r & -> & Er). simpl.
  by rewrite Er.
Qed.

Lemma LocalDateTime_roundtrip_witness :
  let d := LDateTime (LDate 2024 2 29) (LTime 23 59 60 120000000 2) in
  exists s p, @LocalDateTime_MarshalText ParserError d = Ret (s, d) /\
    LocalDateTime_UnmarshalText d (Sl 0 s) = Ret (LDateTime (ldt_date d) (set_precision (ldt_time d) p)) /\
    p = 2.
Proof.
  destruct (LocalDateTime_roundtrip (LDateTime (LDate 2024 2 29) (LTime 23 59 60 120000000 2))
    (LDateTime (LDate 2024 2 29) (LTime 23 59 60 120000000 2)) 0) as (s & p & H1 & H2 & H3).
  - split_and!; simpl; try lia; vm_compute; discriminate.
  - unfold valid_time. simpl. split_and!; try lia. intros _. by exists 12.
  - reflexivity.
  - exists s, p. split; [exact H1|]. split; [exact H2|]. apply H3. reflexivity.
Defined.

(** a local time that exists comes back from [UnmarshalText] of what
    [MarshalText] wrote when its hour, minute and second are all different from
    zero. When one of them is zero, as at noon, [MarshalText] writes nothing and
    [UnmarshalText] leaves the time it fills unchanged. *)
Theorem LocalTime_roundtrip (t t0 : LocalTime) (o : nat) :
  valid_time t ->
  (Hour t <> 0 /\ Minute t <> 0 /\ Second t <> 0 ->
     exists s p, @LocalTime_MarshalText ParserError t = Ret s /\
       LocalTime_UnmarshalText t0 (Sl o s) = Ret (set_precision t p) /\
       (0 < Precision t -> p = Precision t)) /\
  (Hour t = 0 \/ Minute t = 0 \/ Second t = 0 ->
     @LocalTime_MarshalText ParserError t = Ret [] /\
     LocalTime_UnmarshalText t0 (Sl o []) = Ret t0).
Proof.
  intros Ht. unfold LocalTime_MarshalText, LocalTime_UnmarshalText, LocalTime_IsZero. split.
  - intros Hn. replace ((Hour t =? 0) || (Minute t =? 0) || (Second t =? 0)) with false by lia.
    destruct (@LocalTime_String_parse ParserError _ [] Ht ltac:(done)) as (s & p & Es & Hp & Hpp & _).
    exists s, p. split; [done|]. split; [|done]. rewrite app_nil_r in Hp.
    assert (Hl : (8 <= length s)%nat) by (by apply time_parse_clock in Hp as [[? _] _]).
    cbn [dat]. rewrite (proj2 (Nat.ltb_ge _ _)) by lia.
    destruct (parseLocalTime_eq (Sl o s) _ _ Hp) as (r & -> & Er). simpl. by rewrite Er.
  - intros Hn. replace ((Hour t =? 0) || (Minute t =? 0) || (Second t =? 0)) with true by lia. done.
Qed.

Lemma LocalTime_roundtrip_witness :
  @LocalTime_MarshalText ParserError (LTime 12 0 0 0 0) = Ret [] /\
  exists s p, @LocalTime_MarshalText ParserError (LTime 12 30 15 0 0) = Ret s /\
    LocalTime_UnmarshalText (LTime 0 0 0 0 0) (Sl 0 s) = Ret (set_precision (LTime 12 30 15 0 0) p).
Proof.
  split.
  - apply (LocalTime_roundtrip (LTime 12 0 0 0 0) (LTime 0 0 0 0 0) 0).
    + unfold valid_time. simpl. split_and!; lia.
    + right. left. reflexivity.
  - destruct (LocalTime_roundtrip (LTime 12 30 15 0 0) (LTime 0 0 0 0 0) 0) as [H _].
    + unfold valid_time. simpl. split_and!; lia.
    + destruct H as (s & p & H1 & H2 & _); [simpl; lia|]. by exists s, p.
Defined.
End TomlTime.
