(* ===== verification/TomlAst.v ===== *)
(** * The syntax tree of a TOML expression ([src/utoml/unstable/ast.go],
    [builder.go], [kind.go], [src/utoml/internal/danger])

    The nodes of an expression live in one array and refer to each other by
    relative positions; iterators walk the links. [tree] is the tree that an
    array stands for, [enc] its layout in the array. *)
From stdpp Require Import base numbers list gmap strings.
From S2P Require Import Prelude TomlChars TomlScan.
#[local] Open Scope Z_scope.

Module TomlAst.
Import TomlScan.

(** ** Kinds *)

Inductive Kind :=
| Invalid | Comment | Key
| Table | ArrayTable | KeyValue
| Array | InlineTable
| String_ | Bool | Float | Integer | LocalDate | LocalTime | LocalDateTime | DateTime.

#[export] Instance Kind_eq_dec : EqDecision Kind.
Proof. solve_decision. Defined.

Definition Kind_String (k : Kind) : string :=
  match k with
  | Invalid => "Invalid" | Comment => "Comment" | Key => "Key"
  | Table => "Table" | ArrayTable => "ArrayTable" | KeyValue => "KeyValue"
  | Array => "Array" | InlineTable => "InlineTable"
  | String_ => "String" | Bool => "Bool" | Float => "Float" | Integer => "Integer"
  | LocalDate => "LocalDate" | LocalTime => "LocalTime"
  | LocalDateTime => "LocalDateTime" | DateTime => "DateTime"
  end.

(** ** Nodes *)

(** A range of bytes of the document, two [uint32]. *)
Record Range := Rng { Offset : Z; Length : Z }.
Definition uint32 (z : Z) : Z := z mod 2 ^ 32.

(** The value of a node refers to the document or was allocated. *)
Inductive data := InDoc (s : slice) | Buf (l : list Z).
Definition dbytes (d : data) : list Z := match d with InDoc s => dat s | Buf l => l end.

Record Node := Nd { NKind : Kind; Raw : Range; Data : data; next : Z; child : Z }.

(** A node with the fields that a literal [Node{...}] leaves out set to zero. *)
Definition no_range : Range := Rng 0 0.
Definition no_data : data := Buf [].

(** [danger.SubsliceOffset]; the offsets stand for the addresses. *)
Definition SubsliceOffset {E} (data subslice : slice) : go E nat :=
  if (off subslice <? off data)%nat then Panic
  else
    let offset := (off subslice - off data)%nat in
    if (slen data <? offset)%nat then Panic
    else if (slen data <? offset + slen subslice)%nat then Panic
    else mret offset.

(** ** The builder *)

Abbreviation reference := Z (only parsing).
Definition invalidReference : Z := -1.
Definition Valid (r : Z) : bool := negb (r =? invalidReference).

Record builder := Bld { nodes : list Node; lastIdx : Z }.

Definition Reset (b : builder) : builder := Bld [] 0.

Definition Push (b : builder) (n : Node) : Z * builder :=
  let i := Z.of_nat (length (nodes b)) in (i, Bld (nodes b ++ [n]) i).

(** Assignments to a field of the node at an index, which panics outside the
    array. *)
Definition set_next {E} (ns : list Node) (i v : Z) : go E (list Node) :=
  if i <? 0 then Panic
  else match ns !! Z.to_nat i with
       | None => Panic
       | Some n => Ret (<[Z.to_nat i := Nd (NKind n) (Raw n) (Data n) v (child n)]> ns)
       end.

Definition set_child {E} (ns : list Node) (i v : Z) : go E (list Node) :=
  if i <? 0 then Panic
  else match ns !! Z.to_nat i with
       | None => Panic
       | Some n => Ret (<[Z.to_nat i := Nd (NKind n) (Raw n) (Data n) (next n) v]> ns)
       end.

Definition PushAndChain {E} (b : builder) (n : Node) : go E (Z * builder) :=
  let newIdx := Z.of_nat (length (nodes b)) in
  let ns := nodes b ++ [n] in
  ns ← (if 0 <=? lastIdx b then set_next ns (lastIdx b) (newIdx - lastIdx b) else mret ns);
  mret (newIdx, Bld ns newIdx).

Definition AttachChild {E} (b : builder) (parent child : Z) : go E builder :=
  ns ← set_child (nodes b) parent (child - parent); mret (Bld ns (lastIdx b)).

Definition Chain {E} (b : builder) (from to : Z) : go E builder :=
  ns ← set_next (nodes b) from (to - from); mret (Bld ns (lastIdx b)).

(** ** Walking the nodes *)

(** [&r.nodes[idx]]: a pointer is the index of the node. *)
Definition at_node {E} (ns : list Node) (i : Z) : go E Node :=
  if i <? 0 then Panic
  else match ns !! Z.to_nat i with Some n => Ret n | None => Panic end.

(** [builder.NodeAt] *)
Definition NodeAt {E} (b : builder) (ref : Z) : go E Z :=
  _ ← at_node (nodes b) ref; mret ref.

(** [Node.Next], [Node.Child]: [danger.Stride] from the node; nil is [None]. *)
Definition Next {E} (ns : list Node) (i : Z) : go E (option Z) :=
  n ← at_node ns i; mret (if next n =? 0 then None else Some (i + next n)).

Definition Child {E} (ns : list Node) (i : Z) : go E (option Z) :=
  n ← at_node ns i; mret (if child n =? 0 then None else Some (i + child n)).

Record Iterator := It { started : bool; inode : option Z }.

Definition Iterator_Next {E} (ns : list Node) (c : Iterator) : go E (bool * Iterator) :=
  if negb (started c) then
    mret (match inode c with Some _ => true | None => false end, It true (inode c))
  else
    p ← (match inode c with Some i => Next ns i | None => mret None end);
    mret (match p with Some _ => true | None => false end, It true p).

Definition IsLast {E} (ns : list Node) (c : Iterator) : go E bool :=
  match inode c with
  | None => Panic
  | Some i => n ← at_node ns i; mret (next n =? 0)
  end.

Definition Children {E} (ns : list Node) (i : Z) : go E Iterator :=
  p ← Child ns i; mret (It false p).

Definition Value {E} (ns : list Node) (i : Z) : go E (option Z) := Child ns i.

Definition NodeKey {E} (ns : list Node) (i : Z) : go E Iterator :=
  n ← at_node ns i;
  match NKind n with
  | KeyValue =>
      value ← Child ns i;
      match value with
      | None => Panic
      | Some v => p ← Next ns v; mret (It false p)
      end
  | Table | ArrayTable => p ← Child ns i; mret (It false p)
  | _ => Panic
  end.

(** [for it.Next() { ... it.Node() ... }]: the nodes the loop sees. *)
Fixpoint iterate {E} (fuel : nat) (ns : list Node) (it : Iterator) : go E (list Z) :=
  match fuel with
  | O => OutOfFuel
  | S fuel' =>
      r ← Iterator_Next ns it;
      let '(more, it') := (r : bool * Iterator) in
      if more then
        match inode it' with
        | None => Panic
        | Some i => js ← iterate fuel' ns it'; mret (i :: js)
        end
      else mret []
  end.

(** ** Trees *)

Inductive tree := T (k : Kind) (r : Range) (d : data) (cs : list tree).

Definition t_kind (t : tree) : Kind := let 'T k _ _ _ := t in k.
Definition t_data (t : tree) : data := let 'T _ _ d _ := t in d.
Definition t_children (t : tree) : list tree := let 'T _ _ _ cs := t in cs.

(** Walking a node with its descendants, as the users of the tree do. *)
Fixpoint walk {E} (fuel : nat) (ns : list Node) (i : Z) : go E tree :=
  match fuel with
  | O => OutOfFuel
  | S fuel' =>
      n ← at_node ns i;
      it ← Children ns i;
      js ← iterate (S (length ns)) ns it;
      cs ← mapM (walk fuel' ns) js;
      mret (T (NKind n) (Raw n) (Data n) cs)
  end.

(** The number of nodes of a tree. *)
Fixpoint size (t : tree) : nat :=
  let 'T _ _ _ cs := t in S (list_sum (map size cs)).

(** The layout of a tree in the array, its root first; [nx] is the link of the
    root to its next sibling. The children follow each other, except that the
    keys of a key-value come before its value, which is the first child. *)
Fixpoint enc (nx : Z) (t : tree) : list Node :=
  let 'T k r d cs := t in
  let encs := fix encs cs :=
    match cs with
    | [] => []
    | c :: cs' =>
        enc (match cs' with [] => 0 | _ => Z.of_nat (size c) end) c ++ encs cs'
    end in
  match k, cs with
  | KeyValue, v :: keys =>
      let n := Z.of_nat (list_sum (map size keys)) in
      Nd k r d nx (1 + n) :: encs keys ++ enc (- n) v
  | _, _ => Nd k r d nx (match cs with [] => 0 | _ => 1 end) :: encs cs
  end.

Fixpoint encs (cs : list tree) : list Node :=
  match cs with
  | [] => []
  | c :: cs' => enc (match cs' with [] => 0 | _ => Z.of_nat (size c) end) c ++ encs cs'
  end.

(** ** The layout *)

Lemma tree_ind' (P : tree -> Prop) :
  (forall k r d cs, Forall P cs -> P (T k r d cs)) -> forall t, P t.
Proof.
  intros H. fix IH 1. intros [k r d cs]. apply H.
  induction cs as [|c cs IHcs]; [constructor|]. constructor; [apply IH|exact IHcs].
Qed.

Definition sizes (cs : list tree) : nat := list_sum (map size cs).

Lemma size_pos t : (0 < size t)%nat.
Proof. destruct t. simpl. lia. Qed.

(** The layout of a node by cases. *)
Lemma enc_unfold nx k r d cs :
  enc nx (T k r d cs) =
  match k, cs with
  | KeyValue, v :: keys =>
      Nd k r d nx (1 + Z.of_nat (sizes keys)) :: encs keys ++ enc (- Z.of_nat (sizes keys)) v
  | _, _ => Nd k r d nx (match cs with [] => 0 | _ => 1 end) :: encs cs
  end.
Proof.
  assert (H : forall cs0, (fix encs (cs : list tree) : list Node :=
    match cs with
    | [] => []
    | c :: cs' => enc (match cs' with [] => 0 | _ => Z.of_nat (size c) end) c ++ encs cs'
    end) cs0 = encs cs0).
  { induction cs0 as [|c cs0 IH]; [done|]. simpl. by rewrite IH. }
  simpl. rewrite H. by destruct k, cs.
Qed.

Lemma enc_length nx t : length (enc nx t) = size t.
Proof.
  revert nx. induction t as [k r d cs IH] using tree_ind'. intros nx.
  assert (Hs : forall cs0, Forall (fun t => forall nx, length (enc nx t) = size t) cs0 ->
    length (encs cs0) = sizes cs0).
  { induction 1 as [|c cs0 Hc Hcs IHcs]; [done|]. simpl. rewrite length_app, Hc, IHcs. done. }
  rewrite enc_unfold. cbn [size]. fold (sizes cs).
  assert (Hgen : length (encs cs) = sizes cs) by auto.
  destruct k; try (simpl; rewrite Hgen; done). destruct cs as [|v keys]; [done|].
  apply Forall_cons in IH as [Hv Hk]. simpl. rewrite length_app, Hv, Hs by done.
  unfold sizes. simpl. lia.
Qed.

Lemma encs_length cs : length (encs cs) = sizes cs.
Proof. induction cs as [|c cs IH]; [done|]. simpl. rewrite length_app, enc_length, IH. done. Qed.

(** The root of a layout. *)
Lemma enc_root nx t : exists ch rest,
  enc nx t = Nd (t_kind t) (let 'T _ r _ _ := t in r) (t_data t) nx ch :: rest /\
  (forall nx', enc nx' t = Nd (t_kind t) (let 'T _ r _ _ := t in r) (t_data t) nx' ch :: rest).
Proof.
  destruct t as [k r d cs]. rewrite enc_unfold.
  destruct k; try (eexists _, _; split; [reflexivity|]; intros; by rewrite enc_unfold).
  destruct cs; eexists _, _; (split; [reflexivity|]); intros; by rewrite enc_unfold.
Qed.

(** Linking the root of a layout to a sibling gives the layout with that link. *)
Lemma set_next_enc {E} a nx t b v :
  @set_next E (a ++ enc nx t ++ b) (Z.of_nat (length a)) v = Ret (a ++ enc v t ++ b).
Proof.
  unfold set_next. rewrite (proj2 (Z.ltb_ge _ _)), Nat2Z.id by lia.
  destruct (enc_root nx t) as (ch & rest & -> & Hv). rewrite Hv.
  rewrite lookup_app_r, Nat.sub_diag by lia. simpl.
  rewrite insert_app_r_alt, Nat.sub_diag by lia. done.
Qed.

(** ** Walking a layout gives the tree *)

(** [chain ns i js]: the loop of an iterator that starts at [i] sees [js]. *)
Inductive chain (ns : list Node) : Z -> list Z -> Prop :=
| chain_last i n : 0 <= i -> ns !! Z.to_nat i = Some n -> next n = 0 -> chain ns i [i]
| chain_next i n js : 0 <= i -> ns !! Z.to_nat i = Some n -> next n <> 0 ->
    chain ns (i + next n) js -> chain ns i (i :: js).

Lemma at_node_eq {E} ns i n : 0 <= i -> ns !! Z.to_nat i = Some n -> @at_node E ns i = Ret n.
Proof. intros Hi Hn. unfold at_node. by rewrite (proj2 (Z.ltb_ge _ _)), Hn by done. Qed.

Lemma chain_nonempty ns i js : chain ns i js -> exists js', js = i :: js'.
Proof. intros []; eauto. Qed.

Lemma iterate_chain {E} fuel ns i js :
  chain ns i js -> (length js < fuel)%nat -> @iterate E fuel ns (It false (Some i)) = Ret js.
Proof.
  intros H Hf. destruct fuel as [|fuel]; [lia|]. simpl.
  enough (Hs : forall fuel i js, chain ns i js -> (length js <= fuel)%nat ->
    @iterate E fuel ns (It true (Some i)) = Ret (tail js)).
  { rewrite (Hs fuel i js H) by lia. simpl. by destruct (chain_nonempty _ _ _ H) as [js' ->]. }
  clear. intros fuel i js H. revert fuel. induction H as [i n Hi Hn H0|i n js Hi Hn H0 H IH];
    intros fuel Hf; simpl in Hf; (destruct fuel as [|fuel]; [lia|]); cbn [iterate];
    unfold Iterator_Next, Next; cbn [started inode negb]; rewrite (at_node_eq _ _ n) by done;
    cbn [mbind go_mbind go_bind].
  - by rewrite H0.
  - rewrite (proj2 (Z.eqb_neq _ _)) by done. cbn. rewrite IH by lia. simpl.
    by destruct (chain_nonempty _ _ _ H) as [js' ->].
Qed.

(** Where the siblings of a layout are. *)
Fixpoint locs (p : Z) (cs : list tree) : list Z :=
  match cs with
  | [] => []
  | c :: cs' => p :: locs (p + Z.of_nat (size c)) cs'
  end.

Lemma locs_length p cs : length (locs p cs) = length cs.
Proof. revert p. induction cs as [|c cs IH]; intros p; [done|]. simpl. by rewrite IH. Qed.

Lemma root_at nx t a b n :
  head (enc nx t) = Some n -> (a ++ enc nx t ++ b) !! Z.to_nat (Z.of_nat (length a)) = Some n.
Proof.
  intros H. rewrite Nat2Z.id, lookup_app_r, Nat.sub_diag by lia.
  destruct (enc_root nx t) as (ch & rest & E & _). rewrite E in *. done.
Qed.

Lemma encs_chain cs : forall a b, cs <> [] ->
  chain (a ++ encs cs ++ b) (Z.of_nat (length a)) (locs (Z.of_nat (length a)) cs).
Proof.
  induction cs as [|c cs IH]; intros a b Hne; [done|]. simpl. rewrite <- !app_assoc.
  set (nx := match cs with [] => 0 | _ => Z.of_nat (size c) end).
  destruct (enc_root nx c) as (ch & rest & E & _).
  assert (Hr := root_at nx c a (encs cs ++ b) _ ltac:(by rewrite E)).
  destruct cs as [|c' cs].
  - eapply chain_last; [lia|exact Hr|done].
  - eapply chain_next; [lia|exact Hr|subst nx; pose proof (size_pos c); simpl; lia|].
    simpl next. subst nx. rewrite <- (enc_length (Z.of_nat (size c)) c) at 2 3.
    rewrite <- Nat2Z.inj_add, <- length_app, app_assoc.
    apply (IH (a ++ enc (Z.of_nat (size c)) c) b). done.
Qed.

(** Where the children of a node are, in the order of the links. *)
Definition child_locs (p : Z) (k : Kind) (cs : list tree) : list Z :=
  match k, cs with
  | KeyValue, v :: keys => (p + 1 + Z.of_nat (sizes keys)) :: locs (p + 1) keys
  | _, _ => locs (p + 1) cs
  end.

Lemma children_iterate {E} nx k r d cs a b :
  let ns := a ++ enc nx (T k r d cs) ++ b in let p := Z.of_nat (length a) in
  (it ← Children ns p; @iterate E (S (length ns)) ns it) = Ret (child_locs p k cs).
Proof.
  intros ns p. unfold Children, Child.
  destruct (enc_root nx (T k r d cs)) as (ch & rest & Ee & _).
  rewrite (at_node_eq ns p _ ltac:(lia) (root_at nx (T k r d cs) a b _ ltac:(by rewrite Ee))).
  cbn [mbind go_mbind go_bind child mret go_mret].
  assert (Hch : head (enc nx (T k r d cs)) = Some (Nd k r d nx ch)) by (by rewrite Ee).
  clear rest Ee.
  destruct cs as [|c cs]; [rewrite enc_unfold in Hch; destruct k; injection Hch as <-; done|].
  assert (Hsz : (length (c :: cs) < S (length ns))%nat).
  { unfold ns. rewrite !length_app, enc_length. cbn [size]. fold (sizes (c :: cs)).
    assert (forall l, length l <= sizes l)%nat as Hle; [|specialize (Hle (c :: cs)); lia].
    induction l as [|x l IHl]; [done|]. pose proof (size_pos x). unfold sizes in *. simpl. lia. }
  assert (Hgen : k <> KeyValue -> ch = 1 /\ chain ns (p + 1) (locs (p + 1) (c :: cs))).
  { intros Hk. rewrite enc_unfold in Hch. split; [destruct k; try done; by injection Hch|].
    replace ns with ((a ++ [Nd k r d nx 1]) ++ encs (c :: cs) ++ b).
    - replace (p + 1) with (Z.of_nat (length (a ++ [Nd k r d nx 1]))) by (rewrite length_app; simpl; lia).
      by apply encs_chain.
    - unfold ns. rewrite enc_unfold, <- app_assoc. by destruct k. }
  destruct (decide (k = KeyValue)) as [->|Hk].
  - clear Hgen. rewrite enc_unfold in Hch. simpl in Hch. injection Hch as <-.
    rewrite (proj2 (Z.eqb_neq _ _)) by lia. apply iterate_chain; [|simpl in *; by rewrite locs_length].
    set (n := Z.of_nat (sizes cs)). simpl child_locs. fold n.
    replace ns with ((a ++ [Nd KeyValue r d nx (1 + n)]) ++ encs cs ++ enc (- n) c ++ b).
    2:{ unfold ns. rewrite enc_unfold, <- !app_assoc. simpl. by rewrite <- app_assoc. }
    set (a' := a ++ [_]). replace (p + 1) with (Z.of_nat (length a')) by (unfold a'; rewrite length_app; simpl; lia).
    replace (p + (1 + n)) with (Z.of_nat (length (a' ++ encs cs)))
      by (unfold a'; rewrite !length_app, encs_length; simpl; lia).
    replace (Z.of_nat (length a') + n) with (Z.of_nat (length (a' ++ encs cs)))
      by (unfold a'; rewrite !length_app, encs_length; simpl; lia).
    destruct (enc_root (- n) c) as (chv & restv & Ev & _).
    assert (Hr := root_at (- n) c (a' ++ encs cs) b _ ltac:(by rewrite Ev)). rewrite <- app_assoc in Hr.
    destruct cs as [|c' cs].
    + eapply chain_last; [lia|exact Hr|done].
    + eapply chain_next; [lia|exact Hr|simpl; pose proof (size_pos c'); unfold n, sizes; simpl; lia|].
      simpl next. replace (Z.of_nat (length (a' ++ encs (c' :: cs))) + - n) with (Z.of_nat (length a'))
        by (rewrite length_app, encs_length; lia).
      by apply encs_chain.
  - destruct (Hgen Hk) as [-> Hchain]. cbn [Z.eqb]. rewrite (iterate_chain _ _ _ _ Hchain).
    + by destruct k.
    + rewrite locs_length. lia.
Qed.

Lemma walk_locs {E} fuel cs : forall a b,
  Forall (fun t => forall nx a b, @walk E fuel (a ++ enc nx t ++ b) (Z.of_nat (length a)) = Ret t) cs ->
  mapM (@walk E fuel (a ++ encs cs ++ b)) (locs (Z.of_nat (length a)) cs) = Ret cs.
Proof.
  induction cs as [|c cs IH]; intros a b Hcs; [done|]. apply Forall_cons in Hcs as [Hc Hcs].
  simpl. rewrite <- app_assoc, Hc. simpl. rewrite app_assoc.
  set (nx := match cs with [] => 0 | _ => Z.of_nat (size c) end).
  replace (Z.of_nat (length a) + Z.of_nat (size c)) with (Z.of_nat (length (a ++ enc nx c)))
    by (rewrite length_app, enc_length; lia).
  by rewrite IH.
Qed.

Lemma walk_enc_fuel {E} t : forall fuel nx a b,
  (size t <= fuel)%nat -> @walk E fuel (a ++ enc nx t ++ b) (Z.of_nat (length a)) = Ret t.
Proof.
  induction t as [k r d cs IH] using tree_ind'. intros fuel nx a b Hf.
  destruct fuel as [|fuel]; [simpl in Hf; lia|]. cbn [size] in Hf. fold (sizes cs) in Hf.
  assert (Hcs : Forall (fun t => forall nx a b,
    @walk E fuel (a ++ enc nx t ++ b) (Z.of_nat (length a)) = Ret t) cs).
  { assert (Hle : forall c, c ∈ cs -> (size c <= sizes cs)%nat).
    { clear. intros c Hc. unfold sizes. induction Hc as [c cs|c c' cs Hc IHc]; simpl; lia. }
    apply Forall_forall. intros c Hc nx' a' b'. rewrite Forall_forall in IH.
    apply IH; [done|]. specialize (Hle c Hc). lia. }
  cbn [walk]. destruct (enc_root nx (T k r d cs)) as (ch & rest & Ee & _).
  rewrite (at_node_eq _ (Z.of_nat (length a)) _ (Nat2Z.is_nonneg _) (root_at nx (T k r d cs) a b _ ltac:(by rewrite Ee))).
  simpl (NKind _). cbn [mbind go_mbind go_bind].
  pose proof (@children_iterate E nx k r d cs a b) as Hit. cbv zeta in Hit.
  destruct (Children _ _) as [it|?| |]; try done. cbn [mbind go_mbind go_bind] in Hit |- *.
  rewrite Hit. cbn [mbind go_mbind go_bind].
  assert (Hm : mapM (@walk E fuel (a ++ enc nx (T k r d cs) ++ b)) (child_locs (Z.of_nat (length a)) k cs) = Ret cs).
  2:{ rewrite Hm. done. }
  assert (Hgen : k <> KeyValue \/ cs = [] ->
    mapM (@walk E fuel (a ++ enc nx (T k r d cs) ++ b)) (locs (Z.of_nat (length a) + 1) cs) = Ret cs).
  { intros Hk. rewrite enc_unfold. destruct cs as [|c cs]; [done|]. destruct Hk as [Hk|]; [|done].
    replace (Z.of_nat (length a) + 1) with (Z.of_nat (length (a ++ [Nd k r d nx 1])))
      by (rewrite length_app; simpl; lia).
    rewrite <- (walk_locs fuel (c :: cs) (a ++ [Nd k r d nx 1]) b Hcs), <- app_assoc. by destruct k. }
  destruct (decide (k = KeyValue)) as [->|Hk]; [|rewrite <- Hgen by auto; by destruct k].
  destruct cs as [|v keys]; [done|]. clear Hgen Hit. rewrite enc_unfold. simpl child_locs.
  apply Forall_cons in Hcs as [Hv Hkeys]. set (n := Z.of_nat (sizes keys)).
  set (a' := a ++ [Nd KeyValue r d nx (1 + n)]).
  replace (a ++ (Nd KeyValue r d nx (1 + n) :: encs keys ++ enc (- n) v) ++ b)
    with (a' ++ encs keys ++ enc (- n) v ++ b) by (unfold a'; rewrite <- !app_assoc; simpl; by rewrite <- app_assoc).
  replace (Z.of_nat (length a) + 1) with (Z.of_nat (length a')) by (unfold a'; rewrite length_app; simpl; lia).
  cbn [mapM].
  replace (Z.of_nat (length a') + n) with (Z.of_nat (length (a' ++ encs keys)))
    by (rewrite length_app, encs_length; lia).
  rewrite (app_assoc a'), Hv. cbn [mbind go_mbind go_bind]. rewrite <- app_assoc, walk_locs by done. done.
Qed.

End TomlAst.
