(* ===== verification/TomlParser.v ===== *)
(** * The parser of TOML documents ([src/utoml/unstable/parser.go])

    Each method of [Parser] that builds nodes is a function from the builder to
    a result and the builder; on an error the builder is dropped, because the
    parser never uses it again. Values nest, so [parseVal] runs on a fuel that
    bounds the nesting; the length of the text is enough. *)
From stdpp Require Import base numbers list gmap strings.
From S2P Require Import Prelude Strconv TomlChars TomlScan TomlDecode TomlTime TomlAst.
#[local] Open Scope Z_scope.

Module TomlParser.
Import TomlChars TomlScan TomlAst.

(** ** The state of the builder *)

Definition P (A : Type) : Type := builder -> go ParserError (A * builder).

#[export] Instance P_mret : MRet P := fun A a s => Ret (a, s).
#[export] Instance P_mbind : MBind P := fun A B k m s =>
  match m s with
  | Ret (a, s') => k a s'
  | Fail e => Fail e
  | Panic => Panic
  | OutOfFuel => OutOfFuel
  end.

Definition lift {A} (m : go ParserError A) : P A := fun s =>
  match m with Ret a => Ret (a, s) | Fail e => Fail e | Panic => Panic | OutOfFuel => OutOfFuel end.

Definition push (n : Node) : P Z := fun s => Ret (Push s n).
Definition pushAndChain (n : Node) : P Z := fun s => PushAndChain s n.
Definition attachChild (parent child : Z) : P unit := fun s =>
  match AttachChild s parent child with
  | Ret s' => Ret (tt, s') | Fail e => Fail e | Panic => Panic | OutOfFuel => OutOfFuel end.
Definition chainTo (from to : Z) : P unit := fun s =>
  match Chain s from to with
  | Ret s' => Ret (tt, s') | Fail e => Fail e | Panic => Panic | OutOfFuel => OutOfFuel end.

(** ** Strings *)

Definition atmost (b : slice) (n : nat) : go ParserError slice :=
  if (slen b <=? n)%nat then mret b else s_to b n.

Fixpoint hex_loop (fuel : nat) (b : slice) (r : Z) (i : nat) : go ParserError Z :=
  match fuel with
  | O => OutOfFuel
  | S fuel' =>
      if (i <? slen b)%nat then
        c ← s_at b i;
        if (48 <=? c) && (c <=? 57) then hex_loop fuel' b (uint32 (r * 16 + (c - 48))) (i + 1)
        else if (97 <=? c) && (c <=? 102) then
          hex_loop fuel' b (uint32 (r * 16 + (c - 97 + 10))) (i + 1)
        else if (65 <=? c) && (c <=? 70) then
          hex_loop fuel' b (uint32 (r * 16 + (c - 65 + 10))) (i + 1)
        else h ← s_sub b i (i + 1); fail h "non-hex character" []
      else mret r
  end.

Definition hexToRune (b : slice) (length_ : nat) : go ParserError Z :=
  if (slen b <? length_)%nat then
    fail b "unicode point needs %d character, not %d" [Z.of_nat length_; Z.of_nat (slen b)]
  else
    b ← s_to b length_;
    r ← hex_loop (S (slen b)) b 0 0;
    if (1114111 <? r) || ((55296 <=? r) && (r <? 57344)) then
      fail b "escape sequence is invalid Unicode code point" []
    else mret r.

Definition parseLiteralString (b : slice) : go ParserError (slice * data * slice) :=
  tr ← scanLiteralString b;
  let '(v, rest) := (tr : slice * slice) in
  d ← s_sub v 1 (slen v - 1);
  mret (v, InDoc d, rest).

(** [i], the index after an optional new line at the start of a multi-line
    string. *)
Definition skip_newline (token : slice) : go ParserError nat :=
  c3 ← s_at token 3;
  if c3 =? 10 then mret 4%nat
  else if c3 =? 13 then
    c4 ← s_at token 4; mret (if c4 =? 10 then 5%nat else 3%nat)
  else mret 3%nat.

Definition parseMultilineLiteralString (b : slice) : go ParserError (slice * data * slice) :=
  tr ← scanMultilineLiteralString b;
  let '(token, rest) := (tr : slice * slice) in
  i ← skip_newline token;
  d ← s_sub token i (slen token - 3);
  mret (token, InDoc d, rest).

(** The escapes of one character: what is written for it. *)
Definition simple_escape (c : Z) : option Z :=
  if (c =? 34) || (c =? 92) then Some c
  else if c =? 98 then Some 8
  else if c =? 102 then Some 12
  else if c =? 110 then Some 10
  else if c =? 114 then Some 13
  else if c =? 116 then Some 9
  else if c =? 101 then Some 27
  else None.

(** [switch c] after a backslash at [i - 1]: what is written and the index of
    the last byte of the escape. [hex n] is the text [hexToRune] is called on. *)
Definition escape (token : slice) (hex : nat -> go ParserError slice) (c : Z) (i : nat)
    : go ParserError (list Z * nat) :=
  match simple_escape c with
  | Some x => mret ([x], i)
  | None =>
      if c =? 117 then
        h ← hex 4%nat; x ← hexToRune h 4; mret (utf8_encode x, (i + 4)%nat)
      else if c =? 85 then
        h ← hex 8%nat; x ← hexToRune h 8; mret (utf8_encode x, (i + 8)%nat)
      else h ← s_sub token i (i + 1); fail h "invalid escaped character %#U" [c]
  end.

(** One character that is not escaped: what is written and its size. *)
Definition unescaped (token : slice) (c : Z) (i : nat) : go ParserError (list Z * nat) :=
  q ← s_from token i;
  size ← Utf8ValidNext (dat q);
  if (size =? 0)%nat then h ← s_sub token i (i + 1); fail h "invalid character %#U" [c]
  else d ← s_sub token i (i + size); mret (dat d, size).

Fixpoint basic_loop (fuel : nat) (token : slice) (builder : list Z) (i : nat)
    : go ParserError (list Z) :=
  match fuel with
  | O => OutOfFuel
  | S fuel' =>
      if (i <? slen token - 1)%nat then
        c ← s_at token i;
        if c =? 92 then
          c ← s_at token (i + 1);
          r ← escape token (fun n => s_sub token (i + 1 + 1) (slen token - 1)) c (i + 1);
          let '(w, j) := (r : list Z * nat) in
          basic_loop fuel' token (builder ++ w) (j + 1)
        else
          r ← unescaped token c i;
          let '(w, size) := (r : list Z * nat) in
          basic_loop fuel' token (builder ++ w) (i + size)
      else mret builder
  end.

Definition parseBasicString (b : slice) : go ParserError (slice * data * slice) :=
  tr ← scanBasicString b;
  let '(token, escaped, rest) := (tr : slice * bool * slice) in
  let startIdx := 1%nat in
  let endIdx := (slen token - 1)%nat in
  if negb escaped then
    str ← s_sub token startIdx endIdx;
    verr ← Utf8TomlValidAlreadyEscaped (dat str);
    if Zero verr then mret (token, InDoc str, rest)
    else h ← s_sub str (Index verr) (Index verr + Size verr); fail h "invalid UTF-8" []
  else
    builder ← basic_loop (S (slen token)) token [] startIdx;
    mret (token, Buf builder, rest).

(** [findEOLLoop]: from [j] on, whether the rest of the line after the backslash
    at [i] is white space up to a line feed, and where it stops. *)
Fixpoint find_eol (fuel : nat) (token : slice) (i j : nat) : go ParserError (bool * nat) :=
  match fuel with
  | O => OutOfFuel
  | S fuel' =>
      if (i + j <? slen token - 3)%nat then
        c ← s_at token (i + j);
        if (c =? 32) || (c =? 9) then find_eol fuel' token i (j + 1)
        else if c =? 13 then
          c1 ← s_at token (i + j + 1);
          if c1 =? 10 then find_eol fuel' token i (j + 1) else mret (false, j)
        else mret (c =? 10, j)
      else mret (false, j)
  end.

(** The loop that skips white space and new lines, up to the next character. *)
Fixpoint skip_blank (fuel : nat) (token : slice) (i : nat) : go ParserError nat :=
  match fuel with
  | O => OutOfFuel
  | S fuel' =>
      if (i <? slen token - 3)%nat then
        c ← s_at token i;
        if negb ((c =? 10) || (c =? 13) || (c =? 32) || (c =? 9)) then mret i
        else skip_blank fuel' token (i + 1)
      else mret (i + 1)%nat
  end.

Fixpoint ml_basic_loop (fuel : nat) (token : slice) (builder : list Z) (i : nat)
    : go ParserError (list Z) :=
  match fuel with
  | O => OutOfFuel
  | S fuel' =>
      if (i <? slen token - 3)%nat then
        c ← s_at token i;
        if c =? 92 then
          el ← find_eol (S (slen token)) token i 1;
          let '(isLastNonWhitespaceOnLine, j) := (el : bool * nat) in
          if isLastNonWhitespaceOnLine then
            i' ← skip_blank (S (slen token)) token (i + j);
            ml_basic_loop fuel' token builder i'
          else
            c ← s_at token (i + 1);
            r ← escape token
                  (fun n => q ← s_from token (i + 1 + 1); atmost q n) c (i + 1);
            let '(w, k) := (r : list Z * nat) in
            ml_basic_loop fuel' token (builder ++ w) (k + 1)
        else
          r ← unescaped token c i;
          let '(w, size) := (r : list Z * nat) in
          ml_basic_loop fuel' token (builder ++ w) (i + size)
      else mret builder
  end.

Definition parseMultilineBasicString (b : slice) : go ParserError (slice * data * slice) :=
  tr ← scanMultilineBasicString b;
  let '(token, escaped, rest) := (tr : slice * bool * slice) in
  i ← skip_newline token;
  let startIdx := i in
  let endIdx := (slen token - 3)%nat in
  if negb escaped then
    str ← s_sub token startIdx endIdx;
    verr ← Utf8TomlValidAlreadyEscaped (dat str);
    if Zero verr then mret (token, InDoc str, rest)
    else h ← s_sub str (Index verr) (Index verr + Size verr); fail h "invalid UTF-8" []
  else
    builder ← ml_basic_loop (S (slen token)) token [] i;
    mret (token, Buf builder, rest).

(** ** Small pieces *)

Definition expect (x : Z) (b : slice) : go ParserError slice :=
  if (slen b =? 0)%nat then fail b "expected character %c but the document ended here" [x]
  else
    c ← s_at b 0;
    if negb (c =? x) then h ← s_sub b 0 1; fail h "expected character %c" [x]
    else s_from b 1.

Definition parseWhitespace (b : slice) : go ParserError slice :=
  tr ← scanWhitespace b; let '(_, rest) := (tr : slice * slice) in mret rest.

Definition parseNewline (b : slice) : go ParserError slice :=
  c ← s_at b 0;
  if c =? 10 then s_from b 1
  else if c =? 13 then
    tr ← scanWindowsNewline b; let '(_, rest) := (tr : slice * slice) in mret rest
  else h ← s_sub b 0 1; fail h "expected newline but got %#U" [c].

(** [len(b) > 0 && b[0] == x] *)
Definition starts (b : slice) (x : Z) : bool :=
  match dat b with c :: _ => c =? x | [] => false end.

Definition isDigit (r : Z) : bool := (48 <=? r) && (r <=? 57).

Definition isValidHexRune (r : Z) : bool :=
  ((97 <=? r) && (r <=? 102)) || ((65 <=? r) && (r <=? 70)) || ((48 <=? r) && (r <=? 57)) || (r =? 95).
Definition isValidOctalRune (r : Z) : bool := ((48 <=? r) && (r <=? 55)) || (r =? 95).
Definition isValidBinaryRune (r : Z) : bool := (r =? 48) || (r =? 49) || (r =? 95).

Definition parseSimpleKey (b : slice) : go ParserError (slice * data * slice) :=
  if (slen b =? 0)%nat then fail b "expected key but found none" []
  else
    c ← s_at b 0;
    if c =? 39 then parseLiteralString b
    else if c =? 34 then parseBasicString b
    else if isUnquotedKeyChar c then
      tr ← scanUnquotedKey b;
      let '(key, rest) := (tr : slice * slice) in mret (key, InDoc key, rest)
    else h ← s_sub b 0 1; fail h "invalid character at start of key: %c" [c].

Section Parser.
(** The fields [data] and [KeepComments] of the parser, which do not change
    while it parses. *)
Context (pdata : slice) (KeepComments : bool).

(** [Parser.Range] *)
Definition range (b : slice) : go ParserError Range :=
  o ← SubsliceOffset pdata b;
  mret (Rng (uint32 (Z.of_nat o)) (uint32 (Z.of_nat (slen b)))).

(** [Parser.Raw] *)
Definition Parser_Raw (raw : Range) : go ParserError slice :=
  s_sub pdata (Z.to_nat (Offset raw)) (Z.to_nat (uint32 (Offset raw + Length raw))).

(** ** Comments *)

Definition parseComment (b : slice) : P (Z * slice) :=
  tr ← lift (scanComment b);
  let '(d, rest) := (tr : slice * slice) in
  if KeepComments then
    r ← lift (range d);
    ref ← push (Nd Comment r (InDoc d) 0 0);
    mret (ref, rest)
  else mret (invalidReference, rest).

(** [addComment] *)
Definition addComment (root latest ref : Z) : P (Z * Z) :=
  if root =? invalidReference then mret (ref, latest)
  else if latest =? invalidReference then _ ← attachChild root ref; mret (root, ref)
  else _ ← chainTo latest ref; mret (root, ref).

Fixpoint ws_comment_loop (fuel : nat) (root latest : Z) (b : slice) : P (Z * slice) :=
  match fuel with
  | O => lift OutOfFuel
  | S fuel' =>
      if (0 <? slen b)%nat then
        b ← lift (parseWhitespace b);
        rlb ← (if starts b 35 then
                 cb ← parseComment b;
                 let '(ref, b) := (cb : Z * slice) in
                 if negb (ref =? invalidReference) then
                   rl ← addComment root latest ref;
                   let '(root, latest) := (rl : Z * Z) in mret (root, latest, b)
                 else mret (root, latest, b)
               else mret (root, latest, b));
        let '(root, latest, b) := (rlb : Z * Z * slice) in
        if (slen b =? 0)%nat then mret (root, b)
        else
          c ← lift (s_at b 0);
          if (c =? 10) || (c =? 13) then
            b ← lift (parseNewline b);
            ws_comment_loop fuel' root latest b
          else mret (root, b)
      else mret (root, b)
  end.

Definition parseOptionalWhitespaceCommentNewline (b : slice) : P (Z * slice) :=
  ws_comment_loop (S (slen b)) invalidReference invalidReference b.

(** ** Keys *)

Fixpoint key_loop (fuel : nat) (b : slice) : P slice :=
  match fuel with
  | O => lift OutOfFuel
  | S fuel' =>
      b ← lift (parseWhitespace b);
      if starts b 46 then
        q ← lift (s_from b 1);
        b ← lift (parseWhitespace q);
        kk ← lift (parseSimpleKey b);
        let '(raw, key, b) := (kk : slice * data * slice) in
        r ← lift (range raw);
        _ ← pushAndChain (Nd Key r key 0 0);
        key_loop fuel' b
      else mret b
  end.

Definition parseKey (b : slice) : P (Z * slice) :=
  kk ← lift (parseSimpleKey b);
  let '(raw, key, b) := (kk : slice * data * slice) in
  r ← lift (range raw);
  ref ← push (Nd Key r key 0 0);
  b ← key_loop (S (slen b)) b;
  mret (ref, b).

(** ** Numbers and dates *)

(** A loop [for ; i < len(b); i++] that stops at the first byte outside a
    class. *)
Fixpoint skip_class (ok : Z -> bool) (fuel : nat) (b : slice) (i : nat) : go ParserError nat :=
  match fuel with
  | O => OutOfFuel
  | S fuel' =>
      if (i <? slen b)%nat then
        c ← s_at b i;
        if negb (ok c) then mret i else skip_class ok fuel' b (i + 1)
      else mret i
  end.

(** Push a node for [b[:i]], with its range, and go on with [b[i:]]. *)
Definition push_token (k : Kind) (b : slice) (i : nat) : P (Z * slice) :=
  d ← lift (s_to b i);
  r ← lift (range d);
  ref ← push (Nd k r (InDoc d) 0 0);
  rest ← lift (s_from b i);
  mret (ref, rest).

(** The loop of [scanIntOrFloat]: where the number ends, and whether it is a
    float; [inl] when it ends in [inf] or [nan] at that index. *)
Fixpoint number_loop (fuel : nat) (b : slice) (isFloat : bool) (i : nat)
    : go ParserError (nat + nat * bool) :=
  match fuel with
  | O => OutOfFuel
  | S fuel' =>
      if (i <? slen b)%nat then
        c ← s_at b i;
        if ((48 <=? c) && (c <=? 57)) || (c =? 43) || (c =? 45) || (c =? 95) then
          number_loop fuel' b isFloat (i + 1)
        else if (c =? 46) || (c =? 101) || (c =? 69) then number_loop fuel' b true (i + 1)
        else if c =? 105 then
          q ← s_from b i;
          if scanFollowsInf q then mret (inl (i + 3)%nat)
          else h ← s_sub b i (i + 1);
               fail h "unexpected character 'i' while scanning for a number" []
        else if c =? 110 then
          q ← s_from b i;
          if scanFollowsNan q then mret (inl (i + 3)%nat)
          else h ← s_sub b i (i + 1);
               fail h "unexpected character 'n' while scanning for a number" []
        else mret (inr (i, isFloat))
      else mret (inr (i, isFloat))
  end.

Definition scanIntOrFloat (b : slice) : P (Z * slice) :=
  zero ← lift (if (2 <? slen b)%nat then
                 c0 ← s_at b 0;
                 if negb (c0 =? 48) then mret false
                 else c1 ← s_at b 1;
                      mret (negb (c1 =? 46) && negb (c1 =? 101) && negb (c1 =? 69))
               else mret false);
  if (zero : bool) then
    c1 ← lift (s_at b 1);
    i ← lift (if c1 =? 120 then skip_class isValidHexRune (S (slen b)) b 2
              else if c1 =? 111 then skip_class isValidOctalRune (S (slen b)) b 2
              else if c1 =? 98 then skip_class isValidBinaryRune (S (slen b)) b 2
              else mret 1%nat);
    push_token Integer b i
  else
    r ← lift (number_loop (S (slen b)) b false 0);
    match r with
    | inl j => push_token Float b j
    | inr (i, isFloat) =>
        if (i =? 0)%nat then lift (fail b "incomplete number" [])
        else push_token (if (isFloat : bool) then Float else Integer) b i
    end.

Record dt_flags := Flags { hasDate : bool; hasTime : bool; hasTz : bool; seenSpace : bool }.

(** [byteLoop] *)
Fixpoint date_loop (fuel : nat) (b : slice) (f : dt_flags) (i : nat)
    : go ParserError (dt_flags * nat) :=
  match fuel with
  | O => OutOfFuel
  | S fuel' =>
      if (i <? slen b)%nat then
        c ← s_at b i;
        if isDigit c then date_loop fuel' b f (i + 1)
        else if c =? 45 then
          date_loop fuel' b
            (Flags true (hasTime f) (if (8 <=? i)%nat then true else hasTz f) (seenSpace f)) (i + 1)
        else if (c =? 84) || (c =? 116) || (c =? 58) || (c =? 46) then
          date_loop fuel' b (Flags (hasDate f) true (hasTz f) (seenSpace f)) (i + 1)
        else if (c =? 43) || (c =? 45) || (c =? 90) || (c =? 122) then
          date_loop fuel' b (Flags (hasDate f) (hasTime f) true (seenSpace f)) (i + 1)
        else if c =? 32 then
          d ← (if negb (seenSpace f) && (i + 1 <? slen b)%nat
               then c1 ← s_at b (i + 1); mret (isDigit c1) else mret false);
          if (d : bool) then
            let i := (i + 2)%nat in
            let i := if (slen b <=? i)%nat then (i - 1)%nat else i in
            date_loop fuel' b (Flags (hasDate f) true (hasTz f) true) (i + 1)
          else mret (f, i)
        else mret (f, i)
      else mret (f, i)
  end.

Definition scanDateTime (b : slice) : P (Z * slice) :=
  fi ← lift (date_loop (S (slen b)) b (Flags false false false false) 0);
  let '(f, i) := (fi : dt_flags * nat) in
  let kind :=
    if hasTime f then
      if hasDate f then if hasTz f then DateTime else LocalDateTime else LocalTime
    else LocalDate in
  d ← lift (s_to b i);
  ref ← push (Nd kind no_range (InDoc d) 0 0);
  rest ← lift (s_from b i);
  mret (ref, rest).

(** [for idx, c := range b[:s]]: whether the token is a date or a time. *)
Fixpoint looks_like_date (l : list Z) (idx : nat) : bool :=
  match l with
  | [] => false
  | c :: l' =>
      if isDigit c then looks_like_date l' (S idx)
      else ((idx =? 2)%nat && (c =? 58)) || ((idx =? 4)%nat && (c =? 45))
  end.

Definition parseIntOrFloatOrDateTime (b : slice) : P (Z * slice) :=
  c ← lift (s_at b 0);
  if c =? 105 then
    if negb (scanFollowsInf b) then h ← lift (atmost b 3); lift (fail h "expected 'inf'" [])
    else push_token Float b 3
  else if c =? 110 then
    if negb (scanFollowsNan b) then h ← lift (atmost b 3); lift (fail h "expected 'nan'" [])
    else push_token Float b 3
  else if (c =? 43) || (c =? 45) then scanIntOrFloat b
  else if (slen b <? 3)%nat then scanIntOrFloat b
  else
    let s := if (slen b <? 5)%nat then slen b else 5%nat in
    q ← lift (s_to b s);
    if looks_like_date (dat q) 0 then scanDateTime b else scanIntOrFloat b.

(** ** Values *)

Section Values.
(** [parseVal], one level of nesting further down. *)
Context (parseVal : slice -> P (Z * slice)).

Definition parseKeyval_with (b : slice) : P (Z * slice) :=
  ref ← push (Nd KeyValue no_range no_data 0 0);
  kb ← parseKey b;
  let '(key, b) := (kb : Z * slice) in
  b ← lift (parseWhitespace b);
  if (slen b =? 0)%nat then
    lift (fail b "expected = after a key, but the document ends there" [])
  else
    b ← lift (expect 61 b);
    b ← lift (parseWhitespace b);
    vb ← parseVal b;
    let '(valRef, b) := (vb : Z * slice) in
    _ ← chainTo valRef key;
    _ ← attachChild ref valRef;
    mret (ref, b).

Fixpoint inline_loop (fuel : nat) (parent child : Z) (first : bool) (b : slice) : P slice :=
  match fuel with
  | O => lift OutOfFuel
  | S fuel' =>
      if (0 <? slen b)%nat then
        let previousB := b in
        b ← lift (parseWhitespace b);
        if (slen b =? 0)%nat then
          h ← lift (s_to previousB 1); lift (fail h "inline table is incomplete" [])
        else
          c ← lift (s_at b 0);
          if c =? 125 then mret b
          else
            b ← (if negb first then b ← lift (expect 44 b); lift (parseWhitespace b) else mret b);
            kb ← parseKeyval_with b;
            let '(kv, b) := (kb : Z * slice) in
            _ ← (if first then attachChild parent kv else chainTo child kv);
            inline_loop fuel' parent kv false b
      else mret b
  end.

Definition parseInlineTable (b : slice) : P (Z * slice) :=
  h ← lift (s_to b 1);
  r ← lift (range h);
  parent ← push (Nd InlineTable r no_data 0 0);
  b ← lift (s_from b 1);
  b ← inline_loop (S (slen b)) parent 0 true b;
  rest ← lift (expect 125 b);
  mret (parent, rest).

(** [addChild] *)
Definition addChild (parent lastChild valueRef : Z) : P Z :=
  _ ← (if lastChild =? invalidReference then attachChild parent valueRef
       else chainTo lastChild valueRef);
  mret valueRef.

Definition addComments (parent lastChild cref : Z) : P Z :=
  if negb (cref =? invalidReference) then addChild parent lastChild cref else mret lastChild.

Fixpoint array_loop (fuel : nat) (arrayStart : slice) (parent lastChild : Z) (first : bool)
    (b : slice) : P slice :=
  match fuel with
  | O => lift OutOfFuel
  | S fuel' =>
      if (0 <? slen b)%nat then
        cb ← parseOptionalWhitespaceCommentNewline b;
        let '(cref, b) := (cb : Z * slice) in
        lastChild ← addComments parent lastChild cref;
        if (slen b =? 0)%nat then
          h ← lift (s_to arrayStart 1); lift (fail h "array is incomplete" [])
        else
          c ← lift (s_at b 0);
          if c =? 93 then mret b
          else
            lb ← (if c =? 44 then
                    if first then
                      h ← lift (s_sub b 0 1); lift (fail h "array cannot start with comma" [])
                    else
                      b ← lift (s_from b 1);
                      cb ← parseOptionalWhitespaceCommentNewline b;
                      let '(cref, b) := (cb : Z * slice) in
                      lastChild ← addComments parent lastChild cref;
                      mret (lastChild, b)
                  else if negb first then
                    h ← lift (s_sub b 0 1);
                    lift (fail h "array elements must be separated by commas" [])
                  else mret (lastChild, b));
            let '(lastChild, b) := (lb : Z * slice) in
            if starts b 93 then mret b
            else
              vb ← parseVal b;
              let '(valueRef, b) := (vb : Z * slice) in
              lastChild ← addChild parent lastChild valueRef;
              cb ← parseOptionalWhitespaceCommentNewline b;
              let '(cref, b) := (cb : Z * slice) in
              lastChild ← addComments parent lastChild cref;
              array_loop fuel' arrayStart parent lastChild false b
      else mret b
  end.

Definition parseValArray (b : slice) : P (Z * slice) :=
  let arrayStart := b in
  b ← lift (s_from b 1);
  parent ← push (Nd Array no_range no_data 0 0);
  b ← array_loop (S (slen b)) arrayStart parent invalidReference true b;
  rest ← lift (expect 93 b);
  mret (parent, rest).
End Values.

(** Push a string node. *)
Definition push_string (m : go ParserError (slice * data * slice)) : P (Z * slice) :=
  rvb ← lift m;
  let '(raw, v, b) := (rvb : slice * data * slice) in
  r ← lift (range raw);
  ref ← push (Nd String_ r v 0 0);
  mret (ref, b).

(** Push a node for [true] or [false], [n] bytes long. *)
Definition push_bool (b : slice) (n : nat) : P (Z * slice) :=
  d ← lift (s_to b n);
  ref ← push (Nd Bool no_range (InDoc d) 0 0);
  rest ← lift (s_from b n);
  mret (ref, rest).

Fixpoint parseVal (fuel : nat) (b : slice) : P (Z * slice) :=
  match fuel with
  | O => lift OutOfFuel
  | S fuel' =>
      if (slen b =? 0)%nat then lift (fail b "expected value, not eof" [])
      else
        c ← lift (s_at b 0);
        if c =? 34 then
          push_string (if scanFollowsMultilineBasicStringDelimiter b
                       then parseMultilineBasicString b else parseBasicString b)
        else if c =? 39 then
          push_string (if scanFollowsMultilineLiteralStringDelimiter b
                       then parseMultilineLiteralString b else parseLiteralString b)
        else if c =? 116 then
          if negb (scanFollowsTrue b) then
            h ← lift (atmost b 4); lift (fail h "expected 'true'" [])
          else push_bool b 4
        else if c =? 102 then
          if negb (scanFollowsFalse b) then
            h ← lift (atmost b 5); lift (fail h "expected 'false'" [])
          else push_bool b 5
        else if c =? 91 then parseValArray (parseVal fuel') b
        else if c =? 123 then parseInlineTable (parseVal fuel') b
        else parseIntOrFloatOrDateTime b
  end.

Definition parseKeyval (b : slice) : P (Z * slice) := parseKeyval_with (parseVal (S (slen b))) b.

(** ** Expressions *)

Definition parseArrayTable (b : slice) : P (Z * slice) :=
  ref ← push (Nd ArrayTable no_range no_data 0 0);
  b ← lift (s_from b 2);
  b ← lift (parseWhitespace b);
  kb ← parseKey b;
  let '(k, b) := (kb : Z * slice) in
  _ ← attachChild ref k;
  b ← lift (parseWhitespace b);
  b ← lift (expect 93 b);
  b ← lift (expect 93 b);
  mret (ref, b).

Definition parseStdTable (b : slice) : P (Z * slice) :=
  ref ← push (Nd Table no_range no_data 0 0);
  b ← lift (s_from b 1);
  b ← lift (parseWhitespace b);
  kb ← parseKey b;
  let '(key, b) := (kb : Z * slice) in
  _ ← attachChild ref key;
  b ← lift (parseWhitespace b);
  b ← lift (expect 93 b);
  mret (ref, b).

Definition parseTable (b : slice) : P (Z * slice) :=
  two ← lift (if (1 <? slen b)%nat then c1 ← s_at b 1; mret (c1 =? 91) else mret false);
  if (two : bool) then parseArrayTable b else parseStdTable b.

Definition parseExpression (b : slice) : P (Z * slice) :=
  b ← lift (parseWhitespace b);
  if (slen b =? 0)%nat then mret (invalidReference, b)
  else
    c ← lift (s_at b 0);
    if c =? 35 then parseComment b
    else if (c =? 10) || (c =? 13) then mret (invalidReference, b)
    else
      rb ← (if c =? 91 then parseTable b else parseKeyval b);
      let '(ref, b) := (rb : Z * slice) in
      b ← lift (parseWhitespace b);
      if starts b 35 then
        cb ← parseComment b;
        let '(cref, rest) := (cb : Z * slice) in
        _ ← (if negb (cref =? invalidReference) then chainTo ref cref else mret tt);
        mret (ref, rest)
      else mret (ref, b).
End Parser.

(** ** The parser *)

(** When an error is set, [ref] and [left] are not used again; they are
    [invalidReference] and nil. *)
Record Parser := Prs {
  p_data : slice; p_builder : builder; p_ref : Z; p_left : slice;
  p_err : option ParserError; p_first : bool; p_KeepComments : bool
}.

Definition Parser_Reset (p : Parser) (b : slice) : Parser :=
  Prs b (Reset (p_builder p)) invalidReference b None true (p_KeepComments p).

(** The loop of [NextExpression]. *)
Fixpoint next_loop (fuel : nat) (p : Parser) : go ParserError (bool * Parser) :=
  let stop e := mret (false, Prs (p_data p) (p_builder p) invalidReference nil_slice (Some e)
                               (p_first p) (p_KeepComments p)) in
  match fuel with
  | O => OutOfFuel
  | S fuel' =>
      if (slen (p_left p) =? 0)%nat then mret (false, p)
      else
        match (if negb (p_first p) then parseNewline (p_left p) else mret (p_left p)) with
        | Panic => Panic
        | OutOfFuel => OutOfFuel
        | Fail e => stop e
        | Ret rest =>
            if (slen rest =? 0)%nat then
              mret (false, Prs (p_data p) (p_builder p) (p_ref p) rest None (p_first p) (p_KeepComments p))
            else
              match parseExpression (p_data p) (p_KeepComments p) rest (p_builder p) with
              | Panic => Panic
              | OutOfFuel => OutOfFuel
              | Fail e => stop e
              | Ret (ref, rest, b) =>
                  let p' := Prs (p_data p) b ref rest None false (p_KeepComments p) in
                  if Valid ref then mret (true, p') else next_loop fuel' p'
              end
        end
  end.

Definition NextExpression (p : Parser) : go ParserError (bool * Parser) :=
  match p_err p with
  | Some _ => mret (false, p)
  | None =>
      if (slen (p_left p) =? 0)%nat then mret (false, p)
      else
        next_loop (S (slen (p_left p)))
          (Prs (p_data p) (Reset (p_builder p)) invalidReference (p_left p) None
             (p_first p) (p_KeepComments p))
  end.

(** [Parser.Expression]: the node, as its index. *)
Definition Expression (p : Parser) : go ParserError Z := NodeAt (p_builder p) (p_ref p).

(** * Correctness *)

(** ** Rests *)

(** [suf r b]: [r] is what is left of [b] after some bytes. *)
Definition suf (r b : slice) : Prop :=
  exists pre, dat b = pre ++ dat r /\ off r = (off b + length pre)%nat.

#[export] Instance suf_preorder : PreOrder suf.
Proof.
  split.
  - intros s. exists []. split; [done|simpl; lia].
  - intros s t u (p1 & E1 & O1) (p2 & E2 & O2). exists (p2 ++ p1).
    rewrite E2, E1, O1, O2, length_app. split; [by rewrite <- app_assoc|lia].
Qed.

Lemma suf_sub r b : suf r b -> sub r b.
Proof. intros (pre & E & O). exists pre, []. by rewrite app_nil_r. Qed.

Lemma suf_len r b : suf r b -> (slen r <= slen b)%nat.
Proof. intros (pre & E & _). rewrite E, length_app. lia. Qed.

Lemma suf_from b i : (i <= slen b)%nat -> suf (Sl (off b + i) (drop i (dat b))) b.
Proof.
  intros Hi. exists (take i (dat b)). simpl. rewrite take_drop, length_take. split; [done|lia].
Qed.

Lemma suf_ok r b : suf r b -> Forall byte_ok (dat b) -> Forall byte_ok (dat r).
Proof. intros (pre & E & _). rewrite E, Forall_app. tauto. Qed.

Lemma sub_ok r b : sub r b -> Forall byte_ok (dat b) -> Forall byte_ok (dat r).
Proof. intros (pre & post & E & _). rewrite E, !Forall_app. tauto. Qed.

Lemma cut_suf b t r : cut b t r -> suf r b.
Proof. intros (E & _ & O). by exists (dat t). Qed.

#[export] Hint Resolve suf_from suf_sub : slices.

(** ** Strings *)

(** Unicode text in UTF-8. *)
Definition utf8_text (l : list Z) : Prop :=
  exists cps, Forall scalar cps /\ l = concat (utf8_encode <$> cps).

Lemma utf8_text_nil : utf8_text [].
Proof. exists []. done. Qed.

Lemma utf8_text_app l1 l2 : utf8_text l1 -> utf8_text l2 -> utf8_text (l1 ++ l2).
Proof.
  intros (c1 & H1 & ->) (c2 & H2 & ->). exists (c1 ++ c2).
  by rewrite fmap_app, concat_app, Forall_app.
Qed.

Lemma toml_utf8 l : toml_text l -> utf8_text l.
Proof.
  intros (cps & H & ->). exists cps. split; [|done]. eapply Forall_impl; [done|]. by intros ? [? _].
Qed.

Lemma utf8_one cp : scalar cp -> utf8_text (utf8_encode cp).
Proof. intros H. exists [cp]. simpl. rewrite app_nil_r. split; [by constructor|done]. Qed.

(** What reading a string or a key of [b] gives: the token, its value and what
    is left. *)
Definition str_ok (b : slice) (r : slice * data * slice) : Prop :=
  let '(raw, d, rest) := r in
  suf rest b /\ (slen rest < slen b)%nat /\ sub raw b /\ utf8_text (dbytes d) /\
  match d with InDoc s => sub s b | Buf _ => True end.

Lemma spec_into {A} (m : go ParserError A) Q b c :
  sub c b -> spec m Q (points_into c) -> spec m Q (points_into b).
Proof.
  intros Hs Hm. eapply spec_mono; [done|done|]. intros e He. unfold points_into in *. by transitivity c.
Qed.

Lemma parseLiteralString_ok b :
  Forall byte_ok (dat b) -> (1 <= slen b)%nat ->
  spec (parseLiteralString b) (str_ok b) (points_into b).
Proof.
  intros Hb Hl. unfold parseLiteralString. eapply spec_bind.
  { apply scanLiteralString_safe; [done|lia..|]. rewrite part_nil. apply literal_body_nil. }
  intros [v rest] [Hcut (body & [Ht _] & Ev)].
  assert (E1 : exists q, take 1 (dat b) = [q]) by (destruct (dat b) as [|q l]; [simpl in Hl; lia|by exists q]).
  destruct E1 as [q E1]. rewrite E1 in Ev. simpl in Ev. assert (Hv : slen v = (2 + length body)%nat) by (rewrite Ev; simpl; rewrite length_app; simpl; lia).
  apply spec_sub_bind; [lia|]. go_step.
  pose proof (cut_len _ _ _ Hcut). destruct (cut_sub _ _ _ Hcut) as [Hsv _].
  split_and!; [by eapply cut_suf|lia|done| |].
  - simpl. rewrite Ev. simpl. rewrite length_app. simpl.
    replace (length body + 1 - 0 - 1)%nat with (length body) by lia.
    rewrite drop_0, take_app_length. by apply toml_utf8.
  - etransitivity; [apply sub_sub; lia|done].
Qed.

(** The closing quotes of a multi-line string follow what is skipped. *)
Definition skipped (v : slice) (head3 body : list Z) (q : Z) (i : nat) : Prop :=
  (3 <= i)%nat /\ (i <= slen v - 3)%nat /\
  exists pre post, body = pre ++ post /\ toml_text pre /\ length (head3 ++ pre) = i /\
    dat v = (head3 ++ pre) ++ post ++ [q; q; q].

Lemma skip_newline_ok v head3 body q (R : ParserError -> Prop) :
  dat v = head3 ++ body ++ [q; q; q] -> length head3 = 3%nat -> q <> 10 -> q <> 13 ->
  spec (skip_newline v) (skipped v head3 body q) R.
Proof.
  intros Ev H3 H10 H13. assert (Hl : slen v = (6 + length body)%nat).
  { rewrite Ev, !length_app, H3. simpl. lia. }
  unfold skip_newline. apply spec_at_bind; [lia|]. intros c3 Hc3.
  rewrite Ev, lookup_app_r, H3 in Hc3 by lia. simpl in Hc3.
  assert (H0 : spec (mret 3%nat) (skipped v head3 body q) R).
  { go_step. split_and!; [lia..|]. exists [], body. rewrite app_nil_r.
    split_and!; [done|apply toml_text_nil|done|done]. }
  destruct body as [|x body].
  { simpl in Hc3. injection Hc3 as <-. repeat go_step; try lia; exact H0. }
  simpl in Hc3. injection Hc3 as <-. destruct (Z.eqb_spec x 10) as [->|].
  { go_step. simpl in Hl. split_and!; [lia..|]. exists [10], body.
    split_and!; [done|apply toml_text_ascii; repeat constructor; lia|rewrite length_app, H3; done|].
    by rewrite Ev, <- app_assoc. }
  destruct (Z.eqb_spec x 13) as [->|]; [|exact H0]. apply spec_at_bind; [lia|]. intros c4 Hc4.
  rewrite Ev, lookup_app_r, H3 in Hc4 by lia. simpl in Hc4.
  destruct (Z.eqb_spec c4 10) as [->|]; [|exact H0].
  destruct body as [|y body]; [simpl in Hc4; by injection Hc4|]. injection Hc4 as ->.
  go_step. simpl in Hl. split_and!; [lia..|]. exists [13; 10], body.
  split_and!; [done|apply toml_text_ascii; repeat constructor; lia|rewrite length_app, H3; done|].
  by rewrite Ev, <- app_assoc.
Qed.

Lemma take3_len (b : slice) : (3 <= slen b)%nat -> length (take 3 (dat b)) = 3%nat.
Proof. intros H. rewrite length_take. lia. Qed.

(** The text between what is skipped and the closing quotes. *)
Lemma skipped_text v head3 body q i :
  skipped v head3 body q i -> exists post, take (slen v - 3 - i) (drop i (dat v)) = post /\
    slen v = (i + length post + 3)%nat /\ (toml_text body -> toml_text post).
Proof.
  intros (_ & _ & pre & post & Eb & Hpre & Hi & Ev). exists post.
  assert (Hlv : slen v = (i + length post + 3)%nat).
  { rewrite Ev, !length_app in *. simpl. lia. }
  split_and!; [|done|].
  - rewrite Hlv, Ev. replace (i + length post + 3 - 3 - i)%nat with (length post) by lia.
    by rewrite <- Hi, drop_app_length, take_app_length.
  - intros Ht. rewrite Eb in Ht. by apply toml_text_app_inv in Ht.
Qed.

Lemma parseMultilineLiteralString_ok b :
  Forall byte_ok (dat b) -> (3 <= slen b)%nat ->
  spec (parseMultilineLiteralString b) (str_ok b) (points_into b).
Proof.
  intros Hb Hl. unfold parseMultilineLiteralString. eapply spec_bind.
  { apply scanMultilineLiteralString_safe; [done|lia..|]. rewrite part_nil. apply toml_text_nil. }
  intros [v rest] [Hcut (body & Ht & Ev)].
  eapply spec_bind; [by eapply skip_newline_ok; [exact Ev|by apply take3_len|..]|].
  intros i Hi. destruct (skipped_text _ _ _ _ _ Hi) as (post & Ep & Hlv & Hpost).
  apply spec_sub_bind; [lia|]. go_step.
  pose proof (cut_len _ _ _ Hcut). destruct (cut_sub _ _ _ Hcut) as [Hsv _].
  split_and!; [by eapply cut_suf|lia|done| |].
  - simpl. rewrite Ep. by apply toml_utf8, Hpost.
  - etransitivity; [apply sub_sub; lia|done].
Qed.

(** ** Escapes *)

Lemma uint32_nonneg z : 0 <= uint32 z.
Proof. apply Z.mod_pos_bound. lia. Qed.

Lemma hex_loop_ok fuel b r i :
  0 <= r -> (i <= slen b)%nat -> (slen b < fuel + i)%nat ->
  spec (hex_loop fuel b r i) (fun r => 0 <= r) (points_into b).
Proof.
  revert r i. induction fuel as [|fuel IH]; intros r i Hr Hi Hf; [lia|]. cbn [hex_loop].
  repeat scan_step; try done; apply IH; try lia; apply uint32_nonneg.
Qed.

Lemma hexToRune_ok b n :
  spec (hexToRune b n) (fun r => scalar r /\ (n <= slen b)%nat) (points_into b).
Proof.
  unfold hexToRune. repeat scan_step. eapply spec_bind.
  { eapply spec_into; [apply sub_to|]. apply hex_loop_ok; [done|lia..]. }
  intros r Hr. simpl in Hr. repeat scan_step. split; [|lia]. unfold scalar. lia.
Qed.

Lemma simple_escape_ascii c x : simple_escape c = Some x -> 0 <= x < 128.
Proof. unfold simple_escape. repeat case_match; intros; simplify_eq; lia. Qed.

Lemma utf8_ascii x : 0 <= x < 128 -> utf8_text [x].
Proof.
  intros Hx. replace [x] with (utf8_encode x); [apply utf8_one; left; lia|].
  unfold utf8_encode. by rewrite (proj2 (Z.ltb_lt _ _)) by lia.
Qed.

Lemma escape_ok token hex c i :
  (i < slen token)%nat ->
  (simple_escape c = None -> forall n, spec (hex n) (fun h => sub h token /\ (i + 1 + slen h <= slen token)%nat) (points_into token)) ->
  spec (escape token hex c i)
    (fun '(w, j) => utf8_text w /\ (i <= j)%nat /\ (j < slen token)%nat) (points_into token).
Proof.
  intros Hi Hhex. unfold escape. destruct (simple_escape c) as [x|] eqn:Es.
  { go_step. split_and!; [|lia..]. apply utf8_ascii. by eapply simple_escape_ascii. }
  specialize (Hhex eq_refl). assert (Hh : forall n, spec (h ← hex n; x ← hexToRune h n; mret (utf8_encode x, (i + n)%nat))
    (fun '(w, j) => utf8_text w /\ (i <= j)%nat /\ (j < slen token)%nat) (points_into token)).
  { intros n. eapply spec_bind; [apply Hhex|]. intros h [Hs Hl]. eapply spec_bind.
    { eapply spec_into; [exact Hs|]. apply hexToRune_ok. }
    intros x [Hx Hn]. go_step. split_and!; [by apply utf8_one|lia..]. }
  go_step; [apply Hh|]. go_step; [apply Hh|]. repeat scan_step.
Qed.

Lemma unescaped_ok token c i :
  Forall byte_ok (dat token) -> (i < slen token)%nat ->
  spec (unescaped token c i)
    (fun '(w, n) => utf8_text w /\ (0 < n)%nat /\ (i + n <= slen token)%nat) (points_into token).
Proof.
  intros Hb Hi. unfold unescaped. repeat scan_step. cbn [dat] in *.
  split_and!; [|lia|go_lia]. replace (i + next_size (drop i (dat token)) - i)%nat
    with (next_size (drop i (dat token))) by lia.
  apply toml_utf8, toml_text_next. lia.
Qed.

Lemma basic_loop_ok fuel token l i :
  Forall byte_ok (dat token) -> (2 <= slen token)%nat -> dat token !! (slen token - 1)%nat = Some 34 ->
  (i <= slen token)%nat -> (slen token < fuel + i)%nat -> utf8_text l ->
  spec (basic_loop fuel token l i) utf8_text (points_into token).
Proof.
  intros Hb H2 Hq. revert l i. induction fuel as [|fuel IH]; intros l i Hi Hf Hl; [lia|].
  cbn [basic_loop]. go_step; [|by go_step]. apply spec_at_bind; [lia|]. intros c Hc. go_step.
  - apply spec_at_bind; [lia|]. intros c1 Hc1. eapply spec_bind.
    { apply escape_ok; [lia|]. intros Hs n.
      assert (i + 1 <> slen token - 1)%nat.
      { intros E. rewrite E, Hq in Hc1. injection Hc1 as <-. done. }
      eapply spec_s_sub; [lia|]. split; [apply sub_sub; lia|go_lia]. }
    intros [w j] (Hw & Hij & Hj). apply IH; [lia..|]. by apply utf8_text_app.
  - eapply spec_bind; [apply unescaped_ok; [done|lia]|]. intros [w n] (Hw & Hn & Hi2).
    apply IH; [lia..|]. by apply utf8_text_app.
Qed.

Lemma valid_or_fail token str rest b :
  Forall byte_ok (dat str) -> sub str b -> suf rest b -> (slen rest < slen b)%nat -> sub token b ->
  spec (verr ← Utf8TomlValidAlreadyEscaped (dat str);
    if Zero verr then mret (token, InDoc str, rest)
    else h ← s_sub str (Index verr) (Index verr + Size verr); fail h "invalid UTF-8" [])
    (str_ok b) (points_into b).
Proof.
  intros Hb Hs Hr Hl Ht. destruct (@Utf8TomlValid_scan ParserError (dat str) Hb) as (e & -> & He).
  cbn [mbind go_mbind go_bind]. unfold Zero. destruct He as [[-> Htext]|(Hsz & Hle & _)].
  - cbn [Nat.eqb]. go_step. split_and!; try done. by apply toml_utf8.
  - rewrite (proj2 (Nat.eqb_neq _ _)) by lia. repeat scan_step. apply points_into_new.
    etransitivity; [apply sub_sub; lia|done].
Qed.

Lemma parseBasicString_ok b :
  Forall byte_ok (dat b) -> (1 <= slen b)%nat ->
  spec (parseBasicString b) (str_ok b) (points_into b).
Proof.
  intros Hb Hl. unfold parseBasicString. eapply spec_bind.
  { apply scanBasicString_safe; [lia..|]. rewrite part_nil. constructor. }
  intros [[v esc] rest] [Hcut (body & _ & Ev)].
  assert (Hv : (2 <= slen v)%nat).
  { rewrite Ev, !length_app, length_take. cbn [length]. lia. }
  pose proof (cut_len _ _ _ Hcut). destruct (cut_sub _ _ _ Hcut) as [Hsv _].
  pose proof (cut_suf _ _ _ Hcut). pose proof (sub_ok _ _ Hsv Hb) as Hvb. cbv zeta. go_step.
  - apply spec_sub_bind; [lia|]. apply valid_or_fail; [|etransitivity; [apply sub_sub; lia|done]|done|lia|done].
    by apply Forall_take, Forall_drop.
  - eapply spec_bind.
    { eapply spec_into; [exact Hsv|]. apply basic_loop_ok; [done|lia| |lia..|apply utf8_text_nil].
      rewrite Ev, app_assoc, length_app, lookup_app_r by (simpl; lia). simpl.
      by replace (_ - _)%nat with 0%nat by lia. }
    intros l Ht. go_step. split_and!; try done. lia.
Qed.

Lemma find_eol_ok fuel token i j :
  (i + j <= slen token - 3)%nat -> (3 <= slen token)%nat -> (slen token < fuel + (i + j))%nat ->
  spec (find_eol fuel token i j)
    (fun '(_, j') => (j <= j')%nat /\ (i + j' <= slen token - 3)%nat) (points_into token).
Proof.
  revert j. induction fuel as [|fuel IH]; intros j Hj H3 Hf; [lia|]. cbn [find_eol].
  assert (Hrec : (i + j < slen token - 3)%nat -> spec (find_eol fuel token i (j + 1))
    (fun '(_, j') => (j <= j')%nat /\ (i + j' <= slen token - 3)%nat) (points_into token)).
  { intros Hlt. eapply spec_mono; [apply IH; lia| |done]. intros [e j'] [? ?]. lia. }
  repeat go_step; try (apply Hrec; lia); lia.
Qed.

Lemma skip_blank_ok fuel token i :
  (i <= slen token - 3)%nat -> (3 <= slen token)%nat -> (slen token < fuel + i)%nat ->
  spec (skip_blank fuel token i) (fun i' => (i <= i')%nat /\ (i' <= slen token - 2)%nat) (points_into token).
Proof.
  revert i. induction fuel as [|fuel IH]; intros i Hi H3 Hf; [lia|]. cbn [skip_blank].
  repeat go_step; try lia. eapply spec_mono; [apply IH; lia| |done]. simpl. lia.
Qed.

Lemma ml_basic_loop_ok fuel token l i :
  Forall byte_ok (dat token) -> (3 <= slen token)%nat -> (i <= slen token)%nat ->
  (slen token < fuel + i)%nat -> utf8_text l ->
  spec (ml_basic_loop fuel token l i) utf8_text (points_into token).
Proof.
  intros Hb H3. revert l i. induction fuel as [|fuel IH]; intros l i Hi Hf Hl; [lia|].
  cbn [ml_basic_loop]. go_step; [|by go_step]. apply spec_at_bind; [lia|]. intros c Hc. go_step.
  - eapply spec_bind; [apply find_eol_ok; lia|]. intros [last j] [Hj1 Hj2]. go_step.
    + eapply spec_bind; [apply skip_blank_ok; lia|]. intros i' [H1 H2]. apply IH; [lia..|done].
    + apply spec_at_bind; [lia|]. intros c1 Hc1. eapply spec_bind.
      { apply escape_ok; [lia|]. intros _ n. repeat go_step. unfold atmost.
        destruct (Nat.leb_spec (slen (Sl (off token + (i + 1 + 1)) (drop (i + 1 + 1) (dat token)))) n) as [Hle|Hgt].
        - go_step. split; [apply sub_from; lia|go_lia].
        - apply spec_s_to; [lia|]. split.
          + etransitivity; [apply sub_to|]. apply sub_from. lia.
          + go_lia. }
      intros [w k] (Hw & Hik & Hk). apply IH; [lia..|]. by apply utf8_text_app.
  - eapply spec_bind; [apply unescaped_ok; [done|lia]|]. intros [w n] (Hw & Hn & Hi2).
    apply IH; [lia..|]. by apply utf8_text_app.
Qed.

Lemma parseMultilineBasicString_ok b :
  Forall byte_ok (dat b) -> (3 <= slen b)%nat ->
  spec (parseMultilineBasicString b) (str_ok b) (points_into b).
Proof.
  intros Hb Hl. unfold parseMultilineBasicString. eapply spec_bind.
  { apply scanMultilineBasicString_safe; lia. }
  intros [[v esc] rest] [Hcut (body & Ev)].
  eapply spec_bind; [by eapply skip_newline_ok; [exact Ev|by apply take3_len|..]|].
  intros i Hi. destruct (skipped_text _ _ _ _ _ Hi) as (post & _ & Hlv & _).
  pose proof (cut_len _ _ _ Hcut). destruct (cut_sub _ _ _ Hcut) as [Hsv _].
  pose proof (cut_suf _ _ _ Hcut). pose proof (sub_ok _ _ Hsv Hb) as Hvb. cbv zeta. go_step.
  - apply spec_sub_bind; [lia|]. apply valid_or_fail; [|etransitivity; [apply sub_sub; lia|done]|done|lia|done].
    by apply Forall_take, Forall_drop.
  - eapply spec_bind.
    { eapply spec_into; [exact Hsv|]. apply ml_basic_loop_ok; [done|lia..|apply utf8_text_nil]. }
    intros l Ht. go_step. split_and!; try done. lia.
Qed.


(** ** Building a layout step by step *)

(** Siblings that all link to one more. *)
Fixpoint encl (cs : list tree) : list Node :=
  match cs with
  | [] => []
  | c :: cs' => enc (Z.of_nat (size c)) c ++ encl cs'
  end.

Lemma encl_length cs : length (encl cs) = sizes cs.
Proof. induction cs as [|c cs IH]; [done|]. simpl. rewrite length_app, enc_length, IH. done. Qed.

Lemma encl_snoc cs c : encl (cs ++ [c]) = encl cs ++ enc (Z.of_nat (size c)) c.
Proof. induction cs as [|c' cs IH]; simpl; [by rewrite app_nil_r|]. by rewrite IH, app_assoc. Qed.

Lemma encs_snoc cs c : encs (cs ++ [c]) = encl cs ++ enc 0 c.
Proof.
  induction cs as [|c' cs IH]; simpl; [by rewrite app_nil_r|].
  rewrite IH, app_assoc. by destruct cs.
Qed.

Lemma sizes_snoc cs c : sizes (cs ++ [c]) = (sizes cs + size c)%nat.
Proof. unfold sizes. rewrite map_app, list_sum_app. simpl. lia. Qed.

(** One more sibling. *)
Lemma link_sibling {E} pre cs c c' :
  @set_next E (pre ++ encs (cs ++ [c]) ++ enc 0 c')
    (Z.of_nat (length pre + sizes cs)) (Z.of_nat (size c)) = Ret (pre ++ encs (cs ++ [c] ++ [c'])).
Proof.
  assert (Er : encs (cs ++ [c] ++ [c']) = encl cs ++ enc (Z.of_nat (size c)) c ++ enc 0 c')
    by (by rewrite app_assoc, encs_snoc, encl_snoc, <- app_assoc).
  rewrite Er, encs_snoc, <- app_assoc, app_assoc. replace (length pre + sizes cs)%nat with (length (pre ++ encl cs)) by (rewrite length_app, encl_length; done).
  rewrite set_next_enc. by rewrite <- !app_assoc.
Qed.

Lemma set_child_root {E} pre k r d nx ch rest v :
  @set_child E (pre ++ Nd k r d nx ch :: rest) (Z.of_nat (length pre)) v =
    Ret (pre ++ Nd k r d nx v :: rest).
Proof.
  unfold set_child. rewrite (proj2 (Z.ltb_ge _ _)), Nat2Z.id by lia.
  rewrite lookup_app_r, Nat.sub_diag by lia. simpl.
  rewrite insert_app_r_alt, Nat.sub_diag by lia. done.
Qed.

Lemma enc_plain nx k r d cs :
  k <> KeyValue \/ cs = [] ->
  enc nx (T k r d cs) = Nd k r d nx (match cs with [] => 0 | _ => 1 end) :: encs cs.
Proof. intros H. rewrite enc_unfold. destruct k, cs, H; done. Qed.

(** The first child of a node. *)
Lemma link_child {E} pre k r d c :
  k <> KeyValue ->
  @set_child E (pre ++ enc 0 (T k r d []) ++ enc 0 c) (Z.of_nat (length pre)) 1 =
    Ret (pre ++ enc 0 (T k r d [c])).
Proof.
  intros Hk. rewrite !enc_plain by auto. simpl. rewrite set_child_root. by rewrite app_nil_r.
Qed.

(** One more child of a node. *)
Lemma link_next_child {E} pre k r d cs c c' :
  k <> KeyValue ->
  @set_next E (pre ++ enc 0 (T k r d (cs ++ [c])) ++ enc 0 c')
    (Z.of_nat (length pre + 1 + sizes cs)) (Z.of_nat (size c)) =
  Ret (pre ++ enc 0 (T k r d (cs ++ [c] ++ [c']))).
Proof.
  intros Hk. rewrite !enc_plain by auto.
  replace (match cs ++ [c] with [] => 0 | _ => 1 end) with 1 by (by destruct cs).
  replace (match cs ++ [c] ++ [c'] with [] => 0 | _ => 1 end) with 1 by (by destruct cs).
  replace (pre ++ (Nd k r d 0 1 :: encs (cs ++ [c])) ++ enc 0 c')
    with ((pre ++ [Nd k r d 0 1]) ++ encs (cs ++ [c]) ++ enc 0 c') by (by rewrite <- app_assoc).
  replace (length pre + 1 + sizes cs)%nat with (length (pre ++ [Nd k r d 0 1]) + sizes cs)%nat
    by (rewrite length_app; simpl; lia).
  rewrite link_sibling. by rewrite <- app_assoc.
Qed.

(** A key-value, from its keys and its value. *)
Lemma link_keyval {E} pre r d keys v :
  keys <> [] ->
  (ns ← @set_next E (pre ++ Nd KeyValue r d 0 0 :: encs keys ++ enc 0 v)
     (Z.of_nat (length pre + 1 + sizes keys)) (- Z.of_nat (sizes keys));
   set_child ns (Z.of_nat (length pre)) (1 + Z.of_nat (sizes keys))) =
  Ret (pre ++ enc 0 (T KeyValue r d (v :: keys))).
Proof.
  intros Hk.
  replace (pre ++ Nd KeyValue r d 0 0 :: encs keys ++ enc 0 v)
    with ((pre ++ Nd KeyValue r d 0 0 :: encs keys) ++ enc 0 v ++ []) by (by rewrite <- app_assoc, app_nil_r).
  replace (length pre + 1 + sizes keys)%nat with (length (pre ++ Nd KeyValue r d 0 0 :: encs keys))
    by (rewrite length_app; simpl; rewrite encs_length; lia).
  rewrite set_next_enc. cbn [mbind go_mbind go_bind]. rewrite <- app_assoc, <- app_comm_cons.
  rewrite set_child_root, enc_unfold, app_nil_r. done.
Qed.

Lemma link_table {E} pre k r d keys :
  k <> KeyValue -> keys <> [] ->
  @set_child E (pre ++ Nd k r d 0 0 :: encs keys) (Z.of_nat (length pre)) 1 =
  Ret (pre ++ enc 0 (T k r d keys)).
Proof. intros Hk Hne. rewrite set_child_root, enc_plain by auto. by destruct keys. Qed.

(** ** Specifications of parsing steps *)

Definition pspec {A} (m : P A) (s : builder) (Q : A -> builder -> Prop) (R : ParserError -> Prop) : Prop :=
  spec (m s) (fun '(a, s') => Q a s') R.

Lemma pspec_bind {A B} (m : P A) (k : A -> P B) s Q1 Q R :
  pspec m s Q1 R -> (forall a s', Q1 a s' -> pspec (k a) s' Q R) -> pspec (m ≫= k) s Q R.
Proof.
  unfold pspec, mbind, P_mbind. intros Hm Hk. destruct (m s) as [[a s']|?| |]; simpl in *; try done.
  by apply Hk.
Qed.

Lemma pspec_ret {A} (a : A) s (Q : A -> builder -> Prop) R : Q a s -> pspec (mret a) s Q R.
Proof. done. Qed.

Lemma pspec_mono {A} (m : P A) s (Q Q' : A -> builder -> Prop) R :
  pspec m s Q R -> (forall a s', Q a s' -> Q' a s') -> pspec m s Q' R.
Proof. unfold pspec. intros Hm HQ. eapply spec_mono; [done| |done]. intros [a s']. apply HQ. Qed.

Lemma pspec_lift {A} (m : go ParserError A) s (Q : A -> builder -> Prop) R :
  spec m (fun a => Q a s) R -> pspec (lift m) s Q R.
Proof. unfold pspec, lift. by destruct m. Qed.

Lemma pspec_lift_bind {A B} (m : go ParserError A) (k : A -> P B) s Q1 Q R :
  spec m Q1 R -> (forall a, Q1 a -> pspec (k a) s Q R) -> pspec (lift m ≫= k) s Q R.
Proof.
  intros Hm Hk. eapply (pspec_bind _ _ _ (fun a s' => Q1 a /\ s' = s)).
  - apply pspec_lift. eapply spec_mono; [done|done|done].
  - intros a s' [Ha ->]. by apply Hk.
Qed.

Lemma pspec_push_bind {B} n (k : Z -> P B) s Q R :
  (forall s', nodes s' = nodes s ++ [n] -> lastIdx s' = Z.of_nat (length (nodes s)) ->
     pspec (k (Z.of_nat (length (nodes s)))) s' Q R) ->
  pspec (push n ≫= k) s Q R.
Proof. intros H. unfold pspec, mbind, P_mbind, push, Push. by apply H. Qed.

Lemma pspec_attach_bind {B} parent c (k : unit -> P B) s ns' Q R :
  @set_child ParserError (nodes s) parent (c - parent) = Ret ns' ->
  (forall s', nodes s' = ns' -> pspec (k tt) s' Q R) -> pspec (attachChild parent c ≫= k) s Q R.
Proof.
  intros Hs Hk. unfold pspec, mbind, P_mbind, attachChild, AttachChild. rewrite Hs. simpl. by apply Hk.
Qed.

Lemma pspec_chain_bind {B} from to (k : unit -> P B) s ns' Q R :
  @set_next ParserError (nodes s) from (to - from) = Ret ns' ->
  (forall s', nodes s' = ns' -> pspec (k tt) s' Q R) -> pspec (chainTo from to ≫= k) s Q R.
Proof.
  intros Hs Hk. unfold pspec, mbind, P_mbind, chainTo, Chain. rewrite Hs. simpl. by apply Hk.
Qed.

Lemma pspec_attach parent c s ns' (Q : unit -> builder -> Prop) R :
  @set_child ParserError (nodes s) parent (c - parent) = Ret ns' ->
  (forall s', nodes s' = ns' -> Q tt s') -> pspec (attachChild parent c) s Q R.
Proof. intros Hs Hk. unfold pspec, attachChild, AttachChild. rewrite Hs. simpl. by apply Hk. Qed.

Lemma pspec_chain from to s ns' (Q : unit -> builder -> Prop) R :
  @set_next ParserError (nodes s) from (to - from) = Ret ns' ->
  (forall s', nodes s' = ns' -> Q tt s') -> pspec (chainTo from to) s Q R.
Proof. intros Hs Hk. unfold pspec, chainTo, Chain. rewrite Hs. simpl. by apply Hk. Qed.

(** ** Small pieces *)

Lemma parseWhitespace_ok b :
  spec (parseWhitespace b)
    (fun r => suf r b /\ forall c, head (dat r) = Some c -> isWhitespace c = false) (points_into b).
Proof.
  unfold parseWhitespace. eapply spec_bind; [apply scan_class_safe; [lia..|done]|].
  intros [t r] (Hcut & _ & Hr). go_step. split; [by eapply cut_suf|done].
Qed.

Lemma expect_ok x b :
  spec (expect x b) (fun r => suf r b /\ (slen r < slen b)%nat /\ head (dat b) = Some x) (points_into b).
Proof.
  unfold expect. repeat scan_step. apply spec_s_from; [lia|]. split_and!.
  - apply suf_from. lia.
  - go_lia.
  - rewrite head_lookup, Hc. f_equal. lia.
Qed.

Lemma parseNewline_ok b :
  (0 < slen b)%nat ->
  spec (parseNewline b) (fun r => suf r b /\ (slen r < slen b)%nat) (points_into b).
Proof.
  intros Hl. unfold parseNewline. repeat scan_step.
  - apply spec_s_from; [lia|]. split; [apply suf_from; lia|go_lia].
  - unfold scanWindowsNewline. eapply (spec_bind _ _ (fun '(t, r) => suf r b /\ (slen r < slen b)%nat)).
    + repeat scan_step. split; [apply suf_from; lia|go_lia].
    + intros [t r] H. by go_step.
Qed.

Lemma starts_head b x : starts b x = true -> head (dat b) = Some x /\ (0 < slen b)%nat.
Proof.
  unfold starts. destruct (dat b) as [|c l]; [done|]. intros ->%Z.eqb_eq. simpl. split; [done|lia].
Qed.

Lemma parseSimpleKey_ok b :
  Forall byte_ok (dat b) -> spec (parseSimpleKey b) (str_ok b) (points_into b).
Proof.
  intros Hb. unfold parseSimpleKey. go_step; [repeat scan_step|]. apply spec_at_bind; [lia|].
  intros c Hc. go_step; [apply parseLiteralString_ok; [done|lia]|].
  go_step; [apply parseBasicString_ok; [done|lia]|]. go_step; [|repeat scan_step].
  eapply spec_bind; [apply scan_class_safe; [lia..|done]|]. intros [t r] (Hcut & Ht & Hr).
  go_step. pose proof (cut_len _ _ _ Hcut). destruct (cut_sub _ _ _ Hcut) as [Hs _].
  assert (Hlt : (0 < slen t)%nat).
  { destruct Hcut as (E & _ & _). destruct (dat t) as [|x l]; [|simpl; lia]. exfalso.
    rewrite E in Hc. simpl in Hc. specialize (Hr c). rewrite head_lookup in Hr.
    rewrite Hr in Heqb3 by done. done. }
  split_and!; [by eapply cut_suf|lia|done| |done]. apply toml_utf8, toml_text_ascii.
  eapply Forall_impl; [done|]. simpl. intros x Hx.
  unfold isUnquotedKeyChar in Hx. unfold InvalidAscii. lia.
Qed.

(** ** The trees of a document *)

Section Correct.
Context (pdata : slice) (KeepComments : bool).

(** The range of a node is empty or that of a part of the document. *)
Definition raw_ok (r : Range) : Prop :=
  r = no_range \/ exists s, sub s pdata /\
    r = Rng (uint32 (Z.of_nat (off s - off pdata))) (uint32 (Z.of_nat (slen s))).

(** What the value of a node is, by its kind: what the readers of numbers and
    dates need, and text. *)
Definition data_ok (k : Kind) (d : data) : Prop :=
  match k with
  | Key | String_ => utf8_text (dbytes d) /\ match d with InDoc s => sub s pdata | Buf _ => True end
  | _ =>
      match d with
      | Buf _ => False
      | InDoc s =>
          sub s pdata /\
          match k with
          | Comment | LocalDate | LocalTime | LocalDateTime => True
          | Bool => dat s = bs "true" \/ dat s = bs "false"
          | Integer => TomlDecode.int_token (dat s)
          | Float => TomlDecode.float_token (dat s)
          | DateTime => TomlTime.dt_token (dat s)
          | _ => False
          end
      end
  end.

Definition leaf (k : Kind) (t : tree) : Prop :=
  exists r d, t = T k r d [] /\ raw_ok r /\ data_ok k d.

Definition wf_key : tree -> Prop := leaf Key.

Definition wf_comment (t : tree) : Prop :=
  exists r d cs, t = T Comment r d cs /\ raw_ok r /\ data_ok Comment d /\ Forall (leaf Comment) cs.

Definition is_scalar (k : Kind) : bool :=
  match k with
  | String_ | Bool | Float | Integer | LocalDate | LocalTime | LocalDateTime | DateTime => true
  | _ => false
  end.

Inductive wf_val : tree -> Prop :=
| wf_scalar k t : is_scalar k = true -> leaf k t -> wf_val t
| wf_array r d cs : Forall (fun c => wf_comment c \/ wf_val c) cs -> wf_val (T Array r d cs)
| wf_inline r d cs : Forall wf_kv cs -> wf_val (T InlineTable r d cs)
with wf_kv : tree -> Prop :=
| wf_keyval r d v keys :
    wf_val v -> keys <> [] -> Forall wf_key keys -> wf_kv (T KeyValue r d (v :: keys)).

(** A top-level expression. *)
Inductive wf_expr : tree -> Prop :=
| we_keyval t : wf_kv t -> wf_expr t
| we_table k r d keys :
    k = Table \/ k = ArrayTable -> keys <> [] -> Forall wf_key keys -> wf_expr (T k r d keys)
| we_comment t : wf_comment t -> wf_expr t.

Lemma leaf_comment t : leaf Comment t -> wf_comment t.
Proof. intros (r & d & -> & Hr & Hd). by exists r, d, []. Qed.

Lemma raw_no_range : raw_ok no_range.
Proof. by left. Qed.

(** ** Every step of the parser *)

Context (Hdoc : Forall byte_ok (dat pdata)).

(** Errors point into the document. *)
Abbreviation into := (points_into pdata).

Lemma range_ok s : sub s pdata -> spec (range pdata s) raw_ok into.
Proof.
  intros Hs. unfold range, SubsliceOffset. destruct (sub_len _ _ Hs) as [H1 H2].
  rewrite (proj2 (Nat.ltb_ge _ _)) by lia. rewrite (proj2 (Nat.ltb_ge _ _)) by lia.
  rewrite (proj2 (Nat.ltb_ge _ _)) by lia. simpl. right. by exists s.
Qed.

(** A parsing step on [b] pushed the layout of a tree, and left [rest]. *)
Definition pushed (W : tree -> Prop) (s s' : builder) (ref : Z) : Prop :=
  ref = Z.of_nat (length (nodes s)) /\ exists t, W t /\ nodes s' = nodes s ++ enc 0 t.

Definition progress (b rest : slice) : Prop := suf rest b /\ (slen rest < slen b)%nat.

Lemma progress_sub b rest : progress b rest -> sub b pdata -> sub rest pdata.
Proof. intros [H _] Hb. transitivity b; [by apply suf_sub|done]. Qed.

Lemma suf_in b rest : suf rest b -> sub b pdata -> sub rest pdata.
Proof. intros H Hb. transitivity b; [by apply suf_sub|done]. Qed.

(** A step pushed a tree, or returned the invalid reference and did nothing. *)
Definition maybe_pushed (W : tree -> Prop) (s s' : builder) (ref : Z) : Prop :=
  (ref = invalidReference /\ nodes s' = nodes s) \/ pushed W s s' ref.

Lemma pushed_ref W s s' ref : pushed W s s' ref -> ref <> invalidReference.
Proof. intros [-> _]. unfold invalidReference. lia. Qed.

Lemma leaf_pushed k r d s s' :
  raw_ok r -> data_ok k d -> nodes s' = nodes s ++ [Nd k r d 0 0] ->
  pushed (leaf k) s s' (Z.of_nat (length (nodes s))).
Proof.
  intros Hr Hd Hs. split; [done|]. exists (T k r d []). split; [by exists r, d|].
  rewrite enc_plain by auto. done.
Qed.

Lemma parseComment_ok b s :
  sub b pdata -> (0 < slen b)%nat ->
  pspec (parseComment pdata KeepComments b) s
    (fun '(ref, rest) s' => progress b rest /\ maybe_pushed (leaf Comment) s s' ref) into.
Proof.
  intros Hb Hl. unfold parseComment. eapply pspec_lift_bind.
  { eapply spec_into; [exact Hb|]. apply scanComment_safe; [by eapply sub_ok|lia..|].
    rewrite part_nil. split; [apply toml_text_nil|done]. }
  intros [d rest] (Hcut & _ & body & _ & Ed). destruct (cut_sub _ _ _ Hcut) as [Hsd _].
  assert (Hp : progress b rest).
  { split; [by eapply cut_suf|]. pose proof (cut_len _ _ _ Hcut).
    rewrite Ed, length_app, length_take in *. lia. }
  destruct KeepComments.
  - eapply pspec_lift_bind; [apply range_ok; by transitivity b|]. intros r Hr.
    apply pspec_push_bind. intros s' Hs' _. apply pspec_ret. split; [done|]. right.
    eapply leaf_pushed; [exact Hr| |exact Hs']. split; [|done]. by transitivity b.
  - apply pspec_ret. split; [done|]. by left.
Qed.

(** [addComment]'s state: no comment, one, or one with others as its children. *)
Definition comments (s0 s : builder) (root latest : Z) : Prop :=
  (root = invalidReference /\ latest = invalidReference /\ nodes s = nodes s0) \/
  (latest = invalidReference /\ pushed (leaf Comment) s0 s root) \/
  (root = Z.of_nat (length (nodes s0)) /\ exists r d cs c, raw_ok r /\ data_ok Comment d /\
     Forall (leaf Comment) (cs ++ [c]) /\ latest = Z.of_nat (length (nodes s0) + 1 + sizes cs) /\
     nodes s = nodes s0 ++ enc 0 (T Comment r d (cs ++ [c]))).

Lemma comments_maybe s0 s root latest : comments s0 s root latest -> maybe_pushed wf_comment s0 s root.
Proof.
  intros [(-> & _ & E)|[(_ & -> & t & Ht & E)|(-> & r & d & cs & c & Hr & Hd & Hc & _ & E)]].
  - by left.
  - right. split; [done|]. exists t. split; [by apply leaf_comment|done].
  - right. split; [done|]. eexists. split; [|exact E]. by exists r, d, (cs ++ [c]).
Qed.

Lemma comment_leaf_size c : leaf Comment c -> size c = 1%nat.
Proof. by intros (r & d & -> & _). Qed.

Lemma addComment_ok s0 s1 s root latest ref :
  comments s0 s1 root latest -> pushed (leaf Comment) s1 s ref ->
  pspec (addComment root latest ref) s (fun '(root', latest') s' => comments s0 s' root' latest') into.
Proof.
  intros Hc [-> (t & Ht & E)]. unfold addComment, invalidReference.
  destruct Hc as [(-> & -> & E1)|[(-> & -> & t0 & Ht0 & E1)|(-> & r & d & cs & c & Hr & Hd & Hc & -> & E1)]].
  - simpl. apply pspec_ret. right. left. split; [done|]. rewrite E1 in *. split; [done|]. by exists t.
  - rewrite (proj2 (Z.eqb_neq _ _)) by lia. simpl. destruct Ht0 as (r & d & -> & Hr & Hd).
    assert (Hs : @set_child ParserError (nodes s) (Z.of_nat (length (nodes s0)))
      (Z.of_nat (length (nodes s1)) - Z.of_nat (length (nodes s0))) = Ret (nodes s0 ++ enc 0 (T Comment r d [t]))).
    { rewrite E, E1, length_app, enc_length, <- app_assoc. simpl size.
      replace (Z.of_nat (length (nodes s0) + 1) - Z.of_nat (length (nodes s0))) with 1 by lia.
      by apply link_child. }
    eapply pspec_attach_bind; [exact Hs|]. intros s' Hs'. apply pspec_ret. right. right. split; [done|].
    exists r, d, [], t. split_and!; [done|done|by constructor| |done].
    rewrite E1, length_app, enc_length. unfold sizes. simpl. lia.
  - rewrite (proj2 (Z.eqb_neq _ _)) by lia. rewrite (proj2 (Z.eqb_neq _ _)) by lia.
    apply Forall_app in Hc as Hc'. destruct Hc' as [_ Hlast]. apply Forall_singleton in Hlast.
    assert (Hl1 : length (nodes s1) = (length (nodes s0) + 1 + sizes cs + size c)%nat).
    { rewrite E1, length_app, enc_length. cbn [size]. fold (sizes (cs ++ [c])). rewrite sizes_snoc. lia. }
    assert (Hs : @set_next ParserError (nodes s) (Z.of_nat (length (nodes s0) + 1 + sizes cs))
      (Z.of_nat (length (nodes s1)) - Z.of_nat (length (nodes s0) + 1 + sizes cs)) =
      Ret (nodes s0 ++ enc 0 (T Comment r d (cs ++ [c] ++ [t])))).
    { rewrite E, E1 at 1. rewrite <- app_assoc.
      replace (_ - _) with (Z.of_nat (size c)) by (rewrite Hl1; lia).
      by apply link_next_child. }
    eapply pspec_chain_bind; [exact Hs|]. intros s' Hs'. apply pspec_ret. right. right. split; [done|].
    exists r, d, (cs ++ [c]), t. rewrite <- app_assoc. split_and!; [done|done| | |done].
    + rewrite app_assoc. apply Forall_app. split; [done|by constructor].
    + rewrite Hl1, sizes_snoc. lia.
Qed.

Lemma ws_comment_loop_ok fuel s0 s root latest b :
  sub b pdata -> (slen b < fuel)%nat -> comments s0 s root latest ->
  pspec (ws_comment_loop pdata KeepComments fuel root latest b) s
    (fun '(ref, rest) s' => suf rest b /\ maybe_pushed wf_comment s0 s' ref) into.
Proof.
  revert s root latest b. induction fuel as [|fuel IH]; intros s root latest b Hb Hf Hc; [lia|].
  cbn [ws_comment_loop]. destruct (Nat.ltb_spec 0 (slen b)) as [Hl|].
  2:{ apply pspec_ret. split; [done|by eapply comments_maybe]. }
  eapply pspec_lift_bind; [eapply spec_into; [exact Hb|apply parseWhitespace_ok]|].
  intros b1 [Hb1 _]. pose proof (suf_in _ _ Hb1 Hb) as Hs1.
  eapply (pspec_bind _ _ _ (fun '(root', latest', b2) s' => suf b2 b1 /\ comments s0 s' root' latest')).
  { destruct (starts b1 35) eqn:Est; [|by apply pspec_ret].
    apply starts_head in Est as [_ Hl1].
    eapply pspec_bind; [by apply parseComment_ok|]. intros [ref b2] s2 [[Hb2 _] Hm].
    destruct Hm as [[-> E]|Hm].
    - simpl. apply pspec_ret. split; [done|]. unfold comments, pushed in *. by rewrite E.
    - rewrite (proj2 (Z.eqb_neq _ _)) by (by eapply pushed_ref). simpl.
      eapply pspec_bind; [by eapply addComment_ok|]. intros [root' latest'] s3 Hc3. by apply pspec_ret. }
  intros [[root' latest'] b2] s2 [Hb2 Hc2]. pose proof (suf_in _ _ Hb2 Hs1) as Hs2.
  assert (Hsuf : suf b2 b) by (by transitivity b1).
  destruct (Nat.eqb_spec (slen b2) 0).
  { apply pspec_ret. split; [done|by eapply comments_maybe]. }
  eapply pspec_lift_bind; [apply spec_s_at; [lia|intros c Hc'; exact Hc']|]. intros c _.
  destruct ((c =? 10) || (c =? 13)).
  2:{ apply pspec_ret. split; [done|by eapply comments_maybe]. }
  eapply pspec_lift_bind; [eapply spec_into; [exact Hs2|apply parseNewline_ok; lia]|].
  intros b3 [Hb3 Hl3]. pose proof (suf_len _ _ Hsuf).
  eapply pspec_mono; [apply IH; [by eapply suf_in|lia|done]|].
  intros [ref rest] s3 [Hr Hm]. split; [|done]. transitivity b3; [done|]. by transitivity b2.
Qed.

Lemma opt_comments_ok s b :
  sub b pdata ->
  pspec (parseOptionalWhitespaceCommentNewline pdata KeepComments b) s
    (fun '(ref, rest) s' => suf rest b /\ maybe_pushed wf_comment s s' ref) into.
Proof. intros Hb. apply ws_comment_loop_ok; [done|lia|]. by left. Qed.

(** ** Keys *)

Lemma key_size k : wf_key k -> size k = 1%nat.
Proof. by intros (r & d & -> & _). Qed.

(** The keys pushed so far; the last one is the last node. *)
Definition keys_pushed (s0 s : builder) (keys : list tree) : Prop :=
  keys <> [] /\ Forall wf_key keys /\ nodes s = nodes s0 ++ encs keys /\
  lastIdx s = Z.of_nat (length (nodes s)) - 1.

Lemma key_step s0 s keys r d :
  keys_pushed s0 s keys -> raw_ok r -> data_ok Key d ->
  exists s', @PushAndChain ParserError s (Nd Key r d 0 0) =
    Ret (Z.of_nat (length (nodes s)), s') /\ keys_pushed s0 s' (keys ++ [T Key r d []]).
Proof.
  intros (Hne & Hk & E & El) Hr Hd. unfold PushAndChain.
  destruct keys as [|c keys _] using rev_ind; [done|].
  apply Forall_app in Hk as Hk'. destruct Hk' as [Hks Hc]. apply Forall_cons in Hc as [Hc _].
  pose proof (key_size _ Hc) as Hsz.
  assert (Hlen : length (nodes s) = (length (nodes s0) + sizes keys + 1)%nat).
  { rewrite E, length_app, encs_length, sizes_snoc. lia. }
  rewrite (proj2 (Z.leb_le _ _)) by lia.
  assert (Hs : @set_next ParserError (nodes s ++ [Nd Key r d 0 0]) (lastIdx s)
    (Z.of_nat (length (nodes s)) - lastIdx s) = Ret (nodes s0 ++ encs (keys ++ [c] ++ [T Key r d []]))).
  { rewrite <- (link_sibling (nodes s0) keys c (T Key r d [])).
    replace (lastIdx s) with (Z.of_nat (length (nodes s0) + sizes keys)) by lia.
    replace (Z.of_nat (length (nodes s)) - _) with (Z.of_nat (size c)) by lia.
    by rewrite (enc_plain 0 Key r d []), E, <- app_assoc by auto. }
  rewrite Hs. simpl. eexists. split; [done|]. split_and!; simpl.
  - by destruct keys.
  - rewrite <- app_assoc. apply Forall_app. split; [done|]. apply Forall_cons. split; [done|].
    constructor; [by exists r, d|done].
  - by rewrite <- app_assoc.
  - rewrite length_app, encs_length. change (keys ++ [c; T Key r d []]) with (keys ++ [c] ++ [T Key r d []]).
    rewrite app_assoc, !sizes_snoc, Hsz. cbn [size map list_sum foldr]. lia.
Qed.

Lemma key_loop_ok fuel s0 s b keys :
  sub b pdata -> (slen b < fuel)%nat -> keys_pushed s0 s keys ->
  pspec (key_loop pdata fuel b) s
    (fun rest s' => suf rest b /\ exists keys', keys_pushed s0 s' keys') into.
Proof.
  revert s b keys. induction fuel as [|fuel IH]; intros s b keys Hb Hf Hk; [lia|].
  cbn [key_loop]. eapply pspec_lift_bind; [eapply spec_into; [exact Hb|apply parseWhitespace_ok]|].
  intros b1 [Hb1 _]. pose proof (suf_in _ _ Hb1 Hb) as Hs1. pose proof (suf_len _ _ Hb1).
  destruct (starts b1 46) eqn:Est; [|by apply pspec_ret; eauto].
  apply starts_head in Est as [_ Hl1].
  eapply pspec_lift_bind.
  { apply (spec_s_from b1 1 (fun q => suf q b1 /\ (slen q < slen b1)%nat)); [lia|].
    split; [by apply suf_from|go_lia]. }
  intros q [Hq Hlq]. pose proof (suf_in _ _ Hq Hs1) as Hsq.
  eapply pspec_lift_bind; [eapply spec_into; [exact Hsq|apply parseWhitespace_ok]|].
  intros b2 [Hb2 _]. pose proof (suf_in _ _ Hb2 Hsq) as Hs2. pose proof (suf_len _ _ Hb2).
  eapply pspec_lift_bind.
  { eapply spec_into; [exact Hs2|]. apply parseSimpleKey_ok. by eapply sub_ok. }
  intros [[raw key] b3] (Hb3 & Hl3 & Hraw & Htext & Hd).
  eapply pspec_lift_bind; [apply range_ok; by transitivity b2|]. intros r Hr.
  assert (Hdk : data_ok Key key).
  { split; [done|]. destruct key; [by transitivity b2|done]. }
  destruct (key_step s0 s keys r key Hk Hr Hdk) as (s' & Es & Hk').
  eapply (pspec_bind _ _ _ (fun _ s1 => s1 = s')).
  { unfold pspec, pushAndChain. by rewrite Es. }
  intros _ _ ->. eapply pspec_mono; [eapply IH; [by eapply suf_in|lia|done]|].
  intros rest s2 [Hrest Hks]. split; [|done].
  transitivity b3; [done|]. transitivity b2; [done|]. transitivity q; [done|]. by transitivity b1.
Qed.

(** A dotted key pushed the layout of its parts. *)
Definition key_pushed (s s' : builder) (ref : Z) (keys : list tree) : Prop :=
  ref = Z.of_nat (length (nodes s)) /\ keys <> [] /\ Forall wf_key keys /\
  nodes s' = nodes s ++ encs keys.

Lemma parseKey_ok s b :
  sub b pdata ->
  pspec (parseKey pdata b) s
    (fun '(ref, rest) s' => progress b rest /\ exists keys, key_pushed s s' ref keys) into.
Proof.
  intros Hb. unfold parseKey. eapply pspec_lift_bind.
  { eapply spec_into; [exact Hb|]. apply parseSimpleKey_ok. by eapply sub_ok. }
  intros [[raw key] b1] (Hb1 & Hl1 & Hraw & Htext & Hd).
  eapply pspec_lift_bind; [apply range_ok; by transitivity b|]. intros r Hr.
  apply pspec_push_bind. intros s1 Hs1 El.
  eapply pspec_bind.
  { apply (key_loop_ok _ s s1 b1 [T Key r key []]); [by eapply suf_in|lia|].
    split_and!; [done| | |].
    - constructor; [|done]. exists r, key. split_and!; [done|done|]. split; [done|].
      destruct key; [by transitivity b|done].
    - rewrite Hs1. simpl. done.
    - rewrite El, Hs1, length_app. simpl. lia. }
  intros b2 s2 (Hb2 & keys & Hne & Hk & E & _). apply pspec_ret. split.
  - split; [by transitivity b1|]. pose proof (suf_len _ _ Hb2). lia.
  - exists keys. done.
Qed.

(** ** Numbers and dates *)

Lemma skip_class_ok ok fuel b i :
  (i <= slen b)%nat -> (slen b < fuel + i)%nat ->
  spec (skip_class ok fuel b i) (fun j => (i <= j <= slen b)%nat) into.
Proof.
  revert i. induction fuel as [|fuel IH]; intros i Hi Hf; [lia|]. cbn [skip_class].
  repeat go_step; try lia. eapply spec_mono; [apply IH; lia| |done]. simpl. lia.
Qed.

Lemma push_token_ok k b i s :
  sub b pdata -> (0 < i <= slen b)%nat -> data_ok k (InDoc (Sl (off b) (take i (dat b)))) ->
  pspec (push_token pdata k b i) s
    (fun '(ref, rest) s' => progress b rest /\ pushed (leaf k) s s' ref) into.
Proof.
  intros Hb Hi Hd. unfold push_token.
  eapply pspec_lift_bind; [apply (spec_s_to b i (fun d => d = Sl (off b) (take i (dat b)))); [lia|done]|].
  intros d ->. eapply pspec_lift_bind.
  { apply range_ok. transitivity b; [apply sub_to|done]. }
  intros r Hr. apply pspec_push_bind. intros s' Hs' _.
  eapply pspec_lift_bind; [apply (spec_s_from b i (fun q => q = Sl (off b + i) (drop i (dat b)))); [lia|done]|].
  intros q ->. apply pspec_ret. split; [|by eapply leaf_pushed].
  split; [apply suf_from; lia|go_lia].
Qed.

Definition float_char (c : Z) : bool := (c =? 46) || (c =? 101) || (c =? 69).

(** The flag tells whether the number has a point or an exponent. *)
Definition float_flag (b : slice) (i : nat) (isFloat : bool) : Prop :=
  if isFloat then exists k c, (k < i)%nat /\ dat b !! k = Some c /\ float_char c = true
  else forall k c, (k < i)%nat -> dat b !! k = Some c -> float_char c = false.

Lemma float_flag_next b i isFloat c :
  float_flag b i isFloat -> dat b !! i = Some c ->
  float_flag b (i + 1) (if float_char c then true else isFloat).
Proof.
  intros Hf Hc. destruct (float_char c) eqn:Ec; [exists i, c; split_and!; [lia|done|done]|].
  destruct isFloat.
  - destruct Hf as (k & c' & Hk & H1 & H2). exists k, c'. split_and!; [lia|done|done].
  - intros k c' Hk Hc'. destruct (decide (k = i)) as [->|]; [congruence|]. apply (Hf k); [lia|done].
Qed.

Lemma number_loop_ok fuel b isFloat i :
  sub b pdata -> (i <= slen b)%nat -> (slen b < fuel + i)%nat -> float_flag b i isFloat ->
  spec (number_loop fuel b isFloat i)
    (fun r => match r with
              | inl j => (3 <= j <= slen b)%nat
              | inr (j, f) => (j <= slen b)%nat /\ float_flag b j f
              end) into.
Proof.
  intros Hb. revert isFloat i. induction fuel as [|fuel IH]; intros isFloat i Hi Hf Hfl; [lia|].
  assert (Hin : forall h f args, sub h b -> into (NewParserError h f args)).
  { intros h f args H. unfold points_into. simpl. by transitivity b. }
  cbn [number_loop]. go_step; [|by go_step]. apply spec_at_bind; [lia|]. intros c Hc.
  pose proof (float_flag_next b i isFloat c Hfl Hc) as Hnext. unfold float_char in Hnext.
  go_step. { apply IH; [lia..|]. by replace ((c =? 46) || (c =? 101) || (c =? 69)) with false in Hnext by lia. }
  go_step; [by apply IH; [lia..|]|].
  go_step.
  { apply spec_from_bind; [lia|]. go_step.
    - go_step. apply spec_follows_bytes in Heqb4 as [_ H]. change (length (bs "inf")) with 3%nat in H.
      simpl in H. rewrite length_drop in H. lia.
    - apply spec_sub_bind; [lia|]. apply spec_fail_R, Hin. eauto with slices. }
  go_step; [|by go_step].
  apply spec_from_bind; [lia|]. go_step.
  - go_step. apply spec_follows_bytes in Heqb5 as [_ H]. change (length (bs "nan")) with 3%nat in H.
    simpl in H. rewrite length_drop in H. lia.
  - apply spec_sub_bind; [lia|]. apply spec_fail_R, Hin. eauto with slices.
Qed.

Lemma float_token_len (l : list Z) : (3 <= length l)%nat -> TomlDecode.float_token l.
Proof. intros H. split_and!; intros ->; simpl in H; lia. Qed.

Lemma float_token_flag b i :
  float_flag b i true -> TomlDecode.float_token (take i (dat b)).
Proof.
  intros (k & c & Hk & Hc & Hf). rewrite <- (lookup_take_lt (dat b) i k Hk) in Hc.
  split_and!; intros E; rewrite E in Hc; [done|..];
    (destruct k as [|k]; [injection Hc as <-|]; done).
Qed.

Definition pushed_leaf (s s' : builder) (ref : Z) : Prop :=
  exists k, is_scalar k = true /\ pushed (leaf k) s s' ref.

Lemma pushed_val s s' ref : pushed_leaf s s' ref -> pushed wf_val s s' ref.
Proof.
  intros (k & Hk & -> & t & Ht & E). split; [done|]. exists t. split; [by eapply wf_scalar|done].
Qed.

Definition scalar_post (b : slice) (s : builder) (r : Z * slice) (s' : builder) : Prop :=
  progress b r.2 /\ pushed wf_val s s' r.1.

Lemma push_token_val k b i s :
  is_scalar k = true -> sub b pdata -> (0 < i <= slen b)%nat ->
  data_ok k (InDoc (Sl (off b) (take i (dat b)))) ->
  pspec (push_token pdata k b i) s (scalar_post b s) into.
Proof.
  intros Hk Hb Hi Hd. eapply pspec_mono; [by apply push_token_ok|].
  intros [ref rest] s' [Hp Hpu]. split; [done|]. apply pushed_val. by exists k.
Qed.

Lemma take_sub b i : sub b pdata -> sub (Sl (off b) (take i (dat b))) pdata.
Proof. intros Hb. transitivity b; [apply sub_to|done]. Qed.

Lemma scanIntOrFloat_ok b s :
  sub b pdata -> pspec (scanIntOrFloat pdata b) s (scalar_post b s) into.
Proof.
  intros Hb. unfold scanIntOrFloat. eapply pspec_lift_bind.
  { apply (spec_mono _ (fun z : bool =>
      (z = true -> (2 < slen b)%nat /\ dat b !! 0%nat = Some 48) /\
      (z = false -> (2 < slen b)%nat -> dat b !! 0%nat = Some 48 ->
         exists c, dat b !! 1%nat = Some c /\ float_char c = true)) _ into into); [|intros z Hz; exact Hz|done].
    repeat go_step.
    - split; [done|]. intros _ _ H. rewrite Hc in H. injection H as ->. done.
    - assert (c = 48) as -> by lia. split; [intros; split; [lia|done]|].
      intros Hz _ _. exists c0. split; [done|]. unfold float_char. lia.
    - split; [done|]. intros; lia. }
  intros z [Ht Hf]. destruct z.
  - destruct (Ht eq_refl) as [Hl H0]. clear Ht Hf.
    eapply pspec_lift_bind; [apply (spec_s_at b 1 (fun c => dat b !! 1%nat = Some c)); [lia|done]|].
    intros c1 Hc1.
    eapply (pspec_lift_bind _ _ _ (fun i => (1 <= i <= slen b)%nat /\
      ((1 < i)%nat -> c1 = 120 \/ c1 = 98 \/ c1 = 111))).
    { repeat go_step; [..|lia].
      all: eapply spec_mono; [apply skip_class_ok; lia|intros i Hi; simpl in *; lia|done]. }
    intros i [Hi Hbase]. apply push_token_val; [done|done|lia|]. split; [by apply take_sub|].
    simpl. split.
    + intros E. apply (f_equal length) in E. rewrite length_take in E. simpl in E. lia.
    + rewrite length_take. intros H2 _. rewrite lookup_take_lt by lia. rewrite Hc1.
      destruct Hbase as [->|[->| ->]]; [lia|eauto..].
  - clear Ht. specialize (Hf eq_refl).
    eapply pspec_lift_bind; [apply number_loop_ok; [done|lia..|]|].
    { intros k c Hk. lia. }
    intros [j|[j f]] Hj.
    + apply push_token_val; [done|done|lia|]. split; [by apply take_sub|].
      apply float_token_len. simpl. rewrite length_take. lia.
    + destruct Hj as [Hj Hflag]. destruct (Nat.eqb_spec j 0).
      { apply pspec_lift. apply spec_fail_R. exact Hb. }
      destruct f.
      * apply push_token_val; [done|done|lia|]. split; [by apply take_sub|]. by apply float_token_flag.
      * apply push_token_val; [done|done|lia|]. split; [by apply take_sub|]. simpl. split.
        -- intros E. apply (f_equal length) in E. rewrite length_take in E. simpl in E. lia.
        -- rewrite length_take. intros H2. rewrite lookup_take_lt by lia. intros H0.
           destruct Hf as (c & Hc & Hfc); [lia|done|].
           rewrite (Hflag 1%nat c) in Hfc; [done|lia|done].
Qed.

Definition tz_flag (b : slice) (i : nat) (f : dt_flags) : Prop :=
  hasTz f = true -> exists k c, (k < i)%nat /\ dat b !! k = Some c /\ ~ TomlTime.dt_char k c.

Lemma tz_flag_mono b i j f g :
  tz_flag b i f -> (i <= j)%nat -> hasTz g = hasTz f -> tz_flag b j g.
Proof.
  intros Hf Hij Hg H. rewrite Hg in H. destruct (Hf H) as (k & c & Hk & Hc). exists k, c.
  split; [lia|done].
Qed.

Lemma date_loop_ok fuel b f i :
  (i <= slen b)%nat -> (slen b < fuel + i)%nat -> tz_flag b i f ->
  spec (date_loop fuel b f i)
    (fun '(f', j) => (i <= j <= slen b)%nat /\ tz_flag b j f' /\
       (forall c, dat b !! i = Some c -> isDigit c = true -> (i < j)%nat)) into.
Proof.
  revert f i. induction fuel as [|fuel IH]; intros f i Hi Hf Htz; [lia|].
  assert (Hrec : forall j g, (i < j <= slen b)%nat -> tz_flag b j g ->
    spec (date_loop fuel b g j)
    (fun '(f', j) => (i <= j <= slen b)%nat /\ tz_flag b j f' /\
       (forall c, dat b !! i = Some c -> isDigit c = true -> (i < j)%nat)) into).
  { intros j g Hj Hg. eapply spec_mono; [apply IH; [lia..|done]| |done].
    intros [f' j'] (H1 & H2 & _). split_and!; [lia..|done|]. intros. lia. }
  cbn [date_loop]. go_step.
  2:{ go_step. split_and!; [lia..|done|]. intros c Hc. apply lookup_lt_Some in Hc. lia. }
  apply spec_at_bind; [lia|]. intros c Hc.
  go_step; [apply Hrec; [lia|by eapply tz_flag_mono; [exact Htz|lia|]]|].
  go_step.
  { apply Hrec; [lia|]. intros Hz. cbn [hasTz] in Hz. destruct (Nat.leb_spec 8 i) as [H8|].
    - exists i, c. split_and!; [lia|done|]. intros (_ & _ & _ & H). specialize (H H8). lia.
    - exact (tz_flag_mono b i (i + 1) f f Htz ltac:(lia) eq_refl Hz). }
  go_step; [apply Hrec; [lia|by eapply tz_flag_mono; [exact Htz|lia|]]|].
  go_step.
  { apply Hrec; [lia|]. intros _. exists i, c. split_and!; [lia|done|]. intros (H1 & H2 & H3 & _). lia. }
  assert (Hstop : spec (mret (f, i)) (fun '(f', j) => (i <= j <= slen b)%nat /\ tz_flag b j f' /\
       (forall c, dat b !! i = Some c -> isDigit c = true -> (i < j)%nat)) into).
  { go_step. split_and!; [lia..|done|]. intros c' Hc' Hd. rewrite Hc in Hc'. injection Hc' as <-. congruence. }
  go_step; [|exact Hstop].
  apply (spec_bind _ _ (fun d => d = true -> (i + 1 < slen b)%nat)).
  { repeat go_step; [lia|done]. }
  intros d Hd. destruct d; [|exact Hstop]. specialize (Hd eq_refl). cbv zeta.
  destruct (Nat.leb_spec (slen b) (i + 2)).
  - apply Hrec; [lia|]. by eapply tz_flag_mono; [exact Htz|lia|].
  - apply Hrec; [lia|]. by eapply tz_flag_mono; [exact Htz|lia|].
Qed.

Lemma looks_like_date_head l : looks_like_date l 0 = true -> exists c, l !! 0%nat = Some c /\ isDigit c = true.
Proof.
  destruct l as [|c l]; [done|]. simpl. destruct (isDigit c) eqn:E; [by eauto|done].
Qed.

Lemma scanDateTime_ok b s c :
  sub b pdata -> dat b !! 0%nat = Some c -> isDigit c = true ->
  pspec (scanDateTime b) s (scalar_post b s) into.
Proof.
  intros Hb Hc Hd. unfold scanDateTime. eapply pspec_lift_bind.
  { apply date_loop_ok; [lia..|]. done. }
  intros [f i] (Hi & Htz & Hpos). specialize (Hpos c Hc Hd).
  eapply pspec_lift_bind; [apply (spec_s_to b i (fun d => d = Sl (off b) (take i (dat b)))); [lia|done]|].
  intros d ->. apply pspec_push_bind. intros s' Hs' _.
  eapply pspec_lift_bind; [apply (spec_s_from b i (fun q => q = Sl (off b + i) (drop i (dat b)))); [lia|done]|].
  intros q ->. apply pspec_ret. split; [split; [apply suf_from; lia|go_lia]|]. simpl.
  apply pushed_val. eexists. split; [|eapply leaf_pushed; [apply raw_no_range| |exact Hs']].
  - destruct (hasTime f), (hasDate f), (hasTz f); done.
  - assert (Hsub := take_sub b i Hb). destruct (hasTime f), (hasDate f), (hasTz f) eqn:Ez; try done.
    split; [done|]. destruct (Htz Ez) as (k & x & Hk & Hx & Hn). exists k, x.
    simpl. by rewrite lookup_take_lt.
Qed.

Lemma atmost_fail b n f s :
  sub b pdata ->
  pspec (h ← lift (atmost b n); lift (fail h f [])) s (scalar_post b s) into.
Proof.
  intros Hb. eapply (pspec_lift_bind _ _ _ (fun h => sub h b)).
  - unfold atmost. destruct (Nat.leb_spec (slen b) n); [go_step; done|].
    apply spec_s_to; [lia|]. apply sub_to.
  - intros h Hh. apply pspec_lift, spec_fail_R. unfold points_into. simpl. by transitivity b.
Qed.

Lemma parseIntOrFloatOrDateTime_ok b s :
  sub b pdata -> (0 < slen b)%nat ->
  pspec (parseIntOrFloatOrDateTime pdata b) s (scalar_post b s) into.
Proof.
  intros Hb Hl. unfold parseIntOrFloatOrDateTime.
  eapply pspec_lift_bind; [apply (spec_s_at b 0 (fun c => dat b !! 0%nat = Some c)); [lia|done]|].
  intros c Hc.
  assert (Hf : forall w, scanFollows b w = true -> length (bs w) = 3%nat ->
    pspec (push_token pdata Float b 3) s (scalar_post b s) into).
  { intros w [_ H]%spec_follows_bytes H3. apply push_token_val; [done|done|lia|].
    split; [by apply take_sub|]. apply float_token_len. simpl. rewrite length_take. lia. }
  destruct (c =? 105).
  { destruct (scanFollowsInf b) eqn:E; cbn [negb]; [by apply (Hf "inf")|by apply atmost_fail]. }
  destruct (c =? 110).
  { destruct (scanFollowsNan b) eqn:E; cbn [negb]; [by apply (Hf "nan")|by apply atmost_fail]. }
  destruct ((c =? 43) || (c =? 45)); [by apply scanIntOrFloat_ok|].
  destruct (slen b <? 3)%nat; [by apply scanIntOrFloat_ok|]. cbv zeta.
  set (n := if (slen b <? 5)%nat then slen b else 5%nat).
  assert (Hn : (0 < n <= slen b)%nat) by (unfold n; destruct (Nat.ltb_spec (slen b) 5); lia).
  eapply pspec_lift_bind; [apply (spec_s_to b n (fun d => d = Sl (off b) (take n (dat b)))); [lia|done]|].
  intros q ->. cbn [dat]. destruct (looks_like_date (take n (dat b)) 0) eqn:El; [|by apply scanIntOrFloat_ok].
  apply looks_like_date_head in El as (c' & Hc' & Hd). rewrite lookup_take_lt in Hc' by lia.
  by eapply scanDateTime_ok.
Qed.

(** ** Values *)

(** A node [k] with its children so far; [lastPos] is where the last one is. *)
Definition lastPos (n0 : nat) (cs : list tree) : Z := Z.of_nat (n0 + 1 + sizes (removelast cs)).

Lemma lastPos_snoc n0 cs c : lastPos n0 (cs ++ [c]) = Z.of_nat (n0 + 1 + sizes cs).
Proof. unfold lastPos. by rewrite removelast_last. Qed.

Definition kids (k : Kind) (W : tree -> Prop) (s0 s : builder) (cs : list tree) : Prop :=
  Forall W cs /\ exists r d, nodes s = nodes s0 ++ enc 0 (T k r d cs).

(** A child is linked when it has been pushed. *)
Lemma link_kid k W s0 s1 s cs ref t :
  k <> KeyValue -> kids k W s0 s1 cs -> W t -> ref = Z.of_nat (length (nodes s1)) ->
  nodes s = nodes s1 ++ enc 0 t ->
  exists ns', (forall s', nodes s' = ns' -> kids k W s0 s' (cs ++ [t])) /\
    ref = lastPos (length (nodes s0)) (cs ++ [t]) /\
    (cs = [] -> @set_child ParserError (nodes s) (Z.of_nat (length (nodes s0)))
                  (ref - Z.of_nat (length (nodes s0))) = Ret ns') /\
    (cs <> [] -> @set_next ParserError (nodes s) (lastPos (length (nodes s0)) cs)
                  (ref - lastPos (length (nodes s0)) cs) = Ret ns').
Proof.
  intros Hk (HW & r & d & E1) Ht -> E. exists (nodes s0 ++ enc 0 (T k r d (cs ++ [t]))). 
  assert (Hlen : length (nodes s1) = (length (nodes s0) + 1 + sizes cs)%nat).
  { rewrite E1, length_app, enc_length. cbn [size]. fold (sizes cs). lia. }
  split_and!.
  - intros s' Es'. split; [|by exists r, d]. apply Forall_app. split; [done|by constructor].
  - by rewrite lastPos_snoc, Hlen.
  - intros ->. rewrite E, E1 at 1. rewrite <- app_assoc, Hlen. simpl sizes.
    replace (_ - _) with 1 by (unfold sizes; simpl; lia). by apply link_child.
  - intros Hne. destruct cs as [|c cs _] using rev_ind; [done|]. rewrite lastPos_snoc.
    rewrite E, E1 at 1. rewrite <- !app_assoc, Hlen, sizes_snoc.
    replace (_ - _) with (Z.of_nat (size c)) by lia. by apply link_next_child.
Qed.

Section Values.
(** [parseVal] meets its specification on slices shorter than [n]. *)
Context (pv : slice -> P (Z * slice)) (n : nat).
Context (Hpv : forall b s, sub b pdata -> (slen b < n)%nat -> pspec (pv b) s (scalar_post b s) into).

Lemma parseKeyval_ok b s :
  sub b pdata -> (slen b <= n)%nat ->
  pspec (parseKeyval_with pdata pv b) s
    (fun '(ref, rest) s' => progress b rest /\ pushed wf_kv s s' ref) into.
Proof.
  intros Hb Hn. unfold parseKeyval_with. apply pspec_push_bind. intros s1 Hs1 _.
  eapply pspec_bind; [by apply parseKey_ok|]. intros [key b1] s2 [[Hb1 Hl1] (keys & -> & Hne & Hk & E2)].
  pose proof (suf_in _ _ Hb1 Hb) as Hsb1.
  eapply pspec_lift_bind; [eapply spec_into; [exact Hsb1|apply parseWhitespace_ok]|].
  intros b2 [Hb2 _]. pose proof (suf_in _ _ Hb2 Hsb1) as Hsb2. pose proof (suf_len _ _ Hb2).
  destruct (slen b2 =? 0)%nat; [by apply pspec_lift, spec_fail_R|].
  eapply pspec_lift_bind; [eapply spec_into; [exact Hsb2|apply expect_ok]|].
  intros b3 (Hb3 & Hl3 & _). pose proof (suf_in _ _ Hb3 Hsb2) as Hsb3.
  eapply pspec_lift_bind; [eapply spec_into; [exact Hsb3|apply parseWhitespace_ok]|].
  intros b4 [Hb4 _]. pose proof (suf_in _ _ Hb4 Hsb3) as Hsb4. pose proof (suf_len _ _ Hb4).
  eapply pspec_bind; [apply Hpv; [done|lia]|].
  intros [valRef b5] s3 [[Hb5 Hl5] [E3 (v & Hv & E4)]]. simpl in Hb5, Hl5, E3. subst valRef.
  pose proof (@link_keyval ParserError (nodes s) no_range no_data keys v Hne) as Hlink.
  assert (Hlen : length (nodes s2) = (length (nodes s) + 1 + sizes keys)%nat).
  { rewrite E2, Hs1, !length_app, encs_length. done. }
  assert (En : nodes s3 = nodes s ++ Nd KeyValue no_range no_data 0 0 :: encs keys ++ enc 0 v).
  { rewrite E4, E2, Hs1. by rewrite <- !app_assoc. }
  rewrite <- En, <- Hlen in Hlink.
  destruct (set_next (nodes s3) (Z.of_nat (length (nodes s2))) (- Z.of_nat (sizes keys))) as [ns'|?| |] eqn:Es;
    try done.
  cbn [mbind go_mbind go_bind] in Hlink.
  eapply pspec_chain_bind.
  { rewrite <- Es. f_equal. rewrite Hs1, length_app, Hlen. simpl. lia. }
  intros s4 Hs4. eapply pspec_attach_bind.
  { rewrite Hs4, <- Hlink. f_equal. rewrite Hlen. lia. }
  intros s5 Hs5. apply pspec_ret. split.
  - split; [|lia]. transitivity b4; [done|]. transitivity b3; [done|]. transitivity b2; [done|].
    by transitivity b1.
  - split; [done|]. eexists. split; [|exact Hs5]. by constructor.
Qed.

Lemma inline_loop_ok fuel s0 s cs first child b :
  sub b pdata -> (slen b <= n)%nat -> (slen b < fuel)%nat ->
  kids InlineTable wf_kv s0 s cs -> first = bool_decide (cs = []) ->
  (cs <> [] -> child = lastPos (length (nodes s0)) cs) ->
  pspec (inline_loop pdata pv fuel (Z.of_nat (length (nodes s0))) child first b) s
    (fun rest s' => suf rest b /\ exists cs', kids InlineTable wf_kv s0 s' cs') into.
Proof.
  revert s cs first child b. induction fuel as [|fuel IH]; intros s cs first child b Hb Hn Hf Hkids Hfirst Hchild; [lia|].
  cbn [inline_loop]. destruct (Nat.ltb_spec 0 (slen b)) as [Hl|]; [|apply pspec_ret; split; [done|by eauto]].
  eapply pspec_lift_bind; [eapply spec_into; [exact Hb|apply parseWhitespace_ok]|].
  intros b1 [Hb1 _]. pose proof (suf_in _ _ Hb1 Hb) as Hsb1. pose proof (suf_len _ _ Hb1).
  destruct (Nat.eqb_spec (slen b1) 0).
  { eapply pspec_lift_bind; [apply (spec_s_to b 1 (fun h => sub h b)); [lia|apply sub_to]|].
    intros h Hh. apply pspec_lift, spec_fail_R. unfold points_into. simpl. by transitivity b. }
  eapply pspec_lift_bind; [apply (spec_s_at b1 0 (fun _ => True)); [lia|done]|]. intros c _.
  destruct (c =? 125); [apply pspec_ret; by eauto|].
  eapply (pspec_bind _ _ _ (fun b2 s' => suf b2 b1 /\ s' = s)).
  { destruct first; cbn [negb]; [by apply pspec_ret|].
    eapply pspec_lift_bind; [eapply spec_into; [exact Hsb1|apply expect_ok]|]. intros b2 (Hb2 & _).
    apply pspec_lift. eapply spec_into; [exact (suf_in _ _ Hb2 Hsb1)|].
    eapply spec_mono; [apply parseWhitespace_ok| |done]. intros b3 [Hb3 _]. split; [by transitivity b2|done]. }
  intros b2 s1 [Hb2 ->]. pose proof (suf_in _ _ Hb2 Hsb1) as Hsb2. pose proof (suf_len _ _ Hb2).
  eapply pspec_bind; [apply parseKeyval_ok; [done|lia]|].
  intros [kv b3] s2 [[Hb3 Hl3] [-> (t & Ht & E)]].
  destruct (link_kid InlineTable wf_kv s0 s s2 cs _ t ltac:(done) Hkids Ht eq_refl E)
    as (ns' & Hns & Href & Hattach & Hchain).
  eapply (pspec_bind _ _ _ (fun _ s' => nodes s' = ns')).
  { destruct first.
    - symmetry in Hfirst. apply bool_decide_eq_true in Hfirst.
      eapply pspec_attach; [by apply Hattach|done].
    - symmetry in Hfirst. apply bool_decide_eq_false in Hfirst. rewrite (Hchild Hfirst).
      eapply pspec_chain; [by apply Hchain|done]. }
  intros _ s3 Hs3. eapply pspec_mono.
  { eapply (IH s3 (cs ++ [t])); [by eapply suf_in|lia|lia|by apply Hns| |].
    - symmetry. apply bool_decide_eq_false. by destruct cs.
    - intros _. exact Href. }
  intros rest s4 [Hr Hk]. split; [|done].
  transitivity b3; [done|]. transitivity b2; [done|]. by transitivity b1.
Qed.
Lemma node_kids k s s' r d : nodes s' = nodes s ++ [Nd k r d 0 0] -> forall W, kids k W s s' [].
Proof. intros E W. split; [done|]. exists r, d. by rewrite enc_plain by auto. Qed.

Lemma parseInlineTable_ok b s :
  sub b pdata -> (0 < slen b)%nat -> (slen b <= n)%nat ->
  pspec (parseInlineTable pdata pv b) s (scalar_post b s) into.
Proof.
  intros Hb Hl Hn. unfold parseInlineTable.
  eapply pspec_lift_bind; [apply (spec_s_to b 1 (fun h => sub h b)); [lia|apply sub_to]|]. intros h Hh.
  eapply pspec_lift_bind; [apply range_ok; by transitivity b|]. intros r Hr.
  apply pspec_push_bind. intros s1 Hs1 _.
  eapply pspec_lift_bind; [apply (spec_s_from b 1 (progress b)); [lia|split; [apply suf_from; lia|go_lia]]|].
  intros b1 [Hb1 Hl1]. pose proof (suf_in _ _ Hb1 Hb) as Hsb1.
  eapply pspec_bind.
  { apply (inline_loop_ok _ s s1 []); [done|lia|lia|by eapply node_kids|done|done]. }
  intros b2 s2 (Hb2 & cs & HW & r' & d' & E). pose proof (suf_len _ _ Hb2).
  eapply pspec_lift_bind; [eapply spec_into; [exact (suf_in _ _ Hb2 Hsb1)|apply expect_ok]|].
  intros rest (Hrest & Hlr & _). apply pspec_ret. split.
  - split; [|simpl; lia]. simpl. transitivity b2; [done|]. by transitivity b1.
  - split; [done|]. eexists. split; [|exact E]. by apply wf_inline.
Qed.

Definition elem (t : tree) : Prop := wf_comment t \/ wf_val t.

(** [lastChild]: the last child, or invalid when there is none. *)
Definition last_ref (n0 : nat) (cs : list tree) (lastChild : Z) : Prop :=
  (cs = [] /\ lastChild = invalidReference) \/ (cs <> [] /\ lastChild = lastPos n0 cs).

Lemma addChild_ok s0 s1 s cs lastChild ref t :
  kids Array elem s0 s1 cs -> last_ref (length (nodes s0)) cs lastChild -> elem t ->
  ref = Z.of_nat (length (nodes s1)) -> nodes s = nodes s1 ++ enc 0 t ->
  pspec (addChild (Z.of_nat (length (nodes s0))) lastChild ref) s
    (fun l s' => exists cs', kids Array elem s0 s' cs' /\ last_ref (length (nodes s0)) cs' l) into.
Proof.
  intros Hk Hlast Ht Href E.
  destruct (link_kid Array elem s0 s1 s cs ref t ltac:(done) Hk Ht Href E) as (ns' & Hns & Hpos & Ha & Hc).
  unfold addChild. eapply (pspec_bind _ _ _ (fun _ s' => nodes s' = ns')).
  - destruct Hlast as [[Hcs ->]|[Hcs ->]].
    + simpl. eapply pspec_attach; [by apply Ha|done].
    + unfold invalidReference, lastPos. rewrite (proj2 (Z.eqb_neq _ _)) by lia.
      eapply pspec_chain; [by apply Hc|done].
  - intros _ s' Hs'. apply pspec_ret. exists (cs ++ [t]). split; [by apply Hns|]. right.
    split; [by destruct cs|done].
Qed.

Lemma addComments_ok s0 s1 s cs lastChild cref :
  kids Array elem s0 s1 cs -> last_ref (length (nodes s0)) cs lastChild ->
  maybe_pushed wf_comment s1 s cref ->
  pspec (addComments (Z.of_nat (length (nodes s0))) lastChild cref) s
    (fun l s' => exists cs', kids Array elem s0 s' cs' /\ last_ref (length (nodes s0)) cs' l) into.
Proof.
  intros Hk Hl [[-> E]|Hp]; unfold addComments.
  - apply pspec_ret. exists cs. split; [|done]. unfold kids in *. by rewrite E.
  - rewrite (proj2 (Z.eqb_neq _ _)) by (by eapply pushed_ref). destruct Hp as [Href (t & Ht & E)].
    eapply addChild_ok; try done. by left.
Qed.

(** Comments between the elements of an array, linked. *)
Lemma array_comments_ok s0 s cs lastChild b :
  sub b pdata -> kids Array elem s0 s cs -> last_ref (length (nodes s0)) cs lastChild ->
  forall B (k : Z -> slice -> P B) Q,
  (forall l b' s' cs', suf b' b -> kids Array elem s0 s' cs' -> last_ref (length (nodes s0)) cs' l ->
     pspec (k l b') s' Q into) ->
  pspec (cb ← parseOptionalWhitespaceCommentNewline pdata KeepComments b;
         let '(cref, b) := (cb : Z * slice) in
         l ← addComments (Z.of_nat (length (nodes s0))) lastChild cref; k l b) s Q into.
Proof.
  intros Hb Hk Hl B k Q HQ. eapply pspec_bind; [by apply opt_comments_ok|].
  intros [cref b1] s1 [Hb1 Hm]. eapply pspec_bind; [by eapply addComments_ok|].
  intros l s2 (cs' & Hk' & Hl'). by eapply HQ.
Qed.

Lemma array_loop_ok fuel s0 s start cs lastChild first b :
  sub b pdata -> sub start pdata -> (0 < slen start)%nat -> (slen b < n)%nat -> (slen b < fuel)%nat ->
  kids Array elem s0 s cs -> last_ref (length (nodes s0)) cs lastChild ->
  pspec (array_loop pdata KeepComments pv fuel start (Z.of_nat (length (nodes s0))) lastChild first b) s
    (fun rest s' => suf rest b /\ exists cs', kids Array elem s0 s' cs') into.
Proof.
  intros Hb Hst Hlst. revert s cs lastChild first b Hb.
  induction fuel as [|fuel IH]; intros s cs lastChild first b Hb Hn Hf Hk Hlast; [lia|].
  cbn [array_loop]. destruct (Nat.ltb_spec 0 (slen b)) as [Hl|]; [|apply pspec_ret; split; [done|by eauto]].
  eapply array_comments_ok; [done..|]. intros l1 b1 s1 cs1 Hb1 Hk1 Hl1.
  pose proof (suf_in _ _ Hb1 Hb) as Hsb1. pose proof (suf_len _ _ Hb1).
  destruct (Nat.eqb_spec (slen b1) 0).
  { eapply pspec_lift_bind; [apply (spec_s_to start 1 (fun h => sub h start)); [lia|apply sub_to]|].
    intros h Hh. apply pspec_lift, spec_fail_R. unfold points_into. simpl. by transitivity start. }
  eapply pspec_lift_bind; [apply (spec_s_at b1 0 (fun _ => True)); [lia|done]|]. intros c _.
  destruct (c =? 93); [apply pspec_ret; split; [done|by eauto]|].
  assert (Hfail : forall A f (Q : A -> builder -> Prop),
    pspec (h ← lift (s_sub b1 0 1); lift (fail h f [])) s1 Q into).
  { intros A f Q. eapply pspec_lift_bind; [apply (spec_s_sub b1 0 1 (fun h => sub h b1)); [lia|]|].
    - apply sub_sub. lia.
    - intros h Hh. apply pspec_lift, spec_fail_R. unfold points_into. simpl. by transitivity b1. }
  eapply (pspec_bind _ _ _ (fun '(l2, b2) s' => suf b2 b1 /\ exists cs', kids Array elem s0 s' cs' /\
    last_ref (length (nodes s0)) cs' l2)).
  { destruct (c =? 44).
    - destruct first; [apply Hfail|].
      eapply pspec_lift_bind; [apply (spec_s_from b1 1 (fun q => suf q b1)); [lia|apply suf_from; lia]|].
      intros q Hq. eapply array_comments_ok; [exact (suf_in _ _ Hq Hsb1)|done..|].
      intros l2 b2 s2 cs2 Hb2 Hk2 Hl2. apply pspec_ret. split; [by transitivity q|by eauto].
    - destruct first; cbn [negb]; [|apply Hfail]. apply pspec_ret. split; [done|by eauto]. }
  intros [l2 b2] s2 (Hb2 & cs2 & Hk2 & Hl2). pose proof (suf_in _ _ Hb2 Hsb1) as Hsb2. pose proof (suf_len _ _ Hb2).
  destruct (starts b2 93). { apply pspec_ret. split; [by transitivity b1|by eauto]. }
  eapply pspec_bind; [apply Hpv; [done|lia]|].
  intros [vref b3] s3 [[Hb3 Hl3] [E (v & Hv & E3)]]. simpl in Hb3, Hl3, E.
  eapply pspec_bind; [eapply addChild_ok; try done; by right|]. intros l4 s4 (cs4 & Hk4 & Hl4).
  pose proof (suf_in _ _ Hb3 Hsb2) as Hsb3.
  eapply array_comments_ok; [done..|]. intros l5 b5 s5 cs5 Hb5 Hk5 Hl5. pose proof (suf_len _ _ Hb5).
  eapply pspec_mono; [eapply IH; [by eapply suf_in|lia|lia|done|done]|].
  intros rest s6 [Hr Hks]. split; [|done].
  transitivity b5; [done|]. transitivity b3; [done|]. transitivity b2; [done|]. by transitivity b1.
Qed.

Lemma parseValArray_ok b s :
  sub b pdata -> (0 < slen b)%nat -> (slen b <= n)%nat ->
  pspec (parseValArray pdata KeepComments pv b) s (scalar_post b s) into.
Proof.
  intros Hb Hl Hn. unfold parseValArray.
  eapply pspec_lift_bind; [apply (spec_s_from b 1 (progress b)); [lia|split; [apply suf_from; lia|go_lia]]|].
  intros b1 [Hb1 Hl1]. pose proof (suf_in _ _ Hb1 Hb) as Hsb1.
  apply pspec_push_bind. intros s1 Hs1 _.
  eapply pspec_bind.
  { apply (array_loop_ok _ s s1 b []); [done|done|done|lia|lia|by eapply node_kids|by left]. }
  intros b2 s2 (Hb2 & cs & HW & r & d & E). pose proof (suf_len _ _ Hb2).
  eapply pspec_lift_bind; [eapply spec_into; [exact (suf_in _ _ Hb2 Hsb1)|apply expect_ok]|].
  intros rest (Hrest & Hlr & _). apply pspec_ret. split.
  - split; [|simpl; lia]. simpl. transitivity b2; [done|]. by transitivity b1.
  - split; [done|]. eexists. split; [|exact E]. by apply wf_array.
Qed.
End Values.

Lemma push_string_ok m b s :
  sub b pdata -> spec m (str_ok b) (points_into b) ->
  pspec (push_string pdata m) s (scalar_post b s) into.
Proof.
  intros Hb Hm. unfold push_string. eapply pspec_lift_bind; [by eapply spec_into|].
  intros [[raw v] rest] (Hr & Hlr & Hraw & Ht & Hd).
  eapply pspec_lift_bind; [apply range_ok; by transitivity b|]. intros r Hrr.
  apply pspec_push_bind. intros s' Hs' _. apply pspec_ret. split; [done|].
  apply pushed_val. exists String_. split; [done|]. eapply leaf_pushed; [done| |done].
  split; [done|]. destruct v; [by transitivity b|done].
Qed.

Lemma push_bool_ok b w s :
  sub b pdata -> (w = "true" \/ w = "false")%string -> scanFollows b w = true ->
  pspec (push_bool b (length (bs w))) s (scalar_post b s) into.
Proof.
  intros Hb Hw [Hf Hl]%spec_follows_bytes. unfold push_bool.
  assert (Hpos : (0 < length (bs w))%nat) by (destruct Hw as [-> | ->]; apply Nat.ltb_lt; reflexivity).
  eapply pspec_lift_bind;
    [apply (spec_s_to b _ (fun d => d = Sl (off b) (take (length (bs w)) (dat b)))); [lia|done]|].
  intros d ->. apply pspec_push_bind. intros s' Hs' _.
  eapply pspec_lift_bind; [apply (spec_s_from b _ (progress b)); [lia|split; [apply suf_from; lia|go_lia]]|].
  intros q Hq. apply pspec_ret. split; [done|]. apply pushed_val. exists Bool. split; [done|].
  eapply leaf_pushed; [apply raw_no_range| |done]. split; [by apply take_sub|]. simpl. rewrite Hf.
  destruct Hw as [-> | ->]; auto.
Qed.

Lemma parseVal_ok fuel : forall b s,
  sub b pdata -> (slen b < fuel)%nat ->
  pspec (parseVal pdata KeepComments fuel b) s (scalar_post b s) into.
Proof.
  induction fuel as [|fuel IH]; intros b s Hb Hf; [lia|]. cbn [parseVal].
  destruct (Nat.eqb_spec (slen b) 0); [by apply pspec_lift, spec_fail_R|].
  pose proof (sub_ok _ _ Hb Hdoc) as Hbytes.
  eapply pspec_lift_bind; [apply (spec_s_at b 0 (fun _ => True)); [lia|done]|]. intros c _.
  destruct (c =? 34).
  { apply push_string_ok; [done|].
    destruct (scanFollowsMultilineBasicStringDelimiter b) eqn:E.
    - apply spec_follows_bytes in E as [_ E]. by apply parseMultilineBasicString_ok.
    - apply parseBasicString_ok; [done|lia]. }
  destruct (c =? 39).
  { apply push_string_ok; [done|].
    destruct (scanFollowsMultilineLiteralStringDelimiter b) eqn:E.
    - apply spec_follows_bytes in E as [_ E]. by apply parseMultilineLiteralString_ok.
    - apply parseLiteralString_ok; [done|lia]. }
  destruct (c =? 116).
  { destruct (scanFollowsTrue b) eqn:E; cbn [negb]; [|by apply atmost_fail].
    by apply (push_bool_ok b "true"); auto. }
  destruct (c =? 102).
  { destruct (scanFollowsFalse b) eqn:E; cbn [negb]; [|by apply atmost_fail].
    by apply (push_bool_ok b "false"); auto. }
  destruct (c =? 91); [apply (parseValArray_ok _ fuel); [done|done|lia..]|].
  destruct (c =? 123); [apply (parseInlineTable_ok _ fuel); [done|done|lia..]|].
  apply parseIntOrFloatOrDateTime_ok; [done|lia].
Qed.

(** ** Expressions *)

(** A table header up to its closing brackets. *)
Lemma table_ok k s b pre_len Q (cont : Z -> slice -> P (Z * slice)) :
  sub b pdata -> (k = Table \/ k = ArrayTable) -> (0 < pre_len <= slen b)%nat ->
  (forall ref b' s', sub b' pdata -> progress b b' -> pushed wf_expr s s' ref ->
     pspec (cont ref b') s' Q into) ->
  pspec (ref ← push (Nd k no_range no_data 0 0);
         b ← lift (s_from b pre_len);
         b ← lift (parseWhitespace b);
         kb ← parseKey pdata b;
         let '(key, b) := (kb : Z * slice) in
         _ ← attachChild ref key;
         b ← lift (parseWhitespace b);
         cont ref b) s Q into.
Proof.
  intros Hb Hk Hp Hcont. apply pspec_push_bind. intros s1 Hs1 _.
  eapply pspec_lift_bind; [apply (spec_s_from b _ (progress b)); [lia|split; [apply suf_from; lia|go_lia]]|].
  intros b1 [Hb1 Hl1]. pose proof (suf_in _ _ Hb1 Hb) as Hsb1.
  eapply pspec_lift_bind; [eapply spec_into; [exact Hsb1|apply parseWhitespace_ok]|].
  intros b2 [Hb2 _]. pose proof (suf_in _ _ Hb2 Hsb1) as Hsb2. pose proof (suf_len _ _ Hb2).
  eapply pspec_bind; [by apply parseKey_ok|]. intros [key b3] s2 [[Hb3 Hl3] (keys & -> & Hne & Hkeys & E2)].
  pose proof (suf_in _ _ Hb3 Hsb2) as Hsb3.
  eapply pspec_attach_bind.
  { rewrite E2, Hs1, length_app, <- app_assoc. simpl app. simpl length.
    replace (Z.of_nat (length (nodes s) + 1) - Z.of_nat (length (nodes s))) with 1 by lia.
    apply link_table; [by destruct Hk as [-> | ->]|done]. }
  intros s3 Hs3.
  eapply pspec_lift_bind; [eapply spec_into; [exact Hsb3|apply parseWhitespace_ok]|].
  intros b4 [Hb4 _]. pose proof (suf_in _ _ Hb4 Hsb3) as Hsb4. pose proof (suf_len _ _ Hb4).
  apply Hcont; [done| |].
  - split; [|lia]. transitivity b3; [done|]. transitivity b2; [done|]. by transitivity b1.
  - split; [done|]. eexists. split; [|exact Hs3]. by apply we_table.
Qed.

Definition expr_post (b : slice) (s : builder) (r : Z * slice) (s' : builder) : Prop :=
  progress b r.2 /\ pushed wf_expr s s' r.1.

Lemma close_ok b b' ref s s' (k : slice -> P (Z * slice)) :
  sub b' pdata -> progress b b' ->
  (forall b'', sub b'' pdata -> progress b b'' -> pspec (k b'') s' (expr_post b s) into) ->
  pushed wf_expr s s' ref -> pspec (b ← lift (expect 93 b'); k b) s' (expr_post b s) into.
Proof.
  intros Hb' [Hp Hl] Hk Hpu. eapply pspec_lift_bind; [eapply spec_into; [exact Hb'|apply expect_ok]|].
  intros b1 (Hb1 & Hl1 & _). apply Hk; [by eapply suf_in|]. split; [by transitivity b'|lia].
Qed.

Lemma parseTable_ok b s :
  sub b pdata -> (0 < slen b)%nat -> pspec (parseTable pdata b) s (expr_post b s) into.
Proof.
  intros Hb Hl. unfold parseTable.
  eapply (pspec_lift_bind _ _ _ (fun two => two = true -> (1 < slen b)%nat)).
  { repeat go_step; [lia|done]. }
  intros two Htwo. destruct two.
  - specialize (Htwo eq_refl). apply table_ok; [done|by right|lia|].
    intros ref b' s' Hb' Hp Hpu. eapply close_ok; [done|done| |done]. intros b1 Hb1 Hp1.
    eapply close_ok; [done|done| |done]. intros b2 Hb2 Hp2. by apply pspec_ret.
  - apply table_ok; [done|by left|lia|]. intros ref b' s' Hb' Hp Hpu.
    eapply close_ok; [done|done| |done]. intros b1 Hb1 Hp1. by apply pspec_ret.
Qed.

(** An expression was pushed, perhaps with the comment that follows it as its
    next sibling, or nothing was. *)
Definition expr_pushed (s s' : builder) (ref : Z) : Prop :=
  (ref = invalidReference /\ nodes s' = nodes s) \/
  (ref = Z.of_nat (length (nodes s)) /\ exists t nx extra, wf_expr t /\
     nodes s' = nodes s ++ enc nx t ++ extra).

Lemma pushed_expr s s' ref : pushed wf_expr s s' ref -> expr_pushed s s' ref.
Proof.
  intros [-> (t & Ht & E)]. right. split; [done|]. exists t, 0, []. by rewrite app_nil_r.
Qed.

Lemma parseExpression_ok b s :
  sub b pdata ->
  pspec (parseExpression pdata KeepComments b) s
    (fun '(ref, rest) s' => suf rest b /\ (ref <> invalidReference -> (slen rest < slen b)%nat) /\
       expr_pushed s s' ref) into.
Proof.
  intros Hb. unfold parseExpression.
  eapply pspec_lift_bind; [eapply spec_into; [exact Hb|apply parseWhitespace_ok]|].
  intros b1 [Hb1 _]. pose proof (suf_in _ _ Hb1 Hb) as Hsb1. pose proof (suf_len _ _ Hb1).
  destruct (Nat.eqb_spec (slen b1) 0).
  { apply pspec_ret. split_and!; [done|done|by left]. }
  eapply pspec_lift_bind; [apply (spec_s_at b1 0 (fun _ => True)); [lia|done]|]. intros c _.
  destruct (c =? 35).
  { eapply pspec_mono; [apply parseComment_ok; [done|lia]|]. intros [ref rest] s' [[Hr Hl] Hm].
    split_and!; [by transitivity b1|intros; lia|].
    destruct Hm as [Hm|[-> (t & Ht & E)]]; [by left|]. apply pushed_expr. split; [done|].
    exists t. split; [|done]. by apply we_comment, leaf_comment. }
  destruct ((c =? 10) || (c =? 13)).
  { apply pspec_ret. split_and!; [done|done|by left]. }
  eapply (pspec_bind _ _ _ (expr_post b1 s)).
  { destruct (c =? 91); [apply parseTable_ok; [done|lia]|].
    eapply pspec_mono; [apply (parseKeyval_ok _ (S (slen b1))); [|done|lia]|].
    - intros b' s' Hb' Hl'. by apply parseVal_ok.
    - intros [ref rest] s' [Hp [-> (t & Ht & E)]]. split; [done|]. split; [done|].
      exists t. split; [by apply we_keyval|done]. }
  intros [ref b2] s2 [[Hb2 Hl2] [Href (t & Ht & E)]]. simpl in Hb2, Hl2, Href.
  pose proof (suf_in _ _ Hb2 Hsb1) as Hsb2.
  eapply pspec_lift_bind; [eapply spec_into; [exact Hsb2|apply parseWhitespace_ok]|].
  intros b3 [Hb3 _]. pose proof (suf_in _ _ Hb3 Hsb2) as Hsb3. pose proof (suf_len _ _ Hb3).
  assert (Hs3 : suf b3 b) by (transitivity b2; [done|]; by transitivity b1).
  destruct (starts b3 35) eqn:Est.
  2:{ apply pspec_ret. split_and!; [done|intros; lia|]. apply pushed_expr. split; [done|]. by exists t. }
  apply starts_head in Est as [_ Hl3].
  eapply pspec_bind; [apply parseComment_ok; [done|lia]|]. intros [cref b4] s4 [[Hb4 Hl4] Hm].
  destruct Hm as [[-> E4]|[-> (c' & Hc' & E4)]].
  - apply pspec_ret. split_and!; [by transitivity b3|intros; lia|]. apply pushed_expr.
    split; [done|]. exists t. split; [done|]. by rewrite E4.
  - unfold invalidReference. rewrite (proj2 (Z.eqb_neq _ _)) by lia. cbn [negb].
    eapply pspec_chain_bind.
    { rewrite Href, E4, E, <- app_assoc. rewrite set_next_enc. reflexivity. }
    intros s5 Hs5. apply pspec_ret. split_and!; [by transitivity b3|intros; lia|]. right.
    split; [done|]. eexists t, _, _. split; [done|exact Hs5].
Qed.
End Correct.

(** ** The parser *)

(** The state of a parser between calls: no error, and what is left is the end of
    the document; or an error that points into the document. *)
Definition parser_ok (p : Parser) : Prop :=
  Forall byte_ok (dat (p_data p)) /\
  match p_err p with
  | None => suf (p_left p) (p_data p)
  | Some e => points_into (p_data p) e
  end.

Definition same_input (p p' : Parser) : Prop :=
  p_data p' = p_data p /\ p_KeepComments p' = p_KeepComments p.

(** What a call of [NextExpression] does: it gives an expression, whose nodes
    can be walked, and moves on; or it stops at the end, or with an error. *)
Definition next_post (p : Parser) (r : bool * Parser) : Prop :=
  let '(more, p') := r in
  parser_ok p' /\ same_input p p' /\
  (more = true -> p_err p' = None /\ (slen (p_left p') < slen (p_left p))%nat /\
     exists t i, wf_expr (p_data p) t /\ Expression p' = Ret i /\
       (size t <= length (nodes (p_builder p')))%nat /\
       forall fuel, (size t <= fuel)%nat -> @walk ParserError fuel (nodes (p_builder p')) i = Ret t) /\
  (more = false -> dat (p_left p') = [] \/ exists e, p_err p' = Some e).

(** The fuel that the loop of [NextExpression] needs. *)
Definition next_fuel (p : Parser) : nat :=
  (if p_first p then 1 + slen (p_left p) else slen (p_left p))%nat.

Lemma next_loop_ok fuel p :
  parser_ok p -> p_err p = None -> nodes (p_builder p) = [] ->
  (next_fuel p <= fuel)%nat -> (0 < fuel)%nat ->
  spec (next_loop fuel p) (next_post p) (fun _ => False).
Proof.
  revert p. induction fuel as [|fuel IH]; intros p Hok Herr Hns Hf H0; [lia|].
  cbn [next_loop]. destruct (Nat.eqb_spec (slen (p_left p)) 0) as [Hz|Hnz].
  { split_and!; [done|done|done|]. left. by apply nil_length_inv. }
  destruct Hok as [Hb Hleft]. rewrite Herr in Hleft.
  set (m := if negb (p_first p) then parseNewline (p_left p) else mret (p_left p)).
  assert (Hm : spec m (fun r => suf r (p_left p) /\
    (p_first p = false -> (slen r < slen (p_left p))%nat)) (points_into (p_data p))).
  { unfold m. destruct (p_first p); cbn [negb]; [go_step; done|].
    eapply spec_into; [exact (suf_sub _ _ Hleft)|].
    eapply spec_mono; [apply parseNewline_ok; lia| |done]. intros r [? ?]. done. }
  destruct m as [rest|e| |]; simpl in Hm; try done.
  2:{ split_and!; [split; [done|exact Hm]|done|done|]. intros _. right. by exists e. }
  destruct Hm as [Hrest Hlr]. pose proof (suf_len _ _ Hrest) as Hlrest.
  assert (Hsr : suf rest (p_data p)) by (by transitivity (p_left p)).
  destruct (Nat.eqb_spec (slen rest) 0) as [Hz|Hnz2].
  { split_and!; [done|done|done|]. left. by apply nil_length_inv. }
  pose proof (parseExpression_ok (p_data p) (p_KeepComments p) Hb rest (p_builder p) (suf_sub _ _ Hsr)) as He.
  unfold pspec in He.
  destruct (parseExpression _ _ _ _) as [[[ref rest'] s']|e| |]; simpl in He; try done.
  2:{ split_and!; [split; [done|exact He]|done|done|]. intros _. right. by exists e. }
  destruct He as (Hr' & Hprog & Hpush). pose proof (suf_len _ _ Hr').
  set (p' := Prs (p_data p) s' ref rest' None false (p_KeepComments p)).
  assert (Hok' : parser_ok p') by (split; [done|]; simpl; by transitivity rest).
  unfold Valid. destruct (Z.eqb_spec ref invalidReference) as [Ei|Hv]; cbn [negb].
  - destruct Hpush as [[_ E]|[E _]]; [|unfold invalidReference in *; lia].
    assert (Hnext : spec (next_loop fuel p') (next_post p') (fun _ => False)).
    { apply IH; [done|done|by simpl; rewrite E, Hns| |].
      - unfold next_fuel in *. simpl. destruct (p_first p); [lia|]. specialize (Hlr eq_refl). lia.
      - unfold next_fuel in *. destruct (p_first p); [lia|]. specialize (Hlr eq_refl). lia. }
    eapply spec_mono; [exact Hnext| |done].
    intros [more q] (Hq & [Hs1 Hs2] & Ht & Hfl). split_and!; [done|done| |done].
    intros Hmore. destruct (Ht Hmore) as (Hq1 & Hq2 & Hq3). split_and!; [done|simpl in Hq2; lia|done].
  - destruct Hpush as [[E _]|[E (t & nx & extra & Hwf & En)]]; [done|].
    split_and!; [done|done| |done]. intros _. split_and!; [done|simpl; specialize (Hprog Hv); lia|].
    rewrite Hns in E, En. simpl in E, En. exists t, 0. split_and!; [done| | |].
    + unfold Expression, NodeAt. simpl. rewrite E.
      rewrite (at_node_eq _ 0 (default (Nd Invalid no_range no_data 0 0) (head (enc nx t ++ extra)))); [done|done|].
      destruct (enc_root nx t) as (ch & r & Er & _). rewrite En, Er. done.
    + simpl. rewrite En, length_app, enc_length. lia.
    + intros f Hfu. simpl. rewrite En. exact (walk_enc_fuel t f nx [] extra Hfu).
Qed.

Lemma NextExpression_ok p :
  parser_ok p -> spec (NextExpression p) (next_post p) (fun _ => False).
Proof.
  intros Hok. unfold NextExpression. pose proof Hok as [Hb Hl]. destruct (p_err p) as [e|] eqn:Ee.
  { split_and!; [done|done|done|]. intros _. right. by exists e. }
  destruct (Nat.eqb_spec (slen (p_left p)) 0) as [Hz|Hnz].
  { split_and!; [done|done|done|]. intros _. left. by apply nil_length_inv. }
  eapply spec_mono; [apply next_loop_ok| |done]; try done; try lia.
  unfold next_fuel. simpl. destruct (p_first p); lia.
Qed.

(** [for p.NextExpression() { ... p.Expression() ... }]: the expressions of a
    document, and the error the parser stopped with. *)
Fixpoint expressions (fuel : nat) (p : Parser) : go ParserError (list tree * option ParserError) :=
  match fuel with
  | O => OutOfFuel
  | S fuel' =>
      r ← NextExpression p;
      let '(more, p') := (r : bool * Parser) in
      if more then
        i ← Expression p';
        t ← walk (S (length (nodes (p_builder p')))) (nodes (p_builder p')) i;
        rest ← expressions fuel' p';
        let '(ts, e) := (rest : list tree * option ParserError) in
        mret (t :: ts, e)
      else mret ([], p_err p')
  end.

Definition parse_document (keep : bool) (d : list Z) : go ParserError (list tree * option ParserError) :=
  expressions (S (length d))
    (Parser_Reset (Prs nil_slice (Bld [] 0) 0 nil_slice None false keep) (doc d)).

Lemma expressions_ok fuel p :
  parser_ok p -> (slen (p_left p) < fuel)%nat ->
  spec (expressions fuel p)
    (fun '(ts, e) => Forall (wf_expr (p_data p)) ts /\ (length ts <= slen (p_left p))%nat /\
       (forall e', e = Some e' -> points_into (p_data p) e')) (fun _ => False).
Proof.
  revert p. induction fuel as [|fuel IH]; intros p Hok Hf; [lia|]. cbn [expressions].
  eapply spec_bind; [by apply NextExpression_ok|].
  intros [more p'] (Hok' & [Hd _] & Ht & Hfl). destruct more.
  - destruct (Ht eq_refl) as (Herr & Hlt & t & i & Hwf & Ei & Hsz & Hw).
    rewrite Ei. cbn [mbind go_mbind go_bind]. rewrite Hw by lia. cbn [mbind go_mbind go_bind].
    eapply spec_bind; [apply IH; [done|lia]|]. intros [ts e] (H1 & H2 & H3). rewrite Hd in *.
    go_step. split_and!; [by constructor|simpl; lia|done].
  - go_step. split_and!; [done|simpl; lia|]. intros e' He. destruct Hok' as [_ Hp]. rewrite He, Hd in Hp. done.
Qed.

(** The nodes of a tree. *)
Fixpoint subtrees (t : tree) : list tree :=
  let 'T _ _ _ cs := t in t :: flat_map subtrees cs.

(** Every number and date of an expression was checked. *)
Definition node_ok (d : slice) (t : tree) : Prop :=
  is_scalar (t_kind t) = true \/ t_kind t = Key \/ t_kind t = Comment -> data_ok d (t_kind t) (t_data t).

Definition any_wf (d : slice) (t : tree) : Prop :=
  wf_val d t \/ wf_kv d t \/ wf_comment d t \/ wf_key d t.

Lemma any_wf_nodes d t : any_wf d t -> Forall (node_ok d) (subtrees t).
Proof.
  induction t as [k r dd cs IH] using tree_ind'. intros Hwf.
  assert (Hroot : node_ok d (T k r dd cs) /\ Forall (any_wf d) cs).
  { unfold node_ok. simpl.
    destruct Hwf as [Hv|[Hkv|[Hc|Hk]]].
    - inversion Hv as [k' t' Hs (r' & d' & E & _ & Hd)|? ? ? HF|? ? ? HF]; subst.
      + injection E as -> -> -> ->. done.
      + split; [by intros [?|[?|?]]|]. eapply Forall_impl; [exact HF|].
        intros c [Hc|Hc]; [right; right; by left|by left].
      + split; [by intros [?|[?|?]]|]. eapply Forall_impl; [exact HF|]. intros c Hc. right. by left.
    - inversion Hkv; subst. split; [by intros [?|[?|?]]|]. constructor; [by left|].
      eapply Forall_impl; [done|]. intros c Hc. right. right. by right.
    - destruct Hc as (r' & d' & cs' & E & _ & Hd & HF). injection E as -> -> -> ->. split; [done|].
      eapply Forall_impl; [exact HF|]. intros c Hc. right. right. left. by apply leaf_comment.
    - destruct Hk as (r' & d' & E & _ & Hd). injection E as -> -> -> ->. done. }
  destruct Hroot as [Hroot Hcs]. simpl. constructor; [done|]. clear Hroot Hwf.
  induction Hcs as [|c cs Hc Hcs IHcs]; [constructor|]. apply Forall_cons in IH as [H1 H2].
  simpl. apply Forall_app. split; [by apply H1|by apply IHcs].
Qed.

Lemma expr_nodes d t : wf_expr d t -> Forall (node_ok d) (subtrees t).
Proof.
  intros Hwf. destruct Hwf as [t Ht|k r dd keys Hk Hne HF|t Ht].
  - apply any_wf_nodes. right. by left.
  - simpl. constructor; [intros [H|[H|H]]; by destruct Hk as [-> | ->]|].
    clear Hne. induction HF as [|c cs Hc HF IH]; [constructor|]. simpl. apply Forall_app.
    split; [|done]. apply any_wf_nodes. right. right. by right.
  - apply any_wf_nodes. right. right. by left.
Qed.

Lemma parse_document_ok keep d :
  Forall byte_ok d ->
  spec (parse_document keep d)
    (fun '(ts, e) => Forall (wf_expr (doc d)) ts /\ (length ts <= length d)%nat /\
       (forall e', e = Some e' -> points_into (doc d) e')) (fun _ => False).
Proof.
  intros Hd. apply (expressions_ok (S (length d)) (Parser_Reset _ (doc d))).
  - split; [done|]. simpl. reflexivity.
  - simpl. lia.
Qed.

(** ** Claims *)

(** from any state that the parser can be in, [NextExpression] returns: it
    never panics and its loops end. When it returns true, it has moved on in the
    document, and the nodes it built, walked from [Expression] with the iterators,
    are a well-formed expression (a key-value, a table header or a comment); when
    it returns false, the document is at its end or an error is set. Errors point
    into the document. *)
Theorem NextExpression_spec (p : Parser) :
  parser_ok p -> exists more p', NextExpression p = Ret (more, p') /\ next_post p (more, p').
Proof.
  intros Hok. pose proof (NextExpression_ok p Hok) as H.
  destruct (NextExpression p) as [[more p']|?| |]; simpl in H; try done. by eexists _, _.
Qed.

Lemma NextExpression_spec_witness :
  let p := Parser_Reset (Prs nil_slice (Bld [] 0) 0 nil_slice None false true) (doc (bs "a.b = [1, {c = 2}] # x")) in
  exists p', NextExpression p = Ret (true, p') /\ next_post p (true, p').
Proof.
  set (p := Parser_Reset (Prs nil_slice (Bld [] 0) 0 nil_slice None false true) (doc (bs "a.b = [1, {c = 2}] # x"))).
  destruct (NextExpression_spec p) as (more & p' & E & H).
  - split; [apply bytes_ok; reflexivity|unfold p; simpl; reflexivity].
  - assert (Em : exists q, NextExpression p = Ret (true, q)) by (eexists; vm_compute; reflexivity).
    destruct Em as [q Eq]. rewrite Eq in E. injection E as <- <-. exists q. split; [exact Eq|exact H].
Defined.

(** C15: parsing terminates without a panic on every byte string, valid or not:
    the loop over [NextExpression] ends, after at most one expression per byte;
    every expression is well formed, and the error it stops with, if any, points
    into the document. *)
Theorem parse_document_spec (keep : bool) (d : list Z) :
  Forall byte_ok d ->
  exists ts e, parse_document keep d = Ret (ts, e) /\ Forall (wf_expr (doc d)) ts /\
    (length ts <= length d)%nat /\ (forall e', e = Some e' -> points_into (doc d) e').
Proof.
  intros Hd. pose proof (parse_document_ok keep d Hd) as H.
  destruct (parse_document keep d) as [[ts e]|?| |]; simpl in H; try done. by eexists _, _.
Qed.

Lemma parse_document_spec_witness :
  exists ts, parse_document false (bs "[a]
b = 1") = Ret (ts, None) /\ length ts = 2%nat /\ Forall (wf_expr (doc (bs "[a]
b = 1"))) ts.
Proof.
  destruct (parse_document_spec false (bs "[a]
b = 1")) as (ts & e & E & H & _).
  - apply bytes_ok. reflexivity.
  - assert (Em : exists us, parse_document false (bs "[a]
b = 1") = Ret (us, None) /\ length us = 2%nat) by (eexists; split; [vm_compute; reflexivity|reflexivity]).
    destruct Em as (us & Eu & Hl). rewrite Eu in E. injection E as <- <-.
    exists us. split; [exact Eu|]. split; [exact Hl|exact H].
Defined.

(** the readers of numbers and dates never panic on what the parser gives
    them: the value of every node of kind Integer, Float or DateTime, anywhere in
    an expression of any document, is a part of the document on which
    [parseInteger], [parseFloat] or [parseDateTime] returns; an integer is in the
    range of [int64], and the date of a date-time exists. *)
Theorem parsed_values_read (keep : bool) (d : list Z) (ts : list tree) (e : option ParserError)
    (float64 : Type) (NaN : float64) (ParseFloat : list Z -> option float64) :
  Forall byte_ok d -> parse_document keep d = Ret (ts, e) ->
  forall t u, t ∈ ts -> u ∈ subtrees t ->
  match t_kind u with
  | Integer => exists s, t_data u = InDoc s /\ sub s (doc d) /\
      spec (TomlDecode.parseInteger s) Strconv.int64_ok (points_into (doc d))
  | Float => exists s, t_data u = InDoc s /\ sub s (doc d) /\
      spec (TomlDecode.parseFloat NaN ParseFloat s) (fun _ => True) (points_into (doc d))
  | DateTime => exists s, t_data u = InDoc s /\ sub s (doc d) /\
      spec (TomlTime.parseDateTime s) (fun t => TomlTime.valid_date (TomlTime.t_date t))
        (points_into (doc d))
  | _ => True
  end.
Proof.
  intros Hd Ep t u Ht Hu. pose proof (parse_document_ok keep d Hd) as H. rewrite Ep in H.
  destruct H as (Hwf & _). rewrite Forall_forall in Hwf. specialize (Hwf t Ht).
  apply expr_nodes in Hwf. rewrite Forall_forall in Hwf. specialize (Hwf u Hu).
  unfold node_ok in Hwf.
  destruct (t_kind u) eqn:Ek; try done; specialize (Hwf ltac:(by left)); simpl in Hwf;
    destruct (t_data u) as [s|l]; try done; destruct Hwf as [Hs Htok]; exists s;
    (split_and!; [done|done|]); (eapply spec_into; [exact Hs|]).
  - eapply spec_mono; [by apply TomlDecode.parseFloat_safe|done|done].
  - by apply TomlDecode.parseInteger_safe.
  - by apply TomlTime.parseDateTime_safe.
Qed.

Lemma parsed_values_read_witness :
  exists ts, parse_document false (bs "a = 0x1F") = Ret (ts, None) /\
    forall t u, t ∈ ts -> u ∈ subtrees t -> t_kind u = Integer ->
      exists s, t_data u = InDoc s /\
        spec (TomlDecode.parseInteger s) Strconv.int64_ok (points_into (doc (bs "a = 0x1F"))).
Proof.
  eexists. split; [vm_compute; reflexivity|]. intros t u Ht Hu Hk.
  pose proof (parsed_values_read false (bs "a = 0x1F") _ None unit tt (fun _ => None)
    ltac:(apply bytes_ok; reflexivity) ltac:(vm_compute; reflexivity) t u Ht Hu) as H.
  rewrite Hk in H. destruct H as (s & H1 & _ & H2). exists s. split; [exact H1|exact H2].
Defined.

(** [Raw] gives back the bytes that [Range] described: in a document of less
    than 4 GiB, for every part of it. *)
Theorem Raw_Range (d s : slice) :
  sub s d -> Z.of_nat (slen d) < 2 ^ 32 ->
  exists r, range d s = Ret r /\ Parser_Raw d r = Ret s.
Proof.
  intros Hs Hlen. destruct (sub_len _ _ Hs) as [H1 H2]. unfold range, SubsliceOffset.
  rewrite (proj2 (Nat.ltb_ge _ _)) by lia. rewrite (proj2 (Nat.ltb_ge _ _)) by lia.
  rewrite (proj2 (Nat.ltb_ge _ _)) by lia. simpl. eexists. split; [reflexivity|].
  assert (Hu : forall k, (k <= slen d)%nat -> uint32 (Z.of_nat k) = Z.of_nat k).
  { intros k Hk. apply Z.mod_small. lia. }
  unfold Parser_Raw. cbn [Offset Length]. rewrite !Hu by lia. rewrite <- Nat2Z.inj_add, Hu by lia.
  rewrite !Nat2Z.id, s_sub_eq by lia.
  replace (off s - off d + slen s - (off s - off d))%nat with (slen s) by lia.
  rewrite <- (sub_dat s d Hs). destruct s as [o l]. simpl. do 2 f_equal. simpl in *. lia.
Qed.

Lemma Raw_Range_witness :
  exists r, range (doc (bs "a = 1")) (Sl 4 (bs "1")) = Ret r /\
    Parser_Raw (doc (bs "a = 1")) r = Ret (Sl 4 (bs "1")).
Proof.
  apply (Raw_Range (doc (bs "a = 1")) (Sl 4 (bs "1"))); [|vm_compute; reflexivity].
  exists (bs "a = "), []. split; reflexivity.
Defined.
End TomlParser.
