(* ===== verification/TomlMarshal.v ===== *)
(** * The encoder of TOML documents ([src/utoml/marshaler.go])

    The values the encoder is given are the type [value]: what [reflect] tells
    the code of a Go value. The encoder is modelled whole: the context it
    copies from one level to the next, the classification of values into
    key-values, tables and array tables, the sorting of maps, struct tags,
    omission of empty values, comments and indentation. Go's floats are an
    interface, [GoFloat], because their printing is the standard library's. *)
From stdpp Require Import base numbers list gmap strings sorting.
From S2P Require Import Prelude Utf8 Strconv TomlChars TomlTime.
#[local] Open Scope Z_scope.

Module TomlMarshal.
Export Utf8.
Import Strconv.

(** ** What the code uses of the standard library *)

(** [math.IsNaN], the comparisons with [math.MaxFloat32] and
    [math.MaxFloat64] and with 0, [math.Trunc(f) == f],
    [strconv.AppendFloat(nil, f, 'f', prec, bits)] and
    [strconv.ParseFloat(s, 64)]. *)
Class GoFloat := {
  float64 : Type;
  IsNaN : float64 -> bool;
  above_max : Z -> float64 -> bool;
  below_min : Z -> float64 -> bool;
  is_zero : float64 -> bool;
  integral : float64 -> bool;
  FormatFloat : float64 -> Z -> Z -> list Z;
  ParseFloat64 : list Z -> option float64
}.

(** [unicode.IsLetter] and [unicode.IsDigit]. *)
Class GoUnicode := { IsLetter : Z -> bool; IsDigit : Z -> bool }.

(** [strings.Compare(a, b) <= 0] *)
Fixpoint bytes_le (a b : list Z) : bool :=
  match a, b with
  | [], _ => true
  | _ :: _, [] => false
  | x :: a', y :: b' => if x <? y then true else if y <? x then false else bytes_le a' b'
  end.

(** [strings.Index(s, sep)] for a separator of one byte: what is before it and
    what is after it. *)
Fixpoint cut_at_byte (sep : Z) (s : list Z) : option (list Z * list Z) :=
  match s with
  | [] => None
  | c :: s' =>
      if c =? sep then Some ([], s')
      else match cut_at_byte sep s' with Some (a, b) => Some (c :: a, b) | None => None end
  end.

(** [time.Time.AppendFormat] with the layouts [RFC3339] and [RFC3339Nano]. *)
Definition zone_text (z : Z) : list Z :=
  if z =? 0 then [90]
  else
    let m := Z.abs (Z.quot z 60) in
    (if Z.quot z 60 <? 0 then 45 else 43) :: fmt_0d 2 (m / 60) ++ 58 :: fmt_0d 2 (m mod 60).

Definition clock_text (t : TomlTime.Time) : list Z :=
  fmt_0d 4 (TomlTime.Year (TomlTime.t_date t)) ++ 45 :: fmt_0d 2 (TomlTime.Month (TomlTime.t_date t)) ++
  45 :: fmt_0d 2 (TomlTime.Day (TomlTime.t_date t)) ++ 84 :: fmt_0d 2 (TomlTime.t_hour t) ++
  58 :: fmt_0d 2 (TomlTime.t_min t) ++ 58 :: fmt_0d 2 (TomlTime.t_sec t).

Definition format_RFC3339 (t : TomlTime.Time) : list Z :=
  clock_text t ++ zone_text (TomlTime.t_zone t).

Definition format_RFC3339Nano (t : TomlTime.Time) : list Z :=
  clock_text t ++
  (if TomlTime.t_nsec t =? 0 then []
   else 46 :: reverse (TomlTime.trim_left (reverse (fmt_0d 9 (TomlTime.t_nsec t))))) ++
  zone_text (TomlTime.t_zone t).

(** ** Values *)

(** The errors of the encoder. *)
Inductive EncodeError :=
| ENilRoot | ENilInterface | ERootText | EText (msg : string) | EKeyText (msg : string)
| EKeyType | EUint (x : Z) | EKind | EJson (x : list Z) | EWrite.

Record valueOptions := VOpts {
  o_multiline : bool; o_omitempty : bool; o_commented : bool; o_comment : list Z
}.
Definition no_options : valueOptions := VOpts false false false [].

(** The parts of a [reflect.StructField] that the code reads. *)
Record field_info := FInfo {
  f_exported : bool; f_anonymous : bool; f_name : list Z; f_toml : list Z; f_comment : list Z
}.

(** The key of a map: a string, a type with [MarshalText], or another type. *)
Inductive map_key :=
| KString (s : list Z)
| KText (r : go EncodeError (list Z))
| KOther.

(** ** The context *)

Record encoderCtx := Ctx {
  parentKey : list (list Z); key : list Z; hasKey : bool; insideKv : bool;
  skipTableHeader : bool; c_inline : bool; c_indent : nat; c_commented : bool;
  c_options : valueOptions
}.

Definition clearKey (c : encoderCtx) : encoderCtx :=
  Ctx (parentKey c) [] false (insideKv c) (skipTableHeader c) (c_inline c) (c_indent c)
    (c_commented c) (c_options c).
Definition setKey (c : encoderCtx) (k : list Z) : encoderCtx :=
  Ctx (parentKey c) k true (insideKv c) (skipTableHeader c) (c_inline c) (c_indent c)
    (c_commented c) (c_options c).
Definition shiftKey (c : encoderCtx) : encoderCtx :=
  if hasKey c then
    clearKey (Ctx (parentKey c ++ [key c]) (key c) (hasKey c) (insideKv c) (skipTableHeader c)
                (c_inline c) (c_indent c) (c_commented c) (c_options c))
  else c.
Definition isRoot (c : encoderCtx) : bool := (length (parentKey c) =? 0)%nat && negb (hasKey c).

(** Assignments to one field of a context. *)
Definition set_insideKv (x : bool) (c : encoderCtx) : encoderCtx :=
  Ctx (parentKey c) (key c) (hasKey c) x (skipTableHeader c) (c_inline c) (c_indent c)
    (c_commented c) (c_options c).
Definition set_skip (x : bool) (c : encoderCtx) : encoderCtx :=
  Ctx (parentKey c) (key c) (hasKey c) (insideKv c) x (c_inline c) (c_indent c)
    (c_commented c) (c_options c).
Definition set_indent (x : nat) (c : encoderCtx) : encoderCtx :=
  Ctx (parentKey c) (key c) (hasKey c) (insideKv c) (skipTableHeader c) (c_inline c) x
    (c_commented c) (c_options c).
Definition set_commented (x : bool) (c : encoderCtx) : encoderCtx :=
  Ctx (parentKey c) (key c) (hasKey c) (insideKv c) (skipTableHeader c) (c_inline c) (c_indent c)
    x (c_options c).
Definition set_options (x : valueOptions) (c : encoderCtx) : encoderCtx :=
  Ctx (parentKey c) (key c) (hasKey c) (insideKv c) (skipTableHeader c) (c_inline c) (c_indent c)
    (c_commented c) x.

(** The settings of an [Encoder]. *)
Record Encoder := Enc {
  tablesInline : bool; arraysMultiline : bool; indentSymbol : list Z; indentTables : bool;
  marshalJsonNumbers : bool
}.
Definition NewEncoder : Encoder := Enc false false (bs "  ") false false.
Definition SetTablesInline (e : Encoder) (x : bool) : Encoder :=
  Enc x (arraysMultiline e) (indentSymbol e) (indentTables e) (marshalJsonNumbers e).
Definition SetArraysMultiline (e : Encoder) (x : bool) : Encoder :=
  Enc (tablesInline e) x (indentSymbol e) (indentTables e) (marshalJsonNumbers e).
Definition SetIndentSymbol (e : Encoder) (x : list Z) : Encoder :=
  Enc (tablesInline e) (arraysMultiline e) x (indentTables e) (marshalJsonNumbers e).
Definition SetIndentTables (e : Encoder) (x : bool) : Encoder :=
  Enc (tablesInline e) (arraysMultiline e) (indentSymbol e) x (marshalJsonNumbers e).
Definition SetMarshalJsonNumbers (e : Encoder) (x : bool) : Encoder :=
  Enc (tablesInline e) (arraysMultiline e) (indentSymbol e) (indentTables e) x.

(** ** Strings, keys and comments *)

Definition encodeQuotedChar (multiline : bool) (r : Z) : list Z :=
  let hextable := bs "0123456789ABCDEF" in
  let hex i := default 0 (hextable !! Z.to_nat i) in
  if r =? 92 then [92; 92]
  else if r =? 34 then [92; 34]
  else if r =? 8 then [92; 98]
  else if r =? 12 then [92; 102]
  else if r =? 10 then if multiline then [r] else [92; 110]
  else if r =? 13 then [92; 114]
  else if r =? 9 then [92; 116]
  else if ((0 <=? r) && (r <=? 8)) || ((10 <=? r) && (r <=? 31)) || (r =? 127) then
    [92; 117; 48; 48] ++ [hex (Z.shiftr r 4)] ++ [hex (Z.land r 15)]
  else [r].

Definition encodeQuotedString (multiline : bool) (b v : list Z) : list Z :=
  let stringQuote := if multiline then [34; 34; 34] else [34] in
  let b := b ++ stringQuote in
  let b := if multiline then b ++ [10] else b in
  let b := foldl (fun b r => b ++ encodeQuotedChar multiline r) b v in
  b ++ stringQuote.

Definition encodeString (b v : list Z) (options : valueOptions) : list Z :=
  encodeQuotedString (o_multiline options) b v.

Definition encodeUnquotedKey (b v : list Z) : list Z := b ++ v.

Definition bare_rune (c : Z) : bool :=
  ((65 <=? c) && (c <=? 90)) || ((97 <=? c) && (c <=? 122)) || ((48 <=? c) && (c <=? 57)) ||
  (c =? 45) || (c =? 95).

Definition encodeKey (b k : list Z) : list Z :=
  if (length k =? 0)%nat then b ++ [39; 39]
  else if forallb bare_rune (runes k) then encodeUnquotedKey b k
  else encodeQuotedString false b k.

(** The method [commented]. *)
Definition write_commented (commented : bool) (b : list Z) : list Z :=
  if commented then b ++ bs "# " else b.

(** The method [indent]. *)
Fixpoint write_indent (e : Encoder) (level : nat) (b : list Z) : list Z :=
  match level with
  | O => b
  | S level' => write_indent e level' (b ++ indentSymbol e)
  end.

(** [strings.NewReplacer] with patterns of one byte. *)
Definition replace_comment (c : Z) : list Z :=
  if c =? 10 then [92; 110] else if c =? 13 then [92; 114] else if c =? 9 then [92; 116]
  else if c =? 35 then [32] else [c].

Definition encodeComment (comment b : list Z) : list Z :=
  if (length comment <? 1)%nat then b
  else b ++ bs " # " ++ (comment ≫= replace_comment).

(** [for _, k := range parentKey[1:]] *)
Definition encode_parts (b : list Z) (ks : list (list Z)) : list Z :=
  foldl (fun b k => encodeKey (b ++ [46]) k) b ks.

Definition encodeTableHeader (e : Encoder) (c : encoderCtx) (b : list Z) : list Z :=
  match parentKey c with
  | [] => b
  | k :: ks =>
      let b := write_commented (c_commented c) b in
      let b := write_indent e (c_indent c) b in
      let b := b ++ [91] in
      let b := encodeKey b k in
      let b := encode_parts b ks in
      let b := b ++ [93] in
      let b := encodeComment (o_comment (c_options c)) b in
      b ++ [10]
  end.

(** ** Struct tags *)

Record tagOptions := TOpts { t_multiline : bool; t_inline : bool; t_omitempty : bool; t_commented : bool }.

Definition set_tag_option (o : list Z) (opts : tagOptions) : tagOptions :=
  if bool_decide (o = bs "multiline") then TOpts true (t_inline opts) (t_omitempty opts) (t_commented opts)
  else if bool_decide (o = bs "inline") then TOpts (t_multiline opts) true (t_omitempty opts) (t_commented opts)
  else if bool_decide (o = bs "omitempty") then TOpts (t_multiline opts) (t_inline opts) true (t_commented opts)
  else if bool_decide (o = bs "commented") then TOpts (t_multiline opts) (t_inline opts) (t_omitempty opts) true
  else opts.

(** [for raw != ...]: the fuel bounds the number of options. *)
Fixpoint tag_loop (fuel : nat) (raw : list Z) (opts : tagOptions) : tagOptions :=
  match fuel, raw with
  | S fuel', _ :: _ =>
      match cut_at_byte 44 raw with
      | Some (o, raw) => tag_loop fuel' raw (set_tag_option o opts)
      | None => tag_loop fuel' [] (set_tag_option raw opts)
      end
  | _, _ => opts
  end.

Definition parseTag (tag : list Z) : list Z * tagOptions :=
  let opts := TOpts false false false false in
  match cut_at_byte 44 tag with
  | None => (tag, opts)
  | Some (tag, raw) => (tag, tag_loop (S (length raw)) raw opts)
  end.

Section Encoder.
Context `{GoFloat} `{GoUnicode}.
(** The types of the program, for the zero value behind a nil pointer. *)
Context {typ : Type}.

(** A [reflect.Value]. [VText r v] is a value [v] whose type has a method
    [MarshalText], or that is addressable and whose pointer type has it; [r]
    is what the method returns. The three local types have the method on their
    pointers only, so their flag tells whether the value is addressable. A
    slice or an array is a [VSlice]; a nil map is [VMap None]. [VOther] is a
    value of a kind that cannot be encoded, [Some x] for the [uintptr] [x]. *)
Inductive value :=
| VTime (t : TomlTime.Time)
| VDuration (ns : Z) (text : list Z)
| VLocalTime (addressable : bool) (t : TomlTime.LocalTime)
| VLocalDate (addressable : bool) (d : TomlTime.LocalDate)
| VLocalDateTime (addressable : bool) (d : TomlTime.LocalDateTime)
| VJsonNumber (s : list Z)
| VText (r : go EncodeError (list Z)) (v : value)
| VMap (m : option (list (map_key * value)))
| VStruct (fs : list (field_info * value))
| VSlice (vs : list value)
| VInterface (v : option value)
| VPtr (t : typ) (v : option value)
| VString (s : list Z)
| VFloat32 (f : float64)
| VFloat64 (f : float64)
| VBool (b : bool)
| VUint (x : Z)
| VInt (x : Z)
| VOther (uintptr : option Z).

(** [reflect.Zero] *)
Context (Zero : typ -> value).

(** [isNil] *)
Fixpoint isNil (v : value) : bool :=
  match v with
  | VText _ v => isNil v
  | VPtr _ None | VInterface None | VMap None => true
  | _ => false
  end.

(** [isEmptyValue] and [isEmptyStruct]. All the fields of a [time.Time] are
    unexported; those of the local types are integers. *)
Definition zero_date (d : TomlTime.LocalDate) : bool :=
  (TomlTime.Year d =? 0) && (TomlTime.Month d =? 0) && (TomlTime.Day d =? 0).
Definition zero_time (t : TomlTime.LocalTime) : bool :=
  (TomlTime.Hour t =? 0) && (TomlTime.Minute t =? 0) && (TomlTime.Second t =? 0) &&
  (TomlTime.Nanosecond t =? 0) && (TomlTime.Precision t =? 0).

Fixpoint isEmptyValue (v : value) : bool :=
  match v with
  | VTime _ => true
  | VLocalDate _ d => zero_date d
  | VLocalTime _ t => zero_time t
  | VLocalDateTime _ d => zero_date (TomlTime.ldt_date d) && zero_time (TomlTime.ldt_time d)
  | VText _ v => isEmptyValue v
  | VStruct fs =>
      forallb (fun fv : field_info * value =>
        let '(f, v) := fv in
        negb (f_exported f) || bool_decide (f_toml f = bs "-") || isEmptyValue v) fs
  | VMap m => match m with Some (_ :: _) => false | _ => true end
  | VSlice vs => match vs with [] => true | _ => false end
  | VString s | VJsonNumber s => match s with [] => true | _ => false end
  | VBool b => negb b
  | VInt x | VUint x | VDuration x _ => x =? 0
  | VFloat32 f | VFloat64 f => is_zero f
  | VInterface v => match v with None => true | Some _ => false end
  | VPtr _ v => match v with None => true | Some _ => false end
  | VOther uintptr => match uintptr with Some x => x =? 0 | None => false end
  end.

Definition shouldOmitEmpty (options : valueOptions) (v : value) : bool :=
  o_omitempty options && isEmptyValue v.

Definition isValidName (s : list Z) : bool :=
  negb (length s =? 0)%nat &&
  forallb (fun c => bool_decide (c ∈ bs "!#$%&()*+-./:;<=>?@[]^_{|}~ ") || IsLetter c || IsDigit c)
    (runes s).

(** ** Tables *)

Record entry := Ent { Key : list Z; Value : value; Options : valueOptions }.
Record table := Tab { kvs : list entry; tables : list entry }.

Definition has_key (k : list Z) (es : list entry) : bool :=
  existsb (fun e => bool_decide (Key e = k)) es.

Definition pushKV (t : table) (k : list Z) (v : value) (options : valueOptions) : table :=
  if has_key k (kvs t) then t else Tab (kvs t ++ [Ent k v options]) (tables t).
Definition pushTable (t : table) (k : list Z) (v : value) (options : valueOptions) : table :=
  if has_key k (tables t) then t else Tab (kvs t) (tables t ++ [Ent k v options]).

(** [sortEntriesByKey]. The keys of a list of entries are distinct, so that
    every sort gives the same list. *)
Fixpoint insert_entry (x : entry) (es : list entry) : list entry :=
  match es with
  | [] => [x]
  | y :: es' => if bytes_le (Key x) (Key y) then x :: es else y :: insert_entry x es'
  end.
Definition sortEntriesByKey (es : list entry) : list entry := foldr insert_entry [] es.

(** [v.Type().Implements(textMarshalerType)], or the value is addressable and
    its pointer type does. Pointers to times and to the local types have the
    method. *)
Definition has_text (v : value) : bool :=
  match v with
  | VText _ _ => true
  | VLocalDate a _ | VLocalTime a _ | VLocalDateTime a _ => a
  | VPtr _ (Some (VTime _ | VLocalDate _ _ | VLocalTime _ _ | VLocalDateTime _ _)) => true
  | VPtr t None =>
      match Zero t with VTime _ | VLocalDate _ _ | VLocalTime _ _ | VLocalDateTime _ _ => true | _ => false end
  | _ => false
  end.

(** [time.Time.MarshalText] *)
Definition Time_MarshalText (t : TomlTime.Time) : go EncodeError (list Z) :=
  let year := TomlTime.Year (TomlTime.t_date t) in
  if (year <? 0) || (9999 <? year) then Fail (EText "year outside of range [0,9999]")
  else if 24 <=? Z.abs (Z.quot (TomlTime.t_zone t) 60) / 60 then
    Fail (EText "timezone hour outside of range [0,23]")
  else Ret (format_RFC3339Nano t).

(** [v.Interface().(encoding.TextMarshaler).MarshalText()]. The local types
    accept a nil receiver; the method of [time.Time] does not. *)
Definition text_of (v : value) : go EncodeError (list Z) :=
  match v with
  | VText r _ => r
  | VPtr _ (Some (VTime t)) => Time_MarshalText t
  | VPtr _ (Some (VLocalDate _ d)) => r ← TomlTime.LocalDate_MarshalText d; mret (fst r)
  | VPtr _ (Some (VLocalTime _ d)) => TomlTime.LocalTime_MarshalText d
  | VPtr _ (Some (VLocalDateTime _ d)) => r ← TomlTime.LocalDateTime_MarshalText d; mret (fst r)
  | VPtr t None => match Zero t with VTime _ => Panic | _ => mret [] end
  | _ => Panic
  end.

Fixpoint willConvertToTable (c : encoderCtx) (v : value) : bool :=
  match v with
  | VTime _ | VDuration _ _ => false
  | _ =>
      if has_text v then false
      else
        match v with
        | VMap _ | VStruct _ | VLocalDate _ _ | VLocalTime _ _ | VLocalDateTime _ _ => negb (c_inline c)
        | VInterface (Some v') | VPtr _ (Some v') => willConvertToTable c v'
        | _ => false
        end
  end.

(** Of a nil interface [v.Elem()] is not a valid value, and [v.Type()] of that
    panics. *)
Fixpoint willConvertToTableOrArrayTable (c : encoderCtx) (v : value) : go EncodeError bool :=
  if insideKv c then mret false
  else
    match v with
    | VInterface (Some v') | VText _ (VInterface (Some v')) => willConvertToTableOrArrayTable c v'
    | VInterface None | VText _ (VInterface None) => Panic
    | VSlice vs | VText _ (VSlice vs) =>
        mret (if (length vs =? 0)%nat then false else forallb (willConvertToTable c) vs)
    | _ => mret (willConvertToTable c v)
    end.

Definition keyToString (k : map_key) : go EncodeError (list Z) :=
  match k with
  | KString s => mret s
  | KText r => r
  | KOther => Fail EKeyType
  end.

(** [for iter.Next()]: the entries of a map in the order of the iteration. *)
Fixpoint map_loop (c : encoderCtx) (m : list (map_key * value)) (t : table) : go EncodeError table :=
  match m with
  | [] => mret t
  | (k, v) :: m' =>
      if isNil v then map_loop c m' t
      else
        k ← keyToString k;
        w ← willConvertToTableOrArrayTable c v;
        map_loop c m' (if (w : bool) then pushTable t k v no_options else pushKV t k v no_options)
  end.

(** [v.Kind() == reflect.Struct] *)
Fixpoint is_struct (v : value) : bool :=
  match v with
  | VStruct _ | VTime _ | VLocalDate _ _ | VLocalTime _ _ | VLocalDateTime _ _ => true
  | VText _ v => is_struct v
  | _ => false
  end.

(** The fields of the local types, which have no tags. *)
Definition push_int (t : table) (name : string) (x : Z) : table := pushKV t (bs name) (VInt x) no_options.
Definition push_date (t : table) (d : TomlTime.LocalDate) : table :=
  push_int (push_int (push_int t "Year" (TomlTime.Year d)) "Month" (TomlTime.Month d)) "Day" (TomlTime.Day d).
Definition push_time (t : table) (d : TomlTime.LocalTime) : table :=
  push_int (push_int (push_int (push_int (push_int t "Hour" (TomlTime.Hour d)) "Minute" (TomlTime.Minute d))
    "Second" (TomlTime.Second d)) "Nanosecond" (TomlTime.Nanosecond d)) "Precision" (TomlTime.Precision d).

(** The end of the loop over the fields. *)
Definition push_field (c : encoderCtx) (t : table) (f : field_info) (v : value) : go EncodeError table :=
  let '(k, opts) := parseTag (f_toml f) in
  let k := if isValidName k then k else [] in
  let k := if (length k =? 0)%nat then f_name f else k in
  if isNil v then mret t
  else
    let options := VOpts (t_multiline opts) (t_omitempty opts) (t_commented opts) (f_comment f) in
    if t_inline opts then mret (pushKV t k v options)
    else
      w ← willConvertToTableOrArrayTable c v;
      mret (if negb w then pushKV t k v options else pushTable t k v options).

(** Whether a field is embedded and has no name of its own in its tag. *)
Definition embedded (f : field_info) : bool :=
  let '(k, _) := parseTag (f_toml f) in
  let k := if isValidName k then k else [] in
  (length k =? 0)%nat && f_anonymous f.

Fixpoint walkStruct (c : encoderCtx) (v : value) (t : table) : go EncodeError table :=
  match v with
  | VStruct fs =>
      (fix fields fs t :=
         match fs with
         | [] => mret t
         | (f, v) :: fs' =>
             if negb (f_exported f) || bool_decide (f_toml f = bs "-") then fields fs' t
             else if embedded f then
               t ← (if is_struct v then walkStruct c v t
                    else match v with
                         | VPtr _ (Some e) | VText _ (VPtr _ (Some e)) =>
                             if is_struct e then walkStruct c e t else mret t
                         | _ => mret t
                         end);
               fields fs' t
             else t ← push_field c t f v; fields fs' t
         end) fs t
  | VText _ v => walkStruct c v t
  | VLocalDate _ d => mret (push_date t d)
  | VLocalTime _ d => mret (push_time t d)
  | VLocalDateTime _ d => mret (push_time (push_date t (TomlTime.ldt_date d)) (TomlTime.ldt_time d))
  | VTime _ => mret t
  | _ => Panic
  end.

(** ** Encoding *)

Context (e : Encoder).

Section Encode.
(** [encode], one level further down. *)
Context (rec : list Z -> encoderCtx -> value -> go EncodeError (list Z)).

Definition encodeKv (b : list Z) (c : encoderCtx) (options : valueOptions) (v : value)
    : go EncodeError (list Z) :=
  let line := negb (c_inline c) && negb (insideKv c) in
  let b := if line then write_indent e (c_indent c) (write_commented (c_commented c) b) else b in
  let b := encodeKey b (key c) in
  let b := b ++ bs " = " in
  let subctx := set_options options (shiftKey (set_insideKv true c)) in
  b ← rec b subctx v;
  mret (if line then encodeComment (o_comment options) b else b).

Fixpoint inline_kvs (es : list entry) (first : bool) (b : list Z) (c : encoderCtx)
    : go EncodeError (list Z) :=
  match es with
  | [] => mret b
  | kv :: es' =>
      if shouldOmitEmpty (Options kv) (Value kv) then inline_kvs es' first b c
      else
        let b := if first then b else b ++ [44; 32] in
        let c := setKey c (Key kv) in
        b ← encodeKv b c (Options kv) (Value kv);
        inline_kvs es' false b c
  end.

Definition encodeTableInline (b : list Z) (c : encoderCtx) (t : table) : go EncodeError (list Z) :=
  let b := b ++ [123; 32] in
  b ← inline_kvs (kvs t) true b c;
  if (0 <? length (tables t))%nat then Panic
  else mret (b ++ [32; 125]).

Fixpoint table_kvs (es : list entry) (hasNonEmptyKV : bool) (b : list Z) (c : encoderCtx)
    : go EncodeError (list Z * bool) :=
  match es with
  | [] => mret (b, hasNonEmptyKV)
  | kv :: es' =>
      if shouldOmitEmpty (Options kv) (Value kv) then table_kvs es' hasNonEmptyKV b c
      else
        let c := setKey c (Key kv) in
        let c2 := set_commented (o_commented (Options kv) || c_commented c) c in
        b ← encodeKv b c2 (Options kv) (Value kv);
        table_kvs es' true (b ++ [10]) c
  end.

Fixpoint table_tables (es : list entry) (first hasNonEmptyKV : bool) (b : list Z) (c : encoderCtx)
    : go EncodeError (list Z) :=
  match es with
  | [] => mret b
  | tb :: es' =>
      if shouldOmitEmpty (Options tb) (Value tb) then table_tables es' first hasNonEmptyKV b c
      else
        let b := if first then if hasNonEmptyKV then b ++ [10] else b else b ++ [10] in
        let c := set_options (Options tb) (setKey c (Key tb)) in
        let c2 := set_commented (c_commented c || o_commented (c_options c)) c in
        b ← rec b c2 (Value tb);
        table_tables es' false hasNonEmptyKV b c
  end.

Definition encodeTable (b : list Z) (c : encoderCtx) (t : table) : go EncodeError (list Z) :=
  let c := shiftKey c in
  if insideKv c || (c_inline c && negb (isRoot c)) then encodeTableInline b c t
  else
    let '(b, c) :=
      if negb (skipTableHeader c) then
        (encodeTableHeader e c b,
         if indentTables e && (0 <? length (parentKey c))%nat then set_indent (S (c_indent c)) c else c)
      else (b, c) in
    let c := set_skip false c in
    r ← table_kvs (kvs t) false b c;
    let '(b, hasNonEmptyKV) := (r : list Z * bool) in
    table_tables (tables t) true hasNonEmptyKV b c.

Definition encodeMap (b : list Z) (c : encoderCtx) (m : list (map_key * value)) : go EncodeError (list Z) :=
  t ← map_loop c m (Tab [] []);
  encodeTable b c (Tab (sortEntriesByKey (kvs t)) (sortEntriesByKey (tables t))).

Definition encodeStruct (b : list Z) (c : encoderCtx) (v : value) : go EncodeError (list Z) :=
  t ← walkStruct c v (Tab [] []);
  encodeTable b c t.

Fixpoint array_tables (scratch : list Z) (vs : list value) (first : bool) (b : list Z) (c : encoderCtx)
    : go EncodeError (list Z) :=
  match vs with
  | [] => mret b
  | v :: vs' =>
      let b := if first then b else b ++ [10] in
      let b := b ++ scratch in
      let b := encodeComment (o_comment (c_options c)) b in
      let b := b ++ [10] in
      b ← rec b c v;
      array_tables scratch vs' false b c
  end.

Definition array_header (c : encoderCtx) : list Z :=
  let scratch := write_commented (c_commented c) [] in
  let scratch := if indentTables e then write_indent e (c_indent c) scratch else scratch in
  let scratch := scratch ++ [91; 91] in
  let scratch := match parentKey c with
                 | [] => scratch
                 | k :: ks => encode_parts (encodeKey scratch k) ks
                 end in
  scratch ++ [93; 93].

Definition encodeSliceAsArrayTable (b : list Z) (c : encoderCtx) (vs : list value)
    : go EncodeError (list Z) :=
  let c := shiftKey c in
  let scratch := array_header c in
  let c := set_skip true c in
  let c := if indentTables e then set_indent (S (c_indent c)) c else c in
  array_tables scratch vs true b c.

Fixpoint array_elems (multiline : bool) (vs : list value) (first : bool) (b : list Z) (c : encoderCtx)
    : go EncodeError (list Z) :=
  match vs with
  | [] => mret b
  | v :: vs' =>
      let b := if first then b else b ++ (if multiline then [44; 10] else [44; 32]) in
      let b := if multiline then write_indent e (c_indent c) b else b in
      b ← rec b c v;
      array_elems multiline vs' false b c
  end.

Definition encodeSliceAsArray (b : list Z) (c : encoderCtx) (vs : list value) : go EncodeError (list Z) :=
  let multiline := o_multiline (c_options c) || arraysMultiline e in
  let b := b ++ [91] in
  let b := if negb multiline then b ++ [32] else b in
  let subCtx := set_options no_options c in
  let b := if multiline then b ++ [10] else b in
  let subCtx := if multiline then set_indent (S (c_indent subCtx)) subCtx else subCtx in
  b ← array_elems multiline vs true b subCtx;
  let b := if multiline then write_indent e (c_indent c) (b ++ [10]) else b ++ [32] in
  mret (b ++ [93]).

Definition encodeSlice (b : list Z) (c : encoderCtx) (vs : list value) : go EncodeError (list Z) :=
  if (length vs =? 0)%nat then mret (b ++ [91; 93])
  else
    w ← willConvertToTableOrArrayTable c (VSlice vs);
    if (w : bool) then encodeSliceAsArrayTable b c vs else encodeSliceAsArray b c vs.

Definition encodeFloat (b : list Z) (bits : Z) (f : float64) : list Z :=
  if IsNaN f then b ++ bs "nan"
  else if above_max bits f then b ++ bs "inf"
  else if below_min bits f then b ++ bs "-inf"
  else if integral f then b ++ FormatFloat f 1 bits
  else b ++ FormatFloat f (-1) bits.

(** [switch v.Kind()], after the cases of [TextMarshaler]. *)
Definition encode_kind (b : list Z) (c : encoderCtx) (v : value) : go EncodeError (list Z) :=
  match v with
  | VMap m => encodeMap b c (default [] m)
  | VStruct _ | VTime _ | VLocalDate _ _ | VLocalTime _ _ | VLocalDateTime _ _ => encodeStruct b c v
  | VSlice vs => encodeSlice b c vs
  | VInterface None => Fail ENilInterface
  | VInterface (Some v) => rec b c v
  | VPtr t None => rec b c (Zero t)
  | VPtr _ (Some v) => rec b c v
  | VString s | VJsonNumber s => mret (encodeString b s (c_options c))
  | VFloat32 f => mret (encodeFloat b 32 f)
  | VFloat64 f => mret (encodeFloat b 64 f)
  | VBool x => mret (b ++ (if x then bs "true" else bs "false"))
  | VUint x => if int64_max <? x then Fail (EUint x) else mret (b ++ FormatUint x 10)
  | VInt x | VDuration x _ => mret (b ++ FormatInt x 10)
  | VText _ _ | VOther _ => Fail EKind
  end.

Definition encode_text (b : list Z) (c : encoderCtx) (v : value) : go EncodeError (list Z) :=
  if has_text v then
    if isRoot c then Fail ERootText
    else text ← text_of v; mret (encodeString b text (c_options c))
  else encode_kind b c v.

(** The body of [encode]: the switch on the types first. *)
Definition encode_body (b : list Z) (c : encoderCtx) (v : value) : go EncodeError (list Z) :=
  match v with
  | VTime t => mret (b ++ (if 0 <? TomlTime.t_nsec t then format_RFC3339Nano t else format_RFC3339 t))
  | VDuration _ text => mret (encodeString b text (c_options c))
  | VLocalTime _ t => s ← TomlTime.LocalTime_String t; mret (b ++ s)
  | VLocalDate _ d => s ← TomlTime.LocalDate_String d; mret (b ++ fst s)
  | VLocalDateTime _ d => s ← TomlTime.LocalDateTime_String d; mret (b ++ fst s)
  | VJsonNumber x =>
      if marshalJsonNumbers e then
        match x with
        | [] => mret (b ++ [48])
        | _ =>
            match ParseInt x 10 with
            | Some v => rec b c (VInt v)
            | None =>
                match ParseFloat64 x with
                | Some f => rec b c (VFloat64 f)
                | None => Fail (EJson x)
                end
            end
        end
      else encode_text b c v
  | _ => encode_text b c v
  end.
End Encode.

(** The fuel bounds the nesting of the value. *)
Fixpoint encode (fuel : nat) (b : list Z) (c : encoderCtx) (v : value) : go EncodeError (list Z) :=
  match fuel with
  | O => OutOfFuel
  | S fuel' => encode_body (encode fuel') b c v
  end.

Definition root_ctx : encoderCtx :=
  Ctx [] [] false false false (tablesInline e) 0 false no_options.

(** [Encode]: the bytes that were written; [Write] tells whether the writer
    takes them. *)
Definition Encode (fuel : nat) (Write : list Z -> bool) (v : option value) : go EncodeError (list Z) :=
  match v with
  | None => Fail ENilRoot
  | Some v =>
      b ← encode fuel [] root_ctx v;
      if Write b then mret b else Fail EWrite
  end.
End Encoder.

(** [Marshal]: a [bytes.Buffer] takes everything. *)
Definition Marshal `{GoFloat} `{GoUnicode} {typ} (Zero : typ -> value (typ := typ))
    (fuel : nat) (v : option (value (typ := typ)))
    : go EncodeError (list Z) :=
  Encode Zero NewEncoder fuel (fun _ => true) v.

(** * Correctness *)

(** ** The encoder returns *)

Section Returns.
Context `{GoFloat} `{GoUnicode} {typ : Type}.
#[local] Abbreviation value := (value (typ := typ)).
#[local] Abbreviation entry := (entry (typ := typ)).
Context (Zero : typ -> value).

(** Induction on values, through the lists and options inside them. *)
Lemma value_ind' (P : value -> Prop) :
  (forall t, P (VTime t)) -> (forall n s, P (VDuration n s)) -> (forall a t, P (VLocalTime a t)) ->
  (forall a t, P (VLocalDate a t)) -> (forall a t, P (VLocalDateTime a t)) -> (forall s, P (VJsonNumber s)) ->
  (forall r v, P v -> P (VText r v)) ->
  P (VMap None) -> (forall m, Forall (fun kv => P (snd kv)) m -> P (VMap (Some m))) ->
  (forall fs, Forall (fun fv => P (snd fv)) fs -> P (VStruct fs)) ->
  (forall vs, Forall P vs -> P (VSlice vs)) ->
  P (VInterface None) -> (forall v, P v -> P (VInterface (Some v))) ->
  (forall t, P (VPtr t None)) -> (forall t v, P v -> P (VPtr t (Some v))) ->
  (forall s, P (VString s)) -> (forall f, P (VFloat32 f)) -> (forall f, P (VFloat64 f)) ->
  (forall b, P (VBool b)) -> (forall x, P (VUint x)) -> (forall x, P (VInt x)) -> (forall o, P (VOther o)) ->
  forall v, P v.
Proof.
  intros H1 H2 H3 H4 H5 H6 H7 H8 H8' H9 H10 H11 H11' H12 H12' H13 H14 H15 H16 H17 H18 H19.
  fix IH 1. intros [t|n s|a t|a t|a t|s|r v|[m|]|fs|vs|[v|]|t [v|]|s|f|f|b|x|x|o];
    [apply H1|apply H2|apply H3|apply H4|apply H5|apply H6|apply H7, IH|apply H8'|exact H8
    |apply H9|apply H10|apply H11', IH|exact H11|apply H12', IH|apply H12|apply H13|apply H14
    |apply H15|apply H16|apply H17|apply H18|apply H19].
  - induction m as [|[k v] m IHm]; constructor; [apply IH|exact IHm].
  - induction fs as [|[f v] fs IHf]; constructor; [apply IH|exact IHf].
  - induction vs as [|v vs IHv]; constructor; [apply IH|exact IHv].
Qed.

(** [fits n v]: encoding [v] goes at most [n] levels down. The levels count the
    zero values behind nil pointers; [MarshalText] methods return, and what is
    inside an interface is not an interface. *)
Definition fits_step (rec : value -> Prop) (v : value) : Prop :=
  match v with
  | VLocalTime _ t => returned (@TomlTime.LocalTime_String EncodeError t)
  | VLocalDateTime _ d => returned (@TomlTime.LocalTime_String EncodeError (TomlTime.ldt_time d))
  | VJsonNumber _ => rec (VInt 0)
  | VText r v => returned r /\ rec v
  | VMap m => Forall (fun kv => returned (keyToString (fst kv)) /\ rec (snd kv)) (default [] m)
  | VStruct fs => Forall (fun fv => rec (snd fv)) fs
  | VSlice vs => Forall rec vs
  | VInterface (Some v) =>
      match v with VInterface _ | VText _ (VInterface _) => False | _ => rec v end
  | VPtr t None =>
      match Zero t with
      | VTime _ => False
      | VLocalDate _ _ | VLocalTime _ _ | VLocalDateTime _ _ => True
      | z => rec z
      end
  | VPtr _ (Some v) => rec v
  | _ => True
  end.

Fixpoint fits (n : nat) (v : value) : Prop :=
  match n with O => False | S n' => fits_step (fits n') v end.

Lemma fits_step_mono (P Q : value -> Prop) v :
  (forall v, P v -> Q v) -> fits_step P v -> fits_step Q v.
Proof.
  intros IH Hv. unfold fits_step in *.
  destruct v as [| | | | | |r v|m|fs|vs|[v|]|t [v|]|s| | | | | |]; try done; auto.
  - destruct Hv. auto.
  - eapply Forall_impl; [exact Hv|]. intros [k v] [Hk Hx]. auto.
  - eapply Forall_impl; [exact Hv|]. intros [f v] Hx. auto.
  - eapply Forall_impl; [exact Hv|]. auto.
  - destruct v as [| | | | | |r v| | | | | | | | | | | |]; try done; auto. destruct v; auto.
  - destruct (Zero t); auto.
Qed.

Lemma fits_S n v : fits n v -> fits (S n) v.
Proof.
  revert v. induction n as [|n IH]; [done|]. intros v Hv.
  exact (fits_step_mono _ _ v IH Hv).
Qed.

Lemma fits_le n m v : (n <= m)%nat -> fits n v -> fits m v.
Proof. induction 1; [done|]. intros. apply fits_S. auto. Qed.

(** *** Tables *)

(** What is known of a table that was filled in a context: its values fit, and
    it has no sub-tables when it has to be written inline. *)
Definition flat (c : encoderCtx) : bool := insideKv c || c_inline c.

Definition table_ok (n : nat) (c : encoderCtx) (t : table) : Prop :=
  Forall (fun x => fits n (Value x)) (kvs t) /\ Forall (fun x => fits n (Value x)) (tables t) /\
  (flat c = true -> tables t = []).

Lemma willConvertToTable_flat c v : c_inline c = true -> willConvertToTable Zero c v = false.
Proof.
  intros Hc. induction v using value_ind'; cbn [willConvertToTable]; rewrite ?Hc;
    try done; by (case_match; try done).
Qed.

Lemma willConvert_flat c v w :
  flat c = true -> willConvertToTableOrArrayTable Zero c v = Ret w -> w = false.
Proof.
  intros Hc. unfold flat in Hc.
  destruct (insideKv c) eqn:Hi; [by intros Hw; destruct v; cbn in Hw; rewrite Hi in Hw; injection Hw|].
  assert (Hs : forall vs, (if (length vs =? 0)%nat then false else forallb (willConvertToTable Zero c) vs) = false).
  { intros [|x vs]; [done|]. simpl. by rewrite willConvertToTable_flat. }
  assert (Hf : forall x, Ret (E := EncodeError) (willConvertToTable Zero c x) = Ret w -> w = false).
  { intros x [= <-]. by apply willConvertToTable_flat. }
  induction v as [| | | | | |r v IH| | | |vs| |v IH| | | | | | | | |] using value_ind'; intros Hw;
    cbn [willConvertToTableOrArrayTable] in Hw; rewrite Hi in Hw; unfold mret, go_mret in Hw;
    try done; try (by eapply Hf); try (by apply IH); [|by injection Hw as <-].
  destruct v as [| | | | | | | | | |[v|]| | | | | | | |]; try done; try (by eapply Hf).
  - by injection Hw as <-.
  - apply IH. cbn [willConvertToTableOrArrayTable]. by rewrite Hi.
Qed.

Lemma willConvert_returned n c v :
  fits n v -> isNil v = false -> returned (willConvertToTableOrArrayTable Zero c v).
Proof.
  intros Hv Hn. destruct n as [|n]; [done|]. cbn [fits] in Hv.
  destruct v as [| | | | | |r v| | | |[v|]| | | | | | | |]; cbn [willConvertToTableOrArrayTable];
    (destruct (insideKv c) eqn:Hi; [done|]); try done.
  - destruct v as [| | | | | | | | | |[v|]| | | | | | | |]; try done.
    destruct Hv as [_ Hv]. destruct n; [done|]. cbn in Hv.
    destruct v as [| | | | | |? v| | | | | | | | | | | |]; cbn; rewrite ?Hi; try done. by destruct v.
  - cbn in Hv. destruct v as [| | | | | |? v| | | | | | | | | | | |]; cbn; rewrite ?Hi; try done. by destruct v.
Qed.

Lemma spec_of_returned {A} (m : go EncodeError A) (Q : A -> Prop) :
  returned m -> (forall a, m = Ret a -> Q a) -> spec m Q (fun _ => True).
Proof. destruct m; simpl; auto. Qed.

Lemma pushKV_ok n c t k v o : table_ok n c t -> fits n v -> table_ok n c (pushKV t k v o).
Proof.
  intros (H1 & H2 & H3) Hv. unfold pushKV. case_match; [done|].
  split_and!; [|done..]. apply Forall_app. auto.
Qed.

Lemma pushTable_ok n c t k v o :
  flat c = false -> table_ok n c t -> fits n v -> table_ok n c (pushTable t k v o).
Proof.
  intros Hc (H1 & H2 & H3) Hv. unfold pushTable. case_match; [done|].
  split_and!; [done| |by rewrite Hc]. apply Forall_app. auto.
Qed.

(** A value goes to the key-values or to the tables. *)
Lemma push_value_ok n c t k v o w :
  willConvertToTableOrArrayTable Zero c v = Ret w -> table_ok n c t -> fits n v ->
  table_ok n c (if w then pushTable t k v o else pushKV t k v o).
Proof.
  intros Hw Ht Hv. destruct w; [|by apply pushKV_ok]. destruct (flat c) eqn:Hc; [|by apply pushTable_ok].
  by apply willConvert_flat in Hw.
Qed.

Lemma map_loop_ok n c m t :
  Forall (fun kv => returned (keyToString (fst kv)) /\ fits n (snd kv)) m -> table_ok n c t ->
  spec (map_loop Zero c m t) (table_ok n c) (fun _ => True).
Proof.
  intros Hm. revert t. induction Hm as [|[k v] m [Hk Hv] Hm IH]; intros t Ht; [done|].
  cbn [map_loop]. cbn in Hk, Hv. destruct (isNil v) eqn:En; [by apply IH|].
  eapply spec_bind; [by apply spec_of_returned with (Q := fun _ => True)|]. intros k' _.
  eapply spec_bind; [apply spec_of_returned; [by eapply willConvert_returned|intros w Hw; exact Hw]|].
  intros w Hw. apply IH. by apply push_value_ok.
Qed.

Lemma insert_entry_Forall (P : entry -> Prop) x es : P x -> Forall P es -> Forall P (insert_entry x es).
Proof. intros Hx. induction 1; simpl; [auto|]. case_match; auto. Qed.

Lemma sort_ok n c t : table_ok n c t ->
  table_ok n c (Tab (sortEntriesByKey (kvs t)) (sortEntriesByKey (tables t))).
Proof.
  assert (Hs : forall (P : entry -> Prop) es, Forall P es -> Forall P (sortEntriesByKey es)).
  { intros P es. induction 1; simpl; [done|]. by apply insert_entry_Forall. }
  intros (H1 & H2 & H3). split_and!; cbn; [by apply Hs..|]. intros Hc. by rewrite H3.
Qed.

Lemma push_field_ok n c t f v : table_ok n c t -> fits n v ->
  spec (push_field Zero c t f v) (table_ok n c) (fun _ => True).
Proof.
  intros Ht Hv. unfold push_field. destruct (parseTag (f_toml f)) as [k opts].
  destruct (isNil v) eqn:En; [done|]. case_match; [by apply pushKV_ok|].
  eapply spec_bind; [apply spec_of_returned; [by eapply willConvert_returned|intros w Hw; exact Hw]|].
  intros w Hw. apply spec_ret.
  assert (Hp := push_value_ok n c t (if (length (if isValidName k then k else []) =? 0)%nat then f_name f else if isValidName k then k else []) v
    (VOpts (t_multiline opts) (t_omitempty opts) (t_commented opts) (f_comment f)) w Hw Ht Hv).
  by destruct w.
Qed.

Lemma push_int_ok n c t s x : (0 < n)%nat -> table_ok n c t -> table_ok n c (push_int t s x).
Proof. intros Hn Ht. apply pushKV_ok; [done|]. by destruct n; [lia|]. Qed.

Definition walks (v : value) : Prop := forall n c t, (0 < n)%nat ->
  is_struct v = true -> fits (S n) v -> table_ok n c t ->
  spec (walkStruct Zero c v t) (table_ok n c) (fun _ => True).

(** The struct an embedded field leads to. *)
Definition behind (v : value) : option value :=
  match v with VPtr _ e | VText _ (VPtr _ e) => e | _ => None end.

Lemma fits_pos n v : fits n v -> (0 < n)%nat.
Proof. destruct n; [done|lia]. Qed.

Lemma embedded_walks n c t v :
  walks v -> (forall e, behind v = Some e -> walks e) -> fits n v -> table_ok n c t ->
  spec (if is_struct v then walkStruct Zero c v t
        else match v with
             | VPtr _ (Some e) | VText _ (VPtr _ (Some e)) =>
                 if is_struct e then walkStruct Zero c e t else mret t
             | _ => mret t
             end) (table_ok n c) (fun _ => True).
Proof.
  intros Hw He Hv Ht. pose proof (fits_pos _ _ Hv) as Hn.
  destruct (is_struct v) eqn:Es; [apply Hw; auto using fits_S|]. destruct n as [|n]; [done|].
  destruct v as [| | | | | |r v| | | | |? [e|]| | | | | | |]; try (by apply spec_ret).
  - destruct v as [| | | | | | | | | | |? [e|]| | | | | | |]; try (by apply spec_ret).
    destruct (is_struct e) eqn:Ee; [|by apply spec_ret]. apply (He e); [done..| |done].
    destruct Hv as [_ Hv]. destruct n as [|n]; [done|]. eapply (fits_le n); [lia|]. exact Hv.
  - destruct (is_struct e) eqn:Ee; [|by apply spec_ret]. apply (He e); [done..| |done].
    eapply (fits_le n); [lia|]. exact Hv.
Qed.

Lemma walkStruct_ok v : walks v /\ (forall e, behind v = Some e -> walks e).
Proof.
  induction v as [| | | | | |r v [IH IHe]| | |fs IH| | | | |t v [IH _]| | | | | | |] using value_ind';
    (split; [|intros e He; try done]).
  all: try (intros d c t' Hd Hs Hv Ht; try done; cbn [walkStruct]).
  - apply spec_ret. unfold push_time. by repeat apply push_int_ok.
  - apply spec_ret. unfold push_date. by repeat apply push_int_ok.
  - apply spec_ret. unfold push_time, push_date. by repeat apply push_int_ok.
  - destruct Hv as [_ Hv]. apply IH; auto using fits_S.
  - apply (IHe e); [by destruct v|done..].
  - cbn [fits fits_step] in Hv. revert t' Ht.
    induction IH as [|[f v] fs [Hf Hfe] IHf IHfs]; intros t Ht; [done|].
    apply Forall_cons in Hv as [Hv Hvs]. cbn [snd] in Hv, Hf, Hfe. cbn beta iota.
    destruct (negb (f_exported f) || bool_decide (f_toml f = bs "-")); [by apply IHfs|].
    destruct (embedded f); (eapply (spec_bind _ _ (table_ok d c)); [|intros; by apply IHfs]).
    + by apply embedded_walks.
    + by apply push_field_ok.
  - injection He as <-. by apply IH.
Qed.

(** *** Encoding *)

Lemma returned_bind {E A B} (m : go E A) (k : A -> go E B) :
  returned m -> (forall a, returned (k a)) -> returned (m ≫= k).
Proof. destruct m; simpl; auto. Qed.

Lemma LocalDate_String_returned {E} d : returned (@TomlTime.LocalDate_String E d).
Proof.
  unfold TomlTime.LocalDate_String. destruct (TomlTime.Day d <? 1); [done|].
  set (m := if (TomlTime.Month d <? 1) || _ then 1 else TomlTime.Month d).
  assert (Hm : 1 <= m <= 12) by (unfold m; case_match; lia).
  by rewrite TomlTime.daysIn_eq.
Qed.

Lemma LocalDateTime_String_returned d :
  returned (@TomlTime.LocalTime_String EncodeError (TomlTime.ldt_time d)) ->
  returned (@TomlTime.LocalDateTime_String EncodeError d).
Proof.
  intros Ht. unfold TomlTime.LocalDateTime_String. case_match; [done|].
  apply returned_bind; [apply LocalDate_String_returned|]. intros [s d']. by apply returned_bind.
Qed.

Context (e : Encoder).

Section Step.
Context (rec : list Z -> encoderCtx -> value -> go EncodeError (list Z)) (n : nat).
Context (Hrec : forall b c v, fits n v -> returned (rec b c v)).

Lemma encodeKv_returned b c o v : fits n v -> returned (encodeKv e rec b c o v).
Proof. intros Hv. apply returned_bind; [by apply Hrec|done]. Qed.

Lemma inline_kvs_returned es first b c :
  Forall (fun x => fits n (Value x)) es -> returned (inline_kvs e rec es first b c).
Proof.
  intros H1. revert first b c. induction H1 as [|x es Hx _ IH]; intros; [done|].
  cbn [inline_kvs]. case_match; [apply IH|]. apply returned_bind; [by apply encodeKv_returned|]. auto.
Qed.

Lemma table_kvs_returned es ne b c :
  Forall (fun x => fits n (Value x)) es -> returned (table_kvs e rec es ne b c).
Proof.
  intros H1. revert ne b c. induction H1 as [|x es Hx _ IH]; intros; [done|].
  cbn [table_kvs]. case_match; [apply IH|]. apply returned_bind; [by apply encodeKv_returned|]. auto.
Qed.

Lemma table_tables_returned es first ne b c :
  Forall (fun x => fits n (Value x)) es -> returned (table_tables rec es first ne b c).
Proof.
  intros H1. revert first ne b c. induction H1 as [|x es Hx _ IH]; intros; [done|].
  cbn [table_tables]. case_match; [apply IH|]. apply returned_bind; [by apply Hrec|]. auto.
Qed.

Lemma shiftKey_flat c : flat (shiftKey c) = flat c.
Proof. unfold shiftKey. by case_match. Qed.

Lemma encodeTable_returned b c t : table_ok n c t -> returned (encodeTable e rec b c t).
Proof.
  intros (H1 & H2 & H3). unfold encodeTable. rewrite <- shiftKey_flat in H3.
  set (c' := shiftKey c) in *. destruct (insideKv c' || c_inline c' && negb (isRoot c')) eqn:Ei.
  - apply returned_bind; [by apply inline_kvs_returned|]. intros b'.
    rewrite H3; [done|]. unfold flat. destruct (insideKv c'), (c_inline c'); done.
  - destruct (if negb (skipTableHeader c') then _ else _) as [b' c''].
    apply returned_bind; [by apply table_kvs_returned|]. intros [b'' ne].
    by apply table_tables_returned.
Qed.

Lemma array_tables_returned scratch vs first b c :
  Forall (fits n) vs -> returned (array_tables rec scratch vs first b c).
Proof.
  intros H1. revert first b c. induction H1 as [|x es Hx _ IH]; intros; [done|].
  cbn [array_tables]. apply returned_bind; [by apply Hrec|]. auto.
Qed.

Lemma array_elems_returned multiline vs first b c :
  Forall (fits n) vs -> returned (array_elems e rec multiline vs first b c).
Proof.
  intros H1. revert first b c. induction H1 as [|x es Hx _ IH]; intros; [done|].
  cbn [array_elems]. apply returned_bind; [by apply Hrec|]. auto.
Qed.

Lemma encodeSlice_returned b c vs : Forall (fits n) vs -> returned (encodeSlice Zero e rec b c vs).
Proof.
  intros Hvs. unfold encodeSlice. case_match; [done|].
  apply returned_bind; [by cbn; destruct (insideKv c)|]. intros [].
  - by apply array_tables_returned.
  - apply returned_bind; [by apply array_elems_returned|done].
Qed.

Lemma text_of_returned v : fits (S n) v -> has_text Zero v = true ->
  match v with VLocalDate _ _ | VLocalTime _ _ | VLocalDateTime _ _ => False | _ => True end ->
  returned (text_of Zero v).
Proof.
  intros Hv Ht Hl. cbn [fits] in Hv. destruct v as [| | | | | |r v| | | | |t [v|]| | | | | | |]; try done.
  - by destruct Hv.
  - cbn in Hv. destruct n as [|m]; [done|]. destruct v; try done; cbn [text_of].
    + unfold Time_MarshalText. repeat case_match; done.
    + unfold TomlTime.LocalTime_MarshalText. case_match; [done|]. exact Hv.
    + unfold TomlTime.LocalDate_MarshalText. apply returned_bind; [|done].
      case_match; [done|]. apply LocalDate_String_returned.
    + apply returned_bind; [by apply LocalDateTime_String_returned|done].
  - cbn in Hv, Ht |- *. by destruct (Zero t).
Qed.

Lemma table_ok_nil c : table_ok n c (Tab [] []).
Proof. split_and!; [constructor..|done]. Qed.

Lemma encode_kind_returned b c v : fits (S n) v -> is_struct v = false \/ (exists fs, v = VStruct fs) ->
  match v with VPtr t None => has_text Zero v = false | _ => True end ->
  returned (encode_kind Zero e rec b c v).
Proof.
  intros Hv Hs Hp.
  destruct v as [| | | | | |r v|m|fs|vs|[v|]|t [v|]| | | | | | |]; try done;
    try (by destruct Hs as [|[? ?]]); cbn [encode_kind].
  - eapply spec_returned. eapply spec_bind; [apply (map_loop_ok n c); [exact Hv|apply table_ok_nil]|].
    intros t Ht. apply (spec_of_returned _ (fun _ => True)); [|done]. apply encodeTable_returned. by apply sort_ok.
  - eapply spec_returned. apply (spec_bind _ _ (table_ok n c)).
    + destruct fs as [|f fs]; [apply spec_ret, table_ok_nil|].
      apply walkStruct_ok; [|done..|apply table_ok_nil].
      cbn in Hv. apply Forall_cons in Hv as [Hv _]. by eapply fits_pos.
    + intros t Ht. apply (spec_of_returned _ (fun _ => True)); [|done]. by apply encodeTable_returned.
  - by apply encodeSlice_returned.
  - apply Hrec. cbn in Hv. destruct v as [| | | | | |? v| | | | | | | | | | | |]; try done. by destruct v.
  - by apply Hrec.
  - apply Hrec. cbn in Hv, Hp. by destruct (Zero t).
  - by case_match.
Qed.

Lemma encode_text_returned b c v : fits (S n) v -> is_struct v = false \/ (exists fs, v = VStruct fs) \/ (exists r w, v = VText r w) ->
  returned (encode_text Zero e rec b c v).
Proof.
  intros Hv Hs. unfold encode_text. destruct (has_text Zero v) eqn:Et.
  - case_match; [done|]. apply returned_bind; [|done]. apply text_of_returned; [done..|].
    destruct v; try done; by destruct Hs as [|[[? ?]|[? [? ?]]]].
  - apply encode_kind_returned; [done| |by destruct v as [| | | | | | | | | | |t [|]| | | | | | |]].
    destruct Hs as [|[|[r [w ->]]]]; [auto..|]. done.
Qed.

Lemma encode_body_returned b c v : fits (S n) v -> returned (encode_body Zero e rec b c v).
Proof.
  intros Hv. unfold encode_body.
  destruct v; try (apply encode_text_returned; eauto; fail); try done.
  - apply returned_bind; [exact Hv|done].
  - apply returned_bind; [apply LocalDate_String_returned|done].
  - apply returned_bind; [by apply LocalDateTime_String_returned|done].
  - case_match; [|by apply encode_text_returned; eauto]. destruct s; [done|].
    assert (Hn := fits_pos _ _ Hv). cbn in Hv.
    repeat case_match; try done; apply Hrec; by destruct n.
Qed.
End Step.

Lemma encode_returned n b c v : fits n v -> returned (encode Zero e n b c v).
Proof.
  revert b c v. induction n as [|n IH]; intros b c v Hv; [done|].
  cbn [encode]. by apply (encode_body_returned _ n).
Qed.

End Returns.
(** ** The order of the entries of a map does not matter *)

Lemma bytes_le_refl a : bytes_le a a = true.
Proof. induction a as [|x a IH]; [done|]. simpl. by rewrite Z.ltb_irrefl. Qed.

Lemma bytes_le_total a b : bytes_le a b = false -> bytes_le b a = true.
Proof.
  revert b. induction a as [|x a IH]; intros [|y b]; simpl; try done.
  destruct (Z.ltb_spec x y), (Z.ltb_spec y x); try done; try lia. apply IH.
Qed.

Lemma bytes_le_trans a b c : bytes_le a b = true -> bytes_le b c = true -> bytes_le a c = true.
Proof.
  revert b c. induction a as [|x a IH]; intros [|y b] [|z c]; simpl; try done.
  destruct (Z.ltb_spec x y), (Z.ltb_spec y x), (Z.ltb_spec y z), (Z.ltb_spec z y),
    (Z.ltb_spec x z), (Z.ltb_spec z x); try done; try lia. apply IH.
Qed.

Lemma bytes_le_antisym a b : bytes_le a b = true -> bytes_le b a = true -> a = b.
Proof.
  revert b. induction a as [|x a IH]; intros [|y b]; simpl; try done.
  destruct (Z.ltb_spec x y), (Z.ltb_spec y x); try done; try lia. intros H1 H2.
  f_equal; [lia|auto].
Qed.

Section Order.
Context `{GoFloat} `{GoUnicode} {typ : Type}.
#[local] Abbreviation value := (value (typ := typ)).
#[local] Abbreviation entry := (entry (typ := typ)).
Context (Zero : typ -> value).

Definition key_le (x y : entry) : Prop := bytes_le (Key x) (Key y) = true.

Lemma insert_entry_perm (x : entry) es : insert_entry x es ≡ₚ x :: es.
Proof. induction es as [|y es IH]; [done|]. simpl. case_match; [done|]. rewrite IH. by constructor. Qed.

Lemma sort_perm (es : list entry) : sortEntriesByKey es ≡ₚ es.
Proof. induction es as [|x es IH]; [done|]. simpl. by rewrite insert_entry_perm, IH. Qed.

Lemma sort_sorted (es : list entry) : StronglySorted key_le (sortEntriesByKey es).
Proof.
  induction es as [|x es IH]; [constructor|]. simpl. revert IH. generalize (sortEntriesByKey es).
  clear es. intros es. induction es as [|y es IHes]; intros Hs; simpl; [repeat constructor|].
  apply StronglySorted_inv in Hs as [Hs Hy]. destruct (bytes_le (Key x) (Key y)) eqn:E.
  - constructor; [by constructor|]. constructor; [done|]. eapply Forall_impl; [exact Hy|].
    intros z Hz. by eapply bytes_le_trans.
  - constructor; [by apply IHes|]. rewrite insert_entry_perm. constructor; [|done].
    by apply bytes_le_total.
Qed.

(** Entries with distinct keys have one sorted order. *)
Lemma sort_canonical (es es' : list entry) :
  NoDup (Key <$> es) -> es ≡ₚ es' -> sortEntriesByKey es = sortEntriesByKey es'.
Proof.
  intros Hd Hp. apply (StronglySorted_unique_strong key_le); [|apply sort_sorted..|by rewrite !sort_perm].
  intros x y Hx Hy H1 H2. rewrite sort_perm in Hx. rewrite sort_perm, <- Hp in Hy.
  assert (E := bytes_le_antisym _ _ H1 H2).
  apply list_elem_of_lookup in Hx as [i Hi], Hy as [j Hj].
  assert (i = j); [|by simplify_eq]. eapply NoDup_lookup; [exact Hd|..];
    rewrite list_lookup_fmap, ?Hi, ?Hj; simpl; by rewrite ?E.
Qed.

(** The entries of a map with string keys that become key-values, or tables. *)
Definition chosen (c : encoderCtx) (w : bool) (kv : map_key * value) : option entry :=
  match kv with
  | (KString k, v) =>
      if isNil v then None
      else match willConvertToTableOrArrayTable Zero c v with
           | Ret w' => if Bool.eqb w w' then Some (Ent k v no_options) else None
           | _ => None
           end
  | _ => None
  end.

Definition wc_panics (c : encoderCtx) (kv : map_key * value) : Prop :=
  isNil (snd kv) = false /\ willConvertToTableOrArrayTable Zero c (snd kv) = Panic.

#[local] Instance wc_panics_dec c kv : Decision (wc_panics c kv).
Proof.
  unfold wc_panics. destruct (isNil (snd kv)); [right; by intros []|].
  destruct (willConvertToTableOrArrayTable Zero c (snd kv)); first [by left|right; by intros []].
Defined.

Lemma wc_ret_or_panic c v :
  (exists w, willConvertToTableOrArrayTable Zero c v = Ret w) \/
  willConvertToTableOrArrayTable Zero c v = Panic.
Proof.
  induction v as [| | | | | |r v IH| | | |vs| |v IH| | | | | | | | |] using value_ind';
    cbn [willConvertToTableOrArrayTable]; (destruct (insideKv c) eqn:Hi; [eauto|]); eauto.
  destruct v as [| | | | | | | | | |[v|]| | | | | | | |]; eauto.
  cbn [willConvertToTableOrArrayTable] in IH. by rewrite Hi in IH.
Qed.

Definition string_key (kv : map_key * value) : option (list Z) :=
  match fst kv with KString k => Some k | _ => None end.

Lemma map_loop_panic c m t ks :
  mapM string_key m = Some ks -> Exists (wc_panics c) m -> map_loop Zero c m t = Panic.
Proof.
  revert t ks. induction m as [|[k v] m IH]; intros t ks Hk He; [by inversion He|].
  apply mapM_Some in Hk. inversion Hk as [|? k' ? ks' Hk1 Hk2]; subst. cbn in Hk1.
  destruct k as [k| |]; try done. cbn [map_loop keyToString].
  apply Exists_cons in He as [[Hn Hp]|He]; [cbn in Hn, Hp; rewrite Hn; cbn; by rewrite Hp|].
  case_match; [eapply IH; [by apply mapM_Some|done]|]. cbn.
  destruct (wc_ret_or_panic c v) as [[w ->]| ->]; [|done]. cbn. eapply IH; [by apply mapM_Some|done].
Qed.

Lemma has_key_false k (es : list entry) : k ∉ Key <$> es -> has_key k es = false.
Proof.
  intros Hk. apply not_true_iff_false. unfold has_key. rewrite existsb_exists.
  intros (x & Hx & E%bool_decide_eq_true). apply Hk, list_elem_of_fmap. exists x.
  split; [done|]. by apply list_elem_of_In.
Qed.

Lemma map_loop_entries c m t ks :
  mapM string_key m = Some ks -> ~ Exists (wc_panics c) m ->
  NoDup ks -> (forall k, k ∈ ks -> k ∉ Key <$> kvs t /\ k ∉ Key <$> tables t) ->
  map_loop Zero c m t = Ret (Tab (kvs t ++ omap (chosen c false) m) (tables t ++ omap (chosen c true) m)).
Proof.
  revert t ks. induction m as [|[k v] m IH]; intros t ks Hk He Hd Ht.
  { simpl. rewrite !app_nil_r. by destruct t. }
  apply mapM_Some in Hk. inversion Hk as [|? k' ? ks' Hk1 Hk2]; subst. cbn in Hk1.
  destruct k as [k| |]; try done. injection Hk1 as ->. apply mapM_Some in Hk2.
  rewrite Exists_cons in He. apply NoDup_cons in Hd as [Hd1 Hd2].
  cbn [map_loop keyToString omap list_omap chosen]. unfold wc_panics in He. cbn in He.
  destruct (isNil v) eqn:En; [apply (IH _ ks'); try done; [tauto|]; intros; apply Ht; by right|].
  cbn. destruct (wc_ret_or_panic c v) as [[w Ew]|Ep]; [|tauto]. rewrite Ew. cbn.
  destruct (Ht k') as [H1 H2]; [by left|].
  destruct w; cbn; unfold pushTable, pushKV; rewrite has_key_false by done;
    (rewrite (IH _ ks'); [cbn; by rewrite <- app_assoc|done|tauto|done|]);
    intros k2 Hk2'; (destruct (Ht k2) as [H3 H4]; [by right|]); cbn; rewrite fmap_app;
    (split; [|try done]); try done; rewrite not_elem_of_app; (split; [done|]);
    cbn; rewrite list_elem_of_singleton; by intros ->.
Qed.

Lemma chosen_keys c w m ks : mapM string_key m = Some ks -> NoDup ks -> NoDup (Key <$> omap (chosen c w) m).
Proof.
  intros Hk Hd. enough (H1 : Key <$> omap (chosen c w) m `sublist_of` ks) by (by eapply sublist_NoDup).
  clear Hd. revert ks Hk. induction m as [|[k v] m IH]; intros ks Hk.
  { apply sublist_nil_l. }
  apply mapM_Some in Hk. inversion Hk as [|? k' ? ks' Hk1 Hk2]; subst. cbn in Hk1.
  destruct k as [k| |]; try done. injection Hk1 as ->. apply mapM_Some in Hk2. specialize (IH _ Hk2).
  cbn [omap list_omap chosen]. destruct (isNil v); [by constructor|].
  destruct (willConvertToTableOrArrayTable Zero c v) as [w'| | |]; try (by constructor).
  destruct (Bool.eqb w w'); by constructor.
Qed.

(** [vperm v v']: the same value, up to the order in which the maps in it that
    have string keys are iterated. *)
Inductive vperm : value -> value -> Prop :=
| vp_refl v : vperm v v
| vp_map m m1 m' ks : Forall2 (fun a b => fst a = fst b /\ vperm (snd a) (snd b)) m m1 -> m1 ≡ₚ m' ->
    mapM string_key m = Some ks -> NoDup ks -> vperm (VMap (Some m)) (VMap (Some m'))
| vp_struct fs fs' : Forall2 (fun a b => fst a = fst b /\ vperm (snd a) (snd b)) fs fs' ->
    vperm (VStruct fs) (VStruct fs')
| vp_slice vs vs' : Forall2 vperm vs vs' -> vperm (VSlice vs) (VSlice vs')
| vp_interface v v' : vperm v v' -> vperm (VInterface (Some v)) (VInterface (Some v'))
| vp_ptr t v v' : vperm v v' -> vperm (VPtr t (Some v)) (VPtr t (Some v'))
| vp_text r v v' : vperm v v' -> vperm (VText r v) (VText r v').

Lemma vperm_isNil v v' : vperm v v' -> isNil v = isNil v'.
Proof. induction 1; try done. Qed.

Lemma vperm_isEmpty v : forall v', vperm v v' -> isEmptyValue v = isEmptyValue v'.
Proof.
  induction v as [| | | | | |r v IH| |m|fs IH|vs| | | | | | | | | | |] using value_ind'; intros v' Hp;
    inversion Hp as [|? ? ? ? Hf Hm| ? ? Hf|? ? Hf| | |]; subst; try done; cbn [isEmptyValue].
  - by apply IH.
  - apply Forall2_length in Hf. apply Permutation_length in Hm.
    destruct m as [|? m], m' as [|? m']; simpl in *; try done; lia.
  - revert IH. induction Hf as [|[f x] [f' x'] fs fs' [Hx Hxx] Hf IHf]; intros IH; [done|].
    cbn [fst snd] in Hx, Hxx. subst f'. apply Forall_cons in IH as [IHx IH]. cbn [snd] in IHx.
    cbn [forallb]. rewrite (IHx _ Hxx), IHf; [done|by constructor|done].
  - by destruct Hf.
Qed.

Definition plain_ctor (v : value) : bool :=
  match v with VTime _ | VLocalDate _ _ | VLocalTime _ _ | VLocalDateTime _ _ => true | _ => false end.

Lemma vperm_ctor v v' : vperm v v' -> plain_ctor v = true \/ plain_ctor v' = true -> v = v'.
Proof. by destruct 1; intros []. Qed.

Lemma vperm_has_text v v' : vperm v v' -> has_text Zero v = has_text Zero v' /\ text_of Zero v = text_of Zero v'.
Proof.
  destruct 1 as [| | | | |t v v' Hv|]; try done.
  destruct (plain_ctor v || plain_ctor v') eqn:E.
  - apply orb_true_iff in E. by rewrite (vperm_ctor v v').
  - apply orb_false_iff in E as [E1 E2]. by destruct v, v'.
Qed.

Lemma vperm_wct c v : forall v', vperm v v' -> willConvertToTable Zero c v = willConvertToTable Zero c v'.
Proof.
  induction v as [| | | | | |r v IH| |m|fs IH|vs| |v IH| |t v IH| | | | | | |] using value_ind'; intros v' Hp;
    inversion Hp; subst; try done; cbn [willConvertToTable];
    destruct (vperm_has_text _ _ Hp) as [E _]; cbn [willConvertToTable]; rewrite ?E; try done;
    case_match; try done; by apply IH.
Qed.

Lemma vperm_wc c v : forall v', vperm v v' ->
  willConvertToTableOrArrayTable Zero c v = willConvertToTableOrArrayTable Zero c v'.
Proof.
  assert (Hs : forall vs vs', Forall2 vperm vs vs' ->
    (if (length vs =? 0)%nat then false else forallb (willConvertToTable Zero c) vs) =
    (if (length vs' =? 0)%nat then false else forallb (willConvertToTable Zero c) vs')).
  { intros vs vs' Hv. rewrite (Forall2_length _ _ _ Hv). case_match; [done|].
    induction Hv as [|x y vs vs' Hx Hv IHv]; [done|]. cbn [forallb]. rewrite (vperm_wct c x y Hx).
    f_equal. destruct vs as [|z vs]; [by inversion Hv|]. inversion Hv; subst. by apply IHv. }
  induction v as [| | | | | |r v IH| |m|fs IH|vs| |v IH| |t v IH| | | | | | |] using value_ind'; intros v' Hp;
    assert (Hw := vperm_wct c _ _ Hp); inversion Hp as [| | |? ? Hvs| | |? ? w Hvw]; subst; try done;
    cbn [willConvertToTableOrArrayTable]; (destruct (insideKv c) eqn:Hi; [done|]); rewrite <- ?Hw; try done.
  - specialize (IH _ Hvw). destruct Hvw as [| | |? ? Hvs|? ? Hvw| |]; try done.
    + by rewrite (Hs _ _ Hvs).
    + cbn [willConvertToTableOrArrayTable] in IH. by rewrite Hi in IH.
  - by rewrite (Hs _ _ Hvs).
  - by apply IH.
Qed.

(** Entries and tables that differ in that order only. *)
Definition erel (x y : entry) : Prop := Key x = Key y /\ Options x = Options y /\ vperm (Value x) (Value y).
Definition trel (t t' : table) : Prop := Forall2 erel (kvs t) (kvs t') /\ Forall2 erel (tables t) (tables t').

(** Results that are the same, up to a relation on what is returned. *)
Definition grel {A} (R : A -> A -> Prop) (m m' : go EncodeError A) : Prop :=
  match m, m' with
  | Ret a, Ret b => R a b
  | Fail e, Fail e' => e = e'
  | Panic, Panic | OutOfFuel, OutOfFuel => True
  | _, _ => False
  end.

Lemma grel_bind_eq {A B} (R : A -> A -> Prop) (m m' : go EncodeError A) (k k' : A -> go EncodeError B) :
  grel R m m' -> (forall a b, R a b -> k a = k' b) -> m ≫= k = m' ≫= k'.
Proof. destruct m, m'; simpl; try done; intros; subst; auto. Qed.

Lemma grel_bind {A B} (R : A -> A -> Prop) (S : B -> B -> Prop) (m m' : go EncodeError A) (k k' : A -> go EncodeError B) :
  grel R m m' -> (forall a b, R a b -> grel S (k a) (k' b)) -> grel S (m ≫= k) (m' ≫= k').
Proof. destruct m, m'; simpl; try done; intros; subst; auto. Qed.

Lemma grel_refl {A} (R : A -> A -> Prop) m : Reflexive R -> grel R m m.
Proof. intros HR. destruct m; simpl; auto. Qed.

#[local] Instance erel_refl : Reflexive erel.
Proof. intros x. split_and!; [done..|constructor]. Qed.
#[local] Instance trel_refl : Reflexive trel.
Proof. intros t. split; reflexivity. Qed.

Lemma has_key_rel k es es' : Forall2 erel es es' -> has_key k es = has_key k es'.
Proof.
  intros Hr. unfold has_key. induction Hr as [|x y es es' (Hk & _) Hr IH]; [done|]. cbn [existsb]. by rewrite Hk, IH.
Qed.

Lemma pushKV_rel t t' k v v' o : trel t t' -> vperm v v' -> trel (pushKV t k v o) (pushKV t' k v' o).
Proof.
  intros [H1 H2] Hv. unfold pushKV. rewrite (has_key_rel k _ _ H1). case_match; [done|].
  split; [|done]. apply Forall2_app; [done|]. by repeat constructor.
Qed.

Lemma pushTable_rel t t' k v v' o : trel t t' -> vperm v v' -> trel (pushTable t k v o) (pushTable t' k v' o).
Proof.
  intros [H1 H2] Hv. unfold pushTable. rewrite (has_key_rel k _ _ H2). case_match; [done|].
  split; [done|]. apply Forall2_app; [done|]. by repeat constructor.
Qed.

Lemma map_loop_rel c m m1 t t' :
  Forall2 (fun a b => fst a = fst b /\ vperm (snd a) (snd b)) m m1 -> trel t t' ->
  grel trel (map_loop Zero c m t) (map_loop Zero c m1 t').
Proof.
  intros Hm. revert t t'. induction Hm as [|[k v] [k1 v1] m m1 [Hk Hv] Hm IH]; intros t t' Ht; [done|].
  cbn in Hk, Hv. subst k1. cbn [map_loop]. rewrite <- (vperm_isNil _ _ Hv). case_match; [by apply IH|].
  apply (grel_bind eq); [by apply grel_refl|]. intros k' ? <-.
  rewrite <- (vperm_wc c _ _ Hv). apply (grel_bind eq); [by apply grel_refl|]. intros w ? <-.
  apply IH. destruct w; [by apply pushTable_rel|by apply pushKV_rel].
Qed.

Lemma insert_rel x y es es' : erel x y -> Forall2 erel es es' -> Forall2 erel (insert_entry x es) (insert_entry y es').
Proof.
  intros Hx. assert (Hk := proj1 Hx). induction 1 as [|a b es es' Hab Hr IH]; simpl; [by constructor|].
  rewrite Hk, (proj1 Hab). case_match; constructor; try done. by constructor.
Qed.

Lemma sort_rel es es' : Forall2 erel es es' -> Forall2 erel (sortEntriesByKey es) (sortEntriesByKey es').
Proof. induction 1; simpl; [constructor|by apply insert_rel]. Qed.

(** Permuting the entries of a map does not change its sorted tables. *)
Lemma map_loop_sorted c m m' ks :
  mapM string_key m = Some ks -> NoDup ks -> m ≡ₚ m' ->
  (t ← map_loop Zero c m (Tab [] []); mret (Tab (sortEntriesByKey (kvs t)) (sortEntriesByKey (tables t)))) =
  (t ← map_loop Zero c m' (Tab [] []); mret (Tab (sortEntriesByKey (kvs t)) (sortEntriesByKey (tables t)))).
Proof.
  intros Hk Hd Hp.
  assert (exists ks', mapM string_key m' = Some ks' /\ ks ≡ₚ ks') as (ks' & Hk' & Hpk).
  { apply mapM_Some in Hk. destruct (Permutation_Forall2 Hp Hk) as (ks' & Hpk & Hk').
    exists ks'. split; [by apply mapM_Some|done]. }
  assert (Hd' : NoDup ks') by (by rewrite <- Hpk).
  destruct (decide (Exists (wc_panics c) m)) as [He|He].
  - rewrite (map_loop_panic c m _ ks), (map_loop_panic c m' _ ks'); try done. by rewrite <- Hp.
  - rewrite (map_loop_entries c m _ ks), (map_loop_entries c m' _ ks'); try done.
    + cbn. f_equal. f_equal; (apply sort_canonical; [by eapply chosen_keys|by rewrite Hp]).
    + by rewrite <- Hp.
    + intros ? _. cbn. split; apply not_elem_of_nil.
    + intros ? _. cbn. split; apply not_elem_of_nil.
Qed.

Lemma push_field_rel c f t t' v v' : trel t t' -> vperm v v' ->
  grel trel (push_field Zero c t f v) (push_field Zero c t' f v').
Proof.
  intros Ht Hv. unfold push_field. destruct (parseTag (f_toml f)) as [k opts].
  rewrite <- (vperm_isNil _ _ Hv). case_match; [done|]. case_match; [by apply pushKV_rel|].
  rewrite <- (vperm_wc c _ _ Hv). apply (grel_bind eq); [by apply grel_refl|]. intros w ? <-.
  destruct w; [by apply pushTable_rel|by apply pushKV_rel].
Qed.

Lemma vperm_is_struct v v' : vperm v v' -> is_struct v = is_struct v'.
Proof. by induction 1. Qed.

Definition walk_rel (v : value) : Prop := forall c v' t t', vperm v v' -> trel t t' ->
  grel trel (walkStruct Zero c v t) (walkStruct Zero c v' t').

Lemma embedded_rel c v v' t t' :
  walk_rel v -> (forall x, behind v = Some x -> walk_rel x) -> vperm v v' -> trel t t' ->
  grel trel
    (if is_struct v then walkStruct Zero c v t
     else match v with
          | VPtr _ (Some e) | VText _ (VPtr _ (Some e)) =>
              if is_struct e then walkStruct Zero c e t else mret t
          | _ => mret t
          end)
    (if is_struct v' then walkStruct Zero c v' t'
     else match v' with
          | VPtr _ (Some e) | VText _ (VPtr _ (Some e)) =>
              if is_struct e then walkStruct Zero c e t' else mret t'
          | _ => mret t'
          end).
Proof.
  intros Hw He Hv Ht. rewrite <- (vperm_is_struct _ _ Hv). case_match; [by apply Hw|].
  assert (Hx : forall x x', behind v = Some x -> vperm x x' ->
    grel trel (if is_struct x then walkStruct Zero c x t else mret t)
      (if is_struct x' then walkStruct Zero c x' t' else mret t')).
  { intros x x' Hb Hp. rewrite <- (vperm_is_struct _ _ Hp). case_match; [by apply He|done]. }
  destruct Hv as [v| | | | | |r v v' Hv]; try done; [|by apply Hx|].
  - destruct v as [| | | | | |r v| | | | |? [x|]| | | | | | |]; try done; [|apply Hx; [done|constructor]].
    destruct v as [| | | | | | | | | | |? [x|]| | | | | | |]; try done. apply Hx; [done|constructor].
  - destruct Hv as [v| | | | |? v v' Hv|]; try done; [|by apply Hx].
    destruct v as [| | | | | | | | | | |? [x|]| | | | | | |]; try done. apply Hx; [done|constructor].
Qed.

Lemma push_int_rel t t' s x : trel t t' -> trel (push_int t s x) (push_int t' s x).
Proof. intros Ht. apply pushKV_rel; [done|constructor]. Qed.

Lemma vperm_fields fs v' : vperm (VStruct fs) v' ->
  exists fs', v' = VStruct fs' /\ Forall2 (fun a b => fst a = fst b /\ vperm (snd a) (snd b)) fs fs'.
Proof.
  inversion 1; subst; [|by eexists]. eexists. split; [done|].
  apply Forall_Forall2_diag, Forall_forall. intros x _. split; [done|constructor].
Qed.

Lemma vperm_text r v v' : vperm (VText r v) v' -> exists w, v' = VText r w /\ vperm v w.
Proof. inversion 1; subst; eexists; (split; [done|]); [constructor|done]. Qed.

Lemma walkStruct_rel v : walk_rel v /\ (forall y, behind v = Some y -> walk_rel y).
Proof.
  induction v as [| | | | | |r v [IH IHe]| | |fs IH| | | | |t0 v [IH _]| | | | | | |] using value_ind';
    (split; [|intros y Hy; try done]).
  all: try (intros c v' t' t'' Hp Ht; try (inversion Hp; subst; by repeat apply push_int_rel)).
  - apply vperm_text in Hp as (w & -> & Hp). exact (IH c w t' t'' Hp Ht).
  - apply (IHe y); [by destruct v|done..].
  - apply vperm_fields in Hp as (fs' & -> & Hf). cbn [walkStruct]. revert t' t'' Ht IH.
    induction Hf as [|[f x] [f' x'] fs fs' [Hx Hxx] Hf IHf]; intros t t' Ht IH; [done|].
    cbn [fst snd] in Hx, Hxx. subst f'. apply Forall_cons in IH as [[IHx IHxe] IH]. cbn [snd] in IHx, IHxe.
    case_match; [by apply IHf|]. case_match;
      (apply (grel_bind trel); [|intros; by apply IHf]); [by apply embedded_rel|by apply push_field_rel].
  - injection Hy as <-. by apply IH.
Qed.

Context (e : Encoder).

Section Step.
Context (rec : list Z -> encoderCtx -> value -> go EncodeError (list Z)).
Context (Hrec : forall b c v v', vperm v v' -> rec b c v = rec b c v').

Lemma encodeKv_rel b c o v v' : vperm v v' -> encodeKv e rec b c o v = encodeKv e rec b c o v'.
Proof. intros Hv. unfold encodeKv. by rewrite (Hrec _ _ _ _ Hv). Qed.

Lemma shouldOmitEmpty_rel o v v' : vperm v v' -> shouldOmitEmpty o v = shouldOmitEmpty o v'.
Proof. intros Hv. unfold shouldOmitEmpty. by rewrite (vperm_isEmpty _ _ Hv). Qed.

Lemma inline_kvs_rel es es' first b c : Forall2 erel es es' ->
  inline_kvs e rec es first b c = inline_kvs e rec es' first b c.
Proof.
  intros Hr. revert first b c. induction Hr as [|x y es es' (Hk & Ho & Hv) Hr IH]; intros; [done|].
  cbn [inline_kvs]. rewrite Hk, Ho, (shouldOmitEmpty_rel _ _ _ Hv), (encodeKv_rel _ _ _ _ _ Hv).
  case_match; [done|]. apply (grel_bind_eq eq); [by apply grel_refl|]. by intros ? ? <-.
Qed.

Lemma table_kvs_rel es es' ne b c : Forall2 erel es es' ->
  table_kvs e rec es ne b c = table_kvs e rec es' ne b c.
Proof.
  intros Hr. revert ne b c. induction Hr as [|x y es es' (Hk & Ho & Hv) Hr IH]; intros; [done|].
  cbn [table_kvs]. rewrite Hk, Ho, (shouldOmitEmpty_rel _ _ _ Hv), (encodeKv_rel _ _ _ _ _ Hv).
  case_match; [done|]. apply (grel_bind_eq eq); [by apply grel_refl|]. by intros ? ? <-.
Qed.

Lemma table_tables_rel es es' first ne b c : Forall2 erel es es' ->
  table_tables rec es first ne b c = table_tables rec es' first ne b c.
Proof.
  intros Hr. revert first ne b c. induction Hr as [|x y es es' (Hk & Ho & Hv) Hr IH]; intros; [done|].
  cbn [table_tables]. rewrite Hk, Ho, (shouldOmitEmpty_rel _ _ _ Hv), (Hrec _ _ _ _ Hv).
  case_match; [done|]. apply (grel_bind_eq eq); [by apply grel_refl|]. by intros ? ? <-.
Qed.

Lemma encodeTable_rel b c t t' : trel t t' -> encodeTable e rec b c t = encodeTable e rec b c t'.
Proof.
  intros [H1 H2]. unfold encodeTable, encodeTableInline.
  rewrite (inline_kvs_rel _ _ _ _ _ H1), (Forall2_length _ _ _ H2). case_match; [done|]. case_match.
  rewrite (table_kvs_rel _ _ _ _ _ H1). apply (grel_bind_eq eq); [by apply grel_refl|].
  intros [b' ne] ? <-. by apply table_tables_rel.
Qed.

Lemma encodeMap_rel b c m m1 m' ks :
  Forall2 (fun a b => fst a = fst b /\ vperm (snd a) (snd b)) m m1 -> m1 ≡ₚ m' ->
  mapM string_key m = Some ks -> NoDup ks -> encodeMap Zero e rec b c m = encodeMap Zero e rec b c m'.
Proof.
  intros Hm Hp Hk Hd. transitivity (encodeMap Zero e rec b c m1).
  - unfold encodeMap. apply (grel_bind_eq trel); [apply map_loop_rel; [done|reflexivity]|].
    intros t t' [H1 H2]. apply encodeTable_rel. split; by apply sort_rel.
  - assert (Hk1 : mapM string_key m1 = Some ks).
    { rewrite <- Hk. clear -Hm. induction Hm as [|[k v] [k1 v1] m m1 [Hk _] Hm IH]; [done|].
      cbn in Hk |- *. subst k1. by rewrite IH. }
    assert (H1 := map_loop_sorted c m1 m' ks Hk1 Hd Hp). unfold encodeMap.
    destruct (map_loop Zero c m1 (Tab [] [])) as [t| | |], (map_loop Zero c m' (Tab [] [])) as [t'| | |];
      cbn in H1 |- *; try done; [|by injection H1 as ->]. injection H1 as E1 E2. by rewrite E1, E2.
Qed.

Lemma array_tables_rel scratch vs vs' first b c : Forall2 vperm vs vs' ->
  array_tables rec scratch vs first b c = array_tables rec scratch vs' first b c.
Proof.
  intros Hr. revert first b c. induction Hr as [|x y vs vs' Hv Hr IH]; intros; [done|].
  cbn [array_tables]. rewrite (Hrec _ _ _ _ Hv). apply (grel_bind_eq eq); [by apply grel_refl|]. by intros ? ? <-.
Qed.

Lemma array_elems_rel ml vs vs' first b c : Forall2 vperm vs vs' ->
  array_elems e rec ml vs first b c = array_elems e rec ml vs' first b c.
Proof.
  intros Hr. revert first b c. induction Hr as [|x y vs vs' Hv Hr IH]; intros; [done|].
  cbn [array_elems]. rewrite (Hrec _ _ _ _ Hv). apply (grel_bind_eq eq); [by apply grel_refl|]. by intros ? ? <-.
Qed.

Lemma encodeSlice_rel b c vs vs' : Forall2 vperm vs vs' ->
  encodeSlice Zero e rec b c vs = encodeSlice Zero e rec b c vs'.
Proof.
  intros Hr. unfold encodeSlice. rewrite (Forall2_length _ _ _ Hr). case_match; [done|].
  rewrite (vperm_wc c _ (VSlice vs')) by (by constructor).
  apply (grel_bind_eq eq); [by apply grel_refl|]. intros [] ? <-.
  - by apply array_tables_rel.
  - unfold encodeSliceAsArray. by rewrite (array_elems_rel _ _ _ _ _ _ Hr).
Qed.

Lemma encode_body_rel b c v v' : vperm v v' -> encode_body Zero e rec b c v = encode_body Zero e rec b c v'.
Proof.
  intros Hv. destruct (vperm_has_text _ _ Hv) as [Ht Ht'].
  assert (Hk : encode_kind Zero e rec b c v = encode_kind Zero e rec b c v').
  { inversion Hv as [|m m1 m' ks Hm Hp Hk Hd|fs fs' Hf|vs vs' Hf|x x' Hx|t x x' Hx|]; subst; try done;
      cbn [encode_kind].
    - by eapply encodeMap_rel.
    - apply (grel_bind_eq trel); [by apply walkStruct_rel|]. intros t t'. apply encodeTable_rel.
    - by apply encodeSlice_rel.
    - by apply Hrec.
    - by apply Hrec. }
  assert (He : encode_text Zero e rec b c v = encode_text Zero e rec b c v').
  { unfold encode_text. by rewrite Ht, Ht', Hk. }
  by destruct Hv.
Qed.
End Step.

Lemma encode_vperm n b c v v' : vperm v v' -> encode Zero e n b c v = encode Zero e n b c v'.
Proof.
  revert b c v v'. induction n as [|n IH]; intros b c v v' Hv; [done|].
  cbn [encode]. by apply encode_body_rel.
Qed.

End Order.
(** ** Claims *)

(** A stand-in for Go's floats in examples: integers, printed with a fraction. *)
#[export] Instance Z_float : GoFloat := {|
  float64 := Z; IsNaN := fun _ => false; above_max := fun _ _ => false;
  below_min := fun _ _ => false; is_zero := fun f => f =? 0; integral := fun _ => true;
  FormatFloat := fun f _ _ => Itoa f ++ bs ".0"; ParseFloat64 := fun s => ParseInt s 10 |}.
#[export] Instance ascii_unicode : GoUnicode := {|
  IsLetter := fun c => ((65 <=? c) && (c <=? 90)) || ((97 <=? c) && (c <=? 122));
  IsDigit := fun c => (48 <=? c) && (c <=? 57) |}.

(** C31: [Encode] returns, with the document or with an error, for every encoder
    and every value whose nesting is bounded (counting the zero values behind
    nil pointers) and whose [MarshalText] methods return: the recursion ends,
    and neither the panic on tables nested in an inline table nor the one on
    an invalid reflected value can be reached. *)
Theorem Encode_returns `{GoFloat} `{GoUnicode} {typ} (Zero : typ -> value (typ := typ))
    (e : Encoder) (Write : list Z -> bool) (n : nat) (v : value) :
  fits Zero n v -> returned (Encode Zero e n Write (Some v)).
Proof.
  intros Hv. unfold Encode. apply returned_bind; [by apply encode_returned|].
  intros b. by case_match.
Qed.

(** A struct with an embedded struct, a nil pointer in a slice and a map. *)
Definition sample_zero (_ : unit) : value (typ := unit) := VStruct [].
Definition field (name tag : string) : field_info := FInfo true false (bs name) (bs tag) [].
Definition sample : value (typ := unit) :=
  VStruct [(FInfo true true (bs "Base") [] [], VStruct [(field "ID" "id", VInt 7)]);
           (field "Ptrs" "ptrs", VSlice [VPtr tt None; VPtr tt None]);
           (field "M" "m", VMap (Some [(KString (bs "b"), VInterface (Some (VBool true)));
                                       (KString (bs "a"), VInterface (Some (VString (bs "x"))))]))].

Lemma Encode_returns_witness :
  fits sample_zero 5 sample /\ returned (Encode sample_zero NewEncoder 5 (fun _ => true) (Some sample)).
Proof.
  assert (Hs : fits sample_zero 5 sample) by (repeat (split || constructor)).
  split; [exact Hs|]. exact (Encode_returns sample_zero NewEncoder (fun _ => true) 5 sample Hs).
Defined.

(** C37: The document does not depend on the order in which Go iterates over
    maps: two values that differ in the order of the entries of maps with
    string keys, at any depth, are encoded to the same bytes or to the same
    error. *)
Theorem Encode_map_order `{GoFloat} `{GoUnicode} {typ} (Zero : typ -> value (typ := typ))
    (e : Encoder) (Write : list Z -> bool) (n : nat) (v v' : value) :
  vperm v v' -> Encode Zero e n Write (Some v) = Encode Zero e n Write (Some v').
Proof. intros Hv. unfold Encode. by rewrite (encode_vperm Zero e n [] _ _ _ Hv). Qed.

Lemma Encode_map_order_witness :
  let m : list (map_key * value (typ := unit)) := [(KString (bs "b"), VInt 1); (KString (bs "a"), VBool true)] in
  Encode sample_zero NewEncoder 3 (fun _ => true) (Some (VMap (Some m))) =
  Encode sample_zero NewEncoder 3 (fun _ => true) (Some (VMap (Some (reverse m)))) /\
  Encode sample_zero NewEncoder 3 (fun _ => true) (Some (VMap (Some m))) =
    Ret (bs "a = true" ++ [10] ++ bs "b = 1" ++ [10]).
Proof.
  intros m. split; [|vm_compute; reflexivity].
  apply (Encode_map_order sample_zero NewEncoder (fun _ => true) 3).
  apply (vp_map m m (reverse m) [bs "b"; bs "a"]).
  - repeat constructor.
  - symmetry. apply reverse_Permutation.
  - reflexivity.
  - apply NoDup_ListNoDup. repeat constructor; vm_compute; intros; intuition discriminate.
Defined.

(** A local date that is not addressable, such as a value of a map, is taken
    for a table: it is written without its key. *)
Theorem local_date_loses_key (k : list Z) :
  Marshal sample_zero 3 (Some (VMap (Some [(KString k, VLocalDate false (TomlTime.LDate 1979 5 27))]))) =
  Ret (bs "1979-05-27").
Proof. vm_compute. reflexivity. Qed.

(** A field of type [time.Time] with the option [omitempty] is never written,
    because a struct without exported fields counts as empty. *)
Theorem omitempty_drops_times (t : TomlTime.Time) :
  Marshal sample_zero 3 (Some (VStruct [(field "T" "t,omitempty", VTime t)])) = Ret [].
Proof. vm_compute. reflexivity. Qed.

(** The zero value of [type T struct { A [1]*T }]. *)
Definition loop_zero (_ : unit) : value (typ := unit) :=
  VStruct [(field "A" "a", VSlice [VPtr tt None])].

Lemma loop_walk c : insideKv c = true ->
  walkStruct loop_zero c (VStruct [(field "A" "a", VSlice [VPtr tt None])]) (Tab [] []) =
  Ret (Tab [Ent (bs "a") (VSlice [VPtr tt None]) no_options] []).
Proof.
  intros Hc. cbn [walkStruct].
  assert (Hp : parseTag (f_toml (field "A" "a")) = (bs "a", TOpts false false false false)) by reflexivity.
  assert (Hv : isValidName (bs "a") = true) by reflexivity.
  assert (Hb : bool_decide (f_toml (field "A" "a") = bs "-") = false) by reflexivity.
  unfold embedded, push_field. rewrite Hp, Hv, Hb. cbn [field f_exported f_anonymous negb orb andb].
  rewrite andb_false_r. cbn [isNil t_inline willConvertToTableOrArrayTable]. by rewrite Hc.
Qed.

(** The key-value of the field, when the pointer is not encoded in time. *)
Lemma loop_kv n b c o :
  (forall b c, insideKv c = true -> encode loop_zero NewEncoder n b c (VPtr tt None) = OutOfFuel) ->
  encodeKv NewEncoder (encode loop_zero NewEncoder (S n)) b c o (VSlice [VPtr tt None]) = OutOfFuel.
Proof.
  intros Hrec. unfold encodeKv.
  assert (Hs : forall b c, insideKv c = true ->
    encode loop_zero NewEncoder (S n) b c (VSlice [VPtr tt None]) = OutOfFuel).
  { clear -Hrec. intros b c Hc. cbn [encode]. unfold encode_body, encode_text. cbn [has_text encode_kind].
    unfold encodeSlice. cbn [length Nat.eqb willConvertToTableOrArrayTable]. rewrite Hc.
    cbn [mbind go_mbind go_bind mret go_mret]. unfold encodeSliceAsArray. cbn [array_elems].
    rewrite Hrec; [done|]. by case_match. }
  rewrite Hs; [done|]. cbn [set_options insideKv]. unfold shiftKey. by case_match.
Qed.

Lemma loop_encode n : forall b c,
  insideKv c = true -> encode loop_zero NewEncoder n b c (VPtr tt None) = OutOfFuel.
Proof.
  induction n as [n IH] using lt_wf_ind. intros b c Hc.
  destruct n as [|n]; [done|]. cbn [encode]. unfold encode_body, encode_text. cbn [has_text loop_zero encode_kind].
  destruct n as [|n]; [done|]. cbn [encode]. unfold encode_body, encode_text. cbn [loop_zero has_text encode_kind].
  unfold encodeStruct. rewrite loop_walk by done. cbn [mbind go_mbind go_bind].
  unfold encodeTable. assert (Hs : insideKv (shiftKey c) = true) by (unfold shiftKey; by case_match).
  rewrite Hs. cbn [orb]. unfold encodeTableInline. cbn [kvs inline_kvs]. unfold shouldOmitEmpty.
  cbn [Options no_options o_omitempty andb Value].
  destruct n as [|n]; [done|]. rewrite loop_kv; [done|]. intros b' c' Hc'. apply IH; [lia|done].
Qed.

(** Encoding a value of that type never ends: the zero value behind the nil
    pointer holds a nil pointer of the same type. *)
Theorem recursive_array_diverges (n : nat) :
  Marshal loop_zero n (Some (VMap (Some [(KString (bs "k"), VSlice [VPtr tt None])]))) = OutOfFuel.
Proof.
  unfold Marshal, Encode. destruct n as [|n]; [done|]. cbn [encode].
  unfold encode_body, encode_text. cbn [has_text encode_kind].
  cbv beta iota delta [default from_option id]. unfold encodeMap.
  assert (Hm : map_loop loop_zero (root_ctx NewEncoder) [(KString (bs "k"), VSlice [VPtr tt None])] (Tab [] []) =
    Ret (Tab [Ent (bs "k") (VSlice [VPtr tt None]) no_options] [])) by reflexivity.
  rewrite Hm. cbn [mbind go_mbind go_bind kvs tables sortEntriesByKey foldr insert_entry].
  destruct n as [|n]; [done|]. cbn -[encodeKv encode bs].
  rewrite loop_kv; [done|]. intros b' c' Hc'. by apply loop_encode.
Qed.
End TomlMarshal.
