(* ===== verification/TomlRoundtrip.v ===== *)
(** * What the encoder writes, the parser reads: strings and keys

    [TomlMarshal] and [TomlParser] together, for the three forms in which the encoder
    writes a string: a basic string, a multi-line basic string and a key. [TomlComplete]
    goes on with values, expressions and documents. *)
From stdpp Require Import base numbers list gmap strings.
From S2P Require Import Prelude Utf8 Strconv TomlChars TomlScan TomlDecode TomlTime TomlAst TomlParser TomlMarshal.
#[local] Open Scope Z_scope.

Module TomlRoundtrip.
Export Utf8.
Import Strconv TomlChars TomlScan TomlAst TomlParser TomlMarshal.

(** ** Quoted strings *)

(** The text between the quotes. *)
Definition quoted (ml : bool) (s : list Z) : list Z := s ≫= encodeQuotedChar ml.

Lemma encodeQuotedString_eq ml b s :
  encodeQuotedString ml b s =
  b ++ (if ml then [34; 34; 34; 10] else [34]) ++ quoted ml s ++ (if ml then [34; 34; 34] else [34]).
Proof.
  unfold encodeQuotedString, quoted.
  assert (Hf : forall l a, foldl (fun b r => b ++ encodeQuotedChar ml r) a l = a ++ (l ≫= encodeQuotedChar ml)).
  { induction l as [|c l IH]; intros a; simpl; [by rewrite app_nil_r|].
    rewrite IH. by rewrite <- app_assoc. }
  rewrite Hf. by destruct ml; rewrite <- !app_assoc.
Qed.

(** How one character is written: as it is, as an escape of one letter, or
    with two hexadecimal digits. *)
Inductive unit_of (ml : bool) (cp : Z) : list Z -> Prop :=
| unit_plain : toml_char cp -> cp <> 34 -> cp <> 92 -> cp <> 13 -> (ml = false -> cp <> 10) ->
    unit_of ml cp (utf8_encode cp)
| unit_simple x : simple_escape x = Some cp -> x <> 10 -> x <> 13 -> x <> 32 -> x <> 9 -> byte_ok x ->
    unit_of ml cp [92; x]
| unit_hex h1 h2 : (forall o, hex_loop 5 (Sl o [48; 48; h1; h2]) 0 0 = Ret cp) -> 0 <= cp < 128 ->
    h1 <> 34 -> h1 <> 92 -> h1 <> 10 -> h1 <> 13 -> h2 <> 34 -> h2 <> 92 -> h2 <> 10 -> h2 <> 13 ->
    byte_ok h1 -> byte_ok h2 ->
    unit_of ml cp [92; 117; 48; 48; h1; h2].

Lemma encodeQuotedChar_high ml c : 128 <= c -> encodeQuotedChar ml c = [c].
Proof. intros Hc. unfold encodeQuotedChar. repeat case_match; try lia; done. Qed.

Lemma ascii_unit ml cp : 0 <= cp < 128 -> unit_of ml cp (encodeQuotedChar ml cp).
Proof.
  intros Hcp. rewrite <- (Z2Nat.id cp) by lia. assert (Hn : (Z.to_nat cp < 128)%nat) by lia.
  revert Hn. generalize (Z.to_nat cp). clear. intros n Hn.
  do 128 (destruct n as [|n]; [
    destruct ml;
    match goal with |- unit_of ?m ?c _ =>
      let c' := eval vm_compute in c in let l := eval vm_compute in (encodeQuotedChar m c') in
      change (unit_of m c' l) end;
    first
      [ match goal with |- unit_of ?m ?c _ => change (unit_of m c (utf8_encode c)) end;
        apply unit_plain; [split; [left; lia|lia]|first [lia|by intros [=]]..]
      | apply unit_simple; [reflexivity|lia..|unfold byte_ok; lia]
      | apply unit_hex; [intros o; reflexivity|lia..|unfold byte_ok; lia|unfold byte_ok; lia] ]
   |]). lia.
Qed.

Lemma quoted_encode ml cp : scalar cp -> unit_of ml cp (quoted ml (utf8_encode cp)).
Proof.
  intros Hs. destruct (decide (cp < 128)) as [Hlt|Hge].
  - rewrite utf8_encode_ascii by done. unfold quoted. simpl. rewrite app_nil_r.
    apply ascii_unit. destruct Hs; lia.
  - assert (Hq : quoted ml (utf8_encode cp) = utf8_encode cp).
    { destruct (utf8_encode_bytes cp Hs) as [[E ?]|E]; [lia|]. unfold quoted. revert E.
      generalize (utf8_encode cp). induction 1 as [|c l Hc E IH]; [done|].
      rewrite bind_cons, IH, encodeQuotedChar_high by lia. done. }
    rewrite Hq. apply unit_plain; try lia. split; [done|]. lia.
Qed.

Lemma quoted_app ml a b : quoted ml (a ++ b) = quoted ml a ++ quoted ml b.
Proof. apply bind_app. Qed.

(** The scanner sees the units of a basic string. *)
Lemma unit_basic cp u : unit_of false cp u -> scalar cp -> exists e, basic_units u e.
Proof.
  intros Hu Hs. destruct Hu as [Hc H1 H2 H3 H4|x Hx H1 H2 H3 H4 Hb|h1 h2 Hx Hc].
  - exists false. specialize (H4 eq_refl).
    destruct (utf8_encode_bytes cp Hs) as [[-> ?]|E]; [by repeat constructor|].
    clear -E. induction E as [|c l Hc E IH]; [constructor|]. constructor; [done|lia..].
  - exists true. apply (bu_escape _ false). constructor.
  - exists true. eapply bu_escape. repeat (constructor; try lia).
Qed.

(** Reading the units back. [basic_loop] is at the index [i] of the token. *)
Lemma escape_simple token hex x cp i :
  simple_escape x = Some cp -> escape token hex x i = Ret ([cp], i).
Proof. intros Hx. unfold escape. by rewrite Hx. Qed.

Lemma hexToRune_unit o h1 h2 q cp :
  (forall o, hex_loop 5 (Sl o [48; 48; h1; h2]) 0 0 = Ret cp) -> 0 <= cp < 128 ->
  hexToRune (Sl o (48 :: 48 :: h1 :: h2 :: q)) 4 = Ret cp.
Proof.
  intros Hx Hc. unfold hexToRune. cbn [dat length Nat.ltb Nat.leb]. rewrite s_to_eq by (simpl; lia).
  cbn [mbind go_mbind go_bind off dat take length]. rewrite take_0, Hx. cbn.
  destruct (Z.ltb_spec 1114111 cp); [lia|]. destruct (Z.leb_spec 55296 cp); [lia|]. done.
Qed.

Lemma unescaped_char o token cp q i :
  toml_char cp -> Forall byte_ok (dat token) -> off token = o ->
  drop i (dat token) = utf8_encode cp ++ q -> (i <= slen token)%nat ->
  exists c, dat token !! i = Some c /\ (cp <> 92 -> c <> 92) /\
  unescaped token c i = Ret (utf8_encode cp, length (utf8_encode cp)).
Proof.
  intros Hc Hb Ho Hd Hi. destruct (encode_head cp Hc) as (c & l & E & Hcl).
  exists c. rewrite E in Hd. split; [by eapply lookup_of_drop|]. split; [lia|].
  unfold unescaped. rewrite s_from_eq by done. cbn [mbind go_mbind go_bind dat].
  rewrite Utf8ValidNext_next_size; [|by apply Forall_drop|by rewrite Hd].
  rewrite Hd, <- E, next_size_encode by done. cbn [mbind go_mbind go_bind].
  pose proof (utf8_encode_nonempty cp). rewrite (proj2 (Nat.eqb_neq _ _)) by lia.
  pose proof (drop_len _ _ _ Hi Hd) as Hl. rewrite E in *. simpl in Hl. rewrite length_app in Hl.
  rewrite s_sub_eq by (simpl in *; lia). cbn [mbind go_mbind go_bind dat]. rewrite Hd.
  replace (i + length (c :: l) - i)%nat with (length (c :: l)) by lia.
  by rewrite (take_app_length (c :: l)).
Qed.

Lemma unit_cons ml cp cps : scalar cp ->
  exists u, unit_of ml cp u /\ (0 < length u)%nat /\
  quoted ml (text (cp :: cps)) = u ++ quoted ml (text cps).
Proof.
  intros Hs. eexists. split; [by apply quoted_encode|]. unfold text. cbn [fmap list_fmap concat].
  rewrite quoted_app. split; [|done]. destruct (quoted_encode ml cp Hs); simpl; try lia.
  apply utf8_encode_nonempty.
Qed.

Lemma basic_loop_units token cps : forall fuel builder i,
  Forall scalar cps -> Forall byte_ok (dat token) -> (i <= slen token)%nat ->
  drop i (dat token) = quoted false (text cps) ++ [34] -> (length (quoted false (text cps)) < fuel)%nat ->
  basic_loop fuel token builder i = Ret (builder ++ text cps).
Proof.
  induction cps as [|cp cps IH]; intros fuel builder i Hs Hb Hi Hd Hf;
    (destruct fuel as [|fuel]; [lia|]); cbn [basic_loop]; pose proof (drop_len _ _ _ Hi Hd) as Hl;
    rewrite length_app in Hl; simpl in Hl.
  { rewrite (proj2 (Nat.ltb_ge _ _)) by lia. by rewrite app_nil_r. }
  apply Forall_cons in Hs as [Hcp Hs]. destruct (unit_cons false cp cps Hcp) as (u & Hu & Hpos & E).
  rewrite E, length_app in Hl, Hf. rewrite E, <- app_assoc in Hd.
  rewrite (proj2 (Nat.ltb_lt _ _)) by lia.
  assert (Hnext : forall w, w = utf8_encode cp ->
    basic_loop fuel token (builder ++ w) (i + length u) = Ret (builder ++ text (cp :: cps))).
  { intros w ->. rewrite (IH _ _ (i + length u)%nat); [by rewrite <- app_assoc|done..|lia|by apply drop_step in Hd|lia]. }
  destruct Hu as [Hc H1 H2 H3 H4|x Hx H1 H2 H3 H4 Hbx|h1 h2 Hx Hc Hh].
  - destruct (unescaped_char (off token) token cp _ i Hc Hb eq_refl Hd Hi) as (c & Ec & Hne & Eu).
    rewrite (s_at_eq _ _ _ Ec). cbn [mbind go_mbind go_bind].
    rewrite (proj2 (Z.eqb_neq _ _)) by auto. rewrite Eu. cbn [mbind go_mbind go_bind]. by apply Hnext.
  - rewrite (s_at_eq _ _ _ (lookup_of_drop _ _ _ _ Hd)). cbn [mbind go_mbind go_bind Z.eqb Pos.eqb].
    pose proof (drop_step _ [92] _ _ Hd) as Hd1. rewrite (s_at_eq _ _ _ (lookup_of_drop _ _ _ _ Hd1)).
    cbn [mbind go_mbind go_bind]. rewrite (escape_simple _ _ _ _ _ Hx). cbn [mbind go_mbind go_bind].
    replace (i + 1 + 1)%nat with (i + 2)%nat by lia. apply Hnext.
    symmetry. apply utf8_encode_ascii. by apply simple_escape_ascii in Hx as [_ ?].
  - rewrite (s_at_eq _ _ _ (lookup_of_drop _ _ _ _ Hd)). cbn [mbind go_mbind go_bind Z.eqb Pos.eqb].
    pose proof (drop_step _ [92] _ _ Hd) as Hd1. rewrite (s_at_eq _ _ _ (lookup_of_drop _ _ _ _ Hd1)).
    cbn [mbind go_mbind go_bind]. unfold escape at 1.
    pose proof (drop_step _ [92; 117] _ _ Hd) as Hd2. simpl length in Hd2, Hl, Hf.
    cbn [simple_escape Z.eqb Pos.eqb orb].
    rewrite s_sub_eq by lia. replace (i + 1 + 1)%nat with (i + 2)%nat by lia. rewrite Hd2.
    cbn [mbind go_mbind go_bind]. set (k := (slen token - 1 - (i + 2))%nat).
    replace k with (4 + (k - 4))%nat by (unfold k; lia). cbn [app Nat.add take].
    rewrite hexToRune_unit with (cp := cp) by done. cbn [mbind go_mbind go_bind mret go_mret].
    replace (i + 1 + 4 + 1)%nat with (i + 6)%nat by lia.
    by apply Hnext.
Qed.

(** [reads m txt v follow]: [m] reads the text [txt], when what follows it is
    allowed, as the value [v]. *)
Definition reads (m : slice -> go ParserError (slice * data * slice)) (txt v : list Z)
    (follow : list Z -> Prop) : Prop :=
  forall o rest, follow rest -> Forall byte_ok rest ->
    exists d, m (Sl o (txt ++ rest)) = Ret (Sl o txt, d, Sl (o + length txt) rest) /\ dbytes d = v.

Lemma unit_bytes ml cp u : unit_of ml cp u -> scalar cp -> Forall byte_ok u.
Proof.
  intros Hu Hs. destruct Hu; [by apply utf8_encode_byte_ok|..];
    repeat (constructor; [try done; unfold byte_ok; lia|]); constructor.
Qed.

Lemma quoted_bytes ml cps : Forall scalar cps -> Forall byte_ok (quoted ml (text cps)).
Proof.
  induction 1 as [|cp cps Hcp Hs IH]; [constructor|]. destruct (unit_cons ml cp cps Hcp) as (u & Hu & _ & ->).
  apply Forall_app. split; [by eapply unit_bytes|done].
Qed.

Lemma quoted_basic_units cps : Forall scalar cps -> exists e, basic_units (quoted false (text cps)) e.
Proof.
  induction 1 as [|cp cps Hcp Hs [e IH]]; [exists false; constructor|].
  destruct (unit_cons false cp cps Hcp) as (u & Hu & _ & ->). destruct (unit_basic _ _ Hu Hcp) as [e' He'].
  eexists. by apply basic_units_app.
Qed.

(** Without escapes the text is the string itself. *)
Lemma quoted_plain ml cps : Forall scalar cps -> basic_units (quoted ml (text cps)) false -> 
  quoted ml (text cps) = text cps /\ Forall toml_char cps.
Proof.
  induction 1 as [|cp cps Hcp Hs IH]; [done|]. destruct (unit_cons ml cp cps Hcp) as (u & Hu & _ & ->).
  intros Hb. destruct Hu as [Hc| |]; [|by inversion Hb..].
  assert (Hb' : basic_units (quoted ml (text cps)) false).
  { clear -Hb. induction (utf8_encode cp) as [|c l IH]; [done|]. inversion Hb; subst. by apply IH. }
  destruct (IH Hb') as [-> Hc']. split; [done|by constructor].
Qed.

Lemma valid_text {E} cps : Forall toml_char cps ->
  exists e, @Utf8TomlValidAlreadyEscaped E (text cps) = Ret e /\ TomlChars.Zero e = true.
Proof.
  intros Hc. assert (Hb : Forall byte_ok (text cps)).
  { unfold text. induction Hc as [|cp cps [Hcp _] _ IH]; [constructor|]. cbn [fmap list_fmap concat].
    apply Forall_app. split; [by apply utf8_encode_byte_ok|done]. }
  destruct (@Utf8TomlValid_scan E _ Hb) as (e & He & Hs). exists e. split; [done|].
  unfold TomlChars.Zero. apply Nat.eqb_eq. destruct Hs as [[H0 _]|(H0 & Hl & Hn & Ht & Hd)]; [done|].
  exfalso. apply Hn. by exists cps.
Qed.

Lemma parseBasicString_quoted cps : Forall scalar cps ->
  reads parseBasicString (encodeQuotedString false [] (text cps)) (text cps) (fun _ => True).
Proof.
  intros Hs o rest _ Hr. rewrite encodeQuotedString_eq. cbn [app].
  destruct (quoted_basic_units cps Hs) as [e He]. set (q := quoted false (text cps)) in *.
  unfold parseBasicString, scanBasicString.
  rewrite (scanBasicString_find _ _ 1 q false e rest); [|simpl; lia|done|simpl; by rewrite drop_0, <- app_assoc|
    simpl; rewrite !length_app; simpl; lia].
  cbn [mbind go_mbind go_bind split_at off dat orb].
  assert (E1 : take (1 + length q + 1) (34 :: (q ++ [34]) ++ rest) = 34 :: q ++ [34]).
  { replace (1 + length q + 1)%nat with (S (length (q ++ [34]))) by (rewrite length_app; simpl; lia).
    cbn [take]. by rewrite take_app_length. }
  assert (E2 : drop (1 + length q + 1) (34 :: (q ++ [34]) ++ rest) = rest).
  { replace (1 + length q + 1)%nat with (S (length (q ++ [34]))) by (rewrite length_app; simpl; lia).
    cbn [drop]. by rewrite drop_app_length. }
  rewrite E1, E2. set (tok := Sl o (34 :: q ++ [34])).
  assert (Ho : (o + (1 + length q + 1))%nat = (o + slen tok)%nat) by (simpl; rewrite length_app; simpl; lia).
  rewrite Ho. assert (Ht : slen tok = (2 + length q)%nat) by (simpl; rewrite length_app; simpl; lia).
  change (length (34%Z :: q ++ [34%Z])) with (slen tok).
  destruct e; cbn [negb].
  - rewrite (basic_loop_units tok cps); [by eexists|done| |lia|done|fold q; lia].
    unfold tok. cbn [dat]. constructor; [unfold byte_ok; lia|]. apply Forall_app.
    split; [by apply quoted_bytes|repeat constructor; unfold byte_ok; lia].
  - destruct (quoted_plain false cps Hs He) as [Eq Hc]. fold q in Eq.
    rewrite s_sub_eq by lia. cbn [mbind go_mbind go_bind].
    assert (Eb : take (slen tok - 1 - 1) (drop 1 (dat tok)) = text cps).
    { replace (slen tok - 1 - 1)%nat with (length q) by lia. rewrite <- Eq. apply take_app_length. }
    rewrite Eb. cbn [dat].
    destruct (@valid_text ParserError cps Hc) as (err & -> & Hz). cbn [mbind go_mbind go_bind]. rewrite Hz. by eexists.
Qed.

(** ** Multi-line strings *)

(** The contents that the scanner of multi-line strings passes over. *)
Inductive ml_units : list Z -> bool -> Prop :=
| mu_nil : ml_units [] false
| mu_plain body e c : ml_units body e -> c <> 34 -> c <> 92 -> c <> 13 -> ml_units (c :: body) e
| mu_escape body e c : ml_units body e -> ml_units (92 :: c :: body) true.

Lemma ml_units_app l1 e1 l2 e2 : ml_units l1 e1 -> ml_units l2 e2 -> ml_units (l1 ++ l2) (e1 || e2).
Proof. intros H1 H2. induction H1; simpl; [done|by constructor|by econstructor]. Qed.

Definition not_quote (rest : list Z) : Prop := head rest <> Some 34.

Lemma scan_ml_end_stop format b i :
  (i <= slen b)%nat -> not_quote (drop i (dat b)) -> scan_ml_end 34 format b i = Ret (split_at b i).
Proof.
  intros Hi Hq. unfold scan_ml_end.
  assert (Hm : (if (slen b <=? i)%nat then mret false else c ← s_at b i; mret (c =? 34)) = @Ret ParserError _ false).
  { destruct (Nat.leb_spec (slen b) i) as [|Hlt]; [done|].
    destruct (lookup_lt_is_Some_2 (dat b) i Hlt) as [c Hc]. rewrite (s_at_eq _ _ _ Hc). cbn.
    destruct (Z.eqb_spec c 34) as [->|]; [|done]. exfalso. apply Hq.
    by rewrite (drop_S _ _ _ Hc). }
  rewrite Hm. cbn [mbind go_mbind go_bind negb]. rewrite s_to_eq, s_from_eq by done. done.
Qed.

Lemma scanMultilineBasicString_find fuel b i body e0 e rest :
  (i <= slen b)%nat -> ml_units body e -> drop i (dat b) = body ++ 34 :: 34 :: 34 :: rest ->
  not_quote rest -> (length body < fuel)%nat ->
  scanMultilineBasicString_loop fuel b e0 i =
    Ret (let '(t, r) := split_at b (i + length body + 3) in (t, e0 || e, r)).
Proof.
  intros Hi Hu. revert fuel e0 i Hi. induction Hu as [|body e c Hu IH H1 H2 H3|body e c Hu IH];
    intros fuel e0 i Hi Hd Hq Hl; (destruct fuel as [|fuel]; [simpl in Hl; lia|]);
    cbn [scanMultilineBasicString_loop];
    pose proof (drop_len _ _ _ Hi Hd) as Hlen; rewrite !length_app in Hlen; simpl in Hlen, Hd, Hl;
    rewrite (proj2 (Nat.ltb_lt _ _)) by lia; rewrite (s_at_eq _ _ _ (lookup_of_drop _ _ _ _ Hd));
    cbn [mbind go_mbind go_bind].
  - cbn [Z.eqb Pos.eqb]. rewrite s_from_eq by lia. cbn [mbind go_mbind go_bind].
    rewrite Hd. assert (Hf : forall o, scanFollowsMultilineBasicStringDelimiter (Sl o (34 :: 34 :: 34 :: rest)) = true).
    { intros o. by destruct rest. }
    rewrite Hf, scan_ml_end_stop; [|lia|by rewrite (drop_step _ [34; 34; 34] rest i Hd : drop (i + 3) (dat b) = rest)].
    cbn [mbind go_mbind go_bind split_at length]. by rewrite orb_false_r, Nat.add_0_r.
  - destruct (Z.eqb_spec c 34), (Z.eqb_spec c 13), (Z.eqb_spec c 92); try lia.
    rewrite IH; [|lia|by apply (drop_step _ [c]) in Hd|done|lia].
    f_equal. by replace (i + 1 + length body + 3)%nat with (i + S (length body) + 3)%nat by lia.
  - cbn [Z.eqb Pos.eqb]. rewrite (proj2 (Nat.ltb_ge _ _)) by lia.
    rewrite IH; [|lia|by apply (drop_step _ [92; c]) in Hd|done|lia].
    rewrite orb_true_r. simpl.
    by replace (i + 2 + length body + 3)%nat with (i + S (S (length body)) + 3)%nat by lia.
Qed.

Lemma unit_ml cp u : unit_of true cp u -> scalar cp -> exists e, ml_units u e.
Proof.
  intros Hu Hs. destruct Hu as [Hc H1 H2 H3 _|x Hx H1 H2 H3 H4 Hb|h1 h2 Hx Hc].
  - exists false. destruct (utf8_encode_bytes cp Hs) as [[-> ?]|E]; [by repeat constructor|].
    clear -E. induction E as [|c l Hc E IH]; [constructor|]. constructor; [done|lia..].
  - exists true. apply (mu_escape _ false). constructor.
  - exists true. eapply mu_escape. repeat (constructor; try lia).
Qed.

Lemma quoted_ml_units cps : Forall scalar cps -> exists e, ml_units (quoted true (text cps)) e.
Proof.
  induction 1 as [|cp cps Hcp Hs [e IH]]; [exists false; constructor|].
  destruct (unit_cons true cp cps Hcp) as (u & Hu & _ & ->). destruct (unit_ml _ _ Hu Hcp) as [e' He'].
  eexists. by apply ml_units_app.
Qed.

Lemma quoted_ml_plain cps : Forall scalar cps -> ml_units (quoted true (text cps)) false ->
  quoted true (text cps) = text cps /\ Forall toml_char cps.
Proof.
  induction 1 as [|cp cps Hcp Hs IH]; [done|]. destruct (unit_cons true cp cps Hcp) as (u & Hu & _ & ->).
  intros Hb. destruct Hu as [Hc| |]; [|by inversion Hb..].
  assert (Hb' : ml_units (quoted true (text cps)) false).
  { clear -Hb. induction (utf8_encode cp) as [|c l IH]; [done|]. inversion Hb; subst. by apply IH. }
  destruct (IH Hb') as [-> Hc']. split; [done|by constructor].
Qed.

Lemma find_eol_letter token i x :
  dat token !! (i + 1)%nat = Some x -> (i + 1 < slen token - 3)%nat ->
  x <> 10 -> x <> 13 -> x <> 32 -> x <> 9 -> find_eol (S (slen token)) token i 1 = Ret (false, 1%nat).
Proof.
  intros Hx Hi H1 H2 H3 H4. cbn [find_eol]. rewrite (proj2 (Nat.ltb_lt _ _)) by done.
  rewrite (s_at_eq _ _ _ Hx). cbn [mbind go_mbind go_bind].
  destruct (Z.eqb_spec x 32), (Z.eqb_spec x 9), (Z.eqb_spec x 13), (Z.eqb_spec x 10); try done.
Qed.

Lemma ml_basic_loop_units token cps : forall fuel builder i,
  Forall scalar cps -> Forall byte_ok (dat token) -> (i <= slen token)%nat ->
  drop i (dat token) = quoted true (text cps) ++ [34; 34; 34] -> (length (quoted true (text cps)) < fuel)%nat ->
  ml_basic_loop fuel token builder i = Ret (builder ++ text cps).
Proof.
  induction cps as [|cp cps IH]; intros fuel builder i Hs Hb Hi Hd Hf;
    (destruct fuel as [|fuel]; [lia|]); cbn [ml_basic_loop]; pose proof (drop_len _ _ _ Hi Hd) as Hl;
    rewrite length_app in Hl; simpl in Hl.
  { rewrite (proj2 (Nat.ltb_ge _ _)) by lia. by rewrite app_nil_r. }
  apply Forall_cons in Hs as [Hcp Hs]. destruct (unit_cons true cp cps Hcp) as (u & Hu & Hpos & E).
  rewrite E, length_app in Hl, Hf. rewrite E, <- app_assoc in Hd.
  rewrite (proj2 (Nat.ltb_lt _ _)) by lia.
  assert (Hnext : forall w, w = utf8_encode cp ->
    ml_basic_loop fuel token (builder ++ w) (i + length u) = Ret (builder ++ text (cp :: cps))).
  { intros w ->. rewrite (IH _ _ (i + length u)%nat); [by rewrite <- app_assoc|done..|lia|by apply drop_step in Hd|lia]. }
  destruct Hu as [Hc H1 H2 H3 H4|x Hx H1 H2 H3 H4 Hbx|h1 h2 Hx Hc Hh].
  - destruct (unescaped_char (off token) token cp _ i Hc Hb eq_refl Hd Hi) as (c & Ec & Hne & Eu).
    rewrite (s_at_eq _ _ _ Ec). cbn [mbind go_mbind go_bind].
    rewrite (proj2 (Z.eqb_neq _ _)) by auto. rewrite Eu. cbn [mbind go_mbind go_bind]. by apply Hnext.
  - rewrite (s_at_eq _ _ _ (lookup_of_drop _ _ _ _ Hd)). cbn [mbind go_mbind go_bind Z.eqb Pos.eqb].
    pose proof (lookup_of_drop _ _ _ _ (drop_step _ [92] _ _ Hd)) as Hx1. simpl length in Hx1, Hl.
    rewrite (find_eol_letter _ _ _ Hx1), (s_at_eq _ _ _ Hx1) by (try done; lia).
    cbn [mbind go_mbind go_bind]. rewrite (escape_simple _ _ _ _ _ Hx). cbn [mbind go_mbind go_bind].
    replace (i + 1 + 1)%nat with (i + 2)%nat by lia. apply Hnext.
    symmetry. apply utf8_encode_ascii. by apply simple_escape_ascii in Hx as [_ ?].
  - rewrite (s_at_eq _ _ _ (lookup_of_drop _ _ _ _ Hd)). cbn [mbind go_mbind go_bind Z.eqb Pos.eqb].
    pose proof (lookup_of_drop _ _ _ _ (drop_step _ [92] _ _ Hd)) as Hx1. simpl length in Hx1, Hl, Hf.
    rewrite (find_eol_letter _ _ _ Hx1), (s_at_eq _ _ _ Hx1) by (try done; lia).
    cbn [mbind go_mbind go_bind]. unfold escape at 1.
    pose proof (drop_step _ [92; 117] _ _ Hd) as Hd2. simpl length in Hd2.
    cbn [simple_escape Z.eqb Pos.eqb orb].
    replace (i + 1 + 1)%nat with (i + 2)%nat by lia. rewrite s_from_eq by lia. rewrite Hd2.
    cbn [mbind go_mbind go_bind]. unfold atmost. rewrite (proj2 (Nat.leb_gt _ _)) by (simpl; rewrite length_app; simpl; lia).
    rewrite s_to_eq by (simpl; lia). cbn [mbind go_mbind go_bind app take dat off].
    rewrite hexToRune_unit with (cp := cp) by done. cbn [mbind go_mbind go_bind mret go_mret].
    replace (i + 1 + 4 + 1)%nat with (i + 6)%nat by lia.
    by apply Hnext.
Qed.

Lemma parseMultilineBasicString_quoted cps : Forall scalar cps ->
  reads parseMultilineBasicString (encodeQuotedString true [] (text cps)) (text cps) not_quote.
Proof.
  intros Hs o rest Hq Hr. rewrite encodeQuotedString_eq. cbn [app].
  destruct (quoted_ml_units cps Hs) as [e He]. set (q := quoted true (text cps)) in *.
  unfold parseMultilineBasicString, scanMultilineBasicString.
  set (tok := Sl o (34 :: 34 :: 34 :: 10 :: q ++ [34; 34; 34])).
  assert (Ht : slen tok = (7 + length q)%nat) by (simpl; rewrite length_app; simpl; lia).
  rewrite (scanMultilineBasicString_find _ _ 3 (10 :: q) false e rest);
    [|simpl; lia|by constructor|simpl; by rewrite <- app_assoc|done|simpl; rewrite !length_app; simpl; lia].
  cbn [mbind go_mbind go_bind split_at off dat orb].
  assert (El : (3 + length (10%Z :: q) + 3)%nat = slen tok) by (rewrite Ht; simpl; lia).
  rewrite El. change (34 :: 34 :: 34 :: 10 :: (q ++ [34; 34; 34]) ++ rest) with (dat tok ++ rest).
  rewrite take_app_length, drop_app_length. change (Sl o (dat tok)) with tok.
  change (length (34%Z :: 34%Z :: 34%Z :: 10%Z :: q ++ [34%Z; 34%Z; 34%Z])) with (slen tok).
  change (34 :: 34 :: 34 :: 10 :: q ++ [34; 34; 34]) with (dat tok).
  assert (Hsk : skip_newline tok = Ret 4%nat) by (unfold skip_newline; by rewrite (s_at_eq tok 3 10)).
  rewrite Hsk. cbn [mbind go_mbind go_bind].
  destruct e; cbn [negb].
  - rewrite (ml_basic_loop_units tok cps); [by eexists|done| |lia|done|fold q; lia].
    unfold tok. cbn [dat]. repeat (constructor; [unfold byte_ok; lia|]). apply Forall_app.
    split; [by apply quoted_bytes|repeat constructor; unfold byte_ok; lia].
  - destruct (quoted_ml_plain cps Hs He) as [Eq Hc]. fold q in Eq.
    rewrite s_sub_eq by lia. cbn [mbind go_mbind go_bind].
    assert (Eb : take (slen tok - 3 - 4) (drop 4 (dat tok)) = text cps).
    { replace (slen tok - 3 - 4)%nat with (length q) by lia. rewrite <- Eq. apply take_app_length. }
    rewrite Eb. cbn [dat].
    destruct (@valid_text ParserError cps Hc) as (err & -> & Hz). cbn [mbind go_mbind go_bind]. rewrite Hz. by eexists.
Qed.

(** ** Keys *)

(** A key written without quotes is made of the characters of bare keys. *)
Lemma bare_key_bytes k : Forall byte_ok k -> forallb bare_rune (runes k) = true ->
  Forall (fun c => isUnquotedKeyChar c = true) k.
Proof.
  intros Hb Hr. unfold runes in Hr. rewrite forallb_forall in Hr.
  assert (E : runes_fuel (length k) k = k).
  { apply runes_fuel_ascii; [done|lia|]. apply Forall_forall. intros r Hx. apply list_elem_of_In in Hx.
    specialize (Hr r Hx). unfold bare_rune in Hr. lia. }
  rewrite E in Hr. apply Forall_forall. intros c Hc. apply list_elem_of_In in Hc. specialize (Hr c Hc).
  unfold bare_rune, isUnquotedKeyChar in *. lia.
Qed.

(** What may follow a bare key. *)
Definition key_end (rest : list Z) : Prop :=
  match rest with [] => True | c :: _ => isUnquotedKeyChar c = false end.

(** Scanning a class of bytes stops where the class ends. *)
Lemma scan_class_find ok fuel b i body rest :
  (i <= slen b)%nat -> drop i (dat b) = body ++ rest -> Forall (fun c => ok c = true) body ->
  match rest with [] => True | c :: _ => ok c = false end -> (length body < fuel)%nat ->
  scan_class ok fuel b i = Ret (split_at b (i + length body)).
Proof.
  revert i body. induction fuel as [|fuel IH]; intros i body Hi Hd Hb Hr Hf; [lia|]. cbn [scan_class].
  pose proof (drop_len _ _ _ Hi Hd) as Hl. rewrite length_app in Hl.
  destruct body as [|c body].
  - cbn [app length] in Hd, Hl |- *. rewrite Nat.add_0_r. destruct rest as [|c rest]; simpl in Hl.
    + rewrite (proj2 (Nat.ltb_ge _ _)) by lia. rewrite s_from_eq by lia. cbn.
      unfold split_at. replace i with (slen b) by lia. rewrite firstn_all. by destruct b.
    + rewrite (proj2 (Nat.ltb_lt _ _)) by lia. rewrite (s_at_eq _ _ _ (lookup_of_drop _ _ _ _ Hd)).
      cbn [mbind go_mbind go_bind]. rewrite Hr. cbn [negb]. rewrite s_to_eq, s_from_eq by lia. done.
  - apply Forall_cons in Hb as [Hc Hb]. simpl in Hl, Hf. rewrite (proj2 (Nat.ltb_lt _ _)) by lia.
    rewrite (s_at_eq _ _ _ (lookup_of_drop _ _ _ _ Hd)). cbn [mbind go_mbind go_bind]. rewrite Hc. cbn [negb].
    rewrite (IH (i + 1)%nat body); [|lia|by apply (drop_step _ [c]) in Hd|done..|lia].
    simpl length. by replace (i + 1 + length body)%nat with (i + S (length body))%nat by lia.
Qed.

Lemma split_token o txt rest :
  split_at (Sl o (txt ++ rest)) (length txt) = (Sl o txt, Sl (o + length txt) rest).
Proof. unfold split_at. cbn [off dat]. by rewrite take_app_length, drop_app_length. Qed.

Lemma encodeKey_eq b k : encodeKey b k = b ++ encodeKey [] k.
Proof.
  unfold encodeKey, encodeUnquotedKey. case_match; [done|]. case_match; [done|].
  by rewrite !encodeQuotedString_eq.
Qed.

Lemma parseSimpleKey_encoded cps : Forall scalar cps ->
  reads parseSimpleKey (encodeKey [] (text cps)) (text cps) key_end.
Proof.
  intros Hs o rest Hr Hb. pose proof (text_bytes cps Hs) as Hk. unfold encodeKey.
  destruct (length (text cps) =? 0)%nat eqn:E0.
  { apply Nat.eqb_eq, length_zero_iff_nil in E0. rewrite E0. unfold parseSimpleKey.
    cbn [app dat length Nat.eqb]. rewrite (s_at_eq _ 0 39) by done. cbn [mbind go_mbind go_bind Z.eqb Pos.eqb].
    unfold parseLiteralString, scanLiteralString.
    rewrite (scanLiteralString_find _ _ 1 [] rest);
      [|repeat (constructor; [unfold byte_ok; lia|]); done|simpl; lia|constructor|constructor|done|simpl; lia].
    exists (InDoc (Sl (o + 1) [])). split; [|done]. cbn. by rewrite take_0, drop_0. }
  destruct (forallb bare_rune (runes (text cps))) eqn:Eb.
  - unfold encodeUnquotedKey. cbn [app]. pose proof (bare_key_bytes _ Hk Eb) as Hu.
    unfold parseSimpleKey, scanUnquotedKey.
    rewrite (scan_class_find _ _ _ 0 (text cps) rest); [|lia|done|done|done|simpl; rewrite length_app; lia].
    destruct (text cps) as [|c k] eqn:Ek; [done|]. apply Forall_cons in Hu as [Hc _].
    cbn [app dat length Nat.eqb]. rewrite (s_at_eq _ 0 c) by done. cbn [mbind go_mbind go_bind].
    rewrite Hc. unfold isUnquotedKeyChar in Hc.
    destruct (Z.eqb_spec c 39); [lia|]. destruct (Z.eqb_spec c 34); [lia|]. cbn [Nat.add].
    change (c :: k ++ rest) with ((c :: k) ++ rest). change (S (length k)) with (length (c :: k)).
    rewrite (split_token o (c :: k) rest). cbn [mbind go_mbind go_bind]. by eexists.
  - destruct (parseBasicString_quoted cps Hs o rest I Hb) as (d & E & Hd). exists d. split; [|done].
    rewrite <- E. rewrite encodeQuotedString_eq. unfold parseSimpleKey. cbn [app dat length Nat.eqb].
    by rewrite (s_at_eq _ 0 34).
Qed.

(** ** Claims *)

(** C18: What the encoder writes for a string, in quotes or in three quotes over
    several lines, and for a key, bare or quoted, the parser reads back as
    that string: all Unicode text, control characters, quotes and backslashes
    included, and it stops at the end of the token. *)
Theorem encoded_strings_read (cps : list Z) (o : nat) (rest : list Z) :
  Forall scalar cps -> Forall byte_ok rest ->
  (exists d, parseBasicString (Sl o (encodeQuotedString false [] (text cps) ++ rest)) =
     Ret (Sl o (encodeQuotedString false [] (text cps)), d,
          Sl (o + length (encodeQuotedString false [] (text cps))) rest) /\ dbytes d = text cps) /\
  (not_quote rest ->
   exists d, parseMultilineBasicString (Sl o (encodeQuotedString true [] (text cps) ++ rest)) =
     Ret (Sl o (encodeQuotedString true [] (text cps)), d,
          Sl (o + length (encodeQuotedString true [] (text cps))) rest) /\ dbytes d = text cps) /\
  (key_end rest ->
   exists d, parseSimpleKey (Sl o (encodeKey [] (text cps) ++ rest)) =
     Ret (Sl o (encodeKey [] (text cps)), d, Sl (o + length (encodeKey [] (text cps))) rest) /\
     dbytes d = text cps).
Proof.
  intros Hs Hr. split_and!.
  - by apply parseBasicString_quoted.
  - intros Hq. by apply parseMultilineBasicString_quoted.
  - intros Hk. by apply parseSimpleKey_encoded.
Qed.

Lemma encoded_strings_read_witness :
  exists d, parseSimpleKey (Sl 5 (encodeKey [] (text [34; 8364; 7]) ++ bs " = 1")) =
    Ret (Sl 5 (encodeKey [] (text [34; 8364; 7])), d,
         Sl (5 + length (encodeKey [] (text [34; 8364; 7]))) (bs " = 1")) /\
  dbytes d = text [34; 8364; 7].
Proof.
  apply (encoded_strings_read [34; 8364; 7] 5 (bs " = 1")).
  - repeat (constructor; [unfold scalar; lia|]). constructor.
  - apply bytes_ok. vm_compute. reflexivity.
  - vm_compute. reflexivity.
Defined.

End TomlRoundtrip.
