(* ===== verification/TomlComplete.v ===== *)
(** * Texts that the parser accepts

    The other direction of the specifications of [TomlParser]: for keys,
    values, key-values, table headers and whole documents written in the forms
    that the encoder uses, every step of the parser succeeds and pushes the
    expected tree. *)
From stdpp Require Import base numbers list gmap strings.
From S2P Require Import Prelude Strconv TomlChars TomlScan TomlDecode TomlTime TomlAst TomlParser TomlMarshal TomlRoundtrip.
#[local] Open Scope Z_scope.

Module TomlComplete.
Import Strconv TomlChars TomlScan TomlAst TomlParser TomlRoundtrip.
Abbreviation encodeKey := TomlMarshal.encodeKey.

(** A tree without the places of its nodes. *)
Inductive shape := Sh (k : Kind) (d : list Z) (cs : list shape).

Definition is_container (k : Kind) : bool :=
  match k with Array | InlineTable | KeyValue | Table | ArrayTable => true | _ => false end.

Fixpoint shape_of (t : tree) : shape :=
  let 'T k r d cs := t in Sh k (if is_container k then [] else dbytes d) (map shape_of cs).

(** A line of a document and the tree of its expression. *)
Abbreviation line := (list Z * option shape)%type.

(** No error. *)
Definition never : ParserError -> Prop := fun _ => False.

(** What is left of [b] after the text [txt]. *)
Definition after (b : slice) (txt rest : list Z) : slice := Sl (off b + length txt) rest.

Lemma after_sub b txt rest d : dat b = txt ++ rest -> sub b d -> sub (after b txt rest) d.
Proof.
  intros E Hb. transitivity b; [|done]. exists txt, []. rewrite app_nil_r. done.
Qed.

Lemma after_app b t1 t2 rest : after (after b t1 (t2 ++ rest)) t2 rest = after b (t1 ++ t2) rest.
Proof. unfold after. cbn [off]. rewrite length_app. f_equal. lia. Qed.

Lemma sl_eta b : Sl (off b) (dat b) = b.
Proof. by destruct b. Qed.

(** ** Small pieces *)

Lemma parseWhitespace_eq b ws rest :
  dat b = ws ++ rest -> Forall (fun c => isWhitespace c = true) ws ->
  match rest with [] => True | c :: _ => isWhitespace c = false end ->
  parseWhitespace b = Ret (after b ws rest).
Proof.
  intros E Hw Hr. unfold parseWhitespace, scanWhitespace.
  rewrite (scan_class_find _ _ b 0 ws rest); [|lia|by rewrite drop_0|done|done|rewrite E, length_app; lia].
  cbn [mbind go_mbind go_bind split_at Nat.add]. rewrite E, drop_app_length. done.
Qed.

Lemma parseWhitespace_none b :
  match dat b with [] => True | c :: _ => isWhitespace c = false end -> parseWhitespace b = Ret b.
Proof.
  intros H. rewrite (parseWhitespace_eq b [] (dat b)); [|done..]. unfold after. simpl.
  by rewrite Nat.add_0_r, sl_eta.
Qed.

Lemma expect_eq x b rest : dat b = x :: rest -> expect x b = Ret (after b [x] rest).
Proof.
  intros E. unfold expect. rewrite E. cbn [length Nat.eqb]. rewrite (s_at_eq _ 0 x) by (by rewrite E).
  cbn [mbind go_mbind go_bind]. rewrite Z.eqb_refl. cbn [negb]. rewrite s_from_eq by (rewrite E; simpl; lia).
  by rewrite E.
Qed.

Lemma spec_eq {A} (m : go ParserError A) a (Q : A -> Prop) R : m = Ret a -> Q a -> spec m Q R.
Proof. by intros ->. Qed.

Lemma pspec_eq_bind {A B} (m : go ParserError A) a (k : A -> P B) s Q R :
  m = Ret a -> pspec (k a) s Q R -> pspec (lift m ≫= k) s Q R.
Proof. intros -> H. exact H. Qed.

Section Complete.
Context (pdata : slice) (KeepComments : bool) (Hdoc : Forall byte_ok (dat pdata)).

Lemma range_ret s : sub s pdata -> exists r, range pdata s = Ret r.
Proof.
  intros Hs. unfold range, SubsliceOffset. destruct (sub_len _ _ Hs) as [H1 H2].
  rewrite (proj2 (Nat.ltb_ge _ _)) by lia. rewrite (proj2 (Nat.ltb_ge _ _)) by lia.
  rewrite (proj2 (Nat.ltb_ge _ _)) by lia. simpl. eauto.
Qed.

Lemma sub_bytes b : sub b pdata -> Forall byte_ok (dat b).
Proof. intros Hb. by eapply sub_ok. Qed.

(** [parses p txt follow sh]: wherever [txt] stands in the document, followed
    by an allowed text, [p] reads it and pushes a tree of shape [sh]. *)
Definition parses (p : slice -> P (Z * slice)) (txt : list Z) (follow : list Z -> Prop) (sh : shape) : Prop :=
  forall b s rest, sub b pdata -> dat b = txt ++ rest -> follow rest ->
  pspec (p b) s (fun '(ref, r) s' => r = after b txt rest /\ pushed (fun t => shape_of t = sh) s s' ref) never.

(** ** Keys *)

Definition key_shape (k : list Z) : shape := Sh Key k [].

Definition keys_are (s0 s : builder) (ks : list (list Z)) : Prop :=
  exists keys, keys <> [] /\ map shape_of keys = map key_shape ks /\ Forall (fun t => size t = 1%nat) keys /\
  nodes s = nodes s0 ++ encs keys /\ lastIdx s = Z.of_nat (length (nodes s)) - 1.

(** The text of a dotted key, after its first part. *)
Fixpoint dotted (ks : list (list Z)) : list Z :=
  match ks with [] => [] | k :: ks' => 46 :: encodeKey [] k ++ dotted ks' end.

(** Strings of Unicode characters. *)
Definition utf8 (k : list Z) : Prop := exists cps, Forall scalar cps /\ k = text cps.

Lemma utf8_key k : utf8 k -> reads parseSimpleKey (encodeKey [] k) k key_end.
Proof. intros (cps & Hs & ->). by apply parseSimpleKey_encoded. Qed.

Lemma key_node_ok s0 s ks r d k :
  keys_are s0 s ks -> dbytes d = k ->
  exists s' ref, @PushAndChain ParserError s (Nd Key r d 0 0) = Ret (ref, s') /\ keys_are s0 s' (ks ++ [k]).
Proof.
  intros (keys & Hne & Hsh & Hsz & E & El) Hd. unfold PushAndChain.
  destruct keys as [|c keys _] using rev_ind; [done|].
  apply Forall_app in Hsz as Hsz'. destruct Hsz' as [Hszs Hc]. apply Forall_cons in Hc as [Hc _].
  assert (Hlen : length (nodes s) = (length (nodes s0) + sizes keys + 1)%nat).
  { rewrite E, length_app, encs_length, sizes_snoc. lia. }
  rewrite (proj2 (Z.leb_le _ _)) by lia.
  assert (Hs : @set_next ParserError (nodes s ++ [Nd Key r d 0 0]) (lastIdx s)
    (Z.of_nat (length (nodes s)) - lastIdx s) = Ret (nodes s0 ++ encs (keys ++ [c] ++ [T Key r d []]))).
  { rewrite <- (link_sibling (nodes s0) keys c (T Key r d [])).
    replace (lastIdx s) with (Z.of_nat (length (nodes s0) + sizes keys)) by lia.
    replace (Z.of_nat (length (nodes s)) - _) with (Z.of_nat (size c)) by lia.
    by rewrite (enc_plain 0 Key r d []), E, <- app_assoc by auto. }
  rewrite Hs. simpl. eexists _, _. split; [done|]. exists (keys ++ [c] ++ [T Key r d []]).
  split_and!; [by destruct keys| | |done|].
  - rewrite app_assoc, map_app, Hsh. simpl. rewrite Hd, map_app. done.
  - rewrite app_assoc, Forall_app. split; [done|]. by repeat constructor.
  - simpl. rewrite length_app, encs_length. change (keys ++ [c; T Key r d []]) with (keys ++ [c] ++ [T Key r d []]).
    rewrite app_assoc, !sizes_snoc, Hc. cbn [size map list_sum foldr]. lia.
Qed.

(** Where a key ends. *)
Definition key_stop (rest : list Z) : Prop :=
  match rest with [] => True | c :: _ => isWhitespace c = false /\ c <> 46 /\ isUnquotedKeyChar c = false end.

Lemma encodeKey_head k : utf8 k -> exists c q,
  encodeKey [] k = c :: q /\ isWhitespace c = false /\ c <> 10 /\ c <> 13 /\ c <> 35 /\ c <> 91 /\ c <> 125.
Proof.
  intros (cps & Hs & ->). unfold TomlMarshal.encodeKey.
  destruct (length (text cps) =? 0)%nat eqn:E0; [by eexists _, _|].
  destruct (forallb _ _) eqn:Eb.
  - pose proof (bare_key_bytes _ (text_bytes _ Hs) Eb) as Hu. unfold TomlMarshal.encodeUnquotedKey. simpl.
    destruct (text cps) as [|c q]; [done|]. apply Forall_cons in Hu as [Hc _]. exists c, q.
    unfold isUnquotedKeyChar, isWhitespace in *. split_and!; [done|lia..].
  - rewrite encodeQuotedString_eq. simpl. eexists _, _. split_and!; done.
Qed.

Lemma ws_key_end ws rest : Forall (fun c => isWhitespace c = true) ws -> key_stop rest -> key_end (ws ++ rest).
Proof.
  intros Hw Hr. destruct ws as [|c ws]; simpl.
  - destruct rest; [done|]. by destruct Hr as (_ & _ & ?).
  - apply Forall_cons in Hw as [Hc _]. unfold isWhitespace, isUnquotedKeyChar in *. lia.
Qed.

Lemma key_loop_complete ks ws rest s0 : forall fuel ks0 b s,
  keys_are s0 s ks0 -> Forall utf8 ks -> sub b pdata -> dat b = dotted ks ++ ws ++ rest ->
  Forall (fun c => isWhitespace c = true) ws -> key_stop rest -> (length ks < fuel)%nat ->
  pspec (key_loop pdata fuel b) s
    (fun r s' => r = after b (dotted ks ++ ws) rest /\ keys_are s0 s' (ks0 ++ ks)) never.
Proof.
  induction ks as [|k ks IH]; intros fuel ks0 b s Hk Hu Hb E Hw Hr Hf;
    (destruct fuel as [|fuel]; [simpl in Hf; lia|]); cbn [key_loop].
  - simpl in E. eapply pspec_eq_bind.
    { apply (parseWhitespace_eq b ws rest); [done..|]. destruct rest; [done|]. by destruct Hr as (? & _). }
    replace (starts (after b ws rest) 46) with false.
    2:{ unfold starts, after. simpl. destruct rest as [|c rest]; [done|].
        destruct Hr as (_ & Hc & _). symmetry. by apply Z.eqb_neq. }
    apply pspec_ret. by rewrite app_nil_r.
  - apply Forall_cons in Hu as [Hu Hus]. simpl in E.
    assert (E' : dat b = [46] ++ (encodeKey [] k ++ dotted ks ++ ws ++ rest)).
    { rewrite E. simpl. by rewrite <- app_assoc. }
    eapply pspec_eq_bind; [apply parseWhitespace_none; by rewrite E'|].
    assert (Hst : starts b 46 = true) by (unfold starts; by rewrite E'). rewrite Hst.
    set (b1 := after b [46] (encodeKey [] k ++ dotted ks ++ ws ++ rest)).
    assert (Hb1 : sub b1 pdata) by (by apply after_sub).
    eapply (pspec_eq_bind _ b1); [rewrite s_from_eq by (rewrite E'; simpl; lia); by rewrite E'|].
    eapply pspec_eq_bind.
    { apply parseWhitespace_none. destruct (encodeKey_head k Hu) as (c & q & Eq & Hc & _).
      unfold b1, after. simpl. by rewrite Eq. }
    destruct (utf8_key k Hu (off b1) (dotted ks ++ ws ++ rest)) as (d & Ek & Hd).
    { destruct ks; simpl; [by apply ws_key_end|done]. }
    { pose proof (sub_bytes _ Hb1) as HB. unfold b1 in HB. simpl in HB. by apply Forall_app in HB as [_ HB]. }
    eapply pspec_eq_bind; [change (Sl (off b1) (encodeKey [] k ++ dotted ks ++ ws ++ rest)) with b1 in Ek; exact Ek|].
    cbv beta iota.
    destruct (range_ret (Sl (off b1) (encodeKey [] k))) as [r Er].
    { transitivity b1; [|done]. exists [], (dotted ks ++ ws ++ rest). split; [done|simpl; lia]. }
    eapply pspec_eq_bind; [exact Er|].
    destruct (key_node_ok s0 s ks0 r d k Hk Hd) as (s' & ref & Ep & Hk').
    eapply (pspec_bind _ _ _ (fun _ s1 => s1 = s')).
    { unfold pspec, pushAndChain. by rewrite Ep. }
    intros _ _ ->. eapply pspec_mono.
    { apply (IH fuel (ks0 ++ [k])); [done..| |done|done|done|simpl in Hf; lia].
      apply (after_sub b1 (encodeKey [] k)); [done|done]. }
    intros rest' s2 [-> Hk2]. split; [|by rewrite <- app_assoc in Hk2].
    unfold after, b1, after. simpl. rewrite !length_app. f_equal. lia.
Qed.

(** A dotted key was pushed. *)
Definition key_done (s s' : builder) (ref : Z) (ks : list (list Z)) : Prop :=
  ref = Z.of_nat (length (nodes s)) /\ exists keys, keys <> [] /\ map shape_of keys = map key_shape ks /\
  nodes s' = nodes s ++ encs keys.

Lemma parseKey_complete k ks ws rest b s :
  utf8 k -> Forall utf8 ks -> sub b pdata -> dat b = encodeKey [] k ++ dotted ks ++ ws ++ rest ->
  Forall (fun c => isWhitespace c = true) ws -> key_stop rest ->
  pspec (parseKey pdata b) s
    (fun '(ref, r) s' => r = after b (encodeKey [] k ++ dotted ks ++ ws) rest /\ key_done s s' ref (k :: ks)) never.
Proof.
  intros Hu Hus Hb E Hw Hr. unfold parseKey.
  destruct (utf8_key k Hu (off b) (dotted ks ++ ws ++ rest)) as (d & Ek & Hd).
  { destruct ks; simpl; [by apply ws_key_end|done]. }
  { pose proof (sub_bytes _ Hb) as HB. rewrite E in HB. by apply Forall_app in HB as [_ HB]. }
  rewrite <- E, sl_eta in Ek. eapply pspec_eq_bind; [exact Ek|]. cbv beta iota.
  destruct (range_ret (Sl (off b) (encodeKey [] k))) as [r Er].
  { transitivity b; [|done]. exists [], (dotted ks ++ ws ++ rest). split; [done|simpl; lia]. }
  eapply pspec_eq_bind; [exact Er|]. apply pspec_push_bind. intros s1 Hs1 El.
  set (b1 := Sl (off b + length (encodeKey [] k)) (dotted ks ++ ws ++ rest)).
  eapply pspec_bind.
  { apply (key_loop_complete ks ws rest s _ [k] b1); [|done|by apply (after_sub b (encodeKey [] k))|done|done|done|].
    - exists [T Key r d []]. split_and!; [done|by simpl; rewrite Hd|by repeat constructor| |].
      + by rewrite Hs1.
      + rewrite El, Hs1, length_app. simpl. lia.
    - unfold b1. cbn [dat]. rewrite length_app.
      assert (Hd' : forall l, (length l <= length (dotted l))%nat); [|specialize (Hd' ks); lia].
      induction l as [|x l IHl]; simpl; [lia|]. rewrite length_app. lia. }
  intros b2 s2 [-> (keys & Hne & Hsh & _ & En & _)]. apply pspec_ret. split.
  - unfold after, b1. simpl. rewrite !length_app. f_equal. lia.
  - split; [done|]. by exists keys.
Qed.

(** ** Values *)

(** What follows a value in the texts of the encoder. *)
Definition val_end (rest : list Z) : Prop :=
  match rest with [] => True | c :: _ => c = 10 \/ c = 32 \/ c = 44 end.

Lemma leaf_shape k r d s s' v :
  is_container k = false -> dbytes d = v -> nodes s' = nodes s ++ [Nd k r d 0 0] ->
  pushed (fun t => shape_of t = Sh k v []) s s' (Z.of_nat (length (nodes s))).
Proof.
  intros Hk Hd Hs. split; [done|]. exists (T k r d []). cbn [shape_of map]. rewrite Hk, Hd. split; [done|].
  rewrite enc_plain by auto. done.
Qed.

Lemma push_string_complete m b s txt rest d :
  sub b pdata -> dat b = txt ++ rest -> m = Ret (Sl (off b) txt, d, after b txt rest) ->
  pspec (push_string pdata m) s
    (fun '(ref, r) s' => r = after b txt rest /\ pushed (fun t => shape_of t = Sh String_ (dbytes d) []) s s' ref) never.
Proof.
  intros Hb E ->. unfold push_string. eapply pspec_eq_bind; [done|]. cbv beta iota.
  destruct (range_ret (Sl (off b) txt)) as [r Er].
  { transitivity b; [|done]. exists [], rest. split; [done|simpl; lia]. }
  eapply pspec_eq_bind; [exact Er|]. apply pspec_push_bind. intros s' Hs' _. apply pspec_ret.
  split; [done|]. eapply leaf_shape; [done| |exact Hs']; done.
Qed.

Lemma not_ml_delimiter o cps rest : Forall scalar cps -> not_quote rest ->
  scanFollowsMultilineBasicStringDelimiter (Sl o (34 :: quoted false (text cps) ++ 34 :: rest)) = false.
Proof.
  intros Hs Hr. apply not_true_iff_false. intros [Hf Hl]%spec_follows_bytes.
  change (bs dq3) with [34; 34; 34] in Hf. cbn [dat length take] in Hf.
  destruct cps as [|cp cps].
  - simpl in Hf. destruct rest as [|c rest]; [done|]. injection Hf as ->. by apply Hr.
  - apply Forall_cons in Hs as [Hcp Hs]. destruct (unit_cons false cp cps Hcp) as (u & Hu & _ & Eu).
    rewrite Eu in Hf. destruct Hu as [Hc H1 H2 H3 H4| |]; [|done..].
    destruct (encode_head cp Hc) as (c & q & Ec & [[-> ->]|Hge]); rewrite Ec in Hf; simpl in Hf; injection Hf; lia.
Qed.

Lemma val_end_not_quote rest : val_end rest -> not_quote rest.
Proof. destruct rest as [|c rest]; [done|]. unfold not_quote. simpl. intros H [= ->]. lia. Qed.

Lemma string_complete fuel s : utf8 s -> (0 < fuel)%nat ->
  parses (parseVal pdata KeepComments fuel) (TomlMarshal.encodeQuotedString false [] s) val_end (Sh String_ s []).
Proof.
  intros (cps & Hs & ->) Hf b st rest Hb E Hr. destruct fuel as [|fuel]; [lia|]. cbn [parseVal].
  destruct (parseBasicString_quoted cps Hs (off b) rest I) as (d & Ed & Hd).
  { pose proof (sub_bytes _ Hb) as HB. rewrite E in HB. by apply Forall_app in HB as [_ HB]. }
  rewrite <- E, sl_eta in Ed. rewrite encodeQuotedString_eq in E, Ed |- *. cbn [app] in E, Ed |- *.
  rewrite E at 1. cbn [length Nat.eqb]. eapply pspec_eq_bind; [apply (s_at_eq _ 0 34); by rewrite E|].
  cbv beta. cbn [Z.eqb Pos.eqb].
  replace (scanFollowsMultilineBasicStringDelimiter b) with false.
  - pose proof (push_string_complete (parseBasicString b) b st (34 :: quoted false (text cps) ++ [34]) rest d Hb E Ed) as Hp.
    rewrite Hd in Hp. exact Hp.
  - symmetry. rewrite <- (sl_eta b), E, <- app_assoc. apply not_ml_delimiter; [done|by apply val_end_not_quote].
Qed.

Lemma scanFollows_bs o w rest : scanFollows (Sl o (bs w ++ rest)) w = true.
Proof.
  unfold scanFollows. cbn [dat]. rewrite take_app_length, length_app, bool_decide_eq_true_2 by done.
  rewrite andb_true_r. apply Nat.leb_le. lia.
Qed.

Lemma bool_complete fuel (x : bool) : (0 < fuel)%nat ->
  parses (parseVal pdata KeepComments fuel) (if x then bs "true" else bs "false") val_end
    (Sh Bool (if x then bs "true" else bs "false") []).
Proof.
  intros Hf b st rest Hb E Hr. destruct fuel as [|fuel]; [lia|]. cbn [parseVal].
  set (w := if x then bs "true" else bs "false") in *.
  assert (Hw : w = bs (if x then "true" else "false")) by (by destruct x).
  assert (Hsf : scanFollows b (if x then "true" else "false") = true).
  { rewrite <- (sl_eta b), E, Hw. apply scanFollows_bs. }
  assert (Hl : (slen b =? 0)%nat = false) by (rewrite E, Hw; by destruct x). rewrite Hl.
  assert (Hpb : pspec (push_bool b (length w)) st
    (fun '(ref, r) s' => r = after b w rest /\ pushed (fun t => shape_of t = Sh Bool w []) st s' ref) never).
  { unfold push_bool. eapply (pspec_eq_bind _ (Sl (off b) w)).
    { rewrite s_to_eq by (rewrite E, length_app; lia). by rewrite E, take_app_length. }
    apply pspec_push_bind. intros s' Hs' _. eapply (pspec_eq_bind _ (after b w rest)).
    { rewrite s_from_eq by (rewrite E, length_app; lia). by rewrite E, drop_app_length. }
    apply pspec_ret. split; [done|]. eapply leaf_shape; [done| |exact Hs']; done. }
  destruct x; cbn [Z.eqb Pos.eqb].
  - eapply pspec_eq_bind; [apply (s_at_eq _ 0 116); rewrite E, Hw; reflexivity|]. cbv beta.
    cbn [Z.eqb Pos.eqb]. unfold scanFollowsTrue. rewrite Hsf. cbn [negb]. exact Hpb.
  - eapply pspec_eq_bind; [apply (s_at_eq _ 0 102); rewrite E, Hw; reflexivity|]. cbv beta.
    cbn [Z.eqb Pos.eqb]. unfold scanFollowsFalse. rewrite Hsf. cbn [negb]. exact Hpb.
Qed.

(** *** Integers *)

Definition int_char (c : Z) : bool := ((48 <=? c) && (c <=? 57)) || (c =? 45).

Lemma number_loop_find fuel b i body rest :
  (i <= slen b)%nat -> drop i (dat b) = body ++ rest -> Forall (fun c => int_char c = true) body ->
  val_end rest -> (length body < fuel)%nat ->
  number_loop fuel b false i = Ret (inr ((i + length body)%nat, false)).
Proof.
  revert i body. induction fuel as [|fuel IH]; intros i body Hi Hd Hb Hr Hf; [lia|]. cbn [number_loop].
  pose proof (drop_len _ _ _ Hi Hd) as Hl. rewrite length_app in Hl.
  destruct body as [|c body].
  - cbn [app length] in Hd, Hl |- *. rewrite Nat.add_0_r. destruct rest as [|c rest]; simpl in Hl.
    + by rewrite (proj2 (Nat.ltb_ge _ _)) by lia.
    + rewrite (proj2 (Nat.ltb_lt _ _)) by lia. rewrite (s_at_eq _ _ _ (lookup_of_drop _ _ _ _ Hd)).
      cbn [mbind go_mbind go_bind]. destruct Hr as [-> |[-> | ->]]; reflexivity.
  - apply Forall_cons in Hb as [Hc Hb]. simpl in Hl, Hf. rewrite (proj2 (Nat.ltb_lt _ _)) by lia.
    rewrite (s_at_eq _ _ _ (lookup_of_drop _ _ _ _ Hd)). cbn [mbind go_mbind go_bind].
    replace (((48 <=? c) && (c <=? 57)) || (c =? 43) || (c =? 45) || (c =? 95)) with true
      by (unfold int_char in Hc; lia).
    rewrite (IH (i + 1)%nat body); [|lia|by apply (drop_step _ [c]) in Hd|done..|lia].
    simpl length. by replace (i + 1 + length body)%nat with (i + S (length body))%nat by lia.
Qed.

Lemma FormatInt_shape z : exists c q, FormatInt z 10 = c :: q /\ Forall (fun c => int_char c = true) (c :: q) /\
  (c = 48 -> q = []) /\ Forall (fun c => 48 <= c <= 57) q.
Proof.
  unfold FormatInt. destruct (Z.ltb_spec z 0) as [Hz|Hz].
  - exists 45, (FormatUint (- z) 10). pose proof (FormatUint_digits (- z) ltac:(lia)) as Hd.
    split_and!; [done| |done|done]. constructor; [done|]. eapply Forall_impl; [exact Hd|].
    unfold int_char. simpl. lia.
  - pose proof (FormatUint_digits z Hz) as Hd.
    assert (Hi : Forall (fun c => int_char c = true) (FormatUint z 10)).
    { eapply Forall_impl; [exact Hd|]. unfold int_char. simpl. lia. }
    destruct (decide (z = 0)) as [->|Hne].
    + exists 48, []. split_and!; [reflexivity|by repeat constructor|done|done].
    + destruct (FormatUint_head z 10) as (d & l & E & Hdd); [lia..|]. rewrite E in *.
      exists (digit_char d), l. split_and!; [done|done| |by apply Forall_cons in Hd as [_ ?]].
      unfold digit_char. destruct (Z.ltb_spec d 10); lia.
Qed.

Lemma push_token_complete k b s txt rest :
  is_container k = false -> sub b pdata -> dat b = txt ++ rest ->
  pspec (push_token pdata k b (length txt)) s
    (fun '(ref, r) s' => r = after b txt rest /\ pushed (fun t => shape_of t = Sh k txt []) s s' ref) never.
Proof.
  intros Hk Hb E. unfold push_token. eapply (pspec_eq_bind _ (Sl (off b) txt)).
  { rewrite s_to_eq by (rewrite E, length_app; lia). by rewrite E, take_app_length. }
  destruct (range_ret (Sl (off b) txt)) as [r Er].
  { transitivity b; [|done]. exists [], rest. split; [done|simpl; lia]. }
  eapply pspec_eq_bind; [exact Er|]. apply pspec_push_bind. intros s' Hs' _.
  eapply (pspec_eq_bind _ (after b txt rest)).
  { rewrite s_from_eq by (rewrite E, length_app; lia). by rewrite E, drop_app_length. }
  apply pspec_ret. split; [done|]. eapply leaf_shape; [done| |exact Hs']; done.
Qed.

Lemma scanInt_complete z b s rest :
  sub b pdata -> dat b = FormatInt z 10 ++ rest -> val_end rest ->
  pspec (scanIntOrFloat pdata b) s
    (fun '(ref, r) s' => r = after b (FormatInt z 10) rest /\
       pushed (fun t => shape_of t = Sh Integer (FormatInt z 10) []) s s' ref) never.
Proof.
  intros Hb E Hr. destruct (FormatInt_shape z) as (c & q & Ef & Hc & H48 & Hq). rewrite Ef in *.
  assert (Hloop : number_loop (S (slen b)) b false 0 = Ret (inr (length (c :: q), false))).
  { apply (number_loop_find _ b 0 (c :: q) rest); [lia|by rewrite drop_0|done|done|rewrite E, length_app; lia]. }
  assert (Hc0 : forall A (k : Z -> go ParserError A), s_at b 0 ≫= k = k c).
  { intros A k. rewrite (s_at_eq _ 0 c) by (by rewrite E). done. }
  unfold scanIntOrFloat.
  destruct ((2 <? slen b)%nat && (c =? 48)) eqn:Ez.
  - apply andb_true_iff in Ez as [E2 ->%Z.eqb_eq]. rewrite E2. rewrite (H48 eq_refl) in *.
    apply Nat.ltb_lt in E2. rewrite E in E2. simpl in E2. destruct rest as [|r rest]; [simpl in E2; lia|].
    assert (Hr1 : s_at b 1 = @Ret ParserError _ r) by (apply s_at_eq; by rewrite E).
    eapply (pspec_eq_bind _ true).
    { rewrite Hc0. cbn [Z.eqb Pos.eqb negb]. rewrite Hr1. cbn. by destruct Hr as [-> |[-> | ->]]. }
    cbv beta iota. eapply pspec_eq_bind; [exact Hr1|]. cbv beta. eapply (pspec_eq_bind _ 1%nat).
    { by destruct Hr as [-> |[-> | ->]]. }
    by apply (push_token_complete Integer b s [48]).
  - eapply (pspec_eq_bind _ false).
    { destruct (2 <? slen b)%nat; [|done]. rewrite Hc0. simpl in Ez. by rewrite Ez. }
    cbv beta iota. eapply pspec_eq_bind; [exact Hloop|]. cbv beta iota. cbn [length Nat.eqb].
    by apply (push_token_complete Integer b s (c :: q)).
Qed.

Lemma looks_like_date_digits l idx : forall rest,
  Forall (fun c => 48 <= c <= 57) l -> val_end rest -> forall n, looks_like_date (take n (l ++ rest)) idx = false.
Proof.
  revert idx. induction l as [|c l IH]; intros idx rest Hl Hr n.
  - destruct n as [|n]; [done|]. destruct rest as [|c rest]; [done|]. cbn [take app looks_like_date].
    unfold isDigit. destruct Hr as [-> |[-> | ->]]; simpl; by rewrite !andb_false_r.
  - apply Forall_cons in Hl as [Hc Hl]. destruct n as [|n]; [done|]. cbn [app take looks_like_date].
    unfold isDigit at 1. rewrite (proj2 (Z.leb_le _ _)), (proj2 (Z.leb_le _ _)) by lia. by apply IH.
Qed.

Lemma int_complete fuel z : (0 < fuel)%nat ->
  parses (parseVal pdata KeepComments fuel) (FormatInt z 10) val_end (Sh Integer (FormatInt z 10) []).
Proof.
  intros Hf b st rest Hb E Hr. destruct fuel as [|fuel]; [lia|]. cbn [parseVal].
  pose proof (scanInt_complete z b st rest Hb E Hr) as Hscan.
  destruct (FormatInt_shape z) as (c & q & Ef & Hc & H48 & Hq). rewrite Ef in E, Hscan |- *.
  rewrite E at 1. cbn [app length Nat.eqb]. eapply pspec_eq_bind; [apply (s_at_eq _ 0 c); by rewrite E|].
  cbv beta. apply Forall_cons in Hc as [Hc _]. unfold int_char in Hc.
  do 6 (rewrite (proj2 (Z.eqb_neq c _)) by lia).
  unfold parseIntOrFloatOrDateTime. eapply pspec_eq_bind; [apply (s_at_eq _ 0 c); by rewrite E|]. cbv beta.
  do 2 (rewrite (proj2 (Z.eqb_neq c _)) by lia).
  destruct ((c =? 43) || (c =? 45)) eqn:Esign; [exact Hscan|].
  destruct (slen b <? 3)%nat eqn:E3; [exact Hscan|]. apply Nat.ltb_ge in E3.
  set (n := if (slen b <? 5)%nat then slen b else 5%nat).
  assert (Hn : (n <= slen b)%nat) by (unfold n; destruct (Nat.ltb_spec (slen b) 5); lia).
  eapply pspec_eq_bind; [by apply s_to_eq|]. cbn [dat]. rewrite E, looks_like_date_digits; [exact Hscan| |done].
  constructor; [lia|done].
Qed.

(** *** Arrays *)

(** Spaces and new lines, and what ends them. *)
Definition blank (txt : list Z) : Prop := Forall (fun c => c = 32 \/ c = 9 \/ c = 10) txt.
Definition blank_end (rest : list Z) : Prop :=
  match rest with [] => True | c :: _ => c <> 32 /\ c <> 9 /\ c <> 10 /\ c <> 13 /\ c <> 35 end.

Lemma blank_split txt : blank txt -> exists ws t, txt = ws ++ t /\
  Forall (fun c => isWhitespace c = true) ws /\ (t = [] \/ exists t', t = 10 :: t' /\ blank t').
Proof.
  induction 1 as [|c txt Hc Hb IH]; [by exists [], []; auto|].
  destruct Hc as [-> |[-> | ->]].
  - destruct IH as (ws & t & -> & Hw & Ht). exists (32 :: ws), t. split_and!; [done|by constructor|done].
  - destruct IH as (ws & t & -> & Hw & Ht). exists (9 :: ws), t. split_and!; [done|by constructor|done].
  - exists [], (10 :: txt). split_and!; [done|constructor|eauto].
Qed.

Lemma ws_loop_blank rest root latest s : blank_end rest -> forall fuel txt b,
  dat b = txt ++ rest -> blank txt -> (length txt < fuel)%nat ->
  ws_comment_loop pdata KeepComments fuel root latest b s = Ret (root, after b txt rest, s).
Proof.
  intros Hr. induction fuel as [|fuel IH]; intros txt b E Hb Hf; [lia|]. cbn [ws_comment_loop].
  destruct (Nat.ltb_spec 0 (slen b)) as [Hl|Hl].
  2:{ rewrite E, length_app in Hl. destruct txt; [|simpl in Hl; lia]. destruct rest; [|simpl in Hl; lia].
      unfold after. simpl in *. by rewrite Nat.add_0_r, <- E, sl_eta. }
  destruct (blank_split txt Hb) as (ws & t & -> & Hw & Ht). rewrite <- app_assoc in E.
  set (b1 := after b ws (t ++ rest)).
  assert (Hws : parseWhitespace b = Ret b1).
  { apply parseWhitespace_eq; [done..|]. destruct Ht as [-> |(t' & -> & _)]; [|done]. simpl.
    destruct rest as [|c rest]; [done|]. unfold isWhitespace. simpl in Hr. lia. }
  assert (Hst : starts b1 35 = false).
  { unfold starts, b1, after. cbn [dat]. destruct Ht as [-> |(t' & -> & _)]; [|done]. simpl.
    destruct rest as [|c rest]; [done|]. simpl in Hr. lia. }
  unfold mbind, P_mbind, lift. rewrite Hws, Hst. unfold mret at 1, P_mret at 1.
  destruct Ht as [-> |(t' & -> & Hb')].
  - cbn [app] in *. rewrite app_nil_r. fold b1. destruct (Nat.eqb_spec (slen b1) 0) as [H0|H0]; [done|].
    destruct rest as [|c rest]; [simpl in H0; lia|]. rewrite (s_at_eq b1 0 c) by done.
    simpl in Hr. destruct (Z.eqb_spec c 10); [lia|]. destruct (Z.eqb_spec c 13); [lia|]. done.
  - assert (H0 : (slen b1 =? 0)%nat = false) by done. rewrite H0, (s_at_eq b1 0 10) by done.
    cbn [Z.eqb Pos.eqb orb]. unfold parseNewline. rewrite (s_at_eq b1 0 10) by done.
    cbn [mbind go_mbind go_bind Z.eqb Pos.eqb]. rewrite s_from_eq by (simpl; lia). cbn [dat drop off b1 after].
    rewrite (IH t'); [|by simpl; rewrite drop_0|done|rewrite length_app in Hf; simpl in Hf; lia].
    unfold after. cbn [off]. rewrite length_app. simpl length.
    by replace (off b + length ws + 1 + length t')%nat with (off b + (length ws + S (length t')))%nat by lia.
Qed.

Lemma opt_blank b s txt rest : dat b = txt ++ rest -> blank txt -> blank_end rest ->
  parseOptionalWhitespaceCommentNewline pdata KeepComments b s = Ret (invalidReference, after b txt rest, s).
Proof.
  intros E Hb Hr. apply ws_loop_blank; [done..|]. rewrite E, length_app. lia.
Qed.

Definition kids_are (k : Kind) (s0 s : builder) (cs : list tree) (shs : list shape) : Prop :=
  kids k (fun _ => True) s0 s cs /\ map shape_of cs = shs.

Lemma addChild_complete s0 s1 s cs shs lastChild ref t :
  kids_are Array s0 s1 cs shs -> last_ref (length (nodes s0)) cs lastChild ->
  ref = Z.of_nat (length (nodes s1)) -> nodes s = nodes s1 ++ enc 0 t ->
  pspec (addChild (Z.of_nat (length (nodes s0))) lastChild ref) s
    (fun l s' => kids_are Array s0 s' (cs ++ [t]) (shs ++ [shape_of t]) /\
       last_ref (length (nodes s0)) (cs ++ [t]) l) never.
Proof.
  intros [Hk Hsh] Hlast Href E.
  destruct (link_kid Array (fun _ => True) s0 s1 s cs ref t ltac:(done) Hk I Href E) as (ns' & Hns & Hpos & Ha & Hc).
  unfold addChild. eapply (pspec_bind _ _ _ (fun _ s' => nodes s' = ns')).
  - destruct Hlast as [[Hcs ->]|[Hcs ->]].
    + simpl. eapply pspec_attach; [by apply Ha|done].
    + unfold invalidReference, lastPos. rewrite (proj2 (Z.eqb_neq _ _)) by lia.
      eapply pspec_chain; [by apply Hc|done].
  - intros _ s' Hs'. apply pspec_ret. split; [split; [by apply Hns|by rewrite map_app, Hsh]|].
    right. split; [by destruct cs|done].
Qed.

Section Array.
Context (pv : slice -> P (Z * slice)) (sepb post : list Z).
Context (Hsep : blank sepb) (Hpost : blank post) (Hpe : forall x, val_end (post ++ 93 :: x)).

(** An element: its text, which [pv] reads, and the first byte of it. *)
Definition elem_ok (e : list Z * shape) : Prop :=
  parses pv (fst e) val_end (snd e) /\
  exists c q, fst e = c :: q /\ blank_end [c] /\ c <> 93 /\ c <> 44.

(** The text between an element and the next comma or bracket, and after it. *)
Definition mid (els : list (list Z * shape)) : list Z := match els with [] => post | _ => [] end.
Fixpoint tailt (els : list (list Z * shape)) : list Z :=
  match els with [] => [] | e :: els' => 44 :: sepb ++ fst e ++ mid els' ++ tailt els' end.

Lemma mid_end els rest : val_end (mid els ++ tailt els ++ 93 :: rest).
Proof. destruct els; simpl; [apply Hpe|auto]. Qed.

Lemma mid_blank els : blank (mid els).
Proof. destruct els; [done|constructor]. Qed.

Lemma tailt_blank_end els rest : blank_end (tailt els ++ 93 :: rest).
Proof. destruct els; simpl; lia. Qed.

Lemma comments_blank {B} s0 b s txt rest l (k : Z -> slice -> P B) Q :
  dat b = txt ++ rest -> blank txt -> blank_end rest -> pspec (k l (after b txt rest)) s Q never ->
  pspec (cb ← parseOptionalWhitespaceCommentNewline pdata KeepComments b;
         let '(cref, b) := (cb : Z * slice) in
         l ← addComments (Z.of_nat (length (nodes s0))) l cref; k l b) s Q never.
Proof.
  intros E Hb Hr Hk. unfold pspec, mbind, P_mbind. rewrite (opt_blank b s txt rest E Hb Hr). exact Hk.
Qed.

(** What the loop does at an element. *)
Definition at_elem (fuel : nat) (start : slice) (parent lastChild : Z) (b : slice) : P slice :=
  if starts b 93 then mret b
  else
    vb ← pv b;
    let '(valueRef, b) := (vb : Z * slice) in
    lastChild ← addChild parent lastChild valueRef;
    cb ← parseOptionalWhitespaceCommentNewline pdata KeepComments b;
    let '(cref, b) := (cb : Z * slice) in
    lastChild ← addComments parent lastChild cref;
    array_loop pdata KeepComments pv fuel start parent lastChild false b.

Lemma at_elem_complete start s0 rest : forall els e fuel lastChild s cs shs b,
  elem_ok e -> Forall elem_ok els -> sub b pdata -> dat b = fst e ++ mid els ++ tailt els ++ 93 :: rest ->
  kids_are Array s0 s cs shs -> last_ref (length (nodes s0)) cs lastChild -> (length els < fuel)%nat ->
  pspec (at_elem fuel start (Z.of_nat (length (nodes s0))) lastChild b) s
    (fun r s' => r = after b (fst e ++ mid els ++ tailt els) (93 :: rest) /\
       exists cs', kids_are Array s0 s' cs' (shs ++ snd e :: map snd els)) never.
Proof.
  induction els as [|e' els IH]; intros e fuel lastChild s cs shs b [Hpe0 (c & q & Ec & Hc & Hc93 & Hc44)] Hels Hb E Hk Hl Hf;
    unfold at_elem; (assert (Hst : starts b 93 = false);
      [unfold starts; rewrite E, Ec; simpl; by apply Z.eqb_neq|rewrite Hst]);
    (eapply pspec_bind; [by apply (Hpe0 b s _ Hb E), mid_end|]);
    intros [vref b1] s1 [-> [-> (t & Ht & En)]]; cbv beta iota;
    (eapply pspec_bind; [by eapply addChild_complete|]); intros l2 s2 [Hk2 Hl2]; rewrite Ht in Hk2;
    (eapply comments_blank; [reflexivity|apply mid_blank|apply tailt_blank_end|]);
    (destruct fuel as [|fuel]; [simpl in Hf; lia|]); cbn [array_loop];
    set (b2 := after (after b _ _) _ _).
  - replace (0 <? slen b2)%nat with true by done. eapply (comments_blank s0 b2 s2 [] (93 :: rest)); [done|constructor|simpl; lia|].
    cbn [after dat length Nat.eqb]. eapply pspec_eq_bind; [by apply (s_at_eq _ 0 93)|]. cbv beta. cbn [Z.eqb Pos.eqb].
    apply pspec_ret. split; [|eauto].
    unfold after, b2, after. cbn [off]. simpl. rewrite !app_nil_r, !length_app. f_equal. lia.
  - replace (0 <? slen b2)%nat with true by done.
    apply Forall_cons in Hels as [He' Hels].
    assert (Hsub2 : sub b2 pdata).
    { unfold b2. apply (after_sub (after b (fst e) (mid (e' :: els) ++ tailt (e' :: els) ++ 93 :: rest))); [done|].
      by apply (after_sub b (fst e)). }
    eapply (comments_blank s0 b2 s2 [] (tailt (e' :: els) ++ 93 :: rest)); [done|constructor|apply tailt_blank_end|].
    set (b3 := after b2 [] (tailt (e' :: els) ++ 93 :: rest)).
    assert (E3 : dat b3 = [44] ++ (sepb ++ fst e' ++ mid els ++ tailt els ++ 93 :: rest)).
    { unfold b3, after. cbn [dat tailt]. simpl. by rewrite <- !app_assoc. }
    assert (H0 : (slen b3 =? 0)%nat = false) by (by rewrite E3). rewrite H0.
    eapply pspec_eq_bind; [apply (s_at_eq _ 0 44); by rewrite E3|]. cbv beta. cbn [Z.eqb Pos.eqb].
    set (b4 := after b3 [44] (sepb ++ fst e' ++ mid els ++ tailt els ++ 93 :: rest)).
    set (b5 := after b4 sepb (fst e' ++ mid els ++ tailt els ++ 93 :: rest)).
    assert (Hsub3 : sub b3 pdata) by (by apply (after_sub b2 [])).
    assert (Hsub4 : sub b4 pdata) by (by apply (after_sub b3 [44])).
    assert (Hsub5 : sub b5 pdata) by (by apply (after_sub b4 sepb)).
    eapply (pspec_bind _ _ _ (fun r s' => r = (l2, b5) /\ s' = s2)).
    { eapply (pspec_eq_bind _ b4); [rewrite s_from_eq by (rewrite E3; simpl; lia); by rewrite E3|].
      eapply comments_blank; [reflexivity|done| |by apply pspec_ret].
      destruct He' as [_ (c' & q' & Ec' & Hc' & _)]. rewrite Ec'. exact Hc'. }
    intros [l' b'] s' [[= -> ->] ->]. cbv beta iota.
    eapply pspec_mono.
    { apply (IH e' fuel l2 s2 (cs ++ [t]) (shs ++ [snd e]) b5 He' Hels Hsub5 eq_refl Hk2 Hl2). simpl in Hf. lia. }
    intros r s3 [-> (cs' & Hk')]. split; [|exists cs'; by rewrite <- app_assoc in Hk'].
    unfold b5, b4, b3, b2, after. cbn [off tailt]. change (mid (e' :: els)) with (@nil Z).
    cbn [app]. rewrite !length_app. cbn [length]. rewrite !length_app. f_equal. lia.
Qed.

(** The text of an array that is not empty. *)
Definition array_text (pre : list Z) (e : list Z * shape) (els : list (list Z * shape)) : list Z :=
  91 :: pre ++ fst e ++ mid els ++ tailt els ++ [93].

Lemma array_complete pre e els follow :
  blank pre -> elem_ok e -> Forall elem_ok els ->
  parses (parseValArray pdata KeepComments pv) (array_text pre e els) follow (Sh Array [] (snd e :: map snd els)).
Proof.
  intros Hpre He Hels b s rest Hb E Hr. unfold parseValArray.
  set (b1 := after b [91] (pre ++ fst e ++ mid els ++ tailt els ++ 93 :: rest)).
  assert (E' : dat b = [91] ++ (pre ++ fst e ++ mid els ++ tailt els ++ 93 :: rest)).
  { rewrite E. unfold array_text. simpl. by rewrite <- !app_assoc. }
  assert (Hsub1 : sub b1 pdata) by (by apply (after_sub b [91])).
  eapply (pspec_eq_bind _ b1); [rewrite s_from_eq by (rewrite E'; simpl; lia); by rewrite E'|].
  apply pspec_push_bind. intros s1 Hs1 _.
  set (b2 := after b1 pre (fst e ++ mid els ++ tailt els ++ 93 :: rest)).
  assert (Hsub2 : sub b2 pdata) by (by apply (after_sub b1 pre)).
  destruct He as [Hpe0 (c & q & Ec & Hc & Hc93 & Hc44)].
  assert (Hlen : (length els <= length (tailt els))%nat).
  { clear. induction els as [|x l IHl]; simpl; [lia|]. rewrite !length_app. lia. }
  eapply (pspec_bind _ _ _ (fun r s' => r = after b2 (fst e ++ mid els ++ tailt els) (93 :: rest) /\
       exists cs', kids_are Array s s' cs' ([] ++ snd e :: map snd els))).
  { cbn [array_loop]. assert (Hl : (0 <? slen b1)%nat = true).
    { apply Nat.ltb_lt. unfold b1, after. cbn [dat]. rewrite Ec, !length_app. simpl. lia. }
    rewrite Hl. eapply (comments_blank s b1 s1 pre); [reflexivity|done|by rewrite Ec|]. fold b2.
    assert (Ehead : dat b2 = c :: q ++ mid els ++ tailt els ++ 93 :: rest) by (unfold b2, after; by rewrite Ec).
    assert (H0 : (slen b2 =? 0)%nat = false) by (by rewrite Ehead). rewrite H0.
    eapply pspec_eq_bind; [apply (s_at_eq _ 0 c); by rewrite Ehead|]. cbv beta.
    rewrite (proj2 (Z.eqb_neq c 93)), (proj2 (Z.eqb_neq c 44)) by done. cbn [negb].
    eapply (pspec_bind _ _ _ (fun r s' => r = (invalidReference, b2) /\ s' = s1)); [by apply pspec_ret|].
    intros [l' b'] s' [[= -> ->] ->]. cbv beta iota.
    apply (at_elem_complete b s rest els e (slen b1) invalidReference s1 [] [] b2); [|done|done|done| |by left|].
    - split; [done|]. by exists c, q.
    - split; [by eapply node_kids|done].
    - unfold b1, after. cbn [dat]. rewrite Ec. rewrite !length_app. simpl. lia. }
  intros b3 s3 [-> (cs & [_ (r & d & En)] & Hsh)].
  eapply (pspec_eq_bind _ (after (after b2 (fst e ++ mid els ++ tailt els) (93 :: rest)) [93] rest));
    [by apply expect_eq|].
  apply pspec_ret. split.
  - unfold b2, b1, after, array_text. cbn [off]. simpl. rewrite !length_app. simpl. f_equal. lia.
  - split; [done|]. exists (T Array r d cs). split; [|done]. simpl. by rewrite Hsh.
Qed.
End Array.

Lemma empty_array_complete pv follow : parses (parseValArray pdata KeepComments pv) [91; 93] follow (Sh Array [] []).
Proof.
  intros b s rest Hb E Hr. unfold parseValArray. simpl in E.
  set (b1 := after b [91] (93 :: rest)).
  eapply (pspec_eq_bind _ b1); [rewrite s_from_eq by (rewrite E; simpl; lia); by rewrite E|].
  apply pspec_push_bind. intros s1 Hs1 _.
  eapply (pspec_bind _ _ _ (fun r s' => r = b1 /\ s' = s1)).
  { cbn [array_loop]. replace (0 <? slen b1)%nat with true by done.
    eapply (comments_blank s b1 s1 [] (93 :: rest)); [done|constructor|simpl; lia|].
    cbn [after dat length Nat.eqb]. eapply pspec_eq_bind; [by apply (s_at_eq _ 0 93)|]. cbv beta.
    cbn [Z.eqb Pos.eqb]. apply pspec_ret. split; [|done]. unfold after, b1, after. simpl. f_equal. lia. }
  intros r s' [-> ->]. eapply pspec_eq_bind; [by apply expect_eq|]. apply pspec_ret. split.
  - unfold b1, after. simpl. f_equal. lia.
  - split; [done|]. destruct (node_kids Array s s1 no_range no_data Hs1 (fun _ => True)) as [_ (r & d & En)].
    exists (T Array r d []). by split.
Qed.

(** *** Key-values and inline tables *)

Definition starts_value (txt : list Z) : Prop :=
  exists c q, txt = c :: q /\ isWhitespace c = false.

Definition kv_text (k vtxt : list Z) : list Z := encodeKey [] k ++ [32; 61; 32] ++ vtxt.

Lemma keyval_complete pv k vtxt sh :
  utf8 k -> parses pv vtxt val_end sh -> starts_value vtxt ->
  parses (parseKeyval_with pdata pv) (kv_text k vtxt) val_end (Sh KeyValue [] [sh; key_shape k]).
Proof.
  intros Hu Hpv (c & q & Ev & Hc) b s rest Hb E Hr. unfold parseKeyval_with, kv_text in *.
  rewrite <- !app_assoc in E. apply pspec_push_bind. intros s1 Hs1 _.
  eapply pspec_bind.
  { apply (parseKey_complete k [] [32] (61 :: 32 :: vtxt ++ rest)); [done|constructor|done|by rewrite E|by repeat constructor|].
    split_and!; done. }
  intros [key b1] s2 [-> (-> & keys & Hne & Hsh & E2)]. cbv beta iota.
  set (b1 := after b _ _).
  assert (Hsub1 : sub b1 pdata).
  { apply after_sub; [|done]. rewrite E. simpl. by rewrite <- app_assoc. }
  eapply pspec_eq_bind; [by apply parseWhitespace_none|].
  replace (slen b1 =? 0)%nat with false by done.
  eapply pspec_eq_bind; [by apply expect_eq|].
  set (b2 := after b1 [61] (32 :: vtxt ++ rest)). assert (Hsub2 : sub b2 pdata) by (by apply (after_sub b1 [61])).
  set (b3 := after b2 [32] (vtxt ++ rest)). assert (Hsub3 : sub b3 pdata) by (by apply (after_sub b2 [32])).
  eapply (pspec_eq_bind _ b3).
  { apply parseWhitespace_eq; [done|by repeat constructor|by rewrite Ev]. }
  eapply pspec_bind; [by apply (Hpv b3 s2 rest)|].
  intros [valRef b4] s3 [-> [-> (v & Hv & E4)]]. cbv beta iota.
  pose proof (@link_keyval ParserError (nodes s) no_range no_data keys v Hne) as Hlink.
  assert (Hlen : length (nodes s2) = (length (nodes s) + 1 + sizes keys)%nat).
  { rewrite E2, Hs1, !length_app, encs_length. done. }
  assert (En : nodes s3 = nodes s ++ Nd KeyValue no_range no_data 0 0 :: encs keys ++ enc 0 v).
  { rewrite E4, E2, Hs1. by rewrite <- !app_assoc. }
  rewrite <- En, <- Hlen in Hlink.
  destruct (set_next (nodes s3) (Z.of_nat (length (nodes s2))) (- Z.of_nat (sizes keys))) as [ns'|?| |] eqn:Es;
    try done.
  cbn [mbind go_mbind go_bind] in Hlink.
  eapply pspec_chain_bind.
  { rewrite <- Es. f_equal. rewrite Hs1, length_app, Hlen. simpl. lia. }
  intros s4 Hs4. eapply pspec_attach_bind.
  { rewrite Hs4, <- Hlink. f_equal. rewrite Hlen. lia. }
  intros s5 Hs5. apply pspec_ret. split.
  - unfold b3, b2, b1, after. cbn [off]. rewrite !length_app. cbn [length app dotted]. f_equal. lia.
  - split; [done|]. eexists. split; [|exact Hs5]. simpl. by rewrite Hv, Hsh.
Qed.

Section Inline.
Context (pv : slice -> P (Z * slice)).

Definition member_ok (e : list Z * shape) : Prop :=
  parses (parseKeyval_with pdata pv) (fst e) val_end (snd e) /\
  exists c q, fst e = c :: q /\ isWhitespace c = false /\ c <> 125.

Fixpoint members (es : list (list Z * shape)) : list Z :=
  match es with [] => [] | e :: es' => 44 :: 32 :: fst e ++ members es' end.

Lemma members_end es rest : val_end (members es ++ 32 :: 125 :: rest).
Proof. destruct es; simpl; lia. Qed.

(** What the loop does with a member that has been read. *)
Lemma inline_link s0 s s2 cs shs first child t :
  kids_are InlineTable s0 s cs shs -> first = bool_decide (cs = []) ->
  (cs <> [] -> child = lastPos (length (nodes s0)) cs) -> nodes s2 = nodes s ++ enc 0 t ->
  pspec (if first then attachChild (Z.of_nat (length (nodes s0))) (Z.of_nat (length (nodes s)))
         else chainTo child (Z.of_nat (length (nodes s)))) s2
    (fun _ s' => kids_are InlineTable s0 s' (cs ++ [t]) (shs ++ [shape_of t]) /\
       Z.of_nat (length (nodes s)) = lastPos (length (nodes s0)) (cs ++ [t])) never.
Proof.
  intros [Hk Hsh] Hfirst Hchild E.
  destruct (link_kid InlineTable (fun _ => True) s0 s s2 cs _ t ltac:(done) Hk I eq_refl E)
    as (ns' & Hns & Href & Hattach & Hchain).
  assert (Hq : forall s', nodes s' = ns' -> kids_are InlineTable s0 s' (cs ++ [t]) (shs ++ [shape_of t]) /\
    Z.of_nat (length (nodes s)) = lastPos (length (nodes s0)) (cs ++ [t])).
  { intros s' Hs'. split; [|done]. split; [by apply Hns|by rewrite map_app, Hsh]. }
  destruct first; symmetry in Hfirst.
  - apply bool_decide_eq_true in Hfirst. eapply pspec_attach; [by apply Hattach|done].
  - apply bool_decide_eq_false in Hfirst. rewrite (Hchild Hfirst). eapply pspec_chain; [by apply Hchain|done].
Qed.

Lemma inline_tail_complete s0 rest : forall es fuel child s cs shs b,
  Forall member_ok es -> sub b pdata -> dat b = members es ++ 32 :: 125 :: rest -> (length es < fuel)%nat ->
  kids_are InlineTable s0 s cs shs -> cs <> [] -> child = lastPos (length (nodes s0)) cs ->
  pspec (inline_loop pdata pv fuel (Z.of_nat (length (nodes s0))) child false b) s
    (fun r s' => r = after b (members es ++ [32]) (125 :: rest) /\
       exists cs', kids_are InlineTable s0 s' cs' (shs ++ map snd es)) never.
Proof.
  induction es as [|e es IH]; intros fuel child s cs shs b Hes Hb E Hf Hk Hne Hchild;
    (destruct fuel as [|fuel]; [simpl in Hf; lia|]); cbn [inline_loop].
  - simpl in E. replace (0 <? slen b)%nat with true by (by rewrite E).
    eapply (pspec_eq_bind _ (after b [32] (125 :: rest))).
    { by apply parseWhitespace_eq; [rewrite E|repeat constructor|]. }
    cbn [after dat length Nat.eqb]. eapply pspec_eq_bind; [by apply (s_at_eq _ 0 125)|]. cbv beta.
    cbn [Z.eqb Pos.eqb]. apply pspec_ret. split; [done|]. exists cs. by rewrite app_nil_r.
  - apply Forall_cons in Hes as [[Hp (c & q & Ec & Hc & Hc125)] Hes]. simpl in E. rewrite <- app_assoc in E.
    replace (0 <? slen b)%nat with true by (by rewrite E).
    eapply pspec_eq_bind; [apply parseWhitespace_none; by rewrite E|].
    replace (slen b =? 0)%nat with false by (by rewrite E).
    eapply pspec_eq_bind; [apply (s_at_eq _ 0 44); by rewrite E|]. cbv beta. cbn [Z.eqb Pos.eqb negb].
    set (b1 := after b [44] (32 :: fst e ++ members es ++ 32 :: 125 :: rest)).
    set (b2 := after b1 [32] (fst e ++ members es ++ 32 :: 125 :: rest)).
    assert (Hsub1 : sub b1 pdata) by (by apply (after_sub b [44])).
    assert (Hsub2 : sub b2 pdata) by (by apply (after_sub b1 [32])).
    eapply (pspec_bind _ _ _ (fun r s' => r = b2 /\ s' = s)).
    { eapply pspec_eq_bind; [by apply expect_eq|]. apply pspec_lift. eapply spec_eq; [|done].
      apply parseWhitespace_eq; [done|by repeat constructor|by rewrite Ec]. }
    intros ? ? [-> ->]. eapply pspec_bind; [by apply (Hp b2 s _ Hsub2 eq_refl), members_end|].
    intros [kv b3] s2 [-> [-> (t & Ht & En)]]. cbv beta iota.
    eapply pspec_bind.
    { apply (inline_link s0 s s2 cs shs false child t Hk); [by rewrite bool_decide_eq_false_2|done|done]. }
    intros _ s3 [Hk3 Hpos]. rewrite Ht in Hk3. eapply pspec_mono.
    { eapply (IH fuel _ s3 (cs ++ [t])); [done| |reflexivity|simpl in Hf; lia|exact Hk3|by destruct cs|exact Hpos].
      by apply (after_sub b2 (fst e)). }
    intros r s4 [-> (cs' & Hk')]. split; [|exists cs'; by rewrite <- app_assoc in Hk'].
    unfold b2, b1, after. cbn [off members]. rewrite !length_app. cbn [length]. rewrite length_app. f_equal. lia.
Qed.

(** The text of an inline table. *)
Definition inline_text (es : list (list Z * shape)) : list Z :=
  match es with
  | [] => [123; 32; 32; 125]
  | e :: es' => 123 :: 32 :: fst e ++ members es' ++ [32; 125]
  end.

Lemma inline_complete es follow :
  Forall member_ok es -> parses (parseInlineTable pdata pv) (inline_text es) follow (Sh InlineTable [] (map snd es)).
Proof.
  intros Hes b s rest Hb E Hr. unfold parseInlineTable.
  assert (E1 : exists body, dat b = 123 :: 32 :: body /\
    match es with [] => body = 32 :: 125 :: rest | e :: es' => body = fst e ++ members es' ++ 32 :: 125 :: rest end).
  { rewrite E. destruct es as [|e es]; [by eexists|]. exists (fst e ++ members es ++ 32 :: 125 :: rest).
    split; [|done]. cbn [inline_text app]. by rewrite <- !app_assoc. }
  destruct E1 as (body & E1 & Ebody).
  eapply (pspec_eq_bind _ (Sl (off b) [123])); [rewrite s_to_eq by (rewrite E1; simpl; lia); by rewrite E1|].
  destruct (range_ret (Sl (off b) [123])) as [r Er].
  { transitivity b; [|done]. exists [], (32 :: body). split; [done|simpl; lia]. }
  eapply pspec_eq_bind; [exact Er|]. apply pspec_push_bind. intros s1 Hs1 _.
  set (b1 := after b [123] (32 :: body)). assert (Hsub1 : sub b1 pdata) by (by apply (after_sub b [123])).
  eapply (pspec_eq_bind _ b1); [rewrite s_from_eq by (rewrite E1; simpl; lia); by rewrite E1|].
  assert (Hkids : kids_are InlineTable s s1 [] []) by (split; [by eapply node_kids|done]).
  set (b2 := after b1 [32] body). assert (Hsub2 : sub b2 pdata) by (by apply (after_sub b1 [32])).
  eapply (pspec_bind _ _ _ (fun q s' => dat q = 125 :: rest /\ (off q + 1 = off b + length (inline_text es))%nat /\
    exists cs', kids_are InlineTable s s' cs' (map snd es))).
  { cbn [inline_loop]. replace (0 <? slen b1)%nat with true by done. destruct es as [|e es].
    - subst body. eapply (pspec_eq_bind _ (after b1 [32; 32] (125 :: rest))).
      { by apply parseWhitespace_eq; [|repeat constructor|]. }
      cbn [after dat length Nat.eqb]. eapply pspec_eq_bind; [by apply (s_at_eq _ 0 125)|]. cbv beta.
      cbn [Z.eqb Pos.eqb]. apply pspec_ret. split; [done|]. split; [simpl; lia|]. eauto.
    - apply Forall_cons in Hes as [[Hp (c & q & Ec & Hc & Hc125)] Hes].
      eapply (pspec_eq_bind _ b2).
      { apply parseWhitespace_eq; [done|by repeat constructor|]. by rewrite Ebody, Ec. }
      assert (Ehead : dat b2 = c :: q ++ members es ++ 32 :: 125 :: rest).
      { unfold b2, after. cbn [dat]. by rewrite Ebody, Ec. }
      replace (slen b2 =? 0)%nat with false by (by rewrite Ehead).
      eapply pspec_eq_bind; [apply (s_at_eq _ 0 c); by rewrite Ehead|]. cbv beta.
      rewrite (proj2 (Z.eqb_neq c 125)) by done. cbn [negb].
      eapply (pspec_bind _ _ _ (fun r s' => r = b2 /\ s' = s1)); [by apply pspec_ret|]. intros ? ? [-> ->].
      eapply pspec_bind; [by apply (Hp b2 s1 (members es ++ 32 :: 125 :: rest) Hsub2 Ebody), members_end|].
      intros [kv b3] s2 [-> [-> (t & Ht & En)]]. cbv beta iota.
      eapply pspec_bind; [by apply (inline_link s s1 s2 [] [] true 0 t Hkids)|].
      intros _ s3 [Hk3 Hpos]. rewrite Ht in Hk3. eapply pspec_mono.
      { eapply (inline_tail_complete s rest es _ _ s3 [t]); [done| |reflexivity| |exact Hk3|done|exact Hpos].
        - by apply (after_sub b2 (fst e)).
        - unfold b1, after. cbn [dat length]. rewrite Ebody, !length_app.
          assert (Hl : forall l, (length l <= length (members l))%nat); [|specialize (Hl es); lia].
          induction l as [|x l IHl]; simpl; [lia|]. rewrite length_app. lia. }
      intros q' s4 [-> Hk']. split; [done|]. split; [|done].
      unfold b2, b1, after. cbn [off inline_text]. cbn [length]. rewrite !length_app. simpl. lia. }
  intros q s2 (Eq & Eoff & cs & [_ (r' & d' & En)] & Hsh).
  eapply pspec_eq_bind; [by apply expect_eq|]. apply pspec_ret. split.
  - unfold after. simpl. f_equal. lia.
  - split; [done|]. exists (T InlineTable r' d' cs). split; [|done]. simpl. by rewrite Hsh.
Qed.
End Inline.

(** Values of [parseVal] that start with a bracket. *)
Lemma array_val fuel txt follow sh : (exists q, txt = 91 :: q) ->
  parses (parseValArray pdata KeepComments (parseVal pdata KeepComments fuel)) txt follow sh ->
  parses (parseVal pdata KeepComments (S fuel)) txt follow sh.
Proof.
  intros [q ->] Hp b s rest Hb E Hr. cbn [parseVal]. replace (slen b =? 0)%nat with false by (by rewrite E).
  eapply pspec_eq_bind; [apply (s_at_eq _ 0 91); by rewrite E|]. cbv beta. cbn [Z.eqb Pos.eqb]. by apply Hp.
Qed.

Lemma inline_val fuel txt follow sh : (exists q, txt = 123 :: q) ->
  parses (parseInlineTable pdata (parseVal pdata KeepComments fuel)) txt follow sh ->
  parses (parseVal pdata KeepComments (S fuel)) txt follow sh.
Proof.
  intros [q ->] Hp b s rest Hb E Hr. cbn [parseVal]. replace (slen b =? 0)%nat with false by (by rewrite E).
  eapply pspec_eq_bind; [apply (s_at_eq _ 0 123); by rewrite E|]. cbv beta. cbn [Z.eqb Pos.eqb]. by apply Hp.
Qed.

(** ** Expressions *)

(** A line of a document, from its first character to the end of the line. *)
Definition line_end (rest : list Z) : Prop := match rest with [] => True | c :: _ => c = 10 end.

Lemma line_end_val rest : line_end rest -> val_end rest.
Proof. destruct rest; [done|]. simpl. auto. Qed.

(** The dotted key of a table header. *)
Definition path_text (p : list (list Z)) : list Z :=
  match p with [] => [] | k :: ks => encodeKey [] k ++ dotted ks end.

Definition header_text (k : Kind) (p : list (list Z)) : list Z :=
  match k with
  | ArrayTable => [91; 91] ++ path_text p ++ [93; 93]
  | _ => [91] ++ path_text p ++ [93]
  end.

Lemma path_head p : p <> [] -> Forall utf8 p -> exists c q,
  path_text p = c :: q /\ isWhitespace c = false /\ c <> 91.
Proof.
  destruct p as [|k ks]; [done|]. intros _ Hp. apply Forall_cons in Hp as [Hk _].
  destruct (encodeKey_head k Hk) as (c & q & E & Hw & _ & _ & _ & H91 & _).
  exists c, (q ++ dotted ks). simpl. by rewrite E.
Qed.

(** A header from its key to its closing bracket. *)
Lemma header_keys k n b s s1 p tail :
  k <> KeyValue -> is_container k = true -> p <> [] -> Forall utf8 p -> sub b pdata -> (n <= slen b)%nat ->
  drop n (dat b) = path_text p ++ 93 :: tail -> nodes s1 = nodes s ++ [Nd k no_range no_data 0 0] ->
  forall B (cont : slice -> P B) Q,
  (forall s', pushed (fun t => shape_of t = Sh k [] (map key_shape p)) s s' (Z.of_nat (length (nodes s))) ->
     pspec (cont (Sl (off b + n + length (path_text p)) (93 :: tail))) s' Q never) ->
  pspec (b ← lift (s_from b n);
         b ← lift (parseWhitespace b);
         kb ← parseKey pdata b;
         let '(key, b) := (kb : Z * slice) in
         _ ← attachChild (Z.of_nat (length (nodes s))) key;
         b ← lift (parseWhitespace b);
         cont b) s1 Q never.
Proof.
  intros Hk Hck Hp Hu Hb Hn E Hs1 B cont Q Hcont.
  set (b1 := Sl (off b + n) (path_text p ++ 93 :: tail)).
  assert (Hsub1 : sub b1 pdata).
  { transitivity b; [|done]. unfold b1. rewrite <- E. by apply sub_from. }
  eapply (pspec_eq_bind _ b1); [rewrite s_from_eq by done; by rewrite E|].
  destruct (path_head p Hp Hu) as (c & q & Ep & Hc & _).
  eapply pspec_eq_bind; [apply parseWhitespace_none; unfold b1; cbn [dat]; by rewrite Ep|].
  destruct p as [|k0 ks]; [done|]. apply Forall_cons in Hu as [Hu0 Hus].
  eapply pspec_bind.
  { apply (parseKey_complete k0 ks [] (93 :: tail) b1 s1 Hu0 Hus Hsub1); [|constructor|done].
    unfold b1. simpl. by rewrite <- app_assoc. }
  intros [key b2] s2 [-> (-> & keys & Hne & Hsh & E2)]. cbv beta iota.
  eapply pspec_attach_bind.
  { rewrite E2, Hs1, length_app, <- app_assoc. simpl app. simpl length.
    replace (Z.of_nat (length (nodes s) + 1) - Z.of_nat (length (nodes s))) with 1 by lia.
    by apply link_table. }
  intros s3 Hs3. eapply pspec_eq_bind; [by apply parseWhitespace_none|].
  unfold after, b1. cbn [off]. rewrite app_nil_r. apply Hcont. split; [done|]. eexists. split; [|exact Hs3].
  simpl. by rewrite Hck, Hsh.
Qed.

(** [parses_line txt osh]: the text of a line, without the new line; [None] is
    a blank line. *)
Definition parses_line (txt : list Z) (osh : option shape) : Prop :=
  forall b s rest, sub b pdata -> dat b = txt ++ rest -> line_end rest ->
  pspec (parseExpression pdata KeepComments b) s
    (fun '(ref, r) s' => r = after b txt rest /\
       match osh with
       | None => ref = invalidReference /\ nodes s' = nodes s
       | Some sh => pushed (fun t => shape_of t = sh) s s' ref
       end) never.

Lemma blank_line : parses_line [] None.
Proof.
  intros b s rest Hb E Hr. simpl in E. unfold parseExpression.
  assert (Ha : after b [] rest = b) by (unfold after; simpl; by rewrite Nat.add_0_r, <- E, sl_eta).
  eapply pspec_eq_bind.
  { apply parseWhitespace_none. rewrite E. destruct rest; [done|]. simpl in Hr. by subst. }
  rewrite Ha. destruct rest as [|c rest].
  - rewrite E. apply pspec_ret. done.
  - simpl in Hr. subst c. replace (slen b =? 0)%nat with false by (by rewrite E).
    eapply pspec_eq_bind; [apply (s_at_eq _ 0 10); by rewrite E|]. cbv beta. cbn [Z.eqb Pos.eqb orb].
    by apply pspec_ret.
Qed.

(** The parts of [parseExpression] around an expression. *)
Lemma expression_line ind txt sh c q :
  Forall (fun c => isWhitespace c = true) ind -> txt = c :: q -> isWhitespace c = false ->
  c <> 35 -> c <> 10 -> c <> 13 ->
  (if c =? 91 then parses (parseTable pdata) txt line_end sh
   else parses (parseKeyval pdata KeepComments) txt line_end sh) ->
  parses_line (ind ++ txt) (Some sh).
Proof.
  intros Hind Et Hc H35 H10 H13 Hp b s rest Hb E Hr. rewrite <- app_assoc in E. unfold parseExpression.
  set (b1 := after b ind (txt ++ rest)). assert (Hsub1 : sub b1 pdata) by (by apply (after_sub b ind)).
  eapply (pspec_eq_bind _ b1).
  { apply parseWhitespace_eq; [done..|]. by rewrite Et. }
  assert (E1 : dat b1 = c :: q ++ rest) by (unfold b1, after; cbn [dat]; by rewrite Et).
  replace (slen b1 =? 0)%nat with false by (by rewrite E1).
  eapply pspec_eq_bind; [apply (s_at_eq _ 0 c); by rewrite E1|]. cbv beta.
  rewrite (proj2 (Z.eqb_neq c 35)), (proj2 (Z.eqb_neq c 10)), (proj2 (Z.eqb_neq c 13)) by done. cbn [orb].
  set (b2 := after b1 txt rest).
  eapply (pspec_bind _ _ _ (fun '(ref, r) s' => r = b2 /\ pushed (fun t => shape_of t = sh) s s' ref)).
  { destruct (c =? 91); by apply (Hp b1 s rest). }
  intros [ref r] s2 [-> Hpush]. cbv beta iota.
  assert (Hw : match dat b2 with [] => True | c :: _ => isWhitespace c = false end).
  { unfold b2, after. cbn [dat]. destruct rest; [done|]. simpl in Hr. by subst. }
  eapply pspec_eq_bind; [by apply parseWhitespace_none|].
  replace (starts b2 35) with false.
  2:{ unfold starts, b2, after. cbn [dat]. destruct rest; [done|]. simpl in Hr. by subst. }
  apply pspec_ret. split; [|done]. unfold b2, b1, after. cbn [off]. rewrite length_app. f_equal. lia.
Qed.

Lemma std_header_complete p : p <> [] -> Forall utf8 p ->
  parses (parseTable pdata) (header_text Table p) line_end (Sh Table [] (map key_shape p)).
Proof.
  intros Hp Hu b s rest Hb E Hr. unfold header_text in *.
  assert (E1 : dat b = 91 :: path_text p ++ 93 :: rest) by (rewrite E; cbn [app]; by rewrite <- app_assoc).
  destruct (path_head p Hp Hu) as (c & q & Ep & Hc & H91). unfold parseTable.
  eapply (pspec_eq_bind _ false).
  { rewrite E1, Ep. cbn [length Nat.ltb Nat.leb app]. rewrite (s_at_eq b 1 c) by (by rewrite E1, Ep). cbn.
    by rewrite (proj2 (Z.eqb_neq c 91)). }
  cbv beta iota. unfold parseStdTable. apply pspec_push_bind. intros s1 Hs1 _.
  apply (header_keys Table 1 b s s1 p rest); [done|done|done|done|done|rewrite E1; simpl; lia|by rewrite E1; simpl; rewrite drop_0|done|].
  intros s' Hs'. eapply pspec_eq_bind; [by apply expect_eq|]. apply pspec_ret. split; [|done].
  unfold after. cbn [off length app]. rewrite length_app. simpl. f_equal. lia.
Qed.

Lemma array_header_complete p : p <> [] -> Forall utf8 p ->
  parses (parseTable pdata) (header_text ArrayTable p) line_end (Sh ArrayTable [] (map key_shape p)).
Proof.
  intros Hp Hu b s rest Hb E Hr. unfold header_text in *.
  assert (E1 : dat b = 91 :: 91 :: path_text p ++ 93 :: 93 :: rest) by (rewrite E; cbn [app]; by rewrite <- app_assoc).
  unfold parseTable. eapply (pspec_eq_bind _ true).
  { rewrite E1. cbn [length Nat.ltb Nat.leb app]. by rewrite (s_at_eq b 1 91) by (by rewrite E1). }
  cbv beta iota. unfold parseArrayTable. apply pspec_push_bind. intros s1 Hs1 _.
  apply (header_keys ArrayTable 2 b s s1 p (93 :: rest)); [done|done|done|done|done|rewrite E1; simpl; lia|by rewrite E1|done|].
  intros s' Hs'. eapply pspec_eq_bind; [by apply expect_eq|]. eapply pspec_eq_bind; [by apply expect_eq|].
  apply pspec_ret. split; [|done].
  unfold after. cbn [off length app]. rewrite length_app. simpl. f_equal. lia.
Qed.

(** ** Documents *)

Definition doc_text (ls : list line) : list Z := ls ≫= fun l => fst l ++ [10].

Definition line_ok (l : line) : Prop := parses_line (fst l) (snd l).

(** Where the parser is between two lines. *)
Definition at_lines (p : Parser) (ls : list line) : Prop :=
  p_err p = None /\ p_data p = pdata /\ p_KeepComments p = KeepComments /\ sub (p_left p) pdata /\
  dat (p_left p) = (if p_first p then [] else [10]) ++ doc_text ls.

(** The next expression of the document, and the lines after it. *)
Fixpoint next_expr (ls : list line) : option (shape * list line) :=
  match ls with
  | [] => None
  | (_, Some sh) :: ls' => Some (sh, ls')
  | (_, None) :: ls' => next_expr ls'
  end.

Definition next_ok (ls : list line) (r : bool * Parser) : Prop :=
  let '(more, p') := r in
  match next_expr ls with
  | None => more = false /\ p_err p' = None
  | Some (sh, ls') => more = true /\ at_lines p' ls' /\ p_first p' = false /\
      exists t, shape_of t = sh /\ nodes (p_builder p') = enc 0 t /\ p_ref p' = 0
  end.

Lemma next_loop_lines ls : forall fuel p,
  Forall line_ok ls -> at_lines p ls -> nodes (p_builder p) = [] -> (length ls < fuel)%nat ->
  spec (next_loop fuel p) (next_ok ls) never.
Proof.
  induction ls as [|[txt osh] ls IH]; intros fuel p Hls (He & Hd & Hk & Hs & El) Hn Hf;
    (destruct fuel as [|fuel]; [simpl in Hf; lia|]); cbn [next_loop].
  - rewrite El. destruct (p_first p) eqn:Ef; cbn [doc_text mbind list_bind app length Nat.eqb negb]; [done|].
    assert (Hnl : parseNewline (p_left p) = Ret (after (p_left p) [10] [])).
    { unfold parseNewline. rewrite (s_at_eq _ 0 10) by (by rewrite El). cbn.
      rewrite s_from_eq by (rewrite El; simpl; lia). by rewrite El. }
    rewrite Hnl. cbn [after dat length Nat.eqb]. done.
  - apply Forall_cons in Hls as [Hl Hls].
    assert (Edoc : doc_text ((txt, osh) :: ls) = txt ++ 10 :: doc_text ls).
    { unfold doc_text. rewrite bind_cons. cbn [fst]. by rewrite <- app_assoc. }
    rewrite Edoc in El.
    set (rest := if p_first p then p_left p else after (p_left p) [10] (txt ++ 10 :: doc_text ls)).
    assert (Hrest : (if negb (p_first p) then parseNewline (p_left p) else mret (p_left p)) = Ret rest).
    { unfold rest. destruct (p_first p); cbn [negb]; [done|].
      unfold parseNewline. rewrite (s_at_eq _ 0 10) by (by rewrite El). cbn [mbind go_mbind go_bind Z.eqb Pos.eqb].
      rewrite s_from_eq by (rewrite El; simpl; lia). by rewrite El. }
    assert (Erest : dat rest = txt ++ 10 :: doc_text ls).
    { unfold rest. destruct (p_first p); [exact El|done]. }
    assert (Hsrest : sub rest pdata).
    { unfold rest. destruct (p_first p); [done|]. by apply (after_sub (p_left p) [10]). }
    assert (Hl0 : (slen (p_left p) =? 0)%nat = false).
    { apply Nat.eqb_neq. rewrite El, !length_app. simpl. lia. }
    rewrite Hl0, Hrest. assert (Hr0 : (slen rest =? 0)%nat = false).
    { apply Nat.eqb_neq. rewrite Erest, length_app. simpl. lia. }
    rewrite Hr0, Hd, Hk. pose proof (Hl rest (p_builder p) (10 :: doc_text ls) Hsrest Erest eq_refl) as Hexp.
    unfold pspec in Hexp. cbn [fst snd] in Hexp.
    destruct (parseExpression pdata KeepComments rest (p_builder p)) as [[[ref r] s']|?| |]; try done.
    destruct Hexp as [-> Hosh]. set (p' := Prs _ _ _ _ _ _ _).
    assert (Hat : at_lines p' ls).
    { split_and!; [done..| |done]. by apply (after_sub rest txt). }
    destruct osh as [sh|].
    + destruct Hosh as [-> (t & Ht & En)]. rewrite Hn in En |- *. cbn [length] in *.
      unfold Valid, invalidReference. cbn [Z.of_nat Z.eqb negb]. cbn [spec]. split_and!; [done|done|done|]. exists t. split_and!; [done|done|]. unfold p'. cbn [p_ref]. by rewrite Hn.
    + destruct Hosh as [-> En]. unfold Valid. rewrite Z.eqb_refl. cbn [negb].
      eapply spec_mono; [apply (IH fuel p'); [done|done|by rewrite <- Hn|simpl in Hf; lia]| |done].
      intros [more p'']. done.
Qed.

Lemma doc_text_length ls : (length ls <= length (doc_text ls))%nat.
Proof.
  induction ls as [|l ls IH]; [simpl; lia|]. unfold doc_text in *. rewrite bind_cons, !length_app. simpl. lia.
Qed.

Lemma NextExpression_lines ls p :
  Forall line_ok ls -> at_lines p ls -> spec (NextExpression p) (next_ok ls) never.
Proof.
  intros Hls Hat. pose proof Hat as (He & Hd & Hk & Hs & El). unfold NextExpression. rewrite He.
  pose proof (doc_text_length ls). destruct (Nat.eqb_spec (slen (p_left p)) 0) as [H0|H0].
  - rewrite El, length_app in H0. destruct ls; [|simpl in *; lia]. done.
  - apply next_loop_lines; [done|done|done|]. rewrite El, length_app. lia.
Qed.

Lemma expressions_lines ls : forall fuel p,
  Forall line_ok ls -> at_lines p ls -> (length ls < fuel)%nat ->
  spec (expressions fuel p) (fun '(ts, e) => map shape_of ts = omap snd ls /\ e = None) never.
Proof.
  remember (length ls) as n eqn:En. revert ls En. induction (lt_wf n) as [n _ IH].
  intros ls -> fuel p Hls Hat Hf. destruct fuel as [|fuel]; [lia|]. cbn [expressions].
  eapply spec_bind; [by apply (NextExpression_lines ls)|]. intros [more p'] Hnext. unfold next_ok in Hnext.
  assert (Hsplit : match next_expr ls with
    | None => omap snd ls = []
    | Some (sh, ls') => omap snd ls = sh :: omap snd ls' /\ (length ls' < length ls)%nat /\ Forall line_ok ls'
    end).
  { clear -Hls. induction Hls as [|[txt [sh|]] ls Hl Hls IHls]; cbn; [done|split_and!; [done|lia|done]|].
    destruct (next_expr ls) as [[sh ls']|]; [|done]. destruct IHls as (-> & H1 & H2). split_and!; [done|lia|done]. }
  destruct (next_expr ls) as [[sh ls']|].
  - destruct Hnext as (-> & Hat' & _ & t & Ht & En' & Hr). destruct Hsplit as (-> & Hlt & Hls').
    assert (Eexp : Expression p' = Ret 0).
    { unfold Expression, NodeAt. rewrite Hr, En'. destruct (enc_root 0 t) as (ch & l & -> & _). done. }
    rewrite Eexp. cbn [mbind go_mbind go_bind].
    pose proof (@walk_enc_fuel ParserError t (S (length (nodes (p_builder p')))) 0 [] []) as Hw.
    change (Z.of_nat (length [])) with 0 in Hw. cbn [app] in Hw. rewrite app_nil_r, <- En' in Hw.
    rewrite Hw by (rewrite En', enc_length; lia). cbn [mbind go_mbind go_bind].
    eapply spec_bind; [eapply (IH (length ls') Hlt ls' eq_refl); [done|done|lia]|].
    intros [ts err] [Hts ->]. apply spec_ret. cbn [map]. by rewrite Ht, Hts.
  - destruct Hnext as [-> ->]. rewrite Hsplit. done.
Qed.
End Complete.
End TomlComplete.
