(* ===== verification/TomlDocument.v ===== *)
(** * Documents of generic data: encode, parse, load

    The data that a TOML document can hold when it is decoded into Go's generic
    types ([map[string]interface{}], [[]interface{}], strings, integers and
    booleans) is [tv]. The encoder ([TomlMarshal]) writes it, the parser
    ([TomlParser]) reads it, and [load] says what a sequence of expressions
    means: the composition is the identity. *)
From stdpp Require Import base numbers list gmap strings sorting.
From S2P Require Import Prelude Strconv TomlChars TomlScan TomlDecode TomlTime TomlAst TomlParser TomlMarshal TomlRoundtrip TomlComplete.
#[local] Open Scope Z_scope.

Module TomlDocument.
Import Strconv TomlChars TomlRoundtrip TomlComplete TomlMarshal.

(** ** Generic data *)

(** A table lists its entries by increasing key. *)
Inductive tv :=
| TStr (s : list Z)
| TInt (z : Z)
| TBool (x : bool)
| TArr (l : list tv)
| TTab (l : list (list Z * tv)).

Lemma tv_ind' (P : tv -> Prop) :
  (forall s, P (TStr s)) -> (forall z, P (TInt z)) -> (forall x, P (TBool x)) ->
  (forall l, Forall P l -> P (TArr l)) ->
  (forall l, Forall (fun kx => P (snd kx)) l -> P (TTab l)) -> forall v, P v.
Proof.
  intros H1 H2 H3 H4 H5. fix IH 1. intros [s|z|x|l|l]; [apply H1|apply H2|apply H3|apply H4|apply H5].
  - induction l as [|x l IHl]; constructor; [apply IH|exact IHl].
  - induction l as [|[k x] l IHl]; constructor; [apply IH|exact IHl].
Qed.

(** The order of keys. *)
Definition key_lt (a b : list Z) : Prop := bytes_le a b = true /\ a <> b.

(** Text in UTF-8, integers of 64 bits, keys in order. *)
Fixpoint tv_ok (v : tv) : Prop :=
  match v with
  | TStr s => utf8 s
  | TInt z => int64_ok z
  | TBool _ => True
  | TArr l => foldr (fun x P => tv_ok x /\ P) True l
  | TTab l => StronglySorted (fun a b : list Z * tv => key_lt (fst a) (fst b)) l /\
      foldr (fun (kx : list Z * tv) P => (utf8 (fst kx) /\ tv_ok (snd kx)) /\ P) True l
  end.

Lemma foldr_and {A} (P : A -> Prop) l : foldr (fun x Q => P x /\ Q) True l <-> Forall P l.
Proof. induction l as [|x l IH]; simpl; [split; [constructor|done]|]. by rewrite Forall_cons, IH. Qed.

Section Document.
Context `{GoFloat} `{GoUnicode} {typ : Type}.
Context (Zero : typ -> value (typ := typ)) (e : Encoder).

(** The Go value. *)
Fixpoint inj (v : tv) : value (typ := typ) :=
  match v with
  | TStr s => VString s
  | TInt z => VInt z
  | TBool x => VBool x
  | TArr l => VSlice (map (fun x => VInterface (Some (inj x))) l)
  | TTab l => VMap (Some (map (fun kx : list Z * tv => (KString (fst kx), VInterface (Some (inj (snd kx))))) l))
  end.

(** How many calls of [encode] nest. *)
Fixpoint depth (v : tv) : nat :=
  match v with
  | TArr l => S (S (foldr (fun x n => depth x `max` n)%nat 0%nat l))
  | TTab l => S (S (foldr (fun (kx : list Z * tv) n => depth (snd kx) `max` n)%nat 0%nat l))
  | _ => 1%nat
  end.

(** ** What the encoder writes for a value after an equals sign *)

Definition indt (n : nat) : list Z := concat (replicate n (indentSymbol e)).

Lemma write_indent_eq n b : write_indent e n b = b ++ indt n.
Proof.
  revert b. induction n as [|n IH]; intros b; [by rewrite app_nil_r|]. cbn [write_indent].
  rewrite IH. unfold indt. simpl. by rewrite <- app_assoc.
Qed.

Definition sep (ind : nat) : list Z := if arraysMultiline e then 10 :: indt ind else [32].

Fixpoint vtext (ind : nat) (v : tv) : list Z :=
  match v with
  | TStr s => encodeQuotedString false [] s
  | TInt z => FormatInt z 10
  | TBool x => if x then bs "true" else bs "false"
  | TArr [] => [91; 93]
  | TArr (x :: l) =>
      let ind' := if arraysMultiline e then S ind else ind in
      91 :: sep ind' ++ vtext ind' x ++ (l ≫= fun y => 44 :: sep ind' ++ vtext ind' y) ++ sep ind ++ [93]
  | TTab [] => [123; 32; 32; 125]
  | TTab ((k, x) :: l) =>
      123 :: 32 :: kv_text k (vtext ind x) ++
      (l ≫= fun ky => 44 :: 32 :: kv_text (fst ky) (vtext ind (snd ky))) ++ [32; 125]
  end.

(** *** The entries of a map *)

Definition kv_of (kx : list Z * tv) : map_key * value (typ := typ) :=
  (KString (fst kx), VInterface (Some (inj (snd kx)))).
Definition entry_of (kx : list Z * tv) : entry (typ := typ) :=
  Ent (fst kx) (VInterface (Some (inj (snd kx)))) no_options.

(** Whether a value becomes a table or an array of tables. *)
Definition is_tab (v : tv) : bool := match v with TTab _ => true | _ => false end.
Definition tabular (v : tv) : bool :=
  negb (tablesInline e) &&
  match v with TTab _ => true | TArr (x :: l) => forallb is_tab (x :: l) | _ => false end.

Lemma wct_inj c v : c_inline c = tablesInline e ->
  willConvertToTable Zero c (VInterface (Some (inj v))) = negb (tablesInline e) && is_tab v.
Proof. intros Hc. destruct v; cbn; rewrite ?Hc, ?andb_true_r, ?andb_false_r; done. Qed.

Lemma wc_elems c l : c_inline c = tablesInline e ->
  forallb (willConvertToTable Zero c) (map (fun x => VInterface (Some (inj x))) l) =
  forallb (fun x => negb (tablesInline e) && is_tab x) l.
Proof. intros Hc. induction l as [|x l IH]; [done|]. cbn [map forallb]. by rewrite IH, wct_inj. Qed.

Lemma forallb_guard (x : bool) (f : tv -> bool) y l :
  forallb (fun v => x && f v) (y :: l) = x && forallb f (y :: l).
Proof. destruct x; [done|]. done. Qed.

Lemma wc_inj c v : insideKv c = false -> c_inline c = tablesInline e ->
  willConvertToTableOrArrayTable Zero c (VInterface (Some (inj v))) = Ret (tabular v).
Proof.
  intros Hi Hc. unfold tabular. destruct v as [| | |l|l]; cbn [inj willConvertToTableOrArrayTable]; rewrite !Hi;
    cbn [willConvertToTable has_text]; rewrite ?Hc, ?andb_true_r, ?andb_false_r; try done.
  rewrite length_map. destruct l as [|x l]; [by rewrite andb_false_r|]. cbn [length Nat.eqb].
  by rewrite wc_elems, forallb_guard.
Qed.

Lemma sorted_keys l : StronglySorted (fun a b : list Z * tv => key_lt (fst a) (fst b)) l -> NoDup (fst <$> l).
Proof.
  induction 1 as [|[k x] l Hs IH Hf]; [constructor|]. cbn. constructor; [|done].
  intros (y & -> & Hy)%list_elem_of_fmap. rewrite Forall_forall in Hf. by destruct (Hf y Hy) as [_ []].
Qed.

Lemma string_keys l : mapM string_key (kv_of <$> l) = Some (fst <$> l).
Proof. induction l as [|kx l IH]; [done|]. cbn. by rewrite IH. Qed.

Lemma sort_id (P : list Z * tv -> Prop) `{!forall x, Decision (P x)} l :
  StronglySorted (fun a b : list Z * tv => key_lt (fst a) (fst b)) l ->
  sortEntriesByKey (entry_of <$> filter P l) = entry_of <$> filter P l.
Proof.
  intros Hs. apply (StronglySorted_unique_strong key_le); [|apply sort_sorted| |apply sort_perm].
  - intros x1 x2 Hx1 Hx2 Hle Hge. assert (E := bytes_le_antisym _ _ Hle Hge).
    rewrite sort_perm in Hx1. apply list_elem_of_fmap in Hx1 as (y1 & -> & Hy1), Hx2 as (y2 & -> & Hy2).
    cbn in E. apply list_elem_of_filter in Hy1 as [_ Hy1], Hy2 as [_ Hy2].
    apply list_elem_of_lookup in Hy1 as [i Hi], Hy2 as [j Hj].
    assert (i = j); [|by simplify_eq]. eapply NoDup_lookup; [by apply sorted_keys|..];
      rewrite list_lookup_fmap, ?Hi, ?Hj; simpl; by rewrite ?E.
  - induction Hs as [|x l Hs IH Hf]; [constructor|]. rewrite filter_cons. case_decide; [|done].
    cbn. constructor; [done|]. apply Forall_fmap, Forall_forall. intros y [_ Hy]%list_elem_of_filter.
    rewrite Forall_forall in Hf. by destruct (Hf y Hy).
Qed.

(** What becomes a table in a context. *)
Definition tab_in (c : encoderCtx) (kx : list Z * tv) : bool := negb (insideKv c) && tabular (snd kx).

Lemma wc_in c v : c_inline c = tablesInline e ->
  willConvertToTableOrArrayTable Zero c (VInterface (Some (inj v))) = Ret (negb (insideKv c) && tabular v).
Proof.
  intros Hc. destruct (insideKv c) eqn:Hi; [|by apply wc_inj]. cbn [willConvertToTableOrArrayTable]. by rewrite Hi.
Qed.

Lemma chosen_entries c w (l : list (list Z * tv)) : c_inline c = tablesInline e ->
  omap (chosen Zero c w) (kv_of <$> l) = entry_of <$> filter (fun kx => tab_in c kx = w) l.
Proof.
  intros Hc. induction l as [|kx l IH]; [done|]. cbn [fmap list_fmap omap list_omap].
  replace (chosen Zero c w (kv_of kx)) with (if Bool.eqb w (tab_in c kx) then Some (entry_of kx) else None).
  2:{ cbn [chosen kv_of isNil]. by rewrite wc_in. }
  rewrite filter_cons. case_decide as Hw.
  - rewrite Hw, Bool.eqb_reflx. cbn. by rewrite <- IH.
  - replace (Bool.eqb w (tab_in c kx)) with false; [done|]. symmetry. apply Bool.eqb_false_iff. congruence.
Qed.

Lemma map_entries c (l : list (list Z * tv)) : c_inline c = tablesInline e ->
  StronglySorted (fun a b : list Z * tv => key_lt (fst a) (fst b)) l ->
  exists t, map_loop Zero c (kv_of <$> l) (Tab [] []) = Ret t /\
    sortEntriesByKey (kvs t) = entry_of <$> filter (fun kx => tab_in c kx = false) l /\
    sortEntriesByKey (tables t) = entry_of <$> filter (fun kx => tab_in c kx = true) l.
Proof.
  intros Hc Hs. eexists. split.
  { apply (map_loop_entries Zero c _ _ (fst <$> l)); [apply string_keys| |by apply sorted_keys|].
    - intros He. apply Exists_exists in He as (y & (kx & -> & _)%list_elem_of_fmap & Hp).
      destruct Hp as [_ Hp]. cbn [kv_of snd] in Hp. by rewrite wc_in in Hp.
    - intros ? _. cbn. split; apply not_elem_of_nil. }
  cbn [kvs tables app]. rewrite !chosen_entries by done. split; by apply sort_id.
Qed.

(** *** Values *)

(** The contexts of values after an equals sign. *)
Definition in_value (ind : nat) (c : encoderCtx) : Prop :=
  insideKv c = true /\ c_options c = no_options /\ c_inline c = tablesInline e /\ c_indent c = ind.

Section Elems.
Context (rec : list Z -> encoderCtx -> value (typ := typ) -> go EncodeError (list Z)).

Definition writes (ind : nat) (v : tv) (txt : list Z) : Prop :=
  forall b c, in_value ind c -> rec b c (VInterface (Some (inj v))) = Ret (b ++ txt).

Lemma array_elems_eq f ind c l b : in_value ind c -> Forall (fun x => writes ind x (f x)) l ->
  array_elems e rec (arraysMultiline e) (map (fun x => VInterface (Some (inj x))) l) false b c =
  Ret (b ++ (l ≫= fun y => 44 :: sep ind ++ f y)).
Proof.
  intros Hc Hl. revert b. induction Hl as [|x l Hx Hl IH]; intros b; [by rewrite app_nil_r|].
  cbn [map array_elems]. rewrite write_indent_eq, (Hx _ _ Hc). cbn [mbind go_mbind go_bind].
  rewrite IH, bind_cons. destruct Hc as (_ & _ & _ & ->). unfold sep.
  f_equal. destruct (arraysMultiline e); simpl; by rewrite <- ?app_assoc.
Qed.

Lemma encodeSliceAsArray_eq f ind c x l b : in_value ind c ->
  Forall (fun x => writes (if arraysMultiline e then S ind else ind) x (f x)) (x :: l) ->
  encodeSliceAsArray e rec b c (map (fun x => VInterface (Some (inj x))) (x :: l)) =
  Ret (b ++ let ind' := if arraysMultiline e then S ind else ind in
       91 :: sep ind' ++ f x ++ (l ≫= fun y => 44 :: sep ind' ++ f y) ++ sep ind ++ [93]).
Proof.
  intros (Hi & Ho & Hl & Hn) Hf. set (ind' := if arraysMultiline e then S ind else ind) in *.
  unfold encodeSliceAsArray. rewrite Ho. cbn [o_multiline no_options orb].
  set (c' := if arraysMultiline e then set_indent _ _ else _).
  assert (Hc' : in_value ind' c').
  { unfold c', ind'. destruct (arraysMultiline e); split_and!; cbn; try done. by rewrite Hn. }
  apply Forall_cons in Hf as [Hx Hf]. cbn [map array_elems]. rewrite write_indent_eq, (Hx _ _ Hc').
  cbn [mbind go_mbind go_bind]. rewrite (array_elems_eq f ind') by done. cbn [mbind go_mbind go_bind].
  rewrite write_indent_eq, Hn. destruct Hc' as (_ & _ & _ & ->). unfold sep, mret, go_mret.
  f_equal. destruct (arraysMultiline e); simpl; rewrite <- ?app_assoc; simpl; by rewrite <- ?app_assoc.
Qed.

Lemma encodeKv_value f ind c k (v : tv) b : insideKv c = true -> c_inline c = tablesInline e -> c_indent c = ind ->
  writes ind v (f v) ->
  encodeKv e rec b (setKey c k) no_options (VInterface (Some (inj v))) = Ret (b ++ kv_text k (f v)).
Proof.
  intros Hi Hl Hn Hx. unfold encodeKv. cbn [setKey c_inline insideKv key]. rewrite Hi, andb_false_r.
  rewrite Hx by (by split_and!). cbn [mbind go_mbind go_bind]. unfold mret, go_mret. f_equal.
  rewrite encodeKey_eq. unfold kv_text. by rewrite <- !app_assoc.
Qed.

Lemma inline_kvs_eq f ind (l : list (list Z * tv)) : forall c b,
  insideKv c = true -> c_inline c = tablesInline e -> c_indent c = ind ->
  Forall (fun kx => writes ind (snd kx) (f (snd kx))) l ->
  inline_kvs e rec (entry_of <$> l) false b c =
  Ret (b ++ (l ≫= fun kx => 44 :: 32 :: kv_text (fst kx) (f (snd kx)))).
Proof.
  induction l as [|kx l IH]; intros c b Hi Hl Hn Hf; [by rewrite app_nil_r|].
  apply Forall_cons in Hf as [Hx Hf]. cbn [fmap list_fmap inline_kvs].
  change (shouldOmitEmpty _ _) with false. cbn [entry_of Options Value Key]. cbv iota.
  rewrite (encodeKv_value f ind) by done. cbn [mbind go_mbind go_bind].
  rewrite IH by done. rewrite bind_cons. by rewrite <- !app_assoc.
Qed.

Lemma encodeTableInline_eq f ind (l : list (list Z * tv)) c b :
  insideKv c = true -> c_inline c = tablesInline e -> c_indent c = ind ->
  Forall (fun kx => writes ind (snd kx) (f (snd kx))) l ->
  encodeTableInline e rec b c (Tab (entry_of <$> l) []) =
  Ret (b ++ match l with
            | [] => [123; 32; 32; 125]
            | (k, x) :: l => 123 :: 32 :: kv_text k (f x) ++
                (l ≫= fun ky => 44 :: 32 :: kv_text (fst ky) (f (snd ky))) ++ [32; 125]
            end).
Proof.
  intros Hi Hl Hn Hf. unfold encodeTableInline. cbn [kvs tables length]. destruct l as [|[k x] l].
  { cbn. by rewrite <- app_assoc. }
  apply Forall_cons in Hf as [Hx Hf]. cbn [fmap list_fmap inline_kvs].
  change (shouldOmitEmpty _ _) with false. cbn [entry_of Options Value Key fst snd]. cbv iota.
  rewrite (encodeKv_value f ind) by done. cbn [mbind go_mbind go_bind].
  rewrite (inline_kvs_eq f ind) by done. cbn. by rewrite <- !app_assoc.
Qed.
End Elems.

Lemma tv_ok_arr l : tv_ok (TArr l) <-> Forall tv_ok l.
Proof. apply foldr_and. Qed.
Lemma tv_ok_tab l : tv_ok (TTab l) <->
  StronglySorted (fun a b : list Z * tv => key_lt (fst a) (fst b)) l /\
  Forall (fun kx => utf8 (fst kx) /\ tv_ok (snd kx)) l.
Proof. cbn [tv_ok]. by rewrite (foldr_and (fun kx : list Z * tv => utf8 (fst kx) /\ tv_ok (snd kx))). Qed.

Lemma depth_arr n l : (depth (TArr l) <= S (S n))%nat -> Forall (fun x => depth x <= n)%nat l.
Proof. cbn [depth]. intros Hl%Nat.succ_le_mono%Nat.succ_le_mono. induction l; constructor; simpl in *; [lia|]. apply IHl. lia. Qed.
Lemma depth_tab n (l : list (list Z * tv)) :
  (depth (TTab l) <= S (S n))%nat -> Forall (fun kx => depth (snd kx) <= n)%nat l.
Proof. cbn [depth]. intros Hl%Nat.succ_le_mono%Nat.succ_le_mono. induction l; constructor; simpl in *; [lia|]. apply IHl. lia. Qed.

Lemma filter_tab_in c w (l : list (list Z * tv)) : insideKv c = true ->
  filter (fun kx => tab_in c kx = w) l = if w then [] else l.
Proof.
  intros Hc. unfold tab_in. rewrite Hc. cbn. induction l as [|kx l IH]; [by destruct w|].
  rewrite filter_cons, IH. by destruct w.
Qed.

Lemma encode_value v : tv_ok v -> forall n b c ind, (depth v <= n)%nat -> in_value ind c ->
  encode Zero e n b c (inj v) = Ret (b ++ vtext ind v).
Proof.
  induction v as [s|z|x|l IH|l IH] using tv_ind'; intros Hok n b c ind Hn Hc;
    (destruct n as [|n]; [simpl in Hn; lia|]); cbn [encode inj]; pose proof Hc as (Hi & Ho & Hl & Hin).
  - cbn. unfold encodeString. rewrite Ho. cbn. by rewrite !encodeQuotedString_eq.
  - done.
  - done.
  - destruct n as [|n]; [simpl in Hn; lia|]. apply tv_ok_arr in Hok. apply depth_arr in Hn.
    cbn. unfold encodeSlice. rewrite length_map. destruct l as [|x l]; [done|].
    cbn [length Nat.eqb]. assert (Hw : willConvertToTableOrArrayTable Zero c
      (VSlice (map (fun x => VInterface (Some (inj x))) (x :: l))) = Ret false) by (cbn; by rewrite Hi).
    rewrite Hw. cbn [mbind go_mbind go_bind]. apply encodeSliceAsArray_eq; [done|].
    rewrite Forall_forall in IH, Hok, Hn |- *. intros y Hy b' c' Hc'. by apply IH; auto.
  - destruct n as [|n]; [simpl in Hn; lia|]. apply tv_ok_tab in Hok as [Hs Hok]. apply depth_tab in Hn.
    destruct (map_entries c l Hl Hs) as (t & Et & Ek & Etb). rewrite !filter_tab_in in Ek, Etb by done.
    change (encode_body Zero e (encode Zero e (S n)) b c _) with
      (encodeMap Zero e (encode Zero e (S n)) b c (kv_of <$> l)).
    unfold encodeMap. rewrite Et. cbn [mbind go_mbind go_bind]. rewrite Ek, Etb.
    unfold encodeTable. assert (Hsh : insideKv (shiftKey c) = true /\ c_inline (shiftKey c) = tablesInline e /\
      c_indent (shiftKey c) = ind) by (unfold shiftKey; destruct (hasKey c); by split_and!).
    destruct Hsh as (Hi' & Hl' & Hin'). rewrite Hi'. cbn [orb].
    rewrite (encodeTableInline_eq _ (vtext ind) ind); [by destruct l as [|[]]|done..|].
    rewrite Forall_forall in IH, Hok, Hn |- *. intros y Hy b' c' Hc'.
    apply (IH y Hy); [by apply Hok|by apply Hn|done].
Qed.

(** ** The lines of a document *)

(** The tree of a value that follows an equals sign. *)
Fixpoint vshape (v : tv) : shape :=
  match v with
  | TStr s => Sh TomlAst.String_ s []
  | TInt z => Sh TomlAst.Integer (FormatInt z 10) []
  | TBool x => Sh TomlAst.Bool (if x then bs "true" else bs "false") []
  | TArr l => Sh TomlAst.Array [] (map vshape l)
  | TTab l => Sh TomlAst.InlineTable [] (map (fun kx => Sh TomlAst.KeyValue [] [vshape (snd kx); key_shape (fst kx)]) l)
  end.

Definition blank_ : line := ([], None).
Definition header_line (k : TomlAst.Kind) (ind : list Z) (p : list (list Z)) : line :=
  (ind ++ header_text k p, Some (Sh k [] (map key_shape p))).
Definition kv_line (ind : nat) (kx : list Z * tv) : line :=
  (indt ind ++ kv_text (fst kx) (vtext ind (snd kx)),
   Some (Sh TomlAst.KeyValue [] [vshape (snd kx); key_shape (fst kx)])).

Definition kvs_of (l : list (list Z * tv)) : list (list Z * tv) := filter (fun kx => tabular (snd kx) = false) l.

(** The lines of a table or of an array of tables under the path [p]; [skip]
    when the header has been written. *)
Fixpoint tlines (v : tv) (p : list (list Z)) (skip : bool) (ind : nat) : list line :=
  match v with
  | TTab l =>
      let header := if skip then [] else match p with [] => [] | _ => [header_line TomlAst.Table (indt ind) p] end in
      let ind' := if negb skip && indentTables e && (0 <? length p)%nat then S ind else ind in
      let sub := l ≫= fun kx =>
        if tabular (snd kx) then blank_ :: tlines (snd kx) (p ++ [fst kx]) false ind' else [] in
      header ++ map (kv_line ind') (kvs_of l) ++ match kvs_of l with [] => tail sub | _ => sub end
  | TArr l =>
      let ind' := if indentTables e then S ind else ind in
      tail (l ≫= fun x =>
        blank_ :: header_line TomlAst.ArrayTable (if indentTables e then indt ind else []) p :: tlines x p true ind')
  | _ => []
  end.

Lemma doc_text_app l1 l2 : doc_text (l1 ++ l2) = doc_text l1 ++ doc_text l2.
Proof. apply bind_app. Qed.

Lemma doc_text_blank l : doc_text (blank_ :: l) = 10 :: doc_text l.
Proof. done. Qed.

Lemma doc_text_blanks {A} (f : A -> list line) l :
  doc_text (l ≫= fun x => blank_ :: f x) = l ≫= fun x => 10 :: doc_text (f x).
Proof. induction l as [|x l IH]; [done|]. rewrite !bind_cons, doc_text_app, IH. done. Qed.

(** *** The encoder writes these lines *)

(** The context of a table under the path [p]. *)
Definition at_table (p : list (list Z)) (skip : bool) (ind : nat) (c : encoderCtx) : Prop :=
  parentKey (shiftKey c) = p /\ insideKv c = false /\ c_options c = no_options /\ c_inline c = tablesInline e /\
  c_indent c = ind /\ c_commented c = false /\ skipTableHeader c = skip.

Lemma encode_parts_eq ks : forall b, encode_parts b ks = b ++ dotted ks.
Proof.
  unfold encode_parts. induction ks as [|k ks IH]; intros b; cbn [foldl dotted]; [by rewrite app_nil_r|].
  rewrite IH, encodeKey_eq. rewrite <- !app_assoc. done.
Qed.

Lemma path_eq b p : match p with [] => b | k :: ks => encode_parts (encodeKey b k) ks end = b ++ path_text p.
Proof.
  destruct p as [|k ks]; [by rewrite app_nil_r|]. rewrite encode_parts_eq, encodeKey_eq. simpl. by rewrite app_assoc.
Qed.

Lemma encodeTableHeader_eq c b : c_commented c = false -> c_options c = no_options ->
  encodeTableHeader e c b = b ++ doc_text match parentKey c with [] => [] | _ =>
    [header_line TomlAst.Table (indt (c_indent c)) (parentKey c)] end.
Proof.
  intros Hc Ho. unfold encodeTableHeader. rewrite Hc, Ho. destruct (parentKey c) as [|k ks] eqn:Ep; [by rewrite app_nil_r|].
  cbn [write_commented o_comment no_options]. unfold encodeComment. cbn [length Nat.ltb Nat.leb].
  rewrite write_indent_eq, (path_eq _ (k :: ks)). unfold doc_text, header_line, header_text. cbn [mbind list_bind fst].
  rewrite app_nil_r, <- !app_assoc. done.
Qed.

Lemma array_header_eq c : c_commented c = false ->
  array_header e c = fst (header_line TomlAst.ArrayTable (if indentTables e then indt (c_indent c) else []) (parentKey c)).
Proof.
  intros Hc. unfold array_header. rewrite Hc. cbn [write_commented]. rewrite path_eq.
  unfold header_line, header_text. cbn [fst]. rewrite write_indent_eq. by destruct (indentTables e); rewrite <- ?app_assoc.
Qed.

Section Tables.
Context (rec : list Z -> encoderCtx -> value (typ := typ) -> go EncodeError (list Z)).

Lemma table_kvs_eq (l : list (list Z * tv)) : forall c first b,
  insideKv c = false -> c_inline c = tablesInline e -> c_commented c = false ->
  tablesInline e = false \/ c_indent c = 0%nat ->
  Forall (fun kx => writes rec (c_indent c) (snd kx) (vtext (c_indent c) (snd kx))) l ->
  table_kvs e rec (entry_of <$> l) first b c =
  Ret (b ++ doc_text (map (kv_line (c_indent c)) l), match l with [] => first | _ => true end).
Proof.
  induction l as [|kx l IH]; intros c first b Hi Hl Hc Hin Hf; [by rewrite app_nil_r|].
  apply Forall_cons in Hf as [Hx Hf]. cbn [fmap list_fmap table_kvs].
  change (shouldOmitEmpty _ _) with false. cbn [entry_of Options Value Key]. cbv iota.
  unfold encodeKv at 1. cbn [setKey set_commented c_inline insideKv key c_commented c_indent o_commented o_comment no_options orb].
  rewrite Hi, Hc, Hl. cbn [negb andb write_commented]. rewrite write_indent_eq, Hx by (by split_and!).
  unfold mret at 1, go_mret at 1. cbn [mbind go_mbind go_bind]. rewrite IH by done. cbn [map]. f_equal. f_equal.
  2:{ by destruct l. }
  unfold doc_text. rewrite bind_cons. cbn [kv_line fst c_indent setKey]. unfold kv_text. rewrite encodeKey_eq.
  destruct Hin as [-> | ->]; [|destruct (tablesInline e)]; cbn [negb andb]; unfold encodeComment;
    cbn [length Nat.ltb Nat.leb app];
    rewrite <- ?app_assoc; reflexivity.
Qed.

(** What [rec] writes for the sub-tables of a table. *)
Definition writes_table (p : list (list Z)) (ind : nat) (kx : list Z * tv) : Prop :=
  tabular (snd kx) = true -> forall b c, at_table (p ++ [fst kx]) false ind c ->
  rec b c (VInterface (Some (inj (snd kx)))) = Ret (b ++ doc_text (tlines (snd kx) (p ++ [fst kx]) false ind)).

Definition sub_lines (p : list (list Z)) (ind : nat) (l : list (list Z * tv)) : list line :=
  l ≫= fun kx => if tabular (snd kx) then blank_ :: tlines (snd kx) (p ++ [fst kx]) false ind else [].

Lemma table_tables_eq (l : list (list Z * tv)) p ind : forall c b nonempty first,
  parentKey c = p -> insideKv c = false -> c_inline c = tablesInline e -> c_indent c = ind ->
  c_commented c = false -> skipTableHeader c = false -> Forall (writes_table p ind) l ->
  table_tables rec (entry_of <$> filter (fun kx => tabular (snd kx) = true) l) first nonempty b c =
  Ret (b ++ doc_text ((if first && negb nonempty then tail else id) (sub_lines p ind l))).
Proof.
  induction l as [|kx l IH]; intros c b nonempty first Hp Hi Hl Hin Hc Hs Hf.
  { cbn. destruct (first && _); by rewrite app_nil_r. }
  apply Forall_cons in Hf as [Hx Hf]. unfold sub_lines. rewrite filter_cons, bind_cons. case_decide as Ht.
  2:{ destruct (tabular (snd kx)); [done|]. by apply IH. }
  rewrite Ht. cbn [fmap list_fmap table_tables]. change (shouldOmitEmpty _ _) with false.
  cbn [entry_of Options Value Key]. cbv iota. rewrite (Hx Ht).
  2:{ unfold at_table, shiftKey. cbn. rewrite Hp, Hc. by split_and!. }
  cbn [mbind go_mbind go_bind]. rewrite IH by done. cbn [andb]. f_equal. rewrite <- app_assoc.
  fold (sub_lines p ind l).
  destruct first, nonempty; cbn [andb negb id tail app]; rewrite ?doc_text_blank, doc_text_app, <- ?app_assoc; done.
Qed.

Lemma encodeTable_eq (l : list (list Z * tv)) p skip ind c b :
  let ind' := if negb skip && indentTables e && (0 <? length p)%nat then S ind else ind in
  at_table p skip ind c -> (tablesInline e = false \/ p = [] /\ ind = 0%nat) ->
  Forall (fun kx => writes rec ind' (snd kx) (vtext ind' (snd kx))) l ->
  Forall (writes_table p ind') l ->
  encodeTable e rec b c (Tab (entry_of <$> kvs_of l) (entry_of <$> filter (fun kx => tabular (snd kx) = true) l)) =
  Ret (b ++ doc_text (tlines (TTab l) p skip ind)).
Proof.
  intros ind' (Hp & Hi & Ho & Hl & Hin & Hcm & Hsk) Hcase Hkv Htb. unfold encodeTable.
  set (c1 := shiftKey c) in *.
  assert (Hc1 : insideKv c1 = false /\ c_options c1 = no_options /\ c_inline c1 = tablesInline e /\
    c_indent c1 = ind /\ c_commented c1 = false /\ skipTableHeader c1 = skip /\ hasKey c1 = false).
  { unfold c1, shiftKey. destruct (hasKey c) eqn:Ek; by split_and!. }
  destruct Hc1 as (Hi1 & Ho1 & Hl1 & Hin1 & Hcm1 & Hsk1 & Hk1).
  assert (Hinl : insideKv c1 || (c_inline c1 && negb (isRoot c1)) = false).
  { rewrite Hi1, Hl1. unfold isRoot. rewrite Hp, Hk1. destruct Hcase as [-> |[-> _]]; [done|]. by rewrite andb_false_r. }
  rewrite Hinl, Hsk1. clear Hinl.
  set (bc := if negb skip then _ else _).
  assert (Hbc : exists c2, bc = (b ++ doc_text (if skip then [] else match p with [] => [] | _ =>
      [header_line TomlAst.Table (indt ind) p] end), c2) /\ parentKey c2 = p /\ insideKv c2 = false /\
      c_inline c2 = tablesInline e /\ c_indent c2 = ind' /\ c_commented c2 = false).
  { unfold bc, ind'. destruct skip; cbn [negb andb].
    - exists c1. rewrite app_nil_r. by split_and!.
    - rewrite encodeTableHeader_eq, Hp, Hin1 by done. eexists. split; [done|]. destruct (_ && _); by split_and!. }
  destruct Hbc as (c2 & -> & Hp2 & Hi2 & Hl2 & Hin2 & Hcm2). cbv beta iota. cbn [kvs tables].
  rewrite table_kvs_eq; cbn [set_skip insideKv c_inline c_commented c_indent]; [|done|done|done| |].
  2:{ rewrite Hin2. destruct Hcase as [|[-> ->]]; [by left|right]. unfold ind'. by rewrite andb_false_r. }
  2:{ rewrite Hin2. unfold kvs_of. apply Forall_forall. intros kx [_ Hx]%list_elem_of_filter.
      rewrite Forall_forall in Hkv. by apply Hkv. }
  cbn [mbind go_mbind go_bind]. rewrite (table_tables_eq l p ind') by done.
  f_equal. cbn [tlines]. fold ind'. fold (sub_lines p ind' l). rewrite !doc_text_app, Hin2, <- !app_assoc.
  by destruct (kvs_of l).
Qed.

Lemma array_tables_eq (l : list tv) p ind c : forall b first,
  c_options c = no_options ->
  Forall (fun x => forall b, rec b c (VInterface (Some (inj x))) = Ret (b ++ doc_text (tlines x p true ind))) l ->
  forall hdr, 
  array_tables rec (fst hdr) (map (fun x => VInterface (Some (inj x))) l) first b c =
  Ret (b ++ doc_text ((if first then tail else id) (l ≫= fun x => blank_ :: hdr :: tlines x p true ind))).
Proof.
  induction l as [|x l IH]; intros b first Ho Hf hdr; [by destruct first; rewrite app_nil_r|].
  apply Forall_cons in Hf as [Hx Hf]. cbn [map array_tables]. rewrite Ho, Hx.
  cbn [mbind go_mbind go_bind]. rewrite IH by done. f_equal. rewrite bind_cons. cbn [o_comment no_options].
  unfold encodeComment. cbn [length Nat.ltb Nat.leb]. cbn [app].
  assert (Hh : forall l, doc_text (hdr :: l) = fst hdr ++ 10 :: doc_text l).
  { intros l'. unfold doc_text. rewrite bind_cons, <- app_assoc. done. }
  destruct first; cbn [tail id]; rewrite ?doc_text_blank, Hh, doc_text_app, <- !app_assoc; done.
Qed.
End Tables.

Lemma encode_table v : tv_ok v -> forall n b c p skip ind, (depth v <= n)%nat -> at_table p skip ind c ->
  (is_tab v = true /\ p = [] /\ ind = 0%nat) \/ tabular v = true ->
  encode Zero e n b c (inj v) = Ret (b ++ doc_text (tlines v p skip ind)).
Proof.
  induction v as [s|z|x|l IH|l IH] using tv_ind'; intros Hok n b c p skip ind Hn Hc Hv.
  1-3: unfold tabular in Hv; rewrite andb_false_r in Hv; destruct Hv as [[]|]; done.
  - destruct Hv as [[]|Hv]; [done|]. destruct l as [|x l]; [unfold tabular in Hv; by rewrite andb_false_r in Hv|].
    destruct n as [|[|n]]; [simpl in Hn; lia..|]. apply tv_ok_arr in Hok. apply depth_arr in Hn.
    change (encode Zero e (S (S n)) b c (inj (TArr (x :: l)))) with
      (encodeSlice Zero e (encode Zero e (S n)) b c (map (fun x => VInterface (Some (inj x))) (x :: l))).
    unfold encodeSlice. pose proof (wc_inj c (TArr (x :: l))) as Hw. rewrite Hv in Hw.
    destruct Hc as (Hp & Hi & Ho & Hl & Hin & Hcm & Hsk). specialize (Hw Hi Hl).
    cbn [willConvertToTableOrArrayTable] in Hw. rewrite Hi in Hw. cbn [inj] in Hw. rewrite Hw.
    cbn [length map Nat.eqb mbind go_mbind go_bind]. unfold encodeSliceAsArrayTable.
    set (c1 := shiftKey c) in *.
    assert (Hc1 : insideKv c1 = false /\ c_options c1 = no_options /\ c_inline c1 = tablesInline e /\
      c_indent c1 = ind /\ c_commented c1 = false /\ hasKey c1 = false).
    { unfold c1, shiftKey. destruct (hasKey c) eqn:Ek; by split_and!. }
    destruct Hc1 as (Hi1 & Ho1 & Hl1 & Hin1 & Hcm1 & Hk1).
    set (c2 := if indentTables e then set_indent _ _ else _).
    rewrite array_header_eq, Hin1, Hp by done. set (ind' := if indentTables e then S ind else ind).
    assert (Hc2 : at_table p true ind' c2).
    { unfold c2, ind', at_table, shiftKey. destruct (indentTables e); cbn; rewrite Hk1; cbn; rewrite ?Hin1; by split_and!. }
    apply (array_tables_eq (encode Zero e (S n)) (x :: l) p ind' c2 b true); [by apply Hc2|].
    unfold tabular in Hv. apply andb_true_iff in Hv as [Hti Hall]. rewrite forallb_forall in Hall.
    rewrite Forall_forall in IH, Hok, Hn |- *. intros y Hy b'. apply (IH y Hy); [by apply Hok|by apply Hn|done|].
    right. unfold tabular. apply list_elem_of_In in Hy. specialize (Hall _ Hy). rewrite Hti. by destruct y.
  - destruct n as [|[|n]]; [simpl in Hn; lia..|]. apply tv_ok_tab in Hok as [Hs Hok]. apply depth_tab in Hn.
    pose proof Hc as (Hp & Hi & Ho & Hl & Hin & Hcm & Hsk).
    destruct (map_entries c l Hl Hs) as (t & Et & Ek & Etb).
    change (encode Zero e (S (S n)) b c (inj (TTab l))) with
      (encodeMap Zero e (encode Zero e (S n)) b c (kv_of <$> l)).
    unfold encodeMap. rewrite Et. cbn [mbind go_mbind go_bind]. rewrite Ek, Etb.
    assert (Hfilt : forall w, filter (fun kx => tab_in c kx = w) l = filter (fun kx => tabular (snd kx) = w) l).
    { intros w. apply list_filter_iff. intros kx. unfold tab_in. by rewrite Hi. }
    rewrite !Hfilt. apply encodeTable_eq; [done| | |].
    + destruct Hv as [[_ Hv]|Hv]; [by right|left]. unfold tabular in Hv. by destruct (tablesInline e).
    + rewrite Forall_forall in Hok, Hn |- *. intros kx Hx b' c' Hc'.
      apply encode_value; [by apply Hok|by apply Hn|done].
    + rewrite Forall_forall in IH, Hok, Hn |- *. intros kx Hx Ht b' c' Hc'.
      apply (IH kx Hx); [by apply Hok|by apply Hn|done|by right].
Qed.

(** The whole document. *)
Lemma Encode_lines l : tv_ok (TTab l) -> forall n, (depth (TTab l) <= n)%nat -> forall Write,
  Encode Zero e n Write (Some (inj (TTab l))) =
  if Write (doc_text (tlines (TTab l) [] false 0)) then Ret (doc_text (tlines (TTab l) [] false 0)) else Fail EWrite.
Proof.
  intros Hok n Hn Write. unfold Encode. rewrite (encode_table _ Hok n [] (root_ctx e) [] false 0 Hn).
  - cbn [mbind go_mbind go_bind app]. by destruct (Write _).
  - unfold at_table, root_ctx, shiftKey. cbn. by split_and!.
  - by left.
Qed.

(** ** The parser reads these lines *)

Section Parse.
Context (pdata : slice) (KeepComments : bool) (Hdoc : Forall byte_ok (dat pdata)).
(** The indentation is made of spaces and tabs. *)
Context (Hind : Forall (fun c => TomlScan.isWhitespace c = true) (indentSymbol e)).

Lemma indt_ws n : Forall (fun c => TomlScan.isWhitespace c = true) (indt n).
Proof. unfold indt. induction n as [|n IH]; [constructor|]. cbn. by apply Forall_app. Qed.

Lemma sep_blank n : blank (sep n).
Proof.
  unfold blank, sep. destruct (arraysMultiline e); [|by repeat constructor].
  constructor; [auto|]. eapply Forall_impl; [apply indt_ws|]. unfold TomlScan.isWhitespace. intros c Hc. lia.
Qed.

Lemma sep_end n x : val_end (sep n ++ x).
Proof. unfold sep. destruct (arraysMultiline e); simpl; auto. Qed.

(** How deep arrays and tables nest. *)
Fixpoint nesting (v : tv) : nat :=
  match v with
  | TArr l => S (foldr (fun x n => nesting x `max` n)%nat 0%nat l)
  | TTab l => S (foldr (fun (kx : list Z * tv) n => nesting (snd kx) `max` n)%nat 0%nat l)
  | _ => 1%nat
  end.

Lemma nesting_arr n l : (nesting (TArr l) <= S n)%nat <-> Forall (fun x => nesting x <= n)%nat l.
Proof.
  cbn [nesting]. rewrite <- Nat.succ_le_mono. induction l as [|x l IH]; simpl; [split; [constructor|lia]|].
  rewrite Forall_cons, <- IH. lia.
Qed.
Lemma nesting_tab n (l : list (list Z * tv)) :
  (nesting (TTab l) <= S n)%nat <-> Forall (fun kx => nesting (snd kx) <= n)%nat l.
Proof.
  cbn [nesting]. rewrite <- Nat.succ_le_mono. induction l as [|x l IH]; simpl; [split; [constructor|lia]|].
  rewrite Forall_cons, <- IH. lia.
Qed.

Lemma vtext_head ind v : exists c q, vtext ind v = c :: q /\
  blank_end [c] /\ c <> 93 /\ c <> 44 /\ TomlScan.isWhitespace c = false.
Proof.
  destruct v as [s|z|x|[|x l]|[|[k x] l]]; try (by eexists _, _; split; [reflexivity|]; split_and!).
  - cbn [vtext]. rewrite encodeQuotedString_eq. eexists _, _. split; [reflexivity|]. by split_and!.
  - destruct (FormatInt_shape z) as (c & q & Ef & Hc & _). exists c, q. cbn [vtext]. split; [done|].
    apply Forall_cons in Hc as [Hc _]. unfold int_char in Hc. unfold blank_end, TomlScan.isWhitespace.
    split_and!; lia.
  - destruct x; [exists 116, [114; 117; 101]|exists 102, [97; 108; 115; 101]]; (split; [reflexivity|]; by split_and!).
Qed.

Lemma length_bind {A} (f : A -> list Z) l x : x ∈ l -> (length (f x) <= length (l ≫= f))%nat.
Proof.
  induction 1 as [x l|x y l Hx IH]; rewrite bind_cons, length_app; lia.
Qed.

Lemma nesting_text v : forall ind, (nesting v <= length (vtext ind v))%nat.
Proof.
  induction v as [s|z|x|l IH|l IH] using tv_ind'; intros ind.
  1-3: cbn [nesting]; match goal with |- (_ <= length (vtext _ ?v))%nat =>
    destruct (vtext_head ind v) as (c & q & -> & _) end; simpl; lia.
  - destruct l as [|x l]; [simpl; lia|].
    set (ind' := if arraysMultiline e then S ind else ind).
    assert (Hle : (nesting (TArr (x :: l)) <= S (length (vtext ind' x ++ (l ≫= fun y => 44%Z :: sep ind' ++ vtext ind' y))))%nat).
    { apply nesting_arr. rewrite Forall_forall in IH |- *. intros y Hy. specialize (IH y Hy ind').
      rewrite length_app. apply elem_of_cons in Hy as [->|Hy]; [lia|].
      pose proof (length_bind (fun y => 44 :: sep ind' ++ vtext ind' y) l y Hy) as Hb. cbn [length] in Hb.
      rewrite length_app in Hb. lia. }
    etransitivity; [exact Hle|]. cbn [vtext length]. fold ind'. rewrite !length_app. lia.
  - destruct l as [|[k x] l]; [simpl; lia|].
    assert (Hle : (nesting (TTab ((k, x) :: l)) <= S (length (kv_text k (vtext ind x) ++
      (l ≫= fun ky => 44%Z :: 32%Z :: kv_text (fst ky) (vtext ind (snd ky))))))%nat).
    { apply nesting_tab. rewrite Forall_forall in IH |- *. intros y Hy. specialize (IH y Hy ind).
      rewrite length_app. apply elem_of_cons in Hy as [->|Hy].
      { unfold kv_text. rewrite !length_app. simpl in IH |- *. lia. }
      pose proof (length_bind (fun ky => 44 :: 32 :: kv_text (fst ky) (vtext ind (snd ky))) l y Hy) as Hb.
      cbn [length] in Hb. unfold kv_text in Hb at 1. rewrite !length_app in Hb. lia. }
    etransitivity; [exact Hle|]. cbn [vtext length]. rewrite !length_app. lia.
Qed.

Lemma array_text_eq sepb post pre e0 els :
  array_text sepb post pre e0 els =
  91 :: pre ++ fst e0 ++ (els ≫= fun y => 44 :: sepb ++ fst y) ++ post ++ [93].
Proof.
  unfold array_text. f_equal. f_equal. f_equal. induction els as [|x els IH].
  - done.
  - rewrite bind_cons. cbn [mid tailt app]. rewrite <- !app_assoc. cbn [app]. f_equal. f_equal. f_equal.
    exact IH.
Qed.

Lemma inline_text_eq els :
  inline_text els = match els with
                    | [] => [123; 32; 32; 125]
                    | x :: els => 123 :: 32 :: fst x ++ (els ≫= fun y => 44 :: 32 :: fst y) ++ [32; 125]
                    end.
Proof.
  destruct els as [|x els]; [done|]. cbn [inline_text]. reflexivity.
Qed.

Lemma bind_map {A B C} (f : A -> B) (g : B -> list C) l : map f l ≫= g = l ≫= (fun x => g (f x)).
Proof. induction l as [|x l IH]; [done|]. cbn [map]. by rewrite !bind_cons, IH. Qed.

Lemma value_parses v : tv_ok v -> forall fuel ind, (nesting v <= fuel)%nat ->
  parses pdata (TomlParser.parseVal pdata KeepComments fuel) (vtext ind v) val_end (vshape v).
Proof.
  induction v as [s|z|x|l IH|l IH] using tv_ind'; intros Hok fuel ind Hf.
  - by apply string_complete.
  - by apply int_complete.
  - by apply bool_complete.
  - destruct fuel as [|fuel]; [simpl in Hf; lia|]. apply tv_ok_arr in Hok. apply nesting_arr in Hf.
    apply array_val; [destruct l; by eexists|]. destruct l as [|x l]; [apply empty_array_complete|].
    set (ind' := if arraysMultiline e then S ind else ind).
    assert (Hel : Forall (fun y => elem_ok pdata (TomlParser.parseVal pdata KeepComments fuel) (vtext ind' y, vshape y)) (x :: l)).
    { rewrite Forall_forall in IH, Hok, Hf |- *. intros y Hy. split; [by apply IH; auto|].
      destruct (vtext_head ind' y) as (c & q & ? & ? & ? & ? & _). by exists c, q. }
    apply Forall_cons in Hel as [Hx Hel].
    pose proof (array_complete pdata KeepComments (TomlParser.parseVal pdata KeepComments fuel) (sep ind') (sep ind)
      (sep_blank _) (sep_blank _) (fun x => sep_end _ _) (sep ind') (vtext ind' x, vshape x)
      (map (fun y => (vtext ind' y, vshape y)) l) val_end (sep_blank _) Hx) as Hp.
    rewrite array_text_eq, bind_map, map_map in Hp. apply Hp. by apply Forall_map.
  - destruct fuel as [|fuel]; [simpl in Hf; lia|]. apply tv_ok_tab in Hok as [_ Hok]. apply nesting_tab in Hf.
    apply inline_val; [destruct l as [|[]]; by eexists|].
    set (f := fun kx : list Z * tv => (kv_text (fst kx) (vtext ind (snd kx)),
      Sh TomlAst.KeyValue [] [vshape (snd kx); key_shape (fst kx)])).
    pose proof (inline_complete pdata (TomlParser.parseVal pdata KeepComments fuel) (map f l) val_end) as Hp.
    rewrite inline_text_eq, map_map in Hp.
    assert (Et : vtext ind (TTab l) = match map f l with
                    | [] => [123; 32; 32; 125]
                    | x :: els => 123 :: 32 :: fst x ++ (els ≫= fun y => 44 :: 32 :: fst y) ++ [32; 125]
                    end).
    { destruct l as [|[k x] l]; [done|]. cbn [map]. by rewrite bind_map. }
    rewrite Et. apply Hp, Forall_map.
    rewrite Forall_forall in IH, Hok, Hf |- *. intros kx Hx. destruct (Hok _ Hx) as [Hu Hok'].
    destruct (vtext_head ind (snd kx)) as (c & q & Ev & _ & _ & _ & Hws).
    split; [apply keyval_complete; [done|done|by apply IH; auto|by exists c, q]|].
    destruct (encodeKey_head _ Hu) as (c' & q' & Ek & Hw & _ & _ & _ & _ & H125).
    eexists c', _. unfold f, kv_text. cbn [fst]. rewrite Ek. by split_and!.
Qed.

Lemma kv_line_ok ind kx : utf8 (fst kx) -> tv_ok (snd kx) -> line_ok pdata KeepComments (kv_line ind kx).
Proof.
  intros Hu Hok. destruct (encodeKey_head _ Hu) as (c & q & Ek & Hw & H10 & H13 & H35 & H91 & _).
  unfold line_ok, kv_line. cbn [fst snd].
  eapply (expression_line pdata KeepComments _ _ _ c); [apply indt_ws|unfold kv_text; by rewrite Ek|done..|].
  rewrite (proj2 (Z.eqb_neq c 91)) by done. intros b s rest Hb E Hr.
  unfold TomlParser.parseKeyval. destruct (vtext_head ind (snd kx)) as (c' & q' & Ev & _ & _ & _ & Hws).
  eapply keyval_complete; [done|done| |by exists c', q'|done|done|by apply line_end_val].
  apply value_parses; [done|]. pose proof (nesting_text (snd kx) ind) as Hn.
  assert (Hl : (length (vtext ind (snd kx)) <= slen b)%nat); [|lia].
  rewrite E. unfold kv_text. rewrite !length_app. lia.
Qed.

Lemma header_line_ok k ind p : k = TomlAst.Table \/ k = TomlAst.ArrayTable ->
  Forall (fun c => TomlScan.isWhitespace c = true) ind -> p <> [] -> Forall utf8 p ->
  line_ok pdata KeepComments (header_line k ind p).
Proof.
  intros Hk Hi Hp Hu. unfold line_ok, header_line. cbn [fst snd].
  destruct Hk as [-> | ->]; (eapply (expression_line pdata KeepComments _ _ _ 91); [done|reflexivity|done..|]);
    cbn [Z.eqb Pos.eqb]; [by apply std_header_complete|by apply array_header_complete].
Qed.

Lemma Forall_tail {A} (P : A -> Prop) l : Forall P l -> Forall P (tail l).
Proof. by destruct 1. Qed.

Lemma lines_ok v : tv_ok v -> forall p skip ind, Forall utf8 p -> (p = [] -> is_tab v = true) ->
  Forall (line_ok pdata KeepComments) (tlines v p skip ind).
Proof.
  assert (Hblank : line_ok pdata KeepComments blank_) by (apply blank_line).
  induction v as [s|z|x|l IH|l IH] using tv_ind'; intros Hok p skip ind Hu Hp; try by constructor.
  - apply tv_ok_arr in Hok. cbn [tlines]. apply Forall_tail, Forall_bind.
    rewrite Forall_forall in IH, Hok |- *. intros x Hx.
    assert (Hne : p <> []) by (intros ->; by specialize (Hp eq_refl)).
    constructor; [done|]. constructor; [|by apply IH; auto].
    apply header_line_ok; [by right|destruct (indentTables e); [apply indt_ws|constructor]|done|done].
  - apply tv_ok_tab in Hok as [_ Hok]. cbn [tlines]. rewrite !Forall_app.
    set (ind' := if _ && _ then S ind else ind).
    assert (Hsub : Forall (line_ok pdata KeepComments) (l ≫= fun kx =>
      if tabular (snd kx) then blank_ :: tlines (snd kx) (p ++ [fst kx]) false ind' else [])).
    { apply Forall_bind. rewrite Forall_forall in IH, Hok |- *. intros kx Hx. unfold compose. destruct (tabular (snd kx)); [|constructor].
      constructor; [done|]. destruct (Hok _ Hx). apply (IH kx Hx); [done| |by destruct p].
      apply Forall_app. split; [done|by repeat constructor]. }
    split_and!.
    + destruct skip; [constructor|]. destruct p; [constructor|]. repeat constructor.
      apply header_line_ok; [by left|apply indt_ws|done|done].
    + apply Forall_map, Forall_forall. intros kx [_ Hx]%list_elem_of_filter. rewrite Forall_forall in Hok.
      destruct (Hok _ Hx). by apply kv_line_ok.
    + destruct (kvs_of l); [by apply Forall_tail|done].
Qed.
End Parse.

(** *** The document is made of bytes *)

Lemma basic_string_bytes k : Forall byte_ok k -> Forall byte_ok (encodeQuotedString false [] k).
Proof.
  intros Hk. rewrite encodeQuotedString_eq. cbn [app]. constructor; [done|]. apply Forall_app. split; [|by repeat constructor].
  unfold quoted. apply Forall_bind. eapply Forall_impl; [exact Hk|]. intros c Hc. unfold compose, encodeQuotedChar.
  assert (Hx : forall i, byte_ok (default 0 (bs "0123456789ABCDEF" !! i))).
  { intros i. destruct (bs _ !! i) eqn:E; [|done]. cbn. eapply (Forall_lookup_1 byte_ok); [|exact E].
    by apply bytes_ok. }
  repeat case_match; repeat (apply Forall_cons; split; [first [done|apply Hx]|]); constructor.
Qed.
Lemma utf8_bytes k : utf8 k -> Forall byte_ok k.
Proof. intros (cps & Hs & ->). by apply text_bytes. Qed.

Lemma key_bytes k : utf8 k -> Forall byte_ok (encodeKey [] k).
Proof.
  intros Hk%utf8_bytes. unfold encodeKey, encodeUnquotedKey. case_match; [by apply bytes_ok|].
  case_match; [done|]. by apply basic_string_bytes.
Qed.

Section Bytes.
Context (Hind : Forall (fun c => TomlScan.isWhitespace c = true) (indentSymbol e)).

Lemma ws_bytes l : Forall (fun c => TomlScan.isWhitespace c = true) l -> Forall byte_ok l.
Proof. intros Hl. eapply Forall_impl; [exact Hl|]. unfold TomlScan.isWhitespace, byte_ok. intros. lia. Qed.

Lemma sep_bytes n : Forall byte_ok (sep n).
Proof.
  unfold sep. destruct (arraysMultiline e); [|by apply bytes_ok]. constructor; [done|]. by apply ws_bytes, indt_ws.
Qed.

Lemma kv_bytes k t : utf8 k -> Forall byte_ok t -> Forall byte_ok (kv_text k t).
Proof. intros Hk Ht. unfold kv_text. rewrite !Forall_app. split_and!; [by apply key_bytes|by apply bytes_ok|done]. Qed.

Lemma vtext_bytes v : tv_ok v -> forall ind, Forall byte_ok (vtext ind v).
Proof.
  induction v as [s|z|x|l IH|l IH] using tv_ind'; intros Hok ind.
  - by apply basic_string_bytes, utf8_bytes.
  - cbn [vtext]. destruct (FormatInt_shape z) as (c & q & -> & Hc & _). eapply Forall_impl; [exact Hc|].
    unfold int_char, byte_ok. intros. lia.
  - by destruct x; apply bytes_ok.
  - apply tv_ok_arr in Hok. destruct l as [|x l]; [by apply bytes_ok|]. cbn [vtext].
    set (ind' := if arraysMultiline e then S ind else ind).
    assert (Hel : Forall (fun y => Forall byte_ok (vtext ind' y)) (x :: l)).
    { rewrite Forall_forall in IH, Hok |- *. auto. }
    apply Forall_cons in Hel as [Hx Hel]. constructor; [done|]. rewrite !Forall_app.
    split_and!; [apply sep_bytes|done| |apply sep_bytes|by apply bytes_ok]. apply Forall_bind.
    eapply Forall_impl; [exact Hel|]. intros y Hy. constructor; [done|]. apply Forall_app. by split; [apply sep_bytes|].
  - apply tv_ok_tab in Hok as [_ Hok]. destruct l as [|[k x] l]; [by apply bytes_ok|]. cbn [vtext].
    assert (Hel : Forall (fun kx => Forall byte_ok (kv_text (fst kx) (vtext ind (snd kx)))) ((k, x) :: l)).
    { rewrite Forall_forall in IH, Hok |- *. intros kx Hx. destruct (Hok _ Hx). apply kv_bytes; [done|by apply IH]. }
    apply Forall_cons in Hel as [Hx Hel]. constructor; [done|]. constructor; [done|]. rewrite !Forall_app.
    split_and!; [done| |by apply bytes_ok]. apply Forall_bind.
    eapply Forall_impl; [exact Hel|]. intros y Hy. constructor; [done|]. by constructor.
Qed.

Lemma header_bytes k ind p : Forall byte_ok ind -> Forall utf8 p -> Forall byte_ok (fst (header_line k ind p)).
Proof.
  intros Hi Hp. unfold header_line, header_text. cbn [fst]. apply Forall_app. split; [done|].
  assert (Hpath : Forall byte_ok (path_text p)).
  { destruct p as [|k0 ks]; [constructor|]. apply Forall_cons in Hp as [H1 Hp]. cbn [path_text]. apply Forall_app.
    split; [by apply key_bytes|]. induction Hp as [|k1 ks H2 Hp IHp]; [constructor|]. cbn [dotted].
    constructor; [done|]. apply Forall_app. by split; [apply key_bytes|]. }
  destruct k; rewrite !Forall_app; split_and!; try done; by apply bytes_ok.
Qed.

Lemma lines_bytes v : tv_ok v -> forall p skip ind, Forall utf8 p ->
  Forall (fun l => Forall byte_ok (fst l)) (tlines v p skip ind).
Proof.
  induction v as [s|z|x|l IH|l IH] using tv_ind'; intros Hok p skip ind Hu; try by constructor.
  - apply tv_ok_arr in Hok. cbn [tlines]. apply Forall_tail, Forall_bind.
    rewrite Forall_forall in IH, Hok |- *. intros x Hx.
    constructor; [constructor|]. constructor; [|by apply IH; auto].
    apply header_bytes; [|done]. destruct (indentTables e); [by apply ws_bytes, indt_ws|constructor].
  - apply tv_ok_tab in Hok as [_ Hok]. cbn [tlines]. rewrite !Forall_app.
    set (ind' := if _ && _ then S ind else ind).
    assert (Hsub : Forall (fun l => Forall byte_ok (fst l)) (l ≫= fun kx =>
      if tabular (snd kx) then blank_ :: tlines (snd kx) (p ++ [fst kx]) false ind' else [])).
    { apply Forall_bind. rewrite Forall_forall in IH, Hok |- *. intros kx Hx. unfold compose. destruct (tabular (snd kx)); [|constructor].
      constructor; [constructor|]. destruct (Hok _ Hx). apply (IH kx Hx); [done|].
      apply Forall_app. split; [done|by repeat constructor]. }
    split_and!.
    + destruct skip; [constructor|]. destruct p; [constructor|]. constructor; [|constructor].
      apply header_bytes; [by apply ws_bytes, indt_ws|done].
    + apply Forall_map, Forall_forall. intros kx [_ Hx]%list_elem_of_filter. rewrite Forall_forall in Hok.
      destruct (Hok _ Hx). cbn [kv_line fst]. apply Forall_app. split; [by apply ws_bytes, indt_ws|].
      apply kv_bytes; [done|by apply vtext_bytes].
    + destruct (kvs_of l); [by apply Forall_tail|done].
Qed.
End Bytes.

Lemma document_parses keep l :
  let ls := tlines (TTab l) [] false 0 in
  tv_ok (TTab l) -> Forall (fun c => TomlScan.isWhitespace c = true) (indentSymbol e) ->
  exists ts, TomlParser.parse_document keep (doc_text ls) = Ret (ts, None) /\ map shape_of ts = omap snd ls.
Proof.
  intros ls Hok Hi. set (d := doc_text ls).
  assert (Hb : Forall byte_ok d).
  { apply Forall_bind. eapply Forall_impl; [by apply lines_bytes|]. intros x Hx. apply Forall_app. by split; [|by apply bytes_ok]. }
  pose proof (expressions_lines (doc d) keep ls (S (length d))
    (TomlParser.Parser_Reset (TomlParser.Prs nil_slice (TomlAst.Bld [] 0) 0 nil_slice None false keep) (doc d))) as Hx.
  apply spec_inv in Hx.
  - destruct Hx as [([ts err] & E & Hsh & ->)|(? & _ & [])]. by exists ts.
  - by apply lines_ok.
  - split_and!; try done.
  - pose proof (doc_text_length ls). unfold d. lia.
Qed.
End Document.
End TomlDocument.
