(* ===== verification/TomlTracker.v ===== *)
(** * Which keys a document has used ([src/utoml/internal/tracker])

    The tracker keeps one entry for every key that a document has named, in an
    array whose entries are linked into a tree by indices; entries that are no
    longer used wait in a free list. [CheckExpression] is proved to behave like
    the same checks on a finite map from dotted keys to what is known of them. *)
From stdpp Require Import base numbers list gmap strings.
From S2P Require Import Prelude TomlChars TomlScan TomlAst.
#[local] Open Scope Z_scope.

Module TomlTracker.
Import TomlAst.

(** ** Entries *)

Inductive keyKind := invalidKind | valueKind | tableKind | arrayTableKind.

#[export] Instance keyKind_eq_dec : EqDecision keyKind.
Proof. solve_decision. Defined.

Definition keyKind_String (k : keyKind) : list Z :=
  match k with
  | invalidKind => bs "invalid"
  | valueKind => bs "value"
  | tableKind => bs "table"
  | arrayTableKind => bs "array table"
  end.

(** The errors, with the arguments of their formats. *)
Inductive TrackerError :=
| EExpectedTable (k : list Z) (kind : keyKind)
| EShouldBeTable (k : list Z) (kind : keyKind)
| ETableExists (k : list Z)
| EShouldBeArrayTable (kind : keyKind) (k : list Z)
| EAlreadyDefined (k : list Z)
| ERedefine (k : list Z).

Definition TrackerError_Error (e : TrackerError) : list Z :=
  match e with
  | EExpectedTable k kind => bs "toml: expected " ++ k ++ bs " to be a table, not a " ++ keyKind_String kind
  | EShouldBeTable k kind => bs "toml: key " ++ k ++ bs " should be a table, not a " ++ keyKind_String kind
  | ETableExists k => bs "toml: table " ++ k ++ bs " already exists"
  | EShouldBeArrayTable kind k =>
      bs "toml: key " ++ keyKind_String kind ++ bs " already exists as a " ++ k ++
      bs ",  but should be an array table"
  | EAlreadyDefined k => bs "toml: key " ++ k ++ bs " is already defined"
  | ERedefine k => bs "toml: cannot redefine table " ++ k ++ bs " that has already been explicitly defined"
  end.

Record entry := Ent {
  e_child : Z; e_next : Z; name : list Z; kind : keyKind; explicit : bool; kv : bool
}.

Definition set_child_ (c : Z) (e : entry) : entry := Ent c (e_next e) (name e) (kind e) (explicit e) (kv e).
Definition set_next_ (n : Z) (e : entry) : entry := Ent (e_child e) n (name e) (kind e) (explicit e) (kv e).
Definition set_name_ (s : list Z) (e : entry) : entry := Ent (e_child e) (e_next e) s (kind e) (explicit e) (kv e).
Definition set_kind_ (k : keyKind) (e : entry) : entry := Ent (e_child e) (e_next e) (name e) k (explicit e) (kv e).
Definition set_flags_ (x y : bool) (e : entry) : entry := Ent (e_child e) (e_next e) (name e) (kind e) x y.

Abbreviation M := (go TrackerError).

(** [s.entries[i]], read and assigned. *)
Definition entry_at (es : list entry) (i : Z) : M entry :=
  if i <? 0 then Panic else match es !! Z.to_nat i with Some e => Ret e | None => Panic end.
Definition set_entry (es : list entry) (i : Z) (f : entry -> entry) : M (list entry) :=
  e ← entry_at es i; Ret (<[Z.to_nat i := f e]> es).

Record SeenTracker := Seen { entries : list entry; currentIdx : Z }.

Definition zero_entry : entry := Ent 0 0 [] invalidKind false false.

Definition reset (s : SeenTracker) : SeenTracker :=
  let es := match entries s with [] => [zero_entry] | e :: _ => [e] end in
  Seen (map (fun e => set_next_ (-1) (set_child_ (-1) e)) es) 0.

(** The loops follow links; the fuel is the number of entries. *)
Fixpoint find_loop (fuel : nat) (es : list entry) (i : Z) (k : list Z) : M Z :=
  match fuel with
  | O => OutOfFuel
  | S fuel' =>
      if i <? 0 then mret (-1)
      else
        e ← entry_at es i;
        if bool_decide (name e = k) then mret i else find_loop fuel' es (e_next e) k
  end.

Definition find (es : list entry) (parentIdx : Z) (k : list Z) : M Z :=
  e ← entry_at es parentIdx; find_loop (S (length es)) es (e_child e) k.

(** [clear], its loop given. *)
Definition clear_with (loop : Z -> list entry -> M (list entry)) (idx : Z) (es : list entry) : M (list entry) :=
  if Z.of_nat (length es) <=? idx then mret es
  else
    e ← entry_at es idx;
    es ← loop (e_child e) es;
    set_entry es idx (set_child_ (-1)).

Fixpoint clear_loop (fuel : nat) (i : Z) (es : list entry) : M (list entry) :=
  match fuel with
  | O => OutOfFuel
  | S fuel' =>
      if i <? 0 then mret es
      else
        e ← entry_at es i;
        let next := e_next e in
        e0 ← entry_at es 0;
        let n := e_next e0 in
        es ← set_entry es 0 (set_next_ i);
        es ← set_entry es i (set_next_ n);
        es ← set_entry es i (set_name_ []);
        es ← clear_with (clear_loop fuel') i es;
        clear_loop fuel' next es
  end.

Definition clear (es : list entry) (idx : Z) : M (list entry) :=
  clear_with (clear_loop (S (length es))) idx es.

Definition create (es : list entry) (parentIdx : Z) (k : list Z) (kd : keyKind) (ex kv : bool)
    : M (Z * list entry) :=
  p ← entry_at es parentIdx;
  let e := Ent (-1) (e_child p) k kd ex kv in
  e0 ← entry_at es 0;
  r ← (if 0 <=? e_next e0 then
         let idx := e_next e0 in
         f ← entry_at es idx;
         es ← set_entry es 0 (set_next_ (e_next f));
         es ← set_entry es idx (fun _ => e);
         mret (idx, es)
       else mret (Z.of_nat (length es), es ++ [e]));
  let '(idx, es) := (r : Z * list entry) in
  es ← set_entry es parentIdx (set_child_ idx);
  mret (idx, es).

Fixpoint flag_loop (fuel : nat) (i : Z) (es : list entry) : M (list entry) :=
  match fuel with
  | O => OutOfFuel
  | S fuel' =>
      if i <? 0 then mret es
      else
        e ← entry_at es i;
        es ← (if kv e then set_entry es i (set_flags_ true false) else mret es);
        e ← entry_at es i;
        es ← flag_loop fuel' (e_child e) es;
        e ← entry_at es i;
        flag_loop fuel' (e_next e) es
  end.

Definition setExplicitFlag (es : list entry) (parentIdx : Z) : M (list entry) :=
  e ← entry_at es parentIdx; flag_loop (S (length es)) (e_child e) es.

(** ** Checks *)

(** [node.Key()], as the bytes of its nodes; [node.Value()]. *)
Definition node_key (t : tree) : M (list (list Z)) :=
  let 'T k _ _ cs := t in
  match k with
  | KeyValue => match cs with [] => Panic | _ :: keys => mret (map (fun t => dbytes (t_data t)) keys) end
  | Table | ArrayTable => mret (map (fun t => dbytes (t_data t)) cs)
  | _ => Panic
  end.

(** The loop over the key of a table, up to its last part. After it,
    [it.Node()] is nil when there was no part at all. *)
Fixpoint prefix_loop (es : list entry) (parentIdx : Z) (keys : list (list Z))
    : M (Z * list Z * list entry) :=
  match keys with
  | [] => Panic
  | [k] => mret (parentIdx, k, es)
  | k :: keys' =>
      idx ← find es parentIdx k;
      if idx <? 0 then
        r ← create es parentIdx k tableKind false false;
        let '(idx, es) := (r : Z * list entry) in
        prefix_loop es idx keys'
      else
        e ← entry_at es idx;
        if bool_decide (kind e = valueKind) then Fail (EExpectedTable k (kind e))
        else prefix_loop es idx keys'
  end.

Definition checkTable (s : SeenTracker) (node : tree) : M (bool * SeenTracker) :=
  es ← (if 0 <=? currentIdx s then setExplicitFlag (entries s) (currentIdx s) else mret (entries s));
  keys ← node_key node;
  r ← prefix_loop es 0 keys;
  let '(parentIdx, k, es) := (r : Z * list Z * list entry) in
  idx ← find es parentIdx k;
  if 0 <=? idx then
    e ← entry_at es idx;
    if negb (bool_decide (kind e = tableKind)) then Fail (EShouldBeTable k (kind e))
    else if explicit e then Fail (ETableExists k)
    else
      es ← set_entry es idx (fun e => set_flags_ true (kv e) e);
      mret (false, Seen es idx)
  else
    r ← create es parentIdx k tableKind true false;
    let '(idx, es) := (r : Z * list entry) in
    mret (true, Seen es idx).

Definition checkArrayTable (s : SeenTracker) (node : tree) : M (bool * SeenTracker) :=
  es ← (if 0 <=? currentIdx s then setExplicitFlag (entries s) (currentIdx s) else mret (entries s));
  keys ← node_key node;
  r ← prefix_loop es 0 keys;
  let '(parentIdx, k, es) := (r : Z * list Z * list entry) in
  idx ← find es parentIdx k;
  if idx <? 0 then
    r ← create es parentIdx k arrayTableKind true false;
    let '(idx, es) := (r : Z * list entry) in
    mret (true, Seen es idx)
  else
    e ← entry_at es idx;
    if negb (bool_decide (kind e = arrayTableKind)) then Fail (EShouldBeArrayTable (kind e) k)
    else
      es ← clear es idx;
      mret (false, Seen es idx).

(** The loop over the key of a key-value. *)
Fixpoint kv_loop (es : list entry) (parentIdx : Z) (keys : list (list Z)) : M (Z * list entry) :=
  match keys with
  | [] => mret (parentIdx, es)
  | k :: keys' =>
      idx ← find es parentIdx k;
      if idx <? 0 then
        r ← create es parentIdx k tableKind false true;
        let '(idx, es) := (r : Z * list entry) in
        kv_loop es idx keys'
      else
        e ← entry_at es idx;
        if match keys' with [] => true | _ => false end then Fail (EAlreadyDefined k)
        else if negb (bool_decide (kind e = tableKind)) then Fail (EExpectedTable k (kind e))
        else if explicit e then Fail (ERedefine k)
        else kv_loop es idx keys'
  end.

(** [checkKeyValue] up to the switch on the value, which is [rest]. *)
Definition checkKeyValue_with (rest : tree -> M bool) (s : SeenTracker) (node : tree) : M (bool * SeenTracker) :=
  keys ← node_key node;
  r ← kv_loop (entries s) (currentIdx s) keys;
  let '(idx, es) := (r : Z * list entry) in
  es ← set_entry es idx (set_kind_ valueKind);
  match t_children node with
  | [] => Panic
  | value :: _ => first ← rest value; mret (first, Seen es (currentIdx s))
  end.

Section Check.
(** What [pool.Get] gives for an inline table: a tracker that was put back, or
    a new one. *)
Context (pool_Get : tree -> SeenTracker).

(** The switch of [checkKeyValue], [checkInlineTable] and [checkArray]. *)
Fixpoint check_value (value : tree) : M bool :=
  let 'T k _ _ cs := value in
  match k with
  | InlineTable =>
      (fix members cs s first :=
         match cs with
         | [] => mret first
         | n :: cs' =>
             r ← checkKeyValue_with check_value s n;
             let '(first, s) := (r : bool * SeenTracker) in
             members cs' s first
         end) cs (reset (pool_Get value)) false
  | Array =>
      (fix elems cs first :=
         match cs with
         | [] => mret first
         | n :: cs' =>
             match t_kind n with
             | InlineTable | Array => first ← check_value n; elems cs' first
             | _ => elems cs' first
             end
         end) cs false
  | _ => mret false
  end.

Definition checkKeyValue (s : SeenTracker) (node : tree) : M (bool * SeenTracker) :=
  checkKeyValue_with check_value s node.

Definition CheckExpression (s : SeenTracker) (node : tree) : M (bool * SeenTracker) :=
  let s := match entries s with [] => reset s | _ => s end in
  match t_kind node with
  | KeyValue => checkKeyValue s node
  | Table => checkTable s node
  | ArrayTable => checkArrayTable s node
  | _ => Panic
  end.
End Check.

(** * Correctness *)

(** Runs the monad on values. *)
Ltac run := unfold mret, go_mret; cbn [mbind go_mbind go_bind].

(** ** The tree that the entries stand for *)

Record info := Info { i_kind : keyKind; i_explicit : bool; i_kv : bool }.

(** A node: the index of its entry, its name, what is known of it, and its
    children in the order of their links. *)
Inductive anode := AN (ix : nat) (nm : list Z) (inf : info) (cs : list anode).

Definition a_ix (n : anode) : nat := let 'AN ix _ _ _ := n in ix.
Definition a_name (n : anode) : list Z := let 'AN _ nm _ _ := n in nm.
Definition a_info (n : anode) : info := let 'AN _ _ inf _ := n in inf.
Definition a_children (n : anode) : list anode := let 'AN _ _ _ cs := n in cs.

(** The link to a list of nodes, or to a list of free entries. *)
Definition head (cs : list anode) : Z := match cs with [] => -1 | c :: _ => Z.of_nat (a_ix c) end.
Definition fhead (js : list nat) : Z := match js with [] => -1 | j :: _ => Z.of_nat j end.

Definition ent (c n : Z) (nm : list Z) (i : info) : entry := Ent c n nm (i_kind i) (i_explicit i) (i_kv i).

(** [rep es nx n]: the entries hold the node [n], whose next sibling is [nx]. *)
Fixpoint rep (es : list entry) (nx : Z) (n : anode) : Prop :=
  let 'AN ix nm inf cs := n in
  es !! ix = Some (ent (head cs) nx nm inf) /\
  (fix reps cs := match cs with [] => True | c :: cs' => rep es (head cs') c /\ reps cs' end) cs.
Fixpoint reps (es : list entry) (cs : list anode) : Prop :=
  match cs with [] => True | c :: cs' => rep es (head cs') c /\ reps es cs' end.

Lemma rep_eq es nx ix nm inf cs :
  rep es nx (AN ix nm inf cs) <-> es !! ix = Some (ent (head cs) nx nm inf) /\ reps es cs.
Proof.
  cbn [rep]. apply and_iff_compat_l. induction cs as [|c cs IH]; cbn [reps]; [done|]. by rewrite IH.
Qed.

(** The entries of a node. *)
Fixpoint ixs (n : anode) : list nat :=
  let 'AN ix _ _ cs := n in ix :: (cs ≫= ixs).
Abbreviation ixss cs := (cs ≫= ixs).

Fixpoint frees (es : list entry) (js : list nat) : Prop :=
  match js with
  | [] => True
  | j :: js' => (exists e, es !! j = Some e /\ e_next e = fhead js') /\ frees es js'
  end.

(** Induction through the children. *)
Lemma anode_ind' (P : anode -> Prop) :
  (forall ix nm inf cs, Forall P cs -> P (AN ix nm inf cs)) -> forall n, P n.
Proof.
  intros Hn. fix IH 1. intros [ix nm inf cs]. apply Hn.
  induction cs as [|c cs IHcs]; constructor; [apply IH|exact IHcs].
Qed.

(** *** Frames *)

Lemma rep_frame es es' n : forall nx, (forall j, j ∈ ixs n -> es' !! j = es !! j) -> rep es nx n -> rep es' nx n.
Proof.
  induction n as [ix nm inf cs IH] using anode_ind'; intros nx Hj. rewrite !rep_eq. intros [Hix Hcs]. split.
  { rewrite Hj; [done|]. cbn. by left. }
  clear Hix nx. assert (Hj' : forall j, j ∈ ixss cs -> es' !! j = es !! j) by (intros; apply Hj; cbn; by right).
  clear Hj. induction IH as [|c cs Hc Hcs' IHcs]; [done|]. destruct Hcs as [H1 H2]. split.
  - apply Hc; [|done]. intros j Hj. apply Hj'. rewrite bind_cons. apply elem_of_app. by left.
  - apply IHcs; [done|]. intros j Hj. apply Hj'. rewrite bind_cons. apply elem_of_app. by right.
Qed.

Lemma reps_frame es es' cs : (forall j, j ∈ ixss cs -> es' !! j = es !! j) -> reps es cs -> reps es' cs.
Proof.
  induction cs as [|c cs IH]; [done|]. intros Hj [H1 H2]. split.
  - eapply rep_frame; [|done]. intros j Hj'. apply Hj. rewrite bind_cons. apply elem_of_app. by left.
  - apply IH; [|done]. intros j Hj'. apply Hj. rewrite bind_cons. apply elem_of_app. by right.
Qed.

Lemma frees_frame es es' js :
  (forall j, j ∈ js -> e_next <$> es' !! j = e_next <$> es !! j) -> frees es js -> frees es' js.
Proof.
  induction js as [|j js IH]; [done|]. intros Hj [(e & He & Hn) H2]. split.
  - specialize (Hj j ltac:(by left)). rewrite He in Hj. cbn in Hj. destruct (es' !! j) as [e'|]; [|done].
    injection Hj as Hj. exists e'. by rewrite Hj.
  - apply IH; [|done]. intros i Hi. apply Hj. by right.
Qed.

Lemma rep_lookup es nx n : rep es nx n -> es !! a_ix n = Some (ent (head (a_children n)) nx (a_name n) (a_info n)).
Proof. destruct n. rewrite rep_eq. by intros [? _]. Qed.

Lemma rep_bound es n : forall nx, rep es nx n -> forall j, j ∈ ixs n -> (j < length es)%nat.
Proof.
  induction n as [ix nm inf cs IH] using anode_ind'; intros nx. rewrite rep_eq. intros [Hix Hcs] j Hj.
  cbn in Hj. apply elem_of_cons in Hj as [->|Hj]; [by eapply lookup_lt_Some|].
  clear Hix. induction IH as [|c cs Hc Hcs' IHcs]; [by apply not_elem_of_nil in Hj|].
  destruct Hcs as [H1 H2]. rewrite bind_cons in Hj. apply elem_of_app in Hj as [Hj|Hj]; [by eapply Hc|by apply IHcs].
Qed.

(** *** Reading and writing entries *)

Lemma entry_at_eq es (i : nat) e : es !! i = Some e -> entry_at es (Z.of_nat i) = Ret e.
Proof. intros He. unfold entry_at. rewrite (proj2 (Z.ltb_ge _ _)), Nat2Z.id, He by lia. done. Qed.

Lemma set_entry_eq es (i : nat) e f : es !! i = Some e -> set_entry es (Z.of_nat i) f = Ret (<[i := f e]> es).
Proof. intros He. unfold set_entry. rewrite (entry_at_eq _ _ _ He). cbn. by rewrite Nat2Z.id. Qed.

(** The child of a given name. *)
Fixpoint find_child (k : list Z) (cs : list anode) : option anode :=
  match cs with
  | [] => None
  | c :: cs' => if bool_decide (a_name c = k) then Some c else find_child k cs'
  end.

Definition found (o : option anode) : Z := match o with Some c => Z.of_nat (a_ix c) | None => -1 end.

Lemma find_loop_eq es k cs : forall fuel, reps es cs -> (length cs < fuel)%nat ->
  find_loop fuel es (head cs) k = Ret (found (find_child k cs)).
Proof.
  induction cs as [|c cs IH]; intros fuel Hcs Hf; (destruct fuel as [|fuel]; [simpl in Hf; lia|]); [done|].
  destruct Hcs as [Hc Hcs]. cbn [find_loop head]. rewrite (proj2 (Z.ltb_ge _ _)) by lia.
  rewrite (entry_at_eq _ _ _ (rep_lookup _ _ _ Hc)). cbn [mbind go_mbind go_bind ent name find_child].
  case_bool_decide; [done|]. cbn [e_next]. apply IH; [done|simpl in Hf; lia].
Qed.

Lemma nodup_bound (l : list nat) n : NoDup l -> (forall j, j ∈ l -> (j < n)%nat) -> (length l <= n)%nat.
Proof.
  intros Hl Hb. rewrite <- (length_seq n 0). apply submseteq_length, NoDup_submseteq; [done|].
  intros j Hj. apply elem_of_seq. specialize (Hb j Hj). lia.
Qed.

(** *** Nodes by their dotted key *)

Fixpoint get (p : list (list Z)) (n : anode) : option anode :=
  match p with
  | [] => Some n
  | k :: p' => c ← find_child k (a_children n); get p' c
  end.

Fixpoint replace_child (k : list Z) (c' : anode) (cs : list anode) : list anode :=
  match cs with
  | [] => []
  | c :: cs' => if bool_decide (a_name c = k) then c' :: cs' else c :: replace_child k c' cs'
  end.

(** [upd p m n]: the node [n] with [m] in the place [p]. *)
Fixpoint upd (p : list (list Z)) (m : anode) (n : anode) : anode :=
  match p with
  | [] => m
  | k :: p' =>
      match find_child k (a_children n) with
      | Some c => AN (a_ix n) (a_name n) (a_info n) (replace_child k (upd p' m c) (a_children n))
      | None => n
      end
  end.

Lemma find_child_name k cs c : find_child k cs = Some c -> a_name c = k.
Proof. induction cs as [|c0 cs IH]; [done|]. cbn. case_bool_decide; [by intros [= <-]|done]. Qed.

Lemma find_replace k c c' cs k' : find_child k cs = Some c -> a_name c' = k ->
  find_child k' (replace_child k c' cs) = if bool_decide (k' = k) then Some c' else find_child k' cs.
Proof.
  intros Hf Hn. induction cs as [|c0 cs IH]; [done|]. cbn in *. destruct (decide (a_name c0 = k)) as [H0|H0];
    [rewrite bool_decide_eq_true_2 in Hf |- * by done|rewrite bool_decide_eq_false_2 in Hf |- * by done].
  - injection Hf as ->. cbn. rewrite Hn. destruct (decide (k' = k)) as [->|Hne].
    + by rewrite !bool_decide_eq_true_2.
    + rewrite (bool_decide_eq_false_2 (k = k')), (bool_decide_eq_false_2 (k' = k)) by congruence.
      by rewrite (bool_decide_eq_false_2 (a_name c = k')) by congruence.
  - cbn. destruct (decide (k' = k)) as [->|Hne].
    + rewrite (bool_decide_eq_false_2 (a_name c0 = k)), IH by done. by rewrite bool_decide_eq_true_2.
    + rewrite IH by done. by rewrite (bool_decide_eq_false_2 (k' = k)) by done.
Qed.

Lemma get_app p q n : get (p ++ q) n = m ← get p n; get q m.
Proof.
  revert n. induction p as [|k p IH]; intros n; [done|]. cbn. destruct (find_child k _) as [c|]; [|done]. cbn. apply IH.
Qed.

Lemma upd_ix p m' n m : get p n = Some m -> a_ix m' = a_ix m -> a_ix (upd p m' n) = a_ix n.
Proof.
  destruct p as [|k p]; [by intros [= ->]|]. cbn. destruct (find_child k _); done.
Qed.
Lemma upd_name p m' n m : get p n = Some m -> a_name m' = a_name m -> a_name (upd p m' n) = a_name n.
Proof.
  destruct p as [|k p]; [by intros [= ->]|]. cbn. destruct (find_child k _); done.
Qed.

Lemma get_upd_app p m' n m r : get p n = Some m -> a_name m' = a_name m -> get (p ++ r) (upd p m' n) = get r m'.
Proof.
  revert n. induction p as [|k p IH]; intros n Hg Hm; [done|]. cbn in Hg |- *.
  destruct (find_child k (a_children n)) as [c|] eqn:Hc; [|done]. cbn in Hg. cbn [a_children].
  rewrite (find_replace k c) by (try done; rewrite (upd_name p m' c m) by done; by eapply find_child_name).
  rewrite bool_decide_eq_true_2 by done. cbn. by apply IH.
Qed.

(** Elsewhere nothing is known differently. *)
Lemma get_upd_other p m' m : forall n q, get p n = Some m -> a_name m' = a_name m ->
  ~ p `prefix_of` q -> a_info <$> get q (upd p m' n) = a_info <$> get q n.
Proof.
  induction p as [|k p IH]; intros n q Hg Hm Hq; [destruct Hq; by exists q|]. cbn in Hg |- *.
  destruct (find_child k (a_children n)) as [c|] eqn:Hc; [|done]. cbn in Hg.
  destruct q as [|k' q]; [done|]. cbn [get a_children].
  rewrite (find_replace k c _ _ k' Hc) by (rewrite (upd_name p m' c m) by done; by eapply find_child_name).
  case_bool_decide as Hk; [|done]. subst k'. rewrite Hc. cbn. apply IH; [done|done|].
  intros [r ->]. apply Hq. by exists r.
Qed.

Lemma in_find k cs c : find_child k cs = Some c -> c ∈ cs.
Proof.
  induction cs as [|c0 cs IH]; [done|]. cbn. case_bool_decide; [intros [= ->]; by left|right; auto].
Qed.

Lemma get_ixs p : forall n m, get p n = Some m -> forall j, j ∈ ixs m -> j ∈ ixs n.
Proof.
  induction p as [|k p IH]; intros n m Hg j Hj; [by injection Hg as ->|]. cbn in Hg.
  destruct (find_child k (a_children n)) as [c|] eqn:Hc; [|done]. specialize (IH _ _ Hg j Hj).
  destruct n as [ix nm inf cs]. cbn in *. right. apply list_elem_of_bind. exists c. split; [done|]. by eapply in_find.
Qed.

(** A node can be changed in its place: the rest of the tree is untouched. *)
Lemma rep_upd p : forall n nx es m,
  rep es nx n -> NoDup (ixs n) -> get p n = Some m ->
  exists nxm, rep es nxm m /\ (p = [] -> nxm = nx) /\
    forall es' m', (forall j, j ∈ ixs n -> j ∉ ixs m -> es' !! j = es !! j) -> rep es' nxm m' -> a_ix m' = a_ix m ->
      rep es' nx (upd p m' n).
Proof.
  induction p as [|k p IH]; intros n nx es m Hr Hd Hg.
  { injection Hg as <-. exists nx. split_and!; [done|done|]. by intros. }
  cbn in Hg. destruct (find_child k (a_children n)) as [c|] eqn:Hc; [|done]. cbn in Hg.
  destruct n as [ix nm inf cs]. cbn [a_children] in *. apply rep_eq in Hr as [Hix Hcs].
  cbn in Hd. apply NoDup_cons in Hd as [Hnix Hd].
  assert (Hsplit : exists nxm, rep es nxm m /\
    forall es' m', (forall j, j ∈ ixss cs -> j ∉ ixs m -> es' !! j = es !! j) -> rep es' nxm m' -> a_ix m' = a_ix m ->
      reps es' (replace_child k (upd p m' c) cs) /\ head (replace_child k (upd p m' c) cs) = head cs).
  { clear Hix Hnix. induction cs as [|c0 cs IHcs]; [done|]. destruct Hcs as [H0 Hcs]. cbn in Hc.
    rewrite bind_cons in Hd. apply NoDup_app in Hd as (Hd0 & Hdd & Hd).
    case_bool_decide as Hn0.
    - injection Hc as ->. destruct (IH c _ es m H0 Hd0 Hg) as (nxm & Hm & _ & Hk). exists nxm. split; [done|].
      intros es' m' Hj Hm' Hi. cbn. rewrite bool_decide_eq_true_2 by done. cbn [reps head]. split.
      2:{ by rewrite (upd_ix p m' c m). }
      split.
      + apply Hk; [|done|done]. intros j Hj1 Hj2. apply Hj; [|done]. rewrite bind_cons. apply elem_of_app. by left.
      + eapply reps_frame; [|exact Hcs]. intros j Hj1. apply Hj.
        * rewrite bind_cons. apply elem_of_app. by right.
        * intros Hj2. eapply Hdd; [|exact Hj1]. by eapply get_ixs.
    - destruct (IHcs Hcs Hd Hc) as (nxm & Hm & Hk). exists nxm. split; [done|]. intros es' m' Hj Hm' Hi. cbn.
      rewrite bool_decide_eq_false_2 by done. destruct (Hk es' m') as [Hr Hh]; [|done|done|].
      { intros j Hj1. apply Hj. rewrite bind_cons. apply elem_of_app. by right. }
      cbn [reps head]. rewrite Hh. split; [|done]. split; [|done]. eapply rep_frame; [|exact H0].
      intros j Hj1. apply Hj; [rewrite bind_cons; apply elem_of_app; by left|]. intros Hj2.
      eapply Hdd; [exact Hj1|]. apply list_elem_of_bind. exists c.
      split; [by eapply get_ixs|by eapply in_find]. }
  destruct Hsplit as (nxm & Hm & Hk). exists nxm. split_and!; [done|done|]. intros es' m' Hj Hm' Hi.
  cbn [upd a_children a_ix a_name a_info]. rewrite Hc. apply rep_eq.
  destruct (Hk es' m') as [Hr Hh]; [|done|done|].
  { intros j Hj1. apply Hj. cbn. by right. }
  rewrite Hh. split; [|done]. rewrite Hj; [done|cbn; by left|]. intros Hj2. apply Hnix.
  apply list_elem_of_bind. exists c. split; [by eapply get_ixs|by eapply in_find].
Qed.

(** The entries of the rest of the tree stay the same. *)
Lemma ixs_upd p : forall n m, get p n = Some m ->
  exists rest, ixs n ≡ₚ ixs m ++ rest /\ forall m', ixs (upd p m' n) ≡ₚ ixs m' ++ rest.
Proof.
  induction p as [|k p IH]; intros n m Hg.
  { injection Hg as <-. exists []. split; [by rewrite app_nil_r|]. intros. cbn. by rewrite app_nil_r. }
  cbn in Hg. destruct n as [ix nm inf cs]. cbn [a_children] in Hg.
  destruct (find_child k cs) as [c|] eqn:Hc; [|done]. cbn in Hg. destruct (IH c m Hg) as (rest & Hr & Hu).
  assert (Hcs : exists rest', ixss cs ≡ₚ ixs c ++ rest' /\ forall c', ixss (replace_child k c' cs) ≡ₚ ixs c' ++ rest').
  { clear -Hc. induction cs as [|c0 cs IHcs]; [done|]. cbn in Hc. case_bool_decide as H0.
    - injection Hc as ->. exists (ixss cs). split; [done|]. intros c'. cbn [replace_child]. by rewrite bool_decide_eq_true_2.
    - destruct (IHcs Hc) as (r & H1 & H2). exists (ixs c0 ++ r). split.
      + rewrite bind_cons, H1. solve_Permutation.
      + intros c'. cbn [replace_child]. rewrite bool_decide_eq_false_2 by done. rewrite bind_cons, H2. solve_Permutation. }
  destruct Hcs as (rest' & H1 & H2). exists (ix :: rest ++ rest'). split.
  - cbn [ixs]. rewrite H1, Hr. solve_Permutation.
  - intros m'. cbn [upd a_children]. rewrite Hc. cbn [a_ix a_name a_info ixs]. rewrite H2, Hu. solve_Permutation.
Qed.

(** ** The invariant *)

(** The tree hangs at entry 0, whose own link is the head of the free list; no
    entry is used twice. *)
Record inv (es : list entry) (root : anode) (free : list nat) : Prop := {
  inv_rep : rep es (fhead free) root;
  inv_free : frees es free;
  inv_nodup : NoDup (ixs root ++ free);
  inv_root : a_ix root = 0%nat
}.

Lemma inv_length es root free : inv es root free -> (length (ixs root) <= length es)%nat.
Proof.
  intros [Hr _ Hd _]. apply NoDup_app in Hd as (Hd & _). apply nodup_bound; [done|]. by eapply rep_bound.
Qed.

Lemma children_length cs : (length cs <= length (ixss cs))%nat.
Proof.
  induction cs as [|[ix nm inf ds] cs IH]; [done|]. rewrite bind_cons, length_app. simpl. lia.
Qed.

Lemma get_length p n m : get p n = Some m -> (length (ixs m) <= length (ixs n))%nat.
Proof. intros (rest & -> & _)%ixs_upd. rewrite length_app. lia. Qed.

(** The node at a dotted key. *)
Lemma inv_node p es root free m : inv es root free -> get p root = Some m ->
  exists nx, es !! a_ix m = Some (ent (head (a_children m)) nx (a_name m) (a_info m)) /\ reps es (a_children m) /\
    (length (ixss (a_children m)) < length es)%nat.
Proof.
  intros Hi Hg. pose proof (inv_length _ _ _ Hi) as Hl. pose proof (get_length _ _ _ Hg) as Hl'.
  destruct Hi as [Hr _ Hd _]. apply NoDup_app in Hd as (Hd & _).
  destruct (rep_upd p root _ es m Hr Hd Hg) as (nx & Hm & _). exists nx. destruct m as [ix nm inf cs].
  apply rep_eq in Hm as [H1 H2]. cbn in *. split_and!; [done|done|lia].
Qed.

Lemma find_eq p es root free m k : inv es root free -> get p root = Some m ->
  find es (Z.of_nat (a_ix m)) k = Ret (found (find_child k (a_children m))).
Proof.
  intros Hi Hg. destruct (inv_node _ _ _ _ _ Hi Hg) as (nx & He & Hcs & Hl). unfold find.
  rewrite (entry_at_eq _ _ _ He). cbn [mbind go_mbind go_bind ent e_child]. apply find_loop_eq; [done|].
  pose proof (children_length (a_children m)). lia.
Qed.

(** *** Changes of one node *)

Lemma inv_change p es root free m : inv es root free -> get p root = Some m ->
  exists nx, rep es nx m /\ forall es' m',
    (forall j, j ∈ ixs root ++ free -> j ∉ ixs m -> es' !! j = es !! j) -> rep es' nx m' -> a_ix m' = a_ix m ->
    (forall rest, ixs root ≡ₚ ixs m ++ rest -> NoDup (ixs m' ++ rest ++ free)) ->
    inv es' (upd p m' root) free.
Proof.
  intros [Hr Hf Hd H0] Hg. pose proof Hd as Hd'. apply NoDup_app in Hd' as (Hdr & Hdd & Hdf).
  destruct (rep_upd p root _ es m Hr Hdr Hg) as (nx & Hm & _ & Hk). exists nx. split; [done|].
  intros es' m' Hj Hm' Hi Hn. destruct (ixs_upd p root m Hg) as (rest & H1 & H2). split.
  - apply Hk; [|done|done]. intros j Hj1. apply Hj, elem_of_app. by left.
  - eapply frees_frame; [|done]. intros j Hj1. rewrite Hj; [done|apply elem_of_app; by right|].
    intros Hj2. eapply Hdd; [|exact Hj1]. by eapply get_ixs.
  - rewrite H2, <- app_assoc. by apply Hn.
  - by rewrite (upd_ix p m' root m).
Qed.

(** What is known of a node changes. *)
Definition with_info (i : info) (m : anode) : anode := AN (a_ix m) (a_name m) i (a_children m).

Lemma set_info_eq p es root free m f i : inv es root free -> get p root = Some m ->
  (forall c n nm, f (ent c n nm (a_info m)) = ent c n nm i) ->
  exists es', set_entry es (Z.of_nat (a_ix m)) f = Ret es' /\ inv es' (upd p (with_info i m) root) free.
Proof.
  intros Hi Hg Hf. destruct (inv_change p es root free m Hi Hg) as (nx & Hm & Hk).
  rewrite (set_entry_eq _ _ _ _ (rep_lookup _ _ _ Hm)). eexists. split; [done|].
  destruct m as [ix nm inf cs]. cbn [a_ix a_name a_children a_info with_info] in *. apply rep_eq in Hm as [H1 H2].
  assert (Hnd : NoDup (ixs (AN ix nm inf cs))).
  { pose proof (inv_nodup _ _ _ Hi) as Hd. destruct (ixs_upd p root _ Hg) as (rest & Hp & _).
    rewrite Hp, <- app_assoc in Hd. by apply NoDup_app in Hd as (Hd & _). }
  cbn in Hnd. apply NoDup_cons in Hnd as [Hnix _]. apply Hk.
  - intros j _ Hj. rewrite list_lookup_insert_ne; [done|]. intros ->. apply Hj. cbn. by left.
  - apply rep_eq. rewrite Hf. split; [apply list_lookup_insert_eq; by eapply lookup_lt_Some|].
    eapply reps_frame; [|done]. intros j Hj. rewrite list_lookup_insert_ne; [done|]. by intros ->.
  - done.
  - intros rest Hp. pose proof (inv_nodup _ _ _ Hi) as Hd. rewrite Hp, <- app_assoc in Hd. exact Hd.
Qed.

(** A new child, whose entry is not used. *)
Definition add_child (c m : anode) : anode := AN (a_ix m) (a_name m) (a_info m) (c :: a_children m).

Lemma link_entry p es es2 root free m j k i : inv es root free -> get p root = Some m ->
  j ∉ ixs root ++ free -> (forall l, l ∈ ixs root ++ free -> es2 !! l = es !! l) ->
  es2 !! j = Some (ent (-1) (head (a_children m)) k i) ->
  exists es', set_entry es2 (Z.of_nat (a_ix m)) (set_child_ (Z.of_nat j)) = Ret es' /\
    inv es' (upd p (add_child (AN j k i []) m) root) free.
Proof.
  intros Hi Hg Hnj Hsame Hj. destruct (inv_change p es root free m Hi Hg) as (nx & Hm & Hk).
  assert (Hin : a_ix m ∈ ixs root) by (eapply get_ixs; [exact Hg|]; destruct m; cbn; by left).
  assert (Hlk : es2 !! a_ix m = Some (ent (head (a_children m)) nx (a_name m) (a_info m))).
  { rewrite Hsame by (apply elem_of_app; by left). by apply rep_lookup. }
  rewrite (set_entry_eq _ _ _ _ Hlk). eexists. split; [done|].
  assert (Hne : a_ix m <> j) by (intros <-; apply Hnj, elem_of_app; by left).
  destruct (ixs_upd p root m Hg) as (rest & Hp & _). pose proof (inv_nodup _ _ _ Hi) as Hd.
  destruct m as [ix nm inf cs]. unfold add_child. cbn [a_ix a_name a_children a_info] in *.
  apply rep_eq in Hm as [H1 H2].
  assert (Hnix : ix ∉ ixss cs).
  { rewrite Hp, <- app_assoc in Hd. apply NoDup_app in Hd as (Hd & _). cbn in Hd. by apply NoDup_cons in Hd as [? _]. }
  assert (Hcsr : forall l, l ∈ ixss cs -> l ∈ ixs root).
  { intros l Hl. eapply get_ixs; [exact Hg|]. cbn. by right. }
  apply Hk.
  - intros l Hl1 Hl2. rewrite list_lookup_insert_ne; [by apply Hsame|]. intros ->. apply Hl2. cbn. by left.
  - apply rep_eq. split; [rewrite list_lookup_insert_eq by (by eapply lookup_lt_Some); done|]. split.
    + apply rep_eq. split; [|done]. rewrite list_lookup_insert_ne by done. exact Hj.
    + eapply reps_frame; [|exact H2]. intros l Hl. rewrite list_lookup_insert_ne by (by intros ->).
      apply Hsame, elem_of_app. left. auto.
  - done.
  - intros rest' Hp'. cbn [ixs]. rewrite bind_cons. cbn [ixs mbind list_bind app].
    assert (Hp2 : ix :: j :: ixss cs ++ rest' ++ free ≡ₚ j :: (ixs root ++ free)).
    { rewrite Hp'. cbn. solve_Permutation. }
    cbn [app]. rewrite Hp2. by constructor.
Qed.

(** *** The free list *)

Lemma rep_root_next es nx nx' root e0 : rep es nx root -> NoDup (ixs root) -> a_ix root = 0%nat -> es !! 0%nat = Some e0 ->
  rep (<[0%nat := set_next_ nx' e0]> es) nx' root.
Proof.
  destruct root as [ix nm inf cs]. cbn. intros [H1 H2]%rep_eq Hd -> He. apply rep_eq.
  rewrite H1 in He. injection He as <-. apply NoDup_cons in Hd as [Hn _]. split.
  - rewrite list_lookup_insert_eq by (by eapply lookup_lt_Some). done.
  - eapply reps_frame; [|done]. intros j Hj. rewrite list_lookup_insert_ne; [done|]. by intros <-.
Qed.

Lemma pop_free es root j js e0 : inv es root (j :: js) -> es !! 0%nat = Some e0 ->
  inv (<[0%nat := set_next_ (fhead js) e0]> es) root js /\ j ∉ ixs root ++ js /\ j <> 0%nat.
Proof.
  intros [Hr [_ Hf] Hd H0] He. pose proof Hd as Hd'. apply NoDup_app in Hd' as (Hdr & Hdd & Hdf).
  assert (Hz : 0%nat ∈ ixs root) by (destruct root; cbn in H0 |- *; subst; by left).
  assert (Hj : j ∉ ixs root ++ js).
  { rewrite <- Permutation_middle in Hd. by apply NoDup_cons in Hd as [? _]. }
  split_and!; [|done|intros ->; apply Hj, elem_of_app; by left]. split; [by eapply rep_root_next| | |done].
  - eapply frees_frame; [|done]. intros i Hi. rewrite list_lookup_insert_ne; [done|]. intros <-.
    apply (Hdd 0%nat Hz). by right.
  - rewrite <- Permutation_middle in Hd. by apply NoDup_cons in Hd as [_ ?].
Qed.

Lemma create_eq p es root free m k kd ex kv : inv es root free -> get p root = Some m ->
  exists j es' free', create es (Z.of_nat (a_ix m)) k kd ex kv = Ret (Z.of_nat j, es') /\
    inv es' (upd p (add_child (AN j k (Info kd ex kv) []) m) root) free'.
Proof.
  intros Hi Hg. unfold create. destruct (inv_node _ _ _ _ _ Hi Hg) as (nx & He & _ & _).
  rewrite (entry_at_eq _ _ _ He). run.
  pose proof (rep_lookup _ _ _ (inv_rep _ _ _ Hi)) as H0. rewrite (inv_root _ _ _ Hi) in H0.
  rewrite (entry_at_eq es 0 _ H0 : entry_at es 0 = _). run. cbn [ent e_next e_child].
  destruct free as [|j js]; cbn [fhead Z.leb Z.compare].
  - run.
    assert (Hb : forall l, l ∈ ixs root ++ [] -> (l < length es)%nat).
    { intros l. rewrite app_nil_r. eapply rep_bound, (inv_rep _ _ _ Hi). }
    edestruct (link_entry p es (es ++ [Ent (-1) (head (a_children m)) k kd ex kv]) root [] m (length es) k (Info kd ex kv) Hi Hg)
      as (es' & Es & Hi').
    + intros Hl%Hb. lia.
    + intros l Hl%Hb. by rewrite lookup_app_l.
    + rewrite lookup_app_r, Nat.sub_diag by lia. done.
    + rewrite Es. run. by exists (length es), es', [].
  - rewrite (proj2 (Z.leb_le _ _)) by lia.
    pose proof (inv_free _ _ _ Hi) as [(f & Hf & Hfn) _]. rewrite (entry_at_eq _ _ _ Hf). run.
    destruct (pop_free _ _ _ _ _ Hi H0) as (Hi1 & Hnj & Hj0).
    rewrite (set_entry_eq es 0 _ _ H0 : set_entry es 0 _ = _). run. rewrite Hfn. set (es1 := <[0%nat := _]> es).
    fold es1 in Hi1. assert (Hf1 : es1 !! j = Some f) by (unfold es1; by rewrite list_lookup_insert_ne).
    rewrite (set_entry_eq es1 j _ _ Hf1). run.
    edestruct (link_entry p es1 (<[j := Ent (-1) (head (a_children m)) k kd ex kv]> es1) root js m j k (Info kd ex kv) Hi1 Hg)
      as (es' & Es & Hi').
    + done.
    + intros l Hl. rewrite list_lookup_insert_ne; [done|]. by intros ->.
    + rewrite list_lookup_insert_eq by (by eapply lookup_lt_Some). done.
    + rewrite Es. run. by exists j, es', js.
Qed.

(** *** Clearing a node *)

(** The entries of the children go to the free list; the others keep what they
    hold. *)
Definition freed (es es' : list entry) (ids free : list nat) : Prop :=
  length es' = length es /\ (forall j, j ∉ ids -> j <> 0%nat -> es' !! j = es !! j) /\
  exists free', free' ≡ₚ ids ++ free /\ frees es' free' /\
    forall e0, es !! 0%nat = Some e0 -> es' !! 0%nat = Some (set_next_ (fhead free') e0).

Lemma clear_loop_eq fuel : forall es cs free e0,
  reps es cs -> frees es free -> NoDup (0%nat :: ixss cs ++ free) -> es !! 0%nat = Some e0 -> e_next e0 = fhead free ->
  (length (ixss cs) < fuel)%nat ->
  exists es', clear_loop fuel (head cs) es = Ret es' /\ freed es es' (ixss cs) free.
Proof.
  induction fuel as [|fuel IH]; intros es cs free e0 Hcs Hfr Hd H0 Hn Hf; [lia|].
  destruct cs as [|[i nm inf ds] cs].
  { exists es. split; [done|]. split_and!; [done|done|]. exists free. split_and!; [done|done|]. intros e E.
    rewrite H0 in E. injection E as <-. rewrite <- Hn. by destruct e0. }
  destruct Hcs as [[Hi Hds]%rep_eq Hcs]. cbn [head a_ix] in *. rewrite bind_cons in Hd, Hf. cbn [ixs] in Hd, Hf.
  rewrite length_app in Hf. simpl in Hf.
  assert (Hd' : NoDup (0%nat :: i :: ixss ds ++ ixss cs ++ free)) by (by rewrite <- app_assoc in Hd).
  apply NoDup_cons in Hd' as [H0n Hd']. apply NoDup_cons in Hd' as [Hin Hd'].
  assert (Hi0 : i <> 0%nat) by (intros ->; apply H0n; by left).
  cbn [clear_loop]. rewrite (proj2 (Z.ltb_ge _ _)) by lia. rewrite (entry_at_eq _ _ _ Hi). run.
  rewrite (entry_at_eq es 0 _ H0 : entry_at es 0 = _). run.
  rewrite (set_entry_eq es 0 _ _ H0 : set_entry es 0 _ = _). run.
  set (es1 := <[0%nat := _]> es).
  assert (Hi1 : es1 !! i = Some (ent (head ds) (head cs) nm inf)) by (unfold es1; by rewrite list_lookup_insert_ne).
  rewrite (set_entry_eq _ _ _ _ Hi1). run.
  assert (Hlt : (i < length es1)%nat) by (by eapply lookup_lt_Some).
  rewrite (set_entry_eq _ i _ _ (list_lookup_insert_eq _ _ _ Hlt)). run. rewrite list_insert_insert_eq, Hn.
  set (ei := set_name_ [] _). set (es2 := <[i := ei]> es1).
  assert (H2i : es2 !! i = Some ei) by (by apply list_lookup_insert_eq).
  assert (H20 : es2 !! 0%nat = Some (set_next_ (Z.of_nat i) e0)).
  { unfold es2. rewrite list_lookup_insert_ne by done. apply list_lookup_insert_eq. by eapply lookup_lt_Some. }
  assert (H2o : forall j, j <> 0%nat -> j <> i -> es2 !! j = es !! j).
  { intros j Hj1 Hj2. unfold es2, es1. by rewrite !list_lookup_insert_ne by done. }
  assert (Hlen2 : length es2 = length es) by (unfold es2, es1; by rewrite !length_insert).
  unfold clear_with at 1. rewrite (proj2 (Z.leb_gt _ _)).
  2:{ apply lookup_lt_Some in H2i. lia. }
  rewrite (entry_at_eq _ _ _ H2i). run. cbn [ei set_name_ e_child ent set_next_].
  assert (Hfree2 : frees es2 (i :: free)).
  { split; [by exists ei|]. eapply frees_frame; [|exact Hfr]. intros j Hj. rewrite H2o; [done| |].
    - intros ->. apply H0n. right. rewrite !elem_of_app. auto.
    - intros ->. apply Hin. rewrite !elem_of_app. auto. }
  destruct (IH es2 ds (i :: free) (set_next_ (Z.of_nat i) e0)) as (es3 & E3 & Hlen3 & Ho3 & free3 & Hp3 & Hf3 & Hz3).
  { eapply reps_frame; [|exact Hds]. intros j Hj. apply H2o; intros ->.
    - apply H0n. right. rewrite !elem_of_app. auto.
    - apply Hin. rewrite !elem_of_app. auto. }
  { done. }
  { rewrite <- Permutation_middle. apply NoDup_cons. split.
    - intros Hz. apply H0n. apply elem_of_cons in Hz as [->|Hz]; [by left|]. right. rewrite !elem_of_app in *. tauto.
    - apply NoDup_cons. split; [intros Hz; apply Hin; rewrite !elem_of_app in *; tauto|].
      apply NoDup_app in Hd' as (Ha & Hb & Hc). apply NoDup_app. split_and!; [done| |by apply NoDup_app in Hc as (_ & _ & ?)].
      intros x Hx Hx'. apply (Hb x Hx). apply elem_of_app. auto. }
  { done. }
  { done. }
  { lia. }
  rewrite E3. run.
  assert (H3i : es3 !! i = Some ei).
  { rewrite Ho3; [done| |done]. intros Hx. apply Hin. rewrite !elem_of_app. auto. }
  rewrite (set_entry_eq _ _ _ _ H3i). run. set (es4 := <[i := _]> es3).
  specialize (Hz3 _ H20). set (e4 := set_next_ (fhead free3) (set_next_ (Z.of_nat i) e0)) in *.
  assert (H40 : es4 !! 0%nat = Some e4) by (unfold es4; by rewrite list_lookup_insert_ne).
  assert (Hf4 : frees es4 free3).
  { eapply frees_frame; [|exact Hf3]. intros j _. unfold es4. destruct (decide (j = i)) as [->|Hj].
    - rewrite list_lookup_insert_eq by (by eapply lookup_lt_Some). by rewrite H3i.
    - by rewrite list_lookup_insert_ne. }
  assert (H4o : forall j, j ∉ ixss ds -> j <> 0%nat -> j <> i -> es4 !! j = es !! j).
  { intros j Hj1 Hj2 Hj3. unfold es4. rewrite list_lookup_insert_ne, Ho3 by done. by apply H2o. }
  destruct (IH es4 cs free3 e4) as (es5 & E5 & Hlen5 & Ho5 & free5 & Hp5 & Hf5 & Hz5); [ |done| |done|done|lia|].
  { eapply reps_frame; [|exact Hcs]. intros j Hj. apply H4o.
    - intros Hj'. apply NoDup_app in Hd' as (_ & Hb & _). apply (Hb j Hj'). apply elem_of_app. auto.
    - intros ->. apply H0n. right. rewrite !elem_of_app. auto.
    - intros ->. apply Hin. rewrite !elem_of_app. auto. }
  { rewrite Hp3. assert (Hp : 0%nat :: ixss cs ++ ixss ds ++ i :: free ≡ₚ 0%nat :: i :: ixss ds ++ ixss cs ++ free) by solve_Permutation.
    rewrite Hp. apply NoDup_cons. split; [done|]. by apply NoDup_cons. }
  exists es5. split; [exact E5|]. rewrite bind_cons. cbn [ixs]. split_and!.
  - rewrite Hlen5. unfold es4. rewrite length_insert. congruence.
  - intros j Hj Hj0. cbn in Hj. rewrite elem_of_cons, elem_of_app in Hj. rewrite Ho5 by tauto. apply H4o; tauto.
  - exists free5. split_and!; [|done|].
    + rewrite Hp5, Hp3. solve_Permutation.
    + intros e E. rewrite H0 in E. injection E as <-. by rewrite (Hz5 _ H40).
Qed.

Definition without_children (m : anode) : anode := AN (a_ix m) (a_name m) (a_info m) [].

Lemma clear_eq p es root free m : inv es root free -> get p root = Some m -> p <> [] ->
  exists es' free', clear es (Z.of_nat (a_ix m)) = Ret es' /\ inv es' (upd p (without_children m) root) free'.
Proof.
  intros Hi Hg Hp. destruct (inv_node _ _ _ _ _ Hi Hg) as (nx & He & Hcs & Hl).
  pose proof Hi as [Hr Hfr Hd H0]. unfold clear, clear_with.
  rewrite (proj2 (Z.leb_gt _ _)) by (apply lookup_lt_Some in He; lia).
  rewrite (entry_at_eq _ _ _ He). run. cbn [ent e_child].
  pose proof (rep_lookup _ _ _ Hr) as Hz. rewrite H0 in Hz.
  destruct (ixs_upd p root m Hg) as (rest & Hperm & _).
  assert (Hzr : 0%nat ∈ rest).
  { destruct p as [|k p]; [done|]. destruct root as [ix nm inf cs]. cbn in H0, Hg, Hd. subst ix.
    destruct (find_child k cs) as [c|] eqn:Hc; [|done]. cbn in Hg.
    apply NoDup_cons in Hd as [Hd _].
    assert (Hin : 0%nat ∈ ixs m ++ rest) by (rewrite <- Hperm; cbn; by left).
    apply elem_of_app in Hin as [Hin|Hin]; [|done]. destruct Hd. apply elem_of_app. left.
    apply list_elem_of_bind. exists c. split; [by eapply get_ixs|by eapply in_find]. }
  assert (Hd2 : NoDup (ixs m ++ rest ++ free)) by (by rewrite Hperm, <- app_assoc in Hd).
  assert (Hsub : ixs m = a_ix m :: ixss (a_children m)) by (by destruct m). rewrite Hsub in Hd2.
  cbn [app] in Hd2. apply NoDup_cons in Hd2 as [Hmn Hd2].
  assert (Hm0 : a_ix m <> 0%nat) by (intros E; apply Hmn; rewrite E, !elem_of_app; auto).
  destruct (clear_loop_eq (S (length es)) es (a_children m) free
    (ent (head (a_children root)) (fhead free) (a_name root) (a_info root)) Hcs Hfr)
    as (es1 & E1 & Hlen1 & Ho1 & free' & Hp' & Hf' & Hz'); [ |done|done|lia|].
  { apply NoDup_app in Hd2 as (Ha & Hb & Hc). apply NoDup_app in Hc as (Hc & Hbd & Hdf). apply NoDup_cons. split.
    - rewrite elem_of_app. intros [Hx|Hx]; [apply (Hb _ Hx), elem_of_app; auto|by apply (Hbd _ Hzr)].
    - apply NoDup_app. split_and!; [done| |done]. intros x Hx Hx'. apply (Hb x Hx), elem_of_app. auto. }
  rewrite E1. run. assert (H1m : es1 !! a_ix m = es !! a_ix m).
  { apply Ho1; [|done]. intros Hx. apply Hmn. rewrite elem_of_app. auto. }
  rewrite He in H1m. rewrite (set_entry_eq _ _ _ _ H1m). eexists _, free'. split; [done|].
  assert (Hdr : NoDup (ixs root)) by (by apply NoDup_app in Hd as (? & _)).
  pose proof (rep_root_next es _ (fhead free') root _ Hr Hdr H0 Hz) as Hr0. set (es0 := <[0%nat := _]> es) in Hr0.
  destruct (rep_upd p root _ es0 m Hr0 Hdr Hg) as (nx' & Hm & _ & Hk).
  assert (nx' = nx) as ->.
  { apply rep_lookup in Hm. unfold es0 in Hm. rewrite list_lookup_insert_ne, He in Hm by done. by injection Hm. }
  assert (Hlt : (a_ix m < length es1)%nat) by (by eapply lookup_lt_Some).
  assert (Hfree' : forall j, j ∈ free' -> j ∈ ixss (a_children m) \/ j ∈ free).
  { intros j. rewrite Hp', elem_of_app. done. }
  split.
  - apply Hk; [| |done].
    + intros j Hj1 Hj2. rewrite Hsub in Hj2. rewrite elem_of_cons in Hj2.
      rewrite list_lookup_insert_ne by (intros E; apply Hj2; left; by symmetry). unfold es0. destruct (decide (j = 0%nat)) as [->|Hj0].
      * rewrite list_lookup_insert_eq by (by eapply lookup_lt_Some). by apply Hz'.
      * rewrite list_lookup_insert_ne by done. apply Ho1; tauto.
    + apply rep_eq. split; [|done]. rewrite list_lookup_insert_eq by done. done.
  - eapply frees_frame; [|exact Hf']. intros j Hj. destruct (decide (j = a_ix m)) as [->|Hjm].
    + rewrite list_lookup_insert_eq by done. by rewrite H1m.
    + by rewrite list_lookup_insert_ne by done.
  - destruct (ixs_upd p root m Hg) as (rest2 & Hq & ->). cbn [without_children ixs mbind list_bind app].
    rewrite Hp'. assert (Hrest : rest2 ≡ₚ rest) by (rewrite Hq in Hperm; by apply (inj (app (ixs m))) in Hperm).
    rewrite Hrest. assert (Hpp : a_ix m :: rest ++ ixss (a_children m) ++ free ≡ₚ
      a_ix m :: ixss (a_children m) ++ rest ++ free) by solve_Permutation.
    rewrite Hpp. by constructor.
  - by rewrite (upd_ix p _ root m).
Qed.

(** *** Setting the explicit flag *)

Definition mark_info (i : info) : info := if i_kv i then Info (i_kind i) true false else i.
Fixpoint mark (n : anode) : anode := let 'AN ix nm inf cs := n in AN ix nm (mark_info inf) (map mark cs).

Lemma mark_ixs n : ixs (mark n) = ixs n.
Proof.
  induction n as [ix nm inf cs IH] using anode_ind'. cbn. f_equal.
  induction IH as [|c cs Hc _ IHcs]; [done|]. cbn [map]. by rewrite !bind_cons, Hc, IHcs.
Qed.
Lemma mark_ixss cs : ixss (map mark cs) = ixss cs.
Proof. induction cs as [|c cs IH]; [done|]. cbn [map]. by rewrite !bind_cons, mark_ixs, IH. Qed.
Lemma mark_head cs : head (map mark cs) = head cs.
Proof. by destruct cs as [|[]]. Qed.

Lemma flag_loop_eq fuel : forall es cs,
  reps es cs -> NoDup (ixss cs) -> (length (ixss cs) < fuel)%nat ->
  exists es', flag_loop fuel (head cs) es = Ret es' /\ length es' = length es /\
    (forall j, j ∉ ixss cs -> es' !! j = es !! j) /\ reps es' (map mark cs).
Proof.
  induction fuel as [|fuel IH]; intros es cs Hcs Hd Hf; [lia|].
  destruct cs as [|[i nm inf ds] cs]; [by exists es|].
  destruct Hcs as [[Hi Hds]%rep_eq Hcs]. cbn [head a_ix] in *. rewrite bind_cons in Hd, Hf. cbn [ixs] in Hd, Hf.
  rewrite length_app in Hf. simpl in Hf. cbn [app] in Hd. apply NoDup_cons in Hd as [Hin Hd].
  apply NoDup_app in Hd as (Hd1 & Hdd & Hd2). rewrite elem_of_app in Hin.
  cbn [flag_loop]. rewrite (proj2 (Z.ltb_ge _ _)) by lia. rewrite (entry_at_eq _ _ _ Hi). run. cbn [kv ent].
  set (es1 := if i_kv inf then <[i := ent (head ds) (head cs) nm (mark_info inf)]> es else es).
  assert (E1 : (if i_kv inf then set_entry es (Z.of_nat i) (set_flags_ true false) else Ret es) = Ret es1).
  { unfold es1, mark_info. destruct (i_kv inf); [|done]. by rewrite (set_entry_eq _ _ _ _ Hi). }
  rewrite E1. run.
  assert (H1i : es1 !! i = Some (ent (head ds) (head cs) nm (mark_info inf))).
  { unfold es1, mark_info. destruct (i_kv inf); [|done]. apply list_lookup_insert_eq. by eapply lookup_lt_Some. }
  assert (H1o : forall j, j <> i -> es1 !! j = es !! j).
  { intros j Hj. unfold es1. destruct (i_kv inf); [|done]. by rewrite list_lookup_insert_ne. }
  assert (Hl1 : length es1 = length es) by (unfold es1; destruct (i_kv inf); by rewrite ?length_insert).
  rewrite (entry_at_eq _ _ _ H1i). run. cbn [e_child ent].
  destruct (IH es1 ds) as (es2 & E2 & Hl2 & Ho2 & Hr2); [|done|lia|].
  { eapply reps_frame; [|exact Hds]. intros j Hj. apply H1o. intros ->. tauto. }
  rewrite E2. run. assert (H2i : es2 !! i = Some (ent (head ds) (head cs) nm (mark_info inf))) by (rewrite Ho2; tauto).
  rewrite (entry_at_eq _ _ _ H2i). run. cbn [e_next ent].
  destruct (IH es2 cs) as (es3 & E3 & Hl3 & Ho3 & Hr3); [|done|lia|].
  { eapply reps_frame; [|exact Hcs]. intros j Hj. rewrite Ho2, H1o; [done| |].
    - intros ->. tauto.
    - intros Hj'. by apply (Hdd j). }
  exists es3. split; [exact E3|]. split_and!; [congruence| |].
  - intros j Hj. rewrite bind_cons in Hj. cbn in Hj. rewrite elem_of_cons, elem_of_app in Hj.
    rewrite Ho3, Ho2, H1o by tauto. done.
  - cbn [map mark reps]. split; [|done]. rewrite mark_head. apply rep_eq. rewrite mark_head. split.
    + rewrite Ho3; [done|tauto].
    + eapply reps_frame; [|exact Hr2]. intros j Hj. rewrite mark_ixss in Hj. apply Ho3. by apply Hdd.
Qed.

Definition mark_children (m : anode) : anode := AN (a_ix m) (a_name m) (a_info m) (map mark (a_children m)).

Lemma setExplicitFlag_eq p es root free m : inv es root free -> get p root = Some m ->
  exists es', setExplicitFlag es (Z.of_nat (a_ix m)) = Ret es' /\ inv es' (upd p (mark_children m) root) free.
Proof.
  intros Hi Hg. destruct (inv_node _ _ _ _ _ Hi Hg) as (nx & He & Hcs & Hl).
  destruct (inv_change p es root free m Hi Hg) as (nx' & Hm & Hk).
  unfold setExplicitFlag. rewrite (entry_at_eq _ _ _ He). run. cbn [ent e_child].
  destruct (ixs_upd p root m Hg) as (rest & Hperm & _). pose proof (inv_nodup _ _ _ Hi) as Hd.
  assert (Hsub : ixs m = a_ix m :: ixss (a_children m)) by (by destruct m).
  assert (Hdm : NoDup (a_ix m :: ixss (a_children m))).
  { rewrite Hperm, <- app_assoc, Hsub in Hd. by apply NoDup_app in Hd as (? & _). }
  apply NoDup_cons in Hdm as [Hmn Hdm].
  destruct (flag_loop_eq (S (length es)) es (a_children m) Hcs Hdm) as (es' & E & _ & Ho & Hr); [lia|].
  exists es'. split; [done|]. apply Hk.
  - intros j _ Hj. apply Ho. rewrite Hsub in Hj. rewrite elem_of_cons in Hj. tauto.
  - unfold mark_children. apply rep_eq. split; [|done]. rewrite mark_head, Ho by done. by apply rep_lookup.
  - done.
  - intros rest' Hp'. unfold mark_children. cbn [ixs]. rewrite mark_ixss, <- Hsub.
    rewrite Hp', <- app_assoc in Hd. exact Hd.
Qed.

(** ** The abstract tracker *)

(** A map from dotted keys to what is known of them, and the dotted key of the
    current table. *)
Record seen := Sn { known : gmap (list (list Z)) info; current : list (list Z) }.

Definition below (p q : list (list Z)) : Prop := p `prefix_of` q /\ p <> q.
#[export] Instance below_dec p q : Decision (below p q).
Proof. unfold below. apply _. Defined.

Definition mark_below (p : list (list Z)) (m : gmap (list (list Z)) info) : gmap (list (list Z)) info :=
  map_imap (fun q i => Some (if bool_decide (below p q) then mark_info i else i)) m.
Definition clear_below (p : list (list Z)) (m : gmap (list (list Z)) info) : gmap (list (list Z)) info :=
  filter (fun qi => ~ below p (fst qi)) m.

Definition i_value (i : info) : info := Info valueKind (i_explicit i) (i_kv i).
Definition i_defined (i : info) : info := Info (i_kind i) true (i_kv i).

Fixpoint a_prefix (m : gmap (list (list Z)) info) (p keys : list (list Z))
    : M (list (list Z) * list Z * gmap (list (list Z)) info) :=
  match keys with
  | [] => Panic
  | [k] => Ret (p, k, m)
  | k :: keys' =>
      match m !! (p ++ [k]) with
      | None => a_prefix (<[p ++ [k] := Info tableKind false false]> m) (p ++ [k]) keys'
      | Some i =>
          if bool_decide (i_kind i = valueKind) then Fail (EExpectedTable k (i_kind i))
          else a_prefix m (p ++ [k]) keys'
      end
  end.

Definition a_table (a : seen) (node : tree) : M (bool * seen) :=
  keys ← node_key node;
  r ← a_prefix (mark_below (current a) (known a)) [] keys;
  let '(p, k, m) := (r : _ * _ * gmap _ _) in
  match m !! (p ++ [k]) with
  | Some i =>
      if negb (bool_decide (i_kind i = tableKind)) then Fail (EShouldBeTable k (i_kind i))
      else if i_explicit i then Fail (ETableExists k)
      else Ret (false, Sn (alter i_defined (p ++ [k]) m) (p ++ [k]))
  | None => Ret (true, Sn (<[p ++ [k] := Info tableKind true false]> m) (p ++ [k]))
  end.

Definition a_array_table (a : seen) (node : tree) : M (bool * seen) :=
  keys ← node_key node;
  r ← a_prefix (mark_below (current a) (known a)) [] keys;
  let '(p, k, m) := (r : _ * _ * gmap _ _) in
  match m !! (p ++ [k]) with
  | None => Ret (true, Sn (<[p ++ [k] := Info arrayTableKind true false]> m) (p ++ [k]))
  | Some i =>
      if negb (bool_decide (i_kind i = arrayTableKind)) then Fail (EShouldBeArrayTable (i_kind i) k)
      else Ret (false, Sn (clear_below (p ++ [k]) m) (p ++ [k]))
  end.

Fixpoint a_kv (m : gmap (list (list Z)) info) (p keys : list (list Z))
    : M (list (list Z) * gmap (list (list Z)) info) :=
  match keys with
  | [] => Ret (p, m)
  | k :: keys' =>
      match m !! (p ++ [k]) with
      | None => a_kv (<[p ++ [k] := Info tableKind false true]> m) (p ++ [k]) keys'
      | Some i =>
          if match keys' with [] => true | _ => false end then Fail (EAlreadyDefined k)
          else if negb (bool_decide (i_kind i = tableKind)) then Fail (EExpectedTable k (i_kind i))
          else if i_explicit i then Fail (ERedefine k)
          else a_kv m (p ++ [k]) keys'
      end
  end.

Definition a_keyvalue_with (rest : tree -> M bool) (a : seen) (node : tree) : M (bool * seen) :=
  keys ← node_key node;
  r ← a_kv (known a) (current a) keys;
  let '(p, m) := (r : _ * gmap _ _) in
  match t_children node with
  | [] => Panic
  | value :: _ => first ← rest value; Ret (first, Sn (alter i_value p m) (current a))
  end.

Fixpoint a_value (value : tree) : M bool :=
  let 'T k _ _ cs := value in
  match k with
  | InlineTable =>
      (fix members cs a first :=
         match cs with
         | [] => Ret first
         | n :: cs' =>
             r ← a_keyvalue_with a_value a n;
             let '(first, a) := (r : bool * seen) in
             members cs' a first
         end) cs (Sn ∅ []) false
  | Array =>
      (fix elems cs first :=
         match cs with
         | [] => Ret first
         | n :: cs' =>
             match t_kind n with
             | InlineTable | Array => first ← a_value n; elems cs' first
             | _ => elems cs' first
             end
         end) cs false
  | _ => Ret false
  end.

Definition a_check (a : seen) (node : tree) : M (bool * seen) :=
  match t_kind node with
  | KeyValue => a_keyvalue_with a_value a node
  | Table => a_table a node
  | ArrayTable => a_array_table a node
  | _ => Panic
  end.

(** ** Refinement *)

(** Two computations end in the same way, with related values. *)
Definition sim {A B} (R : A -> B -> Prop) (m : M A) (a : M B) : Prop :=
  match m, a with
  | Ret x, Ret y => R x y
  | Fail e, Fail e' => e = e'
  | Panic, Panic => True
  | _, _ => False
  end.

Lemma sim_bind {A B A' B'} (R : A -> B -> Prop) (S : A' -> B' -> Prop) m a k k' :
  sim R m a -> (forall x y, R x y -> sim S (k x) (k' y)) -> sim S (m ≫= k) (a ≫= k').
Proof. destruct m, a; cbn; try done; intros; subst; auto. Qed.

Lemma sim_refl {A} (m : M A) : m <> OutOfFuel -> sim eq m m.
Proof. by destruct m. Qed.

(** The tree and the map know the same. *)
Definition same (root : anode) (m : gmap (list (list Z)) info) : Prop :=
  forall p, p <> [] -> m !! p = a_info <$> get p root.

Lemma same_upd p m m' root M M' : same root M -> get p root = Some m -> a_name m' = a_name m ->
  (forall r, p ++ r <> [] -> M' !! (p ++ r) = a_info <$> get r m') ->
  (forall q, ~ p `prefix_of` q -> M' !! q = M !! q) -> same (upd p m' root) M'.
Proof.
  intros Hs Hg Hn H1 H2 q Hq. destruct (decide (p `prefix_of` q)) as [[r ->]|Hnp].
  - rewrite (get_upd_app p m' root m) by done. by apply H1.
  - rewrite H2, (get_upd_other p m' m root q) by done. by apply Hs.
Qed.

Lemma same_get p root m M r : same root M -> get p root = Some m -> p ++ r <> [] -> M !! (p ++ r) = a_info <$> get r m.
Proof. intros Hs Hg Hr. rewrite Hs by done. by rewrite get_app, Hg. Qed.

Lemma same_child p root m M k : same root M -> get p root = Some m ->
  M !! (p ++ [k]) = a_info <$> find_child k (a_children m).
Proof.
  intros Hs Hg. rewrite (same_get p root m M) by (done || by destruct p). cbn. by destruct (find_child _ _).
Qed.

Lemma same_add p root m M j k i : same root M -> get p root = Some m -> find_child k (a_children m) = None ->
  same (upd p (add_child (AN j k i []) m) root) (<[p ++ [k] := i]> M).
Proof.
  intros Hs Hg Hk. eapply same_upd; [done|done|done| |].
  - intros r Hr. destruct (decide (r = [k])) as [->|Hne].
    { rewrite lookup_insert_eq. cbn. by rewrite bool_decide_eq_true_2. }
    rewrite lookup_insert_ne by (by intros ?%(inj _)). rewrite (same_get p root m M) by done.
    destruct r as [|k' r]; [done|]. cbn. case_bool_decide as Hk'; [|done]. subst k'. rewrite Hk. cbn.
    destruct r; done.
  - intros q Hq. apply lookup_insert_ne. intros <-. apply Hq. by exists [k].
Qed.

Lemma same_info p root m M f : same root M -> get p root = Some m ->
  same (upd p (with_info (f (a_info m)) m) root) (alter f p M).
Proof.
  intros Hs Hg. eapply same_upd; [done|done|done| |].
  - intros r Hr. destruct r as [|k r].
    + rewrite app_nil_r in *. rewrite lookup_alter_eq, Hs, Hg by done. done.
    + rewrite lookup_alter_ne, (same_get p root m M); [done|done|done|done|].
      intros E. apply (f_equal length) in E. rewrite length_app in E. simpl in E. lia.
  - intros q Hq. apply lookup_alter_ne. intros <-. apply Hq. by exists []; rewrite app_nil_r.
Qed.

Lemma same_clear p root m M : same root M -> get p root = Some m ->
  same (upd p (without_children m) root) (clear_below p M).
Proof.
  intros Hs Hg. eapply same_upd; [done|done|done| |].
  - intros r Hr. unfold clear_below. destruct r as [|k r].
    + rewrite app_nil_r in *. rewrite map_lookup_filter, Hs, Hg by done. cbn. rewrite option_guard_True; [done|].
      intros [_ []]. done.
    + cbn. apply map_lookup_filter_None. right. intros x _ Hb. apply Hb. split; [by exists (k :: r)|].
      cbn. intros E. apply (f_equal length) in E. rewrite length_app in E. simpl in E. lia.
  - intros q Hq. unfold clear_below. rewrite map_lookup_filter. destruct (M !! q); [|done]. cbn.
    rewrite option_guard_True; [done|]. by intros [].
Qed.

Lemma find_mark k cs : find_child k (map mark cs) = mark <$> find_child k cs.
Proof.
  induction cs as [|c cs IH]; [done|]. cbn. replace (a_name (mark c)) with (a_name c) by (by destruct c).
  case_bool_decide; done.
Qed.

Lemma get_mark r n : get r (mark n) = mark <$> get r n.
Proof.
  revert n. induction r as [|k r IH]; intros n; [done|]. cbn.
  replace (a_children (mark n)) with (map mark (a_children n)) by (by destruct n).
  rewrite find_mark. destruct (find_child k _); [|done]. cbn. apply IH.
Qed.

Lemma same_mark p root m M : same root M -> get p root = Some m ->
  same (upd p (mark_children m) root) (mark_below p M).
Proof.
  intros Hs Hg. eapply same_upd; [done|done|done| |].
  - intros r Hr. unfold mark_below. rewrite map_lookup_imap, (same_get p root m M) by done.
    destruct r as [|k r]; cbn.
    + rewrite bool_decide_eq_false_2; [done|]. intros [_ []]. by rewrite app_nil_r.
    + rewrite find_mark. destruct (find_child k (a_children m)) as [c|]; [|done]. cbn. rewrite get_mark.
      destruct (get r c) as [[]|]; [|done]. cbn. rewrite bool_decide_eq_true_2; [done|]. split; [by exists (k :: r)|].
      intros E. apply (f_equal length) in E. rewrite length_app in E. simpl in E. lia.
  - intros q Hq. unfold mark_below. rewrite map_lookup_imap. destruct (M !! q); [|done]. cbn.
    rewrite bool_decide_eq_false_2; [done|]. by intros [].
Qed.

(** [at_key es m c cur i p]: the entries stand for a tree that knows what [m]
    does; [c] is the entry of the dotted key [cur] and [i] that of [p], which is
    not above [cur]. *)
Definition at_key (es : list entry) (m : gmap (list (list Z)) info) (c : Z) (cur : list (list Z)) (i : Z)
    (p : list (list Z)) : Prop :=
  cur `prefix_of` p /\ exists root free nc n, inv es root free /\ same root m /\
    get cur root = Some nc /\ c = Z.of_nat (a_ix nc) /\ get p root = Some n /\ i = Z.of_nat (a_ix n).

Lemma get_upd_prefix q r m' : forall n nq m, get (q ++ r) n = Some m -> get q n = Some nq -> a_ix m' = a_ix m ->
  a_name m' = a_name m -> exists nq', get q (upd (q ++ r) m' n) = Some nq' /\ a_ix nq' = a_ix nq.
Proof.
  induction q as [|k q IH]; intros n nq m Hg Hq Hi Hn.
  { injection Hq as <-. exists (upd r m' n). split; [done|]. by apply (upd_ix r m' n m). }
  cbn in *. destruct (find_child k (a_children n)) as [c|] eqn:Hc; [|done]. cbn in *.
  rewrite (find_replace k c); [|done|].
  - rewrite bool_decide_eq_true_2 by done. cbn. by apply (IH c nq m).
  - rewrite (upd_name (q ++ r) m' c m) by done. by eapply find_child_name.
Qed.

(** A change of the node at [p]. *)
Lemma at_upd es' m' c cur i p n n' root free' :
  cur `prefix_of` p -> (exists nc, get cur root = Some nc /\ c = Z.of_nat (a_ix nc)) ->
  get p root = Some n -> i = Z.of_nat (a_ix n) -> a_ix n' = a_ix n -> a_name n' = a_name n ->
  inv es' (upd p n' root) free' -> same (upd p n' root) m' -> at_key es' m' c cur i p.
Proof.
  intros [r ->] (nc & Hc & ->) Hg -> Hi Hn Hinv Hs. split; [by exists r|].
  destruct (get_upd_prefix cur r n' root nc n Hg Hc Hi Hn) as (nc' & Hc' & Hix).
  exists (upd (cur ++ r) n' root), free', nc', n'. split_and!; [done|done|done|by rewrite Hix| |by rewrite Hi].
  rewrite <- (app_nil_r (cur ++ r)) at 1. by rewrite (get_upd_app (cur ++ r) n' root n).
Qed.

Lemma at_key_root es m c cur i p : at_key es m c cur i p -> at_key es m 0 [] 0 [].
Proof.
  intros [_ (root & free & nc & n & Hi & Hs & _)]. split; [done|]. exists root, free, root, root.
  rewrite (inv_root _ _ _ Hi). by split_and!.
Qed.

Lemma at_key_cur es m c cur i p : at_key es m c cur i p -> at_key es m c cur c cur.
Proof. intros [_ (root & free & nc & n & Hi & Hs & Hc & -> & _)]. split; [done|]. by exists root, free, nc, nc. Qed.

Lemma at_key_here es m c cur i p : at_key es m c cur i p -> at_key es m i p i p.
Proof. intros [_ (root & free & nc & n & Hi & Hs & Hc & _ & Hg & ->)]. split; [done|]. by exists root, free, n, n. Qed.

(** The steps of the checks. *)
Lemma at_find es m c cur i p k : at_key es m c cur i p ->
  exists idx, find es i k = Ret idx /\
    match m !! (p ++ [k]) with
    | None => idx = -1
    | Some inf => 0 <= idx /\ at_key es m c cur idx (p ++ [k]) /\
        exists e, entry_at es idx = Ret e /\ kind e = i_kind inf /\ explicit e = i_explicit inf
    end.
Proof.
  intros [Hp (root & free & nc & n & Hi & Hs & Hc & -> & Hg & ->)]. rewrite (find_eq p es root free n k Hi Hg).
  eexists. split; [done|].
  rewrite (same_child p root n m k Hs Hg). destruct (find_child k (a_children n)) as [d|] eqn:Hd; [|done]. cbn.
  assert (Hgd : get (p ++ [k]) root = Some d) by (rewrite get_app, Hg; cbn; by rewrite Hd).
  split; [lia|]. split.
  { split; [by apply prefix_app_r|]. by exists root, free, nc, d. }
  destruct (inv_node _ _ _ _ _ Hi Hgd) as (nx & He & _). eexists. split; [by apply entry_at_eq|]. by split.
Qed.

Lemma at_create es m c cur i p k kd ex kv : at_key es m c cur i p -> m !! (p ++ [k]) = None ->
  exists idx es', create es i k kd ex kv = Ret (idx, es') /\
    at_key es' (<[p ++ [k] := Info kd ex kv]> m) c cur idx (p ++ [k]).
Proof.
  intros [Hp (root & free & nc & n & Hi & Hs & Hc & -> & Hg & ->)] Hn. rewrite (same_child p root n m k Hs Hg) in Hn.
  destruct (find_child k (a_children n)) as [d|] eqn:Hd; [done|].
  destruct (create_eq p es root free n k kd ex kv Hi Hg) as (j & es' & free' & E & Hi'). exists (Z.of_nat j), es'.
  split; [done|]. split; [by apply prefix_app_r|]. destruct Hp as [r ->].
  destruct (get_upd_prefix cur r (add_child (AN j k (Info kd ex kv) []) n) root nc n Hg Hc eq_refl eq_refl) as (nc' & Hc' & Hix).
  eexists _, free', nc', _. split; [exact Hi'|]. split; [by apply same_add|]. split_and!; [done|by rewrite Hix| |].
  - rewrite (get_upd_app (cur ++ r) _ root n) by done. cbn. by rewrite bool_decide_eq_true_2.
  - done.
Qed.

Lemma at_set es m c cur i p f g : at_key es m c cur i p ->
  (forall ch nx nm inf, g (ent ch nx nm inf) = ent ch nx nm (f inf)) ->
  exists es', set_entry es i g = Ret es' /\ at_key es' (alter f p m) c cur i p.
Proof.
  intros [Hp (root & free & nc & n & Hi & Hs & Hc & Ec & Hg & ->)] Hf.
  destruct (set_info_eq p es root free n g (f (a_info n)) Hi Hg) as (es' & E & Hi'); [by intros|].
  exists es'. split; [done|]. eapply at_upd; [done|by exists nc|done|done| | |exact Hi'|by apply same_info]; done.
Qed.

Lemma at_clear es m c cur i p : at_key es m c cur i p -> p <> [] ->
  exists es', clear es i = Ret es' /\ at_key es' (clear_below p m) c cur i p.
Proof.
  intros [Hp (root & free & nc & n & Hi & Hs & Hc & Ec & Hg & ->)] Hne.
  destruct (clear_eq p es root free n Hi Hg Hne) as (es' & free' & E & Hi').
  exists es'. split; [done|]. eapply at_upd; [done|by exists nc|done|done| | |exact Hi'|by apply same_clear]; done.
Qed.

Lemma at_mark es m c cur i p : at_key es m c cur i p ->
  exists es', setExplicitFlag es i = Ret es' /\ at_key es' (mark_below p m) c cur i p.
Proof.
  intros [Hp (root & free & nc & n & Hi & Hs & Hc & Ec & Hg & ->)].
  destruct (setExplicitFlag_eq p es root free n Hi Hg) as (es' & E & Hi').
  exists es'. split; [done|]. eapply at_upd; [done|by exists nc|done|done| | |exact Hi'|by apply same_mark]; done.
Qed.

(** *** The checks *)

Lemma prefix_loop_sim keys : forall es m c cur i p, at_key es m c cur i p ->
  sim (fun '(i', k, es') '(p', k', m') => k = k' /\ at_key es' m' c cur i' p')
    (prefix_loop es i keys) (a_prefix m p keys).
Proof.
  induction keys as [|k [|k2 keys] IH]; intros es m c cur i p Hk; [done|done|].
  cbn [prefix_loop a_prefix]. destruct (at_find _ _ _ _ _ _ k Hk) as (idx & E & Hm). rewrite E. run.
  destruct (m !! (p ++ [k])) as [inf|] eqn:Em.
  - destruct Hm as (Hge & Hk' & e & Ee & Hkd & _). rewrite (proj2 (Z.ltb_ge _ _)), Ee by lia. run. rewrite Hkd.
    case_bool_decide; [done|]. by apply IH.
  - subst idx. cbn [Z.ltb Z.compare]. destruct (at_create _ _ _ _ _ _ k tableKind false false Hk Em) as (idx & es' & Ec & Hk').
    rewrite Ec. run. by apply IH.
Qed.

Lemma kv_loop_sim keys : forall es m c cur i p, at_key es m c cur i p ->
  sim (fun '(i', es') '(p', m') => at_key es' m' c cur i' p') (kv_loop es i keys) (a_kv m p keys).
Proof.
  induction keys as [|k keys IH]; intros es m c cur i p Hk; [done|].
  cbn [kv_loop a_kv]. destruct (at_find _ _ _ _ _ _ k Hk) as (idx & E & Hm). rewrite E. run.
  destruct (m !! (p ++ [k])) as [inf|] eqn:Em.
  - destruct Hm as (Hge & Hk' & e & Ee & Hkd & Hex). rewrite (proj2 (Z.ltb_ge _ _)), Ee by lia. run. rewrite Hkd, Hex.
    destruct keys; [done|]. case_bool_decide; cbn [negb]; [|done]. destruct (i_explicit inf); [done|]. by apply IH.
  - subst idx. cbn [Z.ltb Z.compare]. destruct (at_create _ _ _ _ _ _ k tableKind false true Hk Em) as (idx & es' & Ec & Hk').
    rewrite Ec. run. by apply IH.
Qed.

(** [refines s a]: the tracker [s] is in the abstract state [a]. *)
Definition refines (s : SeenTracker) (a : seen) : Prop :=
  at_key (entries s) (known a) (currentIdx s) (current a) (currentIdx s) (current a).

Definition refines_out (r : bool * SeenTracker) (r' : bool * seen) : Prop :=
  fst r = fst r' /\ refines (snd r) (snd r').

Lemma node_key_sim t : sim eq (node_key t) (node_key t).
Proof. destruct t as [[] ? ? []]; done. Qed.

Lemma mark_current s a : refines s a ->
  exists es, (if 0 <=? currentIdx s then setExplicitFlag (entries s) (currentIdx s) else mret (entries s)) = Ret es /\
    at_key es (mark_below (current a) (known a)) 0 [] 0 [].
Proof.
  intros Hr. destruct (at_mark _ _ _ _ _ _ Hr) as (es & E & Hk). exists es. split; [|by eapply at_key_root].
  destruct Hr as [_ (root & free & nc & n & _ & _ & _ & Ec & _)]. by rewrite (proj2 (Z.leb_le 0 (currentIdx s))) by lia.
Qed.

Lemma checkTable_sim s a node : refines s a -> sim refines_out (checkTable s node) (a_table a node).
Proof.
  intros Hr. unfold checkTable, a_table. destruct (mark_current s a Hr) as (es & E & Hk). rewrite E. run.
  eapply sim_bind; [apply node_key_sim|]. intros keys ? <-.
  eapply sim_bind; [by apply prefix_loop_sim|]. intros [[i k] es1] [[p k'] m1] [<- Hk1].
  destruct (at_find _ _ _ _ _ _ k Hk1) as (idx & Ef & Hm). rewrite Ef. run.
  destruct (m1 !! (p ++ [k])) as [inf|] eqn:Em.
  - destruct Hm as (Hge & Hk2 & e & Ee & Hkd & Hex). rewrite (proj2 (Z.leb_le _ _)), Ee by lia. run. rewrite Hkd, Hex.
    case_bool_decide; cbn [negb]; [|done]. destruct (i_explicit inf); [done|].
    destruct (at_set _ _ _ _ _ _ i_defined (fun e => set_flags_ true (kv e) e) Hk2) as (es2 & Es & Hk3); [done|].
    rewrite Es. run. split; [done|]. by eapply at_key_here.
  - subst idx. cbn [Z.leb Z.compare]. destruct (at_create _ _ _ _ _ _ k tableKind true false Hk1 Em) as (idx & es' & Ec & Hk').
    rewrite Ec. run. split; [done|]. by eapply at_key_here.
Qed.

Lemma checkArrayTable_sim s a node : refines s a -> sim refines_out (checkArrayTable s node) (a_array_table a node).
Proof.
  intros Hr. unfold checkArrayTable, a_array_table. destruct (mark_current s a Hr) as (es & E & Hk). rewrite E. run.
  eapply sim_bind; [apply node_key_sim|]. intros keys ? <-.
  eapply sim_bind; [by apply prefix_loop_sim|]. intros [[i k] es1] [[p k'] m1] [<- Hk1].
  destruct (at_find _ _ _ _ _ _ k Hk1) as (idx & Ef & Hm). rewrite Ef. run.
  destruct (m1 !! (p ++ [k])) as [inf|] eqn:Em.
  - destruct Hm as (Hge & Hk2 & e & Ee & Hkd & Hex). rewrite (proj2 (Z.ltb_ge _ _)), Ee by lia. run. rewrite Hkd.
    case_bool_decide; cbn [negb]; [|done].
    destruct (at_clear _ _ _ _ _ _ Hk2) as (es2 & Es & Hk3); [by destruct p|].
    rewrite Es. run. split; [done|]. by eapply at_key_here.
  - subst idx. cbn [Z.ltb Z.compare]. destruct (at_create _ _ _ _ _ _ k arrayTableKind true false Hk1 Em) as (idx & es' & Ec & Hk').
    rewrite Ec. run. split; [done|]. by eapply at_key_here.
Qed.

Lemma checkKeyValue_sim rest rest' s a node :
  (forall v, v ∈ t_children node -> sim eq (rest v) (rest' v)) -> refines s a ->
  sim refines_out (checkKeyValue_with rest s node) (a_keyvalue_with rest' a node).
Proof.
  intros Hv Hr. unfold checkKeyValue_with, a_keyvalue_with. eapply sim_bind; [apply node_key_sim|]. intros keys ? <-.
  eapply sim_bind; [by apply kv_loop_sim|]. intros [i es] [p m] Hk.
  destruct (at_set _ _ _ _ _ _ i_value (set_kind_ valueKind) Hk) as (es1 & E & Hk1); [done|]. rewrite E. run.
  destruct (t_children node) as [|v cs]; [done|]. eapply sim_bind; [apply Hv; by left|]. intros first ? <-.
  split; [done|]. by eapply at_key_cur.
Qed.

Lemma reset_refines s : refines (reset s) (Sn ∅ []).
Proof.
  assert (Hz : forall e, refines (Seen [set_next_ (-1) (set_child_ (-1) e)] 0) (Sn ∅ [])).
  { intros [c n nm kd ex kv]. split; [done|]. set (root := AN 0 nm (Info kd ex kv) []). exists root, [], root, root.
    split_and!; try done.
    - split; [by apply rep_eq|done|apply (NoDup_singleton 0%nat)|done].
    - intros [|k p] Hp; done. }
  unfold reset. destruct (entries s); apply Hz.
Qed.

Section Pool.
Context (pool_Get : tree -> SeenTracker).

(** Induction through the children of a tree. *)
Lemma check_value_sim v : sim eq (check_value pool_Get v) (a_value v).
Proof.
  enough (Hboth : sim eq (check_value pool_Get v) (a_value v) /\
    forall c, c ∈ t_children v -> sim eq (check_value pool_Get c) (a_value c)) by (by destruct Hboth).
  induction v as [k r d cs IH] using tree_ind'. split.
  2:{ cbn [t_children]. intros c Hc. rewrite Forall_forall in IH. by apply IH. }
  destruct k; try done; cbn [check_value a_value].
  - (* Array *)
    generalize false as first. induction IH as [|n cs [Hn _] _ IHcs]; intros first; [done|].
    destruct (t_kind n); try apply IHcs; (eapply sim_bind; [exact Hn|]; intros ? ? <-; apply IHcs).
  - (* InlineTable *)
    generalize false as first. pose proof (reset_refines (pool_Get (T InlineTable r d cs))) as Hr. revert Hr.
    generalize (reset (pool_Get (T InlineTable r d cs))) as s, (Sn ∅ []) as a.
    induction IH as [|n cs [_ Hn] _ IHcs]; intros s a Hr first; [done|].
    eapply sim_bind; [apply checkKeyValue_sim; [exact Hn|exact Hr]|].
    intros [b s'] [b' a'] [Hb Hr']. cbn in Hb. subst b'. by apply IHcs.
Qed.

(** The state of a tracker that is still the zero value. *)
Definition tracks (s : SeenTracker) (a : seen) : Prop :=
  (entries s = [] /\ a = Sn ∅ []) \/ refines s a.

Lemma CheckExpression_sim s a node : tracks s a -> sim refines_out (CheckExpression pool_Get s node) (a_check a node).
Proof.
  intros Hs. unfold CheckExpression, a_check.
  assert (Hr : refines (match entries s with [] => reset s | _ => s end) a).
  { destruct Hs as [[-> ->]|Hs]; [apply reset_refines|]. destruct (entries s) eqn:E; [|done].
    destruct Hs as [_ (root & free & _ & _ & Hi & _)]. apply inv_length in Hi. rewrite E in Hi.
    destruct root. simpl in Hi. lia. }
  destruct (t_kind node); try done; [by apply checkTable_sim|by apply checkArrayTable_sim|].
  apply checkKeyValue_sim; [|done]. intros. apply check_value_sim.
Qed.

(** ** Runs *)

(** The expressions of a document, one after the other. *)
Fixpoint check_all (s : SeenTracker) (ts : list tree) : M (list bool * SeenTracker) :=
  match ts with
  | [] => mret ([], s)
  | t :: ts' =>
      r ← CheckExpression pool_Get s t;
      let '(b, s) := (r : bool * SeenTracker) in
      r ← check_all s ts';
      let '(l, s) := (r : list bool * SeenTracker) in
      mret (b :: l, s)
  end.
Fixpoint a_check_all (a : seen) (ts : list tree) : M (list bool * seen) :=
  match ts with
  | [] => mret ([], a)
  | t :: ts' =>
      r ← a_check a t;
      let '(b, a) := (r : bool * seen) in
      r ← a_check_all a ts';
      let '(l, a) := (r : list bool * seen) in
      mret (b :: l, a)
  end.

Lemma check_all_sim ts : forall s a, tracks s a ->
  sim (fun r r' => fst r = fst r' /\ tracks (snd r) (snd r')) (check_all s ts) (a_check_all a ts).
Proof.
  induction ts as [|t ts IH]; intros s a Hs; [done|]. cbn [check_all a_check_all].
  eapply sim_bind; [by apply CheckExpression_sim|]. intros [b s'] [b' a'] [Hb Hr]. cbn in Hb. subst b'.
  eapply sim_bind; [apply IH; by right|]. intros [l s''] [l' a''] [Hl Hr']. cbn in *. by subst.
Qed.

(** *** Repeating an expression *)

Lemma app_ne_self {A} (l : list A) x r : l ++ x :: r <> l.
Proof. intros E. apply (f_equal length) in E. rewrite length_app in E. simpl in E. lia. Qed.

Lemma a_kv_again keys : forall m p p' m', a_kv m p keys = Ret (p', m') ->
  p' = p ++ keys /\ (forall q, ~ below p q -> m' !! q = m !! q) /\
  (keys <> [] -> forall f, exists k, a_kv (alter f p' m') p keys = Fail (EAlreadyDefined k)).
Proof.
  induction keys as [|k keys IH]; intros m p p' m' E; cbn [a_kv] in E.
  { injection E as <- <-. by rewrite app_nil_r. }
  assert (Hfr : forall q, ~ below p q -> ~ below (p ++ [k]) q /\ p ++ [k] <> q).
  { intros q Hq. split; [|by intros <-; apply Hq; split; [by exists [k]|intros E'; by apply (app_ne_self p k [])]].
    intros [[r ->] _]. apply Hq. rewrite <- app_assoc. split; [by eexists|]. intros E'. by apply (app_ne_self p k r). }
  assert (Hself : ~ below (p ++ [k]) (p ++ [k])) by (by intros [_ []]).
  destruct (m !! (p ++ [k])) as [i|] eqn:Em.
  - destruct keys as [|k2 keys]; [done|]. case_bool_decide as Hk; [|done]. cbn [negb] in E.
    destruct (i_explicit i) eqn:Hx; [done|]. destruct (IH _ _ _ _ E) as (-> & Hq & Ha).
    rewrite <- app_assoc. cbn [app]. split_and!; [done|intros q [? _]%Hfr; by apply Hq|]. intros _ f. cbn [a_kv].
    rewrite lookup_alter_ne, Hq, Em by (done || (intros E'; rewrite (app_assoc p [k] (k2 :: keys) : p ++ k :: _ = _) in E'; by apply app_ne_self in E')).
    rewrite bool_decide_eq_true_2, Hx by done. cbn [negb].
    destruct (Ha ltac:(done) f) as [k' Hk']. rewrite <- app_assoc in Hk'. by exists k'.
  - destruct (IH _ _ _ _ E) as (-> & Hq & Ha). rewrite <- app_assoc. cbn [app]. split_and!; [done| |].
    { intros q [H1 H2]%Hfr. rewrite Hq by done. by apply lookup_insert_ne. }
    intros _ f. cbn [a_kv]. destruct keys as [|k2 keys].
    + rewrite lookup_alter_eq, Hq, lookup_insert_eq by done. by exists k.
    + rewrite lookup_alter_ne, Hq, lookup_insert_eq by (done || (intros E'; rewrite (app_assoc p [k] (k2 :: keys) : p ++ k :: _ = _) in E'; by apply app_ne_self in E')).
      cbn [i_kind i_explicit]. rewrite bool_decide_eq_true_2 by done. cbn [negb].
      destruct (Ha ltac:(done) f) as [k' Hk']. rewrite <- app_assoc in Hk'. by exists k'.
Qed.

Lemma a_prefix_again keys : forall m p p' k m', a_prefix m p keys = Ret (p', k, m') ->
  p' ++ [k] = p ++ keys /\ (forall q, ~ below p q -> m' !! q = m !! q) /\
  forall m2, (forall q i, m' !! q = Some i -> q <> p ++ keys -> exists i2, m2 !! q = Some i2 /\ i_kind i2 = i_kind i) ->
    a_prefix m2 p keys = Ret (p', k, m2).
Proof.
  induction keys as [|k0 [|k2 keys] IH]; intros m p p' k m' E; cbn [a_prefix] in E; [done|by injection E as <- <- <-|].
  assert (Hfr : forall q, ~ below p q -> ~ below (p ++ [k0]) q /\ p ++ [k0] <> q).
  { intros q Hq. split; [|by intros <-; apply Hq; split; [by exists [k0]|intros E'; by apply (app_ne_self p k0 [])]].
    intros [[r ->] _]. apply Hq. rewrite <- app_assoc. split; [by eexists|]. intros E'. by apply (app_ne_self p k0 r). }
  assert (Hself : ~ below (p ++ [k0]) (p ++ [k0])) by (by intros [_ []]).
  assert (Hne : p ++ [k0] <> p ++ k0 :: k2 :: keys) by (intros ?%(inj _); done).
  destruct (m !! (p ++ [k0])) as [i|] eqn:Em.
  - case_bool_decide as Hv; [done|]. destruct (IH _ _ _ _ _ E) as (H1 & H2 & H3). rewrite <- app_assoc in *.
    split_and!; [done|intros q [? _]%Hfr; by apply H2|]. intros m2 Hm2. cbn [a_prefix].
    destruct (Hm2 (p ++ [k0]) i) as (i2 & -> & Hi2); [by rewrite H2|done|].
    rewrite bool_decide_eq_false_2 by congruence. by apply H3.
  - destruct (IH _ _ _ _ _ E) as (H1 & H2 & H3). rewrite <- app_assoc in *. split_and!; [done| |].
    { intros q [H4 H5]%Hfr. rewrite H2 by done. by apply lookup_insert_ne. }
    intros m2 Hm2. cbn [a_prefix]. destruct (Hm2 (p ++ [k0]) (Info tableKind false false)) as (i2 & -> & Hi2);
      [by rewrite H2, lookup_insert_eq|done|]. rewrite bool_decide_eq_false_2 by (by rewrite Hi2). by apply H3.
Qed.

Lemma a_check_again a node b a' : t_kind node = KeyValue \/ t_kind node = Table ->
  (exists k ks, node_key node = Ret (k :: ks)) -> a_check a node = Ret (b, a') ->
  exists k, a_check a' node = Fail (match t_kind node with Table => ETableExists k | _ => EAlreadyDefined k end).
Proof.
  intros Hk (k & ks & Ek). unfold a_check. destruct Hk as [-> | ->].
  - unfold a_keyvalue_with. rewrite Ek. run. destruct (a_kv (known a) (current a) (k :: ks)) as [[p m]| | |] eqn:Ea; try done.
    run. destruct (t_children node) as [|v cs]; [done|]. destruct (a_value v) as [first| | |] eqn:Ev; try done. run.
    intros [= <- <-]. cbn [known current]. destruct (a_kv_again _ _ _ _ _ Ea) as (_ & _ & Hagain).
    destruct (Hagain ltac:(done) i_value) as [k' ->]. by exists k'.
  - unfold a_table. rewrite Ek. run.
    destruct (a_prefix (mark_below (current a) (known a)) [] (k :: ks)) as [[[p k'] m]| | |] eqn:Ea; try done. run.
    intros E. destruct (a_prefix_again _ _ _ _ _ _ Ea) as (Hp & _ & Hagain).
    assert (Ha' : exists g, current a' = p ++ [k'] /\ known a' = g m /\
      (exists i, g m !! (p ++ [k']) = Some i /\ i_kind i = tableKind /\ i_explicit i = true) /\
      forall q i, m !! q = Some i -> q <> p ++ [k'] -> g m !! q = Some i).
    { destruct (m !! (p ++ [k'])) as [i|] eqn:Em.
      - case_bool_decide as Hkind; [|done]. cbn [negb] in E. destruct (i_explicit i); [done|]. injection E as <- <-.
        exists (alter i_defined (p ++ [k'])). cbn. split_and!; [done|done| |].
        + rewrite lookup_alter_eq, Em. by eexists.
        + intros q j Hq Hne. by rewrite lookup_alter_ne.
      - injection E as <- <-. exists (<[p ++ [k'] := Info tableKind true false]>). cbn. split_and!; [done|done| |].
        + rewrite lookup_insert_eq. by eexists.
        + intros q j Hq Hne. by rewrite lookup_insert_ne. }
    destruct Ha' as (g & Hc & -> & (i & Hi & Hik & Hix) & Ho). rewrite Hc.
    assert (Hmk : forall q j, g m !! q = Some j -> exists j2, mark_below (p ++ [k']) (g m) !! q = Some j2 /\ i_kind j2 = i_kind j).
    { intros q j Hq. unfold mark_below. rewrite map_lookup_imap, Hq. cbn. eexists. split; [done|].
      case_bool_decide; [|done]. unfold mark_info. by destruct (i_kv j). }
    rewrite Hagain.
    2:{ intros q j Hq Hne. apply Hmk, Ho; [done|]. cbn in Hne. by rewrite Hp. }
    run. unfold mark_below at 1. rewrite map_lookup_imap, Hi. cbn.
    rewrite (bool_decide_eq_false_2 (below _ _)) by (by intros [_ []]).
    rewrite bool_decide_eq_true_2, Hix by done. by exists k'.
Qed.

(** an expression cannot be repeated: after the tracker has accepted a
    key-value or a table header, in any state it can be in, the same key-value is
    refused as already defined and the same header as an existing table. *)
Theorem repeated_expression_refused s a node b s' :
  tracks s a -> t_kind node = KeyValue \/ t_kind node = Table ->
  (exists k ks, node_key node = Ret (k :: ks)) ->
  CheckExpression pool_Get s node = Ret (b, s') ->
  exists k, CheckExpression pool_Get s' node =
    Fail (match t_kind node with Table => ETableExists k | _ => EAlreadyDefined k end).
Proof.
  intros Hs Hk Hkey E. pose proof (CheckExpression_sim s a node Hs) as Hsim. rewrite E in Hsim.
  destruct (a_check a node) as [[b' a']| | |] eqn:Ea; try done. destruct Hsim as [_ Hr].
  destruct (a_check_again a node b' a' Hk Hkey Ea) as [k Hf]. exists k.
  pose proof (CheckExpression_sim s' a' node (or_intror Hr)) as Hsim. rewrite Hf in Hsim.
  destruct (CheckExpression pool_Get s' node); try done. by rewrite Hsim.
Qed.

(** C6: the tracker implements its abstract specification: on every sequence of
    expressions, starting from the zero value and whatever trackers the pool
    gives for inline tables, it gives the same answers and the same errors as the
    checks on a finite map from dotted keys to their kinds and flags; the array of
    linked entries with its free list never leads it outside the array or into a
    loop. *)
Theorem tracker_refines_map ts :
  match check_all (Seen [] 0) ts, a_check_all (Sn ∅ []) ts with
  | Ret (firsts, _), Ret (firsts', _) => firsts = firsts'
  | Fail e, Fail e' => e = e'
  | Panic, Panic => True
  | _, _ => False
  end.
Proof.
  pose proof (check_all_sim ts (Seen [] 0) (Sn ∅ []) ltac:(by left)) as Hsim.
  destruct (check_all _ _) as [[]| | |], (a_check_all _ _) as [[]| | |]; try done. by destruct Hsim.
Qed.
End Pool.

(** The header of the table [a]. *)
Definition header_a : tree := T Table no_range no_data [T Key no_range (Buf [97]) []].

Lemma repeated_expression_refused_witness :
  exists s' k, CheckExpression (fun _ => Seen [] 0) (Seen [] 0) header_a = Ret (true, s') /\
    CheckExpression (fun _ => Seen [] 0) s' header_a = Fail (ETableExists k).
Proof.
  eexists. destruct (repeated_expression_refused (fun _ => Seen [] 0) (Seen [] 0) (Sn ∅ []) header_a true
    (Seen [Ent 1 (-1) [] invalidKind false false; Ent (-1) (-1) [97] tableKind true false] 1)) as [k Hk].
  - by left.
  - by right.
  - by exists [97], [].
  - reflexivity.
  - exists k. split; [reflexivity|exact Hk].
Defined.

(** When a table is followed by an array of tables of the same name, the
    message has the kind in the place of the key and the key in the place of the
    kind. *)
Example swapped_message :
  option_map TrackerError_Error
    (match check_all (fun _ => Seen [] 0) (Seen [] 0)
       [header_a; T ArrayTable no_range no_data [T Key no_range (Buf [97]) []]] with
     | Fail e => Some e | _ => None end) =
  Some (bs "toml: key table already exists as a a,  but should be an array table").
Proof. reflexivity. Qed.
End TomlTracker.
