(* ===== verification/TomlUnmarshal.v ===== *)
(** * The decoder of TOML documents, for generic targets ([src/utoml/unmarshaler.go])

    [Unmarshal] fills a Go value that it sees through [reflect]. The targets
    modelled here are those of type [interface{}] and [map[string]interface{}],
    and everything that the decoder creates inside them: maps, slices and
    scalars behind interfaces. For these the cases [Ptr], [Struct] and [Array]
    of the switches on [v.Kind()] do not occur, [skipUntilTable] and
    [errorContext] stay unset, and the strict mode has nothing to report.

    The decoder takes its expressions from an interface, [Source]; the parser is
    an instance of it. *)
From stdpp Require Import base numbers list gmap strings sorting.
From S2P Require Import Prelude Strconv TomlChars TomlScan TomlDecode TomlTime TomlAst TomlParser TomlMarshal TomlTracker.
#[local] Open Scope Z_scope.

Module TomlUnmarshal.
Import TomlScan TomlAst TomlTracker.
Abbreviation bytes_le := TomlMarshal.bytes_le.

(** ** Where expressions come from *)

(** [NextExpression], [Expression] and [Error] of a parser. [yields s ts e]: the
    calls give the expressions [ts] and end with the error [e], if any; after the
    end they keep saying so. *)
Class Source (S : Type) := {
  NextExpr : S -> go ParserError (bool * S);
  Expr : S -> go ParserError tree;
  Err : S -> option ParserError;
  yields : S -> list tree -> option ParserError -> Prop;
  yields_nil s e : yields s [] e -> exists s', NextExpr s = Ret (false, s') /\ Err s' = e /\ yields s' [] e;
  yields_cons s t ts e : yields s (t :: ts) e -> exists s', NextExpr s = Ret (true, s') /\ Expr s' = Ret t /\ yields s' ts e
}.

(** *** The parser *)

Definition parser_Expr (p : TomlParser.Parser) : go ParserError tree :=
  i ← TomlParser.Expression p;
  walk (S (length (nodes (TomlParser.p_builder p)))) (nodes (TomlParser.p_builder p)) i.

Definition parser_yields (p : TomlParser.Parser) (ts : list tree) (e : option ParserError) : Prop :=
  exists fuel, TomlParser.expressions fuel p = Ret (ts, e).

Lemma next_loop_stops fuel : forall p p', TomlParser.next_loop fuel p = Ret (false, p') ->
  slen (TomlParser.p_left p') = 0%nat \/ TomlParser.p_err p' <> None.
Proof.
  induction fuel as [|fuel IH]; intros p p'; cbn [TomlParser.next_loop]; [done|].
  destruct (slen (TomlParser.p_left p) =? 0)%nat eqn:E0; [apply Nat.eqb_eq in E0; intros [= <-]; by left|].
  destruct (if negb _ then _ else _) as [rest|e| |]; [|intros [= <-]; by right|done..].
  destruct (slen rest =? 0)%nat eqn:E1; [apply Nat.eqb_eq in E1; intros [= <-]; by left|].
  destruct (TomlParser.parseExpression _ _ _ _) as [[[ref r] b]|e| |]; [|intros [= <-]; by right|done..].
  destruct (Valid ref); [done|]. apply IH.
Qed.

Lemma NextExpression_stops p p' : TomlParser.NextExpression p = Ret (false, p') ->
  TomlParser.NextExpression p' = Ret (false, p').
Proof.
  intros E. assert (Hs : slen (TomlParser.p_left p') = 0%nat \/ TomlParser.p_err p' <> None).
  { revert E. unfold TomlParser.NextExpression. destruct (TomlParser.p_err p) eqn:Ee; [intros [= <-]; right; congruence|].
    destruct (slen (TomlParser.p_left p) =? 0)%nat eqn:E0; [apply Nat.eqb_eq in E0; intros [= <-]; by left|].
    apply next_loop_stops. }
  unfold TomlParser.NextExpression. destruct (TomlParser.p_err p') eqn:Ee; [done|].
  destruct Hs as [-> |]; done.
Qed.

#[export] Program Instance parser_source : Source TomlParser.Parser := {
  NextExpr := TomlParser.NextExpression;
  Expr := parser_Expr;
  Err := TomlParser.p_err;
  yields := parser_yields
}.
Next Obligation.
  intros p e [[|fuel] E]; [done|]. cbn [TomlParser.expressions] in E.
  destruct (TomlParser.NextExpression p) as [[[] p']| | |] eqn:En; try done; cbn [mbind go_mbind go_bind] in E.
  - destruct (TomlParser.Expression p'); try done. cbn [mbind go_mbind go_bind] in E. destruct (@walk ParserError _ _ _); try done. cbn [mbind go_mbind go_bind] in E.
    destruct (TomlParser.expressions fuel p') as [[]| | |]; done.
  - injection E as <-. exists p'. split_and!; [done|done|]. exists 1%nat. cbn [TomlParser.expressions].
    rewrite (NextExpression_stops _ _ En). done.
Qed.
Next Obligation.
  intros p t ts e [[|fuel] E]; [done|]. cbn [TomlParser.expressions] in E.
  destruct (TomlParser.NextExpression p) as [[[] p']| | |] eqn:En; try done; cbn [mbind go_mbind go_bind] in E.
  exists p'. split; [done|]. unfold parser_Expr. destruct (TomlParser.Expression p'); try done. cbn [mbind go_mbind go_bind] in E |- *.
  destruct (@walk ParserError _ _ _); try done. cbn [mbind go_mbind go_bind] in E. destruct (TomlParser.expressions fuel p') as [[]| | |] eqn:Er; try done.
  cbn [mbind go_mbind go_bind] in E. injection E as <- <- <-. split; [done|]. by exists fuel.
Qed.

(** ** Go values *)

(** What an [interface{}] holds. A map is the list of its entries by increasing
    key; [GMap None] is a nil map. *)
Inductive gval {float64 : Type} :=
| GNil
| GString (s : list Z)
| GInt (z : Z)
| GFloat (f : float64)
| GBool (b : bool)
| GTime (t : TomlTime.Time)
| GLocalDate (d : TomlTime.LocalDate)
| GLocalTime (t : TomlTime.LocalTime)
| GLocalDateTime (d : TomlTime.LocalDateTime)
| GSlice (l : list gval)
| GMap (m : option (list (list Z * gval))).
Arguments gval : clear implicits.

Section Unmarshal.
(** [float64], [math.NaN()] and [strconv.ParseFloat(s, 64)]; the pool of
    trackers; the parser. *)
Context {float64 : Type} (NaN : float64) (ParseFloat : list Z -> option float64).
Context (pool_Get : tree -> SeenTracker).
Context {S : Type} `{!Source S}.
#[local] Abbreviation gval := (gval float64).
#[local] Abbreviation gmap_ := (list (list Z * gval)).

(** [m[k]] and [m[k] = v]. *)
Fixpoint mget (k : list Z) (m : gmap_) : option gval :=
  match m with
  | [] => None
  | (k', v) :: m' => if bool_decide (k' = k) then Some v else mget k m'
  end.
Fixpoint mset (k : list Z) (v : gval) (m : gmap_) : gmap_ :=
  match m with
  | [] => [(k, v)]
  | (k', v') :: m' =>
      if bool_decide (k' = k) then (k, v) :: m'
      else if bytes_le k k' then (k, v) :: m else (k', v') :: mset k v m'
  end.

(** A [reflect.Value]: an interface that can be assigned, or that was read from
    a map; a map; a slice, with [v.CanSet()]; or a value of another kind. *)
Inductive rvalue :=
| RInterface (g : gval)
| RMap (m : option gmap_)
| RSlice (CanSet : bool) (l : list gval)
| ROther (g : gval).

(** [v.Elem()] of an interface; [None] is the invalid value. *)
Definition Elem (g : gval) : option rvalue :=
  match g with
  | GNil => None
  | GMap m => Some (RMap m)
  | GSlice l => Some (RSlice false l)
  | _ => Some (ROther g)
  end.

(** A value stored into an interface. *)
Definition pack (v : rvalue) : gval :=
  match v with
  | RInterface g => g
  | RMap m => GMap m
  | RSlice _ l => GSlice l
  | ROther g => g
  end.

(** ** The state and the errors *)

Inductive DecodeErr :=
| EParser (e : ParserError)
| ETracker (e : TrackerError)
| EMismatch (toml : string) (v : rvalue)
| EInline (raw : Range)
| EKvPart (v : rvalue)
| ESlice (key : list Z).

(** The fields of [decoder] that generic targets use. *)
Record decoder := Dec {
  d_p : S; stashedExpr : bool; clearArrayTable : bool; d_seen : SeenTracker
}.

Definition D (A : Type) : Type := decoder -> go DecodeErr (A * decoder).
#[local] Instance D_mret : MRet D := fun A a d => Ret (a, d).
#[local] Instance D_mbind : MBind D := fun A B k m d =>
  match m d with
  | Ret (a, d') => k a d'
  | Fail e => Fail e
  | Panic => Panic
  | OutOfFuel => OutOfFuel
  end.

Definition fails {A} (e : DecodeErr) : D A := fun _ => Fail e.
Definition panics {A} : D A := fun _ => Panic.
Definition no_fuel {A} : D A := fun _ => OutOfFuel.

(** Calls of the other components. *)
Definition up {A} (m : go ParserError A) : go DecodeErr A :=
  match m with Ret a => Ret a | Fail e => Fail (EParser e) | Panic => Panic | OutOfFuel => OutOfFuel end.
Definition liftp {A} (m : go ParserError A) : D A := fun d => a ← up m; Ret (a, d).
Definition liftt {A} (m : go TrackerError A) : D A := fun d =>
  match m with
  | Ret a => Ret (a, d)
  | Fail e => Fail (ETracker e)
  | Panic => Panic
  | OutOfFuel => OutOfFuel
  end.

Definition expr : D tree := fun d => liftp (Expr (d_p d)) d.

Definition nextExpr : D bool := fun d =>
  if stashedExpr d then Ret (true, Dec (d_p d) false (clearArrayTable d) (d_seen d))
  else
    r ← up (NextExpr (d_p d));
    let '(more, p) := (r : bool * S) in
    Ret (more, Dec p false (clearArrayTable d) (d_seen d)).

Definition stashExpr : D unit := fun d => Ret (tt, Dec (d_p d) true (clearArrayTable d) (d_seen d)).

Definition set_clear (x : bool) : D unit := fun d => Ret (tt, Dec (d_p d) (stashedExpr d) x (d_seen d)).
Definition get_clear : D bool := fun d => Ret (clearArrayTable d, d).

(** [d.seen.CheckExpression(expr)] *)
Definition check (e : tree) : D bool := fun d =>
  match CheckExpression pool_Get (d_seen d) e with
  | Ret (first, seen) => Ret (first, Dec (d_p d) (stashedExpr d) (clearArrayTable d) seen)
  | Fail e => Fail (ETracker e)
  | Panic => Panic
  | OutOfFuel => OutOfFuel
  end.

(** ** Values *)

(** [value.Data]; numbers and dates are parts of the document. *)
Definition data_slice (d : data) : slice := match d with InDoc s => s | Buf l => Sl 0 l end.

Definition unmarshalBool (value : tree) : D gval :=
  c ← liftp (s_at (data_slice (t_data value)) 0); mret (GBool (c =? 116)).
Definition unmarshalFloat (value : tree) : D gval :=
  f ← liftp (TomlDecode.parseFloat NaN ParseFloat (data_slice (t_data value))); mret (GFloat f).
Definition unmarshalInteger (value : tree) : D gval :=
  i ← liftp (TomlDecode.parseInteger (data_slice (t_data value))); mret (GInt i).
Definition unmarshalString (value : tree) : D gval := mret (GString (dbytes (t_data value))).
Definition unmarshalDateTime (value : tree) : D gval :=
  dt ← liftp (TomlTime.parseDateTime (data_slice (t_data value))); mret (GTime dt).
Definition unmarshalLocalDate (value : tree) : D gval :=
  ld ← liftp (TomlTime.parseLocalDate (data_slice (t_data value))); mret (GLocalDate ld).
Definition unmarshalLocalTime (value : tree) : D gval :=
  r ← liftp (TomlTime.parseLocalTime (data_slice (t_data value)));
  let '(lt, rest) := (r : TomlTime.LocalTime * slice) in
  if (0 <? slen rest)%nat then
    fails (EParser (NewParserError rest "extra characters at the end of a local time" []))
  else mret (GLocalTime lt).
Definition unmarshalLocalDateTime (value : tree) : D gval :=
  r ← liftp (TomlTime.parseLocalDateTime (data_slice (t_data value)));
  let '(ldt, rest) := (r : TomlTime.LocalDateTime * slice) in
  if (0 <? slen rest)%nat then
    fails (EParser (NewParserError rest "extra characters at the end of a local date time" []))
  else mret (GLocalDateTime ldt).

(** The case [reflect.Map] of [handleKeyValuePart], for the part [k] of the key
    with the parts [rest] after it: the entries of the map afterwards. [value] is
    the call of [handleValue] when the key has been scoped, into a new interface.
    The case [reflect.Interface] of the next part, which the entry is, is inside
    it. *)
Fixpoint kv_part_map (k : list Z) (rest : list (list Z)) (value : D gval) (m : gmap_) : D gmap_ :=
  match rest with
  | [] => g ← value; mret (mset k g m)
  | k2 :: rest' =>
      let mv := default GNil (mget k m) in
      let v := match mv with GMap (Some m2) => m2 | _ => [] end in
      m2 ← kv_part_map k2 rest' value v;
      mret (mset k (GMap (Some m2)) m)
  end.

(** What an interface holds after the map behind it has become [x]: the map is
    shared when there was one. *)
Definition behind (g : gval) (x : rvalue) : gval := match g with GMap (Some _) => pack x | _ => g end.

(** [handleKeyValuePart]: the replacement for [v], if any, and [v]. *)
Definition handleKeyValuePart (k : list Z) (rest : list (list Z)) (value : D gval) (v : rvalue)
    : D (option rvalue * rvalue) :=
  match v with
  | RMap None => m ← kv_part_map k rest value []; mret (Some (RMap (Some m)), RMap None)
  | RMap (Some m) => m ← kv_part_map k rest value m; mret (None, RMap (Some m))
  | RInterface g =>
      m ← kv_part_map k rest value (match g with GMap (Some m) => m | _ => [] end);
      mret (Some (RMap (Some m)), RInterface (behind g (RMap (Some m))))
  | _ => fails (EKvPart v)
  end.

(** [handleKeyValue], with [handleValue] given; the key of a key-value has at
    least one part. *)
Definition handleKeyValue (handleValue : tree -> gval -> D gval) (e : tree) (v : rvalue)
    : D (option rvalue * rvalue) :=
  keys ← liftt (node_key e);
  match keys, t_children e with
  | k :: rest, value :: _ => handleKeyValuePart k rest (handleValue value GNil) v
  | _, _ => panics
  end.

(** [handleValue] into an interface that holds [g]: what it holds afterwards.
    A pointer to an interface has no methods, so [UnmarshalTOML] and
    [UnmarshalText] are not looked for in it with success: the branch of
    [unmarshalerInterface] and [tryTextUnmarshaler] do nothing. *)
Fixpoint handleValue (value : tree) (g : gval) : D gval :=
  let 'T k raw _ cs := value in
  match k with
  | String_ => unmarshalString value
  | Integer => unmarshalInteger value
  | Float => unmarshalFloat value
  | Bool => unmarshalBool value
  | DateTime => unmarshalDateTime value
  | LocalDate => unmarshalLocalDate value
  | LocalTime => unmarshalLocalTime value
  | LocalDateTime => unmarshalLocalDateTime value
  | InlineTable =>
      match (match g with GNil => GMap (Some []) | _ => g end) with
      | GMap None => panics
      | GMap (Some m) =>
          (fix members cs v :=
             match cs with
             | [] => mret (pack v)
             | n :: cs' =>
                 r ← handleKeyValue handleValue n v;
                 let '(x, v) := (r : option rvalue * rvalue) in
                 members cs' (default v x)
             end) cs (RMap (Some m))
      | _ => fails (EInline raw)
      end
  | Array =>
      match g with
      | GNil | GSlice _ =>
          (fix elems cs l :=
             match cs with
             | [] => mret (GSlice l)
             | n :: cs' => x ← handleValue n GNil; elems cs' (l ++ [x])
             end) cs []
      | _ => fails (EMismatch "array" (default (ROther g) (Elem g)))
      end
  | _ => panics
  end.

(** ** Expressions *)

(** [handleKeyValues]: the fuel bounds the number of expressions. [v] is the
    value now; [replaced] when it is not the one the caller has. *)
Fixpoint kvs_loop (fuel : nat) (v : rvalue) (replaced : bool) : D (rvalue * bool) :=
  match fuel with
  | O => no_fuel
  | Datatypes.S fuel' =>
      more ← nextExpr;
      if (more : bool) then
        e ← expr;
        if negb (bool_decide (t_kind e = KeyValue)) then _ ← stashExpr; mret (v, replaced)
        else
          _ ← check e;
          r ← handleKeyValue handleValue e v;
          let '(x, v) := (r : option rvalue * rvalue) in
          match x with
          | Some x => kvs_loop fuel' x true
          | None => kvs_loop fuel' v replaced
          end
      else mret (v, replaced)
  end.

Section Fuel.
Context (fuel : nat).

Definition handleKeyValues (v : rvalue) : D (option rvalue * rvalue) :=
  r ← kvs_loop fuel v false;
  let '(v', replaced) := (r : rvalue * bool) in
  mret (if (replaced : bool) then
          (Some v', match v with RInterface g => RInterface (behind g v') | _ => v end)
        else (None, v')).

Definition makeMapStringInterface : rvalue := RMap (Some []).
Definition makeSliceInterface : rvalue := RSlice false [].

(** The case [reflect.Map] of [handleKeyPart]: the entries of the map. *)
Definition key_part_map (k : list Z) (m : gmap_) (nextFn : rvalue -> D (option rvalue * rvalue))
    (makeFn : rvalue) : D gmap_ :=
  let mv := match mget k m with
            | None => makeFn
            | Some g => default makeFn (Elem g)
            end in
  r ← nextFn mv;
  let '(x, mv) := (r : option rvalue * rvalue) in
  mret (mset k (pack (default mv x)) m).

Definition handleKeyPart (k : list Z) (v : rvalue) (nextFn : rvalue -> D (option rvalue * rvalue))
    (makeFn : rvalue) : D (option rvalue * rvalue) :=
  match v with
  | RMap None => m ← key_part_map k [] nextFn makeFn; mret (Some (RMap (Some m)), RMap None)
  | RMap (Some m) => m ← key_part_map k m nextFn makeFn; mret (None, RMap (Some m))
  | RInterface g =>
      match default makeMapStringInterface (Elem g) with
      | RMap m =>
          m ← key_part_map k (default [] m) nextFn makeFn;
          mret (Some (RMap (Some m)), RInterface (behind g (RMap (Some m))))
      | _ => panics
      end
  | _ => panics
  end.

(** [handleTable]; [cur] is the node of the iterator, [keys] are the parts of the
    key still to come. A slice stands for its last element, which is an
    interface. *)
Fixpoint handleTable (cur : list Z) (keys : list (list Z)) (v : rvalue) : D (option rvalue * rvalue) :=
  let scope v := match keys with
                 | k :: keys' => handleKeyPart k v (handleTable k keys') makeMapStringInterface
                 | [] => handleKeyValues v
                 end in
  match v with
  | RSlice CanSet l =>
      match last l with
      | None => fails (ESlice cur)
      | Some elem =>
          r ← scope (RInterface elem);
          let '(x, elem) := (r : option rvalue * rvalue) in
          mret (None, RSlice CanSet (removelast l ++ [pack (default elem x)]))
      end
  | _ => scope v
  end.

(** [handleArrayTableCollectionLast], for a slice. *)
Definition collection_last_slice (CanSet : bool) (l : list gval) : D (option rvalue * rvalue) :=
  clear ← get_clear;
  l ← (if (clear : bool) && (0 <? length l)%nat then
         if CanSet then _ ← set_clear false; mret [] else panics
       else mret l);
  r ← handleKeyValues makeMapStringInterface;
  let '(elem2, elem) := (r : option rvalue * rvalue) in
  mret (Some (RSlice false (l ++ [pack (default elem elem2)])), RSlice CanSet l).

Definition handleArrayTableCollectionLast (v : rvalue) : D (option rvalue * rvalue) :=
  match v with
  | RInterface g =>
      match default (RSlice true []) (Elem g) with
      | RSlice _ l =>
          clear ← get_clear;
          l ← (if (clear : bool) && (0 <? length l)%nat then _ ← set_clear false; mret [] else mret l);
          r ← collection_last_slice true l;
          mret (fst r, v)
      | elem => fails (EMismatch "array table" elem)
      end
  | RSlice CanSet l => collection_last_slice CanSet l
  | _ => fails (EMismatch "array table" v)
  end.

(** [handleArrayTable], [handleArrayTablePart] and [handleArrayTableCollection]. *)
Fixpoint handleArrayTable (keys : list (list Z)) (v : rvalue) : D (option rvalue * rvalue) :=
  match keys with
  | [] => handleKeyValues v
  | k :: keys' =>
      handleKeyPart k v
        (fun v =>
           match keys' with
           | [] => handleArrayTableCollectionLast v
           | _ =>
               match v with
               | RSlice CanSet l =>
                   match last l with
                   | None => panics
                   | Some elem =>
                       r ← handleArrayTable keys' (RInterface elem);
                       let '(x, elem) := (r : option rvalue * rvalue) in
                       let v := RSlice CanSet (removelast l ++ [pack (default elem x)]) in
                       mret (Some v, v)
                   end
               | _ => handleArrayTable keys' v
               end
           end)
        (match keys' with [] => makeSliceInterface | _ => makeMapStringInterface end)
  end.

Definition handleRootExpression (e : tree) (v : rvalue) : D rvalue :=
  first ← check e;
  r ← match t_kind e with
      | KeyValue => handleKeyValue handleValue e v
      | Table => keys ← liftt (node_key e); handleTable (default [] (keys !! 0%nat)) keys v
      | ArrayTable =>
          _ ← set_clear first;
          keys ← liftt (node_key e); handleArrayTable keys v
      | _ => panics
      end;
  let '(x, v') := (r : option rvalue * rvalue) in
  mret (match x, v with
        | Some x, RInterface _ => RInterface (pack x)
        | Some x, _ => x
        | None, _ => v'
        end).

Fixpoint fromParser (n : nat) (root : rvalue) : D rvalue :=
  match n with
  | O => no_fuel
  | Datatypes.S n' =>
      more ← nextExpr;
      if (more : bool) then e ← expr; root ← handleRootExpression e root; fromParser n' root
      else fun d => match Err (d_p d) with Some e => Fail (EParser e) | None => Ret (root, d) end
  end.

(** [FromParser], into a target that is not a nil pointer. *)
Definition FromParser (s : S) (r : rvalue) : go DecodeErr rvalue :=
  let r := match r with RInterface GNil => RInterface (GMap (Some [])) | _ => r end in
  match fromParser fuel r (Dec s false false (Seen [] 0)) with
  | Ret (r, _) => Ret r
  | Fail e => Fail e
  | Panic => Panic
  | OutOfFuel => OutOfFuel
  end.
End Fuel.
End Unmarshal.

(** [Unmarshal] *)
Definition Unmarshal {float64} (NaN : float64) (ParseFloat : list Z -> option float64)
    (pool_Get : tree -> SeenTracker) (d : list Z) (r : @rvalue float64) : go DecodeErr (@rvalue float64) :=
  FromParser NaN ParseFloat pool_Get (Datatypes.S (length d))
    (TomlParser.Parser_Reset (TomlParser.Prs nil_slice (Bld [] 0) 0 nil_slice None false false) (doc d)) r.

(** * Correctness *)

(** ** Maps *)

Section Maps.
Context {float64 : Type}.
#[local] Abbreviation gval := (gval float64).
#[local] Abbreviation gmap_ := (list (list Z * gval)).
#[local] Abbreviation rvalue := (rvalue (float64 := float64)).

Lemma mget_mset_eq k v (m : gmap_) : mget k (mset k v m) = Some v.
Proof.
  induction m as [|[k' v'] m IH]; cbn; [by rewrite bool_decide_eq_true_2|].
  case_bool_decide as E; [cbn; by rewrite bool_decide_eq_true_2|].
  destruct (bytes_le k k'); cbn; [by rewrite bool_decide_eq_true_2|by rewrite bool_decide_eq_false_2].
Qed.

Lemma mget_mset_ne k k2 v (m : gmap_) : k2 <> k -> mget k2 (mset k v m) = mget k2 m.
Proof.
  intros Hne. induction m as [|[k' v'] m IH]; cbn; [by rewrite bool_decide_eq_false_2|].
  case_bool_decide as E; cbn.
  - subst. by rewrite !bool_decide_eq_false_2 by congruence.
  - destruct (bytes_le k k'); cbn; [by rewrite bool_decide_eq_false_2|]. by rewrite IH.
Qed.

Lemma mset_mset k v w (m : gmap_) : mset k v (mset k w m) = mset k v m.
Proof.
  induction m as [|[k' v'] m IH]; cbn; [by rewrite bool_decide_eq_true_2|].
  case_bool_decide as E; [cbn; by rewrite bool_decide_eq_true_2|].
  destruct (bytes_le k k') eqn:El; cbn; [by rewrite bool_decide_eq_true_2|].
  by rewrite bool_decide_eq_false_2, El, IH.
Qed.

Definition key_lt (a b : list Z) : Prop := bytes_le a b = true /\ a <> b.
Definition sorted : gmap_ -> Prop := StronglySorted (fun a b => key_lt (fst a) (fst b)).

Lemma key_lt_trans a b c : key_lt a b -> key_lt b c -> key_lt a c.
Proof.
  intros [H1 H2] [H3 H4]. split; [by eapply TomlMarshal.bytes_le_trans|]. intros ->.
  by apply H4, TomlMarshal.bytes_le_antisym.
Qed.

Lemma mset_keys k v (m : gmap_) kx : kx ∈ mset k v m -> kx = (k, v) \/ kx ∈ m.
Proof.
  induction m as [|[k' v'] m IH]; cbn; [by intros ->%list_elem_of_singleton; left|].
  case_bool_decide as E; [intros [->|?]%elem_of_cons; [by left|right; by right]|].
  destruct (bytes_le k k'); [intros [->|?]%elem_of_cons; [by left|by right]|].
  intros [->|[->|?]%IH]%elem_of_cons; [right; by left|by left|right; by right].
Qed.

Lemma mset_sorted k v (m : gmap_) : sorted m -> sorted (mset k v m).
Proof.
  induction 1 as [|[k' v'] m Hs IH Hf]; cbn; [by repeat constructor|].
  case_bool_decide as E; [subst; by constructor|]. destruct (bytes_le k k') eqn:El.
  - assert (Hlt : key_lt k k') by (split; [done|congruence]). constructor; [by constructor|]. constructor; [done|].
    eapply Forall_impl; [exact Hf|]. intros kx Hx. by eapply key_lt_trans.
  - constructor; [exact IH|]. apply Forall_forall. intros kx [->|Hx]%mset_keys.
    + cbn. split; [by apply TomlMarshal.bytes_le_total|done].
    + rewrite Forall_forall in Hf. by apply Hf.
Qed.

Lemma mget_sorted k v (m : gmap_) : sorted m -> mget k m = Some v <-> (k, v) ∈ m.
Proof.
  induction 1 as [|[k' v'] m Hs IH Hf]; cbn; [by rewrite elem_of_nil|]. rewrite elem_of_cons, <- IH.
  case_bool_decide as E.
  - subst. split; [intros [= ->]; by left|]. intros [[= ->]|Hg]; [done|]. apply IH in Hg.
    rewrite Forall_forall in Hf. by destruct (Hf _ Hg).
  - split; [by right|]. intros [[= -> ->]|]; done.
Qed.

(** Two maps with the same entries are the same list. *)
Lemma sorted_ext (m1 m2 : gmap_) : sorted m1 -> sorted m2 -> (forall k, mget k m1 = mget k m2) -> m1 = m2.
Proof.
  intros H1 H2 Hk. apply (StronglySorted_unique_strong (fun a b => key_lt (fst a) (fst b))); [|done|done|].
  - intros [k1 v1] [k2 v2] _ _ [Hl Hn] [Hl' _]. by destruct Hn, (TomlMarshal.bytes_le_antisym _ _ Hl Hl').
  - assert (Hd : forall m : gmap_, sorted m -> NoDup m).
    { induction 1 as [|x m Hs IH Hf]; [constructor|]. constructor; [|done]. intros Hx. rewrite Forall_forall in Hf.
      by destruct (Hf x Hx). }
    apply NoDup_Permutation; [by apply Hd|by apply Hd|]. intros [k v]. by rewrite <- !mget_sorted, Hk.
Qed.

(** ** Places in a value *)

(** The table that a dotted key leads to from a value, going into the last
    element of a slice and creating what is missing; and the value with this
    table replaced. *)

Definition entry_or_new (o : option gval) : gval :=
  match o with Some GNil | None => GMap (Some []) | Some g => g end.

Fixpoint focus (keys : list (list Z)) (g : gval) : option (gmap_ * (gmap_ -> gval)) :=
  let inside (m : gmap_) (put : gmap_ -> gval) :=
    match keys with
    | [] => Some (m, put)
    | k :: keys' =>
        match focus keys' (entry_or_new (mget k m)) with
        | Some (m2, put2) => Some (m2, fun x => put (mset k (put2 x) m))
        | None => None
        end
    end in
  match g with
  | GMap (Some m) => inside m (fun x => GMap (Some x))
  | GSlice l =>
      match last l with
      | Some (GMap (Some m)) => inside m (fun x => GSlice (removelast l ++ [GMap (Some x)]))
      | _ => None
      end
  | _ => None
  end.

Lemma focus_put keys : forall g m put x, focus keys g = Some (m, put) ->
  exists put', focus keys (put x) = Some (x, put') /\ forall y, put' y = put y.
Proof.
  induction keys as [|k keys IH]; intros g m put x Hf.
  - cbn in Hf. destruct g as [| | | | | | | | |l|[m0|]]; try done.
    + destruct (last l) as [[| | | | | | | | | |[m0|]]|]; try done. injection Hf as <- <-.
      cbn. rewrite last_snoc. eexists. split; [done|]. intros y. cbn. by rewrite removelast_last.
    + injection Hf as <- <-. cbn. by eexists.
  - cbn [focus] in Hf. destruct g as [| | | | | | | | |l|[m0|]]; try done.
    + destruct (last l) as [[| | | | | | | | | |[m0|]]|]; try done.
      set (g2 := entry_or_new (mget k m0)) in *.
      destruct (focus keys g2) as [[m2 put2]|] eqn:E2; [|done]. injection Hf as <- <-.
      destruct (IH _ _ _ x E2) as (put' & E' & Hp). cbn [focus]. rewrite last_snoc, mget_mset_eq.
      assert (En : entry_or_new (Some (put2 x)) = put2 x).
      { destruct (put2 x); try done. by destruct keys. }
      rewrite En, E'. eexists. split; [done|]. intros y. cbn. by rewrite removelast_last, Hp, mset_mset.
    + set (g2 := entry_or_new (mget k m0)) in *.
      destruct (focus keys g2) as [[m2 put2]|] eqn:E2; [|done]. injection Hf as <- <-.
      destruct (IH _ _ _ x E2) as (put' & E' & Hp). cbn [focus]. rewrite mget_mset_eq.
      assert (En : entry_or_new (Some (put2 x)) = put2 x).
      { destruct (put2 x); try done. by destruct keys. }
      rewrite En, E'. eexists. split; [done|]. intros y. cbn. by rewrite Hp, mset_mset.
Qed.

Lemma focus_slice keys l m put : focus keys (GSlice l) = Some (m, put) ->
  exists m1 put1, last l = Some (GMap (Some m1)) /\ focus keys (GMap (Some m1)) = Some (m, put1) /\
    forall x, put x = GSlice (removelast l ++ [put1 x]).
Proof.
  destruct keys as [|k keys]; cbn [focus]; (destruct (last l) as [[| | | | | | | | | |[m1|]]|]; try done).
  - intros [= <- <-]. by eexists _, _.
  - destruct (focus keys (entry_or_new (mget k m1))) as [[m2 put2]|] eqn:E; [|done]. intros [= <- <-].
    eexists m1, _. split; [done|]. rewrite E. done.
Qed.

Lemma focus_nil_map m0 m put : focus [] (GMap (Some m0)) = Some (m, put) -> m0 = m /\ put = fun x => GMap (Some x).
Proof. cbn. by intros [= <- <-]. Qed.

Lemma focus_app p q : forall g m put m2 put2, focus p g = Some (m, put) -> focus q (GMap (Some m)) = Some (m2, put2) ->
  exists put', focus (p ++ q) g = Some (m2, put') /\ forall x m', put2 x = GMap (Some m') -> put' x = put m'.
Proof.
  induction p as [|k p IH]; intros g m put m2 put2 Hp Hq.
  - cbn [app]. destruct g as [| | | | | | | | |l|[m0|]]; try done.
    + destruct (focus_slice _ _ _ _ Hp) as (m1 & put1 & El & Ef & Hput). apply focus_nil_map in Ef as [-> ->].
      destruct q as [|k q]; cbn [focus] in *; rewrite El.
      * injection Hq as <- <-. eexists. split; [done|]. intros x m' [= <-]. by rewrite Hput.
      * destruct (focus q _) as [[m3 put3]|]; [|done]. injection Hq as <- <-. eexists. split; [done|].
        intros x m' [= <-]. by rewrite Hput.
    + apply focus_nil_map in Hp as [-> ->]. exists put2. by split.
  - assert (Hin : forall (m0 : gmap_) inj (mm : gmap_) pp, 
      (match focus p (entry_or_new (mget k m0)) with
       | Some (m2, put2) => Some (m2, fun x => inj (mset k (put2 x) m0)) | None => None end) = Some (mm, pp) ->
      focus q (GMap (Some mm)) = Some (m2, put2) ->
      exists put', (match focus (p ++ q) (entry_or_new (mget k m0)) with
       | Some (m2, put2) => Some (m2, fun x => inj (mset k (put2 x) m0)) | None => None end) = Some (m2, put' : gmap_ -> gval) /\
        forall x m', put2 x = GMap (Some m') -> put' x = pp m').
    { intros m0 inj mm pp Hf Hq'. destruct (focus p (entry_or_new (mget k m0))) as [[m3 put3]|] eqn:E3; [|done].
      injection Hf as <- <-. destruct (IH _ _ _ _ _ E3 Hq') as (put' & -> & Hput). eexists. split; [done|].
      intros x m' Hx. cbn. by rewrite (Hput x m' Hx). }
    cbn [focus app] in *. destruct g as [| | | | | | | | |l|[m0|]]; try done.
    + destruct (last l) as [[| | | | | | | | | |[m0|]]|]; try done.
      by apply (Hin m0 (fun x => GSlice (removelast l ++ [GMap (Some x)])) m).
    + by apply (Hin m0 (fun x => GMap (Some x)) m).
Qed.
End Maps.

(** ** Specifications of the decoder *)

Section Spec.
Context {float64 : Type} (NaN : float64) (ParseFloat : list Z -> option float64).
Context (pool_Get : tree -> SeenTracker).
Context {S : Type} `{!Source S}.
#[local] Abbreviation gval := (gval float64).
#[local] Abbreviation gmap_ := (list (list Z * gval)).
#[local] Abbreviation rvalue := (rvalue (float64 := float64)).
#[local] Abbreviation decoder := (decoder (S := S)).
#[local] Abbreviation D := (D (float64 := float64) (S := S)).
#[local] Abbreviation DecodeErr := (DecodeErr (float64 := float64)).
#[local] Abbreviation handleValue := (handleValue NaN ParseFloat (S := S)).
#[local] Existing Instance D_mbind.
#[local] Existing Instance D_mret.

(** [wp m d Q E]: from the state [d], [m] returns a value that satisfies [Q] or
    an error that satisfies [E]; it does not panic and its loops end. *)
Definition wp {A} (m : D A) (d : decoder) (Q : A -> decoder -> Prop) (E : DecodeErr -> Prop) : Prop :=
  match m d with Ret (a, d') => Q a d' | Fail e => E e | Panic | OutOfFuel => False end.

Lemma wp_bind {A B} (m : D A) (k : A -> D B) d P Q E :
  wp m d P E -> (forall a d', P a d' -> wp (k a) d' Q E) -> wp (m ≫= k) d Q E.
Proof. unfold wp, mbind, D_mbind. intros Hm Hk. destruct (m d) as [[a d']| | |]; try done. by apply Hk. Qed.

Lemma wp_ret {A} (a : A) d (Q : A -> decoder -> Prop) E : Q a d -> wp (mret a) d Q E.
Proof. done. Qed.

Lemma wp_mono {A} (m : D A) d (Q Q' : A -> decoder -> Prop) (E E' : DecodeErr -> Prop) :
  wp m d Q E -> (forall a d', Q a d' -> Q' a d') -> (forall e, E e -> E' e) -> wp m d Q' E'.
Proof. unfold wp. intros Hm H1 H2. destruct (m d) as [[a d']| | |]; auto. Qed.

(** *** Expressions *)

(** [st d ts err a c]: the expressions [ts] are still to come, then the end with
    [err]; the tracker is in the state [a] and [clearArrayTable] is [c]. *)
Definition st (d : decoder) (ts : list tree) (err : option ParserError) (a : seen) (c : bool) : Prop :=
  tracks (d_seen d) a /\ clearArrayTable d = c /\
  if stashedExpr d then exists t ts', ts = t :: ts' /\ Expr (d_p d) = Ret t /\ yields (d_p d) ts' err
  else yields (d_p d) ts err.

(** The expression [t] has been read. *)
Definition on (d : decoder) (t : tree) (ts : list tree) (err : option ParserError) (a : seen) (c : bool) : Prop :=
  st d ts err a c /\ stashedExpr d = false /\ Expr (d_p d) = Ret t.

Lemma wp_next_nil d err a c (Q : bool -> decoder -> Prop) E : st d [] err a c ->
  (forall d', st d' [] err a c -> Err (d_p d') = err -> Q false d') -> wp nextExpr d Q E.
Proof.
  intros (Ht & Hc & Hs) HQ. unfold wp, nextExpr. destruct (stashedExpr d) eqn:Es; [by destruct Hs as (? & ? & ? & _)|].
  destruct (yields_nil _ _ Hs) as (p & -> & He & Hy). cbn. apply HQ; [|done]. by split_and!.
Qed.

Lemma wp_next_cons d t ts err a c (Q : bool -> decoder -> Prop) E : st d (t :: ts) err a c ->
  (forall d', on d' t ts err a c -> Q true d') -> wp nextExpr d Q E.
Proof.
  intros (Ht & Hc & Hs) HQ. unfold wp, nextExpr. destruct (stashedExpr d) eqn:Es.
  - destruct Hs as (t' & ts' & [= <- <-] & He & Hy). apply HQ. split_and!; [|done|done]. by split_and!.
  - destruct (yields_cons _ _ _ _ Hs) as (p & -> & He & Hy). cbn. apply HQ. split_and!; [|done|done]. by split_and!.
Qed.

Lemma wp_expr d t ts err a c (Q : tree -> decoder -> Prop) E : on d t ts err a c -> Q t d -> wp expr d Q E.
Proof. intros (_ & _ & He) HQ. unfold wp, expr, liftp. rewrite He. exact HQ. Qed.

Lemma wp_stash d t ts err a c (Q : unit -> decoder -> Prop) E : on d t ts err a c ->
  (forall d', st d' (t :: ts) err a c -> Q tt d') -> wp stashExpr d Q E.
Proof.
  intros ((Ht & Hc & Hs) & Hst & He) HQ. rewrite Hst in Hs. apply HQ. split_and!; [done|done|]. cbn. by exists t, ts.
Qed.

(** The check of an expression, by the abstract tracker. *)
Lemma wp_check d t ts err a c (Q : bool -> decoder -> Prop) E : on d t ts err a c ->
  match a_check a t with
  | Ret (first, a') => forall d', on d' t ts err a' c -> Q first d'
  | Fail e => E (ETracker e)
  | _ => False
  end -> wp (check pool_Get t) d Q E.
Proof.
  intros ((Ht & Hc & Hs) & Hst & He) HQ. unfold wp, check.
  pose proof (CheckExpression_sim pool_Get _ _ t Ht) as Hsim.
  destruct (CheckExpression pool_Get (d_seen d) t) as [[b s']|e| |], (a_check a t) as [[b' a']|e'| |]; try done.
  - destruct Hsim as [Hb Hr]. cbn in Hb. subst b'. apply HQ. split_and!; [|done|done]. split_and!; [by right|done|done].
  - by rewrite Hsim.
Qed.

Lemma wp_liftt_key {B} d t keys (k : list (list Z) -> D B) Q E :
  node_key t = Ret keys -> wp (k keys) d Q E -> wp (liftt (node_key t) ≫= k) d Q E.
Proof. intros Hk. unfold wp, mbind, D_mbind, liftt. by rewrite Hk. Qed.

(** *** Going to a table *)

(** The values by which the handlers refer to [g]: a slice is never behind an
    interface. *)
Definition handle (v : rvalue) (g : gval) : Prop :=
  match v with
  | RInterface g' => g' = g /\ exists m, g = GMap (Some m)
  | RMap m => g = GMap m
  | RSlice _ l => g = GSlice l
  | ROther g' => False
  end.

(** What the caller has after a handler: the replacement, or its own value. *)
Definition outcome (r : option rvalue * rvalue) : gval := pack (default (snd r) (fst r)).

(** A handler that was given the entries of a map gives entries back: in place,
    or, behind an interface, as a replacement. *)
Definition gives (v : rvalue) (r : option rvalue * rvalue) (m : gmap_) : Prop :=
  match v with
  | RMap _ => r = (None, RMap (Some m))
  | _ => exists w, r = (Some (RMap (Some m)), w)
  end.

Lemma gives_outcome v r m : gives v r m -> outcome r = GMap (Some m).
Proof. destruct v; cbn; try (by intros [w ->]); by intros ->. Qed.

Context (fuel : nat).
#[local] Abbreviation handleKeyValues := (handleKeyValues NaN ParseFloat pool_Get (S := S) fuel).
#[local] Abbreviation handleTable := (handleTable NaN ParseFloat pool_Get (S := S) fuel).
#[local] Abbreviation handleArrayTable := (handleArrayTable NaN ParseFloat pool_Get (S := S) fuel).

(** The key-values of a table are read into the entries [m]. *)
Definition reads_body (d : decoder) (m : gmap_) (Q : gmap_ -> decoder -> Prop) (E : DecodeErr -> Prop) : Prop :=
  forall v, v = RMap (Some m) \/ v = RInterface (GMap (Some m)) ->
  wp (handleKeyValues v) d (fun r d' => exists m', outcome r = GMap (Some m') /\ Q m' d') E.

Lemma wp_key_part k m nextFn makeFn d (P : gval -> decoder -> Prop) E :
  wp (nextFn (match mget k m with None => makeFn | Some g => default makeFn (Elem g) end)) d
    (fun r d' => P (outcome r) d') E ->
  wp (key_part_map (S := S) k m nextFn makeFn) d (fun m' d' => exists g, m' = mset k g m /\ P g d') E.
Proof.
  intros Hn. unfold key_part_map. eapply wp_bind; [exact Hn|]. intros [x mv] d' HP. apply wp_ret. by eexists.
Qed.

(** [handleKeyPart] at a value that holds the entries [m]. *)
Lemma wp_handleKeyPart k v m nextFn makeFn d (P : gval -> decoder -> Prop) E :
  v = RMap (Some m) \/ v = RInterface (GMap (Some m)) ->
  wp (nextFn (match mget k m with None => makeFn | Some g => default makeFn (Elem g) end)) d
    (fun r d' => P (outcome r) d') E ->
  wp (handleKeyPart (S := S) k v nextFn makeFn) d
    (fun r d' => exists g, gives v r (mset k g m) /\ P g d') E.
Proof.
  intros Hv Hn. destruct Hv as [-> | ->]; cbn [handleKeyPart default Elem];
    (eapply wp_bind; [by apply wp_key_part|]); intros ? d' (g & -> & HP); apply wp_ret; exists g;
    (split; [|done]); [done|by eexists].
Qed.

Lemma handle_cases v g : handle v g -> forall m, g = GMap (Some m) -> v = RMap (Some m) \/ v = RInterface (GMap (Some m)).
Proof. intros Hh m ->. destruct v as [g'|m'|? l|]; cbn in Hh; try done; [destruct Hh as [-> _]; by right|injection Hh as <-; by left]. Qed.

(** The value for the next part of a key. *)
Lemma next_handle k (m : gmap_) makeFn : pack makeFn = GMap (Some []) -> makeFn = RMap (Some []) ->
  forall m2 put2 keys, focus keys (entry_or_new (mget k m)) = Some (m2, put2) ->
  handle (match mget k m with None => makeFn | Some g => default makeFn (Elem g) end) (entry_or_new (mget k m)).
Proof.
  intros _ -> m2 put2 keys Hf. destruct (mget k m) as [[| | | | | | | | |l|m']|]; try done; by destruct keys.
Qed.

(** From a value that holds the entries [m0]: the parts of the key, then the
    body. *)
Lemma scope_focus keys cur :
  (forall cur v g m put d Q E, handle v g -> focus keys g = Some (m, put) -> reads_body d m Q E ->
     wp (handleTable cur keys v) d (fun r d' => exists m', outcome r = put m' /\ Q m' d') E) ->
  forall k v m0 m put2 d Q E, v = RMap (Some m0) \/ v = RInterface (GMap (Some m0)) ->
  focus keys (entry_or_new (mget k m0)) = Some (m, put2) -> reads_body d m Q E ->
  wp (handleTable cur (k :: keys) v) d
    (fun r d' => exists m', gives v r (mset k (put2 m') m0) /\ Q m' d') E.
Proof.
  intros IH k v m0 m put2 d Q E Hv Hf Hb.
  assert (Hgoal : wp (handleKeyPart (S := S) k v (handleTable k keys) makeMapStringInterface) d
    (fun r d' => exists m', gives v r (mset k (put2 m') m0) /\ Q m' d') E).
  { eapply wp_mono; [apply (wp_handleKeyPart k v m0 _ _ d (fun g d' => exists m', g = put2 m' /\ Q m' d')); [done|]| |done].
    - eapply IH; [eapply next_handle; [done|done|exact Hf]|exact Hf|done].
    - intros r d' (g & Hg & m' & -> & HQ). by exists m'. }
  destruct Hv as [-> | ->]; exact Hgoal.
Qed.

Lemma handleTable_focus keys : forall cur v g m put d Q E,
  handle v g -> focus keys g = Some (m, put) -> reads_body d m Q E ->
  wp (handleTable cur keys v) d (fun r d' => exists m', outcome r = put m' /\ Q m' d') E.
Proof.
  induction keys as [|k keys IH]; intros cur v g m put d Q E Hh Hf Hb.
  - cbn [focus] in Hf. destruct g as [| | | | | | | | |l|[m0|]]; try done.
    + destruct (last l) as [[| | | | | | | | | |[m0|]]|] eqn:El; try done. injection Hf as <- <-.
      destruct v as [g'|m'|b l'|]; cbn in Hh; try done; [by destruct Hh as (_ & ? & ?)|]. injection Hh as <-.
      cbn [TomlUnmarshal.handleTable]. rewrite El. eapply wp_bind; [apply (Hb (RInterface (GMap (Some m0)))); by right|].
      intros [x elem] d' (m' & Ho & HQ). apply wp_ret. exists m'. split; [|done]. unfold outcome in *. cbn in *. by rewrite Ho.
    + injection Hf as <- <-. destruct (handle_cases v _ Hh m0 eq_refl) as [-> | ->]; by apply Hb; auto.
  - cbn [focus] in Hf. destruct g as [| | | | | | | | |l|[m0|]]; try done.
    + destruct (last l) as [[| | | | | | | | | |[m0|]]|] eqn:El; try done.
      destruct (focus keys _) as [[m2 put2]|] eqn:E2; [|done]. injection Hf as <- <-.
      destruct v as [g'|m'|b l'|]; cbn in Hh; try done; [by destruct Hh as (_ & ? & ?)|]. injection Hh as <-.
      cbn [TomlUnmarshal.handleTable]. rewrite El. eapply wp_bind.
      { apply (scope_focus keys cur IH k (RInterface (GMap (Some m0))) m0 m2 put2 d Q E); [by right|done|done]. }
      intros [x elem] d' (m' & Ho%gives_outcome & HQ). apply wp_ret. exists m'. split; [|done]. unfold outcome in *. cbn in *. by rewrite Ho.
    + destruct (focus keys _) as [[m2 put2]|] eqn:E2; [|done]. injection Hf as <- <-.
      eapply wp_mono; [apply (scope_focus keys cur IH k v m0 m2 put2 d Q E); [by apply (handle_cases v _ Hh)|done|done]| |done].
      intros r d' (m' & Hg%gives_outcome & HQ). by exists m'.
Qed.

(** From the target. *)
Lemma root_table cur k keys root mr m put d Q E :
  root = RMap (Some mr) \/ root = RInterface (GMap (Some mr)) ->
  focus (k :: keys) (GMap (Some mr)) = Some (m, put) -> reads_body d m Q E ->
  wp (handleTable cur (k :: keys) root) d
    (fun r d' => exists m' mr', gives root r mr' /\ GMap (Some mr') = put m' /\ Q m' d') E.
Proof.
  intros Hr Hf Hb. cbn [focus] in Hf. destruct (focus keys _) as [[m2 put2]|] eqn:E2; [|done]. injection Hf as <- <-.
  eapply wp_mono; [by eapply scope_focus; [apply handleTable_focus|..]| |done].
  intros r d' (m' & Hg & HQ). by eexists m', _.
Qed.

(** *** Going to an array of tables *)

(** The elements that an array of tables has so far. *)
Definition elements (o : option gval) : option (list gval) :=
  match o with None | Some GNil => Some [] | Some (GSlice l) => Some l | _ => None end.

(** The new last element is read from an empty map. *)
Lemma collection_last k (m : gmap_) l d Q E :
  elements (mget k m) = Some l -> clearArrayTable d = false \/ l = [] -> reads_body d [] Q E ->
  wp (handleArrayTableCollectionLast NaN ParseFloat pool_Get (S := S) fuel
        (match mget k m with None => makeSliceInterface | Some g => default makeSliceInterface (Elem g) end)) d
    (fun r d' => exists m', outcome r = GSlice (l ++ [GMap (Some m')]) /\ Q m' d') E.
Proof.
  intros Hl Hc Hb.
  assert (Hmv : (match mget k m with None => makeSliceInterface | Some g => default makeSliceInterface (Elem g) end)
    = RSlice false l).
  { destruct (mget k m) as [[]|]; cbn in Hl; try done; by injection Hl as <-. }
  rewrite Hmv. cbn [handleArrayTableCollectionLast]. unfold collection_last_slice.
  eapply wp_bind; [apply (wp_ret _ _ (fun b d' => b = clearArrayTable d /\ d' = d)); done|]. intros ? ? [-> ->].
  eapply (wp_bind _ _ _ (fun l' d' => l' = l /\ d' = d)).
  { replace (clearArrayTable d && (0 <? length l)%nat) with false; [by apply wp_ret|].
    destruct Hc as [-> | ->]; [done|]. by rewrite andb_false_r. }
  intros ? ? [-> ->]. eapply wp_bind; [apply (Hb makeMapStringInterface); by left|].
  intros [x elem] d' (m' & Ho & HQ). apply wp_ret. exists m'. split; [|done]. unfold outcome in *. cbn in *. by rewrite Ho.
Qed.

Lemma handleArrayTable_focus k keys : forall v m0 m put l d Q E,
  v = RMap (Some m0) \/ v = RInterface (GMap (Some m0)) ->
  focus keys (GMap (Some m0)) = Some (m, put) -> elements (mget k m) = Some l ->
  clearArrayTable d = false \/ l = [] -> reads_body d [] Q E ->
  wp (handleArrayTable (keys ++ [k]) v) d
    (fun r d' => exists m' mr, gives v r mr /\ GMap (Some mr) = put (mset k (GSlice (l ++ [GMap (Some m')])) m) /\ Q m' d') E.
Proof.
  induction keys as [|k0 keys IH]; intros v m0 m put l d Q E Hv Hf Hl Hc Hb.
  - apply focus_nil_map in Hf as [-> ->]. cbn [app TomlUnmarshal.handleArrayTable].
    eapply wp_mono; [apply (wp_handleKeyPart k v m _ _ d (fun g d' => exists m', g = GSlice (l ++ [GMap (Some m')]) /\ Q m' d')); [done|]| |done].
    + by apply collection_last.
    + intros r d' (g & Hg & m' & -> & HQ). by eexists m', _.
  - cbn [focus] in Hf. destruct (focus keys (entry_or_new (mget k0 m0))) as [[m2 put2]|] eqn:E2; [|done].
    injection Hf as <- <-. cbn [app TomlUnmarshal.handleArrayTable].
    assert (Hne : exists k1 ks, keys ++ [k] = k1 :: ks) by (destruct keys; by eexists _, _).
    assert (Hmk : forall A (x y : A), match keys ++ [k] with [] => x | _ => y end = y) by (intros; by destruct Hne as (? & ? & ->)).
    rewrite Hmk.
    eapply wp_mono; [apply (wp_handleKeyPart k0 v m0 _ _ d
      (fun g d' => exists m', g = put2 (mset k (GSlice (l ++ [GMap (Some m')])) m2) /\ Q m' d')); [done|]| |done].
    2:{ intros r d' (g & Hg & m' & -> & HQ). by eexists m', _. }
    cbv beta. rewrite Hmk.
    pose proof (next_handle k0 m0 makeMapStringInterface eq_refl eq_refl m2 put2 keys E2) as Hh.
    set (mv := match mget k0 m0 with None => _ | Some g => _ end) in *.
    destruct (entry_or_new (mget k0 m0)) as [| | | | | | | | |l1|[m1|]] eqn:Eg; try (by destruct keys).
    + destruct (focus_slice _ _ _ _ E2) as (m1 & put1 & El & Ef & Hp).
      destruct mv as [g'|m'|b l'|]; cbn in Hh; try done; [by destruct Hh as (_ & ? & ?)|]. injection Hh as <-.
      rewrite El. eapply wp_bind.
      { apply (IH (RInterface (GMap (Some m1))) m1 m2 put1 l d Q E); [by right|done|done|done|done]. }
      intros [x elem] d' (m' & mr & Ho%gives_outcome & Em & HQ). apply wp_ret. exists m'. split; [|done].
      unfold outcome in *. cbn in *. by rewrite Ho, Hp, Em.
    + pose proof (handle_cases mv _ Hh m1 eq_refl) as Hmv.
      assert (Hgo : wp (handleArrayTable (keys ++ [k]) mv) d (fun r d' => exists m',
        outcome r = put2 (mset k (GSlice (l ++ [GMap (Some m')])) m2) /\ Q m' d') E).
      { eapply wp_mono; [by apply (IH mv m1 m2 put2 l d Q E)| |done].
        intros r d' (m' & mr & Ho%gives_outcome & Em & HQ). exists m'. by rewrite <- Em. }
      destruct Hmv as [-> | ->]; exact Hgo.
Qed.

(** *** Key-values *)

(** The entries of a map after the value [g] was stored under a dotted key. *)
Fixpoint kv_set (k : list Z) (rest : list (list Z)) (g : gval) (m : gmap_) : gmap_ :=
  match rest with
  | [] => mset k g m
  | k2 :: rest' =>
      mset k (GMap (Some (kv_set k2 rest' g (match mget k m with Some (GMap (Some m2)) => m2 | _ => [] end)))) m
  end.

(** A value is read, which leaves the state of the decoder alone. *)
Definition reads_value (t : tree) (Q : gval -> Prop) (E : DecodeErr -> Prop) : Prop :=
  forall d, wp (handleValue t GNil) d (fun g d' => d' = d /\ Q g) E.

Lemma wp_kv_part (value : D gval) d (Q : gval -> Prop) E rest : forall k m,
  wp value d (fun g d' => d' = d /\ Q g) E ->
  wp (kv_part_map (S := S) k rest value m) d (fun m' d' => d' = d /\ exists g, Q g /\ m' = kv_set k rest g m) E.
Proof.
  induction rest as [|k2 rest IH]; intros k m Hv; cbn [kv_part_map].
  - eapply wp_bind; [exact Hv|]. intros g d' [-> HQ]. apply wp_ret. split; [done|]. by exists g.
  - eapply wp_bind; [by apply IH|]. intros m2 d' (-> & g & HQ & ->). apply wp_ret. split; [done|]. exists g. split; [done|].
    cbn [kv_set]. by destruct (mget k m) as [[| | | | | | | | | |[]]|].
Qed.

Lemma wp_handleKeyValue e k rest value vs d v m (Q : gval -> Prop) E :
  node_key e = Ret (k :: rest) -> t_children e = value :: vs -> reads_value value Q E ->
  v = RMap (Some m) \/ v = RInterface (GMap (Some m)) ->
  wp (handleKeyValue handleValue e v) d
    (fun r d' => d' = d /\ exists g, Q g /\
       gives v r (kv_set k rest g m)) E.
Proof.
  intros Hk Hc Hv Hm. unfold handleKeyValue. eapply wp_liftt_key; [exact Hk|]. rewrite Hc.
  destruct Hm as [-> | ->]; cbn [handleKeyValuePart];
    (eapply wp_bind; [by apply wp_kv_part|]); intros m' d' (-> & g & HQ & ->); apply wp_ret; (split; [done|]);
    exists g; (split; [done|]); [done|by eexists].
Qed.

(** What a body can read: the key-values in front of [rest]. *)
Definition not_kv (ts : list tree) : Prop :=
  match ts with [] => True | t :: _ => t_kind t <> KeyValue end.

(** [kv_expr t k rest value]: a key-value. *)
Definition kv_expr (t : tree) (k : list Z) (rest : list (list Z)) (value : tree) : Prop :=
  t_kind t = KeyValue /\ node_key t = Ret (k :: rest) /\ exists vs, t_children t = value :: vs.

(** A loop invariant for the body: [I ts a m] holds before the expressions [ts]. *)
Lemma wp_kvs_loop (I : list tree -> seen -> gmap_ -> Prop) err c E (Q : gmap_ -> decoder -> Prop) :
  (forall ts a m, I ts a m -> match ts with
     | [] => forall d, st d [] err a c -> Q m d
     | t :: ts' =>
         if bool_decide (t_kind t = KeyValue) then
           match a_check a t with
           | Ret (_, a') => exists k rest value P, kv_expr t k rest value /\ reads_value value P E /\
               forall g, P g -> I ts' a' (kv_set k rest g m)
           | Fail e => E (ETracker e)
           | _ => False
           end
         else forall d, st d (t :: ts') err a c -> Q m d
     end) ->
  forall n ts a m v rep d, I ts a m -> st d ts err a c -> (length ts < n)%nat ->
  v = RMap (Some m) \/ v = RInterface (GMap (Some m)) ->
  wp (kvs_loop NaN ParseFloat pool_Get (S := S) n v rep) d (fun r d' => exists m', pack (fst r) = GMap (Some m') /\ Q m' d') E.
Proof.
  intros HI. induction n as [|n IH]; intros ts a m v rep d Hi Hs Hn Hv; [lia|]. cbn [kvs_loop].
  assert (Hp : pack v = GMap (Some m)) by (by destruct Hv as [-> | ->]).
  specialize (HI _ _ _ Hi). destruct ts as [|t ts].
  - eapply wp_bind; [eapply (wp_next_nil _ _ _ _ (fun b d' => b = false /\ st d' [] err a c)); [exact Hs|done]|].
    intros ? d' [-> Hs']. apply wp_ret. exists m. split; [done|by apply HI].
  - eapply wp_bind; [eapply (wp_next_cons _ _ _ _ _ _ (fun b d' => b = true /\ on d' t ts err a c)); [exact Hs|done]|].
    intros ? d' [-> Ho]. cbv iota.
    eapply wp_bind; [eapply (wp_expr _ _ _ _ _ _ (fun t' d1 => t' = t /\ d1 = d')); [exact Ho|done]|].
    intros ? ? [-> ->]. case_bool_decide as Hk; cbn [negb].
    + eapply wp_bind.
      { eapply wp_check; [exact Ho|]. destruct (a_check a t) as [[b a']|e| |] eqn:Ea; [|exact HI|done..].
        instantiate (1 := fun _ d1 => exists a' b, a_check a t = Ret (b, a') /\ on d1 t ts err a' c). cbv beta. eauto. }
      intros _ d1 (a' & b & Ea & Ho'). rewrite Ea in HI. destruct HI as (k & rest & value & P & (_ & Hkey & vs & Hvs) & Hval & HI).
      eapply wp_bind; [by eapply wp_handleKeyValue|]. intros r d2 (-> & g & HP & Hr).
      destruct Ho' as (Hst' & _). destruct Hv as [-> | ->]; cbn [gives] in Hr; [subst r|destruct Hr as [w ->]].
      * eapply (IH ts a'); [by apply HI|done|simpl in Hn; lia|by left].
      * eapply (IH ts a'); [by apply HI|done|simpl in Hn; lia|by left].
    + eapply wp_bind; [eapply (wp_stash _ _ _ _ _ _ (fun _ d1 => st d1 (t :: ts) err a c)); [exact Ho|done]|].
      intros ? d1 Hs'. apply wp_ret. exists m. split; [done|by apply HI].
Qed.

(** The body of a table, with the same invariant. *)
Lemma reads_body_loop (I : list tree -> seen -> gmap_ -> Prop) err c E (Q : gmap_ -> decoder -> Prop) ts a m d :
  (forall ts a m, I ts a m -> match ts with
     | [] => forall d, st d [] err a c -> Q m d
     | t :: ts' =>
         if bool_decide (t_kind t = KeyValue) then
           match a_check a t with
           | Ret (_, a') => exists k rest value P, kv_expr t k rest value /\ reads_value value P E /\
               forall g, P g -> I ts' a' (kv_set k rest g m)
           | Fail e => E (ETracker e)
           | _ => False
           end
         else forall d, st d (t :: ts') err a c -> Q m d
     end) ->
  I ts a m -> st d ts err a c -> (length ts < fuel)%nat -> reads_body d m Q E.
Proof.
  intros HI Hi Hs Hn v Hv. unfold TomlUnmarshal.handleKeyValues.
  eapply wp_bind; [by eapply (wp_kvs_loop I)|]. intros [v' rep] d' (m' & Hp & HQ). apply wp_ret. exists m'.
  split; [|done]. destruct rep; exact Hp.
Qed.

(** *** Expressions at the root *)

#[local] Abbreviation handleRootExpression := (handleRootExpression NaN ParseFloat pool_Get (S := S) fuel).
#[local] Abbreviation fromParser := (fromParser NaN ParseFloat pool_Get (S := S) fuel).

(** The target after an expression. *)
Definition root_after (r : option rvalue * rvalue) (v : rvalue) : rvalue :=
  match fst r, v with
  | Some x, RInterface _ => RInterface (pack x)
  | Some x, _ => x
  | None, _ => snd r
  end.

(** [rooted iface v m]: the target, an interface if [iface] says so, holds the
    entries [m]. *)
Definition rooted (iface : bool) (v : rvalue) (m : gmap_) : Prop :=
  v = if iface then RInterface (GMap (Some m)) else RMap (Some m).

Lemma rooted_cases iface v m : rooted iface v m -> v = RMap (Some m) \/ v = RInterface (GMap (Some m)).
Proof. intros ->. destruct iface; auto. Qed.

Lemma rooted_inj iface v m m' : rooted iface v m -> rooted iface v m' -> m = m'.
Proof. intros -> E. unfold rooted in E. by destruct iface; injection E. Qed.

Lemma gives_rooted iface r v m m' : rooted iface v m -> gives v r m' -> rooted iface (root_after r v) m'.
Proof. intros ->. destruct iface; cbn; [by intros [w ->]|by intros ->]. Qed.

(** One turn of the loop over the document. *)
Lemma wp_turn n root d t ts err a c Q E : st d (t :: ts) err a c ->
  match a_check a t with
  | Ret (first, a') =>
      forall d', on d' t ts err a' c ->
      wp (match t_kind t with
          | KeyValue => handleKeyValue handleValue t root
          | Table => keys ← liftt (node_key t); handleTable (default [] (keys !! 0%nat)) keys root
          | ArrayTable => _ ← set_clear first; keys ← liftt (node_key t); handleArrayTable keys root
          | _ => panics
          end) d' (fun r d2 => wp (fromParser n (root_after r root)) d2 Q E) E
  | Fail e => E (ETracker e)
  | _ => False
  end ->
  wp (fromParser (Datatypes.S n) root) d Q E.
Proof.
  intros Hs Hx. cbn [TomlUnmarshal.fromParser].
  eapply wp_bind; [eapply (wp_next_cons _ _ _ _ _ _ (fun b d' => b = true /\ on d' t ts err a c)); [exact Hs|done]|].
  intros ? d' [-> Ho]. cbv iota.
  eapply wp_bind; [eapply (wp_expr _ _ _ _ _ _ (fun t' d1 => t' = t /\ d1 = d')); [exact Ho|done]|].
  intros ? ? [-> ->]. eapply (wp_bind _ _ _ (fun r d2 => wp (fromParser n r) d2 Q E)); [|done].
  unfold TomlUnmarshal.handleRootExpression. eapply wp_bind.
  { eapply wp_check; [exact Ho|]. destruct (a_check a t) as [[b a']|e| |] eqn:Ea; [|exact Hx|done..].
    instantiate (1 := fun first d1 => exists a', a_check a t = Ret (first, a') /\ on d1 t ts err a' c). cbv beta. eauto. }
  intros first d1 (a' & Ea & Ho'). rewrite Ea in Hx. eapply wp_bind; [by apply Hx|].
  intros [x v'] d2 Hw. apply wp_ret. exact Hw.
Qed.

Lemma wp_end n root d err a c Q E : st d [] err a c ->
  match err with Some e => E (EParser e) | None => forall d', Q root d' end ->
  wp (fromParser (Datatypes.S n) root) d Q E.
Proof.
  intros Hs Hx. cbn [TomlUnmarshal.fromParser].
  eapply wp_bind; [eapply (wp_next_nil _ _ _ _ (fun b d' => b = false /\ Err (d_p d') = err)); [exact Hs|done]|].
  intros ? d' [-> He]. cbv iota. unfold wp. rewrite He. destruct err; [exact Hx|apply Hx].
Qed.
End Spec.
End TomlUnmarshal.
