(* ===== verification/TomlInverse.v ===== *)
(** * Decoding inverts encoding

    What [TomlMarshal] writes for generic data, [TomlUnmarshal] reads back: the
    parser accepts the document, the key tracker accepts its expressions, and the
    decoder builds the data again. *)
From stdpp Require Import base numbers list gmap strings sorting.
From S2P Require Import Prelude Utf8 Strconv TomlChars TomlScan TomlDecode TomlTime TomlAst TomlParser TomlMarshal TomlRoundtrip TomlComplete TomlDocument TomlTracker TomlUnmarshal.
#[local] Open Scope Z_scope.

Module TomlInverse.
Import Strconv TomlComplete TomlDocument TomlAst TomlTracker TomlUnmarshal.

Section Inverse.
Context {float64 : Type} (NaN : float64) (ParseFloat : list Z -> option float64).
Context (pool_Get : tree -> SeenTracker).
Context {S : Type} `{!Source S}.
#[local] Abbreviation gval := (gval float64).
#[local] Abbreviation gmap_ := (list (list Z * gval)).
#[local] Abbreviation rvalue := (rvalue (float64 := float64)).
#[local] Abbreviation decoder := (decoder (S := S)).
#[local] Abbreviation handleValue := (handleValue NaN ParseFloat (S := S)).
#[local] Existing Instance D_mbind.
#[local] Existing Instance D_mret.

(** The data as the decoder builds it. *)
Fixpoint embed (v : tv) : gval :=
  match v with
  | TStr s => GString s
  | TInt z => GInt z
  | TBool x => GBool x
  | TArr l => GSlice (map embed l)
  | TTab l => GMap (Some (map (fun kx : list Z * tv => (fst kx, embed (snd kx))) l))
  end.

(** ** Entries stored one after the other *)

Definition store (l : list (list Z * tv)) (m : gmap_) : gmap_ :=
  foldl (fun m kx => mset (fst kx) (embed (snd kx)) m) m l.

Fixpoint assoc (k : list Z) (l : list (list Z * tv)) : option tv :=
  match l with
  | [] => None
  | (k', x) :: l' => if bool_decide (k' = k) then Some x else assoc k l'
  end.

Lemma assoc_none k l : k ∉ fst <$> l -> assoc k l = None.
Proof.
  induction l as [|[k' x] l IH]; [done|]. cbn. rewrite elem_of_cons. intros Hk.
  rewrite bool_decide_eq_false_2 by (intros ->; tauto). apply IH. tauto.
Qed.

Lemma mget_store k l : forall m, NoDup (fst <$> l) ->
  mget k (store l m) = match assoc k l with Some x => Some (embed x) | None => mget k m end.
Proof.
  induction l as [|[k' x] l IH]; intros m Hd; [done|]. cbn in Hd. apply NoDup_cons in Hd as [Hk Hd].
  unfold store in *. cbn [foldl fst snd assoc]. rewrite IH by done. case_bool_decide as E.
  - subst k'. rewrite assoc_none by done. apply mget_mset_eq.
  - destruct (assoc k l); [done|]. apply mget_mset_ne. congruence.
Qed.

Lemma store_sorted l : forall m, sorted m -> sorted (store l m).
Proof. induction l as [|kx l IH]; intros m Hm; [done|]. apply IH, mset_sorted, Hm. Qed.

Lemma store_app l1 l2 m : store (l1 ++ l2) m = store l2 (store l1 m).
Proof. apply foldl_app. Qed.

Lemma assoc_perm k l1 l2 : l1 ≡ₚ l2 -> NoDup (fst <$> l1) -> assoc k l1 = assoc k l2.
Proof.
  induction 1 as [|[k' x] l1 l2 Hp IH|[k1 x1] [k2 x2] l|l1 l2 l3 H1 IH1 H2 IH2]; intros Hd; [done| | |].
  - cbn in *. apply NoDup_cons in Hd as [_ Hd]. by rewrite IH.
  - cbn in *. apply NoDup_cons in Hd as [Hne _]. rewrite elem_of_cons in Hne.
    repeat case_bool_decide; subst; try done. tauto.
  - rewrite IH1 by done. apply IH2. by rewrite <- H1.
Qed.

Lemma mget_embed k l : mget k (map (fun kx : list Z * tv => (fst kx, embed (snd kx))) l) = embed <$> assoc k l.
Proof. induction l as [|[k' x] l IH]; [done|]. cbn. by case_bool_decide. Qed.

(** The entries of a table, stored in any order, are the table. *)
Lemma store_all l l' : StronglySorted (fun a b : list Z * tv => TomlDocument.key_lt (fst a) (fst b)) l -> l' ≡ₚ l ->
  store l' [] = map (fun kx => (fst kx, embed (snd kx))) l.
Proof.
  intros Hs Hp. pose proof (TomlDocument.sorted_keys l Hs) as Hd.
  assert (Hd' : NoDup (fst <$> l')) by (by rewrite Hp). apply sorted_ext.
  - apply store_sorted. constructor.
  - clear -Hs. induction Hs as [|kx l Hs IH Hf]; [constructor|]. cbn. constructor; [exact IH|]. by apply Forall_map.
  - intros k. rewrite mget_store, mget_embed, (assoc_perm k l' l) by done. by destruct (assoc k l).
Qed.

(** ** Values *)

Definition nothing : DecodeErr (float64 := float64) -> Prop := fun _ => False.

(** The tree of a key-value. *)
Lemma kv_tree t x k : shape_of t = Sh KeyValue [] [vshape x; key_shape k] ->
  exists value, kv_expr t k [] value /\ shape_of value = vshape x.
Proof.
  destruct t as [kd r d cs]. cbn. intros [= -> Hd Hcs]. destruct cs as [|value [|[kk rk dk ck] [|]]]; try done.
  cbn in Hcs. injection Hcs as Hv -> Hk _. cbn in Hk. exists value. split; [|done]. split_and!; [done| |by eexists].
  cbn. by rewrite Hk.
Qed.

(** An integer that the encoder wrote. *)
Lemma integer_reads d z : dbytes d = FormatInt z 10 -> int64_ok z -> TomlDecode.parseInteger (data_slice d) = Ret z.
Proof.
  intros Hd Hz. destruct (FormatInt_shape z) as (c & q & Ef & Hc & _).
  assert (Hn : forall c, c ∈ FormatInt z 10 -> c <> 95).
  { intros c' Hc'. rewrite Ef in Hc'. rewrite Forall_forall in Hc. specialize (Hc c' Hc'). unfold int_char in Hc. lia. }
  assert (Hw : TomlDecode.well_placed (FormatInt z 10)).
  { split_and!.
    - intros Hl. by eapply Hn; [eapply list_elem_of_lookup_2|].
    - intros Hl. apply last_Some in Hl as [l' Hl]. eapply Hn; [rewrite Hl; apply elem_of_app; right; by left|done].
    - intros i Hi Hi2. by eapply Hn; [eapply list_elem_of_lookup_2|]. }
  assert (Hr : TomlDecode.remove_underscores (FormatInt z 10) = FormatInt z 10).
  { apply TomlDecode.remove_none, Forall_forall. exact Hn. }
  destruct d as [[o l]|l]; cbn in *; subst l; by apply TomlDecode.parseIntDec_roundtrip.
Qed.

Lemma value_reads v : tv_ok v -> forall t, shape_of t = vshape v ->
  reads_value NaN ParseFloat (S := S) t (fun g => g = embed v) nothing.
Proof.
  induction v as [s|z|x|l IH|l IH] using tv_ind'; intros Hok [k r d cs] Hsh dec; cbn [shape_of vshape] in Hsh;
    injection Hsh as Hk Hd Hcs; subst k; cbn [is_container] in Hd; cbn [TomlUnmarshal.handleValue].
  - apply wp_ret. cbn [t_data]. by rewrite Hd.
  - unfold unmarshalInteger. unfold wp, mbind, D_mbind, liftp. cbn [t_data]. rewrite (integer_reads d z Hd Hok). done.
  - unfold unmarshalBool. unfold wp, mbind, D_mbind, liftp. cbn [t_data].
    rewrite (TomlScan.s_at_eq _ 0 (if x then 116 else 102)); [by destruct x|].
    destruct d as [[o b]|b]; cbn in *; rewrite Hd; by destruct x.
  - apply tv_ok_arr in Hok.
    assert (Hgen : forall acc, wp ((fix elems (cs : list tree) (l : list gval) :=
             match cs with
             | [] => mret (GSlice l)
             | n :: cs' => x ← handleValue n GNil; elems cs' (l ++ [x])
             end) cs acc) dec (fun g d' => d' = dec /\ g = GSlice (acc ++ map embed l)) nothing).
    { clear Hd. revert cs Hcs. induction IH as [|x l Hx _ IHl]; intros [|c cs] Hcs acc; try done.
      { apply wp_ret. by rewrite app_nil_r. }
      apply Forall_cons in Hok as [Hox Hok]. cbn in Hcs. injection Hcs as Hc Hcs.
      eapply wp_bind; [by apply (Hx Hox c Hc)|]. intros g d' [-> ->].
      eapply wp_mono; [by apply IHl| |done]. intros g' d' [-> ->]. by rewrite <- app_assoc. }
    exact (Hgen []).
  - apply tv_ok_tab in Hok as [Hs Hok].
    assert (Hgen : forall m, wp ((fix members (cs : list tree) (v : rvalue) :=
             match cs with
             | [] => mret (pack v)
             | n :: cs' =>
                 r ← handleKeyValue handleValue n v;
                 let '(x, v) := (r : option rvalue * rvalue) in
                 members cs' (default v x)
             end) cs (RMap (Some m))) dec (fun g d' => d' = dec /\ g = GMap (Some (store l m))) nothing).
    { clear Hd Hs. revert cs Hcs. induction IH as [|[k x] l Hx _ IHl]; intros [|c cs] Hcs m; try done.
      apply Forall_cons in Hok as [[_ Hox] Hok]. cbn in Hcs. injection Hcs as Hc Hcs.
      destruct (kv_tree c x k Hc) as (value & (_ & Hkey & vs & Hvs) & Hval).
      eapply wp_bind; [eapply wp_handleKeyValue; [exact Hkey|exact Hvs|by apply Hx|by left]|].
      intros [y w] d' (-> & g & -> & Hg). cbn [kv_set] in Hg.
      assert (Hv : default w y = RMap (Some (mset k (embed x) m))) by (by injection Hg as -> ->).
      rewrite Hv. by apply IHl. }
    eapply wp_mono; [exact (Hgen [])| |done]. intros g d' [-> ->]. split; [done|]. cbn. by rewrite (store_all l l).
Qed.

(** ** The key tracker *)

Definition kinds (a : seen) (q : list (list Z)) : option keyKind := i_kind <$> known a !! q.

Lemma check_kv a t k value b : kv_expr t k [] value -> a_value value = Ret b -> kinds a (current a ++ [k]) = None ->
  exists a', a_check a t = Ret (b, a') /\ current a' = current a /\
    kinds a' (current a ++ [k]) = Some valueKind /\
    forall q, q <> current a ++ [k] -> kinds a' q = kinds a q.
Proof.
  intros (Hk & Hkey & vs & Hvs) Hv Hn. unfold kinds in Hn. destruct (known a !! (current a ++ [k])) eqn:En; [done|].
  unfold a_check. rewrite Hk. unfold a_keyvalue_with. rewrite Hkey. cbn [mbind go_mbind go_bind a_kv].
  rewrite En. cbn [mbind go_mbind go_bind]. rewrite Hvs, Hv. cbn [mbind go_mbind go_bind].
  eexists. split; [done|]. cbn. unfold kinds. cbn. split_and!; [done| |].
  - by rewrite lookup_alter_eq, lookup_insert_eq.
  - intros q Hq. by rewrite lookup_alter_ne, lookup_insert_ne by done.
Qed.

Lemma value_checked v : tv_ok v -> forall t, shape_of t = vshape v -> exists b, a_value t = Ret b.
Proof.
  induction v as [s|z|x|l IH|l IH] using tv_ind'; intros Hok [k r d cs] Hsh; cbn [shape_of vshape] in Hsh;
    injection Hsh as Hk Hd Hcs; subst k; try (by eexists); cbn [a_value].
  - apply tv_ok_arr in Hok. generalize false as b. clear Hd. revert cs Hcs.
    induction IH as [|x l Hx _ IHl]; intros [|c cs] Hcs b; try done; [by eexists|].
    apply Forall_cons in Hok as [Hox Hok]. cbn in Hcs. injection Hcs as Hc Hcs.
    destruct (Hx Hox c Hc) as [b' Hb']. destruct (t_kind c); try (by apply IHl);
      rewrite Hb'; cbn [mbind go_mbind go_bind]; by apply IHl.
  - apply tv_ok_tab in Hok as [Hs Hok]. pose proof (sorted_keys l Hs) as Hnd. generalize false as b.
    assert (Hfresh : forall k, k ∈ fst <$> l -> kinds (Sn ∅ []) [k] = None) by done. revert Hfresh.
    assert (Hcur : current (Sn ∅ []) = []) by done. revert Hcur. generalize (Sn ∅ []) as a. clear Hd Hs. revert cs Hcs.
    induction IH as [|[k x] l Hx _ IHl]; intros [|c cs] Hcs a Hcur Hfresh b; try done; [by eexists|].
    apply Forall_cons in Hok as [[_ Hox] Hok]. cbn in Hcs. injection Hcs as Hc Hcs.
    cbn in Hnd. apply NoDup_cons in Hnd as [Hkn Hnd].
    destruct (kv_tree c x k Hc) as (value & Hkv & Hval). destruct (Hx Hox value Hval) as [b' Hb'].
    destruct (check_kv a c k value b' Hkv Hb') as (a' & Ea & Hc' & _ & Ho); [rewrite Hcur; apply Hfresh; by left|].
    assert (Ek : a_keyvalue_with a_value a c = Ret (b', a')).
    { unfold a_check in Ea. destruct Hkv as (Hkd & _). by rewrite Hkd in Ea. }
    rewrite Ek. cbn [mbind go_mbind go_bind]. apply IHl; [done|done|done|by rewrite Hc'|].
    intros k' Hk'. rewrite Ho; [apply Hfresh; by right|]. rewrite Hcur. intros [= ->]. done.
Qed.

(** The tables on the way to [p] are known. *)
Definition above_ok (a : seen) (p : list (list Z)) : Prop :=
  forall q, q <> [] -> q `prefix_of` p -> exists kd, kinds a q = Some kd /\ kd <> valueKind.

Lemma a_prefix_ok ks k : forall m p0,
  (forall q, q <> [] -> q `prefix_of` ks -> exists kd, i_kind <$> m !! (p0 ++ q) = Some kd /\ kd <> valueKind) ->
  a_prefix m p0 (ks ++ [k]) = Ret (p0 ++ ks, k, m).
Proof.
  induction ks as [|k0 ks IH]; intros m p0 Hq; [cbn; by rewrite app_nil_r|]. cbn [app].
  destruct (Hq [k0]) as (kd & Hkd & Hv); [done|by exists ks|].
  assert (Hne : exists k1 ks', ks ++ [k] = k1 :: ks') by (destruct ks; by eexists _, _).
  destruct Hne as (k1 & ks' & E). cbn [a_prefix]. rewrite E, <- E.
  destruct (m !! (p0 ++ [k0])) as [i|]; [|done]. cbn in Hkd. injection Hkd as Hkd.
  rewrite bool_decide_eq_false_2 by congruence. rewrite IH; [by rewrite <- app_assoc|].
  intros q Hne [r ->]. rewrite <- app_assoc. apply Hq; [done|]. by exists r.
Qed.

Lemma kinds_mark a p : forall q, i_kind <$> mark_below p (known a) !! q = kinds a q.
Proof.
  intros q. unfold mark_below, kinds. rewrite map_lookup_imap. destruct (known a !! q) as [i|]; [|done]. cbn.
  case_bool_decide; [|done]. unfold mark_info. by destruct (i_kv i).
Qed.

(** A new table or array of tables. *)
Lemma check_new a t p k (kd : Kind) : t_kind t = kd -> kd = Table \/ kd = ArrayTable -> node_key t = Ret (p ++ [k]) ->
  above_ok a p -> kinds a (p ++ [k]) = None ->
  exists a', a_check a t = Ret (true, a') /\ current a' = p ++ [k] /\
    kinds a' (p ++ [k]) = Some (match kd with Table => tableKind | _ => arrayTableKind end) /\
    forall q, q <> p ++ [k] -> kinds a' q = kinds a q.
Proof.
  intros Hk Hkd Hkey Ha Hn. unfold a_check. rewrite Hk.
  assert (Hp : a_prefix (mark_below (current a) (known a)) [] (p ++ [k]) = Ret (p, k, mark_below (current a) (known a))).
  { apply (a_prefix_ok p k). intros q Hq Hqp. cbn. rewrite kinds_mark. by apply Ha. }
  pose proof (kinds_mark a (current a)) as Hm. set (m := mark_below (current a) (known a)) in *.
  assert (Hnone : m !! (p ++ [k]) = None) by (specialize (Hm (p ++ [k])); rewrite Hn in Hm; by destruct (m !! (p ++ [k]))).
  destruct Hkd as [-> | ->]; [unfold a_table|unfold a_array_table]; rewrite Hkey; cbn [mbind go_mbind go_bind]; fold m;
    rewrite Hp; cbn [mbind go_mbind go_bind]; rewrite Hnone; (eexists; split; [done|]); cbn; unfold kinds; cbn;
    (split_and!; [done|by rewrite lookup_insert_eq|]); intros q Hq; rewrite lookup_insert_ne by done; apply Hm.
Qed.

(** One more element of an array of tables. *)
Lemma check_more a t p k : t_kind t = ArrayTable -> node_key t = Ret (p ++ [k]) ->
  above_ok a p -> kinds a (p ++ [k]) = Some arrayTableKind ->
  exists a', a_check a t = Ret (false, a') /\ current a' = p ++ [k] /\
    kinds a' (p ++ [k]) = Some arrayTableKind /\
    (forall q, below (p ++ [k]) q -> kinds a' q = None) /\ forall q, ~ (p ++ [k]) `prefix_of` q -> kinds a' q = kinds a q.
Proof.
  intros Hk Hkey Ha Hn. unfold a_check. rewrite Hk.
  assert (Hp : a_prefix (mark_below (current a) (known a)) [] (p ++ [k]) = Ret (p, k, mark_below (current a) (known a))).
  { apply (a_prefix_ok p k). intros q Hq Hqp. cbn. rewrite kinds_mark. by apply Ha. }
  pose proof (kinds_mark a (current a)) as Hm. set (m := mark_below (current a) (known a)) in *.
  unfold a_array_table. rewrite Hkey. cbn [mbind go_mbind go_bind]. fold m. rewrite Hp. cbn [mbind go_mbind go_bind].
  pose proof (Hm (p ++ [k])) as Hmk. rewrite Hn in Hmk. destruct (m !! (p ++ [k])) as [i|] eqn:Ei; [|done].
  cbn in Hmk. injection Hmk as Hi. rewrite bool_decide_eq_true_2 by done. cbn [negb].
  eexists. split; [done|]. cbn. unfold kinds, clear_below. cbn. split_and!; [done| | |].
  - rewrite map_lookup_filter, Ei. cbn. rewrite option_guard_True; [cbn; by rewrite Hi|]. by intros [_ []].
  - intros q Hq. rewrite map_lookup_filter. destruct (m !! q) as [j|]; [|done]. cbn. by rewrite option_guard_False by auto.
  - intros q Hq. change (i_kind <$> known a !! q) with (kinds a q). rewrite map_lookup_filter, <- Hm. destruct (m !! q) as [j|]; [|done]. cbn.
    rewrite option_guard_True; [done|]. by intros [].
Qed.

(** ** The key-values of a table *)

Definition kv_shape (kx : list Z * tv) : shape := Sh KeyValue [] [vshape (snd kx); key_shape (fst kx)].

Section Body.
Context (fuel : nat) (err : option TomlScan.ParserError).

Lemma body_reads l rest : not_kv rest -> Forall (fun kx => tv_ok (snd kx)) l -> NoDup (fst <$> l) ->
  forall ts d a c m, map shape_of ts = map kv_shape l -> st d (ts ++ rest) err a c ->
  (length (ts ++ rest) < fuel)%nat -> (forall k, k ∈ fst <$> l -> kinds a (current a ++ [k]) = None) ->
  reads_body NaN ParseFloat pool_Get fuel d m
    (fun m' d' => m' = store l m /\ exists a', st d' rest err a' c /\ current a' = current a /\
       forall q, (forall k, k ∈ fst <$> l -> q <> current a ++ [k]) -> kinds a' q = kinds a q) nothing.
Proof.
  intros Hrest Hok Hnd ts d a c m Hts Hst Hlen Hfresh.
  set (same_as := fun (a2 : seen) (l2 : list (list Z * tv)) => current a2 = current a /\
    (forall q, (forall k, k ∈ fst <$> l -> q <> current a ++ [k]) -> kinds a2 q = kinds a q) /\
    forall k, k ∈ fst <$> l2 -> kinds a2 (current a ++ [k]) = None).
  eapply (reads_body_loop NaN ParseFloat pool_Get fuel
    (fun ts2 a2 m2 => exists l2 kts, ts2 = kts ++ rest /\ map shape_of kts = map kv_shape l2 /\ l2 `suffix_of` l /\
       store l2 m2 = store l m /\ same_as a2 l2) err c); [|by exists l, ts|exact Hst|done].
  intros ts2 a2 m2 (l2 & kts & -> & Hsh & Hsuf & Hstore & Hcur & Hsame & Hfr).
  destruct l2 as [|[k x] l2], kts as [|t kts]; try done; cbn [app].
  - cbn in Hstore. subst m2.
    assert (Hend : forall d, st d rest err a2 c -> store l m = store l m /\ exists a', st d rest err a' c /\
      current a' = current a /\ forall q, (forall k, k ∈ fst <$> l -> q <> current a ++ [k]) -> kinds a' q = kinds a q).
    { intros d' Hd'. split; [done|]. by exists a2. }
    destruct rest as [|t rest]; [exact Hend|]. rewrite bool_decide_eq_false_2 by done. exact Hend.
  - cbn in Hsh. injection Hsh as Ht Hsh. destruct (kv_tree t x k Ht) as (value & Hkv & Hval).
    pose proof Hkv as (Hkd & _). rewrite bool_decide_eq_true_2 by done.
    assert (Hin : (k, x) ∈ l) by (destruct Hsuf as [l1 ->]; apply elem_of_app; right; by left).
    rewrite Forall_forall in Hok. pose proof (Hok _ Hin) as Hx. cbn in Hx.
    destruct (value_checked x Hx value Hval) as [b Hb].
    destruct (check_kv a2 t k value b Hkv Hb) as (a3 & -> & Hc3 & _ & Ho3); [rewrite Hcur; apply Hfr; by left|].
    exists k, [], value, (fun g => g = embed x). split_and!; [done|by apply value_reads|]. intros g ->.
    exists l2, kts. split_and!; [done|done| |done|].
    { destruct Hsuf as [l1 ->]. exists (l1 ++ [(k, x)]). by rewrite <- app_assoc. }
    split_and!.
    + by rewrite Hc3.
    + intros q Hq. rewrite Ho3; [by apply Hsame|]. rewrite Hcur. apply Hq. apply list_elem_of_fmap. by exists (k, x).
    + intros k' Hk'. rewrite Ho3; [apply Hfr; by right|]. rewrite Hcur. intros [= ->]%app_inv_head.
      destruct Hsuf as [l1 ->]. rewrite fmap_app in Hnd. apply NoDup_app in Hnd as (_ & _ & Hnd). cbn in Hnd.
      by apply NoDup_cons in Hnd as [? _].
Qed.
End Body.

(** ** The tables of a document *)

Section Run.
Context (e : TomlMarshal.Encoder) (fuel : nat) (err : option TomlScan.ParserError).
Context (Q : rvalue -> decoder -> Prop) (iface : bool).
#[local] Abbreviation tlines := (tlines e).
#[local] Abbreviation tabular := (tabular e).
#[local] Abbreviation run n root d := (wp (fromParser NaN ParseFloat pool_Get (S := S) fuel n root) d Q nothing).

(** The expressions of the lines. *)
Definition sub_shapes (p : list (list Z)) (ind : nat) (l : list (list Z * tv)) : list shape :=
  l ≫= fun kx => if tabular (snd kx) then omap snd (tlines (snd kx) (p ++ [fst kx]) false ind) else [].

Lemma omap_app {A B} (f : A -> option B) l1 l2 : omap f (l1 ++ l2) = omap f l1 ++ omap f l2.
Proof. induction l1 as [|x l1 IH]; [done|]. cbn. rewrite IH. by destruct (f x). Qed.

Lemma omap_bind {A B C} (f : B -> option C) (g : A -> list B) l : omap f (l ≫= g) = l ≫= fun x => omap f (g x).
Proof. induction l as [|x l IH]; [done|]. rewrite !bind_cons, omap_app. by rewrite IH. Qed.

(** The blank line that comes first is no expression. *)
Lemma omap_tail (l : list line) : match l with [] => True | x :: _ => snd x = None end -> omap snd (tail l) = omap snd l.
Proof. destruct l as [|[t o] l]; [done|]. cbn. by intros ->. Qed.

Lemma kv_line_shapes ind l : omap snd (map (kv_line e ind) l) = map kv_shape l.
Proof. induction l as [|kx l IH]; [done|]. cbn. by rewrite <- IH. Qed.

Lemma tab_shapes l p skip ind : exists ind',
  omap snd (tlines (TTab l) p skip ind) =
  (if skip then [] else match p with [] => [] | _ => [Sh Table [] (map key_shape p)] end) ++
  map kv_shape (kvs_of e l) ++ sub_shapes p ind' l.
Proof.
  exists (if negb skip && TomlMarshal.indentTables e && (0 <? length p)%nat then Datatypes.S ind else ind).
  cbn [TomlDocument.tlines]. set (ind' := if _ && _ then Datatypes.S ind else ind).
  set (sub := l ≫= _). rewrite !omap_app. f_equal; [by destruct skip, p|]. rewrite kv_line_shapes. f_equal.
  assert (Hsub : omap snd sub = sub_shapes p ind' l).
  { unfold sub, sub_shapes. rewrite omap_bind. clear. induction l as [|kx l IH]; [done|].
    rewrite !bind_cons, IH. f_equal. by destruct (tabular (snd kx)). }
  rewrite <- Hsub. destruct (kvs_of e l); [|done]. apply omap_tail. unfold sub. clear.
  induction l as [|kx l IH]; [done|]. rewrite bind_cons. destruct (tabular (snd kx)); [done|exact IH].
Qed.

Lemma arr_shapes l p skip ind : exists ind',
  omap snd (tlines (TArr l) p skip ind) =
  l ≫= fun x => Sh ArrayTable [] (map key_shape p) :: omap snd (tlines x p true ind').
Proof.
  exists (if TomlMarshal.indentTables e then Datatypes.S ind else ind). cbn [TomlDocument.tlines].
  rewrite omap_tail, omap_bind; [done|]. by destruct l.
Qed.

(** What follows the key-values of a table is not a key-value. *)
Definition header_first (shs : list shape) : Prop :=
  match shs with [] => True | Sh k _ _ :: _ => k <> KeyValue end.

Lemma not_kv_app ts rest shs : map shape_of ts = shs -> header_first shs -> not_kv rest -> not_kv (ts ++ rest).
Proof. intros <-. destruct ts as [|[k r d cs] ts]; done. Qed.

Lemma entry_header_first x p ind : tabular x = true -> p <> [] ->
  exists k d cs l, omap snd (tlines x p false ind) = Sh k d cs :: l /\ k <> KeyValue.
Proof.
  intros Ht Hp. destruct x as [| | |l|l]; unfold TomlDocument.tabular in Ht; rewrite ?andb_false_r in Ht; try done.
  - destruct (arr_shapes l p false ind) as [ind' ->]. destruct l as [|x l]; [by rewrite andb_false_r in Ht|].
    rewrite bind_cons. by eexists _, _, _, _.
  - destruct (tab_shapes l p false ind) as [ind' ->]. destruct p; [done|]. by eexists _, _, _, _.
Qed.

Lemma sub_header_first p ind l : header_first (sub_shapes p ind l).
Proof.
  unfold sub_shapes. induction l as [|kx l IH]; [done|]. rewrite bind_cons. destruct (tabular (snd kx)) eqn:Ht; [|exact IH].
  destruct (entry_header_first (snd kx) (p ++ [fst kx]) ind Ht ltac:(by destruct p)) as (k & d & cs & l' & -> & Hk). exact Hk.
Qed.

(** The trees of shapes that are appended. *)
Lemma shapes_app ts s1 s2 : map shape_of ts = s1 ++ s2 ->
  exists t1 t2, ts = t1 ++ t2 /\ map shape_of t1 = s1 /\ map shape_of t2 = s2.
Proof. intros Hm. by apply map_eq_app in Hm. Qed.

(** Where the decoder is: the target holds [mr], in it the table at [p] holds
    [m], and the tables above are known. *)
Definition place (p : list (list Z)) (m : gmap_) (put : gmap_ -> gval) (root : rvalue) (a : seen) : Prop :=
  exists mr, rooted iface root mr /\ focus p (GMap (Some mr)) = Some (m, put) /\ GMap (Some mr) = put m /\ above_ok a p.

(** The target after a change at this place. *)
Definition placed (put : gmap_ -> gval) (m : gmap_) (root : rvalue) : Prop :=
  exists mr, rooted iface root mr /\ GMap (Some mr) = put m.

(** The entry [x] of the table at [p] is read under the key [k]. *)
Definition entry_runs (x : tv) : Prop := forall p k ind m put root ts rest d a c n,
  tabular x = true -> map shape_of ts = omap snd (tlines x (p ++ [k]) false ind) -> not_kv rest ->
  st d (ts ++ rest) err a c -> (length (ts ++ rest) < n)%nat -> (length (ts ++ rest) < fuel)%nat ->
  place p m put root a -> mget k m = None -> (forall q, (p ++ [k]) `prefix_of` q -> kinds a q = None) ->
  (forall n' root' d' a' c', (length rest < n')%nat -> placed put (mset k (embed x) m) root' -> st d' rest err a' c' ->
     (forall q, ~ (p ++ [k]) `prefix_of` q -> kinds a' q = kinds a q) -> run n' root' d') ->
  run n root d.

Definition tabs (l : list (list Z * tv)) : list (list Z * tv) := filter (fun kx => tabular (snd kx) = true) l.

(** The sub-tables of the table at [p] are read. *)
Definition subs_run (l : list (list Z * tv)) : Prop := forall p ind m put root ts rest d a c n,
  map shape_of ts = sub_shapes p ind l -> not_kv rest ->
  st d (ts ++ rest) err a c -> (length (ts ++ rest) < n)%nat -> (length (ts ++ rest) < fuel)%nat ->
  place p m put root a -> NoDup (fst <$> l) ->
  (forall kx, kx ∈ l -> tabular (snd kx) = true ->
     mget (fst kx) m = None /\ forall q, (p ++ [fst kx]) `prefix_of` q -> kinds a q = None) ->
  (forall n' root' d' a' c', (length rest < n')%nat -> placed put (store (tabs l) m) root' -> st d' rest err a' c' ->
     (forall q, (forall kx, kx ∈ l -> ~ (p ++ [fst kx]) `prefix_of` q) -> kinds a' q = kinds a q) -> run n' root' d') ->
  run n root d.

Lemma above_keep a a' p k : above_ok a p -> (forall q, ~ (p ++ [k]) `prefix_of` q -> kinds a' q = kinds a q) -> above_ok a' p.
Proof.
  intros Ha Hk q Hq Hp. rewrite Hk; [by apply Ha|]. intros H1. pose proof (prefix_length _ _ H1) as Hl1.
  pose proof (prefix_length _ _ Hp) as Hl2. rewrite length_app in Hl1. simpl in Hl1. lia.
Qed.

Lemma snoc_prefix (p : list (list Z)) k k' q : (p ++ [k]) `prefix_of` q -> (p ++ [k']) `prefix_of` q -> k = k'.
Proof.
  intros [r1 ->] [r2 E]. rewrite <- !app_assoc in E. apply app_inv_head in E. by injection E as ->.
Qed.

(** After a change, the place is the same. *)
Lemma place_keep p m put root a m' root' a' k : place p m put root a -> placed put m' root' ->
  (forall q, ~ (p ++ [k]) `prefix_of` q -> kinds a' q = kinds a q) ->
  exists put', place p m' put' root' a' /\ forall x, put' x = put x.
Proof.
  intros (mr & _ & Hfo & _ & Ha) (mr' & Hr' & E') Hk. destruct (focus_put p _ _ _ m' Hfo) as (put' & Ef & Hp).
  rewrite <- E' in Ef. exists put'. split; [|done]. exists mr'. split_and!; [done|done|by rewrite Hp|by eapply above_keep].
Qed.

Lemma subs_of_entries l : Forall (fun kx => entry_runs (snd kx)) l -> subs_run l.
Proof.
  induction 1 as [|[k x] l Hx _ IH]; intros p ind m put root ts rest d a c n Hts Hrest Hst Hn Hf Hpl Hnd Hfr Hcont.
  - destruct ts; [|done]. apply (Hcont n root d a c); [done| |done|done].
    destruct Hpl as (mr & Hr & _ & Hp & _). by exists mr.
  - cbn in Hnd. apply NoDup_cons in Hnd as [Hkn Hnd]. unfold sub_shapes in Hts. rewrite bind_cons in Hts. cbn [fst snd] in Hts.
    unfold tabs in Hcont. rewrite filter_cons in Hcont. cbn [snd] in *. destruct (tabular x) eqn:Ht.
    2:{ rewrite decide_False in Hcont by (cbn; congruence).
        eapply (IH p ind m put root ts rest d a c n); [exact Hts|done..| |].
        - intros kx Hin. apply Hfr. by right.
        - intros n' root' d' a' c' Hn' Hp' Hs' Hk'. eapply Hcont; [done|done|done|]. intros q Hq. apply Hk'.
          intros kx Hin. apply Hq. by right. }
    rewrite decide_True in Hcont by done.
    destruct (shapes_app ts _ _ Hts) as (t1 & t2 & -> & H1 & H2). rewrite <- app_assoc in *.
    destruct (Hfr (k, x) ltac:(by left) Ht) as [Hmk Hkk]. cbn [fst] in *.
    eapply (Hx p k ind m put root t1 (t2 ++ rest) d a c n); [done|exact H1| |done|done|done|done|done|done|].
    { eapply not_kv_app; [exact H2|apply sub_header_first|done]. }
    intros n1 root1 d1 a1 c1 Hn1 Hp1 Hs1 Hk1.
    destruct (place_keep p m put root a _ root1 a1 k Hpl Hp1 Hk1) as (put1 & Hpl1 & Hput).
    eapply (IH p ind _ put1 root1 t2 rest d1 a1 c1 n1); [exact H2|done|done|done| |done|done| |].
    { rewrite length_app in Hf. lia. }
    { intros [k' x'] Hin Ht'. destruct (Hfr (k', x') ltac:(by right) Ht') as [Hmk' Hkk']. cbn [fst] in *.
      assert (Hne : k' <> k) by (intros ->; apply Hkn, list_elem_of_fmap; by exists (k, x')).
      split; [by rewrite mget_mset_ne|]. intros q Hq. rewrite Hk1; [by apply Hkk'|]. intros Hq'. by apply Hne, (snoc_prefix p _ _ q). }
    intros n2 root2 d2 a2 c2 Hn2 Hp2 Hs2 Hk2. eapply Hcont; [done| |done|].
    + destruct Hp2 as (mr2 & Hr2 & E2). exists mr2. split; [done|]. rewrite E2, Hput. done.
    + intros q Hq. rewrite Hk2 by (intros kx Hin; apply Hq; by right). apply Hk1. apply (Hq (k, x)). by left.
Qed.

(** *** Tables *)

Lemma header_tree t k p : shape_of t = Sh k [] (map key_shape p) -> k = Table \/ k = ArrayTable ->
  t_kind t = k /\ node_key t = Ret p.
Proof.
  destruct t as [kd r d cs]. cbn [shape_of]. intros [= -> _ Hcs] Hk. split; [done|].
  assert (Hkeys : map (fun t => dbytes (t_data t)) cs = p).
  { clear -Hcs. revert p Hcs. induction cs as [|[kk rr dd cc] cs IH]; intros [|k p] Hcs; try done. cbn in Hcs.
    injection Hcs as -> Hd Hc Hcs. cbn in *. by rewrite Hd, (IH p). }
  destruct Hk as [-> | ->]; cbn; by rewrite Hkeys.
Qed.

(** The entries of a table, key-values first. *)
Lemma split_entries l : kvs_of e l ++ tabs l ≡ₚ l.
Proof.
  unfold kvs_of, tabs. induction l as [|kx l IH]; [done|]. rewrite !filter_cons. repeat case_decide; try congruence.
  - cbn. by f_equiv.
  - rewrite <- Permutation_middle. by f_equiv.
  - destruct (tabular (snd kx)); done.
Qed.

Lemma store_split l : StronglySorted (fun a b : list Z * tv => TomlDocument.key_lt (fst a) (fst b)) l ->
  GMap (Some (store (tabs l) (store (kvs_of e l) []))) = embed (TTab l).
Proof. intros Hs. rewrite <- store_app, (store_all l _ Hs (split_entries l)). done. Qed.

Lemma key_unique (l : list (list Z * tv)) kx ky : NoDup (fst <$> l) -> kx ∈ l -> ky ∈ l -> fst kx = fst ky -> kx = ky.
Proof.
  intros Hnd [i Hi]%list_elem_of_lookup [j Hj]%list_elem_of_lookup E.
  assert (i = j) as ->; [|congruence]. eapply NoDup_lookup; [exact Hnd|..]; rewrite list_lookup_fmap, ?Hi, ?Hj; cbn; by rewrite ?E.
Qed.

(** The body and the sub-tables of a table at [p], after its header. *)
Definition body_post (l : list (list Z * tv)) (p : list (list Z)) (rest : list tree) (a : seen) (c : bool)
    (m' : gmap_) (d' : decoder) : Prop :=
  m' = store (kvs_of e l) [] /\ exists a', st d' rest err a' c /\ current a' = p /\
    forall q, (forall k, k ∈ fst <$> kvs_of e l -> q <> p ++ [k]) -> kinds a' q = kinds a q.

Lemma table_body l p ts rest d a c :
  tv_ok (TTab l) -> not_kv rest -> map shape_of ts = map kv_shape (kvs_of e l) -> st d (ts ++ rest) err a c ->
  (length (ts ++ rest) < fuel)%nat -> current a = p -> (forall q, below p q -> kinds a q = None) ->
  reads_body NaN ParseFloat pool_Get fuel d [] (body_post l p rest a c) nothing.
Proof.
  intros [Hs Hok]%tv_ok_tab Hrest Hts Hst Hf Hcur Hfr.
  assert (Hsub : Forall (fun kx => tv_ok (snd kx)) (kvs_of e l)).
  { apply Forall_forall. intros kx [_ Hx]%list_elem_of_filter. rewrite Forall_forall in Hok. by apply Hok. }
  assert (Hnd : NoDup (fst <$> kvs_of e l)).
  { pose proof (sorted_keys l Hs) as Hd. rewrite <- (split_entries l), fmap_app in Hd. by apply NoDup_app in Hd as (? & _). }
  intros v Hv. eapply wp_mono; [eapply (body_reads fuel err (kvs_of e l) rest Hrest Hsub Hnd ts d a c []); try done| |done].
  - intros k _. apply Hfr. rewrite Hcur. split; [by exists [k]|]. intros E. by apply (app_ne_self p k []).
  - intros r d' (m' & Ho & Em & a' & Hst' & Hc' & Hk'). exists m'. split; [done|]. split; [done|]. exists a'. rewrite <- Hcur.
    by split_and!.
Qed.

(** After the body, the sub-tables. *)
Lemma table_rest l p ind ts rest d a a1 c n m put root :
  tv_ok (TTab l) -> subs_run l -> map shape_of ts = sub_shapes p ind l -> not_kv rest ->
  body_post l p (ts ++ rest) a c m d -> (length (ts ++ rest) < n)%nat -> (length (ts ++ rest) < fuel)%nat ->
  placed put m root -> (exists mr put0, focus p (GMap (Some mr)) = Some (m, put0) /\ rooted iface root mr /\ forall x, put0 x = put x) ->
  above_ok a p -> (forall q, below p q -> kinds a q = None) ->
  (forall q, ~ p `prefix_of` q -> kinds a q = kinds a1 q) ->
  (forall n' root' d' a' c', (length rest < n')%nat ->
     (exists mr, rooted iface root' mr /\ exists m', GMap (Some m') = embed (TTab l) /\ GMap (Some mr) = put m') ->
     st d' rest err a' c' -> (forall q, ~ p `prefix_of` q -> kinds a' q = kinds a1 q) -> kinds a' p = kinds a p -> run n' root' d') ->
  run n root d.
Proof.
  intros [Hs Hok]%tv_ok_tab Hsub Hts Hrest (-> & a' & Hst & Hcur & Hk) Hn Hf Hpl (mr & put0 & Hfo & Hr & Hp0) Ha Hbelow Hout Hcont.
  pose proof (sorted_keys l Hs) as Hnd.
  assert (Hkv_below : forall k q, k ∈ fst <$> kvs_of e l -> q = p ++ [k] -> below p q).
  { intros k q _ ->. split; [by exists [k]|]. intros E. by apply (app_ne_self p k []). }
  assert (Hkeep : forall q, ~ below p q -> kinds a' q = kinds a q).
  { intros q Hq. apply Hk. intros k Hin E. by apply Hq, (Hkv_below k q). }
  destruct Hpl as (mr' & Hr' & Emr).
  assert (Hmr : mr' = mr) by (by eapply rooted_inj). subst mr'.
  eapply (Hsub p ind _ put0 root ts rest d a' c n); [done|done|done|done|done| |done| |].
  - exists mr. split_and!; [done|done|by rewrite Hp0|]. intros q Hq Hqp. destruct (Ha q Hq Hqp) as (kd & Hkd & Hv).
    exists kd. split; [|done]. rewrite Hkeep; [done|]. intros [Hpq Hne]. apply Hne. by apply (anti_symm prefix).
  - intros kx Hin Ht. split.
    + rewrite mget_store.
      * rewrite assoc_none; [done|]. intros (ky & E & Hy)%list_elem_of_fmap. apply list_elem_of_filter in Hy as [Hy1 Hy2].
        assert (kx = ky) as -> by (by apply (key_unique l)). congruence.
      * rewrite <- (split_entries l), fmap_app in Hnd. by apply NoDup_app in Hnd as (? & _).
    + intros q Hq. rewrite Hk.
      * apply Hbelow. destruct Hq as [r ->]. rewrite <- app_assoc. split; [by eexists|]. intros E. by apply (app_ne_self p (fst kx) r).
      * intros k Hin' ->. apply list_elem_of_fmap in Hin' as (ky & -> & Hy). apply list_elem_of_filter in Hy as [Hy1 Hy2].
        destruct Hq as [r E]. rewrite <- app_assoc in E. apply app_inv_head in E. injection E as E _.
        assert (kx = ky) as -> by (by apply (key_unique l)). congruence.
  - intros n2 root2 d2 a2 c2 Hn2 (mr2 & Hr2 & E2) Hs2 Hk2. eapply Hcont; [done| |exact Hs2| |].
    + exists mr2. split; [done|]. eexists. split; [by apply store_split|]. by rewrite E2, Hp0.
    + intros q Hq. rewrite Hk2, Hkeep; [by apply Hout|by intros [? _]|]. intros kx _ [r ->]. apply Hq.
      rewrite <- app_assoc. by eexists.
    + rewrite Hk2, Hkeep; [done|by intros [_ []]|]. intros kx _ Hq. apply prefix_length in Hq. rewrite length_app in Hq. simpl in Hq. lia.
Qed.

(** A table with a header of its own. *)
Lemma focus_child p (g : gval) m put k : focus p g = Some (m, put) -> mget k m = None ->
  exists put', focus (p ++ [k]) g = Some ([], put') /\ forall x, put' x = put (mset k (GMap (Some x)) m).
Proof.
  intros Hf Hk. destruct (focus_app p [k] g m put [] (fun x => GMap (Some (mset k (GMap (Some x)) m))) Hf) as (put' & E & Hp).
  { cbn. by rewrite Hk. }
  exists put'. split; [done|]. intros x. by apply Hp.
Qed.

Lemma entry_tab l : tv_ok (TTab l) -> subs_run l -> entry_runs (TTab l).
Proof.
  intros Hok Hsub p k ind m put root ts rest d a c n Ht Hts Hrest Hst Hn Hf Hpl Hmk Hkk Hcont.
  destruct (tab_shapes l (p ++ [k]) false ind) as [ind' Hsh]. rewrite Hsh in Hts.
  replace (match p ++ [k] with [] => [] | _ => [Sh Table [] (map key_shape (p ++ [k]))] end)
    with [Sh Table [] (map key_shape (p ++ [k]))] in Hts by (by destruct p).
  destruct ts as [|h ts]; [done|]. cbn in Hts. injection Hts as Hh Hts.
  destruct (shapes_app _ _ _ Hts) as (kts & sts & -> & Hkts & Hsts). cbn [app length] in *. rewrite <- app_assoc in *.
  destruct (header_tree h Table (p ++ [k]) Hh) as [Hkind Hkey]; [by left|].
  pose proof Hpl as (mr & Hroot & Hfo & Emr & Ha).
  destruct (check_new a h p k Table Hkind ltac:(by left) Hkey Ha) as (a1 & Ea & Hcur & Hk1 & Ho1); [by apply Hkk; exists []; rewrite app_nil_r|].
  destruct n as [|n]; [simpl in Hn; lia|]. cbn [app length] in *. eapply wp_turn; [exact Hst|]. rewrite Ea, Hkind.
  intros d1 Ho. eapply wp_liftt_key; [exact Hkey|].
  assert (Hne : exists k0 ks, p ++ [k] = k0 :: ks) by (destruct p; by eexists _, _). destruct Hne as (k0 & ks & Ek).
  destruct (focus_child p _ m put k Hfo Hmk) as (put' & Hfo' & Hput'). 
  assert (Hbelow : forall q, below (p ++ [k]) q -> kinds a1 q = None).
  { intros q [Hq Hne]. rewrite Ho1 by congruence. by apply Hkk. }
  destruct Ho as (Hst1 & _). rewrite Ek. eapply wp_mono.
  { eapply root_table; [by eapply rooted_cases|rewrite <- Ek; exact Hfo'|].
    eapply (table_body l (p ++ [k]) kts (sts ++ rest) d1 a1 c); [done| |done|done|lia|done|done].
    eapply not_kv_app; [exact Hsts|apply sub_header_first|done]. }
  2: done.
  intros r d2 (m' & mr' & Hg & Emr' & Hpost). pose proof (gives_rooted iface r root mr mr' Hroot Hg) as Hr'.
  destruct (focus_put _ _ _ _ m' Hfo') as (put0 & Hfo0 & Hp0). rewrite <- Emr' in Hfo0.
  eapply (table_rest l (p ++ [k]) ind' sts rest d2 a1 a c n m' put'); [done|done|done|done|exact Hpost| | | | | |done| |].
  - rewrite !length_app in *. lia.
  - rewrite !length_app in *. lia.
  - by exists mr'.
  - by exists mr', put0.
  - intros q Hq Hqp. destruct (decide (q = p ++ [k])) as [->|Hne]; [by eexists|]. rewrite Ho1 by done. apply Ha; [done|].
    destruct Hqp as [r' E']. destruct r' as [|x r' _] using rev_ind; [rewrite app_nil_r in E'; congruence|].
    rewrite app_assoc in E'. apply app_inj_tail in E' as [-> _]. by eexists.
  - intros q Hq. apply Ho1. intros ->. by apply Hq.
  - intros n' root' d' a' c' Hn' (mr2 & Hr2 & m2 & Em2 & E2) Hst' Hk' _. eapply Hcont; [done| |done|done].
    exists mr2. split; [done|]. by rewrite E2, Hput', <- Em2.
Qed.

(** *** Arrays of tables *)

(** The place of the last element. *)
Lemma focus_last p (g : gval) m put k sofar : focus p g = Some (m, put) -> forall m2 g2,
  g2 = put (mset k (GSlice (sofar ++ [GMap (Some m2)])) m) ->
  exists put', focus (p ++ [k]) g2 = Some (m2, put') /\
    forall x, put' x = put (mset k (GSlice (sofar ++ [GMap (Some x)])) m).
Proof.
  intros Hf m2 g2 ->. destruct (focus_put p g m put (mset k (GSlice (sofar ++ [GMap (Some m2)])) m) Hf) as (put1 & E1 & Hp1).
  set (m1 := mset k (GSlice (sofar ++ [GMap (Some m2)])) m) in *.
  destruct (focus_app p [k] _ _ put1 m2
    (fun x => GMap (Some (mset k (GSlice (removelast (sofar ++ [GMap (Some m2)]) ++ [GMap (Some x)])) m1))) E1) as (put' & E & Hp).
  { cbn [focus]. unfold m1 at 1. rewrite mget_mset_eq. cbn [entry_or_new focus]. rewrite last_snoc. done. }
  exists put'. split; [done|]. intros x. rewrite (Hp x _ eq_refl), Hp1. unfold m1. rewrite mset_mset, removelast_last. done.
Qed.

Definition elem_ok_ (x : tv) : Prop := exists l, x = TTab l /\ tv_ok x /\ subs_run l.

Lemma elems_run ls : Forall elem_ok_ ls -> forall p k ind m put root ts rest d a c n sofar,
  map shape_of ts = (ls ≫= fun x => Sh ArrayTable [] (map key_shape (p ++ [k])) :: omap snd (tlines x (p ++ [k]) true ind)) ->
  not_kv rest -> st d (ts ++ rest) err a c -> (length (ts ++ rest) < n)%nat -> (length (ts ++ rest) < fuel)%nat ->
  place p m put root a -> elements (mget k m) = Some sofar ->
  (sofar = [] /\ forall q, (p ++ [k]) `prefix_of` q -> kinds a q = None) \/ kinds a (p ++ [k]) = Some arrayTableKind ->
  (forall n' root' d' a' c', (length rest < n')%nat ->
     placed put (match ls with [] => m | _ => mset k (GSlice (sofar ++ map embed ls)) m end) root' -> st d' rest err a' c' ->
     (forall q, ~ (p ++ [k]) `prefix_of` q -> kinds a' q = kinds a q) -> run n' root' d') ->
  run n root d.
Proof.
  induction 1 as [|x ls (l & -> & Hok & Hsub) _ IH]; intros p k ind m put root ts rest d a c n sofar Hts Hrest Hst Hn Hf Hpl Hel Hkk Hcont.
  { destruct ts; [|done]. eapply Hcont; [done| |done|done]. destruct Hpl as (mr & Hr & _ & E & _). by exists mr. }
  rewrite bind_cons in Hts. cbn [app] in Hts. destruct (tab_shapes l (p ++ [k]) true ind) as [ind' Hsh]. rewrite Hsh in Hts.
  cbn [app] in Hts. destruct ts as [|h ts]; [done|]. cbn [map] in Hts. injection Hts as Hh Hts.
  destruct (shapes_app _ _ _ Hts) as (ts1 & ts2 & -> & H1 & H2).
  destruct (shapes_app _ _ _ H1) as (kts & sts & -> & Hkts & Hsts). cbn [app] in *. rewrite <- !app_assoc in *.
  destruct (header_tree h ArrayTable (p ++ [k]) Hh) as [Hkind Hkey]; [by right|].
  pose proof Hpl as (mr & Hroot & Hfo & Emr & Ha).
  assert (Hcheck : exists first a1, a_check a h = Ret (first, a1) /\ (first = false \/ sofar = []) /\ current a1 = p ++ [k] /\
    kinds a1 (p ++ [k]) = Some arrayTableKind /\ (forall q, below (p ++ [k]) q -> kinds a1 q = None) /\
    forall q, ~ (p ++ [k]) `prefix_of` q -> kinds a1 q = kinds a q).
  { destruct Hkk as [[-> Hno]|Harr].
    - destruct (check_new a h p k ArrayTable Hkind ltac:(by right) Hkey Ha) as (a1 & Ea & Hcur & Hk1 & Ho1);
        [by apply Hno; exists []; rewrite app_nil_r|].
      exists true, a1. split_and!; [done|by right|done|done| |].
      + intros q [Hq Hne]. rewrite Ho1 by congruence. by apply Hno.
      + intros q Hq. apply Ho1. intros ->. by apply Hq.
    - destruct (check_more a h p k Hkind Hkey Ha Harr) as (a1 & Ea & Hcur & Hk1 & Hb & Ho1).
      exists false, a1. split_and!; try done. by left. }
  destruct Hcheck as (first & a1 & Ea & Hfirst & Hcur & Hk1 & Hbelow & Ho1).
  destruct n as [|n]; [simpl in Hn; lia|]. cbn [length] in *. eapply wp_turn; [exact Hst|]. rewrite Ea, Hkind.
  intros d1 (Hst1 & _). 
  eapply (wp_bind _ _ _ (fun _ d' => st d' (kts ++ sts ++ ts2 ++ rest) err a1 first)).
  { destruct Hst1 as (Ht1 & _ & Hy). by split_and!. }
  intros ? d2 Hst2. eapply wp_liftt_key; [exact Hkey|].
  assert (Hnk : not_kv (sts ++ ts2 ++ rest)).
  { eapply not_kv_app; [exact Hsts|apply sub_header_first|]. eapply not_kv_app; [exact H2| |done]. by destruct ls. }
  eapply wp_mono.
  { eapply (handleArrayTable_focus NaN ParseFloat pool_Get fuel k p root mr m put sofar d2); [by eapply rooted_cases|exact Hfo|exact Hel| |].
    - destruct Hst2 as (_ & Hc & _). rewrite Hc. exact Hfirst.
    - eapply (table_body l (p ++ [k]) kts (sts ++ ts2 ++ rest) d2 a1 first); [done|done|done|done| |done|done].
      rewrite !length_app in *. lia. }
  2: done.
  intros r d3 (m' & mr' & Hg & Emr' & Hpost). pose proof (gives_rooted iface r root mr mr' Hroot Hg) as Hr'.
  destruct (focus_last p _ m put k sofar Hfo m' _ Emr') as (put' & Hfo' & Hput').
  eapply (table_rest l (p ++ [k]) ind' sts (ts2 ++ rest) d3 a1 a first n m' put'); [done|done|done| |exact Hpost| | | | | |done|done|].
  - eapply not_kv_app; [exact H2| |done]. by destruct ls.
  - rewrite !length_app in *. lia.
  - rewrite !length_app in *. lia.
  - exists mr'. split; [done|]. by rewrite Hput'.
  - by exists mr', put'.
  - intros q Hq Hqp. destruct (decide (q = p ++ [k])) as [->|Hne]; [by eexists|]. rewrite Ho1.
    + apply Ha; [done|]. destruct Hqp as [r' E']. destruct r' as [|y r' _] using rev_ind; [rewrite app_nil_r in E'; congruence|].
      rewrite app_assoc in E'. apply app_inj_tail in E' as [-> _]. by eexists.
    + intros Hq'. apply Hne. by apply (anti_symm prefix).
  - intros n' root' d' a' c' Hn' (mr2 & Hr2 & m2 & Em2 & E2) Hst' Hk' Hkp.
    set (m1 := mset k (GSlice (sofar ++ [embed (TTab l)])) m).
    assert (Hp1 : placed put m1 root').
    { exists mr2. split; [done|]. by rewrite E2, Hput', Em2. }
    destruct (place_keep p m put root a m1 root' a' k Hpl Hp1 Hk') as (put1 & Hpl1 & Hput1).
    eapply (IH p k ind m1 put1 root' ts2 rest d' a' c' n' (sofar ++ [embed (TTab l)])); [exact H2|done|done|done| |done| | |].
    + rewrite !length_app in *. lia.
    + unfold m1. rewrite mget_mset_eq. done.
    + right. by rewrite Hkp.
    + intros n2 root2 d4 a2 c2 Hn2 (mr3 & Hr3 & E3) Hs2 Hk2. eapply Hcont; [done| |exact Hs2|].
      * exists mr3. split; [done|]. rewrite E3, Hput1. f_equal. unfold m1. destruct ls; [done|].
        rewrite mset_mset, <- app_assoc. done.
      * intros q Hq. rewrite Hk2 by done. by apply Hk'.
Qed.

Lemma entries_run v : tv_ok v -> entry_runs v /\ forall l, v = TTab l -> subs_run l.
Proof.
  induction v as [s|z|x|l IH|l IH] using tv_ind'; intros Hok.
  1-3: split; [|done]; intros p k ind m put root ts rest d a c n Ht; unfold TomlDocument.tabular in Ht; by rewrite andb_false_r in Ht.
  - split; [|done]. apply tv_ok_arr in Hok.
    intros p k ind m put root ts rest d a c n Ht Hts Hrest Hst Hn Hf Hpl Hmk Hkk Hcont.
    unfold TomlDocument.tabular in Ht. apply andb_true_iff in Ht as [Hti Ht]. destruct l as [|x0 l0]; [done|].
    destruct (arr_shapes (x0 :: l0) (p ++ [k]) false ind) as [ind' Hsh]. rewrite Hsh in Hts.
    eapply (elems_run (x0 :: l0)); [|exact Hts|done..|by rewrite Hmk|by left|].
    + rewrite Forall_forall in IH, Hok |- *. intros y Hy. rewrite forallb_forall in Ht.
      pose proof (Ht y (proj1 (list_elem_of_In _ _) Hy)) as Hyt. destruct y as [| | | |l]; try done.
      exists l. split_and!; [done|by apply Hok|]. destruct (IH _ Hy (Hok _ Hy)) as [_ Hl]. by apply Hl.
    + intros n' root' d' a' c' Hn' Hp'. by apply Hcont.
  - assert (Hs : subs_run l).
    { apply subs_of_entries. apply tv_ok_tab in Hok as [_ Hok]. rewrite Forall_forall in IH, Hok |- *. intros kx Hx.
      destruct (Hok _ Hx). by destruct (IH _ Hx). }
    split; [by apply entry_tab|]. by intros l' [= <-].
Qed.

(** ** The document *)

(** The key-values before the first header are read one by one. *)
Lemma root_kvs l : Forall (fun kx => tv_ok (snd kx)) l -> NoDup (fst <$> l) ->
  forall ts rest root m d a c n, map shape_of ts = map kv_shape l -> st d (ts ++ rest) err a c ->
  (length (ts ++ rest) < n)%nat -> rooted iface root m -> current a = [] ->
  (forall k, k ∈ fst <$> l -> kinds a [k] = None) ->
  (forall n' root' d' a', (length rest < n')%nat -> rooted iface root' (store l m) -> st d' rest err a' c ->
     (forall q, (forall k, k ∈ fst <$> l -> q <> [k]) -> kinds a' q = kinds a q) -> run n' root' d') ->
  run n root d.
Proof.
  induction 1 as [|[k x] l Hx _ IH]; intros Hnd ts rest root m d a c n Hts Hst Hn Hroot Hcur Hfr Hcont.
  { destruct ts; [|done]. by eapply Hcont. }
  destruct ts as [|t ts]; [done|]. cbn in Hts. injection Hts as Ht Hts. cbn in Hnd. apply NoDup_cons in Hnd as [Hkn Hnd].
  destruct (kv_tree t x k Ht) as (value & Hkv & Hval). cbn [snd] in Hx. destruct (value_checked x Hx value Hval) as [b Hb].
  destruct (check_kv a t k value b Hkv Hb) as (a1 & Ea & Hc1 & _ & Ho1); [rewrite Hcur; apply Hfr; by left|].
  destruct n as [|n]; [simpl in Hn; lia|]. cbn [app length] in *. eapply wp_turn; [exact Hst|].
  pose proof Hkv as (Hkind & Hkey & vs & Hvs). rewrite Ea, Hkind. intros d1 (Hst1 & _).
  eapply wp_mono; [eapply wp_handleKeyValue; [exact Hkey|exact Hvs|by apply (value_reads x Hx)|by eapply rooted_cases]| |done].
  intros r d2 (-> & g & -> & Hg). cbn [kv_set] in Hg.
  eapply (IH Hnd ts rest _ (mset k (embed x) m) d1 a1 c n); [done|done|lia|by eapply gives_rooted|by rewrite Hc1| |].
  - intros k' Hk'. rewrite Ho1; [apply Hfr; by right|]. rewrite Hcur. intros [= ->]. done.
  - intros n' root' d' a' Hn' Hr' Hs' Hk'. eapply Hcont; [done|exact Hr'|exact Hs'|]. intros q Hq. rewrite Hk'.
    + apply Ho1. rewrite Hcur. apply Hq. by left.
    + intros k' Hk2. apply Hq. by right.
Qed.

Lemma document_run l ts root d n : tv_ok (TTab l) -> err = None ->
  map shape_of ts = omap snd (tlines (TTab l) [] false 0) -> st d ts err (Sn ∅ []) false ->
  (length ts < n)%nat -> (length ts < fuel)%nat -> rooted iface root [] ->
  (forall root' d', (exists m, rooted iface root' m /\ GMap (Some m) = embed (TTab l)) -> Q root' d') -> run n root d.
Proof.
  intros Hok Herr Hts Hst Hn Hf Hroot HQ. destruct (entries_run (TTab l) Hok) as [_ Hsub]. specialize (Hsub l eq_refl).
  pose proof Hok as [Hs Hall]%tv_ok_tab. pose proof (sorted_keys l Hs) as Hnd.
  destruct (tab_shapes l [] false 0) as [ind Hsh]. rewrite Hsh in Hts. cbn [app] in Hts.
  destruct (shapes_app _ _ _ Hts) as (kts & sts & -> & Hkts & Hsts).
  assert (Hkvs : Forall (fun kx => tv_ok (snd kx)) (kvs_of e l)).
  { apply Forall_forall. intros kx [_ Hx]%list_elem_of_filter. rewrite Forall_forall in Hall. by apply Hall. }
  assert (Hnd1 : NoDup (fst <$> kvs_of e l)).
  { pose proof Hnd as Hd. rewrite <- (split_entries l), fmap_app in Hd. by apply NoDup_app in Hd as (? & _). }
  eapply (root_kvs (kvs_of e l) Hkvs Hnd1 kts sts root [] d (Sn ∅ []) false n); [done|done|done|done|done|done|].
  intros n1 root1 d1 a1 Hn1 Hr1 Hs1 Hk1.
  eapply (Hsub [] ind (store (kvs_of e l) []) (fun x => GMap (Some x)) root1 sts [] d1 a1 false n1); try done.
  - by rewrite app_nil_r.
  - by rewrite app_nil_r.
  - rewrite app_nil_r. rewrite length_app in Hf. lia.
  - exists (store (kvs_of e l) []). split_and!; [done|done|done|]. intros q Hq [r E]. by destruct q.
  - intros kx Hin Ht.
    assert (Hnk : fst kx ∉ fst <$> kvs_of e l).
    { intros (ky & E & Hy)%list_elem_of_fmap. apply list_elem_of_filter in Hy as [Hy1 Hy2].
      assert (kx = ky) as -> by (by apply (key_unique l)). congruence. }
    split.
    + rewrite mget_store, assoc_none by done. done.
    + intros q [r ->]. rewrite Hk1; [done|]. intros k Hk E. cbn in E. injection E as <- _. done.
  - intros n2 root2 d2 a2 c2 Hn2 (mr & Hr2 & E2) Hs2 _. destruct n2 as [|n2]; [lia|].
    eapply wp_end; [exact Hs2|]. rewrite Herr. intros d3. apply HQ. exists mr. split; [done|]. rewrite E2. by apply store_split.
Qed.
End Run.
End Inverse.

(** ** The composition *)

Lemma shapes_length (ls : list line) : (length (omap snd ls) <= length ls)%nat.
Proof. induction ls as [|[t [o|]] ls IH]; cbn; lia. Qed.

(** C2: what the encoder writes, the decoder reads back: for generic data (nested
    tables, arrays and arrays of tables of UTF-8 strings, 64-bit integers and
    booleans), with any settings of the encoder whose indentation is made of
    spaces and tabs, [Encode] returns a document, and [Unmarshal] of this document
    into a new [interface{}] returns the same data; scanner, parser, key tracker
    and decoder all accept it. *)
Theorem Unmarshal_Marshal `{TomlMarshal.GoFloat} `{TomlMarshal.GoUnicode} {typ}
    (Zero : typ -> TomlMarshal.value (typ := typ)) (e : TomlMarshal.Encoder)
    (NaN : TomlMarshal.float64) (pool_Get : tree -> SeenTracker) (l : list (list Z * tv)) (n : nat) :
  tv_ok (TTab l) -> Forall (fun c => TomlScan.isWhitespace c = true) (TomlMarshal.indentSymbol e) ->
  (depth (TTab l) <= n)%nat ->
  exists doc, TomlMarshal.Encode Zero e n (fun _ => true) (Some (inj (TTab l))) = Ret doc /\
    Unmarshal NaN TomlMarshal.ParseFloat64 pool_Get doc (RInterface GNil) = Ret (RInterface (embed (TTab l))).
Proof.
  intros Hok Hind Hn. set (ls := tlines e (TTab l) [] false 0). exists (doc_text ls).
  split; [by rewrite (Encode_lines Zero e l Hok n Hn)|].
  destruct (document_parses e false l Hok Hind) as (ts & Hp & Hsh).
  unfold Unmarshal, FromParser.
  pose proof (document_run NaN TomlMarshal.ParseFloat64 pool_Get e (Datatypes.S (length (doc_text ls))) None
    (fun root _ => exists m, rooted true root m /\ GMap (Some m) = embed (TTab l)) true l ts (RInterface (GMap (Some [])))
    (Dec (TomlParser.Parser_Reset (TomlParser.Prs nil_slice (Bld [] 0) 0 nil_slice None false false) (doc (doc_text ls)))
       false false (Seen [] 0)) (Datatypes.S (length (doc_text ls))) Hok eq_refl Hsh) as Hrun.
  assert (Hlt : (length ts < Datatypes.S (length (doc_text ls)))%nat).
  { apply (f_equal length) in Hsh. rewrite length_map in Hsh. pose proof (shapes_length ls). pose proof (doc_text_length ls).
    unfold ls in *. lia. }
  assert (Hd : st (Dec (TomlParser.Parser_Reset (TomlParser.Prs nil_slice (Bld [] 0) 0 nil_slice None false false) (doc (doc_text ls)))
       false false (Seen [] 0)) ts None (Sn ∅ []) false).
  { split_and!; [by left|done|]. eexists. exact Hp. }
  specialize (Hrun Hd Hlt Hlt eq_refl ltac:(by intros)). unfold wp in Hrun.
  destruct (fromParser _ _ _ _ _ _ _) as [[r d']|er| |]; try done. by destruct Hrun as (m & -> & ->).
Qed.

(** A table with a key that needs quotes, an array, a sub-table and an array of
    tables. *)
Definition sample : list (list Z * tv) :=
  [(bs "a key", TStr (Utf8.text [34; 8364; 10])); (bs "list", TArr [TInt (-7); TBool true]);
   (bs "sub", TTab [(bs "x", TTab []); (bs "y", TInt 1)]);
   (bs "tabs", TArr [TTab [(bs "n", TInt 0)]; TTab []])].

Lemma ascii_utf8 s : forallb (fun c => (0 <=? c) && (c <? 128)) s = true -> utf8 s.
Proof.
  intros Hs. exists s. rewrite forallb_forall in Hs. setoid_rewrite <- list_elem_of_In in Hs. setoid_rewrite andb_true_iff in Hs.
  split.
  - apply Forall_forall. intros c Hc. specialize (Hs c Hc). unfold Utf8.scalar. lia.
  - induction s as [|c s IH]; [done|]. unfold Utf8.text in *.
    cbn. rewrite Utf8.utf8_encode_ascii by (specialize (Hs c ltac:(by left)); lia).
    cbn. f_equal. apply IH. intros x Hx. apply Hs. by right.
Qed.

Lemma sample_ok : tv_ok (TTab sample).
Proof.
  assert (Hs : forall (k1 k2 : list Z) (x1 x2 : tv) l, bool_decide (bytes_le k1 k2 = true /\ k1 <> k2) = true ->
    Forall (fun b => key_lt (fst (k1, x1)) (fst b)) l -> Forall (fun b => key_lt (fst (k1, x1)) (fst b)) ((k2, x2) :: l)).
  { intros ????? Hb%bool_decide_eq_true Hl. by constructor. }
  assert (Hu : utf8 (Utf8.text [34; 8364; 10])).
  { eexists. split; [|done]. repeat (constructor; [unfold Utf8.scalar; lia|]). constructor. }
  cbn [sample tv_ok foldr fst snd].
  repeat match goal with
  | |- _ /\ _ => split
  | |- StronglySorted _ _ => constructor
  | |- Forall _ (_ :: _) => apply Hs; [by vm_compute|]
  | |- Forall _ [] => constructor
  | |- int64_ok _ => unfold int64_ok; lia
  | |- utf8 (bs _) => apply ascii_utf8; by vm_compute
  | |- True => done
  end; done.
Qed.

#[local] Existing Instance TomlMarshal.Z_float.
#[local] Existing Instance TomlMarshal.ascii_unicode.

Lemma Unmarshal_Marshal_witness :
  exists doc, TomlMarshal.Encode TomlMarshal.sample_zero TomlMarshal.NewEncoder 9 (fun _ => true) (Some (inj (TTab sample))) = Ret doc /\
    Unmarshal (float64 := Z) 0 TomlMarshal.ParseFloat64 (fun _ => Seen [] 0) doc (RInterface GNil) = Ret (RInterface (embed (TTab sample))).
Proof.
  apply (Unmarshal_Marshal TomlMarshal.sample_zero TomlMarshal.NewEncoder 0 (fun _ => Seen [] 0) sample 9).
  - exact sample_ok.
  - vm_compute. repeat constructor.
  - vm_compute. repeat constructor.
Defined.
End TomlInverse.
