(* ===== verification/TomlTargets.v ===== *)
(** * Decoding scalars into typed Go values ([src/utoml/unmarshaler.go])

    [TomlUnmarshal] decodes into interfaces. Here a scalar of a document is
    decoded into a variable of any Go type that is not a pointer: the integer
    types with their widths, floats, strings, booleans, interfaces, the date
    types, and types with an [UnmarshalText] method. The functions are those of
    the decoder, case by case, with the assignments that [reflect] checks: a
    value whose type does not fit the variable makes [Set] panic. *)
From stdpp Require Import base numbers list strings.
From S2P Require Import Prelude Strconv TomlScan TomlDecode TomlTime TomlAst TomlParser TomlTracker TomlUnmarshal.
#[local] Open Scope Z_scope.

Module TomlTargets.
Import Strconv TomlScan TomlAst TomlUnmarshal.

(** ** Types *)

(** [reflect.Kind]; slices, maps and the other kinds are [KOther]. *)
Inductive rkind :=
| KBool
| KInt | KInt8 | KInt16 | KInt32 | KInt64
| KUint | KUint8 | KUint16 | KUint32 | KUint64
| KFloat32 | KFloat64
| KString | KInterface | KStruct | KOther.

#[export] Instance rkind_eq_dec : EqDecision rkind.
Proof. solve_decision. Defined.

(** A type with a name; types are identical when they have the same one. *)
Record rtype := Ty { tname : string; kindof : rkind }.

#[export] Instance rtype_eq_dec : EqDecision rtype.
Proof. solve_decision. Defined.

Definition boolType := Ty "bool" KBool.
Definition intType := Ty "int" KInt.
Definition int8Type := Ty "int8" KInt8.
Definition int16Type := Ty "int16" KInt16.
Definition int32Type := Ty "int32" KInt32.
Definition int64Type := Ty "int64" KInt64.
Definition uintType := Ty "uint" KUint.
Definition uint8Type := Ty "uint8" KUint8.
Definition uint16Type := Ty "uint16" KUint16.
Definition uint32Type := Ty "uint32" KUint32.
Definition uint64Type := Ty "uint64" KUint64.
Definition float64Type := Ty "float64" KFloat64.
Definition stringType := Ty "string" KString.
Definition timeType := Ty "time.Time" KStruct.
Definition timeDurationType := Ty "time.Duration" KInt64.
Definition localDateType := Ty "utoml.LocalDate" KStruct.
Definition localTimeType := Ty "utoml.LocalTime" KStruct.
Definition localDateTimeType := Ty "utoml.LocalDateTime" KStruct.

Definition t_raw (t : tree) : Range := let 'T _ r _ _ := t in r.

Section Targets.
(** Floats: [math.NaN()], [strconv.ParseFloat(s, 64)], the test
    [f > math.MaxFloat32] and the conversion to [float32] and back. *)
Context {float64 : Type} (NaN : float64) (ParseFloat : list Z -> option float64).
Context (above_MaxFloat32 : float64 -> bool) (float32 : float64 -> float64).
(** [time.ParseDuration]; [time.Date] in [time.Local], which is the machine's. *)
Context (ParseDuration : list Z -> option Z) (Date_Local : TomlTime.LocalDateTime -> TomlTime.Time).
(** The width of [uint]: 32 or 64. *)
Context (uint_bits : Z).
(** Whether a type has the methods of an interface type. *)
Context (implements : rtype -> rtype -> bool).
(** For a type whose pointers have [UnmarshalText]: whether it accepts a text. *)
Context (UnmarshalText : rtype -> option (list Z -> bool)).

(** ** Values *)

(** A Go value with its type; [VText t s] is what [UnmarshalText] of [t] makes
    of [s]. *)
Inductive gvalue :=
| VInt (t : rtype) (z : Z)
| VFloat (t : rtype) (f : float64)
| VBool (t : rtype) (b : bool)
| VString (t : rtype) (s : list Z)
| VTime (x : TomlTime.Time)
| VLocalDate (x : TomlTime.LocalDate)
| VLocalTime (x : TomlTime.LocalTime)
| VLocalDateTime (x : TomlTime.LocalDateTime)
| VText (t : rtype) (s : list Z).

Definition type_of (v : gvalue) : rtype :=
  match v with
  | VInt t _ | VFloat t _ | VBool t _ | VString t _ | VText t _ => t
  | VTime _ => timeType
  | VLocalDate _ => localDateType
  | VLocalTime _ => localTimeType
  | VLocalDateTime _ => localDateTimeType
  end.

(** The integers of a kind. *)
Definition range_of (k : rkind) : option (Z * Z) :=
  match k with
  | KInt8 => Some (- 2 ^ 7, 2 ^ 7 - 1)
  | KInt16 => Some (- 2 ^ 15, 2 ^ 15 - 1)
  | KInt32 => Some (- 2 ^ 31, 2 ^ 31 - 1)
  | KInt64 => Some (- 2 ^ 63, 2 ^ 63 - 1)
  | KInt => Some (- 2 ^ (uint_bits - 1), 2 ^ (uint_bits - 1) - 1)
  | KUint8 => Some (0, 2 ^ 8 - 1)
  | KUint16 => Some (0, 2 ^ 16 - 1)
  | KUint32 => Some (0, 2 ^ 32 - 1)
  | KUint64 => Some (0, 2 ^ 64 - 1)
  | KUint => Some (0, 2 ^ uint_bits - 1)
  | _ => None
  end.

(** A conversion to an integer kind keeps the low bits. *)
Definition wrap (k : rkind) (z : Z) : Z :=
  match range_of k with
  | Some (lo, hi) => (z - lo) `mod` (hi - lo + 1) + lo
  | None => z
  end.

(** [V.AssignableTo(T)], for types with names. *)
Definition AssignableTo (V T : rtype) : bool :=
  bool_decide (V = T) || (bool_decide (kindof T = KInterface) && implements V T).

Inductive TargetError :=
| EParse (e : ParserError)
| ENumber (negative : bool) (i : Z) (into : string)
| EMismatch (toml : string) (raw : Range) (t : rtype)
| EFloat32 (highlight : data) (f : float64)
| EAssign (highlight : data) (what : string) (k : rkind)
| EDuration
| EText (raw : Range).

Abbreviation M := (go TargetError).

Definition lift {A} (m : go ParserError A) : M A :=
  match m with Ret a => Ret a | Fail e => Fail (EParse e) | Panic => Panic | OutOfFuel => OutOfFuel end.

(** [v.Set(x)] on a variable of type [T]. *)
Definition Set_ (T : rtype) (x : gvalue) : M gvalue := if AssignableTo (type_of x) T then Ret x else Panic.

(** [r.Convert(T)] for an integer [r]: to an integer type, or to an interface
    type, which [r] must implement. *)
Definition Convert (T : rtype) (i : Z) (t : rtype) : M gvalue :=
  match range_of (kindof T) with
  | Some _ => Ret (VInt T (wrap (kindof T) i))
  | None => if AssignableTo t T then Ret (VInt t i) else Panic
  end.

(** ** Scalars *)

Definition maxInt : Z := 2 ^ (uint_bits - 1) - 1.
Definition minInt : Z := - maxInt - 1.
Definition maxUint : Z :=
  let m := 2 ^ uint_bits - 1 in if m <? 2 ^ 63 - 1 then m else 2 ^ 63 - 1.

Definition unmarshalFloat (value : tree) (T : rtype) : M gvalue :=
  f ← lift (TomlDecode.parseFloat NaN ParseFloat (data_slice (t_data value)));
  match kindof T with
  | KFloat64 => mret (VFloat T f)
  | KFloat32 => if above_MaxFloat32 f then Fail (EFloat32 (t_data value) f) else mret (VFloat T (float32 f))
  | KInterface => Set_ T (VFloat float64Type f)
  | k => Fail (EAssign (t_data value) "float" k)
  end.

(** The end of [unmarshalInteger], with [r] of type [t]. *)
Definition store_integer (T t : rtype) (r : Z) : M gvalue :=
  r ← (if negb (AssignableTo t T) then Convert T r t else mret (VInt t r));
  Set_ T r.

Definition unmarshalInteger (value : tree) (T : rtype) : M gvalue :=
  let kind := kindof T in
  if bool_decide (kind = KFloat32) || bool_decide (kind = KFloat64) then unmarshalFloat value T
  else
    i ← lift (TomlDecode.parseInteger (data_slice (t_data value)));
    match kind with
    | KInt64 => mret (VInt T i)
    | KInt32 => if (i <? - 2 ^ 31) || (2 ^ 31 - 1 <? i) then Fail (ENumber false i "int32")
                else store_integer T int32Type (wrap KInt32 i)
    | KInt16 => if (i <? - 2 ^ 15) || (2 ^ 15 - 1 <? i) then Fail (ENumber false i "int16")
                else store_integer T int16Type (wrap KInt16 i)
    | KInt8 => if (i <? - 2 ^ 7) || (2 ^ 7 - 1 <? i) then Fail (ENumber false i "int8")
               else store_integer T int8Type (wrap KInt8 i)
    | KInt => if (i <? minInt) || (maxInt <? i) then Fail (ENumber false i "int")
              else store_integer T intType (wrap KInt i)
    | KUint64 => if i <? 0 then Fail (ENumber true i "uint64")
                 else store_integer T uint64Type (wrap KUint64 i)
    | KUint32 => if (i <? 0) || (2 ^ 32 - 1 <? i) then Fail (ENumber true i "uint32")
                 else store_integer T uint32Type (wrap KUint32 i)
    | KUint16 => if (i <? 0) || (2 ^ 16 - 1 <? i) then Fail (ENumber true i "uint16")
                 else store_integer T uint16Type (wrap KUint16 i)
    | KUint8 => if (i <? 0) || (2 ^ 8 - 1 <? i) then Fail (ENumber true i "uint8")
                else store_integer T uint8Type (wrap KUint8 i)
    | KUint => if (i <? 0) || (maxUint <? i) then Fail (ENumber true i "uint")
               else store_integer T uintType (wrap KUint i)
    | KInterface => store_integer T int64Type i
    | _ => Fail (EMismatch "integer" (t_raw value) T)
    end.

Definition unmarshalString (value : tree) (T : rtype) : M gvalue :=
  let s := dbytes (t_data value) in
  match kindof T with
  | KString => mret (VString T s)
  | KInterface => Set_ T (VString stringType s)
  | KInt64 =>
      match ParseDuration s with
      | None => Fail EDuration
      | Some d => Set_ T (VInt timeDurationType d)
      end
  | _ => Fail (EMismatch "string" (t_raw value) T)
  end.

Definition unmarshalBool (value : tree) (T : rtype) : M gvalue :=
  c ← lift (s_at (data_slice (t_data value)) 0);
  let b := c =? 116 in
  match kindof T with
  | KBool => mret (VBool T b)
  | KInterface => Set_ T (VBool boolType b)
  | k => Fail (EAssign (t_data value) "boolean" k)
  end.

Definition unmarshalDateTime (value : tree) (T : rtype) : M gvalue :=
  dt ← lift (TomlTime.parseDateTime (data_slice (t_data value)));
  Set_ T (VTime dt).

Definition unmarshalLocalDate (value : tree) (T : rtype) : M gvalue :=
  ld ← lift (TomlTime.parseLocalDate (data_slice (t_data value)));
  if bool_decide (T = timeType) then Set_ T (VTime (Date_Local (TomlTime.LDateTime ld (TomlTime.LTime 0 0 0 0 0))))
  else Set_ T (VLocalDate ld).

Definition unmarshalLocalTime (value : tree) (T : rtype) : M gvalue :=
  r ← lift (TomlTime.parseLocalTime (data_slice (t_data value)));
  let '(lt, rest) := (r : TomlTime.LocalTime * slice) in
  if (0 <? slen rest)%nat then Fail (EParse (NewParserError rest "extra characters at the end of a local time" []))
  else Set_ T (VLocalTime lt).

Definition unmarshalLocalDateTime (value : tree) (T : rtype) : M gvalue :=
  r ← lift (TomlTime.parseLocalDateTime (data_slice (t_data value)));
  let '(ldt, rest) := (r : TomlTime.LocalDateTime * slice) in
  if (0 <? slen rest)%nat then Fail (EParse (NewParserError rest "extra characters at the end of a local date time" []))
  else if bool_decide (T = timeType) then Set_ T (VTime (Date_Local ldt))
  else Set_ T (VLocalDateTime ldt).

(** [tryTextUnmarshaler], on a variable, which is addressable: the value when it
    was decoded. *)
Definition tryTextUnmarshaler (node : tree) (T : rtype) : M (option gvalue) :=
  if bool_decide (T = timeType) then mret None
  else
    match UnmarshalText T with
    | Some f =>
        let s := dbytes (t_data node) in
        if f s then mret (Some (VText T s)) else Fail (EText (t_raw node))
    | None => mret None
    end.

(** [handleValue], for scalars and a decoder whose [unmarshalerInterface] is off,
    as [Unmarshal] and [NewDecoder] make it. *)
Definition handleScalar (value : tree) (T : rtype) : M gvalue :=
  ok ← tryTextUnmarshaler value T;
  match ok with
  | Some x => mret x
  | None =>
      match t_kind value with
      | String_ => unmarshalString value T
      | Integer => unmarshalInteger value T
      | Float => unmarshalFloat value T
      | Bool => unmarshalBool value T
      | DateTime => unmarshalDateTime value T
      | LocalDate => unmarshalLocalDate value T
      | LocalTime => unmarshalLocalTime value T
      | LocalDateTime => unmarshalLocalDateTime value T
      | _ => Panic
      end
  end.

(** * Correctness *)

Definition in_range (k : rkind) (i : Z) : Prop :=
  match range_of k with Some (lo, hi) => lo <= i <= hi | None => False end.

#[local] Instance in_range_dec k i : Decision (in_range k i).
Proof. unfold in_range. destruct (range_of k) as [[lo hi]|]; apply _. Defined.

(** A value that a variable of type [T] can hold: of this type, or of a type with
    the methods of the interface type [T]; integers are in the range of their
    type. *)
Definition has_type (T : rtype) (v : gvalue) : Prop :=
  AssignableTo (type_of v) T = true /\
  match v with VInt t z => in_range (kindof t) z | _ => True end.

(** [uint] has 32 or 64 bits. *)
Definition go_platform : Prop := uint_bits = 32 \/ uint_bits = 64.

Lemma AssignableTo_refl T : AssignableTo T T = true.
Proof. unfold AssignableTo. by rewrite bool_decide_true. Qed.

Lemma wrap_id k i : in_range k i -> wrap k i = i.
Proof.
  unfold in_range, wrap. destruct (range_of k) as [[lo hi]|]; [|done]. intros Hi. rewrite Z.mod_small by lia. lia.
Qed.

Lemma Set_typed T x : spec (Set_ T x) (fun y => y = x /\ AssignableTo (type_of x) T = true) (fun _ => False) \/ Set_ T x = Panic.
Proof. unfold Set_. destruct (AssignableTo _ _) eqn:E; [by left|by right]. Qed.

(** An integer in range is stored as it is; the conversion to the type of the
    variable loses nothing. *)
Lemma store_integer_eq T t i : kindof T = kindof t -> in_range (kindof t) i ->
  store_integer T t i = Ret (VInt (if AssignableTo t T then t else T) i).
Proof.
  intros Hk Hi. unfold store_integer, Convert, Set_. destruct (AssignableTo t T) eqn:E; cbn [negb].
  - unfold mret, go_mret. cbn [mbind go_mbind go_bind type_of]. by rewrite E.
  - rewrite Hk. unfold in_range in Hi. destruct (range_of (kindof t)) as [[lo hi]|] eqn:Er; [|done].
    cbn [mbind go_mbind go_bind type_of]. rewrite AssignableTo_refl. rewrite <- Hk, wrap_id; [done|].
    unfold in_range. by rewrite Hk, Er.
Qed.

(** For a variable of an integer kind, which is no interface, the type is the
    variable's. *)
Lemma assignable_basic V T : kindof T <> KInterface -> AssignableTo V T = true -> V = T.
Proof.
  intros Hk. unfold AssignableTo. rewrite (bool_decide_false (kindof T = KInterface)) by done.
  rewrite orb_false_r. by intros ->%bool_decide_eq_true.
Qed.

Lemma store_integer_typed T t i : kindof T = kindof t -> in_range (kindof t) i -> kindof T <> KInterface ->
  store_integer T t i = Ret (VInt T i).
Proof.
  intros Hk Hi Hn. rewrite store_integer_eq by done. destruct (AssignableTo t T) eqn:E; [|done].
  by apply assignable_basic in E as ->.
Qed.

(** What the errors say of a kind. *)
Definition kind_error (k : rkind) (i : Z) : TargetError :=
  match k with
  | KInt => ENumber false i "int"
  | KInt8 => ENumber false i "int8"
  | KInt16 => ENumber false i "int16"
  | KInt32 => ENumber false i "int32"
  | KUint => ENumber true i "uint"
  | KUint8 => ENumber true i "uint8"
  | KUint16 => ENumber true i "uint16"
  | KUint32 => ENumber true i "uint32"
  | _ => ENumber true i "uint64"
  end.

(** One case of the switch: a test for the range, then the assignment. *)
Lemma integer_case (out : bool) T t i e : kindof T = kindof t -> kindof T <> KInterface ->
  (out = true <-> ~ in_range (kindof T) i) ->
  (if out then Fail e else store_integer T t (wrap (kindof T) i)) = Ret (VInt T i) /\ in_range (kindof T) i \/
  (if out then Fail e else store_integer T t (wrap (kindof T) i)) = Fail e /\ ~ in_range (kindof T) i.
Proof.
  intros Hk Hn Hout. destruct out; [right; split; [done|by apply Hout]|]. left.
  assert (Hi : in_range (kindof T) i).
  { destruct (decide (in_range (kindof T) i)) as [Hd|Hd]; [done|]. apply Hout in Hd. done. }
  split; [|done]. rewrite wrap_id by done. apply store_integer_typed; [done|by rewrite <- Hk|done].
Qed.

Lemma unmarshalInteger_int value T i : go_platform -> is_Some (range_of (kindof T)) -> int64_ok i ->
  TomlDecode.parseInteger (data_slice (t_data value)) = Ret i ->
  unmarshalInteger value T = Ret (VInt T i) /\ in_range (kindof T) i \/
  unmarshalInteger value T = Fail (kind_error (kindof T) i) /\ ~ in_range (kindof T) i.
Proof.
  intros Hp [rg Hr] Hi Hparse. unfold unmarshalInteger. rewrite Hparse.
  destruct T as [nm k]. cbn [kindof] in *. destruct k; try done; cbn [lift mbind go_mbind go_bind bool_decide orb kind_error].
  all: try (eapply (integer_case _ (Ty nm _) (Ty _ _)); [done|done|]; cbn [kindof]).
  5:{ left. split; [done|]. unfold in_range, range_of. unfold int64_ok, int64_min, int64_max in Hi. lia. }
  all: unfold in_range, range_of, minInt, maxInt, maxUint; unfold int64_ok, int64_min, int64_max in Hi; destruct Hp as [E|E]; rewrite ?E; try lia; case_match; lia.
Qed.

(** ** Which assignments fail *)

(** The type of the value that is assigned to a variable of type [T]. *)
Definition assigned (k : Kind) (T : rtype) : option rtype :=
  match k, kindof T with
  | String_, KInterface => Some stringType
  | String_, KInt64 => Some timeDurationType
  | Integer, KInterface => Some int64Type
  | Float, KInterface => Some float64Type
  | Bool, KInterface => Some boolType
  | DateTime, _ => Some timeType
  | LocalDate, _ => Some (if bool_decide (T = timeType) then timeType else localDateType)
  | LocalTime, _ => Some localTimeType
  | LocalDateTime, _ => Some (if bool_decide (T = timeType) then timeType else localDateTimeType)
  | _, _ => None
  end.

(** The text of the scalar can be read. *)
Definition reads (value : tree) (T : rtype) : Prop :=
  let b := data_slice (t_data value) in
  match t_kind value with
  | String_ => kindof T = KInt64 -> is_Some (ParseDuration (dbytes (t_data value)))
  | Integer => exists i, TomlDecode.parseInteger b = Ret i
  | Float => exists f, TomlDecode.parseFloat NaN ParseFloat b = Ret f
  | DateTime => exists t, TomlTime.parseDateTime b = Ret t
  | LocalDate => exists d, TomlTime.parseLocalDate b = Ret d
  | LocalTime => exists t r, TomlTime.parseLocalTime b = Ret (t, r) /\ dat r = []
  | LocalDateTime => exists t r, TomlTime.parseLocalDateTime b = Ret (t, r) /\ dat r = []
  | _ => True
  end.

(** The scalar can be read, and then the assignment panics. *)
Definition misassigned (value : tree) (T : rtype) : Prop :=
  reads value T /\ exists V, assigned (t_kind value) T = Some V /\ AssignableTo V T = false.

(** A sign without digits, which the parser passes as an integer, read as a
    float. *)
Definition lone_sign (value : tree) (T : rtype) : Prop :=
  t_kind value = Integer /\ (kindof T = KFloat32 \/ kindof T = KFloat64) /\
  (dbytes (t_data value) = [43] \/ dbytes (t_data value) = [45]).

Definition decoded (value : tree) (T : rtype) (m : M gvalue) : Prop :=
  m = Panic /\ (misassigned value T \/ lone_sign value T) \/
  spec m (has_type T) (fun _ => True) /\ ~ (misassigned value T \/ lone_sign value T).

Lemma decoded_set value T x : reads value T -> assigned (t_kind value) T = Some (type_of x) ->
  match x with VInt t z => in_range (kindof t) z | _ => True end -> decoded value T (Set_ T x).
Proof.
  intros Hr Ha Hx. unfold decoded, Set_, misassigned. rewrite Ha. destruct (AssignableTo (type_of x) T) eqn:E.
  - right. split; [by split|]. intros [(_ & V & [= <-] & E')|(Hk & Hf & _)]; [congruence|].
    rewrite Hk in Ha. cbn in Ha. by destruct Hf as [Hf|Hf]; rewrite Hf in Ha.
  - left. split; [done|]. eauto.
Qed.

Lemma decoded_keep value T m : assigned (t_kind value) T = None \/ ~ reads value T -> ~ lone_sign value T ->
  spec m (has_type T) (fun _ => True) -> decoded value T m.
Proof. intros Ha Hl Hm. right. split; [done|]. intros [(Hr & V & E & _)|?]; [|done]. destruct Ha; [congruence|done]. Qed.

Lemma no_sign value T : t_kind value <> Integer \/ kindof T <> KFloat32 /\ kindof T <> KFloat64 -> ~ lone_sign value T.
Proof. intros Hn (Hk & Hf & _). destruct Hn as [|[? ?]]; [done|]. by destruct Hf. Qed.

(** What the parser guarantees of a scalar. *)
Abbreviation scalar_node pdata value := (TomlParser.is_scalar (t_kind value) = true /\ TomlParser.data_ok pdata (t_kind value) (t_data value)).

Lemma kept T v : type_of v = T -> match v with VInt t z => in_range (kindof t) z | _ => True end -> has_type T v.
Proof. intros <- Hv. split; [apply AssignableTo_refl|done]. Qed.

(** [parseFloat] on what the parser passes as a number. *)
Lemma parseFloat_number b : dat b <> [] ->
  TomlDecode.parseFloat NaN ParseFloat b = Panic /\ (dat b = [43] \/ dat b = [45]) \/
  spec (TomlDecode.parseFloat NaN ParseFloat b) (fun _ => True) (fun _ => True) /\ dat b <> [43] /\ dat b <> [45].
Proof.
  intros Hne. destruct (decide (dat b = [43] \/ dat b = [45])) as [Hs|Hs].
  - left. split; [|done]. destruct b as [o l]. cbn in Hs. by destruct Hs as [-> | ->]; vm_compute.
  - right. assert (Hp : dat b <> [43]) by tauto. assert (Hm : dat b <> [45]) by tauto. split; [|done].
    eapply spec_mono; [by apply TomlDecode.parseFloat_safe|done|done].
Qed.

Lemma unmarshalFloat_float value T b : t_kind value = Float -> t_data value = InDoc b -> TomlDecode.float_token (dat b) ->
  decoded value T (unmarshalFloat value T).
Proof.
  intros Hk Hb Htok. unfold unmarshalFloat. rewrite Hb. cbn [data_slice].
  pose proof (TomlDecode.parseFloat_safe NaN ParseFloat b Htok) as Hp.
  assert (Hl : ~ lone_sign value T) by (apply no_sign; left; congruence).
  destruct (TomlDecode.parseFloat _ _ _) as [f|e| |] eqn:E; try done; cbn [lift mbind go_mbind go_bind].
  - destruct (kindof T) eqn:Ek;
      try (by apply decoded_keep; [left; rewrite Hk; cbn; rewrite Ek|done|]);
      try (by apply decoded_keep; [left; rewrite Hk; cbn; rewrite Ek|done|by apply kept]).
    + apply decoded_keep; [left; rewrite Hk; cbn; by rewrite Ek|done|]. case_match; [done|by apply kept].
    + apply decoded_set; [|by rewrite Hk; cbn; rewrite Ek|done]. unfold reads. rewrite Hk, Hb. by eexists.
  - apply decoded_keep; [|done|done]. right. unfold reads. rewrite Hk, Hb. cbn [data_slice]. rewrite E. by intros [? ?].
Qed.

Lemma int64_range i : int64_ok i -> in_range KInt64 i.
Proof. done. Qed.

Lemma store_interface T i : kindof T = KInterface -> store_integer T int64Type i = Set_ T (VInt int64Type i).
Proof.
  intros Hk. unfold store_integer, Convert, Set_. cbn [type_of]. destruct (AssignableTo int64Type T) eqn:E; cbn [negb].
  - unfold mret, go_mret. cbn [mbind go_mbind go_bind type_of]. by rewrite E.
  - by rewrite Hk.
Qed.

Lemma integer_kinds k : is_Some (range_of k) \/ k = KFloat32 \/ k = KFloat64 \/ k = KInterface \/
  k = KBool \/ k = KString \/ k = KStruct \/ k = KOther.
Proof. destruct k; cbn; eauto 10. Qed.

(** An integer into a float: read as a float, it may be a lone sign. *)
Lemma unmarshalInteger_float value T b : t_kind value = Integer -> t_data value = InDoc b -> dat b <> [] ->
  kindof T = KFloat32 \/ kindof T = KFloat64 -> decoded value T (unmarshalInteger value T).
Proof.
  intros Hk Hb Hne Hfl. unfold unmarshalInteger. replace (_ || _) with true by (by destruct Hfl as [-> | ->]).
  unfold unmarshalFloat. rewrite Hb. cbn [data_slice].
  assert (Ha : assigned (t_kind value) T = None) by (rewrite Hk; cbn; by destruct Hfl as [-> | ->]).
  destruct (parseFloat_number b Hne) as [[-> Hs]|(Hp & Hs1 & Hs2)].
  - left. split; [done|]. right. split_and!; [done|done|by rewrite Hb].
  - apply decoded_keep; [by left| |].
    + intros (_ & _ & Hs). rewrite Hb in Hs. by destruct Hs.
    + destruct (TomlDecode.parseFloat _ _ _); try done. cbn [lift mbind go_mbind go_bind].
      destruct Hfl as [Ef|Ef]; rewrite Ef; [case_match; [done|]|]; by apply kept.
Qed.

Lemma unmarshalInteger_decoded value T b : go_platform -> t_kind value = Integer -> t_data value = InDoc b ->
  TomlDecode.int_token (dat b) -> decoded value T (unmarshalInteger value T).
Proof.
  intros Hpl Hk Hb Htok. destruct (decide (kindof T = KFloat32 \/ kindof T = KFloat64)) as [Hfl|Hfl].
  { eapply unmarshalInteger_float; [done|done|by destruct Htok|done]. }
  assert (Hl : ~ lone_sign value T) by (apply no_sign; right; tauto).
  assert (Ha : kindof T <> KInterface -> assigned (t_kind value) T = None) by (rewrite Hk; cbn; by destruct (kindof T)).
  assert (Hnf : bool_decide (kindof T = KFloat32) || bool_decide (kindof T = KFloat64) = false).
  { rewrite !bool_decide_false by tauto. done. }
  pose proof (TomlDecode.parseInteger_safe b Htok) as Hp.
  destruct (TomlDecode.parseInteger b) as [i|e| |] eqn:E; try done.
  2:{ apply decoded_keep; [|done|unfold unmarshalInteger; rewrite Hnf, Hb; cbn [data_slice]; by rewrite E].
      right. unfold reads. rewrite Hk, Hb. cbn [data_slice]. rewrite E. by intros [? ?]. }
  destruct (decide (kindof T = KInterface)) as [Hif|Hif].
  - unfold unmarshalInteger. rewrite Hnf, Hb, Hif. cbn [data_slice]. rewrite E. cbn [lift mbind go_mbind go_bind].
    rewrite store_interface by done.
    apply decoded_set; [unfold reads; rewrite Hk, Hb; by eexists|by rewrite Hk; cbn; rewrite Hif|by apply int64_range].
  - apply decoded_keep; [left; by apply Ha|done|]. destruct (integer_kinds (kindof T)) as [Hr|Hr].
    + destruct (unmarshalInteger_int value T i Hpl Hr Hp) as [[-> Hi]|[-> Hi]]; [by rewrite Hb|by apply kept|done].
    + unfold unmarshalInteger. rewrite Hnf, Hb. cbn [data_slice]. rewrite E. cbn [lift mbind go_mbind go_bind].
      destruct (kindof T); try done; exfalso; naive_solver.
Qed.

Lemma unmarshalString_decoded value T : t_kind value = String_ ->
  (forall s d, ParseDuration s = Some d -> int64_ok d) -> decoded value T (unmarshalString value T).
Proof.
  intros Hk Hdur. assert (Hl : ~ lone_sign value T) by (apply no_sign; left; congruence).
  unfold unmarshalString. destruct (kindof T) eqn:Ek; try (by apply decoded_keep; [left; rewrite Hk; cbn; rewrite Ek|done|]);
    try (by apply decoded_keep; [left; rewrite Hk; cbn; rewrite Ek|done|by apply kept]).
  - destruct (ParseDuration (dbytes (t_data value))) as [d|] eqn:Ed.
    + apply decoded_set; [unfold reads; rewrite Hk; by rewrite Ed|by rewrite Hk; cbn; rewrite Ek|].
      by apply int64_range, (Hdur _ _ Ed).
    + apply decoded_keep; [|done|done]. right. unfold reads. rewrite Hk, Ed. intros Hx. by destruct (Hx Ek).
  - apply decoded_set; [unfold reads; rewrite Hk; congruence|by rewrite Hk; cbn; rewrite Ek|done].
Qed.

Lemma unmarshalBool_decoded value T b : t_kind value = Bool -> t_data value = InDoc b ->
  dat b = bs "true" \/ dat b = bs "false" -> decoded value T (unmarshalBool value T).
Proof.
  intros Hk Hb Hd. assert (Hl : ~ lone_sign value T) by (apply no_sign; left; congruence).
  unfold unmarshalBool. rewrite Hb. cbn [data_slice]. destruct (s_at b 0) as [c| | |] eqn:Ec;
    try (by unfold s_at, at_ in Ec; destruct Hd as [Hd|Hd]; rewrite Hd in Ec).
  cbn [lift mbind go_mbind go_bind].
  destruct (kindof T) eqn:Ek; try (by apply decoded_keep; [left; rewrite Hk; cbn; rewrite Ek|done|]);
    try (by apply decoded_keep; [left; rewrite Hk; cbn; rewrite Ek|done|by apply kept]).
  apply decoded_set; [unfold reads; by rewrite Hk|by rewrite Hk; cbn; rewrite Ek|done].
Qed.

(** The four kinds of dates: the text is read, then assigned. *)
Lemma unmarshalDate_decoded value T b : t_data value = InDoc b ->
  match t_kind value with
  | DateTime => TomlTime.dt_token (dat b) -> decoded value T (unmarshalDateTime value T)
  | LocalDate => decoded value T (unmarshalLocalDate value T)
  | LocalTime => decoded value T (unmarshalLocalTime value T)
  | LocalDateTime => decoded value T (unmarshalLocalDateTime value T)
  | _ => True
  end.
Proof.
  intros Hb. assert (Hl : t_kind value <> Integer -> ~ lone_sign value T) by (intros; apply no_sign; by left).
  destruct (t_kind value) eqn:Hk; try done; specialize (Hl ltac:(congruence)).
  - unfold unmarshalLocalDate. rewrite Hb. cbn [data_slice]. pose proof (TomlTime.parseLocalDate_body b) as Hp.
    destruct (TomlTime.parseLocalDate b) as [d|e| |] eqn:E; try done; cbn [lift mbind go_mbind go_bind].
    + assert (Hr : reads value T) by (unfold reads; rewrite Hk, Hb; by eexists).
      case_bool_decide as HT; apply decoded_set; try done; rewrite Hk; cbn; by rewrite ?bool_decide_true, ?bool_decide_false by done.
    + apply decoded_keep; [|done|done]. right. unfold reads. rewrite Hk, Hb. cbn [data_slice]. rewrite E. by intros [? ?].
  - unfold unmarshalLocalTime. rewrite Hb. cbn [data_slice]. pose proof (TomlTime.parseLocalTime_body b) as Hp.
    destruct (TomlTime.parseLocalTime b) as [[t r]|e| |] eqn:E; try done; cbn [lift mbind go_mbind go_bind].
    + case_match eqn:Er.
      * apply decoded_keep; [|done|done]. right. unfold reads; rewrite Hk, Hb; cbn [data_slice]; rewrite E.
        intros (? & ? & [= <- <-] & Hn). rewrite Hn in Er. done.
      * apply decoded_set; [|by rewrite Hk|done]. unfold reads; rewrite Hk, Hb; cbn [data_slice]; rewrite E.
        eexists _, _. split; [done|]. destruct (dat r); [done|]. cbn in Er. lia.
    + apply decoded_keep; [|done|done]. right. unfold reads. rewrite Hk, Hb. cbn [data_slice]. rewrite E. by intros (? & ? & [? ?]).
  - unfold unmarshalLocalDateTime. rewrite Hb. cbn [data_slice]. pose proof (TomlTime.parseLocalDateTime_safe b) as Hp.
    destruct (TomlTime.parseLocalDateTime b) as [[t r]|e| |] eqn:E; try done; cbn [lift mbind go_mbind go_bind].
    + case_match eqn:Er.
      * apply decoded_keep; [|done|done]. right. unfold reads; rewrite Hk, Hb; cbn [data_slice]; rewrite E.
        intros (? & ? & [= <- <-] & Hn). rewrite Hn in Er. done.
      * assert (Hr : reads value T).
        { unfold reads; rewrite Hk, Hb; cbn [data_slice]; rewrite E. eexists _, _. split; [done|]. destruct (dat r); [done|]. cbn in Er. lia. }
        case_bool_decide as HT; apply decoded_set; try done; rewrite Hk; cbn; by rewrite ?bool_decide_true, ?bool_decide_false by done.
    + apply decoded_keep; [|done|done]. right. unfold reads. rewrite Hk, Hb. cbn [data_slice]. rewrite E. by intros (? & ? & [? ?]).
  - intros Htok. unfold unmarshalDateTime. rewrite Hb. cbn [data_slice]. pose proof (TomlTime.parseDateTime_safe b Htok) as Hp.
    destruct (TomlTime.parseDateTime b) as [t|e| |] eqn:E; try done; cbn [lift mbind go_mbind go_bind].
    + apply decoded_set; [unfold reads; rewrite Hk, Hb; by eexists|by rewrite Hk|done].
    + apply decoded_keep; [|done|done]. right. unfold reads. rewrite Hk, Hb. cbn [data_slice]. rewrite E. by intros [? ?].
Qed.

Lemma handleScalar_decoded pdata value T : go_platform -> scalar_node pdata value ->
  (forall s d, ParseDuration s = Some d -> int64_ok d) ->
  UnmarshalText T = None \/ T = timeType -> decoded value T (handleScalar value T).
Proof.
  intros Hpl [Hs Hd] Hdur Ht. unfold handleScalar, tryTextUnmarshaler.
  replace (if bool_decide (T = timeType) then _ else _) with (Ret None : M (option gvalue))
    by (case_bool_decide; [done|]; destruct Ht as [-> |]; done).
  cbn [mbind go_mbind go_bind]. destruct (decide (t_kind value = String_)) as [Hk|Hk].
  { rewrite Hk. by apply unmarshalString_decoded. }
  destruct (t_data value) as [b|l] eqn:Hb; [|destruct (t_kind value); done].
  pose proof (unmarshalDate_decoded value T b Hb) as Hdate.
  destruct (t_kind value) eqn:Ek; try done; destruct Hd as [_ Hd]; try exact Hdate.
  - by eapply unmarshalBool_decoded.
  - by eapply unmarshalFloat_float.
  - by eapply unmarshalInteger_decoded.
  - by apply Hdate.
Qed.

(** ** Claims *)

(** C40: decoding an integer into a variable of any integer type, defined ones
    included, stores the number itself when it is in the range of the type, and
    returns the error that names the type when it is not; no conversion wraps,
    on machines where [uint] has 32 or 64 bits. *)
Theorem integer_bounds (value : tree) (T : rtype) (b : slice) (i : Z) :
  go_platform -> is_Some (range_of (kindof T)) -> t_data value = InDoc b ->
  TomlDecode.int_token (dat b) -> TomlDecode.parseInteger b = Ret i ->
  (in_range (kindof T) i -> unmarshalInteger value T = Ret (VInt T i)) /\
  (~ in_range (kindof T) i -> unmarshalInteger value T = Fail (kind_error (kindof T) i)).
Proof.
  intros Hpl Hr Hb Htok E. pose proof (TomlDecode.parseInteger_safe b Htok) as Hi. rewrite E in Hi.
  destruct (unmarshalInteger_int value T i Hpl Hr Hi) as [[-> H]|[-> H]]; [by rewrite Hb|done..].
Qed.

(** C36: decoding a scalar of any document into a variable of any type without an
    [UnmarshalText] method stores a value that the type of the variable admits,
    integers within its range, or returns an error; it panics exactly when the
    text can be read but the Go value made of it cannot be assigned to the
    variable (a date into a variable of another type, a local time into a
    [time.Time], which the documentation of [Decode] says can be decoded, a
    duration string into an [int64] that is not a [time.Duration], any scalar
    into an interface that it does not implement), and for a sign without digits
    read as a float. *)
Theorem scalar_typed (keep : bool) (d : list Z) (ts : list tree) (e : option ParserError) (t value : tree) (T : rtype) :
  go_platform -> (forall s d, ParseDuration s = Some d -> int64_ok d) ->
  Forall byte_ok d -> TomlParser.parse_document keep d = Ret (ts, e) ->
  t ∈ ts -> value ∈ TomlParser.subtrees t -> TomlParser.is_scalar (t_kind value) = true ->
  UnmarshalText T = None \/ T = timeType ->
  (handleScalar value T = Panic <-> misassigned value T \/ lone_sign value T) /\
  (forall v, handleScalar value T = Ret v -> has_type T v) /\ handleScalar value T <> OutOfFuel.
Proof.
  intros Hpl Hdur Hd Ep Ht Hu Hs HT. pose proof (TomlParser.parse_document_ok keep d Hd) as Hok. rewrite Ep in Hok.
  destruct Hok as (Hwf & _). rewrite Forall_forall in Hwf. specialize (Hwf t Ht). apply TomlParser.expr_nodes in Hwf.
  rewrite Forall_forall in Hwf. specialize (Hwf value Hu (or_introl Hs)).
  destruct (handleScalar_decoded (doc d) value T Hpl (conj Hs Hwf) Hdur HT) as [[-> Hm]|[Hsp Hn]]; [done|].
  destruct (handleScalar value T); try done; split_and!; try done. by intros v [= <-].
Qed.
End Targets.

(** *** Concrete inputs *)

(** Floats as integers, durations of whole seconds, no methods. *)
Definition demo_duration (s : list Z) : option Z := if bool_decide (s = bs "1s") then Some 1000000000 else None.
Definition demo_integer (s : string) : tree := T Integer no_range (InDoc (Sl 0 (bs s))) [].

Lemma integer_bounds_witness :
  unmarshalInteger 0 (fun _ => None) (fun _ => false) id 64 (fun _ _ => true) (demo_integer "255") uint8Type = Ret (VInt uint8Type 255) /\
  unmarshalInteger 0 (fun _ => None) (fun _ => false) id 64 (fun _ _ => true) (demo_integer "256") uint8Type = Fail (ENumber true 256 "uint8").
Proof.
  split.
  - apply (integer_bounds 0 (fun _ => None) (fun _ => false) id 64 (fun _ _ => true) (demo_integer "255") uint8Type (Sl 0 (bs "255")) 255);
      [by right|by eexists|done|by split; vm_compute|by vm_compute|by vm_compute].
  - apply (integer_bounds 0 (fun _ => None) (fun _ => false) id 64 (fun _ _ => true) (demo_integer "256") uint8Type (Sl 0 (bs "256")) 256);
      [by right|by eexists|done|by split; vm_compute|by vm_compute|]. vm_compute. intros [_ Hx]. by apply Hx.
Defined.

(** A document with a sign for a number. *)
Definition demo_value : tree := T Integer (Rng 4 1) (InDoc (Sl 4 (bs "+"))) [].

Lemma scalar_typed_witness :
  handleScalar 0 (fun _ => None) (fun _ => false) id demo_duration (fun d => TomlTime.LocalDateTime_AsTime d 0) 64
    (fun _ _ => true) (fun _ => None) demo_value float64Type = Panic.
Proof.
  apply (scalar_typed 0 (fun _ => None) (fun _ => false) id demo_duration (fun d => TomlTime.LocalDateTime_AsTime d 0) 64
    (fun _ _ => true) (fun _ => None) false (bs "a = +")
    [T KeyValue no_range no_data [demo_value; T Key (Rng 0 1) (InDoc (Sl 0 (bs "a"))) []]] None
    (T KeyValue no_range no_data [demo_value; T Key (Rng 0 1) (InDoc (Sl 0 (bs "a"))) []]) demo_value float64Type).
  - by right.
  - intros s d. unfold demo_duration. case_bool_decide; [|done]. intros [= <-]. by vm_compute.
  - apply bytes_ok. by vm_compute.
  - by vm_compute.
  - by left.
  - right. by left.
  - done.
  - by left.
  - right. split_and!; [done|by right|by left].
Defined.
End TomlTargets.
