(* ===== verification/Umap.v ===== *)
(** * Concurrent maps with expiry ([src/umap])

    The package has an interface, [Mapper], two maps that implement it (a Go map
    under a lock, and a wrapper of a lock-free hash map), and three clients: a
    cache with expiry, a loading cache ([Defx]) and loading sessions ([Defv]).
    The clients are proved against the interface; the interface is discharged by
    the maps. *)
From stdpp Require Import base numbers list gmap fin_maps sorting strings.
From S2P Require Import Prelude.
#[local] Open Scope Z_scope.

Module Umap.

(** ** The interface *)

(** What a callback of [Range] does with the entries, in the order in which they
    come: it goes on while the callback says so. *)
Fixpoint visit {K V A} (g : K -> V -> A -> bool * A) (l : list (K * V)) (a : A) : A :=
  match l with
  | [] => a
  | (k, v) :: l' => let '(go_on, a') := g k v a in if (go_on : bool) then visit g l' a' else a'
  end.

(** [Mapper], for maps with the state [S]. An operation gives [None] when it
    blocks forever, as an operation on a locked map does when nobody else can
    unlock it. [Range] passes the map to its callback, which may work on it, and
    threads the client's own state, of type [A]. [contents] and [usable] are the
    abstraction: the entries, and that no lock is held. *)
Class Mapper (S K V : Type) `{Countable K} := {
  Load : S -> K -> option (option V);
  Set_ : S -> K -> V -> option S;
  Delete : S -> K -> option S;
  Len : S -> option nat;
  Clean : S -> option S;
  Range : forall A : Type, (K -> V -> S -> A -> option (bool * S * A)) -> S -> A -> option (S * A);
  contents : S -> gmap K V;
  usable : S -> Prop;
  Load_spec s k : usable s -> Load s k = Some (contents s !! k);
  Set_spec s k v : usable s -> exists s', Set_ s k v = Some s' /\ usable s' /\ contents s' = <[k := v]> (contents s);
  Delete_spec s k : usable s -> exists s', Delete s k = Some s' /\ usable s' /\ contents s' = delete k (contents s);
  Len_spec s : usable s -> Len s = Some (size (contents s));
  Clean_spec s : usable s -> exists s', Clean s = Some s' /\ usable s' /\ contents s' = ∅;
  Range_spec A (g : K -> V -> A -> bool * A) f s a :
    (forall k v s a, f k v s a = Some (fst (g k v a), s, snd (g k v a))) -> usable s ->
    exists l s', l ≡ₚ map_to_list (contents s) /\ Range A f s a = Some (s', visit g l a) /\
      usable s' /\ contents s' = contents s
}.
Arguments Range {S K V _ _ _} {A}.

(** [Get] is the same for both maps: the zero value when there is no entry. *)
Definition Get {S K V} `{Mapper S K V} (zero : V) (s : S) (k : K) : option V :=
  v ← Load s k; Some (default zero v).

(** A callback that deletes the entries that [p] picks, after an effect. *)
Definition deleting {S K V A} `{Mapper S K V} (p : K -> V -> bool) (e : K -> V -> A -> A)
    (k : K) (v : V) (s : S) (a : A) : option (bool * S * A) :=
  if p k v then s' ← Delete s k; Some (true, s', e k v a) else Some (true, s, a).

(** Maps whose [Range] lets the callback delete the entry it is called with. *)
Class Reentrant (S K V : Type) `{Mapper S K V} :=
  Range_delete A (p : K -> V -> bool) (e : K -> V -> A -> A) (s : S) (a : A) : usable s ->
    exists l s', l ≡ₚ map_to_list (filter (fun kv => p (fst kv) (snd kv) = true) (contents s)) /\
      Range (deleting p e) s a = Some (s', foldl (fun a kv => e (fst kv) (snd kv) a) a l) /\ usable s' /\
      contents s' = filter (fun kv => p (fst kv) (snd kv) = false) (contents s).

(** ** A Go map under a lock *)

Section Mmap.
Context {K V : Type} `{Countable K}.

(** The map, and whether its lock is held for writing. *)
Record Mmap := MMap { mm_m : gmap K V; mm_l : bool }.

(** The order in which Go iterates over a map. *)
Context (order : gmap K V -> list (K * V)) (order_perm : forall m, order m ≡ₚ map_to_list m).

Definition NewMmap : Mmap := MMap ∅ false.

(** [h.l.Lock()] and [h.l.RLock()] block while the lock is held for writing. *)
Definition Mmap_Load (h : Mmap) (key : K) : option (option V) :=
  if mm_l h then None else Some (mm_m h !! key).
Definition Mmap_Set (h : Mmap) (key : K) (val : V) : option Mmap :=
  if mm_l h then None else Some (MMap (<[key := val]> (mm_m h)) false).
Definition Mmap_GetOrSet (h : Mmap) (key : K) (val : V) : option (V * bool * Mmap) :=
  v ← Mmap_Load h key;
  match v with
  | Some val => Some (val, false, h)
  | None => if mm_l h then None else Some (val, true, MMap (<[key := val]> (mm_m h)) false)
  end.

Fixpoint mmap_loop {A} (f : K -> V -> Mmap -> A -> option (bool * Mmap * A)) (l : list (K * V)) (h : Mmap) (a : A)
    : option (Mmap * A) :=
  match l with
  | [] => Some (h, a)
  | (k, v) :: l' =>
      r ← f k v h a;
      let '(go_on, h, a) := (r : bool * Mmap * A) in
      if (go_on : bool) then mmap_loop f l' h a else Some (h, a)
  end.

Definition Mmap_Range {A} (f : K -> V -> Mmap -> A -> option (bool * Mmap * A)) (h : Mmap) (a : A) : option (Mmap * A) :=
  if mm_l h then None
  else
    r ← mmap_loop f (order (mm_m h)) (MMap (mm_m h) true) a;
    Some (MMap (mm_m (fst r)) false, snd r).

Definition Mmap_Delete (h : Mmap) (key : K) : option Mmap :=
  if mm_l h then None else Some (MMap (delete key (mm_m h)) false).
Definition Mmap_Len (h : Mmap) : option nat := if mm_l h then None else Some (size (mm_m h)).
Definition Mmap_Clean (h : Mmap) : option Mmap := if mm_l h then None else Some (MMap ∅ false).

Lemma mmap_loop_visit {A} (g : K -> V -> A -> bool * A) f l h (a : A) :
  (forall k v h a, f k v h a = Some (fst (g k v a), h, snd (g k v a))) ->
  mmap_loop f l h a = Some (h, visit g l a).
Proof.
  intros Hf. revert a. induction l as [|[k v] l IH]; intros a; [done|]. cbn [mmap_loop visit]. rewrite Hf. cbn.
  destruct (g k v a) as [[] a']; cbn; [apply IH|done].
Qed.

#[export] Program Instance Mmap_Mapper : Mapper Mmap K V := {
  Load := Mmap_Load; Set_ := Mmap_Set; Delete := Mmap_Delete; Len := Mmap_Len; Clean := Mmap_Clean;
  Range := @Mmap_Range; contents := mm_m; usable h := mm_l h = false
}.
Next Obligation. intros h k Hh. unfold Mmap_Load. by rewrite Hh. Qed.
Next Obligation. intros h k v Hh. unfold Mmap_Set. rewrite Hh. by eexists. Qed.
Next Obligation. intros h k Hh. unfold Mmap_Delete. rewrite Hh. by eexists. Qed.
Next Obligation. intros h Hh. unfold Mmap_Len. by rewrite Hh. Qed.
Next Obligation. intros h Hh. unfold Mmap_Clean. rewrite Hh. by eexists. Qed.
Next Obligation.
  intros A g f h a Hf Hh. cbn in *. exists (order (mm_m h)), (MMap (mm_m h) false). split; [apply order_perm|].
  unfold Mmap_Range. rewrite Hh, (mmap_loop_visit g) by done. done.
Qed.

(** A callback that deletes anything blocks: the lock is held during [Range]. *)
Lemma mmap_loop_deleting {A} p (e : K -> V -> A -> A) l m a :
  mmap_loop (deleting p e) l (MMap m true) a =
  if existsb (fun kv => p (fst kv) (snd kv)) l then None else Some (MMap m true, a).
Proof.
  induction l as [|[k v] l IH]; [done|]. cbn [mmap_loop existsb fst snd].
  assert (Hd : deleting p e k v (MMap m true) a = if p k v then None else Some (true, MMap m true, a)) by done.
  rewrite Hd. destruct (p k v); [done|exact IH].
Qed.

Lemma Mmap_Range_deleting {A} p (e : K -> V -> A -> A) h a : mm_l h = false ->
  Mmap_Range (deleting p e) h a = None <-> exists k v, mm_m h !! k = Some v /\ p k v = true.
Proof.
  intros Hh. unfold Mmap_Range. rewrite Hh, mmap_loop_deleting.
  assert (Hex : existsb (fun kv => p (fst kv) (snd kv)) (order (mm_m h)) = true <->
    exists k v, mm_m h !! k = Some v /\ p k v = true).
  { rewrite existsb_exists. split.
    - intros ([k v] & Hin%list_elem_of_In & Hp). rewrite order_perm in Hin. apply elem_of_map_to_list in Hin. eauto.
    - intros (k & v & Hkv & Hp). exists (k, v). split; [|done]. apply list_elem_of_In. rewrite order_perm. by apply elem_of_map_to_list. }
  rewrite <- Hex. destruct (existsb _ _); done.
Qed.
End Mmap.
Arguments Mmap : clear implicits.
Arguments Mmap K V {_ _}.

(** ** The wrapper of the lock-free hash map *)

(** [hashmap.Map], a package of its own: its operations, and what they do when
    one goroutine uses it. Its [Range] goes along a linked list and holds no lock,
    so that the callback may delete the entry it is called with. *)
Class HashMap (H K V : Type) `{Countable K} := {
  h_New : H;
  h_Get : H -> K -> option V;
  h_GetOrInsert : H -> K -> V -> V * bool * H;
  h_Set : H -> K -> V -> H;
  h_Del : H -> K -> H;
  h_Len : H -> nat;
  h_Range : forall A : Type, (K -> V -> H -> A -> option (bool * H * A)) -> H -> A -> option (H * A);
  h_contents : H -> gmap K V;
  h_New_spec : h_contents h_New = ∅;
  h_Get_spec h k : h_Get h k = h_contents h !! k;
  h_Set_spec h k v : h_contents (h_Set h k v) = <[k := v]> (h_contents h);
  h_Del_spec h k : h_contents (h_Del h k) = delete k (h_contents h);
  h_Len_spec h : h_Len h = size (h_contents h);
  h_Range_spec A (g : K -> V -> A -> bool * A) f h a :
    (forall k v h a, f k v h a = Some (fst (g k v a), h, snd (g k v a))) ->
    exists l h', l ≡ₚ map_to_list (h_contents h) /\ h_Range A f h a = Some (h', visit g l a) /\ h_contents h' = h_contents h;
  h_Range_delete A (p : K -> V -> bool) (e : K -> V -> A -> A) f h a :
    (forall k v h a, f k v h a = if p k v then Some (true, h_Del h k, e k v a) else Some (true, h, a)) ->
    exists l h', l ≡ₚ map_to_list (filter (fun kv => p (fst kv) (snd kv) = true) (h_contents h)) /\
      h_Range A f h a = Some (h', foldl (fun a kv => e (fst kv) (snd kv) a) a l) /\
      h_contents h' = filter (fun kv => p (fst kv) (snd kv) = false) (h_contents h)
}.
Arguments h_Range {H K V _ _ _} {A}.

Section Hmap.
Context {H K V : Type} `{HashMap H K V}.

Record Hmap := HMap { hm_m : H }.

Definition NewHmap : Hmap := HMap h_New.
Definition Hmap_Load (h : Hmap) (key : K) : option (option V) := Some (h_Get (hm_m h) key).
Definition Hmap_GetOrSet (h : Hmap) (key : K) (val : V) : option (V * bool * Hmap) :=
  let '(v, b, m) := h_GetOrInsert (hm_m h) key val in Some (v, b, HMap m).
Definition Hmap_Set (h : Hmap) (key : K) (val : V) : option Hmap := Some (HMap (h_Set (hm_m h) key val)).
Definition Hmap_Range {A} (f : K -> V -> Hmap -> A -> option (bool * Hmap * A)) (h : Hmap) (a : A) : option (Hmap * A) :=
  r ← h_Range (fun key value m a =>
        r ← f key value (HMap m) a;
        let '(go_on, h, a) := (r : bool * Hmap * A) in Some (go_on, hm_m h, a)) (hm_m h) a;
  Some (HMap (fst r), snd r).
Definition Hmap_Delete (h : Hmap) (key : K) : option Hmap := Some (HMap (h_Del (hm_m h) key)).
Definition Hmap_Len (h : Hmap) : option nat := Some (h_Len (hm_m h)).
Definition Hmap_Clean (h : Hmap) : option Hmap := Some (HMap h_New).

#[export] Program Instance Hmap_Mapper : Mapper Hmap K V := {
  Load := Hmap_Load; Set_ := Hmap_Set; Delete := Hmap_Delete; Len := Hmap_Len; Clean := Hmap_Clean;
  Range := @Hmap_Range; contents h := h_contents (hm_m h); usable h := True
}.
Next Obligation. intros h k _. unfold Hmap_Load. by rewrite h_Get_spec. Qed.
Next Obligation. intros h k v _. eexists. split; [done|]. split; [done|]. apply h_Set_spec. Qed.
Next Obligation. intros h k _. eexists. split; [done|]. split; [done|]. apply h_Del_spec. Qed.
Next Obligation. intros h _. unfold Hmap_Len. by rewrite h_Len_spec. Qed.
Next Obligation. intros h _. eexists. split; [done|]. split; [done|]. apply h_New_spec. Qed.
Next Obligation.
  intros A g f h a Hf _. edestruct (h_Range_spec A g) as (l & h' & Hl & E & Hc);
    [|exists l, (HMap h'); split; [exact Hl|]; unfold Hmap_Range; rewrite E; by split_and!].
  intros k v m b. cbn. rewrite Hf. done.
Qed.

#[export] Instance Hmap_Reentrant : Reentrant Hmap K V.
Proof.
  intros A p e h a _. edestruct (h_Range_delete A p e) as (l & h' & Hl & E & Hc);
    [|exists l, (HMap h'); split; [exact Hl|]; cbn [Range Hmap_Mapper]; unfold Hmap_Range; rewrite E; by split_and!].
  intros k v m b. unfold deleting. by destruct (p k v).
Qed.
End Hmap.
Arguments Hmap : clear implicits.

(** ** The cache *)

(** Times and durations are in nanoseconds; [t.Unix()] is in seconds. *)
Definition second : Z := 1000000000.
Definition Unix (t : Z) : Z := t `div` second.

Record Item {V : Type} := It { Value : V; Expire : Z }.
Arguments Item : clear implicits.
Arguments It {V}.
Arguments Value {V}.
Arguments Expire {V}.

Section Cache.
Context {K V : Type} `{Countable K} (zero : V).
Context {S : Type} `{!Mapper S K (Item V)}.

Definition expired (v : Item V) (unixTimestamp : Z) : bool := (0 <? Expire v) && (Expire v <=? unixTimestamp).

(** One tick of [gcRound], at the time [now], when nobody else uses the map
    meanwhile. *)
Definition Cache_gc (c : S) (now : Z) : option S :=
  r ← Range (deleting (fun _ v => expired v (Unix now)) (fun _ _ a => a)) c tt;
  Some (fst r).

(** [gcRound] beside the users of the cache: it is between two ticks, in a round
    with the time it has read, or about to delete a key whose value it has found
    expired.  [Range] calls the callback with an entry of the map as it is then;
    which entries it comes to, and when, is up to it. *)
Inductive collector := GIdle | GRound (unixTimestamp : Z) | GDelete (unixTimestamp : Z) (key : K).
Inductive gc_event := GTick | GVisit (key : K) | GCollect | GDone.

Definition gc_step (c : S) (now : Z) (g : collector) (e : gc_event) : option (collector * S) :=
  match e, g with
  | GTick, GIdle => Some (GRound (Unix now), c)
  | GVisit k, GRound ts =>
      v ← Load c k;
      Some (match v with
            | Some v => if expired v ts then GDelete ts k else GRound ts
            | None => GRound ts
            end, c)
  | GCollect, GDelete ts k => c ← Delete c k; Some (GRound ts, c)
  | GDone, GRound _ => Some (GIdle, c)
  | _, _ => Some (g, c)
  end.

Definition Cache_Set (c : S) (now : Z) (key : K) (value : V) (expire : Z) : option S :=
  Set_ c key (It value (if 0 <? expire then Unix (now + expire) else 0)).

Definition getItem (c : S) (now : Z) (key : K) : option (option (Item V)) :=
  v ← Load c key;
  Some (match v with
        | Some v => if expired v (Unix now) then None else Some v
        | None => None
        end).

Definition Cache_Get (c : S) (now : Z) (key : K) : option V :=
  v ← getItem c now key; Some (match v with Some v => Value v | None => zero end).

Definition Cache_Load (c : S) (now : Z) (key : K) : option (V * Z * bool) :=
  v ← getItem c now key;
  Some (match v with Some v => (Value v, Expire v, true) | None => (zero, 0, false) end).

Definition Cache_Delete (c : S) (key : K) : option S := Delete c key.

Definition Cache_Range {A} (c : S) (now : Z) (f : K -> V -> A -> bool * A) (a : A) : option (S * A) :=
  Range (fun k v c a =>
    if expired v (Unix now) then Some (true, c, a)
    else let '(go_on, a) := f k (Value v) a in Some (go_on, c, a)) c a.

Definition Cache_Clean (c : S) : option S := Clean c.
(** [Close], which also stops the ticker. *)
Definition Cache_Close (c : S) : option S := Clean c.

(** *** What a cache promises *)

(** Requests at given times, and what the collector does between them: a whole
    round ([QTick]), or one step of it. *)
Inductive request :=
| QSet (key : K) (value : V) (expire : Z)
| QGet (key : K)
| QLoad (key : K)
| QDelete (key : K)
| QClean
| QTick
| QGc (e : gc_event).

Inductive answer := ANone | AGet (v : V) | ALoad (r : V * Z * bool).

Definition serve (c : S) (now : Z) (q : request) (g : collector) : option (answer * collector * S) :=
  match q with
  | QSet k v x => c ← Cache_Set c now k v x; Some (ANone, g, c)
  | QGet k => v ← Cache_Get c now k; Some (AGet v, g, c)
  | QLoad k => r ← Cache_Load c now k; Some (ALoad r, g, c)
  | QDelete k => c ← Cache_Delete c k; Some (ANone, g, c)
  | QClean => c ← Cache_Clean c; Some (ANone, g, c)
  | QTick => match g with GIdle => c ← Cache_gc c now; Some (ANone, g, c) | _ => Some (ANone, g, c) end
  | QGc e => r ← gc_step c now g e; Some (ANone, fst r, snd r)
  end.

Fixpoint serve_all (c : S) (g : collector) (qs : list (Z * request)) : option (list answer) :=
  match qs with
  | [] => Some []
  | (now, q) :: qs' =>
      r ← serve c now q g;
      let '(x, g, c) := (r : answer * collector * S) in
      xs ← serve_all c g qs'; Some (x :: xs)
  end.

(** A value is set for the key that the collector is about to delete. *)
Definition races (g : collector) (q : request) : bool :=
  match q, g with QSet k _ _, GDelete _ k' => bool_decide (k = k') | _, _ => false end.

Fixpoint unraced (c : S) (g : collector) (qs : list (Z * request)) : bool :=
  match qs with
  | [] => true
  | (now, q) :: qs' =>
      negb (races g q) && match serve c now q g with Some (_, g, c) => unraced c g qs' | None => true end
  end.

(** The same on a finite map from which nothing is ever collected. *)
Definition live (m : gmap K (Item V)) (now : Z) (k : K) : option (Item V) :=
  match m !! k with Some v => if expired v (Unix now) then None else Some v | None => None end.

Definition a_serve (m : gmap K (Item V)) (now : Z) (q : request) : answer * gmap K (Item V) :=
  match q with
  | QSet k v x => (ANone, <[k := It v (if 0 <? x then Unix (now + x) else 0)]> m)
  | QGet k => (AGet (match live m now k with Some v => Value v | None => zero end), m)
  | QLoad k => (ALoad (match live m now k with Some v => (Value v, Expire v, true) | None => (zero, 0, false) end), m)
  | QDelete k => (ANone, delete k m)
  | QClean => (ANone, ∅)
  | QTick | QGc _ => (ANone, m)
  end.

Fixpoint a_serve_all (m : gmap K (Item V)) (qs : list (Z * request)) : list answer :=
  match qs with
  | [] => []
  | (now, q) :: qs' => let '(x, m) := a_serve m now q in x :: a_serve_all m qs'
  end.

(** The map and the cache agree from the time [now] on. *)
Definition agree (c : S) (m : gmap K (Item V)) (now : Z) : Prop :=
  usable c /\ forall t k, now <= t -> live (contents c) t k = live m t k.

Lemma agree_later c m t t' : agree c m t -> t <= t' -> agree c m t'.
Proof. intros [Hu Ha] Ht. split; [done|]. intros t2 k Ht2. apply Ha. lia. Qed.

Lemma live_insert m t k k' v : live (<[k := v]> m) t k' = if bool_decide (k = k') then (if expired v (Unix t) then None else Some v) else live m t k'.
Proof. unfold live. case_bool_decide as E; [subst; by rewrite lookup_insert_eq|by rewrite lookup_insert_ne]. Qed.

Lemma live_delete m t k k' : live (delete k m) t k' = if bool_decide (k = k') then None else live m t k'.
Proof. unfold live. case_bool_decide as E; [subst; by rewrite lookup_delete_eq|by rewrite lookup_delete_ne]. Qed.

Lemma getItem_live c m now k : agree c m now -> getItem c now k = Some (live m now k).
Proof. intros [Hu Ha]. unfold getItem. rewrite Load_spec by done. cbn. rewrite <- Ha by lia. done. Qed.

(** An entry that has expired stays expired. *)
Lemma expired_later (v : Item V) t t' : expired v (Unix t) = true -> t <= t' -> expired v (Unix t') = true.
Proof.
  unfold expired, Unix. rewrite !andb_true_iff, !Z.leb_le. intros [? ?] Ht. split; [done|].
  pose proof (Z.div_le_mono t t' second ltac:(done) Ht). lia.
Qed.

Lemma live_gc m now t k : now <= t ->
  live (filter (fun kv => expired (snd kv) (Unix now) = false) m) t k = live m t k.
Proof.
  intros Ht. unfold live. rewrite map_lookup_filter. destruct (m !! k) as [v|]; [|done]. cbn.
  destruct (expired v (Unix now)) eqn:E.
  - rewrite (expired_later v now t E Ht). by rewrite option_guard_False.
  - by rewrite option_guard_True.
Qed.

Context `{!Reentrant S K (Item V)}.

(** What the collector knows: the time it has read is past, and the key it is
    about to delete has no value that counts. *)
Definition gc_knows (c : S) (g : collector) (now : Z) : Prop :=
  match g with
  | GIdle => True
  | GRound ts => ts <= Unix now
  | GDelete ts k => ts <= Unix now /\ forall v, contents c !! k = Some v -> expired v ts = true
  end.

Lemma Unix_le t t' : t <= t' -> Unix t <= Unix t'.
Proof. intros Ht. unfold Unix. by apply Z.div_le_mono. Qed.

Lemma gc_knows_later c g t t' : gc_knows c g t -> t <= t' -> gc_knows c g t'.
Proof. intros Hg Ht%Unix_le. destruct g; cbn in *; [done|lia|]. destruct Hg. split; [lia|done]. Qed.

(** Fewer entries, and no new one for the key. *)
Lemma gc_knows_sub c c' g now : gc_knows c g now ->
  (forall ts k, g = GDelete ts k -> forall v, contents c' !! k = Some v -> contents c !! k = Some v) -> gc_knows c' g now.
Proof.
  intros Hg Hsub. destruct g as [| |ts k]; [done|done|]. destruct Hg as [Ht Hk]. split; [done|]. intros v Hv.
  apply Hk. by eapply Hsub.
Qed.

Lemma live_collect m ts t k k' : ts <= Unix t -> (forall v, m !! k = Some v -> expired v ts = true) ->
  live (delete k m) t k' = live m t k'.
Proof.
  intros Ht Hk. rewrite live_delete. case_bool_decide; [subst k'|done]. unfold live. destruct (m !! k) as [v|] eqn:E; [|done].
  specialize (Hk v eq_refl). unfold expired in *. rewrite andb_true_iff, Z.leb_le in Hk.
  rewrite (proj2 (andb_true_iff _ _)); [done|]. rewrite Z.leb_le. split; [tauto|lia].
Qed.

Lemma gc_step_agree c m now g e : agree c m now -> gc_knows c g now ->
  exists g' c', gc_step c now g e = Some (g', c') /\ agree c' m now /\ gc_knows c' g' now.
Proof.
  intros Hag Hg. pose proof Hag as [Hu Ha].
  destruct e as [|k| |], g as [|ts|ts k']; cbn [gc_step]; try (by eexists _, c; split_and!).
  - eexists _, c. split_and!; [done..|]. cbn. lia.
  - rewrite Load_spec by done. cbn. eexists _, c. split; [done|]. split; [done|].
    destruct (contents c !! k) as [v|] eqn:E; [|done]. destruct (expired v ts) eqn:Ex; [|done]. split; [done|]. congruence.
  - destruct Hg as [Ht Hk]. edestruct Delete_spec as (c' & -> & Hu' & Hc); [done|]. cbn. eexists _, c'. split; [done|].
    split; [|done]. split; [done|]. intros t k Hnow. rewrite Hc.
    rewrite (live_collect _ ts); [by apply Ha| |done]. apply Unix_le in Hnow. lia.
Qed.

Lemma serve_agree c m now g q : agree c m now -> gc_knows c g now -> races g q = false ->
  exists g' c', serve c now q g = Some (fst (a_serve m now q), g', c') /\
    agree c' (snd (a_serve m now q)) now /\ gc_knows c' g' now.
Proof.
  intros Hag Hg Hr. pose proof Hag as [Hu Ha]. destruct q as [k v x|k|k|k| | |e]; cbn [serve a_serve fst snd].
  - unfold Cache_Set. edestruct Set_spec as (c' & -> & Hu' & Hc); [done|]. exists g, c'. split; [done|]. split; [split; [done|]|].
    + intros t k' Ht. rewrite Hc, !live_insert. case_bool_decide; [done|by apply Ha].
    + eapply gc_knows_sub; [done|]. intros ts k' -> w. cbn in Hr. apply bool_decide_eq_false in Hr.
      rewrite Hc, lookup_insert_ne by done. done.
  - unfold Cache_Get. rewrite (getItem_live c m now k Hag). by exists g, c.
  - unfold Cache_Load. rewrite (getItem_live c m now k Hag). by exists g, c.
  - unfold Cache_Delete. edestruct Delete_spec as (c' & -> & Hu' & Hc); [done|]. exists g, c'. split; [done|]. split; [split; [done|]|].
    + intros t k' Ht. rewrite Hc, !live_delete. case_bool_decide; [done|by apply Ha].
    + eapply gc_knows_sub; [done|]. intros ts k' _ w. rewrite Hc, lookup_delete_Some. tauto.
  - unfold Cache_Clean. edestruct Clean_spec as (c' & -> & Hu' & Hc); [done|]. exists g, c'. split; [done|]. split; [split; [done|]|].
    + intros t k' Ht. by rewrite Hc.
    + eapply gc_knows_sub; [done|]. intros ts k' _ w. by rewrite Hc, lookup_empty.
  - destruct g as [| |]; try (by eexists _, c; split_and!).
    unfold Cache_gc. edestruct (Range_delete (S := S)) as (l & c' & _ & -> & Hu' & Hc); [done|].
    exists GIdle, c'. split; [done|]. split; [|done]. split; [done|]. intros t k Ht. rewrite Hc, live_gc by done. by apply Ha.
  - destruct (gc_step_agree c m now g e Hag Hg) as (g' & c' & -> & ? & ?). by eexists g', c'.
Qed.

Lemma serve_all_agree qs : forall t0 c m g, agree c m t0 -> gc_knows c g t0 ->
  StronglySorted Z.le (fst <$> qs) -> Forall (Z.le t0) (fst <$> qs) -> unraced c g qs = true ->
  serve_all c g qs = Some (a_serve_all m qs).
Proof.
  induction qs as [|[t q] l IH]; intros t0 c m g Hag Hg Hs Hlow Hr; [done|]. cbn in *.
  apply Forall_cons in Hlow as [Ht _]. inversion Hs as [|? ? Hs2 Hl2]; subst.
  apply andb_true_iff in Hr as [Hr1%negb_true_iff Hr2].
  destruct (serve_agree c m t g q) as (g' & c' & E & Hag' & Hg');
    [by eapply agree_later|by eapply gc_knows_later|done|].
  rewrite E in Hr2 |- *. cbn. destruct (a_serve m t q) as [x m'] eqn:Ea. cbn in *. by rewrite (IH t c' m' g').
Qed.


(** When a value is there: until the second in which it expires. It is never
    there later than asked for, and for all but the last second of the time
    asked for. *)
Lemma Cache_deadline m t0 t k v x : t0 <= t -> 0 < x -> second <= t0 ->
  let m' := snd (a_serve m t0 (QSet k v x)) in
  (live m' t k <> None -> t < t0 + x) /\ (t + second <= t0 + x -> live m' t k <> None).
Proof.
  intros Ht Hx H0. cbn. rewrite live_insert, bool_decide_true by done. unfold expired, Unix. cbn [Expire].
  rewrite (proj2 (Z.ltb_lt 0 x)) by done. unfold second in *. split.
  - destruct (_ && _) eqn:E; [done|]. intros _. apply andb_false_iff in E as [E|E]; [apply Z.ltb_ge in E|apply Z.leb_gt in E]; Z.to_euclidean_division_equations; lia.
  - intros Hl. destruct (_ && _) eqn:E; [|done]. apply andb_true_iff in E as [_ E%Z.leb_le]. Z.to_euclidean_division_equations; lia.
Qed.
End Cache.

(** [NewCacheWithMapper] does not use its argument. *)
Definition NewCacheWithMapper {M H K V} `{HashMap H K (Item V)} (mapper : M) : Hmap H := NewHmap.
Definition NewCache {H K V} `{HashMap H K (Item V)} : Hmap H := NewCacheWithMapper (NewHmap (H := H)).

(** ** The loading cache *)

Record DefxValue {V : Type} := DxV { dx_value : V; dx_exp : Z }.
Arguments DefxValue : clear implicits.
Arguments DxV {V}.
Arguments dx_value {V}.
Arguments dx_exp {V}.

Section Defx.
Context {K V E : Type} `{Countable K} (zero : V).
Context {S : Type} `{!Mapper S K (DefxValue V)}.

(** The errors: [ErrKeyExpired], or the loader's. *)
Inductive DefxError := ErrKeyExpired | ELoader (e : E).

(** The fields of [Defx] beside the map; a nil loader loads zero values. What
    [onExpire] does is an effect on the client's state [A]. *)
Record Defx {A : Type} := Dx {
  dx_expire : Z; dx_loader : option (K -> E + V); dx_onExpire : option (K -> V -> A -> A)
}.
Arguments Defx : clear implicits.
Context {A : Type}.

Definition loader (d : Defx A) : K -> E + V := default (fun _ => inr zero) (dx_loader d).
Definition SetOnExpire (d : Defx A) (cb : option (K -> V -> A -> A)) : Defx A := Dx A (dx_expire d) (dx_loader d) cb.
Definition SetExpire (d : Defx A) (expire : Z) : Defx A := Dx A expire (dx_loader d) (dx_onExpire d).

(** [onExpire] is called, if it is set. *)
Definition notify (d : Defx A) (k : K) (v : V) (a : A) : A :=
  match dx_onExpire d with Some cb => cb k v a | None => a end.

Definition Defx_delete (d : Defx A) (m : S) (key : K) (v : V) (a : A) : option (S * A) :=
  let a := notify d key v a in
  m ← Delete m key; Some (m, a).

Definition Defx_Close (d : Defx A) (m : S) (a : A) : option (S * A) :=
  Range (deleting (fun _ _ => true) (fun k val a => notify d k (dx_value val) a)) m a.

(** One tick of [gcRound]. *)
Definition Defx_gc (d : Defx A) (m : S) (now : Z) (a : A) : option (S * A) :=
  Range (deleting (fun _ val => dx_exp val <? Unix now) (fun k val a => notify d k (dx_value val) a)) m a.

(** [load]; the clock is read again after the loader, at [now']. *)
Definition Defx_load (d : Defx A) (m : S) (now now' : Z) (key : K) : option ((DefxError + DefxValue V) * S) :=
  r ← Load m key;
  match r with
  | Some val => Some (if dx_exp val <? Unix now then inl ErrKeyExpired else inr val, m)
  | None =>
      match loader d key with
      | inl e => Some (inl (ELoader e), m)
      | inr v =>
          let val := DxV v (Unix (now' + dx_expire d)) in
          m ← Set_ m key val; Some (inr val, m)
      end
  end.

Definition Defx_Load (d : Defx A) (m : S) (now now' : Z) (key : K) : option (V * option DefxError * S) :=
  r ← Defx_load d m now now' key;
  Some (match r with
        | (inl e, m) => (zero, Some e, m)
        | (inr v, m) => (dx_value v, None, m)
        end).

Definition Defx_Loaded (m : S) (now : Z) (key : K) : option bool :=
  r ← Load m key;
  Some (match r with Some val => negb (dx_exp val <? Unix now) | None => false end).

Definition Defx_Range {B} (m : S) (cb : K -> V -> B -> bool * B) (b : B) : option (S * B) :=
  Range (fun key val m b => let '(go_on, b) := cb key (dx_value val) b in Some (go_on, m, b)) m b.

Definition Defx_Delete (d : Defx A) (m : S) (key : K) (a : A) : option (S * A) :=
  r ← Load m key;
  match r with
  | Some val => Defx_delete d m key (dx_value val) a
  | None => Some (m, a)
  end.

(** Over a map whose [Range] lets the callback delete, a tick of the collector
    ends; it removes the expired entries and reports each of them once. *)
Lemma Defx_gc_spec `{!Reentrant S K (DefxValue V)} d m now a : usable m ->
  exists l m', l ≡ₚ map_to_list (filter (fun kv => dx_exp (snd kv) < Unix now) (contents m)) /\
    Defx_gc d m now a = Some (m', foldl (fun a kv => notify d (fst kv) (dx_value (snd kv)) a) a l) /\
    usable m' /\ contents m' = filter (fun kv => ~ dx_exp (snd kv) < Unix now) (contents m).
Proof.
  intros Hu. unfold Defx_gc. edestruct (Range_delete (S := S)) as (l & m' & Hl & Er & Hu' & Hc); [done|].
  exists l, m'. split_and!; [|exact Er|done|].
  - rewrite Hl. apply eq_subrelation; [apply _|]. f_equal. apply map_filter_ext. intros k v _. cbn. by rewrite Z.ltb_lt.
  - rewrite Hc. apply map_filter_ext. intros k v _. cbn. by rewrite Z.ltb_ge, Z.nlt_ge.
Qed.

(** An entry that has expired and has not been collected is an error; the loader
    is not asked. *)
Lemma Defx_Load_expired d m now now' key val : usable m -> contents m !! key = Some val -> dx_exp val < Unix now ->
  Defx_Load d m now now' key = Some (zero, Some ErrKeyExpired, m).
Proof.
  intros Hu Hk Hx. unfold Defx_Load, Defx_load. rewrite Load_spec, Hk by done. cbn. by rewrite (proj2 (Z.ltb_lt _ _) Hx).
Qed.

(** After a load that succeeded, the value stays until it expires. *)
Lemma Defx_Load_again d m now now' t key v m' : usable m -> contents m !! key = None -> loader d key = inr v ->
  Unix t <= Unix (now' + dx_expire d) -> Defx_Load d m now now' key = Some (v, None, m') ->
  Defx_Load d m' t t key = Some (v, None, m').
Proof.
  intros Hu Hk Hl Ht. unfold Defx_Load at 1, Defx_load. rewrite Load_spec, Hk by done. cbn. rewrite Hl.
  destruct (Set_spec m key (DxV v (Unix (now' + dx_expire d))) Hu) as (m2 & -> & Hu2 & Hc2). cbn. intros [= <-].
  unfold Defx_Load, Defx_load. rewrite Load_spec, Hc2, lookup_insert_eq by done. cbn.
  by rewrite (proj2 (Z.ltb_ge _ _) Ht).
Qed.
End Defx.
Arguments Defx : clear implicits.

(** over a Go map under a lock, [Close] of a loading cache that has an entry
    blocks forever, and so does the first tick of the collector that finds an
    expired entry: [Range] holds the lock that [Delete] in its callback waits
    for. In all other cases both return. *)
Theorem Defx_Mmap_blocks {K V E A : Type} `{Countable K} (order : gmap K (DefxValue V) -> list (K * DefxValue V))
    (order_perm : forall m, order m ≡ₚ map_to_list m) (d : Defx K V E A) (h : Mmap K (DefxValue V)) (now : Z) (a : A) :
  mm_l h = false ->
  (Defx_Close (Mapper0 := Mmap_Mapper order order_perm) d h a = None <-> mm_m h <> ∅) /\
  (Defx_gc (Mapper0 := Mmap_Mapper order order_perm) d h now a = None <->
     exists k val, mm_m h !! k = Some val /\ dx_exp val < Unix now).
Proof.
  intros Hh. split.
  - unfold Defx_Close. cbn [Range Mmap_Mapper]. rewrite Mmap_Range_deleting by done. split.
    + intros (k & v & Hk & _) E0. by rewrite E0, lookup_empty in Hk.
    + intros Hne. apply map_choose in Hne as (k & v & Hk). eauto.
  - unfold Defx_gc. cbn [Range Mmap_Mapper]. rewrite Mmap_Range_deleting by done. by setoid_rewrite Z.ltb_lt.
Qed.

(** ** Loading sessions *)

Section Defv.
Context {K V E : Type} `{Countable K} (zero : V).

(** The loader and the sessions that the pool holds. *)
Record DefvSession := DvS { dv_m : gmap K V }.
Record Defv := Dv { dv_loader : K -> E + V; dv_pool : list DefvSession }.

Definition NewDefv (loader : option (K -> E + V)) : Defv := Dv (default (fun _ => inr zero) loader) [].

(** [pool.Get]: the session at place [i] of the pool, or a new one. *)
Definition Session (d : Defv) (i : nat) : DefvSession * Defv :=
  match dv_pool d !! i with
  | Some s => (s, Dv (dv_loader d) (delete i (dv_pool d)))
  | None => (DvS ∅, d)
  end.

Definition DefvSession_Close (d : Defv) (s : DefvSession) : Defv := Dv (dv_loader d) (DvS ∅ :: dv_pool d).

Definition DefvSession_Load (d : Defv) (s : DefvSession) (key : K) : (E + V) * DefvSession :=
  match dv_m s !! key with
  | Some val => (inr val, s)
  | None =>
      match dv_loader d key with
      | inl e => (inl e, s)
      | inr val => (inr val, DvS (<[key := val]> (dv_m s)))
      end
  end.

Definition DefvSession_Set (s : DefvSession) (key : K) (val : V) : DefvSession := DvS (<[key := val]> (dv_m s)).

Definition DefvSession_Change (d : Defv) (s : DefvSession) (key : K) (cb : V -> E + V) : option E * DefvSession :=
  match DefvSession_Load d s key with
  | (inl e, s) => (Some e, s)
  | (inr val, s) =>
      match cb val with
      | inl e => (Some e, s)
      | inr val => (None, DefvSession_Set s key val)
      end
  end.

Definition DefvSession_Delete (s : DefvSession) (key : K) : DefvSession := DvS (delete key (dv_m s)).

(** Sessions in the pool hold nothing, so that a session starts empty. *)
Definition pool_clean (d : Defv) : Prop := Forall (fun s => dv_m s = ∅) (dv_pool d).

Lemma Close_clean d s : pool_clean d -> pool_clean (DefvSession_Close d s).
Proof. by constructor. Qed.

Lemma Session_clean d i : pool_clean d -> dv_m (fst (Session d i)) = ∅ /\ pool_clean (snd (Session d i)).
Proof.
  intros Hd. unfold Session. destruct (dv_pool d !! i) as [s|] eqn:Ei; [|done]. split.
  - by apply (Forall_lookup_1 _ _ _ _ Hd Ei).
  - by apply Forall_delete.
Qed.

(** In a session a key keeps the value that was first loaded for it. *)
Lemma Load_again d s key v s' : DefvSession_Load d s key = (inr v, s') -> DefvSession_Load d s' key = (inr v, s').
Proof.
  unfold DefvSession_Load. destruct (dv_m s !! key) as [w|] eqn:Ek; [by intros [= -> <-]; rewrite Ek|].
  destruct (dv_loader d key); [done|]. intros [= -> <-]. cbn. by rewrite lookup_insert_eq.
Qed.
End Defv.

(** ** Concrete maps *)

(** A finite map as a hash map: [Range] visits the entries that were there. *)
Section Demo.
Context {K V : Type} `{Countable K}.

Fixpoint demo_range {A} (f : K -> V -> gmap K V -> A -> option (bool * gmap K V * A)) (l : list (K * V)) (h : gmap K V) (a : A)
    : option (gmap K V * A) :=
  match l with
  | [] => Some (h, a)
  | (k, v) :: l' =>
      r ← f k v h a;
      let '(go_on, h, a) := (r : bool * gmap K V * A) in
      if (go_on : bool) then demo_range f l' h a else Some (h, a)
  end.

Lemma demo_range_visit {A} (g : K -> V -> A -> bool * A) f l h (a : A) :
  (forall k v h a, f k v h a = Some (fst (g k v a), h, snd (g k v a))) ->
  demo_range f l h a = Some (h, visit g l a).
Proof.
  intros Hf. revert a. induction l as [|[k v] l IH]; intros a; [done|]. cbn [demo_range visit]. rewrite Hf. cbn.
  destruct (g k v a) as [[] a']; cbn; [apply IH|done].
Qed.

Lemma demo_range_delete {A} (p : K -> V -> bool) (e : K -> V -> A -> A) f :
  (forall k v h a, f k v h a = if p k v then Some (true, delete k h, e k v a) else Some (true, h, a)) ->
  forall l h a, demo_range f l h a =
    Some (foldl (fun h kv => if p (fst kv) (snd kv) then delete (fst kv) h else h) h l,
          foldl (fun a kv => e (fst kv) (snd kv) a) a (filter (fun kv => p (fst kv) (snd kv) = true) l)).
Proof.
  intros Hf. induction l as [|[k v] l IH]; intros h a; [done|]. cbn [demo_range foldl fst snd]. rewrite Hf, filter_cons. cbn [fst snd].
  destruct (p k v); cbn; apply IH.
Qed.

Lemma foldl_delete (p : K -> V -> bool) (l : list (K * V)) : forall (h : gmap K V) k v,
  foldl (fun h kv => if p (fst kv) (snd kv) then delete (fst kv) h else h) h l !! k = Some v <->
  h !! k = Some v /\ forall w, (k, w) ∈ l -> p k w = false.
Proof.
  induction l as [|[k' v'] l IH]; intros h k v; cbn [foldl fst snd]; [set_solver|]. rewrite IH. destruct (p k' v') eqn:Ep.
  - rewrite lookup_delete_Some. split.
    + intros [[Hne Hk] Hw]. split; [done|]. intros w [[= -> ->]|Hin]%elem_of_cons; [done|by apply Hw].
    + intros [Hk Hw]. split_and!; [intros <-|done|intros w Hin; apply Hw; by right].
      specialize (Hw v' ltac:(by left)). congruence.
  - split.
    + intros [Hk Hw]. split; [done|]. intros w [[= -> ->]|Hin]%elem_of_cons; [done|by apply Hw].
    + intros [Hk Hw]. split; [done|]. intros w Hin. apply Hw. by right.
Qed.

#[export] Program Instance gmap_HashMap : HashMap (gmap K V) K V := {
  h_New := ∅; h_Get h k := h !! k; h_Set h k v := <[k := v]> h; h_Del h k := delete k h; h_Len h := size h;
  h_GetOrInsert h k v := match h !! k with Some w => (w, true, h) | None => (v, false, <[k := v]> h) end;
  h_Range A f h a := demo_range f (map_to_list h) h a; h_contents h := h
}.
Next Obligation. done. Qed.
Next Obligation. done. Qed.
Next Obligation. done. Qed.
Next Obligation. done. Qed.
Next Obligation. done. Qed.
Next Obligation. intros A g f h a Hf. eexists _, h. split; [reflexivity|]. by rewrite (demo_range_visit g). Qed.
Next Obligation.
  intros A p e f h a Hf. eexists _, _. split; [|split; [by apply demo_range_delete|]].
  - apply NoDup_Permutation; [apply NoDup_filter, NoDup_map_to_list|apply NoDup_map_to_list|]. intros [k v].
    rewrite list_elem_of_filter, !elem_of_map_to_list, map_lookup_filter_Some. cbn. tauto.
  - apply map_eq. intros k. apply option_eq. intros v. rewrite foldl_delete, map_lookup_filter_Some. cbn.
    setoid_rewrite elem_of_map_to_list. split; intros [Hk Hp]; (split; [done|]); [by apply Hp|]. intros w Hw. congruence.
Qed.
End Demo.


(** A value without an expiry, set between the test and the [Delete] of the
    collector, is lost. *)
Example collector_loses_value :
  serve_all (S := Hmap (gmap Z (Item Z))) 0 (HMap ∅) GIdle
    [(5 * second, QSet 1 7 second); (9 * second, QGc GTick); (9 * second, QGc (GVisit 1)); (9 * second, QSet 1 8 0);
     (9 * second, QGet 1); (9 * second, QGc GCollect); (9 * second, QGet 1)] =
  Some [ANone; ANone; ANone; ANone; AGet 8; ANone; AGet 0].
Proof. by vm_compute. Qed.

Lemma Defx_Mmap_blocks_witness :
  Defx_Close (S := Mmap Z (DefxValue Z)) (Mapper0 := Mmap_Mapper map_to_list (fun m => reflexivity _))
    (Dx (K := Z) (V := Z) (E := unit) unit 1 None None) (MMap {[1 := DxV 7 3]} false) tt = None.
Proof.
  apply (Defx_Mmap_blocks (E := unit) map_to_list (fun m => reflexivity _) (Dx unit 1 None None) (MMap {[1 := DxV 7 3]} false) 0 tt).
  - done.
  - done.
Defined.
End Umap.
