(* ===== verification/Mlock.v ===== *)
(** * Locks by key ([src/umap/mlock.go])

    A lock is a channel of capacity one, kept in a map under its key and made on
    first use; to lock is to send, to unlock is to receive. Goroutines interleave
    between the calls of the map and the operations on channels, so the methods
    are split at these points and run by a scheduler: one action of one goroutine
    at a time. *)
From stdpp Require Import base numbers list gmap.
From S2P Require Import Prelude.

Module Mlock.

Section Mlock.
Context {K : Type} `{Countable K}.

(** ** Goroutines *)

(** The methods that begin with [getLocker]; [OLock true] is [LockWithContext]
    with a context that can end, [OLock false] is [Lock]. *)
Inductive op := OLock (ctx : bool) | OIsLocked | OUnlock | ORelease.

(** What follows [unlock]: [Unlock] returns, [Release] deletes the key,
    [ReleaseAll] deletes it and goes on. *)
Inductive after := AReturn | ADelete | ARange.

(** Where a goroutine is: outside the package; in [getLocker], before [Load] or
    before [Set]; in the [select] of a lock; before [len] in [IsLocked]; in
    [unlock], before [len] or before the receive; before [Delete]; in [Range]. *)
Inductive pc :=
| Idle
| PLoad (o : op) (k : K)
| PSet (o : op) (k : K)
| PSend (ctx : bool) (k : K) (c : nat)
| PIsLen (c : nat)
| PLen (x : after) (k : K) (c : nat)
| PRecv (x : after) (k : K) (c : nat)
| PDelete (all : bool) (k : K)
| PRange.

(** A goroutine: the keys it has locked and has not begun to unlock, and the
    last result it got (of [IsLocked], or whether locking succeeded). *)
Record thread := Th { t_pc : pc; held : gset K; ret : bool }.

(** The map from keys to channels, the channels (whether they hold an element),
    the goroutines. *)
Record mlock := ML { h : gmap K nat; chans : list bool; threads : list thread }.

Definition NewLocker (n : nat) : mlock := ML ∅ [] (replicate n (Th Idle ∅ false)).

(** ** Actions *)

Inductive action :=
| ACall (o : op) (k : K)   (* call a method *)
| AReleaseAll
| AStep                    (* run to the next point *)
| ACancel                  (* the context ends *)
| ANext (k : K)            (* [Range] calls back with [k] *)
| AEnd.                    (* [Range] ends *)

Definition goto (s : mlock) (t : nat) (th : thread) (p : pc) : mlock :=
  ML (h s) (chans s) (<[t := Th p (held th) (ret th)]> (threads s)).

(** After [getLocker] found the channel [c]. *)
Definition found (o : op) (k : K) (c : nat) : pc :=
  match o with
  | OLock ctx => PSend ctx k c
  | OIsLocked => PIsLen c
  | OUnlock => PLen AReturn k c
  | ORelease => PLen ADelete k c
  end.

(** After [unlock]. *)
Definition unlocked (x : after) (k : K) : pc :=
  match x with AReturn => Idle | ADelete => PDelete false k | ARange => PDelete true k end.

(** One action of the goroutine [t]; [None] when it cannot be taken: it is not
    there, or the goroutine is blocked on a channel. *)
Definition step (s : mlock) (t : nat) (a : action) : option mlock :=
  th ← threads s !! t;
  match t_pc th, a with
  | Idle, ACall o k =>
      let held' := match o with OUnlock | ORelease => held th ∖ {[k]} | _ => held th end in
      Some (ML (h s) (chans s) (<[t := Th (PLoad o k) held' (ret th)]> (threads s)))
  | Idle, AReleaseAll => Some (goto s t th PRange)
  | PLoad o k, AStep =>
      Some (goto s t th (match h s !! k with Some c => found o k c | None => PSet o k end))
  | PSet o k, AStep =>
      Some (ML (<[k := length (chans s)]> (h s)) (chans s ++ [false])
              (<[t := Th (PLoad o k) (held th) (ret th)]> (threads s)))
  | PSend ctx k c, AStep =>
      full ← chans s !! c;
      if (full : bool) then None
      else Some (ML (h s) (<[c := true]> (chans s)) (<[t := Th Idle (held th ∪ {[k]}) true]> (threads s)))
  | PSend true k c, ACancel => Some (ML (h s) (chans s) (<[t := Th Idle (held th) false]> (threads s)))
  | PIsLen c, AStep =>
      full ← chans s !! c;
      Some (ML (h s) (chans s) (<[t := Th Idle (held th) full]> (threads s)))
  | PLen x k c, AStep =>
      full ← chans s !! c;
      Some (goto s t th (if (full : bool) then PRecv x k c else unlocked x k))
  | PRecv x k c, AStep =>
      full ← chans s !! c;
      if (full : bool) then
        Some (ML (h s) (<[c := false]> (chans s)) (<[t := Th (unlocked x k) (held th) (ret th)]> (threads s)))
      else None
  | PDelete all k, AStep =>
      Some (ML (delete k (h s)) (chans s)
              (<[t := Th (if (all : bool) then PRange else Idle) (held th) (ret th)]> (threads s)))
  | PRange, ANext k => c ← h s !! k; Some (goto s t th (PLen ARange k c))
  | PRange, AEnd => Some (goto s t th Idle)
  | _, _ => None
  end.

Fixpoint run (s : mlock) (tr : list (nat * action)) : option mlock :=
  match tr with
  | [] => Some s
  | (t, a) :: tr' => s' ← step s t a; run s' tr'
  end.

(** [t] has locked [k] and not begun to unlock it. *)
Definition holds (s : mlock) (t : nat) (k : K) : Prop :=
  exists th, threads s !! t = Some th /\ k ∈ held th.

(** ** The discipline of the clients *)

(** Only the holder of a key unlocks it; locks are not released. *)
Definition allowed (s : mlock) (t : nat) (a : action) : Prop :=
  match a with
  | ACall OUnlock k => holds s t k
  | ACall ORelease _ | AReleaseAll => False
  | _ => True
  end.

Inductive reach (s0 : mlock) : mlock -> Prop :=
| reach_refl : reach s0 s0
| reach_step s t a s' : reach s0 s -> allowed s t a -> step s t a = Some s' -> reach s0 s'.

Section Key.
Context (k : K) (c : nat).

(** The key has a channel of its own, and nobody uses the locks yet. *)
Definition ready (s : mlock) : Prop :=
  h s !! k = Some c /\ (forall k', h s !! k' = Some c -> k' = k) /\ chans s !! c = Some false /\
  Forall (fun th => t_pc th = Idle /\ k ∉ held th) (threads s).

Definition unlocking (p : pc) : Prop :=
  p = PLoad OUnlock k \/ p = PLen AReturn k c \/ p = PRecv AReturn k c.

Definition owns (th : thread) : Prop := k ∈ held th \/ unlocking (t_pc th).

(** Goroutines have the right channels, and none releases locks. *)
Definition pc_ok (p : pc) : Prop :=
  match p with
  | Idle | PIsLen _ => True
  | PLoad o _ => o <> ORelease
  | PSet o k' => o <> ORelease /\ k' <> k
  | PSend _ k' c' => k' = k <-> c' = c
  | PLen x k' c' | PRecv x k' c' => x = AReturn /\ (k' = k <-> c' = c)
  | PDelete _ _ | PRange => False
  end.

Record inv (s : mlock) : Prop := {
  i_here : h s !! k = Some c;
  i_only : forall k', h s !! k' = Some c -> k' = k;
  i_pc : Forall (fun th => pc_ok (t_pc th) /\ ~ (k ∈ held th /\ unlocking (t_pc th))) (threads s);
  i_owner : exists o, chans s !! c = Some (bool_decide (is_Some o)) /\ (forall t, o = Some t -> t < length (threads s)) /\
    forall t th, threads s !! t = Some th -> owns th <-> o = Some t
}.

Lemma ready_inv s : ready s -> inv s.
Proof.
  intros (Hh & Ho & Hc & Hth). split; [done|done| |].
  - eapply Forall_impl; [exact Hth|]. intros th [-> Hk]. split; [done|]. by intros [? _].
  - exists None. split_and!; [done|done|]. intros t th Ht. rewrite Forall_lookup in Hth. destruct (Hth t th Ht) as [Hp Hk].
    split; [|done]. intros [?|[E|[E|E]]]; congruence.
Qed.

(** A goroutine takes a step that leaves the channel of the key alone. *)
Lemma inv_keep s t th th' h' chans' : inv s -> threads s !! t = Some th ->
  h' !! k = Some c -> (forall k', h' !! k' = Some c -> k' = k) -> chans' !! c = chans s !! c ->
  pc_ok (t_pc th') -> ~ (k ∈ held th' /\ unlocking (t_pc th')) -> (owns th' <-> owns th) ->
  inv (ML h' chans' (<[t := th']> (threads s))).
Proof.
  intros [_ _ Hpc (o & Hc & Hlt & Ho)] Ht Hh Hon Hch Hp Hn Hw. split; [done|done| |].
  - by apply Forall_insert.
  - exists o. cbn [chans threads]. rewrite length_insert. split_and!; [by rewrite Hch|done|]. intros u tu Hu.
    apply list_lookup_insert_Some in Hu as [(<- & <- & _)|[_ Hu]]; [rewrite Hw; by apply Ho|by apply Ho].
Qed.

(** A goroutine that did not own the key takes it, or the owner gives it up. *)
Lemma inv_move s t th th' full : inv s -> threads s !! t = Some th ->
  pc_ok (t_pc th') -> ~ (k ∈ held th' /\ unlocking (t_pc th')) ->
  (if (full : bool) then chans s !! c = Some false /\ owns th' else chans s !! c = Some true /\ owns th /\ ~ owns th') ->
  inv (ML (h s) (<[c := full]> (chans s)) (<[t := th']> (threads s))).
Proof.
  intros [Hh Hon Hpc (o & Hc & _ & Ho)] Ht Hp Hn Hw. pose proof (lookup_lt_Some _ _ _ Hc) as Hlt. split; [done|done|by apply Forall_insert|].
  exists (if full then Some t else None). cbn [chans threads]. rewrite length_insert. split_and!.
  { rewrite list_lookup_insert_eq by done. by destruct full. }
  { destruct full; [|done]. intros u [= <-]. by eapply lookup_lt_Some. }
  intros u tu Hu. apply list_lookup_insert_Some in Hu as [(<- & <- & _)|[Hne Hu]].
  - destruct full; [destruct Hw; split; auto|]. destruct Hw as (_ & _ & Hw). by split.
  - pose proof (Ho u tu Hu) as Hou. destruct full.
    + destruct Hw as [Hw _]. rewrite Hc in Hw. injection Hw as Hw. split; [|by intros [= ->]].
      intros Hown%Hou. subst o. by rewrite bool_decide_true in Hw.
    + destruct Hw as (_ & Hw & _). split; [|done]. intros Hown%Hou. apply (Ho t th Ht) in Hw. congruence.
Qed.

Lemma owner_full s t th : inv s -> threads s !! t = Some th -> owns th -> chans s !! c = Some true.
Proof. intros [_ _ _ (o & Hc & _ & Ho)] Ht Hw. apply (Ho t th Ht) in Hw. subst o. by rewrite Hc, bool_decide_true. Qed.

(** The goroutine does not unlock the key, before and after. *)
Lemma owns_held (p : pc) hd rt : ~ unlocking p -> owns (Th p hd rt) <-> k ∈ hd.
Proof. intros Hp. unfold owns. cbn. tauto. Qed.

Lemma not_unlocking p :
  match p with
  | PLoad o k' => o <> OUnlock \/ k' <> k
  | PLen _ k' _ | PRecv _ k' _ => k' <> k
  | _ => True
  end -> ~ unlocking p.
Proof. intros Hp [-> |[-> | ->]]; cbn in Hp; tauto. Qed.

Lemma call_inv s t o k' hd rt : inv s -> allowed s t (ACall o k') -> threads s !! t = Some (Th Idle hd rt) ->
  inv (ML (h s) (chans s) (<[t := Th (PLoad o k') (match o with OUnlock | ORelease => hd ∖ {[k']} | _ => hd end) rt]> (threads s))).
Proof.
  intros Hi Hal Ht. pose proof Hi as [Hh Hon _ _].
  assert (Hidle : owns (Th Idle hd rt) <-> k ∈ hd) by (apply owns_held, not_unlocking; done).
  eapply inv_keep; [done|exact Ht|done|done|done|by destruct o| |]; cbn [t_pc held].
  - intros [Hk [[= -> ->]|[?|?]]]; [set_solver|done..].
  - rewrite Hidle. destruct o; try (by apply owns_held, not_unlocking; left); [|done]. unfold owns, unlocking. cbn.
    destruct Hal as (th & Ht' & Hin). rewrite Ht in Ht'. injection Ht' as <-. cbn in Hin.
    destruct (decide (k' = k)) as [-> |Hne]; [set_solver|].
    split; [intros [?|[[= ->]|[?|?]]]; [set_solver|done..]|set_solver].
Qed.

Lemma load_inv s t o k' hd rt : inv s -> threads s !! t = Some (Th (PLoad o k') hd rt) ->
  inv (ML (h s) (chans s) (<[t := Th (match h s !! k' with Some c' => found o k' c' | None => PSet o k' end) hd rt]> (threads s))).
Proof.
  intros Hi Ht. pose proof Hi as [Hh Hon Hpc _]. destruct (Forall_lookup_1 _ _ _ _ Hpc Ht) as [Hp Hn]. cbn in Hp, Hn.
  assert (Hsame : forall c', h s !! k' = Some c' -> k' = k <-> c' = c).
  { intros c' E. split; [intros ->; congruence|intros ->; by apply Hon]. }
  assert (Hu : unlocking (match h s !! k' with Some c' => found o k' c' | None => PSet o k' end) <-> unlocking (PLoad o k')).
  { destruct (h s !! k') as [c'|] eqn:E.
    - specialize (Hsame c' eq_refl). unfold unlocking. destruct o; cbn; naive_solver.
    - unfold unlocking. split; [naive_solver|]. intros [[= -> ->]|[?|?]]; congruence. }
  eapply inv_keep; [done|exact Ht|done|done|done| | |]; cbn [t_pc held].
  - destruct (h s !! k') as [c'|] eqn:E; [specialize (Hsame c' eq_refl); by destruct o|]. cbn. split; [done|congruence].
  - by rewrite Hu.
  - unfold owns. cbn [t_pc held]. by rewrite Hu.
Qed.

(** A step that moves between points at which the key is not being unlocked. *)
Lemma other_inv s t p hd rt p' hd' rt' h' chans' : inv s -> threads s !! t = Some (Th p hd rt) ->
  h' !! k = Some c -> (forall k', h' !! k' = Some c -> k' = k) -> chans' !! c = chans s !! c ->
  pc_ok p' -> ~ unlocking p -> ~ unlocking p' -> (k ∈ hd' <-> k ∈ hd) ->
  inv (ML h' chans' (<[t := Th p' hd' rt']> (threads s))).
Proof.
  intros Hi Ht Hh Hon Hc Hp Hu Hu' Hhd. eapply inv_keep; [done|exact Ht|done|done|done|done| |].
  - cbn. tauto.
  - by rewrite !owns_held.
Qed.

Lemma step_inv s t a s' : inv s -> allowed s t a -> step s t a = Some s' -> inv s'.
Proof.
  intros Hi Hal. pose proof Hi as [Hh Hon Hpc (ow & Hc & _ & How)]. unfold step. destruct (threads s !! t) as [th|] eqn:Ht; [|done].
  cbn [mbind option_bind]. destruct (Forall_lookup_1 _ _ _ _ Hpc Ht) as [Hp Hn].
  destruct th as [p hd rt]. cbn [t_pc held ret] in *. unfold goto. cbn [t_pc held ret].
  destruct p as [|o k'|o k'|ctx k' c'|c'|x k' c'|x k' c'|all k'|]; try done.
  - destruct a as [o k'| | | | |]; try done. intros [= <-]. by apply call_inv.
  - destruct a; try done. intros [= <-]. by apply load_inv.
  - destruct a; try done. intros [= <-]. destruct Hp as [Ho Hk].
    pose proof (lookup_lt_Some _ _ _ Hc) as Hlt. eapply other_inv; [done|exact Ht| | | | | | |done].
    + by rewrite lookup_insert_ne.
    + intros k2 [[-> E]|[? ?]]%lookup_insert_Some; [lia|by apply Hon].
    + by apply lookup_app_l.
    + done.
    + by apply not_unlocking.
    + apply not_unlocking. by right.
  - destruct a; try (by destruct ctx).
    2:{ destruct ctx; [|done]. intros [= <-]. eapply other_inv; [done|exact Ht|done|done|done|done|by apply not_unlocking|by apply not_unlocking|done]. }
    replace (match ctx with true => _ | false => _ end) with (full ← chans s !! c';
      if (full : bool) then None else Some (ML (h s) (<[c' := true]> (chans s)) (<[t := Th Idle (hd ∪ {[k']}) true]> (threads s))))
      by (by destruct ctx). cbn [mbind option_bind].
    destruct (chans s !! c') as [[]|] eqn:Ec; try done. intros [= <-]. destruct (decide (c' = c)) as [-> |Hne].
    + assert (k' = k) as -> by (by apply Hp). eapply (inv_move s t _ _ true); [done|exact Ht|done| |].
      * cbn. intros [_ Hu]. by apply (not_unlocking Idle).
      * split; [done|]. left. cbn. set_solver.
    + eapply other_inv; [done|exact Ht|done|done|by rewrite list_lookup_insert_ne|done|by apply not_unlocking|by apply not_unlocking|].
      assert (k' <> k) by (intros E; by apply Hne, Hp). set_solver.
  - destruct a; try done. destruct (chans s !! c') as [full|]; [|done]. intros [= <-].
    eapply other_inv; [done|exact Ht|done|done|done|done|by apply not_unlocking|by apply not_unlocking|done].
  - destruct a; try done. destruct (chans s !! c') as [full|] eqn:Ec; [|done]. intros [= <-]. destruct Hp as [-> Hp].
    destruct full.
    + eapply inv_keep; [done|exact Ht|done|done|done|done| |]; cbn [t_pc held].
      * intros [Hk Hu]. apply Hn. split; [done|]. right; left. destruct Hu as [?|[?|[= -> ->]]]; [done..|done].
      * unfold owns, unlocking. cbn. naive_solver.
    + cbn. destruct (decide (k' = k)) as [-> |Hne].
      * assert (c' = c) as -> by (by apply Hp). rewrite (owner_full s t _ Hi Ht) in Ec; [done|]. right. right. by left.
      * eapply other_inv; [done|exact Ht|done|done|done|done|by apply not_unlocking|by apply not_unlocking|done].
  - destruct a; try done. destruct (chans s !! c') as [[]|] eqn:Ec; try done. intros [= <-]. destruct Hp as [-> Hp]. cbn.
    destruct (decide (c' = c)) as [-> |Hne].
    + assert (k' = k) as -> by (by apply Hp). assert (Hw : owns (Th (PRecv AReturn k c) hd rt)) by (right; right; by right).
      eapply (inv_move s t _ _ false); [done|exact Ht|done| |].
      * cbn. intros [_ Hu]. by apply (not_unlocking Idle).
      * split_and!; [done|done|]. rewrite owns_held by (by apply not_unlocking). intros Hk. apply Hn. split; [done|]. right; by right.
    + assert (k' <> k) by (intros E; by apply Hne, Hp).
      eapply other_inv; [done|exact Ht|done|done|by rewrite list_lookup_insert_ne|done|by apply not_unlocking|by apply not_unlocking|done].
Qed.

Lemma reach_inv s0 s : ready s0 -> reach s0 s -> inv s.
Proof. intros Hr. induction 1; [by apply ready_inv|by eapply step_inv]. Qed.

(** *** Progress *)

(** The owner, which is in [unlock] or can go there, empties the channel; the
    goroutine [t] stays where it is. *)
Definition finish (p : pc) : list action :=
  match p with
  | PRecv _ _ _ => [AStep]
  | PLen _ _ _ => [AStep; AStep]
  | PLoad _ _ => [AStep; AStep; AStep]
  | _ => [ACall OUnlock k; AStep; AStep; AStep]
  end.

Lemma run_cons s t a tr s1 : step s t a = Some s1 -> run s ((t, a) :: tr) = run s1 tr.
Proof. intros E. cbn [run]. by rewrite E. Qed.

(** The steps of [unlock], from its end. *)
Section Unlock.
Context (hm : gmap K nat) (ch : list bool) (u : nat) (rt : bool).
Context (Hh : hm !! k = Some c) (Hc : ch !! c = Some true).

Lemma recv_runs ths hd : ths !! u = Some (Th (PRecv AReturn k c) hd rt) ->
  run (ML hm ch ths) [(u, AStep)] = Some (ML hm (<[c := false]> ch) (<[u := Th Idle hd rt]> ths)).
Proof. intros E. erewrite run_cons; [done|]. unfold step. cbn [threads]. rewrite E. cbn. by rewrite Hc. Qed.

Lemma len_runs ths hd : ths !! u = Some (Th (PLen AReturn k c) hd rt) ->
  run (ML hm ch ths) [(u, AStep); (u, AStep)] = Some (ML hm (<[c := false]> ch) (<[u := Th Idle hd rt]> ths)).
Proof.
  intros E. erewrite run_cons; [|unfold step; cbn [threads]; rewrite E; cbn; by rewrite Hc].
  unfold goto. cbn [h chans threads held ret]. erewrite recv_runs by (apply list_lookup_insert_eq; by eapply lookup_lt_Some).
  by rewrite list_insert_insert_eq.
Qed.

Lemma load_runs ths hd : ths !! u = Some (Th (PLoad OUnlock k) hd rt) ->
  run (ML hm ch ths) [(u, AStep); (u, AStep); (u, AStep)] = Some (ML hm (<[c := false]> ch) (<[u := Th Idle hd rt]> ths)).
Proof.
  intros E. erewrite run_cons; [|unfold step; cbn [threads]; rewrite E; cbn; by rewrite Hh].
  unfold goto. cbn [h chans threads held ret found]. erewrite len_runs by (apply list_lookup_insert_eq; by eapply lookup_lt_Some).
  by rewrite list_insert_insert_eq.
Qed.

Lemma call_runs ths hd : ths !! u = Some (Th Idle hd rt) ->
  run (ML hm ch ths) [(u, ACall OUnlock k); (u, AStep); (u, AStep); (u, AStep)] =
  Some (ML hm (<[c := false]> ch) (<[u := Th Idle (hd ∖ {[k]}) rt]> ths)).
Proof.
  intros E. erewrite run_cons; [|unfold step; cbn [threads]; rewrite E; done].
  cbn [h chans threads held ret]. erewrite load_runs by (apply list_lookup_insert_eq; by eapply lookup_lt_Some).
  by rewrite list_insert_insert_eq.
Qed.
End Unlock.

Lemma unlock_runs s u hd rt p : inv s -> threads s !! u = Some (Th p hd rt) -> owns (Th p hd rt) -> (k ∈ hd -> p = Idle) ->
  exists hd', run s (map (pair u) (finish p)) =
    Some (ML (h s) (<[c := false]> (chans s)) (<[u := Th Idle hd' rt]> (threads s))).
Proof.
  intros Hi Hu Hown Hidle. pose proof (owner_full s u _ Hi Hu Hown) as Hc. destruct Hi as [Hh _ _ _].
  destruct s as [hm ch ths]. cbn [h chans threads] in *.
  destruct Hown as [Hk|[E|[E|E]]]; cbn [t_pc held] in *; eexists.
  - rewrite (Hidle Hk) in *. by apply call_runs.
  - subst p. by apply load_runs.
  - subst p. by apply len_runs.
  - subst p. by apply recv_runs.
Qed.

Lemma run_app s tr1 tr2 : run s (tr1 ++ tr2) = s' ← run s tr1; run s' tr2.
Proof.
  revert s. induction tr1 as [|[t a] tr1 IH]; intros s; [done|]. cbn [app run]. destruct (step s t a); [apply IH|done].
Qed.

Lemma send_runs s t ctx hd rt : threads s !! t = Some (Th (PSend ctx k c) hd rt) -> chans s !! c = Some false ->
  exists s', run s [(t, AStep)] = Some s' /\ holds s' t k.
Proof.
  intros Ht Hc. eexists. split.
  - erewrite run_cons; [done|]. unfold step. rewrite Ht. cbn [mbind option_bind t_pc]. destruct ctx; by rewrite Hc.
  - eexists. cbn [threads held]. split; [apply list_lookup_insert_eq; by eapply lookup_lt_Some|]. cbn. set_solver.
Qed.

Lemma progress s t ctx hd rt : inv s -> threads s !! t = Some (Th (PSend ctx k c) hd rt) ->
  (forall u th, threads s !! u = Some th -> k ∈ held th -> t_pc th = Idle) ->
  exists tr s', run s (tr ++ [(t, AStep)]) = Some s' /\ holds s' t k /\
    forall u a, (u, a) ∈ tr -> u <> t /\ exists th, threads s !! u = Some th /\ owns th.
Proof.
  intros Hi Ht Hidle. pose proof Hi as [_ _ _ ([u|] & Hc & Hlt & Ho)].
  2:{ destruct (send_runs s t ctx hd rt Ht Hc) as (s' & Hr & Hs'). exists [], s'. split_and!; [done|done|]. set_solver. }
  destruct (lookup_lt_is_Some_2 _ _ (Hlt u eq_refl)) as [[p hu ru] Hu].
  pose proof (proj2 (Ho u _ Hu) eq_refl) as Hown.
  assert (Hne : u <> t).
  { intros ->. rewrite Ht in Hu. injection Hu as <- <- <-. destruct Hown as [Hk|Hun]; [by apply (Hidle t _ Ht) in Hk|].
    by apply (not_unlocking (PSend ctx k c)) in Hun. }
  destruct (unlock_runs s u hu ru p Hi Hu Hown (Hidle u _ Hu)) as [hd' Hrun].
  destruct (send_runs (ML (h s) (<[c := false]> (chans s)) (<[u := Th Idle hd' ru]> (threads s))) t ctx hd rt) as (s' & Hr & Hs').
  { cbn [threads]. by rewrite list_lookup_insert_ne. }
  { cbn [chans]. apply list_lookup_insert_eq. by eapply lookup_lt_Some. }
  exists (map (pair u) (finish p)), s'. split_and!; [by rewrite run_app, Hrun|done|].
  intros u' a (? & [= <- <-] & _)%list_elem_of_fmap. split; [done|]. by eexists.
Qed.
End Key.

(** ** Claims *)

(** C12: mutual exclusion: when a key has its channel before the goroutines begin,
    only holders unlock, and no lock is released, then in every interleaving of
    any number of goroutines, which may lock, unlock, ask and give up on any
    keys, at most one of them holds the key, and while one does, its channel is
    full, so that [IsLocked] says so. *)
Theorem mlock_exclusion (k : K) (c : nat) (s0 s : mlock) :
  ready k c s0 -> reach s0 s ->
  (forall t u, holds s t k -> holds s u k -> t = u) /\
  (forall t, holds s t k -> h s !! k = Some c /\ chans s !! c = Some true).
Proof.
  intros Hr Hs. pose proof (reach_inv k c s0 s Hr Hs) as Hi. split.
  - intros t u (th & Ht & Hk) (tu & Hu & Hk'). destruct Hi as [_ _ _ (o & _ & _ & Ho)].
    pose proof (proj1 (Ho t th Ht) (or_introl Hk)). pose proof (proj1 (Ho u tu Hu) (or_introl Hk')). congruence.
  - intros t (th & Ht & Hk). split; [by destruct Hi|]. eapply owner_full; [exact Hi|exact Ht|by left].
Qed.

(** C28: progress: under the same discipline, a goroutine that waits for a key can
    always get it: whatever state the goroutines have reached, if the holder of
    the key is not itself inside a call, then the steps by which it unlocks (none
    when nobody holds the key) can be taken, and after them the waiting goroutine
    can take its own step and holds the key; no other goroutine has to move. *)
Theorem mlock_progress (k : K) (c : nat) (s0 s : mlock) (t : nat) (ctx : bool) (hd : gset K) (rt : bool) :
  ready k c s0 -> reach s0 s -> threads s !! t = Some (Th (PSend ctx k c) hd rt) ->
  (forall u th, threads s !! u = Some th -> k ∈ held th -> t_pc th = Idle) ->
  exists tr s', run s (tr ++ [(t, AStep)]) = Some s' /\ holds s' t k /\
    forall u a, (u, a) ∈ tr -> u <> t /\ exists th, threads s !! u = Some th /\ owns k c th.
Proof. intros Hr Hs. apply progress. by eapply reach_inv. Qed.
End Mlock.
Arguments mlock : clear implicits.
Arguments mlock K {_ _}.

(** *** Concrete interleavings *)

(** Two goroutines; the key 7 has its channel. *)
Definition demo : mlock Z := ML {[7%Z := 0]} [false] [Th Idle ∅ false; Th Idle ∅ false].

Lemma demo_ready : ready 7%Z 0 demo.
Proof.
  split_and!; [done| |done|by repeat constructor]. intros k' Hk. cbn in Hk. apply lookup_singleton_Some in Hk. by destruct Hk.
Qed.

(** The first goroutine has the lock, the second waits. *)
Definition demo_waits : mlock Z := ML {[7%Z := 0]} [true] [Th Idle {[7%Z]} true; Th (PSend false 7%Z 0) ∅ false].

Lemma demo_reach : reach demo demo_waits.
Proof.
  eapply (reach_step _ _ 1 AStep); [eapply (reach_step _ _ 1 (ACall (OLock false) 7%Z));
    [eapply (reach_step _ _ 0 AStep); [eapply (reach_step _ _ 0 AStep);
      [eapply (reach_step _ _ 0 (ACall (OLock false) 7%Z)); [apply reach_refl|done|by vm_compute]|done|by vm_compute]
     |done|by vm_compute]|done|by vm_compute]|done|by vm_compute].
Qed.

Lemma mlock_exclusion_witness : h demo_waits !! 7%Z = Some 0 /\ chans demo_waits !! 0 = Some true.
Proof.
  apply (proj2 (mlock_exclusion 7%Z 0 demo demo_waits demo_ready demo_reach) 0).
  exists (Th Idle {[7%Z]} true). split; [done|]. set_solver.
Defined.

Lemma mlock_progress_witness :
  exists tr s', run demo_waits (tr ++ [(1, AStep)]) = Some s' /\ holds s' 1 7%Z /\
    forall u a, (u, a) ∈ tr -> u <> 1 /\ exists th, threads demo_waits !! u = Some th /\ owns 7%Z 0 th.
Proof.
  apply (mlock_progress 7%Z 0 demo demo_waits 1 false ∅ false demo_ready demo_reach); [done|].
  intros [|[|u]] th [= <-] Hk; [done|]. set_solver.
Defined.

(** Two goroutines that lock a key for the first time at the same time both get
    it: each makes a channel of its own. *)
Example first_use_race : exists s,
  run (NewLocker 2) [(0, ACall (OLock false) 7%Z); (1, ACall (OLock false) 7%Z); (0, AStep); (1, AStep);
    (0, AStep); (0, AStep); (0, AStep); (1, AStep); (1, AStep); (1, AStep)] = Some s /\
  holds s 0 7%Z /\ holds s 1 7%Z.
Proof.
  eexists. split; [by vm_compute|]. split; (eexists; split; [done|]; by refine (bool_decide_unpack _ _); vm_compute).
Qed.

(** A second [Unlock], which saw the lock taken, waits for the channel and takes
    the element of the next holder: then two goroutines hold the key. *)
Example unlock_steals : exists s,
  run (ML {[7%Z := 0]} [false] (replicate 4 (Th Idle ∅ false)))
   ([(0, ACall (OLock false) 7%Z); (0, AStep); (0, AStep);
     (0, ACall OUnlock 7%Z); (0, AStep); (0, AStep); (1, ACall OUnlock 7%Z); (1, AStep); (1, AStep); (0, AStep);
     (2, ACall (OLock false) 7%Z); (2, AStep); (2, AStep); (1, AStep);
     (3, ACall (OLock false) 7%Z); (3, AStep); (3, AStep)]) = Some s /\
  holds s 2 7%Z /\ holds s 3 7%Z.
Proof.
  eexists. split; [by vm_compute|]. split; (eexists; split; [done|]; by refine (bool_decide_unpack _ _); vm_compute).
Qed.
End Mlock.
