(* ===== verification/PgReader.v ===== *)
(** * Readers of the database connection ([src/upg/internal/pool/reader*.go])

    The interface [Reader] with its two implementations: [BytesReader], a
    window of bytes in memory, and [BufReader], a buffer of fixed size in front
    of the connection, whose [available] field limits what a client may read.
    The connection itself is an argument, the class [Source].

    Code that reads keeps the state of the reader when it fails, since what the
    next call sees depends on it: such code has type [io R A]. *)
From stdpp Require Import base numbers list sets.
From S2P Require Import Prelude.
#[local] Open Scope Z_scope.

Module PgReader.

(** ** Reading as an effect *)

(** Errors: those of the standard library and of the readers, an error of the
    connection, an error the server sent with its fields, the errors the code
    makes with a format string, which carry the values it formats, and an error
    turned into one of the package by its message. *)
Inductive err :=
| EOF
| ErrBufferFull
| ErrInvalidUnreadByte
| ErrNegativeCount
| ErrNoProgress
| ErrUnexpectedEOF
| AtBeginning
| EndOfArray
| EndOfHstore
| ConnErr (n : Z)
| PGError (fields : list (Z * list Z))
| Errorf (msg : list Z)
| Wrapped (e : err).

#[export] Instance err_eq_dec : EqDecision err.
Proof. solve_decision. Defined.

Definition io (R A : Type) : Type := R -> go err A * R.

#[export] Instance io_mret {R} : MRet (io R) := fun A a s => (Ret a, s).
#[export] Instance io_mbind {R} : MBind (io R) := fun A B k m s =>
  match m s with
  | (Ret a, s') => k a s'
  | (Fail e, s') => (Fail e, s')
  | (Panic, s') => (Panic, s')
  | (OutOfFuel, s') => (OutOfFuel, s')
  end.

Definition fail {R A} (e : err) : io R A := fun s => (Fail e, s).
Definition panic {R A} : io R A := fun s => (Panic, s).
Definition out_of_fuel {R A} : io R A := fun s => (OutOfFuel, s).

(** The call of a function that returns its error, for a caller that looks at it. *)
Definition try {R A} (m : io R A) : io R (A + err) := fun s =>
  match m s with
  | (Ret a, s') => (Ret (inl a), s')
  | (Fail e, s') => (Ret (inr e), s')
  | (Panic, s') => (Panic, s')
  | (OutOfFuel, s') => (OutOfFuel, s')
  end.

(** ** The interface *)

Class Reader (R : Type) := {
  Buffered : R -> Z;
  Bytes : R -> list Z;
  Read : nat -> io R (list Z * option err);
  ReadByte : io R Z;
  UnreadByte : io R unit;
  ReadSlice : Z -> io R (list Z * option err);
  ReadFull : io R (list Z);
  ReadFullTemp : io R (list Z)
}.

(** [bytes.IndexByte] *)
Fixpoint IndexByte (l : list Z) (c : Z) : option nat :=
  match l with
  | [] => None
  | x :: l' => if x =? c then Some 0%nat else S <$> IndexByte l' c
  end.

Lemma IndexByte_Some l c i : IndexByte l c = Some i ->
  exists p q, l = p ++ c :: q /\ length p = i /\ ~ c ∈ p.
Proof.
  revert i. induction l as [|x l IH]; intros i; simpl; [done|].
  destruct (Z.eqb_spec x c) as [->|Hx].
  - intros [= <-]. exists [], l. split_and!; [done..|set_solver].
  - destruct (IndexByte l c) as [j|]; simpl; [|done]. intros [= <-].
    destruct (IH j) as (p & q & -> & <- & Hp); [done|]. exists (x :: p), q. split_and!; [done..|set_solver].
Qed.

Lemma IndexByte_None l c : IndexByte l c = None -> ~ c ∈ l.
Proof.
  induction l as [|x l IH]; simpl; [set_solver|].
  destruct (Z.eqb_spec x c) as [->|Hx]; [done|]. destruct (IndexByte l c); simpl; [done|]. set_solver.
Qed.

(** What a client may rely on: [repr r l] says that the bytes [l] and no more
    can be read from [r]. *)
Definition sliced (d : Z) (l line : list Z) (e : option err) (rest : list Z) : Prop :=
  l = line ++ rest /\
  match e with
  | None => exists p, line = p ++ [d] /\ ~ d ∈ p
  | Some EOF => rest = [] /\ ~ d ∈ line
  | Some ErrBufferFull => line <> [] /\ ~ d ∈ line
  | _ => False
  end.

Class ReaderLaws (R : Type) `{Reader R} := {
  repr : R -> list Z -> Prop;
  read_byte r c l : repr r (c :: l) -> exists r' r'',
    ReadByte r = (Ret c, r') /\ repr r' l /\ UnreadByte r' = (Ret tt, r'') /\ repr r'' (c :: l);
  read_byte_end r : repr r [] -> exists r', ReadByte r = (Fail EOF, r') /\ repr r' [];
  read_slice d r l : repr r l -> exists line e rest r',
    ReadSlice d r = (Ret (line, e), r') /\ sliced d l line e rest /\ repr r' rest;
  read_full r l : repr r l -> exists r', ReadFull r = (Ret l, r') /\ repr r' [];
  read_full_temp r l : repr r l -> exists r', ReadFullTemp r = (Ret l, r') /\ repr r' []
}.

(** ** A window of bytes *)

Record BytesReader := Br { br_s : list Z; br_i : nat }.

Definition NewBytesReader (b : list Z) : BytesReader := Br b 0.
Definition BytesReader_Reset (b : list Z) (r : BytesReader) : BytesReader := Br b 0.
Definition BytesReader_Buffered (r : BytesReader) : Z := Z.of_nat (length (br_s r)) - Z.of_nat (br_i r).
Definition BytesReader_Bytes (r : BytesReader) : list Z := drop (br_i r) (br_s r).

Definition BytesReader_Read (n : nat) : io BytesReader (list Z * option err) := fun r =>
  if (length (br_s r) <=? br_i r)%nat then (Ret ([], Some EOF), r)
  else let p := take n (drop (br_i r) (br_s r)) in (Ret (p, None), Br (br_s r) (br_i r + length p)).

Definition BytesReader_ReadByte : io BytesReader Z := fun r =>
  if (length (br_s r) <=? br_i r)%nat then (Fail EOF, r)
  else match br_s r !! br_i r with
       | Some b => (Ret b, Br (br_s r) (S (br_i r)))
       | None => (Panic, r)
       end.

Definition BytesReader_UnreadByte : io BytesReader unit := fun r =>
  if (br_i r <=? 0)%nat then (Fail AtBeginning, r) else (Ret tt, Br (br_s r) (br_i r - 1)).

Definition BytesReader_ReadSlice (delim : Z) : io BytesReader (list Z * option err) := fun r =>
  match IndexByte (drop (br_i r) (br_s r)) delim with
  | Some i => (Ret (take (S i) (drop (br_i r) (br_s r)), None), Br (br_s r) (br_i r + S i))
  | None => (Ret (drop (br_i r) (br_s r), Some EOF), Br (br_s r) (length (br_s r)))
  end.

(** [ReadN] compares with the length of the whole window, not with what is left
    of it: the slice expression then goes past the end of the window, which
    panics unless the array behind it has room, so the capacity is an argument. *)
Definition BytesReader_ReadN (capacity : nat) (beyond : list Z) (n : nat) : io BytesReader (list Z * option err) :=
  fun r =>
  let nn := Nat.min n (length (br_s r)) in
  if (capacity <? br_i r + nn)%nat then (Panic, r)
  else (Ret (take nn (drop (br_i r) (br_s r ++ beyond)), if (nn <? n)%nat then Some EOF else None),
        Br (br_s r) (br_i r + nn)).

Definition BytesReader_Discard (capacity : nat) (beyond : list Z) (n : nat) : io BytesReader (Z * option err) :=
  '(b, e) ← BytesReader_ReadN capacity beyond n; mret (Z.of_nat (length b), e).

(** The place of the first byte that a test refuses. *)
Fixpoint index_not (fn : Z -> bool) (l : list Z) : option nat :=
  match l with [] => None | c :: l' => if fn c then S <$> index_not fn l' else Some 0%nat end.

Definition BytesReader_ReadBytes (fn : Z -> bool) : io BytesReader (list Z * option err) := fun r =>
  match index_not fn (drop (br_i r) (br_s r)) with
  | Some i => (Ret (take (S i) (drop (br_i r) (br_s r)), None), Br (br_s r) (br_i r + S i))
  | None => (Ret (drop (br_i r) (br_s r), Some EOF), Br (br_s r) (length (br_s r)))
  end.

Definition BytesReader_ReadFull : io BytesReader (list Z) := fun r =>
  (Ret (drop (br_i r) (br_s r)), Br (br_s r) (length (br_s r))).
Definition BytesReader_ReadFullTemp : io BytesReader (list Z) := fun r =>
  (Ret (drop (br_i r) (br_s r)), Br (br_s r) (length (br_s r))).

#[export] Instance bytes_reader : Reader BytesReader := {
  Buffered := BytesReader_Buffered;
  Bytes := BytesReader_Bytes;
  Read := BytesReader_Read;
  ReadByte := BytesReader_ReadByte;
  UnreadByte := BytesReader_UnreadByte;
  ReadSlice := BytesReader_ReadSlice;
  ReadFull := BytesReader_ReadFull;
  ReadFullTemp := BytesReader_ReadFullTemp
}.

Definition br_repr (r : BytesReader) (l : list Z) : Prop :=
  (br_i r <= length (br_s r))%nat /\ drop (br_i r) (br_s r) = l.

Lemma bytes_read_byte r c l : br_repr r (c :: l) -> exists r' r'',
  BytesReader_ReadByte r = (Ret c, r') /\ br_repr r' l /\
  BytesReader_UnreadByte r' = (Ret tt, r'') /\ br_repr r'' (c :: l).
Proof.
  destruct r as [s i]. intros [Hi Hl]; simpl in *.
  assert (Hc : s !! i = Some c) by (rewrite <- (Nat.add_0_r i), <- lookup_drop; by rewrite Hl).
  pose proof (lookup_lt_Some _ _ _ Hc). exists (Br s (S i)), (Br s i).
  unfold BytesReader_ReadByte, BytesReader_UnreadByte; simpl.
  rewrite (proj2 (Nat.leb_gt _ _)), Hc, Nat.sub_0_r by lia. split_and!; [done| |done|done].
  split; simpl; [lia|]. rewrite (drop_S s c i Hc) in Hl. by injection Hl.
Qed.

Lemma bytes_read_slice d r l : br_repr r l -> exists line e rest r',
  BytesReader_ReadSlice d r = (Ret (line, e), r') /\ sliced d l line e rest /\ br_repr r' rest.
Proof.
  destruct r as [s i]. intros [Hi Hl]; simpl in *. unfold BytesReader_ReadSlice; simpl. rewrite Hl.
  assert (Hn : length l = (length s - i)%nat) by (by rewrite <- Hl, length_drop).
  destruct (IndexByte l d) as [j|] eqn:E.
  - destruct (IndexByte_Some _ _ _ E) as (p & q & -> & <- & Hp). rewrite length_app in Hn; simpl in Hn.
    exists (p ++ [d]), None, q, (Br s (i + S (length p))). split_and!.
    + f_equal. f_equal. f_equal. rewrite cons_middle, app_assoc, take_app_length'; [done|]. rewrite length_app; simpl; lia.
    + split; [by rewrite <- app_assoc|]. by exists p.
    + split; simpl; [lia|]. rewrite <- drop_drop, Hl, cons_middle, app_assoc.
      rewrite drop_app_length'; [done|]. rewrite length_app; simpl; lia.
  - exists l, (Some EOF), [], (Br s (length s)). split_and!; [done| |].
    + split; [by rewrite app_nil_r|]. split; [done|]. by apply IndexByte_None.
    + split; simpl; [done|]. apply drop_ge. done.
Qed.

Lemma br_repr_end s : br_repr (Br s (length s)) [].
Proof. split; simpl; [done|]. by apply drop_ge. Qed.

#[export] Instance bytes_reader_laws : ReaderLaws BytesReader.
Proof.
  refine {| repr := br_repr; read_byte := bytes_read_byte; read_slice := bytes_read_slice |}.
  - intros [s i] [Hi Hl]; simpl in *. exists (Br s i). cbn [ReadByte bytes_reader]. unfold BytesReader_ReadByte. simpl.
    assert (length s <= i)%nat by (apply (f_equal length) in Hl; rewrite length_drop in Hl; simpl in Hl; lia).
    by rewrite (proj2 (Nat.leb_le _ _)).
  - intros [s i] l [Hi Hl]; simpl in *. eexists. cbn. unfold BytesReader_ReadFull; simpl. rewrite Hl.
    split; [done|apply br_repr_end].
  - intros [s i] l [Hi Hl]; simpl in *. eexists. cbn. unfold BytesReader_ReadFullTemp; simpl. rewrite Hl.
    split; [done|apply br_repr_end].
Defined.

(** ** The connection *)

(** [io.Reader.Read] of the connection with room for [n] bytes: the bytes read
    and the error. [supplies s l] says that the peer sends the bytes [l]: as long
    as some are to come a read gives at least one of them and no error. *)
Class Source (C : Type) := { conn_read : C -> nat -> list Z * option err * C }.

Class SourceLaws (C : Type) `{Source C} := {
  supplies : C -> list Z -> Prop;
  supplies_read s c l n : supplies s (c :: l) -> (0 < n)%nat -> exists p q s',
    conn_read s n = (p, None, s') /\ c :: l = p ++ q /\ (0 < length p <= n)%nat /\ supplies s' q
}.

(** ** The buffer in front of the connection *)

Record BufReader (C : Type) := Buf {
  rd : C;
  buf : list Z;
  r : nat;
  w : nat;
  lastByte : Z;
  bytesRead : Z;
  b_err : option err;
  available : Z
}.
Arguments Buf {C}. Arguments rd {C}. Arguments buf {C}. Arguments r {C}. Arguments w {C}.
Arguments lastByte {C}. Arguments bytesRead {C}. Arguments b_err {C}. Arguments available {C}.

Section BufReader.
Context {C : Type} `{Source C}.
Implicit Types b : BufReader C.

(** Assignments to the fields. *)
Definition set_pos b (r' w' : nat) : BufReader C :=
  Buf (rd b) (buf b) r' w' (lastByte b) (bytesRead b) (b_err b) (available b).
Definition set_err b (e : option err) : BufReader C :=
  Buf (rd b) (buf b) (r b) (w b) (lastByte b) (bytesRead b) e (available b).
Definition set_last b (c : Z) : BufReader C :=
  Buf (rd b) (buf b) (r b) (w b) c (bytesRead b) (b_err b) (available b).
Definition set_buf b (l : list Z) : BufReader C :=
  Buf (rd b) l (r b) (w b) (lastByte b) (bytesRead b) (b_err b) (available b).

Definition NewBufReader (bufSize : nat) (s : C) : BufReader C :=
  Buf s (replicate bufSize 0) 0 0 0 0 None (-1).

Definition SetAvailable (n : Z) b : BufReader C :=
  Buf (rd b) (buf b) (r b) (w b) (lastByte b) (bytesRead b) (b_err b) n.
Definition changeAvailable (n : Z) b : BufReader C :=
  if available b =? -1 then b else SetAvailable (available b + n) b.
Definition Reset (s : C) b : BufReader C :=
  Buf s (buf b) 0 0 (lastByte b) (bytesRead b) None (available b).

Definition BufReader_Buffered b : Z :=
  let buffered := Z.of_nat (w b) - Z.of_nat (r b) in
  if (available b =? -1) || (buffered <=? available b) then buffered else available b.

(** [b.buf[i:j]] *)
Definition seg (l : list Z) (i j : nat) : list Z := take (j - i) (drop i l).

(** The end of what [Bytes] and [flush] give. *)
Definition limit b : nat :=
  if available b =? -1 then w b else Nat.min (r b + Z.to_nat (available b)) (w b).

Definition BufReader_Bytes b : list Z := seg (buf b) (r b) (limit b).

Definition flush b : list Z * BufReader C :=
  let line := BufReader_Bytes b in
  (line, changeAvailable (- Z.of_nat (length line)) (set_pos b (limit b) (w b))).

(** [read] into the slice [b.buf[at:]] or into the caller's bytes. *)
Definition read_raw b (n : nat) : list Z * option err * BufReader C :=
  match conn_read (rd b) n with
  | (p, e, s') => (p, e, Buf s' (buf b) (r b) (w b) (lastByte b)
                        (bytesRead b + Z.of_nat (length p)) (b_err b) (available b))
  end.

Definition store (l : list Z) (i : nat) (p : list Z) : list Z := take i l ++ p ++ drop (i + length p) l.

(** The reads of [fill]: at most [tries], until one gives a byte or an error. *)
Fixpoint fill_loop (tries : nat) b : BufReader C :=
  match tries with
  | O => set_err b (Some ErrNoProgress)
  | S tries' =>
      match read_raw b (length (buf b) - w b) with
      | (p, e, b') =>
          let b'' := set_pos (set_buf b' (store (buf b') (w b') p)) (r b') (w b' + length p) in
          match e with
          | Some _ => set_err b'' e
          | None => if (0 <? length p)%nat then b'' else fill_loop tries' b''
          end
      end
  end.

Definition slide b : BufReader C :=
  if (0 <? r b)%nat
  then set_pos (set_buf b (store (buf b) 0 (seg (buf b) (r b) (w b)))) 0 (w b - r b)
  else b.

Definition fill : io (BufReader C) unit := fun b =>
  let b := slide b in
  if (length (buf b) <=? w b)%nat then (Panic, b)
  else if available b =? 0 then (Ret tt, set_err b (Some EOF))
  else (Ret tt, fill_loop 100 b).

Definition readErr b : option err * BufReader C := (b_err b, set_err b None).

(** [Read] into [n] bytes. *)
Definition Read_copy (n : nat) : io (BufReader C) (list Z * option err) := fun b =>
  let p := take n (BufReader_Bytes b) in
  let b := changeAvailable (- Z.of_nat (length p)) (set_pos b (r b + length p) (w b)) in
  match r b with
  | O => (Panic, b)
  | S i => match buf b !! i with Some c => (Ret (p, None), set_last b c) | None => (Panic, b) end
  end.

Definition BufReader_Read (n : nat) : io (BufReader C) (list Z * option err) := fun b =>
  if (n =? 0)%nat then (Ret ([], b_err b), set_err b None)
  else if available b =? 0 then (Ret ([], Some EOF), b)
  else
    let n := if available b =? -1 then n else Nat.min n (Z.to_nat (available b)) in
    if (r b =? w b)%nat then
      match b_err b with
      | Some e => (Ret ([], Some e), set_err b None)
      | None =>
          if (length (buf b) <=? n)%nat then
            match read_raw b n with
            | (p, e, b) =>
                (Ret (p, e), match last p with
                             | Some c => set_last (changeAvailable (- Z.of_nat (length p)) b) c
                             | None => b
                             end)
            end
          else
            match read_raw (set_pos b 0 0) (length (buf b)) with
            | (p, e, b) =>
                let b := set_err (set_buf b (store (buf b) 0 p)) e in
                if (length p =? 0)%nat then (Ret ([], b_err b), set_err b None)
                else Read_copy n (set_pos b 0 (length p))
            end
      end
    else Read_copy n b.

(** [io.ReadFull] into [n] bytes: reads until all are there or one fails. *)
Fixpoint io_ReadFull (fuel : nat) (n : nat) (got : list Z) : io (BufReader C) (list Z * option err) := fun b =>
  match fuel with
  | O => (OutOfFuel, b)
  | S fuel' =>
      if (length got <? n)%nat then
        match BufReader_Read (n - length got) b with
        | (Ret (p, None), b') => io_ReadFull fuel' n (got ++ p) b'
        | (Ret (p, Some e), b') =>
            let got := got ++ p in
            if (n <=? length got)%nat then (Ret (got, None), b')
            else if (0 <? length got)%nat && bool_decide (e = EOF) then (Ret (got, Some ErrUnexpectedEOF), b')
            else (Ret (got, Some e), b')
        | (x, b') => (x, b')
        end
      else (Ret (got, None), b)
  end.

Definition remember (line : list Z) b : BufReader C :=
  match last line with Some c => set_last b c | None => b end.

Fixpoint ReadSlice_loop (fuel : nat) (delim : Z) : io (BufReader C) (list Z * option err) := fun b =>
  match fuel with
  | O => (OutOfFuel, b)
  | S fuel' =>
      match IndexByte (BufReader_Bytes b) delim with
      | Some i =>
          let line := seg (buf b) (r b) (r b + S i) in
          (Ret (line, None), changeAvailable (- Z.of_nat (S i)) (set_pos b (r b + S i) (w b)))
      | None =>
          match b_err b with
          | Some e => let '(line, b) := flush b in (Ret (line, Some e), set_err b None)
          | None =>
              let buffered := BufReader_Buffered b in
              if negb (available b =? -1) && (available b <=? buffered) then
                let '(line, b) := flush b in (Ret (line, Some EOF), b)
              else if Z.of_nat (length (buf b)) <=? buffered then
                let '(line, b) := flush b in (Ret (line, Some ErrBufferFull), b)
              else (fill ≫= fun _ => ReadSlice_loop fuel' delim) b
          end
      end
  end.

Definition BufReader_ReadSlice (delim : Z) : io (BufReader C) (list Z * option err) := fun b =>
  match ReadSlice_loop (3 + length (buf b)) delim b with
  | (Ret (line, e), b) => (Ret (line, e), remember line b)
  | (x, b) => (x, b)
  end.

(** [ReadBytes]: a refused byte ends the inner loop only, so the method returns what
    [flush] gives; a refused first byte is the slice [b.buf[b.r:b.r-1]]. *)
Fixpoint ReadBytes_loop (fuel : nat) (fn : Z -> bool) : io (BufReader C) (list Z * option err) := fun b =>
  match fuel with
  | O => (OutOfFuel, b)
  | S fuel' =>
      let skip j := changeAvailable (- Z.of_nat j) (set_pos b (r b + j) (w b)) in
      match (match index_not fn (BufReader_Bytes b) with None => Some b | Some O => None | Some (S j) => Some (skip j) end) with
      | None => (Panic, b)
      | Some b =>
          match b_err b with
          | Some e => let '(line, b) := flush b in (Ret (line, Some e), set_err b None)
          | None =>
              let buffered := BufReader_Buffered b in
              if negb (available b =? -1) && (available b <=? buffered) then
                let '(line, b) := flush b in (Ret (line, Some EOF), b)
              else if Z.of_nat (length (buf b)) <=? buffered then
                let '(line, b) := flush b in (Ret (line, Some ErrBufferFull), b)
              else (fill ≫= fun _ => ReadBytes_loop fuel' fn) b
          end
      end
  end.
Definition BufReader_ReadBytes (fuel : nat) (fn : Z -> bool) : io (BufReader C) (list Z * option err) := fun b =>
  match ReadBytes_loop fuel fn b with
  | (Ret (line, e), b) => (Ret (line, e), remember line b)
  | x => x
  end.

Fixpoint ReadByte_loop (fuel : nat) : io (BufReader C) unit := fun b =>
  match fuel with
  | O => (OutOfFuel, b)
  | S fuel' =>
      if (r b =? w b)%nat then
        match b_err b with
        | Some e => (Fail e, set_err b None)
        | None => (fill ≫= fun _ => ReadByte_loop fuel') b
        end
      else (Ret tt, b)
  end.

Definition take_byte : io (BufReader C) Z := fun b =>
  match buf b !! r b with
  | Some c => (Ret c, changeAvailable (-1) (set_last (set_pos b (r b + 1) (w b)) c))
  | None => (Panic, b)
  end.

Definition BufReader_ReadByte : io (BufReader C) Z := fun b =>
  if available b =? 0 then (Fail EOF, b) else (ReadByte_loop 3 ≫= fun _ => take_byte) b.

Definition BufReader_UnreadByte : io (BufReader C) unit := fun b =>
  if (lastByte b <? 0) || ((r b =? 0)%nat && (0 <? w b)%nat) then (Fail ErrInvalidUnreadByte, b)
  else
    let b := if (0 <? r b)%nat then set_pos b (r b - 1) (w b) else set_pos b (r b) 1 in
    (Ret tt, changeAvailable 1 (set_last (set_buf b (<[r b := lastByte b]> (buf b))) (-1))).

Fixpoint Discard_loop (fuel : nat) (n remain : Z) : io (BufReader C) (Z * option err) := fun b =>
  match fuel with
  | O => (OutOfFuel, b)
  | S fuel' =>
      let rest : io (BufReader C) (Z * option err) := fun b =>
        let skip := Z.min (BufReader_Buffered b) remain in
        let b := changeAvailable (- skip) (set_pos b (r b + Z.to_nat skip) (w b)) in
        if remain - skip =? 0 then (Ret (n, None), b)
        else match b_err b with
             | Some e => (Ret (n - (remain - skip), Some e), set_err b None)
             | None => Discard_loop fuel' n (remain - skip) b
             end in
      if BufReader_Buffered b =? 0 then (fill ≫= fun _ => rest) b else rest b
  end.

Definition Discard (n : Z) : io (BufReader C) (Z * option err) := fun b =>
  if n <? 0 then (Ret (0, Some ErrNegativeCount), b)
  else if n =? 0 then (Ret (0, None), b)
  else Discard_loop (S (S (Z.to_nat n))) n n b.

Fixpoint ReadN_loop (fuel : nat) (n nn : Z) : io (BufReader C) (list Z * option err) := fun b =>
  match fuel with
  | O => (OutOfFuel, b)
  | S fuel' =>
      let buffered := BufReader_Buffered b in
      if nn <=? buffered then
        (Ret (seg (buf b) (r b) (r b + Z.to_nat nn), if nn <? n then Some EOF else None),
         changeAvailable (- nn) (set_pos b (r b + Z.to_nat nn) (w b)))
      else
        match b_err b with
        | Some e => let '(line, b) := flush b in (Ret (line, Some e), set_err b None)
        | None =>
            if Z.of_nat (length (buf b)) <=? buffered then
              let '(line, b) := flush b in (Ret (line, Some ErrBufferFull), b)
            else (fill ≫= fun _ => ReadN_loop fuel' n nn) b
        end
  end.

Definition ReadN (n : Z) : io (BufReader C) (list Z * option err) := fun b =>
  if n <? 0 then (Ret ([], Some ErrNegativeCount), b)
  else if n =? 0 then (Ret ([], None), b)
  else
    let nn := if negb (available b =? -1) && (available b <? n) then available b else n in
    match ReadN_loop (3 + length (buf b)) n nn b with
    | (Ret (line, e), b) => (Ret (line, e), remember line b)
    | (x, b) => (x, b)
    end.

(** A result with its error, for the callers that return the error. *)
Definition checked {A} (m : io (BufReader C) (A * option err)) : io (BufReader C) A := fun b =>
  match m b with
  | (Ret (a, None), b') => (Ret a, b')
  | (Ret (_, Some e), b') => (Fail e, b')
  | (Fail e, b') => (Fail e, b')
  | (Panic, b') => (Panic, b')
  | (OutOfFuel, b') => (OutOfFuel, b')
  end.

Definition BufReader_ReadFull : io (BufReader C) (list Z) := fun b =>
  if available b =? -1 then (Panic, b)
  else checked (io_ReadFull (2 + Z.to_nat (available b)) (Z.to_nat (available b)) []) b.

Definition BufReader_ReadFullTemp : io (BufReader C) (list Z) := fun b =>
  if available b =? -1 then (Panic, b)
  else if available b <=? Z.of_nat (length (buf b)) then checked (ReadN (available b)) b
  else BufReader_ReadFull b.

#[export] Instance buf_reader : Reader (BufReader C) := {
  Buffered := BufReader_Buffered;
  Bytes := BufReader_Bytes;
  Read := BufReader_Read;
  ReadByte := BufReader_ReadByte;
  UnreadByte := BufReader_UnreadByte;
  ReadSlice := BufReader_ReadSlice;
  ReadFull := BufReader_ReadFull;
  ReadFullTemp := BufReader_ReadFullTemp
}.

(** [BytesReader]: the next [n] bytes of the buffer as a reader of their own. *)
Definition BufReader_BytesReader (n : Z) : io (BufReader C) BytesReader := fun b =>
  let n := if n =? -1 then 0 else n in
  if (n <? 0) || (Z.of_nat (length (buf b)) <? Z.of_nat (r b) + n) then (Panic, b)
  else (Ret (NewBytesReader (seg (buf b) (r b) (r b + Z.to_nat n))), set_pos b (r b + Z.to_nat n) (w b)).

End BufReader.

(** ** What the buffered reader guarantees *)

Section BufReaderLaws.
Context {C : Type} `{SourceLaws C}.
Implicit Types b : BufReader C.

(** Whether a limit is set, which reading never changes. *)
Context (limited : bool).

Definition window b : list Z := seg (buf b) (r b) (w b).

Definition wf b : Prop :=
  (r b <= w b <= length (buf b))%nat /\ ((0 < length (buf b))%nat /\ (limited = false <-> available b = -1)).

(** All that is still to be read: the rest of the buffer and what the peer sends. *)
Definition holds b (L : list Z) : Prop :=
  wf b /\ b_err b = None /\ Forall byte_ok L /\ exists F, supplies (rd b) F /\ L = window b ++ F.

(** What a client may read, and what comes after it: without a limit all that
    the peer sends, with a limit that many bytes. *)
Definition view b (l tail : list Z) : Prop :=
  holds b (l ++ tail) /\ (available b = -1 /\ tail = [] \/ available b = Z.of_nat (length l)).

Lemma length_seg (l : list Z) i j : (i <= j <= length l)%nat -> length (seg l i j) = (j - i)%nat.
Proof. intros. unfold seg. rewrite length_take, length_drop. lia. Qed.

Lemma length_window b : wf b -> length (window b) = (w b - r b)%nat.
Proof. intros [? ?]. unfold window. apply length_seg. lia. Qed.

Lemma seg_take (l : list Z) i j k : (i + k <= j)%nat -> seg l i (i + k) = take k (seg l i j).
Proof. intros. unfold seg. rewrite take_take. f_equal. lia. Qed.

Lemma seg_drop (l : list Z) i j k : (i + k <= j)%nat -> seg l (i + k) j = drop k (seg l i j).
Proof. intros. unfold seg. rewrite skipn_firstn_comm, drop_drop. f_equal. lia. Qed.

(** What is buffered of what the client may read. *)
Lemma view_buffered b l tail : view b l tail ->
  BufReader_Bytes b = take (length l) (window b) /\ BufReader_Bytes b `prefix_of` l /\
  BufReader_Buffered b = Z.of_nat (length (BufReader_Bytes b)).
Proof.
  intros [(Hwf & _ & _ & F & _ & HL) Ha]. pose proof (length_window b Hwf) as Hlw. destruct Hwf as [Hwf _].
  unfold BufReader_Bytes, limit, BufReader_Buffered. destruct Ha as [[Ha ->]|Ha].
  - rewrite app_nil_r in HL. rewrite Ha. simpl. rewrite length_seg by lia.
    change (seg (buf b) (r b) (w b)) with (window b).
    assert (Hl : (length (window b) <= length l)%nat) by (rewrite HL, length_app; lia).
    rewrite take_ge by lia. split_and!; [done|by exists F|lia].
  - rewrite Ha, (proj2 (Z.eqb_neq _ _)) by lia. rewrite Nat2Z.id. simpl.
    assert (E : seg (buf b) (r b) (Nat.min (r b + length l) (w b)) = take (length l) (window b)).
    { unfold window, seg. rewrite take_take. f_equal. lia. }
    rewrite E. split_and!; [done| |].
    + exists (take (length l - length (window b)) F).
      by rewrite <- take_app, <- HL, take_app_length.
    + rewrite length_take. case_match; lia.
Qed.

(** Reading from the buffer: the position moves over bytes that are there. *)
Definition advance (k : nat) b : BufReader C :=
  changeAvailable (- Z.of_nat k) (set_pos b (r b + k) (w b)).

Lemma view_advance b p l tail : view b (p ++ l) tail -> (length p <= length (BufReader_Bytes b))%nat ->
  take (length p) (BufReader_Bytes b) = p /\ view (advance (length p) b) l tail /\
  buf (advance (length p) b) = buf b.
Proof.
  intros Hv Hp. destruct (view_buffered _ _ _ Hv) as (HB & [q Hq] & _).
  destruct Hv as [(Hwf & He & Hok & F & HF & HL) Ha].
  assert (Hpw : (length p <= length (window b))%nat) by (rewrite HB, length_take in Hp; lia).
  rewrite (length_window b Hwf) in Hpw.
  assert (Hp' : take (length p) (BufReader_Bytes b) = p).
  { rewrite <- (take_app_le _ q) by done. by rewrite <- Hq, take_app_length. }
  assert (Ew : window (set_pos b (r b + length p) (w b)) = drop (length p) (window b)).
  { unfold window. simpl. apply seg_drop. destruct Hwf. lia. }
  assert (HL' : l ++ tail = drop (length p) (window b) ++ F).
  { rewrite <- drop_app_le by (rewrite (length_window b Hwf); lia). rewrite <- HL, <- app_assoc. by rewrite drop_app_length. }
  assert (Hok' : Forall byte_ok (l ++ tail)) by (rewrite <- app_assoc in Hok; by apply Forall_app in Hok as [_ ?]).
  split; [done|]. unfold advance, changeAvailable. cbn [available set_pos].
  destruct (Z.eqb_spec (available b) (-1)) as [E|E].
  - split; [|done]. destruct Ha as [[_ ->]|Ha]; [|lia]. split; [|by left].
    split_and!; [destruct Hwf; split; simpl; lia|done|done|]. exists F. rewrite Ew. done.
  - destruct Ha as [[Ha _]|Ha]; [done|]. rewrite length_app in Ha. split; [|done]. split; [|right; simpl; lia].
    split_and!; [destruct Hwf; split; simpl; lia|done|done|]. exists F. split; [done|].
    change (l ++ tail = window (set_pos b (r b + length p) (w b)) ++ F). by rewrite Ew.
Qed.

(** Filling the buffer: more of what is to come, and nothing else changes. *)
Lemma seg_store (l p : list Z) i j : (i <= j)%nat -> (j + length p <= length l)%nat ->
  seg (store l j p) i (j + length p) = seg l i j ++ p.
Proof.
  intros Hi Hj. unfold seg, store. rewrite drop_app_le by (rewrite length_take; lia).
  rewrite take_app, length_drop, length_take. rewrite (take_ge (drop i (take j l))) by (rewrite length_drop, length_take; lia).
  f_equal; [by rewrite skipn_firstn_comm|]. rewrite take_app_le by lia. apply take_ge. lia.
Qed.

Lemma length_store (l p : list Z) j : (j + length p <= length l)%nat -> length (store l j p) = length l.
Proof. intros. unfold store. rewrite !length_app, length_take, length_drop. lia. Qed.

Lemma slide_ok b : wf b -> window (slide b) = window b /\ wf (slide b) /\ r (slide b) = 0%nat /\
  length (buf (slide b)) = length (buf b) /\ rd (slide b) = rd b /\ available (slide b) = available b /\
  b_err (slide b) = b_err b.
Proof.
  intros Hwf. unfold slide. destruct (Nat.ltb_spec 0 (r b)).
  - assert (Hl : length (seg (buf b) (r b) (w b)) = (w b - r b)%nat) by (apply length_seg; destruct Hwf; lia).
    assert (Hs : length (store (buf b) 0 (seg (buf b) (r b) (w b))) = length (buf b))
      by (apply length_store; rewrite Hl; destruct Hwf; lia).
    split_and!; try done.
    + unfold window. simpl. rewrite <- Hl at 1. unfold seg, store. simpl. rewrite Nat.sub_0_r. apply take_app_length.
    + destruct Hwf. split; cbn [r w buf available set_pos set_buf]; rewrite Hs; lia.
  - split_and!; try done. lia.
Qed.

Lemma fill_ok b l tail : view b l tail -> (length (BufReader_Bytes b) < length l)%nat ->
  (length (BufReader_Bytes b) < length (buf b))%nat ->
  exists b', fill b = (Ret tt, b') /\ view b' l tail /\ length (buf b') = length (buf b) /\
    (length (BufReader_Bytes b) < length (BufReader_Bytes b'))%nat /\ available b' = available b.
Proof.
  intros Hv Hl Hroom. pose proof (view_buffered _ _ _ Hv) as (HB & _ & _). rewrite HB, length_take in Hl, Hroom.
  destruct Hv as [(Hwf & He & Hok & F & HF & HL) Ha].
  destruct (slide_ok b Hwf) as (Hw & Hwf' & Hr & Hlen & Hrd & Hav & Herr).
  assert (Hww : w (slide b) = length (window b)).
  { pose proof (length_window _ Hwf') as E. rewrite Hw, Hr in E. lia. }
  unfold fill. rewrite Hlen, Hww, (proj2 (Nat.leb_gt _ _)) by lia.
  rewrite Hav, (proj2 (Z.eqb_neq _ _)) by lia.
  destruct F as [|c F].
  { apply (f_equal length) in HL. rewrite !length_app in HL. simpl in HL. lia. }
  rewrite <- Hrd in HF. destruct (supplies_read _ _ _ (length (buf (slide b)) - w (slide b)) HF) as (p & q & s' & Hcr & Epq & Hp & Hq).
  { rewrite Hlen, Hww. lia. }
  cbn [fill_loop]. unfold read_raw. rewrite Hcr. rewrite (proj2 (Nat.ltb_lt 0 (length p))) by lia.
  eexists. split; [done|].
  set (b' := set_pos _ _ _). cbn [buf w r] in b'.
  assert (Ew : window b' = window b ++ p).
  { unfold window at 1. cbn [buf r w set_pos set_buf b']. rewrite seg_store; [|lia..].
    rewrite <- Hw. done. }
  assert (Hlb : length (buf b') = length (buf b)).
  { cbn [buf set_pos set_buf b']. rewrite length_store; lia. }
  assert (Hv' : view b' l tail).
  { split; [|by rewrite <- Hav in Ha]. split_and!.
    - destruct Hwf'. split; cbn [r w available b' set_pos set_buf]; rewrite Hlb; lia.
    - cbn. by rewrite Herr.
    - done.
    - exists q. split; [done|]. rewrite Ew, HL, Epq. by rewrite <- app_assoc. }
  split; [done|]. split; [done|]. destruct (view_buffered _ _ _ Hv') as (HB' & _ & _).
  rewrite HB, HB', Ew, !length_take, length_app. split; [lia|done].
Qed.

(** *** Single bytes *)

Lemma view_available b c l tail : view b (c :: l) tail -> available b <> 0.
Proof. intros [_ [[-> _]|Ha]]; [done|]. simpl in Ha. lia. Qed.

Lemma view_empty b c l tail : view b (c :: l) tail -> r b = w b <-> length (BufReader_Bytes b) = 0%nat.
Proof.
  intros Hv. destruct (view_buffered _ _ _ Hv) as (HB & _ & _). destruct Hv as [(Hwf & _) _].
  rewrite HB, length_take, (length_window b Hwf). destruct Hwf. cbn [length]. lia.
Qed.

Lemma view_head b c l tail : view b (c :: l) tail -> (0 < length (BufReader_Bytes b))%nat -> buf b !! r b = Some c.
Proof.
  intros Hv Hn. destruct (view_buffered _ _ _ Hv) as (HB & [q Hq] & _).
  destruct (BufReader_Bytes b) as [|x B] eqn:E; [simpl in Hn; lia|]. injection Hq as <- _.
  assert (Hx : take (length (c :: l)) (window b) !! 0%nat = Some c) by (by rewrite <- HB).
  apply lookup_take_Some in Hx as [Hx _]. unfold window, seg in Hx. apply lookup_take_Some in Hx as [Hx _].
  by rewrite lookup_drop, Nat.add_0_r in Hx.
Qed.

Lemma view_byte b c l tail : view b (c :: l) tail -> byte_ok c.
Proof. intros [(_ & _ & Hok & _) _]. by apply Forall_cons in Hok as [? _]. Qed.

(** The last byte does not matter for what can be read. *)
Lemma view_ext b b' l tail : rd b' = rd b -> buf b' = buf b -> r b' = r b -> w b' = w b -> b_err b' = b_err b ->
  available b' = available b -> view b l tail -> view b' l tail.
Proof.
  intros E1 E2 E3 E4 E5 E6. unfold view, holds, wf, window. by rewrite E1, E2, E3, E4, E5, E6.
Qed.

Lemma take_byte_ok b c l tail : view b (c :: l) tail -> (0 < length (BufReader_Bytes b))%nat ->
  exists b' b'', take_byte b = (Ret c, b') /\ view b' l tail /\
    length (buf b') = length (buf b) /\
    BufReader_UnreadByte b' = (Ret tt, b'') /\ view b'' (c :: l) tail /\ length (buf b'') = length (buf b).
Proof.
  intros Hv Hn. unfold take_byte. pose proof (view_head _ _ _ _ Hv Hn) as Hh. rewrite Hh.
  pose proof (view_byte _ _ _ _ Hv) as Hc. unfold byte_ok in Hc.
  destruct (view_advance b [c] l tail Hv) as (_ & Hv' & Hbuf); [simpl; lia|]. simpl in Hv', Hbuf.
  set (b' := changeAvailable _ _).
  assert (Eb' : b' = set_last (advance 1 b) c).
  { unfold b', advance, changeAvailable. simpl. by destruct (available b =? -1). }
  assert (Hr' : r b' = (r b + 1)%nat).
  { unfold b', changeAvailable. simpl. by destruct (available b =? -1). }
  assert (Hl' : lastByte b' = c) by by rewrite Eb'.
  exists b'. eexists. split; [done|]. split; [by rewrite Eb'|]. split; [by rewrite Eb'; simpl; rewrite Hbuf|].
  unfold BufReader_UnreadByte. rewrite Hl', Hr', (proj2 (Z.ltb_ge c 0)) by lia.
  rewrite (proj2 (Nat.eqb_neq (r b + 1) 0)), (proj2 (Nat.ltb_lt 0 (r b + 1))) by lia. cbn [orb andb].
  split; [done|]. cbn [r w buf lastByte set_pos]. replace (r b + 1 - 1)%nat with (r b) by lia.
  assert (Hb' : buf b' = buf b) by (rewrite Eb'; exact Hbuf). rewrite Hb', ?Hl', list_insert_id by done.
  assert (Ha := proj2 Hv).
  assert (Haa : available (changeAvailable 1 (set_last (set_buf (set_pos b' (r b) (w b')) (buf b)) (-1))) = available b).
  { unfold changeAvailable. cbn [available set_last set_buf set_pos]. unfold b', changeAvailable. simpl.
    destruct (Z.eqb_spec (available b) (-1)) as [Ea|Ea]; cbn [available set_pos set_last SetAvailable]; [by rewrite Ea|].
    rewrite (proj2 (Z.eqb_neq _ _)) by (destruct Ha as [[? _]|Ha]; [done|simpl in Ha; lia]).
    cbn. lia. }
  split; [apply (view_ext b); [..|done]; try done|f_equal].
  all: unfold changeAvailable; unfold b', changeAvailable; simpl; by repeat case_match.
Qed.

Lemma buf_read_byte b c l tail : view b (c :: l) tail ->
  exists b' b'', BufReader_ReadByte b = (Ret c, b') /\ view b' l tail /\ length (buf b') = length (buf b) /\
    BufReader_UnreadByte b' = (Ret tt, b'') /\ view b'' (c :: l) tail /\ length (buf b'') = length (buf b).
Proof.
  intros Hv. unfold BufReader_ReadByte. rewrite (proj2 (Z.eqb_neq _ _)) by (by eapply view_available).
  unfold mbind, io_mbind. cbn [ReadByte_loop]. destruct (Nat.eqb_spec (r b) (w b)) as [E|E].
  - pose proof Hv as [(Hwf & -> & _) _]. apply (view_empty _ _ _ _ Hv) in E.
    destruct (fill_ok b _ _ Hv) as (b1 & Hf & Hv1 & Hl1 & Hlt & _); [simpl; lia|destruct Hwf; lia|].
    unfold mbind, io_mbind. rewrite Hf.
    assert (Hne : r b1 <> w b1) by (rewrite (view_empty _ _ _ _ Hv1); lia).
    rewrite (proj2 (Nat.eqb_neq _ _) Hne).
    destruct (take_byte_ok b1 _ _ _ Hv1) as (b' & b'' & ?); [lia|]. exists b', b''. by rewrite <- Hl1.
  - rewrite (view_empty _ _ _ _ Hv) in E. apply take_byte_ok; [done|lia].
Qed.

(** *** Slices *)

Lemma view_room b l tail : view b l tail -> (length (BufReader_Bytes b) <= length (buf b))%nat.
Proof.
  intros Hv. destruct (view_buffered _ _ _ Hv) as (HB & _ & _). destruct Hv as [(Hwf & _) _].
  rewrite HB, length_take, (length_window b Hwf). destruct Hwf. lia.
Qed.

Lemma view_seg b l tail k : view b l tail -> (k <= length (BufReader_Bytes b))%nat ->
  seg (buf b) (r b) (r b + k) = take k (BufReader_Bytes b).
Proof.
  intros Hv Hk. destruct (view_buffered _ _ _ Hv) as (HB & _ & _). destruct Hv as [(Hwf & _) _].
  rewrite HB, length_take, (length_window b Hwf) in Hk. destruct Hwf.
  rewrite HB, take_take, Nat.min_l by lia. apply seg_take. lia.
Qed.

(** Everything that is buffered is handed out. *)
Lemma view_flush b l tail : view b l tail -> exists b',
  flush b = (BufReader_Bytes b, b') /\ view b' (drop (length (BufReader_Bytes b)) l) tail /\ buf b' = buf b.
Proof.
  intros Hv. destruct (view_buffered _ _ _ Hv) as (HB & [q Hq] & _).
  assert (Hf : flush b = (BufReader_Bytes b, advance (length (BufReader_Bytes b)) b)).
  { unfold flush, advance. do 3 f_equal. unfold BufReader_Bytes. destruct Hv as [([Hwf _] & _) _].
    assert (r b <= limit b <= w b)%nat by (unfold limit; case_match; lia). rewrite length_seg by lia. lia. }
  exists (advance (length (BufReader_Bytes b)) b). split; [exact Hf|]. rewrite Hq in Hv. destruct (view_advance _ _ _ _ Hv) as (_ & Hv' & Hb); [done|].
  rewrite Hq, drop_app_length. done.
Qed.

Lemma view_remember b line l tail : view (remember line b) l tail <-> view b l tail.
Proof. unfold remember. by destruct (last line). Qed.
Lemma buf_remember b line : buf (remember line b) = buf b.
Proof. unfold remember. by destruct (last line). Qed.

(** A delimiter is found, the limit is reached, or the buffer is full. *)
Lemma ReadSlice_loop_ok fuel d b l tail : view b l tail -> (available b <> -1 \/ d ∈ l) ->
  (length (buf b) < fuel + length (BufReader_Bytes b))%nat ->
  exists line e rest b', ReadSlice_loop fuel d b = (Ret (line, e), b') /\ sliced d l line e rest /\
    view b' rest tail /\ length (buf b') = length (buf b) /\
    (e = Some ErrBufferFull -> length line = length (buf b)) /\ (e = Some EOF -> available b <> -1).
Proof.
  revert b. induction fuel as [|fuel IH]; intros b Hv Hd Hf.
  { pose proof (view_room _ _ _ Hv). lia. }
  cbn [ReadSlice_loop]. pose proof (view_room _ _ _ Hv) as Hroom.
  destruct (view_buffered _ _ _ Hv) as (HB & [q Hq] & Hbuf).
  destruct (IndexByte (BufReader_Bytes b) d) as [i|] eqn:Ei.
  - destruct (IndexByte_Some _ _ _ Ei) as (p & p' & Ep & <- & Hp).
    assert (Hle : (S (length p) <= length (BufReader_Bytes b))%nat) by (rewrite Ep, length_app; simpl; lia).
    assert (El : l = (p ++ [d]) ++ p' ++ q) by (rewrite Hq, Ep, <- !app_assoc; done).
    rewrite El in Hv. destruct (view_advance b (p ++ [d]) (p' ++ q) tail Hv) as (Et & Hv' & Hb').
    { rewrite length_app; simpl; lia. }
    rewrite length_app, Nat.add_comm in Et, Hv', Hb'. cbn [length Nat.add] in Et, Hv', Hb'.
    eexists _, _, (p' ++ q), _. split; [done|]. rewrite (view_seg _ _ _ _ Hv) by lia. rewrite Et.
    split; [split; [exact El|by exists p]|]. split_and!; [done|exact (f_equal length Hb')|done|done].
  - apply IndexByte_None in Ei. pose proof Hv as [(Hwf & -> & _) Ha]. rewrite Hbuf.
    destruct (negb (available b =? -1) && (available b <=? Z.of_nat (length (BufReader_Bytes b)))) eqn:Elim.
    + apply andb_prop in Elim as [E1 E2]. assert (Hlim : available b = Z.of_nat (length l)) by (destruct Ha as [[? _]|?]; lia).
      assert (Hq0 : q = []).
      { apply length_zero_iff_nil. apply (f_equal length) in Hq. rewrite length_app in Hq. lia. }
      destruct (view_flush _ _ _ Hv) as (b' & Hfl & Hv' & Hb'). rewrite Hfl.
      rewrite Hq, Hq0, app_nil_r, drop_all in Hv'. eexists _, _, [], b'. split; [done|].
      split; [split; [by rewrite Hq, Hq0|done]|]. split_and!; [done|by rewrite Hb'|done|intros _; lia].
    + destruct (Z.leb_spec (Z.of_nat (length (buf b))) (Z.of_nat (length (BufReader_Bytes b)))) as [Hfull|Hfull].
      * destruct (view_flush _ _ _ Hv) as (b' & Hfl & Hv' & Hb'). rewrite Hfl.
        rewrite Hq, drop_app_length in Hv'. eexists _, _, q, b'. split; [done|].
        split; [split; [done|split; [|done]]|split_and!; [done|by rewrite Hb'|intros _; lia|done]].
        intros E0. rewrite E0 in Hfull. simpl in Hfull. destruct Hwf. lia.
      * assert (Hlt : (length (BufReader_Bytes b) < length l)%nat).
        { destruct Ha as [[Ha ->]|Ha].
          - destruct Hd as [?|Hd]; [done|]. rewrite Hq in Hd. apply elem_of_app in Hd as [?|Hd]; [done|].
            rewrite Hq, length_app. destruct q; [set_solver|simpl; lia].
          - rewrite (proj2 (Z.eqb_neq _ _)) in Elim by lia. simpl in Elim. lia. }
        destruct (fill_ok b _ _ Hv) as (b1 & Hfi & Hv1 & Hl1 & Hlt1 & Ha1); [done|lia|].
        unfold mbind, io_mbind. rewrite Hfi.
        destruct (IH b1 Hv1) as (line & e & rest & b' & HR & Hs & Hv' & Hb' & Hfull' & Heof); [|lia|].
        { rewrite Ha1. done. }
        exists line, e, rest, b'. rewrite Hl1 in Hb', Hfull'. rewrite <- Ha1. done.
Qed.

Lemma buf_read_slice d b l tail : view b l tail -> (available b <> -1 \/ d ∈ l) ->
  exists line e rest b', BufReader_ReadSlice d b = (Ret (line, e), b') /\ sliced d l line e rest /\
    view b' rest tail /\ length (buf b') = length (buf b) /\
    (e = Some ErrBufferFull -> length line = length (buf b)) /\ (e = Some EOF -> available b <> -1).
Proof.
  intros Hv Hd. unfold BufReader_ReadSlice.
  destruct (ReadSlice_loop_ok (3 + length (buf b)) d b l tail Hv Hd) as (line & e & rest & b' & -> & Hs & Hv' & Hb' & ?); [lia|].
  exists line, e, rest, (remember line b'). rewrite view_remember, buf_remember. done.
Qed.

(** *** A number of bytes *)

Lemma ReadN_loop_ok fuel n nz b l tail : view b l tail -> (n <= length l)%nat ->
  (length (buf b) < fuel + length (BufReader_Bytes b))%nat ->
  let m := Nat.min n (length (buf b)) in
  exists b', ReadN_loop fuel nz (Z.of_nat n) b =
      (Ret (take m l, if (n <=? length (buf b))%nat then (if Z.of_nat n <? nz then Some EOF else None) else Some ErrBufferFull), b') /\
    view b' (drop m l) tail /\ length (buf b') = length (buf b).
Proof.
  revert b. induction fuel as [|fuel IH]; intros b Hv Hn Hf m.
  { pose proof (view_room _ _ _ Hv). lia. }
  cbn [ReadN_loop]. pose proof (view_room _ _ _ Hv) as Hroom.
  destruct (view_buffered _ _ _ Hv) as (HB & [q Hq] & ->).
  destruct (Z.leb_spec (Z.of_nat n) (Z.of_nat (length (BufReader_Bytes b)))) as [Hle|Hgt].
  - rewrite Nat2Z.id. unfold m. rewrite Nat.min_l by lia.
    rewrite (proj2 (Nat.leb_le n _)) by lia. rewrite (view_seg _ _ _ _ Hv) by lia.
    assert (Hv0 := Hv). rewrite <- (take_drop n l) in Hv0.
    assert (Hlt : length (take n l) = n) by (rewrite length_take; lia).
    destruct (view_advance b _ _ _ Hv0) as (Et & Hv' & Hb'); [lia|]. rewrite Hlt in *.
    eexists. split; [by rewrite Et|]. split; [exact Hv'|exact (f_equal length Hb')].
  - pose proof Hv as [(Hwf & -> & _) Ha].
    destruct (Z.leb_spec (Z.of_nat (length (buf b))) (Z.of_nat (length (BufReader_Bytes b)))) as [Hfull|Hfull].
    + destruct (view_flush _ _ _ Hv) as (b' & Hfl & Hv' & Hb'). rewrite Hfl.
      assert (Em : m = length (BufReader_Bytes b)) by lia. rewrite (proj2 (Nat.leb_gt n _)) by lia.
      exists b'. rewrite Em. split; [|by rewrite Hb'].
      do 3 f_equal. by rewrite Hq, take_app_length.
    + destruct (fill_ok b _ _ Hv) as (b1 & Hfi & Hv1 & Hl1 & Hlt1 & Ha1); [lia..|].
      unfold mbind, io_mbind. rewrite Hfi. destruct (IH b1 Hv1) as (b' & HR & Hv' & Hb'); [done|lia|].
      exists b'. rewrite HR, Hl1 in *. done.
Qed.

(** [ReadN n] of bytes that are to come: all of them if they fit into the
    buffer, a buffer full of them with the error [ErrBufferFull] if not. *)
Lemma buf_ReadN n b l tail : view b l tail -> (n <= length l)%nat ->
  let m := Nat.min n (length (buf b)) in
  exists b', ReadN (Z.of_nat n) b =
      (Ret (take m l, if (n <=? length (buf b))%nat then None else Some ErrBufferFull), b') /\
    view b' (drop m l) tail /\ length (buf b') = length (buf b).
Proof.
  intros Hv Hn m. unfold ReadN. rewrite (proj2 (Z.ltb_ge _ _)) by lia.
  destruct (Z.eqb_spec (Z.of_nat n) 0) as [E|E].
  { assert (n = 0)%nat as -> by lia. unfold m. simpl. exists b. by rewrite drop_0. }
  assert (E' : negb (available b =? -1) && (available b <? Z.of_nat n) = false).
  { destruct Hv as [_ [[-> _]| ->]]; [done|]. rewrite (proj2 (Z.ltb_ge _ _)) by lia. apply andb_false_r. }
  rewrite E'. destruct (ReadN_loop_ok (3 + length (buf b)) n (Z.of_nat n) b l tail Hv Hn) as (b' & -> & Hv' & Hb'); [lia|]. rewrite Z.ltb_irrefl.
  exists (remember (take m l) b'). rewrite view_remember, buf_remember. done.
Qed.

(** More bytes than are left before the limit: those that are left, with [EOF]. *)
Lemma buf_ReadN_over n b l tail : view b l tail -> available b = Z.of_nat (length l) -> (length l < n)%nat ->
  let m := Nat.min (length l) (length (buf b)) in
  exists b', ReadN (Z.of_nat n) b =
      (Ret (take m l, Some (if (length l <=? length (buf b))%nat then EOF else ErrBufferFull)), b') /\
    view b' (drop m l) tail /\ length (buf b') = length (buf b).
Proof.
  intros Hv Ha Hn m. unfold ReadN. rewrite (proj2 (Z.ltb_ge _ _)), (proj2 (Z.eqb_neq _ _)) by lia.
  rewrite Ha, (proj2 (Z.eqb_neq (Z.of_nat (length l)) (-1))), (proj2 (Z.ltb_lt _ _)) by lia. cbn [negb andb].
  destruct (ReadN_loop_ok (3 + length (buf b)) (length l) (Z.of_nat n) b l tail Hv) as (b' & -> & Hv' & Hb'); [lia..|].
  rewrite (proj2 (Z.ltb_lt _ _)) by lia. exists (remember (take m l) b'). rewrite view_remember, buf_remember.
  by destruct (length l <=? length (buf b))%nat.
Qed.

Lemma Discard_loop_ok fuel n k b l tail : view b l tail -> (0 < k <= length l)%nat -> (k < fuel)%nat ->
  exists b', Discard_loop fuel n (Z.of_nat k) b = (Ret (n, None), b') /\ view b' (drop k l) tail /\
    length (buf b') = length (buf b).
Proof.
  revert k b l. induction fuel as [|fuel IH]; intros k b l Hv Hk Hf; [lia|]. cbn [Discard_loop].
  set (rest := fun b : BufReader C => _ : go err (Z * option err) * BufReader C).
  assert (Hrest : forall b1, view b1 l tail -> length (buf b1) = length (buf b) -> (0 < length (BufReader_Bytes b1))%nat ->
    exists b', rest b1 = (Ret (n, None), b') /\ view b' (drop k l) tail /\ length (buf b') = length (buf b)).
  { intros b1 Hv1 Hlen Hpos. unfold rest. destruct (view_buffered _ _ _ Hv1) as (HB & [q Hq] & ->).
    set (m := Nat.min (length (BufReader_Bytes b1)) k).
    replace (Z.min _ _) with (Z.of_nat m) by lia. rewrite Nat2Z.id.
    assert (Hm : length (take m l) = m).
    { apply (f_equal length) in Hq. rewrite length_app in Hq. rewrite length_take. lia. }
    assert (Hv0 := Hv1). rewrite <- (take_drop m l) in Hv0.
    destruct (view_advance b1 _ _ _ Hv0) as (_ & Hv' & Hb'); [lia|]. rewrite Hm in *.
    destruct (Z.eqb_spec (Z.of_nat k - Z.of_nat m) 0) as [E|E].
    - eexists. split; [done|]. replace k with m by lia. split; [exact Hv'|].
      rewrite <- Hlen. exact (f_equal length Hb').
    - fold (advance m b1). pose proof Hv' as [(_ & -> & _) _].
      replace (Z.of_nat k - Z.of_nat m) with (Z.of_nat (k - m)) by lia.
      destruct (IH (k - m)%nat _ _ Hv') as (b' & -> & Hv2 & Hb2); [rewrite length_drop; lia|lia|].
      exists b'. split; [done|]. rewrite drop_drop in Hv2. replace (m + (k - m))%nat with k in Hv2 by lia.
      split; [done|]. by rewrite Hb2, Hb', Hlen. }
  destruct (view_buffered _ _ _ Hv) as (_ & _ & HBf).
  destruct (Z.eqb_spec (BufReader_Buffered b) 0) as [E|E].
  - pose proof Hv as [(Hwf & _) _]. destruct (fill_ok b _ _ Hv) as (b1 & Hfi & Hv1 & Hl1 & Hlt1 & _); [lia|destruct Hwf; lia|].
    unfold mbind, io_mbind. rewrite Hfi. apply Hrest; [done|done|lia].
  - apply Hrest; [done|done|lia].
Qed.

Lemma buf_Discard n b l tail : view b l tail -> (n <= length l)%nat ->
  exists b', Discard (Z.of_nat n) b = (Ret (Z.of_nat n, None), b') /\ view b' (drop n l) tail /\
    length (buf b') = length (buf b).
Proof.
  intros Hv Hn. unfold Discard. rewrite (proj2 (Z.ltb_ge _ _)) by lia.
  destruct (Z.eqb_spec (Z.of_nat n) 0) as [E|E].
  { assert (n = 0)%nat as -> by lia. exists b. by rewrite drop_0. }
  rewrite Nat2Z.id. apply Discard_loop_ok; [done|lia|lia].
Qed.

(** *** Reading into a slice of the caller *)

Definition read_some b l tail n (m : go err (list Z * option err) * BufReader C) : Prop :=
  exists p rest b', m = (Ret (p, None), b') /\ l = p ++ rest /\ (0 < length p <= n)%nat /\
    view b' rest tail /\ length (buf b') = length (buf b).

Lemma Read_copy_ok n b l tail : view b l tail -> (0 < n)%nat -> (0 < length (BufReader_Bytes b))%nat ->
  read_some b l tail n (Read_copy n b).
Proof.
  intros Hv Hn Hpos. destruct (view_buffered _ _ _ Hv) as (HB & [q Hq] & _). unfold Read_copy.
  set (p := take n (BufReader_Bytes b)).
  assert (Hp : (0 < length p <= n /\ length p <= length (BufReader_Bytes b))%nat) by (unfold p; rewrite length_take; lia).
  assert (El : l = p ++ drop n (BufReader_Bytes b) ++ q) by (unfold p; rewrite app_assoc, take_drop; done).
  assert (Hv0 := Hv). rewrite El in Hv0. destruct (view_advance b _ _ _ Hv0) as (_ & Hv' & Hb'); [lia|].
  fold (advance (length p) b).
  assert (Hr : r (advance (length p) b) = S (r b + (length p - 1))).
  { unfold advance, changeAvailable. simpl. destruct (available b =? -1); simpl; lia. }
  rewrite Hr. destruct (lookup_lt_is_Some_2 (buf (advance (length p) b)) (r b + (length p - 1))) as [c Hc].
  { destruct Hv' as [(Hwf & _) _]. destruct Hwf. rewrite Hr in *. lia. }
  rewrite Hc. eexists p, _, _. split; [done|]. split; [exact El|]. split; [lia|]. split; [done|]. cbn [buf set_last]. by rewrite Hb'.
Qed.

Lemma buf_Read n b c l tail : view b (c :: l) tail -> (0 < n)%nat -> read_some b (c :: l) tail n (BufReader_Read n b).
Proof.
  intros Hv Hn. unfold BufReader_Read. rewrite (proj2 (Nat.eqb_neq n 0)) by lia.
  pose proof (view_available _ _ _ _ Hv) as Hav. rewrite (proj2 (Z.eqb_neq (available b) 0)) by done.
  set (n' := if available b =? -1 then n else Nat.min n (Z.to_nat (available b))).
  assert (Hn' : (0 < n' <= n)%nat).
  { unfold n'. destruct Hv as [_ Ha]. cbn [length] in Ha. destruct (Z.eqb_spec (available b) (-1)); lia. }
  assert (Hweak : forall m, read_some b (c :: l) tail n' m -> read_some b (c :: l) tail n m).
  { intros m (p & rest & b' & ? & ? & ? & ? & ?). exists p, rest, b'. split_and!; try done; lia. }
  apply Hweak. destruct (Nat.eqb_spec (r b) (w b)) as [E|E].
  2: { apply Read_copy_ok; [done|lia|]. rewrite (view_empty _ _ _ _ Hv) in E. lia. }
  pose proof Hv as [(Hwf & He & Hok & F & HF & HL) Ha]. rewrite He.
  assert (Hw : window b = []). { apply length_zero_iff_nil. rewrite length_window by done. lia. }
  rewrite Hw in HL. simpl in HL. rewrite <- HL in HF.
  assert (Hcut : forall p q : list Z, c :: l ++ tail = p ++ q -> (length p <= n')%nat ->
    (available b = -1 -> tail = []) ->
    c :: l = p ++ drop (length p) (c :: l) /\ q = drop (length p) (c :: l) ++ tail).
  { intros p q Epq Hp Ht. assert (Hpl : (length p <= length (c :: l))%nat).
    { unfold n' in Hp. destruct Ha as [[Ha ->]|Ha].
      - rewrite app_nil_r in Epq. rewrite Epq, length_app. lia.
      - rewrite Ha, (proj2 (Z.eqb_neq _ _)), Nat2Z.id in Hp by lia. lia. }
    assert (Ep : take (length p) (c :: l) = p).
    { rewrite <- (take_app_le _ tail) by done. change ((c :: l) ++ tail) with (c :: l ++ tail). by rewrite Epq, take_app_length. }
    split; [by rewrite <- Ep at 1; rewrite take_drop|].
    rewrite <- drop_app_le by done. change ((c :: l) ++ tail) with (c :: l ++ tail). by rewrite Epq, drop_app_length. }
  destruct (Nat.leb_spec (length (buf b)) n') as [Hbig|Hsmall].
  - destruct (supplies_read _ _ _ n' HF) as (p & q & s' & Hcr & Epq & Hp & Hq); [lia|].
    destruct (Hcut p q Epq) as [E1 E2]; [lia|intros Ha'; destruct Ha as [[_ ?]|?]; [done|lia]|].
    unfold read_raw. rewrite Hcr. destruct (last p) as [x|] eqn:Ex.
    2: { apply last_None in Ex. subst p. simpl in Hp. lia. }
    exists p, (drop (length p) (c :: l)). eexists. split; [done|]. split; [exact E1|]. split; [lia|].
    unfold changeAvailable. cbn [available].
    assert (Hh : Forall byte_ok (drop (length p) (c :: l) ++ tail)).
    { rewrite <- E2. change (Forall byte_ok (c :: l ++ tail)) in Hok. rewrite Epq in Hok. by apply Forall_app in Hok as [_ ?]. }
    destruct (Z.eqb_spec (available b) (-1)) as [Ea|Ea].
    + destruct Ha as [[_ ->]|Ha]; [|lia]. split; [|done]. split; [|by left].
      split; [destruct Hwf; split; cbn; lia|]. split_and!; try done. exists q. split; [done|]. rewrite E2. change (drop (length p) (c :: l) ++ [] = window b ++ drop (length p) (c :: l) ++ []). by rewrite Hw.
    + destruct Ha as [[? _]|Ha]; [done|]. split; [|done]. split.
      * rewrite E1, length_app in Ha. split; [destruct Hwf; split; cbn; lia|].
        split_and!; try done. exists q. split; [done|]. rewrite E2. change (drop (length p) (c :: l) ++ tail = window b ++ drop (length p) (c :: l) ++ tail). by rewrite Hw.
      * right. cbn [available set_last SetAvailable]. rewrite E1, length_app in Ha. lia.
  - destruct (supplies_read _ _ _ (length (buf b)) HF) as (p & q & s' & Hcr & Epq & Hp & Hq); [lia|].
    unfold read_raw. cbn [rd set_pos]. rewrite Hcr. cbn [rd set_pos set_buf set_err buf r w lastByte bytesRead b_err available].
    rewrite (proj2 (Nat.eqb_neq (length p) 0)) by lia.
    match goal with |- read_some _ _ _ _ (Read_copy _ ?x) => set (b1 := x) end.
    assert (Hb1 : length (buf b1) = length (buf b)).
    { unfold b1. cbn [buf set_pos set_err set_buf]. apply length_store. lia. }
    assert (Hw1 : window b1 = p).
    { unfold window, b1. cbn [buf r w set_pos set_err set_buf]. apply (seg_store (buf b) p 0 0); lia. }
    assert (Hv1 : view b1 (c :: l) tail).
    { split; [|done]. split_and!; [split; rewrite Hb1; unfold b1; cbn; destruct Hwf; lia|done|done|].
      exists q. rewrite Hw1. done. }
    assert (Hpos : (0 < length (BufReader_Bytes b1))%nat).
    { destruct (view_buffered _ _ _ Hv1) as (-> & _ & _). rewrite Hw1, length_take. cbn [length]. lia. }
    destruct (Read_copy_ok n' b1 _ _ Hv1) as (p' & rest & b' & ? & ? & ? & ? & ?); [lia|done|].
    exists p', rest, b'. split_and!; try done; lia.
Qed.

Lemma io_ReadFull_ok fuel b got l tail : view b l tail -> (length l < fuel)%nat ->
  exists b', io_ReadFull fuel (length got + length l) got b = (Ret (got ++ l, None), b') /\ view b' [] tail /\
    length (buf b') = length (buf b).
Proof.
  revert b got l. induction fuel as [|fuel IH]; intros b got l Hv Hf; [lia|]. cbn [io_ReadFull].
  destruct l as [|c l].
  { rewrite (proj2 (Nat.ltb_ge _ _)) by (simpl; lia). exists b. by rewrite app_nil_r. }
  rewrite (proj2 (Nat.ltb_lt _ _)) by (simpl; lia).
  destruct (buf_Read (length got + length (c :: l) - length got) b c l tail Hv)
    as (p & rest & b1 & -> & El & Hp & Hv1 & Hb1); [simpl; lia|].
  destruct (IH b1 (got ++ p) rest Hv1) as (b' & HR & Hv' & Hb').
  { apply (f_equal length) in El. rewrite length_app in El. simpl in El, Hf. lia. }
  rewrite El, app_assoc. rewrite !length_app in *.
  replace (length got + (length p + length rest))%nat with (length got + length p + length rest)%nat by lia.
  exists b'. split; [done|]. split; [done|lia].
Qed.

Lemma buf_ReadFull b l tail : view b l tail -> available b <> -1 ->
  exists b', BufReader_ReadFull b = (Ret l, b') /\ view b' [] tail /\ length (buf b') = length (buf b).
Proof.
  intros Hv Ha. unfold BufReader_ReadFull, checked. rewrite (proj2 (Z.eqb_neq _ _)) by done.
  pose proof Hv as [_ [[? _]|E]]; [done|]. rewrite E, Nat2Z.id.
  destruct (io_ReadFull_ok (2 + length l) b [] l tail Hv) as (b' & HR & ?); [lia|]. simpl in HR. simpl. rewrite HR. by exists b'.
Qed.

Lemma buf_ReadFullTemp b l tail : view b l tail -> available b <> -1 ->
  exists b', BufReader_ReadFullTemp b = (Ret l, b') /\ view b' [] tail /\ length (buf b') = length (buf b).
Proof.
  intros Hv Ha. unfold BufReader_ReadFullTemp. rewrite (proj2 (Z.eqb_neq _ (-1))) by done.
  destruct (Z.leb_spec (available b) (Z.of_nat (length (buf b)))) as [Hle|Hgt]; [|by apply buf_ReadFull].
  pose proof Hv as [_ [[? _]|E]]; [done|]. rewrite E in *. unfold checked.
  destruct (buf_ReadN (length l) b l tail Hv) as (b' & HR & Hv' & Hb'); [done|].
  rewrite Nat.min_l in HR, Hv' by lia. rewrite HR, (proj2 (Nat.leb_le _ _)), firstn_all by lia.
  rewrite drop_all in Hv'. by exists b'.
Qed.

Lemma limited_available b l tail : view b l tail -> limited = true -> available b <> -1.
Proof. intros [(Hwf & _) _] Hl. destruct Hwf as [_ [_ E]]. intros Ha. apply E in Ha. congruence. Qed.

End BufReaderLaws.

(** A reader whose limit is set keeps the laws of the interface, its buffer keeps
    its size, and what follows the limit stays on the connection. *)
Definition buf_reader_laws {C} `{SourceLaws C} (size : nat) (tail : list Z) : ReaderLaws (BufReader C).
Proof.
  refine {| repr b l := view true b l tail /\ length (buf b) = size |}.
  - intros b c l [Hv Hs]. destruct (buf_read_byte true b c l tail Hv) as (b' & b'' & HR & Hv' & Hl' & HU & Hv'' & Hl'').
    exists b', b''. rewrite Hl', Hl''. done.
  - intros b [Hv Hs]. exists b. split; [|done]. change (BufReader_ReadByte b = (Fail EOF, b)). unfold BufReader_ReadByte.
    pose proof (limited_available _ _ _ _ Hv eq_refl). destruct Hv as [_ [[? _]|E]]; [done|]. simpl in E. by rewrite (proj2 (Z.eqb_eq _ 0) E).
  - intros d b l [Hv Hs]. destruct (buf_read_slice true d b l tail Hv) as (line & e & rest & b' & HR & Hsl & Hv' & Hl' & _);
      [left; by eapply limited_available|]. exists line, e, rest, b'. by rewrite Hl'.
  - intros b l [Hv Hs]. destruct (buf_ReadFull true b l tail Hv) as (b' & HR & Hv' & Hl'); [by eapply limited_available|].
    exists b'. by rewrite Hl'.
  - intros b l [Hv Hs]. destruct (buf_ReadFullTemp true b l tail Hv) as (b' & HR & Hv' & Hl'); [by eapply limited_available|].
    exists b'. by rewrite Hl'.
Defined.

(** ** Sequences of reads *)

(** What is read from a message: the operations that the code uses on it. *)
Inductive op := OByte | OPeek | OSlice (d : Z) | OFull | OFullTemp | ORead (n : nat) | OReadN (n : nat) | ODiscard (n : nat).
Inductive answer := ABytes (l : list Z) (e : option err) | ACount (n : Z) (e : option err).

(** The message as a list of bytes: what each operation may answer, and what is then
    left. A line that does not fit into the buffer is given in parts. *)
Inductive stream_step (size : nat) : op -> list Z -> answer -> list Z -> Prop :=
| step_byte c l : stream_step size OByte (c :: l) (ABytes [c] None) l
| step_byte_end : stream_step size OByte [] (ABytes [] (Some EOF)) []
| step_peek c l : stream_step size OPeek (c :: l) (ABytes [c] None) (c :: l)
| step_peek_end : stream_step size OPeek [] (ABytes [] (Some EOF)) []
| step_slice d l line e rest : sliced d l line e rest -> (e = Some ErrBufferFull -> length line = size) ->
    stream_step size (OSlice d) l (ABytes line e) rest
| step_full l : stream_step size OFull l (ABytes l None) []
| step_full_temp l : stream_step size OFullTemp l (ABytes l None) []
| step_read n p rest : (0 < length p <= n)%nat -> stream_step size (ORead n) (p ++ rest) (ABytes p None) rest
| step_read_none l : stream_step size (ORead 0) l (ABytes [] None) l
| step_read_end n : (0 < n)%nat -> stream_step size (ORead n) [] (ABytes [] (Some EOF)) []
| step_readn n l : (n <= length l)%nat ->
    stream_step size (OReadN n) l (ABytes (take (Nat.min n size) l) (if (n <=? size)%nat then None else Some ErrBufferFull))
      (drop (Nat.min n size) l)
| step_readn_over n l : (length l < n)%nat ->
    stream_step size (OReadN n) l
      (ABytes (take (Nat.min (length l) size) l) (Some (if (length l <=? size)%nat then EOF else ErrBufferFull)))
      (drop (Nat.min (length l) size) l)
| step_discard n l : (n <= length l)%nat -> stream_step size (ODiscard n) l (ACount (Z.of_nat n) None) (drop n l).

Inductive stream_run (size : nat) : list op -> list Z -> list answer -> list Z -> Prop :=
| run_nil l : stream_run size [] l [] l
| run_cons o ops l a l1 as_ l2 : stream_step size o l a l1 -> stream_run size ops l1 as_ l2 ->
    stream_run size (o :: ops) l (a :: as_) l2.

(** No more is discarded than is left of the message. *)
Definition guard_op (o : op) (l : list Z) : Prop := match o with ODiscard n => (n <= length l)%nat | _ => True end.
Fixpoint permitted (size : nat) (ops : list op) (l : list Z) : Prop :=
  match ops with
  | [] => True
  | o :: ops => guard_op o l /\ forall a l', stream_step size o l a l' -> permitted size ops l'
  end.

Section Refinement.
Context {C : Type} `{SourceLaws C}.

Definition answer_of (m : io (BufReader C) (list Z * option err)) : io (BufReader C) answer :=
  '(l, e) ← m; mret (ABytes l e).
Definition failing {A} (m : io (BufReader C) A) (f : A -> list Z) : io (BufReader C) answer :=
  x ← try m; mret match x with inl a => ABytes (f a) None | inr e => ABytes [] (Some e) end.

Definition run_op (o : op) : io (BufReader C) answer :=
  match o with
  | OByte => failing BufReader_ReadByte (fun c => [c])
  | OPeek => failing (c ← BufReader_ReadByte; _ ← BufReader_UnreadByte; mret c) (fun c => [c])
  | OSlice d => answer_of (BufReader_ReadSlice d)
  | OFull => failing BufReader_ReadFull id
  | OFullTemp => failing BufReader_ReadFullTemp id
  | ORead n => answer_of (BufReader_Read n)
  | OReadN n => answer_of (ReadN (Z.of_nat n))
  | ODiscard n => '(k, e) ← Discard (Z.of_nat n); mret (ACount k e)
  end.
Fixpoint run_ops (ops : list op) : io (BufReader C) (list answer) :=
  match ops with
  | [] => mret []
  | o :: ops => a ← run_op o; as_ ← run_ops ops; mret (a :: as_)
  end.

(** A reader with a limit at the end of the message: what it holds of the message and
    what comes after it. *)
Definition limited_to (size : nat) (b : BufReader C) (l tail : list Z) : Prop :=
  view true b l tail /\ length (buf b) = size.

Lemma limited_end size b tail : limited_to size b [] tail -> available b = 0.
Proof.
  intros [Hv _]. pose proof (limited_available _ _ _ _ Hv eq_refl). by destruct Hv as [_ [[? _]|E]].
Qed.

Lemma run_op_refines size o b l tail : limited_to size b l tail -> guard_op o l ->
  exists a l' b', run_op o b = (Ret a, b') /\ stream_step size o l a l' /\ limited_to size b' l' tail.
Proof.
  intros Hb Hg. pose proof Hb as [Hv Hs]. pose proof (limited_available _ _ _ _ Hv eq_refl) as Ha.
  destruct o as [| |d| | |n|n|n]; cbn [run_op guard_op] in *; unfold failing, answer_of, try, mbind, io_mbind.
  - destruct l as [|c l].
    + unfold BufReader_ReadByte. rewrite (limited_end _ _ _ Hb). simpl. eexists _, _, _. split; [done|]. split; [constructor|done].
    + destruct (buf_read_byte true b c l tail Hv) as (b' & b'' & -> & Hv' & Hl' & _). eexists _, _, _. split; [done|].
      split; [constructor|]. by split; [|lia].
  - destruct l as [|c l].
    + unfold BufReader_ReadByte. rewrite (limited_end _ _ _ Hb). simpl. eexists _, _, _. split; [done|]. split; [constructor|done].
    + destruct (buf_read_byte true b c l tail Hv) as (b' & b'' & -> & Hv' & Hl' & -> & Hv'' & Hl''). eexists _, _, _. split; [done|].
      split; [constructor|]. by split; [|lia].
  - destruct (buf_read_slice true d b l tail Hv) as (line & e & rest & b' & -> & Hsl & Hv' & Hl' & Hf & _); [by left|].
    eexists _, _, _. split; [done|]. split; [constructor; [done|by rewrite <- Hs]|]. by split; [|lia].
  - destruct (buf_ReadFull true b l tail Hv Ha) as (b' & -> & Hv' & Hl'). eexists _, _, _. split; [done|].
    split; [constructor|]. by split; [|lia].
  - destruct (buf_ReadFullTemp true b l tail Hv Ha) as (b' & -> & Hv' & Hl'). eexists _, _, _. split; [done|].
    split; [constructor|]. by split; [|lia].
  - destruct (Nat.eq_dec n 0%nat) as [->|Hn].
    { unfold BufReader_Read. cbn [Nat.eqb]. destruct Hv as [(Hwf & He & Hok & HF) Hav]. rewrite He.
      eexists _, _, _. split; [done|]. split; [constructor|]. split; [|done]. by split. }
    destruct l as [|c l].
    + unfold BufReader_Read. rewrite (proj2 (Nat.eqb_neq _ _)) by lia. rewrite (limited_end _ _ _ Hb). simpl.
      eexists _, _, _. split; [done|]. split; [constructor; lia|done].
    + destruct (buf_Read true n b c l tail Hv ltac:(lia)) as (p & rest & b' & -> & El & Hp & Hv' & Hl'). rewrite El.
      eexists _, _, _. split; [done|]. split; [by constructor|]. by split; [|lia].
  - destruct (decide (n <= length l)%nat) as [Hn|Hn].
    + destruct (buf_ReadN true n b l tail Hv Hn) as (b' & -> & Hv' & Hl'). rewrite Hs in *.
      eexists _, _, _. split; [done|]. split; [by constructor|]. by split; [|lia].
    + assert (Hal : available b = Z.of_nat (length l)) by (by destruct Hv as [_ [[? _]|?]]).
      destruct (buf_ReadN_over true n b l tail Hv Hal) as (b' & -> & Hv' & Hl'); [lia|]. rewrite Hs in *.
      eexists _, _, _. split; [done|]. split; [constructor; lia|]. by split; [|lia].
  - destruct (buf_Discard true n b l tail Hv Hg) as (b' & -> & Hv' & Hl'). eexists _, _, _. split; [done|].
    split; [by constructor|]. by split; [|lia].
Qed.

(** C7: However the connection cuts the stream into pieces and however small the
    buffer is, a sequence of ReadByte, peeks (ReadByte and UnreadByte), ReadSlice,
    ReadFull, ReadFullTemp, Read, ReadN, and of Discard of at most what is left of the
    message, on a buffered reader with a limit, gives what the same sequence gives on
    the bytes of the message alone: nothing is lost, repeated or reordered at the edges
    of the buffer, no byte beyond the limit is touched, and no call panics or hangs. The
    connection has the bytes of the message to give. [ReadBytes] is not among the calls. *)
Theorem BufReader_refines (size : nat) (ops : list op) (b : BufReader C) (l tail : list Z) :
  limited_to size b l tail -> permitted size ops l ->
  exists answers l' b', run_ops ops b = (Ret answers, b') /\ stream_run size ops l answers l' /\ limited_to size b' l' tail.
Proof.
  revert b l. induction ops as [|o ops IH]; intros b l Hb Hp; [exists [], l, b; split; [done|split; [constructor|done]]|].
  destruct Hp as [Hg Hp]. destruct (run_op_refines size o b l tail Hb Hg) as (a & l1 & b1 & E & Hstep & Hb1).
  destruct (IH b1 l1 Hb1 (Hp _ _ Hstep)) as (as_ & l2 & b2 & E2 & Hrun & Hb2).
  exists (a :: as_), l2, b2. cbn [run_ops]. unfold mbind, io_mbind. rewrite E, E2. split; [done|]. split; [by econstructor|done].
Qed.

End Refinement.

(** ** A concrete connection *)

(** The bytes that are to come, given out in pieces of at most five. *)
#[export] Instance demo_source : Source (list Z) := {| conn_read s n := (take (Nat.min n 5) s, None, drop (Nat.min n 5) s) |}.
#[export] Instance demo_source_laws : SourceLaws (list Z).
Proof.
  refine {| supplies s l := s = l |}. intros s c l n -> Hn.
  exists (take (Nat.min n 5) (c :: l)), (drop (Nat.min n 5) (c :: l)), (drop (Nat.min n 5) (c :: l)).
  split_and!; [done|by rewrite take_drop| | |done]; rewrite length_take; cbn [length]; lia.
Defined.

(** A buffer of four bytes in front of it, and a message of seven bytes. *)
Definition demo_reader : BufReader (list Z) := SetAvailable 7 (NewBufReader 4 [1; 2; 3; 4; 5; 6; 7; 8; 9]).

(** [ReadBytes] skips the accepted bytes but one and returns the rest of the message,
    not the accepted bytes. *)
Example ReadBytes_ex : fst (BufReader_ReadBytes 5 (fun c => c <? 3) (SetAvailable 3 demo_reader)) = Ret ([2; 3], Some EOF).
Proof. vm_compute. reflexivity. Qed.

(** Discarding from an empty message, when the buffer is full of what comes after it,
    makes the reader fill a full buffer, which panics. *)
Example Discard_panics : fst (Discard 1 (SetAvailable 0 (snd (run_op OPeek (NewBufReader 4 [1; 2; 3; 4; 5; 6]))))) = Panic.
Proof. vm_compute. reflexivity. Qed.

Lemma BufReader_refines_witness :
  exists answers l' b', run_ops [OByte; OReadN 2; OPeek; ODiscard 1; OSlice 6; OReadN 9; OByte] demo_reader = (Ret answers, b') /\
    stream_run 4 [OByte; OReadN 2; OPeek; ODiscard 1; OSlice 6; OReadN 9; OByte] [1; 2; 3; 4; 5; 6; 7] answers l' /\ limited_to 4 b' l' [8; 9].
Proof.
  apply BufReader_refines.
  - split; [|reflexivity]. split; [|by right]. split_and!.
    + split; simpl; [lia|]. split; [lia|]. done.
    + done.
    + repeat constructor; unfold byte_ok; lia.
    + by exists [1; 2; 3; 4; 5; 6; 7; 8; 9].
  - split; [exact I|]. intros a1 l1 H1. inversion H1; subst. split; [exact I|]. intros a2 l2 H2.
    assert (l2 = [4; 5; 6; 7]) as -> by (inversion H2; subst; [reflexivity|simpl in *; lia]).
    split; [exact I|]. intros a3 l3 H3. inversion H3; subst. split; [simpl; lia|].
    intros ? ? _. repeat (split; [exact I|intros ? ? _]). exact I.
Defined.

End PgReader.
