(* ===== verification/PgAppend.v ===== *)
(** * Values of queries ([src/upg/types/append*.go], [array_append.go], [hstore_append.go], [in_op.go])

    How a Go value becomes text of an SQL query: strings, numbers, bytes,
    identifiers, JSON, the arrays and hstores of PostgreSQL and the elements of
    an [IN] list. A Go value is the type [value]: what the type switches of the
    code and [reflect] tell of it. Floating-point numbers and times are an
    interface, [GoStd], because the standard library prints them.

    The theorems read the text back with a lexer of SQL string constants: what
    is appended is one constant, whatever the bytes of the value are. *)
From stdpp Require Import base numbers list sets strings.
From S2P Require Import Prelude Utf8 Strconv.
#[local] Open Scope Z_scope.

Module PgAppend.
Import Utf8.

(** ** What the code uses of the standard library *)

(** [math.IsNaN], [math.IsInf] with the sign, [strconv.AppendFloat(b, f, 'f', -1, bits)],
    [time.Time.IsZero] and [tm.UTC().AppendFormat(b, timestamptzFormat)]. *)
Class GoStd := {
  float : Type;
  IsNaN : float -> bool;
  IsInf : float -> Z -> bool;
  FormatFloat : float -> Z -> list Z;
  time : Type;
  IsZero : time -> bool;
  FormatTime : time -> list Z
}.

(** ** Flags *)

Definition quoteFlag : Z := 1.
Definition arrayFlag : Z := 2.
Definition subArrayFlag : Z := 4.
Definition hasFlag (flags flag : Z) : bool := Z.land flags flag =? flag.
Definition shouldQuoteArray (flags : Z) : bool := hasFlag flags quoteFlag && negb (hasFlag flags subArrayFlag).

(** Characters of the syntax. *)
Abbreviation q1 := 39.  (** single quote *)
Abbreviation q2 := 34.  (** double quote *)
Abbreviation bsl := 92. (** backslash *)
Abbreviation comma := 44.
Abbreviation lbrace := 123.
Abbreviation rbrace := 125.

(** ** Scalars *)

(** [AppendNull] returns the nil slice when the value is not quoted, which the
    caller takes for NULL. *)
Definition AppendNull (b : list Z) (flags : Z) : option (list Z) :=
  if hasFlag flags quoteFlag then Some (b ++ bs "NULL") else None.

Definition AppendError (b : list Z) (msg : list Z) : list Z := (b ++ bs "?!(") ++ msg ++ bs ")".

Definition appendBool (dst : list Z) (v : bool) : list Z := dst ++ bs (if v then "TRUE" else "FALSE").

Section Floats.
Context `{GoStd}.

Definition appendFloat2 (dst : list Z) (v : float) : list Z :=
  if IsNaN v then dst ++ bs "NaN"
  else if IsInf v 1 then dst ++ bs "Infinity"
  else if IsInf v (-1) then dst ++ bs "-Infinity"
  else dst ++ FormatFloat v 64.

Definition appendFloat (dst : list Z) (v : float) (flags bitSize : Z) : list Z :=
  if hasFlag flags arrayFlag then appendFloat2 dst v
  else if IsNaN v then dst ++ bs (if hasFlag flags quoteFlag then "'NaN'" else "NaN")
  else if IsInf v 1 then dst ++ bs (if hasFlag flags quoteFlag then "'Infinity'" else "Infinity")
  else if IsInf v (-1) then dst ++ bs (if hasFlag flags quoteFlag then "'-Infinity'" else "-Infinity")
  else dst ++ FormatFloat v bitSize.

(** Only the exact flags 1 quote a time. *)
Definition AppendTime (b : list Z) (tm : time) (flags : Z) : list Z :=
  if flags =? 1 then b ++ [q1] ++ FormatTime tm ++ [q1] else b ++ FormatTime tm.
End Floats.

(** ** Strings and bytes *)

Definition appendRune (b : list Z) (r : Z) : list Z := b ++ utf8_encode r.

Definition appendString2 (b : list Z) (s : list Z) (flags : Z) : list Z :=
  foldl (fun b c =>
      if c =? 0 then b
      else if c =? q1 then b ++ (if hasFlag flags quoteFlag then [q1; q1] else [q1])
      else if c =? q2 then b ++ [bsl; q2]
      else if c =? bsl then b ++ [bsl; bsl]
      else appendRune b c)
    (b ++ [q2]) (runes s) ++ [q2].

Definition AppendString (b : list Z) (s : list Z) (flags : Z) : list Z :=
  if hasFlag flags arrayFlag then appendString2 b s flags
  else if hasFlag flags quoteFlag then
    foldl (fun b c =>
        if c =? 0 then b else if c =? q1 then b ++ [q1; q1] else appendRune b c)
      (b ++ [q1]) (runes s) ++ [q1]
  else foldl (fun b c => if c =? 0 then b else appendRune b c) b (runes s).

(** [hex.Encode] of [src/pkg/hex]. *)
Definition hex_digit (d : Z) : Z := if d <? 10 then 48 + d else 87 + d.
Definition hex_Encode (src : list Z) : list Z :=
  src ≫= fun v => [hex_digit (Z.shiftr v 4); hex_digit (Z.land v 15)].

Definition AppendBytes (b : list Z) (bytes : option (list Z)) (flags : Z) : option (list Z) :=
  match bytes with
  | None => AppendNull b flags
  | Some bytes =>
      let b := if hasFlag flags arrayFlag then b ++ [q2; bsl] else if hasFlag flags quoteFlag then b ++ [q1] else b in
      let b := (b ++ [bsl; 120]) ++ hex_Encode bytes in
      Some (if hasFlag flags arrayFlag then b ++ [q2] else if hasFlag flags quoteFlag then b ++ [q1] else b)
  end.

(** ** Identifiers *)

Fixpoint ident_loop (b src : list Z) (flags : Z) (quoted : bool) : list Z :=
  let quote := hasFlag flags quoteFlag in
  match src with
  | [] => if quoted && quote then b ++ [q2] else b
  | c :: src' =>
      if (c =? 42) && negb quoted then ident_loop (b ++ [42]) src' flags quoted
      else if c =? 46 then
        if quoted && quote then ident_loop (b ++ [q2] ++ [46]) src' flags false
        else ident_loop (b ++ [46]) src' flags quoted
      else
        let '(b, quoted) := if negb quoted && quote then (b ++ [q2], true) else (b, quoted) in
        ident_loop (b ++ (if c =? q2 then [q2; q2] else [c])) src' flags quoted
  end.
Definition appendIdent (b src : list Z) (flags : Z) : list Z := ident_loop b src flags false.
Definition AppendIdent (b field : list Z) (flags : Z) : list Z := appendIdent b field flags.

(** ** JSON *)

Fixpoint jsonb_loop (fuel : nat) (b l : list Z) (flags : Z) : list Z :=
  match fuel, l with
  | S fuel', c :: l' =>
      if c =? q2 then jsonb_loop fuel' (b ++ (if hasFlag flags arrayFlag then [bsl; q2] else [q2])) l' flags
      else if c =? q1 then jsonb_loop fuel' (b ++ (if hasFlag flags quoteFlag then [q1; q1] else [q1])) l' flags
      else if c =? 0 then jsonb_loop fuel' b l' flags
      else if c =? bsl then
        if bool_decide (bs "u0000" `prefix_of` l') then jsonb_loop fuel' (b ++ bs "\\u0000") (drop 5 l') flags
        else match l' with
             | [] => b ++ [bsl]
             | d :: l'' => jsonb_loop fuel' (b ++ [bsl] ++ [d]) l'' flags
             end
      else jsonb_loop fuel' (b ++ [c]) l' flags
  | _, _ => b
  end.

Definition AppendJSONB (b jsonb : list Z) (flags : Z) : list Z :=
  let quotes := if hasFlag flags arrayFlag then [q2] else if hasFlag flags quoteFlag then [q1] else [] in
  jsonb_loop (length jsonb) (b ++ quotes) jsonb flags ++ quotes.

(** ** Arrays of the common element types *)

(** The elements written by [app], separated by commas, and the closing brace in
    place of the last comma. *)
Definition brace_list {A} (app : list Z -> A -> list Z) (b : list Z) (l : list A) : list Z :=
  match l with
  | [] => b ++ [rbrace]
  | _ => let b := foldl (fun b x => app b x ++ [comma]) b l in take (length b - 1) b ++ [rbrace]
  end.

Definition append_slice {A} (app : list Z -> A -> list Z) (b : list Z) (l : option (list A)) (flags : Z) : option (list Z) :=
  match l with
  | None => AppendNull b flags
  | Some l =>
      let quote := if shouldQuoteArray flags then [q1] else [] in
      Some (brace_list app ((b ++ quote) ++ [lbrace]) l ++ quote)
  end.

Definition appendSliceString (b : list Z) (ss : option (list (list Z))) (flags : Z) : option (list Z) :=
  append_slice (fun b s => appendString2 b s flags) b ss flags.
Definition appendSliceInt (b : list Z) (ints : option (list Z)) (flags : Z) : option (list Z) :=
  append_slice (fun b n => b ++ Strconv.FormatInt n 10) b ints flags.
Definition appendSliceInt64 (b : list Z) (ints : option (list Z)) (flags : Z) : option (list Z) :=
  append_slice (fun b n => b ++ Strconv.FormatInt n 10) b ints flags.
Definition appendSliceFloat64 `{GoStd} (b : list Z) (floats : option (list float)) (flags : Z) : option (list Z) :=
  append_slice (fun b f => appendFloat2 b f) b floats flags.

(** ** Hstores: the entries in the order in which the map is ranged over *)

Definition appendMapStringString (b : list Z) (m : option (list (list Z * list Z))) (flags : Z) : option (list Z) :=
  match m with
  | None => AppendNull b flags
  | Some m =>
      let quote := if hasFlag flags quoteFlag then [q1] else [] in
      let b := foldl (fun b '(key, value) =>
          appendString2 (appendString2 b key flags ++ [61; 62]) value flags ++ [comma]) (b ++ quote) m in
      let b := match m with [] => b | _ => take (length b - 1) b end in
      Some (b ++ quote)
  end.

(** ** Values of any type *)

(** A panic, the nil slice, or bytes. *)
Abbreviation out := (option (option (list Z))).
Definition some (l : list Z) : out := Some (Some l).

Section Values.
Context `{GoStd}.

(** The element types of slices for which [ArrayAppender] has a function of its own. *)
Inductive elem_kind := KString | KInt | KInt64 | KFloat64 | KOther.

(** A Go value as [Append] and [reflect] see it. [Json] is a value that is
    encoded as JSON, with the text or the error of the encoder; a slice has it
    too, for when it is not an array. [Iface] is an element of type interface{}. [Valuer] is a [driver.Valuer] with the
    result of its method, [Appender] a [ValueAppender] of the client. *)
Inductive value :=
| Nil
| Bool (x : bool)
| Int (z : Z)
| Uint (z : Z)
| Float (f : float) (bits : Z)
| Str (s : list Z)
| Time (t : time)
| Bytes (l : option (list Z))
| Ptr (v : option value)
| Iface (v : value)
| Slice (k : elem_kind) (es : option (list value)) (json : list Z + list Z)
| Json (json : list Z + list Z)
| Valuer (v : value + list Z)
| Unsupported
| Safe (s : list Z)
| Ident (s : list Z)
| RawValue (s : list Z)
| NullTime (t : time)
| In (es : list value)
| InError (msg : list Z)
| Array (k : elem_kind) (es : option (list value))
| Hstore (m : option (list (list Z * list Z)))
| Appender (f : list Z -> Z -> list Z + list Z).

Definition appendJSONValue (b : list Z) (json : list Z + list Z) (flags : Z) : list Z :=
  match json with
  | inl bb => AppendJSONB b (match last bb with Some 10 => take (length bb - 1) bb | _ => bb end) flags
  | inr msg => AppendError b msg
  end.

(** Where a value is appended: by itself, as an element of [In], or as an element
    of an array, where slices mean nested lists and arrays. *)
Inductive place := Alone | InList | InArray.

(** The values of the elements, for the functions of the common element types. *)
Definition to_str (v : value) : list Z := match v with Str s => s | _ => [] end.
Definition to_int (v : value) : Z := match v with Int z => z | _ => 0 end.
Definition to_floats (es : list value) : list float := omap (fun v => match v with Float f _ => Some f | _ => None end) es.

(** The loop of [ArrayAppender]: an element that comes back as nil starts the
    text anew. *)
Definition array_loop (app : value -> list Z -> Z -> out) (flags : Z) : list Z -> list value -> option (list Z) :=
  fix loop b es :=
    match es with
    | [] => Some b
    | e :: es' => match app e b flags with Some b => loop (default [] b ++ [comma]) es' | None => None end
    end.

Definition arrayAppender (app : value -> list Z -> Z -> out) (b : list Z) (es : option (list value)) (flags : Z) : out :=
  let flags := Z.lor flags arrayFlag in
  match es with
  | None => Some (AppendNull b flags)
  | Some es =>
      let quote := if shouldQuoteArray flags then [q1] else [] in
      match array_loop app (Z.lor flags subArrayFlag) ((b ++ quote) ++ [lbrace]) es with
      | None => None
      | Some b =>
          let b := match es with [] => b ++ [rbrace] | _ => take (length b - 1) b ++ [rbrace] end in
          some (b ++ quote)
      end
  end.

Definition ArrayAppender (k : elem_kind) (app : value -> list Z -> Z -> out)
    (b : list Z) (es : option (list value)) (flags : Z) : out :=
  match k with
  | KString => Some (appendSliceString b (option_map (map to_str) es) flags)
  | KInt => Some (appendSliceInt b (option_map (map to_int) es) flags)
  | KInt64 => Some (appendSliceInt64 b (option_map (map to_int) es) flags)
  | KFloat64 => Some (appendSliceFloat64 b (option_map to_floats es) flags)
  | KOther => arrayAppender app b es flags
  end.

Definition in_loop (app : value -> list Z -> Z -> out) (flags : Z) : bool -> option (list Z) -> list value -> out :=
  fix loop first b es :=
    match es with
    | [] => Some b
    | e :: es' =>
        match app e (if first then default [] b else default [] b ++ [comma]) flags with
        | Some b => loop false b es'
        | None => None
        end
    end.

Definition in_bytes (b : list Z) (l : list Z) : list Z :=
  foldl (fun b '(i, c) => (if (i =? 0)%nat then b else b ++ [comma]) ++ Strconv.FormatUint c 10) b (imap pair l).

Fixpoint append_at (p : place) (v : value) (b : list Z) (flags : Z) {struct v} : out :=
  match v with
  | Nil =>
      match p with
      | InList => None (* reflect.Value.Type of the zero Value *)
      | _ => Some (AppendNull b flags)
      end
  | Bool x => some (appendBool b x)
  | Int z => some (b ++ Strconv.FormatInt z 10)
  | Uint z => some (b ++ Strconv.FormatUint z 10)
  | Float f bits => some (appendFloat b f flags bits)
  | Str s => some (AppendString b s flags)
  | Time t => some (AppendTime b t flags)
  | Bytes l =>
      match p with
      | InList => some (in_bytes (b ++ bs "(") (default [] l) ++ bs ")")
      | _ => Some (AppendBytes b l flags)
      end
  | Ptr None => Some (AppendNull b flags)
  | Ptr (Some v) => append_at Alone v b flags
  | Iface v => append_at (match p with InList => InList | _ => Alone end) v b flags
  | Slice k es json =>
      match p with
      | Alone => some (appendJSONValue b json flags)
      | InList =>
          match match es with
                | Some es => in_loop (append_at InList) flags true (Some (b ++ bs "(")) es
                | None => some (b ++ bs "(")
                end with
          | Some b => some (default [] b ++ bs ")")
          | None => None
          end
      | InArray => ArrayAppender k (append_at InArray) b es flags
      end
  | Json json => some (appendJSONValue b json flags)
  | Valuer (inl v) => append_at Alone v b flags
  | Valuer (inr msg) => some (AppendError b msg)
  | Unsupported => None (* the call of a nil function *)
  | Safe s => some (b ++ s)
  | Ident s => some (AppendIdent b s flags)
  | RawValue s => some (AppendString b s flags)
  | NullTime t => if IsZero t then Some (AppendNull b flags) else some (AppendTime b t flags)
  | In es => in_loop (append_at InList) flags true (Some b) es
  | InError msg => some (AppendError b msg)
  | Array k es => ArrayAppender k (append_at InArray) b es flags
  | Hstore m => Some (appendMapStringString b m flags)
  | Appender f => some (match f b flags with inl bb => bb | inr msg => AppendError b msg end)
  end.

(** [Append]: [None] is a panic, [Some None] the nil slice. *)
Definition Append (b : list Z) (v : value) (flags : Z) : out := append_at Alone v b flags.

End Values.

(** ** String constants of SQL *)

(** The characters of a string constant up to its closing quote, in which two
    quotes stand for one, and what follows it. *)
Fixpoint lex_body (l : list Z) : option (list Z * list Z) :=
  match l with
  | [] => None
  | c :: l' =>
      if c =? q1 then
        match l' with
        | d :: l'' => if d =? q1 then prod_map (cons q1) id <$> lex_body l'' else Some ([], l')
        | [] => Some ([], l')
        end
      else prod_map (cons c) id <$> lex_body l'
  end.
Definition lex_string (l : list Z) : option (list Z * list Z) :=
  match l with c :: l' => if c =? q1 then lex_body l' else None | [] => None end.

(** [txt] is one string constant with the given content, wherever it stands in a
    query, except before another quote. *)
Definition literal (txt content : list Z) : Prop :=
  forall rest, head rest <> Some q1 -> lex_string (txt ++ rest) = Some (content, rest).

(** Doubling quotes. *)
Definition dbl (l : list Z) : list Z := l ≫= fun c => if c =? q1 then [q1; q1] else [c].

Lemma dbl_app l1 l2 : dbl (l1 ++ l2) = dbl l1 ++ dbl l2.
Proof. apply bind_app. Qed.

Lemma dbl_id l : ~ q1 ∈ l -> dbl l = l.
Proof.
  induction l as [|c l IH]; intros Hl; [done|]. unfold dbl in *. cbn [mbind list_bind].
  apply not_elem_of_cons in Hl as [Hc Hl]. rewrite (proj2 (Z.eqb_neq c q1)) by done. simpl. by rewrite IH.
Qed.

Lemma lex_body_dbl l rest : head rest <> Some q1 -> lex_body (dbl l ++ q1 :: rest) = Some (l, rest).
Proof.
  intros Hr. induction l as [|c l IH].
  - simpl. destruct rest as [|d rest]; [done|]. simpl in Hr. by rewrite (proj2 (Z.eqb_neq d q1)) by congruence.
  - unfold dbl in *. cbn [mbind list_bind]. destruct (Z.eqb_spec c q1) as [->|Hc]; simpl.
    + by rewrite IH.
    + rewrite (proj2 (Z.eqb_neq c q1)) by done. by rewrite IH.
Qed.

Lemma literal_dbl l : literal ([q1] ++ dbl l ++ [q1]) l.
Proof. intros rest Hr. simpl. rewrite <- app_assoc. by apply lex_body_dbl. Qed.

(** ** Loops that append *)

Lemma foldl_append {A} (g : list Z -> A -> list Z) (f : A -> list Z) b l :
  (forall b x, g b x = b ++ f x) -> foldl g b l = b ++ (l ≫= f).
Proof.
  intros Hg. revert b. induction l as [|x l IH]; intros b; cbn [foldl]; [by rewrite app_nil_r|].
  rewrite bind_cons. by rewrite IH, Hg, <- app_assoc.
Qed.

Lemma foldl_same {A} (g h : list Z -> A -> list Z) b l : (forall b x, g b x = h b x) -> foldl g b l = foldl h b l.
Proof. intros Hg. revert b. induction l as [|x l IH]; intros b; [done|]. cbn [foldl]. by rewrite Hg, IH. Qed.

Lemma bind_ext {A} (f g : A -> list Z) l : Forall (fun x => f x = g x) l -> (l ≫= f) = l ≫= g.
Proof. induction 1 as [|x l Hx Hl IH]; [done|]. rewrite !bind_cons. by rewrite Hx, IH. Qed.

Lemma bind_dbl {A} (f : A -> list Z) l : dbl (l ≫= f) = l ≫= (dbl ∘ f).
Proof. induction l as [|x l IH]; [done|]. rewrite !bind_cons. by rewrite dbl_app, IH. Qed.

(** ** Strings *)

(** What is kept of a string: its characters, invalid bytes replaced, without NUL. *)
Definition chars (s : list Z) : list Z := filter (fun c => c <> 0) (runes s).
Definition clean (s : list Z) : list Z := text (chars s).

Lemma bind_chars (f : Z -> list Z) s : (runes s ≫= fun c => if c =? 0 then [] else f c) = chars s ≫= f.
Proof.
  unfold chars. induction (runes s) as [|c l IH]; [done|]. rewrite bind_cons, IH, filter_cons.
  destruct (Z.eqb_spec c 0) as [->|Hc]; [by rewrite decide_False by tauto|by rewrite decide_True, bind_cons].
Qed.

Lemma bind_text l : (l ≫= utf8_encode) = text l.
Proof. induction l as [|c l IH]; [done|]. by rewrite bind_cons, text_cons, IH. Qed.

Lemma encode_high cp c : scalar cp -> 128 <= cp -> c ∈ utf8_encode cp -> 128 <= c.
Proof.
  intros Hs Hcp. unfold scalar in Hs. unfold utf8_encode. rewrite (proj2 (Z.ltb_ge cp 128)) by lia.
  assert (0 <= cp) by lia.
  repeat case_match; rewrite !elem_of_cons, elem_of_nil; intros Hc;
    repeat destruct Hc as [->|Hc]; try done; Z.to_euclidean_division_equations; lia.
Qed.

(** An ASCII character occurs in the encoding of a character only as itself. *)
Lemma encode_ascii_only cp c : rune_ok cp -> c < 128 -> c ∈ utf8_encode cp -> c = cp.
Proof.
  intros Hs Hc Hin. destruct (decide (cp < 128)) as [Hl|Hl].
  - rewrite utf8_encode_ascii in Hin by done. by apply list_elem_of_singleton in Hin.
  - destruct Hs as [?|Hs]; [lia|]. pose proof (encode_high cp c Hs ltac:(lia) Hin). lia.
Qed.

Lemma chars_ok s : Forall (fun c => rune_ok c /\ c <> 0) (chars s).
Proof.
  rewrite Forall_forall. intros c Hc. apply list_elem_of_filter in Hc as [? Hc]. split; [|done].
  pose proof (runes_ok s) as Hr. rewrite Forall_forall in Hr. by apply Hr.
Qed.

Lemma dbl_encode cp : rune_ok cp -> cp <> q1 -> dbl (utf8_encode cp) = utf8_encode cp.
Proof.
  intros Hs Hc. apply dbl_id. intros Hin. apply (encode_ascii_only cp) in Hin; [done|done|lia].
Qed.

Lemma AppendString_quoted b s : AppendString b s quoteFlag = b ++ [q1] ++ dbl (clean s) ++ [q1].
Proof.
  unfold AppendString. change (hasFlag quoteFlag arrayFlag) with false. change (hasFlag quoteFlag quoteFlag) with true.
  cbn iota. rewrite (foldl_append _ (fun c => if c =? 0 then [] else if c =? q1 then [q1; q1] else utf8_encode c)).
  2: { intros b' c. unfold appendRune. repeat case_match; by rewrite ?app_nil_r. }
  rewrite bind_chars. unfold clean. rewrite <- bind_text, bind_dbl.
  rewrite (bind_ext _ (dbl ∘ utf8_encode)); [by rewrite <- !app_assoc|].
  eapply Forall_impl; [apply chars_ok|]. intros c [Hc _]. simpl.
  destruct (Z.eqb_spec c q1) as [->|Hne]; [done|]. by rewrite dbl_encode.
Qed.

(** ** Elements of arrays and hstores *)

Definition esc_char (c : Z) : list Z := if c =? q2 then [bsl; q2] else if c =? bsl then [bsl; bsl] else utf8_encode c.
Definition quoted_text (s : list Z) : list Z := [q2] ++ (chars s ≫= esc_char) ++ [q2].

Lemma dbl_quoted_text s : dbl (quoted_text s) = [q2] ++ (chars s ≫= dbl ∘ esc_char) ++ [q2].
Proof. unfold quoted_text. rewrite !dbl_app, bind_dbl. done. Qed.

Lemma appendString2_eq b s flags :
  appendString2 b s flags = b ++ (if hasFlag flags quoteFlag then dbl (quoted_text s) else quoted_text s).
Proof.
  unfold appendString2.
  rewrite (foldl_append _ (fun c => if c =? 0 then [] else
    if c =? q1 then (if hasFlag flags quoteFlag then [q1; q1] else [q1]) else esc_char c)).
  2: { intros b' c. unfold appendRune, esc_char. repeat case_match; try lia; by rewrite ?app_nil_r. }
  rewrite bind_chars. rewrite dbl_quoted_text. unfold quoted_text.
  rewrite (bind_ext _ (if hasFlag flags quoteFlag then dbl ∘ esc_char else esc_char)).
  - destruct (hasFlag flags quoteFlag); by rewrite <- !app_assoc.
  - eapply Forall_impl; [apply chars_ok|]. intros c [Hc _]. simpl.
    destruct (Z.eqb_spec c q1) as [->|Hne]; [by destruct (hasFlag flags quoteFlag)|].
    destruct (hasFlag flags quoteFlag); [|done]. simpl. unfold esc_char.
    destruct (Z.eqb_spec c q2); [done|]. destruct (Z.eqb_spec c bsl); [done|]. by rewrite dbl_encode.
Qed.

(** Texts separated by commas, and between braces. *)
Fixpoint commas (ts : list (list Z)) : list Z :=
  match ts with
  | [] => []
  | [t] => t
  | t :: ts' => t ++ comma :: commas ts'
  end.
Definition array_text (ts : list (list Z)) : list Z := [lbrace] ++ commas ts ++ [rbrace].

Lemma dbl_commas ts : dbl (commas ts) = commas (dbl <$> ts).
Proof.
  induction ts as [|t [|u ts] IH]; [done|done|].
  change (dbl (t ++ [comma] ++ commas (u :: ts)) = dbl t ++ [comma] ++ commas (dbl <$> u :: ts)).
  by rewrite !dbl_app, IH.
Qed.
Lemma dbl_array_text ts : dbl (array_text ts) = array_text (dbl <$> ts).
Proof. unfold array_text. by rewrite !dbl_app, dbl_commas. Qed.

(** The loop with a comma after every element, without the last comma. *)
Lemma commas_loop {A} (f : A -> list Z) b x l :
  foldl (fun b x => (b ++ f x) ++ [comma]) b (x :: l) = b ++ commas (f <$> x :: l) ++ [comma].
Proof.
  revert b x. induction l as [|y l IH]; intros b x; [simpl; by rewrite <- app_assoc|].
  change (foldl (fun b x => (b ++ f x) ++ [comma]) ((b ++ f x) ++ [comma]) (y :: l) = b ++ commas (f <$> x :: y :: l) ++ [comma]). rewrite IH.
  change (commas (f <$> x :: y :: l)) with (f x ++ [comma] ++ commas (f <$> y :: l)). by rewrite <- !app_assoc.
Qed.

Lemma drop_last_app (b : list Z) c : take (length (b ++ [c]) - 1) (b ++ [c]) = b.
Proof. rewrite length_app. simpl. rewrite Nat.add_sub. apply take_app_length. Qed.

Lemma brace_list_eq {A} (app : list Z -> A -> list Z) (f : A -> list Z) b l :
  (forall b x, app b x = b ++ f x) -> brace_list app b l = b ++ commas (f <$> l) ++ [rbrace].
Proof.
  intros Happ. destruct l as [|x l]; [done|]. unfold brace_list.
  rewrite (foldl_same _ (fun b x => (b ++ f x) ++ [comma])) by (intros; by rewrite Happ).
  rewrite commas_loop, app_assoc, drop_last_app. by rewrite <- app_assoc.
Qed.

Lemma append_slice_eq {A} (app : list Z -> A -> list Z) (f : A -> list Z) b l flags :
  (forall b x, app b x = b ++ f x) ->
  let q := if shouldQuoteArray flags then [q1] else [] in
  append_slice app b (Some l) flags = Some (b ++ q ++ array_text (f <$> l) ++ q).
Proof.
  intros Happ q. unfold append_slice. rewrite (brace_list_eq _ f) by done. unfold array_text. fold q.
  f_equal. by rewrite <- !app_assoc.
Qed.

(** ** Arrays of any values *)

Section Arrays.
Context `{GoStd}.

(** The text of a value as an element of an array, in the syntax of PostgreSQL. *)
Definition float_text (f : float) : list Z := appendFloat2 [] f.

Definition kind_ok (k : elem_kind) (es : list value) : bool :=
  match k with
  | KString => forallb (fun v => match v with Str _ => true | _ => false end) es
  | KInt | KInt64 => forallb (fun v => match v with Int _ => true | _ => false end) es
  | KFloat64 => forallb (fun v => match v with Float _ bits => bits =? 64 | _ => false end) es
  | KOther => true
  end.

Fixpoint elem_text (v : value) : option (list Z) :=
  match v with
  | Ptr None => Some (bs "NULL")
  | Bool x => Some (bs (if x then "TRUE" else "FALSE"))
  | Int z => Some (Strconv.FormatInt z 10)
  | Uint z => Some (Strconv.FormatUint z 10)
  | Float f _ => Some (float_text f)
  | Str s => Some (quoted_text s)
  | Bytes (Some l) => Some ([q2; bsl; bsl; 120] ++ hex_Encode l ++ [q2])
  | Slice k (Some es) _ => if kind_ok k es then array_text <$> mapM elem_text es else None
  | _ => None
  end.

(** The flags of the elements keep the quoting of the whole. *)
Lemma hasFlag_quote flags : hasFlag (Z.lor (Z.lor flags arrayFlag) subArrayFlag) quoteFlag = hasFlag flags quoteFlag.
Proof. unfold hasFlag. rewrite !Z.land_lor_distr_l. by rewrite !Z.lor_0_r. Qed.
Lemma hasFlag_array flags : hasFlag (Z.lor (Z.lor flags arrayFlag) subArrayFlag) arrayFlag = true.
Proof.
  unfold hasFlag. rewrite !Z.land_lor_distr_l. change (Z.land arrayFlag arrayFlag) with 2.
  change (Z.land subArrayFlag arrayFlag) with 0. rewrite Z.lor_0_r. apply Z.eqb_eq.
  apply Z.bits_inj'. intros n Hn. rewrite Z.lor_spec, Z.land_spec. change arrayFlag with 2.
  by destruct (Z.testbit flags n), (Z.testbit 2 n).
Qed.
Lemma AppendNull_array b flags : AppendNull b (Z.lor flags arrayFlag) = AppendNull b flags.
Proof. unfold AppendNull, hasFlag. rewrite Z.land_lor_distr_l. by rewrite Z.lor_0_r. Qed.
Lemma shouldQuoteArray_array flags : shouldQuoteArray (Z.lor flags arrayFlag) = shouldQuoteArray flags.
Proof. unfold shouldQuoteArray, hasFlag. rewrite !Z.land_lor_distr_l. by rewrite !Z.lor_0_r. Qed.

Lemma appendFloat2_eq b f : appendFloat2 b f = b ++ float_text f.
Proof. unfold float_text, appendFloat2. repeat case_match; done. Qed.

(** The loop over elements that are appended. *)
Lemma array_loop_eq (app : value -> list Z -> Z -> out) (f : value -> list Z) flags b es :
  Forall (fun v => forall b, app v b flags = some (b ++ f v)) es ->
  array_loop app flags b es = Some (foldl (fun b x => (b ++ f x) ++ [comma]) b es).
Proof.
  intros Hes. revert b. induction Hes as [|v es Hv _ IH]; intros b; [done|]. cbn. rewrite Hv. apply IH.
Qed.

Lemma arrayAppender_eq (app : value -> list Z -> Z -> out) (f : value -> list Z) b es flags :
  Forall (fun v => forall b, app v b (Z.lor (Z.lor flags arrayFlag) subArrayFlag) = some (b ++ f v)) es ->
  let q := if shouldQuoteArray flags then [q1] else [] in
  arrayAppender app b (Some es) flags = some (b ++ q ++ array_text (f <$> es) ++ q).
Proof.
  intros Hes q. unfold arrayAppender. rewrite shouldQuoteArray_array. fold q. rewrite (array_loop_eq _ f) by done.
  unfold array_text. destruct es as [|x es]; [simpl; by rewrite <- !app_assoc|].
  rewrite commas_loop, app_assoc, drop_last_app. by rewrite <- !app_assoc.
Qed.

(** The functions of the common element types do what the general one does. *)
Lemma fast_array k es b flags : kind_ok k es = true ->
  ArrayAppender k (append_at InArray) b (Some es) flags = arrayAppender (append_at InArray) b (Some es) flags.
Proof.
  intros Hk. pose proof (hasFlag_array flags) as Ha. pose proof (hasFlag_quote flags) as Hq.
  set (fl := Z.lor (Z.lor flags arrayFlag) subArrayFlag) in *.
  destruct k; cbn [ArrayAppender kind_ok option_map] in *; try done.
  - rewrite forallb_forall in Hk. unfold appendSliceString.
    set (f := fun s => if hasFlag flags quoteFlag then dbl (quoted_text s) else quoted_text s).
    rewrite (append_slice_eq _ f) by (intros; apply appendString2_eq).
    rewrite (arrayAppender_eq _ (f ∘ to_str)).
    + by rewrite list_fmap_compose.
    + apply Forall_forall. intros v Hv b'. apply list_elem_of_In, Hk in Hv. destruct v; try done. simpl.
      fold fl. unfold AppendString. rewrite Ha, appendString2_eq, Hq. done.
  - rewrite forallb_forall in Hk. unfold appendSliceInt.
    rewrite (append_slice_eq _ (fun z => Strconv.FormatInt z 10)) by done.
    rewrite (arrayAppender_eq _ ((fun z => Strconv.FormatInt z 10) ∘ to_int)).
    + by rewrite list_fmap_compose.
    + apply Forall_forall. intros v Hv b'. apply list_elem_of_In, Hk in Hv. by destruct v.
  - rewrite forallb_forall in Hk. unfold appendSliceInt64.
    rewrite (append_slice_eq _ (fun z => Strconv.FormatInt z 10)) by done.
    rewrite (arrayAppender_eq _ ((fun z => Strconv.FormatInt z 10) ∘ to_int)).
    + by rewrite list_fmap_compose.
    + apply Forall_forall. intros v Hv b'. apply list_elem_of_In, Hk in Hv. by destruct v.
  - unfold appendSliceFloat64. rewrite (append_slice_eq _ float_text) by (intros; apply appendFloat2_eq).
    set (g := fun v => match v with Float f _ => float_text f | _ => [] end).
    rewrite (arrayAppender_eq _ g).
    + assert (E : float_text <$> to_floats es = g <$> es); [|by rewrite E].
      clear -Hk. induction es as [|v es IH]; [done|]. simpl in Hk.
      destruct v; try done. apply andb_prop in Hk as [_ Hk]. cbn. f_equal. by apply IH.
    + rewrite forallb_forall in Hk. apply Forall_forall. intros v Hv b'. apply list_elem_of_In, Hk in Hv.
      destruct v; try done. simpl. unfold appendFloat. fold fl. by rewrite Ha, appendFloat2_eq.
Qed.

(** Numbers are written without quotes. *)
Class GoStdLaws := { float_plain (f : float) (bits : Z) : ~ q1 ∈ FormatFloat f bits }.
Context `{GoStdLaws}.

Lemma FormatUint_plain z : 0 <= z -> ~ q1 ∈ Strconv.FormatUint z 10.
Proof.
  intros Hz Hin. pose proof (Strconv.FormatUint_digits z Hz) as Hd. rewrite Forall_forall in Hd.
  specialize (Hd _ Hin). simpl in Hd. lia.
Qed.
Lemma FormatInt_plain z : ~ q1 ∈ Strconv.FormatInt z 10.
Proof.
  unfold Strconv.FormatInt. destruct (Z.ltb_spec z 0); [|by apply FormatUint_plain].
  rewrite elem_of_cons. intros [?|Hin]; [done|]. by apply FormatUint_plain in Hin; [|lia].
Qed.
Lemma hex_digit_plain d : 0 <= d -> hex_digit d <> q1.
Proof. unfold hex_digit. case_match; lia. Qed.

Lemma float_text_plain f : ~ q1 ∈ float_text f.
Proof.
  unfold float_text, appendFloat2. repeat case_match; simpl; try apply float_plain;
    apply (bool_decide_unpack _); vm_compute; done.
Qed.

Lemma hex_plain l : Forall (fun c => 0 <= c) l -> ~ q1 ∈ hex_Encode l.
Proof.
  induction 1 as [|c l Hc _ IH]; [apply not_elem_of_nil|]. unfold hex_Encode in *. rewrite bind_cons.
  rewrite elem_of_app, !elem_of_cons, elem_of_nil. intros [[E|[E|[]]]|Hin]; [..|done];
    symmetry in E; apply hex_digit_plain in E; try done.
  - by apply Z.shiftr_nonneg.
  - apply Z.land_nonneg. by left.
Qed.

Fixpoint nonneg (v : value) : Prop :=
  match v with
  | Uint z => 0 <= z
  | Bytes (Some l) => Forall (fun c => 0 <= c) l
  | Slice _ (Some es) _ => (fix all es := match es with [] => True | e :: es' => nonneg e /\ all es' end) es
  | _ => True
  end.

(** An element of a quoted array is its text with the quotes doubled. *)
Definition appended (v : value) : Prop :=
  forall b txt, elem_text v = Some txt -> append_at InArray v b 7 = some (b ++ dbl txt).

Lemma elems_appended k es ts b flags :
  Forall appended es -> kind_ok k es = true -> mapM elem_text es = Some ts ->
  Z.lor (Z.lor flags arrayFlag) subArrayFlag = 7 ->
  let q := if shouldQuoteArray flags then [q1] else [] in
  ArrayAppender k (append_at InArray) b (Some es) flags = some (b ++ q ++ dbl (array_text ts) ++ q).
Proof.
  intros Hes Hk Hts Hfl q. rewrite fast_array by done. apply mapM_Some in Hts.
  rewrite (arrayAppender_eq _ (fun v => dbl (default [] (elem_text v)))).
  - rewrite dbl_array_text. assert (E : (fun v => dbl (default [] (elem_text v))) <$> es = dbl <$> ts); [|by rewrite E].
    clear -Hts. induction Hts as [|v t es ts Hv _ IH]; [done|]. cbn. rewrite Hv, IH. done.
  - rewrite Hfl. clear -Hes Hts. induction Hts as [|v t es ts Hv _ IH]; [constructor|].
    apply Forall_cons in Hes as [He Hes]. constructor; [|by apply IH]. intros b'. rewrite Hv. by apply He.
Qed.

Lemma elem_appended v : nonneg v -> appended v.
Proof.
  revert v. fix IH 1. intros v Hn b txt Hv. destruct v; simpl in Hv; try done.
  - injection Hv as <-. simpl. unfold appendBool. by destruct x.
  - injection Hv as <-. simpl. by rewrite dbl_id by apply FormatInt_plain.
  - injection Hv as <-. simpl. by rewrite dbl_id by (by apply FormatUint_plain).
  - injection Hv as <-. simpl. rewrite dbl_id by apply float_text_plain. unfold appendFloat.
    change (hasFlag 7 arrayFlag) with true. cbn iota. by rewrite appendFloat2_eq.
  - injection Hv as <-. simpl. unfold AppendString. change (hasFlag 7 arrayFlag) with true. cbn iota. by rewrite appendString2_eq.
  - destruct l as [l|]; [|done]. injection Hv as <-. simpl in Hn |- *. unfold AppendBytes.
    change (hasFlag 7 arrayFlag) with true. cbn iota. unfold some. do 2 f_equal.
    rewrite dbl_id; [by rewrite <- !app_assoc|]. rewrite !elem_of_app, !elem_of_cons, elem_of_nil.
    pose proof (hex_plain l Hn). naive_solver lia.
  - destruct v; [done|]. by injection Hv as <-.
  - destruct es as [es|]; [|done]. destruct (kind_ok k es) eqn:Hk; [|done].
    destruct (mapM elem_text es) as [ts|] eqn:Hts; [|done]. injection Hv as <-.
    cbn [append_at]. rewrite (elems_appended k es ts); [by rewrite app_nil_r| |done..].
    cbn [nonneg] in Hn. clear Hk Hts. induction es as [|v es IHes]; constructor; [apply IH|apply IHes]; apply Hn.
Qed.

Lemma array_quoted k es txt b : Forall nonneg es -> elem_text (Slice k (Some es) (inr [])) = Some txt ->
  Append b (Array k (Some es)) quoteFlag = some (b ++ [q1] ++ dbl txt ++ [q1]).
Proof.
  intros Hn Hv. simpl in Hv. destruct (kind_ok k es) eqn:Hk; [|done].
  destruct (mapM elem_text es) as [ts|] eqn:Hts; [|done]. injection Hv as <-.
  unfold Append. cbn [append_at]. rewrite (elems_appended k es ts); [done| |done..].
  eapply Forall_impl; [exact Hn|]. intros v. apply elem_appended.
Qed.

End Arrays.

(** ** Hstores *)

Definition entry_text (kv : list Z * list Z) : list Z := quoted_text kv.1 ++ [61; 62] ++ quoted_text kv.2.
Definition hstore_text (m : list (list Z * list Z)) : list Z := commas (entry_text <$> m).

Lemma hstore_eq b m flags :
  appendMapStringString b (Some m) flags =
  Some (if hasFlag flags quoteFlag then b ++ [q1] ++ dbl (hstore_text m) ++ [q1] else b ++ hstore_text m).
Proof.
  unfold appendMapStringString, hstore_text.
  set (f := fun kv => if hasFlag flags quoteFlag then dbl (entry_text kv) else entry_text kv).
  rewrite (foldl_same _ (fun b x => (b ++ f x) ++ [comma])).
  2: { intros b' [k v]. rewrite !appendString2_eq. unfold f, entry_text. cbn [fst snd].
       destruct (hasFlag flags quoteFlag); rewrite ?dbl_app; by rewrite <- !app_assoc. }
  assert (E : commas (f <$> m) = if hasFlag flags quoteFlag then dbl (commas (entry_text <$> m)) else commas (entry_text <$> m)).
  { unfold f. destruct (hasFlag flags quoteFlag); [|done]. rewrite dbl_commas. by rewrite <- list_fmap_compose. }
  destruct m as [|x m]; [simpl; destruct (hasFlag flags quoteFlag); simpl; rewrite ?app_nil_r, <- ?app_assoc; done|].
  rewrite commas_loop, E, app_assoc, drop_last_app.
  destruct (hasFlag flags quoteFlag); [|by rewrite !app_nil_r]. by rewrite <- !app_assoc.
Qed.

(** ** Every value is one constant *)

Section Literals.
Context `{GoStd} `{!GoStdLaws}.

(** The content of the constant that stands for a value. *)
Definition content (v : value) : option (list Z) :=
  match v with
  | Str s | RawValue s => Some (clean s)
  | Bytes (Some l) => Some ([bsl; 120] ++ hex_Encode l)
  | Array k (Some es) => elem_text (Slice k (Some es) (inr []))
  | Hstore (Some m) => Some (hstore_text m)
  | _ => None
  end.

Definition value_ok (v : value) : Prop :=
  match v with
  | Bytes (Some l) => Forall (fun c => 0 <= c) l
  | Array _ (Some es) => Forall nonneg es
  | _ => True
  end.

(** The constant with a given content. *)
Definition quoted (c : list Z) : list Z := [q1] ++ dbl c ++ [q1].

Lemma Append_quoted (b : list Z) (v : value) (c : list Z) :
  content v = Some c -> value_ok v -> Append b v quoteFlag = Some (Some (b ++ quoted c)).
Proof.
  intros Hc Hv. unfold quoted. destruct v; simpl in Hc; try done.
  - injection Hc as <-. unfold Append. simpl. by rewrite AppendString_quoted.
  - destruct l as [l|]; [|done]. injection Hc as <-.
    rewrite dbl_id; [unfold Append; simpl; by rewrite <- !app_assoc|].
    rewrite !elem_of_cons. pose proof (hex_plain l Hv). naive_solver lia.
  - injection Hc as <-. unfold Append. simpl. by rewrite AppendString_quoted.
  - destruct es as [es|]; [|done]. by apply array_quoted.
  - destruct m as [m|]; [|done]. injection Hc as <-. unfold Append. cbn [append_at]. by rewrite hstore_eq.
Qed.

(** C16: A string, a byte string, an array of such values (nested, of any
    element type, with NULLs) and an hstore are appended to a query as exactly
    one string constant of SQL, from whose content the value is read; no byte of
    a value can end the constant. Strings lose NUL bytes, and invalid UTF-8
    becomes U+FFFD. *)
Theorem Append_literal (b : list Z) (v : value) (c : list Z) :
  content v = Some c -> value_ok v ->
  exists txt, Append b v quoteFlag = Some (Some (b ++ txt)) /\ literal txt c.
Proof. intros Hc Hv. exists (quoted c). split; [by apply Append_quoted|apply literal_dbl]. Qed.

(** The functions for slices of strings, integers and floats append the same
    text as the general function does for the same elements, nil and empty slices
    included, with any flags. *)
Theorem ArrayAppender_fast (k : elem_kind) (es : option (list value)) (b : list Z) (flags : Z) :
  from_option (kind_ok k) true es = true ->
  ArrayAppender k (append_at InArray) b es flags = arrayAppender (append_at InArray) b es flags.
Proof.
  destruct es as [es|]; simpl; [apply fast_array|]. intros _. unfold ArrayAppender, arrayAppender.
  destruct k; simpl; by rewrite ?AppendNull_array.
Qed.

End Literals.

(** ** Identifiers *)

(** The tokens of a qualified name: stars, dots and quoted identifiers, in which
    two double quotes stand for one. *)
Inductive token := Star | Dot | Name (n : list Z).
Definition raw (t : token) : list Z := match t with Star => [42] | Dot => [46] | Name n => n end.

Fixpoint lex_idents (inside : option (list Z)) (l : list Z) : option (list token) :=
  match inside, l with
  | None, [] => Some []
  | None, c :: l' =>
      if c =? 42 then cons Star <$> lex_idents None l'
      else if c =? 46 then cons Dot <$> lex_idents None l'
      else if c =? q2 then lex_idents (Some []) l'
      else None
  | Some n, [] => None
  | Some n, c :: l' =>
      if c =? q2 then
        match l' with
        | d :: l'' => if d =? q2 then lex_idents (Some (n ++ [q2])) l'' else cons (Name n) <$> lex_idents None l'
        | [] => Some [Name n]
        end
      else lex_idents (Some (n ++ [c])) l'
  end.

(** The same loop with the text it appends. *)
Lemma ident_loop_eq b src flags quoted : ident_loop b src flags quoted = b ++ ident_loop [] src flags quoted.
Proof.
  revert b quoted. induction src as [|c src IH]; intros b quoted; unfold ident_loop; fold ident_loop.
  { destruct (_ && _); by rewrite ?app_nil_r. }
  destruct ((c =? 42) && negb quoted); [rewrite (IH (b ++ _)), (IH ([] ++ _)); by rewrite <- app_assoc|].
  destruct (c =? 46).
  { destruct (quoted && _); rewrite (IH (b ++ _)), (IH ([] ++ _)); by rewrite <- app_assoc. }
  destruct (negb quoted && _).
  - rewrite (IH ((b ++ _) ++ _)), (IH (([] ++ _) ++ _)). by rewrite <- !app_assoc.
  - rewrite (IH (b ++ _)), (IH ([] ++ _)). by rewrite <- !app_assoc.
Qed.

Definition named (n : list Z) : Prop := n <> [] /\ ~ 46 ∈ n.

Lemma ident_tokens src :
  (exists ts, lex_idents None (ident_loop [] src quoteFlag false) = Some ts /\ concat (raw <$> ts) = src /\
     forall n, Name n ∈ ts -> named n) /\
  (forall n, named n -> exists ts n', lex_idents (Some n) (ident_loop [] src quoteFlag true) = Some (Name n' :: ts) /\
     concat (raw <$> Name n' :: ts) = n ++ src /\ forall m, Name m ∈ Name n' :: ts -> named m).
Proof.
  induction src as [|c src [IH1 IH2]].
  - split; [exists []; set_solver|]. intros n Hn. exists [], n. simpl. rewrite app_nil_r. set_solver.
  - cbn [ident_loop]. change (hasFlag quoteFlag quoteFlag) with true. cbn [negb andb]. rewrite !andb_true_r, !andb_false_r. split.
    + destruct (Z.eqb_spec c 42) as [->|H42].
      { rewrite ident_loop_eq. simpl. destruct IH1 as (ts & -> & <- & Hts). exists (Star :: ts). simpl. set_solver. }
      destruct (Z.eqb_spec c 46) as [->|H46].
      { rewrite ident_loop_eq. simpl. destruct IH1 as (ts & -> & <- & Hts). exists (Dot :: ts). simpl. set_solver. }
      rewrite ident_loop_eq.
      assert (Hn : named [c]) by (split; [done|set_solver]). destruct (IH2 [c] Hn) as (ts & n' & E & Ec & Hts).
      exists (Name n' :: ts). split; [|done]. destruct (Z.eqb_spec c q2) as [->|Hq].
      * simpl. exact E.
      * simpl. rewrite (proj2 (Z.eqb_neq c q2)) by done. exact E.
    + intros n Hn. destruct (Z.eqb_spec c 46) as [->|H46].
      { rewrite ident_loop_eq. simpl. destruct IH1 as (ts & -> & <- & Hts). exists (Dot :: ts), n. simpl. set_solver. }
      rewrite ident_loop_eq.
      assert (Hn' : named (n ++ [c])) by (split; [by destruct n|destruct Hn; set_solver]).
      destruct (IH2 (n ++ [c]) Hn') as (ts & n' & E & Ec & Hts). exists ts, n'. rewrite <- app_assoc in Ec.
      split; [|done]. destruct (Z.eqb_spec c q2) as [->|Hq].
      * simpl. exact E.
      * simpl. rewrite (proj2 (Z.eqb_neq c q2)) by done. exact E.
Qed.

(** An identifier is appended as stars, dots and quoted names only, whatever
    its bytes are: the names between the dots, read back, are those of the
    source. *)
Theorem AppendIdent_tokens (b field : list Z) :
  exists txt ts, AppendIdent b field quoteFlag = b ++ txt /\ lex_idents None txt = Some ts /\
    concat (raw <$> ts) = field /\ forall n, Name n ∈ ts -> n <> [] /\ ~ 46 ∈ n.
Proof.
  destruct (ident_tokens field) as [(ts & Hl & Hr & Hn) _].
  exists (ident_loop [] field quoteFlag false), ts. split; [apply ident_loop_eq|]. done.
Qed.

(** ** What is there stays there *)

(** Values, and what they hold, without code of the client, or whose code appends. *)
Section Keeps.
Context `{GoStd}.

Fixpoint appending (v : value) : Prop :=
  match v with
  | Appender f => forall b flags bb, f b flags = inl bb -> b `prefix_of` bb
  | Ptr (Some v) | Iface v | Valuer (inl v) => appending v
  | Slice _ (Some es) _ | Array _ (Some es) | In es => foldr (fun e P => appending e /\ P) True es
  | _ => True
  end.

Lemma foldl_prefix {A} (g : list Z -> A -> list Z) b l : (forall b x, b `prefix_of` g b x) -> b `prefix_of` foldl g b l.
Proof. intros Hg. revert b. induction l as [|x l IH]; intros b; [done|]. simpl. etrans; [apply Hg|apply IH]. Qed.
Lemma prefix_take (b l : list Z) n : b `prefix_of` l -> (length b <= n)%nat -> b `prefix_of` take n l.
Proof. intros [k ->] Hn. rewrite take_app, take_ge by done. by apply prefix_app_r. Qed.
Lemma prefix_more (b l k : list Z) : b `prefix_of` l -> b `prefix_of` l ++ k.
Proof. apply prefix_app_r. Qed.
Lemma prefix_less (b l k : list Z) : b ++ k `prefix_of` l -> b `prefix_of` l.
Proof. intros Hp. etrans; [|exact Hp]. by apply prefix_app_r. Qed.
Create HintDb pga.
#[local] Hint Resolve prefix_more : pga.

Lemma AppendString_prefix b s flags : b `prefix_of` AppendString b s flags /\ b `prefix_of` appendString2 b s flags.
Proof.
  assert (H2 : b `prefix_of` appendString2 b s flags).
  { unfold appendString2. apply prefix_more. eapply prefix_less, foldl_prefix. intros b' c. unfold appendRune. repeat case_match; auto with pga. }
  split; [|done]. unfold AppendString. destruct (hasFlag flags arrayFlag); [done|].
  destruct (hasFlag flags quoteFlag); [apply prefix_more; eapply prefix_less|]; apply foldl_prefix; intros b' c; unfold appendRune; repeat case_match; auto with pga.
Qed.
Lemma jsonb_prefix n l flags : forall b, b `prefix_of` jsonb_loop n b l flags.
Proof.
  revert l. induction n as [|n IH]; intros l b; [by destruct l|]. destruct l as [|c l]; [done|]. cbn [jsonb_loop].
  repeat case_match; auto with pga; eapply prefix_less; by apply IH || (rewrite app_assoc; apply IH).
Qed.
Lemma appendJSONValue_prefix b json flags : b `prefix_of` appendJSONValue b json flags.
Proof.
  destruct json; simpl; [|unfold AppendError; rewrite <- app_assoc; by apply prefix_app_r].
  unfold AppendJSONB. apply prefix_more. eapply prefix_less, jsonb_prefix.
Qed.

Lemma brace_list_prefix {A} (app : list Z -> A -> list Z) b l : (forall b x, b `prefix_of` app b x) -> b `prefix_of` brace_list app b l.
Proof.
  intros Ha. unfold brace_list. destruct l as [|x l]; [by apply prefix_app_r|]. apply prefix_more. cbn [foldl].
  assert (Hp : app b x ++ [comma] `prefix_of` foldl (fun b x => app b x ++ [comma]) (app b x ++ [comma]) l)
    by (apply foldl_prefix; intros; by apply prefix_more).
  apply prefix_take; [etrans; [|exact Hp]; by apply prefix_more|]. apply prefix_length in Hp. rewrite length_app in Hp. simpl in Hp.
  specialize (Ha b x). apply prefix_length in Ha. lia.
Qed.
Lemma append_slice_prefix {A} (app : list Z -> A -> list Z) b l flags : hasFlag flags quoteFlag = true ->
  (forall b x, b `prefix_of` app b x) -> exists r, append_slice app b l flags = Some r /\ b `prefix_of` r.
Proof.
  intros Hq Ha. unfold append_slice, AppendNull. rewrite Hq. destruct l as [l|]; (eexists; split; [done|]); [|by apply prefix_app_r].
  apply prefix_more. eapply prefix_less. rewrite app_assoc. by apply brace_list_prefix.
Qed.
Lemma hstore_prefix b m flags : hasFlag flags quoteFlag = true -> exists r, appendMapStringString b m flags = Some r /\ b `prefix_of` r.
Proof.
  intros Hq. unfold appendMapStringString, AppendNull. rewrite Hq. destruct m as [m|]; (eexists; split; [done|]); [|by apply prefix_app_r].
  apply prefix_more. set (g := fun b '(key, value) => _).
  assert (Hg : forall b x, b `prefix_of` g b x /\ (length b < length (g b x))%nat).
  { intros b' [k v]. unfold g. pose proof (proj2 (AppendString_prefix b' k flags)) as H1.
    pose proof (proj2 (AppendString_prefix (appendString2 b' k flags ++ [61; 62]) v flags)) as H2.
    split; [apply prefix_more; etrans; [|exact H2]; by apply prefix_more|]. apply prefix_length in H1, H2. rewrite length_app in H2 |- *. simpl in *. lia. }
  destruct m as [|x m]; [by apply prefix_app_r|]. cbn [foldl].
  assert (Hp : g (b ++ [q1]) x `prefix_of` foldl g (g (b ++ [q1]) x) m) by (apply foldl_prefix, Hg).
  destruct (Hg (b ++ [q1]) x) as [H1 H2]. apply prefix_take; [eapply prefix_less; etrans; [apply Hg|exact Hp]|].
  apply prefix_length in Hp. rewrite length_app in H2. simpl in H2. lia.
Qed.

(** What [append_at] does with its elements. *)
Definition app_prefix (app : value -> list Z -> Z -> out) (flags : Z) (v : value) : Prop :=
  forall b r, app v b flags = Some r -> exists r', r = Some r' /\ b `prefix_of` r'.

Lemma array_loop_prefix app flags es : Forall (app_prefix app flags) es ->
  forall b r, array_loop app flags b es = Some r -> b `prefix_of` r /\ (es <> [] -> length b < length r)%nat.
Proof.
  induction 1 as [|e es He _ IH]; intros b r; simpl; [by intros [= <-]|].
  destruct (app e b flags) as [o|] eqn:E; [|done]. destruct (He _ _ E) as (r' & -> & Hp). simpl. intros [Hr _]%IH.
  split; [etrans; [|exact Hr]; by apply prefix_more|]. intros _. apply prefix_length in Hr, Hp. rewrite length_app in Hr. simpl in Hr. lia.
Qed.
Lemma in_loop_prefix app flags es : Forall (app_prefix app flags) es ->
  forall first b r, in_loop app flags first (Some b) es = Some r -> exists r', r = Some r' /\ b `prefix_of` r'.
Proof.
  induction 1 as [|e es He _ IH]; intros first b r; simpl; [intros [= <-]; by exists b|].
  destruct (app e _ flags) as [o|] eqn:E; [|done]. destruct (He _ _ E) as (r' & -> & Hp). intros (r'' & -> & Hr)%IH.
  exists r''. split; [done|]. etrans; [|exact Hr]. etrans; [|exact Hp]. destruct first; [done|by apply prefix_app_r].
Qed.

Lemma hasFlag_lor flags x : hasFlag flags quoteFlag = true -> hasFlag (Z.lor flags x) quoteFlag = true.
Proof.
  unfold hasFlag, quoteFlag. rewrite !Z.eqb_eq. intros Hq. rewrite Z.land_lor_distr_l, Hq. apply Z.bits_inj'. intros n Hn.
  rewrite Z.lor_spec, Z.land_spec. by destruct (Z.testbit x n), (Z.testbit 1 n).
Qed.
Lemma arrayAppender_prefix app b es flags r : hasFlag flags quoteFlag = true ->
  (forall l, es = Some l -> Forall (app_prefix app (Z.lor (Z.lor flags arrayFlag) subArrayFlag)) l) ->
  arrayAppender app b es flags = Some r -> exists r', r = Some r' /\ b `prefix_of` r'.
Proof.
  intros Hq Hes. unfold arrayAppender, AppendNull. rewrite (hasFlag_lor _ _ Hq). destruct es as [es|].
  - destruct (array_loop _ _ _ _) as [b1|] eqn:E; [|done]. intros [= <-]. eexists. split; [done|]. apply prefix_more.
    destruct (array_loop_prefix _ _ _ (Hes _ eq_refl) _ _ E) as [H1 H2].
    destruct es as [|e es]; apply prefix_more; [by eapply prefix_less, prefix_less|]. apply prefix_take; [by eapply prefix_less, prefix_less|].
    specialize (H2 ltac:(done)). rewrite !length_app in H2. simpl in H2. lia.
  - intros [= <-]. eexists. split; [done|]. by apply prefix_app_r.
Qed.
Lemma ArrayAppender_prefix k app b es flags r : hasFlag flags quoteFlag = true ->
  (forall l, es = Some l -> Forall (app_prefix app (Z.lor (Z.lor flags arrayFlag) subArrayFlag)) l) ->
  ArrayAppender k app b es flags = Some r -> exists r', r = Some r' /\ b `prefix_of` r'.
Proof.
  intros Hq Hes. destruct k; simpl; [..|by apply arrayAppender_prefix]; intros [= <-].
  - destruct (append_slice_prefix (fun b s => appendString2 b s flags) b (option_map (map to_str) es) flags Hq) as (r' & E & Hp);
      [intros; apply AppendString_prefix|]. exists r'. by split.
  - apply append_slice_prefix; [done|]. intros. by apply prefix_app_r.
  - apply append_slice_prefix; [done|]. intros. by apply prefix_app_r.
  - apply append_slice_prefix; [done|]. intros b' f. unfold appendFloat2. repeat case_match; by apply prefix_app_r.
Qed.

(** With quotes, a value that appends keeps what was there, whatever it is. *)
Lemma append_at_prefix : forall v, appending v -> forall p flags, hasFlag flags quoteFlag = true -> app_prefix (append_at p) flags v.
Proof.
  fix IH 1. intros v Hv p flags Hq b r.
  assert (Hall : forall es, foldr (fun e P => appending e /\ P) True es -> forall p flags, hasFlag flags quoteFlag = true -> Forall (app_prefix (append_at p) flags) es).
  { clear -IH. intros es Hes p flags Hq. induction es as [|e es IHes]; constructor; [apply IH; [apply Hes|done]|apply IHes, Hes]. }
  assert (Hnull : forall r, Some (AppendNull b flags) = Some r -> exists r', r = Some r' /\ b `prefix_of` r').
  { intros r' [= <-]. unfold AppendNull. rewrite Hq. eexists. split; [done|]. by apply prefix_app_r. }
  assert (Hsome : forall l r, b `prefix_of` l -> some l = Some r -> exists r', r = Some r' /\ b `prefix_of` r') by (intros l r' Hl [= <-]; eauto).
  assert (Herr : forall msg, b `prefix_of` AppendError b msg) by (intros; unfold AppendError; rewrite <- app_assoc; by apply prefix_app_r).
  destruct v as [|x|z|z|fl bits|s|t|l|[v|]|v|k [es|] json|json|[v|msg]| |s|s|s|t|es|msg|k [es|]|m|f]; cbn [append_at appending] in *.
  - destruct p; [by apply Hnull|done|by apply Hnull].
  - apply Hsome. by apply prefix_app_r.
  - apply Hsome. by apply prefix_app_r.
  - apply Hsome. by apply prefix_app_r.
  - apply Hsome. unfold appendFloat, appendFloat2. repeat case_match; by apply prefix_app_r.
  - apply Hsome, AppendString_prefix.
  - apply Hsome. unfold AppendTime. case_match; by apply prefix_app_r.
  - assert (Hb : forall r, Some (AppendBytes b l flags) = Some r -> exists r', r = Some r' /\ b `prefix_of` r').
    { intros r' [= <-]. unfold AppendBytes. destruct l; [|by apply Hnull]. eexists. split; [done|]. repeat case_match; rewrite <- ?app_assoc; by apply prefix_app_r. }
    destruct p; [by apply Hb| |by apply Hb]. apply Hsome. apply prefix_more. eapply prefix_less. unfold in_bytes. apply foldl_prefix.
    intros b' [i c]. case_match; rewrite <- ?app_assoc; by apply prefix_app_r.
  - by apply IH.
  - by apply Hnull.
  - by apply IH.
  - destruct p.
    + apply Hsome, appendJSONValue_prefix.
    + destruct (in_loop _ _ _ _ _) as [o|] eqn:E; [|done]. destruct (in_loop_prefix _ _ _ (Hall es Hv InList flags Hq) _ _ _ E) as (r' & -> & Hp).
      apply Hsome. apply prefix_more. by eapply prefix_less.
    + apply ArrayAppender_prefix; [done|]. intros l [= <-]. apply Hall; [done|]. by do 2 apply hasFlag_lor.
  - destruct p.
    + apply Hsome, appendJSONValue_prefix.
    + apply Hsome. simpl. rewrite <- app_assoc. by apply prefix_app_r.
    + by apply ArrayAppender_prefix.
  - apply Hsome, appendJSONValue_prefix.
  - by apply IH.
  - by apply Hsome.
  - done.
  - apply Hsome. by apply prefix_app_r.
  - apply Hsome. unfold AppendIdent, appendIdent. rewrite ident_loop_eq. by apply prefix_app_r.
  - apply Hsome, AppendString_prefix.
  - destruct (IsZero t); [by apply Hnull|]. apply Hsome. unfold AppendTime. case_match; by apply prefix_app_r.
  - apply in_loop_prefix. by apply Hall.
  - by apply Hsome.
  - apply ArrayAppender_prefix; [done|]. intros l [= <-]. apply Hall; [done|]. by do 2 apply hasFlag_lor.
  - by apply ArrayAppender_prefix.
  - intros [= <-]. by apply hstore_prefix.
  - apply Hsome. destruct (f b flags) as [bb|msg] eqn:E; [by eapply Hv|done].
Qed.
End Keeps.

(** ** Concrete values *)

(** Integers in place of floating-point numbers. *)
#[export] Instance demo_std : GoStd := {|
  float := Z; IsNaN _ := false; IsInf _ _ := false; FormatFloat f _ := Strconv.FormatInt f 10;
  time := Z; IsZero t := t =? 0; FormatTime t := bs "2006-01-02 15:04:05+00:00:00"
|}.
#[export] Instance demo_std_laws : GoStdLaws := {| float_plain f _ := FormatInt_plain f |}.

(** A string that tries to end the constant, in an array of arrays. *)
Definition hostile : list value :=
  [Slice KString (Some [Str (bs "'}'; DROP TABLE t; --"); Str [92; 34; 0; 255]]) (inr []);
   Slice KOther (Some [Ptr None; Bytes (Some [1; 255])]) (inr [])].

Lemma Append_literal_witness :
  exists txt, Append (bs "SELECT ") (Array KOther (Some hostile)) quoteFlag = Some (Some (bs "SELECT " ++ txt)) /\
    literal txt (default [] (content (Array KOther (Some hostile)))).
Proof.
  apply Append_literal; [vm_compute; reflexivity|].
  repeat constructor; lia.
Defined.

Lemma ArrayAppender_fast_witness :
  ArrayAppender KInt (append_at InArray) [] (Some [Int 1; Int (-2)]) 1 =
  arrayAppender (append_at InArray) [] (Some [Int 1; Int (-2)]) 1.
Proof. apply ArrayAppender_fast. vm_compute. reflexivity. Defined.

Example string_literal_ex : Append [] (Str (bs "it's")) quoteFlag = some (bs "'it''s'").
Proof. vm_compute. reflexivity. Qed.

(** A number is not put between parentheses: after a minus sign a negative number
    starts a comment. *)
Example negative_number_ex : Append (bs "SELECT 1-") (Int (-1)) quoteFlag = some (bs "SELECT 1--1").
Proof. vm_compute. reflexivity. Qed.

(** Without quotes a NULL element drops what was written before it. *)
Example array_null_ex :
  Append (bs "x") (Array KOther (Some [Str (bs "a"); Ptr None; Int 2])) 0 = some (bs ",2}").
Proof. vm_compute. reflexivity. Qed.

(** In an array the escapes of a JSON text are those of the array: the text that
    is read is not the one that was written. *)
Example array_json_ex :
  Append [] (Array KOther (Some [Json (inl [34; 92; 34; 34])])) 0 = some ([123; 34; 92; 34; 92; 34; 92; 34; 34; 125]).
Proof. vm_compute. reflexivity. Qed.

(** In an IN list a byte string is a list of numbers, and nil panics. *)
Example in_bytes_ex : Append [] (In [Bytes (Some [97; 98])]) quoteFlag = some (bs "(97,98)").
Proof. vm_compute. reflexivity. Qed.
Example in_nil_ex : Append [] (In [Iface (Int 1); Iface Nil]) quoteFlag = None.
Proof. vm_compute. reflexivity. Qed.

End PgAppend.
