(* ===== verification/PgScan.v ===== *)
(** * Reading columns ([src/upg/internal/parser], [src/upg/types/scan.go], [array_parser.go], [array_scan.go], [hstore_parser.go], [hstore_scan.go])

    The parsers of arrays and hstores, which read from any [Reader], and the
    scan functions of the scalar types. The theorems are proved against the
    interface of readers, so they hold for a window in memory and for a column
    that is still on the connection; they say that what [PgAppend] writes is
    read back. Loops take a bound on their iterations; more than the number of
    bytes of the column is always enough. *)
From stdpp Require Import base numbers list sets gmap strings.
From S2P Require Import Prelude Utf8 Strconv PgReader PgAppend.
#[local] Open Scope Z_scope.

Module PgScan.
Import Utf8 PgReader PgAppend.

(** ** The streaming parser *)

(** Appending a byte to a slice, which is nil or not. *)
Definition snoc (b : option (list Z)) (c : Z) : option (list Z) := Some (default [] b ++ [c]).
Definition push (b : option (list Z)) (l : list Z) : option (list Z) :=
  match l with [] => b | _ => Some (default [] b ++ l) end.

Definition got_wanted (got : Z) (wanted : list Z) : err :=
  Errorf (bs "got " ++ [got] ++ bs ", wanted " ++ wanted).

Section Streaming.
Context {R : Type} `{Reader R}.

Definition SkipByte (skip : Z) : io R unit :=
  c ← ReadByte;
  if c =? skip then mret tt else (_ ← try UnreadByte; fail (got_wanted c [skip])).

Fixpoint substring_loop (fuel : nat) (b : option (list Z)) (c : Z) : io R (option (list Z)) :=
  match fuel with
  | O => out_of_fuel
  | S fuel' =>
      if c =? q2 then mret b
      else
        next ← ReadByte;
        if c =? bsl then
          if (next =? bsl) || (next =? q2) then (c ← ReadByte; substring_loop fuel' (snoc b next) c)
          else substring_loop fuel' (snoc b bsl) next
        else substring_loop fuel' (snoc b c) next
  end.

Definition ReadSubstring (fuel : nat) (b : option (list Z)) : io R (option (list Z)) :=
  c ← ReadByte; substring_loop fuel b c.

End Streaming.

(** ** The array parser *)

Record arrayParser (R : Type) := Ap { ap_p : R; stickyErr : option err; ap_buf : option (list Z) }.
Arguments Ap {R}. Arguments ap_p {R}. Arguments stickyErr {R}. Arguments ap_buf {R}.

Section Array.
Context {R : Type} `{Reader R}.

(** Code of the reader inside of the parser. *)
Definition on_p {A} (m : io R A) : io (arrayParser R) A := fun p =>
  match m (ap_p p) with (x, r') => (x, Ap r' (stickyErr p) (ap_buf p)) end.
Definition set_ap_buf (b : option (list Z)) : io (arrayParser R) unit := fun p => (Ret tt, Ap (ap_p p) (stickyErr p) b).

(** [p.buf[:0]], which is nil when the buffer is *)
Definition empty_buf (p : arrayParser R) : option (list Z) := match ap_buf p with Some _ => Some [] | None => None end.

Definition newArrayParser (r : R) : go err (arrayParser R) :=
  match SkipByte lbrace r with
  | (Ret _, r') => Ret (Ap r' None None)
  | (Fail e, r') => Ret (Ap r' (Some e) (Some (replicate 32 0)))
  | (Panic, _) => Panic
  | (OutOfFuel, _) => OutOfFuel
  end.

Fixpoint readSimple (fuel : nat) (b : option (list Z)) : io R (option (list Z)) :=
  match fuel with
  | O => out_of_fuel
  | S fuel' =>
      '(tmp, e) ← ReadSlice comma;
      let b := push b tmp in
      match e with
      | None => match b with Some l => mret (Some (take (length l - 1) l)) | None => panic end
      | Some ErrBufferFull => readSimple fuel' b
      | Some EOF =>
          match b with
          | Some l =>
              match last l with
              | Some c => if c =? rbrace then mret (Some (take (length l - 1) l)) else fail EOF
              | None => panic
              end
          | None => panic
          end
      | Some e => fail e
      end
  end.

(** The quoted part of a nested array. *)
Fixpoint sub_quoted (fuel : nat) (b : list Z) : io R (list Z) :=
  match fuel with
  | O => out_of_fuel
  | S fuel' =>
      '(tmp, e) ← ReadSlice q2;
      let b := b ++ tmp in
      match e with
      | Some ErrBufferFull => sub_quoted fuel' b
      | Some e => fail e
      | None =>
          if (1 <? length b)%nat && negb (bool_decide (b !! (length b - 2)%nat = Some bsl)) then mret b
          else sub_quoted fuel' b
      end
  end.

Fixpoint sub_loop (fuel : nat) (b : list Z) : io R (list Z) :=
  match fuel with
  | O => out_of_fuel
  | S fuel' =>
      c ← ReadByte;
      if c =? rbrace then mret (b ++ [rbrace])
      else if c =? q2 then (b ← sub_quoted fuel' (b ++ [q2]); sub_loop fuel' b)
      else sub_loop fuel' (b ++ [c])
  end.
Definition readSubArray (fuel : nat) (b : option (list Z)) : io R (option (list Z)) :=
  b ← sub_loop fuel (default [] b ++ [lbrace]); mret (Some b).

Definition readCommaBrace : io R unit :=
  c ← ReadByte;
  if (c =? comma) || (c =? rbrace) then mret tt else fail (Errorf (bs "pg: got " ++ [c] ++ bs ", wanted ',' or '}'")).

(** The next element, [None] when it is nil. *)
Definition NextElem (fuel : nat) : io (arrayParser R) (option (list Z)) := fun p =>
  match stickyErr p with
  | Some e => (Fail e, p)
  | None =>
      (rc ← on_p (try ReadByte);
       match rc with
       | inr e => fail (if bool_decide (e = EOF) then EndOfArray else e)
       | inl c =>
           if c =? q2 then
             b ← on_p (ReadSubstring fuel (empty_buf p)); set_ap_buf b ;; on_p readCommaBrace ;; mret b
           else if c =? lbrace then
             b ← on_p (readSubArray fuel (empty_buf p)); set_ap_buf b ;; on_p readCommaBrace ;; mret b
           else if c =? rbrace then fail EndOfArray
           else
             _ ← on_p UnreadByte;
             b ← on_p (readSimple fuel (empty_buf p));
             set_ap_buf b ;;
             mret (if bool_decide (default [] b = bs "NULL") then None else b)
       end) p
  end.

(** The loop of the scan functions: the elements up to the end of the array. *)
Fixpoint elems_loop {A} (fuel : nat) (conv : option (list Z) -> A + err) (acc : list A) : io (arrayParser R) (list A) :=
  match fuel with
  | O => out_of_fuel
  | S fuel' =>
      r ← try (NextElem fuel);
      match r with
      | inr e => if bool_decide (e = EndOfArray) then mret acc else fail e
      | inl elem => match conv elem with inl x => elems_loop fuel' conv (acc ++ [x]) | inr e => fail e end
      end
  end.

Definition scan_array {A} (fuel : nat) (conv : option (list Z) -> A + err) (n : Z) : io R (option (list A)) := fun r =>
  if n =? -1 then (Ret None, r)
  else
    match newArrayParser r with
    | Ret p => match elems_loop fuel conv [] p with
               | (Ret l, p') => (Ret (Some l), ap_p p')
               | (Fail e, p') => (Fail e, ap_p p')
               | (Panic, p') => (Panic, ap_p p')
               | (OutOfFuel, p') => (OutOfFuel, ap_p p')
               end
    | Fail e => (Fail e, r)
    | Panic => (Panic, r)
    | OutOfFuel => (OutOfFuel, r)
    end.

Definition scanStringArray (fuel : nat) (n : Z) : io R (option (list (list Z))) :=
  scan_array fuel (fun elem => inl (default [] elem)) n.

(** [internal.Atoi] and [internal.ParseInt] at 64 bits. *)
Definition atoi (b : list Z) : Z + err :=
  match Strconv.ParseInt b 10 with Some z => inl z | None => inr (Errorf (bs "strconv: " ++ b)) end.
Definition int_elem (elem : option (list Z)) : Z + err := match elem with None => inl 0 | Some b => atoi b end.

Definition decodeSliceInt (fuel : nat) (n : Z) : io R (option (list Z)) := scan_array fuel int_elem n.
Definition scanInt64Array (fuel : nat) (n : Z) : io R (option (list Z)) := scan_array fuel int_elem n.

Definition scanFloat64Array {F} (zero : F) (ParseFloat : list Z -> option F) (fuel : nat) (n : Z) : io R (option (list F)) :=
  scan_array fuel (fun elem =>
    match elem with
    | None => inl zero
    | Some b => match ParseFloat b with Some f => inl f | None => inr (Errorf (bs "strconv: " ++ b)) end
    end) n.

End Array.

(** ** The hstore parser *)

Section Hstore.
Context {R : Type} `{Reader R}.

Definition NextKey (fuel : nat) : io R (option (list Z)) :=
  r ← try (SkipByte q2);
  match r with
  | inr e => fail (if bool_decide (e = EOF) then EndOfHstore else e)
  | inl _ => key ← ReadSubstring fuel None; SkipByte 61 ;; SkipByte 62 ;; mret key
  end.

Definition NextValue (fuel : nat) : io R (option (list Z)) :=
  SkipByte q2 ;;
  value ← ReadSubstring fuel None;
  r ← try (SkipByte comma);
  match r with
  | inl _ => _ ← try (SkipByte 32); mret value
  | inr _ => mret value
  end.

(** [scanMapStringString]: the map, by its list of assignments. *)
Fixpoint hstore_loop (fuel : nat) (m : gmap (list Z) (list Z)) : io R (gmap (list Z) (list Z)) :=
  match fuel with
  | O => out_of_fuel
  | S fuel' =>
      r ← try (NextKey fuel);
      match r with
      | inr e => if bool_decide (e = EndOfHstore) then mret m else fail e
      | inl key => value ← NextValue fuel; hstore_loop fuel' (<[default [] key := default [] value]> m)
      end
  end.

Definition scanMapStringString (fuel : nat) (n : Z) : io R (option (gmap (list Z) (list Z))) :=
  if n =? -1 then mret None else (m ← hstore_loop fuel ∅; mret (Some m)).

End Hstore.

(** ** Scalar columns *)

(** [hex.Decode] of [src/pkg/hex]. *)
Definition fromHexChar (c : Z) : option Z :=
  if (48 <=? c) && (c <=? 57) then Some (c - 48)
  else if (97 <=? c) && (c <=? 102) then Some (c - 97 + 10)
  else if (65 <=? c) && (c <=? 70) then Some (c - 65 + 10)
  else None.

Fixpoint decodeGeneric (src : list Z) : list Z + Z :=
  match src with
  | x :: y :: src' =>
      match fromHexChar x, fromHexChar y with
      | None, _ => inr x
      | _, None => inr y
      | Some a, Some b =>
          match decodeGeneric src' with inl dst => inl (Z.lor (Z.shiftl a 4 mod 256) b :: dst) | inr c => inr c end
      end
  | _ => inl []
  end.

Definition hex_Decode (src : list Z) : list Z + err :=
  if (length src mod 2 =? 1)%nat then inr (Errorf (bs "go-hex: odd length hex string"))
  else match decodeGeneric src with
       | inl dst => inl dst
       | inr c => inr (Errorf (bs "go-hex: invalid byte: " ++ [c]))
       end.

(** [strconv.ParseInt(s, 10, bitSize)] and [strconv.ParseUint(s, 10, 64)]. *)
Definition ParseIntBits (b : list Z) (bits : Z) : option Z :=
  match Strconv.ParseInt b 10 with
  | Some z => if (- 2 ^ (bits - 1) <=? z) && (z <? 2 ^ (bits - 1)) then Some z else None
  | None => None
  end.
Definition ParseUint (b : list Z) : option Z :=
  match b with
  | [] => None
  | _ => match Strconv.parse_digits 10 0 b with Some z => if z <? 2 ^ 64 then Some z else None | None => None end
  end.
Definition or_strconv {A} (b : list Z) (o : option A) : A + err :=
  match o with Some a => inl a | None => inr (Errorf (bs "strconv: " ++ b)) end.

(** [strconv.ParseFloat] at 32 and 64 bits, zero, and [types.ParseTime]. *)
Class GoParse (F T : Type) := {
  ParseFloat : list Z -> Z -> option F;
  float_zero : F;
  ParseTime : list Z -> option T;
  time_zero : T
}.

Section Scalars.
Context {R : Type} `{Reader R} {F T : Type} `{GoParse F T}.

Definition lift_err {A} (x : A + err) : io R A := match x with inl a => mret a | inr e => fail e end.

Definition ScanString (n : Z) : io R (list Z) := if n <=? 0 then mret [] else ReadFull.

Definition ReadBytes (len : Z) : io R (list Z) :=
  tmp ← ReadFullTemp;
  let bad := fail (Errorf (bs "pg: can't parse bytea: " ++ tmp)) in
  if (length tmp <? 2)%nat then bad
  else if negb (bool_decide (tmp !! 0%nat = Some bsl)) || negb (bool_decide (tmp !! 1%nat = Some 120)) then bad
  else
    let tmp := drop 2 tmp in
    if negb (len =? Z.of_nat (length tmp) / 2) then fail (Errorf (bs "pg: too small buf to decode hex"))
    else lift_err (hex_Decode tmp).

Definition ScanBytes (n : Z) : io R (option (list Z)) :=
  if n =? -1 then mret None
  else if n =? 0 then mret (Some [])
  else (b ← ReadBytes (Z.quot (n - 2) 2); mret (Some b)).

Definition scan_num {A} (zero : A) (parse : list Z -> A + err) (n : Z) : io R A :=
  if n <=? 0 then mret zero else (tmp ← ReadFullTemp; lift_err (parse tmp)).

Definition ScanInt (n : Z) : io R Z := scan_num 0 atoi n.
Definition scanInt64 (n bitSize : Z) : io R Z := scan_num 0 (fun tmp => or_strconv tmp (ParseIntBits tmp bitSize)) n.
Definition ScanInt64 (n : Z) : io R Z := scanInt64 n 64.
Definition ScanUint64 (n : Z) : io R Z :=
  scan_num 0 (fun tmp =>
    match tmp with
    | 45 :: _ => match ParseIntBits tmp 64 with Some z => inl (z mod 2 ^ 64) | None => inr (Errorf (bs "strconv: " ++ tmp)) end
    | _ => or_strconv tmp (ParseUint tmp)
    end) n.
Definition ScanFloat32 (n : Z) : io R F := scan_num float_zero (fun tmp => or_strconv tmp (ParseFloat tmp 32)) n.
Definition ScanFloat64 (n : Z) : io R F := scan_num float_zero (fun tmp => or_strconv tmp (ParseFloat tmp 64)) n.
Definition ScanTime (n : Z) : io R T :=
  scan_num time_zero (fun tmp => match ParseTime tmp with Some t => inl t | None => inr (Errorf tmp) end) n.
Definition ScanBool (n : Z) : io R bool :=
  tmp ← ReadFullTemp; mret (match tmp with [c] => (c =? 116) || (c =? 49) | _ => false end).

(** [ReadColumnValue]: the Go value for a column of a type of PostgreSQL. *)
Inductive column_value :=
| CBool (x : bool) | CInt16 (z : Z) | CInt32 (z : Z) | CInt64 (z : Z) | CFloat32 (f : F) | CFloat64 (f : F)
| CBytes (l : option (list Z)) | CString (s : list Z) | CJson (s : list Z) | CTime (t : T)
| CInts (l : option (list Z)) | CFloats (l : option (list F)) | CStrings (l : option (list (list Z)))
| CRaw (typ : Z) (s : list Z).

Definition ReadColumnValue (fuel : nat) (typ n : Z) : io R column_value :=
  if typ =? 16 then (x ← ScanBool n; mret (CBool x))
  else if typ =? 21 then (z ← scanInt64 n 16; mret (CInt16 z))
  else if typ =? 23 then (z ← scanInt64 n 32; mret (CInt32 z))
  else if typ =? 20 then (z ← ScanInt64 n; mret (CInt64 z))
  else if typ =? 700 then (f ← ScanFloat32 n; mret (CFloat32 f))
  else if typ =? 701 then (f ← ScanFloat64 n; mret (CFloat64 f))
  else if typ =? 17 then (l ← ScanBytes n; mret (CBytes l))
  else if (typ =? 25) || (typ =? 1043) || (typ =? 2950) then (s ← ScanString n; mret (CString s))
  else if (typ =? 114) || (typ =? 3802) then (s ← ScanString n; mret (CJson s))
  else if (typ =? 1114) || (typ =? 1184) then (t ← ScanTime n; mret (CTime t))
  else if (typ =? 1007) || (typ =? 1016) then (l ← scanInt64Array fuel n; mret (CInts l))
  else if typ =? 1022 then
    (l ← scanFloat64Array float_zero (fun b => ParseFloat b 64) fuel n; mret (CFloats l))
  else if typ =? 1009 then (l ← scanStringArray fuel n; mret (CStrings l))
  else (s ← ScanString n; mret (CRaw typ s)).

End Scalars.
Arguments column_value F T : clear implicits.

(** ** Reasoning about readers *)

Section Laws.
Context {R : Type} `{ReaderLaws R}.

(** [reads m l v rest]: with the bytes [l] ahead the code gives [v] and leaves
    [rest]; [fails] is the same for an error. *)
Definition reads {A} (m : io R A) (l : list Z) (v : A) (rest : list Z) : Prop :=
  forall r, repr r l -> exists r', m r = (Ret v, r') /\ repr r' rest.
Definition fails {A} (m : io R A) (l : list Z) (e : err) (rest : list Z) : Prop :=
  forall r, repr r l -> exists r', m r = (Fail e, r') /\ repr r' rest.

Lemma reads_ret {A} (a : A) l : reads (mret a) l a l.
Proof. intros r Hr. by exists r. Qed.
Lemma fails_fail {A} e l : fails (fail e : io R A) l e l.
Proof. intros r Hr. by exists r. Qed.

Lemma reads_bind {A B} (m : io R A) (k : A -> io R B) l v l' w l'' :
  reads m l v l' -> reads (k v) l' w l'' -> reads (m ≫= k) l w l''.
Proof.
  intros Hm Hk r Hr. destruct (Hm r Hr) as (r1 & E & Hr1). destruct (Hk r1 Hr1) as (r2 & E2 & Hr2).
  exists r2. unfold mbind, io_mbind. by rewrite E.
Qed.
Lemma fails_bind {A B} (m : io R A) (k : A -> io R B) l v l' e l'' :
  reads m l v l' -> fails (k v) l' e l'' -> fails (m ≫= k) l e l''.
Proof.
  intros Hm Hk r Hr. destruct (Hm r Hr) as (r1 & E & Hr1). destruct (Hk r1 Hr1) as (r2 & E2 & Hr2).
  exists r2. unfold mbind, io_mbind. by rewrite E.
Qed.
Lemma reads_try {A} (m : io R A) l v l' : reads m l v l' -> reads (try m) l (inl v) l'.
Proof. intros Hm r Hr. destruct (Hm r Hr) as (r1 & E & Hr1). exists r1. unfold try. by rewrite E. Qed.
Lemma reads_try_fail {A} (m : io R A) l e l' : fails m l e l' -> reads (try m) l (inr e) l'.
Proof. intros Hm r Hr. destruct (Hm r Hr) as (r1 & E & Hr1). exists r1. unfold try. by rewrite E. Qed.

Lemma reads_byte c l : reads ReadByte (c :: l) c l.
Proof. intros r Hr. destruct (read_byte r c l Hr) as (r' & _ & E & Hr' & _). by exists r'. Qed.
Lemma fails_byte : fails ReadByte [] EOF [].
Proof. intros r Hr. apply (read_byte_end r Hr). Qed.

Lemma reads_skip c l : reads (SkipByte c) (c :: l) tt l.
Proof. eapply reads_bind; [apply reads_byte|]. rewrite Z.eqb_refl. apply reads_ret. Qed.
Lemma fails_skip c d l : c <> d -> fails (SkipByte d) (c :: l) (got_wanted c [d]) (c :: l).
Proof.
  intros Hcd r Hr. destruct (read_byte r c l Hr) as (r' & r'' & E & _ & E' & Hr'').
  exists r''. unfold SkipByte, mbind, io_mbind. rewrite E, (proj2 (Z.eqb_neq _ _)) by done.
  unfold try. rewrite E'. done.
Qed.
Lemma fails_skip_end d : fails (SkipByte d) [] EOF [].
Proof.
  intros r Hr. destruct (read_byte_end r Hr) as (r' & E & Hr'). exists r'. unfold SkipByte, mbind, io_mbind. by rewrite E.
Qed.

(** ** Quoted text *)

(** The escapes at the level of bytes. *)
Definition escb (c : Z) : list Z := if (c =? q2) || (c =? bsl) then [bsl; c] else [c].

Lemma escb_id l : ~ q2 ∈ l -> ~ bsl ∈ l -> (l ≫= escb) = l.
Proof.
  intros H1 H2. induction l as [|c l IH]; [done|]. rewrite bind_cons, IH by set_solver. unfold escb.
  rewrite (proj2 (Z.eqb_neq c q2)), (proj2 (Z.eqb_neq c bsl)) by set_solver. done.
Qed.

Lemma esc_text cps : Forall (fun c => rune_ok c /\ c <> 0) cps -> (cps ≫= esc_char) = text cps ≫= escb.
Proof.
  induction 1 as [|c cps [Hc _] _ IH]; [done|]. rewrite text_cons, bind_app, bind_cons, IH. f_equal.
  unfold esc_char. destruct (Z.eqb_spec c q2) as [->|H2]; [done|]. destruct (Z.eqb_spec c bsl) as [->|Hb]; [done|].
  rewrite escb_id; [done|..]; intros Hin; apply (encode_ascii_only c) in Hin; done || lia.
Qed.

Lemma quoted_text_esc s : quoted_text s = [q2] ++ (clean s ≫= escb) ++ [q2].
Proof. unfold quoted_text, clean. by rewrite (esc_text _ (chars_ok s)). Qed.

Lemma push_snoc b x t : push (snoc b x) t = push b (x :: t).
Proof. unfold push, snoc. destruct t; simpl; [done|]. by rewrite <- app_assoc. Qed.
Lemma push_default b t : default [] (push b t) = default [] b ++ t.
Proof. unfold push. destruct t; simpl; [by rewrite app_nil_r|done]. Qed.

Lemma substring_reads t : forall fuel b c l rest, c :: l = (t ≫= escb) ++ q2 :: rest -> (length t < fuel)%nat ->
  reads (substring_loop fuel b c) l (push b t) rest.
Proof.
  induction t as [|x t IH]; intros fuel b c l rest E Hf; (destruct fuel as [|fuel]; [lia|]); cbn [substring_loop].
  - injection E as -> ->. apply reads_ret.
  - rewrite bind_cons, <- app_assoc in E. simpl in Hf.
    assert (Hne : exists c' l', (t ≫= escb) ++ q2 :: rest = c' :: l') by (destruct (t ≫= escb); eauto).
    destruct Hne as (c' & l' & E'). rewrite E' in E. rewrite <- push_snoc. unfold escb in E.
    destruct ((x =? q2) || (x =? bsl)) eqn:Hx; injection E as -> ->.
    + change (bsl =? q2) with false. change (bsl =? bsl) with true. cbn iota.
      eapply reads_bind; [apply reads_byte|]. rewrite (orb_comm (x =? bsl)), Hx.
      eapply reads_bind; [apply reads_byte|]. apply IH; [done|lia].
    + apply orb_false_iff in Hx as [Hx1 Hx2]. rewrite Hx1. eapply reads_bind; [apply reads_byte|]. rewrite Hx2. apply IH; [done|lia].
Qed.

Lemma ReadSubstring_reads fuel b t rest : (length t < fuel)%nat ->
  reads (ReadSubstring fuel b) ((t ≫= escb) ++ q2 :: rest) (push b t) rest.
Proof.
  intros Hf. destruct ((t ≫= escb) ++ q2 :: rest) as [|c l] eqn:E; [by destruct (t ≫= escb)|].
  eapply reads_bind; [apply reads_byte|]. by apply substring_reads.
Qed.

(** ** Elements of an array *)

Definition at_ (p : arrayParser R) (l : list Z) : Prop := stickyErr p = None /\ repr (ap_p p) l.

Lemma on_p_reads {A} (m : io R A) l v rest p : reads m l v rest -> at_ p l ->
  exists p', on_p m p = (Ret v, p') /\ at_ p' rest.
Proof.
  intros Hm [Hs Hr]. destruct (Hm _ Hr) as (r' & E & Hr'). eexists. unfold on_p. rewrite E. split; [done|]. done.
Qed.

Lemma commabrace_reads d rest : d = comma \/ d = rbrace -> reads readCommaBrace (d :: rest) tt rest.
Proof. intros Hd. eapply reads_bind; [apply reads_byte|]. destruct Hd as [-> | ->]; apply reads_ret. Qed.

(** A quoted element and the character after it. *)
Lemma NextElem_quoted fuel p t d rest : at_ p (q2 :: (t ≫= escb) ++ q2 :: d :: rest) ->
  d = comma \/ d = rbrace -> (length t < fuel)%nat ->
  exists v p', NextElem fuel p = (Ret v, p') /\ default [] v = t /\ at_ p' rest.
Proof.
  intros Hp Hd Hf. unfold NextElem. rewrite (proj1 Hp). unfold mbind, io_mbind.
  destruct (on_p_reads _ _ _ _ p (reads_try _ _ _ _ (reads_byte q2 _)) Hp) as (p1 & -> & Hp1). rewrite Z.eqb_refl.
  destruct (on_p_reads _ _ _ _ p1 (ReadSubstring_reads fuel (empty_buf p) t (d :: rest) Hf) Hp1) as (p2 & -> & Hp2).
  set (b := push (empty_buf p) t). unfold set_ap_buf.
  destruct (on_p_reads _ _ _ _ (Ap (ap_p p2) (stickyErr p2) b) (commabrace_reads d rest Hd)) as (p3 & -> & Hp3); [done|].
  exists b, p3. split; [done|]. split; [|done]. unfold b. rewrite push_default. unfold empty_buf. by destruct (ap_buf p).
Qed.

(** The end of the array: a brace, or nothing after the brace of the last element. *)
Lemma NextElem_brace fuel p rest : at_ p (rbrace :: rest) -> exists p', NextElem fuel p = (Fail EndOfArray, p') /\ at_ p' rest.
Proof.
  intros Hp. unfold NextElem. rewrite (proj1 Hp). unfold mbind, io_mbind.
  destruct (on_p_reads _ _ _ _ p (reads_try _ _ _ _ (reads_byte rbrace _)) Hp) as (p1 & -> & Hp1). by exists p1.
Qed.
Lemma NextElem_end fuel p : at_ p [] -> exists p', NextElem fuel p = (Fail EndOfArray, p') /\ at_ p' [].
Proof.
  intros Hp. unfold NextElem. rewrite (proj1 Hp). unfold mbind, io_mbind.
  destruct (on_p_reads _ _ _ _ p (reads_try_fail _ _ _ _ fails_byte) Hp) as (p1 & -> & Hp1). by exists p1.
Qed.

(** *** Words without quotes *)

(** Where the first comma is, if there is one. *)
Lemma split_first (d : Z) (p q p' q' : list Z) : p ++ d :: q = p' ++ d :: q' -> ~ d ∈ p -> ~ d ∈ p' -> p = p' /\ q = q'.
Proof.
  revert p'. induction p as [|x p IH]; intros [|y p'] E Hp Hp'; simpl in E.
  - by injection E.
  - injection E as <- _. set_solver.
  - injection E as -> _. set_solver.
  - injection E as -> E. destruct (IH p' E) as [-> ->]; [set_solver..|]. done.
Qed.

Lemma readSimple_comma fuel : forall b w rest, ~ comma ∈ w -> (length w < fuel)%nat ->
  reads (readSimple fuel b) (w ++ comma :: rest) (Some (default [] b ++ w)) rest.
Proof.
  induction fuel as [|fuel IH]; intros b w rest Hw Hf; [lia|]. intros r Hr. cbn [readSimple].
  destruct (read_slice comma r _ Hr) as (line & e & rest' & r1 & E & [El Hs] & Hr1).
  unfold mbind, io_mbind. rewrite E. destruct e as [e|].
  - destruct e; try done.
    + destruct Hs as [-> Hin]. exfalso. apply Hin. rewrite app_nil_r in El. rewrite <- El. set_solver.
    + destruct Hs as [Hne Hin]. assert (Hpre : exists w', w = line ++ w' /\ rest' = w' ++ comma :: rest).
      { apply app_eq_inv in El as [(k & -> & Ek)|(k & -> & Ek)].
        - exists k. done.
        - destruct k as [|x k]; simpl in Ek; [exists []; by rewrite !app_nil_r|].
          injection Ek as <- _. set_solver. }
      destruct Hpre as (w' & -> & ->). rewrite length_app in Hf.
      assert (0 < length line)%nat by (destruct line; [done|simpl; lia]).
      destruct (IH (push b line) w' rest) with r1 as (r2 & E2 & Hr2); [set_solver|lia|done|].
      exists r2. rewrite E2, push_default, <- app_assoc. done.
  - destruct Hs as (p & -> & Hp). rewrite <- app_assoc in El. simpl in El.
    destruct (split_first _ _ _ _ _ El) as [-> ->]; [done..|].
    destruct (push b (p ++ [comma])) as [l|] eqn:Eb; [|by destruct p].
    apply (f_equal (default [])) in Eb. rewrite push_default in Eb. simpl in Eb. subst l.
    exists r1. rewrite app_assoc, length_app. simpl. rewrite Nat.add_sub, take_app_length. done.
Qed.

Lemma readSimple_end fuel : forall b l, ~ comma ∈ l -> (length l < fuel)%nat -> last (default [] b ++ l) = Some rbrace ->
  reads (readSimple fuel b) l (Some (take (length (default [] b ++ l) - 1) (default [] b ++ l))) [].
Proof.
  induction fuel as [|fuel IH]; intros b l Hl Hf Hlast; [lia|]. intros r Hr. cbn [readSimple].
  destruct (read_slice comma r _ Hr) as (line & e & rest' & r1 & E & [El Hs] & Hr1).
  unfold mbind, io_mbind. rewrite E. destruct e as [e|].
  - destruct e; try done.
    + destruct Hs as [-> _]. rewrite app_nil_r in El. subst line. exists r1. split; [|done].
      assert (Hd := push_default b l). destruct (push b l) as [x|] eqn:Eb; simpl in Hd.
      * rewrite <- Hd in Hlast |- *. rewrite Hlast. by change (rbrace =? rbrace) with true.
      * rewrite <- Hd in Hlast. done.
    + destruct Hs as [Hne Hin]. subst l. rewrite length_app in Hf.
      assert (0 < length line)%nat by (destruct line; [done|simpl; lia]).
      destruct (IH (push b line) rest') with r1 as (r2 & E2 & Hr2);
        [set_solver|lia|by rewrite push_default, <- app_assoc|done|].
      exists r2. rewrite E2, push_default, <- app_assoc. done.
  - destruct Hs as (p & -> & Hp). set_solver.
Qed.

(** A word is an element that none of the special characters starts and that
    has no comma; it is not the word NULL. *)
Definition word (w : list Z) : Prop :=
  ~ comma ∈ w /\ match w with c :: _ => c <> q2 /\ c <> lbrace /\ c <> rbrace | [] => False end /\ w <> bs "NULL".

Lemma NextElem_word fuel p w d rest : at_ p (w ++ d :: rest) -> word w ->
  d = comma \/ d = rbrace /\ rest = [] -> (length w + 1 < fuel)%nat ->
  exists p', NextElem fuel p = (Ret (Some w), p') /\ at_ p' rest.
Proof.
  intros Hp (Hc & Hw & Hn) Hd Hf. destruct w as [|c w]; [done|]. destruct Hw as (H1 & H2 & H3).
  unfold NextElem. rewrite (proj1 Hp). destruct Hp as [Hs Hr]. unfold mbind, io_mbind.
  destruct (read_byte (ap_p p) c (w ++ d :: rest) Hr) as (r1 & r2 & E1 & _ & E2 & Hr2).
  unfold on_p at 1, try. rewrite E1. rewrite (proj2 (Z.eqb_neq c q2)), (proj2 (Z.eqb_neq c lbrace)), (proj2 (Z.eqb_neq c rbrace)) by done.
  cbn [on_p]. unfold on_p at 1. cbn [ap_p]. rewrite E2. cbn [stickyErr ap_buf].
  assert (Hrd : reads (readSimple fuel (empty_buf p)) ((c :: w) ++ d :: rest) (Some (c :: w)) rest).
  { assert (E0 : default [] (empty_buf p) = []) by (unfold empty_buf; by destruct (ap_buf p)).
    destruct Hd as [->|[-> ->]].
    - change (c :: w) with ([] ++ c :: w) at 2. rewrite <- E0. apply readSimple_comma; [done|simpl in *; lia].
    - pose proof (readSimple_end fuel (empty_buf p) ((c :: w) ++ [rbrace])) as He. rewrite E0 in He. cbn [app] in He.
      change (c :: w ++ [rbrace]) with ((c :: w) ++ [rbrace]) in *.
      rewrite drop_last_app, last_snoc in He. apply He; [set_solver|rewrite length_app; simpl in *; lia|done]. }
  destruct (on_p_reads _ _ _ _ (Ap r2 (stickyErr p) (ap_buf p)) Hrd) as (p1 & -> & Hp1); [done|].
  unfold set_ap_buf. rewrite bool_decide_false by done. eexists. split; [done|]. done.
Qed.

(** ** Whole arrays *)

(** The text [et] of an element is read as [v], by a comma and by the last brace. *)
Definition denotes {A} (conv : option (list Z) -> A + err) (et : list Z) (v : A) : Prop :=
  forall fuel p d rest, at_ p (et ++ d :: rest) -> d = comma \/ d = rbrace /\ rest = [] -> (length et + 1 < fuel)%nat ->
  exists x p', NextElem fuel p = (Ret x, p') /\ conv x = inl v /\ at_ p' rest.

Lemma elems_step {A} conv (et : list Z) (v : A) fuel acc p d rest : denotes conv et v ->
  at_ p (et ++ d :: rest) -> d = comma \/ d = rbrace /\ rest = [] -> (length et + 1 < S fuel)%nat ->
  exists p', elems_loop (S fuel) conv acc p = elems_loop fuel conv (acc ++ [v]) p' /\ at_ p' rest.
Proof.
  intros Hd Hp Hdr Hf. destruct (Hd (S fuel) p d rest Hp Hdr Hf) as (x & p' & E & Ev & Hp').
  exists p'. split; [|done]. cbn [elems_loop]. unfold mbind, io_mbind, try. by rewrite E, Ev.
Qed.

Lemma elems_end {A} (conv : option (list Z) -> A + err) fuel acc p :
  at_ p [] \/ at_ p [rbrace] -> exists p', elems_loop (S fuel) conv acc p = (Ret acc, p') /\ at_ p' [].
Proof.
  intros Hp. assert (He : exists p', NextElem (S fuel) p = (Fail EndOfArray, p') /\ at_ p' [])
    by (destruct Hp; [by apply NextElem_end|by apply NextElem_brace]).
  destruct He as (p' & E & Hp'). exists p'. split; [|done]. cbn [elems_loop]. unfold mbind, io_mbind, try. by rewrite E.
Qed.

Lemma elems_loop_ok {A} (conv : option (list Z) -> A + err) t ts vs : Forall2 (denotes conv) (t :: ts) vs ->
  forall fuel acc p, at_ p (commas (t :: ts) ++ [rbrace]) -> (length (commas (t :: ts)) + 1 < fuel)%nat ->
  exists p', elems_loop fuel conv acc p = (Ret (acc ++ vs), p') /\ at_ p' [].
Proof.
  revert t vs. induction ts as [|u ts IH]; intros t vs Hvs fuel acc p Hp Hf; (destruct fuel as [|fuel]; [lia|]).
  - apply Forall2_cons_inv_l in Hvs as (v & vs' & Hv & Hvs & ->). apply Forall2_nil_inv_l in Hvs as ->.
    destruct (elems_step _ _ _ fuel acc p rbrace [] Hv Hp) as (p1 & -> & Hp1); [by right|simpl in Hf; lia|].
    destruct fuel as [|fuel]; [simpl in Hf; lia|]. apply elems_end. by left.
  - apply Forall2_cons_inv_l in Hvs as (v & vs' & Hv & Hvs & ->).
    change (commas (t :: u :: ts)) with (t ++ comma :: commas (u :: ts)) in Hp, Hf.
    rewrite <- app_assoc in Hp. rewrite length_app in Hf. cbn [length app] in Hp, Hf.
    destruct (elems_step _ _ _ fuel acc p comma _ Hv Hp) as (p1 & -> & Hp1); [by left|lia|].
    destruct (IH u vs' Hvs fuel (acc ++ [v]) p1 Hp1) as (p' & -> & Hp'); [lia|].
    exists p'. by rewrite <- app_assoc.
Qed.

Lemma scan_array_ok {A} (conv : option (list Z) -> A + err) ts vs fuel n r :
  Forall2 (denotes conv) ts vs -> repr r (array_text ts) -> n <> -1 -> (length (array_text ts) < fuel)%nat ->
  exists r', scan_array fuel conv n r = (Ret (Some vs), r') /\ repr r' [].
Proof.
  intros Hvs Hr Hn Hf. unfold scan_array. rewrite (proj2 (Z.eqb_neq _ _)) by done. unfold newArrayParser.
  unfold array_text in Hr, Hf. rewrite !length_app in Hf. cbn [length app] in Hr, Hf.
  destruct (reads_skip lbrace _ r Hr) as (r1 & -> & Hr1).
  assert (Hp : at_ (Ap r1 None None) (commas ts ++ [rbrace])) by done.
  assert (He : exists p', elems_loop fuel conv [] (Ap r1 None None) = (Ret vs, p') /\ at_ p' []).
  { destruct ts as [|t ts].
    - apply Forall2_nil_inv_l in Hvs as ->. destruct fuel as [|fuel]; [lia|]. apply elems_end. by right.
    - apply (elems_loop_ok conv t ts vs Hvs fuel [] _ Hp). lia. }
  destruct He as (p' & -> & Hp'). exists (ap_p p'). split; [done|]. apply Hp'.
Qed.

(** *** The element types *)

Lemma length_escb t : (length t <= length (t ≫= escb))%nat.
Proof.
  induction t as [|c t IH]; [done|]. rewrite bind_cons, length_app. unfold escb at 1. case_match; simpl; lia.
Qed.

Lemma string_denotes s : denotes (fun elem => inl (default [] elem)) (quoted_text s) (clean s).
Proof.
  intros fuel p d rest Hp Hd Hf. rewrite quoted_text_esc in Hp, Hf. rewrite !length_app in Hf. simpl in Hf.
  rewrite <- !app_assoc in Hp. pose proof (length_escb (clean s)).
  destruct (NextElem_quoted fuel p (clean s) d rest) as (v & p' & E & Hv & Hp'); [done|tauto|lia|].
  exists v, p'. split_and!; [done|by rewrite Hv|done..].
Qed.

Lemma FormatInt_word z : word (Strconv.FormatInt z 10).
Proof.
  assert (Hd : Forall (fun c => c = 45 \/ 48 <= c <= 57) (Strconv.FormatInt z 10)).
  { unfold Strconv.FormatInt. destruct (Z.ltb_spec z 0) as [Hz|Hz].
    - constructor; [by left|]. eapply Forall_impl; [apply (Strconv.FormatUint_digits (- z)); lia|]. simpl. lia.
    - eapply Forall_impl; [by apply Strconv.FormatUint_digits|]. simpl. lia. }
  assert (Hne : Strconv.FormatInt z 10 <> []).
  { unfold Strconv.FormatInt. case_match; [done|]. apply Strconv.FormatUint_nonempty; lia. }
  rewrite Forall_forall in Hd. split_and!.
  - intros Hin. specialize (Hd _ Hin). simpl in Hd. lia.
  - destruct (Strconv.FormatInt z 10) as [|c w]; [done|]. specialize (Hd c ltac:(set_solver)). simpl in Hd. lia.
  - intros E. specialize (Hd 78). rewrite E in Hd. specialize (Hd ltac:(refine (bool_decide_unpack _ _); vm_compute; exact I)).
    simpl in Hd. lia.
Qed.

Lemma int_denotes z : Strconv.int64_ok z -> denotes int_elem (Strconv.FormatInt z 10) z.
Proof.
  intros Hz fuel p d rest Hp Hd Hf.
  destruct (NextElem_word fuel p _ d rest Hp (FormatInt_word z) Hd Hf) as (p' & E & Hp').
  exists (Some (Strconv.FormatInt z 10)), p'. split_and!; [done| |done..]. simpl. unfold atoi.
  by rewrite Strconv.ParseInt_FormatInt by (done || lia).
Qed.

(** ** Hstores *)

Lemma NextKey_reads fuel k rest : (length (clean k) < fuel)%nat ->
  reads (NextKey fuel) (quoted_text k ++ [61; 62] ++ rest) (push None (clean k)) rest.
Proof.
  intros Hf. rewrite quoted_text_esc, <- !app_assoc. unfold NextKey.
  eapply reads_bind; [apply reads_try, reads_skip|]. cbn iota.
  eapply reads_bind; [by apply ReadSubstring_reads|]. simpl.
  eapply reads_bind; [apply reads_skip|]. eapply reads_bind; [apply reads_skip|]. apply reads_ret.
Qed.

Lemma NextKey_end fuel : fails (NextKey fuel) [] EndOfHstore [].
Proof. eapply fails_bind; [apply reads_try_fail, fails_skip_end|]. apply fails_fail. Qed.

(** After a value comes the next entry or the end. *)
Lemma NextValue_reads fuel v rest : (length (clean v) < fuel)%nat ->
  rest = [] \/ head rest = Some q2 ->
  reads (NextValue fuel) (quoted_text v ++ match rest with [] => [] | _ => comma :: rest end) (push None (clean v)) rest.
Proof.
  intros Hf Hr. rewrite quoted_text_esc, <- !app_assoc. unfold NextValue.
  eapply reads_bind; [apply reads_skip|]. eapply reads_bind; [by apply ReadSubstring_reads|].
  destruct rest as [|c rest]; simpl.
  - eapply reads_bind; [apply reads_try_fail, fails_skip_end|]. apply reads_ret.
  - destruct Hr as [?|[= ->]]; [done|]. eapply reads_bind; [apply reads_try, reads_skip|]. cbn iota.
    eapply reads_bind; [apply reads_try_fail, fails_skip; done|]. apply reads_ret.
Qed.

Definition assign (m : gmap (list Z) (list Z)) (kv : list Z * list Z) : gmap (list Z) (list Z) :=
  <[clean kv.1 := clean kv.2]> m.

Lemma length_quoted s : (length (clean s) + 1 < length (quoted_text s))%nat.
Proof. rewrite quoted_text_esc, !length_app. simpl. pose proof (length_escb (clean s)). lia. Qed.

Lemma hstore_text_cons kv m : hstore_text (kv :: m) =
  entry_text kv ++ match hstore_text m with [] => [] | _ => comma :: hstore_text m end.
Proof.
  unfold hstore_text. destruct m as [|kv' m]; [simpl; by rewrite app_nil_r|].
  change (commas (entry_text <$> kv :: kv' :: m)) with (entry_text kv ++ comma :: commas (entry_text <$> kv' :: m)).
  assert (Hne : commas (entry_text <$> kv' :: m) <> []).
  { destruct m; simpl; unfold entry_text at 1, quoted_text; done. }
  by destruct (commas (entry_text <$> kv' :: m)).
Qed.

Lemma hstore_text_head m : hstore_text m = [] \/ head (hstore_text m) = Some q2.
Proof. destruct m as [|kv m]; [by left|]. right. by rewrite hstore_text_cons. Qed.

Lemma hstore_loop_reads kvs : forall fuel m, (length (hstore_text kvs) < fuel)%nat ->
  reads (hstore_loop fuel m) (hstore_text kvs) (foldl assign m kvs) [].
Proof.
  induction kvs as [|[k v] kvs IH]; intros fuel m Hf; (destruct fuel as [|fuel]; [lia|]); cbn [hstore_loop].
  - eapply reads_bind; [apply reads_try_fail, NextKey_end|]. apply reads_ret.
  - rewrite hstore_text_cons in *. unfold entry_text in *. cbn [fst snd] in *. rewrite !length_app in Hf.
    pose proof (length_quoted k). pose proof (length_quoted v). rewrite <- !app_assoc.
    eapply reads_bind; [apply reads_try, NextKey_reads; lia|]. cbn iota.
    eapply reads_bind; [apply NextValue_reads; [lia|apply hstore_text_head]|].
    rewrite !push_default. simpl. apply IH. destruct (hstore_text kvs); simpl in *; lia.
Qed.

Lemma assign_all (kvs : list (list Z * list Z)) (m : gmap (list Z) (list Z)) : Forall (fun kv => clean kv.1 = kv.1 /\ clean kv.2 = kv.2) kvs ->
  foldl assign m kvs = foldl (fun m kv => <[kv.1 := kv.2]> m) m kvs.
Proof.
  intros Hk. revert m. induction Hk as [|[k v] kvs [E1 E2] _ IH]; intros m; [done|]. simpl in *.
  unfold assign at 2. simpl. by rewrite E1, E2, IH.
Qed.

Lemma insert_all (kvs : list (list Z * list Z)) (m : gmap (list Z) (list Z)) : NoDup kvs.*1 ->
  (forall k, k ∈ kvs.*1 -> m !! k = None) ->
  foldl (fun m kv => <[kv.1 := kv.2]> m) m kvs = list_to_map kvs ∪ m.
Proof.
  revert m. induction kvs as [|[k v] kvs IH]; intros m Hnd Hm; simpl in *; [by rewrite (left_id_L ∅ (∪))|].
  apply NoDup_cons in Hnd as [Hk Hnd]. rewrite IH; [|done|].
  - rewrite <- insert_union_r by (by apply not_elem_of_list_to_map_1). by rewrite insert_union_l.
  - intros k' Hk'. rewrite lookup_insert_ne by (intros ->; done). apply Hm. set_solver.
Qed.

End Laws.

(** ** What is written is read *)

Lemma run_bind {S A B} (m : io S A) (k : A -> io S B) s a s' : m s = (Ret a, s') -> (m ≫= k) s = k a s'.
Proof. intros E. unfold mbind, io_mbind. by rewrite E. Qed.

Lemma fromHexChar_digit d : 0 <= d < 16 -> fromHexChar (hex_digit d) = Some d.
Proof.
  intros Hd. unfold hex_digit, fromHexChar. destruct (Z.ltb_spec d 10).
  - rewrite (proj2 (Z.leb_le 48 _)), (proj2 (Z.leb_le _ 57)) by lia. simpl. f_equal. lia.
  - rewrite (proj2 (Z.leb_gt (87 + d) 57)), (proj2 (Z.leb_le 97 _)), (proj2 (Z.leb_le _ 102)) by lia.
    rewrite andb_false_r. simpl. f_equal. lia.
Qed.

Lemma hex_roundtrip l : Forall byte_ok l -> hex_Decode (hex_Encode l) = inl l.
Proof.
  intros Hl. assert (Hlen : (length (hex_Encode l) = 2 * length l)%nat).
  { clear. unfold hex_Encode. induction l as [|c l IH]; [done|]. rewrite bind_cons, length_app, IH. simpl. lia. }
  assert (Hdec : decodeGeneric (hex_Encode l) = inl l).
  { clear Hlen. induction Hl as [|c l Hc _ IH]; [done|]. unfold hex_Encode in *. rewrite bind_cons. cbn [app decodeGeneric].
    unfold byte_ok in Hc.
    assert (E1 : Z.shiftr c 4 = c / 16) by (rewrite Z.shiftr_div_pow2; done || lia).
    assert (E2 : Z.land c 15 = c mod 16) by (change 15 with (Z.ones 4); rewrite Z.land_ones; done || lia).
    rewrite E1, E2, !fromHexChar_digit by (Z.to_euclidean_division_equations; lia). rewrite IH.
    f_equal. f_equal. rewrite Z.shiftl_mul_pow2 by lia. change (2 ^ 4) with 16.
      rewrite (Z.mod_small (c / 16 * 16)) by (Z.to_euclidean_division_equations; lia).
      assert (Hor : Z.lor (c / 16 * 16) (c mod 16) = c / 16 * 16 + c mod 16).
      { rewrite <- Z.add_lor_land. assert (Hla : Z.land (c / 16 * 16) (c mod 16) = 0); [|lia].
        change 16 with (2 ^ 4) at 2. rewrite <- Z.shiftl_mul_pow2 by lia.
        apply Z.bits_inj'. intros n Hn. rewrite Z.land_spec, Z.bits_0.
        destruct (decide (n < 4)); [by rewrite Z.shiftl_spec_low by lia|].
        change 16 with (2 ^ 4). rewrite (Z.mod_pow2_bits_high c 4 n) by lia. apply andb_false_r. }
      rewrite Hor. Z.to_euclidean_division_equations; lia. }
  unfold hex_Decode. rewrite Hlen, Nat.mul_comm, Nat.Div0.mod_mul, Hdec. done.
Qed.

(** Texts of characters other than NUL are kept as they are. *)
Lemma clean_id cps : Forall scalar cps -> ~ 0 ∈ cps -> clean (text cps) = text cps.
Proof.
  intros Hs H0. unfold clean, chars. rewrite runes_text by done. f_equal.
  induction cps as [|c cps IH]; [done|]. apply Forall_cons in Hs as [_ Hs].
  rewrite filter_cons, decide_True by set_solver. f_equal. apply IH; set_solver.
Qed.

Section Roundtrip.
Context `{GoStd} {R : Type} `{ReaderLaws R}.

(** C19: From any reader of the content of the constant that a slice of strings
    or of 64-bit integers is appended as, the scan functions read the strings
    (without NUL, invalid UTF-8 replaced) and the integers back, and nothing
    remains; this holds for a column in memory and for one that is still to come
    on the connection, of any size. *)
Theorem arrays_read (r : R) (ss : list (list Z)) (zs : list Z) (txt : list Z) (fuel : nat) (n : Z) :
  repr r txt -> (length txt < fuel)%nat -> n <> -1 -> Forall Strconv.int64_ok zs ->
  (content (Array KString (Some (Str <$> ss))) = Some txt ->
   exists r', scanStringArray fuel n r = (Ret (Some (clean <$> ss)), r') /\ repr r' []) /\
  (content (Array KInt64 (Some (Int <$> zs))) = Some txt ->
   exists r', scanInt64Array fuel n r = (Ret (Some zs), r') /\ decodeSliceInt fuel n r = (Ret (Some zs), r') /\ repr r' []).
Proof.
  intros Hr Hf Hn Hz. split; simpl.
  - intros E. assert (Ek : forallb (fun v => match v with Str _ => true | _ => false end) (Str <$> ss) = true)
      by (clear; induction ss; done). rewrite Ek in E.
    assert (Em : mapM elem_text (Str <$> ss) = Some (quoted_text <$> ss)).
    { clear. induction ss as [|s ss IH]; [done|]. cbn. rewrite IH. done. }
    rewrite Em in E. injection E as <-. unfold scanStringArray.
    destruct (scan_array_ok (fun elem => inl (default [] elem)) (quoted_text <$> ss) (clean <$> ss) fuel n r) as (r' & -> & Hr'); try done; [|eauto].
    clear. induction ss; constructor; [apply string_denotes|done].
  - intros E. assert (Ek : forallb (fun v => match v with Int _ => true | _ => false end) (Int <$> zs) = true)
      by (clear; induction zs; done). rewrite Ek in E.
    assert (Em : mapM elem_text (Int <$> zs) = Some ((fun z => Strconv.FormatInt z 10) <$> zs)).
    { clear. induction zs as [|s ss IH]; [done|]. cbn. rewrite IH. done. }
    rewrite Em in E. injection E as <-. unfold scanInt64Array, decodeSliceInt.
    destruct (scan_array_ok int_elem ((fun z => Strconv.FormatInt z 10) <$> zs) zs fuel n r) as (r' & -> & Hr'); try done; [|eauto].
    clear -Hz. induction Hz; constructor; [by apply int_denotes|done].
Qed.

(** C33: A map of strings without NUL that are valid UTF-8, appended as an hstore
    in whatever order the map is ranged over, is read back as the same map from
    any reader of the content of its constant. *)
Theorem hstore_read (r : R) (m : gmap (list Z) (list Z)) (kvs : list (list Z * list Z)) (txt : list Z) (fuel : nat) (n : Z) :
  kvs ≡ₚ map_to_list m -> map_Forall (fun k v => clean k = k /\ clean v = v) m ->
  content (Hstore (Some kvs)) = Some txt -> repr r txt -> (length txt < fuel)%nat -> n <> -1 ->
  exists r', scanMapStringString fuel n r = (Ret (Some m), r') /\ repr r' [].
Proof.
  intros Hkvs Hm [= <-] Hr Hf Hn. unfold scanMapStringString. rewrite (proj2 (Z.eqb_neq _ _)) by done.
  destruct (hstore_loop_reads kvs fuel ∅ Hf r Hr) as (r' & E & Hr'). exists r'. split; [|done].
  unfold mbind, io_mbind. rewrite E.
  assert (Hnd : NoDup kvs.*1) by (rewrite Hkvs; apply NoDup_fst_map_to_list).
  rewrite assign_all, insert_all; [|done|set_solver|].
  - rewrite (right_id_L ∅ (∪)). rewrite <- (list_to_map_to_list m). unfold mret, io_mret. do 3 f_equal.
    by apply list_to_map_proper.
  - apply Forall_forall. intros [k v] Hkv. rewrite Hkvs in Hkv. apply elem_of_map_to_list in Hkv. exact (Hm k v Hkv).
Qed.

(** A byte string is read back from the content of its constant, and an
    integer from its decimal digits at the width of the column: a number of
    another width is an error, it is never cut to fit. *)
Theorem scalars_read (r : R) (txt l : list Z) (z bits : Z) :
  repr r txt -> txt <> [] -> Forall byte_ok l -> Strconv.int64_ok z -> 0 < bits <= 64 ->
  (content (Bytes (Some l)) = Some txt ->
   exists r', ScanBytes (Z.of_nat (length txt)) r = (Ret (Some l), r') /\ repr r' []) /\
  (txt = Strconv.FormatInt z 10 ->
   exists r', scanInt64 (Z.of_nat (length txt)) bits r =
     (if (- 2 ^ (bits - 1) <=? z) && (z <? 2 ^ (bits - 1)) then Ret z else Fail (Errorf (bs "strconv: " ++ txt)), r') /\ repr r' []).
Proof.
  intros Hr Hne Hl Hz Hb. destruct (read_full_temp r txt Hr) as (r' & E & Hr').
  assert (Hpos : 0 < Z.of_nat (length txt)) by (destruct txt; [done|simpl; lia]). split.
  - intros [= <-]. exists r'. split; [|done]. unfold ScanBytes.
    rewrite (proj2 (Z.eqb_neq _ (-1))), (proj2 (Z.eqb_neq _ 0)) by lia.
    rewrite (run_bind _ _ r l r'); [done|]. unfold ReadBytes.
    rewrite (run_bind _ _ _ _ _ E). cbn [length app Nat.ltb Nat.leb lookup list_lookup drop].
    rewrite !bool_decide_true by done. cbn [negb orb].
    assert (Hq : Z.quot (Z.of_nat (length (bsl :: 120 :: hex_Encode l)) - 2) 2 = Z.of_nat (length (hex_Encode l)) / 2).
    { cbn [length]. rewrite Z.quot_div_nonneg by lia. f_equal. lia. }
    cbn [length] in Hq. rewrite Hq, Z.eqb_refl. cbn [negb]. unfold drop. rewrite hex_roundtrip by done. done.
  - intros ->. exists r'. split; [|done]. unfold scanInt64, scan_num. rewrite (proj2 (Z.leb_gt _ _)) by lia.
    rewrite (run_bind _ _ _ _ _ E). unfold ParseIntBits. rewrite Strconv.ParseInt_FormatInt by (done || lia).
    by destruct (_ && _).
Qed.

End Roundtrip.

Lemma arrays_read_witness :
  exists r', scanStringArray 100 30 (NewBytesReader (default [] (content (Array KString (Some (Str <$> [bs "a,}"; [34; 92; 0; 39]])))))) =
    (Ret (Some (clean <$> [bs "a,}"; [34; 92; 0; 39]])), r') /\ repr r' [].
Proof.
  set (txt := default [] (content (Array KString (Some (Str <$> [bs "a,}"; [34; 92; 0; 39]]))))).
  assert (Hr : repr (NewBytesReader txt) txt) by (split; [simpl; lia|done]).
  destruct (arrays_read (NewBytesReader txt) [bs "a,}"; [34; 92; 0; 39]] [] txt 100 30 Hr) as [Hs _];
    [vm_compute; lia|done|constructor|].
  apply Hs. vm_compute. reflexivity.
Defined.

Lemma scalars_read_witness :
  exists r', ScanBytes 6 (NewBytesReader (bs "\x00ff")) = (Ret (Some [0; 255]), r') /\ repr r' [].
Proof.
  assert (Hr : repr (NewBytesReader (bs "\x00ff")) (bs "\x00ff")) by (split; [simpl; lia|done]).
  destruct (scalars_read (NewBytesReader (bs "\x00ff")) (bs "\x00ff") [0; 255] 0 16 Hr) as [Hs _];
    [vm_compute; discriminate|repeat constructor; lia|split; vm_compute; discriminate|lia|].
  apply Hs. vm_compute. reflexivity.
Defined.

Lemma hstore_read_witness :
  exists r', scanMapStringString 100 7 (NewBytesReader (default [] (content (Hstore (Some [(bs "k", bs "v")]))))) =
    (Ret (Some {[ bs "k" := bs "v" ]}), r') /\ repr r' [].
Proof.
  set (txt := default [] (content (Hstore (Some [(bs "k", bs "v")])))).
  apply (hstore_read (NewBytesReader txt) {[ bs "k" := bs "v" ]} [(bs "k", bs "v")] txt).
  - by rewrite map_to_list_singleton.
  - apply map_Forall_singleton. vm_compute. done.
  - vm_compute. reflexivity.
  - split; [simpl; lia|done].
  - vm_compute. lia.
  - done.
Defined.

(** ** Concrete columns *)

Definition run_elems (s : list Z) : go err (list (option (list Z))) :=
  match newArrayParser (NewBytesReader s) with
  | Ret p => (elems_loop 100 (fun e => inl e) [] p).1
  | _ => Panic
  end.

(** An empty string that comes first is a nil slice, which the scan functions
    take for NULL; the same string in another place is not. *)
Example first_empty_ex : run_elems [123; 34; 34; 44; 34; 97; 34; 44; 34; 34; 125] = Ret [None; Some [97]; Some []].
Proof. vm_compute. reflexivity. Qed.

(** A nested array ends at its first brace, so three dimensions are not read. *)
Example sub_array_ex : run_elems (bs "{{1,2},{3}}") = Ret [Some (bs "{1,2}"); Some (bs "{3}")].
Proof. vm_compute. reflexivity. Qed.
Example three_dims_ex :
  run_elems (bs "{{{1}}}") = Ret [Some (bs "{{1}")].
Proof. vm_compute. reflexivity. Qed.

(** NULL values of an hstore are errors. *)
Example hstore_null_ex : (scanMapStringString 100 10 (NewBytesReader ([34; 107; 34] ++ bs "=>NULL"))).1 =
  Fail (got_wanted 78 [34]).
Proof. vm_compute. reflexivity. Qed.

End PgScan.
