(* ===== verification/PgWire.v ===== *)
(** * The wire protocol ([src/upg/messages.go], [internal/pool/write_buffer.go], [result.go])

    The messages the client writes, with their length fields patched in after
    the body, and the loops that read the answers of the server: every loop
    reads a type and a length and then looks at the type. The theorems say that
    a message is framed as the protocol wants it and that the reading loops take
    from the connection exactly the messages up to the one that ends the answer,
    whatever errors the server reports and whatever the client's column scanners
    do, so that the next query starts at the next message. *)
From stdpp Require Import base numbers list sets strings.
From S2P Require Import Prelude Strconv PgReader PgAppend PgScan.
#[local] Open Scope Z_scope.

Module PgWire.
Import PgReader.

(** ** Numbers in network order *)

Definition be16 (z : Z) : list Z := [(z / 256) mod 256; z mod 256].
Definition be32 (z : Z) : list Z := [(z / 16777216) mod 256; (z / 65536) mod 256; (z / 256) mod 256; z mod 256].
Definition int16 (l : list Z) : Z :=
  match l with [a; b] => let u := a * 256 + b in if u <? 2 ^ 15 then u else u - 2 ^ 16 | _ => 0 end.
Definition int32 (l : list Z) : Z :=
  match l with
  | [a; b; c; d] => let u := a * 16777216 + b * 65536 + c * 256 + d in if u <? 2 ^ 31 then u else u - 2 ^ 32
  | _ => 0
  end.

Lemma int32_be32 z : - 2 ^ 31 <= z < 2 ^ 31 -> int32 (be32 z) = z.
Proof.
  intros Hz. unfold int32, be32.
  set (u := _ + _ + _ + z mod 256).
  assert (Hu : u = z mod 2 ^ 32).
  { unfold u. change (2 ^ 32) with 4294967296. Z.to_euclidean_division_equations. lia. }
  rewrite Hu. destruct (Z.ltb_spec (z mod 2 ^ 32) (2 ^ 31)); Z.to_euclidean_division_equations; lia.
Qed.
Lemma int16_be16 z : - 2 ^ 15 <= z < 2 ^ 15 -> int16 (be16 z) = z.
Proof.
  intros Hz. unfold int16, be16. set (u := _ + z mod 256).
  assert (Hu : u = z mod 2 ^ 16) by (unfold u; change (2 ^ 16) with 65536; Z.to_euclidean_division_equations; lia).
  rewrite Hu. destruct (Z.ltb_spec (z mod 2 ^ 16) (2 ^ 15)); Z.to_euclidean_division_equations; lia.
Qed.

(** ** The write buffer *)

Record WriteBuffer := Wb { Bytes : list Z; msgStart : nat; paramStart : nat }.

Definition NewWriteBuffer : WriteBuffer := Wb [] 0 0.
Definition Wb_Reset (wb : WriteBuffer) : WriteBuffer := Wb [] (msgStart wb) (paramStart wb).
Definition append (l : list Z) (wb : WriteBuffer) : WriteBuffer := Wb (Bytes wb ++ l) (msgStart wb) (paramStart wb).

(** [binary.BigEndian.PutUint32(buf.Bytes[i:], ...)] *)
Definition put32 (i : nat) (z : Z) (wb : WriteBuffer) : WriteBuffer :=
  Wb (store (Bytes wb) i (be32 z)) (msgStart wb) (paramStart wb).

Definition StartMessage (c : Z) (wb : WriteBuffer) : WriteBuffer :=
  if c =? 0 then Wb (Bytes wb ++ [0; 0; 0; 0]) (length (Bytes wb)) (paramStart wb)
  else Wb (Bytes wb ++ [c; 0; 0; 0; 0]) (length (Bytes wb) + 1) (paramStart wb).
Definition FinishMessage (wb : WriteBuffer) : WriteBuffer :=
  put32 (msgStart wb) (Z.of_nat (length (Bytes wb) - msgStart wb)) wb.
Definition Query (wb : WriteBuffer) : list Z := seg (Bytes wb) (msgStart wb + 4) (length (Bytes wb) - 1).
Definition StartParam (wb : WriteBuffer) : WriteBuffer :=
  Wb (Bytes wb ++ [0; 0; 0; 0]) (msgStart wb) (length (Bytes wb)).
Definition FinishParam (wb : WriteBuffer) : WriteBuffer :=
  put32 (paramStart wb) (Z.of_nat (length (Bytes wb) - paramStart wb - 4)) wb.
Definition FinishNullParam (wb : WriteBuffer) : WriteBuffer := put32 (paramStart wb) (-1) wb.
Definition WriteInt16 (z : Z) : WriteBuffer -> WriteBuffer := append (be16 z).
Definition WriteInt32 (z : Z) : WriteBuffer -> WriteBuffer := append (be32 z).
Definition WriteString (s : list Z) (wb : WriteBuffer) : WriteBuffer := append [0] (append s wb).
Definition WriteBytes (s : list Z) (wb : WriteBuffer) : WriteBuffer := append [0] (append s wb).
Definition WriteByte (c : Z) : WriteBuffer -> WriteBuffer := append [c].
Definition Write (l : list Z) : WriteBuffer -> WriteBuffer := append l.

(** [ReadFrom]: one read into the room that the buffer has left. *)
Definition ReadFrom {C} `{Source C} (capacity : nat) (r : C) (wb : WriteBuffer) : Z * option err * C * WriteBuffer :=
  match conn_read r (capacity - length (Bytes wb)) with
  | (p, e, r') => (Z.of_nat (length p), e, r', append p wb)
  end.

(** ** Messages of the client *)

Definition writeStartupMsg (user database appName : list Z) (wb : WriteBuffer) : WriteBuffer :=
  let wb := StartMessage 0 wb in
  let wb := WriteInt32 196608 wb in
  let wb := WriteString user (WriteString (bs "user") wb) in
  let wb := WriteString database (WriteString (bs "database") wb) in
  let wb := match appName with [] => wb | _ => WriteString appName (WriteString (bs "application_name") wb) end in
  FinishMessage (WriteString [] wb).

Definition writeSSLMsg (wb : WriteBuffer) : WriteBuffer := FinishMessage (WriteInt32 80877103 (StartMessage 0 wb)).
Definition writePasswordMsg (password : list Z) (wb : WriteBuffer) : WriteBuffer :=
  FinishMessage (WriteString password (StartMessage 112 wb)).
Definition writeFlushMsg (wb : WriteBuffer) : WriteBuffer := FinishMessage (StartMessage 72 wb).
Definition writeCancelRequestMsg (processID secretKey : Z) (wb : WriteBuffer) : WriteBuffer :=
  FinishMessage (WriteInt32 secretKey (WriteInt32 processID (WriteInt32 80877102 (StartMessage 0 wb)))).
Definition writeSyncMsg (wb : WriteBuffer) : WriteBuffer := FinishMessage (StartMessage 83 wb).
Definition writeParseDescribeSyncMsg (name q : list Z) (wb : WriteBuffer) : WriteBuffer :=
  let wb := FinishMessage (WriteInt16 0 (WriteString q (WriteString name (StartMessage 80 wb)))) in
  let wb := FinishMessage (WriteString name (WriteByte 83 (StartMessage 68 wb))) in
  writeSyncMsg wb.
Definition writeCloseMsg (name : list Z) (wb : WriteBuffer) : WriteBuffer :=
  FinishMessage (WriteString name (WriteByte 83 (StartMessage 67 wb))).
Definition writeCopyData {C} `{Source C} (capacity : nat) (r : C) (wb : WriteBuffer) : option err * C * WriteBuffer :=
  let '(_, e, r', wb) := ReadFrom capacity r (StartMessage 100 wb) in (e, r', FinishMessage wb).
Definition writeCopyDone (wb : WriteBuffer) : WriteBuffer := FinishMessage (StartMessage 99 wb).

(** [writeQueryMsg] with the query that [appendQuery] appends, or its error. *)
Definition writeQueryMsg (appendQuery : list Z -> list Z + err) (wb : WriteBuffer) : WriteBuffer + err :=
  let wb := StartMessage 81 wb in
  match appendQuery (Bytes wb) with
  | inl bytes => inl (FinishMessage (WriteByte 0 (Wb bytes (msgStart wb) (paramStart wb))))
  | inr e => inr e
  end.

Section Bind.
Context `{PgAppend.GoStd}.

(** The parameters of a prepared statement; [None] is a panic of a value. *)
Fixpoint write_params (params : list PgAppend.value) (wb : WriteBuffer) : option WriteBuffer :=
  match params with
  | [] => Some wb
  | param :: params' =>
      let wb := StartParam wb in
      match PgAppend.Append (Bytes wb) param 0 with
      | None => None
      | Some (Some bytes) => write_params params' (FinishParam (Wb bytes (msgStart wb) (paramStart wb)))
      | Some None => write_params params' (FinishNullParam wb)
      end
  end.

Definition writeBindExecuteMsg (name : list Z) (params : list PgAppend.value) (wb : WriteBuffer) : option WriteBuffer :=
  let wb := StartMessage 66 wb in
  let wb := WriteInt16 0 (WriteString name (WriteString [] wb)) in
  match write_params params (WriteInt16 (Z.of_nat (length params)) wb) with
  | None => None
  | Some wb =>
      let wb := FinishMessage (WriteInt16 0 wb) in
      let wb := FinishMessage (WriteInt32 0 (WriteString [] (StartMessage 69 wb))) in
      Some (writeSyncMsg wb)
  end.
End Bind.

(** ** The frames of the protocol *)

Definition frame (c : Z) (body : list Z) : list Z := c :: be32 (Z.of_nat (length body) + 4) ++ body.
Definition cstring (s : list Z) : list Z := s ++ [0].

Lemma store_mid (a x y b : list Z) : length x = length y -> store (a ++ x ++ b) (length a) y = a ++ y ++ b.
Proof.
  intros Hl. unfold store. rewrite take_app_length. f_equal. f_equal.
  rewrite <- drop_drop, drop_app_length, <- Hl. apply drop_app_length.
Qed.

(** Any writes between the start and the end of a message. *)
Lemma framed c body wb wb' : c <> 0 -> wb' = append body (StartMessage c wb) ->
  Bytes (FinishMessage wb') = Bytes wb ++ frame c body /\ paramStart (FinishMessage wb') = paramStart wb.
Proof.
  intros Hc ->. unfold FinishMessage, put32, append, StartMessage. rewrite (proj2 (Z.eqb_neq _ _)) by done.
  cbn [Bytes msgStart paramStart]. split; [|done].
  rewrite !length_app. cbn [length].
  replace (length (Bytes wb) + 5 + length body - (length (Bytes wb) + 1))%nat with (length body + 4)%nat by lia.
  replace ((Bytes wb ++ [c; 0; 0; 0; 0]) ++ body) with ((Bytes wb ++ [c]) ++ [0; 0; 0; 0] ++ body) by (by rewrite <- !app_assoc).
  replace (length (Bytes wb) + 1)%nat with (length (Bytes wb ++ [c])) by (rewrite length_app; done).
  rewrite store_mid by done. unfold frame. rewrite <- app_assoc. simpl. rewrite Nat2Z.inj_add. done.
Qed.

Lemma FinishMessage_ext w w' : Bytes w = Bytes w' -> msgStart w = msgStart w' -> Bytes (FinishMessage w) = Bytes (FinishMessage w').
Proof. intros E1 E2. unfold FinishMessage, put32. cbn [Bytes]. by rewrite E1, E2. Qed.

Lemma append_append l1 l2 wb : append l2 (append l1 wb) = append (l1 ++ l2) wb.
Proof. unfold append. simpl. by rewrite <- app_assoc. Qed.
Lemma append_nil wb : append [] wb = wb.
Proof. destruct wb. unfold append. simpl. by rewrite app_nil_r. Qed.

(** A parameter is its length and its text, or the length -1 alone. *)
Definition param_text (t : option (list Z)) : list Z :=
  match t with Some t => be32 (Z.of_nat (length t)) ++ t | None => be32 (-1) end.

Lemma start_param_text t wb : length (Bytes wb) = paramStart (StartParam wb) ->
  FinishParam (Wb (Bytes (StartParam wb) ++ t) (msgStart wb) (length (Bytes wb))) =
    Wb (Bytes wb ++ param_text (Some t)) (msgStart wb) (length (Bytes wb)).
Proof.
  intros _. unfold FinishParam, put32, StartParam. cbn [Bytes msgStart paramStart]. f_equal.
  rewrite <- app_assoc, store_mid by done. unfold param_text. do 4 f_equal.
  rewrite !length_app. cbn [length]. lia.
Qed.

Section BindFrames.
Context `{PgAppend.GoStd}.

(** What a value appends without quotes, [None] for NULL. *)
Definition param_is (v : PgAppend.value) (t : option (list Z)) : Prop :=
  forall b, PgAppend.Append b v 0 = Some (match t with Some t => Some (b ++ t) | None => None end).

Lemma write_params_eq params ts wb : Forall2 param_is params ts ->
  exists wb', write_params params wb = Some wb' /\ Bytes wb' = Bytes wb ++ concat (param_text <$> ts) /\ msgStart wb' = msgStart wb.
Proof.
  intros Hp. revert wb. induction Hp as [|v t params ts Hv _ IH]; intros wb.
  { exists wb. by rewrite app_nil_r. }
  cbn [write_params]. rewrite Hv. destruct t as [t|].
  - cbn [msgStart paramStart StartParam]. rewrite start_param_text by done.
    destruct (IH (Wb (Bytes wb ++ param_text (Some t)) (msgStart wb) (length (Bytes wb)))) as (wb' & -> & HB & HM).
    exists wb'. split; [done|]. split; [|done]. rewrite HB. simpl. by rewrite <- app_assoc.
  - set (w1 := FinishNullParam (StartParam wb)).
    assert (Hw : Bytes w1 = Bytes wb ++ param_text None).
    { unfold w1, FinishNullParam, put32, StartParam. cbn [Bytes paramStart]. 
      rewrite <- (app_nil_r [0; 0; 0; 0]), (store_mid (Bytes wb) [0; 0; 0; 0] (be32 (-1)) []) by done. by rewrite app_nil_r. }
    destruct (IH w1) as (wb' & -> & HB & HM). exists wb'. split; [done|]. split; [|done].
    rewrite HB, Hw. simpl. by rewrite <- app_assoc.
Qed.

(** NULLs, numbers, truth values, strings and byte strings have a text of their own. *)
Lemma param_is_scalar (v : PgAppend.value) :
  match v with
  | PgAppend.Nil | PgAppend.Ptr None | PgAppend.Bytes None => param_is v None
  | PgAppend.Bool x => param_is v (Some (PgAppend.appendBool [] x))
  | PgAppend.Int z => param_is v (Some (Strconv.FormatInt z 10))
  | PgAppend.Uint z => param_is v (Some (Strconv.FormatUint z 10))
  | PgAppend.Str s => param_is v (Some (PgAppend.clean s))
  | PgAppend.Bytes (Some l) => param_is v (Some ([92; 120] ++ PgAppend.hex_Encode l))
  | _ => True
  end.
Proof.
  destruct v as [| | | | |s| |[l|]|[?|]| | | | | | | | | | | | | |]; try done; intros b; unfold PgAppend.Append; cbn [PgAppend.append_at].
  - unfold PgAppend.AppendString, PgAppend.some.
    change (PgAppend.hasFlag 0 PgAppend.arrayFlag) with false. change (PgAppend.hasFlag 0 PgAppend.quoteFlag) with false. cbv iota. do 2 f_equal. rewrite (PgAppend.foldl_append _ (fun c => if c =? 0 then [] else PgAppend.appendRune [] c)).
    + rewrite (PgAppend.bind_chars (PgAppend.appendRune [])). exact (f_equal (app b) (PgAppend.bind_text _)).
    + intros b' c. case_match; [by rewrite app_nil_r|done].
  - unfold PgAppend.AppendBytes.
    change (PgAppend.hasFlag 0 PgAppend.arrayFlag) with false. change (PgAppend.hasFlag 0 PgAppend.quoteFlag) with false. cbv iota zeta.
    by rewrite <- app_assoc.
Qed.

(** C34: The extended query is written as the three messages Bind, Execute and
    Sync of the protocol, each with the length of its body, and in Bind every
    parameter with the length of its text or -1 for NULL, when every parameter
    appends a text of its own or is NULL, as [param_is_scalar] shows of scalars. An
    array with a NULL in it does not; lengths are written modulo their width. *)
Theorem writeBindExecuteMsg_frames (name : list Z) (params : list PgAppend.value) (ts : list (option (list Z))) (wb : WriteBuffer) :
  Forall2 param_is params ts ->
  exists wb', writeBindExecuteMsg name params wb = Some wb' /\
    Bytes wb' = Bytes wb ++
      frame 66 (cstring [] ++ cstring name ++ be16 0 ++ be16 (Z.of_nat (length params)) ++ concat (param_text <$> ts) ++ be16 0) ++
      frame 69 (cstring [] ++ be32 0) ++ frame 83 [].
Proof.
  intros Hp. unfold writeBindExecuteMsg.
  set (wb0 := WriteInt16 (Z.of_nat (length params)) _).
  destruct (write_params_eq params ts wb0 Hp) as (wb1 & -> & HB1 & HM1). eexists. split; [done|].
  set (body := cstring [] ++ cstring name ++ be16 0 ++ be16 (Z.of_nat (length params)) ++ concat (param_text <$> ts) ++ be16 0).
  assert (E1 : Bytes (FinishMessage (WriteInt16 0 wb1)) = Bytes wb ++ frame 66 body).
  { transitivity (Bytes (FinishMessage (append body (StartMessage 66 wb)))); [|by apply framed].
    apply FinishMessage_ext; [|done]. unfold WriteInt16 at 1. cbn [Bytes append].
    rewrite HB1. unfold wb0, WriteInt16, WriteString, append, body, cstring. cbn [Bytes]. by rewrite <- !app_assoc. }
  set (wb2 := FinishMessage (WriteInt16 0 wb1)) in *.
  assert (E2 : Bytes (FinishMessage (WriteInt32 0 (WriteString [] (StartMessage 69 wb2)))) = Bytes wb2 ++ frame 69 (cstring [] ++ be32 0)).
  { apply framed; [done|]. unfold WriteInt32, WriteString. by rewrite !append_append. }
  set (wb3 := FinishMessage (WriteInt32 0 _)) in *.
  assert (E3 : Bytes (writeSyncMsg wb3) = Bytes wb3 ++ frame 83 []) by (apply framed; [done|by rewrite append_nil]).
  by rewrite E3, E2, E1, <- !app_assoc.
Qed.
End BindFrames.

(** ** Messages of the server *)

Record ColumnInfo := Col { Index : Z; DataType : Z; Name : list Z }.

Section Reads.
Context {C : Type} `{Source C}.
Abbreviation rd := (io (BufReader C)).

Definition readN (n : Z) : rd (list Z) := checked (ReadN n).
Definition readInt16 : rd Z := b ← readN 2; mret (int16 b).
Definition readInt32 : rd Z := b ← readN 4; mret (int32 b).
Definition readString : rd (list Z) := b ← checked (ReadSlice 0); mret (take (length b - 1) b).

Fixpoint error_loop (fuel : nat) (m : list (Z * list Z)) : rd (list (Z * list Z)) :=
  match fuel with
  | O => out_of_fuel
  | S fuel' =>
      c ← ReadByte;
      if c =? 0 then mret m else (s ← readString; error_loop fuel' (m ++ [(c, s)]))
  end.
(** [readError]: the error the server sent. *)
Definition readError (fuel : nat) : rd err := m ← error_loop fuel []; mret (PGError m).

Definition readMessageType : rd (Z * Z) := c ← ReadByte; l ← readInt32; mret (c, l - 4).
Definition logNotice (msgLen : Z) : rd unit := _ ← readN msgLen; mret tt.
Definition logParameterStatus (msgLen : Z) : rd unit := _ ← readN msgLen; mret tt.

(** [for { c, msgLen, err := readMessageType(rd); ...; switch c { ... } }]: the body
    of the switch goes on with a new state or returns. *)
Fixpoint messages {St Res : Type} (fuel : nat) (handle : St -> Z -> Z -> rd (St + Res)) (st : St) : rd Res :=
  match fuel with
  | O => out_of_fuel
  | S fuel' =>
      '(c, msgLen) ← readMessageType;
      r ← handle st c msgLen;
      match r with inl st => messages fuel' handle st | inr res => mret res end
  end.

(** *** Results *)

Record result := Res { affected : Z; returned_ : Z }.

(** [bytes.LastIndexByte] *)
Definition LastIndexByte (l : list Z) (c : Z) : option nat :=
  match IndexByte (rev l) c with Some i => Some (length l - 1 - i)%nat | None => None end.

(** [result.parse]; [None] is the panic of the slice expression when the tag ends
    with a space. *)
Definition parse (res : result) (b : list Z) : option result :=
  match LastIndexByte b 32 with
  | None => Some (Res (-1) (returned_ res))
  | Some ind =>
      if (length b - 1 <? ind + 1)%nat then None
      else match PgScan.atoi (seg b (ind + 1) (length b - 1)) with
           | inl n => Some (Res n (returned_ res))
           | inr _ => Some (Res (-1) (returned_ res))
           end
  end.
Definition parse_cmd (res : result) (b : list Z) : rd result :=
  match parse res b with Some res => mret res | None => panic end.

(** The state of the loops of queries: the result and the first error. *)
Definition qstate : Type := result * option err.
Definition first (st : qstate) (e : err) : qstate := (st.1, match st.2 with None => Some e | Some e0 => Some e0 end).
Definition ended (st : qstate) : rd (qstate + result) := match st.2 with Some e => fail e | None => mret (inr st.1) end.
Definition count_row (st : qstate) : qstate := (Res (affected st.1) (returned_ st.1 + 1), st.2).
Definition errEmptyQuery : err := Errorf (bs "pg: query is empty").
Definition unexpected (c : Z) : err := Errorf (bs "unexpected message " ++ [c]).

(** The cases common to the loops; [None] for another type. *)
Definition notices (c msgLen : Z) : option (rd unit) :=
  if c =? 78 then Some (logNotice msgLen)
  else if c =? 83 then Some (logParameterStatus msgLen)
  else None.

Definition simple_query (fuel : nat) (st : qstate) (c msgLen : Z) : rd (qstate + result) :=
  if c =? 67 then (b ← readN msgLen; res ← parse_cmd st.1 b; mret (inl (res, st.2)))
  else if c =? 90 then (_ ← readN msgLen; ended st)
  else if c =? 84 then (_ ← readN msgLen; mret (inl st))
  else if c =? 68 then (_ ← checked (Discard msgLen); mret (inl (count_row st)))
  else if c =? 69 then (e ← readError fuel; mret (inl (first st e)))
  else if c =? 73 then mret (inl (first st errEmptyQuery))
  else match notices c msgLen with
       | Some m => (_ ← m; mret (inl st))
       | None => fail (unexpected c)
       end.
Definition readSimpleQuery (fuel : nat) : rd result := messages fuel (simple_query fuel) (Res 0 0, None).

Definition ext_query (fuel : nat) (st : qstate) (c msgLen : Z) : rd (qstate + result) :=
  if c =? 50 then (_ ← readN msgLen; mret (inl st))
  else if c =? 68 then (_ ← readN msgLen; mret (inl (count_row st)))
  else if c =? 67 then (b ← readN msgLen; res ← parse_cmd st.1 b; mret (inl (res, st.2)))
  else if c =? 90 then (_ ← readN msgLen; ended st)
  else if c =? 69 then (e ← readError fuel; mret (inl (first st e)))
  else if c =? 73 then mret (inl (first st errEmptyQuery))
  else match notices c msgLen with
       | Some m => (_ ← m; mret (inl st))
       | None => fail (unexpected c)
       end.
Definition readExtQuery (fuel : nat) : rd result := messages fuel (ext_query fuel) (Res 0 0, None).

Definition ready_for_query (fuel : nat) (st : qstate) (c msgLen : Z) : rd (qstate + result) :=
  if c =? 67 then (b ← readN msgLen; res ← parse_cmd st.1 b; mret (inl (res, st.2)))
  else if c =? 90 then (_ ← readN msgLen; ended st)
  else if c =? 69 then (e ← readError fuel; mret (inl (first st e)))
  else match notices c msgLen with
       | Some m => (_ ← m; mret (inl st))
       | None => fail (unexpected c)
       end.
Definition readReadyForQuery (fuel : nat) : rd result := messages fuel (ready_for_query fuel) (Res 0 0, None).

End Reads.

(** *** Rows for a model of the client *)

(** A model scans a column from any reader, which may fail, and takes a row that
    was scanned. *)
Class Model (M : Type) := {
  NextColumnScanner : M -> M;
  ScanColumn : forall {R : Type} `{Reader R}, M -> ColumnInfo -> Z -> io R (M * option err);
  AddColumnScanner : M -> M * option err;
  newModel : M + err;
  ModelDiscard : M
}.

Section Rows.
Context {C : Type} `{Source C} {M : Type} `{Model M}.
Abbreviation rd := (io (BufReader C)).

Definition get_state : rd (BufReader C) := fun b => (Ret b, b).
Definition set_available (n : Z) : rd unit := fun b => (Ret tt, SetAvailable n b).

(** The scan of one column from a reader of its own. *)
Definition scan_window (m : M) (col : ColumnInfo) (n : Z) : rd (M * option err) := fun b =>
  match BufReader_BytesReader n b with
  | (Ret br, b') =>
      match ScanColumn m col n br with
      | (Ret x, _) => (Ret x, b')
      | (Fail e, _) => (Fail e, b')
      | (Panic, _) => (Panic, b')
      | (OutOfFuel, _) => (OutOfFuel, b')
      end
  | (Fail e, b') => (Fail e, b')
  | (Panic, b') => (Panic, b')
  | (OutOfFuel, b') => (OutOfFuel, b')
  end.

Definition or_first (firstErr : option err) (e : option err) : option err :=
  match firstErr with Some _ => firstErr | None => e end.

(** A column of [n] bytes, or NULL when [n] is -1. *)
Definition read_column (columns : list ColumnInfo) (colIdx : nat) (m : M) (firstErr : option err) (n : Z) : rd (M * option err) :=
  b ← get_state;
  if n <=? BufReader_Buffered b then
    match columns !! colIdx with
    | None => panic
    | Some column =>
        '(m, e) ← scan_window m column n;
        mret (m, or_first firstErr (Wrapped <$> e))
    end
  else
    _ ← set_available n;
    match columns !! colIdx with
    | None => panic
    | Some column =>
        '(m, e) ← ScanColumn m column n;
        let firstErr := or_first firstErr (Wrapped <$> e) in
        b ← get_state;
        firstErr ← (if 0 <? available b then
                      ('(_, e) ← Discard (available b); mret (or_first firstErr e))
                    else mret firstErr);
        _ ← set_available (-1);
        mret (m, firstErr)
    end.

Fixpoint columns_loop (k : nat) (columns : list ColumnInfo) (colIdx : nat) (m : M) (firstErr : option err) : rd (M * option err) :=
  match k with
  | O => mret (m, firstErr)
  | S k' =>
      r ← try readInt32;
      match r with
      | inr e => mret (m, Some e)
      | inl n => '(m, firstErr) ← read_column columns colIdx m firstErr n; columns_loop k' columns (S colIdx) m firstErr
      end
  end.

(** [readDataRow]: the scanner with what it took of the row, and the error that the
    caller keeps while it goes on with the next message. *)
Definition readDataRow (columns : list ColumnInfo) (m : M) : rd (M * option err) :=
  r ← try readInt16;
  match r with
  | inr e => mret (m, Some e)
  | inl numCol => columns_loop (Z.to_nat numCol) columns 0 m None
  end.

(** [readRowDescription] *)
Fixpoint description_loop (k : nat) (i : Z) (acc : list ColumnInfo) : rd (list ColumnInfo) :=
  match k with
  | O => mret acc
  | S k' =>
      b ← checked (ReadSlice 0);
      _ ← readN 6;
      dataType ← readInt32;
      _ ← readN 8;
      description_loop k' (i + 1) (acc ++ [Col i dataType (take (length b - 1) b)])
  end.
Definition readRowDescription (alloc : list ColumnInfo) : rd (list ColumnInfo) :=
  numCol ← readInt16; description_loop (Z.to_nat numCol) 0 alloc.

(** The loops of queries with a model: the columns, the model, the result and the
    first error. *)
Record dstate := Ds { d_columns : list ColumnInfo; d_model : option M; d_res : result; d_err : option err }.

Definition d_first (st : dstate) (e : err) : dstate :=
  Ds (d_columns st) (d_model st) (d_res st) (or_first (d_err st) (Some e)).
Definition with_model (st : dstate) : dstate :=
  match d_model st with
  | Some _ => st
  | None =>
      match newModel with
      | inl m => Ds (d_columns st) (Some m) (d_res st) (d_err st)
      | inr e => Ds (d_columns st) (Some ModelDiscard) (d_res st) (or_first (d_err st) (Some e))
      end
  end.

Definition read_row (st : dstate) : rd dstate :=
  match d_model st with
  | None => panic
  | Some m =>
      '(m, e) ← readDataRow (d_columns st) (NextColumnScanner m);
      let '(m, e) := match e with Some e => (m, Some e) | None => AddColumnScanner m end in
      mret (Ds (d_columns st) (Some m) (Res (affected (d_res st)) (returned_ (d_res st) + 1)) (or_first (d_err st) e))
  end.

Definition d_parse (st : dstate) (b : list Z) : rd dstate :=
  res ← parse_cmd (d_res st) b; mret (Ds (d_columns st) (d_model st) res (d_err st)).
Definition d_ended (st : dstate) : rd (dstate + result * option M) :=
  match d_err st with Some e => fail e | None => mret (inr (d_res st, d_model st)) end.

Definition simple_query_data (fuel : nat) (st : dstate) (c msgLen : Z) : rd (dstate + result * option M) :=
  if c =? 84 then
    (cols ← readRowDescription (d_columns st);
     mret (inl (with_model (Ds cols (d_model st) (d_res st) (d_err st)))))
  else if c =? 68 then (st ← read_row st; mret (inl st))
  else if c =? 67 then (b ← readN msgLen; st ← d_parse st b; mret (inl st))
  else if c =? 90 then (_ ← readN msgLen; d_ended st)
  else if c =? 69 then (e ← readError fuel; mret (inl (d_first st e)))
  else if c =? 73 then mret (inl (d_first st errEmptyQuery))
  else match notices c msgLen with
       | Some m => (_ ← m; mret (inl st))
       | None => fail (unexpected c)
       end.
Definition readSimpleQueryData (fuel : nat) : rd (result * option M) :=
  messages fuel (simple_query_data fuel) (Ds [] None (Res 0 0) None).

Definition ext_query_data (fuel : nat) (st : dstate) (c msgLen : Z) : rd (dstate + result * option M) :=
  if c =? 50 then (_ ← readN msgLen; mret (inl st))
  else if c =? 68 then (st ← read_row (with_model st); mret (inl st))
  else if c =? 67 then (b ← readN msgLen; st ← d_parse st b; mret (inl st))
  else if c =? 90 then (_ ← readN msgLen; d_ended st)
  else if c =? 69 then (e ← readError fuel; mret (inl (d_first st e)))
  else match notices c msgLen with
       | Some m => (_ ← m; mret (inl st))
       | None => fail (unexpected c)
       end.
Definition readExtQueryData (fuel : nat) (columns : list ColumnInfo) : rd (result * option M) :=
  messages fuel (ext_query_data fuel) (Ds columns None (Res 0 0) None).

End Rows.

(** *** The other loops *)

Section Others.
Context {C : Type} `{Source C}.
Abbreviation rd := (io (BufReader C)).

Definition parse_describe (fuel : nat) (st : list ColumnInfo * option err) (c msgLen : Z) :
    rd (list ColumnInfo * option err + list ColumnInfo) :=
  if (c =? 49) || (c =? 116) || (c =? 110) then (_ ← readN msgLen; mret (inl st))
  else if c =? 84 then (cols ← readRowDescription []; mret (inl (cols, st.2)))
  else if c =? 90 then (_ ← readN msgLen; match st.2 with Some e => fail e | None => mret (inr st.1) end)
  else if c =? 69 then (e ← readError fuel; mret (inl (st.1, or_first st.2 (Some e))))
  else match notices c msgLen with
       | Some m => (_ ← m; mret (inl st))
       | None => fail (unexpected c)
       end.
Definition readParseDescribeSync (fuel : nat) : rd (list ColumnInfo) := messages fuel (parse_describe fuel) ([], None).

Definition close_complete (fuel : nat) (st : unit) (c msgLen : Z) : rd (unit + unit) :=
  if c =? 51 then (_ ← readN msgLen; mret (inr tt))
  else if c =? 69 then (e ← readError fuel; fail e)
  else match notices c msgLen with
       | Some m => (_ ← m; mret (inl st))
       | None => fail (unexpected c)
       end.
Definition readCloseCompleteMsg (fuel : nat) : rd unit := messages fuel (close_complete fuel) tt.

(** The answers to COPY; [start] is the type of the message that starts the copy. *)
Definition copy_response (start : Z) (fuel : nat) (st : option err) (c msgLen : Z) : rd (option err + unit) :=
  if c =? start then (_ ← readN msgLen; mret (inr tt))
  else if c =? 69 then (e ← readError fuel; mret (inl (or_first st (Some e))))
  else if c =? 90 then (_ ← readN msgLen; match st with Some e => fail e | None => mret (inr tt) end)
  else match notices c msgLen with
       | Some m => (_ ← m; mret (inl st))
       | None => fail (unexpected c)
       end.
Definition readCopyInResponse (fuel : nat) : rd unit := messages fuel (copy_response 71 fuel) None.
Definition readCopyOutResponse (fuel : nat) : rd unit := messages fuel (copy_response 72 fuel) None.

(** [readCopyData] with the bytes written to [w] so far, a writer that does not fail. *)
Fixpoint copy_chunks (fuel : nat) (msgLen : Z) (w : list Z) : rd (list Z) :=
  match fuel with
  | O => out_of_fuel
  | S fuel' =>
      if 0 <? msgLen then
        '(b, e) ← ReadN msgLen;
        match e with
        | Some e => if bool_decide (e = ErrBufferFull) then copy_chunks fuel' (msgLen - Z.of_nat (length b)) (w ++ b) else fail e
        | None => copy_chunks fuel' (msgLen - Z.of_nat (length b)) (w ++ b)
        end
      else mret w
  end.

Definition copy_data (fuel : nat) (st : list Z * qstate) (c msgLen : Z) : rd (list Z * qstate + list Z * result) :=
  if c =? 100 then (w ← copy_chunks fuel msgLen st.1; mret (inl (w, st.2)))
  else if c =? 99 then (_ ← readN msgLen; mret (inl st))
  else if c =? 67 then (b ← readN msgLen; res ← parse_cmd st.2.1 b; mret (inl (st.1, (res, st.2.2))))
  else if c =? 90 then (_ ← readN msgLen; match st.2.2 with Some e => fail e | None => mret (inr (st.1, st.2.1)) end)
  else if c =? 69 then (e ← readError fuel; fail e)
  else match notices c msgLen with
       | Some m => (_ ← m; mret (inl st))
       | None => fail (unexpected c)
       end.
Definition readCopyData (fuel : nat) : rd (list Z * result) := messages fuel (copy_data fuel) ([], (Res 0 0, None)).

Definition notification (fuel : nat) (st : unit) (c msgLen : Z) : rd (unit + list Z * list Z) :=
  if c =? 67 then (_ ← readN msgLen; mret (inl tt))
  else if c =? 90 then (_ ← readN msgLen; mret (inl tt))
  else if c =? 69 then (e ← readError fuel; fail e)
  else if c =? 78 then (_ ← logNotice msgLen; mret (inl tt))
  else if c =? 65 then
    (_ ← readInt32; channel ← readString; payload ← readString; mret (inr (channel, payload)))
  else fail (unexpected c).
Definition readNotification (fuel : nat) : rd (list Z * list Z) := messages fuel (notification fuel) tt.

Definition readAuthOK (fuel : nat) : rd unit :=
  '(c, _) ← readMessageType;
  if c =? 82 then
    (c0 ← readInt32; if c0 =? 0 then mret tt else fail (Errorf (bs "pg: unexpected authentication code")))
  else if c =? 69 then (e ← readError fuel; fail e)
  else fail (unexpected c).

End Others.

(** ** Staying in step with the server *)

Lemma parse_cstring res tag : exists res', parse res (cstring tag) = Some res'.
Proof.
  unfold parse, cstring. destruct (LastIndexByte (tag ++ [0]) 32) as [ind|] eqn:E; [|eauto].
  assert (Hi : (ind + 1 <= length tag)%nat).
  { unfold LastIndexByte in E. rewrite rev_app_distr in E. simpl in E.
    destruct (IndexByte (rev tag) 32) as [j|] eqn:Ej; simpl in E; [|done]. injection E as <-.
    apply IndexByte_Some in Ej as (p & q & Ej & <- & _). apply (f_equal length) in Ej.
    rewrite length_rev, length_app in Ej. simpl in Ej. rewrite length_app. simpl. lia. }
  rewrite length_app. cbn [length]. rewrite (proj2 (Nat.ltb_ge _ _)) by lia. destruct (PgScan.atoi _); eauto.
Qed.

Lemma parse_returned res tag res' : parse res (cstring tag) = Some res' -> returned_ res' = returned_ res.
Proof. unfold parse. repeat case_match; intros [= <-]; done. Qed.

Section Sync.
Context {C : Type} `{SourceLaws C}.
Abbreviation rd := (io (BufReader C)).

(** The size of the buffer; answers that are not rows must fit into it. *)
Context (N : nat) (N_ok : (64 <= N)%nat).

(** The bytes [l] are still to come, and nothing is limited. *)
Definition wire (b : BufReader C) (l : list Z) : Prop := view false b l [] /\ length (buf b) = N.

Definition wreads {A} (m : rd A) (l : list Z) (v : A) (rest : list Z) : Prop :=
  forall b, wire b l -> exists b', m b = (Ret v, b') /\ wire b' rest.
Definition wfails {A} (m : rd A) (l : list Z) (e : err) (rest : list Z) : Prop :=
  forall b, wire b l -> exists b', m b = (Fail e, b') /\ wire b' rest.

Lemma wreads_ret {A} (a : A) l : wreads (mret a) l a l.
Proof. intros b Hb. by exists b. Qed.
Lemma wfails_fail {A} e l : wfails (fail e : rd A) l e l.
Proof. intros b Hb. by exists b. Qed.
Lemma wreads_bind {A B} (m : rd A) (k : A -> rd B) l v l' w l'' :
  wreads m l v l' -> wreads (k v) l' w l'' -> wreads (m ≫= k) l w l''.
Proof.
  intros Hm Hk b Hb. destruct (Hm b Hb) as (b1 & E & Hb1). destruct (Hk b1 Hb1) as (b2 & E2 & Hb2).
  exists b2. unfold mbind, io_mbind. by rewrite E.
Qed.
Lemma wfails_bind {A B} (m : rd A) (k : A -> rd B) l v l' e l'' :
  wreads m l v l' -> wfails (k v) l' e l'' -> wfails (m ≫= k) l e l''.
Proof.
  intros Hm Hk b Hb. destruct (Hm b Hb) as (b1 & E & Hb1). destruct (Hk b1 Hb1) as (b2 & E2 & Hb2).
  exists b2. unfold mbind, io_mbind. by rewrite E.
Qed.

Lemma wreads_byte c l : wreads ReadByte (c :: l) c l.
Proof.
  intros b [Hv HN]. destruct (buf_read_byte false b c l [] Hv) as (b' & _ & E & Hv' & Hb' & _).
  exists b'. split; [done|]. split; [done|]. by rewrite Hb'.
Qed.

Lemma wreads_n p rest : (length p <= N)%nat -> wreads (readN (Z.of_nat (length p))) (p ++ rest) p rest.
Proof.
  intros Hp b [Hv HN]. unfold readN, checked.
  destruct (buf_ReadN false (length p) b (p ++ rest) [] Hv) as (b' & E & Hv' & Hb'); [rewrite length_app; lia|].
  rewrite E. rewrite Nat.min_l, take_app_length, drop_app_length in * by lia. rewrite (proj2 (Nat.leb_le _ _)) by lia.
  exists b'. split; [done|]. split; [done|]. by rewrite Hb'.
Qed.

Lemma wreads_int32 z rest : - 2 ^ 31 <= z < 2 ^ 31 -> wreads readInt32 (be32 z ++ rest) z rest.
Proof.
  intros Hz. eapply wreads_bind; [apply (wreads_n (be32 z)); simpl; lia|]. rewrite int32_be32 by done. apply wreads_ret.
Qed.
Lemma wreads_int16 z rest : - 2 ^ 15 <= z < 2 ^ 15 -> wreads readInt16 (be16 z ++ rest) z rest.
Proof.
  intros Hz. eapply wreads_bind; [apply (wreads_n (be16 z)); simpl; lia|]. rewrite int16_be16 by done. apply wreads_ret.
Qed.

Lemma wreads_slice s rest : ~ 0 ∈ s -> (length s < N)%nat -> wreads (checked (ReadSlice 0)) (cstring s ++ rest) (cstring s) rest.
Proof.
  intros Hs Hl b [Hv HN]. unfold checked. 
  destruct (buf_read_slice false 0 b (cstring s ++ rest) [] Hv) as (line & e & rest' & b' & E & [El Hsl] & Hv' & Hb' & Hfull & Heof).
  { right. unfold cstring. set_solver. }
  cbn [ReadSlice buf_reader]. rewrite E. unfold cstring in *. rewrite <- app_assoc in El. simpl in El. destruct e as [e|].
  - exfalso. destruct e; try done.
    + apply Heof; [done|]. destruct Hv as [(Hwf & _) _]. destruct Hwf as [_ [_ Ha]]. by apply Ha.
    + destruct Hsl as [_ Hin]. rewrite HN in Hfull. specialize (Hfull eq_refl).
      apply Hin. assert (Hlk : line !! length s = Some 0).
      { rewrite <- (lookup_app_l line rest') by lia. rewrite <- El. by rewrite list_lookup_middle. }
      by apply list_elem_of_lookup_2 in Hlk.
  - destruct Hsl as (p & -> & Hp). rewrite <- app_assoc in El. simpl in El.
    destruct (PgScan.split_first _ _ _ _ _ El) as [-> ->]; [done..|].
    exists b'. split; [done|]. split; [done|]. by rewrite Hb'.
Qed.

Lemma wreads_string s rest : ~ 0 ∈ s -> (length s < N)%nat -> wreads readString (cstring s ++ rest) s rest.
Proof.
  intros Hs Hl. eapply wreads_bind; [by apply wreads_slice|]. unfold cstring. rewrite PgAppend.drop_last_app. apply wreads_ret.
Qed.

Lemma wreads_discard p rest : wreads (checked (Discard (Z.of_nat (length p)))) (p ++ rest) (Z.of_nat (length p)) rest.
Proof.
  intros b [Hv HN]. unfold checked. destruct (buf_Discard false (length p) b (p ++ rest) [] Hv) as (b' & E & Hv' & Hb');
    [rewrite length_app; lia|].
  rewrite E, drop_app_length in *. exists b'. split; [done|]. split; [done|]. by rewrite Hb'.
Qed.

(** The head of a message. *)
Definition body_ok (body : list Z) : Prop := Z.of_nat (length body) + 4 < 2 ^ 31.

Lemma wreads_type c body rest : body_ok body ->
  wreads readMessageType (frame c body ++ rest) (c, Z.of_nat (length body)) (body ++ rest).
Proof.
  intros Hb. unfold frame, body_ok in *. cbn [app]. rewrite <- app_assoc. eapply wreads_bind; [apply wreads_byte|].
  eapply wreads_bind; [apply wreads_int32; lia|]. rewrite Z.add_simpl_r. apply wreads_ret.
Qed.

(** The fields of an error. *)
Definition field_text (f : Z * list Z) : list Z := f.1 :: cstring f.2.
Definition fields_text (fs : list (Z * list Z)) : list Z := concat (field_text <$> fs) ++ [0].
Definition field_ok (f : Z * list Z) : Prop := f.1 <> 0 /\ ~ 0 ∈ f.2 /\ (length f.2 < N)%nat.

Lemma wreads_error fs fuel rest : Forall field_ok fs -> (length fs < fuel)%nat ->
  wreads (readError fuel) (fields_text fs ++ rest) (PGError fs) rest.
Proof.
  intros Hfs Hf. unfold readError, fields_text. rewrite <- app_assoc.
  assert (Hl : forall acc, wreads (error_loop fuel acc) (concat (field_text <$> fs) ++ [0] ++ rest) (acc ++ fs) rest).
  { revert fuel Hf. induction Hfs as [|[c s] fs (Hc & Hs & Hl) _ IH]; intros fuel Hf acc; (destruct fuel as [|fuel]; [lia|]); cbn [error_loop].
    - eapply wreads_bind; [apply wreads_byte|]. rewrite app_nil_r. apply wreads_ret.
    - cbn [fmap list_fmap concat field_text fst snd app] in *. simpl in Hf. rewrite <- app_assoc.
      eapply wreads_bind; [apply wreads_byte|]. rewrite (proj2 (Z.eqb_neq _ _)) by done.
      eapply wreads_bind; [by apply wreads_string|].
      replace (acc ++ (c, s) :: fs) with ((acc ++ [(c, s)]) ++ fs) by (by rewrite <- app_assoc). apply IH. lia. }
  eapply wreads_bind; [apply Hl|]. apply wreads_ret.
Qed.

(** *** Sequences of messages *)

(** The handler takes the messages of a kind: it reads the body of the message and
    nothing else, and goes on with the state that [step] says. *)
Definition takes {St Res A} (handle : St -> Z -> Z -> rd (St + Res)) (step : St -> A -> St)
    (enc : A -> Z * list Z) (ok : A -> Prop) : Prop :=
  forall st m rest, ok m ->
    body_ok (enc m).2 /\
    wreads (handle st (enc m).1 (Z.of_nat (length (enc m).2))) ((enc m).2 ++ rest) (inl (step st m)) rest.

Definition encode {A} (enc : A -> Z * list Z) (m : A) : list Z := frame (enc m).1 (enc m).2.

Lemma messages_run {St Res A} (handle : St -> Z -> Z -> rd (St + Res)) step (enc : A -> Z * list Z) ok ms :
  takes handle step enc ok -> Forall ok ms ->
  forall fuel st l b, (length ms < fuel)%nat -> wire b (concat (encode enc <$> ms) ++ l) ->
  exists b', messages fuel handle st b = messages (fuel - length ms) handle (foldl step st ms) b' /\ wire b' l.
Proof.
  intros Ht. induction 1 as [|m ms Hm _ IH]; intros fuel st l b Hf Hb.
  { exists b. simpl. by rewrite Nat.sub_0_r. }
  destruct fuel as [|fuel]; [simpl in Hf; lia|]. cbn [fmap list_fmap concat] in Hb. rewrite <- app_assoc in Hb.
  destruct (Ht st m (concat (encode enc <$> ms) ++ l) Hm) as [Hok Hr].
  destruct (wreads_type _ _ _ Hok b Hb) as (b1 & E1 & Hb1). destruct (Hr b1 Hb1) as (b2 & E2 & Hb2).
  destruct (IH fuel (step st m) l b2) as (b' & E & Hb'); [simpl in Hf; lia|done|].
  exists b'. split; [|done]. cbn [messages length Nat.sub foldl]. rewrite <- E. unfold mbind, io_mbind. by rewrite E1, E2.
Qed.

Lemma messages_last {St Res} (handle : St -> Z -> Z -> rd (St + Res)) fuel st c body rest x b :
  body_ok body -> wire b (frame c body ++ rest) ->
  (forall b1, wire b1 (body ++ rest) -> exists b2,
     handle st c (Z.of_nat (length body)) b1 = (match x with inl e => Fail e | inr res => Ret (inr res) end, b2) /\ wire b2 rest) ->
  exists b', messages (S fuel) handle st b = (match x with inl e => Fail e | inr res => Ret res end, b') /\ wire b' rest.
Proof.
  intros Hok Hb Hl. destruct (wreads_type _ _ _ Hok b Hb) as (b1 & E1 & Hb1). destruct (Hl b1 Hb1) as (b2 & E2 & Hb2).
  exists b2. split; [|done]. cbn [messages]. unfold mbind, io_mbind. rewrite E1, E2. by destruct x.
Qed.

(** *** Answers to a query *)

(** The messages of an answer before ReadyForQuery. *)
Inductive smsg :=
| CommandComplete (tag : list Z)
| RowDescription (body : list Z)
| DataRow (body : list Z)
| ErrorResponse (fields : list (Z * list Z))
| EmptyQueryResponse
| NoticeResponse (body : list Z)
| ParameterStatus (body : list Z)
| BindComplete.

Definition enc (m : smsg) : Z * list Z :=
  match m with
  | CommandComplete tag => (67, cstring tag)
  | RowDescription body => (84, body)
  | DataRow body => (68, body)
  | ErrorResponse fields => (69, fields_text fields)
  | EmptyQueryResponse => (73, [])
  | NoticeResponse body => (78, body)
  | ParameterStatus body => (83, body)
  | BindComplete => (50, [])
  end.

(** What the client makes of them: the tag of the last command, the number of rows
    and the first error. *)
Definition step (st : qstate) (m : smsg) : qstate :=
  match m with
  | CommandComplete tag => (default st.1 (parse st.1 (cstring tag)), st.2)
  | DataRow _ => count_row st
  | ErrorResponse fields => first st (PGError fields)
  | EmptyQueryResponse => first st errEmptyQuery
  | _ => st
  end.

Definition fits (m : smsg) : Prop := (length (enc m).2 <= N)%nat.
Definition smsg_ok (fuel : nat) (m : smsg) : Prop :=
  body_ok (enc m).2 /\
  match m with
  | ErrorResponse fields => Forall field_ok fields /\ (length fields < fuel)%nat
  | DataRow _ => True
  | _ => fits m
  end.

Lemma wreads_cmd st tag rest : (length (cstring tag) <= N)%nat ->
  wreads (b ← readN (Z.of_nat (length (cstring tag))); res ← parse_cmd st.1 b; mret (inl (res, st.2)) : rd (qstate + result))
    (cstring tag ++ rest) (inl (step st (CommandComplete tag))) rest.
Proof.
  intros Hl. eapply wreads_bind; [by apply wreads_n|]. unfold parse_cmd, step.
  destruct (parse_cstring st.1 tag) as [res' ->]. simpl. eapply wreads_bind; [apply wreads_ret|]. apply wreads_ret.
Qed.

Lemma wreads_skip {A} (v : A) body rest : (length body <= N)%nat ->
  wreads (_ ← readN (Z.of_nat (length body)); mret v) (body ++ rest) v rest.
Proof. intros Hl. eapply wreads_bind; [by apply wreads_n|]. apply wreads_ret. Qed.

Lemma wreads_notices {A} (v : A) c body rest : (length body <= N)%nat -> c = 78 \/ c = 83 ->
  exists m, notices c (Z.of_nat (length body)) = Some m /\ wreads (_ ← m; mret v) (body ++ rest) v rest.
Proof.
  intros Hl [-> | ->]; eexists; (split; [reflexivity|]);
    (eapply wreads_bind; [by apply (wreads_skip tt)|]; apply wreads_ret).
Qed.

Lemma simple_takes fuel : takes (simple_query fuel) step enc (fun m => smsg_ok fuel m /\ m <> BindComplete).
Proof.
  intros st m rest [[Hok Hm] Hb]. split; [done|]. unfold simple_query. destruct m; cbn [enc fst snd] in *; try done.
  - by apply wreads_cmd.
  - by apply (wreads_skip (inl st)).
  - cbn [Z.eqb Pos.eqb]. eapply wreads_bind; [apply wreads_discard|]. apply wreads_ret.
  - cbn [Z.eqb Pos.eqb]. destruct Hm as [Hf Hl]. eapply wreads_bind; [by apply wreads_error|]. apply wreads_ret.
  - apply wreads_ret.
  - destruct (wreads_notices (inl st : qstate + result) 78 body rest Hm) as (m & E & Hr); [by left|]. cbn [Z.eqb Pos.eqb]. rewrite E. exact Hr.
  - destruct (wreads_notices (inl st : qstate + result) 83 body rest Hm) as (m & E & Hr); [by right|]. cbn [Z.eqb Pos.eqb]. rewrite E. exact Hr.
Qed.

Lemma ext_takes fuel : takes (ext_query fuel) step enc
  (fun m => smsg_ok fuel m /\ match m with RowDescription _ => False | DataRow _ => fits m | _ => True end).
Proof.
  intros st m rest [[Hok Hm] Hb]. split; [done|]. unfold ext_query. destruct m; cbn [enc fst snd] in *; try done.
  - by apply wreads_cmd.
  - by apply (wreads_skip (inl (count_row st))).
  - cbn [Z.eqb Pos.eqb]. destruct Hm as [Hf Hl]. eapply wreads_bind; [by apply wreads_error|]. apply wreads_ret.
  - apply wreads_ret.
  - destruct (wreads_notices (inl st : qstate + result) 78 body rest Hm) as (m & E & Hr); [by left|]. cbn [Z.eqb Pos.eqb]. rewrite E. exact Hr.
  - destruct (wreads_notices (inl st : qstate + result) 83 body rest Hm) as (m & E & Hr); [by right|]. cbn [Z.eqb Pos.eqb]. rewrite E. exact Hr.
  - by apply (wreads_skip (inl st)).
Qed.

(** The answer ends with ReadyForQuery, which carries the state of the transaction. *)
Definition answer (ms : list smsg) (status : Z) : list Z := concat (encode enc <$> ms) ++ frame 90 [status].
Definition outcome (st : qstate) : go err result := match st.2 with Some e => Fail e | None => Ret st.1 end.

Lemma query_loop_ok handle ok fuel ms status rest b :
  takes handle step enc ok -> Forall ok ms -> (length ms < fuel)%nat ->
  (forall st msgLen, handle st 90 msgLen = (_ ← readN msgLen; ended st)) ->
  wire b (answer ms status ++ rest) ->
  exists b', messages fuel handle (Res 0 0, None) b = (outcome (foldl step (Res 0 0, None) ms), b') /\ wire b' rest.
Proof.
  intros Ht Hms Hf Hz Hb. unfold answer in Hb. rewrite <- app_assoc in Hb.
  destruct (messages_run handle step enc ok ms Ht Hms fuel (Res 0 0, None) _ b Hf Hb) as (b1 & -> & Hb1).
  set (st := foldl step _ ms). destruct (fuel - length ms)%nat as [|fuel'] eqn:Ef; [lia|].
  destruct (messages_last handle fuel' st 90 [status] rest (match st.2 with Some e => inl e | None => inr st.1 end) b1)
    as (b' & -> & Hb'); [by unfold body_ok|done| |].
  - intros b2 Hb2. rewrite Hz. unfold mbind, io_mbind.
    destruct (wreads_n [status] rest ltac:(simpl; lia) b2 Hb2) as (b3 & -> & Hb3). exists b3. unfold ended. by destruct st.2.
  - exists b'. split; [|done]. unfold outcome. by destruct st.2.
Qed.

End Sync.


(** *** Rows *)

(** A column scanner reads what it likes of its column and returns, with or without
    an error. *)
Class ModelLaws (M : Type) `{Model M} := {
  scan_returns {R : Type} `{ReaderLaws R} m col n (r : R) l : repr r l ->
    exists m' e r' l', ScanColumn m col n r = (Ret (m', e), r') /\ repr r' l'
}.

(** A model without errors of its own. *)
Definition quiet (M : Type) `{Model M} : Prop :=
  (exists m, newModel = inl m) /\ (forall m, (AddColumnScanner m).2 = None) /\
  (forall (R : Type) `{ReaderLaws R} m col n (r : R) l m' e r',
     repr r l -> ScanColumn m col n r = (Ret (m', e), r') -> e = None).

Section RowsSync.
Context {C : Type} `{SourceLaws C} {M : Type} `{ModelLaws M}.
Abbreviation rd := (io (BufReader C)).
Abbreviation quiet_ := (quiet M).
Context (N : nat) (N_ok : (64 <= N)%nat).

(** A column is NULL or bytes. *)
Definition col_text (d : option (list Z)) : list Z :=
  match d with None => be32 (-1) | Some d => be32 (Z.of_nat (length d)) ++ d end.
Definition row_text (cols : list (option (list Z))) : list Z := be16 (Z.of_nat (length cols)) ++ concat (col_text <$> cols).
Definition col_ok (d : option (list Z)) : Prop := match d with None => True | Some d => Z.of_nat (length d) < 2 ^ 31 end.

Lemma scan_window_ok m col n (d : list Z) rest b :
  wire N b (d ++ rest) -> n = Z.of_nat (length d) \/ n = -1 /\ d = [] -> n <= BufReader_Buffered b ->
  exists m' e b', scan_window m col n b = (Ret (m', e), b') /\ wire N b' rest /\ (quiet_ -> e = None).
Proof.
  intros [Hv HN] Hn Hle. destruct (view_buffered _ _ _ _ Hv) as (HB & _ & HBf). unfold scan_window.
  assert (Hlen : (length d <= length (BufReader_Bytes b))%nat) by (destruct Hn as [->|[-> ->]]; simpl; lia).
  destruct (view_advance _ b d rest [] Hv Hlen) as (Et & Hv' & Hb').
  assert (Ebr : BufReader_BytesReader n b = (Ret (NewBytesReader d), advance (length d) b)).
  { unfold BufReader_BytesReader. set (k := if n =? -1 then 0 else n).
    assert (Hk : k = Z.of_nat (length d)) by (unfold k; destruct Hn as [->|[-> ->]]; simpl; [case_match; lia|done]).
    rewrite Hk, Nat2Z.id. rewrite HB, length_take in Hlen. pose proof Hv as [(Hwf & _) _].
    rewrite (length_window _ b Hwf) in Hlen. pose proof Hwf as [Hw1 [_ Hav]].
    rewrite (proj2 (Z.ltb_ge _ _)), (proj2 (Z.ltb_ge _ _)) by lia. cbn [orb].
    rewrite (view_seg _ _ _ _ _ Hv), Et by (rewrite HB, length_take, (length_window _ b Hwf); lia).
    unfold advance, changeAvailable. by rewrite (proj2 (Z.eqb_eq (available (set_pos b (r b + length d) (w b))) (-1)) (proj1 Hav eq_refl)). }
  assert (Hr : repr (NewBytesReader d) d) by (split; [simpl; lia|done]).
  rewrite Ebr. destruct (scan_returns m col n (NewBytesReader d) d Hr) as (m' & e & r' & l' & E & _). rewrite E.
  exists m', e, (advance (length d) b). split; [done|]. split; [split; [done|by rewrite Hb']|].
  intros (_ & _ & Hq). exact (Hq _ _ _ m col n _ d m' e r' Hr E).
Qed.

(** Setting and removing the limit around a column. *)
Lemma view_limit b (d rest : list Z) : view false b (d ++ rest) [] -> view true (SetAvailable (Z.of_nat (length d)) b) d rest.
Proof.
  intros [(Hwf & He & Hok & F & HF & HL) Ha]. rewrite app_nil_r in *. split; [|by right].
  split_and!; [|done|done|by exists F]. destruct Hwf as (? & ? & ?). split; [done|]. split; [done|]. cbn. lia.
Qed.
Lemma view_unlimit b rest : view true b [] rest -> view false (SetAvailable (-1) b) rest [].
Proof.
  intros [(Hwf & He & Hok & F & HF & HL) Ha]. split; [|by left]. rewrite app_nil_r.
  split_and!; [|done|done|by exists F]. destruct Hwf as (? & ? & ?). split; [done|]. split; [done|]. done.
Qed.

Lemma scan_conn_ok m col n (d rest : list Z) b : view true b d rest -> length (buf b) = N ->
  exists m' e b' l', ScanColumn m col n b = (Ret (m', e), b') /\ view true b' l' rest /\ length (buf b') = N /\ (quiet_ -> e = None).
Proof.
  intros Hv HN. assert (Hr : @repr _ _ (buf_reader_laws N rest) b d) by done.
  destruct (@scan_returns M _ _ (BufReader C) _ (buf_reader_laws N rest) m col n b d Hr) as (m' & e & b' & l' & E & Hv').
  exists m', e, b', l'. split; [done|]. split; [apply Hv'|]. split; [apply Hv'|].
  intros (_ & _ & Hq). exact (Hq _ _ (buf_reader_laws N rest) m col n b d m' e b' Hr E).
Qed.

(** The length of a column. *)
Definition col_len (d : option (list Z)) : Z := match d with None => -1 | Some d => Z.of_nat (length d) end.

Lemma run_try {A} (m : rd A) b v b' : m b = (Ret v, b') -> try m b = (Ret (inl v), b').
Proof. unfold try. by intros ->. Qed.

Lemma read_length d rest b : col_ok d -> wire N b (col_text d ++ rest) ->
  exists b', readInt32 b = (Ret (col_len d), b') /\ wire N b' (default [] d ++ rest).
Proof.
  intros Hd Hb. assert (E : col_text d = be32 (col_len d) ++ default [] d) by (destruct d; simpl; by rewrite ?app_nil_r).
  rewrite E, <- app_assoc in Hb.
  assert (Hn : - 2 ^ 31 <= col_len d < 2 ^ 31) by (destruct d; simpl in *; lia).
  destruct (wreads_int32 N N_ok (col_len d) _ Hn b Hb) as (b1 & E1 & Hb1). by exists b1.
Qed.

Lemma read_column_ok columns i col m firstErr d rest b1 : columns !! i = Some col ->
  wire N b1 (default [] d ++ rest) ->
  exists m' e' b', read_column columns i m firstErr (col_len d) b1 = (Ret (m', e'), b') /\ wire N b' rest /\
    (quiet_ -> firstErr = None -> e' = None).
Proof.
  intros Hi Hb1. unfold read_column, col_len.
  set (n := match d with None => -1 | Some d => Z.of_nat (length d) end). set (data := default [] d).
  unfold get_state. unfold mbind at 1, io_mbind at 1.
  assert (Hnd : n = Z.of_nat (length data) \/ n = -1 /\ data = []) by (unfold n, data; destruct d; simpl; [by left|by right]).
  rewrite Hi. destruct (Z.leb_spec n (BufReader_Buffered b1)) as [Hle|Hgt].
  - destruct (scan_window_ok m col n data rest b1 Hb1 Hnd Hle) as (m' & e & b2 & E2 & Hb2 & He).
    rewrite (PgScan.run_bind _ _ _ _ _ E2). eexists _, _, b2. split; [done|]. split; [done|]. intros Hq ->. by rewrite (He Hq).
  - destruct Hb1 as [Hv1 HN1]. destruct (view_buffered _ _ _ _ Hv1) as (_ & _ & HBf).
    destruct Hnd as [Hnd|[Hnd _]]; [|lia]. rewrite Hnd.
    unfold set_available. unfold mbind at 1, io_mbind at 1.
    destruct (scan_conn_ok m col (Z.of_nat (length data)) data rest (SetAvailable (Z.of_nat (length data)) b1)) as (m' & e & b2 & l' & E2 & Hv2 & HN2 & He);
      [by apply view_limit|done|].
    rewrite (PgScan.run_bind _ _ _ _ _ E2). unfold mbind at 1, io_mbind at 1.
    pose proof (limited_available _ _ _ _ Hv2 eq_refl) as Hlim.
    assert (Ha : available b2 = Z.of_nat (length l')) by (destruct Hv2 as [_ [[? _]|?]]; done).
    destruct (Z.ltb_spec 0 (available b2)) as [Hpos|Hzero].
    + rewrite Ha. destruct (buf_Discard true (length l') b2 l' rest Hv2) as (b3 & E3 & Hv3 & HN3); [done|].
      unfold mbind, io_mbind. rewrite E3. rewrite drop_all in Hv3. eexists _, _, _. split; [done|].
      split; [split; [by apply view_unlimit|cbn; by rewrite HN3]|]. intros Hq ->. by rewrite (He Hq).
    + assert (l' = []) as -> by (destruct l'; [done|simpl in Ha; lia]).
      eexists _, _, _. split; [done|]. split; [split; [by apply view_unlimit|done]|]. intros Hq ->. by rewrite (He Hq).
Qed.

Lemma columns_loop_ok columns cols rest : Forall col_ok cols ->
  forall i m firstErr b, (i + length cols <= length columns)%nat -> wire N b (concat (col_text <$> cols) ++ rest) ->
  exists m' e' b', columns_loop (length cols) columns i m firstErr b = (Ret (m', e'), b') /\ wire N b' rest /\
    (quiet_ -> firstErr = None -> e' = None).
Proof.
  induction 1 as [|d cols Hd _ IH]; intros i m firstErr b Hi Hb; [by exists m, firstErr, b|].
  cbn [fmap list_fmap concat] in Hb. rewrite <- app_assoc in Hb. simpl in Hi.
  destruct (lookup_lt_is_Some_2 columns i) as [col Hc]; [lia|].
  destruct (read_length d _ b Hd Hb) as (b0 & E0%run_try & Hb0).
  destruct (read_column_ok columns i col m firstErr d _ b0 Hc Hb0) as (m1 & e1 & b1 & E1 & Hb1 & He1).
  cbn [length columns_loop]. rewrite (PgScan.run_bind _ _ _ _ _ E0), (PgScan.run_bind _ _ _ _ _ E1).
  destruct (IH (S i) m1 e1 b1) as (m2 & e2 & b2 & E2 & Hb2 & He2); [lia|done|]. exists m2, e2, b2. auto.
Qed.

Definition row_ok (columns : list ColumnInfo) (cols : list (option (list Z))) : Prop :=
  Forall col_ok cols /\ (length cols <= length columns)%nat /\ Z.of_nat (length cols) < 2 ^ 15.

Lemma readDataRow_ok columns cols m rest b : row_ok columns cols -> wire N b (row_text cols ++ rest) ->
  exists m' e' b', readDataRow columns m b = (Ret (m', e'), b') /\ wire N b' rest /\ (quiet_ -> e' = None).
Proof.
  intros (Hc & Hl & H15) Hb. unfold row_text in Hb. rewrite <- app_assoc in Hb. unfold readDataRow.
  destruct (wreads_int16 N N_ok (Z.of_nat (length cols)) _ ltac:(lia) b Hb) as (b1 & E1%run_try & Hb1).
  rewrite (PgScan.run_bind _ _ _ _ _ E1), Nat2Z.id.
  destruct (columns_loop_ok columns cols rest Hc 0 m None b1) as (m' & e' & b' & E & Hb' & He); [lia|done|]. exists m', e', b'. auto.
Qed.

(** The description of a row: name, table and column numbers, type, size and format. *)
Record desc := Desc { ds_name : list Z; ds_origin : list Z; ds_type : Z; ds_format : list Z }.
Definition desc_text (d : desc) : list Z := cstring (ds_name d) ++ ds_origin d ++ be32 (ds_type d) ++ ds_format d.
Definition descs_text (ds : list desc) : list Z := be16 (Z.of_nat (length ds)) ++ concat (desc_text <$> ds).
Definition desc_ok (d : desc) : Prop :=
  ~ 0 ∈ ds_name d /\ (length (ds_name d) < N)%nat /\ length (ds_origin d) = 6%nat /\
  - 2 ^ 31 <= ds_type d < 2 ^ 31 /\ length (ds_format d) = 8%nat.

Lemma wreads_desc ds acc i rest : Forall desc_ok ds ->
  exists cols, length cols = (length acc + length ds)%nat /\
    wreads N (description_loop (length ds) i acc) (concat (desc_text <$> ds) ++ rest) cols rest.
Proof.
  intros Hds. revert acc i. induction Hds as [|d ds (Hn0 & Hn & Ho & Ht & Hf) _ IH]; intros acc i.
  { exists acc. split; [simpl; lia|]. apply wreads_ret. }
  destruct (IH (acc ++ [Col i (ds_type d) (ds_name d)]) (i + 1)) as (cols & Hl & Hr). exists cols.
  split; [rewrite Hl, length_app; simpl; lia|]. cbn [length description_loop fmap list_fmap concat]. unfold desc_text at 1.
  rewrite <- !app_assoc. eapply wreads_bind; [by apply wreads_slice|].
  eapply wreads_bind; [change 6 with (Z.of_nat 6); rewrite <- Ho; apply wreads_n; lia|].
  eapply wreads_bind; [by apply wreads_int32|].
  eapply wreads_bind; [change 8 with (Z.of_nat 8); rewrite <- Hf; apply wreads_n; lia|].
  unfold cstring. rewrite PgAppend.drop_last_app. exact Hr.
Qed.

Lemma wreads_descs ds acc rest : Forall desc_ok ds -> Z.of_nat (length ds) < 2 ^ 15 ->
  exists cols, length cols = (length acc + length ds)%nat /\ wreads N (readRowDescription acc) (descs_text ds ++ rest) cols rest.
Proof.
  intros Hds Hl. destruct (wreads_desc ds acc 0 rest Hds) as (cols & Hc & Hr). exists cols. split; [done|].
  unfold descs_text. rewrite <- app_assoc. eapply wreads_bind; [apply wreads_int16; lia|]. by rewrite Nat2Z.id.
Qed.

(** An answer with rows: descriptions, rows and the other messages. *)
Inductive dmsg := DDesc (ds : list desc) | DRow (cols : list (option (list Z))) | DOther (m : smsg).
Definition denc (m : dmsg) : Z * list Z :=
  match m with DDesc ds => (84, descs_text ds) | DRow cols => (68, row_text cols) | DOther m => enc m end.

(** The columns known, the rows read, and whether the server sent an error. *)
Record tally := Tl { t_cols : nat; t_rows : Z; t_err : bool }.
Definition dnext (ix : tally) (m : dmsg) : tally :=
  match m with
  | DDesc ds => Tl (t_cols ix + length ds) (t_rows ix) (t_err ix)
  | DRow _ => Tl (t_cols ix) (t_rows ix + 1) (t_err ix)
  | DOther (ErrorResponse _) | DOther EmptyQueryResponse => Tl (t_cols ix) (t_rows ix) true
  | DOther _ => ix
  end.
Definition dmsg_ok (fuel : nat) (ix : tally) (m : dmsg) : Prop :=
  body_ok (denc m).2 /\
  match m with
  | DDesc ds => Forall desc_ok ds /\ Z.of_nat (length ds) < 2 ^ 15
  | DRow cols => Forall col_ok cols /\ (length cols <= t_cols ix)%nat /\ Z.of_nat (length cols) < 2 ^ 15
  | DOther m => smsg_ok N fuel m /\ match m with RowDescription _ | DataRow _ => False | _ => True end
  end.
Definition at_ix (ix : tally) (st : dstate (M := M)) : Prop :=
  length (d_columns st) = t_cols ix /\ returned_ (d_res st) = t_rows ix /\
  (t_err ix = true -> d_err st <> None) /\ (quiet_ -> t_err ix = false -> d_err st = None).

Lemma or_first_some e1 e2 : e1 <> None -> or_first e1 e2 <> None.
Proof. by destruct e1. Qed.

Lemma read_row_ok st cols rest b ix : at_ix ix st -> d_model st <> None ->
  Forall col_ok cols -> (length cols <= t_cols ix)%nat -> Z.of_nat (length cols) < 2 ^ 15 ->
  wire N b (row_text cols ++ rest) ->
  exists st' b', read_row st b = (Ret st', b') /\ wire N b' rest /\ at_ix (dnext ix (DRow cols)) st' /\ d_model st' <> None.
Proof.
  intros (Hc & Hr & He1 & He2) Hm Hcols Hl H15 Hb. unfold read_row. destruct (d_model st) as [m|]; [|done].
  destruct (readDataRow_ok (d_columns st) cols (NextColumnScanner m) rest b) as (m' & e & b' & E & Hb' & He); [by split_and!; try rewrite Hc|done|].
  rewrite (PgScan.run_bind _ _ _ _ _ E). destruct (match e with Some e => _ | None => _ end) as [m2 e2] eqn:E2.
  eexists _, b'. split; [done|]. split; [done|]. split; [|done]. split_and!; simpl; [done|by rewrite Hr| |].
  - intros Ht. by apply or_first_some, He1.
  - intros Hq Ht. rewrite (He2 Hq Ht). simpl. specialize (He Hq). subst e. destruct Hq as (_ & Ha & _).
    specialize (Ha m'). by rewrite E2 in Ha.
Qed.

(** The messages that both loops treat alike. *)
Definition common (m : smsg) : bool :=
  match m with CommandComplete _ | ErrorResponse _ | NoticeResponse _ | ParameterStatus _ => true | _ => false end.

Lemma d_first_ix ix st e m : at_ix ix st -> dnext ix m = Tl (t_cols ix) (t_rows ix) true -> at_ix (dnext ix m) (d_first st e).
Proof. intros (Hc & Hr & _ & _) ->. split_and!; simpl; try done. intros _. by destruct (d_err st). Qed.

Lemma other_ok (handle : dstate -> Z -> Z -> rd (dstate + result * option M)) fuel st m rest b ix :
  (forall st c n, c = 67 -> handle st c n = (b ← readN n; st ← d_parse st b; mret (inl st))) ->
  (forall st c n, c = 69 -> handle st c n = (e ← readError fuel; mret (inl (d_first st e)))) ->
  (forall st c n, c = 78 \/ c = 83 -> handle st c n =
     match notices c n with Some m => (_ ← m; mret (inl st)) | None => fail (unexpected c) end) ->
  at_ix ix st -> dmsg_ok fuel ix (DOther m) -> common m = true -> wire N b ((enc m).2 ++ rest) ->
  exists st' b', handle st (enc m).1 (Z.of_nat (length (enc m).2)) b = (Ret (inl st'), b') /\ wire N b' rest /\
    at_ix (dnext ix (DOther m)) st' /\ d_model st' = d_model st.
Proof.
  intros H67 H69 Hno Hix (Hbody & [Hok Hm] & _) Hk Hb. destruct m; try done; cbn [enc fst snd] in *.
  - rewrite H67 by done. destruct (wreads_n N N_ok (cstring tag) rest Hm b Hb) as (b1 & E1 & Hb1).
    rewrite (PgScan.run_bind _ _ _ _ _ E1). unfold d_parse, parse_cmd.
    destruct (parse_cstring (d_res st) tag) as [res' Ep]. rewrite Ep.
    eexists _, b1. split; [done|]. split; [done|]. split; [|done]. destruct Hix as (? & ? & ? & ?). split_and!; simpl; try done.
    by rewrite (parse_returned _ _ _ Ep).
  - rewrite H69 by done. destruct Hm as [Hf Hl]. destruct (wreads_error N N_ok fields fuel rest Hf Hl b Hb) as (b1 & E1 & Hb1).
    rewrite (PgScan.run_bind _ _ _ _ _ E1). eexists _, b1. split; [done|]. split; [done|]. split; [by apply d_first_ix|done].
  - rewrite Hno by tauto. destruct (wreads_notices N N_ok (inl st : dstate + result * option M) 78 body rest Hm) as (m & E & Hr); [by left|].
    rewrite E. destruct (Hr b Hb) as (b1 & E1 & Hb1). exists st, b1. done.
  - rewrite Hno by tauto. destruct (wreads_notices N N_ok (inl st : dstate + result * option M) 83 body rest Hm) as (m & E & Hr); [by right|].
    rewrite E. destruct (Hr b Hb) as (b1 & E1 & Hb1). exists st, b1. done.
Qed.

(** *** The loops with rows *)

Definition seq_ok (fuel : nat) : tally -> list dmsg -> Prop :=
  fix go ix ms := match ms with [] => True | m :: ms' => dmsg_ok fuel ix m /\ go (dnext ix m) ms' end.

(** A handler that takes these messages, keeping an invariant. *)
Definition takes_rows (handle : dstate -> Z -> Z -> rd (dstate + result * option M)) (fuel : nat)
    (inv : tally -> dstate (M := M) -> Prop) (ok : dmsg -> Prop) : Prop :=
  forall ix st m rest b, inv ix st -> dmsg_ok fuel ix m -> ok m -> wire N b ((denc m).2 ++ rest) ->
  exists st' b', handle st (denc m).1 (Z.of_nat (length (denc m).2)) b = (Ret (inl st'), b') /\ wire N b' rest /\ inv (dnext ix m) st'.

Lemma rows_run handle inv ok fuel0 ms : takes_rows handle fuel0 inv ok -> Forall ok ms ->
  forall ix st fuel l b, inv ix st -> seq_ok fuel0 ix ms -> (length ms < fuel)%nat ->
  wire N b (concat (encode denc <$> ms) ++ l) ->
  exists st' b', messages fuel handle st b = messages (fuel - length ms) handle st' b' /\ wire N b' l /\ inv (foldl dnext ix ms) st'.
Proof.
  intros Ht. induction 1 as [|m ms Hk _ IH]; intros ix st fuel l b Hi Hs Hf Hb.
  { exists st, b. simpl. by rewrite Nat.sub_0_r. }
  destruct fuel as [|fuel]; [simpl in Hf; lia|]. cbn [fmap list_fmap concat] in Hb. rewrite <- app_assoc in Hb.
  destruct Hs as [Hm Hs]. destruct (wreads_type N N_ok _ _ _ (proj1 Hm) b Hb) as (b1 & E1 & Hb1).
  destruct (Ht ix st m (concat (encode denc <$> ms) ++ l) b1 Hi Hm Hk Hb1) as (st1 & b2 & E2 & Hb2 & Hi2).
  destruct (IH (dnext ix m) st1 fuel l b2 Hi2 Hs) as (st' & b' & E & Hb' & Hi'); [simpl in Hf; lia|done|].
  exists st', b'. split; [|done]. cbn [messages length Nat.sub foldl]. rewrite <- E.
  rewrite (PgScan.run_bind _ _ _ _ _ E1). by rewrite (PgScan.run_bind _ _ _ _ _ E2).
Qed.

Definition data_answer (ms : list dmsg) (status : Z) : list Z := concat (encode denc <$> ms) ++ frame 90 [status].

(** The loop is at the next message; it returns the number of rows or an error. It
    fails when the server sent an error, and else only with an error of the model. *)
Definition in_step (m : rd (result * option M)) (ix : tally) (rest : list Z) (b : BufReader C) : Prop :=
  exists x b', m b = (x, b') /\ wire N b' rest /\
    match x with
    | Ret (res, _) => returned_ res = t_rows ix /\ t_err ix = false
    | Fail _ => quiet_ -> t_err ix = true
    | _ => False
    end.

Lemma rows_loop_ok handle inv ok fuel ms status rest ix st b :
  takes_rows handle fuel inv ok -> (forall ix st, inv ix st -> at_ix ix st) ->
  (forall st msgLen, handle st 90 msgLen = (_ ← readN msgLen; d_ended st)) ->
  inv ix st -> seq_ok fuel ix ms -> Forall ok ms -> (length ms < fuel)%nat -> wire N b (data_answer ms status ++ rest) ->
  in_step (messages fuel handle st) (foldl dnext ix ms) rest b.
Proof.
  intros Ht Hinv Hz Hi Hs Hk Hf Hb. unfold data_answer in Hb. rewrite <- app_assoc in Hb.
  destruct (rows_run handle inv ok fuel ms Ht Hk ix st fuel _ b Hi Hs Hf Hb) as (st' & b1 & E & Hb1 & Hi').
  unfold in_step. rewrite E. destruct (fuel - length ms)%nat as [|fuel'] eqn:Ef; [lia|].
  destruct (messages_last N N_ok handle fuel' st' 90 [status] rest
    (match d_err st' with Some e => inl e | None => inr (d_res st', d_model st') end) b1) as (b' & E' & Hb'); [by unfold body_ok|done| |].
  - intros b2 Hb2. rewrite Hz. destruct (wreads_n N N_ok [status] rest ltac:(simpl; lia) b2 Hb2) as (b3 & E3 & Hb3).
    rewrite (PgScan.run_bind (readN (Z.of_nat (length [status]))) _ _ _ _ E3). exists b3. unfold d_ended. by destruct (d_err st').
  - eexists _, b'. split; [exact E'|]. split; [done|]. destruct (Hinv _ _ Hi') as (_ & Hr & He1 & He2).
    destruct (d_err st'); simpl.
    + intros Hq. destruct (t_err _) eqn:Et; [done|]. by specialize (He2 Hq eq_refl).
    + split; [done|]. destruct (t_err _) eqn:Et; [by destruct (He1 eq_refl)|done].
Qed.

Lemma at_ix_model st ix : at_ix ix st -> at_ix ix (with_model st) /\ d_model (with_model st) <> None.
Proof.
  intros (Hc & Hr & He1 & He2). unfold with_model. destruct (d_model st) eqn:Em; [by rewrite Em|]. destruct newModel eqn:En; [done|].
  split; [|done]. split_and!; simpl; try done.
  - intros Ht. by apply or_first_some, He1.
  - intros ([m Hm] & _). by rewrite En in Hm.
Qed.

(** The messages of each protocol. *)
Definition simple_msg (m : dmsg) : Prop := match m with DOther BindComplete => False | _ => True end.
Definition ext_msg (m : dmsg) : Prop := match m with DDesc _ | DOther EmptyQueryResponse => False | _ => True end.

Lemma ext_rows fuel : takes_rows (ext_query_data fuel) fuel at_ix ext_msg.
Proof.
  intros ix st m rest b Hi Hm Hk Hb. destruct m as [ds|cols|m]; [done| |].
  - destruct Hm as (_ & Hc & Hl & H15). unfold ext_query_data. cbn [denc fst snd Z.eqb Pos.eqb].
    destruct (at_ix_model st ix Hi) as [Hi' Hm'].
    destruct (read_row_ok (with_model st) cols rest b ix Hi' Hm' Hc Hl H15 Hb) as (st' & b' & E & Hb' & Hi2 & _).
    rewrite (PgScan.run_bind _ _ _ _ _ E). by exists st', b'.
  - destruct (common m) eqn:Ec.
    + destruct (other_ok (ext_query_data fuel) fuel st m rest b ix) as (st' & b' & E & Hb' & Hi' & _); try done.
      * intros ? ? ? ->. done.
      * intros ? ? ? ->. done.
      * intros ? ? ? [-> | ->]; done.
      * by exists st', b'.
    + destruct m; try done; try (by destruct Hm as (_ & _ & ?)).
      destruct (wreads_skip N N_ok (inl st : dstate + result * option M) [] rest ltac:(simpl; lia) b Hb) as (b1 & E1 & Hb1).
      exists st, b1. split; [exact E1|]. done.
Qed.

Definition with_desc (ix : tally) (st : dstate (M := M)) : Prop := at_ix ix st /\ ((0 < t_cols ix)%nat -> d_model st <> None).

Lemma simple_rows fuel : takes_rows (simple_query_data fuel) fuel with_desc
  (fun m => simple_msg m /\ match m with DRow cols => cols <> [] | DDesc ds => ds <> [] | _ => True end).
Proof.
  intros ix st m rest b [Hi Hmod] Hm [Hx Hk] Hb. destruct m as [ds|cols|m].
  - destruct Hm as (_ & Hds & H15). unfold simple_query_data. cbn [denc fst snd Z.eqb Pos.eqb].
    destruct (wreads_descs ds (d_columns st) rest Hds H15) as (cs & Hcs & Hr). destruct (Hr b Hb) as (b1 & E1 & Hb1).
    rewrite (PgScan.run_bind _ _ _ _ _ E1). eexists _, b1. split; [done|]. split; [done|].
    destruct (at_ix_model (Ds cs (d_model st) (d_res st) (d_err st)) (dnext ix (DDesc ds))) as [? ?]; [|by split].
    destruct Hi as (Hc & Hre & ? & ?). split_and!; simpl; [by rewrite Hcs, Hc|done..].
  - destruct Hm as (_ & Hc & Hl & H15). unfold simple_query_data. cbn [denc fst snd Z.eqb Pos.eqb].
    assert (Hpos : (0 < t_cols ix)%nat) by (destruct cols; [done|simpl in Hl; lia]).
    destruct (read_row_ok st cols rest b ix Hi (Hmod Hpos) Hc Hl H15 Hb) as (st' & b' & E & Hb' & Hi2 & Hm2).
    rewrite (PgScan.run_bind _ _ _ _ _ E). exists st', b'. split; [done|]. split; [done|]. by split.
  - destruct (common m) eqn:Ec.
    + destruct (other_ok (simple_query_data fuel) fuel st m rest b ix) as (st' & b' & E & Hb' & Hi' & Em); try done.
      * intros ? ? ? ->. done.
      * intros ? ? ? ->. done.
      * intros ? ? ? [-> | ->]; done.
      * exists st', b'. split; [done|]. split; [done|]. split; [done|]. rewrite Em. by destruct m.
    + destruct m; try done; try (by destruct Hm as (_ & _ & ?)).
      exists (d_first st errEmptyQuery), b. split; [done|]. split; [done|]. split; [by apply d_first_ix|done].
Qed.

End RowsSync.


(** ** A concrete connection *)

Lemma new_wire N (s : list Z) : (0 < N)%nat -> Forall byte_ok s -> wire N (NewBufReader N s) s.
Proof.
  intros HN Hs. split; [|apply length_replicate]. split; [|by left]. rewrite app_nil_r.
  split_and!; [|done|done|by exists s]. split; simpl; [lia|]. by rewrite length_replicate.
Qed.

(** A model that collects the columns as strings and does not read NULLs. *)
#[export] Instance demo_model : Model (list (list Z)) := {|
  NextColumnScanner m := m;
  ScanColumn R _ m col n := (s ← PgScan.ScanString n; mret (m ++ [s], None));
  AddColumnScanner m := (m, None);
  newModel := inl [];
  ModelDiscard := []
|}.
#[export] Instance demo_model_laws : ModelLaws (list (list Z)).
Proof.
  constructor. intros R HR HL m col n r l Hr. cbn [ScanColumn demo_model]. unfold PgScan.ScanString, mbind, io_mbind.
  destruct (n <=? 0); [by eexists _, _, r, l|]. destruct (read_full r l Hr) as (r' & -> & Hr'). by eexists _, _, r', [].
Defined.

Definition demo_answer : list smsg :=
  [NoticeResponse (bs "n"); DataRow (replicate 100 7); ErrorResponse [(67, bs "42601"); (77, bs "syntax error")];
   CommandComplete (bs "SELECT 1"); ErrorResponse [(67, bs "22012")]].


(** A row that is longer than the buffer, and a NULL. *)
Definition demo_rows : list dmsg :=
  [DDesc [Desc (bs "a") (replicate 6 0) 25 (replicate 8 0); Desc (bs "b") (replicate 6 0) 25 (replicate 8 0)];
   DRow [Some (replicate 100 65); None]; DOther (CommandComplete (bs "SELECT 1"))].

(** The same in the extended protocol, with an error after the row. *)
Definition demo_bound : list dmsg :=
  [DOther BindComplete; DRow [Some (replicate 100 65); None]; DOther (ErrorResponse [(67, bs "57014")])].


#[local] Existing Instance PgAppend.demo_std.
Lemma writeBindExecuteMsg_frames_witness :
  exists wb', writeBindExecuteMsg (bs "1") [PgAppend.Int 7; PgAppend.Nil] NewWriteBuffer = Some wb' /\
    Bytes wb' = [] ++
      frame 66 (cstring [] ++ cstring (bs "1") ++ be16 0 ++ be16 2 ++ concat (param_text <$> [Some (bs "7"); None]) ++ be16 0) ++
      frame 69 (cstring [] ++ be32 0) ++ frame 83 [].
Proof.
  apply (writeBindExecuteMsg_frames (bs "1") [PgAppend.Int 7; PgAppend.Nil] [Some (bs "7"); None] NewWriteBuffer).
  constructor; [intros b; reflexivity|]. constructor; [intros b; reflexivity|]. constructor.
Defined.

(** The columns of a second statement are added to those of the first: its row is
    scanned with the columns of the first. *)
Example columns_kept_ex :
  (description_loop 1 0 [Col 0 25 (bs "a")] (NewBufReader 64 (desc_text (Desc (bs "b") (replicate 6 0) 23 (replicate 8 0))))).1 =
  Ret [Col 0 25 (bs "a"); Col 0 23 (bs "b")].
Proof. vm_compute. reflexivity. Qed.

(** After an error during COPY the loop returns before ReadyForQuery, which stays
    on the connection. *)
Example copy_error_ex :
  let '(x, b) := readCopyData 10 (NewBufReader 64 (frame 69 (fields_text [(67, bs "57014")]) ++ frame 90 [73])) in
  x = Fail (PGError [(67, bs "57014")]) /\ (readMessageType b).1 = Ret (90, 1).
Proof. vm_compute. done. Qed.

End PgWire.
