(* ===== verification/PgFormat.v ===== *)
(** * Queries with placeholders ([src/upg/orm/format.go], [src/upg/internal/parser/parser.go])

    The formatter that replaces [?], [?0], [?name] and [?(name)] by values, the
    parser it reads the query with, and the parts of queries that are appended in
    place of a value. A part may hold a query of its own with placeholders, so the
    nesting of parts is bounded by an argument. *)
From stdpp Require Import base numbers list gmap strings.
From S2P Require Import Prelude Strconv PgReader PgAppend.
#[local] Open Scope Z_scope.

Module PgFormat.
Import PgAppend.

(** ** The parser: what is left of the query *)

Definition isNum (c : Z) : bool := (48 <=? c) && (c <=? 57).
Definition isAlpha (c : Z) : bool := ((97 <=? c) && (c <=? 122)) || ((65 <=? c) && (c <=? 90)).

Definition ReadSep (sep : Z) (p : list Z) : list Z * bool * list Z :=
  match PgReader.IndexByte p sep with
  | None => (p, false, [])
  | Some ind => (take ind p, true, drop (S ind) p)
  end.

(** The loop of [ReadIdentifier]: the identifier, whether a letter was seen, and
    the rest. *)
Fixpoint ident_scan (first alpha : bool) (p : list Z) : list Z * bool * list Z :=
  match p with
  | [] => ([], alpha, [])
  | c :: p' =>
      if isNum c then let '(id, a, rest) := ident_scan false alpha p' in (c :: id, a, rest)
      else if isAlpha c || (negb first && alpha && (c =? 95)) then
        let '(id, a, rest) := ident_scan false true p' in (c :: id, a, rest)
      else ([], alpha, p)
  end.

Definition ReadIdentifier (p : list Z) : list Z * bool * list Z :=
  let plain := let '(id, alpha, rest) := ident_scan true false p in
               match id with [] => ([], false, p) | _ => (id, negb alpha, rest) end in
  match p with
  | 40 :: p' =>
      match PgReader.IndexByte p' 41 with
      | Some ind => (take ind p', false, drop (S ind) p')
      | None => plain
      end
  | _ => plain
  end.

(** ** A reader of SQL *)

(** What stands before the next character outside of strings and quoted names: a
    minus sign, a slash, a character of a word or an ampersand (a quote would begin a
    string with escapes), the quote that ended a string, a string and white space (a
    quote would continue the string), or anything else. *)
Inductive before := Free | Minus | Slash | Word | Closed | Lit.
Inductive lex := Out (k : before) | InStr | InName.
#[export] Instance before_eq_dec : EqDecision before.
Proof. solve_decision. Defined.
#[export] Instance lex_eq_dec : EqDecision lex.
Proof. solve_decision. Defined.

Definition white (c : Z) : bool := (c =? 32) || ((9 <=? c) && (c <=? 13)).
Definition word (c : Z) : bool := isNum c || isAlpha c || (c =? 95) || (c =? 38) || (128 <=? c).

(** One character. The reader refuses comments, dollar signs (which begin strings and
    parameters), strings with a prefix and strings after strings. *)
Definition lex_next (m : lex) (c : Z) : option lex :=
  match m with
  | InStr => Some (if c =? q1 then Out Closed else InStr)
  | InName => Some (if c =? q2 then Out Word else InName)
  | Out k =>
      if c =? q1 then match k with Word | Lit => None | _ => Some InStr end
      else if c =? q2 then Some InName
      else if c =? 36 then None
      else if c =? 45 then match k with Minus => None | _ => Some (Out Minus) end
      else if c =? 42 then match k with Slash => None | _ => Some (Out Free) end
      else if c =? 47 then Some (Out Slash)
      else if white c then Some (Out (match k with Closed | Lit => Lit | _ => Free end))
      else if word c then Some (Out Word)
      else Some (Out Free)
  end.
#[global] Arguments lex_next : simpl never.

(** [Lit] stands for any end of a constant, of a word or of nothing: it refuses more. *)
Definition le_lex (m m' : lex) : Prop :=
  m = m' \/ m' = Out Lit /\ (m = Out Closed \/ m = Out Free \/ m = Out Word).
Lemma lex_next_le m m' c n' : le_lex m m' -> lex_next m' c = Some n' ->
  exists n, lex_next m c = Some n /\ le_lex n n' /\ (m <> m' -> c <> q1).
Proof.
  intros [->|[-> Hm]]; [intros E; exists n'; split; [done|]; split; [by left|done]|].
  unfold lex_next. destruct (Z.eqb_spec c q1) as [->|Hq]; [done|].
  destruct Hm as [->|[->| ->]]; repeat case_match; intros [= <-]; eexists; (split; [done|]); (split; [|done]);
    unfold le_lex; auto.
Qed.

(** Characters outside of string constants, and the constants by their content. *)
Inductive token := Chr (c : Z) | Const (s : list Z).
Definition longer (c : Z) (ts : list token) : list token :=
  match ts with Const s :: ts => Const (s ++ [c]) :: ts | _ => ts end.
(** The tokens so far, the last one first; two quotes in a string are one. *)
Definition token_next (st : lex * list token) (c : Z) : option (lex * list token) :=
  let '(m, ts) := st in
  m' ← lex_next m c;
  Some (m', match m with
            | InStr => if c =? q1 then ts else longer c ts
            | InName => Chr c :: ts
            | Out k => if c =? q1 then match k with Closed => longer c ts | _ => Const [] :: ts end else Chr c :: ts
            end).
Fixpoint token_scan (st : lex * list token) (l : list Z) : option (lex * list token) :=
  match l with [] => Some st | c :: l' => st ← token_next st c; token_scan st l' end.
Definition finish (st : lex * list token) : option (list token) :=
  match st with (Out _, ts) => Some (reverse ts) | _ => None end.
Definition sql_tokens (l : list Z) : option (list token) := token_scan (Out Free, []) l ≫= finish.

Lemma token_scan_app st l1 l2 : token_scan st (l1 ++ l2) = token_scan st l1 ≫= fun st => token_scan st l2.
Proof. revert st. induction l1 as [|c l IH]; intros st; [done|]. simpl. destruct (token_next st c); simpl; auto. Qed.

Lemma token_scan_le l : forall m m' ts n' ts', le_lex m m' -> token_scan (m', ts) l = Some (n', ts') ->
  exists n, token_scan (m, ts) l = Some (n, ts') /\ le_lex n n'.
Proof.
  induction l as [|c l IH]; intros m m' ts n' ts' Hle E; simpl in *; [injection E as -> ->; by exists m|].
  destruct (lex_next m' c) as [m1'|] eqn:E1; simpl in E; [|done].
  destruct (lex_next_le _ _ _ _ Hle E1) as (m1 & -> & Hle1 & Hq). simpl. destruct (IH _ _ _ _ _ Hle1 E) as (n & En & Hn).
  exists n. split; [|done]. rewrite <- En. f_equal. f_equal. destruct Hle as [->|[-> Hm]]; [done|].
  rewrite (proj2 (Z.eqb_neq c q1)); [|apply Hq; by destruct Hm as [->|[->| ->]]]. by destruct Hm as [->|[->| ->]].
Qed.

(** A constant is read as one token. *)
Lemma token_scan_dbl s ts c : token_scan (InStr, Const s :: ts) (dbl c ++ [q1]) = Some (Out Closed, Const (s ++ c) :: ts).
Proof.
  revert s. induction c as [|x c IH]; intros s; [by rewrite app_nil_r|]. unfold dbl in *. rewrite bind_cons.
  replace (s ++ x :: c) with ((s ++ [x]) ++ c) by (by rewrite <- app_assoc). rewrite <- IH. destruct (Z.eqb_spec x q1) as [->|Hx].
  - done.
  - cbn [app token_scan token_next lex_next]. unfold lex_next. by rewrite (proj2 (Z.eqb_neq x q1)).
Qed.
Lemma token_scan_quoted ts c : token_scan (Out Free, ts) (quoted c) = Some (Out Closed, Const c :: ts).
Proof. exact (token_scan_dbl [] ts c). Qed.

(** ** The formatter *)

Section Format.
Context `{GoStd}.

(** What is put in place of a placeholder: a value, or a part of a query. A group
    holds conditions and groups, each with the separator before it. *)
Inductive param :=
| PValue (v : value)
| SafeQuery (query : list Z) (params : list param)
| Cond (cond : list Z) (params : list param)
| CondGroup (conds : list (list Z * param))
| Field (field : list Z)
| Table (table alias : list Z)
| Client (f : list Z -> list Z + list Z).

Abbreviation Formatter := (gmap (list Z) param).
Definition setParam (name : list Z) (p : param) (f : Formatter) : Formatter := <[name := p]> f.
Definition WithParam (name : list Z) (p : param) (f : Formatter) : Formatter := setParam name p f.
Definition hasParams (f : Formatter) : bool := negb (bool_decide (f = ∅)).

(** [Formatter.append] with a function that appends a parameter. *)
Fixpoint append_loop (fuel : nat) (appendParam : list Z -> param -> option (list Z)) (f : Formatter)
    (params : list param) (dst p : list Z) (paramsIndex : nat) : option (list Z) :=
  match fuel with
  | O => None
  | S fuel' =>
      let continue := append_loop fuel' appendParam f params in
      match p with
      | [] => Some dst
      | _ =>
          let '(b, ok, p) := ReadSep 63 p in
          if negb ok then continue (dst ++ b) p paramsIndex
          else if bool_decide (last b = Some 92) then continue (dst ++ take (length b - 1) b ++ [63]) p paramsIndex
          else
            let dst := dst ++ b in
            let '(id, numeric, p) := ReadIdentifier p in
            let restore := continue (dst ++ [63] ++ id) p paramsIndex in
            match id with
            | [] =>
                match params !! paramsIndex with
                | None => continue (dst ++ [63]) p paramsIndex
                | Some param => dst ← appendParam dst param; continue dst p (S paramsIndex)
                end
            | _ =>
                if numeric then
                  match Strconv.ParseInt id 10 with
                  | None => restore
                  | Some idx =>
                      match params !! Z.to_nat idx with
                      | None => restore
                      | Some param => dst ← appendParam dst param; continue dst p paramsIndex
                      end
                  end
                else
                  match f !! id with
                  | Some param => dst ← appendParam dst param; continue dst p paramsIndex
                  | None => restore
                  end
            end
      end
  end.

Definition format_with (appendParam : list Z -> param -> option (list Z)) (f : Formatter) (dst query : list Z) (params : list param) :
    option (list Z) :=
  if (match params with [] => true | _ => false end && negb (hasParams f)) ||
     (match PgReader.IndexByte query 63 with None => true | Some _ => false end)
  then Some (dst ++ query)
  else append_loop (S (length query)) appendParam f params dst query 0.

(** [appendParam] and the [AppendQuery] methods of the parts of queries; the bound
    is the depth of parts in parts. *)
Fixpoint appendParam (depth : nat) (f : Formatter) (b : list Z) (p : param) : option (list Z) :=
  match depth with
  | O => None
  | S depth' =>
      match p with
      | PValue v => match Append b v quoteFlag with Some r => Some (default [] r) | None => None end
      | SafeQuery query params => format_with (appendParam depth' f) f b query params
      | Cond cond params =>
          r ← format_with (appendParam depth' f) f (b ++ bs "(") cond params; Some (r ++ bs ")")
      | CondGroup conds =>
          r ← foldl (fun acc '(i, (sep, c)) =>
                       b ← acc; appendParam depth' f (if (i =? 0)%nat then b else b ++ sep) c)
                (Some (b ++ bs "(")) (imap pair conds);
          Some (r ++ bs ")")
      | Field field => Some (AppendIdent b field quoteFlag)
      | Table table alias =>
          let b := match table with [] => b | _ => AppendIdent b table quoteFlag end in
          Some (match alias with [] => b | _ => AppendIdent (b ++ bs " AS ") alias quoteFlag end)
      | Client g => Some (match g b with inl bb => bb | inr msg => AppendError b msg end)
      end
  end.

Definition FormatQuery (depth : nat) (f : Formatter) (dst query : list Z) (params : list param) : option (list Z) :=
  format_with (appendParam depth f) f dst query params.

(** ** What is there stays there *)

(** Parameters without code of the client, or whose code appends. *)
Fixpoint appending_param (p : param) : Prop :=
  match p with
  | PValue v => appending v
  | SafeQuery _ ps | Cond _ ps => foldr (fun p P => appending_param p /\ P) True ps
  | CondGroup cs => foldr (fun c P => appending_param (snd c) /\ P) True cs
  | Client g => forall b bb, g b = inl bb -> b `prefix_of` bb
  | Field _ | Table _ _ => True
  end.
Lemma appending_all ps : foldr (fun p P => appending_param p /\ P) True ps <-> Forall appending_param ps.
Proof. induction ps as [|p ps IH]; simpl; [done|]. by rewrite Forall_cons, IH. Qed.
Definition appending_named (f : Formatter) : Prop := map_Forall (fun _ => appending_param) f.

Definition app_grows (app : list Z -> param -> option (list Z)) : Prop :=
  forall b p r, appending_param p -> app b p = Some r -> b `prefix_of` r.

Lemma append_loop_grows app f ps fuel : app_grows app -> appending_named f -> Forall appending_param ps ->
  forall dst p idx r, append_loop fuel app f ps dst p idx = Some r -> dst `prefix_of` r.
Proof.
  intros Ha Hf Hps. assert (Hl : forall k q, ps !! k = Some q -> appending_param q) by (intros k q; by apply Forall_lookup_1).
  induction fuel as [|fuel IH]; intros dst p idx r; [done|]. cbn [append_loop].
  assert (Hmore : forall dst' k p idx, dst `prefix_of` dst' -> append_loop fuel app f ps (dst' ++ k) p idx = Some r -> dst `prefix_of` r).
  { intros dst' k p' idx' Hd Hr%IH. etrans; [exact Hd|]. by eapply prefix_less. }
  assert (Happ : forall dst' q p idx, dst `prefix_of` dst' -> appending_param q ->
    (d ← app dst' q; append_loop fuel app f ps d p idx) = Some r -> dst `prefix_of` r).
  { intros dst' q p' idx' Hd Hq Hr. destruct (app dst' q) as [d|] eqn:E; [|done]. apply IH in Hr. etrans; [exact Hd|]. etrans; [|exact Hr]. by eapply Ha. }
  assert (Hb : forall k, dst `prefix_of` dst ++ k) by (intros; by apply prefix_app_r).
  destruct p as [|c p]; [by intros [= <-]|]. destruct (ReadSep 63 (c :: p)) as [[b ok] p']. destruct ok; cbn [negb]; [|by apply Hmore].
  case_bool_decide; [by apply Hmore|]. destruct (ReadIdentifier p') as [[id numeric] p2]. destruct id as [|x id].
  - destruct (ps !! idx) as [q|] eqn:E; [|by apply Hmore]. apply Happ; [done|by eapply Hl].
  - destruct numeric.
    + destruct (Strconv.ParseInt _ _) as [i|]; [|by apply Hmore]. destruct (ps !! Z.to_nat i) as [q|] eqn:E; [|by apply Hmore].
      apply Happ; [done|by eapply Hl].
    + destruct (f !! (x :: id)) as [q|] eqn:E; [|by apply Hmore]. apply Happ; [done|by eapply Hf].
Qed.
Lemma format_with_grows app f dst query ps r : app_grows app -> appending_named f -> Forall appending_param ps ->
  format_with app f dst query ps = Some r -> dst `prefix_of` r.
Proof. intros Ha Hf Hps. unfold format_with. case_match; [intros [= <-]; by apply prefix_app_r|]. by apply append_loop_grows. Qed.

Lemma appending_conds (cs : list (list Z * param)) :
  foldr (fun c P => appending_param (snd c) /\ P) True cs <-> Forall (fun c => appending_param (snd c)) cs.
Proof. induction cs as [|c cs IH]; simpl; [done|]. by rewrite Forall_cons, IH. Qed.
(** The loop over the conditions of a group. *)
Lemma group_grows app (l : list (nat * (list Z * param))) d r : app_grows app -> Forall (fun x => appending_param (snd (snd x))) l ->
  foldl (fun acc '(i, (sep, c)) => b ← acc; app (if (i =? 0)%nat then b else b ++ sep) c) (Some d) l = Some r -> d `prefix_of` r.
Proof.
  intros Ha Hl. revert d. induction Hl as [|[i [sep c]] l Hc _ IH]; intros d; simpl; [by intros [= <-]|].
  destruct (app _ c) as [d1|] eqn:E.
  - intros Hr%IH. etrans; [|exact Hr]. apply Ha in E; [|done]. etrans; [|exact E]. case_match; [done|by apply prefix_app_r].
  - intros Hr. exfalso. clear -Hr. induction l as [|[i [sep c]] l IH]; [done|]. by apply IH.
Qed.

Lemma appendParam_grows depth f : appending_named f -> app_grows (appendParam depth f).
Proof.
  intros Hf. induction depth as [|depth IH]; intros b p r Hp; [done|]. cbn [appendParam]. destruct p as [v|q ps|q ps|cs|x|x y|g]; cbn [appending_param] in Hp.
  - unfold Append. destruct (append_at Alone v b quoteFlag) as [o|] eqn:E; [|done]. intros [= <-].
    by destruct (append_at_prefix v Hp Alone quoteFlag eq_refl b o E) as (r' & -> & ?).
  - apply format_with_grows; [done|done|by apply appending_all].
  - destruct (format_with _ _ _ _ _) as [r1|] eqn:E; [|done]. intros [= <-]. apply prefix_more.
    eapply prefix_less, format_with_grows; [done|done|by apply appending_all|exact E].
  - intros Hr. destruct (foldl _ _ _) as [r1|] eqn:E; [|done]. injection Hr as <-. apply prefix_more.
    apply (prefix_less b r1 (bs "(")). revert E. apply (group_grows (appendParam depth f)); [done|].
    apply Forall_lookup. intros i x Hx. rewrite list_lookup_imap in Hx. destruct (cs !! i) as [c|] eqn:Ec; [|done]. injection Hx as <-. simpl.
    by eapply (Forall_lookup_1 _ _ _ _ (proj1 (appending_conds cs) Hp)).
  - intros [= <-]. unfold AppendIdent, appendIdent. rewrite ident_loop_eq. by apply prefix_app_r.
  - intros [= <-]. unfold AppendIdent, appendIdent. destruct x, y; rewrite ?(ident_loop_eq b), ?(ident_loop_eq (_ ++ _)), <- ?app_assoc; try done; by apply prefix_app_r.
  - intros [= <-]. destruct (g b) as [bb|msg] eqn:E; [by eapply Hp|]. unfold AppendError. rewrite <- app_assoc. by apply prefix_app_r.
Qed.

(** ** Templates *)

(** A query is texts with holes between them. *)
Inductive hole := Esc | Pos | Num (k : nat) | Named (n : list Z) | Paren (n : list Z).
#[local] Instance hole_eq_dec : EqDecision hole.
Proof. solve_decision. Defined.
Definition hole_text (h : hole) : list Z :=
  match h with
  | Esc => [92; 63]
  | Pos => [63]
  | Num k => 63 :: Strconv.FormatUint (Z.of_nat k) 10
  | Named n => 63 :: n
  | Paren n => 63 :: 40 :: n ++ [41]
  end.
Fixpoint render (tpl : list (list Z * hole)) (tl : list Z) : list Z :=
  match tpl with
  | [] => tl
  | (t, h) :: tpl' => t ++ hole_text h ++ render tpl' tl
  end.

(** Where an identifier ends, and which names there are. *)
Definition not_ident (under : bool) (rest : list Z) : Prop :=
  match rest with [] => True | c :: _ => isNum c = false /\ isAlpha c = false /\ (under = true -> c <> 95) end.
Definition name_ok (n : list Z) : Prop :=
  match n with [] => False | c :: n' => isAlpha c = true /\ Forall (fun c => isNum c || isAlpha c || (c =? 95) = true) n' end.
Definition hole_ok (h : hole) (rest : list Z) : Prop :=
  match h with
  | Esc => True
  | Pos => not_ident false rest /\ head rest <> Some 40
  | Num k => not_ident false rest /\ Z.of_nat k <= Strconv.int64_max
  | Named n => not_ident true rest /\ name_ok n
  | Paren n => n <> [] /\ ~ 41 ∈ n
  end.
Fixpoint template_ok (tpl : list (list Z * hole)) (tl : list Z) : Prop :=
  match tpl with
  | [] => ~ 63 ∈ tl
  | (t, h) :: tpl' =>
      ~ 63 ∈ t /\ (h <> Esc -> last t <> Some 92) /\ hole_ok h (render tpl' tl) /\ template_ok tpl' tl
  end.

(** The text that each hole becomes: the next parameter, the one with the number or
    the name; a hole without a parameter stays, without its parentheses. *)
Definition fill (pt : param -> list Z) (f : Formatter) (params : list param) (idx : nat) (h : hole) : list Z * nat :=
  match h with
  | Esc => ([63], idx)
  | Pos => match params !! idx with Some p => (pt p, S idx) | None => ([63], idx) end
  | Num k => (match params !! k with Some p => pt p | None => hole_text h end, idx)
  | Named n | Paren n => (match f !! n with Some p => pt p | None => 63 :: n end, idx)
  end.
Fixpoint expand (pt : param -> list Z) (f : Formatter) (params : list param) (idx : nat) (tpl : list (list Z * hole)) (tl : list Z) : list Z :=
  match tpl with
  | [] => tl
  | (t, h) :: tpl' => let '(x, idx) := fill pt f params idx h in t ++ x ++ expand pt f params idx tpl' tl
  end.

(** *** The parser on a template *)

Lemma IndexByte_app t rest c : ~ c ∈ t -> PgReader.IndexByte (t ++ c :: rest) c = Some (length t).
Proof.
  induction t as [|x t IH]; intros Ht; simpl; [by rewrite Z.eqb_refl|].
  rewrite (proj2 (Z.eqb_neq x c)) by set_solver. rewrite IH by set_solver. done.
Qed.
Lemma IndexByte_none t c : ~ c ∈ t -> PgReader.IndexByte t c = None.
Proof.
  induction t as [|x t IH]; intros Ht; simpl; [done|].
  rewrite (proj2 (Z.eqb_neq x c)) by set_solver. by rewrite IH by set_solver.
Qed.

Lemma ReadSep_app t rest c : ~ c ∈ t -> ReadSep c (t ++ c :: rest) = (t, true, rest).
Proof.
  intros Ht. unfold ReadSep. rewrite IndexByte_app by done. rewrite take_app_length.
  by rewrite cons_middle, app_assoc, drop_app_length' by (rewrite length_app; simpl; lia).
Qed.

Lemma ident_scan_end first alpha rest : not_ident alpha rest -> ident_scan first alpha rest = ([], alpha, rest).
Proof.
  destruct rest as [|c rest]; [done|]. intros (H1 & H2 & H3). simpl. rewrite H1, H2. simpl.
  destruct alpha; [|by rewrite andb_false_r]. rewrite (proj2 (Z.eqb_neq c 95)) by auto. by rewrite andb_false_r.
Qed.

Lemma ident_scan_digits ds rest first alpha : Forall (fun c => isNum c = true) ds -> not_ident alpha rest ->
  ident_scan first alpha (ds ++ rest) = (ds, alpha, rest).
Proof.
  intros Hd Hr. revert first. induction Hd as [|c ds Hc _ IH]; intros first; [by apply ident_scan_end|].
  simpl. rewrite Hc, IH. done.
Qed.

Lemma ident_scan_name n rest : Forall (fun c => isNum c || isAlpha c || (c =? 95) = true) n -> not_ident true rest ->
  ident_scan false true (n ++ rest) = (n, true, rest).
Proof.
  intros Hn Hr. induction Hn as [|c n Hc _ IH]; [by apply ident_scan_end|]. simpl. rewrite IH.
  destruct (isNum c); [done|]. simpl in Hc. by rewrite Hc.
Qed.

Definition not_paren (p : list Z) : Prop := head p <> Some 40.
Lemma ReadIdentifier_plain p : not_paren p -> ReadIdentifier p =
  let '(id, alpha, rest) := ident_scan true false p in match id with [] => ([], false, p) | _ => (id, negb alpha, rest) end.
Proof.
  intros Hp. unfold ReadIdentifier. destruct p as [|c p]; [done|]. unfold not_paren in Hp. simpl in Hp.
  assert (c <> 40) by congruence. destruct c as [|c|c]; try done. repeat (destruct c as [c|c|]; try done).
Qed.

(** What the parser reads after the question mark. *)
Lemma ReadIdentifier_hole h rest : hole_ok h rest -> h <> Esc ->
  match h with
  | Esc => True
  | Pos => ReadIdentifier rest = ([], false, rest)
  | Num k => ReadIdentifier (Strconv.FormatUint (Z.of_nat k) 10 ++ rest) = (Strconv.FormatUint (Z.of_nat k) 10, true, rest)
  | Named n => ReadIdentifier (n ++ rest) = (n, false, rest)
  | Paren n => ReadIdentifier (40 :: n ++ [41] ++ rest) = (n, false, rest)
  end.
Proof.
  intros Hh He. destruct h; try done; simpl in Hh.
  - destruct Hh as [Hr Hp]. rewrite ReadIdentifier_plain by done. by rewrite ident_scan_end.
  - destruct Hh as [Hr Hk]. pose proof (Strconv.FormatUint_digits (Z.of_nat k) ltac:(lia)) as Hd.
    pose proof (Strconv.FormatUint_nonempty (Z.of_nat k) 10 ltac:(lia) ltac:(lia)) as Hne.
    rewrite ReadIdentifier_plain.
    + rewrite ident_scan_digits; [by destruct (Strconv.FormatUint (Z.of_nat k) 10)| |done].
      eapply Forall_impl; [exact Hd|]. intros c Hc. cbv beta in *. unfold isNum. lia.
    + unfold not_paren. destruct (Strconv.FormatUint (Z.of_nat k) 10) as [|c ds]; [done|]. apply Forall_cons in Hd as [Hc _].
      simpl in *. intros [= ->]. lia.
  - destruct Hh as [Hr Hn]. destruct n as [|c n]; [done|]. destruct Hn as [Hc Hn]. rewrite ReadIdentifier_plain.
    + cbn [app ident_scan]. destruct (isNum c) eqn:En; [unfold isNum, isAlpha in *; lia|]. rewrite Hc. simpl.
      by rewrite ident_scan_name.
    + unfold not_paren. simpl. intros [= ->]. done.
  - destruct Hh as [Hn H41]. unfold ReadIdentifier. change ([41] ++ rest) with (41 :: rest).
    rewrite IndexByte_app by done. rewrite take_app_length.
    by rewrite cons_middle, app_assoc, drop_app_length' by (rewrite length_app; simpl; lia).
Qed.

(** *** The loop on a template *)

Context (app : list Z -> param -> option (list Z)) (pt : param -> list Z) (f : Formatter) (params : list param).
Hypothesis app_ok : forall p b, p ∈ params \/ (exists n, f !! n = Some p) -> app b p = Some (b ++ pt p).

Lemma app_pos k p b : params !! k = Some p -> app b p = Some (b ++ pt p).
Proof. intros Hp. apply app_ok. left. by apply list_elem_of_lookup_2 in Hp. Qed.
Lemma app_named n p b : f !! n = Some p -> app b p = Some (b ++ pt p).
Proof. intros Hp. apply app_ok. right. by exists n. Qed.

Lemma loop_text fuel dst tl idx : ~ 63 ∈ tl -> (length tl < fuel)%nat -> append_loop fuel app f params dst tl idx = Some (dst ++ tl).
Proof.
  intros Ht Hf. destruct fuel as [|fuel]; [lia|]. destruct tl as [|c tl]; [simpl; by rewrite app_nil_r|].
  cbn [append_loop]. unfold ReadSep. rewrite IndexByte_none by done. cbn [negb].
  destruct fuel as [|fuel]; [simpl in Hf; lia|]. done.
Qed.

(** One text and its hole. *)
Lemma loop_hole fuel dst t h rest idx : ~ 63 ∈ t -> (h <> Esc -> last t <> Some 92) -> hole_ok h rest ->
  append_loop (S fuel) app f params dst (t ++ hole_text h ++ rest) idx =
  let '(x, idx) := fill pt f params idx h in append_loop fuel app f params (dst ++ t ++ x) rest idx.
Proof.
  intros Ht Hlast Hh. assert (Hne : t ++ hole_text h ++ rest <> []) by (destruct t; [|done]; by destruct h).
  cbn [append_loop]. destruct (t ++ hole_text h ++ rest) as [|c0 l0] eqn:E0; [done|]. rewrite <- E0. clear E0 Hne c0 l0.
  destruct (decide (h = Esc)) as [->|He].
  { simpl. replace (t ++ 92 :: 63 :: rest) with ((t ++ [92]) ++ 63 :: rest) by (by rewrite <- app_assoc).
    rewrite ReadSep_app by set_solver. cbn [negb]. rewrite last_snoc, bool_decide_true, drop_last_app by done. done. }
  assert (Ehole : exists l, hole_text h ++ rest = 63 :: l /\ ReadSep 63 (t ++ hole_text h ++ rest) = (t, true, l)).
  { destruct h; try done; simpl; eexists; (split; [done|]); by rewrite ReadSep_app. }
  destruct Ehole as (l & El & ->). cbn [negb]. rewrite bool_decide_false by auto.
  pose proof (ReadIdentifier_hole h rest Hh He) as Hid. destruct h; try done; simpl in El; injection El as <-.
  - rewrite Hid. cbn [fill]. destruct (params !! idx) as [p|] eqn:Ep.
    + rewrite (app_pos _ _ _ Ep). cbn. by rewrite <- app_assoc.
    + by rewrite <- app_assoc.
  - rewrite Hid. cbn [fill]. destruct Hh as [_ Hk].
    pose proof (Strconv.FormatUint_nonempty (Z.of_nat k) 10 ltac:(lia) ltac:(lia)) as Hn0.
    pose proof (Strconv.ParseInt_FormatUint 10 (Z.of_nat k) ltac:(lia) ltac:(lia)) as Hp.
    cbn [hole_text]. destruct (Strconv.FormatUint (Z.of_nat k) 10) as [|d ds]; [done|]. rewrite Hp, Nat2Z.id.
    destruct (params !! k) as [p|] eqn:Ep; [|by rewrite <- app_assoc].
    rewrite (app_pos _ _ _ Ep). cbn. by rewrite <- app_assoc.
  - rewrite Hid. cbn [fill]. destruct Hh as [_ Hn]. destruct n as [|d ds]; [done|].
    destruct (f !! (d :: ds)) as [p|] eqn:Ep; [|by rewrite <- app_assoc].
    rewrite (app_named _ _ _ Ep). cbn. by rewrite <- app_assoc.
  - rewrite <- app_assoc, Hid. cbn [fill]. destruct Hh as [Hn _]. destruct n as [|d ds]; [done|].
    destruct (f !! (d :: ds)) as [p|] eqn:Ep; [|by rewrite <- app_assoc].
    rewrite (app_named _ _ _ Ep). cbn. by rewrite <- app_assoc.
Qed.

Lemma loop_template tpl tl : template_ok tpl tl -> forall fuel dst idx, (length (render tpl tl) < fuel)%nat ->
  append_loop fuel app f params dst (render tpl tl) idx = Some (dst ++ expand pt f params idx tpl tl).
Proof.
  induction tpl as [|[t h] tpl IH]; intros Hok fuel dst idx Hf; simpl in Hok.
  { by apply loop_text. }
  destruct Hok as (Ht & Hl & Hh & Hok). destruct fuel as [|fuel]; [lia|]. cbn [render expand] in *.
  rewrite loop_hole by done. destruct (fill pt f params idx h) as [x idx'].
  rewrite IH; [by rewrite <- !app_assoc|done|]. rewrite !length_app in Hf.
  assert (0 < length (hole_text h))%nat by (destruct h; simpl; lia). lia.
Qed.

End Format.

Section Queries.
Context `{GoStd}.

Lemma FormatQuery_expand (depth : nat) (f : gmap (list Z) param) (params : list param) (pt : param -> list Z)
    (tpl : list (list Z * hole)) (tl dst : list Z) :
  template_ok tpl tl ->
  (forall p b, p ∈ params \/ (exists n, f !! n = Some p) -> appendParam depth f b p = Some (b ++ pt p)) ->
  FormatQuery depth f dst (render tpl tl) params =
  Some (dst ++ if bool_decide (params = [] /\ f = ∅) then render tpl tl else expand pt f params 0 tpl tl).
Proof.
  intros Hok Happ. unfold FormatQuery, format_with, hasParams.
  set (no := (match params with [] => true | _ => false end && negb (negb (bool_decide (f = ∅))))).
  assert (Hno : no = bool_decide (params = [] /\ f = ∅)).
  { unfold no. rewrite negb_involutive. destruct params; simpl; repeat case_bool_decide; naive_solver. }
  rewrite <- Hno. destruct no; [done|]. cbn [orb].
  destruct (PgReader.IndexByte (render tpl tl) 63) as [i|] eqn:Ei; [apply loop_template; [done|done|lia]|].
  apply PgReader.IndexByte_None in Ei. destruct tpl as [|[t h] tpl]; [done|]. exfalso. apply Ei. simpl.
  destruct h; set_solver.
Qed.

(** In a query made of texts and placeholders, FormatQuery replaces every
    positional, numbered and named placeholder by what its parameter appends and
    every escaped question mark by a question mark, and copies the texts; a
    placeholder without a parameter stays. A query without any parameters is
    copied as it is. *)
Theorem FormatQuery_template (depth : nat) (f : gmap (list Z) param) (params : list param) (pt : param -> list Z)
    (tpl : list (list Z * hole)) (tl dst : list Z) :
  template_ok tpl tl ->
  (forall p b, p ∈ params \/ (exists n, f !! n = Some p) -> appendParam depth f b p = Some (b ++ pt p)) ->
  FormatQuery depth f dst (render tpl tl) params =
  Some (dst ++ if bool_decide (params = [] /\ f = ∅) then render tpl tl else expand pt f params 0 tpl tl).
Proof. apply FormatQuery_expand. Qed.

(** The constant that a value becomes. *)
Definition constant (p : param) : list Z :=
  match p with PValue v => quoted (default [] (content v)) | _ => [] end.

(** The value for a placeholder, if there is one, and the next position. *)
Definition value_at (f : gmap (list Z) param) (params : list param) (idx : nat) (h : hole) : option param * nat :=
  match h with
  | Esc => (None, idx)
  | Pos => match params !! idx with Some p => (Some p, S idx) | None => (None, idx) end
  | Num k => (params !! k, idx)
  | Named n | Paren n => (f !! n, idx)
  end.

(** How the query reads when each placeholder with a value is one constant: its texts
    are read one after the other, a placeholder comes where the reader is outside of
    strings and names and no word, sign or string touches it, and no quote comes next.
    What is left of the other placeholders belongs to the texts. *)
Fixpoint template_tokens (f : gmap (list Z) param) (params : list param) (st : lex * list token) (idx : nat)
    (tpl : list (list Z * hole)) (tl : list Z) : option (list token) :=
  match tpl with
  | [] => token_scan st tl ≫= finish
  | (t, h) :: tpl' =>
      match value_at f params idx h with
      | (Some (PValue v), idx') =>
          st ← token_scan st t;
          if bool_decide (fst st = Out Free)
          then template_tokens f params (Out Lit, Const (default [] (content v)) :: snd st) idx' tpl' tl else None
      | (_, idx') => st ← token_scan st (t ++ (fill constant f params idx h).1); template_tokens f params st idx' tpl' tl
      end
  end.

Lemma fill_value (f : gmap (list Z) param) params idx h :
  (fill constant f params idx h).2 = snd (value_at f params idx h) /\
  match fst (value_at f params idx h) with Some p => (fill constant f params idx h).1 = constant p | None => True end.
Proof. destruct h; simpl; try done; destruct (_ !! _); done. Qed.

Lemma expand_tokens f params tpl tl : forall m m' ts idx r, le_lex m m' ->
  template_tokens f params (m', ts) idx tpl tl = Some r ->
  token_scan (m, ts) (expand constant f params idx tpl tl) ≫= finish = Some r.
Proof.
  induction tpl as [|[t h] tpl IH]; intros m m' ts idx r Hle E; cbn [template_tokens expand] in *.
  - destruct (token_scan (m', ts) tl) as [[n' ts']|] eqn:Et; [|done]. destruct (token_scan_le _ _ _ _ _ _ Hle Et) as (n & -> & Hn).
    simpl in *. destruct n' as [k| |]; try done. by destruct Hn as [->|[_ [->|[->| ->]]]].
  - destruct (fill_value f params idx h) as [Hi Hv]. destruct (fill constant f params idx h) as [x idx1]. simpl in Hi, Hv. subst idx1. cbn [fst] in E.
    assert (Hplain : (st ← token_scan (m', ts) (t ++ x); template_tokens f params st (snd (value_at f params idx h)) tpl tl) = Some r ->
      token_scan (m, ts) (t ++ x ++ expand constant f params (snd (value_at f params idx h)) tpl tl) ≫= finish = Some r).
    { intros E'. destruct (token_scan (m', ts) (t ++ x)) as [[n' ts']|] eqn:Et; [|done]. destruct (token_scan_le _ _ _ _ _ _ Hle Et) as (n & En & Hn).
      rewrite app_assoc, token_scan_app, En. by eapply IH. }
    destruct (value_at f params idx h) as [[p|] idx']; simpl in *; [|by apply Hplain].
    destruct p as [v| | | | | |]; try by apply Hplain. subst x. clear Hplain.
    destruct (token_scan (m', ts) t) as [[n' ts']|] eqn:Et; simpl in E; [|done]. case_bool_decide as Hfree; [|done]. subst n'.
    destruct (token_scan_le _ _ _ _ _ _ Hle Et) as (n & En & Hn). destruct Hn as [->|[? _]]; [|done].
    rewrite token_scan_app, En. cbn [mbind option_bind]. rewrite token_scan_app. cbn [constant]. rewrite token_scan_quoted. cbn [mbind option_bind].
    eapply IH; [|exact E]. right. split; [done|]. by left.
Qed.

(** C3: With strings, byte strings, arrays and hstores for its positional, numbered and
    named parameters, a query is written so that a reader of SQL finds its texts as
    they are and, in place of each placeholder, one string constant with the content
    of its parameter, so that no parameter changes the query around it. The
    placeholders stand outside of strings and quoted names, apart from words, signs and
    strings before them and quotes after them, and the texts have no comments and
    dollar signs ([template_tokens] gives the reading). *)
Theorem FormatQuery_literals `{!GoStdLaws} (depth : nat) (f : gmap (list Z) param) (vs : list value)
    (tpl : list (list Z * hole)) (tl dst : list Z) (ts : list token) :
  template_ok tpl tl -> (vs <> [] \/ f <> ∅) ->
  (forall v, v ∈ vs \/ (exists n, f !! n = Some (PValue v)) -> value_ok v /\ is_Some (content v)) ->
  (forall n p, f !! n = Some p -> exists v, p = PValue v) ->
  template_tokens f (PValue <$> vs) (Out Free, []) 0 tpl tl = Some ts ->
  exists txt, FormatQuery (S depth) f dst (render tpl tl) (PValue <$> vs) = Some (dst ++ txt) /\ sql_tokens txt = Some ts.
Proof.
  intros Hok Hvs Hv Hf Ht. exists (expand constant f (PValue <$> vs) 0 tpl tl). split; [|by eapply expand_tokens; [by left|]].
  rewrite (FormatQuery_expand _ _ _ constant); [|done|].
  - rewrite bool_decide_false; [done|]. by intros [?%fmap_nil_inv ?]; destruct Hvs.
  - assert (Happ : forall v b, value_ok v /\ is_Some (content v) -> appendParam (S depth) f b (PValue v) = Some (b ++ constant (PValue v))).
    { intros v b [Hok' [c Hc]]. cbn [appendParam constant]. rewrite (Append_quoted b v c) by done. by rewrite Hc. }
    intros p b [(v & -> & Hin)%list_elem_of_fmap|[n Hn]]; [by apply Happ, Hv; left|].
    destruct (Hf n p Hn) as [v ->]. apply Happ, Hv. right. by exists n.
Qed.

End Queries.

(** ** Examples *)

#[local] Existing Instance demo_std.
#[local] Existing Instance demo_std_laws.

Definition demo_query : list (list Z * hole) :=
  [(bs "SELECT ", Named (bs "table_name")); (bs " WHERE a = ", Pos); (bs " AND b = ", Num 0); (bs " AND c ", Esc);
   (bs " AND ", Paren (bs "x y")); (bs " = ", Pos)].
Definition demo_named : gmap (list Z) param := WithParam (bs "table_name") (Field (bs "t.x")) ∅.
Definition demo_text (p : param) : list Z :=
  match p with
  | PValue (Str s) => quoted s
  | Field x => AppendIdent [] x quoteFlag
  | _ => []
  end.

Lemma demo_query_ok : template_ok demo_query (bs " LIMIT 1").
Proof.
  cbn [template_ok demo_query].
  repeat match goal with
  | |- _ /\ _ => split
  | |- ~ _ ∈ _ => refine (bool_decide_unpack _ _); vm_compute; exact I
  | |- _ <> _ -> _ => intros _; vm_compute; discriminate
  | |- hole_ok _ _ => cbn [hole_ok]
  | |- not_ident _ _ => vm_compute
  | |- name_ok _ => vm_compute
  | |- Forall _ _ => repeat constructor
  | _ => done
  end; try (intros; discriminate).
Qed.

Lemma FormatQuery_template_witness :
  FormatQuery 3 demo_named (bs "-- ") (render demo_query (bs " LIMIT 1")) [PValue (Str (bs "it's"))] =
  Some (bs "-- SELECT " ++ demo_text (Field (bs "t.x")) ++ bs " WHERE a = 'it''s' AND b = 'it''s' AND c ? AND ?x y = ? LIMIT 1").
Proof.
  transitivity (Some (bs "-- " ++ expand demo_text demo_named [PValue (Str (bs "it's"))] 0 demo_query (bs " LIMIT 1")));
    [|vm_compute; reflexivity].
  rewrite (FormatQuery_template 3 demo_named [PValue (Str (bs "it's"))] demo_text demo_query (bs " LIMIT 1") (bs "-- ") demo_query_ok).
  - reflexivity.
  - intros p b [Hp|[n Hn]].
    + apply list_elem_of_singleton in Hp as ->. cbn [appendParam]. rewrite (Append_quoted b _ (bs "it's")); [reflexivity| |exact I].
      vm_compute. reflexivity.
    + unfold demo_named, WithParam, setParam in Hn. apply lookup_insert_Some in Hn as [[_ <-]|[_ Hn]]; [|by rewrite lookup_empty in Hn].
      cbn [appendParam demo_text]. unfold AppendIdent, appendIdent. by rewrite ident_loop_eq.
Defined.

Definition demo_values : gmap (list Z) param := WithParam (bs "name") (PValue (Str (bs "it's"))) ∅.
Definition demo_holes : list (list Z * hole) := [(bs "a = ", Pos); (bs " OR b ", Esc); (bs " 'k' = ", Pos); (bs " OR c = ", Named (bs "name"))].
Definition demo_params : list value := [Str (bs "' --"); Array KOther (Some hostile)].
Definition demo_tokens : list token :=
  (Chr <$> bs "a = ") ++ [Const (bs "' --")] ++ (Chr <$> bs " OR b ? ") ++ [Const (bs "k")] ++ (Chr <$> bs " = ") ++
  [Const (default [] (content (Array KOther (Some hostile))))] ++ (Chr <$> bs " OR c = ") ++ [Const (bs "it's")] ++ [Chr 59].

Lemma FormatQuery_literals_witness :
  exists txt, FormatQuery 1 demo_values [] (render demo_holes (bs ";")) (PValue <$> demo_params) = Some txt /\
    sql_tokens txt = Some demo_tokens.
Proof.
  assert (Hname : forall n p, demo_values !! n = Some p -> p = PValue (Str (bs "it's"))).
  { intros n p Hn. unfold demo_values, WithParam, setParam in Hn. apply lookup_insert_Some in Hn as [[_ <-]|[_ Hn]]; [done|].
    by rewrite lookup_empty in Hn. }
  apply (FormatQuery_literals 0 demo_values demo_params demo_holes (bs ";") [] demo_tokens).
  - cbn [template_ok demo_holes]. repeat split; try (refine (bool_decide_unpack _ _); vm_compute; exact I); try (vm_compute; discriminate);
      try (intros; vm_compute; discriminate); vm_compute; try done; intros; discriminate.
  - left. discriminate.
  - intros v [Hv|[n [= ->]%Hname]]; [|split; [exact I|by eexists]].
    apply elem_of_cons in Hv as [->|Hv]; [split; [exact I|by eexists]|].
    apply list_elem_of_singleton in Hv as ->. split; [repeat constructor; lia|]. eexists. vm_compute. reflexivity.
  - intros n p ->%Hname. by eexists.
  - vm_compute. reflexivity.
Defined.

(** Placeholders that are not placed so: in a string, in a comment, beside another one,
    after a minus sign, and before a string. *)
Example not_placed :
  Forall (fun q => template_tokens ∅ [PValue (Str (bs "'; DROP TABLE t; --")); PValue (Str (bs "x"))] (Out Free, []) 0 (fst q) (snd q) = None)
    [([(bs "SELECT '", Pos)], bs "'"); ([(bs "a -- ", Pos)], []); ([(bs "a ", Pos); ([], Pos)], bs " b"); ([(bs "1-", Pos)], []);
     ([(bs "a ", Pos)], bs " 'b'"); ([(bs "E", Pos)], [])].
Proof. repeat constructor. Qed.

(** Without parameters an escaped question mark keeps its backslash, with them it
    loses it. *)
Example escape_ex :
  FormatQuery 1 ∅ [] (bs "a \? b") [] = Some (bs "a \? b") /\
  FormatQuery 1 ∅ [] (bs "a \? b") [PValue Nil] = Some (bs "a ? b").
Proof. vm_compute. done. Qed.

(** A negative number is not set apart from a minus sign before it: two of them
    begin a comment. *)
Example minus_ex : FormatQuery 1 ∅ [] (bs "SELECT 1-?, ?") [PValue (Int (-1)); PValue (Str (bs "x"))] = Some (bs "SELECT 1--1, 'x'").
Proof. vm_compute. done. Qed.

(** Conditions in a group. *)
Example group_ex :
  appendParam 3 ∅ [] (CondGroup [(bs " AND ", Cond (bs "a = ?") [PValue (Int 1)]); (bs " OR ", Cond (bs "b = ?") [PValue (Str (bs "x'"))])]) =
  Some (bs "((a = 1) OR (b = 'x'''))").
Proof. vm_compute. done. Qed.

End PgFormat.
