(* ===== verification/PgQuery.v ===== *)
(** * The query builder ([src/upg/orm/orm.go], [select.go], [insert.go], [update.go], [delete.go])

    A query collects the parts of a statement, and a command writes them as SQL, by
    way of a formatter. The methods of the builder change one query in place and
    return it; they are functions from the query to the query here. A query that
    another one holds (in [WITH] or [UNION]) is held as it is when the text is
    written. What reflection shows of the struct of a client is data. *)
From stdpp Require Import base numbers list gmap strings.
From S2P Require Import Prelude Strconv PgReader PgAppend PgFormat.
#[local] Open Scope Z_scope.

Module PgQuery.
Import PgAppend PgFormat.

(** ** Strings *)

(** [internal.UpperString]: a string without lower-case letters is returned as it is. *)
Definition IsLower (c : Z) : bool := (97 <=? c) && (c <=? 122).
Definition ToUpper (c : Z) : Z := c - 32.
Definition isUpperString (s : list Z) : bool := forallb (fun c => negb (IsLower c)) s.
Definition UpperString (s : list Z) : list Z :=
  if isUpperString s then s else map (fun c => if IsLower c then ToUpper c else c) s.

(** [strings.HasPrefix], [strings.HasSuffix], [strings.Contains], [bytes.TrimSuffix],
    and the order of [sort.Strings]. *)
Fixpoint HasPrefix (s p : list Z) {struct p} : bool :=
  match p, s with
  | [], _ => true
  | _, [] => false
  | x :: p', y :: s' => (x =? y) && HasPrefix s' p'
  end.
Definition HasSuffix (s p : list Z) : bool := HasPrefix (rev s) (rev p).
Fixpoint Contains (s p : list Z) : bool :=
  HasPrefix s p || match s with [] => false | _ :: s' => Contains s' p end.
Definition TrimSuffix (s p : list Z) : list Z := if HasSuffix s p then take (length s - length p) s else s.
Fixpoint strings_le (a b : list Z) : bool :=
  match a, b with
  | [], _ => true
  | _, [] => false
  | x :: a', y :: b' => (x <? y) || ((x =? y) && strings_le a' b')
  end.
Fixpoint insert_string (x : list Z) (l : list (list Z)) : list (list Z) :=
  match l with [] => [x] | y :: l' => if strings_le x y then x :: l else y :: insert_string x l' end.
Definition sort_Strings (l : list (list Z)) : list (list Z) := foldr insert_string [] l.

(** ** Data *)

Section Queries.
Context `{GoStd}.

Inductive error :=
| WhereRequired
| NoJoins
| NoColumn (column : list Z)
| CantAppendSet
| ModelError (msg : list Z)
| Client_error (msg : list Z).

Record SafeQueryAppender := Safe_ { query : list Z; params : list param }.

(** What a query holds as a [QueryAppender]: an expression, a field or a table. *)
Inductive appender :=
| ASafe (s : SafeQueryAppender)
| AField (field : list Z)
| ATable (table alias : list Z).

Record condAppender := CondA { csep : list Z; ccond : list Z; cparams : list param }.

(** A [queryWithSepAppender]: a condition, or a group of them. *)
Inductive where_cond :=
| WCond (c : condAppender)
| WGroup (sep : list Z) (conds : list where_cond).

Record joinQuery := Join_ { join : SafeQueryAppender; on : list condAppender }.

(** A field of a struct as reflection shows it: its name in lower case, the tag [db],
    whether it is exported ([CanInterface]), the result of [IsNil] for the kinds that
    have it, the fields of a field of kind struct, and the value that [Append] sees. *)
Inductive field := Fld {
  lower_name : list Z; tag : list Z; exported : bool; is_nil : option bool; nested : option (list field); fvalue : value
}.

(** The models that statements are written from; the others only scan rows. *)
Inductive model :=
| NoModel
| mapModel (m : gmap (list Z) value)
| structTableModel (fields : list field)
| OtherModel.

(** The commands: [SelectQuery] with what it counts, [InsertQuery], [UpdateQuery] and
    [DeleteQuery] with their options. *)
Inductive kind :=
| KSelect (count : list Z)
| KInsert (placeholder : bool)
| KUpdate (omitZero placeholder : bool)
| KDelete (placeholder : bool).

(** [distinctOn] and [columns] are nil, or a list that may be empty. [joinAppendOn] is
    the place of the join that conditions go to. *)
Inductive Query := mkQuery {
  stickyErr : option error;
  model_ : model;
  with_ : list (list Z * (kind * Query));
  tables : list appender;
  distinctOn : option (list SafeQueryAppender);
  columns : option (list appender);
  set_ : list SafeQueryAppender;
  where_ : list where_cond;
  updWhere : list where_cond;
  group : list appender;
  having : list SafeQueryAppender;
  union_ : list (list Z * Query);
  joins : list joinQuery;
  joinAppendOn : option nat;
  order : list appender;
  limit : Z;
  offset : Z;
  selFor : option SafeQueryAppender;
  onConflict : option SafeQueryAppender;
  returning : list SafeQueryAppender
}.

Definition zero_query : Query := mkQuery None NoModel [] [] None None [] [] [] [] [] [] [] None [] 0 0 None None [].

(** Assignments to the fields. *)
Definition put_stickyErr x (q : Query) : Query :=
  mkQuery x (model_ q) (with_ q) (tables q) (distinctOn q) (columns q) (set_ q) (where_ q) (updWhere q) (group q) (having q) (union_ q)
    (joins q) (joinAppendOn q) (order q) (limit q) (offset q) (selFor q) (onConflict q) (returning q).
Definition put_model x (q : Query) : Query :=
  mkQuery (stickyErr q) x (with_ q) (tables q) (distinctOn q) (columns q) (set_ q) (where_ q) (updWhere q) (group q) (having q) (union_ q)
    (joins q) (joinAppendOn q) (order q) (limit q) (offset q) (selFor q) (onConflict q) (returning q).
Definition put_with x (q : Query) : Query :=
  mkQuery (stickyErr q) (model_ q) x (tables q) (distinctOn q) (columns q) (set_ q) (where_ q) (updWhere q) (group q) (having q) (union_ q)
    (joins q) (joinAppendOn q) (order q) (limit q) (offset q) (selFor q) (onConflict q) (returning q).
Definition put_tables x (q : Query) : Query :=
  mkQuery (stickyErr q) (model_ q) (with_ q) x (distinctOn q) (columns q) (set_ q) (where_ q) (updWhere q) (group q) (having q) (union_ q)
    (joins q) (joinAppendOn q) (order q) (limit q) (offset q) (selFor q) (onConflict q) (returning q).
Definition put_distinctOn x (q : Query) : Query :=
  mkQuery (stickyErr q) (model_ q) (with_ q) (tables q) x (columns q) (set_ q) (where_ q) (updWhere q) (group q) (having q) (union_ q)
    (joins q) (joinAppendOn q) (order q) (limit q) (offset q) (selFor q) (onConflict q) (returning q).
Definition put_columns x (q : Query) : Query :=
  mkQuery (stickyErr q) (model_ q) (with_ q) (tables q) (distinctOn q) x (set_ q) (where_ q) (updWhere q) (group q) (having q) (union_ q)
    (joins q) (joinAppendOn q) (order q) (limit q) (offset q) (selFor q) (onConflict q) (returning q).
Definition put_set x (q : Query) : Query :=
  mkQuery (stickyErr q) (model_ q) (with_ q) (tables q) (distinctOn q) (columns q) x (where_ q) (updWhere q) (group q) (having q) (union_ q)
    (joins q) (joinAppendOn q) (order q) (limit q) (offset q) (selFor q) (onConflict q) (returning q).
Definition put_where x (q : Query) : Query :=
  mkQuery (stickyErr q) (model_ q) (with_ q) (tables q) (distinctOn q) (columns q) (set_ q) x (updWhere q) (group q) (having q) (union_ q)
    (joins q) (joinAppendOn q) (order q) (limit q) (offset q) (selFor q) (onConflict q) (returning q).
Definition put_updWhere x (q : Query) : Query :=
  mkQuery (stickyErr q) (model_ q) (with_ q) (tables q) (distinctOn q) (columns q) (set_ q) (where_ q) x (group q) (having q) (union_ q)
    (joins q) (joinAppendOn q) (order q) (limit q) (offset q) (selFor q) (onConflict q) (returning q).
Definition put_group x (q : Query) : Query :=
  mkQuery (stickyErr q) (model_ q) (with_ q) (tables q) (distinctOn q) (columns q) (set_ q) (where_ q) (updWhere q) x (having q) (union_ q)
    (joins q) (joinAppendOn q) (order q) (limit q) (offset q) (selFor q) (onConflict q) (returning q).
Definition put_having x (q : Query) : Query :=
  mkQuery (stickyErr q) (model_ q) (with_ q) (tables q) (distinctOn q) (columns q) (set_ q) (where_ q) (updWhere q) (group q) x (union_ q)
    (joins q) (joinAppendOn q) (order q) (limit q) (offset q) (selFor q) (onConflict q) (returning q).
Definition put_union x (q : Query) : Query :=
  mkQuery (stickyErr q) (model_ q) (with_ q) (tables q) (distinctOn q) (columns q) (set_ q) (where_ q) (updWhere q) (group q) (having q) x
    (joins q) (joinAppendOn q) (order q) (limit q) (offset q) (selFor q) (onConflict q) (returning q).
Definition put_joins x (q : Query) : Query :=
  mkQuery (stickyErr q) (model_ q) (with_ q) (tables q) (distinctOn q) (columns q) (set_ q) (where_ q) (updWhere q) (group q) (having q)
    (union_ q) x (joinAppendOn q) (order q) (limit q) (offset q) (selFor q) (onConflict q) (returning q).
Definition put_joinAppendOn x (q : Query) : Query :=
  mkQuery (stickyErr q) (model_ q) (with_ q) (tables q) (distinctOn q) (columns q) (set_ q) (where_ q) (updWhere q) (group q) (having q)
    (union_ q) (joins q) x (order q) (limit q) (offset q) (selFor q) (onConflict q) (returning q).
Definition put_order x (q : Query) : Query :=
  mkQuery (stickyErr q) (model_ q) (with_ q) (tables q) (distinctOn q) (columns q) (set_ q) (where_ q) (updWhere q) (group q) (having q)
    (union_ q) (joins q) (joinAppendOn q) x (limit q) (offset q) (selFor q) (onConflict q) (returning q).
Definition put_limit x (q : Query) : Query :=
  mkQuery (stickyErr q) (model_ q) (with_ q) (tables q) (distinctOn q) (columns q) (set_ q) (where_ q) (updWhere q) (group q) (having q)
    (union_ q) (joins q) (joinAppendOn q) (order q) x (offset q) (selFor q) (onConflict q) (returning q).
Definition put_offset x (q : Query) : Query :=
  mkQuery (stickyErr q) (model_ q) (with_ q) (tables q) (distinctOn q) (columns q) (set_ q) (where_ q) (updWhere q) (group q) (having q)
    (union_ q) (joins q) (joinAppendOn q) (order q) (limit q) x (selFor q) (onConflict q) (returning q).
Definition put_selFor x (q : Query) : Query :=
  mkQuery (stickyErr q) (model_ q) (with_ q) (tables q) (distinctOn q) (columns q) (set_ q) (where_ q) (updWhere q) (group q) (having q)
    (union_ q) (joins q) (joinAppendOn q) (order q) (limit q) (offset q) x (onConflict q) (returning q).
Definition put_onConflict x (q : Query) : Query :=
  mkQuery (stickyErr q) (model_ q) (with_ q) (tables q) (distinctOn q) (columns q) (set_ q) (where_ q) (updWhere q) (group q) (having q)
    (union_ q) (joins q) (joinAppendOn q) (order q) (limit q) (offset q) (selFor q) x (returning q).
Definition put_returning x (q : Query) : Query :=
  mkQuery (stickyErr q) (model_ q) (with_ q) (tables q) (distinctOn q) (columns q) (set_ q) (where_ q) (updWhere q) (group q) (having q)
    (union_ q) (joins q) (joinAppendOn q) (order q) (limit q) (offset q) (selFor q) (onConflict q) x.

(** ** The builder *)

Definition SafeQuery_ (query : list Z) (params : list param) : SafeQueryAppender := Safe_ query params.

Definition err (e : error) (q : Query) : Query := match stickyErr q with None => put_stickyErr (Some e) q | Some _ => q end.

Definition New (q : Query) : Query := put_model (model_ q) zero_query.
(** The clone has the joins, and not the function that adds to the last of them. *)
Definition Clone (q : Query) : Query := put_joinAppendOn None q.

(** [Model], with the result of [NewModel]. *)
Definition Model (m : option (model + list Z)) (q : Query) : Query :=
  match m with
  | None => put_model NoModel q
  | Some (inl m) => put_model m q
  | Some (inr msg) => err (ModelError msg) (put_model NoModel q)
  end.

Definition _with (name : list Z) (k : kind) (subq : Query) (q : Query) : Query := put_with (with_ q ++ [(name, (k, subq))]) q.
Definition With_ (name : list Z) (subq : Query) : Query -> Query := _with name (KSelect []) subq.
Definition WithInsert (name : list Z) (subq : Query) : Query -> Query := _with name (KInsert false) subq.
Definition WithUpdate (name : list Z) (subq : Query) : Query -> Query := _with name (KUpdate false false) subq.
Definition WithDelete (name : list Z) (subq : Query) : Query -> Query := _with name (KDelete false) subq.
Definition WrapWith (name : list Z) (q : Query) : Query :=
  let wrapper := put_with (with_ q) (New q) in
  With_ name (put_with [] q) wrapper.

Definition Table_ (table alias : list Z) (q : Query) : Query := put_tables (tables q ++ [ATable table alias]) q.
Definition TableExpr (expr : list Z) (params : list param) (q : Query) : Query :=
  put_tables (tables q ++ [ASafe (SafeQuery_ expr params)]) q.
Definition Distinct (q : Query) : Query := put_distinctOn (Some []) q.
Definition DistinctOn (expr : list Z) (params : list param) (q : Query) : Query :=
  put_distinctOn (Some (default [] (distinctOn q) ++ [SafeQuery_ expr params])) q.

Definition Column (cols : list (list Z)) (q : Query) : Query :=
  foldl (fun q column =>
           if bool_decide (column = bs "_") then
             match columns q with None => put_columns (Some []) q | Some _ => q end
           else put_columns (Some (default [] (columns q) ++ [AField column])) q) q cols.
Definition ColumnExpr (expr : list Z) (params : list param) (q : Query) : Query :=
  put_columns (Some (default [] (columns q) ++ [ASafe (SafeQuery_ expr params)])) q.

Definition is_field (column : list Z) (a : appender) : bool :=
  match a with AField f => bool_decide (f = column) | _ => false end.
(** The first place of a column; the columns after it move up. *)
Fixpoint find_field (column : list Z) (l : list appender) : option nat :=
  match l with [] => None | a :: l' => if is_field column a then Some 0%nat else S <$> find_field column l' end.
Definition excludeColumn (column : list Z) (q : Query) : option Query :=
  let l := default [] (columns q) in
  i ← find_field column l; Some (put_columns (Some (take i l ++ drop (S i) l)) q).
Fixpoint ExcludeColumn (cols : list (list Z)) (q : Query) : Query :=
  match cols with
  | [] => q
  | col :: cols' => match excludeColumn col q with Some q => ExcludeColumn cols' q | None => err (NoColumn col) q end
  end.

Definition Set_ (set : list Z) (params : list param) (q : Query) : Query := put_set (set_ q ++ [SafeQuery_ set params]) q.

Definition onConflictDoUpdate (q : Query) : bool :=
  match onConflict q with Some s => HasSuffix (UpperString (query s)) (bs "DO UPDATE") | None => false end.
Definition addWhere (f : where_cond) (q : Query) : Query :=
  if onConflictDoUpdate q then put_updWhere (updWhere q ++ [f]) q else put_where (where_ q ++ [f]) q.
Definition Where (condition : list Z) (params : list param) : Query -> Query := addWhere (WCond (CondA (bs " AND ") condition params)).
Definition WhereOr (condition : list Z) (params : list param) : Query -> Query := addWhere (WCond (CondA (bs " OR ") condition params)).

(** A function of the client that works on a query: what it makes of the query it is
    given, and an error or the query that it returns, which need not be the same. *)
Definition query_fn : Type := Query -> Query * (error + Query).
Definition whereGroup (conj : list Z) (fn : query_fn) (q : Query) : Query :=
  let saved := where_ q in
  match fn (put_where [] q) with
  | (q, inl e) => err e q
  | (_, inr newq) =>
      match where_ newq with
      | [] => put_where saved newq
      | conds => addWhere (WGroup conj conds) (put_where saved newq)
      end
  end.
Definition WhereGroup : query_fn -> Query -> Query := whereGroup (bs " AND ").
Definition WhereNotGroup : query_fn -> Query -> Query := whereGroup (bs " AND NOT ").
Definition WhereOrGroup : query_fn -> Query -> Query := whereGroup (bs " OR ").
Definition WhereOrNotGroup : query_fn -> Query -> Query := whereGroup (bs " OR NOT ").

(** With the value that [types.In] or [types.InMulti] makes: [In], or [InError]. *)
Definition WhereIn (cond : list Z) (v : value) : Query -> Query := Where cond [PValue v].
Definition WhereInOr (cond : list Z) (v : value) : Query -> Query := WhereOr cond [PValue v].
Definition WhereInMulti (cond : list Z) (v : value) : Query -> Query := Where cond [PValue v].

Definition Join (join : list Z) (params : list param) (q : Query) : Query :=
  put_joinAppendOn (Some (length (joins q))) (put_joins (joins q ++ [Join_ (SafeQuery_ join params) []]) q).
Definition AppendOn (app : condAppender) (j : joinQuery) : joinQuery := Join_ (join j) (on j ++ [app]).
Definition join_on (sep condition : list Z) (params : list param) (q : Query) : Query :=
  match joinAppendOn q with
  | None => err NoJoins q
  | Some i => put_joins (alter (AppendOn (CondA sep condition params)) i (joins q)) q
  end.
Definition JoinOn : list Z -> list param -> Query -> Query := join_on (bs " AND ").
Definition JoinOnOr : list Z -> list param -> Query -> Query := join_on (bs " OR ").

Definition Group (cols : list (list Z)) (q : Query) : Query := put_group (group q ++ (AField <$> cols)) q.
Definition GroupExpr (expr : list Z) (params : list param) (q : Query) : Query := put_group (group q ++ [ASafe (SafeQuery_ expr params)]) q.
Definition Having (expr : list Z) (params : list param) (q : Query) : Query := put_having (having q ++ [SafeQuery_ expr params]) q.
Definition addUnion (expr : list Z) (other q : Query) : Query := put_union (union_ q ++ [(expr, other)]) q.
Definition Union : Query -> Query -> Query := addUnion (bs " UNION ").
Definition UnionAll : Query -> Query -> Query := addUnion (bs " UNION ALL ").
Definition Intersect : Query -> Query -> Query := addUnion (bs " INTERSECT ").
Definition IntersectAll : Query -> Query -> Query := addUnion (bs " INTERSECT ALL ").
Definition Except : Query -> Query -> Query := addUnion (bs " EXCEPT ").
Definition ExceptAll : Query -> Query -> Query := addUnion (bs " EXCEPT ALL ").

Definition OrderExpr (ord : list Z) (params : list param) (q : Query) : Query :=
  match ord with [] => q | _ => put_order (order q ++ [ASafe (SafeQuery_ ord params)]) q end.
Definition sorts : list (list Z) :=
  [bs "ASC"; bs "DESC"; bs "ASC NULLS FIRST"; bs "DESC NULLS FIRST"; bs "ASC NULLS LAST"; bs "DESC NULLS LAST"].
Definition order_one (q : Query) (ord : list Z) : Query :=
  let by_field := put_order (order q ++ [AField ord]) q in
  match ord with
  | [] => q
  | _ =>
      match PgReader.IndexByte ord 32 with
      | Some ind =>
          let field := take ind ord in
          let sort := drop (S ind) ord in
          if bool_decide (UpperString sort ∈ sorts) then OrderExpr (bs "? ?") [PValue (Ident field); PValue (Safe sort)] q
          else by_field
      | None => by_field
      end
  end.
Definition Order (orders : list (list Z)) (q : Query) : Query := foldl order_one q orders.

Definition Limit (n : Z) (q : Query) : Query := put_limit n q.
Definition Offset (n : Z) (q : Query) : Query := put_offset n q.
Definition OnConflict (s : list Z) (params : list param) (q : Query) : Query := put_onConflict (Some (SafeQuery_ s params)) q.
Definition Returning (s : list Z) (params : list param) (q : Query) : Query := put_returning (returning q ++ [SafeQuery_ s params]) q.
Definition For (s : list Z) (params : list param) (q : Query) : Query := put_selFor (Some (SafeQuery_ s params)) q.
Definition Apply (fn : query_fn) (q : Query) : Query :=
  match fn q with (q, inl e) => err e q | (_, inr qq) => qq end.

(** ** Writing the parts *)

(** A formatter: what it appends to the bytes. [None] is a panic of [Append], or parts
    nested more deeply than the bound of the formatter. *)
Definition QueryFormatter : Type := list Z -> list Z -> list param -> option (list Z).
Definition dummyFormatter : QueryFormatter := fun b query _ => Some (b ++ query).
Definition formatter (depth : nat) (f : gmap (list Z) param) : QueryFormatter := FormatQuery depth f.

Definition lift {A} (o : option A) : go error A := match o with Some a => Ret a | None => Panic end.
Definition append_value (b : list Z) (v : value) : go error (list Z) := lift (default [] <$> Append b v quoteFlag).

(** The loops that put a separator before every part but the first. *)
Definition sep_loop {A} (app : A -> list Z -> go error (list Z)) (sep : A -> list Z) : bool -> list A -> list Z -> go error (list Z) :=
  fix loop first l b :=
    match l with
    | [] => Ret b
    | x :: l' => b ← app x (if first then b else b ++ sep x); loop false l' b
    end.
Definition list_of {A} (app : A -> list Z -> go error (list Z)) (sep : string) (l : list A) (b : list Z) : go error (list Z) :=
  sep_loop app (fun _ => bs sep) true l b.

Section Formatted.
Context (fmter : QueryFormatter).

Definition safe_query (s : SafeQueryAppender) (b : list Z) : go error (list Z) := lift (fmter b (query s) (params s)).
Definition append_query (a : appender) (b : list Z) : go error (list Z) :=
  match a with
  | ASafe s => safe_query s b
  | AField field => Ret (AppendIdent b field quoteFlag)
  | ATable table alias =>
      let b := match table with [] => b | _ => AppendIdent b table quoteFlag end in
      Ret (match alias with [] => b | _ => AppendIdent (b ++ bs " AS ") alias quoteFlag end)
  end.
Definition cond_query (c : condAppender) (b : list Z) : go error (list Z) :=
  b ← lift (fmter (b ++ bs "(") (ccond c) (cparams c)); Ret (b ++ bs ")").
Definition where_sep (w : where_cond) : list Z := match w with WCond c => csep c | WGroup sep _ => sep end.
Fixpoint where_query (w : where_cond) (b : list Z) : go error (list Z) :=
  match w with
  | WCond c => cond_query c b
  | WGroup _ conds => b ← sep_loop where_query where_sep true conds (b ++ bs "("); Ret (b ++ bs ")")
  end.
Definition join_query (j : joinQuery) (b : list Z) : go error (list Z) :=
  b ← safe_query (join j) (b ++ bs " ");
  match on j with [] => Ret b | _ => sep_loop cond_query csep true (on j) (b ++ bs " ON ") end.

Definition hasTables (q : Query) : bool := negb (length (tables q) =? 0)%nat.
Definition hasMultiTables (q : Query) : bool := (2 <=? length (tables q))%nat.
Definition appendFirstTable (q : Query) (b : list Z) : go error (list Z) :=
  match tables q with t :: _ => append_query t b | [] => Ret b end.
Definition appendTables (q : Query) (b : list Z) : go error (list Z) := list_of append_query ", " (tables q) b.
Definition appendOtherTables (q : Query) (b : list Z) : go error (list Z) := list_of append_query ", " (drop 1 (tables q)) b.
Definition appendColumns (q : Query) (b : list Z) : go error (list Z) := list_of append_query ", " (default [] (columns q)) b.

(** A condition that writes nothing takes its separator with it. *)
Fixpoint where_loop (first : bool) (ws : list where_cond) (b : list Z) : go error (list Z) :=
  match ws with
  | [] => Ret b
  | f :: ws' =>
      let start := length b in
      let b := if first then b else b ++ where_sep f in
      let before := length b in
      b ← where_query f b;
      where_loop false ws' (if (length b =? before)%nat then take start b else b)
  end.
Definition appendWhere (b : list Z) (ws : list where_cond) : go error (list Z) := where_loop true ws b.
Definition mustAppendWhere (q : Query) (b : list Z) : go error (list Z) :=
  match where_ q with [] => Fail WhereRequired | _ => appendWhere b (where_ q) end.
Definition appendUpdWhere (q : Query) (b : list Z) : go error (list Z) := appendWhere b (updWhere q).
Definition appendSet (q : Query) (b : list Z) : go error (list Z) := list_of safe_query ", " (set_ q) (b ++ bs " SET ").
Definition hasReturning (q : Query) : bool :=
  match returning q with
  | [] => false
  | [r] => negb (bool_decide (query r = bs "null") || bool_decide (query r = bs "NULL"))
  | _ => true
  end.
Definition appendReturning (q : Query) (b : list Z) : go error (list Z) :=
  if hasReturning q then list_of safe_query ", " (returning q) (b ++ bs " RETURNING ") else Ret b.
Definition opt_returning (q : Query) (b : list Z) : go error (list Z) :=
  match returning q with [] => Ret b | _ => appendReturning q b end.

(** [appendWith], with the function that writes a command. *)
Definition appendWith (app : kind -> Query -> list Z -> go error (list Z)) (ws : list (list Z * (kind * Query))) (b : list Z) :
    go error (list Z) :=
  b ← list_of (fun '(name, (k, q)) b =>
         b ← app k q (AppendIdent b name quoteFlag ++ bs " AS ("); Ret (b ++ bs ")")) ", " ws (b ++ bs "WITH ");
  Ret (b ++ bs " ").

(** *** SELECT *)

Definition isDistinct (q : Query) : bool :=
  match distinctOn q with
  | Some _ => true
  | None =>
      existsb (fun a => match a with
                        | ASafe s => Contains (query s) (bs "DISTINCT") || Contains (query s) (bs "distinct")
                        | _ => false end) (default [] (columns q))
  end.
Definition select_columns (q : Query) (b : list Z) : go error (list Z) :=
  b ← match columns q with Some _ => appendColumns q b | None => Ret (b ++ bs "*") end;
  Ret (TrimSuffix b (bs ", ")).

(** A clause that is written when the list is not empty. *)
Definition clause {A} (l : list A) (m : list Z -> go error (list Z)) (b : list Z) : go error (list Z) :=
  match l with [] => Ret b | _ => m b end.
Definition when (c : bool) (text : list Z) (b : list Z) : list Z := if c then b ++ text else b.

Definition count_wrapper : list Z := [q2] ++ bs "_count_wrapper" ++ [q2].

Definition select_text (withs unions : list Z -> go error (list Z)) (count : list Z) (q : Query) (b : list Z) : go error (list Z) :=
  let counts := negb (bool_decide (count = [])) in
  let cteCount := counts && (negb (length (group q) =? 0)%nat || isDistinct q) in
  b ← clause (with_ q) withs (when cteCount (bs "WITH " ++ count_wrapper ++ bs " AS (") b);
  let b := when (negb (length (union_ q) =? 0)%nat) (bs "(") b ++ bs "SELECT " in
  b ← match distinctOn q with
      | Some [] => Ret (b ++ bs "DISTINCT ")
      | Some l => b ← list_of safe_query ", " l (b ++ bs "DISTINCT ON ("); Ret (b ++ bs ") ")
      | None => Ret b
      end;
  b ← if counts && negb cteCount then Ret (b ++ count) else select_columns q b;
  b ← if hasTables q then appendTables q (b ++ bs " FROM ") else Ret b;
  b ← sep_loop join_query (fun _ => []) true (joins q) b;
  b ← clause (where_ q) (fun b => appendWhere (b ++ bs " WHERE ") (where_ q)) b;
  b ← clause (group q) (fun b => list_of append_query ", " (group q) (b ++ bs " GROUP BY ")) b;
  b ← clause (having q) (fun b =>
         list_of (fun s b => b ← safe_query s (b ++ bs "("); Ret (b ++ bs ")")) " AND " (having q) (b ++ bs " HAVING ")) b;
  b ← if negb counts then
        b ← clause (order q) (fun b => list_of append_query ", " (order q) (b ++ bs " ORDER BY ")) b;
        let b := when (negb (limit q =? 0)) (bs " LIMIT " ++ Strconv.FormatInt (limit q) 10) b in
        let b := when (negb (offset q =? 0)) (bs " OFFSET " ++ Strconv.FormatInt (offset q) 10) b in
        match selFor q with Some s => safe_query s (b ++ bs " FOR ") | None => Ret b end
      else Ret (when cteCount (bs ") SELECT " ++ count ++ bs " FROM " ++ count_wrapper) b);
  clause (union_ q) (fun b => unions (b ++ bs ")")) b.

(** *** INSERT *)

(** The column of a field: its tag, or its name in lower case; none for the tag [-]. *)
Definition column_of (f : field) : option (list Z) :=
  if bool_decide (tag f = bs "-") then None
  else Some (match tag f with [] => lower_name f | t => t end).

Definition value_or_mark (placeholder : bool) (v : value) (b : list Z) : go error (list Z) :=
  if placeholder then Ret (b ++ bs "?") else append_value b v.
Definition columns_values (placeholder : bool) (l : list (list Z * value)) (b : list Z) : go error (list Z) :=
  b ← list_of (fun '(k, _) b => Ret (AppendIdent b k quoteFlag)) ", " l (b ++ bs " (");
  b ← list_of (fun '(_, v) b => value_or_mark placeholder v b) ", " l (b ++ bs ") VALUES (");
  Ret (b ++ bs ")").
Definition appendStructColumnsValues (placeholder : bool) (fs : list field) (b : list Z) : go error (list Z) :=
  columns_values placeholder
    (omap (fun f => k ← column_of f; Some (k, if exported f then fvalue f else Nil)) fs) b.
Definition sorted_entries (m : gmap (list Z) value) : list (list Z * value) :=
  omap (fun k => v ← m !! k; Some (k, v)) (sort_Strings (map_to_list m).*1).
Definition appendMapColumnsValues (placeholder : bool) (m : gmap (list Z) value) (b : list Z) : go error (list Z) :=
  columns_values placeholder (sorted_entries m) b.

Definition appendColumnsValues (placeholder : bool) (q : Query) (b : list Z) : go error (list Z) :=
  if hasMultiTables q then
    b ← match columns q with
        | Some _ => b ← appendColumns q (b ++ bs " ("); Ret (b ++ bs ")")
        | None => Ret b
        end;
    appendOtherTables q (b ++ bs " SELECT * FROM ")
  else
    match model_ q with
    | mapModel m => appendMapColumnsValues placeholder m b
    | structTableModel fs => appendStructColumnsValues placeholder fs b
    | _ => Fail CantAppendSet
    end.

Definition insert_text (withs : list Z -> go error (list Z)) (placeholder : bool) (q : Query) (b : list Z) : go error (list Z) :=
  b ← clause (with_ q) withs b;
  b ← appendFirstTable q (b ++ bs "INSERT INTO ");
  b ← appendColumnsValues placeholder q b;
  b ← match onConflict q with
      | None => Ret b
      | Some s =>
          b ← safe_query s (b ++ bs " ON CONFLICT ");
          if onConflictDoUpdate q then
            b ← clause (set_ q) (appendSet q) b;
            clause (updWhere q) (fun b => appendUpdWhere q (b ++ bs " WHERE ")) b
          else Ret b
      end;
  opt_returning q b.

(** *** UPDATE *)

Definition appendMapSet (placeholder : bool) (m : gmap (list Z) value) (b : list Z) : go error (list Z) :=
  list_of (fun '(k, v) b => value_or_mark placeholder v (AppendIdent b k quoteFlag ++ bs " = ")) ", " (sorted_entries m) b.

(** The loop over the fields; [pos] is where the text was when the struct began, or
    after the last comma. *)
Definition fields_loop (app : field -> list Z -> nat -> go error (list Z * nat)) : list field -> list Z -> nat -> go error (list Z) :=
  fix loop fs b pos :=
    match fs with
    | [] => Ret b
    | f :: fs' => r ← app f b pos; loop fs' r.1 r.2
    end.
Fixpoint field_set (omitZero placeholder : bool) (f : field) (b : list Z) (pos : nat) : go error (list Z * nat) :=
  let go_on :=
    if exported f then
      match nested f with
      | Some fs => b ← fields_loop (field_set omitZero placeholder) fs b (length b); Ret (b, pos)
      | None =>
          match column_of f with
          | None => Ret (b, pos)
          | Some k =>
              let first := (length b =? pos)%nat in
              let b := if first then b else b ++ bs ", " in
              let pos := if first then pos else length b in
              b ← value_or_mark placeholder (fvalue f) (b ++ k ++ bs " = ");
              Ret (b, pos)
          end
      end
    else Ret (b, pos) in
  if omitZero then
    match is_nil f with
    | None => Panic (* reflect.Value.IsNil of a kind without nil *)
    | Some true => Ret (b, pos)
    | Some false => go_on
    end
  else go_on.
Definition appendSetStruct (omitZero placeholder : bool) (fs : list field) (b : list Z) : go error (list Z) :=
  fields_loop (field_set omitZero placeholder) fs b (length b).

Definition mustAppendSet (omitZero placeholder : bool) (q : Query) (b : list Z) : go error (list Z) :=
  match set_ q with
  | _ :: _ => appendSet q b
  | [] =>
      let b := b ++ bs " SET " in
      match model_ q with
      | mapModel m => appendMapSet placeholder m b
      | structTableModel fs => appendSetStruct omitZero placeholder fs b
      | _ => Fail CantAppendSet
      end
  end.
Definition update_mustAppendWhere (q : Query) (b : list Z) : go error (list Z) :=
  let b := b ++ bs " WHERE " in
  if negb (hasMultiTables q) then mustAppendWhere q b
  else clause (where_ q) (fun b => appendWhere b (where_ q)) b.

Definition update_text (withs : list Z -> go error (list Z)) (omitZero placeholder : bool) (q : Query) (b : list Z) : go error (list Z) :=
  b ← clause (with_ q) withs b;
  b ← appendFirstTable q (b ++ bs "UPDATE ");
  b ← mustAppendSet omitZero placeholder q b;
  b ← if hasMultiTables q then appendOtherTables q (b ++ bs " FROM ") else Ret b;
  b ← update_mustAppendWhere q b;
  opt_returning q b.

(** *** DELETE *)

Definition delete_text (withs : list Z -> go error (list Z)) (q : Query) (b : list Z) : go error (list Z) :=
  b ← clause (with_ q) withs b;
  b ← appendFirstTable q (b ++ bs "DELETE FROM ");
  b ← if hasMultiTables q then appendOtherTables q (b ++ bs " USING ") else Ret b;
  b ← mustAppendWhere q (b ++ bs " WHERE ");
  opt_returning q b.

(** [AppendQuery] of the four commands; the queries in [WITH] and [UNION] are written
    by the same functions. *)
Fixpoint AppendQuery (k : kind) (q : Query) (b : list Z) {struct q} : go error (list Z) :=
  match stickyErr q with
  | Some e => Fail e
  | None =>
      let withs := appendWith AppendQuery (with_ q) in
      match k with
      | KSelect count =>
          select_text withs
            (sep_loop (fun '(expr, u) b => b ← AppendQuery (KSelect []) u (b ++ expr ++ bs "("); Ret (b ++ bs ")")) (fun _ => []) true (union_ q))
            count q b
      | KInsert placeholder => insert_text withs placeholder q b
      | KUpdate omitZero placeholder => update_text withs omitZero placeholder q b
      | KDelete _ => delete_text withs q b
      end
  end.

End Formatted.

(** [AppendTemplate]: marks in place of the values of the model, and the text of
    expressions as it is. *)
Definition AppendTemplate (k : kind) (q : Query) (b : list Z) : go error (list Z) :=
  AppendQuery dummyFormatter
    match k with
    | KSelect count => KSelect count
    | KInsert _ => KInsert true
    | KUpdate omitZero _ => KUpdate omitZero true
    | KDelete _ => KDelete true
    end q b.

(** *** What the methods that run a query send *)

Definition unless_broken (q : Query) (cmd : kind * Query) : error + kind * Query :=
  match stickyErr q with Some e => inl e | None => inr cmd end.
Definition with_values (values : option (model + list Z)) (q : Query) (k : Query -> error + kind * Query) : error + kind * Query :=
  match values with
  | None => k q
  | Some (inl m) => k (put_model m q)
  | Some (inr msg) => inl (ModelError msg)
  end.
Definition Count (q : Query) : error + kind * Query := unless_broken q (KSelect (bs "count(*)"), q).
Definition Scan (values : option (model + list Z)) (q : Query) : error + kind * Query :=
  match stickyErr q with Some e => inl e | None => with_values values q (fun q => inr (KSelect [], q)) end.
Definition First (column : list Z) (q : Query) : error + kind * Query :=
  Scan None (Limit 1 (OrderExpr (bs "? ASC") [PValue (Str column)] q)).
Definition Last (column : list Z) (q : Query) : error + kind * Query :=
  Scan None (Limit 1 (OrderExpr (bs "? DESC") [PValue (Str column)] q)).
Definition Insert_ (values : option (model + list Z)) (q : Query) : error + kind * Query :=
  match stickyErr q with Some e => inl e | None => with_values values q (fun q => inr (KInsert false, q)) end.
Definition update (values : option (model + list Z)) (omitZero : bool) (q : Query) : error + kind * Query :=
  match stickyErr q with Some e => inl e | None => with_values values q (fun q => inr (KUpdate omitZero false, q)) end.
Definition Delete_ (q : Query) : error + kind * Query := unless_broken q (KDelete false, q).
Definition Exists_ (q : Query) : error + kind * Query :=
  inr (KSelect [], put_limit 1 (put_order [] (put_columns (Some [ASafe (SafeQuery_ (bs "1") [])]) (Clone q)))).

(** ** Errors are not lost *)

(** The separators that stand before a condition or a group. *)
Definition seps : list (list Z) := [bs " AND "; bs " OR "; bs " AND NOT "; bs " OR NOT "].

(** One call of the builder. A function that a client passes to [WhereGroup] or [Apply]
    calls the builder on the query it is given, and for the one it returns. *)
Inductive step : Query -> Query -> Prop :=
| step_err e q : step q (err e q)
| step_Model m q : step q (Model m q)
| step_with name k subq q : step q (_with name k subq q)
| step_WrapWith name q : step q (WrapWith name q)
| step_Table table alias q : step q (Table_ table alias q)
| step_TableExpr expr ps q : step q (TableExpr expr ps q)
| step_Distinct q : step q (Distinct q)
| step_DistinctOn expr ps q : step q (DistinctOn expr ps q)
| step_Column cols q : step q (Column cols q)
| step_ColumnExpr expr ps q : step q (ColumnExpr expr ps q)
| step_ExcludeColumn cols q : step q (ExcludeColumn cols q)
| step_Set set ps q : step q (Set_ set ps q)
| step_Where cond ps q : step q (Where cond ps q)
| step_WhereOr cond ps q : step q (WhereOr cond ps q)
| step_whereGroup conj fn q : conj ∈ seps -> steps (put_where [] q) (fn (put_where [] q)).1 ->
    (forall q', (fn (put_where [] q)).2 = inr q' -> steps (put_where [] q) q') -> step q (whereGroup conj fn q)
| step_Join j ps q : step q (Join j ps q)
| step_JoinOn sep cond ps q : step q (join_on sep cond ps q)
| step_Group cols q : step q (Group cols q)
| step_GroupExpr expr ps q : step q (GroupExpr expr ps q)
| step_Having expr ps q : step q (Having expr ps q)
| step_addUnion expr other q : step q (addUnion expr other q)
| step_Order orders q : step q (Order orders q)
| step_OrderExpr expr ps q : step q (OrderExpr expr ps q)
| step_Limit n q : step q (Limit n q)
| step_Offset n q : step q (Offset n q)
| step_OnConflict s ps q : step q (OnConflict s ps q)
| step_Returning s ps q : step q (Returning s ps q)
| step_For s ps q : step q (For s ps q)
| step_Apply fn q : steps q (fn q).1 -> (forall q', (fn q).2 = inr q' -> steps q q') -> step q (Apply fn q)
| step_Clone q : step q (Clone q)
with steps : Query -> Query -> Prop :=
| steps_nil q : steps q q
| steps_cons q1 q2 q3 : step q1 q2 -> steps q2 q3 -> steps q1 q3.
Scheme step_mut := Minimality for step Sort Prop with steps_mut := Minimality for steps Sort Prop.

(** A query with an error, in it or in a query of its [WITH]. *)
Inductive broken : Query -> Prop :=
| broken_here q : is_Some (stickyErr q) -> broken q
| broken_with q name k q' : (name, (k, q')) ∈ with_ q -> broken q' -> broken q.

(** What every other method leaves as it is, or adds to. *)
Definition keeps (q q' : Query) : Prop :=
  (stickyErr q' = stickyErr q \/ is_Some (stickyErr q')) /\ with_ q ⊆ with_ q'.
#[local] Instance keeps_preorder : PreOrder keeps.
Proof.
  split; [by intros q; split; [left|]|]. intros q1 q2 q3 [H1 W1] [H2 W2]. split; [|by etrans].
  destruct H2 as [->|?]; [done|by right].
Qed.
Lemma keeps_same q q' : stickyErr q' = stickyErr q -> with_ q' = with_ q -> keeps q q'.
Proof. intros H1 H2. split; [by left|by rewrite H2]. Qed.
Lemma keeps_err e q : keeps q (err e q).
Proof. unfold err. destruct (stickyErr q) eqn:E; [done|]. split; [by right|done]. Qed.
Lemma keeps_broken q q' : keeps q q' -> broken q -> broken q'.
Proof.
  intros [H1 H2] Hb. destruct Hb as [q Hq|q n k q1 Hin Hb].
  - apply broken_here. destruct H1 as [->|?]; done.
  - apply (broken_with _ n k q1); [set_solver|done].
Qed.
(** The methods with loops and branches keep what the assignments in them keep. *)
Section Methods.
Context (R : relation Query) `{!PreOrder R}.
Hypothesis R_err : forall e q, R q (err e q).
Hypothesis R_columns : forall x q, R q (put_columns x q).
Hypothesis R_order : forall x q, R q (put_order x q).
Hypothesis R_model : forall x q, R q (put_model x q).
Hypothesis R_joins : forall x q, R q (put_joins x q).

Lemma foldl_keeps {A} (g : Query -> A -> Query) l q : (forall q x, R q (g q x)) -> R q (foldl g q l).
Proof. intros Hg. revert q. induction l as [|x l IH]; intros q; [done|]. simpl. etrans; [apply Hg|apply IH]. Qed.
Lemma ExcludeColumn_keeps cols q : R q (ExcludeColumn cols q).
Proof.
  revert q. induction cols as [|c cols IH]; intros q; [done|]. simpl. unfold excludeColumn.
  destruct (find_field c _) as [i|]; simpl; [|apply R_err]. etrans; [|apply IH]. apply R_columns.
Qed.
Lemma Column_keeps cols q : R q (Column cols q).
Proof. apply foldl_keeps. intros q' c. case_bool_decide; [destruct (columns q') eqn:?; [done|]|]; apply R_columns. Qed.
Lemma OrderExpr_keeps expr ps q : R q (OrderExpr expr ps q).
Proof. destruct expr; [done|]. apply R_order. Qed.
Lemma Order_keeps orders q : R q (Order orders q).
Proof.
  apply foldl_keeps. intros q' [|c o]; [done|]. unfold order_one. destruct (PgReader.IndexByte _ _); [|apply R_order].
  case_bool_decide; [apply OrderExpr_keeps|apply R_order].
Qed.
Lemma Model_keeps m q : R q (Model m q).
Proof. destruct m as [[m|msg]|]; [apply R_model| |apply R_model]. simpl. etrans; [apply R_model|apply R_err]. Qed.
Lemma join_on_keeps sep cond ps q : R q (join_on sep cond ps q).
Proof. unfold join_on. destruct (joinAppendOn q); [apply R_joins|apply R_err]. Qed.
End Methods.

Lemma keeps_addWhere w q : keeps q (addWhere w q).
Proof. unfold addWhere. case_match; by apply keeps_same. Qed.
Lemma keeps_with name k subq q : keeps q (_with name k subq q).
Proof. split; [by left|]. simpl. set_solver. Qed.

Lemma WrapWith_broken name q : broken q -> broken (WrapWith name q).
Proof.
  intros Hb. destruct Hb as [q Hq|q n k q1 Hin Hb].
  - apply (broken_with _ name (KSelect []) (put_with [] q)); [|by apply broken_here].
    unfold WrapWith, With_, _with. cbn [with_ put_with New]. set_solver.
  - apply (broken_with _ n k q1); [|done]. unfold WrapWith, With_, _with. cbn [with_ put_with New]. set_solver.
Qed.

Lemma whereGroup_broken conj fn q : broken (fn (put_where [] q)).1 ->
  (forall q', (fn (put_where [] q)).2 = inr q' -> broken q') -> broken (whereGroup conj fn q).
Proof.
  unfold whereGroup. destruct (fn _) as [left_ [e|newq]]; simpl; intros Hb Hn; [by apply (keeps_broken _ _ (keeps_err e left_))|].
  specialize (Hn newq eq_refl). revert Hn. apply keeps_broken. destruct (where_ newq); [by apply keeps_same|].
  etrans; [|apply keeps_addWhere]. by apply keeps_same.
Qed.

(** A method keeps [R], given the assignments in the hint database. *)
Create HintDb pgq.
Ltac method_keeps R :=
  first [apply (ExcludeColumn_keeps R)|apply (Column_keeps R)|apply (OrderExpr_keeps R)|apply (Order_keeps R)|apply (Model_keeps R)
        |apply (join_on_keeps R)|idtac]; eauto with pgq.
#[local] Hint Resolve keeps_preorder keeps_err keeps_addWhere keeps_with : pgq.
#[local] Hint Extern 1 (keeps _ _) => by apply keeps_same : pgq.

Lemma steps_broken q q' : steps q q' -> broken q -> broken q'.
Proof.
  apply (steps_mut (fun q q' => broken q -> broken q') (fun q q' => broken q -> broken q')).
  all: try solve [auto using WrapWith_broken].
  all: try solve [intros; eapply keeps_broken; [|eassumption]; first [by apply keeps_same|apply keeps_addWhere|method_keeps keeps]].
  - intros conj fn q1 _ _ IH _ IHn Hb. assert (Hb' : broken (put_where [] q1)) by (revert Hb; by apply keeps_broken, keeps_same).
    apply whereGroup_broken; [by apply IH|]. intros q2 E. by apply (IHn q2 E).
  - intros fn q1 _ IH _ IHn Hb. specialize (IH Hb). unfold Apply. destruct (fn q1) as [q2 [e|q3]]; [|by apply (IHn q3)].
    revert IH. apply keeps_broken, keeps_err.
Qed.

(** Every part of a list that is written was written. *)
Lemma sep_loop_Ret {A} (app : A -> list Z -> go error (list Z)) sep first l b r x :
  sep_loop app sep first l b = Ret r -> x ∈ l -> exists b r, app x b = Ret r.
Proof.
  revert first b. induction l as [|y l IH]; intros first b; simpl; [by intros _ ?%elem_of_nil|].
  destruct (app y _) as [b1| | |] eqn:E; simpl; try done. intros H1 [->|Hx]%elem_of_cons; [by eauto|by eapply IH].
Qed.

Lemma appendWith_Ret app ws b r name k q :
  appendWith app ws b = Ret r -> (name, (k, q)) ∈ ws -> exists b r, app k q b = Ret r.
Proof.
  unfold appendWith, list_of. destruct (sep_loop _ _ _ _ _) as [b1| | |] eqn:E; simpl; try done. intros _ Hin.
  destruct (sep_loop_Ret _ _ _ _ _ _ _ E Hin) as (b2 & r2 & E2). simpl in E2.
  destruct (app k q _) as [b3| | |] eqn:E3; simpl in E2; try done. by eauto.
Qed.

Lemma clause_Ret {A} (l : list A) m b r x : clause l m b = Ret r -> x ∈ l -> m b = Ret r.
Proof. destruct l; [by intros _ ?%elem_of_nil|done]. Qed.

Lemma broken_fails fmter q : broken q -> forall k b r, AppendQuery fmter k q b <> Ret r.
Proof.
  induction 1 as [q [e He]|q name k' q' Hin Hb IH]; intros k b r.
  - destruct q; simpl in *. by rewrite He.
  - intros Hr. assert (Hw : exists b r, appendWith (AppendQuery fmter) (with_ q) b = Ret r).
    { destruct q; simpl in *. destruct stickyErr0; [done|].
      destruct k; simpl in Hr; unfold select_text, insert_text, update_text, delete_text in Hr; cbn [with_] in Hr;
        (destruct (clause with_0 _ _) as [b1| | |] eqn:E; simpl in Hr; try done);
        eapply clause_Ret in E; eauto. }
    destruct Hw as (b1 & r1 & Hw). destruct (appendWith_Ret _ _ _ _ _ _ _ Hw Hin) as (b2 & r2 & E2). by apply IH in E2.
Qed.

(** What the methods that run a query hand to the database. *)
Inductive sends : Query -> error + kind * Query -> Prop :=
| sends_Count q : sends q (Count q)
| sends_Scan values q : sends q (Scan values q)
| sends_First column q : sends q (First column q)
| sends_Last column q : sends q (Last column q)
| sends_Insert values q : sends q (Insert_ values q)
| sends_update values omitZero q : sends q (update values omitZero q)
| sends_Delete q : sends q (Delete_ q)
| sends_Exists q : sends q (Exists_ q).

Lemma values_keep values q k q' k' :
  match stickyErr q with Some e => inl e | None => with_values values q (fun q => inr (k, q)) end = inr (k', q') -> keeps q q'.
Proof.
  destruct (stickyErr q) eqn:E; [done|]. unfold with_values.
  destruct values as [[m|msg]|]; try done; intros [= _ <-]; [by apply keeps_same|done].
Qed.
Lemma sends_keep q r : sends q r -> forall k q', r = inr (k, q') -> keeps q q'.
Proof.
  destruct 1; intros k q'; try apply values_keep.
  - unfold Count, unless_broken. destruct (stickyErr q); [done|]. by intros [= _ <-].
  - unfold Delete_, unless_broken. destruct (stickyErr q); [done|]. by intros [= _ <-].
  - intros [= _ <-]. by apply keeps_same.
Qed.

(** C23: An error of the builder is never lost: whatever methods are called after it, on
    the query or a clone, inside groups, or on a query that wraps it, no command of the
    query that comes out is written, and what the methods that run it send, if they
    send anything, is not written either. *)
Theorem errors_kept (fmter : QueryFormatter) (q q' : Query) :
  is_Some (stickyErr q) -> steps q q' ->
  (forall k b r, AppendQuery fmter k q' b <> Ret r) /\
  (forall k q'' b r, sends q' (inr (k, q'')) -> AppendQuery fmter k q'' b <> Ret r).
Proof.
  intros Hq Hs. assert (Hb : broken q') by (eapply steps_broken; [done|by apply broken_here]).
  split; [by apply broken_fails|]. intros k q'' b r Hr. apply broken_fails.
  eapply keeps_broken; [|done]. by eapply sends_keep.
Qed.

(** ** The WHERE clause *)

(** *** Reading it back *)

(** Where a reader of SQL is, and how many parentheses are open. *)
Definition next (st : nat * lex) (c : Z) : option (nat * lex) :=
  let '(d, m) := st in
  m' ← lex_next m c;
  match m with
  | Out _ =>
      if c =? 40 then Some (S d, m')
      else if c =? 41 then match d with O => None | S d => Some (d, m') end
      else Some (d, m')
  | _ => Some (d, m')
  end.
#[local] Arguments next : simpl never.
Fixpoint scan (st : nat * lex) (l : list Z) : option (nat * lex) :=
  match l with [] => Some st | c :: l' => st ← next st c; scan st l' end.
Definition balanced (l : list Z) : Prop := exists k, scan (0%nat, Out Free) l = Some (0%nat, Out k).

(** The text up to the parenthesis that closes it, and the rest. *)
Definition closes (st : nat * lex) (c : Z) : bool := match st with (O, Out _) => c =? 41 | _ => false end.
Fixpoint read_paren (st : nat * lex) (l : list Z) : option (list Z * list Z) :=
  match l with
  | [] => None
  | c :: l' =>
      if closes st c then Some ([], l')
      else st ← next st c; '(x, rest) ← read_paren st l'; Some (c :: x, rest)
  end.
Definition read_sep (l : list Z) : option (list Z * list Z) :=
  s ← list_find (fun s => HasPrefix l (s ++ [40]) = true) seps; Some (s.2, drop (S (length s.2)) l).
Fixpoint read_more (fuel : nat) (l : list Z) : option (list (list Z * list Z) * list Z) :=
  match fuel with
  | O => None
  | S fuel' =>
      match read_sep l with
      | None => Some ([], l)
      | Some (s, l') =>
          '(x, rest) ← read_paren (0%nat, Out Free) l';
          '(xs, rest) ← read_more fuel' rest;
          Some ((s, x) :: xs, rest)
      end
  end.
(** The conditions of a clause, each with the separator before it, and what follows. *)
Definition read_where (l : list Z) : option (list (list Z * list Z) * list Z) :=
  match l with
  | 40 :: l' =>
      '(x, rest) ← read_paren (0%nat, Out Free) l';
      '(xs, rest) ← read_more (S (length rest)) rest;
      Some (([], x) :: xs, rest)
  | _ => None
  end.

Lemma scan_app st l1 l2 : scan st (l1 ++ l2) = scan st l1 ≫= fun st => scan st l2.
Proof. revert st. induction l1 as [|c l IH]; intros st; [done|]. simpl. destruct (next st c); simpl; auto. Qed.

(** Open parentheses around a text do not matter to it. *)
Lemma next_deeper d st c d' st' k : next (d, st) c = Some (d', st') -> next ((d + k)%nat, st) c = Some ((d' + k)%nat, st').
Proof. unfold next. destruct (lex_next st c), st; simpl; repeat case_match; intros; simplify_eq/=; done. Qed.
Lemma scan_deeper l d st d' st' k : scan (d, st) l = Some (d', st') -> scan ((d + k)%nat, st) l = Some ((d' + k)%nat, st').
Proof.
  revert d st. induction l as [|c l IH]; intros d st; simpl; [by intros [= <- <-]|].
  destruct (next (d, st) c) as [[d1 st1]|] eqn:E; simpl; [|done]. rewrite (next_deeper _ _ _ _ _ k E). apply IH.
Qed.

(** A reader that can go on after [Lit] can go on. *)
Lemma scan_le l : forall d m m' d' n', le_lex m m' -> scan (d, m') l = Some (d', n') ->
  exists n, scan (d, m) l = Some (d', n) /\ le_lex n n'.
Proof.
  induction l as [|c l IH]; intros d m m' d' n' Hle E; simpl in *; [injection E as <- <-; by exists m|].
  destruct (next (d, m') c) as [[d1 m1']|] eqn:E1; simpl in E; [|done].
  enough (exists m1, next (d, m) c = Some (d1, m1) /\ le_lex m1 m1') as (m1 & -> & Hle1) by (simpl; by eapply IH).
  unfold next in *. destruct (lex_next m' c) as [n|] eqn:En; simpl in E1; [|done].
  destruct (lex_next_le _ _ _ _ Hle En) as (n1 & -> & Hn & _). simpl. exists n1.
  destruct Hle as [->|[-> [->|[->| ->]]]]; repeat case_match; simplify_eq; auto.
Qed.

Lemma lex_paren k : lex_next (Out k) 40 = Some (Out Free) /\ lex_next (Out k) 41 = Some (Out Free).
Proof. by destruct k. Qed.

Lemma scan_paren t l d k : balanced t -> scan (d, Out k) ([40] ++ t ++ [41] ++ l) = scan (d, Out Free) l.
Proof.
  intros [k' Ht]. apply (scan_deeper _ _ _ _ _ (S d)) in Ht. cbn [app scan]. unfold next at 1. rewrite (proj1 (lex_paren k)). simpl.
  rewrite scan_app. cbn [Nat.add] in Ht. rewrite Ht. cbn [mbind option_bind app scan].
  unfold next at 1. by rewrite (proj2 (lex_paren k')).
Qed.

Lemma read_paren_scan t st rest k : scan st t = Some (0%nat, Out k) -> read_paren st (t ++ 41 :: rest) = Some (t, rest).
Proof.
  revert st. induction t as [|c t IH]; intros st; simpl; [by intros [= ->]|].
  destruct (next st c) as [st'|] eqn:En; simpl; [|done]. intros Hs.
  assert (Hc : closes st c = false).
  { unfold closes. destruct st as [[|d] m]; [|done]. destruct m; try done. destruct (Z.eqb_spec c 41) as [->|]; [|done].
    unfold next in En. by rewrite (proj2 (lex_paren _)) in En. }
  rewrite Hc. simpl. by rewrite (IH _ Hs).
Qed.

Lemma HasPrefix_app p l : HasPrefix (p ++ l) p = true.
Proof. induction p as [|c p IH]; [by destruct l|]. simpl. by rewrite IH, Z.eqb_refl. Qed.
Lemma HasPrefix_inv l p : HasPrefix l p = true -> exists l', l = p ++ l'.
Proof.
  revert l. induction p as [|c p IH]; intros [|x l]; simpl; try done; try (by eexists).
  intros [->%Z.eqb_eq [l' ->]%IH]%andb_prop. by exists l'.
Qed.

Lemma read_sep_at s l : s ∈ seps -> read_sep (s ++ 40 :: l) = Some (s, l).
Proof.
  intros Hs. rewrite cons_middle, app_assoc. unfold seps in Hs. rewrite !elem_of_cons in Hs.
  destruct Hs as [->|[->|[->|[->|Hs%elem_of_nil]]]]; try done; vm_compute; reflexivity.
Qed.

(** *** The text of the conditions *)

(** The text of a condition or of a group, without its parentheses, from the texts of
    the conditions. *)
Definition conds_text (inner : where_cond -> list Z) : bool -> list where_cond -> list Z :=
  fix loop first ws :=
    match ws with
    | [] => []
    | w :: ws' => (if first then [] else where_sep w) ++ [40] ++ inner w ++ [41] ++ loop false ws'
    end.
Fixpoint inner_text (T : condAppender -> list Z) (w : where_cond) : list Z :=
  match w with WCond c => T c | WGroup _ ws => conds_text (inner_text T) true ws end.
Definition where_text (T : condAppender -> list Z) (ws : list where_cond) : list Z := conds_text (inner_text T) true ws.

(** The conditions with their separators; the first one is not written. *)
Definition shape (T : condAppender -> list Z) (ws : list where_cond) : list (list Z * list Z) :=
  match ws with [] => [] | w :: ws' => ([], inner_text T w) :: ((fun w => (where_sep w, inner_text T w)) <$> ws') end.

(** Conditions and groups made by the builder, with a property of the conditions. *)
Inductive made (P : condAppender -> Prop) : where_cond -> Prop :=
| made_cond c : csep c ∈ seps -> P c -> made P (WCond c)
| made_group sep ws : sep ∈ seps -> ws <> [] -> Forall (made P) ws -> made P (WGroup sep ws).

Lemma made_sep P w : made P w -> where_sep w ∈ seps.
Proof. by destruct 1. Qed.

Fixpoint made_ind' (P : condAppender -> Prop) (Q : where_cond -> Prop)
    (Hc : forall c, csep c ∈ seps -> P c -> Q (WCond c))
    (Hg : forall sep ws, sep ∈ seps -> ws <> [] -> Forall (made P) ws -> Forall Q ws -> Q (WGroup sep ws))
    w (Hm : made P w) {struct Hm} : Q w :=
  match Hm with
  | made_cond _ c Hs Hp => Hc c Hs Hp
  | made_group _ sep ws Hs Hne Hws => Hg sep ws Hs Hne Hws (Forall_impl _ _ _ Hws (made_ind' P Q Hc Hg))
  end.

(** Every clause that the builder makes is of this form. *)
Definition any (_ : condAppender) : Prop := True.
Definition well_made (q : Query) : Prop := Forall (made any) (where_ q) /\ Forall (made any) (updWhere q).
Definition same_where (q q' : Query) : Prop := where_ q' = where_ q /\ updWhere q' = updWhere q.
#[local] Instance same_where_preorder : PreOrder same_where.
Proof. split; [done|]. intros q1 q2 q3 [H1 H2] [H3 H4]. split; congruence. Qed.
Lemma same_where_err e q : same_where q (err e q).
Proof. unfold err. by destruct (stickyErr q). Qed.
Lemma same_where_made q q' : same_where q q' -> well_made q -> well_made q'.
Proof. unfold well_made. by intros [-> ->]. Qed.
Lemma addWhere_made w q : made any w -> well_made q -> well_made (addWhere w q).
Proof. intros Hw [H1 H2]. unfold addWhere. case_match; split; simpl; try done; by apply Forall_app_2; [|constructor]. Qed.
Lemma sep_AND : bs " AND " ∈ seps.
Proof. unfold seps. set_solver. Qed.
Lemma sep_OR : bs " OR " ∈ seps.
Proof. unfold seps. set_solver. Qed.
#[local] Hint Resolve same_where_preorder same_where_err addWhere_made sep_AND sep_OR : pgq.
#[local] Hint Constructors made : pgq.
#[local] Hint Extern 1 (same_where _ _) => done : pgq.
#[local] Hint Extern 1 (any _) => done : pgq.

Lemma whereGroup_made conj fn q : conj ∈ seps -> well_made q ->
  (well_made (put_where [] q) -> well_made (fn (put_where [] q)).1) ->
  (forall q', (fn (put_where [] q)).2 = inr q' -> well_made (put_where [] q) -> well_made q') -> well_made (whereGroup conj fn q).
Proof.
  intros Hs [Hq Hu] IH IHn. unfold whereGroup. assert (H0 : well_made (put_where [] q)) by (split; [constructor|done]). specialize (IH H0).
  destruct (fn _) as [left_ [e|newq]]; simpl in IH, IHn; [eapply same_where_made; eauto with pgq|].
  destruct (IHn newq eq_refl H0) as [H1 H2]. destruct (where_ newq) as [|w ws]; [done|].
  apply addWhere_made; [|done]. by apply made_group.
Qed.

Lemma steps_made q q' : steps q q' -> well_made q -> well_made q'.
Proof.
  apply (steps_mut (fun q q' => well_made q -> well_made q') (fun q q' => well_made q -> well_made q')).
  all: try solve [auto using whereGroup_made with pgq].
  all: try solve [intros; eapply same_where_made; [|eassumption]; first [done|method_keeps same_where]].
  - intros name q1 _. repeat constructor.
  - intros cond ps q1. apply addWhere_made. constructor; [apply sep_AND|done].
  - intros cond ps q1. apply addWhere_made. constructor; [apply sep_OR|done].
  - intros fn q1 _ IH _ IHn Hb. specialize (IH Hb). unfold Apply. destruct (fn q1) as [q2 [e|q3]]; [|by apply (IHn q3)].
    eapply same_where_made; eauto with pgq.
Qed.

(** The conditions in a clause. *)
Fixpoint leaves (w : where_cond) : list condAppender :=
  match w with WCond c => [c] | WGroup _ ws => concat (map leaves ws) end.
Lemma made_leaves P w : made any w -> Forall P (leaves w) -> made P w.
Proof.
  induction 1 as [c Hs _|sep ws Hs Hne _ IH] using made_ind'; simpl; intros HP.
  - rewrite Forall_singleton in HP. by constructor.
  - constructor; [done..|]. clear Hne. induction IH as [|w ws Hw _ IH]; [done|]. simpl in HP. apply Forall_app in HP as [H1 H2]. auto.
Qed.

(** Equal up to the nesting of appends. *)
Ltac app_eq := repeat match goal with |- Ret _ = Ret _ => f_equal | |- Some _ = Some _ => f_equal end; repeat (rewrite <- ?app_assoc; cbn [app]); try reflexivity.

Section Text.
Context (fmter : QueryFormatter) (T : condAppender -> list Z).
Definition writes (c : condAppender) : Prop := forall b, fmter b (ccond c) (cparams c) = Some (b ++ T c).

Lemma sep_loop_text first ws b :
  Forall (fun w => forall b, where_query fmter w b = Ret (b ++ [40] ++ inner_text T w ++ [41])) ws ->
  sep_loop (where_query fmter) where_sep first ws b = Ret (b ++ conds_text (inner_text T) first ws).
Proof.
  intros Hws. revert first b. induction Hws as [|w ws Hw _ IH]; intros first b; simpl; [by rewrite app_nil_r|].
  rewrite Hw. simpl. rewrite IH. destruct first; app_eq.
Qed.

Lemma where_query_text w : made writes w -> forall b, where_query fmter w b = Ret (b ++ [40] ++ inner_text T w ++ [41]).
Proof.
  induction 1 as [c _ Hc|sep ws _ _ _ IH] using made_ind'; intros b; simpl.
  - unfold cond_query. rewrite Hc. simpl. app_eq.
  - rewrite sep_loop_text by done. simpl. app_eq.
Qed.

Lemma where_loop_text first ws b : Forall (made writes) ws -> where_loop fmter first ws b = Ret (b ++ conds_text (inner_text T) first ws).
Proof.
  intros Hws. revert first b. induction Hws as [|w ws Hw _ IH]; intros first b; simpl; [by rewrite app_nil_r|].
  rewrite where_query_text by done. simpl. rewrite (proj2 (Nat.eqb_neq _ _)) by (rewrite !length_app; simpl; lia).
  rewrite IH. destruct first; app_eq.
Qed.

Definition balanced_text (c : condAppender) : Prop := balanced (T c).

Lemma scan_sep s d k : s ∈ seps -> scan (d, Out k) s = Some (d, Out Free).
Proof.
  intros Hs. unfold seps in Hs. rewrite !elem_of_cons in Hs.
  destruct Hs as [->|[->|[->|[->|Hs%elem_of_nil]]]]; try done; destruct k; vm_compute; reflexivity.
Qed.

Lemma scan_conds first ws d k :
  Forall (fun w => where_sep w ∈ seps /\ balanced (inner_text T w)) ws ->
  exists k', scan (d, Out k) (conds_text (inner_text T) first ws) = Some (d, Out k').
Proof.
  intros Hws. revert first k. induction Hws as [|w ws [Hs Hw] _ IH]; intros first k; [by exists k|]. cbn [conds_text].
  rewrite scan_app. assert (E : exists k', scan (d, Out k) (if first then [] else where_sep w) = Some (d, Out k'))
    by (destruct first; [by exists k|exists Free; by apply scan_sep]).
  destruct E as [k' ->]. cbn [mbind option_bind]. rewrite scan_paren by done. apply IH.
Qed.

Lemma inner_balanced w : made balanced_text w -> balanced (inner_text T w).
Proof.
  induction 1 as [c _ Hc|sep ws _ _ Hm IH] using made_ind'; [done|]. simpl. apply scan_conds.
  rewrite Forall_forall in *. intros w Hw. split; [by eapply made_sep, Hm|by apply IH].
Qed.

Lemma read_more_conds ws tail fuel : Forall (made balanced_text) ws -> read_sep tail = None ->
  (length ws < fuel)%nat ->
  read_more fuel (conds_text (inner_text T) false ws ++ tail) = Some ((fun w => (where_sep w, inner_text T w)) <$> ws, tail).
Proof.
  intros Hws Ht. revert fuel. induction Hws as [|w ws Hw _ IH]; intros [|fuel] Hf; simpl in *; try lia; [by rewrite Ht|].
  rewrite <- !app_assoc. cbn [app]. rewrite read_sep_at by (by eapply made_sep). rewrite <- app_assoc. cbn [app].
  destruct (inner_balanced _ Hw) as [k Hk]. rewrite (read_paren_scan _ _ _ k) by done. cbn. rewrite IH by lia. done.
Qed.

Lemma read_where_text ws tail : ws <> [] -> Forall (made balanced_text) ws -> read_sep tail = None ->
  read_where (where_text T ws ++ tail) = Some (shape T ws, tail).
Proof.
  intros Hne Hws Ht. destruct Hws as [|w ws Hw Hws]; [done|]. unfold where_text. cbn [conds_text app].
  rewrite <- !app_assoc. cbn [app read_where]. destruct (inner_balanced _ Hw) as [k Hk].
  rewrite (read_paren_scan _ _ _ k) by done. cbn [mbind option_bind].
  rewrite read_more_conds; [|done|done|].
  - done.
  - rewrite length_app. enough (length ws <= length (conds_text (inner_text T) false ws))%nat by lia. clear.
    induction ws as [|w ws IH]; cbn; [lia|]. rewrite !length_app. cbn. rewrite !length_app. cbn. lia.
Qed.
End Text.

(** *** Values in conditions *)

(** A text that a reader passes without being led elsewhere, when nothing touches it. *)
Definition confined (t : list Z) : Prop :=
  forall d, exists k, scan (d, Out Free) t = Some (d, Out k) /\ le_lex (Out k) (Out Lit).

Lemma le_Lit k : k = Free \/ k = Word \/ k = Closed \/ k = Lit -> le_lex (Out k) (Out Lit).
Proof. unfold le_lex. intros [->|[->|[->| ->]]]; auto. Qed.

(** Letters and digits. *)
Lemma scan_words t d k : Forall (fun c => isNum c || isAlpha c = true) t ->
  scan (d, Out k) t = Some (d, Out (match t with [] => k | _ => Word end)).
Proof.
  intros Ht. revert k. induction Ht as [|c t Hc _ IH]; intros k; [done|]. cbn [scan].
  assert (E : next (d, Out k) c = Some (d, Out Word)).
  { unfold isNum, isAlpha in Hc. unfold next, lex_next, white, word, isNum, isAlpha.
    repeat match goal with
    | |- context [?a =? ?b] => rewrite (proj2 (Z.eqb_neq a b)) by lia
    end.
    match goal with |- context [if ?w || ?x then _ else _] => replace (w || x) with false by lia end.
    match goal with |- context [if ?w then Some (Out Word) else _] => replace w with true by lia end.
    done. }
  rewrite E. cbn [mbind option_bind]. rewrite IH. by destruct t.
Qed.
Lemma confined_words t : Forall (fun c => isNum c || isAlpha c = true) t -> confined t.
Proof. intros Ht d. rewrite scan_words by done. eexists. split; [done|]. apply le_Lit. destruct t; auto. Qed.

Lemma scan_dbl d c l : scan (d, InStr) (dbl c ++ q1 :: l) = scan (d, Out Closed) l.
Proof.
  induction c as [|x c IH]; [done|]. unfold dbl in *. rewrite bind_cons. destruct (Z.eqb_spec x q1) as [->|Hx].
  - exact IH.
  - cbn [app scan]. unfold next, lex_next. destruct (Z.eqb_spec x q1); [done|]. exact IH.
Qed.
Lemma confined_quoted c : confined (quoted c).
Proof. intros d. exists Closed. split; [exact (scan_dbl d c [])|]. apply le_Lit. auto. Qed.

Lemma uint_words z : 0 <= z -> Forall (fun c => isNum c || isAlpha c = true) (Strconv.FormatUint z 10).
Proof.
  intros Hz. eapply Forall_impl; [by apply Strconv.FormatUint_digits|]. intros c Hc. simpl in Hc. unfold isNum. lia.
Qed.
Lemma int_confined z : confined (Strconv.FormatInt z 10).
Proof.
  unfold Strconv.FormatInt. destruct (Z.ltb_spec z 0); [|by apply confined_words, uint_words].
  intros d. exists Word. split; [|apply le_Lit; auto]. cbn [scan app].
  assert (Hd : next (d, Out Free) 45 = Some (d, Out Minus)) by (by vm_compute). rewrite Hd. cbn [mbind option_bind].
  rewrite scan_words by (apply uint_words; lia).
  pose proof (Strconv.FormatUint_nonempty (- z) 10 ltac:(lia) ltac:(lia)). by destruct (Strconv.FormatUint (- z) 10).
Qed.

Context `{!GoStdLaws}.

(** NULL, booleans, integers, and everything that becomes a string constant; lists of
    strings and integers. *)
Definition scalar (v : value) : Prop :=
  match v with
  | Bool _ | Int _ => True
  | Uint z => 0 <= z
  | _ => is_Some (content v) /\ value_ok v
  end.
Definition in_scalar (v : value) : Prop := match v with Str _ | Int _ => True | _ => False end.
Definition simple (v : value) : Prop :=
  match v with Nil => True | In es => Forall in_scalar es | _ => scalar v end.

Definition scalar_text (v : value) : list Z :=
  match v with
  | Bool x => appendBool [] x
  | Int z => Strconv.FormatInt z 10
  | Uint z => Strconv.FormatUint z 10
  | _ => quoted (default [] (content v))
  end.
Fixpoint in_text (first : bool) (es : list value) : list Z :=
  match es with [] => [] | e :: es' => (if first then [] else [comma]) ++ scalar_text e ++ in_text false es' end.
Definition value_text (v : value) : list Z :=
  match v with Nil => bs "NULL" | In es => in_text true es | _ => scalar_text v end.

Lemma scalar_confined v : scalar v -> confined (scalar_text v).
Proof.
  destruct v; simpl; intros Hv; try by apply confined_quoted.
  - destruct x; apply confined_words; refine (bool_decide_unpack _ _); vm_compute; exact I.
  - apply int_confined.
  - by apply confined_words, uint_words.
Qed.

Lemma in_scalar_scalar v : in_scalar v -> scalar v.
Proof. by destruct v. Qed.

Lemma in_confined es : Forall in_scalar es -> forall first k d, (first = true -> k = Free) -> le_lex (Out k) (Out Lit) ->
  exists k', scan (d, Out k) (in_text first es) = Some (d, Out k') /\ le_lex (Out k') (Out Lit).
Proof.
  induction 1 as [|v es Hv _ IH]; intros first k d Hk Hle; [by exists k|]. cbn [in_text].
  assert (E : scan (d, Out k) (if first then [] else [comma]) = Some (d, Out Free)).
  { destruct first; [by rewrite Hk|]. by destruct k. }
  rewrite scan_app, E. cbn [mbind option_bind]. destruct (scalar_confined v (in_scalar_scalar _ Hv) d) as (k1 & E1 & L1).
  rewrite scan_app, E1. cbn [mbind option_bind]. by apply IH.
Qed.
Lemma value_confined v : simple v -> confined (value_text v).
Proof.
  destruct v; intros Hv; try by apply (scalar_confined _ Hv).
  - apply confined_words. refine (bool_decide_unpack _ _). vm_compute. exact I.
  - intros d. apply in_confined; [done|done|]. apply le_Lit. auto.
Qed.

Lemma Append_content b v : is_Some (content v) /\ value_ok v -> Append b v quoteFlag = Some (Some (b ++ quoted (default [] (content v)))).
Proof. intros [[c Hc] Hok]. rewrite (Append_quoted b v c Hc Hok). by rewrite Hc. Qed.
Lemma Append_scalar b v : scalar v -> Append b v quoteFlag = Some (Some (b ++ scalar_text v)).
Proof. destruct v; intros Hv; first [done|exact (Append_content b _ Hv)]. Qed.

Lemma in_loop_text first es b : Forall in_scalar es ->
  in_loop (append_at InList) quoteFlag first (Some b) es = Some (Some (b ++ in_text first es)).
Proof.
  intros Hes. revert first b. induction Hes as [|v es Hv _ IH]; intros first b; simpl; [by rewrite app_nil_r|].
  assert (E : forall b, append_at InList v b quoteFlag = Some (Some (b ++ scalar_text v))).
  { intros b'. pose proof (Append_scalar b' v (in_scalar_scalar _ Hv)) as E. by destruct v. }
  rewrite E, IH. destruct first; app_eq.
Qed.

Lemma Append_simple b v : simple v -> Append b v quoteFlag = Some (Some (b ++ value_text v)).
Proof.
  destruct v; intros Hv; try by apply (Append_scalar b _ Hv).
  - done.
  - by apply in_loop_text.
Qed.

(** A condition whose placeholders are positional or numbered and stand outside of
    strings and names, apart from words, signs and strings, in a text with balanced
    parentheses and without comments and dollar signs. *)
Fixpoint outside (st : nat * lex) (tpl : list (list Z * hole)) (tl : list Z) : Prop :=
  match tpl with
  | [] => exists k, scan st tl = Some (0%nat, Out k)
  | (t, h) :: tpl' =>
      match h with
      | Esc => exists st', scan st (t ++ [63]) = Some st' /\ outside st' tpl' tl
      | Pos | Num _ => exists d, scan st t = Some (d, Out Free) /\ outside (d, Out Lit) tpl' tl
      | _ => False
      end
  end.
Definition param_text (p : param) : list Z := match p with PValue v => value_text v | _ => [] end.

(** The texts with something in place of the placeholders. *)
Fixpoint weave (tpl : list (list Z * hole)) (xs : list (list Z)) (tl : list Z) : list Z :=
  match tpl, xs with
  | (t, _) :: tpl', x :: xs' => t ++ x ++ weave tpl' xs' tl
  | _, _ => tl
  end.
Definition fits (h : hole) (x : list Z) : Prop :=
  match h with Esc => x = [63] \/ x = [92; 63] | _ => confined x end.

Lemma weave_scan tpl tl : forall xs d m m', Forall2 (fun th => fits (snd th)) tpl xs -> outside (d, m') tpl tl -> le_lex m m' ->
  exists k, scan (d, m) (weave tpl xs tl) = Some (0%nat, Out k).
Proof.
  induction tpl as [|[t h] tpl IH]; intros xs d m m' Hx Ho Hle; inversion Hx as [|? x ? xs' Hfit Hxs]; subst; cbn [outside weave snd] in *.
  { destruct Ho as [k Hk]. destruct (scan_le _ _ _ _ _ _ Hle Hk) as (n & En & Hn). rewrite En.
    destruct Hn as [->|[_ [->|[->| ->]]]]; by eexists. }
  assert (Hval : (exists d', scan (d, m') t = Some (d', Out Free) /\ outside (d', Out Lit) tpl tl) -> confined x ->
    exists k, scan (d, m) (t ++ x ++ weave tpl xs' tl) = Some (0%nat, Out k)).
  { intros (d' & Ht & Ho') Hc. destruct (scan_le _ _ _ _ _ _ Hle Ht) as (n & En & [->|[? _]]); [|done].
    rewrite scan_app, En. cbn [mbind option_bind]. destruct (Hc d') as (k & Ek & Lk). rewrite scan_app, Ek. cbn [mbind option_bind].
    by eapply IH. }
  destruct h; try done; [|by apply Hval..]. destruct Ho as ([d' n'] & Ht & Ho'). rewrite app_assoc.
  assert (E : exists n, scan (d, m) (t ++ x) = Some (d', n) /\ le_lex n n').
  { destruct (scan_le _ _ _ _ _ _ Hle Ht) as (n & En & Hn). exists n. split; [|done]. rewrite <- En, !scan_app.
    destruct (scan (d, m) t) as [[d1 [k| |]]|]; try done; destruct Hfit as [-> | ->]; try done; by destruct k. }
  destruct E as (n & En & Hn). rewrite scan_app, En. cbn [mbind option_bind]. by eapply IH.
Qed.

Lemma hole_text_fits h d m tpl tl t : outside (d, m) ((t, h) :: tpl) tl -> fits h (hole_text h).
Proof.
  destruct h; simpl; try done; auto; intros _ d'.
  - exists Free. split; [done|]. apply le_Lit. auto.
  - exists Word. split; [|apply le_Lit; auto]. cbn [scan]. change (next (d', Out Free) 63) with (Some (d', Out Free)). cbn [mbind option_bind].
    rewrite scan_words by (apply uint_words; lia).
    pose proof (Strconv.FormatUint_nonempty (Z.of_nat k) 10 ltac:(lia) ltac:(lia)). by destruct (Strconv.FormatUint _ 10).
Qed.
Lemma fill_fits (ps : list param) idx h d m tpl tl t : (forall p, p ∈ ps -> confined (param_text p)) -> outside (d, m) ((t, h) :: tpl) tl ->
  fits h (fill param_text ∅ ps idx h).1.
Proof.
  intros Hps Ho. destruct h; simpl; try done; auto.
  - destruct (ps !! idx) as [p|] eqn:E; [by eapply Hps, list_elem_of_lookup_2|]. exact (hole_text_fits Pos _ _ _ _ _ Ho).
  - destruct (ps !! k) as [p|] eqn:E; [by eapply Hps, list_elem_of_lookup_2|]. exact (hole_text_fits (Num k) _ _ _ _ _ Ho).
Qed.

Lemma outside_tail d m t h tpl tl : outside (d, m) ((t, h) :: tpl) tl -> exists d' m', outside (d', m') tpl tl.
Proof. destruct h; simpl; try done; [intros ([d' m'] & _ & ?)|intros (d' & _ & ?)..]; by eauto. Qed.

Lemma render_weave tpl tl d m : outside (d, m) tpl tl ->
  exists xs, render tpl tl = weave tpl xs tl /\ Forall2 (fun th => fits (snd th)) tpl xs.
Proof.
  revert d m. induction tpl as [|[t h] tpl IH]; intros d m Ho; [by exists []|].
  destruct (outside_tail _ _ _ _ _ _ Ho) as (d' & m' & (xs & E & Hxs)%IH). exists (hole_text h :: xs). cbn [render weave]. rewrite E.
  split; [done|]. constructor; [by eapply hole_text_fits|done].
Qed.
Lemma expand_weave (ps : list param) tpl tl d m idx : (forall p, p ∈ ps -> confined (param_text p)) -> outside (d, m) tpl tl ->
  exists xs, expand param_text ∅ ps idx tpl tl = weave tpl xs tl /\ Forall2 (fun th => fits (snd th)) tpl xs.
Proof.
  intros Hps. revert d m idx. induction tpl as [|[t h] tpl IH]; intros d m idx Ho; [by exists []|]. cbn [expand].
  pose proof (fill_fits ps idx h _ _ _ _ _ Hps Ho) as Hf. destruct (fill _ _ _ _ _) as [x idx']. simpl in Hf.
  destruct (outside_tail _ _ _ _ _ _ Ho) as (d' & m' & Ho'). destruct (IH _ _ idx' Ho') as (xs & E & Hxs). exists (x :: xs). cbn [weave].
  rewrite E. split; [done|]. by constructor.
Qed.

(** A condition of the program: its text with placeholders, and values for them. *)
Definition cond_ok (c : condAppender) : Prop :=
  exists tpl tl vs, ccond c = render tpl tl /\ cparams c = PValue <$> vs /\ template_ok tpl tl /\
    outside (0%nat, Out Free) tpl tl /\ Forall simple vs.
(** The text of a condition by itself. *)
Definition cond_text (fmter : QueryFormatter) (c : condAppender) : list Z := default [] (fmter [] (ccond c) (cparams c)).

Lemma cond_ok_text depth c : cond_ok c ->
  writes (formatter (S depth) ∅) (cond_text (formatter (S depth) ∅)) c /\ balanced (cond_text (formatter (S depth) ∅) c).
Proof.
  intros (tpl & tl & vs & Hc & Hp & Hok & Ho & Hvs). rewrite Forall_forall in Hvs.
  assert (Hf : exists t, (forall b, formatter (S depth) ∅ b (ccond c) (cparams c) = Some (b ++ t)) /\ balanced t).
  { eexists. split.
    - intros b. rewrite Hc, Hp. unfold formatter. apply (FormatQuery_expand _ _ _ param_text); [done|].
      intros p b' [(v & -> & Hin)%list_elem_of_fmap|[n Hn]]; [|by rewrite lookup_empty in Hn].
      cbn [appendParam param_text]. by rewrite Append_simple by auto.
    - assert (Hw : forall t, (exists xs, t = weave tpl xs tl /\ Forall2 (fun th => fits (snd th)) tpl xs) -> balanced t).
      { intros t (xs & -> & Hxs). by eapply weave_scan; [| |left]. }
      case_bool_decide; apply Hw; [by eapply render_weave|]. eapply expand_weave; [|done].
      intros p (v & -> & Hin)%list_elem_of_fmap. by apply value_confined, Hvs. }
  destruct Hf as (t & Ht & Hb). unfold writes, cond_text. rewrite Ht. simpl. done.
Qed.

Lemma made_impl (P Q : condAppender -> Prop) w : (forall c, P c -> Q c) -> made P w -> made Q w.
Proof.
  intros HPQ. induction 1 as [c Hs Hc|sep ws Hs Hne _ IH] using made_ind'; constructor; auto.
Qed.

(** C8: The conditions of a query that was made with the builder, with values for their
    placeholders and in groups, are written so that a reader of SQL finds exactly them:
    one pair of parentheses for each condition and each group, the separators between
    them, and then what follows the clause. Whatever the values hold, NULL, booleans,
    integers, strings, byte strings, arrays, hstores, and lists of strings and integers
    for IN, no value leaves the parentheses of its condition. The placeholders are
    positional or numbered and stand outside of strings and names, apart from words,
    signs and strings, and the texts of the conditions have balanced parentheses and
    neither comments nor dollar signs ([cond_ok]). The separator of the first condition
    is not written. *)
Theorem where_reads_back (depth : nat) (q : Query) (b tail : list Z) :
  let T := cond_text (formatter (S depth) ∅) in
  steps zero_query q -> where_ q <> [] -> Forall (fun w => Forall cond_ok (leaves w)) (where_ q) -> read_sep tail = None ->
  appendWhere (formatter (S depth) ∅) b (where_ q) = Ret (b ++ where_text T (where_ q)) /\
  read_where (where_text T (where_ q) ++ tail) = Some (shape T (where_ q), tail).
Proof.
  intros T Hs Hne Hl Ht. assert (Hws : Forall (made cond_ok) (where_ q)).
  { apply steps_made in Hs as [Hm _]; [|done]. rewrite Forall_forall in *. intros w Hw. apply made_leaves; auto. }
  split; [apply where_loop_text|apply read_where_text; try done].
  all: eapply Forall_impl; [exact Hws|]; intros w; apply made_impl; intros c Hc; by apply cond_ok_text.
Qed.

(** ** No UPDATE or DELETE without a condition *)

(** Conditions and other parts whose parameters append. *)
Definition part_appending (x : SafeQueryAppender) : Prop := Forall appending_param (params x).
Definition where_appending (w : where_cond) : Prop := Forall (fun c => Forall appending_param (cparams c)) (leaves w).

Section Growing.
Context (fmter : QueryFormatter).
Hypothesis Hf : forall b s ps r, Forall appending_param ps -> fmter b s ps = Some r -> b `prefix_of` r.

Lemma safe_query_grows s b r : part_appending s -> safe_query fmter s b = Ret r -> b `prefix_of` r.
Proof. unfold safe_query, lift. destruct (fmter _ _ _) eqn:E; [|done]. intros Hs [= <-]. by eapply Hf. Qed.

Lemma sep_loop_grows {A} (app : A -> list Z -> go error (list Z)) sep l :
  Forall (fun x => forall b r, app x b = Ret r -> b `prefix_of` r) l ->
  forall first b r, sep_loop app sep first l b = Ret r -> b `prefix_of` r.
Proof.
  induction 1 as [|x l Hx _ IH]; intros first b r; simpl; [by intros [= ->]|].
  destruct (app x _) as [b1| | |] eqn:E; simpl; try done. intros H1%IH. etrans; [|exact H1]. apply Hx in E.
  destruct first; [done|]. etrans; [|exact E]. by apply prefix_app_r.
Qed.

(** What a condition or a group appends begins with a parenthesis. *)
Lemma where_query_grows : forall w, where_appending w -> forall b r, where_query fmter w b = Ret r -> b ++ [40] `prefix_of` r.
Proof.
  assert (Hbs : bs "(" = [40]) by (vm_compute; reflexivity).
  fix IH 1. intros [c|sep ws] Hw b r; simpl.
  - unfold cond_query. destruct (fmter _ _ _) as [b1|] eqn:E; simpl; [|done]. intros [= <-].
    unfold where_appending in Hw. cbn [leaves] in Hw. rewrite Forall_singleton in Hw. apply Hf in E; [|done]. rewrite Hbs in E. by apply prefix_app_r.
  - assert (Hws : Forall (fun x => forall b r, where_query fmter x b = Ret r -> b `prefix_of` r) ws).
    { clear b r. unfold where_appending in Hw. simpl in Hw.
      induction ws as [|w ws IHws]; [constructor|]. simpl in Hw. apply Forall_app in Hw as [Hw1 Hw2]. constructor; [|by apply IHws].
      intros b r Hr. etrans; [|exact (IH w Hw1 b r Hr)]. by apply prefix_app_r. }
    destruct (sep_loop _ _ _ _ _) as [b1| | |] eqn:E; simpl; try done. intros [= <-].
    apply (sep_loop_grows _ _ _ Hws) in E. rewrite Hbs in E. by apply prefix_app_r.
Qed.

Lemma where_loop_grows ws first b r : Forall where_appending ws -> where_loop fmter first ws b = Ret r ->
  b `prefix_of` r /\ (first = true -> ws <> [] -> b ++ [40] `prefix_of` r).
Proof.
  intros Hws. revert first b. induction Hws as [|w ws Hw _ IH]; intros first b; simpl; [by intros [= ->]|].
  destruct (where_query _ _ _) as [b1| | |] eqn:E; simpl; try done. apply where_query_grows in E; [|done].
  assert (Hl : (length (if first then b else b ++ where_sep w) < length b1)%nat).
  { apply prefix_length in E. rewrite length_app in E. simpl in E. lia. }
  rewrite (proj2 (Nat.eqb_neq _ _)) by lia. intros [Hr _]%IH. destruct first.
  - assert (b ++ [40] `prefix_of` r) by (by etrans). split; [|done]. etrans; [|done]. by apply prefix_app_r.
  - split; [|done]. etrans; [|exact Hr]. etrans; [|exact E]. rewrite <- app_assoc. by apply prefix_app_r.
Qed.

Lemma mustAppendWhere_text q b r : Forall where_appending (where_ q) -> mustAppendWhere fmter q b = Ret r ->
  where_ q <> [] /\ exists w, r = b ++ [40] ++ w /\ appendWhere fmter b (where_ q) = Ret r.
Proof.
  unfold mustAppendWhere. intros Hw Hr. destruct (where_ q) as [|w ws] eqn:E; [done|]. split; [done|].
  destruct (where_loop_grows _ true _ _ Hw Hr) as [_ Hp]. destruct (Hp eq_refl ltac:(done)) as [t ->].
  exists t. split; [app_eq|done].
Qed.

Lemma opt_returning_text q b r : Forall part_appending (returning q) -> opt_returning fmter q b = Ret r ->
  exists post, r = b ++ post /\ (post = [] \/ bs " RETURNING " `prefix_of` post).
Proof.
  intros Hp. unfold opt_returning, appendReturning, list_of. destruct (returning q) eqn:E; [intros [= <-]; exists []; by rewrite app_nil_r; auto|].
  destruct (hasReturning q); [|intros [= <-]; exists []; by rewrite app_nil_r; auto]. intros Hr.
  apply sep_loop_grows in Hr; [|eapply Forall_impl; [exact Hp|]; intros; by eapply safe_query_grows].
  destruct Hr as [t ->]. exists (bs " RETURNING " ++ t). rewrite <- app_assoc. split; [done|]. right. by apply prefix_app_r.
Qed.

End Growing.

(** The formatter of the repository is such a formatter. *)
Lemma formatter_grows depth f b s ps r : appending_named f -> Forall appending_param ps -> formatter depth f b s ps = Some r -> b `prefix_of` r.
Proof. intros Hf Hps. apply format_with_grows; [by apply appendParam_grows|done|done]. Qed.

(** C20: A DELETE, and an UPDATE of one table, that is written has conditions: its text
    ends in WHERE, the text of the conditions of the query, which begins with a
    parenthesis, and at most a RETURNING clause. A query without conditions gives an
    error in place of a statement that changes the whole table. The formatter is the
    one of the repository, with any named parameters; the parameters of the conditions,
    of the RETURNING clause and of the formatter are values of any kind and parts of
    queries; code of the client among them (a ValueAppender or QueryAppender of its own)
    returns the bytes it is given with something appended ([appending_param]). *)
Theorem where_required (depth : nat) (f : gmap (list Z) param) (k : kind) (q : Query) (b r : list Z) :
  appending_named f -> Forall where_appending (where_ q) -> Forall part_appending (returning q) ->
  match k with KDelete _ => True | KUpdate _ _ => hasMultiTables q = false | _ => False end ->
  AppendQuery (formatter depth f) k q b = Ret r ->
  where_ q <> [] /\
  exists pre w post, r = pre ++ bs " WHERE " ++ [40] ++ w ++ post /\
    appendWhere (formatter depth f) (pre ++ bs " WHERE ") (where_ q) = Ret (pre ++ bs " WHERE " ++ [40] ++ w) /\
    (post = [] \/ bs " RETURNING " `prefix_of` post).
Proof.
  intros Hf Hw Hret Hk Hr. set (fmter := formatter depth f) in *.
  assert (Hm : exists pre r1, mustAppendWhere fmter q (pre ++ bs " WHERE ") = Ret r1 /\ opt_returning fmter q r1 = Ret r).
  { clearbody fmter. clear -Hk Hr. destruct q; cbn [AppendQuery stickyErr] in Hr. destruct stickyErr0; [done|]. destruct k; try done.
    - unfold update_text, update_mustAppendWhere in Hr. rewrite Hk in Hr. cbn [negb] in Hr.
      repeat (match type of Hr with (?m ≫= _) = Ret _ => destruct m eqn:? end; cbn [mbind go_mbind go_bind] in Hr; [|done..]). eauto.
    - unfold delete_text in Hr.
      repeat (match type of Hr with (?m ≫= _) = Ret _ => destruct m eqn:? end; cbn [mbind go_mbind go_bind] in Hr; [|done..]). eauto. }
  assert (Hg : forall b s ps r, Forall appending_param ps -> fmter b s ps = Some r -> b `prefix_of` r) by (intros ? ? ? ? ?; by apply formatter_grows).
  destruct Hm as (pre & r1 & H1 & H2). destruct (mustAppendWhere_text fmter Hg _ _ _ Hw H1) as (Hne & w & -> & Hwt).
  destruct (opt_returning_text fmter Hg _ _ _ Hret H2) as (post & -> & Hp).
  split; [done|]. exists pre, w, post. split; [app_eq|]. split; [|done]. rewrite Hwt. app_eq.
Qed.

(** ** Structs *)

(** The columns of the fields, with their values. *)
Definition field_columns (fs : list field) : list (list Z * value) := omap (fun f => k ← column_of f; Some (k, fvalue f)) fs.

Lemma fields_loop_flat placeholder (t : value -> list Z) fs :
  Forall (fun f => exported f = true /\ nested f = None /\ forall b, value_or_mark placeholder (fvalue f) b = Ret (b ++ t (fvalue f))) fs ->
  forall b pos, fields_loop (field_set false placeholder) fs b pos =
    sep_loop (fun '(k, v) b => value_or_mark placeholder v (b ++ k ++ bs " = ")) (fun _ => bs ", ") (length b =? pos)%nat (field_columns fs) b.
Proof.
  assert (Hbs : length (bs " = ") = 3%nat) by reflexivity.
  induction 1 as [|f fs (He & Hn & Hv) _ IH]; intros b pos; [done|]. unfold field_columns. simpl.
  destruct f as [ln tg ex nil ne v]; simpl in *. subst. unfold column_of. simpl. case_bool_decide; simpl; [apply IH|].
  set (k := match tg with [] => ln | _ => tg end). set (b1 := if (length b =? pos)%nat then b else b ++ bs ", ").
  rewrite Hv. simpl. rewrite IH. simpl. rewrite (proj2 (Nat.eqb_neq _ _)); [done|].
  rewrite !length_app, Hbs. subst b1. destruct (Nat.eqb_spec (length b) pos); lia.
Qed.

(** An UPDATE from a struct without structs in it sets the columns of its fields, as
    [name = value] with commas between them. *)
Theorem appendSetStruct_flat (placeholder : bool) (fs : list field) (t : value -> list Z) (b : list Z) :
  Forall (fun f => exported f = true /\ nested f = None /\ forall b, value_or_mark placeholder (fvalue f) b = Ret (b ++ t (fvalue f))) fs ->
  appendSetStruct false placeholder fs b =
  list_of (fun '(k, v) b => value_or_mark placeholder v (b ++ k ++ bs " = ")) ", " (field_columns fs) b.
Proof. intros Hfs. unfold appendSetStruct. rewrite (fields_loop_flat _ t) by done. by rewrite Nat.eqb_refl. Qed.

(** *** Columns of a row ([src/upg/orm/model_struct.go]) *)

(** [parserField]: the place of the field for each column, or a column that occurs
    twice. The place is the one in the struct that holds the field. *)
Definition parse_loop (app : field -> nat -> gmap (list Z) nat -> list Z + gmap (list Z) nat) :
    list field -> nat -> gmap (list Z) nat -> list Z + gmap (list Z) nat :=
  fix loop fs i m :=
    match fs with
    | [] => inr m
    | f :: fs' => match app f i m with inl k => inl k | inr m => loop fs' (S i) m end
    end.
Fixpoint parse_field (f : field) (i : nat) (m : gmap (list Z) nat) : list Z + gmap (list Z) nat :=
  match nested f with
  | Some fs => parse_loop parse_field fs 0 m
  | None =>
      match column_of f with
      | None => inr m
      | Some k => match m !! k with Some _ => inl k | None => inr (<[k := i]> m) end
      end
  end.
Definition parserField (fs : list field) : list Z + gmap (list Z) nat := parse_loop parse_field fs 0 ∅.

(** [ScanColumn] of a struct, with the result of [ScanValue] on a field: the field that
    the column is stored in, or nothing. *)
Definition scanColumn (fs : list field) (name : list Z) (ScanValue : nat -> option (list Z)) : go error (bool * option nat) :=
  match parserField fs with
  | inl _ => Ret (false, None)
  | inr m =>
      match m !! name with
      | None => Ret (true, None)
      | Some i =>
          if (length fs <=? i)%nat then Panic (* reflect: Field index out of range *)
          else match ScanValue i with None => Ret (true, Some i) | Some _ => Ret (false, None) end
      end
  end.
Definition ScanColumn (fs : list field) (name : list Z) (ScanValue : nat -> option (list Z)) : go error (option nat) :=
  r ← scanColumn fs name ScanValue;
  if r.1 : bool then Ret r.2
  else match name with
       | [] => Panic (* col.Name[0] *)
       | c :: _ => if c =? 95 then Ret None else Fail (NoColumn name)
       end.

Lemma parse_loop_flat fs i m :
  Forall (fun f => nested f = None) fs -> NoDup (field_columns fs).*1 -> (forall k, k ∈ (field_columns fs).*1 -> m !! k = None) ->
  exists m', parse_loop parse_field fs i m = inr m' /\
    (forall k j, m !! k = Some j -> m' !! k = Some j) /\
    (forall j f k, fs !! j = Some f -> column_of f = Some k -> m' !! k = Some (i + j)%nat).
Proof.
  intros Hfs. revert i m. induction Hfs as [|f fs Hn _ IH]; intros i m Hnd Hm; [by exists m|].
  unfold field_columns in Hnd, Hm. simpl in *. destruct f as [ln tg ex nil ne v]; simpl in *. subst ne.
  destruct (column_of _) as [k|] eqn:Ek; simpl in *.
  - apply NoDup_cons in Hnd as [Hk Hnd]. rewrite Hm by set_solver.
    destruct (IH (S i) (<[k := i]> m) Hnd) as (m' & Hp & H1 & H2).
    { intros k' Hk'. rewrite lookup_insert_ne by (by intros ->). apply Hm. set_solver. }
    exists m'. split; [done|]. split.
    + intros k' j Hj. apply H1. rewrite lookup_insert_ne; [done|]. intros ->. rewrite Hm in Hj; set_solver.
    + intros [|j] f k' Hj Hk'; simpl in Hj; simplify_eq.
      * rewrite Nat.add_0_r. apply H1. by rewrite lookup_insert_eq.
      * rewrite <- Nat.add_succ_comm. by eapply H2.
  - destruct (IH (S i) m Hnd Hm) as (m' & Hp & H1 & H2). exists m'. split; [done|]. split; [done|].
    intros [|j] f k' Hj Hk'; simpl in Hj; simplify_eq. rewrite <- Nat.add_succ_comm. by eapply H2.
Qed.

(** A row is read into a struct without structs in it column by column, each into the
    field that it was written from. *)
Theorem ScanColumn_flat (fs : list field) (i : nat) (f : field) (k : list Z) (ScanValue : nat -> option (list Z)) :
  Forall (fun f => nested f = None) fs -> NoDup (field_columns fs).*1 -> fs !! i = Some f -> column_of f = Some k ->
  ScanValue i = None -> ScanColumn fs k ScanValue = Ret (Some i).
Proof.
  intros Hfs Hnd Hi Hk Hs. destruct (parse_loop_flat fs 0 ∅ Hfs Hnd) as (m & Hp & _ & H2); [by intros; rewrite lookup_empty|].
  unfold ScanColumn, scanColumn, parserField. rewrite Hp, (H2 _ _ _ Hi Hk). simpl.
  rewrite (proj2 (Nat.leb_gt _ _)) by (by eapply lookup_lt_Some). by rewrite Hs.
Qed.

(** ** Clones share the array of their columns *)

(** [excludeColumn] on the array: it moves the columns after the excluded one, and a
    clone of the query still sees as many elements as before. *)
Definition exclude_array (column : list Z) (arr : list appender) (len : nat) : option (list appender * nat) :=
  i ← find_field column (take len arr);
  Some (take i arr ++ drop (S i) (take len arr) ++ drop (len - 1) arr, (len - 1)%nat).

Lemma find_field_lt column l i : find_field column l = Some i -> (i < length l)%nat.
Proof.
  revert i. induction l as [|a l IH]; intros i; simpl; [done|]. case_match; [intros [= <-]; lia|].
  destruct (find_field column l) as [j|] eqn:E; simpl; [|done]. intros [= <-]. specialize (IH _ eq_refl). lia.
Qed.

(** For the query itself it is what [excludeColumn] does with the list. *)
Lemma exclude_array_list column arr len arr' len' q :
  (len <= length arr)%nat -> columns q = Some (take len arr) -> exclude_array column arr len = Some (arr', len') ->
  excludeColumn column q = Some (put_columns (Some (take len' arr')) q).
Proof.
  intros Hl Hq. unfold exclude_array, excludeColumn. rewrite Hq. simpl. destruct (find_field column (take len arr)) as [i|] eqn:E; simpl; [|done].
  intros [= <- <-]. do 3 f_equal. apply find_field_lt in E. rewrite length_take in E.
  rewrite take_take, (Nat.min_l i len) by lia. rewrite app_assoc, take_app_length'; [done|].
  rewrite length_app, length_take, length_drop, length_take. lia.
Qed.
End Queries.

(** ** Examples *)

#[local] Existing Instance demo_std.
#[local] Existing Instance demo_std_laws.
Abbreviation plain := (formatter 2 ∅).
Definition text_of (m : go error (list Z)) : list Z := match m with Ret b => b | _ => [] end.
Definition users : Query := Table_ (bs "users") [] zero_query.

(** Conditions with values that try to leave their parentheses, one in a group. *)
Definition returned_ (q : Query) : Query * (error + Query) := (q, inr q).
Definition demo_group (q : Query) : Query * (error + Query) :=
  returned_ (WhereOr (bs "c > ?0 AND c < ?0") [PValue (Int (-7))] (WhereIn (bs "b IN (?)") (In [Str (bs "') OR ('"); Int (-1)]) q)).
Definition demo_where : Query :=
  WhereOrNotGroup demo_group (Where (bs "a = ?") [PValue (Str (bs "x') OR (TRUE"))] users).

Ltac template_tac :=
  cbn [template_ok hole_ok render]; repeat split;
  try (refine (bool_decide_unpack _ _); vm_compute; exact I); try (intros; vm_compute; discriminate); vm_compute; try done; intros; discriminate.

Lemma demo_steps : steps zero_query demo_where.
Proof.
  refine (steps_cons _ _ _ (step_Table (bs "users") [] zero_query) _).
  refine (steps_cons _ _ _ (step_Where (bs "a = ?") [PValue (Str (bs "x') OR (TRUE"))] users) _).
  refine (steps_cons _ _ _ _ (steps_nil _)). 
  assert (Hg : forall q, steps q (demo_group q).1)
    by (intros q; exact (steps_cons _ _ _ (step_Where _ _ _) (steps_cons _ _ _ (step_WhereOr _ _ _) (steps_nil _)))).
  apply step_whereGroup; [unfold seps; set_solver|apply Hg|]. intros q' [= <-]. apply Hg.
Qed.

Lemma demo_conds : Forall (fun w => Forall cond_ok (leaves w)) (where_ demo_where).
Proof.
  assert (E : where_ demo_where =
    [WCond (CondA (bs " AND ") (render [(bs "a = ", Pos)] []) (PValue <$> [Str (bs "x') OR (TRUE")]));
     WGroup (bs " OR NOT ")
       [WCond (CondA (bs " AND ") (render [(bs "b IN (", Pos)] (bs ")")) (PValue <$> [In [Str (bs "') OR ('"); Int (-1)]]));
        WCond (CondA (bs " OR ") (render [(bs "c > ", Num 0); (bs " AND c < ", Num 0)] []) (PValue <$> [Int (-7)]))]]) by (vm_compute; reflexivity).
  rewrite E. repeat constructor.
  - exists [(bs "a = ", Pos)], [], [Str (bs "x') OR (TRUE")]. split; [reflexivity|]. split; [reflexivity|]. split; [template_tac|]. split.
    + exists 0%nat. split; [vm_compute; reflexivity|]. by eexists.
    + constructor; [split; [by eexists|exact I]|constructor].
  - exists [(bs "b IN (", Pos)], (bs ")"), [In [Str (bs "') OR ('"); Int (-1)]]. split; [reflexivity|]. split; [reflexivity|]. split; [template_tac|]. split.
    + exists 1%nat. split; [vm_compute; reflexivity|]. eexists. vm_compute. reflexivity.
    + repeat constructor.
  - exists [(bs "c > ", Num 0); (bs " AND c < ", Num 0)], [], [Int (-7)]. split; [reflexivity|]. split; [reflexivity|]. split; [template_tac|]. split.
    + exists 0%nat. split; [vm_compute; reflexivity|]. exists 0%nat. split; [vm_compute; reflexivity|]. by eexists.
    + repeat constructor.
Qed.

Lemma where_reads_back_witness :
  appendWhere plain [] (where_ demo_where) =
    Ret (bs "(a = 'x'') OR (TRUE') OR NOT ((b IN (''') OR (''',-1)) OR (c > -7 AND c < -7))") /\
  read_where (bs "(a = 'x'') OR (TRUE') OR NOT ((b IN (''') OR (''',-1)) OR (c > -7 AND c < -7)) RETURNING *") =
    Some ([([], bs "a = 'x'') OR (TRUE'"); (bs " OR NOT ", bs "(b IN (''') OR (''',-1)) OR (c > -7 AND c < -7)")], bs " RETURNING *").
Proof.
  destruct (where_reads_back 1 demo_where [] (bs " RETURNING *")) as [H1 H2].
  - exact demo_steps.
  - vm_compute. discriminate.
  - exact demo_conds.
  - vm_compute. reflexivity.
  - split; [rewrite H1; vm_compute; reflexivity|]. refine (eq_trans _ (eq_trans H2 _)); vm_compute; reflexivity.
Defined.

(** A DELETE with a RETURNING clause, by the formatter with a named parameter. *)
Definition demo_delete : Query := Returning (bs "id, ?name") [] demo_where.
Definition demo_fmter : gmap (list Z) param := WithParam (bs "name") (PValue (Ident (bs "users.name"))) ∅.
Lemma where_required_witness :
  where_ demo_delete <> [] /\
  exists pre w post, text_of (AppendQuery (formatter 2 demo_fmter) (KDelete false) demo_delete (bs "/**/")) = pre ++ bs " WHERE " ++ [40] ++ w ++ post /\
    appendWhere (formatter 2 demo_fmter) (pre ++ bs " WHERE ") (where_ demo_delete) = Ret (pre ++ bs " WHERE " ++ [40] ++ w) /\
    (post = [] \/ bs " RETURNING " `prefix_of` post).
Proof.
  apply (where_required 2 demo_fmter (KDelete false) demo_delete (bs "/**/")).
  - intros n p Hn. unfold demo_fmter, WithParam, setParam in Hn. apply lookup_insert_Some in Hn as [[_ <-]|[_ Hn]]; [done|by rewrite lookup_empty in Hn].
  - repeat constructor.
  - repeat constructor.
  - exact I.
  - vm_compute. reflexivity.
Defined.

(** An error, then conditions, then a query around it. *)
Lemma errors_kept_witness :
  AppendQuery plain (KSelect []) (WrapWith (bs "w") (Where (bs "a") [] (JoinOn (bs "b") [] users))) [] <> Ret [].
Proof.
  refine (proj1 (errors_kept plain (JoinOn (bs "b") [] users) _ _ _) (KSelect []) [] []).
  - vm_compute. by eexists.
  - refine (steps_cons _ _ _ (step_Where (bs "a") [] _) (steps_cons _ _ _ (step_WrapWith (bs "w") _) (steps_nil _))).
Defined.

(** The statements that the builder makes. *)
Example select_ex :
  AppendQuery plain (KSelect [])
    (Limit 10 (Order [bs "u.name desc"; bs "id"] (Having (bs "count(*) > ?") [PValue (Int 1)] (Group [bs "u.name"]
      (JoinOn (bs "p.user = u.id") [] (Join (bs "JOIN posts AS p") []
        (Where (bs "u.age > ?") [PValue (Int 18)] (ColumnExpr (bs "count(*)") [] (Column [bs "u.name"] (Table_ (bs "users") (bs "u") zero_query))))))))))
    [] =
  Ret (bs "SELECT " ++ AppendIdent [] (bs "u.name") 1 ++ bs ", count(*) FROM " ++ AppendIdent [] (bs "users") 1 ++ bs " AS " ++
       AppendIdent [] (bs "u") 1 ++ bs " JOIN posts AS p ON (p.user = u.id) WHERE (u.age > 18) GROUP BY " ++ AppendIdent [] (bs "u.name") 1 ++
       bs " HAVING (count(*) > 1) ORDER BY " ++ AppendIdent [] (bs "u.name") 1 ++ bs " desc, " ++ AppendIdent [] (bs "id") 1 ++ bs " LIMIT 10").
Proof. vm_compute. reflexivity. Qed.

Definition demo_row : list field :=
  [Fld (bs "id") [] true None None (Int 1); Fld (bs "name") (bs "full_name") true None None (Str (bs "it's"));
   Fld (bs "cache") (bs "-") true None None (Int 0)].
Example insert_ex :
  AppendQuery plain (KInsert false) (Returning (bs "id") [] (put_model (structTableModel demo_row) users)) [] =
  Ret (bs "INSERT INTO " ++ AppendIdent [] (bs "users") 1 ++ bs " (" ++ AppendIdent [] (bs "id") 1 ++ bs ", " ++
       AppendIdent [] (bs "full_name") 1 ++ bs ") VALUES (1, 'it''s') RETURNING id").
Proof. vm_compute. reflexivity. Qed.
Example map_ex :
  AppendQuery plain (KUpdate false false)
    (Where (bs "id = ?") [PValue (Int 1)] (put_model (mapModel (<[bs "b" := Nil]> (<[bs "a" := Int 2]> ∅))) users)) [] =
  Ret (bs "UPDATE " ++ AppendIdent [] (bs "users") 1 ++ bs " SET " ++ AppendIdent [] (bs "a") 1 ++ bs " = 2, " ++
       AppendIdent [] (bs "b") 1 ++ bs " = NULL WHERE (id = 1)").
Proof. vm_compute. reflexivity. Qed.
Example no_where_ex :
  AppendQuery plain (KDelete false) users [] = Fail WhereRequired /\
  AppendQuery plain (KDelete false) (WhereGroup returned_ users) [] = Fail WhereRequired.
Proof. vm_compute. done. Qed.

(** The NOT of a group is a part of its separator, and the first condition has none. *)
Example first_not_lost :
  AppendQuery plain (KDelete false) (WhereNotGroup (fun q => returned_ (Where (bs "keep") [] q)) users) [] =
  Ret (bs "DELETE FROM " ++ AppendIdent [] (bs "users") 1 ++ bs " WHERE ((keep))").
Proof. vm_compute. reflexivity. Qed.

(** After ON CONFLICT DO UPDATE the conditions of a group go straight to the clause of
    the update: the group is lost, and its NOT. *)
Example conflict_group_lost :
  updWhere (WhereNotGroup (fun q => returned_ (WhereOr (bs "b") [] (Where (bs "a") [] q))) (OnConflict (bs "(id) DO UPDATE") [] users)) =
  [WCond (CondA (bs " AND ") (bs "a") []); WCond (CondA (bs " OR ") (bs "b") [])].
Proof. vm_compute. reflexivity. Qed.

(** An UPDATE of two tables without conditions ends in WHERE. *)
Example empty_where :
  AppendQuery plain (KUpdate false false) (Set_ (bs "a = 1") [] (Table_ (bs "t") [] users)) [] =
  Ret (bs "UPDATE " ++ AppendIdent [] (bs "users") 1 ++ bs " SET a = 1 FROM " ++ AppendIdent [] (bs "t") 1 ++ bs " WHERE ").
Proof. vm_compute. reflexivity. Qed.

(** A struct in a struct: no comma before its first column. The names of columns are not
    quoted as they are in an INSERT. *)
Example comma_missing :
  appendSetStruct false false
    [Fld (bs "id") [] true None None (Int 1);
     Fld (bs "base") [] true None (Some [Fld (bs "order") [] true None None (Int 2); Fld (bs "c") [] true None None (Int 3)]) Nil] [] =
  Ret (bs "id = 1order = 2, c = 3").
Proof. vm_compute. reflexivity. Qed.

(** A time is a struct without exported fields: it is never updated, and its column is
    not read. *)
Definition time_field : field :=
  Fld (bs "created") [] true None
    (Some [Fld (bs "wall") [] false None None Nil; Fld (bs "ext") [] false None None Nil; Fld (bs "loc") [] false (Some true) None Nil]) (Time 5).
Example time_left_out :
  appendSetStruct false false [Fld (bs "id") [] true None None (Int 1); time_field] [] = Ret (bs "id = 1") /\
  ScanColumn [Fld (bs "id") [] true None None (Int 1); time_field] (bs "created") (fun _ => None) = Ret None.
Proof. vm_compute. done. Qed.

(** [UpdateNotZero] asks every field whether it is nil, which only some kinds answer. *)
Example not_zero_panics : appendSetStruct true false [Fld (bs "id") [] true None None (Int 1)] [] = Panic.
Proof. vm_compute. reflexivity. Qed.

(** Columns of a struct in a struct are stored in a field of the outer struct, by their
    place in the inner one, or the program panics. *)
Example nested_column :
  let base := Fld (bs "base") [] true None (Some [Fld (bs "x") [] true None None Nil; Fld (bs "y") [] true None None Nil;
                                                  Fld (bs "z") [] true None None Nil]) Nil in
  ScanColumn [Fld (bs "id") [] true None None Nil; base] (bs "x") (fun _ => None) = Ret (Some 0%nat) /\
  ScanColumn [Fld (bs "id") [] true None None Nil; base] (bs "z") (fun _ => None) = Panic.
Proof. vm_compute. done. Qed.

(** An error of a column is reported as an unknown column, and not at all when the name
    begins with an underscore; an unknown column is no error. *)
Example scan_error_lost :
  ScanColumn demo_row (bs "id") (fun _ => Some (bs "out of range")) = Fail (NoColumn (bs "id")) /\
  ScanColumn [Fld (bs "_id") [] true None None Nil] (bs "_id") (fun _ => Some (bs "out of range")) = Ret None /\
  ScanColumn demo_row (bs "unknown") (fun _ => None) = Ret None.
Proof. vm_compute. done. Qed.

(** Counting the rows of a grouped union: the query of the count closes before the
    parenthesis that is open. *)
Example count_union :
  AppendQuery plain (KSelect (bs "count(*)")) (Union (ColumnExpr (bs "2") [] zero_query) (GroupExpr (bs "a") [] (ColumnExpr (bs "1") [] zero_query))) [] =
  Ret (bs "WITH " ++ count_wrapper ++ bs " AS ((SELECT 1 GROUP BY a) SELECT count(*) FROM " ++ count_wrapper ++ bs ") UNION (SELECT 2)").
Proof. vm_compute. reflexivity. Qed.

(** [First] and [Last] sort by a constant, since their column is a value. *)
Example first_by_constant :
  match First (bs "id") (ColumnExpr (bs "id") [] users) with inr (k, q) => AppendQuery plain k q [] | inl e => Fail e end =
  Ret (bs "SELECT id FROM " ++ AppendIdent [] (bs "users") 1 ++ bs " ORDER BY 'id' ASC LIMIT 1").
Proof. vm_compute. reflexivity. Qed.

(** A clone has joins that it cannot add conditions to. *)
Example clone_join : stickyErr (JoinOn (bs "a = b") [] (Clone (Join (bs "JOIN t") [] users))) = Some NoJoins.
Proof. vm_compute. reflexivity. Qed.

(** Excluding a column of a query changes the columns of its clone: with [a, b, c] the
    query is left with [b, c], and the clone with [b, c, c]. *)
Example clone_shares_columns :
  exclude_array (bs "a") (AField <$> [bs "a"; bs "b"; bs "c"]) 3 = Some (AField <$> [bs "b"; bs "c"; bs "c"], 2%nat).
Proof. vm_compute. reflexivity. Qed.

End PgQuery.
