(* ===== verification/PgPool.v ===== *)
(** * The pool of connections ([src/upg/internal/pool/pool.go], [conn.go])

    Goroutines share the pool under a mutex, a counting channel and atomic
    variables. The methods are split at these points: a step of a goroutine runs to
    the next one, and what the mutex guards is one step. The goroutines that the pool
    starts itself (new idle connections, the reaper, the dialler that tries again)
    are goroutines of the model. Dialling, cancelling and waiting too long are
    choices of the environment, and so is the clock. *)
From stdpp Require Import base numbers list sets.
From S2P Require Import Prelude.
#[local] Open Scope Z_scope.

Module PgPool.

(** ** Data *)

(** A connection, and whether its socket is closed. Times are in nanoseconds since
    the epoch, [usedAt] in seconds. *)
Record Conn := Cn { createdAt : Z; usedAt : Z; pooled : bool; sock_closed : bool }.

Record Options := Opt { PoolSize : Z; MinIdleConns : Z; MaxConnAge : Z; IdleTimeout : Z; IdleCheckFrequency : Z }.

Record Stats := St { Hits : Z; Misses : Z; Timeouts : Z; StaleConns : Z }.

(** A pointer to a connection is its place in [heap]. *)
Record ConnPool := CP {
  heap : list Conn;
  dialErrorsNum : Z;
  closed : bool;
  lastDialError : option Z;
  queue : nat;
  stats : Stats;
  conns : list nat;
  idleConns : list nat;
  poolSize : Z;
  idleConnsLen : Z
}.

(** Assignments. *)
Definition set_heap (f : list Conn -> list Conn) (p : ConnPool) : ConnPool :=
  CP (f (heap p)) (dialErrorsNum p) (closed p) (lastDialError p) (queue p) (stats p) (conns p) (idleConns p) (poolSize p) (idleConnsLen p).
Definition set_dial (n : Z) (e : option Z) (p : ConnPool) : ConnPool :=
  CP (heap p) n (closed p) e (queue p) (stats p) (conns p) (idleConns p) (poolSize p) (idleConnsLen p).
Definition set_queue (n : nat) (p : ConnPool) : ConnPool :=
  CP (heap p) (dialErrorsNum p) (closed p) (lastDialError p) n (stats p) (conns p) (idleConns p) (poolSize p) (idleConnsLen p).
Definition set_stats (f : Stats -> Stats) (p : ConnPool) : ConnPool :=
  CP (heap p) (dialErrorsNum p) (closed p) (lastDialError p) (queue p) (f (stats p)) (conns p) (idleConns p) (poolSize p) (idleConnsLen p).
Definition set_lists (c i : list nat) (p : ConnPool) : ConnPool :=
  CP (heap p) (dialErrorsNum p) (closed p) (lastDialError p) (queue p) (stats p) c i (poolSize p) (idleConnsLen p).
Definition set_sizes (n i : Z) (p : ConnPool) : ConnPool :=
  CP (heap p) (dialErrorsNum p) (closed p) (lastDialError p) (queue p) (stats p) (conns p) (idleConns p) n i.
Definition set_closed (p : ConnPool) : ConnPool :=
  CP (heap p) (dialErrorsNum p) true (lastDialError p) (queue p) (stats p) (conns p) (idleConns p) (poolSize p) (idleConnsLen p).

Definition inc32 (z : Z) : Z := (z + 1) mod 2 ^ 32.

(** ** Goroutines *)

(** Where a goroutine is. [Idle] is outside of the package, [Done] has ended.
    - [Get] and [NewConn]: before the test of [closed]; in [waitTurn], before and in
      the last [select]; before the mutex and [popIdle]; before [isStaleConn]; in
      [CloseConn], before the mutex and before [closeConn]; in [dialConn], before the
      tests and in the dialler; in [newConn] before the mutex; before [freeTurn]
      with an error.
    - [Put] and [Remove]: before the mutex; before [freeTurn]; before [closeConn].
    - [CloseConn] of the client; [Close] before the mutex.
    - [addIdleConn]: before the tests of [dialConn]; in the dialler; before the mutex,
      with a connection or an error. [tryDial]: before the test, in the dialler.
    - The reaper: between ticks; before [getTurn]; before the mutex; before
      [freeTurn]; before [closeConn]. It counts what it reaped. *)
Inductive pc :=
| Idle
| Done
| PGet
| PTurn
| PWait
| PPop
| PStale (cn : nat)
| PClose1 (again : bool) (cn : nat)
| PClose2 (again : bool) (cn : nat)
| PDial (turn : bool)
| PDialing (turn : bool)
| PNew (turn : bool) (cn : nat)
| PFail
| PPut (cn : nat)
| PPutFree
| PRemove (cn : nat)
| PRemFree (cn : nat)
| PRemClose (cn : nat)
| PCloseAll
| PAdd
| PAddDialing
| PAddLock (cn : nat)
| PAddFail
| PTry
| PTryDialing
| PReap
| PReapTurn (n : Z)
| PReapLock (n : Z)
| PReapFree (cn : option nat) (n : Z)
| PReapClose (cn : nat) (n : Z).

(** The connections a goroutine of the client has, with whether they came from [Get],
    and what the last call returned. *)
Inductive outcome := RNone | RConn (cn : nat) | RErrClosed | RPoolTimeout | RCancelled | RDialError (e : option Z).
Record thread := Th { t_pc : pc; held : list (nat * bool); ret : outcome }.

Record world := W { pool : ConnPool; now : Z; threads : list thread }.

(** ** The methods under the mutex *)

Section Pool.
Context (opt : Options).

(** [checkMinIdleConns]: the pool, and how many goroutines it starts. *)
Fixpoint min_idle_loop (fuel : nat) (p : ConnPool) : ConnPool * nat :=
  match fuel with
  | O => (p, 0%nat)
  | S fuel' =>
      if (poolSize p <? PoolSize opt) && (idleConnsLen p <? MinIdleConns opt) then
        let '(p', k) := min_idle_loop fuel' (set_sizes (poolSize p + 1) (idleConnsLen p + 1) p) in (p', S k)
      else (p, 0%nat)
  end.
Definition checkMinIdleConns (p : ConnPool) : ConnPool * nat :=
  if MinIdleConns opt =? 0 then (p, 0%nat) else min_idle_loop (Z.to_nat (PoolSize opt - poolSize p)) p.

Definition popIdle (p : ConnPool) : ConnPool * option nat * nat :=
  match last (idleConns p) with
  | None => (p, None, 0%nat)
  | Some cn =>
      let p := set_lists (conns p) (take (length (idleConns p) - 1) (idleConns p)) p in
      let '(p, k) := checkMinIdleConns (set_sizes (poolSize p) (idleConnsLen p - 1) p) in (p, Some cn, k)
  end.

Definition is_pooled (p : ConnPool) (cn : nat) : bool := from_option pooled false (heap p !! cn).

(** The list without the first [cn] of it. *)
Fixpoint remove_first (cn : nat) (l : list nat) : list nat :=
  match l with [] => [] | c :: l' => if (c =? cn)%nat then l' else c :: remove_first cn l' end.
Definition removeConn (cn : nat) (p : ConnPool) : ConnPool * nat :=
  if bool_decide (cn ∈ conns p) then
    let p := set_lists (remove_first cn (conns p)) (idleConns p) p in
    if is_pooled p cn then checkMinIdleConns (set_sizes (poolSize p - 1) (idleConnsLen p) p) else (p, 0%nat)
  else (p, 0%nat).

Definition close_sock (c : Conn) : Conn := Cn (createdAt c) (usedAt c) (pooled c) true.
Definition closeConn (cn : nat) (p : ConnPool) : ConnPool := set_heap (alter close_sock cn) p.
Definition closeAll (p : ConnPool) : ConnPool := foldr closeConn p (conns p).

Definition isStaleConn (now : Z) (c : Conn) : bool :=
  if (IdleTimeout opt =? 0) && (MaxConnAge opt =? 0) then false
  else ((0 <? IdleTimeout opt) && (IdleTimeout opt <=? now - usedAt c * 10 ^ 9)) ||
       ((0 <? MaxConnAge opt) && (MaxConnAge opt <=? now - createdAt c)).
Definition stale (w : world) (cn : nat) : bool := from_option (isStaleConn (now w)) false (heap (pool w) !! cn).

Definition reapStaleConn (now : Z) (p : ConnPool) : ConnPool * option nat * nat :=
  match idleConns p with
  | [] => (p, None, 0%nat)
  | cn :: idle =>
      if from_option (isStaleConn now) false (heap p !! cn) then
        let '(p, k) := removeConn cn (set_sizes (poolSize p) (idleConnsLen p - 1) (set_lists (conns p) idle p)) in (p, Some cn, k)
      else (p, None, 0%nat)
  end.

(** [newConn] after dialling. *)
Definition add_conn (turn : bool) (cn : nat) (p : ConnPool) : ConnPool :=
  let p := set_lists (conns p ++ [cn]) (idleConns p) p in
  if turn then
    if PoolSize opt <=? poolSize p
    then set_heap (alter (fun c => Cn (createdAt c) (usedAt c) false (sock_closed c)) cn) p
    else set_sizes (poolSize p + 1) (idleConnsLen p) p
  else p.

(** [NewConn] of [conn.go]: a new connection, as the pool dials it. *)
Definition dialled (now : Z) (pooled : bool) : Conn := Cn now (now / 10 ^ 9 mod 2 ^ 32) pooled false.

(** ** Steps *)

Inductive call := CGet | CNewConn | CPut (cn : nat) | CRemove (cn : nat) | CCloseConn (cn : nat) | CClose | CFilter (cns : list nat) | CUse (cn : nat).
Inductive action :=
| ACall (c : call)
| AStep
| ACancel                  (* the context ends *)
| ATimeout                 (* the timer of [waitTurn] *)
| ADial                    (* the dialler succeeds *)
| ADialFail (e : Z)
| ATick.                   (* the ticker of the reaper *)

Definition goto (w : world) (t : nat) (th : thread) (p : pc) : world :=
  W (pool w) (now w) (<[t := Th p (held th) (ret th)]> (threads w)).
(** Return to the client. *)
Definition return_ (w : world) (t : nat) (th : thread) (o : outcome) : world :=
  W (pool w) (now w) (<[t := Th Idle (held th) o]> (threads w)).
Definition give (w : world) (t : nat) (th : thread) (cn : nat) (turn : bool) : world :=
  W (pool w) (now w) (<[t := Th Idle (held th ++ [(cn, turn)]) (RConn cn)]> (threads w)).
Definition with_pool (p : ConnPool) (w : world) : world := W p (now w) (threads w).
Definition spawn (k : nat) (p : pc) (w : world) : world := W (pool w) (now w) (threads w ++ replicate k (Th p [] RNone)).

(** [dialConn] up to the dialler: the error, if there is one. *)
Definition dial_check (p : ConnPool) : option outcome :=
  if closed p then Some RErrClosed
  else if PoolSize opt mod 2 ^ 32 <=? dialErrorsNum p then Some (RDialError (lastDialError p))
  else None.
(** A failed dial: the pool, and whether [tryDial] is started. *)
Definition dial_failed (e : Z) (p : ConnPool) : ConnPool * nat :=
  let n := inc32 (dialErrorsNum p) in
  (set_dial n (Some e) p, if n =? PoolSize opt mod 2 ^ 32 then 1%nat else 0%nat).

Definition fail_dial (w : world) (t : nat) (th : thread) (turn : bool) (o : outcome) : world :=
  if turn then W (pool w) (now w) (<[t := Th PFail (held th) o]> (threads w)) else return_ w t th o.

(** Take the connection away from the client. *)
Fixpoint take_held (cn : nat) (l : list (nat * bool)) : option (bool * list (nat * bool)) :=
  match l with
  | [] => None
  | (c, turn) :: l' => if (c =? cn)%nat then Some (turn, l')
                       else '(b, r) ← take_held cn l'; Some (b, (c, turn) :: r)
  end.

Definition do_call (w : world) (t : nat) (th : thread) (c : call) : option world :=
  let leave p h := Some (W (pool w) (now w) (<[t := Th p h RNone]> (threads w))) in
  match c with
  | CGet => leave PGet (held th)
  | CNewConn => leave (PDial false) (held th)
  | CPut cn => '(turn, h) ← take_held cn (held th);
               if (turn : bool) then leave (if is_pooled (pool w) cn then PPut cn else PRemove cn) h else None
  | CRemove cn => '(turn, h) ← take_held cn (held th); if (turn : bool) then leave (PRemove cn) h else None
  | CCloseConn cn => '(turn, h) ← take_held cn (held th); if (turn : bool) then None else leave (PClose1 false cn) h
  | CClose => if closed (pool w) then Some (return_ w t th RErrClosed)
              else Some (with_pool (set_closed (pool w)) (goto w t th PCloseAll))
  | CFilter cns => Some (with_pool (foldr closeConn (pool w) (filter (fun cn => cn ∈ cns) (conns (pool w)))) w)
  | CUse cn => if bool_decide (cn ∈ (held th).*1)
               then Some (with_pool (set_heap (alter (fun c => Cn (createdAt c) (now w / 10 ^ 9 mod 2 ^ 32) (pooled c) (sock_closed c)) cn) (pool w)) w)
               else None
  end.

(** [freeTurn]: a receive from the channel, which blocks when it is empty. *)
Definition free_turn (w : world) (k : world -> world) : option world :=
  match queue (pool w) with O => None | S n => Some (k (with_pool (set_queue n (pool w)) w)) end.
(** A send to the channel, which blocks when it is full. *)
Definition take_turn (w : world) (k : world -> world) : option world :=
  if Z.of_nat (queue (pool w)) <? PoolSize opt then Some (k (with_pool (set_queue (S (queue (pool w))) (pool w)) w)) else None.

Definition count (f : Stats -> Stats) (w : world) : world := with_pool (set_stats f (pool w)) w.
Definition hit (s : Stats) : Stats := St (inc32 (Hits s)) (Misses s) (Timeouts s) (StaleConns s).
Definition miss (s : Stats) : Stats := St (Hits s) (inc32 (Misses s)) (Timeouts s) (StaleConns s).
Definition timed_out (s : Stats) : Stats := St (Hits s) (Misses s) (inc32 (Timeouts s)) (StaleConns s).
Definition reaped (n : Z) (s : Stats) : Stats := St (Hits s) (Misses s) (Timeouts s) ((StaleConns s + n) mod 2 ^ 32).

Definition do_step (w : world) (t : nat) (th : thread) : option world :=
  let p := pool w in
  match t_pc th with
  | PGet => Some (if closed p then return_ w t th RErrClosed else goto w t th PTurn)
  | PTurn => match take_turn w (fun w => goto w t th PPop) with Some w' => Some w' | None => Some (goto w t th PWait) end
  | PWait => take_turn w (fun w => goto w t th PPop)
  | PPop =>
      let '(p', cn, k) := popIdle p in
      Some (spawn k PAdd (match cn with
                          | Some cn => goto (with_pool p' w) t th (PStale cn)
                          | None => goto (count miss (with_pool p' w)) t th (PDial true)
                          end))
  | PStale cn => Some (if stale w cn then goto w t th (PClose1 true cn) else give (count hit w) t th cn true)
  | PClose1 again cn => let '(p', k) := removeConn cn p in Some (spawn k PAdd (goto (with_pool p' w) t th (PClose2 again cn)))
  | PClose2 again cn => Some (goto (with_pool (closeConn cn p) w) t th (if again then PPop else Idle))
  | PDial turn => Some (match dial_check p with Some o => fail_dial w t th turn o | None => goto w t th (PDialing turn) end)
  | PNew turn cn => Some (give (with_pool (add_conn turn cn p) w) t th cn turn)
  | PFail => free_turn w (fun w => goto w t th Idle)
  | PPut cn => Some (goto (with_pool (set_sizes (poolSize p) (idleConnsLen p + 1) (set_lists (conns p) (idleConns p ++ [cn]) p)) w) t th PPutFree)
  | PPutFree => free_turn w (fun w => goto w t th Idle)
  | PRemove cn => let '(p', k) := removeConn cn p in Some (spawn k PAdd (goto (with_pool p' w) t th (PRemFree cn)))
  | PRemFree cn => free_turn w (fun w => goto w t th (PRemClose cn))
  | PRemClose cn => Some (goto (with_pool (closeConn cn p) w) t th Idle)
  | PCloseAll => Some (goto (with_pool (set_sizes 0 0 (set_lists [] [] (closeAll p))) w) t th Idle)
  | PAdd => Some (goto w t th (match dial_check p with Some _ => PAddFail | None => PAddDialing end))
  | PAddLock cn => Some (goto (with_pool (set_lists (conns p ++ [cn]) (idleConns p ++ [cn]) p) w) t th Done)
  | PAddFail => Some (goto (with_pool (set_sizes (poolSize p - 1) (idleConnsLen p - 1) p) w) t th Done)
  | PTry => Some (goto w t th (if closed p then Done else PTryDialing))
  | PReapTurn n => take_turn w (fun w => goto w t th (PReapLock n))
  | PReapLock n => let '(p', cn, k) := reapStaleConn (now w) p in Some (spawn k PAdd (goto (with_pool p' w) t th (PReapFree cn n)))
  | PReapFree cn n =>
      free_turn w (fun w => match cn with
                            | Some cn => goto w t th (PReapClose cn n)
                            | None => goto (count (reaped n) w) t th PReap
                            end)
  | PReapClose cn n => Some (goto (with_pool (closeConn cn p) w) t th (PReapTurn (n + 1)))
  | _ => None
  end.

(** The new connection is [length (heap p)]. *)
Definition do_dial (w : world) (t : nat) (th : thread) : option world :=
  let cn := length (heap (pool w)) in
  let made pooled := with_pool (set_heap (fun h => h ++ [dialled (now w) pooled]) (pool w)) w in
  match t_pc th with
  | PDialing turn => Some (goto (made turn) t th (PNew turn cn))
  | PAddDialing => Some (goto (made true) t th (PAddLock cn))
  | PTryDialing => Some (goto (with_pool (set_dial 0 (lastDialError (pool w)) (pool w)) w) t th Done)
  | _ => None
  end.

Definition do_dial_fail (w : world) (t : nat) (th : thread) (e : Z) : option world :=
  let '(p, k) := dial_failed e (pool w) in
  match t_pc th with
  | PDialing turn => Some (spawn k PTry (fail_dial (with_pool p w) t th turn (RDialError (Some e))))
  | PAddDialing => Some (spawn k PTry (goto (with_pool p w) t th PAddFail))
  | PTryDialing => Some (goto (with_pool (set_dial (dialErrorsNum (pool w)) (Some e) (pool w)) w) t th PTry)
  | _ => None
  end.

Definition step (w : world) (t : nat) (a : action) : option world :=
  th ← threads w !! t;
  match a with
  | ACall c => match t_pc th with Idle => do_call w t th c | _ => None end
  | AStep => do_step w t th
  | ACancel => match t_pc th with PTurn | PWait => Some (return_ w t th RCancelled) | _ => None end
  | ATimeout => match t_pc th with PWait => Some (return_ (count timed_out w) t th RPoolTimeout) | _ => None end
  | ADial => do_dial w t th
  | ADialFail e => do_dial_fail w t th e
  | ATick => match t_pc th with PReap => Some (goto w t th (if closed (pool w) then Done else PReapTurn 0)) | _ => None end
  end.

(** The clock goes on between steps. *)
Definition advance (d : Z) (w : world) : world := W (pool w) (now w + d) (threads w).

Definition NewConnPool (clients : nat) (time : Z) : world :=
  let p := CP [] 0 false None 0 (St 0 0 0 0) [] [] 0 0 in
  let '(p, k) := checkMinIdleConns p in
  let reaper := if (0 <? IdleTimeout opt) && (0 <? IdleCheckFrequency opt) then [Th PReap [] RNone] else [] in
  W p time (replicate clients (Th Idle [] RNone) ++ replicate k (Th PAdd [] RNone) ++ reaper).

Inductive reach (w0 : world) : world -> Prop :=
| reach_refl : reach w0 w0
| reach_step w t a w' : reach w0 w -> step w t a = Some w' -> reach w0 w'
| reach_time w d : reach w0 w -> 0 <= d -> reach w0 (advance d w).

Fixpoint run (w : world) (tr : list (nat * action)) : option world :=
  match tr with [] => Some w | (t, a) :: tr' => w' ← step w t a; run w' tr' end.

(** ** The accounts of the pool *)

(** Sums over goroutines, and how often a connection is in a list. *)
Abbreviation total := sum_list_with.
Fixpoint occ (cn : nat) (l : list nat) : nat := match l with [] => 0 | c :: l' => (if (c =? cn)%nat then 1 else 0) + occ cn l' end.

(** The turns a goroutine has taken from the channel. *)
Definition turn_pc (p : pc) : nat :=
  match p with
  | PPop | PStale _ | PClose1 true _ | PClose2 true _ | PDial true | PDialing true | PNew true _ | PFail
  | PPut _ | PPutFree | PRemove _ | PRemFree _ | PReapLock _ | PReapFree _ _ => 1
  | _ => 0
  end.
Definition turns (th : thread) : nat := turn_pc (t_pc th) + total (fun x => if x.2 : bool then 1 else 0)%nat (held th).

(** The connections that nobody else may have, and those of them that the pool has
    in its list. *)
Definition pc_owned (p : pc) : list nat :=
  match p with
  | PStale cn | PClose1 _ cn | PClose2 _ cn | PNew _ cn | PPut cn | PRemove cn | PRemFree cn | PRemClose cn
  | PAddLock cn | PReapFree (Some cn) _ | PReapClose cn _ => [cn]
  | _ => []
  end.
Definition pc_listed (p : pc) : list nat :=
  match p with PStale cn | PClose1 _ cn | PPut cn | PRemove cn => [cn] | _ => [] end.
Definition owned (th : thread) : list nat := pc_owned (t_pc th) ++ (held th).*1.
Definition listed (th : thread) : list nat := pc_listed (t_pc th) ++ (held th).*1.

(** The idle connections that are on their way. *)
Definition adding (th : thread) : nat :=
  match t_pc th with PAdd | PAddDialing | PAddLock _ | PAddFail => 1 | _ => 0 end.

Definition pooled_in (p : ConnPool) (l : list nat) : nat := total (fun cn => if is_pooled p cn then 1 else 0)%nat l.

(** Every connection has one owner, turns are counted, and there are at most
    [PoolSize] of them. *)
Record exclusive (w : world) : Prop := {
  e_queue : queue (pool w) = total turns (threads w);
  e_bound : Z.of_nat (queue (pool w)) <= PoolSize opt;
  e_owner : forall cn, (occ cn (idleConns (pool w)) + total (fun th => occ cn (owned th)) (threads w) <=
    if (cn <? length (heap (pool w)))%nat then 1 else 0)%nat
}.

Definition made_ok (p : ConnPool) (q : pc) : Prop :=
  match q with PNew turn cn => is_pooled p cn = turn | PAddLock cn => is_pooled p cn = true | PCloseAll => False | _ => True end.

(** Until the pool is closed, its list holds the idle connections and those in use,
    and its counters count the pooled and the idle ones, with those on their way. *)
Record accounts (w : world) : Prop := {
  a_listed : forall cn, occ cn (conns (pool w)) =
    (occ cn (idleConns (pool w)) + total (fun th => occ cn (listed th)) (threads w))%nat;
  a_size : poolSize (pool w) = Z.of_nat (pooled_in (pool w) (conns (pool w)) + total adding (threads w));
  a_idle : idleConnsLen (pool w) = Z.of_nat (length (idleConns (pool w)) + total adding (threads w));
  a_bound : poolSize (pool w) <= PoolSize opt;
  a_made : Forall (fun th => made_ok (pool w) (t_pc th)) (threads w)
}.

(** *** Lemmas on occurrences *)

Lemma occ_app cn l1 l2 : occ cn (l1 ++ l2) = (occ cn l1 + occ cn l2)%nat.
Proof. induction l1 as [|c l1 IH]; simpl; [done|]. rewrite IH. lia. Qed.
Lemma occ_pos cn l : (0 < occ cn l)%nat <-> cn ∈ l.
Proof.
  induction l as [|c l IH]; simpl; [split; [lia|by rewrite elem_of_nil]|]. rewrite elem_of_cons.
  destruct (Nat.eqb_spec c cn) as [->|Hne]; [split; [by left|lia]|]. rewrite <- IH. split; [|intros [?|?]; [congruence|lia]]. right. lia.
Qed.
Lemma occ_remove cn c l : c ∈ l -> (occ cn (remove_first c l) + (if (c =? cn)%nat then 1 else 0) = occ cn l)%nat.
Proof.
  induction l as [|x l IH]; intros Hc; [by apply elem_of_nil in Hc|]. simpl. destruct (Nat.eqb_spec x c) as [->|Hne]; [lia|].
  apply elem_of_cons in Hc as [?|Hc]; [congruence|]. specialize (IH Hc). simpl. lia.
Qed.
Lemma total_remove (f : nat -> nat) c l : c ∈ l -> (total f (remove_first c l) + f c = total f l)%nat.
Proof.
  induction l as [|x l IH]; intros Hc; [by apply elem_of_nil in Hc|]. simpl. destruct (Nat.eqb_spec x c) as [->|Hne]; [lia|].
  apply elem_of_cons in Hc as [?|Hc]; [congruence|]. specialize (IH Hc). simpl. lia.
Qed.
Lemma listed_owned cn th : (occ cn (listed th) <= occ cn (owned th))%nat.
Proof. unfold listed, owned. rewrite !occ_app. destruct (t_pc th); simpl; lia. Qed.

(** *** What the methods do to the counters *)

Lemma min_idle_eq fuel p : exists k, min_idle_loop fuel p =
    (set_sizes (poolSize p + Z.of_nat k) (idleConnsLen p + Z.of_nat k) p, k) /\
  (poolSize p <= PoolSize opt -> poolSize p + Z.of_nat k <= PoolSize opt).
Proof.
  revert p. induction fuel as [|fuel IH]; intros p; cbn [min_idle_loop].
  { exists 0%nat. rewrite !Z.add_0_r. by destruct p. }
  destruct (_ && _) eqn:E.
  - destruct (IH (set_sizes (poolSize p + 1) (idleConnsLen p + 1) p)) as (k & -> & Hk). exists (S k).
    split; [|cbn in *; lia]. unfold set_sizes. cbn. do 2 f_equal; lia.
  - exists 0%nat. rewrite !Z.add_0_r. by destruct p.
Qed.
Lemma checkMinIdleConns_eq p : exists k, checkMinIdleConns p =
    (set_sizes (poolSize p + Z.of_nat k) (idleConnsLen p + Z.of_nat k) p, k) /\
  (poolSize p <= PoolSize opt -> poolSize p + Z.of_nat k <= PoolSize opt).
Proof.
  unfold checkMinIdleConns. destruct (_ =? 0); [|apply min_idle_eq]. exists 0%nat. rewrite !Z.add_0_r. by destruct p.
Qed.
Lemma removeConn_eq cn p : cn ∈ conns p -> exists k,
  removeConn cn p = (set_sizes (poolSize p - (if is_pooled p cn then 1 else 0) + Z.of_nat k) (idleConnsLen p + Z.of_nat k)
                       (set_lists (remove_first cn (conns p)) (idleConns p) p), k) /\
  (poolSize p <= PoolSize opt -> poolSize p - (if is_pooled p cn then 1 else 0) + Z.of_nat k <= PoolSize opt).
Proof.
  intros Hcn. unfold removeConn. rewrite bool_decide_true by done.
  change (is_pooled (set_lists _ _ p) cn) with (is_pooled p cn). destruct (is_pooled p cn).
  - match goal with |- context [checkMinIdleConns ?q] => destruct (checkMinIdleConns_eq q) as (k & -> & Hk) end.
    exists k. split; [done|]. cbn in *. intros ?. apply Hk. lia.
  - exists 0%nat. split; [|lia]. rewrite !Z.add_0_r, Z.sub_0_r. by destruct p.
Qed.

(** *** One goroutine moves *)

Definition inv (w : world) : Prop := exclusive w /\ (closed (pool w) = false -> accounts w).

(** A step of the goroutine [t]: it changes, the pool changes, and [k] goroutines
    start. *)
Definition moved (w : world) (t : nat) (th' : thread) (p' : ConnPool) (k : nat) (q : pc) : world :=
  W p' (now w) (<[t := th']> (threads w) ++ replicate k (Th q [] RNone)).

Definition starts (q : pc) : nat := match q with PAdd => 1 | _ => 0 end.

Section Moved.
Context (w : world) (t : nat) (th th' : thread) (p' : ConnPool) (k : nat) (q : pc).
Hypothesis (Hw : inv w) (Ht : threads w !! t = Some th) (Hq : q = PAdd \/ q = PTry).

Lemma exclusive_moved :
  (queue p' + turns th = queue (pool w) + turns th')%nat -> Z.of_nat (queue p') <= PoolSize opt ->
  (length (heap (pool w)) <= length (heap p'))%nat ->
  (forall cn, occ cn (idleConns p') + occ cn (owned th') <= occ cn (idleConns (pool w)) + occ cn (owned th) +
     (if (length (heap (pool w)) <=? cn) && (cn <? length (heap p')) then 1 else 0))%nat ->
  exclusive (moved w t th' p' k q).
Proof.
  destruct Hw as [[Eq Eb Eo] _]. intros Hqueue Hb Hh Ho. split; [| |intros cn]; cbn [moved pool threads].
  - rewrite sum_list_with_app, total_replicate. pose proof (total_insert turns _ _ _ th' Ht).
    assert (turns (Th q [] RNone) = 0%nat) as -> by (by destruct Hq as [->| ->]). lia.
  - done.
  - rewrite sum_list_with_app, total_replicate.
    pose proof (total_insert (fun th => occ cn (owned th)) _ _ _ th' Ht) as E. cbv beta in E.
    assert (occ cn (owned (Th q [] RNone)) = 0%nat) as -> by (by destruct Hq as [->| ->]).
    specialize (Eo cn). specialize (Ho cn). destruct (Nat.ltb_spec cn (length (heap (pool w)))).
    + rewrite (proj2 (Nat.ltb_lt cn (length (heap p')))) by lia. rewrite (proj2 (Nat.leb_gt _ cn)) in Ho by lia. simpl in Ho. lia.
    + rewrite (proj2 (Nat.leb_le _ cn)) in Ho by lia. simpl in Ho. destruct (cn <? length (heap p'))%nat; lia.
Qed.

Lemma accounts_moved : accounts w ->
  (forall cn, occ cn (conns p') + occ cn (idleConns (pool w)) + occ cn (listed th) =
     occ cn (conns (pool w)) + occ cn (idleConns p') + occ cn (listed th'))%nat ->
  poolSize p' + Z.of_nat (pooled_in (pool w) (conns (pool w)) + adding th) =
    poolSize (pool w) + Z.of_nat (pooled_in p' (conns p') + adding th' + k * starts q) ->
  idleConnsLen p' + Z.of_nat (length (idleConns (pool w)) + adding th) =
    idleConnsLen (pool w) + Z.of_nat (length (idleConns p') + adding th' + k * starts q) ->
  poolSize p' <= PoolSize opt -> made_ok p' (t_pc th') ->
  (forall i u cn, i <> t -> threads w !! i = Some u -> cn ∈ pc_owned (t_pc u) -> is_pooled p' cn = is_pooled (pool w) cn) ->
  accounts (moved w t th' p' k q).
Proof.
  intros [Al As Ai Ab Am] Hl Hs Hi Hb Hm Hf.
  assert (Hadd : adding (Th q [] RNone) = starts q) by (by destruct Hq as [->| ->]).
  pose proof (total_insert adding _ _ _ th' Ht) as Ea.
  split; cbn [moved pool threads].
  - intros cn. rewrite sum_list_with_app, total_replicate. specialize (Al cn). specialize (Hl cn).
    pose proof (total_insert (fun th => occ cn (listed th)) _ _ _ th' Ht) as E. cbv beta in E.
    assert (occ cn (listed (Th q [] RNone)) = 0%nat) as -> by (by destruct Hq as [->| ->]). lia.
  - rewrite sum_list_with_app, total_replicate, Hadd. lia.
  - rewrite sum_list_with_app, total_replicate, Hadd. lia.
  - done.
  - apply Forall_app. split; [|apply Forall_replicate; by destruct Hq as [->| ->]].
    apply Forall_lookup. intros i u Hu. apply list_lookup_insert_Some in Hu as [(<- & <- & _)|[Hne Hu]]; [done|].
    rewrite Forall_lookup in Am. specialize (Am i u Hu). specialize (Hf i u). destruct (t_pc u); try done; simpl in *; rewrite Hf; set_solver.
Qed.

(** The heap keeps its marks: the usual case. *)
Lemma inv_moved :
  (queue p' + turns th = queue (pool w) + turns th')%nat -> Z.of_nat (queue p') <= PoolSize opt ->
  length (heap p') = length (heap (pool w)) -> (forall cn, is_pooled p' cn = is_pooled (pool w) cn) ->
  (forall cn, occ cn (idleConns p') + occ cn (owned th') <= occ cn (idleConns (pool w)) + occ cn (owned th))%nat ->
  (closed p' = false -> closed (pool w) = false) ->
  (closed p' = false -> accounts w ->
    (forall cn, occ cn (conns p') + occ cn (idleConns (pool w)) + occ cn (listed th) =
       occ cn (conns (pool w)) + occ cn (idleConns p') + occ cn (listed th'))%nat /\
    poolSize p' + Z.of_nat (pooled_in (pool w) (conns (pool w)) + adding th) =
      poolSize (pool w) + Z.of_nat (pooled_in (pool w) (conns p') + adding th' + k * starts q) /\
    idleConnsLen p' + Z.of_nat (length (idleConns (pool w)) + adding th) =
      idleConnsLen (pool w) + Z.of_nat (length (idleConns p') + adding th' + k * starts q) /\
    poolSize p' <= PoolSize opt /\ made_ok p' (t_pc th')) ->
  inv (moved w t th' p' k q).
Proof.
  intros Hqueue Hb Hh Hp Ho Hc Ha. split.
  - apply exclusive_moved; [done|done|lia|]. intros cn. specialize (Ho cn). lia.
  - intros Hcl. cbn [moved pool] in Hcl. pose proof (proj2 Hw (Hc Hcl)) as Hacc. destruct (Ha Hcl Hacc) as (H1 & H2 & H3 & H4 & H5).
    apply accounts_moved; try done.
    assert (pooled_in p' (conns p') = pooled_in (pool w) (conns p')) as ->; [|done].
    apply total_ext, Forall_true. intros cn. by rewrite Hp.
Qed.

End Moved.

(** *** The steps *)

Lemma moved_0 w t th' p' : W p' (now w) (<[t := th']> (threads w)) = moved w t th' p' 0 PAdd.
Proof. unfold moved. by rewrite app_nil_r. Qed.

Lemma is_pooled_alter f cn p c : (forall x, pooled (f x) = pooled x) -> is_pooled (set_heap (alter f cn) p) c = is_pooled p c.
Proof.
  intros Hf. unfold is_pooled. cbn [heap set_heap]. destruct (decide (cn = c)) as [->|Hne].
  - rewrite list_lookup_alter_eq. destruct (heap p !! c); simpl; [apply Hf|done].
  - by rewrite list_lookup_alter_ne.
Qed.

Lemma is_pooled_close cn p c : is_pooled (closeConn cn p) c = is_pooled p c.
Proof. by apply is_pooled_alter. Qed.

Ltac counting :=
  cbn [queue heap conns idleConns poolSize idleConnsLen closed pool set_heap set_dial set_queue set_stats set_lists set_sizes
       set_closed with_pool count closeConn] in *;
  unfold turns, owned, listed, adding, starts in *;
  cbn [t_pc held turn_pc pc_owned pc_listed app fmap list_fmap made_ok] in *;
  rewrite ?occ_app, ?length_app, ?length_alter, ?sum_list_with_app in *; cbn [occ length sum_list_with fst snd] in *.

(** A move with its accounts settled by counting. *)
Ltac settle Hw Ht :=
  first [rewrite moved_0 | idtac];
  eapply (inv_moved _ _ _ _ _ _ _ Hw Ht);
  [by auto | | | | intros ? | intros ? | intros ? | intros ? [Al As Ai Ab Am]; split_and!; [intros c0; specialize (Al c0) | | | |] ];
  counting; try first [done | lia | apply is_pooled_close].

Lemma idle_lt w cn : inv w -> cn ∈ idleConns (pool w) -> (cn < length (heap (pool w)))%nat.
Proof.
  intros [[_ _ Eo] _] Hcn%occ_pos. specialize (Eo cn). destruct (Nat.ltb_spec cn (length (heap (pool w)))); lia.
Qed.

Lemma thread_turn w t th : inv w -> threads w !! t = Some th -> (turns th <= queue (pool w))%nat.
Proof. intros [[Eq _ _] _] Ht. rewrite Eq. by eapply total_ge. Qed.

Lemma free_turn_inv w t th w' f : inv w -> threads w !! t = Some th ->
  free_turn w f = Some w' ->
  (forall n, queue (pool w) = S n -> inv (f (with_pool (set_queue n (pool w)) w))) -> inv w'.
Proof. unfold free_turn. intros Hw Ht E Hf. destruct (queue (pool w)) as [|n] eqn:En; [done|]. injection E as <-. by apply Hf. Qed.
Lemma take_turn_inv w w' f : take_turn w f = Some w' ->
  (Z.of_nat (queue (pool w)) < PoolSize opt -> inv (f (with_pool (set_queue (S (queue (pool w))) (pool w)) w))) -> inv w'.
Proof. unfold take_turn. destruct (Z.ltb_spec (Z.of_nat (queue (pool w))) (PoolSize opt)); [|done]. intros [= <-] Hf. auto. Qed.

Lemma popIdle_eq p p' o k : popIdle p = (p', o, k) ->
  match o with
  | None => p' = p /\ k = 0%nat
  | Some cn => exists l, idleConns p = l ++ [cn] /\
      p' = set_sizes (poolSize p + Z.of_nat k) (idleConnsLen p - 1 + Z.of_nat k) (set_lists (conns p) l p) /\
      (poolSize p <= PoolSize opt -> poolSize p + Z.of_nat k <= PoolSize opt)
  end.
Proof.
  unfold popIdle. destruct (last (idleConns p)) as [cn|] eqn:El; [|by intros [= <- <- <-]].
  apply last_Some in El as [l El]. rewrite El, length_app, Nat.add_sub, take_app_length.
  match goal with |- context [checkMinIdleConns ?q] => destruct (checkMinIdleConns_eq q) as (k' & -> & Hk) end.
  intros [= <- <- <-]. exists l. by split_and!.
Qed.

Lemma listed_in w t th cn : accounts w -> threads w !! t = Some th -> cn ∈ listed th -> cn ∈ conns (pool w).
Proof.
  intros [Al _ _ _ _] Ht Hc%occ_pos. apply occ_pos. rewrite Al.
  pose proof (total_ge (fun th => occ cn (listed th)) _ _ _ Ht). cbv beta in *. lia.
Qed.

(** A goroutine that has a listed connection takes it out of the list. *)
Lemma remove_inv w t th cn pc2 p' k : inv w -> threads w !! t = Some th -> removeConn cn (pool w) = (p', k) ->
  pc_owned (t_pc th) = [cn] -> pc_listed (t_pc th) = [cn] -> pc_owned pc2 = [cn] -> pc_listed pc2 = [] ->
  turn_pc pc2 = turn_pc (t_pc th) -> adding th = 0%nat -> adding (Th pc2 (held th) (ret th)) = 0%nat -> made_ok p' pc2 ->
  inv (moved w t (Th pc2 (held th) (ret th)) p' k PAdd).
Proof.
  intros Hw Ht E Ho Hl Ho2 Hl2 Htu Ha Ha2 Hm. pose proof (e_bound _ (proj1 Hw)) as Hbound.
  destruct (decide (cn ∈ conns (pool w))) as [Hin|Hout].
  - destruct (removeConn_eq cn (pool w) Hin) as (k' & Ek & Hk). rewrite Ek in E. injection E as <- <-.
    eapply (inv_moved _ _ _ _ _ _ _ Hw Ht); [by auto| | |done|done| |done|].
    + unfold turns. cbn. lia.
    + done.
    + intros c. unfold owned. cbn. rewrite Ho, Ho2. lia.
    + intros _ [Al As Ai Ab Am]. unfold starts. split_and!.
      * intros c. unfold listed. cbn [conns set_lists set_sizes idleConns t_pc held]. rewrite Hl, Hl2, !occ_app. cbn [occ].
        pose proof (occ_remove c cn (conns (pool w)) Hin). lia.
      * cbn [poolSize set_sizes conns set_lists]. rewrite Ha, Ha2. unfold pooled_in.
        pose proof (total_remove (fun c => if is_pooled (pool w) c then 1 else 0)%nat cn _ Hin) as Er. cbv beta in Er.
        destruct (is_pooled (pool w) cn); lia.
      * cbn [idleConnsLen set_sizes idleConns set_lists]. rewrite Ha, Ha2. lia.
      * cbn [poolSize set_sizes]. auto.
      * done.
  - unfold removeConn in E. rewrite bool_decide_false in E by done. injection E as <- <-.
    eapply (inv_moved _ _ _ _ _ _ _ Hw Ht); [by auto| | |done|done| |done|].
    + unfold turns. cbn. lia.
    + done.
    + intros c. unfold owned. cbn. rewrite Ho, Ho2. lia.
    + intros _ Hacc. exfalso. apply Hout. eapply listed_in; [done|done|]. unfold listed. rewrite Hl. set_solver.
Qed.

Lemma reap_inv w t h r0 n p' o k : inv w -> threads w !! t = Some (Th (PReapLock n) h r0) ->
  reapStaleConn (now w) (pool w) = (p', o, k) -> inv (moved w t (Th (PReapFree o n) h r0) p' k PAdd).
Proof.
  intros Hw Ht E. pose proof (e_bound _ (proj1 Hw)) as Hbound. unfold reapStaleConn in E.
  destruct (idleConns (pool w)) as [|cn l] eqn:Ei; [injection E as <- <- <-; settle Hw Ht|].
  destruct (from_option _ _ _); [|injection E as <- <- <-; settle Hw Ht].
  match type of E with context [removeConn cn ?q] => set (q0 := q) in E end.
  destruct (decide (cn ∈ conns q0)) as [Hin|Hout].
  - destruct (removeConn_eq cn q0 Hin) as (k' & Ek & Hk). rewrite Ek in E. injection E as <- <- <-. change (conns q0) with (conns (pool w)) in Hin.
    settle Hw Ht; unfold q0 in *; counting; rewrite ?Ei in *; counting; try lia.
    + pose proof (occ_remove c0 cn (conns (pool w)) Hin). lia.
    + unfold pooled_in in *. pose proof (total_remove (fun c => if is_pooled (pool w) c then 1 else 0)%nat cn _ Hin) as Er. cbv beta in Er.
      change (is_pooled (set_sizes _ _ _) cn) with (is_pooled (pool w) cn). destruct (is_pooled (pool w) cn); lia.
  - assert (Hno : closed (pool w) = false -> False).
    { intros Hcl. destruct (proj2 Hw Hcl) as [Al _ _ _ _]. apply Hout, occ_pos. change (conns q0) with (conns (pool w)).
      rewrite Al, Ei. simpl. rewrite Nat.eqb_refl. lia. }
    unfold removeConn in E. rewrite bool_decide_false in E by done. injection E as <- <- <-.
    settle Hw Ht; unfold q0 in *; counting; rewrite ?Ei in *; counting; try lia; exfalso; by apply Hno.
Qed.

(** Nobody else has a connection that was just made. *)
Lemma new_fresh w t th cn : inv w -> accounts w -> threads w !! t = Some th -> (occ cn (listed th) < occ cn (owned th))%nat ->
  occ cn (conns (pool w)) = 0%nat.
Proof.
  intros [[_ _ Eo] _] [Al _ _ _ _] Ht Hlt. specialize (Eo cn). rewrite Al.
  pose proof (total_gap (fun th => occ cn (listed th)) (fun th => occ cn (owned th)) _ _ _ (listed_owned cn) Ht) as Hg. cbv beta in Hg.
  destruct (cn <? _)%nat; lia.
Qed.
Lemma owned_once w t th i u cn : inv w -> threads w !! t = Some th -> threads w !! i = Some u -> i <> t -> cn ∈ owned th -> ~ cn ∈ owned u.
Proof.
  intros [[_ _ Eo] _] Ht Hu Hne H1%occ_pos H2%occ_pos. specialize (Eo cn).
  pose proof (total_insert (fun th => occ cn (owned th)) _ _ _ (Th Idle [] RNone) Ht) as E. cbv beta in E.
  assert (Hu' : <[t := Th Idle [] RNone]> (threads w) !! i = Some u) by (by rewrite list_lookup_insert_ne).
  pose proof (total_ge (fun th => occ cn (owned th)) _ _ _ Hu') as E2. cbv beta in E2.
  change (occ cn (owned (Th Idle [] RNone))) with 0%nat in E. destruct (cn <? _)%nat; lia.
Qed.

Lemma add_conn_inv w t turn cn h r0 : inv w -> threads w !! t = Some (Th (PNew turn cn) h r0) ->
  inv (moved w t (Th Idle (h ++ [(cn, turn)]) (RConn cn)) (add_conn turn cn (pool w)) 0 PAdd).
Proof.
  intros Hw Ht. pose proof (e_bound _ (proj1 Hw)) as Hbound.
  assert (Hmade : accounts w -> is_pooled (pool w) cn = turn).
  { intros [_ _ _ _ Am]. rewrite Forall_lookup in Am. apply (Am t _ Ht). }
  unfold add_conn. cbn [poolSize set_lists]. destruct turn; [destruct (Z.leb_spec (PoolSize opt) (poolSize (pool w))) as [Hfull|Hroom]|].
  - set (mark := fun c => _). set (p' := set_heap _ _).
    assert (Hlen : length (heap p') = length (heap (pool w))) by apply length_alter. split.
    + eapply (exclusive_moved _ _ _ _ _ _ _ Hw Ht); [by auto|unfold p'; counting; lia|done|lia|].
      intros c. unfold p'. counting. rewrite fmap_app, occ_app. simpl. lia.
    + intros Hcl. pose proof (proj2 Hw Hcl) as Hacc. pose proof (Hmade Hacc) as Hpool.
      assert (Hfresh : occ cn (conns (pool w)) = 0%nat).
      { eapply (new_fresh w t _ cn Hw Hacc Ht). unfold owned, listed. cbn. rewrite Nat.eqb_refl. lia. }
      assert (Hne : forall c, c <> cn -> is_pooled p' c = is_pooled (pool w) c).
      { intros c Hc. unfold is_pooled, p'. cbn [heap set_heap]. by rewrite list_lookup_alter_ne. }
      assert (Hself : is_pooled p' cn = false).
      { unfold is_pooled, p'. cbn [heap set_heap set_lists]. rewrite list_lookup_alter_eq. by destruct (heap (pool w) !! cn). }
      eapply (accounts_moved _ _ _ _ _ _ _ Hw Ht); [by auto|done| | | | |done|].
      * intros c. unfold p'. counting. rewrite fmap_app, !occ_app. simpl. lia.
      * change (conns p') with (conns (pool w) ++ [cn]). unfold pooled_in. rewrite sum_list_with_app. cbn [sum_list_with]. rewrite Hself.
        rewrite (total_ext (fun c => if is_pooled p' c then 1 else 0)%nat (fun c => if is_pooled (pool w) c then 1 else 0)%nat (conns (pool w))).
        { change (poolSize p') with (poolSize (pool w)). counting. lia. }
        apply Forall_forall. intros c Hc%occ_pos. rewrite Hne; [done|]. intros ->. lia.
      * counting. change (idleConnsLen p') with (idleConnsLen (pool w)). change (idleConns p') with (idleConns (pool w)). lia.
      * exact (a_bound _ Hacc).
      * intros i u c Hi Hu Hc. apply Hne. intros ->. eapply (owned_once w t _ i u cn Hw Ht Hu Hi); [|unfold owned; set_solver].
        unfold owned. cbn. set_solver.
  - settle Hw Ht; rewrite ?fmap_app in *; counting; try lia. unfold pooled_in in *. counting.
    rewrite Hmade by done. lia.
  - settle Hw Ht; rewrite ?fmap_app in *; counting; try lia. unfold pooled_in in *. counting.
    rewrite Hmade by done. lia.
Qed.

Lemma heap_closeAll p : length (heap (closeAll p)) = length (heap p) /\ queue (closeAll p) = queue p /\
  closed (closeAll p) = closed p /\ forall cn, is_pooled (closeAll p) cn = is_pooled p cn.
Proof.
  unfold closeAll. induction (conns p) as [|c l IH]; [done|]. cbn [foldr]. destruct IH as (H1 & H2 & H3 & H4).
  split_and!; [by rewrite <- H1; apply length_alter|done|done|]. intros cn. by rewrite is_pooled_close.
Qed.

Lemma do_step_inv w t th w' : inv w -> threads w !! t = Some th -> do_step w t th = Some w' -> inv w'.
Proof.
  intros Hw Ht Hs. pose proof (thread_turn w t th Hw Ht) as Htq. pose proof (e_bound _ (proj1 Hw)) as Hbound.
  destruct th as [pc h r0]. unfold do_step in Hs. destruct pc; cbn [t_pc] in Hs; try done.
  - destruct (closed (pool w)); injection Hs as <-; unfold return_, goto; settle Hw Ht.
  - destruct (take_turn _ _) as [w1|] eqn:E.
    + injection Hs as <-. apply (take_turn_inv _ _ _ E). intros Hlt. unfold goto. cbn [pool with_pool now threads]. settle Hw Ht.
    + injection Hs as <-. unfold goto. settle Hw Ht.
  - apply (take_turn_inv _ _ _ Hs). intros Hlt. unfold goto. cbn [pool with_pool now threads]. settle Hw Ht.
  - destruct (popIdle (pool w)) as [[p' o] k] eqn:E. injection Hs as <-. apply popIdle_eq in E. destruct o as [cn|].
    + destruct E as (l & El & -> & Hk). change (inv (moved w t (Th (PStale cn) h r0)
        (set_sizes (poolSize (pool w) + Z.of_nat k) (idleConnsLen (pool w) - 1 + Z.of_nat k) (set_lists (conns (pool w)) l (pool w))) k PAdd)).
      settle Hw Ht; rewrite El in *; counting; try lia.
    + destruct E as [-> ->]. unfold spawn, goto, count. cbn [replicate with_pool pool now threads]. rewrite app_nil_r. settle Hw Ht.
  - destruct (stale w cn); injection Hs as <-; unfold goto, give, count; cbn [with_pool pool now threads]; settle Hw Ht; rewrite ?fmap_app in *; counting; try lia.
  - destruct (removeConn cn (pool w)) as [p' k] eqn:E. injection Hs as <-.
    by apply (remove_inv w t (Th (PClose1 again cn) h r0) cn (PClose2 again cn) p' k Hw Ht E).
  - injection Hs as <-. unfold goto. cbn [with_pool pool now threads]. destruct again; settle Hw Ht.
  - injection Hs as <-. unfold dial_check, fail_dial, return_, goto. destruct (closed (pool w)); [|destruct (_ <=? _)]; destruct turn; settle Hw Ht.
  - injection Hs as <-. unfold give. cbn [with_pool pool now threads]. rewrite moved_0. by apply add_conn_inv with (r0 := r0).
  - eapply free_turn_inv; [done|done|exact Hs|]. intros n En. unfold goto. cbn [with_pool pool now threads]. settle Hw Ht.
  - injection Hs as <-. unfold goto. cbn [with_pool pool now threads]. settle Hw Ht.
  - eapply free_turn_inv; [done|done|exact Hs|]. intros n En. unfold goto. cbn [with_pool pool now threads]. settle Hw Ht.
  - destruct (removeConn cn (pool w)) as [p' k] eqn:E. injection Hs as <-.
    by apply (remove_inv w t (Th (PRemove cn) h r0) cn (PRemFree cn) p' k Hw Ht E).
  - eapply free_turn_inv; [done|done|exact Hs|]. intros n En. unfold goto. cbn [with_pool pool now threads]. settle Hw Ht.
  - injection Hs as <-. unfold goto. cbn [with_pool pool now threads]. settle Hw Ht.
  - injection Hs as <-. unfold goto. cbn [with_pool pool now threads]. rewrite moved_0.
    assert (Hno : accounts w -> False) by (intros [_ _ _ _ Am]; rewrite Forall_lookup in Am; exact (Am t _ Ht)).
    destruct (heap_closeAll (pool w)) as (H1 & H2 & H3 & H4).
    eapply (inv_moved _ _ _ _ _ _ _ Hw Ht); [by auto|..]; counting; rewrite ?H1, ?H2, ?H3; try done; try lia.
  - injection Hs as <-. unfold dial_check, goto. destruct (closed (pool w)); [|destruct (_ <=? _)]; settle Hw Ht.
  - injection Hs as <-. unfold goto. cbn [with_pool pool now threads]. settle Hw Ht.
    rewrite Forall_lookup in Am. pose proof (Am t _ Ht) as Hp. cbn in Hp. unfold pooled_in in *. counting. rewrite Hp. lia.
  - injection Hs as <-. unfold goto. cbn [with_pool pool now threads]. settle Hw Ht.
  - injection Hs as <-. unfold goto. destruct (closed (pool w)); settle Hw Ht.
  - apply (take_turn_inv _ _ _ Hs). intros Hlt. unfold goto. cbn [pool with_pool now threads]. settle Hw Ht.
  - destruct (reapStaleConn (now w) (pool w)) as [[p' o] k] eqn:E. injection Hs as <-. exact (reap_inv w t h r0 n p' o k Hw Ht E).
  - eapply free_turn_inv; [done|done|exact Hs|]. intros n' En. unfold goto, count. cbn [with_pool pool now threads].
    destruct cn; settle Hw Ht.
  - injection Hs as <-. unfold goto. cbn [with_pool pool now threads]. settle Hw Ht.
Qed.

Lemma take_held_eq cn l b r : take_held cn l = Some (b, r) ->
  total (fun x : nat * bool => if x.2 then 1 else 0)%nat l = ((if b then 1 else 0) + total (fun x : nat * bool => if x.2 then 1 else 0) r)%nat /\
  forall c, occ c l.*1 = ((if (cn =? c)%nat then 1 else 0) + occ c r.*1)%nat.
Proof.
  revert r. induction l as [|[c0 b0] l IH]; intros r E; [done|]. cbn [take_held] in E. destruct (Nat.eqb_spec c0 cn) as [->|Hne].
  - injection E as <- <-. done.
  - destruct (take_held cn l) as [[b1 r1]|]; [|done]. injection E as <- <-. destruct (IH r1 eq_refl) as [H1 H2]. split.
    + cbn [sum_list_with snd] in *. lia.
    + intros c. specialize (H2 c). cbn [fmap list_fmap fst occ] in *. lia.
Qed.

Lemma closed_keep cns p : let p' := foldr closeConn p cns in
  length (heap p') = length (heap p) /\ (forall cn, is_pooled p' cn = is_pooled p cn) /\
  queue p' = queue p /\ conns p' = conns p /\ idleConns p' = idleConns p /\ poolSize p' = poolSize p /\
  idleConnsLen p' = idleConnsLen p /\ closed p' = closed p.
Proof.
  induction cns as [|c cns IH]; [done|]. cbn [foldr]. destruct IH as (H1 & H2 & H3 & H4 & H5 & H6 & H7 & H8).
  split_and!; try done; [by rewrite <- H1; apply length_alter|]. intros cn. by rewrite is_pooled_close.
Qed.

Lemma do_call_inv w t th c w' : inv w -> threads w !! t = Some th -> t_pc th = Idle -> do_call w t th c = Some w' -> inv w'.
Proof.
  intros Hw Ht Hpc Hs. pose proof (e_bound _ (proj1 Hw)) as Hbound. destruct th as [pc h r0]. cbn in Hpc. subst pc.
  destruct c as [| |cn|cn|cn| |cns|cn]; cbn [do_call held] in Hs.
  - injection Hs as <-. settle Hw Ht.
  - injection Hs as <-. settle Hw Ht.
  - destruct (take_held cn h) as [[b r]|] eqn:E; [|done]. destruct b; [|done]. apply take_held_eq in E as [E1 E2].
    destruct (is_pooled (pool w) cn); injection Hs as <-; settle Hw Ht; rewrite ?E1, ?E2; lia.
  - destruct (take_held cn h) as [[b r]|] eqn:E; [|done]. destruct b; [|done]. apply take_held_eq in E as [E1 E2].
    injection Hs as <-; settle Hw Ht; rewrite ?E1, ?E2; lia.
  - destruct (take_held cn h) as [[b r]|] eqn:E; [|done]. destruct b; [done|]. apply take_held_eq in E as [E1 E2].
    injection Hs as <-; settle Hw Ht; rewrite ?E1, ?E2; lia.
  - destruct (closed (pool w)); injection Hs as <-; unfold return_, goto; cbn [with_pool pool now threads]; settle Hw Ht.
  - injection Hs as <-. unfold with_pool. rewrite <- (list_insert_id _ _ _ Ht).
    destruct (closed_keep (filter (fun cn => cn ∈ cns) (conns (pool w))) (pool w)) as (H1 & H2 & H3 & H4 & H5 & H6 & H7 & H8).
    settle Hw Ht; rewrite ?H1, ?H2, ?H3, ?H4, ?H5, ?H6, ?H7, ?H8 in *; try done; lia.
  - destruct (bool_decide _); [|done]. injection Hs as <-. unfold with_pool. rewrite <- (list_insert_id _ _ _ Ht). settle Hw Ht.
    by apply is_pooled_alter.
Qed.

(** A new connection is nobody's. *)
Lemma made_inv w t th pooled pc2 : inv w -> threads w !! t = Some th ->
  let p' := set_heap (fun h => h ++ [dialled (now w) pooled]) (pool w) in let cn := length (heap (pool w)) in
  pc_owned (t_pc th) = [] -> pc_listed (t_pc th) = [] -> pc_owned pc2 = [cn] -> pc_listed pc2 = [] ->
  turn_pc pc2 = turn_pc (t_pc th) -> adding (Th pc2 (held th) (ret th)) = adding th ->
  (is_pooled p' cn = pooled -> made_ok p' pc2) ->
  inv (moved w t (Th pc2 (held th) (ret th)) p' 0 PAdd).
Proof.
  intros Hw Ht p' cn Ho Hl Ho2 Hl2 Htu Ha Hm. pose proof (e_bound _ (proj1 Hw)) as Hbound.
  assert (Hlen : length (heap p') = S cn) by (unfold p'; cbn; rewrite length_app; simpl; unfold cn; lia).
  assert (Hnew : is_pooled p' cn = pooled) by (unfold is_pooled, p'; cbn; unfold cn; by rewrite list_lookup_middle).
  assert (Hold : forall c, (c < cn)%nat -> is_pooled p' c = is_pooled (pool w) c).
  { intros c Hc. unfold is_pooled, p'. cbn. by rewrite lookup_app_l. }
  assert (Hmine : forall i u c, threads w !! i = Some u -> c ∈ owned u -> (c < cn)%nat).
  { intros i u c Hu Hc%occ_pos. pose proof (e_owner _ (proj1 Hw) c) as Eo. pose proof (total_ge (fun th => occ c (owned th)) _ _ _ Hu).
    cbv beta in *. fold cn in Eo. destruct (Nat.ltb_spec c cn); lia. }
  split.
  - eapply (exclusive_moved _ _ _ _ _ _ _ Hw Ht); [by auto|unfold turns; cbn; lia|done|lia|]. intros c. rewrite Hlen. fold cn.
    unfold owned. cbn [t_pc held]. rewrite Ho, Ho2, !occ_app. change (idleConns p') with (idleConns (pool w)). cbn [occ].
    destruct (Nat.eqb_spec cn c) as [<-|Hne]; [|lia]. rewrite (proj2 (Nat.leb_le cn cn)), (proj2 (Nat.ltb_lt cn (S cn))) by lia. simpl. lia.
  - intros Hcl. pose proof (proj2 Hw Hcl) as Hacc.
    assert (Hconns : pooled_in p' (conns p') = pooled_in (pool w) (conns (pool w))).
    { apply total_ext, Forall_forall. intros c Hc%occ_pos. rewrite (a_listed _ Hacc) in Hc. rewrite Hold; [done|].
      pose proof (e_owner _ (proj1 Hw) c) as Eo.
      pose proof (total_gap (fun th => occ c (listed th)) (fun th => occ c (owned th)) _ _ _ (listed_owned c) Ht) as Hg. cbv beta in Hg.
      fold cn in Eo. destruct (Nat.ltb_spec c cn); lia. }
    eapply (accounts_moved _ _ _ _ _ _ _ Hw Ht); [by auto|done| | | | | |].
    + intros c. unfold listed. cbn [t_pc held]. rewrite Hl, Hl2. done.
    + rewrite Hconns, Ha. cbn. lia.
    + rewrite Ha. cbn. lia.
    + exact (a_bound _ Hacc).
    + by apply Hm.
    + intros i u c _ Hu Hc. apply Hold. eapply Hmine; [exact Hu|]. unfold owned. set_solver.
Qed.

Lemma do_dial_inv w t th w' : inv w -> threads w !! t = Some th -> do_dial w t th = Some w' -> inv w'.
Proof.
  intros Hw Ht Hs. pose proof (e_bound _ (proj1 Hw)) as Hbound. destruct th as [pc h r0]. unfold do_dial in Hs.
  destruct pc; cbn [t_pc] in Hs; try done; injection Hs as <-; unfold goto; cbn [with_pool pool now threads]; rewrite moved_0.
  - by eapply made_inv.
  - by eapply made_inv.
  - rewrite <- moved_0. settle Hw Ht.
Qed.

Lemma do_dial_fail_inv w t th e w' : inv w -> threads w !! t = Some th -> do_dial_fail w t th e = Some w' -> inv w'.
Proof.
  intros Hw Ht Hs. pose proof (e_bound _ (proj1 Hw)) as Hbound. destruct th as [pc h r0]. unfold do_dial_fail, dial_failed in Hs.
  set (n := inc32 (dialErrorsNum (pool w))) in Hs. set (k := if n =? PoolSize opt mod 2 ^ 32 then 1%nat else 0%nat) in Hs.
  destruct pc; cbn [t_pc] in Hs; try done; injection Hs as <-.
  - destruct turn.
    + change (inv (moved w t (Th PFail h (RDialError (Some e))) (set_dial n (Some e) (pool w)) k PTry)). settle Hw Ht.
    + change (inv (moved w t (Th Idle h (RDialError (Some e))) (set_dial n (Some e) (pool w)) k PTry)). settle Hw Ht.
  - change (inv (moved w t (Th PAddFail h r0) (set_dial n (Some e) (pool w)) k PTry)). settle Hw Ht.
  - unfold goto. cbn [with_pool pool now threads]. settle Hw Ht.
Qed.

Lemma pool_step_inv w t a w' : inv w -> step w t a = Some w' -> inv w'.
Proof.
  intros Hw Hs. unfold step in Hs. destruct (threads w !! t) as [th|] eqn:Ht; [|done]. cbn [mbind option_bind] in Hs.
  pose proof (e_bound _ (proj1 Hw)) as Hbound. destruct a as [c| | | | |e|].
  - destruct (t_pc th) eqn:Hpc; try done. by eapply do_call_inv.
  - by eapply do_step_inv.
  - destruct th as [pc h r0]. cbn [t_pc] in Hs. destruct pc; try done; injection Hs as <-; unfold return_; settle Hw Ht.
  - destruct th as [pc h r0]. cbn [t_pc] in Hs. destruct pc; try done; injection Hs as <-; unfold return_, count; cbn [with_pool pool now threads]; settle Hw Ht.
  - by eapply do_dial_inv.
  - by eapply do_dial_fail_inv.
  - destruct th as [pc h r0]. cbn [t_pc] in Hs. destruct pc; try done; injection Hs as <-; unfold goto; destruct (closed (pool w)); settle Hw Ht.
Qed.

Lemma new_inv clients time : 0 <= PoolSize opt -> inv (NewConnPool clients time).
Proof.
  intros HP. unfold NewConnPool.
  match goal with |- context [checkMinIdleConns ?q] => destruct (checkMinIdleConns_eq q) as (k & -> & Hk) end. cbn in Hk.
  set (reaper := if _ : bool then _ else _).
  assert (Hz : forall f : thread -> nat, f (Th Idle [] RNone) = 0%nat -> f (Th PReap [] RNone) = 0%nat ->
    total f (replicate clients (Th Idle [] RNone) ++ replicate k (Th PAdd [] RNone) ++ reaper) = (k * f (Th PAdd [] RNone))%nat).
  { intros f H1 H2. rewrite !sum_list_with_app, !total_replicate, H1. unfold reaper. destruct (_ && _); simpl; lia. }
  split; [split|intros _; split]; cbn.
  - rewrite Hz by done. unfold turns, owned, listed, adding. simpl. lia.
  - lia.
  - intros cn. rewrite Hz by done. unfold turns, owned, listed, adding. simpl. lia.
  - intros cn. rewrite Hz by done. unfold turns, owned, listed, adding. simpl. lia.
  - rewrite Hz by done. unfold turns, owned, listed, adding. simpl. lia.
  - rewrite Hz by done. unfold turns, owned, listed, adding. simpl. lia.
  - lia.
  - rewrite !Forall_app. split_and!; [by apply Forall_replicate|by apply Forall_replicate|]. unfold reaper. destruct (_ && _); by repeat constructor.
Qed.

Lemma pool_reach_inv w0 w : inv w0 -> reach w0 w -> inv w.
Proof.
  intros H0. induction 1 as [|w t a w' _ IH Hs|w d _ IH _]; [done|by eapply pool_step_inv|].
  destruct IH as [[E1 E2 E3] Ha]. split; [by split|]. intros Hc. destruct (Ha Hc) as [A1 A2 A3 A4 A5]. by split.
Qed.

(** ** What the pool guarantees *)

Lemma occ_NoDup l : (forall cn, occ cn l <= 1)%nat -> NoDup l.
Proof.
  induction l as [|c l IH]; intros Hl; constructor.
  - intros Hc%occ_pos. specialize (Hl c). simpl in Hl. rewrite Nat.eqb_refl in Hl. lia.
  - apply IH. intros cn. specialize (Hl cn). simpl in Hl. lia.
Qed.
Lemma occ_Permutation l1 l2 : (forall cn, occ cn l1 = occ cn l2) -> l1 ≡ₚ l2.
Proof.
  revert l2. induction l1 as [|c l1 IH]; intros l2 Hl.
  - destruct l2 as [|c l2]; [done|]. specialize (Hl c). simpl in Hl. rewrite Nat.eqb_refl in Hl. lia.
  - assert (Hc : c ∈ l2) by (apply occ_pos; rewrite <- Hl; simpl; rewrite Nat.eqb_refl; lia).
    apply list_elem_of_split in Hc as (l3 & l4 & ->). rewrite <- Permutation_middle. constructor. apply IH. intros cn.
    specialize (Hl cn). rewrite occ_app in *. simpl in Hl. lia.
Qed.
Lemma occ_concat {A} (f : A -> list nat) l cn : occ cn (l ≫= f) = total (fun x => occ cn (f x)) l.
Proof. induction l as [|x l IH]; [done|]. rewrite bind_cons, occ_app, IH. done. Qed.

(** What clients have. *)
Definition holds (w : world) (t cn : nat) (turn : bool) : Prop :=
  exists th, threads w !! t = Some th /\ (cn, turn) ∈ held th.

Lemma holds_owned w t cn turn : holds w t cn turn -> exists th, threads w !! t = Some th /\ cn ∈ owned th.
Proof.
  intros (th & Ht & Hc). exists th. split; [done|]. unfold owned. apply elem_of_app. right.
  apply list_elem_of_fmap. by exists (cn, turn).
Qed.

Lemma held_turns ts : (total (fun th => length (filter (fun x : nat * bool => x.2 = true) (held th))) ts <= total turns ts)%nat.
Proof.
  induction ts as [|th ts IH]; [done|]. cbn [sum_list_with].
  assert (length (filter (fun x : nat * bool => x.2 = true) (held th)) <= turns th)%nat; [|lia].
  unfold turns. clear. induction (held th) as [|[c b] h IH]; [simpl; lia|]. rewrite filter_cons. cbn [sum_list_with snd].
  destruct b; case_decide; simpl in *; done || lia.
Qed.

(** C5: In every interleaving of any number of goroutines with the reaper, the
    goroutines that add idle connections and Close, a connection is with at most one
    client and then not among the idle ones, no idle connection is listed twice, and
    at most PoolSize connections that Get gave out have not been put back. *)
Theorem pool_exclusive (clients : nat) (time : Z) (w : world) :
  0 <= PoolSize opt -> reach (NewConnPool clients time) w ->
  (forall t1 t2 cn b1 b2, holds w t1 cn b1 -> holds w t2 cn b2 -> t1 = t2) /\
  (forall t cn b, holds w t cn b -> ~ cn ∈ idleConns (pool w)) /\
  NoDup (idleConns (pool w)) /\
  Z.of_nat (total (fun th => length (filter (fun x : nat * bool => x.2 = true) (held th))) (threads w)) <= PoolSize opt.
Proof.
  intros HP Hr. pose proof (pool_reach_inv _ _ (new_inv clients time HP) Hr) as Hw. pose proof Hw as [[Eq Eb Eo] _]. split_and!.
  - intros t1 t2 cn b1 b2 (th1 & Ht1 & Hc1)%holds_owned (th2 & Ht2 & Hc2)%holds_owned.
    destruct (decide (t1 = t2)) as [|Hne]; [done|]. by destruct (owned_once w t2 th2 t1 th1 cn Hw Ht2 Ht1 Hne Hc2 Hc1).
  - intros t cn b (th & Ht & Hc%occ_pos)%holds_owned Hi%occ_pos. specialize (Eo cn).
    pose proof (total_ge (fun th => occ cn (owned th)) _ _ _ Ht). cbv beta in *. destruct (cn <? _)%nat; lia.
  - apply occ_NoDup. intros cn. specialize (Eo cn). destruct (cn <? _)%nat; lia.
  - rewrite Eq in Eb. etrans; [|exact Eb]. apply inj_le, held_turns.
Qed.

(** No goroutine is in the middle of a method, none is adding a connection. *)
Definition quiet (w : world) : Prop := Forall (fun th => t_pc th = Idle \/ t_pc th = Done \/ t_pc th = PReap) (threads w).

(** C9: Until Close, the pool never has more than PoolSize pooled connections,
    counting those that are being added, no connection is listed twice, and whenever
    no method is running its list is exactly the idle connections and those that
    clients have, its counters are the numbers of pooled and of idle connections,
    and the turns in the channel are the connections given out by Get: no turn and
    no connection is ever lost. *)
Theorem pool_accounts (clients : nat) (time : Z) (w : world) :
  0 <= PoolSize opt -> reach (NewConnPool clients time) w -> closed (pool w) = false ->
  NoDup (conns (pool w)) /\ poolSize (pool w) <= PoolSize opt /\
  Z.of_nat (pooled_in (pool w) (conns (pool w))) <= poolSize (pool w) /\
  (quiet w ->
   conns (pool w) ≡ₚ idleConns (pool w) ++ (threads w ≫= fun th => (held th).*1) /\
   poolSize (pool w) = Z.of_nat (pooled_in (pool w) (conns (pool w))) /\
   idleConnsLen (pool w) = Z.of_nat (length (idleConns (pool w))) /\
   queue (pool w) = total (fun th => total (fun x : nat * bool => if x.2 then 1 else 0) (held th))%nat (threads w)).
Proof.
  intros HP Hr Hcl. pose proof (pool_reach_inv _ _ (new_inv clients time HP) Hr) as Hw. pose proof Hw as [[Eq Eb Eo] Ha].
  destruct (Ha Hcl) as [Al As Ai Ab _]. split_and!.
  - apply occ_NoDup. intros cn. specialize (Eo cn). rewrite Al.
    assert (total (fun th => occ cn (listed th)) (threads w) <= total (fun th => occ cn (owned th)) (threads w))%nat.
    { clear. induction (threads w) as [|th ts IH]; simpl; [done|]. pose proof (listed_owned cn th). lia. }
    destruct (cn <? _)%nat; lia.
  - done.
  - lia.
  - intros Hq. assert (Hadd : total adding (threads w) = 0%nat).
    { rewrite (total_ext adding (fun _ => 0%nat)); [clear; by induction (threads w)|].
      eapply Forall_impl; [exact Hq|]. intros th [E|[E|E]]; unfold adding; by rewrite E. }
    rewrite Hadd in *. split_and!; [|lia|lia|].
    + apply occ_Permutation. intros cn. rewrite Al, occ_app, occ_concat. f_equal. apply total_ext.
      eapply Forall_impl; [exact Hq|]. intros th [E|[E|E]]; unfold listed; by rewrite E.
    + rewrite Eq. apply total_ext. eapply Forall_impl; [exact Hq|]. intros th [E|[E|E]]; unfold turns; by rewrite E.
Qed.

Lemma take_held_in cn b l : (cn, b) ∈ l -> (occ cn l.*1 <= 1)%nat -> exists r, take_held cn l = Some (b, r).
Proof.
  induction l as [|[c b0] l IH]; intros Hin Ho; [by apply elem_of_nil in Hin|]. cbn [take_held].
  cbn [fmap list_fmap fst occ] in Ho. destruct (Nat.eqb_spec c cn) as [->|Hne].
  - apply elem_of_cons in Hin as [[= ->]|Hin]; [by exists l|].
    assert (0 < occ cn l.*1)%nat by (apply occ_pos, list_elem_of_fmap; by exists (cn, b)). lia.
  - apply elem_of_cons in Hin as [[= -> ->]|Hin]; [done|]. destruct (IH Hin) as [r ->]; [lia|]. by eexists.
Qed.

(** [Put] and [Remove] up to [freeTurn], and [freeTurn], as steps of [u] that leave [t]
    where it is. *)
Lemma leave_step w u t tu th cn n : threads w !! u = Some tu -> u <> t -> threads w !! t = Some th ->
  t_pc tu = PPut cn \/ t_pc tu = PRemove cn -> queue (pool w) = S n ->
  exists w' tu', step w u AStep = Some w' /\ queue (pool w') = S n /\ threads w' !! u = Some tu' /\
    (t_pc tu' = PPutFree \/ t_pc tu' = PRemFree cn) /\ threads w' !! t = Some th.
Proof.
  intros Hu Hne Ht Hp Hn. pose proof (lookup_lt_Some _ _ _ Hu) as Hlu. unfold step. rewrite Hu. cbn [mbind option_bind].
  unfold do_step. destruct Hp as [-> | ->].
  - eexists _, _. split; [done|]. split; [exact Hn|]. cbn [threads goto with_pool].
    rewrite list_lookup_insert_eq, list_lookup_insert_ne by done. split; [done|]. auto.
  - destruct (removeConn cn (pool w)) as [p' k] eqn:E.
    assert (Hq : queue p' = S n).
    { rewrite <- Hn. unfold removeConn in E. destruct (bool_decide _); [|by injection E as <- _].
      destruct (is_pooled _ cn); [|by injection E as <- _].
      match type of E with checkMinIdleConns ?q = _ => destruct (checkMinIdleConns_eq q) as (k' & Ek & _); rewrite Ek in E end.
      by injection E as <- _. }
    eexists _, _. split; [done|]. split; [exact Hq|]. cbn [threads goto with_pool spawn].
    rewrite !lookup_app_l by (rewrite length_insert; try done; by eapply lookup_lt_Some).
    rewrite list_lookup_insert_eq, list_lookup_insert_ne by done. split; [done|]. auto.
Qed.
Lemma free_step w u t tu th cn n : threads w !! u = Some tu -> u <> t -> threads w !! t = Some th ->
  t_pc tu = PPutFree \/ t_pc tu = PRemFree cn -> queue (pool w) = S n ->
  exists w', step w u AStep = Some w' /\ queue (pool w') = n /\ threads w' !! t = Some th.
Proof.
  intros Hu Hne Ht Hp Hn. unfold step. rewrite Hu. cbn [mbind option_bind]. unfold do_step, free_turn.
  destruct Hp as [-> | ->]; rewrite Hn; (eexists; split; [done|]; split; [done|]); cbn [threads goto with_pool];
    by rewrite list_lookup_insert_ne.
Qed.

(** C29: A goroutine that waits for a turn is served as soon as one client puts
    its connection back: the steps of Put (or of the removal of a connection that is
    not pooled) up to the turn are never blocked, and after them the waiting
    goroutine can go on. *)
Theorem pool_progress (clients : nat) (time : Z) (w : world) (t u cn : nat) (th tu : thread) :
  0 <= PoolSize opt -> reach (NewConnPool clients time) w ->
  threads w !! t = Some th -> t_pc th = PWait ->
  threads w !! u = Some tu -> t_pc tu = Idle -> (cn, true) ∈ held tu ->
  exists w' th', run w [(u, ACall (CPut cn)); (u, AStep); (u, AStep); (t, AStep)] = Some w' /\
    threads w' !! t = Some th' /\ t_pc th' = PPop.
Proof.
  intros HP Hr Ht Hpt Hu Hpu Hcn. pose proof (pool_reach_inv _ _ (new_inv clients time HP) Hr) as Hw. pose proof Hw as [[Eq Eb Eo] _].
  assert (Hne : u <> t) by congruence.
  assert (Ho1 : (occ cn (held tu).*1 <= 1)%nat).
  { specialize (Eo cn). pose proof (total_ge (fun th => occ cn (owned th)) _ _ _ Hu) as E. cbv beta in E.
    assert (Eown : owned tu = (held tu).*1) by (unfold owned; by rewrite Hpu). rewrite Eown in E. destruct (cn <? _)%nat; lia. }
  destruct (take_held_in cn true (held tu) Hcn Ho1) as [r Er].
  assert (Hq : exists n, queue (pool w) = S n).
  { pose proof (thread_turn w u tu Hw Hu) as E. unfold turns in E. apply take_held_eq in Er as [E1 _]. rewrite E1 in E.
    exists (queue (pool w) - 1)%nat. lia. }
  destruct Hq as [n Hn]. pose proof (lookup_lt_Some _ _ _ Hu) as Hlu.
  set (pc1 := if is_pooled (pool w) cn then PPut cn else PRemove cn).
  set (w1 := W (pool w) (now w) (<[u := Th pc1 r RNone]> (threads w))).
  assert (S1 : step w u (ACall (CPut cn)) = Some w1).
  { unfold step. rewrite Hu. cbn [mbind option_bind]. rewrite Hpu. cbn [do_call]. by rewrite Er. }
  destruct (leave_step w1 u t (Th pc1 r RNone) th cn n) as (w2 & th2 & S2 & Hn2 & Hu2 & Hp2 & Ht2); try done.
  { by apply list_lookup_insert_eq. }
  { unfold w1. cbn [threads]. by rewrite list_lookup_insert_ne. }
  { unfold pc1. destruct (is_pooled (pool w) cn); auto. }
  destruct (free_step w2 u t th2 th cn n) as (w3 & S3 & Hn3 & Ht3); try done.
  cbn [run]. rewrite S1. cbn [mbind option_bind]. rewrite S2. cbn [mbind option_bind]. rewrite S3. cbn [mbind option_bind].
  unfold step. rewrite Ht3. cbn [mbind option_bind]. unfold do_step. rewrite Hpt. unfold take_turn.
  rewrite Hn3, (proj2 (Z.ltb_lt _ _)) by lia. cbn [mbind option_bind]. eexists _, _. split; [done|].
  cbn [threads goto with_pool]. rewrite list_lookup_insert_eq; [done|]. by eapply lookup_lt_Some.
Qed.

Lemma pool_run_reach w tr w' : run w tr = Some w' -> reach w w'.
Proof.
  assert (Hgen : forall tr w0 w, reach w0 w -> run w tr = Some w' -> reach w0 w').
  { clear. induction tr as [|[t a] tr IH]; intros w0 w Hr E; cbn [run] in E; [by injection E as <-|].
    destruct (step w t a) as [w1|] eqn:Es; [|done]. apply (IH w0 w1); [by econstructor|exact E]. }
  apply Hgen. constructor.
Qed.

End Pool.

(** ** Runs *)

(** One connection at most, and two clients. *)
Definition demo_opt : Options := Opt 1 0 0 (60 * 10 ^ 9) (10 ^ 9).
Definition steps (t : nat) (n : nat) : list (nat * action) := replicate n (t, AStep).
Definition demo_trace : list (nat * action) :=
  [(0%nat, ACall CGet)] ++ steps 0 4 ++ [(0%nat, ADial)] ++ steps 0 1 ++ [(1%nat, ACall CGet)] ++ steps 1 2.
Definition demo_world : world := default (NewConnPool demo_opt 2 0) (run demo_opt (NewConnPool demo_opt 2 0) demo_trace).

Lemma pool_demo_reach : reach demo_opt (NewConnPool demo_opt 2 0) demo_world.
Proof. apply (pool_run_reach demo_opt _ demo_trace). vm_compute. reflexivity. Qed.

Lemma pool_exclusive_witness : holds demo_world 0 0 true /\ ~ 0%nat ∈ idleConns (pool demo_world).
Proof.
  assert (Hh : holds demo_world 0 0 true) by (eexists; split; [vm_compute; reflexivity|apply list_elem_of_singleton; reflexivity]).
  split; [exact Hh|]. destruct (pool_exclusive demo_opt 2 0 demo_world) as (_ & H & _); [vm_compute; discriminate|exact pool_demo_reach|].
  exact (H _ _ _ Hh).
Defined.

Definition demo_back : world :=
  default demo_world (run demo_opt demo_world ([(0%nat, ACall (CPut 0))] ++ steps 0 2 ++ [(1%nat, ACancel)])).
Lemma pool_accounts_witness : conns (pool demo_back) ≡ₚ idleConns (pool demo_back) ++ (threads demo_back ≫= fun th => (held th).*1).
Proof.
  assert (Hr : reach demo_opt (NewConnPool demo_opt 2 0) demo_back).
  { apply (pool_run_reach demo_opt _ (demo_trace ++ [(0%nat, ACall (CPut 0))] ++ steps 0 2 ++ [(1%nat, ACancel)])). vm_compute. reflexivity. }
  refine (proj1 (proj2 (proj2 (proj2 (pool_accounts demo_opt 2 0 demo_back _ Hr _))) _)).
  - vm_compute. discriminate.
  - vm_compute. reflexivity.
  - vm_compute. repeat (apply List.Forall_cons; [auto|]). apply List.Forall_nil.
Defined.

Lemma pool_progress_witness : exists w' th',
  run demo_opt demo_world [(0%nat, ACall (CPut 0)); (0%nat, AStep); (0%nat, AStep); (1%nat, AStep)] = Some w' /\
  threads w' !! 1%nat = Some th' /\ t_pc th' = PPop.
Proof.
  eapply (pool_progress demo_opt 2 0 demo_world 1 0 0); [vm_compute; discriminate|exact pool_demo_reach|vm_compute; reflexivity|reflexivity|vm_compute; reflexivity|reflexivity|].
  apply list_elem_of_singleton. reflexivity.
Defined.

(** A connection that is dialled while [Close] runs is given out by the closed pool;
    put back, it stays idle with an open socket for good. *)
Example close_leaks : exists w,
  run demo_opt (NewConnPool demo_opt 2 0)
    ([(0%nat, ACall CGet)] ++ steps 0 4 ++ [(1%nat, ACall CClose)] ++ steps 1 1 ++ [(0%nat, ADial)] ++ steps 0 1 ++
     [(0%nat, ACall (CPut 0))] ++ steps 0 2) = Some w /\
  closed (pool w) = true /\ idleConns (pool w) = [0%nat] /\ sock_closed <$> (heap (pool w) !! 0%nat) = Some false.
Proof. eexists. split; [vm_compute; reflexivity|]. done. Qed.

End PgPool.
