(* ===== verification/PgSticky.v ===== *)
(** * Pools over a pool ([src/upg/internal/pool/pool_sticky.go], [pool_single.go])

    A transaction, or a [Conn], keeps one connection of the pool for its goroutines:
    [StickyConnPool] passes it around through a channel of capacity one. Its methods
    synchronise by atomic variables and the channel alone, and are split at each of
    these accesses: a step of a goroutine runs to the next one. The pool underneath is
    known by an interface, what [Get] and [Put] promise, which the connection pool of
    [PgPool] discharges. *)
From stdpp Require Import base numbers list sets.
From S2P Require Import Prelude PgPool.
#[local] Open Scope Z_scope.

Module PgSticky.

Import (hints) PgPool.
Abbreviation occ := PgPool.occ.
Abbreviation total := sum_list_with.

(** ** The interface [Pooler] *)

(** What happens at a pool: a client is given a connection by [Get], it gives one back
    by [Put] or [Remove], or something else happens. [lent p cn]: the pool has given
    [cn] out and not got it back. *)
Inductive pevent := PGot (cn : nat) | PGave (cn : nat) | PTau.

Class Pooler (P : Type) := {
  good : P -> Prop;
  lent : P -> nat -> Prop;
  pstep : P -> pevent -> P -> Prop;
  pstep_good p ev p' : good p -> pstep p ev p' -> good p';
  pstep_got p cn p' : good p -> pstep p (PGot cn) p' -> ~ lent p cn /\ forall c, lent p' c <-> c = cn \/ lent p c;
  pstep_gave p cn p' : good p -> pstep p (PGave cn) p' -> lent p cn /\ forall c, lent p' c <-> c <> cn /\ lent p c;
  pstep_tau p p' : good p -> pstep p PTau p' -> forall c, lent p' c <-> lent p c
}.

(** ** Data *)

Inductive pstate := stateDefault | stateInited | stateClosed.
#[export] Instance pstate_eq_dec : EqDecision pstate.
Proof. solve_decision. Defined.

Inductive error := ErrClosed | EPool (e : Z) | EBadConn (reason : Z) | EInfiniteLoop | ENoConn | EState (s : pstate).
Inductive outcome := RNone | RConn (cn : nat) | RNil | RErr (e : error) | RPanic.

(** Where a goroutine is.
    - [Get]: before the load of [state], with the rounds done; in [Get] of the pool;
      before the compare-and-swap; before [Remove]; before [badConnError]; before the
      receive.
    - [Put]: before the send. [freeConn]: before [badConnError]; before [Remove] or
      [Put] of the pool.
    - [Remove]: before the store of the reason; before the send.
    - [Close]: before the count; before the load of [state]; before the
      compare-and-swap; before [close]; before the receive.
    - [Reset]: before [badConnError]; before the receive; before [Remove] of the pool;
      before the store; before the compare-and-swap; before the last load. *)
Inductive pc :=
| Idle
| GLoad (i : Z) | GPool (i : Z) | GCas (i : Z) (cn : nat) | GRemove (i : Z) (cn : nat) | GBad | GRecv
| PSend (cn : nat) | Free (cn : nat) | FreeRemove (cn : nat) | FreePut (cn : nat)
| RStore (cn : nat) (reason : option Z) | RSend (cn : nat)
| CDec | CLoad (i : Z) | CCas (i : Z) (st : pstate) | CClose | CRecv
| XBad | XRecv | XRemove (cn : nat) | XStore | XCas | XLoad.

Record thread := Th { t_pc : pc; ret : outcome }.

(** The channel holds at most one connection. [badConn] is what was last stored: the
    reason inside, [None] inside when it was reset. [out]: what clients have. *)
Record StickyConnPool := SP {
  shared : Z;
  state : pstate;
  ch : option nat;
  ch_closed : bool;
  badConn : option (option Z);
  out : list nat;
  threads : list thread
}.

Definition set_state (s : pstate) (w : StickyConnPool) : StickyConnPool :=
  SP (shared w) s (ch w) (ch_closed w) (badConn w) (out w) (threads w).
Definition set_ch (c : option nat) (w : StickyConnPool) : StickyConnPool :=
  SP (shared w) (state w) c (ch_closed w) (badConn w) (out w) (threads w).
Definition close_ch (w : StickyConnPool) : StickyConnPool :=
  SP (shared w) (state w) (ch w) true (badConn w) (out w) (threads w).
Definition set_bad (r : option Z) (w : StickyConnPool) : StickyConnPool :=
  SP (shared w) (state w) (ch w) (ch_closed w) (Some r) (out w) (threads w).
Definition set_shared (n : Z) (w : StickyConnPool) : StickyConnPool :=
  SP n (state w) (ch w) (ch_closed w) (badConn w) (out w) (threads w).
Definition set_out (l : list nat) (w : StickyConnPool) : StickyConnPool :=
  SP (shared w) (state w) (ch w) (ch_closed w) (badConn w) l (threads w).

Definition badConnError (w : StickyConnPool) : option Z := match badConn w with Some (Some r) => Some r | _ => None end.

Definition Len (w : StickyConnPool) : Z := match state w with stateInited => 1 | _ => 0 end.
Definition IdleLen (w : StickyConnPool) : Z := match ch w with Some _ => 1 | None => 0 end.

(** ** Steps *)

Inductive call := SNew | SGet | SPut (cn : nat) | SRemove (cn : nat) (reason : option Z) | SClose | SReset.
(** A step of a goroutine; for [Get] of the pool underneath, with its result. *)
Inductive action := ACall (c : call) | AStep | AGot (cn : nat) | AFail (e : Z).

Definition goto (t : nat) (p : pc) (w : StickyConnPool) : StickyConnPool :=
  SP (shared w) (state w) (ch w) (ch_closed w) (badConn w) (out w) (<[t := Th p RNone]> (threads w)).
Definition return_ (t : nat) (o : outcome) (w : StickyConnPool) : StickyConnPool :=
  SP (shared w) (state w) (ch w) (ch_closed w) (badConn w) (out w) (<[t := Th Idle o]> (threads w)).
Definition give (t : nat) (cn : nat) (w : StickyConnPool) : StickyConnPool := return_ t (RConn cn) (set_out (cn :: out w) w).

(** A client puts back only what it has. *)
Definition do_call (t : nat) (c : call) (w : StickyConnPool) : option StickyConnPool :=
  match c with
  | SNew => Some (return_ t RNil (set_shared (shared w + 1) w))
  | SGet => Some (goto t (GLoad 0) w)
  | SPut cn => if bool_decide (cn ∈ out w) then Some (goto t (PSend cn) (set_out (PgPool.remove_first cn (out w)) w)) else None
  | SRemove cn r => if bool_decide (cn ∈ out w) then Some (goto t (RStore cn r) (set_out (PgPool.remove_first cn (out w)) w)) else None
  | SClose => Some (goto t CDec w)
  | SReset => Some (goto t XBad w)
  end.

(** A send: on a closed channel it panics, and [recover] goes to [panicked]; on a full
    one it waits. *)
Definition send (t : nat) (cn : nat) (panicked : pc) (w : StickyConnPool) : option StickyConnPool :=
  if ch_closed w then Some (goto t panicked w)
  else match ch w with None => Some (return_ t RNil (set_ch (Some cn) w)) | Some _ => None end.

Definition do_step (t : nat) (p : pc) (w : StickyConnPool) : option StickyConnPool :=
  match p with
  | GLoad i =>
      Some (if i <? 1000 then
              match state w with
              | stateDefault => goto t (GPool i) w
              | stateInited => goto t GBad w
              | stateClosed => return_ t (RErr ErrClosed) w
              end
            else return_ t (RErr EInfiniteLoop) w)
  | GCas i cn => Some (if bool_decide (state w = stateDefault) then give t cn (set_state stateInited w) else goto t (GRemove i cn) w)
  | GRemove i cn => Some (goto t (GLoad (i + 1)) w)
  | GBad => Some (match badConnError w with Some r => return_ t (RErr (EBadConn r)) w | None => goto t GRecv w end)
  | GRecv => match ch w with
             | Some cn => Some (give t cn (set_ch None w))
             | None => if ch_closed w then Some (return_ t (RErr ErrClosed) w) else None
             end
  | PSend cn => send t cn (Free cn) w
  | Free cn => Some (goto t (match badConnError w with Some _ => FreeRemove cn | None => FreePut cn end) w)
  | FreeRemove _ | FreePut _ => Some (return_ t RNil w)
  | RStore cn r => Some (goto t (RSend cn) (set_bad r w))
  | RSend cn => send t cn (FreeRemove cn) w
  | CDec => let n := shared w - 1 in
            Some (if 0 <? n then return_ t RNil (set_shared n w) else goto t (CLoad 0) (set_shared n w))
  | CLoad i =>
      Some (if i <? 1000 then
              if bool_decide (state w = stateClosed) then return_ t (RErr ErrClosed) w else goto t (CCas i (state w)) w
            else return_ t (RErr EInfiniteLoop) w)
  | CCas i st => Some (if bool_decide (state w = st) then goto t CClose (set_state stateClosed w) else goto t (CLoad (i + 1)) w)
  | CClose => Some (if ch_closed w then return_ t RPanic w else goto t CRecv (close_ch w))
  | CRecv => match ch w with
             | Some cn => Some (goto t (Free cn) (set_ch None w))
             | None => if ch_closed w then Some (return_ t RNil w) else None
             end
  | XBad => Some (match badConnError w with None => return_ t RNil w | Some _ => goto t XRecv w end)
  | XRecv => Some (match ch w with
                   | Some cn => goto t (XRemove cn) (set_ch None w)
                   | None => return_ t (RErr (if ch_closed w then ErrClosed else ENoConn)) w
                   end)
  | XRemove cn => Some (goto t XStore w)
  | XStore => Some (goto t XCas (set_bad None w))
  | XCas => Some (if bool_decide (state w = stateInited) then return_ t RNil (set_state stateDefault w) else goto t XLoad w)
  | XLoad => Some (return_ t (RErr (EState (state w))) w)
  | Idle | GPool _ => None
  end.

Definition step (w : StickyConnPool) (t : nat) (a : action) : option StickyConnPool :=
  th ← threads w !! t;
  match a, t_pc th with
  | ACall c, Idle => do_call t c w
  | AGot cn, GPool i => Some (goto t (GCas i cn) w)
  | AFail e, GPool i => Some (return_ t (RErr (EPool e)) w)
  | AStep, p => do_step t p w
  | _, _ => None
  end.

(** What the step does to the pool underneath. *)
Definition event (w : StickyConnPool) (t : nat) (a : action) : pevent :=
  match a, t_pc <$> threads w !! t with
  | AGot cn, _ => PGot cn
  | AStep, Some (GRemove _ cn | FreeRemove cn | FreePut cn | XRemove cn) => PGave cn
  | _, _ => PTau
  end.

(** [NewStickyConnPool] of a pool that is not sticky, with its goroutines. *)
Definition NewStickyConnPool (n : nat) : StickyConnPool :=
  SP 1 stateDefault None false None [] (replicate n (Th Idle RNone)).

Fixpoint run (w : StickyConnPool) (tr : list (nat * action)) : option StickyConnPool :=
  match tr with [] => Some w | (t, a) :: tr' => w' ← step w t a; run w' tr' end.

(** What a goroutine has in its hands, and the place of the one connection: the
    goroutines that have it, or that have taken it away in [Reset]. *)
Definition hands (p : pc) : list nat :=
  match p with
  | GCas _ cn | GRemove _ cn | PSend cn | Free cn | FreeRemove cn | FreePut cn | RStore cn _ | RSend cn | XRemove cn => [cn]
  | _ => []
  end.
Definition place (p : pc) : nat :=
  match p with
  | PSend _ | Free _ | FreeRemove _ | FreePut _ | RStore _ _ | RSend _ | XRemove _ | XStore | XCas => 1
  | _ => 0
  end.
Definition kept (w : StickyConnPool) : list nat := out w ++ option_list (ch w) ++ (threads w ≫= fun th => hands (t_pc th)).
Definition places (w : StickyConnPool) : nat := length (out w) + length (option_list (ch w)) + total (fun th => place (t_pc th)) (threads w).

(** The connections that the pool gave and got back. *)
Definition gots (tr : list pevent) : list nat := tr ≫= fun ev => match ev with PGot cn => [cn] | _ => [] end.
Definition gaves (tr : list pevent) : list nat := tr ≫= fun ev => match ev with PGave cn => [cn] | _ => [] end.

(** *** The invariant *)

Definition closing (p : pc) : nat := match p with CClose => 1 | _ => 0 end.
Definition draining (p : pc) : nat := match p with CRecv => 1 | _ => 0 end.
Definition pc_ok (closed : bool) (p : pc) : Prop :=
  match p with
  | Free _ | FreeRemove _ | FreePut _ | CRecv => closed = true
  | CCas _ st => st <> stateClosed
  | _ => True
  end.

(** The one connection has one place; the channel is closed once, by the goroutine that
    closed the pool, and what is then left in it is about to be received. *)
Record inv (w : StickyConnPool) : Prop := {
  i_places : match state w with stateDefault => places w = 0%nat | stateInited => places w = 1%nat | stateClosed => (places w <= 1)%nat end;
  i_close : ((if ch_closed w then 1 else 0) + total (fun th => closing (t_pc th)) (threads w) =
    if bool_decide (state w = stateClosed) then 1 else 0)%nat;
  i_after : Forall (fun th => pc_ok (ch_closed w) (t_pc th)) (threads w);
  i_drain : ch_closed w = true -> ch w <> None -> (0 < total (fun th => draining (t_pc th)) (threads w))%nat
}.

Lemma sticky_inv_moved w t th w' p' r' : inv w -> threads w !! t = Some th -> threads w' = <[t := Th p' r']> (threads w) ->
  match state w' with
  | stateDefault => (length (out w') + length (option_list (ch w')) + places w + place p' =
                     length (out w) + length (option_list (ch w)) + place (t_pc th))%nat
  | stateInited => (length (out w') + length (option_list (ch w')) + places w + place p' =
                    S (length (out w) + length (option_list (ch w)) + place (t_pc th)))%nat
  | stateClosed => (length (out w') + length (option_list (ch w')) + places w + place p' <=
                    S (length (out w) + length (option_list (ch w)) + place (t_pc th)))%nat
  end ->
  ((if ch_closed w' then 1 else 0) + (if bool_decide (state w = stateClosed) then 1 else 0) + closing p' =
   (if ch_closed w then 1 else 0) + (if bool_decide (state w' = stateClosed) then 1 else 0) + closing (t_pc th))%nat ->
  (ch_closed w = true -> ch_closed w' = true) ->
  pc_ok (ch_closed w') p' ->
  (ch_closed w' = true -> ch w' <> None -> draining p' = 1%nat \/ ch_closed w = true /\ ch w <> None /\ draining (t_pc th) = 0%nat) ->
  inv w'.
Proof.
  intros [Ip Ic Ia Id] Ht Hts Hp Hc Hm Ha Hd.
  pose proof (total_insert (fun th => place (t_pc th)) _ _ _ (Th p' r') Ht) as Ep.
  pose proof (total_insert (fun th => closing (t_pc th)) _ _ _ (Th p' r') Ht) as Ec.
  pose proof (total_insert (fun th => draining (t_pc th)) _ _ _ (Th p' r') Ht) as Ed. pose proof (total_ge (fun th => draining (t_pc th)) _ _ _ Ht) as Eg.
  cbn [t_pc] in Ep, Ec, Ed, Eg.
  split; rewrite ?Hts.
  - unfold places in *. rewrite Hts. destruct (state w'), (state w); lia.
  - lia.
  - apply Forall_insert; [|exact Ha]. eapply Forall_impl; [exact Ia|]. intros [q ?]. destruct q; simpl; auto.
  - intros H1 H2. destruct (Hd H1 H2) as [?|(H3 & H4 & H5)]; [lia|]. specialize (Id H3 H4). lia.
Qed.

Lemma length_remove_first cn l : cn ∈ l -> S (length (PgPool.remove_first cn l)) = length l.
Proof.
  induction l as [|c l IH]; intros Hc; [by apply elem_of_nil in Hc|]. cbn [PgPool.remove_first].
  destruct (Nat.eqb_spec c cn) as [->|Hne]; [done|]. apply elem_of_cons in Hc as [?|Hc]; [congruence|]. simpl. by rewrite IH.
Qed.

(** One goroutine moves. *)
Ltac sticky_moved Hw Ht :=
  eapply (sticky_inv_moved _ _ _ _ _ _ Hw Ht); [reflexivity|..]; cbn in *.

(** The equations of the case, then counting. *)
Ltac sticky_count :=
  repeat match goal with
  | E : ch _ = _ |- _ => rewrite E in *; clear E
  | E : ch_closed _ = _ |- _ => rewrite E in *; clear E
  | E : state _ = _ |- _ => rewrite E in *; clear E
  end; cbn in *;
  try match goal with |- context [state ?w] => destruct (state w) eqn:? end; cbn in *;
  repeat case_bool_decide;
  try first [lia | congruence | intuition (congruence || lia) | match goal with st : pstate |- _ => destruct st; lia end].

Lemma sticky_do_step_inv w t pc r w' : inv w -> threads w !! t = Some (Th pc r) -> do_step t pc w = Some w' -> inv w'.
Proof.
  intros Hw Ht Hs.
  pose proof (i_places _ Hw) as Ip. pose proof (i_close _ Hw) as Ic. pose proof (i_drain _ Hw) as Id.
  assert (Ha : pc_ok (ch_closed w) pc) by exact (proj1 (Forall_lookup _ _) (i_after _ Hw) _ _ Ht).
  pose proof (total_ge (fun th => place (t_pc th)) _ _ _ Ht) as Gp. pose proof (total_ge (fun th => closing (t_pc th)) _ _ _ Ht) as Gc. cbn [t_pc] in Gp, Gc.
  assert (Gq : (place pc <= places w)%nat) by (unfold places; lia). clear Gp.
  destruct pc; cbn [do_step] in Hs; unfold send in Hs; try done;
    repeat match type of Hs with
    | context [if ?b : bool then _ else _] => destruct b eqn:?
    | context [match state w with _ => _ end] => destruct (state w) eqn:?
    | context [match ch w with _ => _ end] => destruct (ch w) eqn:?
    | context [match badConnError w with _ => _ end] => destruct (badConnError w) eqn:?
    end; try done; injection Hs as <-;
    try match goal with E : bool_decide (_ = _) = true |- _ => apply bool_decide_eq_true in E end;
    try match goal with E : bool_decide (_ = _) = false |- _ => apply bool_decide_eq_false in E end;
    sticky_moved Hw Ht; auto; sticky_count.
Qed.

Lemma sticky_step_inv w t a w' : inv w -> step w t a = Some w' -> inv w'.
Proof.
  intros Hw Hs. unfold step in Hs. destruct (threads w !! t) as [[pc r]|] eqn:Ht; [|done]. cbn [mbind option_bind t_pc] in Hs.
  pose proof (i_places _ Hw) as Ip. pose proof (i_close _ Hw) as Ic.
  assert (Ha : pc_ok (ch_closed w) pc) by exact (proj1 (Forall_lookup _ _) (i_after _ Hw) _ _ Ht).
  pose proof (total_ge (fun th => place (t_pc th)) _ _ _ Ht) as Gp. pose proof (total_ge (fun th => closing (t_pc th)) _ _ _ Ht) as Gc. cbn [t_pc] in Gp, Gc.
  destruct a as [c| |cn|e].
  - destruct pc; try done. destruct c; cbn [do_call] in Hs; try (destruct (decide (cn ∈ out w)) as [Hin|Hin]; [rewrite bool_decide_true in Hs by done|by rewrite bool_decide_false in Hs]; pose proof (length_remove_first _ _ Hin));
      injection Hs as <-; sticky_moved Hw Ht; auto; destruct (state w); try lia.
  - eapply sticky_do_step_inv; [exact Hw|exact Ht|by destruct pc].
  - destruct pc; try done. injection Hs as <-. sticky_moved Hw Ht; auto; destruct (state w); try lia.
  - destruct pc; try done. injection Hs as <-. sticky_moved Hw Ht; auto; destruct (state w); try lia.
Qed.

Lemma occ_kept c w : occ c (kept w) = (occ c (out w) + occ c (option_list (ch w)) + total (fun th => occ c (hands (t_pc th))) (threads w))%nat.
Proof. unfold kept. rewrite !PgPool.occ_app, PgPool.occ_concat. lia. Qed.

(** A step keeps the connections, but for what comes from the pool and goes back. *)
Lemma sticky_step_kept w t a w' : step w t a = Some w' ->
  forall c, (occ c (kept w') + occ c (gaves [event w t a]) = occ c (kept w) + occ c (gots [event w t a]))%nat.
Proof.
  intros Hs c. unfold step, event in *. destruct (threads w !! t) as [[pc r]|] eqn:Ht; [|done]. cbn [mbind option_bind t_pc fmap option_fmap option_map] in *.
  rewrite !occ_kept. pose proof (fun q o => total_insert (fun th => occ c (hands (t_pc th))) _ _ _ (Th q o) Ht) as E. cbn [t_pc] in E.
  destruct a as [k| |cn|e].
  - destruct pc; try done. destruct k; cbn [do_call] in Hs;
      try (destruct (decide (cn ∈ out w)) as [Hin|Hin]; [rewrite bool_decide_true in Hs by done|by rewrite bool_decide_false in Hs];
           pose proof (PgPool.occ_remove c _ _ Hin));
      injection Hs as <-; cbn in *; match goal with |- context [<[_ := Th ?q ?o]> _] => specialize (E q o) end; cbn in *; lia.
  - destruct pc; cbn [do_step] in Hs; unfold send in Hs; try done;
    repeat match type of Hs with
    | context [if ?b : bool then _ else _] => destruct b eqn:?
    | context [match state w with _ => _ end] => destruct (state w) eqn:?
    | context [match ch w with _ => _ end] => destruct (ch w) eqn:?
    | context [match badConnError w with _ => _ end] => destruct (badConnError w) eqn:?
    end; try done; injection Hs as <-; cbn in *; match goal with |- context [<[_ := Th ?q ?o]> _] => specialize (E q o) end; cbn in *;
    repeat match goal with H : ch _ = _ |- _ => rewrite H in *; clear H end; cbn in *; lia.
  - destruct pc; try done. injection Hs as <-. cbn in *. match goal with |- context [<[_ := Th ?q ?o]> _] => specialize (E q o) end. cbn in *. lia.
  - destruct pc; try done. injection Hs as <-. cbn in *. match goal with |- context [<[_ := Th ?q ?o]> _] => specialize (E q o) end. cbn in *. lia.
Qed.

Lemma occ_gots_cons c ev tr : occ c (gots (ev :: tr)) = (occ c (gots [ev]) + occ c (gots tr))%nat.
Proof. unfold gots. by rewrite !bind_cons, app_nil_r, PgPool.occ_app. Qed.
Lemma occ_gaves_cons c ev tr : occ c (gaves (ev :: tr)) = (occ c (gaves [ev]) + occ c (gaves tr))%nat.
Proof. unfold gaves. by rewrite !bind_cons, app_nil_r, PgPool.occ_app. Qed.

Lemma new_sticky_inv n : inv (NewStickyConnPool n).
Proof.
  unfold NewStickyConnPool. split; cbn; unfold places; cbn; rewrite ?total_replicate; simpl; try lia; try done. by apply Forall_replicate.
Qed.

Lemma places_le w : inv w -> (places w <= 1)%nat.
Proof. intros [Ip _ _ _]. destruct (state w); lia. Qed.

(** Only the receive of [Get] waits. *)
Lemma sticky_blocks w t q r : inv w -> threads w !! t = Some (Th q r) -> q <> Idle -> (forall i, q <> GPool i) ->
  do_step t q w = None -> q = GRecv /\ ch w = None /\ ch_closed w = false.
Proof.
  intros Hi Ht H1 H2 Hs. pose proof (places_le w Hi) as Hp. unfold places in Hp.
  pose proof (total_ge (fun th => place (t_pc th)) _ _ _ Ht) as E. cbn [t_pc] in E.
  pose proof (proj1 (Forall_lookup _ _) (i_after _ Hi) _ _ Ht) as Ha. cbn [t_pc] in Ha.
  destruct q; cbn [do_step] in Hs; unfold send in Hs; try done; try (by destruct (H2 i)).
  - destruct (ch w); [done|]. by destruct (ch_closed w).
  - destruct (ch_closed w); [done|]. destruct (ch w); [simpl in *; lia|done].
  - destruct (ch_closed w); [done|]. destruct (ch w); [simpl in *; lia|done].
  - destruct (ch w); [done|]. cbn in Ha. by rewrite Ha in Hs.
Qed.

Lemma total_zero {A} (f : A -> nat) l : Forall (fun x => f x = 0%nat) l -> total f l = 0%nat.
Proof. induction 1; simpl; lia. Qed.

(** A closed pool that nobody uses is empty. *)
Lemma sticky_drained w : inv w -> state w = stateClosed -> Forall (fun th => t_pc th = Idle) (threads w) -> out w = [] -> kept w = [].
Proof.
  intros [Ip Ic Ia Id] Hc Hq Ho.
  assert (Hz : forall f : pc -> nat, f Idle = 0%nat -> total (fun th => f (t_pc th)) (threads w) = 0%nat).
  { intros f Hf. apply total_zero. eapply Forall_impl; [exact Hq|]. cbv beta. by intros th ->. }
  rewrite (Hz closing), Hc in Ic by done. rewrite bool_decide_true in Ic by done. rewrite (Hz draining) in Id by done.
  assert (Hch : ch w = None) by (destruct (ch w); [|done]; destruct (ch_closed w); [|lia]; specialize (Id eq_refl); lia || (exfalso; apply (Nat.lt_irrefl 0), Id; done)).
  unfold kept. rewrite Ho, Hch. simpl. clear -Hq. induction Hq as [|th ts Hth _ IH]; [done|]. by rewrite bind_cons, Hth.
Qed.

Section Sticky.
Context {P : Type} `{Pooler P}.

(** The two pools together: the events of the sticky pool are steps of the pool
    underneath, which has other clients too. *)
Inductive reach (n : nat) (p0 : P) : StickyConnPool -> P -> list pevent -> Prop :=
| reach_init : reach n p0 (NewStickyConnPool n) p0 []
| reach_step w p tr t a w' p' : reach n p0 w p tr -> step w t a = Some w' -> pstep p (event w t a) p' ->
    reach n p0 w' p' (event w t a :: tr)
| reach_other w p tr ev p' : reach n p0 w p tr -> pstep p ev p' -> (forall cn, ev = PGave cn -> cn ∉ kept w) ->
    reach n p0 w p' tr.

(** The connections that the sticky pool keeps are lent by the pool underneath, each is
    kept once, and the events account for them. *)
Definition backed (w : StickyConnPool) (p : P) (tr : list pevent) : Prop :=
  good p /\ forall c, (occ c (kept w) <= 1)%nat /\ ((0 < occ c (kept w))%nat -> lent p c) /\
    occ c (gots tr) = (occ c (gaves tr) + occ c (kept w))%nat.

Lemma sticky_reach_inv n p0 w p tr : good p0 -> reach n p0 w p tr -> inv w /\ backed w p tr.
Proof.
  intros H0. induction 1 as [|w p tr t a w' p' Hr [IH [Hg Hb]] Hs Hp|w p tr ev p' Hr [IH [Hg Hb]] Hp Hev].
  - split; [apply new_sticky_inv|]. split; [done|]. intros c. rewrite occ_kept. cbn. rewrite total_replicate. simpl. lia.
  - split; [by eapply sticky_step_inv|]. split; [by eapply pstep_good|]. intros c. destruct (Hb c) as (B1 & B2 & B3).
    rewrite occ_gots_cons, occ_gaves_cons. pose proof (sticky_step_kept _ _ _ _ Hs c) as E.
    destruct (event w t a) as [cn|cn|].
    + destruct (pstep_got _ _ _ Hg Hp) as [N1 N2]. cbn in E |- *. rewrite N2. destruct (Nat.eqb_spec cn c) as [->|Hne].
      * destruct (occ c (kept w)) eqn:Eo; [|exfalso; apply N1, B2; lia]. split_and!; [lia|auto|lia].
      * split_and!; [lia|intros ?; right; apply B2; lia|lia].
    + destruct (pstep_gave _ _ _ Hg Hp) as [N1 N2]. cbn in E |- *. rewrite N2. destruct (Nat.eqb_spec cn c) as [->|Hne].
      * split_and!; lia.
      * split_and!; [lia|intros ?; split; [done|apply B2; lia]|lia].
    + cbn in E |- *. rewrite (pstep_tau _ _ Hg Hp). split_and!; [lia|intros ?; apply B2; lia|lia].
  - split; [done|]. split; [by eapply pstep_good|]. intros c. destruct (Hb c) as (B1 & B2 & B3). split_and!; [done| |done].
    intros Hc. specialize (B2 Hc). destruct ev as [cn|cn|].
    + apply (pstep_got _ _ _ Hg Hp). by right.
    + apply (pstep_gave _ _ _ Hg Hp). split; [|done]. intros ->. apply (Hev cn eq_refl). by apply PgPool.occ_pos.
    + by apply (pstep_tau _ _ Hg Hp).
Qed.

(** C22: In every interleaving of the methods of a sticky pool over a pool that lends
    each connection to one client at a time, at most one connection is with a client
    or in the channel, each connection it keeps is lent to it and kept in one place,
    and those it was given are those it gave back and those it keeps. Put, Remove,
    Reset and Close never wait, the channel is not closed twice, Get waits only for
    the channel, and once the pool is closed, no method runs and no client has a
    connection, all of them are back. *)
Theorem sticky_pool (n : nat) (p0 : P) (w : StickyConnPool) (p : P) (tr : list pevent) :
  good p0 -> reach n p0 w p tr ->
  (length (out w) + length (option_list (ch w)) <= 1)%nat /\
  NoDup (kept w) /\ (forall cn, cn ∈ kept w -> lent p cn) /\ gots tr ≡ₚ gaves tr ++ kept w /\
  (forall t th, threads w !! t = Some th -> t_pc th <> Idle -> (forall i, t_pc th <> GPool i) -> step w t AStep = None ->
     t_pc th = GRecv /\ ch w = None /\ ch_closed w = false) /\
  (forall t th, threads w !! t = Some th -> t_pc th = CClose -> ch_closed w = false) /\
  (state w = stateClosed -> Forall (fun th => t_pc th = Idle) (threads w) -> out w = [] -> gots tr ≡ₚ gaves tr).
Proof.
  intros H0 Hr. destruct (sticky_reach_inv _ _ _ _ _ H0 Hr) as [Hi [_ Hb]].
  assert (Hperm : gots tr ≡ₚ gaves tr ++ kept w) by (apply PgPool.occ_Permutation; intros c; rewrite PgPool.occ_app; apply Hb).
  pose proof (places_le w Hi) as Hp. split_and!.
  - unfold places in Hp. lia.
  - apply PgPool.occ_NoDup. intros c. apply Hb.
  - intros cn Hc%PgPool.occ_pos. by apply Hb.
  - done.
  - intros t [q r] Ht H1 H2 Hs. unfold step in Hs. rewrite Ht in Hs. cbn [mbind option_bind t_pc] in *. by apply (sticky_blocks w t q r Hi Ht).
  - intros t [q r] Ht Hq. cbn in Hq. subst q. pose proof (i_close _ Hi) as Ic.
    pose proof (total_ge (fun th => closing (t_pc th)) _ _ _ Ht) as E. cbn in E. destruct (ch_closed w); [|done]. case_bool_decide; lia.
  - intros Hc Hq Ho. rewrite Hperm. rewrite (sticky_drained w Hi Hc Hq Ho). by rewrite app_nil_r.
Qed.

End Sticky.
(** ** The connection pool is such a pool *)

Section ConnPool.
Context (opt : PgPool.Options).
Import PgPool.

(** The step seen from the clients: [Get] has given a connection, or a client calls
    [Put] or [Remove]. *)
Definition label (w : world) (t : nat) (a : PgPool.action) (w' : world) : pevent :=
  match a with
  | PgPool.ACall (CPut cn) | PgPool.ACall (CRemove cn) => PGave cn
  | PgPool.AStep =>
      match PgPool.threads w !! t, PgPool.threads w' !! t with
      | Some th, Some th' =>
          if (length (held th) <? length (held th'))%nat
          then match last (held th') with Some (cn, true) => PGot cn | _ => PTau end
          else PTau
      | _, _ => PTau
      end
  | _ => PTau
  end.

(** What a step does to what the goroutines hold. *)
Inductive held_move (w : world) (t : nat) (a : PgPool.action) (w' : world) : Prop :=
| held_same th th' k q : PgPool.threads w !! t = Some th -> PgPool.threads w' = <[t := th']> (PgPool.threads w) ++ replicate k (PgPool.Th q [] PgPool.RNone) ->
    held th' = held th -> label w t a w' = PTau -> held_move w t a w'
| held_more th th' k q cn b : PgPool.threads w !! t = Some th -> PgPool.threads w' = <[t := th']> (PgPool.threads w) ++ replicate k (PgPool.Th q [] PgPool.RNone) ->
    held th' = held th ++ [(cn, b)] -> cn ∈ pc_owned (PgPool.t_pc th) ->
    label w t a w' = (if b : bool then PGot cn else PTau) -> held_move w t a w'
| held_less th th' k q cn b : PgPool.threads w !! t = Some th -> PgPool.threads w' = <[t := th']> (PgPool.threads w) ++ replicate k (PgPool.Th q [] PgPool.RNone) ->
    take_held cn (held th) = Some (b, held th') ->
    label w t a w' = (if b : bool then PGave cn else PTau) -> held_move w t a w'.

Lemma label_same w t th th' l : PgPool.threads w !! t = Some th -> held th' = held th ->
  forall w', PgPool.threads w' = <[t := th']> (PgPool.threads w) ++ l -> label w t PgPool.AStep w' = PTau.
Proof.
  intros Ht Hh w' Hw. unfold label. rewrite Ht, Hw. pose proof (lookup_lt_Some _ _ _ Ht) as Hl.
  rewrite lookup_app_l by (by rewrite length_insert). rewrite list_lookup_insert_eq by done. by rewrite Hh, Nat.ltb_irrefl.
Qed.
Lemma label_more w t th th' l cn b : PgPool.threads w !! t = Some th -> held th' = held th ++ [(cn, b)] ->
  forall w', PgPool.threads w' = <[t := th']> (PgPool.threads w) ++ l -> label w t PgPool.AStep w' = (if b then PGot cn else PTau).
Proof.
  intros Ht Hh w' Hw. unfold label. rewrite Ht, Hw. pose proof (lookup_lt_Some _ _ _ Ht) as Hl.
  rewrite lookup_app_l by (by rewrite length_insert). rewrite list_lookup_insert_eq by done. rewrite Hh, length_app.
  rewrite (proj2 (Nat.ltb_lt _ _)) by (simpl; lia). rewrite last_snoc. by destruct b.
Qed.

Definition quiet_action (a : PgPool.action) : bool :=
  match a with PgPool.AStep | PgPool.ACall (CPut _) | PgPool.ACall (CRemove _) => false | _ => true end.

Lemma held_same_step w t a th th' k q w' : PgPool.threads w !! t = Some th -> (a = PgPool.AStep \/ quiet_action a = true) ->
  PgPool.threads w' = <[t := th']> (PgPool.threads w) ++ replicate k (PgPool.Th q [] PgPool.RNone) -> held th' = held th -> held_move w t a w'.
Proof.
  intros Ht Ha Hw Hh. eapply held_same; try done. destruct Ha as [-> |Ha]; [by eapply label_same|].
  destruct a as [[| | | | | | |]| | | | | |]; done.
Qed.
Lemma held_same_step0 w t a th th' w' : PgPool.threads w !! t = Some th -> (a = PgPool.AStep \/ quiet_action a = true) ->
  PgPool.threads w' = <[t := th']> (PgPool.threads w) -> held th' = held th -> held_move w t a w'.
Proof. intros Ht Ha Hw Hh. eapply (held_same_step w t a th th' 0 Idle); try done. by rewrite Hw, app_nil_r. Qed.
Lemma held_more_step0 w t th th' cn b w' : PgPool.threads w !! t = Some th -> PgPool.threads w' = <[t := th']> (PgPool.threads w) ->
  held th' = held th ++ [(cn, b)] -> cn ∈ pc_owned (PgPool.t_pc th) -> held_move w t PgPool.AStep w'.
Proof.
  intros Ht Hw Hh Hc. eapply (held_more w t _ w' th th' 0 Idle cn b); try done; [by rewrite Hw, app_nil_r|].
  eapply (label_more w t th th' []); try done. by rewrite Hw, app_nil_r.
Qed.
Lemma held_less_step0 w t a th th' cn b w' : PgPool.threads w !! t = Some th -> PgPool.threads w' = <[t := th']> (PgPool.threads w) ->
  take_held cn (held th) = Some (b, held th') -> label w t a w' = (if b then PGave cn else PTau) -> held_move w t a w'.
Proof. intros Ht Hw Hh Hl. eapply (held_less w t a w' th th' 0 Idle cn b); try done. by rewrite Hw, app_nil_r. Qed.

Ltac held_move Ht :=
  first [ eapply (held_same_step0 _ _ _ _ _ _ Ht); [by auto|reflexivity|reflexivity]
        | eapply (held_same_step _ _ _ _ _ _ _ _ Ht); [by auto|reflexivity|reflexivity]
        | eapply (held_more_step0 _ _ _ _ _ _ _ Ht); [reflexivity|reflexivity|by apply list_elem_of_singleton] ].

Lemma do_step_held w t th w' : PgPool.threads w !! t = Some th -> PgPool.do_step opt w t th = Some w' -> held_move w t PgPool.AStep w'.
Proof.
  intros Ht Hs. destruct th as [pc h r0]. unfold PgPool.do_step in Hs. destruct pc; cbn [PgPool.t_pc] in Hs; try done;
    unfold free_turn, take_turn in Hs;
    repeat match type of Hs with
    | (let '(_, _) := ?x in _) = _ => destruct x as [[? ?] ?] eqn:? || destruct x as [? ?] eqn:?
    | context [match queue (PgPool.pool w) with _ => _ end] => destruct (queue (PgPool.pool w))
    | context [if ?b : bool then _ else _] => destruct b
    | context [match ?o : option _ with _ => _ end] => destruct o
    end; try done; injection Hs as <-; unfold fail_dial; try held_move Ht.
  destruct turn; held_move Ht.
Qed.

Lemma step_held w t a w' : PgPool.step opt w t a = Some w' -> held_move w t a w'.
Proof.
  intros Hs. unfold PgPool.step in Hs. destruct (PgPool.threads w !! t) as [th|] eqn:Ht; [|done]. cbn [mbind option_bind] in Hs.
  destruct a as [c| | | | |e|].
  - destruct th as [pc h r0]. cbn [PgPool.t_pc] in Hs. destruct pc; try done. destruct c; cbn [PgPool.do_call held] in Hs.
    + injection Hs as <-. held_move Ht.
    + injection Hs as <-. held_move Ht.
    + destruct (take_held cn h) as [[[] r]|] eqn:E; try done. injection Hs as <-. by eapply (held_less_step0 _ _ _ _ _ cn true _ Ht).
    + destruct (take_held cn h) as [[[] r]|] eqn:E; try done. injection Hs as <-. by eapply (held_less_step0 _ _ _ _ _ cn true _ Ht).
    + destruct (take_held cn h) as [[[] r]|] eqn:E; try done. injection Hs as <-. by eapply (held_less_step0 _ _ _ _ _ cn false _ Ht).
    + destruct (closed _); injection Hs as <-; held_move Ht.
    + injection Hs as <-. eapply (held_same_step0 _ _ _ _ _ _ Ht); [by auto| |reflexivity]. cbn. by rewrite list_insert_id.
    + destruct (bool_decide _); [|done]. injection Hs as <-. eapply (held_same_step0 _ _ _ _ _ _ Ht); [by auto| |reflexivity]. cbn. by rewrite list_insert_id.
  - by eapply do_step_held.
  - destruct th as [pc h r0]. destruct pc; try done; injection Hs as <-; held_move Ht.
  - destruct th as [pc h r0]. destruct pc; try done; injection Hs as <-; held_move Ht.
  - destruct th as [pc h r0]. unfold do_dial in Hs. destruct pc; try done; injection Hs as <-; held_move Ht.
  - destruct th as [pc h r0]. unfold do_dial_fail, dial_failed, fail_dial in Hs. destruct pc; cbn [PgPool.t_pc] in Hs; try done; injection Hs as <-; try held_move Ht.
    destruct turn; held_move Ht.
  - destruct th as [pc h r0]. destruct pc; try done; injection Hs as <-; destruct (closed _); held_move Ht.
Qed.

(** How often a connection is with a client that got it from [Get]. *)
Definition tocc (c : nat) (h : list (nat * bool)) : nat := total (fun x => if x.2 && (x.1 =? c)%nat then 1 else 0)%nat h.
Definition lent_count (w : world) (c : nat) : nat := total (fun th => tocc c (held th)) (PgPool.threads w).

Lemma tocc_app c h1 h2 : tocc c (h1 ++ h2) = (tocc c h1 + tocc c h2)%nat.
Proof. apply sum_list_with_app. Qed.
Lemma tocc_le c h : (tocc c h <= occ c h.*1)%nat.
Proof. unfold tocc. induction h as [|[x b] h IH]; [done|]. cbn [sum_list_with fmap list_fmap fst snd PgPool.occ]. destruct b; simpl; lia. Qed.
Lemma tocc_owned c th : (tocc c (held th) <= occ c (owned th))%nat.
Proof. unfold owned. rewrite PgPool.occ_app. pose proof (tocc_le c (held th)). lia. Qed.
Lemma tocc_take cn h b r c : take_held cn h = Some (b, r) -> tocc c h = (tocc c r + if b && (cn =? c)%nat then 1 else 0)%nat.
Proof.
  revert r. induction h as [|[x b0] h IH]; intros r E; [done|]. cbn [take_held] in E. unfold tocc in *. cbn [sum_list_with fst snd].
  destruct (Nat.eqb_spec x cn) as [->|Hne]; [injection E as <- <-; lia|].
  destruct (take_held cn h) as [[b1 r1]|]; [|done]. injection E as <- <-. rewrite (IH r1 eq_refl). cbn [sum_list_with fst snd]. lia.
Qed.

Lemma lent_once w c : PgPool.inv opt w -> (lent_count w c <= 1)%nat.
Proof.
  intros [[_ _ Eo] _]. specialize (Eo c). unfold lent_count.
  assert (E : forall l, (total (fun th => tocc c (held th)) l <= total (fun th => occ c (owned th)) l)%nat).
  { induction l as [|th l IH]; [done|]. cbn [sum_list_with]. pose proof (tocc_owned c th). lia. }
  specialize (E (PgPool.threads w)). destruct (c <? _)%nat; lia.
Qed.

Lemma lent_moved w w' t th th' k q c : PgPool.threads w !! t = Some th ->
  PgPool.threads w' = <[t := th']> (PgPool.threads w) ++ replicate k (PgPool.Th q [] PgPool.RNone) ->
  (lent_count w' c + tocc c (held th) = lent_count w c + tocc c (held th'))%nat.
Proof.
  intros Ht Hw. unfold lent_count. rewrite Hw, sum_list_with_app, total_replicate.
  pose proof (total_insert (fun th => tocc c (held th)) _ _ _ th' Ht) as E. cbv beta in E. simpl. lia.
Qed.

Lemma step_lent w t a w' : PgPool.inv opt w -> PgPool.step opt w t a = Some w' ->
  forall c, match label w t a w' with
            | PGot cn => lent_count w cn = 0%nat /\ lent_count w' c = (lent_count w c + if (cn =? c)%nat then 1 else 0)%nat
            | PGave cn => (0 < lent_count w cn)%nat /\ lent_count w c = (lent_count w' c + if (cn =? c)%nat then 1 else 0)%nat
            | PTau => lent_count w' c = lent_count w c
            end.
Proof.
  intros Hw Hs c. destruct (step_held _ _ _ _ Hs) as [th th' k q Ht Hts Hh El|th th' k q cn b Ht Hts Hh Ho El|th th' k q cn b Ht Hts Hh El];
    rewrite El; pose proof (lent_moved w w' t th th' k q c Ht Hts) as E.
  - rewrite Hh in E. lia.
  - rewrite Hh, tocc_app in E. unfold tocc in E at 3. cbn [sum_list_with fst snd] in E. destruct b; simpl in E; [|lia]. split; [|lia].
    pose proof (e_owner _ _ (proj1 Hw) cn) as Eo. unfold lent_count.
    pose proof (total_gap (fun th => tocc cn (held th)) (fun th => occ cn (owned th)) _ _ _ (tocc_owned cn) Ht) as Hg. cbv beta in Hg.
    unfold owned in Hg at 1. rewrite PgPool.occ_app in Hg. pose proof (tocc_le cn (held th)). apply PgPool.occ_pos in Ho. destruct (cn <? _)%nat; lia.
  - rewrite (tocc_take cn _ _ _ c Hh) in E. destruct b; simpl in E; [|lia]. split; [|lia].
    pose proof (total_ge (fun th => tocc cn (held th)) _ _ _ Ht) as Hg. cbv beta in Hg. rewrite (tocc_take cn _ _ _ cn Hh), Nat.eqb_refl in Hg.
    unfold lent_count. simpl in Hg. lia.
Qed.

(** The steps of the pool, and time. *)
Definition pool_pstep (w : world) (ev : pevent) (w' : world) : Prop :=
  (exists t a, PgPool.step opt w t a = Some w' /\ label w t a w' = ev) \/ (ev = PTau /\ exists d, 0 <= d /\ w' = advance d w).

#[export] Program Instance ConnPool_Pooler : Pooler world := {
  good := PgPool.inv opt;
  lent w c := (0 < lent_count w c)%nat;
  pstep := pool_pstep
}.
Next Obligation.
  intros w ev w' Hw [(t & a & Hs & _)|(_ & d & Hd & ->)]; [by eapply pool_step_inv|].
  apply (pool_reach_inv opt w); [done|]. apply PgPool.reach_time; [constructor|done].
Qed.
Next Obligation.
  intros w cn w' Hw [(t & a & Hs & El)|(? & _)]; [|done]. pose proof (step_lent w t a w' Hw Hs) as E. rewrite El in E.
  split; [destruct (E cn); lia|]. intros c. destruct (E c) as [_ ->]. destruct (Nat.eqb_spec cn c); [split; [auto|lia]|].
  rewrite Nat.add_0_r. split; [auto|]. intros [?|?]; [congruence|done].
Qed.
Next Obligation.
  intros w cn w' Hw [(t & a & Hs & El)|(? & _)]; [|done]. pose proof (step_lent w t a w' Hw Hs) as E. rewrite El in E.
  split; [apply (E cn)|]. intros c. destruct (E c) as [_ Ec]. pose proof (lent_once w c Hw). destruct (Nat.eqb_spec cn c); lia.
Qed.
Next Obligation.
  intros w w' Hw [(t & a & Hs & El)|(_ & d & Hd & ->)]; [|done]. intros c. pose proof (step_lent w t a w' Hw Hs c) as E. rewrite El in E. by rewrite E.
Qed.

End ConnPool.
(** ** Runs *)

#[export] Instance pevent_eq_dec : EqDecision pevent.
Proof. solve_decision. Defined.

(** A run of the two pools: steps of the connection pool on its own, and steps of the
    sticky pool with the step of the connection pool that goes with it. *)
Inductive item := Under (t : nat) (a : PgPool.action) | Over (t : nat) (a : action) (u : option (nat * PgPool.action)).

Definition run_item (opt : PgPool.Options) (x : item) (s : StickyConnPool * PgPool.world * list pevent) :
    option (StickyConnPool * PgPool.world * list pevent) :=
  let '(w, p, tr) := s in
  match x with
  | Under t a => p' ← PgPool.step opt p t a; if bool_decide (label p t a p' = PTau) then Some (w, p', tr) else None
  | Over t a None => w' ← step w t a; if bool_decide (event w t a = PTau) then Some (w', PgPool.advance 0 p, event w t a :: tr) else None
  | Over t a (Some (u, b)) =>
      w' ← step w t a; p' ← PgPool.step opt p u b;
      if bool_decide (label p u b p' = event w t a) then Some (w', p', event w t a :: tr) else None
  end.
Fixpoint run_items (opt : PgPool.Options) (xs : list item) (s : StickyConnPool * PgPool.world * list pevent) :
    option (StickyConnPool * PgPool.world * list pevent) :=
  match xs with [] => Some s | x :: xs' => s' ← run_item opt x s; run_items opt xs' s' end.

Lemma run_item_reach opt n p0 x w p tr w' p' tr' : reach (H := ConnPool_Pooler opt) n p0 w p tr ->
  run_item opt x (w, p, tr) = Some (w', p', tr') -> reach (H := ConnPool_Pooler opt) n p0 w' p' tr'.
Proof.
  intros Hr E. destruct x as [t a|t a [[u b]|]]; cbn [run_item] in E.
  - destruct (PgPool.step opt p t a) as [q|] eqn:Es; [|done]. cbn [mbind option_bind] in E. case_bool_decide as Hl; [|done].
    injection E as <- <- <-. eapply (reach_other _ _ _ _ _ PTau); [exact Hr| |intros cn [=]]. left. by eauto.
  - destruct (step w t a) as [w1|] eqn:Ew; [|done]. cbn [mbind option_bind] in E.
    destruct (PgPool.step opt p u b) as [q|] eqn:Es; [|done]. cbn [mbind option_bind] in E. case_bool_decide as Hl; [|done].
    injection E as <- <- <-. eapply reach_step; [exact Hr|exact Ew|]. left. by eauto.
  - destruct (step w t a) as [w1|] eqn:Ew; [|done]. cbn [mbind option_bind] in E. case_bool_decide as Hl; [|done].
    injection E as <- <- <-. eapply reach_step; [exact Hr|exact Ew|]. rewrite Hl. right. split; [done|]. by exists 0.
Qed.
Lemma run_items_reach opt n p0 xs w p tr w' p' tr' : reach (H := ConnPool_Pooler opt) n p0 w p tr ->
  run_items opt xs (w, p, tr) = Some (w', p', tr') -> reach (H := ConnPool_Pooler opt) n p0 w' p' tr'.
Proof.
  revert w p tr. induction xs as [|x xs IH]; intros w p tr Hr E; cbn [run_items] in E; [by injection E as <- <- <-|].
  destruct (run_item opt x (w, p, tr)) as [[[w1 p1] tr1]|] eqn:E1; [|done]. eapply IH; [|exact E]. by eapply run_item_reach.
Qed.

Definition over (t : nat) (n : nat) : list item := replicate n (Over t AStep None).
Definition under (t : nat) (n : nat) : list item := replicate n (Under t PgPool.AStep).

(** A goroutine gets a connection and puts it back, another one gets it and puts it
    back, the first closes the sticky pool. *)
Definition demo_items : list item :=
  [Over 0 (ACall SGet) None] ++ over 0 1 ++ [Under 0 (PgPool.ACall PgPool.CGet)] ++ under 0 4 ++ [Under 0 PgPool.ADial;
   Over 0 (AGot 0) (Some (0%nat, PgPool.AStep))] ++ over 0 1 ++ [Over 0 (ACall (SPut 0)) None] ++ over 0 1 ++
  [Over 1 (ACall SGet) None] ++ over 1 3 ++ [Over 1 (ACall (SPut 0)) None] ++ over 1 1 ++
  [Over 0 (ACall SClose) None] ++ over 0 6 ++ [Over 0 AStep (Some (0%nat, PgPool.ACall (PgPool.CPut 0)))].
Definition demo_start : PgPool.world := PgPool.NewConnPool PgPool.demo_opt 2 0.
Definition demo_end : StickyConnPool * PgPool.world * list pevent :=
  default (NewStickyConnPool 2, demo_start, []) (run_items PgPool.demo_opt demo_items (NewStickyConnPool 2, demo_start, [])).

Lemma sticky_pool_witness : state demo_end.1.1 = stateClosed /\ gots demo_end.2 = [0%nat] /\ gots demo_end.2 ≡ₚ gaves demo_end.2.
Proof.
  split; [vm_compute; reflexivity|]. split; [vm_compute; reflexivity|].
  refine (proj2 (proj2 (proj2 (proj2 (proj2 (proj2 (sticky_pool (H := ConnPool_Pooler PgPool.demo_opt) 2 demo_start demo_end.1.1 demo_end.1.2 demo_end.2 _ _)))))) _ _ _).
  - apply PgPool.new_inv. vm_compute. discriminate.
  - eapply (run_items_reach PgPool.demo_opt 2 demo_start demo_items); [apply reach_init|]. vm_compute. reflexivity.
  - vm_compute. reflexivity.
  - vm_compute. repeat (apply List.Forall_cons; [reflexivity|]). apply List.Forall_nil.
  - vm_compute. reflexivity.
Defined.

Definition steps (t : nat) (n : nat) : list (nat * action) := replicate n (t, AStep).
(** Goroutine 0 has the connection, goroutine 1 waits for it. *)
Definition waiting : list (nat * action) :=
  [(0%nat, ACall SGet)] ++ steps 0 1 ++ [(0%nat, AGot 0)] ++ steps 0 1 ++ [(1%nat, ACall SGet)] ++ steps 1 2.

(** The connection that goroutine 0 removes as a bad one goes to goroutine 1, which has
    looked at the error before it waits. *)
Example bad_conn_handed_out : exists w,
  run (NewStickyConnPool 2) (waiting ++ [(0%nat, ACall (SRemove 0 (Some 5)))] ++ steps 0 2 ++ steps 1 1) = Some w /\
  badConnError w = Some 5 /\ out w = [0%nat] /\ ret <$> threads w !! 1%nat = Some (RConn 0).
Proof. eexists. split; [vm_compute; reflexivity|]. done. Qed.

(** When goroutine 0 resets the pool instead, goroutine 1 waits for a connection that
    does not exist, though the pool would get a new one for any other [Get]. *)
Example reset_strands_get : exists w,
  run (NewStickyConnPool 2) (waiting ++ [(0%nat, ACall (SRemove 0 (Some 5)))] ++ steps 0 2 ++ [(0%nat, ACall SReset)] ++ steps 0 5) = Some w /\
  state w = stateDefault /\ kept w = [] /\ t_pc <$> threads w !! 0%nat = Some Idle /\ step w 1 AStep = None.
Proof. eexists. split; [vm_compute; reflexivity|]. done. Qed.

(** ** [SingleConnPool] *)

Record SingleConnPool := SC { cn : option nat; stickyErr : option error }.
Definition NewSingleConnPool (c : nat) : SingleConnPool := SC (Some c) None.
Definition SingleGet (p : SingleConnPool) : option nat * option error :=
  match stickyErr p with Some e => (None, Some e) | None => (cn p, None) end.
Definition SinglePut (c : nat) (p : SingleConnPool) : SingleConnPool := p.
(** [ctx] is [None] when it is nil, else its error. *)
Definition SingleRemove (ctx : option (option error)) (c : nat) (reason : option error) (p : SingleConnPool) : SingleConnPool :=
  SC None (match reason, ctx with None, Some e => e | _, _ => reason end).
Definition SingleClose (p : SingleConnPool) : SingleConnPool := SC None (Some ErrClosed).

(** It gives its connection until it is removed or closed, and the error from then on,
    if there is one. *)
Lemma single_spec c ops p : p = foldl (fun p (f : SingleConnPool -> SingleConnPool) => f p) (NewSingleConnPool c) ops ->
  Forall (fun f => f = SingleClose \/ f = SinglePut c \/ exists ctx e, f = SingleRemove ctx c (Some e)) ops ->
  SingleGet p = (Some c, None) \/ exists e, SingleGet p = (None, Some e).
Proof.
  intros -> Hops. enough (forall q, q = NewSingleConnPool c \/ (exists e, q = SC None (Some e)) -> let p := foldl (fun p (f : SingleConnPool -> SingleConnPool) => f p) q ops in
    SingleGet p = (Some c, None) \/ exists e, SingleGet p = (None, Some e)) by auto.
  induction Hops as [|f ops Hf _ IH]; intros q Hq; [destruct Hq as [-> |[e ->]]; cbn; eauto|]. cbn [foldl]. apply IH.
  destruct Hf as [-> |[-> |(ctx & e & ->)]]; cbn; eauto.
Qed.
(** Removed with neither a reason nor an error of the context: no connection, no error. *)
Example single_remove_nil : SingleGet (SingleRemove (Some None) 3 None (NewSingleConnPool 3)) = (None, None).
Proof. done. Qed.

End PgSticky.
