(* ===== verification/PgSession.v ===== *)
(** * Queries, transactions and retries ([src/upg/base.go], [tx.go], [stmt.go], [error.go])

    What lies between the client and the messages: which errors are tried again and
    which make a connection useless, the pauses between attempts, the loan of a
    connection with its canceller, and transactions, which keep one connection of the
    pool in a sticky pool. What the server and the network do (a connection or an error
    of the pool, the error of a query, a cancelled context) is an input. *)
From stdpp Require Import base numbers list strings.
From S2P Require Import Prelude PgPool PgSticky.
#[local] Open Scope Z_scope.

Module PgSession.

(** ** Errors *)

Abbreviation str := (list Z).

(** [EInternal]: errors of the package; [EPg]: errors of the server, by severity and
    code; [ETimeout]: errors with a method [Timeout]; [EWrapped]: errors around another. *)
Inductive err :=
| EEOF | EUnexpectedEOF | ECanceled | EDeadlineExceeded
| EInternal
| EPg (severity code : str)
| ETimeout
| EClosed
| EBadConn (reason : err)
| EWrapped (e : err)
| ENoConn | EState
| ETxDone | EStmtClosed
| EOther (n : Z).
#[export] Instance err_eq_dec : EqDecision err.
Proof. solve_decision. Defined.

Definition is_code (c : string) (code : str) : bool := bool_decide (code = bs c).

Definition isBadConn (e : option err) : bool * str :=
  match e with
  | None => (false, [])
  | Some EInternal => (false, [])
  | Some (EPg severity code) =>
      if is_code "FATAL" severity || is_code "PANIC" severity then (true, [])
      else if is_code "25P02" code then (true, bs "25P02")
      else if is_code "57014" code then (true, bs "57014")
      else (false, [])
  | Some _ => (true, [])
  end.

Definition shouldRetry (retryStatementTimeout : bool) (e : option err) : bool :=
  match e with
  | Some EEOF | Some EUnexpectedEOF => true
  | None | Some ECanceled | Some EDeadlineExceeded => false
  | Some (EPg _ code) =>
      if is_code "40001" code || is_code "53300" code || is_code "55000" code then true
      else if is_code "57014" code then retryStatementTimeout else false
  | Some ETimeout => true
  | Some _ => false
  end.

Definition unwrap (e : err) : option err :=
  match e with EBadConn r => Some r | EWrapped e' => Some e' | _ => None end.

(** ** Pauses *)

(** [time.Duration] is 64 bits wide. *)
Definition wrap64 (z : Z) : Z := (z + 2 ^ 63) mod 2 ^ 64 - 2 ^ 63.

(** [draw n] is [rand.Int63n(n)], which panics unless [n] is positive: [None]. *)
Definition Int63n (draw : Z -> Z) (n : Z) : option Z := if n <=? 0 then None else Some (draw n).
Definition RetryBackoff (draw : Z -> Z) (retry minBackoff maxBackoff : Z) : option Z :=
  if retry <? 0 then None
  else if minBackoff =? 0 then Some 0
  else
    let d := wrap64 (Z.shiftl minBackoff retry) in
    r ← Int63n draw d;
    let d := wrap64 (minBackoff + r) in
    Some (if (maxBackoff <? d) || (d <? minBackoff) then maxBackoff else d).

Lemma wrap64_id z : - 2 ^ 63 <= z < 2 ^ 63 -> wrap64 z = z.
Proof. intros Hz. unfold wrap64. rewrite Z.mod_small; lia. Qed.

(** The pause before an attempt lies between the two bounds of the options; it
    panics for a negative count, and exactly when the doubled pause leaves the 64 bits
    with a value that is not positive, which it does not while it stays below 2^63. *)
Theorem RetryBackoff_bounds (draw : Z -> Z) (retry minBackoff maxBackoff : Z) :
  (forall n, 0 < n -> 0 <= draw n < n) -> 0 <= minBackoff <= maxBackoff -> maxBackoff < 2 ^ 63 ->
  match RetryBackoff draw retry minBackoff maxBackoff with
  | Some d => minBackoff <= d <= maxBackoff
  | None => retry < 0 \/ wrap64 (minBackoff * 2 ^ retry) <= 0
  end /\
  (0 <= retry -> minBackoff * 2 ^ retry < 2 ^ 63 -> RetryBackoff draw retry minBackoff maxBackoff <> None).
Proof.
  intros Hdraw Hmin Hmax. unfold RetryBackoff, Int63n. destruct (Z.ltb_spec retry 0) as [Hr|Hr]; [split; [by left|lia]|].
  destruct (Z.eqb_spec minBackoff 0) as [->|Hne]; [split; [lia|done]|]. rewrite Z.shiftl_mul_pow2 by done.
  destruct (Z.leb_spec (wrap64 (minBackoff * 2 ^ retry)) 0) as [Hle|Hgt]; cbn [mbind option_bind].
  - split; [by right|]. intros _ Hlt. rewrite wrap64_id in Hle; [|pose proof (Z.pow_nonneg 2 retry); nia].
    pose proof (Z.pow_pos_nonneg 2 retry). nia.
  - split; [|done]. destruct (Z.ltb_spec maxBackoff (wrap64 (minBackoff + draw (wrap64 (minBackoff * 2 ^ retry))))); cbn [orb]; [lia|].
    destruct (Z.ltb_spec (wrap64 (minBackoff + draw (wrap64 (minBackoff * 2 ^ retry)))) minBackoff); lia.
Qed.
Lemma RetryBackoff_bounds_witness : exists d, RetryBackoff (fun n => n - 1) 2 250 4000 = Some d /\ 250 <= d <= 4000.
Proof.
  exists 1249. split; [vm_compute; reflexivity|].
  assert (H1 : forall n, 0 < n -> 0 <= (fun n => n - 1) n < n) by (intros n Hn; cbv beta; lia).
  exact (proj1 (RetryBackoff_bounds (fun n => n - 1) 2 250 4000 H1 ltac:(lia) ltac:(lia))).
Defined.
(** A quarter of a second, doubled thirty-six times. *)
Example backoff_panics : RetryBackoff (fun _ => 0) 36 250000000 4000000000 = None.
Proof. vm_compute. reflexivity. Qed.

(** ** Attempts *)

(** The loop of [exec] and [query]: [body i] is the error of attempt [i], [pause i] that of
    the pause before it. The error, and the attempts made. *)
Fixpoint exec_loop (retry : option err -> bool) (body pause : nat -> option err) (left_ i : nat) (lastErr : option err) : option err * nat :=
  match left_ with
  | O => (lastErr, i)
  | S n =>
      match (if (i =? 0)%nat then None else pause i) with
      | Some e => (Some e, i)
      | None => if retry (body i) then exec_loop retry body pause n (S i) (body i) else (body i, S i)
      end
  end.
Definition exec_attempts (MaxRetries : nat) (retryStatementTimeout : bool) (body pause : nat -> option err) : option err * nat :=
  exec_loop (shouldRetry retryStatementTimeout) body pause (S MaxRetries) 0 None.

Lemma exec_loop_spec retry body pause n i lastErr : let '(e, k) := exec_loop retry body pause n i lastErr in
  (i <= k <= i + n)%nat /\ (forall j, (i <= j)%nat -> (S j < k)%nat -> retry (body j) = true) /\
  (n = 0%nat /\ e = lastErr \/
   (i < k)%nat /\ e = body (k - 1)%nat /\ (k = (i + n)%nat \/ retry e = false) \/
   (0 < k)%nat /\ e = pause k /\ e <> None /\ (k < i + n)%nat /\ (i < k -> retry (body (k - 1)%nat) = true)%nat).
Proof.
  revert i lastErr. induction n as [|n IH]; intros i lastErr; cbn [exec_loop]; [split; [lia|]; split; [lia|by left]|].
  destruct (if (i =? 0)%nat then None else pause i) as [e|] eqn:Ep.
  { destruct (Nat.eqb_spec i 0); [done|]. split; [lia|]. split; [lia|]. right. right. split; [lia|]. rewrite Ep. split_and!; done || lia. }
  destruct (retry (body i)) eqn:Er.
  - specialize (IH (S i) (body i)). destruct (exec_loop retry body pause n (S i) (body i)) as [e k]. destruct IH as (H1 & H2 & H3).
    split; [lia|]. split; [intros j Hj Hk; destruct (decide (j = i)) as [->|]; [done|apply H2; lia]|]. right.
    destruct H3 as [[-> ->]|[(H4 & -> & H5)|(H4 & -> & H5 & H6 & H7)]].
    + left. assert (k = S i) as -> by lia. rewrite Nat.sub_succ, Nat.sub_0_r. split; [lia|]. split; [done|]. left. lia.
    + left. split; [lia|]. split; [done|]. destruct H5 as [->|H5]; [left; lia|by right].
    + right. split; [lia|]. split; [done|]. split; [done|]. split; [lia|]. intros _. destruct (decide (k = S i)) as [->|]; [by rewrite Nat.sub_succ, Nat.sub_0_r|apply H7; lia].
  - split; [lia|]. split; [lia|]. right. left. rewrite Nat.sub_succ, Nat.sub_0_r. split; [lia|]. split; [done|by right].
Qed.

(** A query is tried at most once more than [MaxRetries], only after errors that allow it,
    and the error of the last attempt is returned, or that of a pause. *)
Lemma exec_attempts_spec MaxRetries rst body pause : let '(e, k) := exec_attempts MaxRetries rst body pause in
  (1 <= k <= S MaxRetries)%nat /\ (forall j, (S j < k)%nat -> shouldRetry rst (body j) = true) /\
  (e = body (k - 1)%nat /\ (k = S MaxRetries \/ shouldRetry rst e = false) \/ e = pause k /\ e <> None).
Proof.
  unfold exec_attempts. pose proof (exec_loop_spec (shouldRetry rst) body pause (S MaxRetries) 0 None) as H.
  destruct (exec_loop _ _ _ _ _ _) as [e k]. destruct H as (H1 & H2 & [[? _]|[(H3 & H4 & H5)|(H3 & H4 & H5 & _)]]); [done|..].
  - split; [lia|]. split; [intros j Hj; apply H2; lia|]. left. split; [done|]. destruct H5 as [->|]; [by left|by right].
  - split; [lia|]. split; [intros j Hj; apply H2; lia|]. by right.
Qed.

(** ** The loan of a connection *)

(** [withConn] once it has a connection, with the goroutine that cancels the request when
    the context ends. What is done to the connection: *)
Inductive deed := DCancel | DPut | DRemove (e : option err).

(** The caller: in [fn]; in the deferred function, before the [select]; before
    [releaseConn]; before [Remove]; done. The canceller: none when the context cannot end;
    in its [select]; before the request; before its send; done. *)
Inductive caller := WFn | WDefer (e : option err) | WRelease (e : option err) | WRemove (e : option err) | WEnd (e : option err).
Inductive canceller := KNone | KSelect | KCancel | KSend | KEnd.
Record loan := Ln { l_caller : caller; l_canceller : canceller; l_deeds : list deed }.

Inductive loan_action :=
| LReturn (e : option err)     (* [fn] returns *)
| LPanic                       (* [fn] panics: the deferred function runs, with no error *)
| LDone                        (* the canceller sees that the context has ended *)
| LRequest                     (* it has cancelled the request *)
| LMeet                        (* the two meet at [fnDone] *)
| LStep.                       (* the caller goes on alone *)

(** [releaseConn]: a connection with a bad error is removed, after a cancel request unless
    the transaction was aborted. *)
Definition releaseConn (e : option err) : list deed :=
  match isBadConn e with
  | (true, code) => (if bool_decide (code = bs "25P02") then [] else [DCancel]) ++ [DRemove e]
  | (false, _) => [DPut]
  end.

Definition withConn_step (l : loan) (a : loan_action) : option loan :=
  match a, l_caller l, l_canceller l with
  | LReturn e, WFn, k => Some (Ln (WDefer e) k (l_deeds l))
  | LPanic, WFn, k => Some (Ln (WDefer None) k (l_deeds l))
  | LDone, c, KSelect => Some (Ln c KCancel (l_deeds l))
  | LRequest, c, KCancel => Some (Ln c KSend (l_deeds l ++ [DCancel]))
  | LMeet, WDefer e, KSelect => Some (Ln (WRelease e) KEnd (l_deeds l))
  | LMeet, WDefer e, KSend => Some (Ln (WRemove e) KEnd (l_deeds l))
  | LStep, WDefer e, KNone => Some (Ln (WRelease e) KNone (l_deeds l))
  | LStep, WRelease e, k => Some (Ln (WEnd e) k (l_deeds l ++ releaseConn e))
  | LStep, WRemove e, k => Some (Ln (WEnd e) k (l_deeds l ++ [DRemove e]))
  | _, _, _ => None
  end.
Definition withConn_start (cancellable : bool) : loan := Ln WFn (if cancellable then KSelect else KNone) [].

Inductive loan_reach (b : bool) : loan -> Prop :=
| loan_init : loan_reach b (withConn_start b)
| loan_next l a l' : loan_reach b l -> withConn_step l a = Some l' -> loan_reach b l'.

(** Where both are, and what was done so far. *)
Definition loan_ok (l : loan) : Prop :=
  match l_caller l, l_canceller l with
  | WFn, (KNone | KSelect | KCancel) | WDefer _, (KNone | KSelect | KCancel) | WRelease _, (KNone | KEnd) => l_deeds l = []
  | WFn, KSend | WDefer _, KSend | WRemove _, KEnd => l_deeds l = [DCancel]
  | WEnd e, KNone => l_deeds l = releaseConn e
  | WEnd e, KEnd => l_deeds l = releaseConn e \/ l_deeds l = [DCancel; DRemove e]
  | _, _ => False
  end.
Lemma loan_reach_ok b l : loan_reach b l -> loan_ok l.
Proof.
  induction 1 as [|l a l' _ IH Hs]; [by destruct b|]. destruct l as [c k ds]. unfold loan_ok in *. cbn [l_caller l_canceller l_deeds] in *.
  destruct a; cbn in Hs; destruct c; try done; destruct k; try done; injection Hs as <-; cbn; rewrite ?IH; auto.
Qed.

Definition gives_back (d : deed) : bool := match d with DCancel => false | _ => true end.

(** C24: However the canceller of the context runs beside the work on a connection, the
    connection is given back exactly once, when the work and the canceller are done, so
    that no cancel request of this loan comes after it; a connection that is put back
    for others was not cancelled and its error does not make it useless; and until then
    one of the two can go on, the canceller without waiting for the work. *)
Theorem withConn_gives_back (b : bool) (l : loan) : loan_reach b l ->
  match l_caller l with
  | WEnd e => (l_canceller l = KNone \/ l_canceller l = KEnd) /\ length (filter (fun d => gives_back d = true) (l_deeds l)) = 1%nat /\
              (DPut ∈ l_deeds l -> DCancel ∉ l_deeds l /\ fst (isBadConn e) = false) /\
              (exists d, last (l_deeds l) = Some d /\ gives_back d = true)
  | WFn => filter (fun d => gives_back d = true) (l_deeds l) = [] /\ forall e, exists l', withConn_step l (LReturn e) = Some l'
  | _ => filter (fun d => gives_back d = true) (l_deeds l) = [] /\ exists a l', a <> LDone /\ withConn_step l a = Some l'
  end.
Proof.
  intros Hr%loan_reach_ok. destruct l as [c k ds]. unfold loan_ok in Hr. cbn [l_caller l_canceller l_deeds] in *.
  assert (Hrel : forall e, length (filter (fun d => gives_back d = true) (releaseConn e)) = 1%nat /\
    (DPut ∈ releaseConn e -> DCancel ∉ releaseConn e /\ fst (isBadConn e) = false) /\
    exists d, last (releaseConn e) = Some d /\ gives_back d = true).
  { intros e. unfold releaseConn. destruct (isBadConn e) as [[] code]; [case_bool_decide|]; cbn; (split; [done|]); (split; [|by eexists]);
      rewrite ?elem_of_cons, ?elem_of_nil; try (intros Hd; exfalso; destruct_or! Hd; done). intros _. split; [|done].
    intros Hd. destruct_or! Hd; done. }
  destruct c as [|e|e|e|e]; destruct k; try done; try subst ds.
  all: try (split; [reflexivity|]; intros e; eexists; reflexivity).
  all: try (split; [reflexivity|]; first [exists LMeet; eexists; split; [done|reflexivity] | exists LStep; eexists; split; [done|reflexivity] | exists LRequest; eexists; split; [done|reflexivity]]).
  - split; [by left|]. apply Hrel.
  - split; [by right|]. destruct Hr as [-> | ->]; [apply Hrel|]. cbn. split; [done|]. split; [|by eexists].
    rewrite !elem_of_cons, elem_of_nil. intros Hd. exfalso. destruct_or! Hd; done.
Qed.
Lemma withConn_gives_back_witness :
  length (filter (fun d => gives_back d = true) (releaseConn (Some EEOF))) = 1%nat.
Proof.
  pose proof (withConn_gives_back true (Ln (WEnd (Some EEOF)) KEnd (releaseConn (Some EEOF)))) as H.
  refine (proj1 (proj2 (H _))). clear H.
  apply (loan_next true (Ln (WRelease (Some EEOF)) KEnd []) LStep); [|reflexivity].
  apply (loan_next true (Ln (WDefer (Some EEOF)) KSelect []) LMeet); [|reflexivity].
  apply (loan_next true (withConn_start true) (LReturn (Some EEOF))); [apply loan_init|reflexivity].
Defined.

(** A connection whose work panics, in the middle of an answer say, is put back for others. *)
Example panic_puts_back :
  (l ← withConn_step (withConn_start false) LPanic; l ← withConn_step l LStep; l ← withConn_step l LStep; Some (l_deeds l)) = Some [DPut].
Proof. vm_compute. reflexivity. Qed.

(** ** A sticky pool that one goroutine uses *)

(** The sticky pool between two calls. A call that would wait for ever gives [None]. *)
Record slot := Slot { s_shared : Z; s_state : PgSticky.pstate; s_ch : option nat; s_ch_closed : bool; s_bad : option (option err) }.
Definition new_slot : slot := Slot 1 PgSticky.stateDefault None false None.
Definition bad_conn (s : slot) : option err := match s_bad s with Some (Some r) => Some r | _ => None end.

(** [env]: what the pool underneath answers. *)
Definition SGet (env : err + nat) (s : slot) : option ((err + nat) * slot) :=
  match s_state s with
  | PgSticky.stateDefault =>
      match env with
      | inl e => Some (inl e, s)
      | inr cn => Some (inr cn, Slot (s_shared s) PgSticky.stateInited (s_ch s) (s_ch_closed s) (s_bad s))
      end
  | PgSticky.stateInited =>
      match bad_conn s with
      | Some r => Some (inl (EBadConn r), s)
      | None =>
          match s_ch s with
          | Some cn => Some (inr cn, Slot (s_shared s) (s_state s) None (s_ch_closed s) (s_bad s))
          | None => if s_ch_closed s then Some (inl EClosed, s) else None
          end
      end
  | PgSticky.stateClosed => Some (inl EClosed, s)
  end.
Definition put_ch (cn : nat) (s : slot) : slot :=
  if s_ch_closed s then s else Slot (s_shared s) (s_state s) (Some cn) (s_ch_closed s) (s_bad s).
Definition SPut (cn : nat) (s : slot) : slot := put_ch cn s.
Definition SRemove (cn : nat) (reason : option err) (s : slot) : slot :=
  put_ch cn (Slot (s_shared s) (s_state s) (s_ch s) (s_ch_closed s) (Some reason)).
Definition SReset (s : slot) : option err * slot :=
  match bad_conn s with
  | None => (None, s)
  | Some _ =>
      match s_ch s with
      | None => (Some (if s_ch_closed s then EClosed else ENoConn), s)
      | Some _ =>
          match s_state s with
          | PgSticky.stateInited => (None, Slot (s_shared s) PgSticky.stateDefault None (s_ch_closed s) (Some None))
          | _ => (Some EState, Slot (s_shared s) (s_state s) None (s_ch_closed s) (Some None))
          end
      end
  end.
Definition SClose (s : slot) : option err * slot :=
  let n := s_shared s - 1 in
  if 0 <? n then (None, Slot n (s_state s) (s_ch s) (s_ch_closed s) (s_bad s))
  else match s_state s with
       | PgSticky.stateClosed => (Some EClosed, Slot n (s_state s) (s_ch s) (s_ch_closed s) (s_bad s))
       | _ => (None, Slot n PgSticky.stateClosed None true (s_bad s))
       end.

(** *** It is the sticky pool *)

Section Agrees.
Context (num : err -> Z).    (* [PgSticky] knows errors by number *)

Definition agrees (s : slot) (w : PgSticky.StickyConnPool) : Prop :=
  PgSticky.shared w = s_shared s /\ PgSticky.state w = s_state s /\ PgSticky.ch w = s_ch s /\ PgSticky.ch_closed w = s_ch_closed s /\
  PgSticky.badConn w = option_map (option_map num) (s_bad s) /\ exists r, PgSticky.threads w = [PgSticky.Th PgSticky.Idle r].
(** The calls run by [PgSticky]: the goroutine's calls, then its steps. *)
Definition call_steps (c : PgSticky.call) (n : nat) : list (nat * PgSticky.action) :=
  (0%nat, PgSticky.ACall c) :: replicate n (0%nat, PgSticky.AStep).

Lemma SGet_runs s w env r s' : agrees s w -> SGet env s = Some (r, s') ->
  exists tr w', PgSticky.run w tr = Some w' /\ agrees s' w' /\
    PgSticky.out w' = match r with inr cn => cn :: PgSticky.out w | inl _ => PgSticky.out w end.
Proof.
  destruct s as [sh st ch cl bd], w as [sh' st' ch' cl' bd' out th]. unfold agrees, SGet. cbn. intros (-> & -> & -> & -> & -> & r0 & ->) E.
  destruct st.
  - destruct env as [e|cn]; injection E as <- <-.
    + exists (call_steps PgSticky.SGet 1 ++ [(0%nat, PgSticky.AFail (num e))]). eexists. split; [reflexivity|]. cbn. split; [|done]. split_and!; eauto.
    + exists (call_steps PgSticky.SGet 1 ++ [(0%nat, PgSticky.AGot cn); (0%nat, PgSticky.AStep)]). eexists. split; [reflexivity|]. cbn. split; [|done]. split_and!; eauto.
  - destruct bd as [[rs|]|]; cbn in E.
    + injection E as <- <-. exists (call_steps PgSticky.SGet 2). eexists. split; [reflexivity|]. cbn. split; [|done]. split_and!; eauto.
    + destruct ch as [cn|]; [|destruct cl; [|done]]; injection E as <- <-; exists (call_steps PgSticky.SGet 3); (eexists; split; [reflexivity|]); cbn; (split; [|done]); split_and!; eauto.
    + destruct ch as [cn|]; [|destruct cl; [|done]]; injection E as <- <-; exists (call_steps PgSticky.SGet 3); (eexists; split; [reflexivity|]); cbn; (split; [|done]); split_and!; eauto.
  - injection E as <- <-. exists (call_steps PgSticky.SGet 1). eexists. split; [reflexivity|]. cbn. split; [|done]. split_and!; eauto.
Qed.

Ltac sticky_run := eexists; split; [reflexivity|]; cbn; split; [split_and!; by eauto|done].

Lemma SPut_runs s w cn : agrees s w -> PgSticky.out w = [cn] -> s_ch s = None ->
  exists tr w', PgSticky.run w tr = Some w' /\ agrees (SPut cn s) w' /\ PgSticky.out w' = [].
Proof.
  destruct s as [sh st ch cl bd], w as [sh' st' ch' cl' bd' out th]. unfold agrees, SPut, put_ch. cbn [PgSticky.shared PgSticky.state PgSticky.ch PgSticky.ch_closed PgSticky.badConn PgSticky.threads PgSticky.out s_shared s_state s_ch s_ch_closed s_bad].
  intros (-> & -> & -> & -> & -> & r0 & ->) -> ->.
  assert (Hin : bool_decide (cn ∈ [cn]) = true) by (apply bool_decide_eq_true, list_elem_of_singleton; done).
  destruct cl.
  - exists (call_steps (PgSticky.SPut cn) 3). unfold call_steps. cbn. rewrite Hin, Nat.eqb_refl. destruct bd as [[rs|]|]; sticky_run.
  - exists (call_steps (PgSticky.SPut cn) 1). unfold call_steps. cbn. rewrite Hin, Nat.eqb_refl. sticky_run.
Qed.
Lemma SRemove_runs s w cn reason : agrees s w -> PgSticky.out w = [cn] -> s_ch s = None ->
  exists tr w', PgSticky.run w tr = Some w' /\ agrees (SRemove cn reason s) w' /\ PgSticky.out w' = [].
Proof.
  destruct s as [sh st ch cl bd], w as [sh' st' ch' cl' bd' out th]. unfold agrees, SRemove, put_ch. cbn [PgSticky.shared PgSticky.state PgSticky.ch PgSticky.ch_closed PgSticky.badConn PgSticky.threads PgSticky.out s_shared s_state s_ch s_ch_closed s_bad].
  intros (-> & -> & -> & -> & -> & r0 & ->) -> ->.
  assert (Hin : bool_decide (cn ∈ [cn]) = true) by (apply bool_decide_eq_true, list_elem_of_singleton; done).
  destruct cl.
  - exists (call_steps (PgSticky.SRemove cn (option_map num reason)) 3). unfold call_steps. cbn. rewrite Hin, Nat.eqb_refl. sticky_run.
  - exists (call_steps (PgSticky.SRemove cn (option_map num reason)) 2). unfold call_steps. cbn. rewrite Hin, Nat.eqb_refl. sticky_run.
Qed.
Lemma SReset_runs s w e s' : agrees s w -> SReset s = (e, s') ->
  exists tr w', PgSticky.run w tr = Some w' /\ agrees s' w' /\ PgSticky.out w' = PgSticky.out w.
Proof.
  destruct s as [sh st ch cl bd], w as [sh' st' ch' cl' bd' out th]. unfold agrees, SReset, bad_conn. cbn. intros (-> & -> & -> & -> & -> & r0 & ->) E.
  destruct bd as [[rs|]|]; [|injection E as <- <-; exists (call_steps PgSticky.SReset 1); sticky_run..].
  destruct ch as [cn|]; [|injection E as <- <-; exists (call_steps PgSticky.SReset 2); sticky_run].
  destruct st; injection E as <- <-; [exists (call_steps PgSticky.SReset 6)|exists (call_steps PgSticky.SReset 5)|exists (call_steps PgSticky.SReset 6)]; sticky_run.
Qed.
Lemma SClose_runs s w e s' : agrees s w -> SClose s = (e, s') -> (s_state s <> PgSticky.stateClosed -> s_ch_closed s = false) ->
  exists tr w', PgSticky.run w tr = Some w' /\ agrees s' w' /\ PgSticky.out w' = PgSticky.out w.
Proof.
  destruct s as [sh st ch cl bd], w as [sh' st' ch' cl' bd' out th]. unfold agrees, SClose. cbn. intros (-> & -> & -> & -> & -> & r0 & ->) E Hcl.
  destruct (0 <? sh - 1) eqn:En; [injection E as <- <-; exists (call_steps PgSticky.SClose 1); unfold call_steps; cbn; rewrite En; sticky_run|].
  destruct st; injection E as <- <-.
  - rewrite Hcl by done. destruct ch as [cn|]; [destruct bd as [[rs|]|]|]; [exists (call_steps PgSticky.SClose 7)..|exists (call_steps PgSticky.SClose 5)]; unfold call_steps; cbn; rewrite En; sticky_run.
  - rewrite Hcl by done. destruct ch as [cn|]; [destruct bd as [[rs|]|]|]; [exists (call_steps PgSticky.SClose 7)..|exists (call_steps PgSticky.SClose 5)]; unfold call_steps; cbn; rewrite En; sticky_run.
  - exists (call_steps PgSticky.SClose 2). unfold call_steps. cbn. rewrite En. sticky_run.
Qed.
End Agrees.

(** ** Transactions *)

(** What happens to a query: the error of formatting it or of a hook before it; what the
    pool underneath gives; the error of initialising the connection; the error of the
    query; whether the canceller came first; the error of a hook after it. *)
Record input := In {
  i_before : option err; i_get : err + nat; i_init : option err; i_query : option err; i_cancelled : bool; i_after : option err
}.

(** [t_inited]: the connections that are initialised. [t_log]: the queries that were sent,
    each with its connection. A statement is known by its name. *)
Record Tx := MkTx { t_pool : slot; t_closed : bool; t_inited : list nat; t_stmts : list str; t_log : list (nat * str) }.
Definition with_slot (s : slot) (t : Tx) : Tx := MkTx s (t_closed t) (t_inited t) (t_stmts t) (t_log t).

Definition getConn (inp : input) (t : Tx) : option ((err + nat) * Tx) :=
  '(r, s) ← SGet (i_get inp) (t_pool t);
  let t := with_slot s t in
  match r with
  | inl e => Some (inl e, t)
  | inr cn =>
      if bool_decide (cn ∈ t_inited t) then Some (inr cn, t)
      else
        let t := MkTx (t_pool t) (t_closed t) (cn :: t_inited t) (t_stmts t) (t_log t) in
        match i_init inp with
        | None => Some (inr cn, t)
        | Some e => Some (inl (default e (unwrap e)), with_slot (snd (SReset (SRemove cn (Some e) (t_pool t)))) t)
        end
  end.
(** [withConn], whose loan ends as above. *)
Definition withConn (q : str) (inp : input) (t : Tx) : option (option err * Tx) :=
  '(r, t) ← getConn inp t;
  match r with
  | inl e => Some (Some e, t)
  | inr cn =>
      let e := i_query inp in
      let s := if i_cancelled inp then SRemove cn e (t_pool t)
               else if fst (isBadConn e) then SRemove cn e (t_pool t) else SPut cn (t_pool t) in
      Some (e, MkTx s (t_closed t) (t_inited t) (t_stmts t) (t_log t ++ [(cn, q)]))
  end.

(** [tx.withConn] and [tx.exec] (and [tx.query]). *)
Definition tx_withConn (q : str) (inp : input) (t : Tx) : option (option err * Tx) :=
  '(e, t) ← withConn q inp t;
  Some (if t_closed t && bool_decide (e = Some EClosed) then Some ETxDone else e, t).
Definition tx_exec (q : str) (inp : input) (t : Tx) : option (option err * Tx) :=
  match i_before inp with
  | Some e => Some (Some e, t)
  | None =>
      '(e, t) ← tx_withConn q inp t;
      Some (match i_after inp with Some e' => Some e' | None => e end, t)
  end.

(** [tx.CopyFrom] and [tx.CopyTo], without hooks. *)
Definition tx_copy (q : str) (inp : input) (t : Tx) : option (option err * Tx) := tx_withConn q inp t.

(** The attempts of [begin] and of [stmt.prepare]: before each one but the first there is
    a pause, which may fail, and [Reset]. [inps i]: the inputs of attempt [i], and the
    error of the pause before it. *)
Fixpoint attempts (retry : option err -> bool) (body : input -> Tx -> option (option err * Tx)) (inps : nat -> input * option err)
    (left_ i : nat) (lastErr : option err) (t : Tx) : option (option err * Tx) :=
  match left_ with
  | O => Some (lastErr, t)
  | S n =>
      let go t := '(e, t) ← body (fst (inps i)) t; if retry e then attempts retry body inps n (S i) e t else Some (e, t) in
      if (i =? 0)%nat then go t
      else match snd (inps i) with
           | Some e => Some (Some e, t)
           | None => match SReset (t_pool t) with
                     | (Some e, s) => Some (Some e, with_slot s t)
                     | (None, s) => go (with_slot s t)
                     end
           end
  end.

Section Tx.
Context (MaxRetries : nat) (retryStatementTimeout : bool).
Abbreviation retry := (shouldRetry retryStatementTimeout).

(** [stmt.withConn], for the statements of a transaction, which share its pool. *)
Definition stmt_withConn (q : str) (inp : input) (t : Tx) : option (option err * Tx) :=
  '(e, t) ← withConn q inp t; Some (if bool_decide (e = Some EClosed) then Some EStmtClosed else e, t).
Definition stmt_Close (name : str) (inp : input) (t : Tx) : option Tx :=
  t ← match name with [] => Some t | _ => snd <$> stmt_withConn (bs "close " ++ name) inp t end;
  Some (with_slot (snd (SClose (t_pool t))) t).

(** [stmt.exec] and [stmt.query], which try again on the same pool: [hooks] has the errors
    of the hooks. *)
Fixpoint stmt_attempts (q : str) (inps : nat -> input * option err) (left_ i : nat) (lastErr : option err) (t : Tx) : option (option err * Tx) :=
  match left_ with
  | O => Some (lastErr, t)
  | S n =>
      match (if (i =? 0)%nat then None else snd (inps i)) with
      | Some e => Some (Some e, t)
      | None => '(e, t) ← stmt_withConn q (fst (inps i)) t; if retry e then stmt_attempts q inps n (S i) e t else Some (e, t)
      end
  end.
Definition stmt_exec (q : str) (hooks : input) (inps : nat -> input * option err) (t : Tx) : option (option err * Tx) :=
  match i_before hooks with
  | Some e => Some (Some e, t)
  | None =>
      '(e, t) ← stmt_attempts q inps (S MaxRetries) 0 None t;
      Some (match i_after hooks with Some e' => Some e' | None => e end, t)
  end.

(** [tx.close]; [inps] are for the statements. *)
Fixpoint close_stmts (names : list str) (inps : nat -> input) (t : Tx) : option Tx :=
  match names with
  | [] => Some t
  | name :: names' => t ← stmt_Close name (inps 0%nat) t; close_stmts names' (fun i => inps (S i)) t
  end.
Definition tx_close (inps : nat -> input) (t : Tx) : option Tx :=
  if t_closed t then Some t
  else
    t ← close_stmts (t_stmts t) inps (MkTx (t_pool t) true (t_inited t) (t_stmts t) (t_log t));
    Some (MkTx (snd (SClose (t_pool t))) (t_closed t) (t_inited t) [] (t_log t)).

Definition new_tx (inited : list nat) : Tx := MkTx new_slot false inited [] [].
(** [BeginContext]: the error, if there is one, and the transaction. *)
Definition Begin (inited : list nat) (inps : nat -> input * option err) : option (option err * Tx) :=
  '(e, t) ← attempts retry (tx_exec (bs "BEGIN")) inps (S MaxRetries) 0 None (new_tx inited);
  match e with None => Some (None, t) | Some e => t ← tx_close (fun i => fst (inps i)) t; Some (Some e, t) end.
Definition Commit (inp : input) (inps : nat -> input) (t : Tx) : option (option err * Tx) :=
  '(e, t) ← tx_exec (bs "COMMIT") inp t; t ← tx_close inps t; Some (e, t).
Definition Rollback (inp : input) (inps : nat -> input) (t : Tx) : option (option err * Tx) :=
  '(e, t) ← tx_exec (bs "ROLLBACK") inp t; t ← tx_close inps t; Some (e, t).
Definition Close (inp : input) (inps : nat -> input) (t : Tx) : option (option err * Tx) :=
  if t_closed t then Some (None, t) else Rollback inp inps t.

(** [Prepare]: the statement has the name of the prepared one, or none when it fails. *)
Definition Prepare (q name : str) (inps : nat -> input * option err) (t : Tx) : option (option err * Tx) :=
  let share s := Slot (s_shared s + 1) (s_state s) (s_ch s) (s_ch_closed s) (s_bad s) in
  '(e, t) ← attempts retry (stmt_withConn (bs "parse " ++ q)) inps (S MaxRetries) 0 None (with_slot (share (t_pool t)) t);
  match e with
  | None => Some (None, MkTx (t_pool t) (t_closed t) (t_inited t) (t_stmts t ++ [name]) (t_log t))
  | Some e => Some (Some e, with_slot (snd (SClose (t_pool t))) t)
  end.

Inductive op :=
| OExec (q : str) (inp : input)
| OCopy (q : str) (inp : input)
| OStmt (q : str) (hooks : input) (inps : nat -> input * option err)
| OPrepare (q name : str) (inps : nat -> input * option err)
| OCommit (inp : input) (inps : nat -> input)
| ORollback (inp : input) (inps : nat -> input)
| OClose (inp : input) (inps : nat -> input).
Definition do_op (o : op) (t : Tx) : option (option err * Tx) :=
  match o with
  | OExec q inp => tx_exec q inp t
  | OCopy q inp => tx_copy q inp t
  | OStmt q hooks inps => stmt_exec q hooks inps t
  | OPrepare q name inps => Prepare q name inps t
  | OCommit inp inps => Commit inp inps t
  | ORollback inp inps => Rollback inp inps t
  | OClose inp inps => Close inp inps t
  end.
Fixpoint do_ops (os : list op) (t : Tx) : option (list (option err) * Tx) :=
  match os with [] => Some ([], t) | o :: os' => '(e, t) ← do_op o t; '(es, t) ← do_ops os' t; Some (e :: es, t) end.

(** *** One connection *)

(** The pool has the connection and nobody else does. *)
Definition live (cn : nat) (t : Tx) : Prop :=
  s_state (t_pool t) = PgSticky.stateInited /\ s_ch (t_pool t) = Some cn /\ s_ch_closed (t_pool t) = false /\ cn ∈ t_inited t.
(** The same but for the queries that were sent to [cn]. *)
Definition extends (cn : nat) (t t' : Tx) : Prop :=
  t_closed t' = t_closed t /\ t_stmts t' = t_stmts t /\ s_shared (t_pool t') = s_shared (t_pool t) /\
  exists qs, t_log t' = t_log t ++ ((cn,.) <$> qs).

Lemma extends_refl cn t : extends cn t t.
Proof. split_and!; try done. exists []. by rewrite app_nil_r. Qed.

Lemma withConn_live cn q inp t : live cn t -> exists e t', withConn q inp t = Some (e, t') /\ live cn t' /\ extends cn t t' /\
  (e = None -> t_log t' = t_log t ++ [(cn, q)]).
Proof.
  destruct t as [[sh st ch cl bd] c ini stm lg]. unfold live. cbn. intros (-> & -> & -> & Hin).
  unfold withConn, getConn, SGet, bad_conn. cbn. destruct bd as [[r|]|]; cbn.
  - eexists _, _. split; [reflexivity|]. split; [done|]. split; [apply extends_refl|done].
  - rewrite bool_decide_true by done. cbn. eexists _, _. split; [reflexivity|]. unfold live, extends, SRemove, SPut, put_ch. cbn.
    destruct (i_cancelled inp), (fst (isBadConn (i_query inp))); cbn; (split; [done|]); (split; [|done]); split_and!; try done; by exists [q].
  - rewrite bool_decide_true by done. cbn. eexists _, _. split; [reflexivity|]. unfold live, extends, SRemove, SPut, put_ch. cbn.
    destruct (i_cancelled inp), (fst (isBadConn (i_query inp))); cbn; (split; [done|]); (split; [|done]); split_and!; try done; by exists [q].
Qed.

(** After the pool is closed. *)
Definition dead (t : Tx) : Prop :=
  t_closed t = true /\ t_stmts t = [] /\ s_shared (t_pool t) = 0 /\ s_state (t_pool t) = PgSticky.stateClosed /\
  s_ch (t_pool t) = None /\ s_ch_closed (t_pool t) = true.
Lemma withConn_dead q inp t : s_state (t_pool t) = PgSticky.stateClosed -> withConn q inp t = Some (Some EClosed, t).
Proof. destruct t as [[sh st ch cl bd] c ini stm lg]. cbn. intros ->. done. Qed.
Lemma tx_exec_dead q inp t : dead t -> tx_exec q inp t =
  Some (match i_before inp with Some e => Some e | None => match i_after inp with Some e => Some e | None => Some ETxDone end end, t).
Proof.
  intros (Hc & _ & _ & Hs & _). unfold tx_exec, tx_withConn. destruct (i_before inp); [done|]. rewrite withConn_dead by done. cbn. rewrite Hc. done.
Qed.

Lemma tx_exec_live cn q inp t : live cn t -> exists e t', tx_exec q inp t = Some (e, t') /\ live cn t' /\ extends cn t t' /\
  (e = None -> t_log t' = t_log t ++ [(cn, q)]).
Proof.
  intros Hl. unfold tx_exec, tx_withConn. destruct (i_before inp) as [e|].
  { eexists _, _. split; [done|]. split; [done|]. split; [apply extends_refl|done]. }
  destruct (withConn_live cn q inp t Hl) as (e & t' & -> & Hl' & He & Hlog). cbn. eexists _, t'. split; [done|]. split; [done|]. split; [done|].
  destruct (i_after inp); [done|]. destruct (_ && _); done || exact Hlog.
Qed.

Lemma tx_copy_dead q inp t : dead t -> tx_copy q inp t = Some (Some ETxDone, t).
Proof. intros (Hc & _ & _ & Hs & _). unfold tx_copy, tx_withConn. rewrite withConn_dead by done. cbn. by rewrite Hc. Qed.
Lemma tx_copy_live cn q inp t : live cn t -> exists e t', tx_copy q inp t = Some (e, t') /\ live cn t' /\ extends cn t t'.
Proof.
  intros Hl. unfold tx_copy, tx_withConn. destruct (withConn_live cn q inp t Hl) as (e & t' & -> & Hl' & He & _). cbn. by eexists _, t'.
Qed.

Lemma extends_trans cn t1 t2 t3 : extends cn t1 t2 -> extends cn t2 t3 -> extends cn t1 t3.
Proof.
  intros (A1 & A2 & A3 & q1 & A4) (B1 & B2 & B3 & q2 & B4). split_and!; try congruence. exists (q1 ++ q2). by rewrite B4, A4, fmap_app, app_assoc.
Qed.
Lemma stmt_attempts_live cn q inps n i lastErr t : live cn t ->
  exists e t', stmt_attempts q inps n i lastErr t = Some (e, t') /\ live cn t' /\ extends cn t t'.
Proof.
  revert i lastErr t. induction n as [|n IH]; intros i lastErr t Hl; cbn [stmt_attempts]; [exists lastErr, t; split; [done|]; split; [done|apply extends_refl]|].
  destruct (if (i =? 0)%nat then None else snd (inps i)) as [e|]; [exists (Some e), t; split; [done|]; split; [done|apply extends_refl]|].
  unfold stmt_withConn. destruct (withConn_live cn q (fst (inps i)) t Hl) as (e & t1 & -> & Hl1 & He1 & _). cbn [mbind option_bind].
  destruct (retry _); [|by eexists _, t1].
  destruct (IH (S i) (if bool_decide (e = Some EClosed) then Some EStmtClosed else e) t1 Hl1) as (e2 & t2 & -> & Hl2 & He2).
  exists e2, t2. split; [done|]. split; [done|by eapply extends_trans].
Qed.
Lemma stmt_exec_live cn q hooks inps t : live cn t -> exists e t', stmt_exec q hooks inps t = Some (e, t') /\ live cn t' /\ extends cn t t'.
Proof.
  intros Hl. unfold stmt_exec. destruct (i_before hooks) as [e|]; [eexists _, t; split; [done|]; split; [done|apply extends_refl]|].
  destruct (stmt_attempts_live cn q inps (S MaxRetries) 0 None t Hl) as (e & t' & -> & Hl' & He). cbn. by eexists _, t'.
Qed.
Lemma stmt_exec_dead q hooks inps t : dead t -> stmt_exec q hooks inps t =
  Some (match i_before hooks with Some e => Some e | None => match i_after hooks with Some e => Some e | None => Some EStmtClosed end end, t).
Proof.
  intros (_ & _ & _ & Hs & _). unfold stmt_exec. destruct (i_before hooks); [done|]. cbn [stmt_attempts Nat.eqb]. unfold stmt_withConn.
  rewrite withConn_dead by done. done.
Qed.

(** *** [close] *)

Lemma SClose_share s : 1 < s_shared s -> snd (SClose s) = Slot (s_shared s - 1) (s_state s) (s_ch s) (s_ch_closed s) (s_bad s).
Proof. intros Hs. unfold SClose. by rewrite (proj2 (Z.ltb_lt _ _)) by lia. Qed.

Lemma stmt_Close_live cn name inp t : live cn t -> 1 < s_shared (t_pool t) -> exists t', stmt_Close name inp t = Some t' /\ live cn t' /\
  t_closed t' = t_closed t /\ t_stmts t' = t_stmts t /\ s_shared (t_pool t') = s_shared (t_pool t) - 1 /\
  exists qs, t_log t' = t_log t ++ ((cn,.) <$> qs).
Proof.
  intros Hl Hs. unfold stmt_Close.
  assert (Hw : exists t1, (match name with [] => Some t | _ => snd <$> stmt_withConn (bs "close " ++ name) inp t end) = Some t1 /\ live cn t1 /\ extends cn t t1).
  { destruct name as [|x name]; [exists t; split; [done|]; split; [done|apply extends_refl]|].
    destruct (withConn_live cn (bs "close " ++ x :: name) inp t Hl) as (e & t1 & E & Hl1 & He & _). unfold stmt_withConn. rewrite E. cbn. by exists t1. }
  destruct Hw as (t1 & -> & (L1 & L2 & L3 & L4) & (E1 & E2 & E3 & E4)). cbn. eexists. split; [done|].
  rewrite SClose_share by lia. unfold live, with_slot. cbn. by rewrite E3.
Qed.

Lemma close_stmts_live cn names inps t : live cn t -> s_shared (t_pool t) = 1 + Z.of_nat (length names) ->
  exists t', close_stmts names inps t = Some t' /\ live cn t' /\ t_closed t' = t_closed t /\ s_shared (t_pool t') = 1 /\
    exists qs, t_log t' = t_log t ++ ((cn,.) <$> qs).
Proof.
  revert inps t. induction names as [|name names IH]; intros inps t Hl Hs; cbn [close_stmts].
  - exists t. split_and!; try done. exists []. by rewrite app_nil_r.
  - destruct (stmt_Close_live cn name (inps 0%nat) t Hl) as (t1 & -> & Hl1 & C1 & _ & S1 & q1 & L1); [simpl in Hs; lia|]. cbn [mbind option_bind].
    destruct (IH (fun i => inps (S i)) t1 Hl1) as (t2 & -> & Hl2 & C2 & S2 & q2 & L2); [simpl in Hs; lia|].
    exists t2. split_and!; try done; [congruence|]. exists (q1 ++ q2). by rewrite L2, L1, fmap_app, app_assoc.
Qed.

(** The states of a transaction that has begun on [cn]. *)
Definition begun (cn : nat) (t : Tx) : Prop :=
  t_closed t = false /\ live cn t /\ s_shared (t_pool t) = 1 + Z.of_nat (length (t_stmts t)) \/ dead t.

Lemma tx_close_begun cn inps t : begun cn t -> exists t', tx_close inps t = Some t' /\ dead t' /\ exists qs, t_log t' = t_log t ++ ((cn,.) <$> qs).
Proof.
  intros [(Hc & Hl & Hs)|Hd]; unfold tx_close.
  - rewrite Hc. destruct (close_stmts_live cn (t_stmts t) inps (MkTx (t_pool t) true (t_inited t) (t_stmts t) (t_log t))) as (t' & -> & (L1 & L2 & L3 & L4) & C & S & qs & L); [done|done|].
    cbn [mbind option_bind]. eexists. split; [done|]. split; [|by exists qs]. unfold dead, SClose. cbn. rewrite S. cbn.
    destruct t' as [[sh st ch cl bd] c ini stm lg]. cbn in *. by subst.
  - rewrite (proj1 Hd). exists t. split; [done|]. split; [done|]. exists []. by rewrite app_nil_r.
Qed.

(** *** The operations *)

Lemma extends_begun cn t t' : t_closed t = false -> s_shared (t_pool t) = 1 + Z.of_nat (length (t_stmts t)) -> live cn t' -> extends cn t t' -> begun cn t'.
Proof. intros Hc Hs Hl (E1 & E2 & E3 & _). left. rewrite E1, E2, E3. by split_and!. Qed.

Lemma tx_exec_begun cn q inp t : begun cn t -> exists e t', tx_exec q inp t = Some (e, t') /\ begun cn t' /\ t_closed t' = t_closed t /\
  (exists qs, t_log t' = t_log t ++ ((cn,.) <$> qs)) /\ (t_closed t = true -> t' = t /\ e <> None).
Proof.
  intros [(Hc & Hl & Hs)|Hd].
  - destruct (tx_exec_live cn q inp t Hl) as (e & t' & E & Hl' & He & _). exists e, t'. pose proof He as (E1 & _ & _ & Hq).
    split; [done|]. split; [by eapply extends_begun|]. split; [done|]. split; [done|]. congruence.
  - rewrite (tx_exec_dead q inp t Hd). eexists _, t. split; [done|]. split; [by right|]. split; [done|]. split; [exists []; by rewrite app_nil_r|].
    intros _. split; [done|]. by destruct (i_before inp), (i_after inp).
Qed.

(** Operations that use the connection and give it back. *)
Lemma use_begun cn (r : option (option err * Tx)) t : begun cn t ->
  (live cn t -> exists e t', r = Some (e, t') /\ live cn t' /\ extends cn t t') -> (dead t -> exists e, r = Some (e, t)) ->
  exists e t', r = Some (e, t') /\ begun cn t' /\ (exists qs, t_log t' = t_log t ++ ((cn,.) <$> qs)) /\
    (t_closed t = true -> t_log t' = t_log t /\ t_closed t' = true).
Proof.
  intros [(Hc & Hl & Hs)|Hd] Hlive Hdead.
  - destruct (Hlive Hl) as (e & t' & -> & Hl' & He). exists e, t'. split; [done|]. split; [by eapply extends_begun|].
    split; [apply He|]. congruence.
  - destruct (Hdead Hd) as [e ->]. exists e, t. split; [done|]. split; [by right|]. split; [exists []; by rewrite app_nil_r|]. intros ?. split; [done|apply Hd].
Qed.

(** With a single attempt [Prepare] does not reset the pool. *)
Lemma Prepare_begun cn q name inps t : MaxRetries = 0%nat -> begun cn t -> exists e t', Prepare q name inps t = Some (e, t') /\ begun cn t' /\
  t_closed t' = t_closed t /\ (exists qs, t_log t' = t_log t ++ ((cn,.) <$> qs)) /\ (t_closed t = true -> e <> None /\ t_log t' = t_log t).
Proof.
  intros HM [(Hc & Hl & Hs)|Hd]; unfold Prepare; rewrite HM; cbn [attempts Nat.eqb].
  - set (t0 := with_slot _ t). assert (Hl0 : live cn t0) by exact Hl.
    unfold stmt_withConn. destruct (withConn_live cn (bs "parse " ++ q) (fst (inps 0%nat)) t0 Hl0) as (e & t1 & E & Hl1 & (E1 & E2 & E3 & qs & E4) & _).
    rewrite E. cbn [mbind option_bind]. change (s_shared (t_pool t0)) with (s_shared (t_pool t) + 1) in E3.
    change (t_closed t0) with (t_closed t) in E1. change (t_stmts t0) with (t_stmts t) in E2. change (t_log t0) with (t_log t) in E4.
    assert (Hend : forall x : option err, exists e' t', (match x with
        | None => Some (None, MkTx (t_pool t1) (t_closed t1) (t_inited t1) (t_stmts t1 ++ [name]) (t_log t1))
        | Some e => Some (Some e, with_slot (snd (SClose (t_pool t1))) t1) end) = Some (e', t') /\ begun cn t' /\ t_closed t' = t_closed t /\
        (exists qs, t_log t' = t_log t ++ ((cn,.) <$> qs)) /\ (t_closed t = true -> e' <> None /\ t_log t' = t_log t)).
    { intros [x|]; eexists _, _; (split; [reflexivity|]).
      - split_and!; [|done|by exists qs|congruence]. left. rewrite SClose_share by lia. destruct Hl1 as (L1 & L2 & L3 & L4).
        unfold live, with_slot. cbn. rewrite E1, E2. split_and!; try done. lia.
      - split_and!; [|done|by exists qs|congruence]. left. unfold live. cbn. rewrite E1, E2, length_app. split_and!; try apply Hl1; [done|]. cbn. lia. }
    destruct (retry _); apply Hend.
  - pose proof Hd as (D1 & D2 & D3 & D4 & D5 & D6). unfold stmt_withConn. rewrite withConn_dead by done. cbn.
    rewrite D3. eexists _, _. split; [reflexivity|]. split; [|split; [done|split; [exists []; cbn; by rewrite app_nil_r|done]]].
    right. unfold dead. cbn. by rewrite D4.
Qed.

Definition ends (o : op) : bool := match o with OCommit _ _ | ORollback _ _ | OClose _ _ => true | _ => false end.
Definition is_prepare (o : op) : bool := match o with OPrepare _ _ _ => true | _ => false end.

Lemma finish_begun cn q inp inps t : begun cn t -> exists e t',
  ('(e, t) ← tx_exec q inp t; t ← tx_close inps t; Some (e, t)) = Some (e, t') /\ dead t' /\
  (exists qs, t_log t' = t_log t ++ ((cn,.) <$> qs)) /\ (t_closed t = true -> e <> None /\ t_log t' = t_log t).
Proof.
  intros Hb. destruct (tx_exec_begun cn q inp t Hb) as (e & t1 & -> & Hb1 & C1 & (q1 & L1) & Hd1). cbn [mbind option_bind].
  destruct (tx_close_begun cn inps t1 Hb1) as (t2 & E2 & Hd2 & q2 & L2). rewrite E2. cbn [mbind option_bind]. eexists e, t2. split; [done|]. split; [done|].
  split; [exists (q1 ++ q2); by rewrite L2, L1, fmap_app, app_assoc|]. intros Hc. destruct (Hd1 Hc) as [-> He]. split; [done|].
  unfold tx_close in E2. rewrite Hc in E2. by injection E2 as <-.
Qed.

Lemma do_op_begun cn o t : begun cn t -> MaxRetries = 0%nat \/ is_prepare o = false -> exists e t', do_op o t = Some (e, t') /\ begun cn t' /\
  (exists qs, t_log t' = t_log t ++ ((cn,.) <$> qs)) /\ (t_closed t = true -> t_log t' = t_log t /\ t_closed t' = true) /\ (ends o = true -> t_closed t' = true).
Proof.
  intros Hb HM. destruct o as [q inp|q inp|q hooks inps|q name inps|inp inps|inp inps|inp inps]; cbn [do_op].
  - destruct (tx_exec_begun cn q inp t Hb) as (e & t' & E & Hb' & Hc & Hq & Hd). exists e, t'. split; [done|]. split; [done|]. split; [done|].
    split; [|done]. intros Ht. destruct (Hd Ht) as [-> _]. done.
  - destruct (use_begun cn (tx_copy q inp t) t Hb) as (e & t' & E & H1 & H2 & H3); [by apply tx_copy_live|intros; eexists; by apply tx_copy_dead|].
    exists e, t'. by split_and!.
  - destruct (use_begun cn (stmt_exec q hooks inps t) t Hb) as (e & t' & E & H1 & H2 & H3); [by apply stmt_exec_live|intros; eexists; by apply stmt_exec_dead|].
    exists e, t'. by split_and!.
  - destruct HM as [HM|?]; [|done]. destruct (Prepare_begun cn q name inps t HM Hb) as (e & t' & E & Hb' & Hc & Hq & Hd). exists e, t'. split; [done|]. split; [done|]. split; [done|].
    split; [|done]. intros Ht. destruct (Hd Ht) as [_ ?]. split; congruence.
  - destruct (finish_begun cn (bs "COMMIT") inp inps t Hb) as (e & t' & E & Hd & Hq & Hc). exists e, t'. split; [exact E|]. split; [by right|]. split; [done|].
    split; [|intros _; apply Hd]. intros Ht. split; [by apply Hc|apply Hd].
  - destruct (finish_begun cn (bs "ROLLBACK") inp inps t Hb) as (e & t' & E & Hd & Hq & Hc). exists e, t'. split; [exact E|]. split; [by right|]. split; [done|].
    split; [|intros _; apply Hd]. intros Ht. split; [by apply Hc|apply Hd].
  - unfold Close. destruct (t_closed t) eqn:Ht.
    + exists None, t. split; [done|]. split; [done|]. split; [exists []; by rewrite app_nil_r|]. done.
    + destruct (finish_begun cn (bs "ROLLBACK") inp inps t Hb) as (e & t' & E & Hd & Hq & Hc). exists e, t'. split; [exact E|]. split; [by right|]. split; [done|].
      split; [|intros _; apply Hd]. congruence.
Qed.

Lemma do_ops_begun cn os t : begun cn t -> MaxRetries = 0%nat \/ forallb (negb ∘ is_prepare) os = true -> exists es t', do_ops os t = Some (es, t') /\ begun cn t' /\
  (exists qs, t_log t' = t_log t ++ ((cn,.) <$> qs)) /\ (t_closed t = true -> t_log t' = t_log t /\ t_closed t' = true) /\ (existsb ends os = true -> t_closed t' = true).
Proof.
  revert t. induction os as [|o os IH]; intros t Hb HM; cbn [do_ops].
  - exists [], t. split; [done|]. split; [done|]. split; [exists []; by rewrite app_nil_r|]. done.
  - assert (HM1 : MaxRetries = 0%nat \/ is_prepare o = false) by (destruct HM as [?|HM]; [by left|right]; cbn in HM; by destruct (is_prepare o)).
    assert (HM2 : MaxRetries = 0%nat \/ forallb (negb ∘ is_prepare) os = true) by (destruct HM as [?|HM]; [by left|right]; cbn in HM; by apply andb_true_iff in HM as [_ ?]).
    destruct (do_op_begun cn o t Hb HM1) as (e & t1 & -> & Hb1 & (q1 & L1) & Hd1 & He1). cbn [mbind option_bind].
    destruct (IH t1 Hb1 HM2) as (es & t2 & -> & Hb2 & (q2 & L2) & Hd2 & He2). cbn [mbind option_bind]. exists (e :: es), t2. split; [done|]. split; [done|].
    split; [exists (q1 ++ q2); by rewrite L2, L1, fmap_app, app_assoc|]. split.
    + intros Ht. destruct (Hd1 Ht) as [E1 C1]. destruct (Hd2 C1) as [E2 C2]. split; [congruence|done].
    + cbn [existsb]. intros [H|H]%orb_true_iff; [|by apply He2]. apply Hd2, He1, H.
Qed.

(** *** [Begin] *)

(** Between the attempts of [Begin]. *)
Definition starting (t : Tx) : Prop :=
  t_closed t = false /\ t_stmts t = [] /\ s_shared (t_pool t) = 1 /\ s_ch_closed (t_pool t) = false /\
  (s_state (t_pool t) = PgSticky.stateDefault /\ s_ch (t_pool t) = None \/ exists cn, live cn t).

Lemma starting_exec q inp t : starting t -> exists e t', tx_exec q inp t = Some (e, t') /\ starting t' /\
  (e = None -> exists cn, live cn t' /\ t_log t' = t_log t ++ [(cn, q)]).
Proof.
  intros (Hc & Hs & Hsh & Hcl & [(Hst & Hch)|(cn & Hl)]).
  - destruct t as [[sh st ch cl bd] c ini stm lg]. cbn in *. subst. unfold tx_exec. destruct (i_before inp) as [e|].
    { eexists _, _. split; [done|]. split; [|done]. split_and!; try done. by left. }
    unfold tx_withConn, withConn, getConn, SGet. cbn. destruct (i_get inp) as [e|cn]; cbn.
    { eexists _, _. split; [done|]. split; [split_and!; try done; by left|]. by destruct (i_after inp). }
    case_bool_decide as Hin; cbn; [|destruct (i_init inp) as [e|]; cbn].
    + eexists _, _. split; [done|]. unfold starting, live. cbn.
      destruct (i_cancelled inp), (fst (isBadConn (i_query inp))); cbn; (split; [split_and!; try done; right; exists cn; done|]); intros _; by exists cn.
    + eexists _, _. split; [done|]. split; [split_and!; try done; by left|]. by destruct (i_after inp).
    + assert (Hin' : cn ∈ cn :: ini) by (by left).
      eexists _, _. split; [done|]. unfold starting, live. cbn.
      destruct (i_cancelled inp), (fst (isBadConn (i_query inp))); cbn; (split; [split_and!; try done; right; exists cn; done|]); intros _; by exists cn.
  - destruct (tx_exec_live cn q inp t Hl) as (e & t' & E & Hl' & (E1 & E2 & E3 & _) & Hlog). exists e, t'. split; [done|]. split.
    + split_and!; [congruence|congruence|congruence|apply Hl'|right; by exists cn].
    + intros He. exists cn. auto.
Qed.
Lemma starting_reset t e s : starting t -> SReset (t_pool t) = (e, s) -> starting (with_slot s t).
Proof.
  intros (Hc & Hs & Hsh & Hcl & Hst) E. destruct t as [[sh st ch cl bd] c ini stm lg]. cbn in *. subst.
  unfold SReset, bad_conn in E. cbn in E. destruct bd as [[r|]|].
  - destruct Hst as [[-> ->]|(cn & L1 & L2 & L3 & L4)]; cbn in *; [injection E as <- <-; split_and!; try done; by left|].
    subst. injection E as <- <-. split_and!; try done. by left.
  - injection E as <- <-. by split_and!.
  - injection E as <- <-. by split_and!.
Qed.

Lemma attempts_starting q inps n i lastErr t : starting t -> exists e t', attempts retry (tx_exec q) inps n i lastErr t = Some (e, t') /\ starting t' /\
  (e = None -> n = 0%nat /\ lastErr = None \/ exists cn pre, live cn t' /\ t_log t' = pre ++ [(cn, q)]).
Proof.
  revert i lastErr t. induction n as [|n IH]; intros i lastErr t Ht; cbn [attempts]; [exists lastErr, t; auto|].
  assert (Hgo : forall t, starting t -> exists e t', ('(e, t) ← tx_exec q (fst (inps i)) t; if retry e then attempts retry (tx_exec q) inps n (S i) e t else Some (e, t)) = Some (e, t') /\
    starting t' /\ (e = None -> S n = 0%nat /\ lastErr = None \/ exists cn pre, live cn t' /\ t_log t' = pre ++ [(cn, q)])).
  { clear t Ht. intros t Ht. destruct (starting_exec q (fst (inps i)) t Ht) as (e & t1 & -> & Ht1 & Hlog). cbn [mbind option_bind].
    destruct (retry e) eqn:Er.
    - destruct (IH (S i) e t1 Ht1) as (e2 & t2 & -> & Ht2 & Hn). exists e2, t2. split; [done|]. split; [done|]. intros He.
      destruct (Hn He) as [[_ ->]|?]; [done|by right].
    - exists e, t1. split; [done|]. split; [done|]. intros ->. right. destruct (Hlog eq_refl) as (cn & Hl & E). by exists cn, (t_log t). }
  destruct (i =? 0)%nat; [by apply Hgo|]. destruct (snd (inps i)) as [e|]; [exists (Some e), t; by split_and!|].
  destruct (SReset (t_pool t)) as [[e|] s] eqn:Es; pose proof (starting_reset _ _ _ Ht Es) as Hs; [eexists _, _; split; [done|]; by split|by apply Hgo].
Qed.

(** A transaction that has begun: its pool has the connection that ran the BEGIN. *)
Lemma Begin_live (inited : list nat) (inps : nat -> input * option err) (t0 : Tx) : Begin inited inps = Some (None, t0) ->
  exists cn pre, t_log t0 = pre ++ [(cn, bs "BEGIN")] /\ live cn t0 /\ t_closed t0 = false /\ t_stmts t0 = [] /\ s_shared (t_pool t0) = 1.
Proof.
  unfold Begin. assert (Hst : starting (new_tx inited)) by (split_and!; try done; by left).
  destruct (attempts_starting (bs "BEGIN") inps (S MaxRetries) 0 None _ Hst) as (e & t1 & -> & (Hc & Hs & Hsh & _) & Hb). cbn [mbind option_bind].
  destruct e as [e|]; [destruct (tx_close _ t1); done|]. intros [= <-]. destruct (Hb eq_refl) as [[? _]|(cn & pre & Hl & Hlog)]; [done|].
  by exists cn, pre.
Qed.

(** A transaction that has begun, whose methods (queries, COPY, prepared statements,
    Commit, Rollback, Close) are called one after the other, sends everything to the
    connection that ran its BEGIN, whatever errors, cancelled contexts and hooks come in
    between, and no call of it waits for ever. After Commit, Rollback or Close nothing
    more is sent and the pool has its connection back; a query or a COPY then fails with
    ErrTxDone and a statement with the error that it is closed, unless a hook gives
    another error. For Prepare this is so when it is not tried again; after the end it
    fails with the error that the statement is closed, not with the ErrTxDone that the
    documentation promises ([prepare_after_commit]). *)
Theorem tx_one_connection (inited : list nat) (inps : nat -> input * option err) (t0 : Tx) :
  Begin inited inps = Some (None, t0) ->
  exists cn pre, t_log t0 = pre ++ [(cn, bs "BEGIN")] /\
  forall os, MaxRetries = 0%nat \/ forallb (negb ∘ is_prepare) os = true ->
  exists es t, do_ops os t0 = Some (es, t) /\ (exists qs, t_log t = t_log t0 ++ ((cn,.) <$> qs)) /\
    (existsb ends os = true -> t_closed t = true) /\
    (t_closed t = true ->
       s_state (t_pool t) = PgSticky.stateClosed /\ s_ch (t_pool t) = None /\
       (forall q inp, i_before inp = None -> i_after inp = None -> tx_exec q inp t = Some (Some ETxDone, t)) /\
       (forall q inp, tx_copy q inp t = Some (Some ETxDone, t)) /\
       (forall q hooks inps', i_before hooks = None -> i_after hooks = None -> stmt_exec q hooks inps' t = Some (Some EStmtClosed, t)) /\
       (forall os', MaxRetries = 0%nat \/ forallb (negb ∘ is_prepare) os' = true ->
          exists es' t', do_ops os' t = Some (es', t') /\ t_log t' = t_log t)).
Proof.
  intros (cn & pre & Hlog & Hl & Hc & Hs & Hsh)%Begin_live. exists cn, pre. split; [done|]. intros os HM. rename t0 into t1.
  assert (Hbegun : begun cn t1) by (left; rewrite Hs, Hsh; by split_and!).
  destruct (do_ops_begun cn os t1 Hbegun HM) as (es & t & E & Hb1 & Hq & _ & He). exists es, t. split; [done|]. split; [done|]. split; [done|].
  intros Ht. destruct Hb1 as [(? & _)|Hd]; [congruence|]. split; [apply Hd|]. split; [apply Hd|]. split.
  - intros q inp H1 H2. rewrite tx_exec_dead by done. by rewrite H1, H2.
  - split; [intros q inp; by apply tx_copy_dead|]. split; [intros q hooks inps' H1 H2; rewrite stmt_exec_dead by done; by rewrite H1, H2|].
    intros os' HM'. destruct (do_ops_begun cn os' t (or_intror Hd) HM') as (es' & t' & E' & _ & _ & Hk & _). exists es', t'. split; [done|]. by apply Hk.
Qed.

End Tx.

(** *** Runs *)

Definition fine (cn : nat) : input := In None (inr cn) None None false None.
Definition fails (cn : nat) (e : err) : input := In None (inr cn) None (Some e) false None.
Definition cancelled (cn : nat) : input := In None (inr cn) None None true None.

Definition demo_tx : Tx := default (new_tx []) (snd <$> Begin 1 false [] (fun i => if (i =? 0)%nat then (fails 3 EEOF, None) else (fine 4, None))).
Lemma tx_one_connection_witness : exists t es,
  do_ops 1 false [OExec (bs "INSERT") (fine 9); OStmt (bs "execute 1") (fine 9) (fun _ => (fine 9, None)); OCopy (bs "COPY") (fine 9); OCommit (fine 9) (fun _ => fine 9); OExec (bs "DELETE") (fine 9)] demo_tx = Some (es, t) /\
  t_log demo_tx = [(3%nat, bs "BEGIN"); (4%nat, bs "BEGIN")] /\
  t_log t = t_log demo_tx ++ [(4%nat, bs "INSERT"); (4%nat, bs "execute 1"); (4%nat, bs "COPY"); (4%nat, bs "COMMIT")] /\
  tx_exec (bs "SELECT") (fine 9) t = Some (Some ETxDone, t).
Proof.
  destruct (tx_one_connection 1 false [] (fun i => if (i =? 0)%nat then (fails 3 EEOF, None) else (fine 4, None)) demo_tx) as (cn & pre & H1 & H2).
  { vm_compute. reflexivity. }
  destruct (H2 [OExec (bs "INSERT") (fine 9); OStmt (bs "execute 1") (fine 9) (fun _ => (fine 9, None)); OCopy (bs "COPY") (fine 9); OCommit (fine 9) (fun _ => fine 9); OExec (bs "DELETE") (fine 9)]) as (es & t & E & _ & H3 & H4); [right; reflexivity|].
  exists t, es. split; [exact E|]. split; [vm_compute; reflexivity|]. split; [|apply H4; [apply H3; reflexivity|reflexivity|reflexivity]].
  revert E. vm_compute. intros [= <- <-]. reflexivity.
Defined.

(** [Prepare] on a transaction that is over. *)
Example prepare_after_commit :
  option_map fst (do_ops 0 false [OCommit (fine 9) (fun _ => fine 9); OExec (bs "SELECT") (fine 9); OPrepare (bs "SELECT") (bs "1") (fun _ => (fine 9, None))] demo_tx) =
  Some [None; Some ETxDone; Some EStmtClosed].
Proof. vm_compute. reflexivity. Qed.

(** [Prepare] resets the pool of the transaction before it tries again: what follows goes
    to another connection, where no transaction has begun. *)
Example prepare_leaves_transaction :
  option_map (fun r => drop 1 (t_log (snd r))) (do_ops 1 false [OExec (bs "INSERT") (fine 9);
             OPrepare (bs "SELECT") (bs "1") (fun i => if (i =? 0)%nat then (fails 9 EEOF, None) else (fine 7, None));
             OExec (bs "UPDATE") (fine 9); OCommit (fine 9) (fun _ => fine 9)] demo_tx) =
  Some [(4%nat, bs "BEGIN"); (4%nat, bs "INSERT"); (4%nat, bs "parse SELECT"); (7%nat, bs "parse SELECT");
        (7%nat, bs "UPDATE"); (7%nat, bs "COMMIT"); (7%nat, bs "close 1")].
Proof. vm_compute. reflexivity. Qed.

(** A connection whose request was cancelled while the query succeeded is removed without a
    reason: the sticky pool keeps it and uses it for the next query. *)
Example cancelled_connection_kept :
  option_map (fun r => (fst r, t_log (snd r))) (do_ops 0 false [OExec (bs "A") (cancelled 9); OExec (bs "B") (fine 9)] demo_tx) =
  Some ([None; None], t_log demo_tx ++ [(4%nat, bs "A"); (4%nat, bs "B")]).
Proof. vm_compute. reflexivity. Qed.

End PgSession.
