(* ===== verification/PgTx.v ===== *)
(** * Transactions shared by goroutines ([src/upg/tx.go], [stmt.go])

    A transaction that has begun keeps one connection in its sticky pool. Goroutines that
    call its methods at the same time go through [Get], [Put], [Remove] and [Close] of the
    pool, split as in [PgSticky] at each access to shared memory, through the flag
    [_closed] and through the mutex of its statements. What the server answers, and
    whether the connection is then put back or removed, is an input. [Prepare] makes one
    attempt: a second one would reset the pool. A further attempt of a statement is a
    further call. What fails before a connection is asked for (a query that cannot be
    written, a hook that refuses) touches nothing shared and is left out, and hooks pass
    results on. *)
From stdpp Require Import base numbers list strings.
From S2P Require Import Prelude PgPool PgSticky PgSession.
#[local] Open Scope Z_scope.

Module PgTx.
Abbreviation str := (list Z).
Abbreviation pool_t := PgSticky.StickyConnPool.

(** ** Data *)

Inductive error := ErrTxDone | ErrStmtClosed | EPool (e : PgSticky.error) | EQuery (e : Z).

(** What comes after the use of the connection: the operation returns (of the transaction,
    or of a statement); [close]; a new statement; the next statement of [close], which
    remembers the error of the COMMIT. *)
Inductive kont := KReturn (stmt : bool) | KFinish | KPrepare (name : str) | KStmts (rest : list str) (e : option error).

(** Where a goroutine is: between operations, with the last result; in [Get]; while the
    server works; in [Put] or [Remove]; before the mutex in [Prepare]; before the
    compare-and-swap and the mutex in [close]; before the next statement; in [Close] of the
    pool for a statement, for a statement that could not be made, for the transaction. *)
Inductive tpc :=
| TIdle (r : option (option error))
| TGet (k : kont) (q : str)
| TUse (k : kont) (q : str) (cn : nat)
| TGive (k : kont) (e : option error)
| TLockPrepare (q name : str)
| TCas (e : option error)
| TLockClose (e : option error)
| TStmts (rest : list str) (e : option error)
| TCloseStmt (rest : list str) (e : option error)
| TCloseFailed (e : error)
| TClosePool (e : option error).

(** [log]: the queries that were sent, each with its connection. *)
Record tx := MkTx { pool : pool_t; closed : bool; stmtsMu : option nat; stmts : list str; log : list (nat * str); pcs : list tpc }.

(** ** Steps *)

Definition goto (t : nat) (p : tpc) (w : tx) : tx := MkTx (pool w) (closed w) (stmtsMu w) (stmts w) (log w) (<[t := p]> (pcs w)).
Definition put_pool (P : pool_t) (w : tx) : tx := MkTx P (closed w) (stmtsMu w) (stmts w) (log w) (pcs w).
Definition put_mu (m : option nat) (w : tx) : tx := MkTx (pool w) (closed w) m (stmts w) (log w) (pcs w).
Definition put_stmts (l : list str) (w : tx) : tx := MkTx (pool w) (closed w) (stmtsMu w) l (log w) (pcs w).

(** A call of the pool begins, and then the goroutine is at [p]. *)
Definition call (t : nat) (c : PgSticky.call) (p : tpc) (w : tx) : option tx :=
  P ← PgSticky.step (pool w) t (PgSticky.ACall c); Some (goto t p (put_pool P w)).

(** [tx.withConn] and [stmt.withConn]: the error of a closed pool. *)
Definition tx_error (w : tx) (e : option error) : option error :=
  match e with Some (EPool PgSticky.ErrClosed) => if closed w then Some ErrTxDone else e | _ => e end.
Definition stmt_error (e : option error) : option error :=
  match e with Some (EPool PgSticky.ErrClosed) => Some ErrStmtClosed | _ => e end.

(** After the connection was given back, or could not be got. *)
Definition after (t : nat) (k : kont) (e : option error) (w : tx) : option tx :=
  match k with
  | KReturn stmt => Some (goto t (TIdle (Some (if stmt then stmt_error e else tx_error w e))) w)
  | KFinish => Some (goto t (TCas (tx_error w e)) w)
  | KPrepare name =>
      match stmt_error e with
      | None => Some (goto t (TIdle (Some None)) (put_mu None (put_stmts (stmts w ++ [name]) w)))
      | Some e => call t PgSticky.SClose (TCloseFailed e) w
      end
  | KStmts rest e0 => call t PgSticky.SClose (TCloseStmt rest e0) w
  end.

Inductive action :=
| BExec (stmt : bool) (q : str)      (* [Exec], [Query], [CopyFrom], [CopyTo]; of a statement *)
| BFinish (q : str)                  (* [Commit], [Rollback] *)
| BClose (q : str)                   (* [Close] *)
| BPrepare (q name : str)
| BPool (a : PgSticky.action)        (* the goroutine goes on in the pool *)
| BAnswer (e : option Z) (remove : bool)
| BGo.                               (* it goes on outside of the pool *)

Definition go_on (t : nat) (p : tpc) (th : PgSticky.thread) (w : tx) : option tx :=
  match p with
  | TGet k q =>
      match PgSticky.ret th with
      | PgSticky.RConn cn => Some (MkTx (pool w) (closed w) (stmtsMu w) (stmts w) (log w ++ [(cn, q)]) (<[t := TUse k q cn]> (pcs w)))
      | PgSticky.RErr e => after t k (Some (EPool e)) w
      | _ => None
      end
  | TGive k e => after t k e w
  | TLockPrepare q name =>
      match stmtsMu w with
      | None =>
          P ← PgSticky.step (pool w) t (PgSticky.ACall PgSticky.SNew);
          call t PgSticky.SGet (TGet (KPrepare name) q) (put_mu (Some t) (put_pool P w))
      | Some _ => None
      end
  | TCas e => Some (if closed w then goto t (TIdle (Some e)) w
                    else goto t (TLockClose e) (MkTx (pool w) true (stmtsMu w) (stmts w) (log w) (pcs w)))
  | TLockClose e =>
      match stmtsMu w with None => Some (goto t (TStmts (stmts w) e) (put_mu (Some t) (put_stmts [] w))) | Some _ => None end
  | TStmts [] e => call t PgSticky.SClose (TClosePool e) w
  | TStmts (name :: rest) e => call t PgSticky.SGet (TGet (KStmts rest e) (bs "close " ++ name)) w
  | TCloseStmt rest e => Some (goto t (TStmts rest e) w)
  | TCloseFailed e => Some (goto t (TIdle (Some (Some e))) (put_mu None w))
  | TClosePool e => Some (goto t (TIdle (Some e)) (put_mu None w))
  | TIdle _ | TUse _ _ _ => None
  end.

Definition step (w : tx) (t : nat) (a : action) : option tx :=
  p ← pcs w !! t; th ← PgSticky.threads (pool w) !! t;
  match a, p with
  | BExec stmt q, TIdle _ => call t PgSticky.SGet (TGet (KReturn stmt) q) w
  | BFinish q, TIdle _ => call t PgSticky.SGet (TGet KFinish q) w
  | BClose q, TIdle _ => if closed w then Some (goto t (TIdle (Some None)) w) else call t PgSticky.SGet (TGet KFinish q) w
  | BPrepare q name, TIdle _ => Some (goto t (TLockPrepare q name) w)
  | BPool (PgSticky.ACall _), _ => None
  | BPool a, _ => P ← PgSticky.step (pool w) t a; Some (put_pool P w)
  | BAnswer e remove, TUse k q cn =>
      call t (if remove then PgSticky.SRemove cn e else PgSticky.SPut cn) (TGive k (EQuery <$> e)) w
  | BGo, p => match PgSticky.t_pc th with PgSticky.Idle => go_on t p th w | _ => None end
  | _, _ => None
  end.

Fixpoint run (w : tx) (tr : list (nat * action)) : option tx :=
  match tr with [] => Some w | (t, a) :: tr' => w' ← step w t a; run w' tr' end.
Inductive reach (w0 : tx) : tx -> Prop :=
| reach_refl : reach w0 w0
| reach_step w t a w' : reach w0 w -> step w t a = Some w' -> reach w0 w'.

(** A transaction of [PgSession] that nobody uses, with its goroutines; [num] is the number
    by which [PgSticky] knows an error. *)
Definition share (num : PgSession.err -> Z) (n : nat) (t : PgSession.Tx) : tx :=
  let s := PgSession.t_pool t in
  MkTx (PgSticky.SP (PgSession.s_shared s) (PgSession.s_state s) (PgSession.s_ch s) (PgSession.s_ch_closed s)
          (option_map (option_map num) (PgSession.s_bad s)) [] (replicate n (PgSticky.Th PgSticky.Idle PgSticky.RNone)))
    (PgSession.t_closed t) None (PgSession.t_stmts t) (PgSession.t_log t) (replicate n (TIdle None)).
(** ** The invariant *)

(** The pool passes [cn] around and nothing else; nobody is where [Get] takes another
    connection or [Reset] takes it away. *)
Definition pc_on (cn : nat) (p : PgSticky.pc) : Prop :=
  match p with
  | PgSticky.PSend c | PgSticky.Free c | PgSticky.FreeRemove c | PgSticky.FreePut c | PgSticky.RStore c _ | PgSticky.RSend c => c = cn
  | PgSticky.GPool _ | PgSticky.GCas _ _ | PgSticky.GRemove _ _ | PgSticky.XBad | PgSticky.XRecv | PgSticky.XRemove _
  | PgSticky.XStore | PgSticky.XCas | PgSticky.XLoad => False
  | _ => True
  end.
Definition thread_on (cn : nat) (th : PgSticky.thread) : Prop :=
  pc_on cn (PgSticky.t_pc th) /\ forall c, PgSticky.ret th = PgSticky.RConn c -> c = cn.
Record pool_on (cn : nat) (P : pool_t) : Prop := {
  on_state : PgSticky.state P <> PgSticky.stateDefault;
  on_threads : Forall (thread_on cn) (PgSticky.threads P);
  on_out : Forall (eq cn) (PgSticky.out P);
  on_ch : forall c, PgSticky.ch P = Some c -> c = cn
}.

(** What the goroutine does in the pool while it is at [p]. *)
Definition phase (p : tpc) (th : PgSticky.thread) : Prop :=
  match p with
  | TGet _ _ =>
      match PgSticky.t_pc th with
      | PgSticky.GLoad _ | PgSticky.GBad | PgSticky.GRecv => True
      | PgSticky.Idle => match PgSticky.ret th with PgSticky.RConn _ | PgSticky.RErr _ => True | _ => False end
      | _ => False
      end
  | TGive _ _ =>
      match PgSticky.t_pc th with
      | PgSticky.PSend _ | PgSticky.Free _ | PgSticky.FreeRemove _ | PgSticky.FreePut _ | PgSticky.RStore _ _ | PgSticky.RSend _ | PgSticky.Idle => True
      | _ => False
      end
  | TCloseStmt _ _ | TCloseFailed _ | TClosePool _ =>
      match PgSticky.t_pc th with
      | PgSticky.CDec | PgSticky.CLoad _ | PgSticky.CCas _ _ | PgSticky.CClose | PgSticky.CRecv
      | PgSticky.Free _ | PgSticky.FreeRemove _ | PgSticky.FreePut _ | PgSticky.Idle => True
      | _ => False
      end
  | TUse _ _ _ => PgSticky.t_pc th = PgSticky.Idle
  | _ => PgSticky.t_pc th = PgSticky.Idle
  end.

(** The goroutine has the connection: it uses it, or [Get] has just returned it. *)
Definition has (x : tpc * PgSticky.thread) : nat :=
  match x with
  | (TUse _ _ _, _) => 1
  | (TGet _ _, PgSticky.Th PgSticky.Idle (PgSticky.RConn _)) => 1
  | _ => 0
  end.

(** The goroutine has the mutex. *)
Definition locked_kont (k : kont) : bool := match k with KPrepare _ | KStmts _ _ => true | _ => false end.
Definition locked (p : tpc) : bool :=
  match p with
  | TGet k _ | TUse k _ _ | TGive k _ => locked_kont k
  | TStmts _ _ | TCloseStmt _ _ | TCloseFailed _ | TClosePool _ => true
  | _ => false
  end.

(** The transaction has begun with the queries [l0]. *)
Section Invariant.
Context (l0 : list (nat * str)).

Record inv (cn : nat) (w : tx) : Prop := {
  v_sticky : PgSticky.inv (pool w);
  v_on : pool_on cn (pool w);
  v_phase : Forall2 phase (pcs w) (PgSticky.threads (pool w));
  v_has : length (PgSticky.out (pool w)) = sum_list_with has (zip (pcs w) (PgSticky.threads (pool w)));
  v_use : forall t k q c, pcs w !! t = Some (TUse k q c) -> c = cn;
  v_log : exists l, log w = l0 ++ l /\ Forall (fun x => fst x = cn) l;
  v_mu : forall t p, pcs w !! t = Some p -> (locked p = true <-> stmtsMu w = Some t);
  v_holder : forall t, stmtsMu w = Some t -> (t < length (pcs w))%nat
}.

(** *** Steps of the pool *)

Lemma Forall_remove_first (Q : nat -> Prop) c l : Forall Q l -> Forall Q (PgPool.remove_first c l).
Proof. induction 1 as [|x l Hx Hl IH]; [constructor|]. simpl. destruct (x =? c)%nat; [done|by constructor]. Qed.

Lemma pool_on_moved cn P P' t q o : pool_on cn P -> PgSticky.threads P' = <[t := PgSticky.Th q o]> (PgSticky.threads P) ->
  pc_on cn q -> (forall c, o = PgSticky.RConn c -> c = cn) -> PgSticky.state P' <> PgSticky.stateDefault ->
  Forall (eq cn) (PgSticky.out P') -> (forall c, PgSticky.ch P' = Some c -> c = cn) -> pool_on cn P'.
Proof. intros [S T O C] Ht Hq Ho Hs Hout Hch. split; try done. rewrite Ht. apply Forall_insert; [done|]. by split. Qed.

Lemma pool_on_step cn P t a P' : pool_on cn P -> PgSticky.step P t a = Some P' -> a <> PgSticky.ACall PgSticky.SReset -> pool_on cn P'.
Proof.
  intros Hon Hs Ha. pose proof Hon as [S T O C]. unfold PgSticky.step in Hs. destruct (PgSticky.threads P !! t) as [[pc r]|] eqn:Ht; [|done].
  destruct (proj1 (Forall_lookup _ _) T _ _ Ht) as [Hpc Hr]. cbn [mbind option_bind PgSticky.t_pc] in *.
  destruct a as [c| |c|e].
  - destruct pc; try done. destruct c; cbn [PgSticky.do_call] in Hs; try done; repeat case_bool_decide; simplify_eq;
      (eapply pool_on_moved; [exact Hon|reflexivity|..]); cbn; try done; try (by apply Forall_remove_first);
      rewrite Forall_forall in O; symmetry; by apply O.
  - destruct pc; cbn [PgSticky.do_step pc_on] in *; unfold PgSticky.send in Hs; try done;
    repeat match type of Hs with
    | context [if ?b : bool then _ else _] => destruct b eqn:?
    | context [match PgSticky.state P with _ => _ end] => destruct (PgSticky.state P) eqn:?
    | context [match PgSticky.ch P with _ => _ end] => destruct (PgSticky.ch P) eqn:?
    | context [match PgSticky.badConnError P with _ => _ end] => destruct (PgSticky.badConnError P) eqn:?
    end; simplify_eq;
    (eapply pool_on_moved; [exact Hon|reflexivity|..]); cbn; try done; try congruence; try (by intros ? [= <-]; auto);
    try (constructor; [symmetry; by apply C|done]); try (by symmetry; auto); try (by auto).
  - by destruct pc.
  - by destruct pc.
Qed.

(** The goroutine stays in the phase of its place, and has the connection when it got it. *)
Lemma pool_step_phase cn P t th p a P' : pool_on cn P -> PgSticky.threads P !! t = Some th -> phase p th ->
  (forall c, a <> PgSticky.ACall c) -> PgSticky.step P t a = Some P' ->
  exists th', PgSticky.threads P' = <[t := th']> (PgSticky.threads P) /\ phase p th' /\
    (length (PgSticky.out P') + has (p, th) = length (PgSticky.out P) + has (p, th'))%nat.
Proof.
  intros Hon Ht Hp Ha Hs. pose proof Hon as [S T O C]. unfold PgSticky.step in Hs. rewrite Ht in Hs. destruct th as [pc r].
  destruct (proj1 (Forall_lookup _ _) T _ _ Ht) as [Hpc Hr]. cbn [mbind option_bind PgSticky.t_pc] in *.
  destruct a as [c| |c|e]; [by destruct (Ha c)| |by destruct pc|by destruct pc].
  destruct p; cbn [phase PgSticky.t_pc] in Hp; destruct pc; try done; cbn [PgSticky.do_step] in Hs; unfold PgSticky.send in Hs;
    repeat match type of Hs with
    | context [if ?b : bool then _ else _] => destruct b eqn:?
    | context [match PgSticky.state P with _ => _ end] => destruct (PgSticky.state P) eqn:?
    | context [match PgSticky.ch P with _ => _ end] => destruct (PgSticky.ch P) eqn:?
    | context [match PgSticky.badConnError P with _ => _ end] => destruct (PgSticky.badConnError P) eqn:?
    end; simplify_eq; eexists; (split; [reflexivity|]); cbn; (split; [done|]); lia.
Qed.

(** What a call of the pool does at once. *)
Definition entry (c : PgSticky.call) : PgSticky.thread :=
  match c with
  | PgSticky.SNew => PgSticky.Th PgSticky.Idle PgSticky.RNil
  | PgSticky.SGet => PgSticky.Th (PgSticky.GLoad 0) PgSticky.RNone
  | PgSticky.SPut cn => PgSticky.Th (PgSticky.PSend cn) PgSticky.RNone
  | PgSticky.SRemove cn r => PgSticky.Th (PgSticky.RStore cn r) PgSticky.RNone
  | PgSticky.SClose => PgSticky.Th PgSticky.CDec PgSticky.RNone
  | PgSticky.SReset => PgSticky.Th PgSticky.XBad PgSticky.RNone
  end.
Definition gives (c : PgSticky.call) : nat := match c with PgSticky.SPut _ | PgSticky.SRemove _ _ => 1 | _ => 0 end.
Lemma call_spec P t c P' : PgSticky.step P t (PgSticky.ACall c) = Some P' ->
  PgSticky.threads P' = <[t := entry c]> (PgSticky.threads P) /\
  (length (PgSticky.out P') + gives c = length (PgSticky.out P))%nat.
Proof.
  unfold PgSticky.step. destruct (PgSticky.threads P !! t) as [[pc r]|]; [|done]. cbn [mbind option_bind PgSticky.t_pc].
  destruct pc; try done. destruct c; cbn [PgSticky.do_call]; try case_bool_decide as Hin; intros; simplify_eq; cbn; (split; [done|]); try lia.
  - pose proof (PgSticky.length_remove_first _ _ Hin). lia.
  - pose proof (PgSticky.length_remove_first _ _ Hin). lia.
Qed.

(** *** Steps of the transaction *)

Definition mu_moves (t : nat) (b b' : bool) (m m' : option nat) : Prop :=
  b' = b /\ m' = m \/ b = false /\ b' = true /\ m = None /\ m' = Some t \/ b = true /\ b' = false /\ m' = None.

Lemma tx_inv_moved cn w w' t p th p' th' : inv cn w -> pcs w !! t = Some p -> PgSticky.threads (pool w) !! t = Some th ->
  PgSticky.inv (pool w') -> pool_on cn (pool w') ->
  pcs w' = <[t := p']> (pcs w) -> PgSticky.threads (pool w') = <[t := th']> (PgSticky.threads (pool w)) -> phase p' th' ->
  (length (PgSticky.out (pool w')) + has (p, th) = length (PgSticky.out (pool w)) + has (p', th'))%nat ->
  (forall k q c, p' = TUse k q c -> c = cn) ->
  (exists l, log w' = log w ++ l /\ Forall (fun x => fst x = cn) l) ->
  mu_moves t (locked p) (locked p') (stmtsMu w) (stmtsMu w') -> inv cn w'.
Proof.
  intros [I1 I2 I3 I4 I5 I6 I7 I8] Hp Hth J1 J2 Ep Et Hph Hhas Huse (l & Hl & Hcn) Hmu.
  pose proof (lookup_lt_Some _ _ _ Hp) as Hlt. split; try done.
  - rewrite Ep, Et. by apply Forall2_insert.
  - rewrite Ep, Et, <- (insert_zip_with pair).
    assert (Hz : zip_with pair (pcs w) (PgSticky.threads (pool w)) !! t = Some (p, th)) by (apply lookup_zip_with_Some; by eauto).
    pose proof (total_insert has _ _ _ (p', th') Hz). lia.
  - intros u k q c. rewrite Ep. destruct (decide (u = t)) as [->|Hne]; [rewrite list_lookup_insert_eq by done; intros [= ->]; by eapply Huse|].
    rewrite list_lookup_insert_ne by done. apply I5.
  - destruct I6 as (k & Ek & Hk). exists (k ++ l). rewrite Hl, Ek, app_assoc. split; [done|]. by apply Forall_app.
  - intros u p0. rewrite Ep. destruct (decide (u = t)) as [->|Hne].
    + rewrite list_lookup_insert_eq by done. intros [= <-]. pose proof (I7 t p Hp) as Hm.
      destruct Hmu as [[E1 E2]|[(_ & E1 & _ & E2)|(_ & E1 & E2)]]; rewrite E1, E2; done.
    + rewrite list_lookup_insert_ne by done. intros Hu. specialize (I7 u p0 Hu) as Hm. pose proof (I7 t p Hp) as Hmt. clear I7.
      destruct Hmu as [[_ E]|[(_ & _ & H0 & E)|(Hb & _ & E)]]; rewrite E, Hm; [done| |].
      * rewrite H0. split; [done|congruence].
      * apply Hmt in Hb. rewrite Hb. split; [congruence|done].
  - intros u. rewrite Ep, length_insert. destruct Hmu as [[_ E]|[(_ & _ & _ & E)|(_ & _ & E)]]; rewrite E; [apply I8|by intros [= <-]|done].
Qed.

(** The goroutine goes on without the pool. *)
Lemma inv_alone cn w w' t p th p' : inv cn w -> pcs w !! t = Some p -> PgSticky.threads (pool w) !! t = Some th ->
  pool w' = pool w -> pcs w' = <[t := p']> (pcs w) -> phase p' th -> has (p, th) = has (p', th) ->
  (forall k q c, p' = TUse k q c -> c = cn) -> (exists l, log w' = log w ++ l /\ Forall (fun x => fst x = cn) l) ->
  mu_moves t (locked p) (locked p') (stmtsMu w) (stmtsMu w') -> inv cn w'.
Proof.
  intros Hw Hp Hth EP Ep Hph Hhas Huse Hl Hmu. pose proof Hw as [I1 I2 _ _ _ _ _ _].
  eapply (tx_inv_moved cn w w' t p th p' th); rewrite ?EP; try done; [|lia]. by rewrite list_insert_id.
Qed.

(** It calls the pool. *)
Lemma inv_call cn w w1 w' t p th c p' : inv cn w -> pcs w !! t = Some p -> PgSticky.threads (pool w) !! t = Some th ->
  PgSticky.inv (pool w1) -> pool_on cn (pool w1) ->
  (exists th1, PgSticky.threads (pool w1) = <[t := th1]> (PgSticky.threads (pool w))) ->
  PgSticky.out (pool w1) = PgSticky.out (pool w) -> pcs w1 = pcs w -> log w1 = log w ->
  call t c p' w1 = Some w' -> c <> PgSticky.SReset -> phase p' (entry c) ->
  has (p, th) = gives c -> has (p', entry c) = 0%nat -> (forall k q x, p' <> TUse k q x) ->
  mu_moves t (locked p) (locked p') (stmtsMu w) (stmtsMu w1) -> inv cn w'.
Proof.
  intros Hw Hp Hth J1 J2 Et Eo Ep El Hc Hr Hph Hh Hh' Huse Hmu. unfold call in Hc.
  destruct (PgSticky.step (pool w1) t (PgSticky.ACall c)) as [P|] eqn:Es; [|done]. injection Hc as <-.
  destruct (call_spec _ _ _ _ Es) as [Et' Eo'].
  eapply (tx_inv_moved cn w _ t p th p' (entry c)); cbn [pool pcs log stmtsMu goto put_pool]; try done.
  - by eapply PgSticky.sticky_step_inv.
  - eapply pool_on_step; [done|exact Es|]. congruence.
  - by rewrite Ep.
  - rewrite Et'. destruct Et as [th1 ->]. by rewrite list_insert_insert_eq.
  - rewrite Eo in Eo'. lia.
  - intros k q x ->. by destruct (Huse k q x).
  - exists []. rewrite app_nil_r. by split.
Qed.

Lemma inv_call_now cn w w' t p th c p' : inv cn w -> pcs w !! t = Some p -> PgSticky.threads (pool w) !! t = Some th ->
  call t c p' w = Some w' -> c <> PgSticky.SReset -> phase p' (entry c) ->
  has (p, th) = gives c -> has (p', entry c) = 0%nat -> (forall k q x, p' <> TUse k q x) -> locked p' = locked p -> inv cn w'.
Proof.
  intros Hw Hp Hth Hc Hr Hph Hh Hh' Huse Hl. pose proof Hw as [I1 I2 _ _ _ _ _ _].
  eapply (inv_call cn w w w' t p th c p'); try done; [|by left]. exists th. by rewrite list_insert_id.
Qed.

Lemma no_log cn (l : list (nat * str)) : exists k, l = l ++ k /\ Forall (fun x => fst x = cn) k.
Proof. exists []. by rewrite app_nil_r. Qed.
#[local] Hint Resolve no_log : core.

Lemma after_inv cn w w' t p th k e : inv cn w -> pcs w !! t = Some p -> PgSticky.threads (pool w) !! t = Some th ->
  PgSticky.t_pc th = PgSticky.Idle -> has (p, th) = 0%nat -> locked p = locked_kont k -> after t k e w = Some w' -> inv cn w'.
Proof.
  intros Hw Hp Hth Hi Hh Hl Ha. destruct k as [stmt| |name|rest e0]; cbn [after locked_kont] in *.
  - injection Ha as <-. eapply (inv_alone cn w _ t p th); try done. left. by rewrite Hl.
  - injection Ha as <-. eapply (inv_alone cn w _ t p th); try done. left. by rewrite Hl.
  - destruct (stmt_error e) as [e'|].
    + by eapply (inv_call_now cn w w' t p th).
    + injection Ha as <-. eapply (inv_alone cn w _ t p th); try done. right. right. by rewrite Hl.
  - by eapply (inv_call_now cn w w' t p th).
Qed.

Lemma tx_step_inv cn w t a w' : inv cn w -> step w t a = Some w' -> inv cn w'.
Proof.
  intros Hw Hs. unfold step in Hs. destruct (pcs w !! t) as [p|] eqn:Hp; [|done]. cbn [mbind option_bind] in Hs.
  destruct (PgSticky.threads (pool w) !! t) as [th|] eqn:Hth; [|done]. cbn [mbind option_bind] in Hs.
  pose proof Hw as [I1 I2 I3 _ I5 _ _ _]. destruct (Forall2_lookup_l _ _ _ _ _ I3 Hp) as (th' & Hth' & Hph). assert (th' = th) as -> by congruence. clear Hth'.
  destruct a as [stmt q|q|q|q name|a|e remove|].
  - destruct p; try done. by eapply (inv_call_now cn w w' t _ th).
  - destruct p; try done. by eapply (inv_call_now cn w w' t _ th).
  - destruct p; try done. destruct (closed w); [|by eapply (inv_call_now cn w w' t _ th)].
    injection Hs as <-. eapply (inv_alone cn w _ t _ th); try done; by left.
  - destruct p; try done. injection Hs as <-. eapply (inv_alone cn w _ t _ th); try done; by left.
  - assert (Ha : forall c, a <> PgSticky.ACall c) by (intros c ->; by destruct p).
    assert (Hs' : (P ← PgSticky.step (pool w) t a; Some (put_pool P w)) = Some w') by (by destruct a, p). clear Hs.
    destruct (PgSticky.step (pool w) t a) as [P|] eqn:Es; [|done]. injection Hs' as <-.
    destruct (pool_step_phase cn (pool w) t th p a P I2 Hth Hph Ha Es) as (th1 & Et & Hph1 & Hh).
    eapply (tx_inv_moved cn w _ t p th p th1); cbn [put_pool pool pcs log stmtsMu]; try done.
    + by eapply PgSticky.sticky_step_inv.
    + by eapply pool_on_step.
    + by rewrite list_insert_id.
    + intros k q c ->. by eapply I5.
    + by left.
  - destruct p; try done. destruct remove; by eapply (inv_call_now cn w w' t _ th).
  - destruct th as [pc r]. cbn [PgSticky.t_pc] in Hs. destruct pc; try done.
    assert (Hfine : forall c, r = PgSticky.RConn c -> c = cn) by (apply (proj1 (Forall_lookup _ _) (on_threads _ _ I2) _ _ Hth)).
    destruct p as [|k q| |k e|q name|e|e|rest e|rest e|e|e]; cbn [go_on PgSticky.ret] in Hs; try done.
    + destruct r as [|c| |e|]; try done; [|by eapply (after_inv cn w w' t _ _ k _ Hw Hp Hth)]. injection Hs as <-.
      rewrite (Hfine c eq_refl) in *. eapply (inv_alone cn w _ t _ _ _ Hw Hp Hth); try done; [by intros ? ? ? [= _ _ <-]| |by left].
      exists [(cn, q)]. split; [done|]. by constructor.
    + by eapply (after_inv cn w w' t _ _ k _ Hw Hp Hth).
    + destruct (stmtsMu w) eqn:Em; [done|]. destruct (PgSticky.step (pool w) t (PgSticky.ACall PgSticky.SNew)) as [P|] eqn:Es; [|done]. cbn [mbind option_bind] in Hs.
      destruct (call_spec _ _ _ _ Es) as [Et Eo]. cbn in Eo.
      eapply (inv_call cn w _ w' t _ _ _ _ Hw Hp Hth); try exact Hs; cbn [pool pcs log stmtsMu put_mu put_pool]; try done.
      * by eapply PgSticky.sticky_step_inv.
      * by eapply pool_on_step.
      * by eexists.
      * unfold PgSticky.step in Es. rewrite Hth in Es. cbn in Es. by injection Es as <-.
      * right. left. by rewrite Em.
    + injection Hs as <-. destruct (closed w); eapply (inv_alone cn w _ t _ _ _ Hw Hp Hth); try done; by left.
    + destruct (stmtsMu w) eqn:Em; [done|]. injection Hs as <-. eapply (inv_alone cn w _ t _ _ _ Hw Hp Hth); try done.
      right. left. by rewrite Em.
    + destruct rest as [|name rest]; by eapply (inv_call_now cn w w' t _ _ _ _ Hw Hp Hth).
    + injection Hs as <-. eapply (inv_alone cn w _ t _ _ _ Hw Hp Hth); try done; by left.
    + injection Hs as <-. eapply (inv_alone cn w _ t _ _ _ Hw Hp Hth); try done. right. right. done.
    + injection Hs as <-. eapply (inv_alone cn w _ t _ _ _ Hw Hp Hth); try done. right. right. done.
Qed.

Lemma share_inv num n cn t : PgSession.live cn t -> PgSession.t_closed t = false -> PgSession.t_log t = l0 -> inv cn (share num n t).
Proof.
  destruct t as [[sh st ch cl bd] c ini stm lg]. intros (L1 & L2 & L3 & _) Hc Hl. cbn in *. subst.
  assert (Hf : forall f, f (PgSticky.Th PgSticky.Idle PgSticky.RNone) = 0%nat -> sum_list_with f (replicate n (PgSticky.Th PgSticky.Idle PgSticky.RNone)) = 0%nat)
    by (intros f Hf; rewrite total_replicate, Hf; lia).
  split; cbn; try done.
  - split; cbn; unfold PgSticky.places; cbn; rewrite ?Hf by done; try done. by apply Forall_replicate.
  - split; cbn; try done; [by apply Forall_replicate|by intros c [= <-]].
  - apply Forall2_replicate. done.
  - rewrite zip_with_replicate. rewrite total_replicate. cbn. lia.
  - intros t k q c [? _]%lookup_replicate. done.
  - by intros t p [-> _]%lookup_replicate.
Qed.
Lemma tx_reach_inv cn w0 w : inv cn w0 -> reach w0 w -> inv cn w.
Proof. intros H0. induction 1; [done|]. by eapply tx_step_inv. Qed.

(** *** Progress *)

(** A step that is not the call of an operation. *)
Definition goes_on (a : action) : bool := match a with BPool _ | BAnswer _ _ | BGo => true | _ => false end.
Definition can_go_on (w : tx) : Prop := exists t a w', goes_on a = true /\ step w t a = Some w'.

Lemma total_pos {A} (f : A -> nat) l : (0 < sum_list_with f l)%nat -> exists i x, l !! i = Some x /\ (0 < f x)%nat.
Proof.
  induction l as [|x l IH]; simpl; [lia|]. intros Hl. destruct (f x) eqn:E.
  - destruct IH as (i & y & Hi & Hy); [lia|]. by exists (S i), y.
  - exists 0%nat, x. split; [done|lia].
Qed.
Lemma call_idle P t r c : PgSticky.threads P !! t = Some (PgSticky.Th PgSticky.Idle r) -> (forall cn x, c = PgSticky.SRemove cn x \/ c = PgSticky.SPut cn -> cn ∈ PgSticky.out P) ->
  exists P', PgSticky.step P t (PgSticky.ACall c) = Some P'.
Proof.
  intros Ht Hc. unfold PgSticky.step. rewrite Ht. cbn. destruct c as [| |cn|cn x| |]; cbn; try by eexists.
  - rewrite bool_decide_true by (by apply (Hc cn None); right). by eexists.
  - rewrite bool_decide_true by (by apply (Hc cn x); left). by eexists.
Qed.
Lemma call_now w t r c p : PgSticky.threads (pool w) !! t = Some (PgSticky.Th PgSticky.Idle r) -> gives c = 0%nat -> exists w', call t c p w = Some w'.
Proof.
  intros Ht Hc. unfold call. destruct (call_idle (pool w) t r c Ht) as [P ->]; [by intros cn x [-> | ->]|]. by eexists.
Qed.
Lemma after_now w t r k e : PgSticky.threads (pool w) !! t = Some (PgSticky.Th PgSticky.Idle r) -> exists w', after t k e w = Some w'.
Proof. intros Ht. destruct k; cbn [after]; try by eexists. - destruct (stmt_error e); [by eapply call_now|by eexists]. - by eapply call_now. Qed.

(** A goroutine that is not in the pool waits at most for the mutex. *)
Lemma outside_goes_on cn w t p r : inv cn w -> pcs w !! t = Some p -> PgSticky.threads (pool w) !! t = Some (PgSticky.Th PgSticky.Idle r) ->
  match p with TIdle _ => False | TLockPrepare _ _ | TLockClose _ => stmtsMu w = None | _ => True end -> can_go_on w.
Proof.
  intros Hw Hp Hth Hq. pose proof Hw as [_ I2 I3 I4 I5 _ _ _]. pose proof (Forall2_lookup_lr _ _ _ _ _ _ I3 Hp Hth) as Hph.
  destruct p as [|k q|k q c|k e|q name|e|e|rest e|rest e|e|e]; try done.
  2: { exists t, (BAnswer None false). unfold step. rewrite Hp, Hth. cbn. unfold call. destruct (call_idle (pool w) t r (PgSticky.SPut c) Hth) as [P ->]; [|by eexists].
       intros c' x [?|[= <-]]; [done|]. assert (c = cn) as -> by (by eapply I5). assert (Hz : zip (pcs w) (PgSticky.threads (pool w)) !! t = Some (TUse k q cn, PgSticky.Th PgSticky.Idle r))
         by (apply lookup_zip_with_Some; eexists _, _; by split_and!).
       pose proof (total_ge has _ _ _ Hz) as Hge. cbn in Hge. destruct (PgSticky.out (pool w)) as [|y l] eqn:Eo; [simpl in I4; lia|].
       pose proof (on_out _ _ I2) as Ho. rewrite Eo in Ho. apply Forall_cons in Ho as [-> _]. by left. }
  all: exists t, BGo; cut (exists w', step w t BGo = Some w'); [intros [w' Hw']; by exists w'|].
  all: unfold step; rewrite Hp, Hth; cbn [mbind option_bind PgSticky.t_pc go_on PgSticky.ret].
  - cbn in Hph. destruct r; try done; [by eexists|by eapply after_now].
  - by eapply after_now.
  - rewrite Hq. destruct (call_idle (pool w) t r PgSticky.SNew Hth) as [P Es]; [by intros ? ? [?|?]|]. rewrite Es. cbn [mbind option_bind].
    apply (call_now _ t PgSticky.RNil); [|done]. cbn. rewrite (proj1 (call_spec _ _ _ _ Es)). apply list_lookup_insert_eq. by eapply lookup_lt_Some.
  - by eexists.
  - rewrite Hq. by eexists.
  - destruct rest; by eapply call_now.
  - by eexists.
  - by eexists.
  - by eexists.
Qed.

(** A goroutine in the pool goes on, or waits for the connection. *)
Lemma inside_goes_on cn w t pc r : inv cn w -> PgSticky.threads (pool w) !! t = Some (PgSticky.Th pc r) -> pc <> PgSticky.Idle ->
  can_go_on w \/ pc = PgSticky.GRecv /\ PgSticky.ch (pool w) = None /\ PgSticky.ch_closed (pool w) = false.
Proof.
  intros Hw Hth Hpc. pose proof Hw as [I1 I2 I3 _ _ _ _ _]. destruct (Forall2_lookup_r _ _ _ _ _ I3 Hth) as (p & Hp & _).
  destruct (PgSticky.do_step t pc (pool w)) as [P|] eqn:Ed.
  - left. exists t, (BPool PgSticky.AStep), (put_pool P w). split; [done|]. unfold step. rewrite Hp, Hth. cbn [mbind option_bind].
    assert (Es : PgSticky.step (pool w) t PgSticky.AStep = Some P) by (unfold PgSticky.step; rewrite Hth; cbn; by destruct pc).
    destruct p; by rewrite Es.
  - right. apply (PgSticky.sticky_blocks (pool w) t pc r); try done.
    intros i ->. destruct (proj1 (Forall_lookup _ _) (on_threads _ _ I2) _ _ Hth) as [[] _].
Qed.

(** Who waits for the connection waits for a goroutine that can go on. *)
Lemma waiting_goes_on cn w : inv cn w -> PgSticky.ch (pool w) = None -> PgSticky.ch_closed (pool w) = false -> can_go_on w.
Proof.
  intros Hw Hch Hcl. pose proof Hw as [I1 I2 I3 I4 _ _ _ _]. pose proof I1 as [Ip Ic _ _].
  assert (Hgo : forall t pc r, PgSticky.threads (pool w) !! t = Some (PgSticky.Th pc r) -> pc <> PgSticky.Idle -> pc <> PgSticky.GRecv -> can_go_on w).
  { intros t pc r Ht H1 H2. by destruct (inside_goes_on cn w t pc r Hw Ht H1) as [?|[? _]]. }
  destruct (PgSticky.state (pool w)) eqn:Est.
  - by destruct (on_state _ _ I2).
  - unfold PgSticky.places in Ip. rewrite Hch in Ip. simpl in Ip. destruct (decide (0 < length (PgSticky.out (pool w)))%nat) as [Ho|Ho].
    + rewrite I4 in Ho. destruct (total_pos _ _ Ho) as (t & [p [pc r]] & Hz & Hh). apply lookup_zip_with_Some in Hz as (p' & th' & [= <- <-] & Hp & Hth).
      pose proof (Forall2_lookup_lr _ _ _ _ _ _ I3 Hp Hth) as Hph.
      destruct p; cbn in Hh; try lia; [|cbn in Hph; subst pc; by eapply (outside_goes_on cn w t)].
      destruct pc; try lia. by eapply (outside_goes_on cn w t).
    + destruct (total_pos (fun th => PgSticky.place (PgSticky.t_pc th)) (PgSticky.threads (pool w))) as (t & [pc r] & Hth & Hpl); [lia|].
      cbn in Hpl. apply (Hgo t pc r Hth); intros ->; cbn in Hpl; lia.
  - rewrite Hcl in Ic. rewrite bool_decide_true in Ic by done.
    destruct (total_pos (fun th => PgSticky.closing (PgSticky.t_pc th)) (PgSticky.threads (pool w))) as (t & [pc r] & Hth & Hpl); [lia|].
    cbn in Hpl. apply (Hgo t pc r Hth); intros ->; cbn in Hpl; lia.
Qed.

Lemma tx_progress cn w t p : inv cn w -> pcs w !! t = Some p -> (forall r, p <> TIdle r) -> can_go_on w.
Proof.
  intros Hw Hp Hi. pose proof Hw as [_ _ I3 _ _ _ I7 I8].
  assert (Hrun : forall t p, pcs w !! t = Some p -> match p with TIdle _ => False | TLockPrepare _ _ | TLockClose _ => stmtsMu w = None | _ => True end -> can_go_on w).
  { clear t p Hp Hi. intros t p Hp Hq. destruct (Forall2_lookup_l _ _ _ _ _ I3 Hp) as ([pc r] & Hth & _).
    assert (Hdec : pc = PgSticky.Idle \/ pc <> PgSticky.Idle) by (destruct pc; auto). destruct Hdec as [->|Hpc]; [by eapply (outside_goes_on cn w t p r)|].
    destruct (inside_goes_on cn w t pc r Hw Hth Hpc) as [?|(_ & ? & ?)]; [done|by eapply waiting_goes_on]. }
  destruct (stmtsMu w) as [u|] eqn:Em; [|apply (Hrun t p Hp); destruct p; try done; by destruct (Hi r)].
  destruct (lookup_lt_is_Some_2 (pcs w) u (I8 u eq_refl)) as [pu Hu]. pose proof (proj2 (I7 u pu Hu) eq_refl) as Hl.
  apply (Hrun u pu Hu). by destruct pu.
Qed.

(** *** The end *)

(** The pool is closed and has nothing left. *)
Definition over (P : pool_t) : Prop := PgSticky.state P = PgSticky.stateClosed /\ PgSticky.kept P = [].

Lemma closed_stays cn P t a P' : pool_on cn P -> PgSticky.step P t a = Some P' -> PgSticky.state P = PgSticky.stateClosed -> PgSticky.state P' = PgSticky.stateClosed.
Proof.
  intros [_ T _ _] Hs Hc. unfold PgSticky.step in Hs. destruct (PgSticky.threads P !! t) as [[pc r]|] eqn:Ht; [|done].
  destruct (proj1 (Forall_lookup _ _) T _ _ Ht) as [Hpc _]. cbn [mbind option_bind PgSticky.t_pc] in *. destruct a as [c| |c|e].
  - destruct pc; try done. destruct c; cbn [PgSticky.do_call] in Hs; try case_bool_decide; by simplify_eq.
  - destruct pc; cbn [PgSticky.do_step pc_on] in *; unfold PgSticky.send in Hs; try done; repeat case_match; by simplify_eq.
  - by destruct pc.
  - by destruct pc.
Qed.
Lemma over_step cn P t a P' : pool_on cn P -> over P -> PgSticky.step P t a = Some P' -> over P'.
Proof.
  intros Hon [Hc Hk] Hs. split; [by eapply closed_stays|]. pose proof (PgSticky.sticky_step_kept _ _ _ _ Hs) as E.
  assert (Hg : PgSticky.gots [PgSticky.event P t a] = []).
  { unfold PgSticky.event. destruct a as [c| |c|e]; try done; [by repeat case_match|].
    unfold PgSticky.step in Hs. destruct (PgSticky.threads P !! t) as [[pc r]|] eqn:Ht; [|done]. cbn in Hs. destruct pc; try done.
    by destruct (proj1 (Forall_lookup _ _) (on_threads _ _ Hon) _ _ Ht) as [[] _]. }
  apply Permutation_nil_r, PgPool.occ_Permutation. intros c. specialize (E c). rewrite Hg, Hk in E. cbn in *. lia.
Qed.

Lemma call_over cn w t c p w' : pool_on cn (pool w) -> over (pool w) -> call t c p w = Some w' -> over (pool w') /\ log w' = log w.
Proof.
  intros Hon Ho Hc. unfold call in Hc. destruct (PgSticky.step _ _ _) as [P|] eqn:Es; [|done]. injection Hc as <-. split; [by eapply over_step|done].
Qed.
Lemma after_over cn w t k e w' : pool_on cn (pool w) -> over (pool w) -> after t k e w = Some w' -> over (pool w') /\ log w' = log w.
Proof.
  intros Hon Ho Ha. destruct k; cbn [after] in Ha; [by simplify_eq..| |by eapply call_over]. destruct (stmt_error e); [by eapply call_over|by simplify_eq].
Qed.

Lemma step_over cn w t a w' : inv cn w -> over (pool w) -> step w t a = Some w' -> over (pool w') /\ log w' = log w.
Proof.
  intros Hw Ho Hs. pose proof Hw as [_ I2 _ I4 _ _ _ _]. unfold step in Hs. destruct (pcs w !! t) as [p|] eqn:Hp; [|done].
  destruct (PgSticky.threads (pool w) !! t) as [[pc r]|] eqn:Hth; [|done]. cbn [mbind option_bind PgSticky.t_pc] in Hs.
  destruct a as [stmt q|q|q|q name|a|e remove|].
  - destruct p; try done. by eapply call_over.
  - destruct p; try done. by eapply call_over.
  - destruct p; try done. destruct (closed w); [by simplify_eq|by eapply call_over].
  - destruct p; try done. by simplify_eq.
  - assert (Hs' : (P ← PgSticky.step (pool w) t a; Some (put_pool P w)) = Some w') by (by destruct a, p). clear Hs.
    destruct (PgSticky.step (pool w) t a) as [P|] eqn:Es; [|done]. injection Hs' as <-. split; [by eapply over_step|done].
  - destruct p; try done. by eapply call_over.
  - destruct pc; try done. destruct p as [|k q| |k e|q name|e|e|rest e|rest e|e|e]; cbn [go_on PgSticky.ret] in Hs; try done.
    + destruct r as [|c| |e|]; try done; [|by eapply after_over]. exfalso.
      assert (Hz : zip (pcs w) (PgSticky.threads (pool w)) !! t = Some (TGet k q, PgSticky.Th PgSticky.Idle (PgSticky.RConn c)))
        by (apply lookup_zip_with_Some; eexists _, _; by split_and!).
      pose proof (total_ge has _ _ _ Hz) as Hge. cbn in Hge. destruct Ho as [_ Hk]. unfold PgSticky.kept in Hk.
      apply app_nil in Hk as [Hout _]. rewrite Hout in I4. simpl in I4. lia.
    + by eapply after_over.
    + destruct (stmtsMu w); [done|]. destruct (PgSticky.step (pool w) t _) as [P|] eqn:Es; [|done]. cbn [mbind option_bind] in Hs.
      eapply call_over in Hs; [exact Hs|by eapply pool_on_step|by eapply over_step].
    + destruct (closed w); by simplify_eq.
    + destruct (stmtsMu w); by simplify_eq.
    + destruct rest; by eapply call_over.
    + by simplify_eq.
    + by simplify_eq.
    + by simplify_eq.
Qed.

Lemma idle_over cn w : inv cn w -> PgSticky.state (pool w) = PgSticky.stateClosed -> Forall (fun p => exists r, p = TIdle r) (pcs w) -> over (pool w).
Proof.
  intros [I1 _ I3 I4 _ _ _ _] Hc Hall. split; [done|]. apply PgSticky.sticky_drained; try done.
  - apply Forall_forall. intros th [t Ht]%list_elem_of_lookup. destruct (Forall2_lookup_r _ _ _ _ _ I3 Ht) as (p & Hp & Hph).
    destruct (proj1 (Forall_lookup _ _) Hall _ _ Hp) as [r ->]. exact Hph.
  - apply length_zero_iff_nil. rewrite I4. apply PgSticky.total_zero. apply Forall_forall. intros [p th] [t Ht]%list_elem_of_lookup.
    apply lookup_zip_with_Some in Ht as (p' & th' & [= <- <-] & Hp & _). by destruct (proj1 (Forall_lookup _ _) Hall _ _ Hp) as [r ->].
Qed.

(** An operation after the end. *)
Lemma over_exec w t r stmt q : pcs w !! t = Some (TIdle r) -> PgSticky.t_pc <$> PgSticky.threads (pool w) !! t = Some PgSticky.Idle ->
  PgSticky.state (pool w) = PgSticky.stateClosed ->
  exists w', run w [(t, BExec stmt q); (t, BPool PgSticky.AStep); (t, BGo)] = Some w' /\
    pcs w' !! t = Some (TIdle (Some (Some (if stmt then ErrStmtClosed else if closed w then ErrTxDone else EPool PgSticky.ErrClosed)))).
Proof.
  intros Hp Hth Hc. destruct (PgSticky.threads (pool w) !! t) as [[pc o]|] eqn:Ht; [|done]. injection Hth as ->.
  pose proof (lookup_lt_Some _ _ _ Hp) as L1. pose proof (lookup_lt_Some _ _ _ Ht) as L2.
  assert (Hins : forall (x : tpc) l, (t < length l)%nat -> <[t := x]> l !! t = Some x) by (intros; by apply list_lookup_insert_eq).
  assert (Hinp : forall (x : PgSticky.thread) l, (t < length l)%nat -> <[t := x]> l !! t = Some x) by (intros; by apply list_lookup_insert_eq).
  set (w1 := goto t (TGet (KReturn stmt) q) (put_pool (PgSticky.goto t (PgSticky.GLoad 0) (pool w)) w)).
  set (w2 := put_pool (PgSticky.return_ t (PgSticky.RErr PgSticky.ErrClosed) (pool w1)) w1).
  assert (E1 : step w t (BExec stmt q) = Some w1) by (unfold step, call, PgSticky.step; rewrite Hp, Ht; done).
  assert (E2 : step w1 t (BPool PgSticky.AStep) = Some w2).
  { unfold step, PgSticky.step. cbn. rewrite Hins, Hinp by done. cbn. by rewrite Hc. }
  assert (E3 : exists w', step w2 t BGo = Some w' /\ pcs w' !! t = Some (TIdle (Some (if stmt then Some ErrStmtClosed else tx_error w2 (Some (EPool PgSticky.ErrClosed)))))).
  { unfold step. cbn. rewrite Hins, Hinp by (by rewrite ?length_insert). cbn. eexists. split; [reflexivity|]. cbn.
    rewrite Hins by (by rewrite ?length_insert). by destruct stmt. }
  destruct E3 as (w' & E3 & Hw'). exists w'. cbn [run]. rewrite E1. cbn [mbind option_bind]. rewrite E2. cbn [mbind option_bind]. rewrite E3. split; [done|].
  rewrite Hw'. destruct stmt; [done|]. cbn. by destruct (closed w).
Qed.

End Invariant.

(** C10: In every interleaving of goroutines that share a transaction which has begun, with
    queries, COPY, prepared statements, Prepare with one attempt, Commit, Rollback and
    Close, every query goes to the connection that ran the BEGIN and at most one goroutine
    uses the connection at a time, so that queries and answers do not mix; as long as an
    operation has not returned, some goroutine can go on (no deadlock, with the mutex of
    the statements and the one connection); and when the transaction is closed, its pool is
    closed and all operations have returned, nothing more is sent, and every operation
    fails, with ErrTxDone if it is one of the transaction and with the error of a closed
    statement else. A query that waits while another goroutine commits can still be sent
    after the COMMIT ([query_after_commit]). *)
Theorem tx_goroutines (MaxRetries : nat) (retryStatementTimeout : bool) (inited : list nat) (inps : nat -> PgSession.input * option PgSession.err)
    (t0 : PgSession.Tx) : PgSession.Begin MaxRetries retryStatementTimeout inited inps = Some (None, t0) ->
  exists cn pre, PgSession.t_log t0 = pre ++ [(cn, bs "BEGIN")] /\
  forall num n w, reach (share num n t0) w ->
  (exists qs, log w = PgSession.t_log t0 ++ ((cn,.) <$> qs)) /\
  (sum_list_with (fun p => match p with TUse _ _ _ => 1 | _ => 0 end) (pcs w) <= 1)%nat /\
  (forall t p, pcs w !! t = Some p -> (forall r, p <> TIdle r) -> can_go_on w) /\
  (closed w = true -> PgSticky.state (pool w) = PgSticky.stateClosed -> Forall (fun p => exists r, p = TIdle r) (pcs w) ->
     (forall w', reach w w' -> log w' = log w) /\
     (forall t stmt q, (t < length (pcs w))%nat ->
        exists w', run w [(t, BExec stmt q); (t, BPool PgSticky.AStep); (t, BGo)] = Some w' /\
          pcs w' !! t = Some (TIdle (Some (Some (if stmt then ErrStmtClosed else ErrTxDone)))))).
Proof.
  intros (cn & pre & Hlog & Hl & Hcl & _)%PgSession.Begin_live. exists cn, pre. split; [done|]. intros num n w Hr.
  pose proof (tx_reach_inv _ cn _ _ (share_inv _ num n cn t0 Hl Hcl eq_refl) Hr) as Hw. pose proof Hw as [I1 I2 I3 I4 _ (l & I6 & Hcn) _ _].
  split; [|split; [|split]].
  - exists l.*2. rewrite I6. f_equal. clear -Hcn. induction Hcn as [|[c q] l Hc _ IH]; [done|]. cbn in Hc |- *. subst c. f_equal. exact IH.
  - pose proof (PgSticky.places_le _ I1) as Hp. unfold PgSticky.places in Hp.
    enough (sum_list_with (fun p => match p with TUse _ _ _ => 1 | _ => 0 end) (pcs w) <= sum_list_with has (zip (pcs w) (PgSticky.threads (pool w))))%nat by lia.
    clear -I3. induction I3 as [|p th ps ths _ _ IH]; [done|]. cbn [zip_with sum_list_with]. destruct p; cbn; lia.
  - intros t p. by apply (tx_progress (PgSession.t_log t0) cn).
  - intros Hc Hst Hall. pose proof (idle_over (PgSession.t_log t0) cn w Hw Hst Hall) as Ho. split.
    + intros w' Hr'. enough (inv (PgSession.t_log t0) cn w' /\ over (pool w') /\ log w' = log w) by tauto.
      induction Hr' as [|w1 t a w2 _ (V & O & E) Hs]; [done|]. destruct (step_over (PgSession.t_log t0) cn _ _ _ _ V O Hs) as [O2 E2]. split; [by eapply tx_step_inv|]. split; [done|congruence].
    + intros t stmt q Ht. destruct (lookup_lt_is_Some_2 _ _ Ht) as [p Hp]. destruct (proj1 (Forall_lookup _ _) Hall _ _ Hp) as [r ->].
      destruct (Forall2_lookup_l _ _ _ _ _ I3 Hp) as (th & Hth & Hph). destruct (over_exec w t r stmt q Hp) as (w' & H1 & H2); [by rewrite Hth; cbn; rewrite Hph|done|].
      exists w'. split; [done|]. by rewrite Hc in H2.
Qed.

(** ** Runs *)

Definition pool_steps (t n : nat) : list (nat * action) := replicate n (t, BPool PgSticky.AStep).
(** A query of one goroutine; the end of the transaction by one. *)
Definition exec_run (t : nat) (q : str) : list (nat * action) :=
  [(t, BExec false q)] ++ pool_steps t 3 ++ [(t, BGo); (t, BAnswer None false)] ++ pool_steps t 1 ++ [(t, BGo)].
Definition commit_get (t : nat) : list (nat * action) := [(t, BFinish (bs "COMMIT"))] ++ pool_steps t 3 ++ [(t, BGo)].
Definition commit_put (t : nat) : list (nat * action) := [(t, BAnswer None false)] ++ pool_steps t 1.
Definition commit_close (t : nat) : list (nat * action) := replicate 4 (t, BGo) ++ pool_steps t 7 ++ [(t, BGo)].

Lemma run_reach w0 w tr w' : reach w0 w -> run w tr = Some w' -> reach w0 w'.
Proof.
  revert w. induction tr as [|[t a] tr IH]; intros w Hr E; cbn [run] in E; [by injection E as <-|].
  destruct (step w t a) as [w1|] eqn:Es; [|done]. apply (IH w1); [by eapply reach_step|done].
Qed.

Definition demo_run : list (nat * action) := exec_run 0 (bs "INSERT") ++ exec_run 1 (bs "UPDATE") ++ commit_get 0 ++ commit_put 0 ++ commit_close 0.
Definition demo_begin : nat -> PgSession.input * option PgSession.err :=
  fun i => if (i =? 0)%nat then (PgSession.fails 3 PgSession.EEOF, None) else (PgSession.fine 4, None).
Definition demo_shared : tx := share (fun _ => 0) 2 PgSession.demo_tx.
Definition demo_over : tx := default demo_shared (run demo_shared demo_run).
Lemma tx_goroutines_witness :
  log demo_over = [(3%nat, bs "BEGIN"); (4%nat, bs "BEGIN"); (4%nat, bs "INSERT"); (4%nat, bs "UPDATE"); (4%nat, bs "COMMIT")] /\
  exists w', run demo_over [(1%nat, BExec false (bs "SELECT")); (1%nat, BPool PgSticky.AStep); (1%nat, BGo)] = Some w' /\
    pcs w' !! 1%nat = Some (TIdle (Some (Some ErrTxDone))).
Proof.
  split; [vm_compute; reflexivity|].
  destruct (tx_goroutines 1 false [] demo_begin PgSession.demo_tx) as (cn & pre & _ & H); [vm_compute; reflexivity|].
  refine (proj2 (proj2 (proj2 (proj2 (H (fun _ => 0) 2%nat demo_over _))) _ _ _) 1%nat false (bs "SELECT") _).
  - eapply (run_reach _ _ demo_run); [apply reach_refl|]. vm_compute. reflexivity.
  - vm_compute. reflexivity.
  - vm_compute. reflexivity.
  - vm_compute. repeat (apply List.Forall_cons; [eexists; reflexivity|]). apply List.Forall_nil.
  - vm_compute. lia.
Defined.

(** A query that waits for the connection while another goroutine commits is sent after
    the COMMIT, on the connection but outside of the transaction, and succeeds. *)
Example query_after_commit :
  option_map (fun w => (drop 2 (log w), pcs w)) (run demo_shared
    (commit_get 0 ++ [(1%nat, BExec false (bs "INSERT"))] ++ pool_steps 1 2 ++ commit_put 0 ++ pool_steps 1 1 ++ [(1%nat, BGo); (1%nat, BAnswer None false)] ++
     pool_steps 1 1 ++ [(1%nat, BGo)] ++ commit_close 0)) =
  Some ([(4%nat, bs "COMMIT"); (4%nat, bs "INSERT")], [TIdle (Some None); TIdle (Some None)]).
Proof. vm_compute. reflexivity. Qed.

End PgTx.
