(* ===== verification/Uboot.v ===== *)
(** * Starting units ([src/uboot/boot.go], [uint.go], [context.go])

    [Boot.Start] runs the registered units by their kind: the front units one after
    the other, the background and the normal units as goroutines, the daemons as
    goroutines that are started again after a panic, and the after units one after the
    other; it waits for the normal units before the daemons, and for the daemons and
    the background units before it returns. Units wait for each other by name. The
    goroutines are run by a scheduler; what a handler does (wait for a unit, return,
    fail or panic) is its choice. Printing is left out. *)
From stdpp Require Import base numbers list gmap.
From S2P Require Import Prelude.
#[local] Open Scope Z_scope.

Module Uboot.

(** ** Registration *)

Abbreviation name_ := (list Z).

(** The kinds are numbers; another number is refused by [Register]. *)
Definition UintFront : Z := 0.
Definition UintBackground : Z := 1.
Definition UintNormal : Z := 2.
Definition UintDaemon : Z := 3.
Definition UintAfter : Z := 4.

Record UintAgent := Agent { name : name_; utype : Z; recover : bool; timeout : Z }.
Definition Uint (n : name_) (t : Z) : UintAgent := Agent n t false 0.
Definition Timeout (d : Z) (u : UintAgent) : UintAgent := Agent (name u) (utype u) (recover u) d.
Definition Recover (u : UintAgent) : UintAgent := Agent (name u) (utype u) true (timeout u).

(** The units by kind, and for each name whether its context has ended. *)
Record Boot := B {
  frontUint : list UintAgent;
  backgroundUint : list UintAgent;
  normalUint : list UintAgent;
  daemonUint : list UintAgent;
  afterUint : list UintAgent;
  require : gmap name_ bool;
  allowNameRepeat : bool;
  bootTimeout : Z;
  locked : bool
}.
Definition NewBoot : Boot := B [] [] [] [] [] ∅ false 0 false.
Definition AllowNameRepeat (b : Boot) : Boot :=
  B (frontUint b) (backgroundUint b) (normalUint b) (daemonUint b) (afterUint b) (require b) true (bootTimeout b) (locked b).
Definition BootTimeout (t : Z) (b : Boot) : Boot :=
  B (frontUint b) (backgroundUint b) (normalUint b) (daemonUint b) (afterUint b) (require b) (allowNameRepeat b) t (locked b).

(** The list of its kind with the unit, or a panic. *)
Definition add_unit (u : UintAgent) (b : Boot) : option Boot :=
  let '(B f g n d a r x z l) := b in
  if utype u =? UintFront then Some (B (f ++ [u]) g n d a r x z l)
  else if utype u =? UintBackground then Some (B f (g ++ [u]) n d a r x z l)
  else if utype u =? UintNormal then Some (B f g (n ++ [u]) d a r x z l)
  else if utype u =? UintDaemon then Some (B f g n (d ++ [u]) a r x z l)
  else if utype u =? UintAfter then Some (B f g n d (a ++ [u]) r x z l)
  else None.
Definition set_require (r : gmap name_ bool) (b : Boot) : Boot :=
  B (frontUint b) (backgroundUint b) (normalUint b) (daemonUint b) (afterUint b) r (allowNameRepeat b) (bootTimeout b) (locked b).

(** [Register]: the state, and whether it panicked on the way. *)
Fixpoint Register (us : list UintAgent) (b : Boot) : Boot * bool :=
  match us with
  | [] => (b, false)
  | u :: us' =>
      match add_unit u b with
      | None => (b, true)
      | Some b =>
          if bool_decide (is_Some (require b !! name u)) && negb (allowNameRepeat b) then (b, true)
          else Register us' (set_require (<[name u := false]> (require b)) b)
      end
  end.

(** ** The run of [Start] *)

(** A unit: not started, its goroutine made, in its handler, in [Require], between two
    runs of a daemon, ended. *)
Inductive ustate := NotStarted | Spawned | Running | Requiring (n : name_) | Sleeping | Ended.
#[export] Instance ustate_eq_dec : EqDecision ustate.
Proof. solve_decision. Defined.

Record unit_ := Un { agent : UintAgent; st : ustate }.
Definition kind (u : unit_) : Z := utype (agent u).

(** Where [Start] is: before each group of units, in the two waits, returned; or on its
    way out with the panic of a front or an after unit, whose deferred function waits
    for the background units. *)
Inductive mpc := MFront | MBack | MNormal | MNormalWait | MDaemon | MAfter | MDaemonWait | MBackWait | MReturned
  | MUnwind (after : bool) | MPanicked (after : bool).
#[export] Instance mpc_eq_dec : EqDecision mpc.
Proof. solve_decision. Defined.

Record world := W { done_ : gmap name_ bool; units : list unit_; main : mpc; crashed : bool }.

Definition set_st (s : ustate) (u : unit_) : unit_ := Un (agent u) s.
Definition is_kind (k : Z) (u : unit_) : bool := kind u =? k.
Definition idle (u : unit_) : bool := bool_decide (st u = NotStarted) || bool_decide (st u = Ended).

(** The goroutines of a kind are made. *)
Definition spawn_kind (k : Z) (us : list unit_) : list unit_ :=
  (fun u => if is_kind k u then set_st Spawned u else u) <$> us.
(** The next unit of a kind that runs one after the other. *)
Fixpoint start_first (k : Z) (us : list unit_) : option (list unit_) :=
  match us with
  | [] => None
  | u :: us' =>
      if is_kind k u && bool_decide (st u = NotStarted) then Some (set_st Running u :: us')
      else cons u <$> start_first k us'
  end.
Definition all_idle (k : Z) (us : list unit_) : bool := forallb (fun u => negb (is_kind k u) || idle u) us.
Definition all_ended (k : Z) (us : list unit_) : bool := forallb (fun u => negb (is_kind k u) || bool_decide (st u = Ended)) us.

Definition set_main (w : world) (us : list unit_) (m : mpc) : world := W (done_ w) us m (crashed w).

(** [Start] runs a kind one after the other, and goes on. *)
Definition one_by_one (w : world) (k : Z) (next : mpc) : option world :=
  if all_idle k (units w) then
    Some (match start_first k (units w) with
          | Some us => set_main w us (main w)
          | None => set_main w (units w) next
          end)
  else None.
Definition wait_for (w : world) (k : Z) (next : mpc) : option world :=
  if all_ended k (units w) then Some (set_main w (units w) next) else None.

Definition main_step (w : world) : option world :=
  match main w with
  | MFront => one_by_one w UintFront MBack
  | MBack => Some (set_main w (spawn_kind UintBackground (units w)) MNormal)
  | MNormal => Some (set_main w (spawn_kind UintNormal (units w)) MNormalWait)
  | MNormalWait => wait_for w UintNormal MDaemon
  | MDaemon => Some (set_main w (spawn_kind UintDaemon (units w)) MAfter)
  | MAfter => one_by_one w UintAfter MDaemonWait
  | MDaemonWait => wait_for w UintDaemon MBackWait
  | MBackWait => wait_for w UintBackground MReturned
  | MUnwind after => if all_idle UintBackground (units w) then Some (set_main w (units w) (MPanicked after)) else None
  | MReturned | MPanicked _ => None
  end.

(** What a goroutine does: begin its handler, call [Require], go on when the unit it
    waits for has ended or when the context it passed is cancelled, end its handler
    (with success, or with an error or a panic), wake up. The timer runs when a
    timeout is set and the unit does not wait in [Require]. *)
Inductive action := ABegin | ARequire (n : name_) | AGo | ACancel | AEnd (ok : bool) | AWake | ATimer.

Definition set_unit (w : world) (i : nat) (u : unit_) (s : ustate) : world :=
  W (done_ w) (<[i := set_st s u]> (units w)) (main w) (crashed w).
Definition crash (w : world) : world := W (done_ w) (units w) (main w) true.

(** The deferred function of [UintAgent.start] when nothing is left to panic: the
    name's context ends. *)
Definition signal (w : world) (i : nat) (u : unit_) : world :=
  W (if bool_decide (is_Some (done_ w !! name (agent u))) then <[name (agent u) := true]> (done_ w) else done_ w)
    (<[i := set_st Ended u]> (units w)) (main w) (crashed w).

(** An error or a panic of the handler that is not recovered: a daemon is started
    again, a front or an after unit ends [Start], another one ends the process. *)
Definition fail_unit (w : world) (i : nat) (u : unit_) : world :=
  if kind u =? UintDaemon then set_unit w i u Sleeping
  else if (kind u =? UintFront) || (kind u =? UintAfter) then
    W (done_ w) (<[i := set_st Ended u]> (units w)) (MUnwind (kind u =? UintAfter)) (crashed w)
  else crash w.

(** [Start] sets [recover] of daemons to false. *)
Definition recovers (u : unit_) : bool := recover (agent u) && negb (kind u =? UintDaemon).

Definition unit_step (w : world) (i : nat) (a : action) : option world :=
  u ← units w !! i;
  match st u, a with
  | Spawned, ABegin => Some (set_unit w i u Running)
  | Running, ARequire n =>
      Some (match done_ w !! n with
            | Some false => set_unit w i u (Requiring n)
            | _ => w
            end)
  | Requiring n, AGo => if bool_decide (done_ w !! n = Some true) then Some (set_unit w i u Running) else None
  | Requiring n, ACancel => Some (set_unit w i u Running)
  | Running, AEnd ok => Some (if (ok : bool) || recovers u then signal w i u else fail_unit w i u)
  | Sleeping, AWake => Some (set_unit w i u Running)
  | Running, ATimer => if 0 <? timeout (agent u) then Some (if recovers u then w else crash w) else None
  | _, _ => None
  end.

(** One step: of [Start], of a unit, or the timer of [BootTimeout], which ends the
    process unless [Start] has returned. *)
Inductive event := EMain | EUnit (i : nat) (a : action) | EBootTimer.
Definition step (limit : Z) (w : world) (e : event) : option world :=
  if crashed w then None
  else match e with
       | EMain => main_step w
       | EUnit i a => unit_step w i a
       | EBootTimer =>
           if 0 <? limit then match main w with MReturned | MPanicked _ => None | _ => Some (crash w) end else None
       end.

(** The first call of [Start]; a later one returns false. *)
Definition Start (b : Boot) : option world :=
  if locked b then None
  else Some (W (require b) ((fun u => Un u NotStarted) <$>
               frontUint b ++ backgroundUint b ++ normalUint b ++ daemonUint b ++ afterUint b) MFront false).

Inductive reach (limit : Z) (w0 : world) : world -> Prop :=
| reach_refl : reach limit w0 w0
| reach_step w a w' : reach limit w0 w -> step limit w a = Some w' -> reach limit w0 w'.

Fixpoint run (limit : Z) (w : world) (tr : list event) : option world :=
  match tr with [] => Some w | a :: tr' => w' ← step limit w a; run limit w' tr' end.

(** ** What [Start] guarantees *)

(** How far [Start] is; from which point on units of a kind are started, and from
    which point on they have ended. *)
Definition level (m : mpc) : Z :=
  match m with
  | MFront | MUnwind false | MPanicked false => 0
  | MBack => 1 | MNormal => 2 | MNormalWait => 3 | MDaemon => 4
  | MAfter | MUnwind true | MPanicked true => 5
  | MDaemonWait => 6 | MBackWait => 7 | MReturned => 8
  end.
Definition first_level (k : Z) : Z :=
  if k =? UintFront then 0 else if k =? UintBackground then 2 else if k =? UintNormal then 3 else 5.
Definition last_level (k : Z) : Z :=
  if k =? UintFront then 0 else if k =? UintBackground then 7 else if k =? UintNormal then 3 else if k =? UintDaemon then 6 else 5.
Definition in_turn (k : Z) : Prop := k = UintFront \/ k = UintAfter.

Record unit_ok (l : Z) (u : unit_) : Prop := {
  o_kind : 0 <= kind u <= 4;
  o_before : l < first_level (kind u) -> st u = NotStarted;
  o_after : last_level (kind u) < l -> st u = Ended;
  o_made : ~ in_turn (kind u) -> first_level (kind u) <= l -> st u <> NotStarted
}.

Record inv (w : world) : Prop := {
  i_units : Forall (unit_ok (level (main w))) (units w);
  i_turn : forall i j u v, (i < j)%nat -> units w !! i = Some u -> units w !! j = Some v ->
    in_turn (kind u) -> kind v = kind u -> st v <> NotStarted -> st u = Ended;
  i_done : forall n, done_ w !! n = Some true -> exists i u, units w !! i = Some u /\ name (agent u) = n /\ st u = Ended
}.

Definition active (u : unit_) : Prop := st u <> NotStarted /\ st u <> Ended.

Lemma active_ok l u s : unit_ok l u -> active u -> s <> NotStarted -> unit_ok l (set_st s u).
Proof.
  intros [Hk Hb Ha Hm] [H1 H2] Hs. split; cbn [set_st st] in *; change (kind (Un (agent u) s)) with (kind u); try done.
  - intros H. by destruct H1; apply Hb.
  - intros H. by destruct H2; apply Ha.
Qed.

Lemma active_level l u : unit_ok l u -> active u -> first_level (kind u) <= l <= last_level (kind u).
Proof.
  intros [_ Hb Ha _] [H1 H2]. split.
  - destruct (Z.lt_ge_cases l (first_level (kind u))) as [H|H]; [by destruct H1; apply Hb|done].
  - destruct (Z.lt_ge_cases (last_level (kind u)) l) as [H|H]; [by destruct H2; apply Ha|done].
Qed.

(** A unit at work changes, and nothing else of the units. *)
Lemma inv_unit w i u s m d c : inv w -> units w !! i = Some u -> active u -> s <> NotStarted -> level m = level (main w) ->
  (forall n, d !! n = Some true -> done_ w !! n = Some true \/ s = Ended /\ n = name (agent u)) ->
  inv (W d (<[i := set_st s u]> (units w)) m c).
Proof.
  intros [Hu Ht Hd] Hi Hact Hs Hl Hdone. pose proof Hact as [H1 H2]. split; cbn [units main done_].
  - rewrite Hl. apply Forall_insert; [done|]. rewrite Forall_lookup in Hu. apply active_ok; [by eapply Hu|done|done].
  - intros a b x y Hab Ha Hb Hk Hkk Hy.
    apply list_lookup_insert_Some in Ha as [(<- & <- & Hla)|[Hna Ha]]; apply list_lookup_insert_Some in Hb as [(<- & <- & Hlb)|[Hnb Hb]].
    + lia.
    + destruct H2. by apply (Ht i b u y).
    + apply (Ht a i x u); try done.
    + by apply (Ht a b x y).
  - intros n Hn. destruct (Hdone n Hn) as [Hold|[-> ->]].
    + destruct (Hd n Hold) as (j & v & Hj & Hv & He). exists j, v. rewrite list_lookup_insert_ne; [done|]. intros <-.
      rewrite Hi in Hj. injection Hj as <-. done.
    + exists i, (set_st Ended u). rewrite list_lookup_insert_eq; [done|]. by eapply lookup_lt_Some.
Qed.

Lemma unit_step_inv w i a w' : inv w -> unit_step w i a = Some w' -> inv w'.
Proof.
  intros Hw Hs. unfold unit_step in Hs. destruct (units w !! i) as [u|] eqn:Hi; [|done]. cbn [mbind option_bind] in Hs.
  assert (Hcrash : inv (crash w)) by (destruct Hw; by split).
  assert (Hset : forall s, active u -> s <> NotStarted -> inv (set_unit w i u s)).
  { intros s Ha Hn. apply inv_unit with (u := u); auto. }
  destruct (st u) eqn:Est; destruct a as [|n'| | |ok| |]; try done;
    assert (Hact : active u) by (split; congruence).
  - injection Hs as <-. by apply Hset.
  - injection Hs as <-. destruct (done_ w !! n') as [[]|]; [done|by apply Hset|done].
  - injection Hs as <-. destruct (ok || recovers u).
    + apply inv_unit with (u := u); try done. intros n Hn. case_bool_decide; [|by left].
      apply lookup_insert_Some in Hn as [[-> _]|[_ Hn]]; [by right|by left].
    + unfold fail_unit. destruct (Z.eqb_spec (kind u) UintDaemon) as [Hd|Hd]; [by apply Hset|].
      destruct ((_ =? _) || (_ =? _)) eqn:Ek; [|done]. apply inv_unit with (u := u); try done; [|by left].
      destruct Hw as [Hu _ _]. rewrite Forall_lookup in Hu. pose proof (active_level _ _ (Hu _ _ Hi) Hact) as Hlev.
      apply orb_true_iff in Ek as [Ek|Ek]; apply Z.eqb_eq in Ek; rewrite Ek in *; simpl in *; unfold first_level, last_level in Hlev; simpl in Hlev; lia.
  - destruct (_ <? _); [|done]. injection Hs as <-. by destruct (recovers u).
  - destruct (bool_decide _); [|done]. injection Hs as <-. by apply Hset.
  - injection Hs as <-. by apply Hset.
  - injection Hs as <-. by apply Hset.
Qed.

(** [Start] goes on to the next point. *)
Lemma ok_next l u : unit_ok l u -> (last_level (kind u) = l -> st u = Ended) ->
  (~ in_turn (kind u) -> first_level (kind u) = l + 1 -> st u <> NotStarted) -> unit_ok (l + 1) u.
Proof.
  intros [Hk Hb Ha Hm] He Hs. split; [done| | |].
  - intros H. apply Hb. lia.
  - intros H. destruct (Z.eq_dec (last_level (kind u)) l); [auto|]. apply Ha. lia.
  - intros Ht H. destruct (Z.eq_dec (first_level (kind u)) (l + 1)); [auto|]. apply Hm; [done|lia].
Qed.

Lemma inv_next w m : inv w -> level m = level (main w) + 1 ->
  Forall (fun u => (last_level (kind u) = level (main w) -> st u = Ended) /\
    (~ in_turn (kind u) -> first_level (kind u) = level (main w) + 1 -> st u <> NotStarted)) (units w) ->
  inv (set_main w (units w) m).
Proof.
  intros [Hu Ht Hd] Hl Hf. split; [|done|done]. cbn [set_main main units]. rewrite Hl.
  rewrite Forall_lookup in *. intros i u Hi. destruct (Hf i u Hi). apply ok_next; eauto.
Qed.

Lemma start_first_spec k l : match start_first k l with
  | Some l' => exists j u, l !! j = Some u /\ kind u = k /\ st u = NotStarted /\ l' = <[j := set_st Running u]> l /\
      forall i v, (i < j)%nat -> l !! i = Some v -> kind v = k -> st v <> NotStarted
  | None => forall i v, l !! i = Some v -> kind v = k -> st v <> NotStarted
  end.
Proof.
  induction l as [|x l IH]; [done|]. cbn [start_first]. destruct (is_kind k x && bool_decide (st x = NotStarted)) eqn:E.
  - apply andb_true_iff in E as [E1%Z.eqb_eq E2%bool_decide_eq_true]. exists 0%nat, x. split_and!; try done. intros i v Hi. lia.
  - assert (Hx : kind x = k -> st x <> NotStarted).
    { intros <- Hst. unfold is_kind in E. by rewrite Z.eqb_refl, bool_decide_true in E. }
    destruct (start_first k l) as [l'|]; cbn [fmap option_fmap option_map].
    + destruct IH as (j & u & Hj & Hk & Hs & -> & Hb). exists (S j), u. split_and!; try done.
      intros [|i] v Hi Hv; [by injection Hv as <-|]. apply (Hb i v); [lia|done].
    + intros [|i] v Hv; [by injection Hv as <-|]. by apply (IH i v).
Qed.

Lemma all_idle_spec k us i u : all_idle k us = true -> us !! i = Some u -> kind u = k -> st u = NotStarted \/ st u = Ended.
Proof.
  intros Ha Hi Hk. unfold all_idle in Ha. rewrite forallb_forall in Ha.
  assert (Hin : In u us) by (apply list_elem_of_In; by eapply list_elem_of_lookup_2). specialize (Ha u Hin). unfold is_kind, idle in Ha.
  rewrite Hk, Z.eqb_refl in Ha. simpl in Ha. apply orb_true_iff in Ha as [Ha|Ha]; apply bool_decide_eq_true in Ha; auto.
Qed.
Lemma all_ended_spec k us i u : all_ended k us = true -> us !! i = Some u -> kind u = k -> st u = Ended.
Proof.
  intros Ha Hi Hk. unfold all_ended in Ha. rewrite forallb_forall in Ha.
  assert (Hin : In u us) by (apply list_elem_of_In; by eapply list_elem_of_lookup_2). specialize (Ha u Hin). unfold is_kind in Ha.
  rewrite Hk, Z.eqb_refl in Ha. simpl in Ha. by apply bool_decide_eq_true in Ha.
Qed.

Ltac kinds u :=
  let Hk := fresh in
  assert (Hk : kind u = 0 \/ kind u = 1 \/ kind u = 2 \/ kind u = 3 \/ kind u = 4) by lia;
  unfold in_turn, first_level, last_level, UintFront, UintBackground, UintNormal, UintDaemon, UintAfter in *;
  destruct Hk as [Hk|[Hk|[Hk|[Hk|Hk]]]]; rewrite Hk in *; simpl in *; try lia.

Lemma one_by_one_inv w k next w' : inv w -> in_turn k -> level (main w) = first_level k -> level next = level (main w) + 1 ->
  one_by_one w k next = Some w' -> inv w'.
Proof.
  intros Hw Hk Hl Hn Hs. unfold one_by_one in Hs. destruct (all_idle k (units w)) eqn:Ea; [|done]. injection Hs as <-.
  pose proof (start_first_spec k (units w)) as Hf. destruct (start_first k (units w)) as [us|].
  - destruct Hf as (j & u & Hj & Hku & Hst & -> & Hb). destruct Hw as [Hu Ht Hd]. split; cbn [set_main units main done_].
    + apply Forall_insert; [done|]. rewrite Forall_lookup in Hu. destruct (Hu j u Hj) as [H1 H2 H3 H4].
      split; cbn [st set_st]; change (kind (set_st Running u)) with (kind u); try done.
      * rewrite Hku. lia.
      * rewrite Hku, Hl. destruct Hk as [-> | ->]; unfold first_level, last_level; simpl; lia.
    + intros a b x y Hab Hx Hy Hkx Hkk Hsy.
      apply list_lookup_insert_Some in Hx as [(<- & <- & _)|[Hna Hx]]; apply list_lookup_insert_Some in Hy as [(<- & <- & _)|[Hnb Hy]].
      * lia.
      * assert (st u = Ended) by (by apply (Ht j b u y)). congruence.
      * assert (Hkx' : kind x = k) by (change (kind (set_st Running u)) with (kind u) in Hkk; congruence).
        destruct (all_idle_spec k _ _ _ Ea Hx Hkx') as [E|E]; [|done]. by destruct (Hb a x Hab Hx Hkx').
      * by apply (Ht a b x y).
    + intros n Hnn. destruct (Hd n Hnn) as (i & v & Hi & Hv & He). exists i, v. rewrite list_lookup_insert_ne; [done|]. intros <-. congruence.
  - apply inv_next; [done|done|]. pose proof (i_units _ Hw) as Hu. rewrite Forall_lookup in *. intros i u Hi.
    pose proof (o_kind _ _ (Hu i u Hi)) as Hrange. split.
    + intros Hlast. assert (Hku : kind u = k) by (rewrite Hl in Hlast; destruct Hk as [-> | ->]; kinds u).
      destruct (all_idle_spec k _ _ _ Ea Hi Hku) as [E|E]; [|done]. by destruct (Hf i u Hi Hku).
    + intros Ht Hfirst. rewrite Hl in Hfirst. destruct Hk as [-> | ->]; kinds u.
Qed.

Lemma wait_for_inv w k next w' : inv w -> level next = level (main w) + 1 -> last_level k = level (main w) ->
  (forall u, 0 <= kind u <= 4 -> last_level (kind u) = level (main w) -> kind u = k) ->
  (forall u, 0 <= kind u <= 4 -> ~ in_turn (kind u) -> first_level (kind u) <> level (main w) + 1) ->
  wait_for w k next = Some w' -> inv w'.
Proof.
  intros Hw Hn Hl Hk Hf Hs. unfold wait_for in Hs. destruct (all_ended k (units w)) eqn:Ea; [|done]. injection Hs as <-.
  apply inv_next; [done|done|]. pose proof (i_units _ Hw) as Hu. rewrite Forall_lookup in *. intros i u Hi.
  pose proof (o_kind _ _ (Hu i u Hi)) as Hrange. split.
  - intros Hlast. by eapply all_ended_spec; [exact Ea|exact Hi|apply Hk].
  - intros Ht Hfirst. by destruct (Hf u Hrange Ht).
Qed.

Lemma spawn_inv w k next : inv w -> ~ in_turn k -> first_level k = level (main w) + 1 -> level next = level (main w) + 1 ->
  (forall u, 0 <= kind u <= 4 -> last_level (kind u) <> level (main w)) ->
  (forall u, 0 <= kind u <= 4 -> ~ in_turn (kind u) -> first_level (kind u) = level (main w) + 1 -> kind u = k) ->
  first_level k <= last_level k -> inv (set_main w (spawn_kind k (units w)) next).
Proof.
  intros [Hu Ht Hd] Hk Hl Hn Hlast Hfirst Hle.
  assert (Hlook : forall i v, spawn_kind k (units w) !! i = Some v -> exists u, units w !! i = Some u /\
    (kind u = k /\ v = set_st Spawned u /\ st u = NotStarted \/ kind u <> k /\ v = u)).
  { intros i v Hv. unfold spawn_kind in Hv. rewrite list_lookup_fmap in Hv. destruct (units w !! i) as [u|] eqn:Hi; [|done].
    cbn in Hv. injection Hv as <-. exists u. split; [done|]. unfold is_kind. destruct (Z.eqb_spec (kind u) k) as [E|E]; [left|by right].
    split_and!; try done. rewrite Forall_lookup in Hu. apply (o_before _ _ (Hu i u Hi)). rewrite E. lia. }
  rewrite Forall_lookup in Hu. split; cbn [set_main units main done_].
  - rewrite Hn, Forall_lookup. intros i v (u & Hi & Hv)%Hlook. pose proof (Hu i u Hi) as Huok. pose proof (o_kind _ _ Huok) as Hr.
    destruct Hv as [(Hku & -> & Hst)|[Hku ->]].
    + split; cbn [st set_st]; change (kind (set_st Spawned u)) with (kind u); try done; rewrite Hku; lia.
    + apply ok_next; [done|intros E; by destruct (Hlast u Hr)|]. intros Hit E. by destruct Hku; apply Hfirst.
  - intros i j x y Hij (u & Hi & Hx)%Hlook (v & Hj & Hy)%Hlook Hkx Hkk Hsy.
    destruct Hx as [(Hku & -> & _)|[Hku ->]]; [change (kind (set_st Spawned u)) with (kind u) in Hkx; by rewrite Hku in Hkx|].
    destruct Hy as [(Hkv & -> & _)|[Hkv ->]]; [change (kind (set_st Spawned v)) with (kind v) in Hkk; congruence|]. by apply (Ht i j u v).
  - intros n Hnn. destruct (Hd n Hnn) as (i & u & Hi & Hnm & He). exists i, u. split; [|done].
    unfold spawn_kind. rewrite list_lookup_fmap, Hi. cbn. unfold is_kind. destruct (Z.eqb_spec (kind u) k) as [E|E]; [|done].
    assert (st u = NotStarted) by (apply (o_before _ _ (Hu i u Hi)); rewrite E; lia). congruence.
Qed.

Lemma main_step_inv w w' : inv w -> main_step w = Some w' -> inv w'.
Proof.
  intros Hw Hs. unfold main_step in Hs. destruct (main w) eqn:Em; try done.
  - eapply (one_by_one_inv w UintFront MBack); [done|by left|by rewrite Em|by rewrite Em|exact Hs].
  - injection Hs as <-. apply spawn_inv; rewrite ?Em; try done; try (intros [|]; done); intros u Hu; kinds u.
  - injection Hs as <-. apply spawn_inv; rewrite ?Em; try done; try (intros [|]; done); intros u Hu; kinds u.
  - eapply (wait_for_inv w UintNormal MDaemon); [done| | | | |exact Hs]; rewrite ?Em; try done; intros u Hu; kinds u.
  - injection Hs as <-. apply spawn_inv; rewrite ?Em; try done; try (intros [|]; done); intros u Hu; kinds u.
  - eapply (one_by_one_inv w UintAfter MDaemonWait); [done|by right|by rewrite Em|by rewrite Em|exact Hs].
  - eapply (wait_for_inv w UintDaemon MBackWait); [done| | | | |exact Hs]; rewrite ?Em; try done; intros u Hu; kinds u.
  - eapply (wait_for_inv w UintBackground MReturned); [done| | | | |exact Hs]; rewrite ?Em; try done; intros u Hu; kinds u.
  - destruct (all_idle _ _); [|done]. injection Hs as <-. destruct Hw as [Hu Ht Hd]. split; [|done|done].
    cbn [set_main main units]. rewrite Em in Hu. by destruct after.
Qed.

(** *** Registered units *)

Definition all_units (b : Boot) : list UintAgent := frontUint b ++ backgroundUint b ++ normalUint b ++ daemonUint b ++ afterUint b.
Definition registered (b : Boot) : Prop :=
  Forall (fun u => 0 <= utype u <= 4) (all_units b) /\ forall n, require b !! n <> Some true.

Lemma add_unit_kinds u b b' : add_unit u b = Some b' -> registered b -> registered b'.
Proof.
  intros E [Hk Hr]. destruct b as [f g n d a r x z l]. unfold registered, all_units in *. cbn in *.
  unfold UintFront, UintBackground, UintNormal, UintDaemon, UintAfter in *.
  repeat (case_match; [injection E as <-|]); try done; cbn in *; rewrite !Forall_app in *; split; try done;
    split_and!; try apply Hk; try (apply Forall_singleton; lia).
Qed.
Lemma Register_registered us : forall b b' p, Register us b = (b', p) -> registered b -> registered b'.
Proof.
  induction us as [|u us IH]; intros b b' p E Hb; [by injection E as <- <-|]. cbn [Register] in E.
  destruct (add_unit u b) as [b1|] eqn:E1; [|by injection E as <- _].
  pose proof (add_unit_kinds u b b1 E1 Hb) as [Hk Hr]. destruct (_ && _); [by injection E as <- _|].
  apply (IH _ _ _ E). split; [exact Hk|]. intros n. cbn. rewrite lookup_insert_Some. intros [[_ ?]|[_ ?]]; [done|by apply (Hr n)].
Qed.

Lemma Start_inv b w : registered b -> Start b = Some w -> inv w.
Proof.
  intros [Hk Hr] E. unfold Start in E. destruct (locked b); [done|]. injection E as <-. split; cbn [units main done_].
  - apply Forall_fmap. fold (all_units b). eapply Forall_impl; [exact Hk|]. intros u Hu. cbv beta in *.
    split; cbn [compose level st]; change (kind (Un u NotStarted)) with (utype u); try done.
    + unfold last_level, UintFront, UintBackground, UintNormal, UintDaemon. repeat case_match; lia.
    + intros Ht Hf. destruct Ht. left. unfold first_level, UintFront, UintBackground, UintNormal in *. repeat case_match; lia.
  - intros i j u v _ _ Hj _ _ Hv. apply list_lookup_fmap_Some in Hj as (x & -> & _). done.
  - intros n Hn. by destruct (Hr n).
Qed.

Lemma boot_step_inv limit w a w' : inv w -> step limit w a = Some w' -> inv w'.
Proof.
  intros Hw Hs. unfold step in Hs. destruct (crashed w); [done|].
  destruct a as [|i a|]; [by eapply main_step_inv|by eapply unit_step_inv|]. destruct (0 <? limit); [|done].
  assert (inv (crash w)) by (destruct Hw; by split). by destruct (main w); try done; injection Hs as <-.
Qed.
Lemma boot_reach_inv limit w0 w : inv w0 -> reach limit w0 w -> inv w.
Proof. intros H0. induction 1; [done|by eapply boot_step_inv]. Qed.

Lemma boot_inv us (repeat_ : bool) b p w0 w :
  Register us (if repeat_ then AllowNameRepeat NewBoot else NewBoot) = (b, p) -> Start b = Some w0 -> reach (bootTimeout b) w0 w -> inv w.
Proof.
  intros Hb HS Hr. refine (boot_reach_inv _ _ _ (Start_inv _ _ _ HS) Hr). eapply Register_registered; [exact Hb|].
  destruct repeat_; (split; [constructor|]; intros n; cbn; by rewrite lookup_empty).
Qed.

(** *** A schedule to the end *)

Definition weight (s : ustate) : nat :=
  match s with NotStarted => 4 | Spawned | Sleeping | Requiring _ => 3 | Running => 2 | Ended => 0 end.
Definition work (us : list unit_) : nat := sum_list_with (fun u => weight (st u)) us.
Definition measure (w : world) : nat := work (units w) + Z.to_nat (8 - level (main w)).

(** [Start] is on its way, nothing has failed, and no unit waits for another. *)
Definition on_its_way (m : mpc) : Prop := match m with MUnwind _ | MPanicked _ => False | _ => True end.
Definition fine (w : world) : Prop :=
  inv w /\ crashed w = false /\ on_its_way (main w) /\ Forall (fun u => forall n, st u <> Requiring n) (units w).

Lemma unit_progress limit w i u : fine w -> units w !! i = Some u -> active u ->
  exists a w', step limit w (EUnit i a) = Some w' /\ fine w' /\ (measure w' < measure w)%nat.
Proof.
  intros (Hw & Hc & Hm & Hf) Hi Hact.
  assert (Hgo : forall a s d, step limit w (EUnit i a) = Some (W d (<[i := set_st s u]> (units w)) (main w) (crashed w)) ->
    (forall n, s <> Requiring n) -> (weight s < weight (st u))%nat ->
    exists a w', step limit w (EUnit i a) = Some w' /\ fine w' /\ (measure w' < measure w)%nat).
  { intros a s d E Hs Hwt. exists a. eexists. split; [exact E|]. split.
    - split_and!; [by eapply boot_step_inv|done|done|]. by apply Forall_insert.
    - unfold measure, work. cbn [units main].
      pose proof (total_insert (fun u => weight (st u)) _ _ _ (set_st s u) Hi) as E2. cbn [st set_st] in E2. lia. }
  rewrite Forall_lookup in Hf. destruct Hact as [H1 H2].
  assert (Hst : forall a, step limit w (EUnit i a) = unit_step w i a) by (intros a; unfold step; by rewrite Hc).
  destruct (st u) as [| | |n| |] eqn:Est; try done.
  - apply (Hgo ABegin Running (done_ w)); [|done|simpl; lia]. rewrite Hst. unfold unit_step. rewrite Hi. cbn. by rewrite Est.
  - eapply (Hgo (AEnd true) Ended); [|done|simpl; lia]. rewrite Hst. unfold unit_step. rewrite Hi. cbn. by rewrite Est.
  - by destruct (Hf i u Hi n).
  - apply (Hgo AWake Running (done_ w)); [|done|simpl; lia]. rewrite Hst. unfold unit_step. rewrite Hi. cbn. by rewrite Est.
Qed.

(** When every unit waits to be started or has ended, [Start] itself goes on. *)
Definition rested (us : list unit_) : Prop := forall i u, us !! i = Some u -> ~ active u.

Lemma rested_idle k us : rested us -> all_idle k us = true.
Proof.
  intros Hr. apply forallb_forall. intros u (i & Hi)%list_elem_of_In%list_elem_of_lookup. specialize (Hr i u Hi). unfold idle, active in *.
  destruct (is_kind k u); [|done]. simpl. destruct (decide (st u = NotStarted)); [by rewrite bool_decide_true|].
  rewrite bool_decide_false by done. simpl. apply bool_decide_eq_true. destruct (decide (st u = Ended)); [done|]. by destruct Hr.
Qed.
Lemma rested_ended w k : inv w -> rested (units w) -> ~ in_turn k -> first_level k <= level (main w) -> all_ended k (units w) = true.
Proof.
  intros Hw Hr Hk Hl. apply forallb_forall. intros u (i & Hi)%list_elem_of_In%list_elem_of_lookup.
  unfold is_kind. destruct (Z.eqb_spec (kind u) k) as [E|E]; [|done]. simpl. apply bool_decide_eq_true.
  pose proof (i_units _ Hw) as Hu. rewrite Forall_lookup in Hu. pose proof (o_made _ _ (Hu i u Hi)) as Hm. rewrite E in Hm.
  destruct (decide (st u = Ended)); [done|]. destruct (Hr i u Hi). split; [by apply Hm|done].
Qed.
Lemma spawn_work k us : Forall (fun u => kind u = k -> st u = NotStarted) us -> (work (spawn_kind k us) <= work us)%nat.
Proof.
  unfold work, spawn_kind. induction 1 as [|u us Hu _ IH]; [done|]. cbn [fmap list_fmap sum_list_with] in *. unfold is_kind at 1.
  destruct (Z.eqb_spec (kind u) k) as [E|E]; [|lia]. rewrite (Hu E). cbn [st set_st weight]. lia.
Qed.
Lemma spawn_calm k us : Forall (fun u => forall n, st u <> Requiring n) us -> Forall (fun u => forall n, st u <> Requiring n) (spawn_kind k us).
Proof. unfold spawn_kind. rewrite Forall_fmap. intros Hf. eapply Forall_impl; [exact Hf|]. intros u Hu n. cbn. destruct (is_kind k u); [done|apply Hu]. Qed.

Lemma main_progress limit w : fine w -> rested (units w) -> main w <> MReturned ->
  exists w', step limit w EMain = Some w' /\ fine w' /\ (measure w' < measure w)%nat.
Proof.
  intros (Hw & Hc & Hm & Hf) Hr Hne. pose proof (i_units _ Hw) as Hu.
  assert (Hgo : forall us m, step limit w EMain = Some (set_main w us m) -> on_its_way m ->
    Forall (fun u => forall n, st u <> Requiring n) us -> (work us + Z.to_nat (8 - level m) < measure w)%nat ->
    exists w', step limit w EMain = Some w' /\ fine w' /\ (measure w' < measure w)%nat).
  { intros us m E Hom Hcalm Hlt. eexists. split; [exact E|]. split; [|done]. split_and!; [by eapply boot_step_inv|done|done|done]. }
  assert (Hturn : forall k next, main_step w = one_by_one w k next -> on_its_way next -> level next = level (main w) + 1 -> level (main w) < 8 ->
    exists w', step limit w EMain = Some w' /\ fine w' /\ (measure w' < measure w)%nat).
  { intros k next E Hn Hl H8. unfold step in Hgo. rewrite Hc, E in Hgo. unfold one_by_one in Hgo. rewrite rested_idle in Hgo by done.
    unfold step. rewrite Hc, E. unfold one_by_one. rewrite rested_idle by done.
    pose proof (start_first_spec k (units w)) as Hs. destruct (start_first k (units w)) as [us|].
    - destruct Hs as (j & u & Hj & _ & Hst & -> & _). eapply Hgo; [done|done|by apply Forall_insert|]. unfold measure, work.
      pose proof (total_insert (fun u => weight (st u)) _ _ _ (set_st Running u) Hj) as E2. cbn [st set_st] in E2. rewrite Hst in E2. cbn [weight] in E2. lia.
    - eapply Hgo; [done|done|done|]. unfold measure. lia. }
  assert (Hspawn : forall k next, main_step w = Some (set_main w (spawn_kind k (units w)) next) -> on_its_way next ->
    level next = level (main w) + 1 -> level (main w) < first_level k -> level (main w) < 8 ->
    exists w', step limit w EMain = Some w' /\ fine w' /\ (measure w' < measure w)%nat).
  { intros k next E Hn Hl Hk H8. eapply Hgo; [unfold step; rewrite Hc; exact E|done|by apply spawn_calm|].
    enough (work (spawn_kind k (units w)) <= work (units w))%nat by (unfold measure; lia).
    apply spawn_work. eapply Forall_impl; [exact Hu|]. intros u Huk E2. cbv beta in *. apply (o_before _ _ Huk). by rewrite E2. }
  assert (Hwait : forall k next, main_step w = wait_for w k next -> on_its_way next -> level next = level (main w) + 1 ->
    ~ in_turn k -> first_level k <= level (main w) -> level (main w) < 8 ->
    exists w', step limit w EMain = Some w' /\ fine w' /\ (measure w' < measure w)%nat).
  { intros k next E Hn Hl Hk Hlev H8. eapply Hgo; [unfold step; rewrite Hc, E; unfold wait_for; by rewrite rested_ended|done|done|].
    unfold measure. lia. }
  unfold main_step in *. destruct (main w) eqn:Em; try done.
  - by apply (Hturn UintFront MBack).
  - by apply (Hspawn UintBackground MNormal).
  - by apply (Hspawn UintNormal MNormalWait).
  - apply (Hwait UintNormal MDaemon); try done. by intros [|].
  - by apply (Hspawn UintDaemon MAfter).
  - by apply (Hturn UintAfter MDaemonWait).
  - apply (Hwait UintDaemon MBackWait); try done. by intros [|].
  - apply (Hwait UintBackground MReturned); try done. by intros [|].
Qed.

Lemma fine_completes limit k : forall w, (measure w < k)%nat -> fine w -> exists tr w', run limit w tr = Some w' /\ main w' = MReturned /\ inv w'.
Proof.
  induction k as [|k IH]; intros w Hk Hw; [lia|]. destruct (decide (main w = MReturned)) as [E|Hne].
  { exists [], w. split_and!; [done|done|apply Hw]. }
  assert (Hstep : exists a w', step limit w a = Some w' /\ fine w' /\ (measure w' < measure w)%nat).
  { destruct (decide (Exists active (units w))) as [Hex|Hno].
    - apply Exists_exists in Hex as (u & (i & Hi)%list_elem_of_lookup & Hu). destruct (unit_progress limit w i u Hw Hi Hu) as (a & w' & ? & ?). by exists (EUnit i a), w'.
    - destruct (main_progress limit w Hw) as (w' & ? & ?); [|done|by exists EMain, w']. intros i u Hi Hu. apply Hno, Exists_exists. exists u.
      split; [by eapply list_elem_of_lookup_2|done]. }
  destruct Hstep as (a & w1 & Hs & Hf1 & Hlt). destruct (IH w1) as (tr & w' & Hrun & Hend); [lia|done|].
  exists (a :: tr), w'. cbn [run]. rewrite Hs. done.
Qed.

(** ** The theorems *)

(** Units that have ended before others start: the front units before all others,
    the normal units before the daemons and the after units. *)
Definition precedes (k k' : Z) : Prop :=
  k = UintFront /\ k' <> UintFront \/ k = UintNormal /\ (k' = UintDaemon \/ k' = UintAfter).

(** C21: In every run of Start, whatever the handlers do, no background, normal,
    daemon or after unit begins before all front units have ended, and no daemon or
    after unit before all normal units have ended; front units, and after units, run
    one at a time in the order of their registration; and when Start returns every
    unit has ended. *)
Theorem boot_order (us : list UintAgent) (repeat_ : bool) (b : Boot) (p : bool) (w0 w : world) :
  Register us (if repeat_ then AllowNameRepeat NewBoot else NewBoot) = (b, p) -> Start b = Some w0 -> reach (bootTimeout b) w0 w ->
  (forall i j u v, units w !! i = Some u -> units w !! j = Some v -> precedes (kind u) (kind v) ->
     st v <> NotStarted -> st u = Ended) /\
  (forall i j u v, (i < j)%nat -> units w !! i = Some u -> units w !! j = Some v ->
     in_turn (kind u) -> kind v = kind u -> st v <> NotStarted -> st u = Ended) /\
  (main w = MReturned -> Forall (fun u => st u = Ended) (units w)).
Proof.
  intros Hb HS Hr. destruct (boot_inv _ _ _ _ _ _ Hb HS Hr) as [Hu Ht Hd]. rewrite Forall_lookup in Hu. split_and!.
  - intros i j u v Hi Hj Hp Hv. destruct (Hu j v Hj) as [Hkv Hbv _ _]. apply (o_after _ _ (Hu i u Hi)).
    destruct (Z.lt_ge_cases (level (main w)) (first_level (kind v))) as [H|H]; [by destruct Hv; apply Hbv|].
    unfold precedes, first_level, last_level, UintFront, UintBackground, UintNormal, UintDaemon, UintAfter in *.
    destruct Hp as [[-> Hne]|[-> [E|E]]]; [|rewrite E in H; simpl in *; lia|rewrite E in H; simpl in *; lia].
    repeat case_match; lia.
  - exact Ht.
  - intros Hm. apply Forall_lookup. intros i u Hi. apply (o_after _ _ (Hu i u Hi)). rewrite Hm. cbn.
    unfold last_level. repeat case_match; lia.
Qed.

(** A unit that waits for another one by Require goes on only after a unit of
    that name has ended, and a front unit that waits for a name that only units of
    other kinds have is never served: it stays until its context is cancelled. *)
Theorem boot_require (us : list UintAgent) (repeat_ : bool) (b : Boot) (p : bool) (w0 w : world) (i : nat) (u : unit_) (n : name_) :
  Register us (if repeat_ then AllowNameRepeat NewBoot else NewBoot) = (b, p) -> Start b = Some w0 -> reach (bootTimeout b) w0 w ->
  units w !! i = Some u -> st u = Requiring n ->
  (unit_step w i AGo <> None -> exists j v, units w !! j = Some v /\ name (agent v) = n /\ st v = Ended) /\
  (kind u = UintFront -> (forall j v, units w !! j = Some v -> name (agent v) = n -> kind v <> UintFront) ->
   unit_step w i AGo = None).
Proof.
  intros Hb HS Hr Hi Hst. destruct (boot_inv _ _ _ _ _ _ Hb HS Hr) as [Hu Ht Hd]. rewrite Forall_lookup in Hu.
  unfold unit_step. rewrite Hi. cbn [mbind option_bind]. rewrite Hst. case_bool_decide as Hdone; [|done]. split.
  - intros _. destruct (Hd n Hdone) as (j & v & Hj & Hn & He). by exists j, v.
  - intros Hk Hno. exfalso. destruct (Hd n Hdone) as (j & v & Hj & Hn & He). specialize (Hno j v Hj Hn).
    destruct (Hu j v Hj) as [Hkv Hbv _ _]. destruct (active_level _ _ (Hu i u Hi)) as [_ Hl]; [split; congruence|].
    assert (st v = NotStarted); [|congruence]. apply Hbv. rewrite Hk in Hl.
    unfold first_level, last_level, UintFront, UintBackground, UintNormal in *. simpl in Hl. repeat case_match; lia.
Qed.

(** C30: From every state of a run in which no unit has failed for good and no
    unit waits for another, Start can be brought to its return with every unit ended:
    the waits of Start are for its own units only, and units that are running need
    only to return. That holds of daemons too: the comment on [UintDaemon] says that
    a daemon is run again after its function exits, but the loop around it runs it
    again only after a panic. *)
Theorem boot_completes (us : list UintAgent) (repeat_ : bool) (b : Boot) (p : bool) (w0 w : world) :
  Register us (if repeat_ then AllowNameRepeat NewBoot else NewBoot) = (b, p) -> Start b = Some w0 -> reach (bootTimeout b) w0 w ->
  crashed w = false -> on_its_way (main w) -> Forall (fun u => forall n, st u <> Requiring n) (units w) ->
  exists tr w', run (bootTimeout b) w tr = Some w' /\ main w' = MReturned /\ Forall (fun u => st u = Ended) (units w').
Proof.
  intros Hb HS Hr Hc Hm Hf. pose proof (boot_inv _ _ _ _ _ _ Hb HS Hr) as Hw.
  destruct (fine_completes (bootTimeout b) (S (measure w)) w) as (tr & w' & Hrun & Hret & Hinv); [lia|done|]. exists tr, w'. split_and!; [done|done|].
  eapply Forall_impl; [exact (i_units _ Hinv)|]. intros u Hu. cbv beta in *. pose proof (o_kind _ _ Hu) as Hk. apply (o_after _ _ Hu).
  rewrite Hret. cbn. unfold last_level. repeat case_match; lia.
Qed.

(** ** A run *)

Definition demo_units : list UintAgent :=
  [Uint [1] UintNormal; Uint [2] UintFront; Uint [3] UintDaemon; Recover (Uint [4] UintAfter); Uint [5] UintFront].
Definition demo_boot : Boot := fst (Register demo_units NewBoot).
Definition demo_start : world := default (W ∅ [] MReturned true) (Start demo_boot).
(** The first front unit has run, the second one waits for the normal unit. *)
Definition demo_trace : list event := [EMain; EUnit 0 (AEnd true); EMain; EUnit 1 (ARequire [1])].
Definition demo_world : world := default demo_start (run 0 demo_start demo_trace).

Lemma boot_run_reach limit w tr w' : run limit w tr = Some w' -> reach limit w w'.
Proof.
  assert (Hgen : forall tr w0 w, reach limit w0 w -> run limit w tr = Some w' -> reach limit w0 w').
  { clear. induction tr as [|a tr IH]; intros w0 w Hr E; cbn [run] in E; [by injection E as <-|].
    destruct (step limit w a) as [w1|] eqn:Es; [|done]. apply (IH w0 w1); [by econstructor|exact E]. }
  apply Hgen. constructor.
Qed.
Lemma boot_demo_reach : reach 0 demo_start demo_world.
Proof. apply (boot_run_reach 0 _ demo_trace). vm_compute. reflexivity. Qed.

Lemma boot_order_witness : exists u v, units demo_world !! 0%nat = Some u /\ units demo_world !! 1%nat = Some v /\
  st v = Requiring [1] /\ st u = Ended.
Proof.
  destruct (boot_order demo_units false demo_boot false demo_start demo_world) as (_ & H & _);
    [vm_compute; reflexivity|vm_compute; reflexivity|exact boot_demo_reach|].
  eexists _, _. split; [vm_compute; reflexivity|]. split; [vm_compute; reflexivity|]. split; [reflexivity|].
  refine (H 0%nat 1%nat _ _ _ _ _ _ _ _); [lia|vm_compute; reflexivity|vm_compute; reflexivity|left; reflexivity|reflexivity|discriminate].
Defined.

Lemma boot_require_witness : unit_step demo_world 1 AGo = None.
Proof.
  refine (proj2 (boot_require demo_units false demo_boot false demo_start demo_world 1 (Un (Uint [5] UintFront) (Requiring [1])) [1] _ _ boot_demo_reach _ _) _ _);
    [vm_compute; reflexivity|vm_compute; reflexivity|vm_compute; reflexivity|reflexivity|reflexivity|].
  intros j v Hj Hn. assert (Hj' : [Uint [2] UintFront; Uint [5] UintFront; Uint [1] UintNormal; Uint [3] UintDaemon; Recover (Uint [4] UintAfter)] !! j = Some (agent v)).
  { transitivity ((agent <$> units demo_world) !! j); [vm_compute (agent <$> units demo_world); reflexivity|].
    rewrite list_lookup_fmap, Hj. reflexivity. }
  do 5 (destruct j as [|j]; [injection Hj' as Ej; rewrite <- Ej in Hn; try discriminate Hn; unfold kind; rewrite <- Ej; discriminate|]). discriminate Hj'.
Defined.

Lemma boot_completes_witness : exists tr w', run 0 demo_start tr = Some w' /\ main w' = MReturned /\ Forall (fun u => st u = Ended) (units w').
Proof.
  apply (boot_completes demo_units false demo_boot false demo_start demo_start); [vm_compute; reflexivity|vm_compute; reflexivity|constructor|reflexivity|exact I|].
  apply Forall_forall. intros u Hu n. apply list_elem_of_fmap in Hu as (x & -> & _). discriminate.
Defined.

End Uboot.
