(* ===== verification/UbootEvents.v ===== *)
(** * Events and shared values ([src/uboot/event.go], [storage.go])

    Handlers subscribe to an event under a key, [Publish] calls those of the key, and
    [PublishQueue] leaves this to twelve workers. The handlers are kept in a map of
    maps, used through the interface of [Umap]; its lock is held by every method, so
    that a method is one step. The workers, and the goroutines that wait for a value of
    the storage, are step machines. *)
From stdpp Require Import base numbers list gmap fin_maps.
From S2P Require Import Prelude Umap.
#[local] Open Scope Z_scope.

Module UbootEvents.

Import (hints) Umap.

(** ** Subscriptions *)

Section Events.
(** [data] is a value of any type, [A] what handlers may change. A handler returns nil,
    an error, or panics. *)
Context {K any A E SH SE : Type} `{Countable K}.
Inductive result := HNil | HErr (e : E) | HPanic (v : E).
Definition EventHandler := any -> A -> A * result.
Context `{HSH : !Umap.Mapper SH K EventHandler} `{HSE : !Umap.Mapper SE K SH}.

(** [umap.NewHmap]. *)
Context (new_map : SH).
Hypothesis new_map_ok : Umap.usable new_map /\ Umap.contents new_map = ∅.

Inductive error := ERand (e : E) | EUnique | ENotFound | EJoin (l : list (bool * E)).

(** [generateKey]: [draws i] is the key of round [i], or the error of the generator. *)
Fixpoint key_loop (h : SH) (draws : nat -> E + K) (i left_ : nat) : option (error + K) :=
  match left_ with
  | O => Some (inl EUnique)
  | S n =>
      match draws i with
      | inl e => Some (inl (ERand e))
      | inr key => v ← Umap.Load h key; match v with None => Some (inr key) | Some _ => key_loop h draws (S i) n end
      end
  end.
Definition generateKey (h : SH) (draws : nat -> E + K) (maxRetries : nat) : option (error + K) := key_loop h draws 0 maxRetries.

(** [Subscribe] for a handler of values of type [T]; [assert] is the type assertion. The
    map of a key is a pointer in the source: storing it again is the write through it. *)
Definition wrap {T} (assert : any -> option T) (handler : T -> A -> A * result) : EventHandler :=
  fun data a => match assert data with Some d => handler d a | None => (a, HNil) end.
Definition Subscribe {T} (assert : any -> option T) (event : SE) (key : K) (handler : T -> A -> A * result) (draws : nat -> E + K) :
    option ((error + K) * SE) :=
  v ← Umap.Load event key;
  event ← match v with None => Umap.Set_ event key new_map | Some _ => Some event end;
  eh ← Umap.Get new_map event key;
  kk ← generateKey eh draws 12;
  match kk with
  | inl e => Some (inl e, event)
  | inr k => eh ← Umap.Set_ eh k (wrap assert handler); event ← Umap.Set_ event key eh; Some (inr k, event)
  end.

(** The callback of [Range] in [Publish]: a panic is recovered and joined to the errors,
    and then the callback returns false. *)
Definition call_handler (data : any) (_ : K) (h : EventHandler) (s : A * list (bool * E)) : bool * (A * list (bool * E)) :=
  let '(a, r) := h data (fst s) in
  match r with
  | HNil => (true, (a, snd s))
  | HErr e => (true, (a, snd s ++ [(false, e)]))
  | HPanic v => (false, (a, snd s ++ [(true, v)]))
  end.
Definition Publish (event : SE) (key : K) (data : any) (a : A) : option (A * option error) :=
  v ← Umap.Load event key;
  match v with
  | None => Some (a, Some ENotFound)
  | Some h =>
      r ← Umap.Range (fun k f m s => let '(go_on, s') := call_handler data k f s in Some (go_on, m, s')) h (a, []);
      let '(_, (a', errs)) := (r : SH * (A * list (bool * E))) in
      Some (a', match errs with [] => None | _ => Some (EJoin errs) end)
  end.

(** All handlers of the key, or some of them. *)
Fixpoint delete_all (h : SH) (ks : list K) : option SH :=
  match ks with [] => Some h | k :: ks' => h ← Umap.Delete h k; delete_all h ks' end.
Definition UnSubscribe (event : SE) (key : K) (handlerKey : list K) : option SE :=
  v ← Umap.Load event key;
  match v with
  | None => Some event
  | Some h =>
      match handlerKey with
      | [] => Umap.Delete event key
      | ks => h ← delete_all h ks; Umap.Set_ event key h
      end
  end.

(** ** What subscribers see *)

(** The handlers by key. *)
Definition handlers (event : SE) : gmap K (gmap K EventHandler) := Umap.contents <$> Umap.contents event.
Definition event_ok (event : SE) : Prop := Umap.usable event /\ map_Forall (fun _ h => Umap.usable h) (Umap.contents event).

(** Handlers called one after the other, each with its result. *)
Fixpoint call_all (data : any) (l : list (K * EventHandler)) (a : A) : A * list (K * result) :=
  match l with
  | [] => (a, [])
  | (k, h) :: l' => let '(a', r) := h data a in let '(a'', rs) := call_all data l' a' in (a'', (k, r) :: rs)
  end.
Definition errors_of (rs : list (K * result)) : list (bool * E) :=
  omap (fun kr => match snd kr with HNil => None | HErr e => Some (false, e) | HPanic v => Some (true, v) end) rs.
Definition panics (r : result) : bool := match r with HPanic _ => true | _ => false end.

Lemma visit_handlers data l a errs : exists l1 l2 a' rs, l = l1 ++ l2 /\ call_all data l1 a = (a', rs) /\
  Umap.visit (call_handler data) l (a, errs) = (a', errs ++ errors_of rs) /\
  (forall i kr, rs !! i = Some kr -> panics (snd kr) = true -> S i = length rs) /\
  (l2 = [] \/ exists kr, last rs = Some kr /\ panics (snd kr) = true).
Proof.
  revert a errs. induction l as [|[k h] l IH]; intros a errs.
  { exists [], [], a, []. split_and!; auto; [cbn; by rewrite app_nil_r|done]. }
  cbn [Umap.visit]. unfold call_handler at 1. cbn [fst snd]. destruct (h data a) as [a1 r] eqn:Eh. destruct (panics r) eqn:Ep.
  - destruct r as [| |v]; try done. exists [(k, h)], l, a1, [(k, HPanic v)]. split_and!; [done|cbn; by rewrite Eh|done| |].
    + intros [|i] kr Hi Hp; [done|done].
    + right. by eexists.
  - destruct (IH a1 (errs ++ errors_of [(k, r)])) as (l1 & l2 & a' & rs & -> & Hc & Hv & Hi & Hl).
    exists ((k, h) :: l1), l2, a', ((k, r) :: rs). split_and!; [done|cbn; by rewrite Eh, Hc| | |].
    + assert (Er : errs ++ errors_of ((k, r) :: rs) = (errs ++ errors_of [(k, r)]) ++ errors_of rs).
      { rewrite <- app_assoc. f_equal. unfold errors_of. cbn. by destruct r. }
      rewrite Er, <- Hv. destruct r; try done; cbn; by rewrite ?app_nil_r.
    + intros [|i] kr Hk Hp; cbn in Hk; [injection Hk as <-; cbn in Hp; congruence|]. cbn. by rewrite (Hi _ _ Hk Hp).
    + destruct Hl as [-> |(kr & Hk & Hp)]; [by left|right]. exists kr. split; [|done]. destruct rs; [done|]. by rewrite last_cons_cons.
Qed.

Lemma Publish_calls (event : SE) (key : K) (data : any) (a : A) : event_ok event ->
  match handlers event !! key with
  | None => Publish event key data a = Some (a, Some ENotFound)
  | Some hs => exists l1 l2 a' rs, l1 ++ l2 ≡ₚ map_to_list hs /\ call_all data l1 a = (a', rs) /\
      Publish event key data a = Some (a', match errors_of rs with [] => None | errs => Some (EJoin errs) end) /\
      (forall i kr, rs !! i = Some kr -> panics (snd kr) = true -> S i = length rs) /\
      (l2 = [] \/ exists kr, last rs = Some kr /\ panics (snd kr) = true)
  end.
Proof.
  intros [Hu Hall]. unfold handlers, Publish. rewrite lookup_fmap, (Umap.Load_spec _ _ Hu). cbn [mbind option_bind].
  destruct (Umap.contents event !! key) as [h|] eqn:Ek; cbn [fmap option_fmap option_map]; [|done].
  pose proof (Hall _ _ Ek) as Hh. cbn in Hh.
  destruct (Umap.Range_spec _ (call_handler data) (fun k f m s => let '(go_on, s') := call_handler data k f s in Some (go_on, m, s')) h (a, [])) as (l & h' & Hl & -> & _ & _).
  { intros k f m s. by destruct (call_handler data k f s). }
  { done. }
  destruct (visit_handlers data l a []) as (l1 & l2 & a' & rs & -> & Hc & Hv & Hi & Hp). exists l1, l2, a', rs.
  split_and!; try done. cbn [mbind option_bind]. rewrite Hv. cbn [app]. by destruct (errors_of rs).
Qed.

Lemma key_loop_spec h draws i n : Umap.usable h -> exists r, key_loop h draws i n = Some r /\
  match r with
  | inr k => Umap.contents h !! k = None
  | inl EUnique => forall j, (j < n)%nat -> exists k v, draws (i + j)%nat = inr k /\ Umap.contents h !! k = Some v
  | inl (ERand e) => exists j, (j < n)%nat /\ draws (i + j)%nat = inl e
  | inl _ => False
  end.
Proof.
  intros Hh. revert i. induction n as [|n IH]; intros i; cbn [key_loop]; [eexists; split; [done|]; intros j Hj; lia|].
  destruct (draws i) as [e|k] eqn:Ed; [eexists; split; [done|]; exists 0%nat; rewrite Nat.add_0_r; split; [lia|done]|].
  rewrite (Umap.Load_spec _ _ Hh). cbn [mbind option_bind]. destruct (Umap.contents h !! k) as [v|] eqn:Ek; [|by eexists].
  destruct (IH (S i)) as (r & -> & Hr). exists r. split; [done|]. destruct r as [[e| | |]|]; try done.
  - destruct Hr as (j & Hj & Hd). exists (S j). rewrite Nat.add_succ_r. split; [lia|done].
  - intros [|j] Hj; [rewrite Nat.add_0_r; eauto|]. rewrite Nat.add_succ_r. apply Hr. lia.
Qed.

(** [Subscribe] adds the handler under a key that was free, or fails; then the event
    exists all the same. *)
Lemma Subscribe_handlers {T} (assert : any -> option T) event key handler draws : event_ok event ->
  exists r event', Subscribe assert event key handler draws = Some (r, event') /\ event_ok event' /\
    let old := default ∅ (handlers event !! key) in
    match r with
    | inr k => old !! k = None /\ handlers event' = <[key := <[k := wrap assert handler]> old]> (handlers event)
    | inl e => handlers event' = <[key := old]> (handlers event) /\ (exists x, e = ERand x) \/
               handlers event' = <[key := old]> (handlers event) /\ e = EUnique
    end.
Proof.
  intros [Hu Hall]. unfold Subscribe, handlers. rewrite (Umap.Load_spec _ _ Hu). cbn [mbind option_bind].
  set (eh := default new_map (Umap.contents event !! key)).
  assert (Heh : Umap.usable eh /\ Umap.contents eh = default ∅ ((Umap.contents <$> Umap.contents event) !! key)).
  { unfold eh. rewrite lookup_fmap. destruct (Umap.contents event !! key) as [h|] eqn:Ek; [|exact new_map_ok]. split; [exact (Hall _ _ Ek)|done]. }
  assert (H1 : exists event1, (match Umap.contents event !! key with None => Umap.Set_ event key new_map | Some _ => Some event end) = Some event1 /\
    Umap.usable event1 /\ Umap.contents event1 = <[key := eh]> (Umap.contents event)).
  { unfold eh. destruct (Umap.contents event !! key) as [h|] eqn:Ek; [exists event; split_and!; try done; by rewrite insert_id|].
    destruct (Umap.Set_spec event key new_map Hu) as (e1 & ? & ? & ?). by exists e1. }
  destruct H1 as (event1 & E1 & Hu1 & Hc1). rewrite E1. cbn [mbind option_bind]. clear E1.
  unfold Umap.Get. rewrite (Umap.Load_spec _ _ Hu1), Hc1, lookup_insert_eq. cbn [mbind option_bind from_option id].
  destruct Heh as [Hue Hce]. unfold generateKey. destruct (key_loop_spec eh draws 0 12 Hue) as (r & -> & Hr). cbn [mbind option_bind].
  assert (Hok1 : event_ok event1) by (split; [done|]; rewrite Hc1; by apply map_Forall_insert_2).
  destruct r as [e|k].
  - exists (inl e), event1. split; [done|]. split; [done|]. rewrite Hc1, fmap_insert, Hce. destruct e; try done; [left|right]; split; eauto.
  - destruct (Umap.Set_spec eh k (wrap assert handler) Hue) as (eh2 & -> & Hu2 & Hc2). cbn [mbind option_bind].
    destruct (Umap.Set_spec event1 key eh2 Hu1) as (event2 & -> & Hu3 & Hc3). cbn [mbind option_bind].
    exists (inr k), event2. split; [done|]. split.
    + split; [done|]. rewrite Hc3. apply map_Forall_insert_2; [done|]. apply Hok1.
    + rewrite Hc3, Hc1, insert_insert_eq, fmap_insert, Hc2, Hce. by rewrite <- Hce.
Qed.

Lemma delete_all_spec ks h : Umap.usable h -> exists h', delete_all h ks = Some h' /\ Umap.usable h' /\
  Umap.contents h' = foldl (fun m k => delete k m) (Umap.contents h) ks.
Proof.
  revert h. induction ks as [|k ks IH]; intros h Hh; cbn [delete_all foldl]; [by exists h|].
  destruct (Umap.Delete_spec h k Hh) as (h1 & -> & H1 & <-). cbn [mbind option_bind]. by apply IH.
Qed.

Lemma UnSubscribe_handlers event key ks : event_ok event ->
  exists event', UnSubscribe event key ks = Some event' /\ event_ok event' /\
    handlers event' = match handlers event !! key, ks with
                      | None, _ => handlers event
                      | Some _, [] => delete key (handlers event)
                      | Some hs, _ => <[key := foldl (fun m k => delete k m) hs ks]> (handlers event)
                      end.
Proof.
  intros [Hu Hall]. unfold UnSubscribe, handlers. rewrite (Umap.Load_spec _ _ Hu), lookup_fmap. cbn [mbind option_bind].
  destruct (Umap.contents event !! key) as [h|] eqn:Ek; cbn [fmap option_fmap option_map]; [|by exists event].
  destruct ks as [|k ks].
  - destruct (Umap.Delete_spec event key Hu) as (event' & -> & H1 & H2). exists event'. split; [done|]. rewrite <- fmap_delete, H2.
    split; [|done]. split; [done|]. rewrite H2. by apply map_Forall_delete.
  - destruct (delete_all_spec (k :: ks) h (Hall _ _ Ek)) as (h' & -> & H1 & H2). cbn [mbind option_bind].
    destruct (Umap.Set_spec event key h' Hu) as (event' & -> & H3 & H4). exists event'. split; [done|].
    rewrite H4, fmap_insert, H2. split; [|done]. split; [done|]. rewrite H4. by apply map_Forall_insert_2.
Qed.

(** A handler is called by [Publish] from its subscription until it is taken out, unless
    another one panics: here with no other handler. *)
Lemma Subscribe_alone {T} (assert : any -> option T) event key handler draws k event' data a :
  event_ok event -> handlers event !! key = None -> Subscribe assert event key handler draws = Some (inr k, event') ->
  Publish event' key data a =
    (let '(a', r) := wrap assert handler data a in
     Some (a', match r with HNil => None | HErr e => Some (EJoin [(false, e)]) | HPanic v => Some (EJoin [(true, v)]) end)) /\
  exists event'', UnSubscribe event' key [k] = Some event'' /\ Publish event'' key data a = Some (a, None).
Proof.
  intros Hok Hnone Hs. destruct (Subscribe_handlers assert event key handler draws Hok) as (r & e1 & Es & Hok1 & Hr). rewrite Hs in Es.
  injection Es as <- <-. rewrite Hnone in Hr. destruct Hr as [_ Hr]. cbn [from_option id] in Hr. split.
  - pose proof (Publish_calls event' key data a Hok1) as Hp. rewrite Hr, lookup_insert_eq in Hp.
    destruct Hp as (l1 & l2 & a' & rs & Hl & Hc & -> & Hi & Hp). rewrite insert_empty, map_to_list_singleton in Hl.
    apply Permutation_singleton_r in Hl. destruct l1 as [|[k1 h1] l1]; cbn in Hl.
    + injection Hc as <- <-. destruct Hp as [-> |(kr & Hk & _)]; done.
    + injection Hl as -> -> Hl. apply app_eq_nil in Hl as [-> ->]. cbn [call_all] in Hc. destruct (wrap assert handler data a) as [a1 r].
      injection Hc as <- <-. unfold errors_of. by destruct r.
  - destruct (UnSubscribe_handlers event' key [k] Hok1) as (e2 & E2 & Hok2 & H2). exists e2. split; [done|].
    rewrite Hr, lookup_insert_eq in H2. cbn [foldl] in H2. rewrite insert_insert_eq, delete_insert_eq, delete_empty in H2.
    pose proof (Publish_calls e2 key data a Hok2) as Hp. rewrite H2, lookup_insert_eq in Hp.
    destruct Hp as (l1 & l2 & a' & rs & Hl & Hc & -> & Hi & Hp). rewrite map_to_list_empty in Hl.
    apply Permutation_nil_r in Hl. apply app_eq_nil in Hl as [-> ->]. by injection Hc as <- <-.
Qed.

(** C26: Publish calls the handlers of the key, in some order, each with the state that
    the one before it left, and returns their errors joined in this order; it stops
    after a handler that panics, whose panic is one of the errors, and calls all of
    them when none panics. Without a subscription it returns an error. *)
Theorem Publish_spec (event : SE) (key : K) (data : any) (a : A) : event_ok event ->
  match handlers event !! key with
  | None => Publish event key data a = Some (a, Some ENotFound)
  | Some hs => exists l1 l2 a' rs, l1 ++ l2 ≡ₚ map_to_list hs /\ call_all data l1 a = (a', rs) /\
      Publish event key data a = Some (a', match errors_of rs with [] => None | errs => Some (EJoin errs) end) /\
      (forall i kr, rs !! i = Some kr -> panics (snd kr) = true -> S i = length rs) /\
      (l2 = [] \/ exists kr, last rs = Some kr /\ panics (snd kr) = true)
  end.
Proof. exact (Publish_calls event key data a). Qed.

End Events.
(** *** A concrete map of handlers *)

(** Data are numbers, handlers write to a log. *)
Definition handler_map : Type := Umap.Hmap (gmap Z (EventHandler (any := Z) (A := list Z) (E := Z))).
Definition event_map : Type := Umap.Hmap (gmap Z handler_map).
Definition logs (n : Z) : EventHandler (any := Z) (A := list Z) (E := Z) := fun d a => (a ++ [n; d], HNil).
Definition panicking : EventHandler (any := Z) (A := list Z) (E := Z) := fun d a => (a ++ [0], HPanic 9).
Definition demo_event : event_map := Umap.HMap {[7 := Umap.HMap {[1 := logs 1; 2 := panicking; 3 := logs 3]}]}.

Lemma Publish_spec_witness : exists l1 l2 a' rs, l1 ++ l2 ≡ₚ map_to_list ({[1 := logs 1; 2 := panicking; 3 := logs 3]} : gmap Z _) /\
  call_all 5 l1 [] = (a', rs) /\
  Publish (SH := handler_map) (SE := event_map) demo_event 7 5 [] = Some (a', match errors_of rs with [] => None | errs => Some (EJoin errs) end).
Proof.
  assert (Hok : event_ok (SH := handler_map) (SE := event_map) demo_event) by (split; [done|]; intros k h _; done).
  pose proof (Publish_spec (SH := handler_map) (SE := event_map) demo_event 7 5 [] Hok) as (l1 & l2 & a' & rs & H1 & H2 & H3 & _).
  exists l1, l2, a', rs. auto.
Defined.

(** A handler that panics keeps the others from being called. *)
Example panic_stops_publish :
  Publish (SH := handler_map) (SE := event_map) (Umap.HMap {[7 := Umap.HMap {[1 := panicking; 2 := panicking; 3 := panicking]}]}) 7 5 [] =
  Some ([0], Some (EJoin [(true, 9)])).
Proof. vm_compute. reflexivity. Qed.

(** ** The queue and its workers *)

Module Queue.

(** An event in the queue: what it is, and whether it has an [OnError]. *)
Record eventQueueData := Ev { ident : Z; OnError : bool }.

(** A worker: before [popEventQueue]; in [Publish]; before [Wait]; in [Wait]. *)
Inductive worker := WJob | WPublish (q : eventQueueData) | WLock | WWait.

(** [waiters]: the workers in [Wait], the one that waits longest first. [told]: the events
    whose [OnError] was called. *)
Record world := W { eventQueue : list eventQueueData; waiters : list nat; workers : list worker; told : list Z }.

Inductive action :=
| APublishQueue (q : eventQueueData)
| AStep (t : nat)
| APublished (t : nat) (failed : bool).    (* [Publish] has returned *)

Definition popEventQueue (l : list eventQueueData) : option eventQueueData * list eventQueueData :=
  match l with [] => (None, l) | x :: l' => (Some x, l') end.

(** [PublishQueue], with [Signal]: one worker, if one waits. *)
Definition PublishQueue (q : eventQueueData) (w : world) : world :=
  let l := eventQueue w ++ [q] in
  match waiters w with
  | [] => W l [] (workers w) (told w)
  | t :: ts => W l ts (<[t := WJob]> (workers w)) (told w)
  end.

(** [eventWorker] around [eventWorkerJob], which is true only after an error. *)
Definition worker_step (w : world) (a : action) : option world :=
  let go t p := W (eventQueue w) (waiters w) (<[t := p]> (workers w)) (told w) in
  match a with
  | APublishQueue q => Some (PublishQueue q w)
  | AStep t =>
      p ← workers w !! t;
      match p with
      | WJob =>
          match popEventQueue (eventQueue w) with
          | (Some q, l) => Some (W l (waiters w) (<[t := WPublish q]> (workers w)) (told w))
          | (None, _) => Some (go t WLock)
          end
      | WLock => Some (W (eventQueue w) (waiters w ++ [t]) (<[t := WWait]> (workers w)) (told w))
      | WPublish _ | WWait => None
      end
  | APublished t failed =>
      p ← workers w !! t;
      match p with
      | WPublish q =>
          Some (if failed && OnError q
                then W (eventQueue w) (waiters w) (<[t := WJob]> (workers w)) (told w ++ [ident q])
                else go t WLock)
      | _ => None
      end
  end.

Definition eventQueueWorker : nat := 12.
Definition init_workers : world := W [] [] (replicate eventQueueWorker WJob) [].

Inductive reach : world -> list action -> Prop :=
| reach_init : reach init_workers []
| reach_step w tr a w' : reach w tr -> worker_step w a = Some w' -> reach w' (tr ++ [a]).

Fixpoint run (w : world) (tr : list action) : option world :=
  match tr with [] => Some w | a :: tr' => w' ← worker_step w a; run w' tr' end.

Lemma run_snoc w tr a : run w (tr ++ [a]) = w' ← run w tr; worker_step w' a.
Proof. revert w. induction tr as [|b tr IH]; intros w; cbn [app run]; [cbn; by destruct (worker_step w a)|]. destruct (worker_step w b); [apply IH|done]. Qed.
Lemma queue_reach_run w tr : reach w tr <-> run init_workers tr = Some w.
Proof.
  split.
  - induction 1 as [|w tr a w' _ IH Hs]; [done|]. rewrite run_snoc, IH. done.
  - revert w. induction tr as [|a tr IH] using rev_ind; intros w E; [injection E as <-; constructor|].
    rewrite run_snoc in E. destruct (run init_workers tr) as [w1|] eqn:E1; [|done]. eapply reach_step; [by apply IH|done].
Qed.

(** What was queued, what workers took, in which order, and what they finished. *)
Definition queued (tr : list action) : list eventQueueData := omap (fun a => match a with APublishQueue q => Some q | _ => None end) tr.
Definition taken_at (w : world) (a : action) : list eventQueueData :=
  match a with
  | AStep t => match workers w !! t, eventQueue w with Some WJob, q :: _ => [q] | _, _ => [] end
  | _ => []
  end.
Definition finished_at (w : world) (a : action) : list eventQueueData :=
  match a with APublished t _ => match workers w !! t with Some (WPublish q) => [q] | _ => [] end | _ => [] end.
Fixpoint collect (f : world -> action -> list eventQueueData) (w : world) (tr : list action) : list eventQueueData :=
  match tr with [] => [] | a :: tr' => f w a ++ match worker_step w a with Some w' => collect f w' tr' | None => [] end end.
Lemma collect_snoc f w tr a w' : run w tr = Some w' -> collect f w (tr ++ [a]) = collect f w tr ++ f w' a.
Proof.
  revert w. induction tr as [|b tr IH]; intros w E; cbn [run app collect] in *.
  - injection E as <-. destruct (worker_step w a); by rewrite app_nil_r.
  - destruct (worker_step w b) as [w1|]; [|done]. rewrite (IH w1 E). apply app_assoc.
Qed.
Definition in_work (p : worker) : list eventQueueData := match p with WPublish q => [q] | _ => [] end.

(** The workers that wait are those in the list, once each. *)
Definition inv (w : world) : Prop := NoDup (waiters w) /\ forall t, t ∈ waiters w <-> workers w !! t = Some WWait.

Lemma queue_step_inv w a w' : inv w -> worker_step w a = Some w' -> inv w'.
Proof.
  intros [Hn Hw] Hs. destruct a as [q|t|t failed]; cbn [worker_step] in Hs.
  - injection Hs as <-. unfold PublishQueue. destruct (waiters w) as [|t ts] eqn:Et; [by split|]. apply NoDup_cons in Hn as [Hnt Hn].
    split; cbn; [done|]. intros u. destruct (decide (t = u)) as [<-|Hne].
    + rewrite list_lookup_insert_eq; [split; [intros ?; contradiction|done]|]. eapply lookup_lt_Some. apply Hw. by left.
    + rewrite list_lookup_insert_ne by done. rewrite <- Hw, elem_of_cons. split; [auto|intros [?|?]; [congruence|done]].
  - destruct (workers w !! t) as [p|] eqn:Ht; [|done]. cbn [mbind option_bind] in Hs. pose proof (lookup_lt_Some _ _ _ Ht) as Hl.
    assert (Hkeep : forall q, p <> WWait -> q <> WWait -> forall u, u ∈ waiters w <-> <[t := q]> (workers w) !! u = Some WWait).
    { intros q H1 H2 u. rewrite Hw. destruct (decide (t = u)) as [<-|Hne]; [|by rewrite list_lookup_insert_ne].
      rewrite list_lookup_insert_eq by done. split; congruence. }
    destruct p; try done.
    + destruct (eventQueue w); cbn in Hs; injection Hs as <-; split; cbn; try done; by apply Hkeep.
    + injection Hs as <-. split; cbn.
      * apply NoDup_app. split_and!; [done| |apply NoDup_singleton]. intros u Hu ->%list_elem_of_singleton. apply Hw in Hu. congruence.
      * intros u. rewrite elem_of_app, list_elem_of_singleton, Hw. destruct (decide (t = u)) as [<-|Hne].
        -- rewrite list_lookup_insert_eq by done. split; auto.
        -- rewrite list_lookup_insert_ne by done. split; [intros [?|?]; [done|congruence]|auto].
  - destruct (workers w !! t) as [p|] eqn:Ht; [|done]. cbn [mbind option_bind] in Hs. pose proof (lookup_lt_Some _ _ _ Ht) as Hl.
    destruct p as [|q| |]; try done. injection Hs as <-.
    assert (Hkeep : forall p, p <> WWait -> forall u, u ∈ waiters w <-> <[t := p]> (workers w) !! u = Some WWait).
    { intros p H2 u. rewrite Hw. destruct (decide (t = u)) as [<-|Hne]; [|by rewrite list_lookup_insert_ne].
      rewrite list_lookup_insert_eq by done. split; congruence. }
    destruct (failed && OnError q); split; cbn; try done; by apply Hkeep.
Qed.

Lemma in_work_insert ws t p p' : ws !! t = Some p -> (<[t := p']> ws ≫= in_work) ++ in_work p ≡ₚ (ws ≫= in_work) ++ in_work p'.
Proof.
  intros Ht. rewrite <- (take_drop_middle ws t p Ht) at 2. rewrite insert_take_drop by (by eapply lookup_lt_Some).
  rewrite !bind_app, !bind_cons. solve_Permutation.
Qed.

(** Waiting workers have no event in work. *)
Lemma signal_in_work w t ts : inv w -> waiters w = t :: ts -> (<[t := WJob]> (workers w) ≫= in_work) ≡ₚ (workers w ≫= in_work).
Proof.
  intros [_ Hw] Et. assert (Ht : workers w !! t = Some WWait) by (apply Hw; rewrite Et; by left).
  pose proof (in_work_insert _ _ _ WJob Ht) as E. cbn in E. by rewrite !app_nil_r in E.
Qed.

(** C27: The workers take the queued events in the order in which they were queued, each
    by one worker: at every moment the queue is what is not yet taken, and what was
    taken is what is in work and what is finished. *)
Theorem queue_in_order (w : world) (tr : list action) : reach w tr ->
  queued tr = collect taken_at init_workers tr ++ eventQueue w /\
  collect taken_at init_workers tr ≡ₚ collect finished_at init_workers tr ++ (workers w ≫= in_work).
Proof.
  intros Hr. assert (H3 : inv w /\ queued tr = collect taken_at init_workers tr ++ eventQueue w /\
    collect taken_at init_workers tr ≡ₚ collect finished_at init_workers tr ++ (workers w ≫= in_work)); [|tauto].
  induction Hr as [|w tr a w' Hr (IH & IH1 & IH2) Hs].
  { split_and!; [|done|done]. split; [constructor|]. intros t. split; [by intros ?%elem_of_nil|]. cbn [workers init_workers].
    intros E. apply lookup_replicate in E as [E _]. done. }
  split; [by eapply queue_step_inv|]. apply queue_reach_run in Hr. rewrite !(collect_snoc _ _ _ _ _ Hr).
  unfold queued. rewrite omap_app. fold (queued tr). rewrite IH1. destruct a as [q|t|t failed]; cbn [worker_step] in Hs; cbn [taken_at finished_at].
  - injection Hs as <-. unfold PublishQueue. rewrite !app_nil_r. destruct (waiters w) as [|t ts] eqn:Et; cbn; (split; [by rewrite app_assoc|]); [done|].
    by rewrite (signal_in_work w t ts IH Et).
  - destruct (workers w !! t) as [p|] eqn:Ht; [|done]. cbn [mbind option_bind] in Hs. pose proof (fun p' => in_work_insert _ _ _ p' Ht) as E.
    destruct p; try done.
    + destruct (eventQueue w) as [|q l]; cbn in Hs; injection Hs as <-; cbn.
      * specialize (E WLock). cbn in E. rewrite !app_nil_r in *. by rewrite E.
      * specialize (E (WPublish q)). cbn in E. rewrite !app_nil_r in *. split; [by rewrite <- app_assoc|]. rewrite E, IH2. solve_Permutation.
    + injection Hs as <-. specialize (E WWait). cbn in *. rewrite !app_nil_r in *. by rewrite E.
  - destruct (workers w !! t) as [p|] eqn:Ht; [|done]. cbn [mbind option_bind] in Hs. destruct p as [|q| |]; try done.
    injection Hs as <-. rewrite !app_nil_r.
    assert (E : forall p', in_work p' = [] -> (<[t := p']> (workers w) ≫= in_work) ++ [q] ≡ₚ (workers w ≫= in_work)).
    { intros p' Hp'. pose proof (in_work_insert _ _ _ p' Ht) as E. rewrite Hp' in E. cbn in E. by rewrite app_nil_r in E. }
    destruct (failed && OnError q); cbn; (split; [done|]); rewrite IH2.
    + rewrite <- (E WJob) by done. rewrite <- app_assoc. f_equiv. apply Permutation_app_comm.
    + rewrite <- (E WLock) by done. rewrite <- app_assoc. f_equiv. apply Permutation_app_comm.
Qed.

Definition demo_trace : list action :=
  [APublishQueue (Ev 1 true); APublishQueue (Ev 2 false); AStep 3; AStep 0; APublished 3 true; APublishQueue (Ev 3 true); APublished 0 true].
Lemma queue_in_order_witness : collect taken_at init_workers demo_trace = [Ev 1 true; Ev 2 false] /\ queued demo_trace = collect taken_at init_workers demo_trace ++ [Ev 3 true].
Proof.
  split; [vm_compute; reflexivity|].
  refine (proj1 (queue_in_order (default init_workers (run init_workers demo_trace)) demo_trace _)). apply queue_reach_run. vm_compute. reflexivity.
Defined.

(** Thirteen events, of which twelve are taken: no worker looks at the queue again
    before the next signal, and all of them wait while an event is in the queue. *)
Example event_left_waiting : exists w,
  run init_workers ((AStep <$> seq 0 12) ++ (AStep <$> seq 0 12) ++ ((fun i => APublishQueue (Ev (Z.of_nat i) true)) <$> seq 0 13) ++
    (AStep <$> seq 0 12) ++ ((fun t => APublished t false) <$> seq 0 12) ++ (AStep <$> seq 0 12)) = Some w /\
  eventQueue w = [Ev 12 true] /\ workers w = replicate eventQueueWorker WWait.
Proof. eexists. split; [vm_compute; reflexivity|]. done. Qed.

End Queue.

(** ** Shared values *)

Module Storage.

Section Storage.
Context {K any S : Type} `{Countable K} `{HS : !Umap.Mapper S K any}.

Definition Set_ (storage : S) (key : K) (value : any) : option S := Umap.Set_ storage key value.
Definition Remove (storage : S) (key : K) : option S := Umap.Delete storage key.

(** [Load] and [Get] for values of type [T]; [assert] is the type assertion, which a nil
    value fails. *)
Definition Load {T} (assert : any -> option T) (storage : S) (key : K) : option (option T) :=
  v ← Umap.Load storage key; Some (v ≫= assert).
Definition Get {T} (assert : any -> option T) (zero : T) (storage : S) (key : K) (defaultValue : list T) : option T :=
  v ← Load assert storage key;
  Some (match v with Some x => x | None => match defaultValue with d :: _ => d | [] => zero end end).
Definition Range_ {T A} (assert : any -> option T) (f : K -> T -> A -> bool * A) (storage : S) (a : A) : option A :=
  r ← Umap.Range (fun k v m a => match assert v with None => Some (true, m, a) | Some x => let '(b, a') := f k x a in Some (b, m, a') end) storage a;
  Some (snd r).

(** A value is read back at its type, by every reader, until it is replaced or removed. *)
Lemma storage_Set_Load {T} (assert : any -> option T) storage key value : Umap.usable storage ->
  exists storage', Set_ storage key value = Some storage' /\ Umap.usable storage' /\
    forall k, Load assert storage' k = if decide (k = key) then Some (assert value) else Load assert storage k.
Proof.
  intros Hu. destruct (Umap.Set_spec storage key value Hu) as (s' & E & Hu' & Hc). exists s'. split_and!; [done|done|]. intros k.
  unfold Load. rewrite !Umap.Load_spec, Hc by done. cbn. destruct (decide (k = key)) as [->|Hne]; [by rewrite lookup_insert_eq|].
  by rewrite lookup_insert_ne.
Qed.
End Storage.

(** *** Waiting for a value *)

(** Keys and values are numbers here. A goroutine in [LoadWait] of a key: before a [Load];
    before the [select]; in the [select], ready to send; one in [SetWait]: before the
    [select] of [storageNotify]. *)
Inductive pc := Idle | LLoad (k : Z) | LGap (k : Z) | LSelect (k : Z) | SNotify.
Inductive outcome := RNone | RValue (v : Z) | RCancelled | RNil.
Record world := W { storage : gmap Z Z; threads : list (pc * outcome) }.

Inductive action :=
| ALoadWait (t : nat) (k : Z)
| ASetWait (t : nat) (k v : Z)
| ASet (k v : Z)
| AStep (t : nat)
| ASignal (t u : nat)         (* the notifier [t] receives from [u] *)
| ACancel (t : nat).

Definition selecting (x : pc * outcome) : bool := match fst x with LSelect _ => true | _ => false end.

Definition wait_step (w : world) (a : action) : option world :=
  let go t p := Some (W (storage w) (<[t := (p, RNone)]> (threads w))) in
  let ret t r := Some (W (storage w) (<[t := (Idle, r)]> (threads w))) in
  match a with
  | ASet k v => Some (W (<[k := v]> (storage w)) (threads w))
  | ALoadWait t k => match threads w !! t with Some (Idle, _) => go t (LLoad k) | _ => None end
  | ASetWait t k v =>
      match threads w !! t with Some (Idle, _) => Some (W (<[k := v]> (storage w)) (<[t := (SNotify, RNone)]> (threads w))) | _ => None end
  | AStep t =>
      match threads w !! t with
      | Some (LLoad k, _) => match storage w !! k with Some v => ret t (RValue v) | None => go t (LGap k) end
      | Some (LGap k, _) => go t (LSelect k)
      | Some (SNotify, _) => if existsb selecting (threads w) then None else ret t RNil   (* the default case *)
      | _ => None
      end
  | ASignal t u =>
      match threads w !! t, threads w !! u with
      | Some (SNotify, _), Some (LSelect k, _) => go u (LLoad k)
      | _, _ => None
      end
  | ACancel t => match threads w !! t with Some (LSelect _, _) | Some (SNotify, _) => ret t RCancelled | _ => None end
  end.
Fixpoint run (w : world) (tr : list action) : option world :=
  match tr with [] => Some w | a :: tr' => w' ← wait_step w a; run w' tr' end.
Definition init (n : nat) : world := W ∅ (replicate n (Idle, RNone)).

(** A value that is set between the first [Load] and the [select] is not seen: the setter
    finds nobody to tell, and the reader waits with the value in the storage. *)
Example wakeup_lost : exists w,
  run (init 2) [ALoadWait 0 1; AStep 0; ASetWait 1 1 5; AStep 1; AStep 0] = Some w /\
  threads w !! 1%nat = Some (Idle, RNil) /\ storage w !! 1 = Some 5 /\ threads w !! 0%nat = Some (LSelect 1, RNone) /\ wait_step w (AStep 0) = None.
Proof. eexists. split; [vm_compute; reflexivity|]. done. Qed.

(** Two readers of a key that is never set keep the setter of another one busy: after two
    signals and two more rounds everything is as before. *)
Example notify_spins :
  let w := W {[2 := 5]} [(LSelect 1, RNone); (LSelect 1, RNone); (SNotify, RNone)] in
  run w [ASignal 2 0; AStep 0; AStep 0; ASignal 2 1; AStep 1; AStep 1] = Some w.
Proof. vm_compute. reflexivity. Qed.

End Storage.

End UbootEvents.
